(* ===== verification/_CoqProject ===== *)
-Q . S2P
Prelude.v
Utils.v
BitField.v
BitVector.v
BitVectorCorrect.v
HashMap.v
HashMapCorrect.v
ObjectPool.v
ObjectPoolCorrect.v
DataStream.v
DataStreamCorrect.v
Unicode.v
UnicodeCorrect.v
UnicodeString.v
UnicodeStringCorrect.v
UnicodeData.v
UnicodeCase.v
UnicodeCaseCorrect.v
RiscvConstants.v
Locations.v
LocationsCorrect.v
ParallelMove.v
ParallelMoveCorrect.v
RangeAnalysis.v
RangeAnalysisProofs.v
RangeAnalysisCorrect.v
RangeInference.v
RangeInferenceCorrect.v
RiscvEncoding.v
RiscvAssembler.v
RiscvLabels.v
SimMemory.v
SimMemoryProofs.v
SimMemoryCorrect.v
RiscvSimulator.v
RiscvArith.v
RiscvArithCorrect.v
RiscvIsa.v
RiscvDecode.v
RiscvInterpret.v
RiscvInvariant.v
RiscvRefine.v
RiscvAtomics.v
RiscvTables.v
RiscvBranches.v
RiscvEncodingCorrect.v
RiscvCompressed.v
RiscvJumps.v
RiscvCorrect.v
RiscvEmit.v
RiscvPrograms.v
RiscvProgramRuns.v
RiscvFarBranches.v
RiscvMacro.v
RiscvMacroRuns.v
RiscvMacroImmediates.v
RiscvMacroOverflow.v
RiscvMacroConditions.v
RiscvMacroCorrect.v
RiscvMacroStack.v
RiscvPoolConstants.v
