(* ===== verification/Prelude.v ===== *)
(** * The RISC-V execution stack of the Dart virtual machine

    The Dart VM compiles a function to machine code with an assembler and, on a host
    of another architecture, executes the code in a simulator.  This library models
    both for RISC-V (XLEN = 64, release build) from the C++ sources under
    src/runtime/, specifies the instructions independently of them, and proves that
    what is assembled is what is executed.  Around it are the data structures of the
    runtime that the assembler and its neighbours are built on: bit fields, bit vectors,
    hash maps, the builder of the object pool, the streams that write and read numbers,
    text in UTF-8 and UTF-16, the locations and parallel moves between the register
    allocator and the code generator, and the range analysis of the optimizing compiler.

    ** The parts of the program and their models

    The parts are layers, each calling the one before it; the files follow them.

    - src/runtime/platform/utils.h, the integer helpers ([IsInt], [IsUint],
      [IsAligned], ...): file Utils.  This file has what every other one uses:
      machine integers as [Z] with their wrap-around ([u64], [s32], ...), the error
      monad [result], notations, tactics and lemmas on bits and lists.
    - src/runtime/vm/constants_riscv.h, the enumerations and the encoders and decoders
      of instruction fields: files RiscvConstants (one module per C++ enum) and
      RiscvEncoding.
    - [class MicroAssembler] of src/runtime/vm/compiler/assembler/assembler_riscv.h
      and .cc, one method per instruction, which appends 16 or 32 bits to the buffer:
      file RiscvAssembler, module [Asm]; the state is [MicroAssembler], the buffer a
      list of bytes.
    - [class Label] of assembler_base.h, the branch methods, [Bind] and the routines
      that rewrite the instructions of unresolved branches in the buffer, and the loop
      of src/runtime/vm/compiler/jit/compiler.cc that assembles again with longer
      branches: file RiscvLabels, modules [Lbl] and [Branch], [Compile].
    - [class Assembler] of assembler_riscv.h and .cc, the macros the code generator
      calls: file RiscvMacro, module [Macro]; [Hash] has the functions of
      src/runtime/vm/hash.h with which two of the macros are to be kept in sync.  The
      pool of constants is an interface, the class [ObjectPool].
    - src/runtime/vm/bitfield.h: file BitField; the parameters of the template are a
      record.  src/runtime/vm/bit_vector.h and .cc: file BitVector, with its iterator.
    - src/runtime/vm/hash_map.h, [BaseDirectChainedHashMap]: file HashMap; the trait of
      the template is the class [KeyValueTrait], and what the map may rely on the class
      [KeyValueLaws] of HashMapCorrect.
    - [class ObjectPoolBuilder] of object_pool_builder.h and assembler_base.cc, which
      uses both: file ObjectPool, module [Pool]; the objects of the language are the
      class [PoolObject].  RiscvPoolConstants makes it an instance of [ObjectPool].
    - src/runtime/vm/datastream.h and .cc: file DataStream, modules [Read] and [Write];
      a byte of a buffer that was not written is [None].
    - src/runtime/platform/unicode.h and .cc: file Unicode, modules [Utf], [Utf8],
      [Utf16] and [Latin1], and UnicodeCase for [CaseMapping], with the tables of
      src/runtime/vm/unicode_data.cc in UnicodeData.  src/runtime/vm/unicode.cc and the
      [CodePointIterator] of object.h, which encode strings: file UnicodeString.  The
      array that a conversion fills is the list of what was written.
    - [class Location] of src/runtime/vm/compiler/backend/locations.h and .cc, a word made
      of bit fields: file Locations.  parallel_move_resolver.h and .cc with [MoveOperands]
      of il.h: file ParallelMove, modules [Move], [ParallelMoveResolver] and
      [ParallelMoveEmitter]; here the assertions are checked by the model.
    - src/runtime/vm/compiler/backend/range_analysis.h and .cc: file RangeAnalysis, modules
      [RangeBoundary], [Range] and [RangeAnalysis], for the arithmetic of ranges, joins,
      constraints, widening, narrowing and the test for a redundant bounds check, and
      RangeInference, module [Inference], for the ranges the instructions infer and the
      iteration over them.  Of the flow graph the model has what these functions read; the
      assertions are checked.
    - src/runtime/vm/simulator_memory.h, the memory of the simulator with its buffer of
      unpublished stores: file SimMemory, modules [Direct], [Buffered] and [Sim]; the
      memory of the process is a finite map of bytes.
    - src/runtime/vm/simulator_riscv.h and .cc, the state, the interpreter, the
      arithmetic helpers, the counters (src/runtime/vm/random.cc) and the entry
      [CallX]: file RiscvSimulator; one definition per [Interpret] function.  The
      simulator is parametric in its memory, the class [MemoryOps]; what it may rely
      on is the class [MemoryLaws], of which SimMemoryProofs has the instances.

    A method that changes an object is a function from its state to the next one.  An
    [ASSERT] does nothing in a release build: in the range analysis, the resolver of
    parallel moves and the loop of the compiler a failing one is an error value, elsewhere
    it reappears as a hypothesis.  [FATAL],
    [UNREACHABLE], the long jump of a branch offset error, an illegal instruction, an
    access outside the memory of the process and arithmetic that C++ leaves undefined
    are error values.

    ** What is proved

    - RiscvIsa is the specification: the integer instructions as data, and their
      meaning written from the instruction-set manual.
    - Encodings (RiscvDecode, RiscvTables, RiscvEncodingCorrect): an operand that
      passes the test of its encoder is what the decoder reads, in the 32-bit formats
      by proof and in the compressed ones by running all operands.
    - Instructions (RiscvInterpret, RiscvCompressed, RiscvCorrect): the bytes of an
      instruction, compressed or not, make the simulator take the step of the manual
      (not of the two that are encoded wrongly with RV_C, of the word products and
      rotations that C++ leaves undefined, and of jumps to odd addresses); a
      straight-line function called through [CallX] that keeps RA returns.
    - Branches (RiscvBranches, RiscvEmit, RiscvJumps, RiscvPrograms, RiscvProgramRuns,
      RiscvFarBranches): [Bind] resolves exactly the branches of its label, an
      assembled program that does not write into its code runs item by item, a branch
      reaches its label unless that is 524285 to 524296 bytes back, and the loop of the
      compiler ends with code.
    - Memory (SimMemoryProofs, SimMemoryCorrect, RiscvRefine): the write buffer is
      invisible, and the simulator does on it what it does on plain memory, as long as
      ordered and atomic accesses are to multiples of 8 and no code is buffered.
    - The simulator on its own (RiscvInvariant, RiscvAtomics, RiscvArith,
      RiscvArithCorrect): well-formed states, independence of the bound on rounds, the
      retry loops of the atomic instructions, and what the helpers compute.
    - Macros (RiscvMacroRuns, RiscvMacroImmediates, RiscvMacroOverflow,
      RiscvMacroConditions, RiscvMacroCorrect): the code of a macro, run by the
      simulator, leaves the value of the macro in its register and changes the scratch
      registers at most, or branches when the condition of the macro holds.
      RiscvMacroStack has the macros that access memory, specified on the memory of
      the process by what holds before and after their code; RiscvRefine carries a
      run to every other memory.
    - Bit fields (BitField): values that fit are decoded as they were encoded, and
      fields that do not overlap do not disturb each other.  Bit vectors
      (BitVectorCorrect): the words are a set of numbers below the length, and every
      operation and the iterator do what they do on the set.
    - Hash maps (HashMapCorrect): the table, with its probing, its deleted slots and its
      rebuilding, does what an association list with distinct keys does.
    - The object pool (ObjectPoolCorrect): every index that was given out holds its
      entry, also after a pool is committed to its parent; RiscvPoolConstants joins this
      with the macros: the code of [LoadImmediate] loads its constant from the pool.
    - Streams (DataStreamCorrect): numbers in every format are read back as they were
      written, on every class of streams; the unrolled readers are the loop.
    - Text (UnicodeCorrect, UnicodeStringCorrect, UnicodeCaseCorrect): code points are
      decoded as they were encoded and nothing else is accepted; conversions stay within
      their room and succeed when there is enough; strings are encoded, by words or by
      characters, as their code points are; the case mappings stay in their tables.
    - Locations (LocationsCorrect): the encodings of different places are different and are
      read back by the accessors.  Parallel moves (ParallelMoveCorrect): the schedule of
      moves and swaps has the effect of all moves at once, no assertion fails, and a
      scratch register is one the rest of the schedule does not read.
    - Ranges (RangeAnalysisProofs, RangeAnalysisCorrect): under a valuation that fits the
      graph, the range of every operation, conversion, constraint and phi of Smis contains
      the value, no assertion fails and the walks along the symbols end; a bounds check
      found redundant does not fail.  RangeInferenceCorrect joins this into the iteration:
      for code that is executed in order, with phis of Smis, results that fit and values
      that are boxed and converted inside their representations ([execution]),
      [InferRanges] fails no assertion and leaves ranges that contain their values.
    - What the code does where it departs from what it means to do: the theorems of
      RiscvFarBranches, RiscvArithCorrect, SimMemoryCorrect, RiscvMacroCorrect,
      UnicodeStringCorrect, UnicodeCaseCorrect, BitVectorCorrect and RangeAnalysisCorrect
      on lost links, missed distances, undefined shifts, stale ordered loads, registers
      that coincide, a count that is not returned, a table that is read past its end, bits
      set beyond a length, and ranges of phis and truncated sums that are too small.

    ** Bounds and fuel

    - [bind_fuel], the length of the buffer and one: a link goes back by at least one
      byte, so that no list of branches is longer.
    - [exchange_rounds], the spurious failures that the host has left and one.
    - [ExecuteNoTrace] takes the number of rounds as an argument; the theorems give
      one that is enough, and that a larger one changes nothing.
    - [LoadImmediate_loop] has three recursive calls: each takes twelve bits of the
      constant and the fourth finds at most 32; [shift_loop] has 64 rounds for 64 bits.
    - Programs without near jumps always assemble when twelve bytes for each item are at
      most 2^30 at far-branch level two and 2^19 - 8 at level one: the parts of a far offset are 32 bits, and the
      assembler lets a jump reach 2^19 bytes.  [Compile_loop] raises the level twice
      at most.
    - The loops of the hash map take as many rounds as there are slots, of which one is
      empty; [Insert] calls itself through [Resize] once, because the new array has room
      for all pairs ([Insert_nested] at depth one); an iterator looks at each pair once.
      Tables stay below 2^31 slots and the limit on probes: the hypothesis [can_grow].
    - The readers of streams take a round per byte that is left ([rounds]); the writers
      ten ([kRounds]), seven bits each.
    - The iterator of a bit vector looks at each word once, at eight bytes of a word and at
      eight bits of a byte at most.
    - [PerformMove] takes as many nested calls as there are moves: the moves that are
      pending are different ones.
    - The walks of the range analysis along symbols and constraints take as many rounds as
      there are definitions: the ranks in the theorems say that the symbols of a range and
      the inputs of an instruction come before it.  A comparison steps two boundaries, so
      it takes twice as many rounds and one.  [InferRanges] has the bounds of the source,
      two and 2^31 - 1, and stops when nothing changes.
    - The loops over text take a round per byte or character of the input: every round
      of a loop consumes one at least.
    - Constants of the macros that may not use the pool are below 2^63 - 2^11: a
      subtraction overflows above.

    ** Not modelled

    - Floating point: the interpreter uses the arithmetic and the rounding modes of
      the host compiler.  Loads and stores of floating-point registers are modelled
      in the simulator.
    - Calls from generated code into the runtime, the stack limits, the debugger and
      the traces of the simulator: arbitrary C++ of the host, or output.
    - Of the macros: sets of registers, objects and code in the pool, write barriers,
      safepoints, allocation, calls into the runtime, the loop of
      [CountLeadingZeroes].
    - Allocation: of arrays, handles and buffers, which does not fail; the copy
      constructor and the other traits of the hash maps; the atomic container of bit
      fields; formatted output to streams.
    - Pairs of locations; the code for a move or a swap and for spilling a register;
      serialization of locations and schedules.
    - Of the range analysis: the insertion and removal of constraints in the graph, checks
      that are generalized out of loops, induction variables, the ranges of class ids, the
      selection of integer instructions.  Its soundness for loops, where a phi and its
      inputs have values at different times, is not stated.
    - The other architectures, the compiler above the assembler, the object model, the
      heap, snapshots, isolates and the embedder: separate systems.

    ** Plan

    What could come next: the soundness of the inferred ranges for loops; the loops among
    the macros and the sets of registers; the encodings and the loads and stores of the
    floating-point registers; the other small data structures of the runtime. *)

From stdpp Require Export base tactics numbers list gmap.
From Stdlib Require Export ZArith Lia Bool.

#[global] Open Scope Z_scope.

(** ** Notations of the development *)

Declare Scope vm_scope.
Delimit Scope vm_scope with vm.
Infix ".|" := Z.lor (at level 53, left associativity) : vm_scope.
Infix ".^" := Z.lxor (at level 52, left associativity) : vm_scope.
Infix ".&" := Z.land (at level 51, left associativity) : vm_scope.
#[global] Open Scope vm_scope.

(** ** Machine integers

    A [w]-bit C++ integer is a [Z]; [uwrap w] and [swrap w] are the
    conversions to [uintw_t] and [intw_t]. *)

Definition uwrap (w z : Z) : Z := z mod 2 ^ w.
Definition swrap (w z : Z) : Z := (z + 2 ^ (w - 1)) mod 2 ^ w - 2 ^ (w - 1).

Abbreviation u8 := (uwrap 8).
Abbreviation u16 := (uwrap 16).
Abbreviation u32 := (uwrap 32).
Abbreviation u64 := (uwrap 64).
Abbreviation s8 := (swrap 8).
Abbreviation s16 := (swrap 16).
Abbreviation s32 := (swrap 32).
Abbreviation s64 := (swrap 64).

(** The values of [uintw_t] and of [intw_t]. *)
Definition is_u (w z : Z) : Prop := 0 <= z < 2 ^ w.
Definition is_s (w z : Z) : Prop := - 2 ^ (w - 1) <= z < 2 ^ (w - 1).

(** ** Results: a value or an error of type [E] *)

Inductive result (E A : Type) : Type :=
| Ok (a : A)
| Err (e : E).
Arguments Ok {E A} _.
Arguments Err {E A} _.

#[global] Instance result_ret {E} : MRet (result E) := @Ok E.
#[global] Instance result_bind {E} : MBind (result E) := fun A B k m =>
  match m with
  | Ok a => k a
  | Err e => Err e
  end.

Lemma bind_Ok {E A B} (a : A) (k : A -> result E B) : (x ← Ok a; k x) = k a.
Proof. done. Qed.

Lemma bind_Ok_inv {E A B} (m : result E A) (k : A -> result E B) b :
  (x ← m; k x) = Ok b -> exists a, m = Ok a /\ k a = Ok b.
Proof. destruct m; simpl; [eauto|done]. Qed.

(** ** Automation *)

Create HintDb vm discriminated.
Create Rewrite HintDb vm.
Create Rewrite HintDb vm_bits.

(** Reads a boolean guard of the code as the proposition it decides. *)
Ltac reflect_bool :=
  repeat match goal with
  | H : context [ _ && _ = true ] |- _ => rewrite andb_true_iff in H
  | H : context [ _ || _ = true ] |- _ => rewrite orb_true_iff in H
  | H : context [ negb _ = true ] |- _ => rewrite negb_true_iff in H
  | H : context [ (_ <=? _) = true ] |- _ => rewrite Z.leb_le in H
  | H : context [ (_ <? _) = true ] |- _ => rewrite Z.ltb_lt in H
  | H : context [ (_ =? _) = true ] |- _ => rewrite Z.eqb_eq in H
  | H : context [ (_ <=? _) = false ] |- _ => rewrite Z.leb_gt in H
  | H : context [ (_ <? _) = false ] |- _ => rewrite Z.ltb_ge in H
  | H : context [ (_ =? _) = false ] |- _ => rewrite Z.eqb_neq in H
  | H : _ /\ _ |- _ => destruct H
  end.

(** ** Powers of two and wrap-around *)

Lemma pow2_pos n : 0 <= n -> 0 < 2 ^ n.
Proof. intros. apply Z.pow_pos_nonneg; lia. Qed.

Lemma uwrap_range w z : 0 <= w -> 0 <= uwrap w z < 2 ^ w.
Proof. intros. unfold uwrap. apply Z.mod_pos_bound, pow2_pos; lia. Qed.

Lemma uwrap_small w z : is_u w z -> uwrap w z = z.
Proof. intros. unfold uwrap. by apply Z.mod_small. Qed.

Lemma pow2_split w : 0 < w -> 2 ^ w = 2 * 2 ^ (w - 1).
Proof. intros. rewrite <- Z.pow_succ_r by lia. f_equal. lia. Qed.

Lemma swrap_range w z : 0 < w -> is_s w (swrap w z).
Proof.
  intros. unfold swrap, is_s. pose proof (pow2_pos (w - 1)).
  pose proof (Z.mod_pos_bound (z + 2 ^ (w - 1)) (2 ^ w)).
  rewrite (pow2_split w) in * by lia. lia.
Qed.

Lemma swrap_small w z : 0 < w -> is_s w z -> swrap w z = z.
Proof.
  intros Hw Hz. unfold swrap, is_s in *. rewrite Z.mod_small; [lia|].
  rewrite (pow2_split w) by lia. lia.
Qed.

(** Conversions only depend on the low bits. *)
Lemma uwrap_uwrap w z : uwrap w (uwrap w z) = uwrap w z.
Proof. unfold uwrap. apply Zmod_mod. Qed.

Lemma swrap_uwrap w z : swrap w (uwrap w z) = swrap w z.
Proof. unfold swrap, uwrap. by rewrite Zplus_mod_idemp_l. Qed.

Lemma swrap_swrap w z : 0 < w -> swrap w (swrap w z) = swrap w z.
Proof. intros. by apply swrap_small, swrap_range. Qed.

Lemma uwrap_swrap w z : 0 < w -> uwrap w (swrap w z) = uwrap w z.
Proof.
  intros. unfold swrap, uwrap. rewrite Zminus_mod_idemp_l. f_equal. lia.
Qed.

Lemma uwrap_eq_swrap w x y :
  0 < w -> uwrap w x = uwrap w y -> swrap w x = swrap w y.
Proof. intros ? E. by rewrite <- (swrap_uwrap w x), E, swrap_uwrap. Qed.

Lemma uwrap_le w v z : 0 <= v <= w -> uwrap v (uwrap w z) = uwrap v z.
Proof.
  intros. unfold uwrap. apply Z.mod_mod_divide.
  exists (2 ^ (w - v)). rewrite <- Z.pow_add_r by lia. f_equal. lia.
Qed.

Lemma uwrap_add_l w x y : uwrap w (uwrap w x + y) = uwrap w (x + y).
Proof. apply Zplus_mod_idemp_l. Qed.
Lemma uwrap_add_r w x y : uwrap w (x + uwrap w y) = uwrap w (x + y).
Proof. apply Zplus_mod_idemp_r. Qed.
Lemma uwrap_sub_l w x y : uwrap w (uwrap w x - y) = uwrap w (x - y).
Proof. apply Zminus_mod_idemp_l. Qed.
Lemma uwrap_sub_r w x y : uwrap w (x - uwrap w y) = uwrap w (x - y).
Proof. apply Zminus_mod_idemp_r. Qed.
Lemma uwrap_mul_l w x y : uwrap w (uwrap w x * y) = uwrap w (x * y).
Proof. apply Zmult_mod_idemp_l. Qed.
Lemma uwrap_mul_r w x y : uwrap w (x * uwrap w y) = uwrap w (x * y).
Proof. apply Zmult_mod_idemp_r. Qed.

Lemma swrap_add_l w x y : swrap w (uwrap w x + y) = swrap w (x + y).
Proof. by rewrite <- swrap_uwrap, uwrap_add_l, swrap_uwrap. Qed.
Lemma swrap_add_r w x y : swrap w (x + uwrap w y) = swrap w (x + y).
Proof. by rewrite <- swrap_uwrap, uwrap_add_r, swrap_uwrap. Qed.
Lemma swrap_mul_l w x y : swrap w (uwrap w x * y) = swrap w (x * y).
Proof. by rewrite <- swrap_uwrap, uwrap_mul_l, swrap_uwrap. Qed.
Lemma swrap_mul_r w x y : swrap w (x * uwrap w y) = swrap w (x * y).
Proof. by rewrite <- swrap_uwrap, uwrap_mul_r, swrap_uwrap. Qed.

#[export] Hint Rewrite swrap_uwrap swrap_add_l swrap_add_r swrap_mul_l swrap_mul_r : vm.
#[export] Hint Rewrite uwrap_uwrap uwrap_add_l uwrap_add_r uwrap_sub_l
  uwrap_sub_r uwrap_mul_l uwrap_mul_r : vm.

(** ** Bits *)

Lemma testbit_high w x i : is_u w x -> 0 <= w <= i -> Z.testbit x i = false.
Proof.
  intros Hx Hi. apply (Z.bounded_iff_bits_nonneg w x); unfold is_u in *; lia.
Qed.

Lemma testbit_uwrap w x i :
  0 <= w -> Z.testbit (uwrap w x) i = (i <? w) && Z.testbit x i.
Proof. apply Z.testbit_mod_pow2. Qed.

Lemma is_u_bits w x :
  0 <= w -> 0 <= x -> (forall i, w <= i -> Z.testbit x i = false) -> is_u w x.
Proof. intros. split; [done|]. by apply Z.bounded_iff_bits_nonneg. Qed.

(** Sign extension replicates the sign bit. *)
Lemma testbit_swrap w x i :
  0 < w -> 0 <= i ->
  Z.testbit (swrap w x) i = Z.testbit x (if i <? w then i else w - 1).
Proof.
  intros Hw Hi. destruct (i <? w) eqn:E; reflect_bool.
  - rewrite <- (Z.mod_pow2_bits_low (swrap w x) w i) by lia.
    change (swrap w x mod 2 ^ w) with (uwrap w (swrap w x)).
    rewrite uwrap_swrap by lia. unfold uwrap. by apply Z.mod_pow2_bits_low.
  - pose proof (swrap_range w x Hw) as [Hl Hh].
    assert (Hs : Z.testbit x (w - 1) = Z.testbit (swrap w x) (w - 1)).
    { rewrite <- (Z.mod_pow2_bits_low x w (w - 1)) by lia.
      rewrite <- (Z.mod_pow2_bits_low (swrap w x) w (w - 1)) by lia.
      change (x mod 2 ^ w) with (uwrap w x).
      change (swrap w x mod 2 ^ w) with (uwrap w (swrap w x)).
      by rewrite uwrap_swrap by lia. }
    rewrite Hs. set (y := swrap w x) in *. clearbody y. clear Hs.
    destruct (Z_lt_le_dec y 0).
    + rewrite <- (Z.lnot_involutive y).
      rewrite !(Z.lnot_spec (Z.lnot y)) by lia. f_equal.
      rewrite !(testbit_high (w - 1)); unfold is_u, Z.lnot; lia.
    + rewrite !(testbit_high (w - 1)); unfold is_u; lia.
Qed.

Lemma swrap_bit_ext w x y :
  0 < w -> (forall i, 0 <= i < w -> Z.testbit x i = Z.testbit y i) ->
  swrap w x = swrap w y.
Proof.
  intros Hw H. apply uwrap_eq_swrap; [done|].
  apply Z.bits_inj'. intros i Hi. rewrite !testbit_uwrap by lia.
  destruct (i <? w) eqn:E; [|done]. reflect_bool. cbn. apply H. lia.
Qed.

Lemma uwrap_bit_ext w x y :
  0 <= w -> (forall i, 0 <= i < w -> Z.testbit x i = Z.testbit y i) ->
  uwrap w x = uwrap w y.
Proof.
  intros Hw H. apply Z.bits_inj'. intros i Hi. rewrite !testbit_uwrap by lia.
  destruct (i <? w) eqn:E; [|done]. reflect_bool. cbn. apply H. lia.
Qed.

(** ** Bit fields

    [field x lo n] is the [n]-bit field of [x] at bit [lo]: the code's
    [(x >> lo) & mask].  An encoder is a disjunction of shifted fields, and
    the lemmas below extract each of them again. *)

Definition field (x lo n : Z) : Z := (x ≫ lo) .& Z.ones n.

Lemma testbit_field x lo n i :
  0 <= lo -> 0 <= n -> 0 <= i ->
  Z.testbit (field x lo n) i = (i <? n) && Z.testbit x (i + lo).
Proof.
  intros. unfold field. rewrite Z.land_spec, Z.shiftr_spec by lia.
  rewrite Z.testbit_ones_nonneg by lia. apply andb_comm.
Qed.

Lemma field_range x lo n : 0 <= n -> is_u n (field x lo n).
Proof.
  intros. unfold field. rewrite Z.land_ones by lia. by apply uwrap_range.
Qed.

Lemma field_lor x y lo n : field (x .| y) lo n = field x lo n .| field y lo n.
Proof. unfold field. by rewrite Z.shiftr_lor, Z.land_lor_distr_l. Qed.

Lemma field_shiftl_same x lo n :
  0 <= lo -> 0 <= n -> is_u n x -> field (x ≪ lo) lo n = x.
Proof.
  intros. unfold field. rewrite Z.shiftr_shiftl_l by lia.
  replace (lo - lo) with 0 by lia. rewrite Z.shiftl_0_r, Z.land_ones by lia.
  by apply Z.mod_small.
Qed.

Lemma field_shiftl_above x k lo n :
  0 <= lo -> 0 <= n -> lo + n <= k -> field (x ≪ k) lo n = 0.
Proof.
  intros. apply Z.bits_inj'. intros i Hi.
  rewrite testbit_field, Z.bits_0, Z.shiftl_spec by lia.
  destruct (i <? n) eqn:E; [|done]. reflect_bool.
  simpl. apply Z.testbit_neg_r. lia.
Qed.

Lemma field_shiftl_below m x k lo n :
  0 <= lo -> 0 <= n -> 0 <= k -> 0 <= m -> is_u m x -> k + m <= lo ->
  field (x ≪ k) lo n = 0.
Proof.
  intros. apply Z.bits_inj'. intros i Hi.
  rewrite testbit_field, Z.bits_0, Z.shiftl_spec by lia.
  rewrite (testbit_high m) by (done || lia). by rewrite andb_false_r.
Qed.

Lemma field_small x n : 0 <= n -> is_u n x -> field x 0 n = x.
Proof.
  intros. unfold field. rewrite Z.shiftr_0_r, Z.land_ones by lia.
  by apply Z.mod_small.
Qed.

Lemma field_below m x lo n :
  0 <= lo -> 0 <= n -> 0 <= m -> is_u m x -> m <= lo -> field x lo n = 0.
Proof.
  intros. rewrite <- (Z.shiftl_0_r x).
  apply (field_shiftl_below m); done || lia.
Qed.

Lemma is_u_lor w x y : 0 <= w -> is_u w x -> is_u w y -> is_u w (x .| y).
Proof.
  intros Hw Hx Hy. apply is_u_bits; [done| |].
  - apply Z.lor_nonneg. unfold is_u in *. lia.
  - intros i Hi. by rewrite Z.lor_spec, !(testbit_high w) by (done || lia).
Qed.

Lemma is_u_shiftl w n x k :
  0 <= k -> 0 <= n -> n + k <= w -> is_u n x -> is_u w (x ≪ k).
Proof.
  unfold is_u. intros. rewrite Z.shiftl_mul_pow2 by lia.
  assert (2 ^ (n + k) <= 2 ^ w) by (apply Z.pow_le_mono_r; lia).
  rewrite Z.pow_add_r in * by lia. pose proof (pow2_pos k). nia.
Qed.

Lemma is_u_mono n w x : 0 <= n <= w -> is_u n x -> is_u w x.
Proof.
  unfold is_u. intros ? []. split; [done|].
  eapply Z.lt_le_trans; [done|]. apply Z.pow_le_mono_r; lia.
Qed.

(** ** Bit by bit on a bounded range *)

Lemma forall_range (P : Z -> Prop) n :
  Forall P (seqZ 0 n) -> forall i, 0 <= i < n -> P i.
Proof.
  rewrite Forall_forall. intros H i Hi. apply H, elem_of_seqZ. lia.
Qed.

Lemma testbit_field_shiftl x lo n k i :
  0 <= lo -> 0 <= n -> 0 <= k -> 0 <= i ->
  Z.testbit (field x lo n ≪ k) i
  = (k <=? i) && (i <? k + n) && Z.testbit x (i - k + lo).
Proof.
  intros. rewrite Z.shiftl_spec by lia. destruct (k <=? i) eqn:E; reflect_bool.
  - rewrite testbit_field by lia. simpl. f_equal.
    destruct (i <? k + n) eqn:F; reflect_bool; [apply Z.ltb_lt|apply Z.ltb_ge]; lia.
  - by rewrite Z.testbit_neg_r by lia.
Qed.

(** Computes the closed arithmetic a bit index or a guard consists of. *)
Ltac eval_closed :=
  repeat match goal with
  | |- context [ ?a <=? ?b ] =>
      let c := eval vm_compute in (a <=? b) in
      lazymatch c with true => idtac | false => idtac end; change (a <=? b) with c
  | |- context [ ?a <? ?b ] =>
      let c := eval vm_compute in (a <? b) in
      lazymatch c with true => idtac | false => idtac end; change (a <? b) with c
  | |- context [ ?a =? ?b ] =>
      let c := eval vm_compute in (a =? b) in
      lazymatch c with true => idtac | false => idtac end; change (a =? b) with c
  | |- context [ Z.testbit ?x (?a - ?b + ?d) ] =>
      let c := eval vm_compute in (a - b + d) in change (a - b + d) with c
  end.

(** Proves [forall i, 0 <= i < n -> P i] for a literal [n], one bit at a time. *)
Ltac each_bit tac :=
  apply forall_range;
  match goal with
  | |- Forall _ ?l => let l' := eval vm_compute in l in change l with l'
  end;
  repeat apply Forall_cons_2; [..|apply Forall_nil_2]; tac.

Ltac field_bits :=
  rewrite ?Z.lor_spec, ?testbit_field_shiftl by lia;
  eval_closed; cbn [andb orb]; rewrite ?orb_false_r, ?orb_false_l; try reflexivity.

(** ** Lists *)

Lemma filter_ext_elem {A} (P Q : A -> Prop)
    `{!forall x, Decision (P x), !forall x, Decision (Q x)} (l : list A) :
  (forall x, x ∈ l -> P x <-> Q x) -> filter P l = filter Q l.
Proof.
  induction l as [|x l IH]; intros Hpq; [done|]. rewrite !filter_cons.
  pose proof (Hpq x (list_elem_of_here x l)).
  rewrite IH by (intros y Hy; apply Hpq; by apply list_elem_of_further).
  repeat case_decide; tauto.
Qed.
