(* ===== verification/Utils.v ===== *)
(** * [Utils]: the integer helpers of runtime/platform/utils.h

    The C++ integer types as records of a width and a signedness, and the
    static functions of [class Utils] that the encoders, the assembler and the
    simulator call, with the theorems that say what they decide or compute. *)

From S2P Require Import Prelude.

(** ** C++ integer types *)

Record ctype := mkCtype { ct_bits : Z; ct_signed : bool }.

Definition int8_t := mkCtype 8 true.
Definition int16_t := mkCtype 16 true.
Definition int32_t := mkCtype 32 true.
Definition int64_t := mkCtype 64 true.
Definition uint8_t := mkCtype 8 false.
Definition uint16_t := mkCtype 16 false.
Definition uint32_t := mkCtype 32 false.
Definition uint64_t := mkCtype 64 false.
(** On the 64-bit hosts the model describes. *)
Definition intptr_t := int64_t.
Definition uword := uint64_t.

(** The conversion [static_cast<T>(z)] and the values of [T]. *)
Definition ct_cast (T : ctype) (z : Z) : Z :=
  if ct_signed T then swrap (ct_bits T) z else uwrap (ct_bits T) z.
Definition ct_in (T : ctype) (z : Z) : Prop :=
  if ct_signed T then is_s (ct_bits T) z else is_u (ct_bits T) z.
Definition ct_sizeof (T : ctype) : Z := ct_bits T / 8.

Lemma ct_cast_in T z : 0 < ct_bits T -> ct_in T (ct_cast T z).
Proof.
  intros. unfold ct_in, ct_cast. destruct (ct_signed T).
  - by apply swrap_range.
  - apply uwrap_range. lia.
Qed.

Lemma ct_cast_id T z : 0 < ct_bits T -> ct_in T z -> ct_cast T z = z.
Proof.
  unfold ct_in, ct_cast. intros. destruct (ct_signed T).
  - by apply swrap_small.
  - by apply uwrap_small.
Qed.

(** ** Alignment and size tests *)

Definition IsPowerOfTwo (x : Z) : bool := (x .& (x - 1) =? 0) && negb (x =? 0).

Definition IsAligned (x alignment offset : Z) : bool :=
  x .& (alignment - 1) =? offset.

Definition RoundDown (x alignment : Z) : Z := x .& (- alignment).

Definition IsInt (T : ctype) (N value : Z) : bool :=
  if ct_signed T then
    if ct_bits T <=? N then true
    else let limit := 1 ≪ (N - 1) in (- limit <=? value) && (value <? limit)
  else
    if ct_bits T <? N then true
    else let limit := 1 ≪ (N - 1) in value <? limit.

Definition IsUint (T : ctype) (N value : Z) : bool :=
  if ct_signed T then
    if value <? 0 then false
    else if ct_bits T - 1 <=? N then true
    else let limit := (1 ≪ N) - 1 in value <=? limit
  else
    if ct_bits T <=? N then true
    else let limit := (1 ≪ N) - 1 in value <=? limit.

Lemma IsAligned_pow2 x k : 0 <= k -> IsAligned x (2 ^ k) 0 = (x mod 2 ^ k =? 0).
Proof.
  intros. unfold IsAligned. replace (2 ^ k - 1) with (Z.ones k).
  - by rewrite Z.land_ones.
  - rewrite Z.ones_equiv. lia.
Qed.

Lemma RoundDown_pow2 x k : 0 <= k -> RoundDown x (2 ^ k) = 2 ^ k * (x / 2 ^ k).
Proof.
  intros. unfold RoundDown. replace (- 2 ^ k) with (Z.lnot (Z.ones k)).
  - rewrite <- Z.ldiff_land, Z.ldiff_ones_r, Z.shiftr_div_pow2,
      Z.shiftl_mul_pow2 by lia. lia.
  - unfold Z.lnot. rewrite Z.ones_equiv. lia.
Qed.

(** [Utils::IsInt<intptr_t>] decides membership in the [N]-bit signed range. *)
Lemma IsInt_intptr N v :
  1 <= N < 64 -> IsInt intptr_t N v = true <-> is_s N v.
Proof.
  intros. unfold IsInt, is_s, intptr_t, int64_t. cbn [ct_signed ct_bits].
  destruct (64 <=? N) eqn:E; [apply Z.leb_le in E; lia|]. cbv zeta.
  rewrite Z.shiftl_1_l, andb_true_iff, Z.leb_le, Z.ltb_lt. done.
Qed.

Lemma IsUint_intptr N v :
  1 <= N < 63 -> IsUint intptr_t N v = true <-> is_u N v.
Proof.
  intros. unfold IsUint, is_u, intptr_t, int64_t. cbn [ct_signed ct_bits].
  replace (64 - 1) with 63 by lia.
  destruct (63 <=? N) eqn:E; [apply Z.leb_le in E; lia|]. cbv zeta.
  rewrite Z.shiftl_1_l.
  destruct (v <? 0) eqn:F; reflect_bool; [split; [done|lia]|].
  rewrite Z.leb_le. lia.
Qed.

(** ** Lengths in bits *)

(** The position of the highest bit of the magnitude, by halving. *)
Definition HighestBit (v : Z) : Z :=
  let x := u64 (if 0 <? v then v else - v) in
  let halve n '(x, r) := let t := x ≫ n in if negb (t =? 0) then (t, r + n) else (x, r) in
  let '(x, r) := halve 2 (halve 4 (halve 8 (halve 16 (halve 32 (x, 0))))) in
  if 1 <? x then r + 1 else r.

Definition BitLength (value : Z) : Z :=
  let value := Z.lxor value (value ≫ 63) in
  if value =? 0 then 0 else HighestBit value + 1.

(** ** Arithmetic on [int64_t] *)

Definition kMinInt64 : Z := - 2 ^ 63.
Definition kMaxInt64 : Z := 2 ^ 63 - 1.
Definition Minimum (x y : Z) : Z := if x <? y then x else y.
Definition Maximum (x y : Z) : Z := if y <? x then x else y.
Definition AbsWithSaturation (x : Z) : Z :=
  if x <? 0 then if x =? kMinInt64 then kMaxInt64 else - x else x.
Definition WillAddOverflow (a b : Z) : bool :=
  ((0 <? b) && (kMaxInt64 - b <? a)) || ((b <? 0) && (a <? kMinInt64 - b)).
Definition WillSubOverflow (a b : Z) : bool :=
  ((0 <? b) && (a <? kMinInt64 + b)) || ((b <? 0) && (kMaxInt64 + b <? a)).
