(* ===== verification/BitField.v ===== *)
(** * Bit fields: runtime/vm/bitfield.h

    [BitField<S, T, position, requested_size, sign_extend>] packs a value of type [T]
    into the bits from [position] on of a storage of type [S]. *)

From S2P Require Import Prelude Utils.

(** The parameters of the template, and what its assertions ask of them. *)
Record field_params := mkField {
  bf_S : ctype;
  bf_T : ctype;
  bf_position : Z;
  bf_requested_size : Z;
  bf_sign_extend : bool
}.

Module BitField.
Section BitField.
Context (F : field_params).

(** The private constant [size]. *)
Definition size : Z :=
  if negb (bf_sign_extend F) && ct_signed (bf_T F) && (ct_bits (bf_T F) <=? bf_requested_size F)
  then ct_bits (bf_T F) - 1 else bf_requested_size F.

Definition kNextBit : Z := bf_position F + size.

(** [Utils::NBitMask<uint64_t>]. *)
Definition NBitMask (n : Z) : Z := if n =? 64 then 2 ^ 64 - 1 else (1 ≪ n) - 1.

Definition mask : Z := ct_cast (bf_S F) (NBitMask size).
Definition mask_in_place : Z := ct_cast (bf_S F) (u64 (u64 mask ≪ bf_position F)).

Definition encode_unchecked (value : Z) : Z :=
  let u := u64 value in
  ct_cast (bf_S F) (ct_cast (bf_S F) (u .& u64 mask) ≪ bf_position F).

Definition decode (value : Z) : Z :=
  let u := u64 value in
  if bf_sign_extend F
  then ct_cast (bf_T F) (s64 (u64 (u ≪ (64 - kNextBit))) ≫ (64 - size))
  else ct_cast (bf_T F) ((u ≫ bf_position F) .& u64 mask).

Definition is_valid (value : Z) : bool := decode (encode_unchecked value) =? value.

(** [encode] asserts [is_valid]. *)
Definition encode (value : Z) : Z := encode_unchecked value.

Definition update (value original : Z) : Z :=
  ct_cast (bf_S F) (encode value .| (Z.lnot mask_in_place .& original)).

Definition max : Z := ct_cast (bf_T F) (NBitMask (size - (if bf_sign_extend F then 1 else 0))).
Definition min : Z := ct_cast (bf_T F) (if bf_sign_extend F then u64 (Z.lnot (u64 max)) else 0).
End BitField.
End BitField.

(** ** What the fields hold *)

Module BitFieldFacts.
Import BitField.

(** The static assertions of the template, for an unsigned storage type. *)
Record field_ok (F : field_params) : Prop := {
  ok_S : 0 < ct_bits (bf_S F) <= 64 /\ ct_signed (bf_S F) = false;
  ok_T : 1 < ct_bits (bf_T F) <= 64;
  ok_requested : 0 < bf_requested_size F <= ct_bits (bf_T F);
  ok_sign : bf_sign_extend F = true -> ct_signed (bf_T F) = true;
  ok_fits : 0 <= bf_position F /\ bf_position F + size F <= ct_bits (bf_S F)
}.

(** The values a field holds. *)
Definition representable (F : field_params) (v : Z) : Prop :=
  if bf_sign_extend F then is_s (size F) v else is_u (size F) v.

(** Two fields of the same storage that do not overlap. *)
Definition disjoint_fields (F G : field_params) : Prop :=
  kNextBit F <= bf_position G \/ kNextBit G <= bf_position F.

Section Field.
Context (F : field_params) (HF : field_ok F).

Lemma size_bounds :
  0 < size F <= ct_bits (bf_T F) /\ (ct_signed (bf_T F) = true -> bf_sign_extend F = false ->
    size F < ct_bits (bf_T F)).
Proof.
  destruct HF as [_ HT HR HS _]. unfold size.
  destruct (bf_sign_extend F), (ct_signed (bf_T F)), (_ <=? _) eqn:E; cbn [negb andb]; reflect_bool;
    split; intros; try discriminate; lia.
Qed.

Lemma mask_ones : mask F = Z.ones (size F) /\ u64 (mask F) = Z.ones (size F).
Proof.
  destruct size_bounds as [Hs _]. destruct HF as [[HS HU] HT _ _ [HP HN]].
  assert (En : NBitMask (size F) = Z.ones (size F)).
  { unfold NBitMask. destruct (size F =? 64) eqn:E; reflect_bool; [by rewrite E|].
    rewrite Z.shiftl_1_l, Z.ones_equiv. lia. }
  assert (Hr : forall w, size F <= w -> is_u w (Z.ones (size F))).
  { intros w Hw. unfold is_u. rewrite Z.ones_equiv.
    pose proof (Z.pow_le_mono_r 2 (size F) w ltac:(lia) Hw). pose proof (pow2_pos (size F)). lia. }
  assert (Em : mask F = Z.ones (size F)).
  { unfold mask, ct_cast. rewrite HU, En. apply uwrap_small, Hr. lia. }
  split; [done|]. rewrite Em. apply uwrap_small, Hr. lia.
Qed.

Lemma testbit_encode v i :
  0 <= i -> Z.testbit (encode F v) i
  = (bf_position F <=? i) && (i <? kNextBit F) && Z.testbit v (i - bf_position F).
Proof.
  intros Hi. destruct size_bounds as [Hs _]. destruct mask_ones as [_ Em].
  destruct HF as [[HS HU] HT _ _ [HP HN]]. unfold encode, encode_unchecked, ct_cast, kNextBit. cbv zeta.
  rewrite HU, Em, testbit_uwrap, Z.shiftl_spec, testbit_uwrap, Z.land_spec, testbit_uwrap by lia.
  destruct (bf_position F <=? i) eqn:E1; reflect_bool; cbn [andb].
  - rewrite Z.testbit_ones_nonneg by lia.
    destruct (i <? bf_position F + size F) eqn:E2; reflect_bool; cbn [andb].
    + rewrite (proj2 (Z.ltb_lt i _)), (proj2 (Z.ltb_lt (i - _) (ct_bits _))), (proj2 (Z.ltb_lt (i - _) 64)),
        (proj2 (Z.ltb_lt (i - _) (size F))) by lia. cbn [andb]. by rewrite andb_true_r.
    + rewrite (proj2 (Z.ltb_ge (i - _) (size F))) by lia. by rewrite !andb_false_r.
  - rewrite (Z.testbit_neg_r v) by lia. by rewrite !andb_false_r.
Qed.

Lemma testbit_update v o i :
  is_u (ct_bits (bf_S F)) o -> 0 <= i -> Z.testbit (update F v o) i
  = if (bf_position F <=? i) && (i <? kNextBit F) then Z.testbit v (i - bf_position F) else Z.testbit o i.
Proof.
  intros Ho Hi. destruct size_bounds as [Hs _]. destruct mask_ones as [Em1 Em].
  pose proof (testbit_encode v i Hi) as He.
  destruct HF as [[HS HU] HT _ _ [HP HN]]. unfold update, ct_cast, mask_in_place. rewrite HU.
  rewrite testbit_uwrap, Z.lor_spec, Z.land_spec, Z.lnot_spec, He by lia. unfold ct_cast. rewrite HU.
  rewrite testbit_uwrap, testbit_uwrap, Em, Z.shiftl_spec by lia. unfold kNextBit in *.
  destruct (i <? ct_bits (bf_S F)) eqn:Eb; reflect_bool; cbn [andb].
  - rewrite (proj2 (Z.ltb_lt i 64)) by lia. cbn [andb].
    destruct (bf_position F <=? i) eqn:E1; reflect_bool; cbn [andb orb].
    + rewrite Z.testbit_ones_nonneg by lia.
      destruct (i <? bf_position F + size F) eqn:E2; reflect_bool; cbn [andb orb].
      * rewrite (proj2 (Z.ltb_lt (i - _) (size F))) by lia. cbn. by rewrite orb_false_r.
      * rewrite (proj2 (Z.ltb_ge (i - _) (size F))) by lia. done.
    + rewrite (Z.testbit_neg_r (Z.ones _)) by lia. done.
  - rewrite (testbit_high _ o i Ho) by lia.
    rewrite (proj2 (Z.ltb_ge i (bf_position F + size F))) by lia. by rewrite andb_false_r.
Qed.

(** What a field reads depends on its bits only. *)
Lemma decode_bits x v :
  representable F v ->
  (forall i, 0 <= i < size F -> Z.testbit x (i + bf_position F) = Z.testbit v i) -> decode F x = v.
Proof.
  intros Hv Hx. destruct size_bounds as [Hs Hsign]. destruct mask_ones as [_ Em].
  destruct HF as [[HS HU] HT _ Hext [HP HN]]. unfold decode, representable, kNextBit in *. cbv zeta.
  rewrite Em. destruct (bf_sign_extend F) eqn:EX.
  - assert (E : s64 (u64 (u64 x ≪ (64 - (bf_position F + size F)))) ≫ (64 - size F) = v).
    { apply Z.bits_inj'. intros i Hi. rewrite Z.shiftr_spec by lia. rewrite testbit_swrap by lia.
      rewrite <- (swrap_small (size F) v) at 1 by (done || lia). rewrite testbit_swrap by lia.
      rewrite testbit_uwrap by lia.
      assert (Hin : forall k, 0 <= k < size F ->
        Z.testbit (u64 x ≪ (64 - (bf_position F + size F))) (k + (64 - size F)) = Z.testbit v k).
      { intros k Hk. rewrite Z.shiftl_spec by lia. rewrite testbit_uwrap by lia.
        replace (k + (64 - size F) - (64 - (bf_position F + size F))) with (k + bf_position F) by lia.
        rewrite (proj2 (Z.ltb_lt (k + bf_position F) 64)) by lia. cbn [andb]. by apply Hx. }
      destruct (i <? size F) eqn:Ei; reflect_bool.
      - rewrite (proj2 (Z.ltb_lt (i + _) 64)) by lia. rewrite (proj2 (Z.ltb_lt (i + _) 64)) by lia.
        cbn [andb]. apply Hin. lia.
      - rewrite (proj2 (Z.ltb_ge (i + _) 64)) by lia. change (64 - 1 <? 64) with true. cbn [andb].
        replace (64 - 1) with (size F - 1 + (64 - size F)) by lia. apply Hin. lia. }
    rewrite E. unfold ct_cast. rewrite (Hext eq_refl). apply swrap_small; [lia|]. unfold is_s in *.
    pose proof (Z.pow_le_mono_r 2 (size F - 1) (ct_bits (bf_T F) - 1) ltac:(lia) ltac:(lia)). lia.
  - assert (E : (u64 x ≫ bf_position F) .& Z.ones (size F) = v).
    { apply Z.bits_inj'. intros i Hi. rewrite Z.land_spec, Z.shiftr_spec, testbit_uwrap by lia.
      rewrite Z.testbit_ones_nonneg by lia. destruct (i <? size F) eqn:Ei; reflect_bool.
      - rewrite (proj2 (Z.ltb_lt (i + _) 64)) by lia. cbn [andb]. rewrite andb_true_r. apply Hx. lia.
      - rewrite andb_false_r. symmetry. apply (testbit_high (size F)); [done|lia]. }
    rewrite E. unfold ct_cast. destruct (ct_signed (bf_T F)) eqn:ET.
    + apply swrap_small; [lia|]. specialize (Hsign eq_refl eq_refl). unfold is_u, is_s in *.
      pose proof (Z.pow_le_mono_r 2 (size F) (ct_bits (bf_T F) - 1) ltac:(lia) ltac:(lia)).
      pose proof (pow2_pos (ct_bits (bf_T F) - 1)). lia.
    + apply uwrap_small. unfold is_u in *.
      pose proof (Z.pow_le_mono_r 2 (size F) (ct_bits (bf_T F)) ltac:(lia) ltac:(lia)). lia.
Qed.

(** Every field reads a representable value. *)
Lemma decode_representable x : representable F (decode F x) /\
  forall i, 0 <= i < size F -> Z.testbit (decode F x) i = Z.testbit x (i + bf_position F).
Proof.
  destruct size_bounds as [Hs _].
  set (v := if bf_sign_extend F then swrap (size F) (field x (bf_position F) (size F))
            else field x (bf_position F) (size F)).
  destruct HF as [_ _ _ _ [HP HN]].
  assert (Hb : forall i, 0 <= i < size F -> Z.testbit v i = Z.testbit x (i + bf_position F)).
  { intros i Hi. unfold v. destruct (bf_sign_extend F); [rewrite testbit_swrap by lia|].
    - rewrite (proj2 (Z.ltb_lt i _)) by lia. rewrite testbit_field by lia.
      by rewrite (proj2 (Z.ltb_lt i _)) by lia.
    - rewrite testbit_field by lia. by rewrite (proj2 (Z.ltb_lt i _)) by lia. }
  assert (Hv : representable F v).
  { unfold representable, v. destruct (bf_sign_extend F); [apply swrap_range|apply field_range]; lia. }
  rewrite (decode_bits x v Hv) by (intros; by rewrite Hb). done.
Qed.
End Field.

(** A value that fits is read back. *)
Lemma decode_encode F v : field_ok F -> representable F v -> decode F (encode F v) = v.
Proof.
  intros HF Hv. destruct (size_bounds F HF) as [Hs _]. pose proof (ok_fits F HF) as [HP HN].
  apply decode_bits; [done|done|]. intros i Hi. rewrite testbit_encode by (done || lia). unfold kNextBit.
  rewrite (proj2 (Z.leb_le _ _)), (proj2 (Z.ltb_lt (i + _) _)) by lia. cbn [andb]. f_equal. lia.
Qed.

(** Two fields that do not overlap, packed together. *)
Lemma decode_pair_encode F G v w : field_ok F -> field_ok G -> disjoint_fields F G -> representable F v ->
  decode F (encode F v .| encode G w) = v.
Proof.
  intros HF HG Hd Hv. destruct (size_bounds F HF) as [Hs _]. pose proof (ok_fits F HF) as [HP HN].
  apply decode_bits; [done|done|]. intros i Hi. rewrite Z.lor_spec, (testbit_encode F HF), (testbit_encode G HG) by lia.
  unfold disjoint_fields, kNextBit in *.
  rewrite (proj2 (Z.leb_le (bf_position F) _)), (proj2 (Z.ltb_lt (i + _) (bf_position F + _))) by lia. cbn [andb].
  assert (E : (bf_position G <=? i + bf_position F) && (i + bf_position F <? bf_position G + size G) = false).
  { destruct Hd; [rewrite (proj2 (Z.leb_gt _ _)) by lia; done|rewrite (proj2 (Z.ltb_ge _ _)) by lia; apply andb_false_r]. }
  rewrite E. cbn [andb]. rewrite orb_false_r. f_equal. lia.
Qed.

(** An encoding has no bits beyond its field. *)
Lemma encode_range F v : field_ok F -> is_u (kNextBit F) (encode F v).
Proof.
  intros HF. destruct (size_bounds F HF) as [Hs _]. destruct (ok_S F HF) as [HS HU]. pose proof (ok_fits F HF) as [HP HN].
  apply is_u_bits; [unfold kNextBit; lia| |].
  - unfold encode, encode_unchecked, ct_cast. rewrite HU. apply uwrap_range. lia.
  - intros i Hi. unfold kNextBit in *. rewrite testbit_encode by (done || lia). unfold kNextBit.
    rewrite (proj2 (Z.ltb_ge i _)) by lia. by rewrite andb_false_r.
Qed.

(** An update writes its field and leaves the others. *)
Lemma decode_update F v o : field_ok F -> is_u (ct_bits (bf_S F)) o -> representable F v -> decode F (update F v o) = v.
Proof.
  intros HF Ho Hv. destruct (size_bounds F HF) as [Hs _]. pose proof (ok_fits F HF) as [HP HN].
  apply decode_bits; [done|done|]. intros i Hi. rewrite testbit_update by (done || lia). unfold kNextBit.
  rewrite (proj2 (Z.leb_le _ _)), (proj2 (Z.ltb_lt (i + _) _)) by lia. cbn [andb]. f_equal. lia.
Qed.
Lemma decode_update_other F G v o : field_ok F -> field_ok G -> disjoint_fields F G -> is_u (ct_bits (bf_S F)) o ->
  decode G (update F v o) = decode G o.
Proof.
  intros HF HG Hd Ho. destruct (size_bounds F HF) as [Hs _]. destruct (size_bounds G HG) as [Hg _].
  pose proof (ok_fits F HF) as [HP HN]. pose proof (ok_fits G HG) as [HPg HNg].
  destruct (decode_representable G HG o) as [Hr Hb]. apply decode_bits; [done|done|].
  intros i Hi. rewrite Hb by done. rewrite testbit_update by (done || lia).
  destruct ((bf_position F <=? _) && _) eqn:E; [|done]. unfold disjoint_fields, kNextBit in *. reflect_bool. lia.
Qed.
Lemma update_range F v o : field_ok F -> is_u (ct_bits (bf_S F)) (update F v o).
Proof. intros HF. unfold update, ct_cast. destruct (ok_S F HF) as [HS1 ->]. apply uwrap_range. lia. Qed.

(** [min] and [max] are the least and the greatest of the values. *)
Lemma representable_bounds F v : field_ok F -> representable F v <-> min F <= v <= max F.
Proof.
  intros HF. destruct (size_bounds F HF) as [Hs Hs2]. destruct HF as [_ HT _ HS _].
  assert (En : forall n, 0 <= n <= 64 -> NBitMask n = Z.ones n).
  { intros n Hn. unfold NBitMask. destruct (n =? 64) eqn:E; reflect_bool; [by subst n|].
    rewrite Z.shiftl_1_l, Z.ones_equiv. lia. }
  assert (Hp : forall k w, 0 <= k <= w -> 2 ^ k <= 2 ^ w) by (intros; apply Z.pow_le_mono_r; lia).
  unfold representable, min, max, ct_cast, is_s, is_u. destruct (bf_sign_extend F) eqn:Es.
  - rewrite HS by done. rewrite En, Z.ones_equiv by lia.
    pose proof (Hp (size F - 1) (ct_bits (bf_T F) - 1) ltac:(lia)). pose proof (pow2_pos (size F - 1) ltac:(lia)).
    rewrite (swrap_small _ (Z.pred _)) by (unfold is_s; lia).
    pose proof (Hp (ct_bits (bf_T F) - 1) 63 ltac:(lia)). rewrite (uwrap_small 64 (Z.pred _)) by (unfold is_u; lia).
    rewrite <- (swrap_uwrap (ct_bits (bf_T F)) (u64 _)), uwrap_le, swrap_uwrap by lia.
    rewrite (swrap_small _ (Z.lnot _)) by (unfold Z.lnot, is_s; lia). unfold Z.lnot. lia.
  - rewrite Z.sub_0_r, En, Z.ones_equiv by lia. pose proof (pow2_pos (size F) ltac:(lia)).
    pose proof (Hp (size F) (ct_bits (bf_T F)) ltac:(lia)).
    destruct (ct_signed (bf_T F)) eqn:ET.
    + pose proof (Hp (size F) (ct_bits (bf_T F) - 1) ltac:(lia)).
      rewrite (swrap_small _ (Z.pred _)), (swrap_small _ 0) by (unfold is_s; lia). lia.
    + rewrite (uwrap_small (ct_bits (bf_T F)) (Z.pred _)), (uwrap_small (ct_bits (bf_T F)) 0) by (unfold is_u; lia). lia.
Qed.

(** C36: Bit fields.  A field that satisfies the static assertions of the template returns
    every value that it can represent, which are the values [is_valid] accepts and those
    from [min] to [max]; [update] stores one and changes no other bit, and therefore no other field. *)
Theorem bit_fields F G v o :
  field_ok F -> field_ok G -> bf_S G = bf_S F -> disjoint_fields F G ->
  is_u (ct_bits (bf_S F)) o ->
  (representable F v -> decode F (encode F v) = v /\ decode F (update F v o) = v) /\
  (representable F v <-> is_valid F v = true) /\ (representable F v <-> min F <= v <= max F) /\
  is_u (ct_bits (bf_S F)) (update F v o) /\
  decode G (update F v o) = decode G o.
Proof.
  intros HF HG HS Hd Ho. pose proof (decode_encode F v HF) as He. split_and!.
  - intros Hv. split; [by apply He|by apply decode_update].
  - unfold is_valid. rewrite Z.eqb_eq. split; [exact He|]. intros <-. apply decode_representable. done.
  - by apply representable_bounds.
  - by apply update_range.
  - by apply decode_update_other.
Qed.
End BitFieldFacts.

Example bit_fields_witness :
  let F := mkField uint8_t int32_t 4 1 false in
  let G := mkField uint8_t int32_t 5 3 false in
  BitField.decode F (BitField.update F 1 0x6F) = 1 /\ BitField.decode G (BitField.update F 1 0x6F) = 3.
Proof.
  cbv zeta. destruct (BitFieldFacts.bit_fields (mkField uint8_t int32_t 4 1 false)
    (mkField uint8_t int32_t 5 3 false) 1 0x6F) as (H1 & _ & _ & _ & H2).
  - by split.
  - by split.
  - reflexivity.
  - left. vm_compute. congruence.
  - by vm_compute.
  - split; [by apply H1|by rewrite H2].
Defined.
