(* ===== verification/BitVector.v ===== *)
(** * Bit vectors: runtime/vm/bit_vector.h and .cc

    A set of numbers below a length, in words of 64 bits, which the passes of the compiler
    use; the range analysis and the register allocator keep sets of definitions in it.  The
    vector is changed in place in C++: an operation returns the next state.  The array is
    the list of its words; an access outside it is an error value, as are the rounds of a
    loop of the iterator that would not end. *)

From S2P Require Import Prelude.

Inductive bits_error : Type := OutOfBounds | BitRounds.
Abbreviation bits_result := (result bits_error).

Record BitVector : Type := mkBitVector { length_ : Z; data_ : list Z }.
Record Iterator : Type := mkIterator { bit_index_ : Z; word_index_ : Z; current_word_ : Z }.

Module BitVector.

Definition kBitsPerWord : Z := 64.
Definition data_length_ (v : BitVector) : Z := Z.of_nat (length (data_ v)).
Definition SizeFor (length : Z) : Z := 1 + Z.quot (length - 1) kBitsPerWord.

(** [data_[i]], read and written. *)
Definition word (v : BitVector) (i : Z) : bits_result Z :=
  if i <? 0 then Err OutOfBounds
  else match data_ v !! Z.to_nat i with Some w => Ok w | None => Err OutOfBounds end.
Definition set_word (i w : Z) (v : BitVector) : BitVector := mkBitVector (length_ v) (<[Z.to_nat i := w]> (data_ v)).

Definition Clear (v : BitVector) : BitVector := mkBitVector (length_ v) ((fun _ => 0) <$> data_ v).
Definition SetAll (v : BitVector) : BitVector := mkBitVector (length_ v) ((fun _ => u64 (-1)) <$> data_ v).

(** The constructor, with the words that were allocated. *)
Definition create (length : Z) (memory : list Z) : BitVector := Clear (mkBitVector length memory).

Definition Add (i : Z) (v : BitVector) : bits_result BitVector :=
  let k := Z.quot i kBitsPerWord in
  w ← word v k; Ok (set_word k (w .| u64 (1 ≪ Z.rem i kBitsPerWord)) v).
Definition Remove (i : Z) (v : BitVector) : bits_result BitVector :=
  let k := Z.quot i kBitsPerWord in
  w ← word v k; Ok (set_word k (w .& u64 (Z.lnot (u64 (1 ≪ Z.rem i kBitsPerWord)))) v).
Definition Set_ (i : Z) (value : bool) (v : BitVector) : bits_result BitVector := if value then Add i v else Remove i v.
Definition Contains (i : Z) (v : BitVector) : bits_result bool :=
  block ← word v (Z.quot i kBitsPerWord); Ok (negb (block .& u64 (1 ≪ Z.rem i kBitsPerWord) =? 0)).

(** The loops over the words of two vectors. *)
Fixpoint Equals_words (length : Z) (data other : list Z) : bits_result bool :=
  match data, other with
  | [], _ => Ok true
  | _ :: _, [] => Err OutOfBounds
  | [w], o :: _ =>
      if Z.rem length kBitsPerWord =? 0 then Ok (w =? o)
      else
        let shift_size := kBitsPerWord - Z.rem length kBitsPerWord in
        let mask := u64 (-1) ≫ shift_size in
        Ok (w .& mask =? o .& mask)
  | w :: data, o :: other => if w =? o then Equals_words length data other else Ok false
  end.
Definition Equals (v other : BitVector) : bits_result bool :=
  if negb (length_ v =? length_ other) then Ok false else Equals_words (length_ v) (data_ v) (data_ other).

(** [AddAll], [RemoveAll] and [Intersect] replace every word by a function of it and the
    word of the other vector, and the first two say whether a word changed. *)
Fixpoint update_words (f : Z -> Z -> Z) (data from : list Z) : bits_result (list Z * bool) :=
  match data, from with
  | [], _ => Ok ([], false)
  | _ :: _, [] => Err OutOfBounds
  | before :: data, w :: from =>
      let after := f before w in
      r ← update_words f data from; let '(data, changed) := r in
      Ok (after :: data, negb (before =? after) || changed)
  end.
Definition and_not (a b : Z) : Z := a .& u64 (Z.lnot b).
Definition AddAll (from v : BitVector) : bits_result (BitVector * bool) :=
  r ← update_words Z.lor (data_ v) (data_ from); let '(data, changed) := r in Ok (mkBitVector (length_ v) data, changed).
Definition RemoveAll (from v : BitVector) : bits_result (BitVector * bool) :=
  r ← update_words and_not (data_ v) (data_ from); let '(data, changed) := r in Ok (mkBitVector (length_ v) data, changed).
Definition Intersect (other v : BitVector) : bits_result BitVector :=
  r ← update_words Z.land (data_ v) (data_ other); let '(data, _) := r in Ok (mkBitVector (length_ v) data).
Fixpoint KillAndAdd_words (data kill gen : list Z) : bits_result (list Z * bool) :=
  match data, kill, gen with
  | [], _, _ => Ok ([], false)
  | before :: data, k :: kill, w :: gen =>
      let after := before .| and_not w k in
      r ← KillAndAdd_words data kill gen; let '(data, changed) := r in
      Ok (after :: data, negb (before =? after) || changed)
  | _, _, _ => Err OutOfBounds
  end.
Definition KillAndAdd (kill gen v : BitVector) : bits_result (BitVector * bool) :=
  r ← KillAndAdd_words (data_ v) (data_ kill) (data_ gen); let '(data, changed) := r in Ok (mkBitVector (length_ v) data, changed).
Definition CopyFrom (other v : BitVector) : bits_result BitVector :=
  r ← AddAll other (Clear v); Ok (fst r).

Definition IsEmpty (v : BitVector) : bool := forallb (fun w => w =? 0) (data_ v).
Fixpoint SubsetOf_words (data other : list Z) : bits_result bool :=
  match data, other with
  | [], _ => Ok true
  | _ :: _, [] => Err OutOfBounds
  | w :: data, o :: other => if negb (w .& o =? w) then Ok false else SubsetOf_words data other
  end.
Definition SubsetOf (v other : BitVector) : bits_result bool := SubsetOf_words (data_ v) (data_ other).

(** The iterator: the loops of [Advance] over words, bytes and bits. *)
Definition Done (v : BitVector) (it : Iterator) : bool := data_length_ v <=? word_index_ it.
Fixpoint skip_words (rounds : nat) (v : BitVector) (word_index : Z) : bits_result (Z * Z) :=
  match rounds with
  | O => Err BitRounds
  | S rounds =>
      let word_index := word_index + 1 in
      if data_length_ v <=? word_index then Ok (word_index, 0)
      else w ← word v word_index; if w =? 0 then skip_words rounds v word_index else Ok (word_index, w)
  end.
Fixpoint skip_zeros (rounds : nat) (mask step : Z) (w bit_index : Z) : bits_result (Z * Z) :=
  if w .& mask =? 0 then
    match rounds with O => Err BitRounds | S rounds => skip_zeros rounds mask step (w ≫ step) (bit_index + step) end
  else Ok (w, bit_index).
Definition find_bit (word_index w bit_index : Z) : bits_result Iterator :=
  r ← skip_zeros 8 0xff 8 w bit_index; let '(w, bit_index) := r in
  r ← skip_zeros 8 0x1 1 w bit_index; let '(w, bit_index) := r in
  Ok (mkIterator bit_index word_index (w ≫ 1)).
Definition Advance (v : BitVector) (it : Iterator) : bits_result Iterator :=
  let bit_index := bit_index_ it + 1 in
  if current_word_ it =? 0 then
    next ← skip_words (S (length (data_ v))) v (word_index_ it); let '(word_index, w) := next in
    if data_length_ v <=? word_index then Ok (mkIterator bit_index word_index w)
    else find_bit word_index w (word_index * kBitsPerWord)
  else find_bit (word_index_ it) (current_word_ it) bit_index.
Definition iterate (v : BitVector) : bits_result Iterator :=
  w ← word v 0; Advance v (mkIterator (-1) 0 w).

(** A loop over the iterator, with the elements it visits. *)
Fixpoint visit (rounds : nat) (v : BitVector) (it : Iterator) : bits_result (list Z) :=
  if Done v it then Ok []
  else
    match rounds with
    | O => Err BitRounds
    | S rounds => next ← Advance v it; rest ← visit rounds v next; Ok (bit_index_ it :: rest)
    end.
Definition elements_visited (v : BitVector) : bits_result (list Z) :=
  it ← iterate v; visit (Z.to_nat (kBitsPerWord * data_length_ v)) v it.
End BitVector.
