(* ===== verification/BitVectorCorrect.v ===== *)
(** * The theorems on bit vectors

    A bit vector refines a finite set of numbers below its length, as long as no bit beyond
    the length is set: every operation but [SetAll] keeps it so. *)

From S2P Require Import Prelude BitVector.
Import BitVector.

(** Bit [i] of the words, and the set a vector stands for. *)
Definition bit (data : list Z) (i : Z) : bool := Z.testbit (default 0 (data !! Z.to_nat (i / 64))) (i mod 64).
Definition elements_of (v : BitVector) : gset Z := list_to_set (filter (fun i => bit (data_ v) i = true) (seqZ 0 (length_ v))).

(** The words are words and as many as the length asks for; no bit beyond it is set. *)
Record wf (v : BitVector) : Prop := {
  wf_length : 0 <= length_ v;
  wf_size : data_length_ v = SizeFor (length_ v);
  wf_words : Forall (is_u 64) (data_ v) }.
Definition clean (v : BitVector) : Prop := forall i, length_ v <= i -> bit (data_ v) i = false.

Module BitVectorFacts.

Lemma SizeFor_covers n : 0 <= n -> 1 <= SizeFor n /\ n <= 64 * SizeFor n /\ 64 * (SizeFor n - 1) <= n.
Proof.
  intros Hn. unfold SizeFor, kBitsPerWord. destruct (Z.eq_dec n 0) as [->|]; [by vm_compute|]. rewrite Z.quot_div_nonneg by lia.
  Z.div_mod_to_equations. lia.
Qed.
Lemma elem_of_elements v i : i ∈ elements_of v <-> 0 <= i < length_ v /\ bit (data_ v) i = true.
Proof. unfold elements_of. rewrite elem_of_list_to_set, list_elem_of_filter, elem_of_seqZ. split; [intros [? ?]; split; [lia|done]|intros [? ?]; split; [done|lia]]. Qed.
Lemma elements_by v (S : gset Z) : (forall j, j ∈ S -> 0 <= j < length_ v) ->
  (forall j, 0 <= j < length_ v -> bit (data_ v) j = true <-> j ∈ S) -> elements_of v = S.
Proof.
  intros Hr Hb. apply set_eq. intros j. rewrite elem_of_elements. split; [intros [Hj ?]; by apply Hb|]. intros Hj.
  specialize (Hr j Hj). split; [done|]. by apply Hb.
Qed.
Lemma lookup_word (data : list Z) i : 0 <= i < 64 * Z.of_nat (length data) -> is_Some (data !! Z.to_nat (i / 64)).
Proof. intros. apply lookup_lt_is_Some. Z.div_mod_to_equations. lia. Qed.
Lemma bit_beyond data i : 64 * Z.of_nat (length data) <= i -> bit data i = false.
Proof. intros. unfold bit. rewrite lookup_ge_None_2 by (Z.div_mod_to_equations; lia). apply Z.bits_0. Qed.

(** Words with the same bits are the same. *)
Lemma word_ext x y : is_u 64 x -> is_u 64 y -> (forall j, 0 <= j < 64 -> Z.testbit x j = Z.testbit y j) -> x = y.
Proof.
  intros Hx Hy H. apply Z.bits_inj'. intros j Hj. destruct (Z.lt_ge_cases j 64); [by apply H|].
  by rewrite (testbit_high 64 x j), (testbit_high 64 y j).
Qed.
Lemma data_ext a b : length a = length b -> Forall (is_u 64) a -> Forall (is_u 64) b ->
  (forall i, 0 <= i < 64 * Z.of_nat (length a) -> bit a i = bit b i) -> a = b.
Proof.
  intros Hl Ha Hb H. apply list_eq_same_length with (n := length a); [done|done|]. intros k x y Hk Ex Ey.
  rewrite Forall_lookup in Ha, Hb. apply word_ext; [by eapply Ha|by eapply Hb|]. intros j Hj.
  specialize (H (64 * Z.of_nat k + j) ltac:(lia)). unfold bit in H.
  replace ((64 * Z.of_nat k + j) / 64) with (Z.of_nat k) in H by (Z.div_mod_to_equations; lia).
  replace ((64 * Z.of_nat k + j) mod 64) with j in H by (Z.div_mod_to_equations; lia). rewrite Nat2Z.id, Ex, Ey in H. done.
Qed.

(** Vectors of one length with clean words are the sets they stand for. *)
Section Same.
Context (v w : BitVector) (Hv : wf v) (Hw : wf w) (Hl : length_ v = length_ w).
Lemma same_size : length (data_ v) = length (data_ w).
Proof. destruct Hv as [_ E1 _], Hw as [_ E2 _]. unfold data_length_ in *. rewrite Hl in E1. lia. Qed.
Lemma same_elements : clean v -> clean w -> elements_of v = elements_of w <-> data_ v = data_ w.
Proof.
  intros Cv Cw. split; [|intros E; unfold elements_of; by rewrite E, Hl]. intros E.
  apply data_ext; [apply same_size|apply Hv|apply Hw|]. intros i Hi.
  destruct (Z.lt_ge_cases i (length_ v)) as [Hlt|Hge]; [|rewrite Cv, Cw by lia; done].
  assert (Hin : i ∈ elements_of v <-> i ∈ elements_of w) by (by rewrite E). rewrite !elem_of_elements in Hin.
  destruct (bit (data_ v) i), (bit (data_ w) i); try done; [destruct Hin as [Hin _]|destruct Hin as [_ Hin]]; by destruct Hin; [lia|].
Qed.
End Same.

(** ** One element *)

Section One.
Context (v : BitVector) (i : Z) (Hv : wf v) (Hi : 0 <= i < length_ v).

Lemma element_word : exists w, word v (Z.quot i kBitsPerWord) = Ok w /\ data_ v !! Z.to_nat (i / 64) = Some w /\ is_u 64 w.
Proof.
  destruct Hv as [H0 Hs Hw]. destruct (SizeFor_covers _ H0) as (_ & Hc & _). unfold data_length_ in Hs.
  destruct (lookup_word (data_ v) i) as [w Ew]; [lia|]. exists w. rewrite Forall_lookup in Hw. split_and!; [|done|by eapply Hw..].
  unfold word, kBitsPerWord. rewrite Z.quot_div_nonneg, Ew by lia. rewrite (proj2 (Z.ltb_ge _ _)); [done|Z.div_mod_to_equations; lia].
Qed.
Lemma element_rem : Z.rem i kBitsPerWord = i mod 64 /\ 0 <= i mod 64 < 64.
Proof. unfold kBitsPerWord. rewrite Z.rem_mod_nonneg by lia. split; [done|]. by apply Z.mod_pos_bound. Qed.
Lemma single_bit k : 0 <= k < 64 -> is_u 64 (1 ≪ k) /\ u64 (1 ≪ k) = 1 ≪ k /\ forall j, 0 <= j -> Z.testbit (1 ≪ k) j = bool_decide (j = k).
Proof.
  intros Hk. assert (Hu : is_u 64 (1 ≪ k)).
  { unfold is_u. rewrite Z.shiftl_1_l. split; [apply Z.pow_nonneg; lia|apply Z.pow_lt_mono_r; lia]. }
  split; [done|]. split; [by apply uwrap_small|]. intros j Hj. rewrite Z.shiftl_1_l, Z.pow2_bits_eqb by lia.
  case_bool_decide; [subst; apply Z.eqb_refl|]. apply Z.eqb_neq. lia.
Qed.

Lemma set_word_bit w j : 0 <= j -> bit (<[Z.to_nat (i / 64) := w]> (data_ v)) j =
  if bool_decide (j / 64 = i / 64) then Z.testbit w (j mod 64) else bit (data_ v) j.
Proof.
  intros Hj. destruct element_word as (x & _ & Ex & _). unfold bit. case_bool_decide as E.
  - rewrite E, list_lookup_insert_eq by (by eapply lookup_lt_Some). done.
  - rewrite list_lookup_insert_ne; [done|]. Z.div_mod_to_equations. lia.
Qed.
Lemma set_word_wf w : is_u 64 w -> wf (set_word (Z.quot i kBitsPerWord) w v).
Proof.
  intros Hw. destruct Hv as [H0 Hs Hd]. split; [done|unfold data_length_; cbn; by rewrite length_insert|cbn; by apply Forall_insert].
Qed.
(** A word whose bit [i mod 64] is replaced. *)
Lemma set_bit_elements w b : is_u 64 w -> clean v ->
  (forall j, 0 <= j < 64 -> Z.testbit w j = if bool_decide (j = i mod 64) then b else Z.testbit (default 0 (data_ v !! Z.to_nat (i / 64))) j) ->
  let v' := set_word (Z.quot i kBitsPerWord) w v in
  wf v' /\ clean v' /\ elements_of v' = if b then {[i]} ∪ elements_of v else elements_of v ∖ {[i]}.
Proof.
  intros Hw Hc Hb v'. assert (Hbit : forall j, 0 <= j -> bit (data_ v') j = if bool_decide (j = i) then b else bit (data_ v) j).
  { intros j Hj. unfold v', set_word. cbn [data_]. unfold kBitsPerWord. rewrite Z.quot_div_nonneg by lia. rewrite set_word_bit by done.
    case_bool_decide as E1.
    - rewrite Hb by (by apply Z.mod_pos_bound). unfold bit. rewrite E1. repeat case_bool_decide; try done; exfalso; Z.div_mod_to_equations; lia.
    - case_bool_decide as E2; [by subst|done]. }
  split; [by apply set_word_wf|]. split.
  - intros j Hj. cbn in Hj. rewrite Hbit by lia. rewrite bool_decide_eq_false_2 by lia. by apply Hc.
  - assert (Hin : forall j, j ∈ elements_of v -> 0 <= j < length_ v) by (by intros j [? _]%elem_of_elements).
    apply elements_by; change (length_ v') with (length_ v).
    + intros j Hj. destruct b; [apply elem_of_union in Hj as [->%elem_of_singleton|Hj]|apply elem_of_difference in Hj as [Hj _]]; auto.
    + intros j Hj. rewrite Hbit by lia. assert (Hm : bit (data_ v) j = true <-> j ∈ elements_of v) by (rewrite elem_of_elements; tauto).
      destruct b; rewrite ?elem_of_union, ?elem_of_difference, elem_of_singleton; case_bool_decide; rewrite ?Hm; intuition congruence.
Qed.

Lemma Add_ok : clean v -> exists v', Add i v = Ok v' /\ wf v' /\ clean v' /\ length_ v' = length_ v /\ elements_of v' = {[i]} ∪ elements_of v.
Proof.
  intros Hc. destruct element_word as (w & E & Ew & Hw), element_rem as [Er Hm]. destruct (single_bit (i mod 64) Hm) as (Hu & Es & Hb).
  unfold Add. rewrite E. cbn [mbind result_bind]. rewrite Er, Es.
  destruct (set_bit_elements (w .| 1 ≪ (i mod 64)) true) as (? & ? & ?); [by apply is_u_lor|done| |by eexists].
  intros j Hj. rewrite Ew, Z.lor_spec, Hb by lia. case_bool_decide; cbn; [apply orb_true_r|apply orb_false_r].
Qed.
Lemma is_u_land w x y : 0 <= w -> is_u w x -> is_u w y -> is_u w (x .& y).
Proof.
  intros Hw Hx Hy. apply is_u_bits; [done|apply Z.land_nonneg; left; apply Hx|]. intros j Hj. by rewrite Z.land_spec, (testbit_high w x j).
Qed.
Lemma Remove_ok : clean v -> exists v', Remove i v = Ok v' /\ wf v' /\ clean v' /\ length_ v' = length_ v /\ elements_of v' = elements_of v ∖ {[i]}.
Proof.
  intros Hc. destruct element_word as (w & E & Ew & Hw), element_rem as [Er Hm]. destruct (single_bit (i mod 64) Hm) as (Hu & Es & Hb).
  unfold Remove. rewrite E. cbn [mbind result_bind]. rewrite Er, Es.
  destruct (set_bit_elements (w .& u64 (Z.lnot (1 ≪ (i mod 64)))) false) as (? & ? & ?); [by apply is_u_land; [done|done|apply uwrap_range]|done| |by eexists].
  intros j Hj. rewrite Ew, Z.land_spec, testbit_uwrap, Z.lnot_spec, Hb by lia. rewrite (proj2 (Z.ltb_lt j 64)) by lia.
  case_bool_decide; cbn; [apply andb_false_r|by rewrite andb_true_r].
Qed.
Lemma Contains_ok : Contains i v = Ok (bool_decide (i ∈ elements_of v)).
Proof.
  destruct element_word as (w & E & Ew & Hw), element_rem as [Er Hm]. destruct (single_bit (i mod 64) Hm) as (Hu & Es & Hb).
  unfold Contains. rewrite E. cbn [mbind result_bind]. rewrite Er, Es. f_equal.
  assert (Hbit : bit (data_ v) i = Z.testbit w (i mod 64)) by (unfold bit; by rewrite Ew).
  assert (Ez : w .& 1 ≪ (i mod 64) = 0 <-> bit (data_ v) i = false).
  { rewrite Hbit. split.
    - intros Z0. assert (Ht : Z.testbit (w .& 1 ≪ (i mod 64)) (i mod 64) = false) by (rewrite Z0; apply Z.bits_0).
      rewrite Z.land_spec, Hb, bool_decide_eq_true_2, andb_true_r in Ht by lia. done.
    - intros Ht. apply Z.bits_inj'. intros j Hj. rewrite Z.land_spec, Hb, Z.bits_0 by lia. case_bool_decide as Ej; [by rewrite Ej, Ht|apply andb_false_r]. }
  case_bool_decide as Hin; rewrite elem_of_elements in Hin.
  - apply negb_true_iff, Z.eqb_neq. rewrite Ez. destruct Hin. congruence.
  - apply negb_false_iff, Z.eqb_eq. rewrite Ez. destruct (bit (data_ v) i); [exfalso; tauto|done].
Qed.
End One.

(** ** Words of two vectors *)

Lemma update_words_ok f a : forall b, length a = length b ->
  update_words f a b = Ok (zip_with f a b, negb (bool_decide (a = zip_with f a b))).
Proof.
  induction a as [|x a IH]; intros [|y b] Hl; try done. injection Hl as Hl. cbn [update_words zip_with]. rewrite (IH b Hl). cbn [mbind result_bind].
  do 2 f_equal. destruct (Z.eqb_spec x (f x y)) as [E|E]; cbn [negb orb].
  - f_equal. apply bool_decide_ext. split; [intros H; by f_equal|by intros [= ? ?]].
  - symmetry. apply negb_true_iff, bool_decide_eq_false_2. intros [= ? ?]. done.
Qed.
Lemma kill_words_ok a : forall k b, length a = length k -> length a = length b ->
  KillAndAdd_words a k b = update_words Z.lor a (zip_with and_not b k).
Proof.
  induction a as [|x a IH]; intros [|y k] [|z b] H1 H2; try done. injection H1 as H1. injection H2 as H2.
  cbn [KillAndAdd_words update_words zip_with]. by rewrite (IH k b H1 H2).
Qed.
Lemma bit_zip f g a b i : length a = length b -> 0 <= i < 64 * Z.of_nat (length a) ->
  (forall x y j, 0 <= j < 64 -> Z.testbit (f x y) j = g (Z.testbit x j) (Z.testbit y j)) -> bit (zip_with f a b) i = g (bit a i) (bit b i).
Proof.
  intros Hl Hi Hf. unfold bit. destruct (lookup_word a i Hi) as [x Ex], (lookup_word b i ltac:(lia)) as [y Ey].
  rewrite lookup_zip_with, Ex, Ey. cbn. apply Hf. by apply Z.mod_pos_bound.
Qed.
Lemma and_not_bits x y j : 0 <= j < 64 -> Z.testbit (and_not x y) j = Z.testbit x j && negb (Z.testbit y j).
Proof. intros. unfold and_not. rewrite Z.land_spec, testbit_uwrap, Z.lnot_spec by lia. by rewrite (proj2 (Z.ltb_lt j 64)) by lia. Qed.
Lemma and_not_word x y : is_u 64 x -> is_u 64 (and_not x y).
Proof. intros. apply is_u_land; [done|done|by apply uwrap_range]. Qed.

Section Two.
Context (v w : BitVector) (Hv : wf v) (Hw : wf w) (Hl : length_ v = length_ w) (Cv : clean v) (Cw : clean w).

(** What an operation on the words does to the set, and when it changes it. *)
Lemma zipped f g (S : gset Z) :
  (forall x y, is_u 64 x -> is_u 64 y -> is_u 64 (f x y)) -> (forall x y j, 0 <= j < 64 -> Z.testbit (f x y) j = g (Z.testbit x j) (Z.testbit y j)) ->
  g false false = false -> (forall j, j ∈ S -> 0 <= j < length_ v) ->
  (forall j, 0 <= j < length_ v -> g (bool_decide (j ∈ elements_of v)) (bool_decide (j ∈ elements_of w)) = bool_decide (j ∈ S)) ->
  exists c, update_words f (data_ v) (data_ w) = Ok (zip_with f (data_ v) (data_ w), c) /\
    let v' := mkBitVector (length_ v) (zip_with f (data_ v) (data_ w)) in
    wf v' /\ clean v' /\ elements_of v' = S /\ c = negb (bool_decide (elements_of v = S)).
Proof.
  intros Hf Hg Hff HS Hin. pose proof (same_size v w Hv Hw Hl) as Hsize. pose proof Hv as [H0 Hs Hd]. pose proof Hw as [_ _ Hdw].
  rewrite update_words_ok by done. eexists. split; [reflexivity|]. cbv zeta. set (v' := mkBitVector _ _).
  assert (Hbit : forall j, 0 <= j < 64 * Z.of_nat (length (data_ v)) -> bit (data_ v') j = g (bit (data_ v) j) (bit (data_ w) j)) by (intros; by apply bit_zip).
  assert (Hlen : length (data_ v') = length (data_ v)) by (cbn; rewrite length_zip_with; lia).
  assert (Hmem : forall u, length_ u = length_ v -> forall j, 0 <= j < length_ v -> bool_decide (j ∈ elements_of u) = bit (data_ u) j).
  { intros u Hu j Hj. destruct (bit (data_ u) j) eqn:E; [apply bool_decide_eq_true_2|apply bool_decide_eq_false_2]; rewrite elem_of_elements, Hu; [done|]. intros [_ ?]. congruence. }
  destruct (SizeFor_covers _ H0) as (_ & Hcov & _). unfold data_length_ in Hs.
  assert (Hwf : wf v').
  { split; [done|unfold data_length_; rewrite Hlen; done|]. cbn. apply Forall_lookup. intros k z Hk. apply lookup_zip_with_Some in Hk as (x & y & -> & Ex & Ey).
    rewrite Forall_lookup in Hd, Hdw. by apply Hf; [eapply Hd|eapply Hdw]. }
  assert (Hclean : clean v').
  { intros j Hj. cbn in Hj. destruct (Z.lt_ge_cases j (64 * Z.of_nat (length (data_ v)))); [|apply bit_beyond; rewrite Hlen; lia].
    rewrite Hbit by lia. rewrite Cv, Cw by lia. done. }
  assert (HE : elements_of v' = S).
  { apply elements_by; [done|]. intros j Hj. change (length_ v') with (length_ v) in Hj. rewrite Hbit by lia.
    rewrite <- (Hmem v eq_refl j Hj), <- (Hmem w (eq_sym Hl) j Hj), (Hin j Hj). by rewrite bool_decide_eq_true. }
  split; [done|]. split; [done|]. split; [done|]. f_equal. apply bool_decide_ext. rewrite <- HE.
  symmetry. by apply (same_elements v v' Hv Hwf eq_refl Cv Hclean).
Qed.
Lemma in_elements u j : j ∈ elements_of u -> 0 <= j < length_ u.
Proof. by intros [? _]%elem_of_elements. Qed.
Ltac decide_members := repeat case_bool_decide; try done; exfalso; set_solver.

Lemma AddAll_ok : exists v' c, AddAll w v = Ok (v', c) /\ wf v' /\ clean v' /\ length_ v' = length_ v /\
  elements_of v' = elements_of v ∪ elements_of w /\ c = negb (bool_decide (elements_of v' = elements_of v)).
Proof.
  destruct (zipped Z.lor orb (elements_of v ∪ elements_of w)) as (c & E & Hv' & Hc' & He & ->).
  - intros. by apply is_u_lor.
  - intros. apply Z.lor_spec.
  - done.
  - intros j [Hj|Hj]%elem_of_union; apply in_elements in Hj; lia.
  - intros j _. decide_members.
  - unfold AddAll. rewrite E. cbn [mbind result_bind]. eexists _, _. split; [reflexivity|]. split_and!; try done. f_equal. rewrite He. apply bool_decide_ext. done.
Qed.
Lemma RemoveAll_ok : exists v' c, RemoveAll w v = Ok (v', c) /\ wf v' /\ clean v' /\ length_ v' = length_ v /\
  elements_of v' = elements_of v ∖ elements_of w /\ c = negb (bool_decide (elements_of v' = elements_of v)).
Proof.
  destruct (zipped and_not (fun a b => a && negb b) (elements_of v ∖ elements_of w)) as (c & E & Hv' & Hc' & He & ->).
  - intros. by apply and_not_word.
  - intros. by apply and_not_bits.
  - done.
  - intros j [Hj _]%elem_of_difference. by apply in_elements in Hj.
  - intros j _. decide_members.
  - unfold RemoveAll. rewrite E. cbn [mbind result_bind]. eexists _, _. split; [reflexivity|]. split_and!; try done. f_equal. rewrite He. apply bool_decide_ext. done.
Qed.
Lemma Intersect_ok : exists v', Intersect w v = Ok v' /\ wf v' /\ clean v' /\ length_ v' = length_ v /\ elements_of v' = elements_of v ∩ elements_of w.
Proof.
  destruct (zipped Z.land andb (elements_of v ∩ elements_of w)) as (c & E & Hv' & Hc' & He & ->).
  - intros. by apply is_u_land.
  - intros. apply Z.land_spec.
  - done.
  - intros j [Hj _]%elem_of_intersection. by apply in_elements in Hj.
  - intros j _. decide_members.
  - unfold Intersect. rewrite E. cbn [mbind result_bind]. by eexists.
Qed.
End Two.

Lemma KillAndAdd_ok v k w : wf v -> wf k -> wf w -> length_ v = length_ k -> length_ v = length_ w -> clean v -> clean k -> clean w ->
  exists v' c, KillAndAdd k w v = Ok (v', c) /\ wf v' /\ clean v' /\ length_ v' = length_ v /\
    elements_of v' = elements_of v ∪ (elements_of w ∖ elements_of k) /\ c = negb (bool_decide (elements_of v' = elements_of v)).
Proof.
  intros Hv Hk Hw Lk Lw Cv Ck Cw. unfold KillAndAdd. rewrite kill_words_ok by (by apply same_size).
  destruct (RemoveAll_ok w k Hw Hk ltac:(congruence) Cw Ck) as (g & c & E & Hg & Cg & Lg & Eg & _). unfold RemoveAll in E.
  rewrite update_words_ok in E by (by apply same_size; [| |congruence]). cbn in E. injection E as <- <-.
  destruct (AddAll_ok v _ Hv Hg ltac:(done) Cv Cg) as (v' & c & E & Hv' & Cv' & Lv' & Ev' & Hc). unfold AddAll in E. cbn [data_] in E.
  exists v', c. rewrite E, Ev', Eg. split_and!; try done. by rewrite Hc, Ev', Eg.
Qed.

(** ** All words *)

Lemma bit_constant (data : list Z) c i : bit ((fun _ => c) <$> data) i = bool_decide (0 <= i / 64 < Z.of_nat (length data)) && Z.testbit c (i mod 64) \/ i < 0.
Proof.
  destruct (Z.lt_ge_cases i 0); [by right|left]. unfold bit. rewrite list_lookup_fmap. assert (0 <= i / 64) by (Z.div_mod_to_equations; lia).
  case_bool_decide as E.
  - destruct (lookup_lt_is_Some_2 data (Z.to_nat (i / 64))) as [x ->]; [lia|]. done.
  - rewrite lookup_ge_None_2 by lia. apply Z.bits_0.
Qed.
Lemma Clear_ok v : 0 <= length_ v -> data_length_ v = SizeFor (length_ v) -> wf (Clear v) /\ clean (Clear v) /\ elements_of (Clear v) = ∅.
Proof.
  intros H0 Hs. assert (Hb : forall j, 0 <= j -> bit (data_ (Clear v)) j = false).
  { intros j Hj. destruct (bit_constant (data_ v) 0 j) as [E|]; [|lia]. cbn [Clear data_]. rewrite E, Z.bits_0. apply andb_false_r. }
  split; [|split].
  - split; [done|unfold data_length_ in *; cbn; by rewrite length_fmap|]. cbn. apply Forall_fmap, Forall_forall. by vm_compute.
  - intros j Hj. apply Hb. cbn in Hj. lia.
  - apply elements_by; [set_solver|]. intros j Hj. rewrite Hb by lia. set_solver.
Qed.
Lemma CopyFrom_ok v w : wf v -> wf w -> length_ v = length_ w -> clean w ->
  exists v', CopyFrom w v = Ok v' /\ wf v' /\ clean v' /\ length_ v' = length_ v /\ elements_of v' = elements_of w.
Proof.
  intros Hv Hw Hl Cw. destruct (Clear_ok v) as (H1 & H2 & H3); [apply Hv..|].
  destruct (AddAll_ok (Clear v) w H1 Hw Hl H2 Cw) as (v' & c & E & ? & ? & ? & Ev & _). unfold CopyFrom. rewrite E. exists v'. split_and!; try done. set_solver.
Qed.
Lemma SetAll_ok v : wf v -> wf (SetAll v) /\ forall j, 0 <= j < 64 * SizeFor (length_ v) -> bit (data_ (SetAll v)) j = true.
Proof.
  intros [H0 Hs Hd]. split.
  - split; [done|unfold data_length_ in *; cbn; by rewrite length_fmap|]. cbn. apply Forall_fmap, Forall_forall. intros x _. by apply uwrap_range.
  - intros j Hj. destruct (bit_constant (data_ v) (u64 (-1)) j) as [E|]; [|lia]. cbn [SetAll data_]. rewrite E. unfold data_length_ in Hs.
    rewrite bool_decide_eq_true_2 by (Z.div_mod_to_equations; lia). pose proof (Z.mod_pos_bound j 64 ltac:(lia)).
    rewrite testbit_uwrap, Z.bits_m1 by lia. by rewrite (proj2 (Z.ltb_lt _ _)) by lia.
Qed.
Lemma IsEmpty_ok v : wf v -> clean v -> IsEmpty v = bool_decide (elements_of v = ∅).
Proof.
  intros Hv Cv. destruct (Clear_ok v) as (H1 & H2 & H3); [apply Hv..|]. rewrite <- H3.
  assert (E : IsEmpty v = true <-> elements_of v = elements_of (Clear v)).
  { rewrite (same_elements v (Clear v) Hv H1 eq_refl Cv H2). unfold IsEmpty, Clear. cbn. rewrite forallb_forall. split.
    - intros Hall. apply list_eq. intros k. rewrite list_lookup_fmap. destruct (data_ v !! k) as [x|] eqn:Ex; [|done]. cbn. f_equal.
      apply Z.eqb_eq, Hall, list_elem_of_In. by eapply list_elem_of_lookup_2.
    - intros Ed x Hx. apply list_elem_of_In in Hx. rewrite Ed in Hx. apply list_elem_of_fmap in Hx as (? & -> & _). done. }
  destruct (IsEmpty v); symmetry; [apply bool_decide_eq_true_2; by apply E|apply bool_decide_eq_false_2]. intros H. by apply E in H.
Qed.
Lemma SubsetOf_words_ok a : forall b, length a = length b -> SubsetOf_words a b = Ok (bool_decide (a = zip_with Z.land a b)).
Proof.
  induction a as [|x a IH]; intros [|y b] Hl; try done. injection Hl as Hl. cbn [SubsetOf_words zip_with]. rewrite (IH b Hl).
  destruct (Z.eqb_spec (x .& y) x) as [E|E]; cbn [negb]; f_equal.
  - apply bool_decide_ext. split; [intros H; by f_equal|by intros [= ? ?]].
  - symmetry. apply bool_decide_eq_false_2. by intros [= ? ?].
Qed.
Lemma SubsetOf_ok v w : wf v -> wf w -> length_ v = length_ w -> clean v -> clean w -> SubsetOf v w = Ok (bool_decide (elements_of v ⊆ elements_of w)).
Proof.
  intros Hv Hw Hl Cv Cw. unfold SubsetOf. rewrite SubsetOf_words_ok by (by apply same_size). f_equal.
  destruct (Intersect_ok v w Hv Hw Hl Cv Cw) as (v' & E & Hv' & Cv' & Lv' & Ev'). unfold Intersect in E.
  rewrite update_words_ok in E by (by apply same_size). cbn in E. injection E as <-.
  apply bool_decide_ext. pose proof (same_elements v _ Hv Hv' (eq_sym Lv') Cv Cv') as Hs. cbn [data_] in Hs. rewrite <- Hs, Ev'.
  split; [intros H; set_solver|intros H; apply set_eq; set_solver].
Qed.

(** ** Equality *)

Lemma bit_first x a i : 0 <= i < 64 -> bit (x :: a) i = Z.testbit x i.
Proof. intros. unfold bit. rewrite Z.div_small, Z.mod_small by lia. done. Qed.
Lemma bit_rest x a i : 0 <= i -> bit (x :: a) (64 + i) = bit a i.
Proof.
  intros. unfold bit. replace ((64 + i) / 64) with (1 + i / 64) by (Z.div_mod_to_equations; lia).
  replace ((64 + i) mod 64) with (i mod 64) by (Z.div_mod_to_equations; lia).
  assert (0 <= i / 64) by (Z.div_mod_to_equations; lia). by rewrite Z2Nat.inj_add by lia.
Qed.
Lemma masked_equal x y r : 0 < r < 64 ->
  x .& (u64 (-1) ≫ (64 - r)) = y .& (u64 (-1) ≫ (64 - r)) <-> forall j, 0 <= j < r -> Z.testbit x j = Z.testbit y j.
Proof.
  intros Hr. assert (Hm : forall j, 0 <= j -> Z.testbit (u64 (-1) ≫ (64 - r)) j = (j <? r)).
  { intros j Hj. rewrite Z.shiftr_spec, testbit_uwrap, Z.bits_m1, andb_true_r by lia. destruct (Z.ltb_spec (j + (64 - r)) 64), (Z.ltb_spec j r); lia. }
  split.
  - intros E j Hj. assert (Ht : Z.testbit (x .& (u64 (-1) ≫ (64 - r))) j = Z.testbit (y .& (u64 (-1) ≫ (64 - r))) j) by (by rewrite E).
    rewrite !Z.land_spec, Hm, (proj2 (Z.ltb_lt j r)), !andb_true_r in Ht by lia. done.
  - intros H. apply Z.bits_inj'. intros j Hj. rewrite !Z.land_spec, Hm by done. destruct (Z.ltb_spec j r); [by rewrite H|by rewrite !andb_false_r].
Qed.
(** The loop on the last words, of which [r] bits count. *)
Lemma Equals_words_ok L a : forall b r, length a = length b -> Forall (is_u 64) a -> Forall (is_u 64) b ->
  0 < r -> 64 * (Z.of_nat (length a) - 1) < r <= 64 * Z.of_nat (length a) -> Z.rem L kBitsPerWord = r mod 64 ->
  exists e, Equals_words L a b = Ok e /\ (e = true <-> forall i, 0 <= i < r -> bit a i = bit b i).
Proof.
  induction a as [|x a IH]; intros [|y b] r Hl Ha Hb Hr Hk HL; try done; [cbn in Hk; lia|]. injection Hl as Hl.
  apply Forall_cons in Ha as [Hx Ha], Hb as [Hy Hb]. destruct a as [|x2 a].
  - destruct b; [|done]. cbn [Equals_words length] in *. rewrite HL. unfold kBitsPerWord.
    assert (Hfirst : (forall i, 0 <= i < r -> bit [x] i = bit [y] i) <-> forall j, 0 <= j < r -> Z.testbit x j = Z.testbit y j)
      by (split; intros H j Hj; specialize (H j Hj); rewrite !bit_first in * by lia; done).
    destruct (Z.eqb_spec (r mod 64) 0) as [E|E]; eexists; (split; [reflexivity|]); rewrite Z.eqb_eq, Hfirst.
    + assert (r = 64) as -> by (Z.div_mod_to_equations; lia). split; [by intros ->|]. by apply word_ext.
    + assert (r < 64) by (Z.div_mod_to_equations; lia). rewrite Z.mod_small by lia. apply masked_equal. lia.
  - destruct b as [|y2 b]; [done|].
    assert (Hstep : Equals_words L (x :: x2 :: a) (y :: y2 :: b) = if x =? y then Equals_words L (x2 :: a) (y2 :: b) else Ok false) by done. rewrite Hstep.
    assert (H64 : 64 <= r) by (cbn [length] in Hk; lia).
    destruct (Z.eqb_spec x y) as [->|Hne].
    + destruct (IH (y2 :: b) (r - 64) Hl Ha Hb) as (e & E & He); [cbn [length] in Hk; lia|cbn [length] in *; lia|rewrite HL; Z.div_mod_to_equations; lia|].
      exists e. split; [done|]. rewrite He. split.
      * intros H i Hi. destruct (Z.lt_ge_cases i 64); [by rewrite !bit_first by lia|]. replace i with (64 + (i - 64)) by lia. rewrite !bit_rest by lia. apply H. lia.
      * intros H i Hi. specialize (H (64 + i) ltac:(lia)). by rewrite !bit_rest in H by lia.
    + exists false. split; [done|]. split; [done|]. intros H. exfalso. apply Hne. apply word_ext; [done|done|]. intros j Hj.
      specialize (H j ltac:(lia)). by rewrite !bit_first in H by lia.
Qed.
Lemma Equals_ok v w : wf v -> wf w -> 0 < length_ v \/ clean v /\ clean w ->
  Equals v w = Ok (bool_decide (length_ v = length_ w /\ elements_of v = elements_of w)).
Proof.
  intros Hv Hw Hpos. unfold Equals. destruct (Z.eqb_spec (length_ v) (length_ w)) as [Hl|Hne]; cbn [negb]; [|f_equal; symmetry; apply bool_decide_eq_false_2; tauto].
  pose proof (same_size v w Hv Hw Hl) as Hsize. pose proof Hv as [H0 Hs Hd]. pose proof Hw as [_ _ Hdw]. unfold data_length_ in Hs.
  assert (exists e, Equals_words (length_ v) (data_ v) (data_ w) = Ok e /\ (e = true <-> elements_of v = elements_of w)) as (e & -> & He).
  { destruct (Z.eq_dec (length_ v) 0) as [E0|E0].
    - destruct Hpos as [?|[Cv Cw]]; [lia|]. pose proof (same_elements v w Hv Hw Hl Cv Cw) as Hsame. rewrite E0 in *. change (SizeFor 0) with 1 in Hs.
      destruct (data_ v) as [|x [|? ?]], (data_ w) as [|y [|? ?]]; try (cbn in *; lia). exists (x =? y). split; [done|]. rewrite Z.eqb_eq, Hsame. split; [by intros ->|by intros [= ->]].
    - assert (Hcov : 64 * (SizeFor (length_ v) - 1) < length_ v <= 64 * SizeFor (length_ v)).
      { unfold SizeFor, kBitsPerWord. rewrite Z.quot_div_nonneg by lia. Z.div_mod_to_equations. lia. }
      destruct (Equals_words_ok (length_ v) (data_ v) (data_ w) (length_ v)) as (e & Ee & He); [done|done|done|lia|lia|apply Z.rem_mod_nonneg; unfold kBitsPerWord; lia|].
      exists e. split; [done|]. rewrite He. split.
      + intros H. apply elements_by; [intros j Hj; apply in_elements in Hj; lia|]. intros j Hj. rewrite H by lia. rewrite elem_of_elements, <- Hl. tauto.
      + intros H i Hi. assert (Hin : i ∈ elements_of v <-> i ∈ elements_of w) by (by rewrite H). rewrite !elem_of_elements, <- Hl in Hin.
        destruct (bit (data_ v) i), (bit (data_ w) i); intuition congruence. }
  f_equal. destruct e; symmetry; [apply bool_decide_eq_true_2|apply bool_decide_eq_false_2]; intuition congruence.
Qed.

(** ** The iterator *)

(** The lowest bit of a word. *)
Definition lowest (x t : Z) : Prop := 0 <= t /\ Z.testbit x t = true /\ forall j, 0 <= j < t -> Z.testbit x j = false.
Lemma lowest_exists x : is_u 64 x -> x <> 0 -> exists t, lowest x t /\ t < 64.
Proof.
  intros Hx Hne. destruct (decide (Exists (fun j => Z.testbit x j = true) (seqZ 0 64))) as [He|He].
  - assert (H : forall n, (exists j, 0 <= j < Z.of_nat n /\ Z.testbit x j = true) -> exists t, lowest x t /\ t < Z.of_nat n).
    { induction n as [|n IH]; intros (j & Hj & Hb); [lia|].
      destruct (decide (Exists (fun j => Z.testbit x j = true) (seqZ 0 (Z.of_nat n)))) as [Hn|Hn].
      - apply Exists_exists in Hn as (k & Hk & Hkb). apply elem_of_seqZ in Hk. destruct IH as (t & Ht & ?); [exists k; split; [lia|done]|]. exists t. split; [done|lia].
      - assert (Hnone : forall k, 0 <= k < Z.of_nat n -> Z.testbit x k = false).
        { intros k Hk. destruct (Z.testbit x k) eqn:E; [|done]. exfalso. apply Hn, Exists_exists. exists k. split; [apply elem_of_seqZ; lia|done]. }
        assert (j = Z.of_nat n) as -> by (destruct (Z.eq_dec j (Z.of_nat n)); [done|]; rewrite Hnone in Hb by lia; done).
        exists (Z.of_nat n). split; [split_and!; [lia|done|done]|lia]. }
    apply Exists_exists in He as (k & Hk & Hkb). apply elem_of_seqZ in Hk. apply (H 64%nat). exists k. split; [lia|done].
  - exfalso. apply Hne, word_ext; [done|by vm_compute|]. intros j Hj. rewrite Z.bits_0. destruct (Z.testbit x j) eqn:E; [|done].
    exfalso. apply He, Exists_exists. exists j. split; [apply elem_of_seqZ; lia|done].
Qed.
Lemma lowest_shift x t k : 0 <= k <= t -> lowest x t -> lowest (x ≫ k) (t - k).
Proof.
  intros Hk (H0 & Hb & Hl). split_and!; [lia|rewrite Z.shiftr_spec by lia; by replace (t - k + k) with t by lia|].
  intros j Hj. rewrite Z.shiftr_spec by lia. apply Hl. lia.
Qed.
Lemma low_bits_zero x t s : 0 < s -> lowest x t -> (x .& Z.ones s =? 0) = (s <=? t).
Proof.
  intros Hs (H0 & Hb & Hl). destruct (Z.leb_spec s t) as [Hle|Hlt].
  - apply Z.eqb_eq, Z.bits_inj'. intros j Hj. rewrite Z.land_spec, Z.bits_0. destruct (Z.lt_ge_cases j s); [by rewrite Hl by lia|].
    rewrite Z.ones_spec_high by lia. apply andb_false_r.
  - apply Z.eqb_neq. intros E. assert (Ht : Z.testbit (x .& Z.ones s) t = false) by (by rewrite E, Z.bits_0).
    rewrite Z.land_spec, Hb, Z.ones_spec_low in Ht by lia. done.
Qed.
Lemma skip_zeros_ok s n : 0 < s -> forall x t b, lowest x t -> t < s * (Z.of_nat n + 1) ->
  skip_zeros n (Z.ones s) s x b = Ok (x ≫ (s * (t / s)), b + s * (t / s)).
Proof.
  intros Hs. induction n as [|n IH]; intros x t b Ht Hn; cbn [skip_zeros]; rewrite (low_bits_zero x t s Hs Ht); destruct (Z.leb_spec s t) as [Hle|Hlt].
  - lia.
  - destruct Ht as [H0 _]. rewrite Z.div_small by lia. rewrite Z.mul_0_r, Z.shiftr_0_r, Z.add_0_r. done.
  - assert (Hd : t / s = 1 + (t - s) / s) by (replace t with (1 * s + (t - s)) at 1 by lia; rewrite Z.div_add_l by lia; lia).
    rewrite (IH _ (t - s)); [|apply lowest_shift; [lia|done]|lia]. assert (0 <= (t - s) / s) by (apply Z.div_pos; lia).
    rewrite Z.shiftr_shiftr by lia. rewrite Hd. do 2 f_equal; [f_equal|]; ring.
  - destruct Ht as [H0 _]. rewrite Z.div_small by lia. rewrite Z.mul_0_r, Z.shiftr_0_r, Z.add_0_r. done.
Qed.
Lemma find_bit_ok k x t b : lowest x t -> t < 64 -> find_bit k x b = Ok (mkIterator (b + t) k (x ≫ (t + 1))).
Proof.
  intros Ht H64. pose proof Ht as [H0 _]. unfold find_bit. change (skip_zeros 8 0xff 8) with (skip_zeros 8 (Z.ones 8) 8).
  change (skip_zeros 8 0x1 1) with (skip_zeros 8 (Z.ones 1) 1).
  rewrite (skip_zeros_ok 8 8 ltac:(lia) x t) by (done || lia). cbn [mbind result_bind].
  assert (Hm : 0 <= 8 * (t / 8) <= t /\ t - 8 * (t / 8) < 8) by (Z.div_mod_to_equations; lia).
  rewrite (skip_zeros_ok 1 8 ltac:(lia) _ (t - 8 * (t / 8))); [|apply lowest_shift; [lia|done]|lia]. cbn [mbind result_bind].
  rewrite Z.div_1_r. set (q := t / 8) in *. rewrite (Z.shiftr_shiftr _ (8 * q)) by lia. rewrite (Z.shiftr_shiftr _ _ 1) by lia. f_equal. f_equal; [lia|]. f_equal. lia.
Qed.

Section Iterate.
Context (v : BitVector) (Hv : wf v).
Local Abbreviation n := (data_length_ v).

Lemma word_at k : 0 <= k < n -> exists w, word v k = Ok w /\ data_ v !! Z.to_nat k = Some w /\ is_u 64 w.
Proof.
  intros Hk. unfold data_length_ in Hk. destruct (lookup_lt_is_Some_2 (data_ v) (Z.to_nat k)) as [w Ew]; [lia|]. exists w.
  pose proof (wf_words v Hv) as Hw. rewrite Forall_lookup in Hw. split_and!; [|done|by eapply Hw..].
  unfold word. rewrite (proj2 (Z.ltb_ge k 0)) by lia. by rewrite Ew.
Qed.
Lemma word_bit k w j : 0 <= k -> data_ v !! Z.to_nat k = Some w -> 0 <= j < 64 -> bit (data_ v) (64 * k + j) = Z.testbit w j.
Proof.
  intros Hk Ew Hj. unfold bit. replace ((64 * k + j) / 64) with k by (Z.div_mod_to_equations; lia).
  replace ((64 * k + j) mod 64) with j by (Z.div_mod_to_equations; lia). by rewrite Ew.
Qed.
Lemma skip_words_ok rounds : forall k, 0 <= k < n -> n - k <= Z.of_nat rounds ->
  exists k' w, skip_words rounds v k = Ok (k', w) /\ k < k' <= n /\ (forall j, 64 * (k + 1) <= j < 64 * k' -> bit (data_ v) j = false) /\
    (k' < n -> data_ v !! Z.to_nat k' = Some w /\ w <> 0) /\ (k' = n -> w = 0).
Proof.
  induction rounds as [|rounds IH]; intros k Hk Hr; [lia|]. cbn [skip_words]. destruct (Z.leb_spec n (k + 1)) as [Hend|Hin].
  - exists (k + 1), 0. split; [done|]. split_and!; [lia|lia|lia|intros; lia|done].
  - destruct (word_at (k + 1) ltac:(lia)) as (w & E & Ew & Hw). rewrite E. cbn [mbind result_bind]. destruct (Z.eqb_spec w 0) as [->|Hne].
    + destruct (IH (k + 1) ltac:(lia) ltac:(lia)) as (k' & w' & E' & Hk' & Hz & H1 & H2). exists k', w'. split; [done|]. split_and!; [lia|lia| |done|done].
      intros j Hj. destruct (Z.lt_ge_cases j (64 * (k + 1 + 1))); [|apply Hz; lia]. replace j with (64 * (k + 1) + (j - 64 * (k + 1))) by lia.
      rewrite (word_bit (k + 1) 0) by (done || lia). apply Z.bits_0.
    + exists (k + 1), w. split; [done|]. split_and!; [lia|lia|intros; lia|done|lia].
Qed.

(** An iterator that has passed bit [b]: the rest of its word is at hand. *)
Definition passed (it : Iterator) : Prop := exists w,
  0 <= word_index_ it < n /\ data_ v !! Z.to_nat (word_index_ it) = Some w /\
  0 <= bit_index_ it + 1 - 64 * word_index_ it <= 64 /\ current_word_ it = w ≫ (bit_index_ it + 1 - 64 * word_index_ it).
(** An iterator at the first bit from [b] on, or done. *)
Definition at_first (b : Z) (it : Iterator) : Prop :=
  (Done v it = true /\ forall j, b <= j < 64 * n -> bit (data_ v) j = false) \/
  (Done v it = false /\ passed it /\ b <= bit_index_ it < 64 * n /\ bit (data_ v) (bit_index_ it) = true /\
   forall j, b <= j < bit_index_ it -> bit (data_ v) j = false).
Lemma found k w x s : 0 <= k < n -> data_ v !! Z.to_nat k = Some w -> is_u 64 w -> 0 <= s < 64 -> x = w ≫ s -> x <> 0 ->
  exists it, find_bit k x (64 * k + s) = Ok it /\ at_first (64 * k + s) it.
Proof.
  intros Hk Ew Hw Hs -> Hne.
  assert (Hx : is_u 64 (w ≫ s)).
  { destruct Hw. split; [by apply Z.shiftr_nonneg|]. rewrite Z.shiftr_div_pow2 by lia. apply Z.div_lt_upper_bound; [apply pow2_pos; lia|].
    assert (0 < 2 ^ s) by (apply pow2_pos; lia). nia. }
  destruct (lowest_exists _ Hx Hne) as (t & Ht & H64). rewrite (find_bit_ok k _ t) by done. eexists. split; [reflexivity|].
  destruct Ht as (H0 & Hb & Hl). rewrite Z.shiftr_spec in Hb by lia.
  assert (Hts : t + s < 64) by (destruct (Z.lt_ge_cases (t + s) 64); [done|]; rewrite (testbit_high 64 w) in Hb by (done || lia); done).
  right. unfold Done. cbn [bit_index_ word_index_ current_word_]. split; [apply Z.leb_gt; lia|]. split.
  - exists w. cbn [bit_index_ word_index_ current_word_]. split; [lia|]. split; [done|]. split; [lia|]. rewrite Z.shiftr_shiftr by lia. f_equal. lia.
  - split; [lia|]. split; [replace (64 * k + s + t) with (64 * k + (t + s)) by lia; by rewrite (word_bit k w) by (done || lia)|].
    intros j Hj. replace j with (64 * k + (s + (j - (64 * k + s)))) by lia. rewrite (word_bit k w) by (done || lia).
    specialize (Hl (j - (64 * k + s)) ltac:(lia)). rewrite Z.shiftr_spec in Hl by lia. by rewrite Z.add_comm.
Qed.
Lemma Advance_ok it : passed it -> exists it', Advance v it = Ok it' /\ at_first (bit_index_ it + 1) it'.
Proof.
  destruct it as [b k c]. intros (w & Hk & Ew & Hs & Ec). cbn [bit_index_ word_index_ current_word_] in *. unfold Advance. cbn [bit_index_ word_index_ current_word_].
  destruct (word_at k Hk) as (w' & _ & Ew' & Hw). assert (w' = w) as -> by congruence.
  destruct (Z.eqb_spec c 0) as [->|Hne].
  - assert (Hrest : forall j, b + 1 <= j < 64 * (k + 1) -> bit (data_ v) j = false).
    { intros j Hj. replace j with (64 * k + (j - 64 * k)) by lia. rewrite (word_bit k w) by (done || lia).
      assert (Ht : Z.testbit (w ≫ (b + 1 - 64 * k)) (j - (b + 1)) = false) by (rewrite <- Ec; apply Z.bits_0).
      rewrite Z.shiftr_spec in Ht by lia. by replace (j - 64 * k) with (j - (b + 1) + (b + 1 - 64 * k)) by lia. }
    destruct (skip_words_ok (S (length (data_ v))) k Hk) as (k' & x & -> & Hk' & Hz & Hin & Hend); [unfold data_length_ in *; lia|]. cbn [mbind result_bind].
    destruct (Z.leb_spec n k') as [Hn|Hn].
    + assert (k' = n) as -> by lia. eexists. split; [reflexivity|]. left. unfold Done. cbn [word_index_]. split; [by apply Z.leb_le|].
      intros j Hj. destruct (Z.lt_ge_cases j (64 * (k + 1))); [apply Hrest; lia|apply Hz; lia].
    + destruct (Hin ltac:(lia)) as [Ex Hx]. destruct (word_at k' ltac:(lia)) as (x' & _ & Ex' & Hxu). assert (x' = x) as -> by congruence.
      destruct (found k' x x 0) as (it & E & Hat); [lia|done|done|lia|by rewrite Z.shiftr_0_r|done|].
      unfold kBitsPerWord. replace (k' * 64) with (64 * k' + 0) by lia. exists it. split; [done|].
      destruct Hat as [[Hd Hnone]|(Hd & Hp & Hb & Hbit & Hnone)].
      * left. split; [done|]. intros j Hj. destruct (Z.lt_ge_cases j (64 * (k + 1))); [apply Hrest; lia|]. destruct (Z.lt_ge_cases j (64 * k')); [apply Hz; lia|apply Hnone; lia].
      * right. split_and!; try done; [lia|lia|]. intros j Hj.
        destruct (Z.lt_ge_cases j (64 * (k + 1))); [apply Hrest; lia|]. destruct (Z.lt_ge_cases j (64 * k')); [apply Hz; lia|apply Hnone; lia].
  - destruct (Z.eq_dec (b + 1 - 64 * k) 64) as [E64|].
    + exfalso. apply Hne. rewrite Ec, E64, Z.shiftr_div_pow2 by lia. by apply Z.div_small.
    + destruct (found k w c (b + 1 - 64 * k) Hk Ew Hw) as (it & E & Hat); [lia|done|done|].
      replace (64 * k + (b + 1 - 64 * k)) with (b + 1) in * by lia. by exists it.
Qed.
Lemma filter_none (P : Z -> bool) a m : (forall j, a <= j < a + m -> P j = false) -> filter (fun i => P i = true) (seqZ a m) = [].
Proof.
  intros H. destruct (filter _ _) as [|x l] eqn:E; [done|]. assert (Hx : x ∈ filter (fun i => P i = true) (seqZ a m)) by (rewrite E; apply elem_of_cons; by left).
  apply list_elem_of_filter in Hx as [Hx Hin]. apply elem_of_seqZ in Hin. rewrite H in Hx by lia. done.
Qed.
Lemma filter_all (P : Z -> bool) a m : (forall j, a <= j < a + m -> P j = true) -> filter (fun i => P i = true) (seqZ a m) = seqZ a m.
Proof.
  intros H. assert (Hall : Forall (fun i => P i = true) (seqZ a m)) by (apply Forall_forall; intros j Hj; apply elem_of_seqZ in Hj; apply H; lia).
  induction Hall as [|x l Hx _ IH]; [done|]. by rewrite filter_cons_True, IH.
Qed.
Lemma visit_ok rounds : forall it b, at_first b it -> 0 <= b -> 64 * n - b <= Z.of_nat rounds ->
  visit rounds v it = Ok (filter (fun i => bit (data_ v) i = true) (seqZ b (64 * n - b))).
Proof.
  induction rounds as [|rounds IH]; intros it b [[Hd Hnone]|(Hd & Hp & Hb & Hbit & Hnone)] H0 Hr; cbn [visit]; rewrite Hd.
  - by rewrite filter_none by (intros j Hj; apply Hnone; lia).
  - lia.
  - by rewrite filter_none by (intros j Hj; apply Hnone; lia).
  - destruct (Advance_ok it Hp) as (it' & -> & Hat). cbn [mbind result_bind]. rewrite (IH it' (bit_index_ it + 1)) by (done || lia). cbn [mbind result_bind].
    replace (64 * n - b) with ((bit_index_ it - b) + (1 + (64 * n - (bit_index_ it + 1)))) by lia.
    rewrite seqZ_app, filter_app by lia. rewrite (filter_none _ b (bit_index_ it - b)) by (intros j Hj; apply Hnone; lia). cbn [app].
    replace (b + (bit_index_ it - b)) with (bit_index_ it) by lia. rewrite seqZ_app, filter_app by lia.
    rewrite (seqZ_cons (bit_index_ it) 1) by lia. cbn [Z.pred Z.succ]. change (Z.pred 1) with 0. cbn [seqZ]. rewrite filter_cons_True by done. done.
Qed.
Lemma elements_visited_ok : elements_visited v = Ok (filter (fun i => bit (data_ v) i = true) (seqZ 0 (64 * n))).
Proof.
  destruct Hv as [H0 Hs _]. destruct (SizeFor_covers _ H0) as (H1 & _ & _). unfold elements_visited, iterate.
  destruct (word_at 0 ltac:(lia)) as (w & -> & Ew & _). cbn [mbind result_bind].
  destruct (Advance_ok (mkIterator (-1) 0 w)) as (it & -> & Hat).
  - exists w. cbn. split; [lia|]. split; [done|]. split; [lia|]. by rewrite Z.shiftr_0_r.
  - cbn [mbind result_bind]. rewrite (visit_ok _ it 0) by (done || unfold kBitsPerWord; lia). by rewrite Z.sub_0_r.
Qed.
Lemma clean_visited : clean v -> elements_visited v = Ok (filter (fun i => i ∈ elements_of v) (seqZ 0 (length_ v))).
Proof.
  intros Hc. rewrite elements_visited_ok. f_equal. destruct Hv as [H0 Hs _]. destruct (SizeFor_covers _ H0) as (_ & H2 & _).
  replace (64 * n) with (length_ v + (64 * n - length_ v)) by lia. rewrite seqZ_app, filter_app by lia.
  rewrite (filter_none _ (0 + length_ v)), app_nil_r by (intros; apply Hc; lia).
  apply filter_ext_elem. intros i Hi. apply elem_of_seqZ in Hi. rewrite elem_of_elements. split; [intros; split; [lia|done]|tauto].
Qed.
End Iterate.
End BitVectorFacts.
Import BitVectorFacts.

(** C35: Bit vectors are sets.  A vector with words of the right number and no bit beyond its
    length stands for a set of numbers below the length.  [Add], [Remove], [Set], [AddAll],
    [RemoveAll], [KillAndAdd], [Intersect], [CopyFrom] and [Clear] keep it so and do what
    their names say; those that say whether something changed are right; [Contains],
    [IsEmpty], [SubsetOf] and [Equals] answer for the sets, and the iterator visits the
    elements in ascending order.  [SetAll] also sets the bits beyond the length: [Equals]
    ignores them, but the iterator visits numbers that are not below the length. *)
Theorem bit_vector_refines v : wf v ->
  (forall memory, Z.of_nat (length memory) = SizeFor (length_ v) ->
   wf (create (length_ v) memory) /\ clean (create (length_ v) memory) /\ elements_of (create (length_ v) memory) = ∅) /\
  (clean v ->
   (forall i b, 0 <= i < length_ v ->
    (exists v', Set_ i b v = Ok v' /\ wf v' /\ clean v' /\ length_ v' = length_ v /\
       elements_of v' = if b then {[i]} ∪ elements_of v else elements_of v ∖ {[i]}) /\
    Contains i v = Ok (bool_decide (i ∈ elements_of v))) /\
   (forall w, wf w -> clean w -> length_ v = length_ w ->
    let updates (r : bits_result (BitVector * bool)) S := exists v' c, r = Ok (v', c) /\ wf v' /\ clean v' /\ length_ v' = length_ v /\
      elements_of v' = S /\ c = negb (bool_decide (elements_of v' = elements_of v)) in
    updates (AddAll w v) (elements_of v ∪ elements_of w) /\ updates (RemoveAll w v) (elements_of v ∖ elements_of w) /\
    (forall k, wf k -> clean k -> length_ v = length_ k -> updates (KillAndAdd k w v) (elements_of v ∪ (elements_of w ∖ elements_of k))) /\
    (exists v', Intersect w v = Ok v' /\ wf v' /\ clean v' /\ length_ v' = length_ v /\ elements_of v' = elements_of v ∩ elements_of w) /\
    (exists v', CopyFrom w v = Ok v' /\ wf v' /\ clean v' /\ length_ v' = length_ v /\ elements_of v' = elements_of w) /\
    SubsetOf v w = Ok (bool_decide (elements_of v ⊆ elements_of w))) /\
   IsEmpty v = bool_decide (elements_of v = ∅) /\
   elements_visited v = Ok (filter (fun i => i ∈ elements_of v) (seqZ 0 (length_ v)))) /\
  (forall w, wf w -> 0 < length_ v \/ clean v /\ clean w ->
   Equals v w = Ok (bool_decide (length_ v = length_ w /\ elements_of v = elements_of w))) /\
  wf (SetAll v) /\ elements_of (SetAll v) = list_to_set (seqZ 0 (length_ v)) /\
  elements_visited (SetAll v) = Ok (seqZ 0 (64 * SizeFor (length_ v))).
Proof.
  intros Hv. pose proof (wf_length v Hv) as H0. destruct (SetAll_ok v Hv) as [Hs Hb]. destruct (SizeFor_covers _ H0) as (_ & Hcov & _). split_and!.
  - intros memory Hm. by apply Clear_ok.
  - intros Hc. split_and!; [| |by apply IsEmpty_ok|by apply clean_visited].
    + intros i b Hi. split; [|by apply Contains_ok]. destruct b; [by apply Add_ok|by apply Remove_ok].
    + intros w Hw Cw Hl. cbv zeta. split_and!; [by apply AddAll_ok|by apply RemoveAll_ok| |by apply Intersect_ok|by apply CopyFrom_ok|by apply SubsetOf_ok].
      intros k Hk Ck Lk. by apply KillAndAdd_ok.
  - intros w Hw Hpos. by apply Equals_ok.
  - done.
  - apply elements_by; [intros j Hj; apply elem_of_list_to_set, elem_of_seqZ in Hj; cbn; lia|]. intros j Hj. cbn in Hj.
    rewrite elem_of_list_to_set, elem_of_seqZ, Hb by lia. intuition lia.
  - rewrite (elements_visited_ok _ Hs). f_equal. replace (data_length_ (SetAll v)) with (SizeFor (length_ v)) by (symmetry; apply Hs).
    apply filter_all. intros j Hj. apply Hb. lia.
Qed.

(** The numbers 3 and 70 below 100. *)
Definition example_bits : BitVector := mkBitVector 100 [8; 64].
Lemma example_bits_ok : wf example_bits /\ clean example_bits.
Proof.
  split; [split; [by vm_compute|done|]|].
  - cbn. repeat (apply Forall_cons; split); [by vm_compute..|by apply Forall_nil].
  - intros i Hi. cbn in Hi. destruct (Z.lt_ge_cases i 128); [|apply bit_beyond; cbn; lia].
    assert (Hsix : forall j, 36 <= j -> Z.testbit (2 ^ 6) j = false) by (intros; rewrite Z.pow2_bits_eqb by lia; apply Z.eqb_neq; lia).
    unfold bit, example_bits. cbn [data_]. replace (i / 64) with 1 by (Z.div_mod_to_equations; lia).
    apply (Hsix (i mod 64)). Z.div_mod_to_equations. lia.
Qed.
Lemma bit_vector_refines_witness :
  (exists v', Set_ 99 true example_bits = Ok v' /\ elements_of v' = {[99]} ∪ elements_of example_bits) /\
  elements_visited example_bits = Ok [3; 70] /\ Contains 70 example_bits = Ok true /\
  elements_visited (SetAll example_bits) = Ok (seqZ 0 128).
Proof.
  destruct (bit_vector_refines example_bits (proj1 example_bits_ok)) as (_ & Hclean & _ & _ & _ & Hall).
  destruct (Hclean (proj2 example_bits_ok)) as (Hone & _ & _ & Hvisit). destruct (Hone 99 true) as [(v' & E & _ & _ & _ & Ev) _]; [cbn; lia|].
  split; [exists v'; split; [exact E|exact Ev]|]. split; [rewrite Hvisit; vm_compute; reflexivity|]. split; [vm_compute; reflexivity|]. exact Hall.
Defined.
