(* ===== verification/HashMap.v ===== *)
(** * Hash maps: runtime/vm/hash_map.h

    [BaseDirectChainedHashMap], a table of indices into an array of pairs: linear
    probing, markers for empty and for deleted slots, and an array that is rebuilt
    with twice the live pairs when it is full.  The map is parametric in the trait that
    says what pairs are; allocation and release of the arrays are not modelled.  The
    theorems show that it is a finite map. *)

From S2P Require Import Prelude Utils.

(** What stops the map: an access outside an array, the limit on probes, and a loop
    without end. *)
Inductive map_error : Type := ArrayBounds | ProbesLimit | EndlessProbe | NestedResize.
Abbreviation map_result := (result map_error).

(** [Utils::RoundUpToPowerOfTwo] on a 64-bit host; each statement is [x = x | (x >> s)]. *)
Definition smear_by (s x : Z) : Z := x .| (x ≫ s).
Definition RoundUpToPowerOfTwo (x : Z) : Z :=
  let x := u64 (x - 1) in
  let x := smear_by 1 x in
  let x := smear_by 2 x in
  let x := smear_by 4 x in
  let x := smear_by 8 x in
  let x := smear_by 16 x in
  let x := smear_by 32 x in
  u64 (x + 1).

(** The trait of a map: [no_pair] is [Pair()], and [no_value] its value. *)
Class KeyValueTrait (Key Value Pair : Type) := {
  KeyOf : Pair -> Key;
  ValueOf : Pair -> Value;
  Hash : Key -> Z;
  IsKeyEqual : Pair -> Key -> bool;
  no_pair : Pair;
  is_no_value : Value -> bool
}.

Module HashMap.
Section Map.
Context {Key Value Pair : Type} `{KeyValueTrait Key Value Pair}.

(** The value of the flag [hash_map_probes_limit]. *)
Context (probes_limit : Z).

Record t := mk {
  hash_table_ : list Z;
  pairs_ : list Pair;
  hash_table_size_ : Z;
  pairs_size_ : Z;
  next_pair_index_ : Z;
  deleted_count_ : Z
}.
Implicit Types m : t.

Definition kEmpty : Z := 2 ^ 32 - 1.
Definition kDeleted : Z := 2 ^ 32 - 1 - 1.
Definition kInitialSize : Z := 16.

Definition Size m : Z := u32 (next_pair_index_ m - deleted_count_ m).

(** Accesses to the arrays. *)
Definition slot (i : Z) m : map_result Z :=
  match hash_table_ m !! Z.to_nat i with Some e => Ok e | None => Err ArrayBounds end.
Definition pair (i : Z) m : map_result Pair :=
  match pairs_ m !! Z.to_nat i with Some p => Ok p | None => Err ArrayBounds end.
Definition set_slot (i e : Z) m : map_result t :=
  if (0 <=? i) && (i <? Z.of_nat (length (hash_table_ m))) then
    Ok (mk (<[Z.to_nat i := e]> (hash_table_ m)) (pairs_ m) (hash_table_size_ m) (pairs_size_ m)
          (next_pair_index_ m) (deleted_count_ m))
  else Err ArrayBounds.
Definition set_pair (i : Z) (p : Pair) m : map_result t :=
  if (0 <=? i) && (i <? Z.of_nat (length (pairs_ m))) then
    Ok (mk (hash_table_ m) (<[Z.to_nat i := p]> (pairs_ m)) (hash_table_size_ m) (pairs_size_ m)
          (next_pair_index_ m) (deleted_count_ m))
  else Err ArrayBounds.
Definition set_next (n : Z) m : t :=
  mk (hash_table_ m) (pairs_ m) (hash_table_size_ m) (pairs_size_ m) n (deleted_count_ m).
Definition set_deleted (n : Z) m : t :=
  mk (hash_table_ m) (pairs_ m) (hash_table_size_ m) (pairs_size_ m) (next_pair_index_ m) n.

Definition mask m : Z := u32 (hash_table_size_ m - 1).

(** The loop of [Lookup] and of [Remove]: the slot and the index of the first pair with
    the key; [fuel] bounds the rounds. *)
Fixpoint probe_key (fuel : nat) (key : Key) (hash_index probes : Z) m : map_result (option (Z * Z)) :=
  match fuel with
  | O => Err EndlessProbe
  | S fuel =>
      pair_index ← slot hash_index m;
      let next_index := u32 (hash_index + 1) .& mask m in
      if pair_index =? kEmpty then Ok None
      else if negb (pair_index =? kDeleted) then
        if probes + 1 <? probes_limit then
          p ← pair pair_index m;
          if IsKeyEqual p key then Ok (Some (hash_index, pair_index))
          else probe_key fuel key next_index (probes + 1) m
        else Err ProbesLimit
      else probe_key fuel key next_index probes m
  end.

(** As many rounds as there are slots. *)
Definition probe_rounds m : nat := Z.to_nat (hash_table_size_ m).

Definition find_key (key : Key) m : map_result (option (Z * Z)) :=
  probe_key (probe_rounds m) key (Hash key .& mask m) 0 m.

Definition Lookup (key : Key) m : map_result (option Pair) :=
  found ← find_key key m;
  match found with
  | None => Ok None
  | Some (_, pair_index) => p ← pair pair_index m; Ok (Some p)
  end.

Definition LookupValue (key : Key) m : map_result Value :=
  found ← Lookup key m;
  Ok (match found with None => ValueOf no_pair | Some p => ValueOf p end).

(** The loop of [Insert]: the first slot that is empty or deleted. *)
Fixpoint probe_free (fuel : nat) (hash_index probes : Z) m : map_result Z :=
  match fuel with
  | O => Err EndlessProbe
  | S fuel =>
      pair_index ← slot hash_index m;
      if (pair_index =? kEmpty) || (pair_index =? kDeleted) then Ok hash_index
      else if probes + 1 <? probes_limit then
        probe_free fuel (u32 (hash_index + 1) .& mask m) (probes + 1) m
      else Err ProbesLimit
  end.

(** [Insert] up to the test whether the array is full. *)
Definition insert_pair (kv : Pair) m : map_result t :=
  i ← probe_free (probe_rounds m) (Hash (KeyOf kv) .& mask m) 0 m;
  let next := next_pair_index_ m in
  m ← set_slot i next m;
  m ← set_pair next kv m;
  Ok (set_next (u32 (next + 1)) m).

(** The loop of [Resize] over the old pairs. *)
Fixpoint insert_old (insert : Pair -> t -> map_result t) (old_pairs : list Pair) m : map_result t :=
  match old_pairs with
  | [] => Ok m
  | p :: old_pairs =>
      m ← (if is_no_value (ValueOf p) then Ok m else insert p m);
      insert_old insert old_pairs m
  end.

Definition Resize (insert : Pair -> t -> map_result t) (new_size : Z) m : map_result t :=
  let size := u32 (RoundUpToPowerOfTwo (Z.quot (new_size * 4) 3 + 1)) in
  insert_old insert (take (Z.to_nat (next_pair_index_ m)) (pairs_ m))
    (mk (repeat kEmpty (Z.to_nat size)) (repeat no_pair (Z.to_nat (u32 new_size))) size (u32 new_size) 0 0).

(** [Insert] calls [Resize], which calls [Insert]; [depth] bounds the nesting. *)
Fixpoint Insert_nested (depth : nat) (kv : Pair) m : map_result t :=
  m ← insert_pair kv m;
  if next_pair_index_ m =? pairs_size_ m then
    match depth with
    | O => Err NestedResize
    | S depth => Resize (Insert_nested depth) (Size m ≪ 1) m
    end
  else Ok m.
Definition Insert : Pair -> t -> map_result t := Insert_nested 1.

(** The constructor: [Resize] of an object without arrays. *)
Definition create (initial_size : Z) : map_result t :=
  Resize Insert initial_size (mk [] [] 0 0 0 0).

Definition Update (kv : Pair) m : map_result t :=
  found ← find_key (KeyOf kv) m;
  match found with
  | Some (_, pair_index) => set_pair pair_index kv m
  | None => Insert kv m
  end.

Definition Remove (key : Key) m : map_result (bool * t) :=
  found ← find_key key m;
  match found with
  | None => Ok (false, m)
  | Some (hash_index, pair_index) =>
      m ← set_slot hash_index kDeleted m;
      m ← set_pair pair_index no_pair m;
      Ok (true, set_deleted (u32 (deleted_count_ m + 1)) m)
  end.

Definition Clear m : t :=
  mk (repeat kEmpty (length (hash_table_ m)))
     (repeat no_pair (Z.to_nat (next_pair_index_ m)) ++ drop (Z.to_nat (next_pair_index_ m)) (pairs_ m))
     (hash_table_size_ m) (pairs_size_ m) 0 0.

(** [Iterator::Next] from an index: the next pair with a value, and the index after. *)
Fixpoint next_from (fuel : nat) (pair_index : Z) m : map_result (option Pair * Z) :=
  match fuel with
  | O => Ok (None, pair_index)
  | S fuel =>
      if pair_index <? next_pair_index_ m then
        p ← pair pair_index m;
        if is_no_value (ValueOf p) then next_from fuel (pair_index + 1) m
        else Ok (Some p, pair_index + 1)
      else Ok (None, pair_index)
  end.
Definition Next (pair_index : Z) m : map_result (option Pair * Z) :=
  next_from (S (Z.to_nat (next_pair_index_ m - pair_index))) pair_index m.

End Map.
Arguments t : clear implicits.
End HashMap.

(** ** [IntMap]: integer keys

    [IntKeyRawPointerValueTrait] for a value type whose [V()] is zero. *)
#[export] Instance IntKeyRawPointerValueTrait : KeyValueTrait Z Z (Z * Z) := {|
  KeyOf := fst;
  ValueOf := snd;
  Hash key := u64 key;
  IsKeyEqual kv key := fst kv =? key;
  no_pair := (0, 0);
  is_no_value v := v =? 0
|}.

Module IntMap.
Definition Insert (probes_limit key value : Z) (m : HashMap.t (Z * Z)) : map_result (HashMap.t (Z * Z)) :=
  HashMap.Insert probes_limit (key, value) m.
Definition Lookup (probes_limit key : Z) (m : HashMap.t (Z * Z)) : map_result Z :=
  found ← HashMap.Lookup probes_limit key m;
  Ok (match found with None => 0 | Some p => snd p end).
End IntMap.
