(* ===== verification/HashMapCorrect.v ===== *)
(** * The hash map is a finite map

    The invariant of the table: every pair with a value is found by probing from the
    hash of its key before an empty slot, and there always is an empty slot.  The pairs
    with a value, oldest first, are the [contents] of the map; the operations do to
    them what the operations of an association list do. *)

From S2P Require Import Prelude Utils HashMap.

(** ** Powers of two *)

Lemma smear_step s x y :
  0 < s -> 0 <= y ->
  (forall i, 0 <= i -> Z.testbit y i = true <-> exists j, i <= j < i + s /\ Z.testbit x j = true) ->
  forall i, 0 <= i ->
    Z.testbit (smear_by s y) i = true <-> exists j, i <= j < i + 2 * s /\ Z.testbit x j = true.
Proof.
  intros Hs Hy Hx i Hi. unfold smear_by. rewrite Z.lor_spec, orb_true_iff, Z.shiftr_spec by done.
  rewrite (Hx i), (Hx (i + s)) by lia. split.
  - intros [(j & Hj & E)|(j & Hj & E)]; exists j; (split; [lia|done]).
  - intros (j & Hj & E). destruct (decide (j < i + s)); [left|right]; exists j; (split; [lia|done]).
Qed.

Lemma smear_nonneg s y : 0 <= y -> 0 <= smear_by s y.
Proof. intros. apply Z.lor_nonneg. split; [done|]. by apply Z.shiftr_nonneg. Qed.

Definition smear (x : Z) : Z :=
  smear_by 32 (smear_by 16 (smear_by 8 (smear_by 4 (smear_by 2 (smear_by 1 x))))).

Lemma smear_ones x : 0 < x < 2 ^ 64 -> smear x = Z.ones (Z.log2 x + 1).
Proof.
  intros Hx. pose proof (Z.log2_nonneg x) as Hl.
  assert (Hb : Z.log2 x < 64) by (apply Z.log2_lt_pow2; lia).
  assert (Hs : 0 <= smear x /\ forall i, 0 <= i ->
    Z.testbit (smear x) i = true <-> exists j, i <= j < i + 64 /\ Z.testbit x j = true).
  { unfold smear. split; [repeat apply smear_nonneg; lia|].
    apply (smear_step 32); [lia|repeat apply smear_nonneg; lia|].
    apply (smear_step 16); [lia|repeat apply smear_nonneg; lia|].
    apply (smear_step 8); [lia|repeat apply smear_nonneg; lia|].
    apply (smear_step 4); [lia|repeat apply smear_nonneg; lia|].
    apply (smear_step 2); [lia|repeat apply smear_nonneg; lia|].
    apply (smear_step 1); [lia|lia|]. intros i Hi. split.
    - intros E. exists i. split; [lia|done].
    - intros (j & Hj & E). by replace i with j by lia. }
  destruct Hs as [Hn Hs]. apply Z.bits_inj'. intros i Hi. apply eq_true_iff_eq. rewrite Hs by done.
  rewrite Z.testbit_ones by lia. split.
  - intros (j & Hj & E). apply andb_true_iff. rewrite Z.leb_le, Z.ltb_lt. split; [lia|].
    destruct (decide (j <= Z.log2 x)); [lia|]. rewrite Z.bits_above_log2 in E by lia. done.
  - intros E. apply andb_true_iff in E as [_ E]. apply Z.ltb_lt in E. exists (Z.log2 x).
    split; [lia|]. apply Z.bit_log2. lia.
Qed.

Lemma RoundUpToPowerOfTwo_spec x :
  1 <= x <= 2 ^ 62 ->
  exists k, 0 <= k <= 62 /\ RoundUpToPowerOfTwo x = 2 ^ k /\ x <= 2 ^ k /\
    forall j, 0 <= j -> x <= 2 ^ j -> 2 ^ k <= 2 ^ j.
Proof.
  intros Hx. assert (E : RoundUpToPowerOfTwo x = u64 (smear (u64 (x - 1)) + 1)) by (unfold RoundUpToPowerOfTwo, smear; reflexivity).
  rewrite E. clear E.
  rewrite (uwrap_small 64 (x - 1)) by (unfold is_u; lia).
  destruct (decide (x = 1)) as [->|Hn].
  { by exists 0. }
  rewrite smear_ones by lia. rewrite Z.ones_equiv.
  destruct (Z.log2_spec (x - 1)) as [Hl1 Hl2]; [lia|].
  assert (Hk : 0 <= Z.log2 (x - 1) < 62).
  { split; [apply Z.log2_nonneg|]. apply Z.log2_lt_pow2; lia. }
  exists (Z.log2 (x - 1) + 1). change (Z.succ (Z.log2 (x - 1))) with (Z.log2 (x - 1) + 1) in Hl2.
  assert (2 ^ (Z.log2 (x - 1) + 1) <= 2 ^ 62) by (apply Z.pow_le_mono_r; lia).
  split_and!; [lia|lia| |lia|].
  - replace (Z.pred (2 ^ (Z.log2 (x - 1) + 1)) + 1) with (2 ^ (Z.log2 (x - 1) + 1)) by lia.
    apply uwrap_small. unfold is_u. lia.
  - intros j Hj Hxj. apply Z.pow_le_mono_r; [lia|].
    assert (Z.log2 (x - 1) < j) by (apply (Z.pow_lt_mono_r_iff 2); lia). lia.
Qed.

(** ** Counting *)

Fixpoint count_if {A} (f : A -> bool) (l : list A) : Z :=
  match l with
  | [] => 0
  | x :: l => (if f x then 1 else 0) + count_if f l
  end.

Lemma count_if_nonneg {A} (f : A -> bool) l : 0 <= count_if f l.
Proof. induction l as [|x l IH]; cbn; [done|]. destruct (f x); lia. Qed.

Lemma count_if_insert {A} (f : A -> bool) l i x y :
  l !! i = Some x ->
  count_if f (<[i := y]> l) = count_if f l - (if f x then 1 else 0) + (if f y then 1 else 0).
Proof.
  revert i. induction l as [|z l IH]; intros [|i] E; [done|done| |].
  - injection E as ->. cbn. destruct (f x), (f y); lia.
  - change (<[S i := y]> (z :: l)) with (z :: <[i := y]> l). cbn [count_if].
    rewrite (IH i) by done. destruct (f x), (f y), (f z); lia.
Qed.

Lemma count_if_exists {A} (f : A -> bool) l :
  0 < count_if f l -> exists i x, l !! i = Some x /\ f x = true.
Proof.
  induction l as [|x l IH]; cbn; [lia|]. destruct (f x) eqn:E; intros Hc.
  - by exists 0%nat, x.
  - destruct IH as (i & y & Hi & Hy); [lia|]. by exists (S i), y.
Qed.

Lemma count_if_repeat {A} (f : A -> bool) x n : f x = true -> count_if f (repeat x n) = Z.of_nat n.
Proof. intros E. induction n as [|n IH]; [done|]. cbn [repeat count_if]. rewrite E, IH. lia. Qed.

Lemma count_if_filter {A} (f : A -> bool) l : count_if f l = Z.of_nat (length (List.filter f l)).
Proof. induction l as [|x l IH]; cbn; [done|]. destruct (f x); cbn [length]; lia. Qed.

(** ** The invariant *)

(** What a map may rely on: [IsKeyEqual] is an equality of keys that the hash respects,
    and [Pair()] has no value. *)
Class KeyValueLaws (Key Value Pair : Type) `{KeyValueTrait Key Value Pair} := {
  Hash_word : forall k, is_u 64 (Hash k);
  IsKeyEqual_refl : forall p, IsKeyEqual p (KeyOf p) = true;
  IsKeyEqual_same : forall p q k, IsKeyEqual p k = true -> IsKeyEqual q k = IsKeyEqual q (KeyOf p);
  IsKeyEqual_Hash : forall p k, IsKeyEqual p k = true -> Hash (KeyOf p) = Hash k;
  no_pair_value : is_no_value (ValueOf no_pair) = true
}.

Module MapFacts.
Import HashMap.
Section Facts.
Context {Key Value Pair : Type} `{KeyValueLaws Key Value Pair}.
Context (probes_limit : Z).
Implicit Types (m : HashMap.t Pair) (p kv : Pair).

Definition has_value p : bool := negb (is_no_value (ValueOf p)).
Definition is_empty (e : Z) : bool := e =? kEmpty.

(** The slot of the [j]th probe. *)
Definition probe m (hash : Z) (j : nat) : nat :=
  Z.to_nat ((hash + Z.of_nat j) mod hash_table_size_ m).

(** The probes before the slot [h] find something. *)
Definition reachable m (hash : Z) (h : nat) : Prop :=
  exists j, h = probe m hash j /\ forall i, (i < j)%nat -> hash_table_ m !! probe m hash i <> Some kEmpty.

(** The slot [h] refers to the pair at [e]. *)
Definition refers m (h : nat) (e : Z) : Prop :=
  hash_table_ m !! h = Some e /\ 0 <= e < next_pair_index_ m.

Record wf m : Prop := {
  wf_table : Z.of_nat (length (hash_table_ m)) = hash_table_size_ m;
  wf_pairs : Z.of_nat (length (pairs_ m)) = pairs_size_ m;
  wf_power : exists k, 0 <= k <= 31 /\ hash_table_size_ m = 2 ^ k;
  wf_limit : hash_table_size_ m < probes_limit;
  wf_room : 0 <= next_pair_index_ m <= pairs_size_ m /\ pairs_size_ m < hash_table_size_ m;
  wf_slots : forall h e, hash_table_ m !! h = Some e -> e = kEmpty \/ e = kDeleted \/ refers m h e;
  wf_inj : forall h1 h2 e, refers m h1 e -> refers m h2 e -> h1 = h2;
  wf_empty : hash_table_size_ m - next_pair_index_ m <= count_if is_empty (hash_table_ m);
  wf_probe : forall h e p, refers m h e -> pairs_ m !! Z.to_nat e = Some p ->
    reachable m (Hash (KeyOf p)) h;
  wf_live : forall e p, 0 <= e < next_pair_index_ m -> pairs_ m !! Z.to_nat e = Some p ->
    has_value p = true <-> exists h, refers m h e;
  wf_count : count_if has_value (take (Z.to_nat (next_pair_index_ m)) (pairs_ m))
    = next_pair_index_ m - deleted_count_ m /\ 0 <= deleted_count_ m
}.

(** The pairs of a map, oldest first. *)
Definition contents m : list Pair :=
  List.filter has_value (take (Z.to_nat (next_pair_index_ m)) (pairs_ m)).

Section Probing.
Context m (Hm : wf m).

Lemma size_range : 1 <= hash_table_size_ m <= 2 ^ 31.
Proof.
  destruct (wf_power _ Hm) as (k & Hk & ->). split; [|apply Z.pow_le_mono_r; lia].
  apply (Z.pow_le_mono_r 2 0 k); lia.
Qed.

Lemma markers : next_pair_index_ m < kDeleted /\ kDeleted < kEmpty.
Proof. pose proof size_range. destruct (wf_room _ Hm). unfold kDeleted, kEmpty. lia. Qed.

Lemma and_mask x : 0 <= x -> x .& mask m = x mod hash_table_size_ m.
Proof.
  intros Hx. pose proof size_range as Hs. unfold mask. destruct (wf_power _ Hm) as (k & Hk & E).
  rewrite (uwrap_small 32) by (unfold is_u; lia). rewrite E. 
  replace (2 ^ k - 1) with (Z.ones k) by (rewrite Z.ones_equiv; lia). by rewrite Z.land_ones by lia.
Qed.

Lemma probe_start hash : 0 <= hash -> hash .& mask m = Z.of_nat (probe m hash 0).
Proof.
  intros Hh. pose proof size_range. rewrite and_mask by done. unfold probe.
  rewrite Z.add_0_r, Z2Nat.id; [done|]. apply Z.mod_pos_bound. lia.
Qed.

Lemma probe_bound hash j : (probe m hash j < length (hash_table_ m))%nat.
Proof.
  pose proof size_range. pose proof (wf_table _ Hm).
  pose proof (Z.mod_pos_bound (hash + Z.of_nat j) (hash_table_size_ m) ltac:(lia)). unfold probe. lia.
Qed.

Lemma probe_next hash j :
  u32 (Z.of_nat (probe m hash j) + 1) .& mask m = Z.of_nat (probe m hash (S j)).
Proof.
  pose proof size_range as Hs. pose proof (probe_bound hash j). pose proof (wf_table _ Hm).
  rewrite (uwrap_small 32) by (unfold is_u; lia). rewrite and_mask by lia. unfold probe.
  pose proof (Z.mod_pos_bound (hash + Z.of_nat j) (hash_table_size_ m) ltac:(lia)).
  pose proof (Z.mod_pos_bound (hash + Z.of_nat (S j)) (hash_table_size_ m) ltac:(lia)).
  rewrite !Z2Nat.id by lia. rewrite Zplus_mod_idemp_l. f_equal. lia.
Qed.

Lemma slot_probe hash j : exists e, hash_table_ m !! probe m hash j = Some e /\
  slot (Z.of_nat (probe m hash j)) m = Ok e.
Proof.
  destruct (lookup_lt_is_Some_2 _ _ (probe_bound hash j)) as [e E]. exists e. split; [done|].
  unfold slot. by rewrite Nat2Z.id, E.
Qed.

(** Every slot is probed. *)
Lemma probe_all hash h : (h < length (hash_table_ m))%nat ->
  exists j, (j < length (hash_table_ m))%nat /\ h = probe m hash j.
Proof.
  intros Hh. pose proof size_range. pose proof (wf_table _ Hm) as Ht.
  pose proof (Z.mod_pos_bound (Z.of_nat h - hash) (hash_table_size_ m) ltac:(lia)).
  exists (Z.to_nat ((Z.of_nat h - hash) mod hash_table_size_ m)). split; [lia|]. unfold probe.
  rewrite Z2Nat.id by lia. rewrite Zplus_mod_idemp_r.
  replace (hash + (Z.of_nat h - hash)) with (Z.of_nat h) by lia. rewrite Z.mod_small; lia.
Qed.

Lemma some_empty : (next_pair_index_ m < hash_table_size_ m) ->
  forall hash, exists j, (j < length (hash_table_ m))%nat /\ hash_table_ m !! probe m hash j = Some kEmpty.
Proof.
  intros Hn hash. pose proof (wf_empty _ Hm).
  destruct (count_if_exists is_empty (hash_table_ m)) as (h & e & E & He); [lia|].
  apply Z.eqb_eq in He as ->. destruct (probe_all hash h) as (j & Hj & ->); [by eapply lookup_lt_Some|]. eauto.
Qed.

Lemma pair_refers h e : refers m h e -> exists p, pairs_ m !! Z.to_nat e = Some p /\ pair e m = Ok p.
Proof.
  intros [_ He]. pose proof (wf_pairs _ Hm). destruct (wf_room _ Hm).
  destruct (lookup_lt_is_Some_2 (pairs_ m) (Z.to_nat e)) as [p E]; [lia|].
  exists p. split; [done|]. unfold pair. by rewrite E.
Qed.

(** The slots before the [j]th probe hold no pair with the key. *)
Definition passed (key : Key) (j : nat) : Prop :=
  forall i e, (i < j)%nat -> hash_table_ m !! probe m (Hash key) i = Some e ->
    e <> kEmpty /\ forall p, refers m (probe m (Hash key) i) e -> pairs_ m !! Z.to_nat e = Some p ->
      IsKeyEqual p key = false.

Lemma probe_key_spec key fuel : forall j probes,
  (j + fuel = length (hash_table_ m))%nat -> 0 <= probes <= Z.of_nat j -> passed key j ->
  exists r, probe_key probes_limit fuel key (Z.of_nat (probe m (Hash key) j)) probes m = Ok r /\
  match r with
  | Some (h, e) => exists p, refers m (Z.to_nat h) e /\ 0 <= h < hash_table_size_ m /\
      pairs_ m !! Z.to_nat e = Some p /\ IsKeyEqual p key = true
  | None => exists j, hash_table_ m !! probe m (Hash key) j = Some kEmpty /\ passed key j
  end.
Proof.
  induction fuel as [|fuel IH]; intros j probes Hj Hp Hpass.
  { exfalso. pose proof size_range. destruct (wf_room _ Hm) as [? ?].
    destruct (some_empty ltac:(lia) (Hash key)) as (i & Hi & E).
    destruct (Hpass i kEmpty) as [Hc _]; [lia|done|done]. }
  cbn [probe_key]. destruct (slot_probe (Hash key) j) as (e & E & ->). cbn [mbind result_bind].
  rewrite probe_next. destruct (e =? kEmpty) eqn:Ee.
  { apply Z.eqb_eq in Ee as ->. eexists. split; [reflexivity|]. by exists j. }
  apply Z.eqb_neq in Ee.
  assert (Hstep : (forall p, refers m (probe m (Hash key) j) e -> pairs_ m !! Z.to_nat e = Some p ->
    IsKeyEqual p key = false) -> passed key (S j)).
  { intros Hk i e' Hi E'. destruct (decide (i = j)) as [->|]; [|apply Hpass; [lia|done]].
    rewrite E in E'. injection E' as <-. by split. }
  destruct (e =? kDeleted) eqn:Ed.
  { apply Z.eqb_eq in Ed as ->. cbn [negb]. apply IH; [lia|lia|]. apply Hstep. intros p [_ Hr].
    pose proof markers. lia. }
  apply Z.eqb_neq in Ed. cbn [negb].
  destruct (wf_slots _ Hm _ _ E) as [?|[?|Hr]]; [done|done|].
  pose proof (wf_table _ Hm). pose proof (wf_limit _ Hm).
  rewrite (proj2 (Z.ltb_lt (probes + 1) probes_limit)) by lia.
  destruct (pair_refers _ _ Hr) as (p & Ep & ->). cbn [mbind result_bind].
  destruct (IsKeyEqual p key) eqn:Ek.
  - eexists. split; [reflexivity|]. exists p. rewrite Nat2Z.id.
    pose proof (probe_bound (Hash key) j). split_and!; try done; lia.
  - apply IH; [lia|lia|]. apply Hstep. intros q _ Eq. congruence.
Qed.

Lemma find_key_spec key :
  exists r, find_key probes_limit key m = Ok r /\
  match r with
  | Some (h, e) => exists p, refers m (Z.to_nat h) e /\ 0 <= h < hash_table_size_ m /\
      pairs_ m !! Z.to_nat e = Some p /\ IsKeyEqual p key = true
  | None => forall h e p, refers m h e -> pairs_ m !! Z.to_nat e = Some p -> IsKeyEqual p key = false
  end.
Proof.
  pose proof (wf_table _ Hm) as Ht. pose proof (Hash_word key) as Hh. unfold is_u in Hh.
  destruct (probe_key_spec key (probe_rounds m) 0 0) as (r & E & Hr).
  { unfold probe_rounds. lia. }
  { lia. }
  { intros i e Hi. lia. }
  exists r. unfold find_key. rewrite probe_start by lia. split; [done|].
  destruct r as [[h e]|]; [done|]. destruct Hr as (j & Ej & Hpass). intros h e p Href Ep.
  destruct (IsKeyEqual p key) eqn:Ek; [|done]. exfalso.
  destruct (wf_probe _ Hm h e p Href Ep) as (i & -> & Hi). rewrite (IsKeyEqual_Hash p key Ek) in *.
  destruct (lt_eq_lt_dec i j) as [[Hlt| ->]|Hgt].
  - destruct (Hpass i e Hlt (proj1 Href)) as [_ Hq]. specialize (Hq p Href Ep). congruence.
  - destruct Href as [E1 Hrange]. pose proof markers. rewrite Ej in E1. injection E1 as <-. lia.
  - by apply (Hi j).
Qed.
End Probing.

(** ** Lookup *)

Lemma contents_elem m p :
  wf m -> p ∈ contents m <-> exists h e, refers m h e /\ pairs_ m !! Z.to_nat e = Some p.
Proof.
  intros Hm. unfold contents. rewrite list_elem_of_In, filter_In, <- list_elem_of_In, list_elem_of_lookup. split.
  - intros ((i & Hi) & Hv). apply lookup_take_Some in Hi as [Hi Hlt].
    destruct (wf_live _ Hm (Z.of_nat i) p) as [Hl _]; [lia|by rewrite Nat2Z.id|].
    destruct (Hl Hv) as [h Hr]. exists h, (Z.of_nat i). by rewrite Nat2Z.id.
  - intros (h & e & Hr & Ep). pose proof (proj2 Hr) as He. split.
    + exists (Z.to_nat e). apply lookup_take_Some. split; [done|lia].
    + apply (wf_live _ Hm e p); [done|done|by exists h].
Qed.

Lemma Lookup_spec m key :
  wf m -> exists r, Lookup probes_limit key m = Ok r /\
  match r with
  | Some p => p ∈ contents m /\ IsKeyEqual p key = true
  | None => forall p, p ∈ contents m -> IsKeyEqual p key = false
  end.
Proof.
  intros Hm. destruct (find_key_spec m Hm key) as ([[h e]|] & E & Hr); unfold Lookup; rewrite E; cbn [mbind result_bind].
  - destruct Hr as (p & Href & _ & Ep & Ek). exists (Some p). unfold pair. rewrite Ep. cbn [mbind result_bind].
    split; [done|]. split; [|done]. apply contents_elem; eauto.
  - exists None. split; [done|]. intros p Hp. apply contents_elem in Hp as (h & e & Href & Ep); [|done]. eauto.
Qed.

(** ** Insertion *)

(** The first free slot of a key. *)
Lemma probe_free_spec m (Hm : wf m) hash fuel : forall j probes,
  (j + fuel = length (hash_table_ m))%nat -> 0 <= probes <= Z.of_nat j ->
  (forall i, (i < j)%nat -> exists e, refers m (probe m hash i) e) ->
  exists k e, probe_free probes_limit fuel (Z.of_nat (probe m hash j)) probes m = Ok (Z.of_nat (probe m hash k)) /\
    hash_table_ m !! probe m hash k = Some e /\ (e = kEmpty \/ e = kDeleted) /\
    forall i, (i < k)%nat -> exists e, refers m (probe m hash i) e.
Proof.
  pose proof (markers m Hm) as Hmark.
  induction fuel as [|fuel IH]; intros j probes Hj Hp Hpass.
  { exfalso. pose proof (size_range m Hm). destruct (wf_room _ Hm) as [? ?].
    destruct (some_empty m Hm ltac:(lia) hash) as (i & Hi & E).
    destruct (Hpass i) as (e & E2 & Hr); [lia|]. rewrite E in E2. injection E2 as <-. lia. }
  cbn [probe_free]. destruct (slot_probe m Hm hash j) as (e & E & ->). cbn [mbind result_bind].
  destruct ((e =? kEmpty) || (e =? kDeleted)) eqn:Ef.
  { apply orb_true_iff in Ef. rewrite !Z.eqb_eq in Ef. by exists j, e. }
  apply orb_false_iff in Ef. rewrite !Z.eqb_neq in Ef.
  destruct (wf_slots _ Hm _ _ E) as [?|[?|Hr]]; [tauto|tauto|].
  pose proof (wf_table _ Hm). pose proof (wf_limit _ Hm).
  rewrite (proj2 (Z.ltb_lt (probes + 1) probes_limit)) by lia. rewrite probe_next by done.
  apply IH; [lia|lia|]. intros i Hi. destruct (decide (i = j)) as [->|]; [by exists e|apply Hpass; lia].
Qed.

(** The map with a pair in a free slot. *)
Definition added m (h : nat) kv : HashMap.t Pair :=
  mk (<[h := next_pair_index_ m]> (hash_table_ m))
     (<[Z.to_nat (next_pair_index_ m) := kv]> (pairs_ m)) (hash_table_size_ m) (pairs_size_ m)
     (next_pair_index_ m + 1) (deleted_count_ m).

Section Added.
Context m (Hm : wf m) (kv : Pair) (h : nat) (e0 : Z).
Hypothesis (Hn : next_pair_index_ m < pairs_size_ m) (Hv : has_value kv = true).
Hypothesis (E0 : hash_table_ m !! h = Some e0) (Hfree : e0 = kEmpty \/ e0 = kDeleted).

Lemma free_not_refers e : ~ refers m h e.
Proof.
  intros [E He]. pose proof (markers m Hm). rewrite E0 in E. injection E as <-. destruct Hfree; subst; lia.
Qed.

Lemma added_refers h' e :
  refers (added m h kv) h' e <-> (h' = h /\ e = next_pair_index_ m) \/ refers m h' e.
Proof.
  pose proof (lookup_lt_Some _ _ _ E0) as Hlt. destruct (wf_room _ Hm) as [Hr _].
  unfold refers at 1. cbn [hash_table_ next_pair_index_ added]. rewrite list_lookup_insert_Some. split.
  - intros [[(<- & <- & _)|(Hne & E)] He]; [by left|]. right. split; [done|].
    pose proof (markers m Hm). destruct (wf_slots _ Hm _ _ E) as [->|[->|[_ ?]]]; lia.
  - intros [[-> ->]|Href].
    + split; [by left|lia].
    + destruct (decide (h' = h)) as [->|Hne]; [by destruct (free_not_refers e)|].
      destruct Href as [E He]. split; [by right|lia].
Qed.

Lemma added_pair e p :
  0 <= e < next_pair_index_ m ->
  pairs_ (added m h kv) !! Z.to_nat e = Some p <-> pairs_ m !! Z.to_nat e = Some p.
Proof. intros He. cbn [added pairs_]. by rewrite list_lookup_insert_ne by lia. Qed.

Lemma added_new : pairs_ (added m h kv) !! Z.to_nat (next_pair_index_ m) = Some kv.
Proof.
  cbn [added pairs_]. destruct (wf_room _ Hm). pose proof (wf_pairs _ Hm).
  apply list_lookup_insert_eq. lia.
Qed.

(** The pairs in use are the old ones and the new one. *)
Lemma added_take :
  take (Z.to_nat (next_pair_index_ m + 1)) (pairs_ (added m h kv))
  = take (Z.to_nat (next_pair_index_ m)) (pairs_ m) ++ [kv].
Proof.
  destruct (wf_room _ Hm). replace (Z.to_nat (next_pair_index_ m + 1)) with (S (Z.to_nat (next_pair_index_ m))) by lia.
  rewrite (take_S_r _ _ kv added_new). cbn [added pairs_]. by rewrite take_insert_ge by lia.
Qed.

Lemma count_if_app {A} (f : A -> bool) l1 l2 : count_if f (l1 ++ l2) = count_if f l1 + count_if f l2.
Proof. induction l1 as [|x l1 IH]; cbn [app count_if]; [lia|]. rewrite IH. lia. Qed.

Lemma reachable_added hash h' : reachable m hash h' -> reachable (added m h kv) hash h'.
Proof.
  intros (j & -> & Hj). exists j. split; [done|]. intros i Hi. change (probe (added m h kv)) with (probe m).
  cbn [added hash_table_]. pose proof (markers m Hm). destruct (wf_room _ Hm).
  rewrite list_lookup_insert_Some. intros [(_ & E & _)|(_ & E)]; [lia|]. by apply (Hj i Hi).
Qed.

Lemma added_wf : reachable m (Hash (KeyOf kv)) h -> wf (added m h kv).
Proof.
  intros Hreach. pose proof (wf_room _ Hm) as [Hroom1 Hroom2]. pose proof (markers m Hm) as Hmark.
  pose proof added_new as Hnew. pose proof added_pair as Hold. cbn [added pairs_] in Hnew, Hold.
  split; cbn [added hash_table_ pairs_ hash_table_size_ pairs_size_ next_pair_index_ deleted_count_].
  - rewrite length_insert. apply Hm.
  - rewrite length_insert. apply Hm.
  - apply Hm.
  - apply Hm.
  - lia.
  - intros h' e E. apply list_lookup_insert_Some in E as [(<- & <- & _)|(Hne & E)].
    + right. right. apply added_refers. by left.
    + destruct (wf_slots _ Hm _ _ E) as [?|[?|?]]; [by left|by right; left|]. right. right.
      apply added_refers. by right.
  - intros h1 h2 e [[-> ->]|R1]%added_refers [[-> E]|R2]%added_refers; [done| | |by apply (wf_inj _ Hm h1 h2 e)].
    + destruct R2. lia.
    + destruct R1. lia.
  - rewrite (count_if_insert _ _ _ e0) by done. unfold is_empty at 2 3.
    rewrite (proj2 (Z.eqb_neq (next_pair_index_ m) kEmpty)) by lia.
    pose proof (wf_empty _ Hm). destruct (e0 =? kEmpty); lia.
  - intros h' e p [[-> ->]|Hr]%added_refers Ep.
    + rewrite Hnew in Ep. injection Ep as <-. by apply reachable_added.
    + apply reachable_added. apply (wf_probe _ Hm h' e p); [done|]. apply Hold; [apply Hr|done].
  - intros e p He Ep. destruct (decide (e = next_pair_index_ m)) as [->|Hne].
    + rewrite Hnew in Ep. injection Ep as <-. split; [|done]. intros _. exists h. apply added_refers. by left.
    + assert (He' : 0 <= e < next_pair_index_ m) by lia. apply (Hold e p He') in Ep.
      rewrite (wf_live _ Hm e p He' Ep). split; intros [h' Hr]; exists h'; [apply added_refers; by right|].
      apply added_refers in Hr as [[_ ->]|]; [lia|done].
  - pose proof (wf_count _ Hm) as [Hc Hd]. split; [|done].
    change (<[Z.to_nat (next_pair_index_ m):=kv]> (pairs_ m)) with (pairs_ (added m h kv)).
    rewrite added_take, count_if_app, Hc. cbn [count_if]. rewrite Hv. lia.
Qed.

Lemma added_contents : contents (added m h kv) = contents m ++ [kv].
Proof.
  unfold contents. change (next_pair_index_ (added m h kv)) with (next_pair_index_ m + 1).
  rewrite added_take, List.filter_app. cbn [List.filter]. by rewrite Hv.
Qed.
End Added.

Lemma insert_pair_spec m kv :
  wf m -> next_pair_index_ m < pairs_size_ m -> has_value kv = true ->
  exists m', insert_pair probes_limit kv m = Ok m' /\ wf m' /\ contents m' = contents m ++ [kv] /\
    hash_table_size_ m' = hash_table_size_ m /\ pairs_size_ m' = pairs_size_ m /\
    next_pair_index_ m' = next_pair_index_ m + 1 /\ deleted_count_ m' = deleted_count_ m.
Proof.
  intros Hm Hn Hv. pose proof (wf_table _ Hm) as Ht. pose proof (wf_pairs _ Hm) as Hp.
  pose proof (Hash_word (KeyOf kv)) as Hh. unfold is_u in Hh. destruct (wf_room _ Hm) as [Hr1 Hr2].
  pose proof (size_range m Hm) as Hs.
  destruct (probe_free_spec m Hm (Hash (KeyOf kv)) (probe_rounds m) 0 0) as (k & e & E & Ee & Hf & Hk).
  { unfold probe_rounds. lia. }
  { lia. }
  { intros i Hi. lia. }
  set (h := probe m (Hash (KeyOf kv)) k) in *. pose proof (lookup_lt_Some _ _ _ Ee) as Hlt.
  assert (Hreach : reachable m (Hash (KeyOf kv)) h).
  { exists k. split; [done|]. intros i Hi Hc. destruct (Hk i Hi) as (e' & E' & He').
    pose proof (markers m Hm). rewrite Hc in E'. injection E' as <-. lia. }
  exists (added m h kv). split_and!; [|by apply (added_wf m Hm kv h e)|by apply added_contents|done..].
  unfold insert_pair. rewrite probe_start by (done || lia). rewrite E. cbn [mbind result_bind]. cbv zeta.
  unfold set_slot. rewrite (proj2 (Z.leb_le 0 (Z.of_nat h))), (proj2 (Z.ltb_lt (Z.of_nat h) _)) by lia.
  cbn [andb mbind result_bind]. unfold set_pair. cbn [pairs_].
  rewrite (proj2 (Z.leb_le 0 _)), (proj2 (Z.ltb_lt (next_pair_index_ m) _)) by lia.
  cbn [andb mbind result_bind]. rewrite (uwrap_small 32) by (unfold is_u; lia).
  unfold set_next, added. cbn. by rewrite Nat2Z.id.
Qed.

(** ** Rebuilding the arrays *)

(** A map that can take another pair. *)
Definition ready m : Prop := wf m /\ next_pair_index_ m < pairs_size_ m.

Lemma lookup_repeat {A} (x y : A) n i : repeat x n !! i = Some y -> y = x /\ (i < n)%nat.
Proof.
  revert i. induction n as [|n IH]; intros [|i] E; cbn in *; try done.
  - injection E as <-. split; [done|lia].
  - destruct (IH i E) as [-> ?]. split; [done|lia].
Qed.

Lemma fresh_ready size n k :
  0 <= k <= 31 -> size = 2 ^ k -> size < probes_limit -> 0 < n < size ->
  let m := mk (repeat kEmpty (Z.to_nat size)) (repeat no_pair (Z.to_nat n)) size n 0 0 in
  ready m /\ contents m = [].
Proof.
  intros Hk Hs Hl Hn. cbv zeta. split; [split|done]; [|cbn; lia].
  split; cbn [hash_table_ pairs_ hash_table_size_ pairs_size_ next_pair_index_ deleted_count_];
    rewrite ?repeat_length, ?Z2Nat.id by lia; try lia.
  - by exists k.
  - intros h e E. left. by destruct (lookup_repeat _ _ _ _ E).
  - intros h1 h2 e [_ ?]. cbn in *. lia.
  - rewrite count_if_repeat by done. lia.
  - intros h e p [_ ?]. cbn in *. lia.
  - split; [done|lia].
Qed.

Lemma insert_old_spec d ps : forall m,
  wf m -> next_pair_index_ m + count_if has_value ps < pairs_size_ m ->
  exists m', insert_old (Insert_nested probes_limit d) ps m = Ok m' /\ ready m' /\
    contents m' = contents m ++ List.filter has_value ps /\ hash_table_size_ m' = hash_table_size_ m.
Proof.
  induction ps as [|p ps IH]; intros m Hm Hn; cbn [insert_old count_if List.filter] in *.
  { exists m. rewrite app_nil_r. split_and!; [done|split; [done|lia]|done|done]. }
  pose proof (count_if_nonneg has_value ps) as Hc.
  change (has_value p) with (negb (is_no_value (ValueOf p))) in *.
  destruct (is_no_value (ValueOf p)) eqn:Ev; cbn [negb mbind result_bind] in *; [apply IH; [done|lia]|].
  destruct (insert_pair_spec m p Hm) as (m1 & E1 & Hm1 & C1 & S1 & P1 & N1 & _); [lia|unfold has_value; by rewrite Ev|].
  assert (EI : Insert_nested probes_limit d p m = Ok m1).
  { destruct d; cbn [Insert_nested]; rewrite E1; cbn [mbind result_bind];
      rewrite (proj2 (Z.eqb_neq (next_pair_index_ m1) (pairs_size_ m1))) by lia; done. }
  rewrite EI. cbn [mbind result_bind]. destruct (IH m1 Hm1) as (m' & E & Hr & C & S); [lia|].
  exists m'. split_and!; [done|done|by rewrite C, C1, <- app_assoc|congruence].
Qed.

Lemma Resize_spec d n m j :
  count_if has_value (take (Z.to_nat (next_pair_index_ m)) (pairs_ m)) < n ->
  0 <= j <= 31 -> n * 4 / 3 + 1 <= 2 ^ j -> 2 ^ j < probes_limit ->
  exists m', Resize (Insert_nested probes_limit d) n m = Ok m' /\ ready m' /\ contents m' = contents m /\
    hash_table_size_ m' <= 2 * (n * 4 / 3 + 1).
Proof.
  intros Hc Hj Hn Hl. pose proof (count_if_nonneg has_value (take (Z.to_nat (next_pair_index_ m)) (pairs_ m))).
  assert (Hj31 : 2 ^ j <= 2 ^ 31) by (apply Z.pow_le_mono_r; lia).
  assert (Hq : n <= n * 4 / 3) by (apply Z.div_le_lower_bound; lia).
  destruct (RoundUpToPowerOfTwo_spec (n * 4 / 3 + 1)) as (k & Hk & Ek & Hk1 & Hk2); [lia|].
  assert (Hk3 : 2 ^ k <= 2 * (n * 4 / 3 + 1)).
  { destruct (Z.log2_up_spec (n * 4 / 3 + 1)) as [L1 L2]; [lia|].
    pose proof (Z.log2_up_nonneg (n * 4 / 3 + 1)).
    assert (2 ^ Z.log2_up (n * 4 / 3 + 1) = 2 * 2 ^ Z.pred (Z.log2_up (n * 4 / 3 + 1))).
    { rewrite <- Z.pow_succ_r, Z.succ_pred; [done|]. apply Z.lt_le_pred, Z.log2_up_pos. lia. }
    specialize (Hk2 _ ltac:(done) L2). lia. }
  specialize (Hk2 j ltac:(lia) Hn). unfold Resize. rewrite Z.quot_div_nonneg by lia. rewrite Ek.
  rewrite (uwrap_small 32 (2 ^ k)), (uwrap_small 32 n) by (unfold is_u; lia).
  assert (Hk31 : k <= 31) by (apply (Z.pow_le_mono_r_iff 2); lia).
  destruct (fresh_ready (2 ^ k) n k) as [[Hw _] Hcon]; [lia|done|lia|lia|].
  destruct (insert_old_spec d (take (Z.to_nat (next_pair_index_ m)) (pairs_ m)) _ Hw) as (m' & E & Hr & C & HS);
    [cbn; lia|].
  cbv zeta. exists m'. split_and!; [done|done|by rewrite C, Hcon|]. rewrite HS. cbn. lia.
Qed.

(** Room for twice the pairs, four times the slots. *)
Definition can_grow m : Prop := 4 * hash_table_size_ m <= 2 ^ 31 /\ 4 * hash_table_size_ m < probes_limit.

Lemma Insert_spec m kv :
  ready m -> can_grow m -> has_value kv = true ->
  exists m', Insert probes_limit kv m = Ok m' /\ ready m' /\ contents m' = contents m ++ [kv] /\
    hash_table_size_ m' <= Z.max (hash_table_size_ m) (6 * Z.of_nat (length (contents m')) + 2).
Proof.
  intros [Hm Hn] [G1 G2] Hv. destruct (insert_pair_spec m kv Hm Hn Hv) as (m1 & E1 & Hm1 & C1 & S1 & P1 & N1 & D1).
  unfold Insert. cbn [Insert_nested]. rewrite E1. cbn [mbind result_bind].
  destruct (next_pair_index_ m1 =? pairs_size_ m1) eqn:Ef.
  - apply Z.eqb_eq in Ef. destruct (wf_count _ Hm1) as [Hc Hd]. destruct (wf_room _ Hm1) as [R1 R2].
    destruct (wf_power _ Hm1) as (k & Hk & Ek).
    assert (Hlive : 1 <= next_pair_index_ m1 - deleted_count_ m1).
    { rewrite <- Hc, count_if_filter. change (List.filter has_value (take (Z.to_nat (next_pair_index_ m1)) (pairs_ m1))) with (contents m1).
      rewrite C1, length_app. cbn [length]. lia. }
    assert (ES : Size m1 = next_pair_index_ m1 - deleted_count_ m1).
    { unfold Size. apply uwrap_small. unfold is_u. pose proof (size_range m1 Hm1). lia. }
    rewrite Z.shiftl_mul_pow2 by lia. rewrite ES. change (2 ^ 1) with 2.
    assert (E4 : 2 ^ (k + 2) = 4 * hash_table_size_ m1) by (rewrite Z.pow_add_r, Ek by lia; lia).
    destruct (Resize_spec 0 ((next_pair_index_ m1 - deleted_count_ m1) * 2) m1 (k + 2)) as (m' & E & Hr & C & HS).
    + lia.
    + split; [lia|]. apply (Z.pow_le_mono_r_iff 2); [lia|lia|]. rewrite E4, S1. lia.
    + rewrite E4. assert ((next_pair_index_ m1 - deleted_count_ m1) * 2 * 4 / 3 <= 4 * hash_table_size_ m1 - 1); [|lia].
      apply Z.div_le_upper_bound; lia.
    + rewrite E4, S1. done.
    + exists m'. split_and!; [done|done|by rewrite C, C1|]. rewrite C.
      rewrite count_if_filter in Hc. change (List.filter has_value (take (Z.to_nat (next_pair_index_ m1)) (pairs_ m1))) with (contents m1) in Hc.
      pose proof (Z.mul_div_le ((next_pair_index_ m1 - deleted_count_ m1) * 2 * 4) 3 ltac:(lia)). lia.
  - apply Z.eqb_neq in Ef. exists m1. split_and!; [done| |done|rewrite S1; lia]. split; [done|]. destruct (wf_room _ Hm1). lia.
Qed.

Lemma create_spec n j :
  0 < n -> 0 <= j <= 31 -> n * 4 / 3 + 1 <= 2 ^ j -> 2 ^ j < probes_limit ->
  exists m, create probes_limit n = Ok m /\ ready m /\ contents m = [] /\ hash_table_size_ m <= 2 * (n * 4 / 3 + 1).
Proof.
  intros Hn Hj Hb Hl. apply (Resize_spec 1 n (mk [] [] 0 0 0 0) j); try done.
Qed.

(** ** Replacing and removing a pair *)

Lemma filter_insert {A} (f : A -> bool) l i x y :
  l !! i = Some x -> f x = true ->
  exists l1 l2, List.filter f l = l1 ++ x :: l2 /\
    List.filter f (<[i := y]> l) = l1 ++ (if f y then [y] else []) ++ l2.
Proof.
  revert i. induction l as [|z l IH]; intros [|i] E Hx; [done|done| |].
  - injection E as ->. exists [], (List.filter f l).
    change (<[0%nat := y]> (x :: l)) with (y :: l). cbn [List.filter]. rewrite Hx. by destruct (f y).
  - change (<[S i := y]> (z :: l)) with (z :: <[i := y]> l). cbn [List.filter].
    destruct (IH i E Hx) as (l1 & l2 & -> & ->). destruct (f z); [|by exists l1, l2].
    by exists (z :: l1), l2.
Qed.

Section Replaced.
Context m (Hm : wf m) (h : nat) (e : Z) (p : Pair).
Hypothesis (Href : refers m h e) (Ep : pairs_ m !! Z.to_nat e = Some p).

Lemma replaced_has_value : has_value p = true.
Proof. apply (wf_live _ Hm e p); [apply Href|done|by exists h]. Qed.

(** The pair at [e] becomes [q]. *)
Lemma replaced_contents m' q :
  next_pair_index_ m' = next_pair_index_ m -> pairs_ m' = <[Z.to_nat e := q]> (pairs_ m) ->
  exists l1 l2, contents m = l1 ++ p :: l2 /\
    contents m' = l1 ++ (if has_value q then [q] else []) ++ l2.
Proof.
  intros En Eps. unfold contents. rewrite En, Eps, take_insert_lt by (destruct Href; lia).
  apply filter_insert; [|apply replaced_has_value]. apply lookup_take_Some. split; [done|]. destruct Href. lia.
Qed.

Lemma replaced_count q :
  count_if has_value (take (Z.to_nat (next_pair_index_ m)) (<[Z.to_nat e := q]> (pairs_ m)))
  = next_pair_index_ m - deleted_count_ m - 1 + (if has_value q then 1 else 0).
Proof.
  rewrite take_insert_lt by (destruct Href; lia). rewrite (count_if_insert _ _ _ p).
  - rewrite (proj1 (wf_count _ Hm)), replaced_has_value. lia.
  - apply lookup_take_Some. split; [done|]. destruct Href. lia.
Qed.

(** [Update]: a pair with the same key. *)
Definition replaced q : HashMap.t Pair :=
  mk (hash_table_ m) (<[Z.to_nat e := q]> (pairs_ m)) (hash_table_size_ m) (pairs_size_ m)
     (next_pair_index_ m) (deleted_count_ m).

Lemma replaced_wf q : has_value q = true -> Hash (KeyOf p) = Hash (KeyOf q) -> wf (replaced q).
Proof.
  intros Hv Hh. assert (Hlt : (Z.to_nat e < length (pairs_ m))%nat) by (by eapply lookup_lt_Some).
  destruct Href as [Eh He].
  split; cbn [replaced hash_table_ pairs_ hash_table_size_ pairs_size_ next_pair_index_ deleted_count_]; try apply Hm.
  - rewrite length_insert. apply Hm.
  - intros h' e' p' Hr Ep'. change (refers m h' e') in Hr.
    change (reachable m (Hash (KeyOf p')) h').
    apply list_lookup_insert_Some in Ep' as [(E & <- & _)|(Hne & Ep')].
    + rewrite <- Hh. apply (wf_probe _ Hm h' e' p); [done|]. by rewrite <- E.
    + by apply (wf_probe _ Hm h' e' p').
  - intros e' p' He' Ep'. apply list_lookup_insert_Some in Ep' as [(E & <- & _)|(Hne & Ep')].
    + split; [|done]. intros _. exists h. split; [|done]. cbn. rewrite Eh. f_equal. lia.
    + by apply (wf_live _ Hm e' p').
  - split; [|apply Hm]. rewrite replaced_count, Hv. lia.
Qed.

(** [Remove]: a deleted slot and a pair without value. *)
Definition removed : HashMap.t Pair :=
  mk (<[h := kDeleted]> (hash_table_ m)) (<[Z.to_nat e := no_pair]> (pairs_ m)) (hash_table_size_ m)
     (pairs_size_ m) (next_pair_index_ m) (deleted_count_ m + 1).

Lemma no_pair_has_no_value : has_value no_pair = false.
Proof. unfold has_value. by rewrite no_pair_value. Qed.

Lemma removed_refers h' e' : refers removed h' e' <-> refers m h' e' /\ h' <> h.
Proof.
  pose proof (markers m Hm). unfold refers at 1. cbn [removed hash_table_ next_pair_index_].
  rewrite list_lookup_insert_Some. unfold refers. split.
  - intros [[(_ & <- & _)|(Hne & E)] He]; [lia|]. split; [done|congruence].
  - intros [[E He] Hne]. split; [right; split; [congruence|done]|done].
Qed.

Lemma removed_wf : wf removed.
Proof.
  pose proof (markers m Hm) as Hmark. pose proof (wf_room _ Hm) as [R1 R2].
  pose proof (lookup_lt_Some _ _ _ (proj1 Href)) as Hh. pose proof (lookup_lt_Some _ _ _ Ep) as He.
  split; cbn [removed hash_table_ pairs_ hash_table_size_ pairs_size_ next_pair_index_ deleted_count_].
  - rewrite length_insert. apply Hm.
  - rewrite length_insert. apply Hm.
  - apply Hm.
  - apply Hm.
  - lia.
  - intros h' e' E. apply list_lookup_insert_Some in E as [(_ & <- & _)|(Hne & E)]; [by right; left|].
    destruct (wf_slots _ Hm _ _ E) as [?|[?|Hr]]; [by left|by right; left|]. right. right.
    apply removed_refers. split; [done|congruence].
  - intros h1 h2 e' [H1 _]%removed_refers [H2 _]%removed_refers. by apply (wf_inj _ Hm h1 h2 e').
  - rewrite (count_if_insert _ _ _ e) by apply Href. unfold is_empty at 2 3. destruct Href as [_ Hr].
    rewrite (proj2 (Z.eqb_neq e kEmpty)), (proj2 (Z.eqb_neq kDeleted kEmpty)) by lia.
    pose proof (wf_empty _ Hm). lia.
  - intros h' e' p' [Hr Hne]%removed_refers Ep'.
    apply list_lookup_insert_Some in Ep' as [(E & _)|(_ & Ep')].
    + exfalso. apply Hne. apply (wf_inj _ Hm h' h e); [|done]. destruct Hr as [Eh' He'], Href as [_ Hr].
      replace e with e' by lia. by split.
    + destruct (wf_probe _ Hm h' e' p' Hr Ep') as (j & -> & Hj). exists j. split; [done|].
      intros i Hi. change (probe removed) with (probe m). cbn [removed hash_table_].
      rewrite list_lookup_insert_Some. intros [(_ & E & _)|(_ & E)]; [lia|]. by apply (Hj i Hi).
  - intros e' p' He' Ep'. apply list_lookup_insert_Some in Ep' as [(E & <- & _)|(Hne & Ep')].
    + rewrite no_pair_has_no_value. split; [done|]. intros [h' [Hr Hne]%removed_refers]. exfalso.
      apply Hne. apply (wf_inj _ Hm h' h e); [|done]. destruct Hr as [Eh' He2], Href as [_ Hr].
      replace e with e' by lia. by split.
    + rewrite (wf_live _ Hm e' p' He' Ep'). split; intros [h' Hr]; exists h'.
      * apply removed_refers. split; [done|]. intros ->. apply Hne. f_equal.
        destruct Hr as [E1 _], Href as [E2 _]. congruence.
      * by apply removed_refers in Hr as [? _].
  - destruct (wf_count _ Hm). split; [|lia]. rewrite replaced_count, no_pair_has_no_value. lia.
Qed.
End Replaced.

Lemma set_pair_ok m i q : 0 <= i < Z.of_nat (length (pairs_ m)) ->
  set_pair i q m = Ok (mk (hash_table_ m) (<[Z.to_nat i := q]> (pairs_ m)) (hash_table_size_ m) (pairs_size_ m)
    (next_pair_index_ m) (deleted_count_ m)).
Proof. intros Hi. unfold set_pair. by rewrite (proj2 (Z.leb_le 0 i)), (proj2 (Z.ltb_lt i _)) by lia. Qed.

Lemma Update_spec m kv :
  ready m -> can_grow m -> has_value kv = true ->
  exists m', Update probes_limit kv m = Ok m' /\ ready m' /\
  ((exists l1 p l2, IsKeyEqual p (KeyOf kv) = true /\
     contents m = l1 ++ p :: l2 /\ contents m' = l1 ++ kv :: l2) \/
   (forall p, p ∈ contents m -> IsKeyEqual p (KeyOf kv) = false) /\ contents m' = contents m ++ [kv]).
Proof.
  intros [Hm Hn] Hg Hv. destruct (find_key_spec m Hm (KeyOf kv)) as ([[h e]|] & E & Hr);
    unfold Update; rewrite E; cbn [mbind result_bind].
  - destruct Hr as (p & Href & Hh & Ep & Ek). pose proof (lookup_lt_Some _ _ _ Ep).
    rewrite set_pair_ok by (destruct Href; lia). exists (replaced m e kv). split_and!; [done| |].
    + split; [|done]. apply (replaced_wf m Hm (Z.to_nat h) e p); try done. by apply IsKeyEqual_Hash.
    + left. destruct (replaced_contents m Hm (Z.to_nat h) e p Href Ep (replaced m e kv) kv) as (l1 & l2 & C & C');
        [done|done|]. rewrite Hv in C'. by exists l1, p, l2.
  - destruct (Insert_spec m kv) as (m' & E' & Hr' & C & _); [done|done|done|]. exists m'.
    split_and!; [done|done|]. right. split; [|done]. intros p Hp.
    apply contents_elem in Hp as (h & e & Href & Ep); [|done]. eauto.
Qed.

Lemma Remove_spec m key :
  ready m ->
  exists found m', Remove probes_limit key m = Ok (found, m') /\ ready m' /\
  if found then exists l1 p l2, IsKeyEqual p key = true /\ contents m = l1 ++ p :: l2 /\ contents m' = l1 ++ l2
  else m' = m /\ forall p, p ∈ contents m -> IsKeyEqual p key = false.
Proof.
  intros [Hm Hn]. destruct (find_key_spec m Hm key) as ([[h e]|] & E & Hr);
    unfold Remove; rewrite E; cbn [mbind result_bind].
  - destruct Hr as (p & Href & Hh & Ep & Ek). pose proof (lookup_lt_Some _ _ _ Ep) as Hl.
    pose proof (lookup_lt_Some _ _ _ (proj1 Href)) as Hl2.
    assert (Hd : is_u 32 (deleted_count_ m + 1)).
    { destruct (wf_count _ Hm) as [Hc Hd]. pose proof (count_if_nonneg has_value (take (Z.to_nat (next_pair_index_ m)) (pairs_ m))).
      destruct (wf_room _ Hm). pose proof (size_range m Hm). unfold is_u. lia. }
    exists true, (removed m (Z.to_nat h) e). split_and!.
    + unfold set_slot. rewrite (proj2 (Z.leb_le 0 h)), (proj2 (Z.ltb_lt h _)) by lia. cbn [andb mbind result_bind].
      rewrite set_pair_ok by (cbn; destruct Href; lia). cbn [mbind result_bind].
      unfold set_deleted, removed. cbn. by rewrite (uwrap_small 32) by done.
    + split; [|done]. by apply (removed_wf m Hm (Z.to_nat h) e p).
    + destruct (replaced_contents m Hm (Z.to_nat h) e p Href Ep (removed m (Z.to_nat h) e) no_pair)
        as (l1 & l2 & C & C'); [done|done|]. rewrite no_pair_has_no_value in C'. by exists l1, p, l2.
  - exists false, m. split_and!; try done. intros p Hp.
    apply contents_elem in Hp as (h & e & Href & Ep); [|done]. eauto.
Qed.

Lemma Clear_spec m : ready m -> ready (Clear m) /\ contents (Clear m) = [].
Proof.
  intros [Hm Hn]. destruct (wf_room _ Hm) as [R1 R2]. pose proof (wf_table _ Hm). pose proof (wf_pairs _ Hm).
  split; [split|done]; [|cbn; lia].
  split; cbn [Clear hash_table_ pairs_ hash_table_size_ pairs_size_ next_pair_index_ deleted_count_];
    try apply Hm; rewrite ?repeat_length, ?length_app, ?length_drop, ?repeat_length; try lia.
  - intros h e E. left. by destruct (lookup_repeat _ _ _ _ E).
  - intros h1 h2 e [_ ?]. cbn in *. lia.
  - rewrite count_if_repeat by done. lia.
  - intros h e p [_ ?]. cbn in *. lia.
  - split; [done|lia].
Qed.

(** ** Iteration *)

Lemma next_from_spec m fuel : wf m -> forall i : nat,
  Z.of_nat i <= next_pair_index_ m -> next_pair_index_ m - Z.of_nat i < Z.of_nat fuel ->
  let l := take (Z.to_nat (next_pair_index_ m)) (pairs_ m) in
  exists r (j : nat), next_from fuel (Z.of_nat i) m = Ok (r, Z.of_nat j) /\ Z.of_nat j <= next_pair_index_ m /\
  match r with
  | Some p => List.filter has_value (drop i l) = p :: List.filter has_value (drop j l)
  | None => List.filter has_value (drop i l) = []
  end.
Proof.
  intros Hm. pose proof (wf_pairs _ Hm) as Hp. destruct (wf_room _ Hm) as [R1 R2].
  induction fuel as [|fuel IH]; intros i Hi Hf; cbv zeta; [lia|]. cbn [next_from].
  set (l := take (Z.to_nat (next_pair_index_ m)) (pairs_ m)) in *.
  destruct (Z.of_nat i <? next_pair_index_ m) eqn:Elt.
  - apply Z.ltb_lt in Elt.
    destruct (lookup_lt_is_Some_2 (pairs_ m) i) as [p Ep]; [lia|].
    assert (El : l !! i = Some p) by (apply lookup_take_Some; split; [done|lia]).
    unfold pair. rewrite Nat2Z.id, Ep. cbn [mbind result_bind]. rewrite (drop_S _ _ _ El). cbn [List.filter].
    replace (Z.of_nat i + 1) with (Z.of_nat (S i)) by lia.
    change (has_value p) with (negb (is_no_value (ValueOf p))).
    destruct (is_no_value (ValueOf p)); cbn [negb]; [apply IH; lia|].
    exists (Some p), (S i). split_and!; [done|lia|done].
  - apply Z.ltb_ge in Elt. exists None, i. split_and!; [done|lia|].
    rewrite drop_ge; [done|]. unfold l. rewrite length_take. lia.
Qed.

(** The pairs an iterator returns, one after the other, for at most [n] calls. *)
Fixpoint drain (n : nat) (i : Z) m : map_result (list Pair) :=
  match n with
  | O => Ok []
  | S n =>
      '(r, i) ← Next i m;
      match r with
      | None => Ok []
      | Some p => ps ← drain n i m; Ok (p :: ps)
      end
  end.

Lemma drain_from m : wf m -> forall l (i n : nat),
  Z.of_nat i <= next_pair_index_ m ->
  List.filter has_value (drop i (take (Z.to_nat (next_pair_index_ m)) (pairs_ m))) = l ->
  (length l < n)%nat -> drain n (Z.of_nat i) m = Ok l.
Proof.
  intros Hm. induction l as [|p l IH]; intros i n Hi El Hn; (destruct n as [|n]; [lia|]); cbn [drain];
    unfold Next; destruct (next_from_spec m (S (Z.to_nat (next_pair_index_ m - Z.of_nat i))) Hm i Hi ltac:(lia))
      as (r & j & -> & Hj & Hr); cbn [mbind result_bind]; destruct r as [q|]; try congruence; try done.
  rewrite Hr in El. injection El as -> El. rewrite (IH j n); [done|lia|done|cbn in Hn; lia].
Qed.

(** ** The map as an association list *)

Definition find_pair (key : Key) (l : list Pair) : option Pair := List.find (fun p => IsKeyEqual p key) l.
Definition remove_key (key : Key) (l : list Pair) : list Pair :=
  List.filter (fun p => negb (IsKeyEqual p key)) l.
Definition update_pair kv (l : list Pair) : list Pair :=
  if find_pair (KeyOf kv) l is Some _ then map (fun p => if IsKeyEqual p (KeyOf kv) then kv else p) l else l ++ [kv].

(** No two pairs have the same key. *)
Fixpoint distinct (l : list Pair) : Prop :=
  match l with
  | [] => True
  | p :: l => (forall q, q ∈ l -> IsKeyEqual q (KeyOf p) = false) /\ distinct l
  end.

Definition represents m (l : list Pair) : Prop := ready m /\ contents m = l /\ distinct l.

Lemma find_pair_none key l : find_pair key l = None <-> forall p, p ∈ l -> IsKeyEqual p key = false.
Proof.
  unfold find_pair. split.
  - intros E p Hp. by apply (find_none _ _ E), list_elem_of_In.
  - intros Hl. induction l as [|p l IH]; [done|]. cbn. rewrite Hl by left. apply IH. intros q Hq. apply Hl. by right.
Qed.

Lemma equal_sym p q : IsKeyEqual p (KeyOf q) = true -> IsKeyEqual q (KeyOf p) = true.
Proof. intros E. rewrite <- (IsKeyEqual_same p q (KeyOf q) E). apply IsKeyEqual_refl. Qed.
Lemma unequal_sym p q : IsKeyEqual p (KeyOf q) = false -> IsKeyEqual q (KeyOf p) = false.
Proof.
  intros E. destruct (IsKeyEqual q (KeyOf p)) eqn:E2; [|done]. apply equal_sym in E2. congruence.
Qed.

Lemma distinct_middle l1 p l2 :
  distinct (l1 ++ p :: l2) <->
  distinct (l1 ++ l2) /\ forall q, q ∈ l1 ++ l2 -> IsKeyEqual q (KeyOf p) = false.
Proof.
  induction l1 as [|z l1 IH]; cbn [app distinct]; [tauto|]. rewrite IH. split.
  - intros (Hz & Hd & Hp). split_and!; [|done|].
    + intros q Hq. apply Hz. rewrite elem_of_app, elem_of_cons in *. tauto.
    + intros q [->|Hq]%elem_of_cons; [|auto]. apply unequal_sym, Hz. apply elem_of_app. right. by left.
  - intros ((Hz & Hd) & Hp). split_and!; [|done|].
    + intros q Hq. rewrite elem_of_app, elem_of_cons in Hq. destruct Hq as [?|[->|?]].
      * apply Hz, elem_of_app. by left.
      * apply unequal_sym, Hp. by left.
      * apply Hz, elem_of_app. by right.
    + intros q Hq. apply Hp. by right.
Qed.

Section Middle.
Context (l1 l2 : list Pair) (p : Pair) (key : Key).
Hypothesis (Hd : distinct (l1 ++ p :: l2)) (Ek : IsKeyEqual p key = true).

Lemma others q : q ∈ l1 ++ l2 -> IsKeyEqual q key = false.
Proof. intros Hq. rewrite (IsKeyEqual_same p q key Ek). by apply distinct_middle in Hd as [_ Hd]; apply Hd. Qed.

Lemma find_middle : find_pair key (l1 ++ p :: l2) = Some p.
Proof.
  unfold find_pair. pose proof others as Ho. clear Hd. induction l1 as [|q l IH]; cbn; [by rewrite Ek|].
  rewrite (Ho q) by (by left). apply IH. intros r Hr. apply Ho. by right.
Qed.

Lemma remove_others l : (forall q, q ∈ l -> IsKeyEqual q key = false) -> remove_key key l = l.
Proof.
  intros Hl. induction l as [|q l IH]; [done|]. cbn. rewrite Hl by left. cbn. f_equal.
  apply IH. intros r Hr. apply Hl. by right.
Qed.
Lemma remove_middle : remove_key key (l1 ++ p :: l2) = l1 ++ l2.
Proof.
  unfold remove_key. rewrite List.filter_app. cbn [List.filter]. rewrite Ek. cbn [negb].
  rewrite <- List.filter_app. apply remove_others, others.
Qed.

Lemma map_others kv l : (forall q, q ∈ l -> IsKeyEqual q key = false) ->
  map (fun q => if IsKeyEqual q key then kv else q) l = l.
Proof.
  intros Hl. induction l as [|q l IH]; [done|]. cbn. rewrite Hl by left. f_equal.
  apply IH. intros r Hr. apply Hl. by right.
Qed.
Lemma update_middle kv : map (fun q => if IsKeyEqual q key then kv else q) (l1 ++ p :: l2) = l1 ++ kv :: l2.
Proof.
  rewrite map_app. cbn [map]. rewrite Ek. f_equal; [|f_equal]; apply map_others;
    intros q Hq; apply others, elem_of_app; auto.
Qed.
End Middle.


(** What the operations do to the represented list. *)
Lemma Lookup_represents m l key : represents m l -> Lookup probes_limit key m = Ok (find_pair key l).
Proof.
  intros ([Hm _] & <- & Hd). destruct (Lookup_spec m key Hm) as ([p|] & -> & Hr); f_equal; symmetry.
  - destruct Hr as [Hp Ek]. apply list_elem_of_split in Hp as (l1 & l2 & E). rewrite E in *. by apply find_middle.
  - by apply find_pair_none.
Qed.

Lemma Insert_represents m l kv :
  represents m l -> can_grow m -> has_value kv = true -> find_pair (KeyOf kv) l = None ->
  exists m', Insert probes_limit kv m = Ok m' /\ represents m' (l ++ [kv]).
Proof.
  intros (Hr & <- & Hd) Hg Hv Hf. destruct (Insert_spec m kv Hr Hg Hv) as (m' & E & Hr' & C & _).
  exists m'. split; [done|]. split_and!; [done|done|]. apply distinct_middle. rewrite app_nil_r.
  split; [done|]. by apply find_pair_none.
Qed.

Lemma Update_represents m l kv :
  represents m l -> can_grow m -> has_value kv = true ->
  exists m', Update probes_limit kv m = Ok m' /\ represents m' (update_pair kv l).
Proof.
  intros (Hr & <- & Hd) Hg Hv. destruct (Update_spec m kv Hr Hg Hv) as (m' & E & Hr' & HC).
  exists m'. split; [done|]. unfold represents, update_pair.
  destruct HC as [(l1 & p & l2 & Ek & C & C')|[Hn C]].
  - rewrite C in *. rewrite (find_middle l1 l2 p (KeyOf kv) Hd Ek), (update_middle l1 l2 p (KeyOf kv) Hd Ek).
    split_and!; [done|done|]. apply distinct_middle in Hd as [Hd Ho]. apply distinct_middle.
    split; [done|]. intros q Hq. rewrite (IsKeyEqual_same p q (KeyOf kv) Ek). auto.
  - rewrite (proj2 (find_pair_none _ _) Hn). split_and!; [done|done|]. apply distinct_middle.
    by rewrite app_nil_r.
Qed.

Lemma Remove_represents m l key :
  represents m l ->
  exists m', Remove probes_limit key m
    = Ok (if find_pair key l is Some _ then true else false, m') /\ represents m' (remove_key key l).
Proof.
  intros (Hr & <- & Hd). destruct (Remove_spec m key Hr) as (found & m' & E & Hr' & HC).
  exists m'. rewrite E. destruct found.
  - destruct HC as (l1 & p & l2 & Ek & C & C'). unfold represents. rewrite C in *.
    rewrite (find_middle l1 l2 p key Hd Ek), (remove_middle l1 l2 p key Hd Ek). split; [done|].
    split_and!; [done|done|]. by apply distinct_middle in Hd as [Hd _].
  - destruct HC as [-> Hn]. rewrite (proj2 (find_pair_none _ _) Hn). split; [done|].
    unfold represents. rewrite remove_others by done. done.
Qed.
End Facts.
End MapFacts.

(** ** The theorems *)

Section Claims.
Context {Key Value Pair : Type} `{KeyValueLaws Key Value Pair} (probes_limit : Z).
Import HashMap MapFacts.

(** C12: Hash maps are finite maps.  A map whose contents are a list of pairs with
    distinct keys finds in its table what a search of the list finds; inserting,
    updating and removing a pair, clearing the map and the rebuilding of the arrays
    that insertions cause succeed, do to the list what their names say and keep the
    invariant; an iterator returns the list in order; a new map is empty.  A key that is new and a value
    that is not that of [Pair()] are what the comments of the header ask for. *)
Theorem hash_map_refines (m : HashMap.t Pair) l kv key :
  represents probes_limit m l -> can_grow probes_limit m -> has_value kv = true ->
  Lookup probes_limit key m = Ok (find_pair key l) /\
  (find_pair (KeyOf kv) l = None ->
   exists m', Insert probes_limit kv m = Ok m' /\ represents probes_limit m' (l ++ [kv])) /\
  (exists m', Update probes_limit kv m = Ok m' /\ represents probes_limit m' (update_pair kv l)) /\
  (exists m', Remove probes_limit key m = Ok (if find_pair key l is Some _ then true else false, m') /\
     represents probes_limit m' (remove_key key l)) /\
  represents probes_limit (Clear m) [] /\
  drain (S (length l)) 0 m = Ok l /\
  (forall n j, 0 < n -> 0 <= j <= 31 -> n * 4 / 3 + 1 <= 2 ^ j -> 2 ^ j < probes_limit ->
   exists m0, create probes_limit n = Ok m0 /\ represents probes_limit m0 []).
Proof.
  intros Hr Hg Hv. split_and!.
  - by apply Lookup_represents.
  - intros Hf. by apply Insert_represents.
  - by apply Update_represents.
  - by apply Remove_represents.
  - destruct Hr as (Hr & _). destruct (Clear_spec probes_limit m Hr). by split_and!.
  - destruct Hr as ([Hm Hn] & <- & _). apply (drain_from probes_limit m Hm (contents m) 0); [|done|lia].
    destruct (wf_room _ _ Hm). lia.
  - intros n j Hn Hj Hb Hl. destruct (create_spec probes_limit n j Hn Hj Hb Hl) as (m0 & E & Hr0 & C & _).
    exists m0. split; [done|]. by split_and!.
Qed.
End Claims.

#[export] Instance IntKeyRawPointerValueLaws : KeyValueLaws Z Z (Z * Z).
Proof.
  split; cbn.
  - intros k. by apply uwrap_range.
  - intros p. apply Z.eqb_refl.
  - intros p q k E. apply Z.eqb_eq in E as <-. done.
  - intros p k E. by apply Z.eqb_eq in E as <-.
  - done.
Qed.


(** The default of the flag [hash_map_probes_limit], and a map of sixteen pairs. *)
Definition default_limit : Z := 2 ^ 31 - 1.
Definition example_map : HashMap.t (Z * Z) :=
  match HashMap.create default_limit 16 with Ok m => m | Err _ => HashMap.mk [] [] 0 0 0 0 end.

Lemma example_map_represents : MapFacts.represents default_limit example_map [].
Proof.
  destruct (MapFacts.create_spec default_limit 16 5) as (m & E & Hr & C & _); [done..|].
  assert (Em : example_map = m) by (unfold example_map; by rewrite E). rewrite Em. by split_and!.
Qed.

Example hash_map_refines_witness :
  exists m', HashMap.Insert default_limit (3, 7) example_map = Ok m' /\
    MapFacts.represents default_limit m' [(3, 7)].
Proof.
  destruct (hash_map_refines default_limit example_map [] (3, 7) 3 example_map_represents) as (_ & Hi & _).
  - split; vm_compute; congruence.
  - reflexivity.
  - by apply Hi.
Defined.

(** A map that grows once, with colliding keys and a removal. *)
Example grows :
  (m ← HashMap.create default_limit 4;
   m ← IntMap.Insert default_limit 1 10 m; m ← IntMap.Insert default_limit 17 20 m;
   m ← IntMap.Insert default_limit 33 30 m; m ← IntMap.Insert default_limit 49 40 m;
   m ← IntMap.Insert default_limit 65 50 m;
   '(found, m) ← HashMap.Remove default_limit 33 m;
   x ← IntMap.Lookup default_limit 65 m; y ← IntMap.Lookup default_limit 33 m;
   Ok (HashMap.pairs_size_ m, HashMap.hash_table_size_ m, HashMap.Size m, (found : bool), x, y))
  = Ok (8, 16, 4, true, 50, 0).
Proof. vm_compute. reflexivity. Qed.
