(* ===== verification/ObjectPool.v ===== *)
(** * The builder of the object pool

    [ObjectPoolBuilder] of runtime/vm/compiler/assembler/object_pool_builder.h and
    assembler_base.cc for a 64-bit target: the constants that generated code loads from
    the pool, with an index from entries to their places.  The objects of the language
    are an interface: their identity and their hash. *)

From S2P Require Import Prelude Utils BitField HashMap.

(** What the builder asks of objects: [IsSameObject] and [ObjectHash] of
    runtime/vm/compiler/runtime_api.h.  A null handle is no object. *)
Class PoolObject (Object : Type) := {
  IsSameObject : Object -> Object -> bool;
  ObjectHash : Object -> Z
}.

(** [enum Patchability], [SnapshotBehavior] and [EntryType]. *)
Definition kPatchable : Z := 0.
Definition kNotPatchable : Z := 1.
Definition kSnapshotable : Z := 0.
Definition kNotSnapshotable : Z := 1.
Definition kResetToBootstrapNative : Z := 2.
Definition kResetToSwitchableCallMissEntryPoint : Z := 3.
Definition kSetToZero : Z := 4.
Definition kImmediate : Z := 0.
Definition kTaggedObject : Z := 1.
Definition kNativeFunction : Z := 2.
Definition kImmediate128 : Z := 3.

Definition TypeBits : field_params := mkField uint8_t int32_t 0 4 false.
Definition PatchableBit : field_params := mkField uint8_t int32_t (BitField.kNextBit TypeBits) 1 false.
Definition SnapshotBehaviorBits : field_params :=
  mkField uint8_t int32_t (BitField.kNextBit PatchableBit) 3 false.

Definition EncodeTraits (type patchable snapshot_behavior : Z) : Z :=
  u8 (BitField.encode TypeBits type .| BitField.encode PatchableBit patchable
      .| BitField.encode PatchableBit patchable .| BitField.encode SnapshotBehaviorBits snapshot_behavior).

Section Entries.
Context {Object : Type} `{PoolObject Object}.

(** The union of an entry, with the member that is in use; [equivalence_] goes with an
    object.  The code asks the type of an entry which member that is: [typed] below says
    that the type names it, and the constructors see to it. *)
Inductive payload : Type :=
| null_
| obj_ (obj equivalence : Object)
| imm_ (imm : Z)
| imm128_ (s0 s1 s2 s3 : Z).

Record ObjectPoolBuilderEntry := mkEntry { value_ : payload; entry_bits_ : Z }.
Implicit Types entry : ObjectPoolBuilderEntry.

(** The constructors. *)
Definition object_entry (obj equivalence : Object) (patchable snapshot_behavior : Z) :=
  mkEntry (obj_ obj equivalence) (EncodeTraits kTaggedObject patchable snapshot_behavior).
Definition word_entry (value info patchable snapshot_behavior : Z) :=
  mkEntry (imm_ value) (EncodeTraits info patchable snapshot_behavior).
Definition simd_entry (s0 s1 s2 s3 info patchable : Z) :=
  mkEntry (imm128_ s0 s1 s2 s3) (EncodeTraits info patchable kSnapshotable).

Definition type entry : Z := BitField.decode TypeBits (entry_bits_ entry).
Definition patchable entry : Z := BitField.decode PatchableBit (entry_bits_ entry).
Definition snapshot_behavior entry : Z := BitField.decode SnapshotBehaviorBits (entry_bits_ entry).

Definition typed entry : Prop :=
  match value_ entry with
  | null_ | obj_ _ _ => type entry = kTaggedObject
  | imm_ _ => type entry = kImmediate \/ type entry = kNativeFunction
  | imm128_ _ _ _ _ => type entry = kImmediate128 /\ patchable entry = kNotPatchable
  end.

(** [ObjIndexPair], the pairs of the index. *)
Definition kNoIndex : Z := -1.
Definition ObjIndexPair : Type := ObjectPoolBuilderEntry * Z.

Definition EntryHash (key : ObjectPoolBuilderEntry) : Z :=
  match value_ key with
  | imm128_ s0 s1 s2 s3 => u64 (s0 .^ s1 .^ s2 .^ s3)
  | imm_ w => u64 w
  | obj_ obj _ => u64 (ObjectHash obj)
  | null_ => 0
  end.

Definition EntryEqual (kv : ObjIndexPair) (key : ObjectPoolBuilderEntry) : bool :=
  if negb (entry_bits_ (fst kv) =? entry_bits_ key) then false
  else match value_ (fst kv), value_ key with
  | obj_ o1 e1, obj_ o2 e2 => IsSameObject o1 o2 && IsSameObject e1 e2
  | imm128_ a0 a1 a2 a3, imm128_ b0 b1 b2 b3 =>
      (a0 =? b0) && (a1 =? b1) && (a2 =? b2) && (a3 =? b3)
  | imm_ w1, imm_ w2 => w1 =? w2
  | null_, null_ => true
  | _, _ => false
  end.

#[export] Instance ObjIndexPairTrait : KeyValueTrait ObjectPoolBuilderEntry Z ObjIndexPair := {|
  KeyOf := fst;
  ValueOf := snd;
  Hash := EntryHash;
  IsKeyEqual := EntryEqual;
  no_pair := (mkEntry null_ (EncodeTraits kTaggedObject kPatchable kSnapshotable), kNoIndex);
  is_no_value v := v =? kNoIndex
|}.

End Entries.
Arguments ObjectPoolBuilderEntry : clear implicits.
Arguments ObjIndexPair : clear implicits.
Arguments payload : clear implicits.

(** The state of a builder; [parent_] is an argument of the operations that use it. *)
Record ObjectPoolBuilder (Object : Type) := mkBuilder {
  base_index_ : Z;
  used_from_parent_ : list Z;
  object_pool_ : list (ObjectPoolBuilderEntry Object);
  object_pool_index_table_ : HashMap.t (ObjIndexPair Object)
}.
Arguments mkBuilder {Object}.
Arguments base_index_ {Object}.
Arguments used_from_parent_ {Object}.
Arguments object_pool_ {Object}.
Arguments object_pool_index_table_ {Object}.

Module Pool.
Section Pool.
Context {Object : Type} `{PoolObject Object} (probes_limit : Z).
Implicit Types (entry : ObjectPoolBuilderEntry Object) (b : ObjectPoolBuilder Object).

Definition CurrentLength b : Z :=
  Z.of_nat (length (object_pool_ b)) + Z.of_nat (length (used_from_parent_ b)).

(** The constructor; the index starts as every hash map. *)
Definition create (parent : option (ObjectPoolBuilder Object)) : map_result (ObjectPoolBuilder Object) :=
  table ← HashMap.create probes_limit HashMap.kInitialSize;
  Ok (mkBuilder (match parent with Some p => CurrentLength p | None => 0 end) [] [] table).

Definition Reset b : ObjectPoolBuilder Object :=
  mkBuilder (base_index_ b) (used_from_parent_ b) [] (HashMap.Clear (object_pool_index_table_ b)).

(** [EntryAt] of a pool without a parent, and of one with a parent of that kind. *)
Definition RootEntryAt (i : Z) b : option (ObjectPoolBuilderEntry Object) := object_pool_ b !! Z.to_nat i.
Definition EntryAt (i : Z) (parent : ObjectPoolBuilder Object) b : option (ObjectPoolBuilderEntry Object) :=
  if i <? Z.of_nat (length (used_from_parent_ b)) then
    idx ← used_from_parent_ b !! Z.to_nat i; RootEntryAt idx parent
  else object_pool_ b !! Z.to_nat (i - Z.of_nat (length (used_from_parent_ b))).

(** [object_pool_index_table_.Insert]. *)
Definition index_insert entry (idx : Z) b : map_result (ObjectPoolBuilder Object) :=
  table ← HashMap.Insert (Pair := ObjIndexPair Object) probes_limit (entry, idx) (object_pool_index_table_ b);
  Ok (mkBuilder (base_index_ b) (used_from_parent_ b) (object_pool_ b) table).

(** [AddObject] of an entry that takes one place. *)
Definition add_entry entry b : map_result (Z * ObjectPoolBuilder Object) :=
  let idx := base_index_ b + Z.of_nat (length (object_pool_ b)) in
  let b := mkBuilder (base_index_ b) (used_from_parent_ b) (object_pool_ b ++ [entry])
             (object_pool_index_table_ b) in
  if patchable entry =? kNotPatchable then b ← index_insert entry idx b; Ok (idx, b)
  else Ok (idx, b).

Definition AddImmediate (imm patchable snapshotability : Z) b : map_result (Z * ObjectPoolBuilder Object) :=
  add_entry (word_entry imm kImmediate patchable snapshotability) b.

(** [lo64] and [hi64]. *)
Definition word64 (lo hi : Z) : Z := (u64 lo .& 0xffffffff) .| u64 (u64 hi ≪ 32).

Definition AddObject entry b : map_result (Z * ObjectPoolBuilder Object) :=
  match value_ entry with
  | imm128_ s0 s1 s2 s3 =>
      '(idx, b) ← AddImmediate (word64 s0 s1) kNotPatchable kSnapshotable b;
      '(_, b) ← AddImmediate (word64 s2 s3) kNotPatchable kSnapshotable b;
      b ← index_insert entry idx b;
      Ok (idx, b)
  | _ => add_entry entry b
  end.

(** The other ways to add. *)
Definition AddObjectHandle (obj : Object) (patchable snapshot_behavior : Z) b :=
  AddObject (object_entry obj obj patchable snapshot_behavior) b.
Definition AddImmediate64 (imm : Z) b := AddImmediate imm kNotPatchable kSnapshotable b.
Definition AddImmediate128 (s0 s1 s2 s3 : Z) b :=
  AddObject (simd_entry s0 s1 s2 s3 kImmediate128 kNotPatchable) b.

Definition FindEntry (parent : option (ObjectPoolBuilder Object)) entry b
    : map_result (Z * ObjectPoolBuilder Object) :=
  if patchable entry =? kNotPatchable then
    found ← match parent with
      | Some p => HashMap.LookupValue probes_limit entry (object_pool_index_table_ p)
      | None => Ok kNoIndex
      end;
    if negb (found =? kNoIndex) then
      Ok (found, mkBuilder (base_index_ b) (used_from_parent_ b ++ [found]) (object_pool_ b)
                   (object_pool_index_table_ b))
    else
      idx ← HashMap.LookupValue probes_limit entry (object_pool_index_table_ b);
      if negb (idx =? kNoIndex) then Ok (idx, b) else AddObject entry b
  else AddObject entry b.

Definition FindObject parent (obj : Object) (patchable snapshot_behavior : Z) b :=
  FindEntry parent (object_entry obj obj patchable snapshot_behavior) b.
Definition FindEquivalent parent (obj equivalence : Object) b :=
  FindEntry parent (object_entry obj equivalence kNotPatchable kSnapshotable) b.
Definition FindImmediate parent (imm : Z) b :=
  FindEntry parent (word_entry imm kImmediate kNotPatchable kSnapshotable) b.
Definition FindImmediate64 parent (imm : Z) b := FindImmediate parent imm b.
Definition FindImmediate128 parent (s0 s1 s2 s3 : Z) b :=
  FindEntry parent (simd_entry s0 s1 s2 s3 kImmediate128 kNotPatchable) b.
Definition FindNativeFunction parent (address patchable : Z) b :=
  FindEntry parent (word_entry address kNativeFunction patchable kSnapshotable) b.

(** The loop of [TryCommitToParent]. *)
Fixpoint commit_entries (entries : list (ObjectPoolBuilderEntry Object)) (parent : ObjectPoolBuilder Object)
    : map_result (ObjectPoolBuilder Object) :=
  match entries with
  | [] => Ok parent
  | entry :: entries => '(_, parent) ← AddObject entry parent; commit_entries entries parent
  end.

(** Whether the entries were committed, and the parent. *)
Definition TryCommitToParent (parent : ObjectPoolBuilder Object) b : map_result (bool * ObjectPoolBuilder Object) :=
  if negb (CurrentLength parent =? base_index_ b) then Ok (false, parent)
  else parent ← commit_entries (object_pool_ b) parent; Ok (true, parent).
End Pool.
End Pool.
