(* ===== verification/ObjectPoolCorrect.v ===== *)
(** * The object pool builder keeps its promises

    The index of a builder finds only entries that are in the pool: the invariant
    [pool_ok].  The index that [FindEntry] returns holds an equal entry, now and after
    everything that is added later; entries that are not patchable are shared; and a
    pool that is committed to its parent is found there at the same indices. *)

From S2P Require Import Prelude Utils BitField HashMap HashMapCorrect ObjectPool.

(** What the builder relies on: [IsSameObject] is an equality, and the hash respects it. *)
Class PoolObjectLaws (Object : Type) `{PoolObject Object} := {
  IsSameObject_refl : forall a, IsSameObject a a = true;
  IsSameObject_same : forall a b c, IsSameObject a b = true -> IsSameObject c b = IsSameObject c a;
  ObjectHash_same : forall a b, IsSameObject a b = true -> ObjectHash a = ObjectHash b
}.

#[export] Instance ObjIndexPairLaws {Object} `{PoolObjectLaws Object} :
  KeyValueLaws (ObjectPoolBuilderEntry Object) Z (ObjIndexPair Object).
Proof.
  split; cbn [Hash IsKeyEqual KeyOf ValueOf ObjIndexPairTrait no_pair is_no_value].
  - intros [[|o e|w|s0 s1 s2 s3] bits]; unfold EntryHash; cbn [value_]; [done|by apply uwrap_range..].
  - intros [[[|o e|w|s0 s1 s2 s3] bits] i]; unfold EntryEqual; cbn [fst value_ entry_bits_];
      rewrite ?Z.eqb_refl; cbn [negb andb]; [done|by rewrite !IsSameObject_refl|done|done].
  - intros [[v1 b1] i] [[v2 b2] j] [v3 b3]. unfold EntryEqual. cbn [fst value_ entry_bits_].
    destruct (b1 =? b3) eqn:E1; cbn [negb]; [|done]. apply Z.eqb_eq in E1 as ->. intros E.
    destruct (b2 =? b3); cbn [negb]; [|done].
    destruct v1, v3; try done; destruct v2; try done.
    + apply andb_true_iff in E as [E1 E2]. by rewrite (IsSameObject_same _ _ _ E1), (IsSameObject_same _ _ _ E2).
    + by apply Z.eqb_eq in E as ->.
    + rewrite !andb_true_iff, !Z.eqb_eq in E. by destruct E as [[[-> ->] ->] ->].
  - intros [[v1 b1] i] [v3 b3]. unfold EntryEqual, EntryHash. cbn [fst value_ entry_bits_].
    destruct (negb (b1 =? b3)); [done|]. destruct v1, v3; try done; intros E.
    + apply andb_true_iff in E as [E _]. by rewrite (ObjectHash_same _ _ E).
    + by apply Z.eqb_eq in E as ->.
    + rewrite !andb_true_iff, !Z.eqb_eq in E. by destruct E as [[[-> ->] ->] ->].
  - done.
Qed.

Module PoolFacts.
Import MapFacts Pool.
Section Facts.
Context {Object : Type} `{PoolObjectLaws Object} (probes_limit : Z).
Implicit Types (e : ObjectPoolBuilderEntry Object) (b : ObjectPoolBuilder Object).

Abbreviation index_contents b := (contents (object_pool_index_table_ b)).
Abbreviation index_size b := (HashMap.hash_table_size_ (object_pool_index_table_ b)).
Abbreviation pool_length b := (Z.of_nat (length (object_pool_ b))).

(** The entry at an index that the builder gave out. *)
Definition place b (i : Z) : option (ObjectPoolBuilderEntry Object) :=
  if base_index_ b <=? i then object_pool_ b !! Z.to_nat (i - base_index_ b) else None.

(** The two words of a 128-bit value. *)
Definition word_at (lo hi : Z) : ObjectPoolBuilderEntry Object :=
  word_entry (u32 lo + u32 hi * 2 ^ 32) kImmediate kNotPatchable kSnapshotable.

(** The pool has the value of the entry at the index. *)
Definition holds b (i : Z) e : Prop :=
  match value_ e with
  | imm128_ s0 s1 s2 s3 => place b i = Some (word_at s0 s1) /\ place b (i + 1) = Some (word_at s2 s3)
  | _ => exists e', place b i = Some e' /\ EntryEqual (e', i) e = true
  end.

Definition plain e : Prop := match value_ e with imm128_ _ _ _ _ => False | _ => True end.

Record pool_ok b : Prop := {
  pool_base : 0 <= base_index_ b;
  pool_ready : ready probes_limit (object_pool_index_table_ b);
  pool_count : (length (index_contents b) <= 2 * length (object_pool_ b))%nat;
  pool_entries : Forall (fun e => typed e /\ plain e) (object_pool_ b);
  pool_index : forall e i, (e, i) ∈ index_contents b ->
    typed e /\ patchable e = kNotPatchable /\ base_index_ b <= i /\ holds b i e;
  pool_complete : forall k e, object_pool_ b !! k = Some e -> patchable e = kNotPatchable ->
    (e, base_index_ b + Z.of_nat k) ∈ index_contents b
}.

(** Room for [n] more entries. *)
Definition fits b (n : Z) : Prop :=
  let size := 4 * Z.max (index_size b) (12 * (pool_length b + n) + 2) in size <= 2 ^ 31 /\ size < probes_limit.

(** The index takes no more slots than its pairs ask for. *)
Definition grown b b' : Prop := index_size b' <= Z.max (index_size b) (12 * pool_length b' + 2).

Lemma fits_mono b n b' n' :
  fits b n -> grown b b' -> pool_length b' + n' <= pool_length b + n -> 0 <= n' -> fits b' n'.
Proof. unfold fits, grown. cbv zeta. lia. Qed.
Lemma grown_refl b : grown b b.
Proof. unfold grown. lia. Qed.

(** [b'] is [b] with more entries. *)
Definition extends b b' : Prop :=
  base_index_ b' = base_index_ b /\ exists l, object_pool_ b' = object_pool_ b ++ l.

Lemma extends_refl b : extends b b.
Proof. split; [done|]. exists []. by rewrite app_nil_r. Qed.
Lemma extends_same b b' : base_index_ b' = base_index_ b -> object_pool_ b' = object_pool_ b -> extends b b'.
Proof. intros E1 E2. split; [done|]. exists []. by rewrite app_nil_r. Qed.
Lemma extends_trans b1 b2 b3 : extends b1 b2 -> extends b2 b3 -> extends b1 b3.
Proof. intros [E1 [l1 L1]] [E2 [l2 L2]]. split; [congruence|]. exists (l1 ++ l2). by rewrite L2, L1, app_assoc. Qed.

Lemma place_extends b b' i e : extends b b' -> place b i = Some e -> place b' i = Some e.
Proof.
  intros [E [l L]]. unfold place. rewrite E, L. destruct (base_index_ b <=? i); [|done]. apply lookup_app_l_Some.
Qed.
Lemma holds_extends b b' i e : extends b b' -> holds b i e -> holds b' i e.
Proof.
  intros He. unfold holds.
  destruct (value_ e); [| | |intros [E1 E2]; split; by apply (place_extends b)];
    intros (e' & E1 & E2); exists e'; (split; [by apply (place_extends b)|done]).
Qed.

Lemma holds_same b i k e : EntryEqual (k, i) e = true -> holds b i k -> holds b i e.
Proof.
  intros E Hk. pose proof (fun e' => IsKeyEqual_same (k, i) (e', i) e E) as Ht.
  cbn [IsKeyEqual KeyOf ObjIndexPairTrait fst] in Ht. unfold holds in *. unfold EntryEqual in E. cbn [fst] in E.
  destruct (negb (entry_bits_ k =? entry_bits_ e)); [done|].
  destruct (value_ k), (value_ e); try done;
    [..|by rewrite !andb_true_iff, !Z.eqb_eq in E; destruct E as [[[-> ->] ->] ->]];
    destruct Hk as (e' & E1 & E2); exists e'; (split; [done|by rewrite Ht]).
Qed.

Lemma same_refl e i : EntryEqual (e, i) e = true.
Proof. pose proof (IsKeyEqual_refl (Key := ObjectPoolBuilderEntry Object) (Value := Z) (e, i)) as E. exact E. Qed.

Lemma holds_place b i e : plain e -> place b i = Some e -> holds b i e.
Proof.
  intros Hp E. unfold holds, plain in *.
  pose proof (same_refl e i). by destruct (value_ e); [exists e..|].
Qed.

Lemma holds_index b i e : holds b i e -> base_index_ b <= i < base_index_ b + pool_length b.
Proof.
  assert (Hp : forall e', place b i = Some e' -> base_index_ b <= i < base_index_ b + pool_length b).
  { intros e'. unfold place. destruct (base_index_ b <=? i) eqn:E; [|done]. apply Z.leb_le in E.
    intros El%lookup_lt_Some. lia. }
  unfold holds. destruct (value_ e); [| | |intros [E _]; by eapply Hp]; intros (e' & E & _); by eapply Hp.
Qed.

Lemma place_appended b b' l (k : nat) e :
  base_index_ b' = base_index_ b -> object_pool_ b' = object_pool_ b ++ l -> l !! k = Some e ->
  place b' (base_index_ b + pool_length b + Z.of_nat k) = Some e.
Proof.
  intros Eb Eo E. unfold place. rewrite Eb, Eo, (proj2 (Z.leb_le _ _)) by lia.
  replace (Z.to_nat _) with (length (object_pool_ b) + k)%nat by lia.
  rewrite lookup_app_r by lia. by replace (_ + k - _)%nat with k by lia.
Qed.
Lemma place_next b b' l e :
  base_index_ b' = base_index_ b -> object_pool_ b' = object_pool_ b ++ e :: l ->
  place b' (base_index_ b + pool_length b) = Some e.
Proof. intros Eb Eo. pose proof (place_appended b b' (e :: l) 0 e Eb Eo eq_refl) as E. by rewrite Z.add_0_r in E. Qed.

(** ** Adding *)

Lemma pool_can_grow b n : fits b n -> can_grow probes_limit (object_pool_index_table_ b).
Proof.
  unfold fits, can_grow. cbv zeta. lia.
Qed.

Lemma index_insert_ok b i e :
  ready probes_limit (object_pool_index_table_ b) -> can_grow probes_limit (object_pool_index_table_ b) -> 0 <= i ->
  exists b', index_insert probes_limit e i b = Ok b' /\ base_index_ b' = base_index_ b /\
    used_from_parent_ b' = used_from_parent_ b /\ object_pool_ b' = object_pool_ b /\
    ready probes_limit (object_pool_index_table_ b') /\ index_contents b' = index_contents b ++ [(e, i)] /\
    index_size b' <= Z.max (index_size b) (6 * Z.of_nat (length (index_contents b')) + 2).
Proof.
  intros Hr Hg Hi. destruct (Insert_spec probes_limit (object_pool_index_table_ b) (e, i) Hr Hg) as (m' & E & Hr' & C & S).
  { unfold has_value. cbn [is_no_value ValueOf ObjIndexPairTrait snd]. unfold kNoIndex.
    by rewrite (proj2 (Z.eqb_neq i (-1))) by lia. }
  eexists. unfold index_insert. rewrite E. cbn [mbind result_bind]. split; [reflexivity|].
  cbn [base_index_ used_from_parent_ object_pool_ object_pool_index_table_]. done.
Qed.

(** The pool with another entry, and the pair for it when it is shared. *)
Lemma grow_pool_ok b b' e (l : list (ObjIndexPair Object)) :
  pool_ok b -> typed e -> plain e ->
  base_index_ b' = base_index_ b -> object_pool_ b' = object_pool_ b ++ [e] ->
  ready probes_limit (object_pool_index_table_ b') ->
  l = (if patchable e =? kNotPatchable then [(e, base_index_ b + pool_length b)] else []) ->
  index_contents b' = index_contents b ++ l -> pool_ok b'.
Proof.
  intros Hb Ht Hp Eb Eo Hr El Ec.
  assert (He : extends b b') by (split; [done|by exists [e]]).
  assert (Hl : (length l <= 1)%nat) by (subst l; destruct (_ =? _); cbn; lia).
  pose proof (pool_count _ Hb). pose proof (pool_base _ Hb).
  split; [by rewrite Eb|done| | | |].
  - rewrite Ec, Eo, !length_app. cbn [length]. lia.
  - rewrite Eo, Forall_app, Forall_singleton. split; [apply Hb|done].
  - intros e' i. rewrite Ec, elem_of_app, Eb. intros [Hin|Hin].
    + destruct (pool_index _ Hb e' i Hin) as (? & ? & ? & Hh). split_and!; [done..|by apply (holds_extends b)].
    + subst l. destruct (patchable e =? kNotPatchable) eqn:E; [|by apply elem_of_nil in Hin].
      apply list_elem_of_singleton in Hin. injection Hin as -> ->. apply Z.eqb_eq in E.
      split_and!; [done|done|lia|]. apply holds_place; [done|]. by apply (place_next b b' [] e).
  - intros k e'. rewrite Eo, Ec, Eb, elem_of_app. intros [Hk|[Hk El']]%lookup_app_Some Hn.
    + left. by apply (pool_complete _ Hb).
    + right. apply list_lookup_singleton_Some in El' as [Hk0 <-]. subst l. rewrite Hn, Z.eqb_refl.
      apply list_elem_of_singleton. f_equal. lia.
Qed.

Lemma add_entry_ok b e :
  pool_ok b -> fits b 1 -> typed e -> plain e ->
  exists b', add_entry probes_limit e b = Ok (base_index_ b + pool_length b, b') /\ pool_ok b' /\
    base_index_ b' = base_index_ b /\ used_from_parent_ b' = used_from_parent_ b /\
    object_pool_ b' = object_pool_ b ++ [e] /\ grown b b' /\
    index_contents b' = index_contents b
      ++ (if patchable e =? kNotPatchable then [(e, base_index_ b + pool_length b)] else []).
Proof.
  intros Hb Hf Ht Hp. pose proof (pool_can_grow b 1 Hf) as Hg. unfold add_entry. cbv zeta.
  set (b1 := mkBuilder _ _ _ _). pose proof (pool_base _ Hb).
  destruct (patchable e =? kNotPatchable) eqn:E.
  - destruct (index_insert_ok b1 (base_index_ b + pool_length b) e) as (b' & -> & Eb & Eu & Eo & Hr & Ec & Hs);
      [apply Hb|done|lia|]. cbn [mbind result_bind]. exists b'.
    assert (Hb' : pool_ok b') by (eapply (grow_pool_ok b b' e); [done..| |exact Ec]; by rewrite E).
    split_and!; try done. pose proof (pool_count _ Hb'). change (index_size b1) with (index_size b) in Hs.
    unfold grown. lia.
  - exists b1. rewrite app_nil_r. split_and!; try done.
    + eapply (grow_pool_ok b b1 e); [done..|apply Hb|done|by rewrite E, app_nil_r].
    + unfold grown. cbn [b1 object_pool_index_table_]. lia.
Qed.

Lemma word64_join lo hi : word64 lo hi = u32 lo + u32 hi * 2 ^ 32.
Proof.
  pose proof (uwrap_range 32 lo ltac:(lia)). pose proof (uwrap_range 32 hi ltac:(lia)).
  assert (E1 : u64 lo .& 0xffffffff = u32 lo).
  { change 0xffffffff with (Z.ones 32). rewrite Z.land_ones by lia. by apply (uwrap_le 64 32 lo). }
  assert (E2 : u64 (u64 hi ≪ 32) = u32 hi ≪ 32).
  { rewrite !Z.shiftl_mul_pow2 by lia. unfold uwrap. rewrite Zmult_mod_idemp_l.
    change (2 ^ 64) with (2 ^ 32 * 2 ^ 32). by rewrite Z.mul_mod_distr_r. }
  unfold word64. rewrite E1, E2, <- Z.lxor_lor, <- Z.add_nocarry_lxor, Z.shiftl_mul_pow2; [done|lia|..];
    apply Z.bits_inj'; intros n Hn; rewrite Z.bits_0, Z.land_spec, Z.shiftl_spec by done;
    (destruct (decide (n < 32)); [rewrite (Z.testbit_neg_r _ (n - 32)) by lia; apply andb_false_r|]);
    rewrite (testbit_high 32 (u32 lo)); [done|done|lia|done|done|lia].
Qed.

(** A pair for an entry of two places. *)
Lemma index_wide_ok b b' i e :
  pool_ok b -> typed e -> patchable e = kNotPatchable -> holds b i e ->
  (length (index_contents b) < 2 * length (object_pool_ b))%nat ->
  base_index_ b' = base_index_ b -> object_pool_ b' = object_pool_ b ->
  ready probes_limit (object_pool_index_table_ b') ->
  index_contents b' = index_contents b ++ [(e, i)] -> pool_ok b'.
Proof.
  intros Hb Ht Hn Hh Hc Eb Eo Hr Ec.
  assert (He : extends b b') by (by apply extends_same).
  pose proof (pool_base _ Hb). pose proof (holds_index b i e Hh).
  split; [by rewrite Eb|done| | | |].
  - rewrite Ec, Eo, length_app. cbn [length]. lia.
  - rewrite Eo. apply Hb.
  - intros e' i'. rewrite Ec, elem_of_app, Eb, list_elem_of_singleton. intros [Hin|Hin].
    + destruct (pool_index _ Hb e' i' Hin) as (? & ? & ? & Hh'). split_and!; [done..|by apply (holds_extends b)].
    + injection Hin as -> ->. split_and!; [done|done|lia|by apply (holds_extends b)].
  - intros k e'. rewrite Eo, Ec, Eb, elem_of_app. intros Hk Hn'. left. by apply (pool_complete _ Hb).
Qed.

Lemma word_at_typed lo hi : typed (word_at lo hi) /\ plain (word_at lo hi) /\ patchable (word_at lo hi) = kNotPatchable.
Proof. split_and!; [by left|done|done]. Qed.

(** What [AddObject] adds: the pairs of [l], of which only that at [i] is for the entry. *)
Definition adds b b' (i : Z) e (l : list (ObjIndexPair Object)) : Prop :=
  i = base_index_ b + pool_length b /\ pool_ok b' /\ extends b b' /\ grown b b' /\
  used_from_parent_ b' = used_from_parent_ b /\ holds b' i e /\ index_contents b' = index_contents b ++ l /\
  (forall p, p ∈ l -> EntryEqual p e = true -> snd p = i) /\ (patchable e = kNotPatchable -> (e, i) ∈ l).

Lemma AddObject_plain_ok b e :
  pool_ok b -> fits b 1 -> typed e -> plain e ->
  exists i b' l, add_entry probes_limit e b = Ok (i, b') /\ adds b b' i e l.
Proof.
  intros Hb Hf Ht Hp. destruct (add_entry_ok b e Hb Hf Ht Hp) as (b' & E & Hb' & Eb & Eu & Eo & Hg & Ec).
  eexists _, b', _. split; [exact E|]. split_and!; [done|done|split; [done|by exists [e]]|done|done| |exact Ec| |].
  - apply holds_place; [done|]. by apply (place_next b b' [] e).
  - intros p. destruct (_ =? _); [|by intros ?%elem_of_nil]. by intros ->%list_elem_of_singleton.
  - intros ->. rewrite Z.eqb_refl. by apply list_elem_of_singleton.
Qed.

Lemma AddObject_ok b e :
  pool_ok b -> fits b 2 -> typed e ->
  exists i b' l, AddObject probes_limit e b = Ok (i, b') /\ adds b b' i e l.
Proof.
  intros Hb Hf Ht. pose proof (fits_mono b 2 b 1 Hf (grown_refl b) ltac:(lia) ltac:(lia)) as Hf1. unfold AddObject.
  destruct (value_ e) as [|?|?|s0 s1 s2 s3] eqn:Ev;
    [apply AddObject_plain_ok; [done..|]; unfold plain; by rewrite Ev..|].
  unfold AddImmediate. rewrite !word64_join. 
  change (word_entry (u32 s0 + u32 s1 * 2 ^ 32) kImmediate kNotPatchable kSnapshotable) with (word_at s0 s1).
  change (word_entry (u32 s2 + u32 s3 * 2 ^ 32) kImmediate kNotPatchable kSnapshotable) with (word_at s2 s3).
  destruct (word_at_typed s0 s1) as (T1 & P1 & N1). destruct (word_at_typed s2 s3) as (T2 & P2 & N2).
  destruct (add_entry_ok b (word_at s0 s1) Hb Hf1 T1 P1) as (b1 & -> & Hb1 & B1 & U1 & O1 & G1 & C1).
  cbn [mbind result_bind].
  assert (L1 : pool_length b1 = pool_length b + 1) by (rewrite O1, length_app; cbn [length]; lia).
  destruct (add_entry_ok b1 (word_at s2 s3) Hb1) as (b2 & -> & Hb2 & B2 & U2 & O2 & G2 & C2); [by apply (fits_mono b 2); [..|lia|lia]|done|done|].
  cbn [mbind result_bind]. rewrite N1, Z.eqb_refl in C1. rewrite N2, Z.eqb_refl in C2.
  assert (L2 : pool_length b2 = pool_length b + 2) by (rewrite O2, length_app; cbn [length]; lia).
  assert (Hh : holds b2 (base_index_ b + pool_length b) e).
  { unfold holds. rewrite Ev. assert (O : object_pool_ b2 = object_pool_ b ++ [word_at s0 s1; word_at s2 s3])
      by (by rewrite O2, O1, <- app_assoc).
    split; [eapply (place_next b b2)|apply (place_appended b b2 [word_at s0 s1; word_at s2 s3] 1)]; done || congruence. }
  assert (Hn : patchable e = kNotPatchable) by (unfold typed in Ht; rewrite Ev in Ht; apply Ht).
  pose proof (pool_count _ Hb). pose proof (pool_base _ Hb).
  destruct (index_insert_ok b2 (base_index_ b + pool_length b) e) as (b3 & -> & B3 & U3 & O3 & R3 & C3 & S3);
    [apply Hb2|apply (pool_can_grow b2 0), (fits_mono b 2); [done|unfold grown in *; lia..]|lia|].
  cbn [mbind result_bind]. assert (He : extends b b3).
  { split; [congruence|]. exists ([word_at s0 s1] ++ [word_at s2 s3]). by rewrite O3, O2, O1, app_assoc. }
  assert (H3 : pool_ok b3).
  { apply (index_wide_ok b2 b3 (base_index_ b + pool_length b) e); try done.
    rewrite C2, C1, !length_app. cbn [length]. lia. }
  eexists _, b3, ([_] ++ [_] ++ [_]). split; [reflexivity|].
  pose proof (pool_count _ H3). split_and!; [done|done|done|unfold grown in *; rewrite O3 in *; lia|congruence| | | |].
  - apply (holds_extends b2); [by apply extends_same|done].
  - rewrite C3, C2, C1, <- !app_assoc. reflexivity.
  - intros p. rewrite !elem_of_app, !list_elem_of_singleton. unfold EntryEqual. rewrite Ev.
    intros [Ep|[Ep|Ep]]; subst p; cbn [fst snd]; [destruct (negb _); done..|done].
  - intros _. rewrite !elem_of_app, !list_elem_of_singleton. by right; right.
Qed.

(** ** Finding *)

Lemma LookupValue_ok b e :
  pool_ok b -> exists i, HashMap.LookupValue probes_limit e (object_pool_index_table_ b) = Ok i /\
  ((i = kNoIndex /\ forall p, p ∈ index_contents b -> EntryEqual p e = false) \/
   (0 <= i /\ holds b i e /\ exists k, (k, i) ∈ index_contents b /\ EntryEqual (k, i) e = true)).
Proof.
  intros Hb. unfold HashMap.LookupValue.
  destruct (Lookup_spec probes_limit (object_pool_index_table_ b) e) as (r & -> & Hr); [apply Hb|].
  cbn [mbind result_bind]. destruct r as [[k i]|]; [|exists kNoIndex; split; [done|by left]].
  destruct Hr as [Hin Ek]. exists i. split; [done|]. right.
  destruct (pool_index _ Hb k i Hin) as (_ & _ & Hi & Hh). pose proof (pool_base _ Hb).
  split_and!; [lia|by apply (holds_same b i k)|by exists k].
Qed.

(** The index an entry is found at, when only one of the pairs for it counts. *)
Lemma LookupValue_unique b e i :
  pool_ok b -> 0 <= i -> (e, i) ∈ index_contents b ->
  (forall p, p ∈ index_contents b -> EntryEqual p e = true -> snd p = i) ->
  HashMap.LookupValue probes_limit e (object_pool_index_table_ b) = Ok i.
Proof.
  intros Hb Hi Hin Hu. destruct (LookupValue_ok b e Hb) as (j & -> & [[_ Hn]|(_ & _ & k & Hk & Ek)]).
  - pose proof (Hn _ Hin). pose proof (same_refl e i). congruence.
  - f_equal. apply (Hu (k, j) Hk Ek).
Qed.

(** The pool or its parent has the entry at the index. *)
Definition found parent b (i : Z) e : Prop :=
  holds b i e \/ exists p, parent = Some p /\ holds p i e.

Definition parent_ok (parent : option (ObjectPoolBuilder Object)) : Prop :=
  match parent with Some p => pool_ok p | None => True end.

(** An entry of the parent is used at its index there. *)
Definition with_used b (i : Z) : ObjectPoolBuilder Object :=
  mkBuilder (base_index_ b) (used_from_parent_ b ++ [i]) (object_pool_ b) (object_pool_index_table_ b).

Lemma with_used_ok b i : pool_ok b -> pool_ok (with_used b i).
Proof. intros Hb. split; apply Hb. Qed.

(** The two searches of [FindEntry]. *)
Lemma FindEntry_cases parent b e :
  parent_ok parent -> pool_ok b -> patchable e = kNotPatchable ->
  (exists p i, parent = Some p /\ holds p i e /\
     FindEntry probes_limit parent e b = Ok (i, with_used b i) /\
     forall b', FindEntry probes_limit parent e b' = Ok (i, with_used b' i)) \/
  (forall b' i, 0 <= i -> HashMap.LookupValue probes_limit e (object_pool_index_table_ b') = Ok i ->
     FindEntry probes_limit parent e b' = Ok (i, b')) /\
  ((exists i, FindEntry probes_limit parent e b = Ok (i, b) /\ holds b i e) \/
   (forall p, p ∈ index_contents b -> EntryEqual p e = false) /\
   FindEntry probes_limit parent e b = AddObject probes_limit e b).
Proof.
  intros Hp Hb Hn.
  assert (Hparent : (exists p i, parent = Some p /\ holds p i e /\ 0 <= i /\
      HashMap.LookupValue probes_limit e (object_pool_index_table_ p) = Ok i) \/
    match parent with
    | Some p => HashMap.LookupValue probes_limit e (object_pool_index_table_ p)
    | None => Ok kNoIndex
    end = Ok kNoIndex).
  { destruct parent as [p|]; [|by right].
    destruct (LookupValue_ok p e Hp) as (i & E & [[-> _]|(Hi & Hh & _)]); [by right|]. left. by exists p, i. }
  unfold FindEntry. rewrite Hn, Z.eqb_refl. destruct Hparent as [(p & i & -> & Hh & Hi & E)| ->]; [left|right].
  - exists p, i. rewrite E. cbn [mbind result_bind]. unfold kNoIndex. rewrite (proj2 (Z.eqb_neq i (-1))) by lia. done.
  - cbn [mbind result_bind]. change (negb (kNoIndex =? kNoIndex)) with false. split.
    + intros b' i Hi ->. cbn [mbind result_bind]. unfold kNoIndex. by rewrite (proj2 (Z.eqb_neq i (-1))) by lia.
    + destruct (LookupValue_ok b e Hb) as (i & -> & [[-> Ho]|(Hi & Hh & _)]); cbn [mbind result_bind].
      * right. split; [done|]. done.
      * left. exists i. split; [|done]. unfold kNoIndex. by rewrite (proj2 (Z.eqb_neq i (-1))) by lia.
Qed.

Lemma FindEntry_ok parent b e :
  parent_ok parent -> pool_ok b -> fits b 2 -> typed e ->
  exists i b', FindEntry probes_limit parent e b = Ok (i, b') /\ pool_ok b' /\ extends b b' /\ found parent b' i e /\
    (patchable e = kNotPatchable -> exists b'', FindEntry probes_limit parent e b' = Ok (i, b'') /\
       object_pool_ b'' = object_pool_ b') /\
    (found parent b i e \/ i = base_index_ b + pool_length b) /\
    (patchable e <> kNotPatchable -> i = base_index_ b + pool_length b).
Proof.
  intros Hp Hb Hf Ht. destruct (AddObject_ok b e Hb Hf Ht) as (i & b' & l & EA & Ei & Hb' & Hx & Hg & _ & Hh & Hc & Hl & Hin).
  destruct (decide (patchable e = kNotPatchable)) as [Hn|Hn].
  - destruct (FindEntry_cases parent b e Hp Hb Hn) as [(p & j & -> & Hj & E & E')|[E' [(j & E & Hj)|[Hno E]]]].
    + exists j, (with_used b j). split_and!; [done|by apply with_used_ok|by apply extends_same|right; by exists p| |left; right; by exists p|done].
      intros _. eexists. split; [apply E'|]. done.
    + exists j, b. split_and!; [done|done|apply extends_refl|by left| |by left; left|done]. intros _. by exists b.
    + rewrite E, EA. exists i, b'. split_and!; [done|done|done|by left| |by right|done].
      intros _. exists b'. split; [|done]. pose proof (pool_base _ Hb). apply E'; [lia|].
      apply LookupValue_unique; [done|lia|rewrite Hc; apply elem_of_app; right; by apply Hin|].
      intros q. rewrite Hc, elem_of_app. intros [Hq|Hq] Eq; [pose proof (Hno q Hq); congruence|by apply Hl].
  - unfold FindEntry. rewrite (proj2 (Z.eqb_neq _ _) Hn). exists i, b'. split_and!; [done|done|done|by left|done|by right|done].
Qed.

(** ** New pools *)

Lemma empty_ok b :
  0 <= base_index_ b -> ready probes_limit (object_pool_index_table_ b) -> object_pool_ b = [] -> index_contents b = [] ->
  pool_ok b.
Proof.
  intros Hb Hr Ho Hc. split; rewrite ?Ho, ?Hc; [done|done|done|by constructor| |done]. by intros e' i ?%elem_of_nil.
Qed.

Lemma Reset_ok b : pool_ok b -> pool_ok (Reset b).
Proof.
  intros Hb. destruct (MapFacts.Clear_spec probes_limit (object_pool_index_table_ b)) as [Hr Hc]; [apply Hb|].
  apply empty_ok; [apply Hb|done..].
Qed.

Lemma create_ok parent : 32 < probes_limit ->
  exists b0, create probes_limit parent = Ok b0 /\ pool_ok b0 /\
    base_index_ b0 = (if parent is Some p then CurrentLength p else 0).
Proof.
  intros Hl.
  destruct (MapFacts.create_spec (Pair := ObjIndexPair Object) probes_limit HashMap.kInitialSize 5) as (m & E & Hr & Hc & _); [done..|].
  unfold create. rewrite E. cbn [mbind result_bind]. eexists. split; [reflexivity|]. split; [|by destruct parent].
  apply empty_ok; [|done..]. destruct parent as [p|]; [unfold CurrentLength|]; cbn; lia.
Qed.

(** ** Committing *)

Lemma commit_entries_ok es : forall p,
  pool_ok p -> fits p (Z.of_nat (length es)) -> Forall (fun e => typed e /\ plain e) es ->
  exists p', commit_entries probes_limit es p = Ok p' /\ pool_ok p' /\ base_index_ p' = base_index_ p /\
    used_from_parent_ p' = used_from_parent_ p /\ object_pool_ p' = object_pool_ p ++ es.
Proof.
  induction es as [|e es IH]; intros p Hp Hf He; cbn [commit_entries].
  { exists p. by rewrite app_nil_r. }
  apply Forall_cons in He as [[Ht Hpl] He]. cbn [length] in Hf.
  destruct (add_entry_ok p e Hp) as (p1 & E & Hp1 & B1 & U1 & O1 & G1 & _); [apply (fits_mono p _ p 1 Hf (grown_refl p)); lia|done|done|].
  assert (EA : AddObject probes_limit e p = add_entry probes_limit e p).
  { unfold AddObject, plain in *. by destruct (value_ e). }
  rewrite EA, E. cbn [mbind result_bind]. destruct (IH p1 Hp1) as (p' & E' & Hp' & B & U & O); [|done|].
  { apply (fits_mono p _ p1 _ Hf G1); [rewrite O1, length_app; cbn [length]|]; lia. }
  exists p'. split_and!; [done|done|congruence|congruence|]. by rewrite O, O1, <- app_assoc.
Qed.

Lemma holds_committed b p' i e :
  base_index_ p' = 0 -> 0 <= base_index_ b ->
  (forall j x, place b j = Some x -> place p' j = Some x) -> holds b i e -> holds p' i e.
Proof.
  intros E0 Hb Hpl. unfold holds.
  destruct (value_ e); [| | |intros [E1 E2]; split; by apply Hpl];
    intros (e' & E1 & E2); exists e'; (split; [by apply Hpl|done]).
Qed.
End Facts.
End PoolFacts.

(** ** The theorems *)

Section Claims.
Context {Object : Type} `{PoolObjectLaws Object} (probes_limit : Z).
Import Pool PoolFacts.

(** C13: Finding an entry in the object pool.  With a pool and a parent whose indices are right,
    and room for two entries, [FindEntry] succeeds; the pool, or its parent, has an entry
    equal to the one asked for at the index that is returned (a value of 128 bits as two words, the
    low one first); the index is one at which the entry was already, or the next place; every index
    that was right before stays right; asking again for an entry that is not patchable returns the same index and adds nothing, and a patchable
    entry gets a place of its own at the end.  A pool that is reset is right and empty,
    and a new pool is right too. *)
Theorem find_entry_correct (parent : option (ObjectPoolBuilder Object)) b e :
  parent_ok probes_limit parent -> pool_ok probes_limit b -> fits probes_limit b 2 -> typed e ->
  (exists i b', FindEntry probes_limit parent e b = Ok (i, b') /\ pool_ok probes_limit b' /\
     found parent b' i e /\
     (forall j e', holds b j e' -> holds b' j e') /\
     (found parent b i e \/ i = base_index_ b + Z.of_nat (length (object_pool_ b))) /\
     (patchable e = kNotPatchable -> exists b'', FindEntry probes_limit parent e b' = Ok (i, b'') /\
        object_pool_ b'' = object_pool_ b') /\
     (patchable e <> kNotPatchable -> i = base_index_ b + Z.of_nat (length (object_pool_ b)))) /\
  pool_ok probes_limit (Reset b) /\ object_pool_ (Reset b) = [] /\
  exists b0, create probes_limit parent = Ok b0 /\ pool_ok probes_limit b0 /\
    base_index_ b0 = (if parent is Some p then CurrentLength p else 0).
Proof.
  intros Hp Hb Hf Ht. split_and!.
  - destruct (FindEntry_ok probes_limit parent b e Hp Hb Hf Ht) as (i & b' & E & Hb' & Hx & Hfd & Hs & Hi & Hn).
    exists i, b'. split_and!; try done. intros j e'. by apply holds_extends.
  - by apply Reset_ok.
  - done.
  - apply create_ok. unfold fits in Hf. cbv zeta in Hf. lia.
Qed.

(** C14: Committing a pool to its parent.  [TryCommitToParent] succeeds exactly when the parent, a pool
    without parent of its own, is still as long as it was when the pool was made.  The parent then has
    the entries of the pool after its own, and every index that was right in the pool or
    in the parent is right in the new parent; otherwise the parent is as it was. *)
Theorem commit_correct (parent : ObjectPoolBuilder Object) b :
  pool_ok probes_limit parent -> base_index_ parent = 0 -> used_from_parent_ parent = [] ->
  pool_ok probes_limit b -> fits probes_limit parent (Z.of_nat (length (object_pool_ b))) ->
  exists ok parent', TryCommitToParent probes_limit parent b = Ok (ok, parent') /\
    pool_ok probes_limit parent' /\
    (ok = true <-> Z.of_nat (length (object_pool_ parent)) = base_index_ b) /\
    if ok then object_pool_ parent' = object_pool_ parent ++ object_pool_ b /\
      forall i e, found (Some parent) b i e -> holds parent' i e
    else parent' = parent.
Proof.
  intros Hp E0 Eu Hb Hf. unfold TryCommitToParent, CurrentLength. rewrite Eu. cbn [length]. rewrite Z.add_0_r.
  destruct (Z.of_nat (length (object_pool_ parent)) =? base_index_ b) eqn:E; cbn [negb].
  - apply Z.eqb_eq in E. destruct (commit_entries_ok probes_limit (object_pool_ b) parent Hp Hf) as (p' & -> & Hp' & B & U & O); [apply Hb|].
    cbn [mbind result_bind]. exists true, p'. split_and!; [done|done|done|done|].
    intros i e [Hh|(q & [= <-] & Hh)]; [|by apply (holds_extends parent); [split; [done|by eexists]|]].
    apply (holds_committed b); [congruence|apply Hb| |done]. intros j x. unfold place. rewrite B, E0, O.
    destruct (base_index_ b <=? j) eqn:Ej; [|done]. apply Z.leb_le in Ej. intros Ex.
    rewrite (proj2 (Z.leb_le 0 j)), lookup_app_r by lia. rewrite <- Ex. f_equal. lia.
  - apply Z.eqb_neq in E. exists false, parent. by split_and!.
Qed.
End Claims.

(** Objects that are known by a number. *)
#[export] Instance NumberedObject : PoolObject Z := {| IsSameObject := Z.eqb; ObjectHash x := x |}.
#[export] Instance NumberedObjectLaws : PoolObjectLaws Z.
Proof.
  split; cbn.
  - apply Z.eqb_refl.
  - by intros a b c ->%Z.eqb_eq.
  - by intros a b ->%Z.eqb_eq.
Qed.

(** A pool of two places, for a value of 128 bits, and one made on top of it. *)
Definition pool_or_empty (r : map_result (ObjectPoolBuilder Z)) : ObjectPoolBuilder Z :=
  match r with Ok b => b | Err _ => mkBuilder 0 [] [] (HashMap.mk [] [] 0 0 0 0) end.
Definition example_parent : ObjectPoolBuilder Z :=
  pool_or_empty (b ← Pool.create default_limit None;
    '(_, b) ← Pool.FindImmediate128 default_limit None 1 2 (-1) 4 b; Ok b).
Definition example_pool : ObjectPoolBuilder Z :=
  pool_or_empty (b ← Pool.create default_limit (Some example_parent);
    '(_, b) ← Pool.FindObject default_limit (Some example_parent) 7 kPatchable kSnapshotable b; Ok b).

Lemma new_pool_ok parent e b :
  PoolFacts.parent_ok default_limit parent -> typed e ->
  Pool.create default_limit parent = Ok b -> PoolFacts.fits default_limit b 2 ->
  PoolFacts.pool_ok default_limit
    (pool_or_empty ('(_, b) ← Pool.FindEntry default_limit parent e b; Ok b)).
Proof.
  intros Hp Ht Hc Hf. destruct (PoolFacts.create_ok (H0 := NumberedObjectLaws) default_limit parent) as (b0 & E & Hb & _); [done|].
  rewrite Hc in E. injection E as <-.
  destruct (PoolFacts.FindEntry_ok default_limit parent b e Hp Hb Hf Ht) as (i & b' & E' & Hb' & _).
  rewrite E'. done.
Qed.

Lemma example_parent_ok : PoolFacts.pool_ok default_limit example_parent.
Proof.
  destruct (PoolFacts.create_ok (H0 := NumberedObjectLaws) default_limit None) as (b0 & E & _); [done|].
  unfold example_parent. rewrite E. cbn [mbind result_bind]. apply new_pool_ok; [done|by split|done|].
  vm_compute in E. injection E as <-. by vm_compute.
Qed.

Lemma example_pool_ok : PoolFacts.pool_ok default_limit example_pool.
Proof.
  destruct (PoolFacts.create_ok (H0 := NumberedObjectLaws) default_limit (Some example_parent)) as (b0 & E & _); [done|].
  unfold example_pool. rewrite E. cbn [mbind result_bind]. apply new_pool_ok; [apply example_parent_ok|done|done|].
  vm_compute in E. injection E as <-. by vm_compute.
Qed.

Example example_pool_values :
  map value_ (object_pool_ example_parent) = [imm_ (1 + 2 * 2 ^ 32); imm_ (2 ^ 32 - 1 + 4 * 2 ^ 32)] /\
  map value_ (object_pool_ example_pool) = [obj_ 7 7] /\ base_index_ example_pool = 2.
Proof. vm_compute. done. Qed.

Example find_entry_correct_witness :
  exists i b', Pool.FindImmediate default_limit (Some example_parent) 5 example_pool = Ok (i, b') /\
    PoolFacts.found (Some example_parent) b' i (word_entry 5 kImmediate kNotPatchable kSnapshotable).
Proof.
  destruct (find_entry_correct default_limit (Some example_parent) example_pool
    (word_entry 5 kImmediate kNotPatchable kSnapshotable)) as ((i & b' & E & _ & Hf & _) & _).
  - apply example_parent_ok.
  - apply example_pool_ok.
  - split; vm_compute; congruence.
  - by left.
  - exists i, b'. split; [exact E|exact Hf].
Defined.

Example commit_correct_witness :
  exists parent', Pool.TryCommitToParent default_limit example_parent example_pool = Ok (true, parent') /\
    object_pool_ parent' = object_pool_ example_parent ++ object_pool_ example_pool.
Proof.
  destruct (commit_correct default_limit example_parent example_pool) as (ok & p' & E & _ & Hi & Hc).
  - apply example_parent_ok.
  - vm_compute. reflexivity.
  - vm_compute. reflexivity.
  - apply example_pool_ok.
  - split; vm_compute; congruence.
  - assert (ok = true) as -> by (apply Hi; vm_compute; reflexivity). exists p'. split; [exact E|apply Hc].
Defined.
