(* ===== verification/DataStream.v ===== *)
(** * Data streams: runtime/vm/datastream.h and datastream.cc

    [ReadStream] reads from a buffer of bytes, [BaseWriteStream] writes into a buffer
    that grows; [MallocWriteStream] and [ZoneWriteStream] keep everything that was
    written, [StreamingWriteStream] hands it to a callback when the buffer is full.
    Numbers are written seven bits per byte, in four formats.  The integer types of the
    templates are given by their width, at least that of [int]. *)

From S2P Require Import Prelude Utils HashMap.

(** What the release build does not check: a read past the end, a shift by the width of
    the type or more, a position outside the buffer; and the bound on a loop. *)
Inductive stream_error : Type := PastEnd | WideShift (s : Z) | BadPosition (p : Z) | LoopRounds.
Abbreviation stream_result := (result stream_error).

(** [Utils::RoundUp]. *)
Definition RoundUp (x alignment offset : Z) : Z := RoundDown (x + alignment - 1 + offset) alignment - offset.

Definition kDataBitsPerByte : Z := 7.
Definition kByteMask : Z := (1 ≪ kDataBitsPerByte) - 1.
Definition kMaxUnsignedDataPerByte : Z := kByteMask.
Definition kMinDataPerByte : Z := - (1 ≪ (kDataBitsPerByte - 1)).
Definition kMaxDataPerByte : Z := Z.lnot kMinDataPerByte .& kByteMask.
Definition kEndByteMarker : Z := 255 - kMaxDataPerByte.
Definition kEndUnsignedByteMarker : Z := 255 - kMaxUnsignedDataPerByte.

(** [LEB128Constants]. *)
Module LEB128.
Definition kDataByteMask : Z := (1 ≪ kDataBitsPerByte) - 1.
Definition kMoreDataMask : Z := 1 ≪ kDataBitsPerByte.
Definition kSignMask : Z := 1 ≪ (kDataBitsPerByte - 1).
End LEB128.

(** ** Reading *)

(** The buffer up to [end_], and [current_ - buffer_]. *)
Record ReadStream := mkReadStream { rs_buffer : list Z; rs_position : Z }.

Module Read.
Implicit Types st : ReadStream.

Definition Position st : Z := rs_position st.
Definition SetPosition (value : Z) st : ReadStream := mkReadStream (rs_buffer st) value.
Definition PendingBytes st : Z := Z.of_nat (length (rs_buffer st)) - rs_position st.
Definition Advance (value : Z) st : ReadStream := mkReadStream (rs_buffer st) (rs_position st + value).
Definition Align (alignment offset : Z) st : ReadStream :=
  Advance (RoundUp (Position st) alignment offset - Position st) st.

Definition ReadByte st : stream_result (Z * ReadStream) :=
  if (0 <=? rs_position st) then
    match rs_buffer st !! Z.to_nat (rs_position st) with
    | Some b => Ok (b, Advance 1 st)
    | None => Err PastEnd
    end
  else Err PastEnd.

Fixpoint ReadBytes (len : nat) st : stream_result (list Z * ReadStream) :=
  match len with
  | O => Ok ([], st)
  | S len => '(b, st) ← ReadByte st; '(bs, st) ← ReadBytes len st; Ok (b :: bs, st)
  end.

(** [x << s] at a width. *)
Definition shift_left (w x s : Z) : stream_result Z :=
  if (0 <=? s) && (s <? w) then Ok (uwrap w (x ≪ s)) else Err (WideShift s).

(** The loop of [Read]: [b] is the byte read last; every round reads one. *)
Fixpoint Read_loop (fuel : nat) (w end_byte_marker b r s : Z) st : stream_result (Z * ReadStream) :=
  match fuel with
  | O => Err LoopRounds
  | S fuel =>
      part ← shift_left w b s;
      let r := r .| part in
      let s := s + kDataBitsPerByte in
      '(b, st) ← ReadByte st;
      if b <=? kMaxUnsignedDataPerByte then Read_loop fuel w end_byte_marker b r s st
      else part ← shift_left w (uwrap w (b - end_byte_marker)) s; Ok (r .| part, st)
  end.

(** As many rounds as there are bytes left, and one that fails. *)
Definition rounds st : nat := S (Z.to_nat (PendingBytes st)).

(** [Read<T>(end_byte_marker)] as the unsigned type of its width [w]. *)
Definition Read_marker (w end_byte_marker : Z) st : stream_result (Z * ReadStream) :=
  '(b, st) ← ReadByte st;
  if kMaxUnsignedDataPerByte <? b then Ok (uwrap w (b - end_byte_marker), st)
  else Read_loop (rounds st) w end_byte_marker b 0 0 st.

(** [Read<T>] and [ReadUnsigned<T>]. *)
Definition Read (T : ctype) st : stream_result (Z * ReadStream) :=
  '(r, st) ← Read_marker (ct_bits T) kEndByteMarker st; Ok (ct_cast T r, st).
Definition ReadUnsigned (T : ctype) st : stream_result (Z * ReadStream) :=
  '(r, st) ← Read_marker (ct_bits T) kEndUnsignedByteMarker st; Ok (ct_cast T r, st).

(** [UNROLLED_BODY] for each of the positions, then [UNROLLED_END] at [last]. *)
Fixpoint unrolled (w end_byte_marker : Z) (bodies : list Z) (last r : Z) st : stream_result (Z * ReadStream) :=
  match bodies with
  | [] =>
      '(b, st) ← ReadByte st;
      Ok (uwrap w (r .| (uwrap w (b - end_byte_marker) ≪ last)), st)
  | bit_start :: bodies =>
      '(b, st) ← ReadByte st;
      if kMaxUnsignedDataPerByte <? b
      then Ok (uwrap w (r .| (uwrap w (b - end_byte_marker) ≪ bit_start)), st)
      else unrolled w end_byte_marker bodies last (uwrap w (r .| (b ≪ bit_start))) st
  end.

(** [UNROLLED_INIT]. *)
Definition Read_unrolled (w end_byte_marker : Z) (bodies : list Z) (last : Z) st : stream_result (Z * ReadStream) :=
  '(b, st) ← ReadByte st;
  if kMaxUnsignedDataPerByte <? b then Ok (uwrap w (b - end_byte_marker), st)
  else unrolled w end_byte_marker bodies last b st.

Definition Read16 (end_byte_marker : Z) := Read_unrolled 16 end_byte_marker [7] 14.
Definition Read32 (end_byte_marker : Z) := Read_unrolled 32 end_byte_marker [7; 14; 21] 28.
Definition Read64 (end_byte_marker : Z) := Read_unrolled 64 end_byte_marker [7; 14; 21; 28; 35; 42; 49; 56] 63.

(** [Raw<N, T>::Read]: [bit_cast] to the type. *)
Definition Raw (T : ctype) st : stream_result (Z * ReadStream) :=
  '(r, st) ← (if ct_bits T =? 8 then ReadByte st
              else if ct_bits T =? 16 then Read16 kEndByteMarker st
              else if ct_bits T =? 32 then Read32 kEndByteMarker st
              else Read64 kEndByteMarker st);
  Ok (ct_cast T r, st).

Definition ReadWordWith32BitReads st : stream_result (Z * ReadStream) :=
  '(lo, st) ← Raw uint32_t st;
  '(hi, st) ← Raw uint32_t st;
  Ok ((0 .| u64 (lo ≪ 0)) .| u64 (hi ≪ 32), st).

(** [ReadRefId]: [STAGE] four times at most; the byte is signed. *)
Fixpoint ref_stages (n : nat) (result : Z) st : stream_result (Z * ReadStream) :=
  match n with
  | O => Ok (result, st)
  | S n =>
      '(b, st) ← ReadByte st;
      let byte := swrap 8 b in
      let result := byte + (result ≪ 7) in
      if byte <? 0 then Ok (result, st) else ref_stages n result st
  end.
Definition ReadRefId st : stream_result (Z * ReadStream) :=
  '(result, st) ← ref_stages 4 0 st; Ok (result + 128, st).

(** The loop of [ReadLEB128] and [ReadSLEB128]: the value, the shift and the last byte. *)
Fixpoint leb_loop (fuel : nat) (w r s : Z) st : stream_result (Z * Z * Z * ReadStream) :=
  match fuel with
  | O => Err LoopRounds
  | S fuel =>
      '(b, st) ← ReadByte st;
      part ← shift_left w (b .& LEB128.kDataByteMask) s;
      let r := r .| part in
      let s := s + kDataBitsPerByte in
      if negb (b .& LEB128.kMoreDataMask =? 0) then leb_loop fuel w r s st else Ok (r, s, b, st)
  end.

Definition ReadLEB128 (T : ctype) st : stream_result (Z * ReadStream) :=
  '(r, _, _, st) ← leb_loop (rounds st) (ct_bits T) 0 0 st; Ok (ct_cast T r, st).

Definition ReadSLEB128 (T : ctype) st : stream_result (Z * ReadStream) :=
  let w := ct_bits T in
  '(r, s, b, st) ← leb_loop (rounds st) w 0 0 st;
  let sign_bits :=
    if negb (b .& LEB128.kSignMask =? 0) && (s <? w) then uwrap w (Z.lnot (uwrap w (1 ≪ s) - 1)) else 0 in
  Ok (ct_cast T (r .| sign_bits), st).
End Read.

(** ** Writing *)

(** The classes of write streams, which differ in [Realloc], [Position] and [SetPosition]. *)
Inductive stream_class : Type := MallocWriteStream | ZoneWriteStream | StreamingWriteStream.

(** A byte of the buffer that was not written yet is [None]; its length is [capacity_], and
    [ws_position] is [current_ - buffer_].  [ws_flushed] is what the callback was given,
    of which the code keeps the length, [flushed_size_]. *)
Record WriteStream := mkWriteStream {
  ws_class : stream_class;
  ws_initial_size : Z;
  ws_buffer : list (option Z);
  ws_position : Z;
  ws_flushed : list (option Z)
}.

Definition KB : Z := 1024.

Module Write.
Implicit Types st : WriteStream.

Definition capacity st : Z := Z.of_nat (length (ws_buffer st)).
Definition flushed_size st : Z := Z.of_nat (length (ws_flushed st)).

(** The constructors. *)
Definition create (class : stream_class) (initial_size : Z) : WriteStream :=
  mkWriteStream class (RoundUpToPowerOfTwo initial_size) [] 0 [].

(** [BaseWriteStream::Position] and the virtual [Position]. *)
Definition BasePosition st : Z := ws_position st.
Definition Position st : Z :=
  match ws_class st with
  | StreamingWriteStream => flushed_size st + BasePosition st
  | _ => BasePosition st
  end.
Definition Remaining st : Z := capacity st - BasePosition st.

(** [realloc], which does not fail: the bytes up to the smaller size are kept. *)
Definition resize_buffer (new_size : Z) (buffer : list (option Z)) : list (option Z) :=
  take (Z.to_nat new_size) buffer ++ repeat None (Z.to_nat new_size - length buffer).

Definition Flush st : WriteStream :=
  mkWriteStream (ws_class st) (ws_initial_size st) (ws_buffer st) 0
    (ws_flushed st ++ take (Z.to_nat (BasePosition st)) (ws_buffer st)).

Definition Realloc (new_size : Z) st : WriteStream :=
  match ws_class st with
  | MallocWriteStream | ZoneWriteStream =>
      mkWriteStream (ws_class st) (ws_initial_size st) (resize_buffer new_size (ws_buffer st))
        (ws_position st) (ws_flushed st)
  | StreamingWriteStream =>
      let st := Flush st in
      if new_size <=? capacity st then st
      else
        let new_capacity := RoundUp new_size (64 * KB) 0 in
        mkWriteStream (ws_class st) (ws_initial_size st) (resize_buffer new_capacity (ws_buffer st))
          0 (ws_flushed st)
  end.

Definition EnsureSpace (size_needed : Z) st : WriteStream :=
  if size_needed <=? Remaining st then st
  else
    let increment_size := capacity st in
    let increment_size :=
      if increment_size <? size_needed then RoundUp size_needed (ws_initial_size st) 0 else increment_size in
    Realloc (capacity st + increment_size) st.

(** [*current_++ = value]. *)
Definition put (value : Z) st : stream_result WriteStream :=
  if (0 <=? ws_position st) && (ws_position st <? capacity st) then
    Ok (mkWriteStream (ws_class st) (ws_initial_size st)
          (<[Z.to_nat (ws_position st) := Some value]> (ws_buffer st)) (ws_position st + 1) (ws_flushed st))
  else Err (BadPosition (ws_position st)).

Fixpoint put_all (bytes : list Z) st : stream_result WriteStream :=
  match bytes with
  | [] => Ok st
  | b :: bytes => st ← put b st; put_all bytes st
  end.

Definition WriteByte (value : Z) st : stream_result WriteStream := put (u8 value) (EnsureSpace 1 st).

Definition WriteBytes (bytes : list Z) st : stream_result WriteStream :=
  match bytes with
  | [] => Ok st
  | _ => put_all bytes (EnsureSpace (Z.of_nat (length bytes)) st)
  end.

(** The bytes of a value of [n] bytes on a little-endian host. *)
Fixpoint host_bytes (n : nat) (value : Z) : list Z :=
  match n with
  | O => []
  | S n => u8 value :: host_bytes n (value ≫ 8)
  end.
Definition WriteFixed (T : ctype) (value : Z) : WriteStream -> stream_result WriteStream :=
  WriteBytes (host_bytes (Z.to_nat (ct_sizeof T)) value).
Definition WriteWord (value : Z) := WriteFixed uword value.
Definition WriteTargetWord (value : Z) := WriteFixed int64_t (s64 value).

(** [BaseWriteStream::SetPosition] and the virtual one. *)
Definition BaseSetPosition (value : Z) st : WriteStream :=
  let st := EnsureSpace (value - BasePosition st) st in
  mkWriteStream (ws_class st) (ws_initial_size st) (ws_buffer st) value (ws_flushed st).
Definition SetPosition (value : Z) st : WriteStream :=
  match ws_class st with
  | StreamingWriteStream => BaseSetPosition (value - flushed_size st) st
  | _ => BaseSetPosition value st
  end.

(** [memset(current_, 0, length)]. *)
Definition clear (length : Z) st : stream_result WriteStream :=
  '(mkWriteStream c i b _ f) ← put_all (repeat 0 (Z.to_nat length)) st; Ok (mkWriteStream c i b (ws_position st) f).

(** The padding and the stream. *)
Definition Align (alignment offset : Z) st : stream_result (Z * WriteStream) :=
  let position_before := Position st in
  let position_after := RoundUp position_before alignment offset in
  let length := position_after - position_before in
  if negb (length =? 0) then
    st ← clear length (EnsureSpace length st);
    Ok (length, SetPosition position_after st)
  else Ok (length, st).

(** [MallocWriteStream::Steal]: the bytes written, and the stream without a buffer. *)
Definition Steal st : list (option Z) * WriteStream :=
  (take (Z.to_nat (Position st)) (ws_buffer st),
   mkWriteStream (ws_class st) (ws_initial_size st) [] 0 (ws_flushed st)).

(** The values shrink by seven bits a round: ten rounds are enough for 64 bits. *)
Definition kRounds : nat := 10.

Fixpoint WriteUnsigned_loop (fuel : nat) (value : Z) st : stream_result WriteStream :=
  if kMaxUnsignedDataPerByte <? value then
    match fuel with
    | O => Err LoopRounds
    | S fuel => st ← WriteByte (value .& kByteMask) st; WriteUnsigned_loop fuel (value ≫ kDataBitsPerByte) st
    end
  else WriteByte (value + kEndUnsignedByteMarker) st.
Definition WriteUnsigned := WriteUnsigned_loop kRounds.

Fixpoint Write_loop (fuel : nat) (v : Z) st : stream_result WriteStream :=
  if (v <? kMinDataPerByte) || (kMaxDataPerByte <? v) then
    match fuel with
    | O => Err LoopRounds
    | S fuel => st ← WriteByte (v .& kByteMask) st; Write_loop fuel (v ≫ kDataBitsPerByte) st
    end
  else WriteByte (v + kEndByteMarker) st.
Definition Write := Write_loop kRounds.

(** [Raw<N, T>::Write]: [bit_cast] to the signed type of the width. *)
Definition Raw (T : ctype) (value : Z) st : stream_result WriteStream :=
  if ct_bits T =? 8 then WriteByte (u8 value) st else Write (swrap (ct_bits T) value) st.

Definition WriteWordWith32BitWrites (value : Z) st : stream_result WriteStream :=
  st ← Raw uint32_t (u32 (value ≫ 0)) st;
  Raw uint32_t (u32 (value ≫ 32)) st.

Definition put_if (c : bool) (value : Z) st : stream_result WriteStream := if c then put value st else Ok st.

Definition WriteRefId (value : Z) st : stream_result WriteStream :=
  let st := EnsureSpace 4 st in
  st ← put_if (negb (value ≫ 21 =? 0)) ((value ≫ 21) .& 127) st;
  st ← put_if (negb (value ≫ 14 =? 0)) ((value ≫ 14) .& 127) st;
  st ← put_if (negb (value ≫ 7 =? 0)) ((value ≫ 7) .& 127) st;
  put (((value ≫ 0) .& 127) .| 128) st.

Fixpoint WriteLEB128_loop (fuel : nat) (remainder : Z) st : stream_result WriteStream :=
  match fuel with
  | O => Err LoopRounds
  | S fuel =>
      let part := remainder .& LEB128.kDataByteMask in
      let remainder := remainder ≫ kDataBitsPerByte in
      if remainder =? 0 then WriteByte part st
      else st ← WriteByte (part .| LEB128.kMoreDataMask) st; WriteLEB128_loop fuel remainder st
  end.
(** At the unsigned type of the width. *)
Definition WriteLEB128 (T : ctype) (value : Z) := WriteLEB128_loop kRounds (uwrap (ct_bits T) value).

Fixpoint WriteSLEB128_loop (fuel : nat) (w : Z) (is_negative : bool) (remainder : Z) st : stream_result WriteStream :=
  match fuel with
  | O => Err LoopRounds
  | S fuel =>
      let part := remainder .& LEB128.kDataByteMask in
      let remainder := remainder ≫ kDataBitsPerByte in
      let sign_extend := Z.lnot (swrap w (uwrap w (1 ≪ (w - kDataBitsPerByte)) - 1)) in
      let remainder := if is_negative then remainder .| sign_extend else remainder in
      let is_last_part :=
        if is_negative then (remainder =? -1) && negb (part .& LEB128.kSignMask =? 0)
        else (remainder =? 0) && (part .& LEB128.kSignMask =? 0) in
      if is_last_part then WriteByte part st
      else st ← WriteByte (part .| LEB128.kMoreDataMask) st; WriteSLEB128_loop fuel w is_negative remainder st
  end.
(** At the signed type of the width. *)
Definition WriteSLEB128 (T : ctype) (value : Z) :=
  let value := swrap (ct_bits T) value in
  WriteSLEB128_loop kRounds (ct_bits T) (value <? 0) value.
End Write.
