(* ===== verification/DataStreamCorrect.v ===== *)
(** * Streams return what was written to them

    A stream of bytes has contents, a list; the classes of write streams keep it in
    different places and every write appends to it.  What each writer of numbers appends,
    its reader reads back. *)

From S2P Require Import Prelude Utils HashMap HashMapCorrect DataStream.

(** ** Bits *)

Lemma uwrap_lor w x y : 0 <= w -> uwrap w (x .| y) = uwrap w x .| uwrap w y.
Proof. intros. unfold uwrap. rewrite <- !Z.land_ones by lia. apply Z.land_lor_distr_l. Qed.

Lemma land_127 x : x .& 127 = x mod 128.
Proof. change 127 with (Z.ones 7). by rewrite Z.land_ones. Qed.

Lemma split_7 v : (v .& 127) + (v ≫ 7) * 128 = v.
Proof.
  rewrite land_127, Z.shiftr_div_pow2 by lia. change (2 ^ 7) with 128.
  pose proof (Z.div_mod v 128 ltac:(lia)). lia.
Qed.

Lemma low_7 v : 0 <= v .& 127 < 128.
Proof. rewrite land_127. apply Z.mod_pos_bound. lia. Qed.

(** A group of seven bits below another number. *)
Lemma lor_group b v s :
  0 <= b < 128 -> 0 <= s -> (b + v * 128) ≪ s = (b ≪ s) .| (v ≪ (s + 7)).
Proof.
  intros Hb Hs. rewrite (Z.add_comm s 7), <- Z.shiftl_shiftl, <- Z.shiftl_lor by lia. f_equal.
  rewrite (Z.shiftl_mul_pow2 v) by lia. change (2 ^ 7) with 128.
  assert (E : b .& (v * 128) = 0).
  { apply Z.bits_inj'. intros n Hn. rewrite Z.land_spec, Z.bits_0. change 128 with (2 ^ 7).
    rewrite Z.mul_pow2_bits by lia. destruct (decide (n < 7)).
    - rewrite (Z.testbit_neg_r v) by lia. apply andb_false_r.
    - by rewrite (testbit_high 7 b) by (unfold is_u; lia). }
  rewrite <- Z.lxor_lor, <- Z.add_nocarry_lxor by done. done.
Qed.

Lemma RoundUp_spec x k offset :
  0 <= k -> x <= RoundUp x (2 ^ k) offset < x + 2 ^ k /\ (RoundUp x (2 ^ k) offset + offset) mod 2 ^ k = 0.
Proof.
  intros Hk. unfold RoundUp. rewrite RoundDown_pow2 by done.
  pose proof (pow2_pos k Hk). pose proof (Z.div_mod (x + 2 ^ k - 1 + offset) (2 ^ k) ltac:(lia)) as E.
  pose proof (Z.mod_pos_bound (x + 2 ^ k - 1 + offset) (2 ^ k) ltac:(lia)). split; [lia|].
  replace (_ - offset + offset) with ((x + 2 ^ k - 1 + offset) / 2 ^ k * 2 ^ k) by lia. apply Z_mod_mult.
Qed.

(** ** Write streams *)

Module WriteFacts.
Import Write.
Implicit Types st : WriteStream.

(** What was written so far. *)
Definition contents st : list (option Z) :=
  ws_flushed st ++ take (Z.to_nat (ws_position st)) (ws_buffer st).

Record wf st : Prop := {
  wf_position : 0 <= ws_position st <= capacity st;
  wf_initial : exists k, 0 <= k /\ ws_initial_size st = 2 ^ k;
  wf_flushed : ws_class st <> StreamingWriteStream -> ws_flushed st = []
}.

Lemma wf_Position st : wf st -> Position st = Z.of_nat (length (contents st)).
Proof.
  intros [Hp _ Hf]. unfold Position, flushed_size, BasePosition, contents, capacity in *.
  rewrite length_app, length_take. destruct (ws_class st); [rewrite Hf by done; cbn [length]..|]; lia.
Qed.

(** The same stream with more room. *)
Definition same_stream st st' : Prop :=
  wf st' /\ contents st' = contents st /\ ws_class st' = ws_class st /\ ws_initial_size st' = ws_initial_size st.

Lemma resize_prefix n (buffer : list (option Z)) p :
  (p <= length buffer)%nat -> (p <= n)%nat -> take p (resize_buffer (Z.of_nat n) buffer) = take p buffer.
Proof.
  intros Hp Hn. unfold resize_buffer. rewrite Nat2Z.id.
  rewrite take_app_le, take_take by (rewrite length_take; lia). f_equal. lia.
Qed.
Lemma resize_length n (buffer : list (option Z)) :
  0 <= n -> Z.of_nat (length (resize_buffer n buffer)) = n.
Proof. intros. unfold resize_buffer. rewrite length_app, length_take, repeat_length. lia. Qed.

Lemma Realloc_ok n st :
  wf st -> capacity st < n -> same_stream st (Realloc n st) /\ n <= Remaining (Realloc n st) + BasePosition st.
Proof.
  intros [Hp Hi Hf] Hn. unfold same_stream, Remaining, BasePosition. unfold capacity in *.
  assert (Hresize : forall m, n <= m -> take (Z.to_nat (ws_position st)) (resize_buffer m (ws_buffer st))
    = take (Z.to_nat (ws_position st)) (ws_buffer st)).
  { intros m Hm. replace m with (Z.of_nat (Z.to_nat m)) by lia. apply resize_prefix; lia. }
  unfold Realloc. destruct (ws_class st) eqn:Ec.
  1,2: unfold contents, capacity; cbn [ws_class ws_initial_size ws_buffer ws_position ws_flushed];
    rewrite Hresize, resize_length by lia; split_and!; [|done..|lia];
    split; cbn [ws_class ws_initial_size ws_buffer ws_position ws_flushed];
    [unfold capacity; cbn; rewrite resize_length; lia|done|intros Hc; apply Hf; congruence].
  cbv zeta. change (capacity (Flush st)) with (Z.of_nat (length (ws_buffer st))).
  rewrite (proj2 (Z.leb_gt n (Z.of_nat (length (ws_buffer st))))) by lia.
  destruct (RoundUp_spec n 16 0) as [[Hr _] _]; [lia|]. change (2 ^ 16) with (64 * KB) in Hr.
  unfold contents, capacity, Flush. cbn [ws_class ws_initial_size ws_buffer ws_position ws_flushed].
  change (take (Z.to_nat 0) _) with (@nil (option Z)). rewrite app_nil_r, resize_length by lia. split_and!; [|done..|lia].
  split; cbn [ws_class ws_initial_size ws_buffer ws_position ws_flushed]; [|done|congruence].
  unfold capacity. cbn. rewrite resize_length; lia.
Qed.

Lemma EnsureSpace_ok n st : wf st -> same_stream st (EnsureSpace n st) /\ n <= Remaining (EnsureSpace n st).
Proof.
  intros Hst. pose proof (wf_position _ Hst) as Hp. destruct (wf_initial _ Hst) as (k & Hk & Ek).
  unfold EnsureSpace. destruct (n <=? Remaining st) eqn:E; reflect_bool; [by split; [split_and!|]|].
  unfold Remaining, BasePosition in E. cbv zeta. rewrite Ek. destruct (RoundUp_spec n k 0 Hk) as [[Hr _] _].
  set (increment := if capacity st <? n then _ else _).
  assert (Hinc : n <= increment /\ 0 < increment) by (unfold increment; destruct (capacity st <? n) eqn:El; reflect_bool; lia).
  destruct (Realloc_ok (capacity st + increment) st Hst ltac:(lia)) as [Hs Hm].
  split; [done|]. unfold BasePosition in Hm. lia.
Qed.

(** [f] writes the bytes. *)
Definition written (bs : list Z) st st' : Prop :=
  wf st' /\ contents st' = contents st ++ map Some bs /\ ws_class st' = ws_class st /\
  ws_initial_size st' = ws_initial_size st.
Definition appends (f : WriteStream -> stream_result WriteStream) (bs : list Z) : Prop :=
  forall st, wf st -> exists st', f st = Ok st' /\ written bs st st'.

Lemma written_trans b1 b2 st st1 st2 : written b1 st st1 -> written b2 st1 st2 -> written (b1 ++ b2) st st2.
Proof.
  intros (_ & C1 & K1 & I1) (W & C2 & K2 & I2). split_and!; [done| |congruence|congruence].
  by rewrite C2, C1, map_app, app_assoc.
Qed.
Lemma written_same bs st st1 st2 : same_stream st st1 -> written bs st1 st2 -> written bs st st2.
Proof. intros (_ & C1 & K1 & I1) (W & C2 & K2 & I2). split_and!; [done|congruence..]. Qed.

Lemma appends_bind f g b1 b2 :
  appends f b1 -> appends g b2 -> appends (fun st => st ← f st; g st) (b1 ++ b2).
Proof.
  intros Hf Hg st Hst. destruct (Hf st Hst) as (st1 & E1 & W1). rewrite E1. cbn [mbind result_bind].
  destruct (Hg st1 (proj1 W1)) as (st2 & E2 & W2). exists st2. split; [done|]. by apply (written_trans _ _ _ st1).
Qed.

(** Bytes went into the buffer without asking for room. *)
Definition filled (n : Z) st st' : Prop :=
  ws_flushed st' = ws_flushed st /\ ws_position st' = ws_position st + n /\ capacity st' = capacity st.

Lemma put_ok b st : wf st -> 1 <= Remaining st ->
  exists st', put b st = Ok st' /\ written [b] st st' /\ filled 1 st st'.
Proof.
  intros Hst Hr. pose proof (wf_position _ Hst) as Hp. unfold Remaining, BasePosition in *. unfold put.
  rewrite (proj2 (Z.leb_le 0 _)), (proj2 (Z.ltb_lt _ _)) by lia. cbn [andb]. eexists. split; [reflexivity|].
  unfold capacity in *. split; [split_and!|]; cbn [ws_class ws_initial_size ws_buffer ws_position ws_flushed];
    [|unfold contents; cbn [ws_buffer ws_position ws_flushed]|done|done|].
  - split; cbn [ws_class ws_initial_size ws_buffer ws_position ws_flushed]; [|apply Hst..].
    unfold capacity. cbn. rewrite length_insert. lia.
  - rewrite <- app_assoc. f_equal. replace (Z.to_nat (ws_position st + 1)) with (S (Z.to_nat (ws_position st))) by lia.
    rewrite (take_S_r _ _ (Some b)) by (apply list_lookup_insert_eq; lia). by rewrite take_insert_ge.
  - split_and!; [done|done|]. unfold capacity. cbn. by rewrite length_insert.
Qed.

Lemma put_all_ok bs : forall st, wf st -> Z.of_nat (length bs) <= Remaining st ->
  exists st', put_all bs st = Ok st' /\ written bs st st' /\ filled (Z.of_nat (length bs)) st st'.
Proof.
  induction bs as [|b bs IH]; intros st Hst Hr; cbn [put_all length] in *.
  { exists st. split; [done|]. split; [|split_and!; [done|lia|done]]. split_and!; [done|by rewrite app_nil_r|done|done]. }
  destruct (put_ok b st Hst ltac:(lia)) as (st1 & -> & W1 & F1 & P1 & C1). cbn [mbind result_bind].
  destruct (IH st1 (proj1 W1)) as (st2 & E2 & W2 & F2 & P2 & C2); [unfold Remaining, BasePosition in *; lia|].
  exists st2. split_and!; [done|by apply (written_trans [b] bs st st1)|]. split_and!; [congruence|lia|lia].
Qed.

Lemma WriteByte_appends b : is_u 8 b -> appends (WriteByte b) [b].
Proof.
  intros Hb st Hst. unfold WriteByte. rewrite (uwrap_small 8 b) by done.
  destruct (EnsureSpace_ok 1 st Hst) as [Hs Hr].
  destruct (put_ok b (EnsureSpace 1 st) (proj1 Hs) Hr) as (st' & E & W & _). exists st'.
  split; [done|]. by apply (written_same _ _ _ _ Hs).
Qed.

Lemma WriteBytes_appends bs : appends (WriteBytes bs) bs.
Proof.
  intros st Hst. unfold WriteBytes.
  destruct (EnsureSpace_ok (Z.of_nat (length bs)) st Hst) as [Hs Hr].
  destruct (put_all_ok bs (EnsureSpace (Z.of_nat (length bs)) st) (proj1 Hs) Hr) as (st' & E & W & _).
  destruct bs as [|b bs].
  - exists st. split; [done|]. split_and!; [done|by rewrite app_nil_r|done|done].
  - exists st'. split; [exact E|]. by apply (written_same _ _ _ _ Hs).
Qed.

Lemma new_stream_ok class n : 1 <= n <= 2 ^ 62 -> wf (create class n) /\ contents (create class n) = [].
Proof.
  intros Hn. split; [|done]. destruct (RoundUpToPowerOfTwo_spec n Hn) as (k & Hk & E & _).
  split; [by cbn|exists k; cbn; split; [lia|done]|done].
Qed.

(** [Align] writes zeros up to the next position that is aligned. *)
Lemma Align_ok k offset st :
  wf st -> 0 <= k ->
  exists n st', Align (2 ^ k) offset st = Ok (Z.of_nat n, st') /\ written (repeat 0 n) st st' /\
    Z.of_nat n < 2 ^ k /\ (Position st' + offset) mod 2 ^ k = 0.
Proof.
  intros Hst Hk. unfold Align. cbv zeta. destruct (RoundUp_spec (Position st) k offset Hk) as [Hr Hm].
  set (after := RoundUp (Position st) (2 ^ k) offset) in *. set (len := after - Position st) in *.
  assert (Hfin : forall st', written (repeat 0 (Z.to_nat len)) st st' -> (Position st' + offset) mod 2 ^ k = 0).
  { intros st' (W & C & _). rewrite (wf_Position st' W), C, length_app, length_map, repeat_length.
    rewrite Nat2Z.inj_add, <- (wf_Position st Hst), Z2Nat.id by lia. unfold len.
    by replace (_ + (_ - _)) with after by lia. }
  destruct (len =? 0) eqn:E; reflect_bool; cbn [negb].
  - exists 0%nat, st. rewrite E.
    assert (W : written [] st st) by (split_and!; [done|by rewrite app_nil_r|done|done]).
    split_and!; [done|done|pose proof (pow2_pos k Hk); lia|]. apply Hfin. by rewrite E.
  - destruct (EnsureSpace_ok len st Hst) as [Hs Hrem]. set (st1 := EnsureSpace len st) in *.
    destruct (put_all_ok (repeat 0 (Z.to_nat len)) st1 (proj1 Hs)) as (st2 & E2 & W2 & F2 & P2 & C2);
      [rewrite repeat_length; lia|]. rewrite repeat_length, Z2Nat.id in P2 by lia.
    unfold clear. rewrite E2. destruct st2 as [c i b p f] eqn:Est2. cbn [mbind result_bind].
    assert (Wst : written (repeat 0 (Z.to_nat len)) st st2) by (rewrite Est2; by apply (written_same _ _ _ _ Hs)).
    exists (Z.to_nat len), st2. split_and!; [|done|lia|by apply Hfin]. rewrite Z2Nat.id, Est2 by lia. do 2 f_equal.
    assert (Epos : Position st1 = Position st).
    { rewrite (wf_Position st1 (proj1 Hs)), (wf_Position st Hst). by rewrite (proj1 (proj2 Hs)). }
    destruct W2 as (_ & _ & Kc & _). cbn [ws_class ws_flushed ws_position] in *.
    assert (Hset : forall v, v = p -> BaseSetPosition v (mkWriteStream c i b (ws_position st1) f) = mkWriteStream c i b p f).
    { intros v ->. unfold BaseSetPosition, EnsureSpace, BasePosition. cbn [ws_position].
      rewrite (proj2 (Z.leb_le _ _)); [done|]. unfold Remaining, BasePosition in *. cbn [ws_position].
      change (capacity (mkWriteStream c i b (ws_position st1) f)) with (capacity (mkWriteStream c i b p f)). lia. }
    change (Position st1) with (match ws_class st1 with
      | StreamingWriteStream => flushed_size st1 + BasePosition st1 | _ => BasePosition st1 end) in Epos.
    rewrite <- Kc in Epos. unfold SetPosition. cbn [ws_class].
    destruct c; apply Hset; unfold flushed_size, BasePosition in *; cbn [ws_flushed]; rewrite ?F2; unfold len in *; lia.
Qed.

Lemma EnsureSpace_doubles n st :
  wf st -> Remaining st < n -> 2 * capacity st <= capacity (EnsureSpace n st).
Proof.
  intros Hst Hr. pose proof (wf_position _ Hst) as Hp. destruct (wf_initial _ Hst) as (k & Hk & Ek).
  unfold EnsureSpace. rewrite (proj2 (Z.leb_gt _ _)) by lia. cbv zeta. rewrite Ek.
  destruct (RoundUp_spec n k 0 Hk) as [[Hr1 _] _]. unfold Remaining, BasePosition in Hr.
  set (increment := if capacity st <? n then _ else _).
  assert (Hinc : capacity st <= increment /\ 0 < increment).
  { unfold increment. destruct (capacity st <? n) eqn:El; [apply Z.ltb_lt in El|apply Z.ltb_ge in El]; lia. }
  unfold capacity in Hp, Hinc |- *. unfold Realloc. destruct (ws_class st).
  1,2: unfold capacity; cbn [ws_buffer]; rewrite resize_length; lia.
  cbv zeta. change (capacity (Flush st)) with (Z.of_nat (length (ws_buffer st))).
  rewrite (proj2 (Z.leb_gt _ _)) by (unfold capacity; lia).
  destruct (RoundUp_spec (capacity st + increment) 16 0) as [[Hr2 _] _]; [lia|]. change (2 ^ 16) with (64 * KB) in Hr2.
  unfold capacity in *. cbn [ws_buffer]. rewrite resize_length; lia.
Qed.

Lemma SetPosition_ok p st :
  wf st -> 0 <= p -> ws_class st <> StreamingWriteStream ->
  wf (SetPosition p st) /\ Position (SetPosition p st) = p /\
  take (Z.to_nat p) (contents (SetPosition p st)) = contents (SetPosition p st) /\
  (p <= Position st -> contents (SetPosition p st) = take (Z.to_nat p) (contents st)) /\
  fst (Steal st) = contents st.
Proof.
  intros Hst Hp Hc. destruct (EnsureSpace_ok (p - BasePosition st) st Hst) as [(Hw & Hcon & Hcl & Hin) Hr].
  assert (Es : SetPosition p st = BaseSetPosition p st) by (unfold SetPosition; by destruct (ws_class st)).
  assert (EP : forall s, ws_class s = ws_class st -> Position s = BasePosition s).
  { intros s E. unfold Position. rewrite E. by destruct (ws_class st). }
  rewrite Es. unfold BaseSetPosition. cbv zeta. set (s1 := EnsureSpace (p - BasePosition st) st) in *.
  pose proof (wf_flushed _ Hst Hc) as F. pose proof (wf_flushed _ Hw ltac:(by rewrite Hcl)) as F1.
  assert (Hroom : p <= capacity s1).
  { pose proof (wf_Position _ Hst) as P0. pose proof (wf_Position _ Hw) as P1. rewrite Hcon, <- P0 in P1.
    rewrite EP in P0, P1 by done. rewrite EP in P1 by done. unfold Remaining in Hr. lia. }
  split_and!.
  - split; cbn [ws_class ws_initial_size ws_buffer ws_position ws_flushed]; [|apply Hw|done]. unfold capacity. cbn. unfold capacity in Hroom. lia.
  - by rewrite EP.
  - unfold contents. cbn [ws_buffer ws_position ws_flushed]. rewrite F1. cbn [app]. rewrite take_take. f_equal. lia.
  - intros Hle. rewrite EP in Hle by done. unfold contents in *. cbn [ws_buffer ws_position ws_flushed].
    rewrite F1 in *. rewrite F in *. cbn [app] in *. rewrite <- Hcon, take_take.
    assert (E1 : ws_position s1 = ws_position st).
    { pose proof (wf_Position _ Hst) as P0. pose proof (wf_Position _ Hw) as P1. unfold contents in P0, P1.
      rewrite F in P0. rewrite F1 in P1. cbn [app] in P0, P1. rewrite Hcon, <- P0, !EP in P1 by done. done. }
    rewrite E1. unfold BasePosition in Hle. f_equal. lia.
  - unfold Steal. cbn [fst]. rewrite EP by done. unfold contents. by rewrite F.
Qed.
End WriteFacts.

(** ** Read streams *)

Module ReadFacts.
Import Read.
Implicit Types st : ReadStream.

(** The bytes that are left to read. *)
Definition pending (l : list Z) st : Prop :=
  0 <= rs_position st <= Z.of_nat (length (rs_buffer st)) /\ drop (Z.to_nat (rs_position st)) (rs_buffer st) = l.

(** [f] reads the bytes and returns the value. *)
Definition reads {A} (f : ReadStream -> stream_result (A * ReadStream)) (bs : list Z) (v : A) : Prop :=
  forall rest st, pending (bs ++ rest) st -> exists st', f st = Ok (v, st') /\ pending rest st'.

Lemma ReadByte_ok b l st : pending (b :: l) st -> exists st', ReadByte st = Ok (b, st') /\ pending l st'.
Proof.
  intros [Hp Hd]. unfold ReadByte. rewrite (proj2 (Z.leb_le 0 _)) by lia.
  assert (El : rs_buffer st !! Z.to_nat (rs_position st) = Some b).
  { rewrite <- (Nat.add_0_r (Z.to_nat _)), <- lookup_drop, Hd. done. }
  rewrite El. eexists. split; [reflexivity|]. unfold pending, Advance. cbn [rs_position rs_buffer].
  pose proof (lookup_lt_Some _ _ _ El). split; [lia|]. rewrite Z2Nat.inj_add, <- drop_drop, Hd by lia. done.
Qed.

Lemma pending_rounds l st : pending l st -> (length l < rounds st)%nat.
Proof.
  intros [Hp <-]. unfold rounds, PendingBytes. rewrite length_drop. lia.
Qed.

Lemma reads_ret {A B} (f : ReadStream -> stream_result (A * ReadStream)) bs v (g : A -> B) :
  reads f bs v -> reads (fun st => '(r, st) ← f st; Ok (g r, st)) bs (g v).
Proof.
  intros Hf rest st Hp. destruct (Hf rest st Hp) as (st' & -> & Hp'). exists st'. done.
Qed.

Lemma shift_left_ok w x s : 0 <= s < w -> shift_left w x s = Ok (uwrap w (x ≪ s)).
Proof. intros. unfold shift_left. by rewrite (proj2 (Z.leb_le 0 s)), (proj2 (Z.ltb_lt s w)) by lia. Qed.

(** *** Numbers that end with a marked byte *)

(** The code of a number: groups of seven bits, the rest of the number, from [lo] to [hi], with the marker. *)
Inductive coded (m lo hi : Z) : Z -> list Z -> Prop :=
| coded_last v : lo <= v <= hi -> coded m lo hi v [v + m]
| coded_more v bs : coded m lo hi (v ≫ 7) bs -> coded m lo hi v ((v .& 127) :: bs).

Section Coded.
Context (w m lo hi : Z) (Hw : 0 < w) (Hm : m + lo = 128 /\ m + hi = 255).

Lemma last_byte v : lo <= v <= hi -> 127 < v + m <= 255 /\ v + m - m = v.
Proof. lia. Qed.

Lemma group_lor r b v s :
  0 <= b < 128 -> 0 <= s ->
  r .| uwrap w (b ≪ s) .| uwrap w (v ≪ (s + 7)) = r .| uwrap w ((b + v * 128) ≪ s).
Proof. intros Hb Hs. rewrite lor_group by done. rewrite uwrap_lor by lia. by rewrite Z.lor_assoc. Qed.

Lemma uwrap_shiftl x s : 0 <= s -> uwrap w (uwrap w x ≪ s) = uwrap w (x ≪ s).
Proof. intros. rewrite !Z.shiftl_mul_pow2 by done. apply uwrap_mul_l. Qed.

Lemma Read_loop_ok v bs : coded m lo hi v bs ->
  forall rest fuel b r s st, 0 <= b < 128 -> pending (bs ++ rest) st -> (length bs <= fuel)%nat -> 0 <= s ->
  s + 7 * Z.of_nat (length bs) < w ->
  exists st', Read_loop fuel w m b r s st = Ok (r .| uwrap w ((b + v * 128) ≪ s), st') /\ pending rest st'.
Proof.
  induction 1 as [v Hv|v bs Hc IH]; intros rest fuel b r s st Hb Hp Hf Hs Hl; cbn [length app] in *;
    (destruct fuel as [|fuel]; [lia|]); cbn [Read_loop]; rewrite shift_left_ok by lia; cbn [mbind result_bind]; cbv zeta;
    destruct (ReadByte_ok _ _ _ Hp) as (st1 & -> & Hp1); cbn [mbind result_bind]; unfold kDataBitsPerByte, kMaxUnsignedDataPerByte.
  - change kByteMask with 127. destruct (last_byte v Hv) as [Hb1 Hb2].
    rewrite (proj2 (Z.leb_gt _ _)) by lia. rewrite Hb2, shift_left_ok by lia. cbn [mbind result_bind].
    exists st1. split; [|done]. rewrite uwrap_shiftl by lia. by rewrite group_lor.
  - change kByteMask with 127. pose proof (low_7 v). rewrite (proj2 (Z.leb_le _ _)) by lia.
    destruct (IH rest fuel (v .& 127) (r .| uwrap w (b ≪ s)) (s + 7) st1) as (st2 & -> & Hp2); [done|done|lia|lia|lia|].
    exists st2. split; [|done]. by rewrite split_7, group_lor.
Qed.

Lemma Read_marker_ok v bs :
  coded m lo hi v bs -> 7 * (Z.of_nat (length bs) - 1) < w -> reads (Read_marker w m) bs (uwrap w v).
Proof.
  intros Hc Hl rest st Hp. unfold Read_marker, kMaxUnsignedDataPerByte. change kByteMask with 127.
  inversion Hc as [v' Hv|v' bs' Hc']; subst; cbn [app length] in *;
    destruct (ReadByte_ok _ _ _ Hp) as (st1 & -> & Hp1); cbn [mbind result_bind].
  - destruct (last_byte v Hv) as [Hb1 Hb2]. rewrite (proj2 (Z.ltb_lt _ _)), Hb2 by lia. by exists st1.
  - pose proof (low_7 v). rewrite (proj2 (Z.ltb_ge _ _)) by lia.
    destruct (Read_loop_ok (v ≫ 7) bs' Hc' rest (rounds st1) (v .& 127) 0 0 st1) as (st2 & -> & Hp2);
      [lia|done|pose proof (pending_rounds _ _ Hp1) as Hr; rewrite length_app in Hr; lia|lia|lia|].
    exists st2. split; [|done]. by rewrite split_7, Z.shiftl_0_r, Z.lor_0_l.
Qed.
End Coded.

(** *** The unrolled readers *)

(** The positions of the bodies and of the end follow each other at a distance of seven. *)
Fixpoint positions (s : Z) (bodies : list Z) (last : Z) : Prop :=
  match bodies with
  | [] => last = s
  | p :: bodies => p = s /\ positions (s + 7) bodies last
  end.

Lemma is_u_uwrap w x : 0 <= w -> is_u w (uwrap w x).
Proof. apply uwrap_range. Qed.

Lemma unrolled_ok w m last : 0 < w -> last < w <= last + 7 -> forall bodies fuel b r s st x st',
  positions (s + 7) bodies last -> 0 <= s -> is_u w r ->
  Read_loop fuel w m b r s st = Ok (x, st') ->
  unrolled w m bodies last (uwrap w (r .| (b ≪ s))) st = Ok (x, st').
Proof.
  intros Hw Hlast. induction bodies as [|p bodies IH]; intros [|fuel] b r s st x st' Hpos Hs Hr E; try done;
    cbn [Read_loop positions unrolled] in *; unfold kDataBitsPerByte in *;
    (destruct (shift_left w b s) as [part|] eqn:Eb; [|done]); cbn [mbind result_bind] in *; cbv zeta in E;
    (destruct (ReadByte st) as [[c st1]|] eqn:Ec; [|done]); cbn [mbind result_bind] in *;
    unfold shift_left in Eb; (destruct (_ && _) in Eb; [|done]); injection Eb as <-;
    assert (Hu : is_u w (r .| uwrap w (b ≪ s))) by (apply is_u_lor; [lia|done|apply uwrap_range; lia]);
    (assert (Er : uwrap w (r .| (b ≪ s)) = r .| uwrap w (b ≪ s))
      by (rewrite uwrap_lor, (uwrap_small w r) by (done || lia); done));
    rewrite Er; clear Er; set (r1 := r .| uwrap w (b ≪ s)) in *;
    assert (El : forall y, uwrap w (r1 .| y) = r1 .| uwrap w y)
      by (intros y; rewrite uwrap_lor, (uwrap_small w r1) by (done || lia); done).
  - subst last. destruct (c <=? kMaxUnsignedDataPerByte).
    + exfalso. destruct fuel as [|fuel]; [done|]. cbn [Read_loop] in E.
      destruct (shift_left w c (s + 7)) as [part|]; [|done]. cbn [mbind result_bind] in E. cbv zeta in E.
      destruct (ReadByte st1) as [[d st2]|]; [|done]. cbn [mbind result_bind] in E.
      assert (Hbad : forall y, shift_left w y (s + 7 + 7) = Err (WideShift (s + 7 + 7))).
      { intros y. unfold shift_left. rewrite (proj2 (Z.ltb_ge _ _)) by lia. by rewrite andb_false_r. }
      unfold kDataBitsPerByte in E. destruct (d <=? kMaxUnsignedDataPerByte).
      * destruct fuel; [done|]. cbn [Read_loop] in E. by rewrite Hbad in E.
      * by rewrite Hbad in E.
    + unfold shift_left in E. destruct (_ && _) in E; [|done]. cbn [mbind result_bind] in E. injection E as <- <-. by rewrite El.
  - destruct Hpos as [-> Hpos]. rewrite Z.ltb_antisym.
    destruct (c <=? kMaxUnsignedDataPerByte); cbn [negb].
    + by apply (IH fuel c r1 (s + 7) st1); [|lia|..].
    + unfold shift_left in E. destruct (_ && _) in E; [|done]. cbn [mbind result_bind] in E. injection E as <- <-. by rewrite El.
Qed.

Lemma Read_unrolled_ok w m bodies last st x st' :
  8 <= w -> last < w <= last + 7 -> positions 7 bodies last ->
  (forall b st1, ReadByte st = Ok (b, st1) -> is_u 8 b) ->
  Read_marker w m st = Ok (x, st') -> Read_unrolled w m bodies last st = Ok (x, st').
Proof.
  intros Hw Hl Hpos Hb. unfold Read_marker, Read_unrolled. destruct (ReadByte st) as [[b st1]|] eqn:E; [|done].
  cbn [mbind result_bind]. destruct (kMaxUnsignedDataPerByte <? b) eqn:Eb; [done|]. intros Er.
  assert (Hu : is_u w b) by (apply (is_u_mono 8); [lia|by eapply Hb]).
  rewrite <- (uwrap_small w b Hu), <- (Z.lor_0_l b), <- (Z.shiftl_0_r b) at 1.
  eapply (unrolled_ok w m last); [lia|done|done|lia|unfold is_u; pose proof (pow2_pos w); lia|exact Er].
Qed.

(** *** Numbers whose bytes say whether more follow *)

(** The groups of seven bits of a number, from the lowest. *)
Inductive groups : Z -> list Z -> Prop :=
| groups_last v : groups v [v .& 127]
| groups_more v bs : groups (v ≫ 7) bs -> groups v (((v .& 127) .| 128) :: bs).

Lemma groups_length v bs : groups v bs -> (0 < length bs)%nat.
Proof. destruct 1; cbn; lia. Qed.

Lemma more_byte b : 0 <= b < 128 ->
  (b .| 128) .& 127 = b /\ negb ((b .| 128) .& 128 =? 0) = true /\ b .& 127 = b /\ negb (b .& 128 =? 0) = false.
Proof.
  intros Hb. assert (Hall : forallb (fun b => ((b .| 128) .& 127 =? b) && negb ((b .| 128) .& 128 =? 0)
    && (b .& 127 =? b) && (b .& 128 =? 0)) (seqZ 0 128) = true) by (vm_compute; reflexivity).
  rewrite forallb_forall in Hall. specialize (Hall b). rewrite <- list_elem_of_In, elem_of_seqZ in Hall.
  specialize (Hall ltac:(lia)). rewrite !andb_true_iff, !Z.eqb_eq in Hall. destruct Hall as [[[H1 H2] H3] H4].
  split_and!; [done|done|done|by rewrite H4].
Qed.

(** The low bits of a number, and those above. *)
Lemma uwrap_split k v : 0 <= k -> uwrap (7 + k) v = (v .& 127) + uwrap k (v ≫ 7) * 128.
Proof.
  intros Hk. rewrite land_127, Z.shiftr_div_pow2 by lia. unfold uwrap. change (2 ^ 7) with 128.
  rewrite Z.pow_add_r by lia. change (2 ^ 7) with 128. pose proof (pow2_pos k Hk).
  rewrite Z.rem_mul_r by lia. lia.
Qed.

Section Groups.
Context (w : Z) (Hw : 0 < w).

Lemma leb_loop_ok v bs : groups v bs ->
  forall rest fuel r s st, pending (bs ++ rest) st -> (length bs <= fuel)%nat -> 0 <= s ->
  let n := Z.of_nat (length bs) in
  s + 7 * (n - 1) < w ->
  exists st', leb_loop fuel w r s st
    = Ok (r .| uwrap w (uwrap (7 * n) v ≪ s), s + 7 * n, (v ≫ (7 * (n - 1))) .& 127, st') /\ pending rest st'.
Proof.
  induction 1 as [v|v bs Hg IH]; intros rest fuel r s st Hp Hf Hs n Hn; unfold n in *; clear n; cbn [length app] in *;
    (destruct fuel as [|fuel]; [lia|]); cbn [leb_loop];
    destruct (ReadByte_ok _ _ _ Hp) as (st1 & -> & Hp1); cbn [mbind result_bind]; cbv zeta;
    change LEB128.kDataByteMask with 127; change LEB128.kMoreDataMask with 128; unfold kDataBitsPerByte;
    pose proof (low_7 v) as H7; destruct (more_byte (v .& 127) H7) as (M1 & M2 & M3 & M4);
    rewrite shift_left_ok by lia; cbn [mbind result_bind].
  - rewrite M4, M3. exists st1. split; [|done]. change (7 * Z.of_nat 1) with 7. change (7 * (Z.of_nat 1 - 1)) with 0.
    assert (E7 : uwrap 7 v = v .& 127) by (by rewrite land_127). by rewrite E7, Z.shiftr_0_r.
  - rewrite M2, M1. pose proof (groups_length _ _ Hg).
    destruct (IH rest fuel (r .| uwrap w ((v .& 127) ≪ s)) (s + 7) st1) as (st2 & -> & Hp2); [done|lia|lia|lia|].
    exists st2. split; [|done]. rewrite group_lor by lia. rewrite <- uwrap_split by lia.
    rewrite Z.shiftr_shiftr by lia.
    replace (7 + 7 * Z.of_nat (length bs)) with (7 * Z.of_nat (S (length bs))) by lia.
    replace (s + 7 + 7 * Z.of_nat (length bs)) with (s + 7 * Z.of_nat (S (length bs))) by lia.
    by replace (7 + 7 * (Z.of_nat (length bs) - 1)) with (7 * (Z.of_nat (S (length bs)) - 1)) by lia.
Qed.
End Groups.

Lemma ReadLEB128_ok T v bs :
  0 < ct_bits T -> ct_in T v -> groups v bs -> 7 * (Z.of_nat (length bs) - 1) < ct_bits T ->
  0 <= v < 2 ^ (7 * Z.of_nat (length bs)) -> reads (ReadLEB128 T) bs v.
Proof.
  intros Hw Hin Hg Hl Hv rest st Hp. unfold ReadLEB128.
  destruct (leb_loop_ok (ct_bits T) Hw v bs Hg rest (rounds st) 0 0 st) as (st' & -> & Hp');
    [done|pose proof (pending_rounds _ _ Hp) as Hr; rewrite length_app in Hr; lia|lia|lia|].
  cbn [mbind result_bind]. exists st'. split; [|done]. rewrite Z.lor_0_l, Z.shiftl_0_r, (uwrap_small _ v) by done.
  assert (E : ct_cast T (uwrap (ct_bits T) v) = ct_cast T v).
  { unfold ct_cast. destruct (ct_signed T); [by apply swrap_uwrap|apply uwrap_uwrap]. }
  by rewrite E, ct_cast_id.
Qed.

(** The sign of a number is its highest bit. *)
Lemma stream_sign_bit n v : 0 < n -> is_s n v -> Z.testbit v (n - 1) = (v <? 0).
Proof.
  intros Hn Hv. unfold is_s in Hv. destruct (v <? 0) eqn:E; reflect_bool.
  - rewrite <- (Z.lnot_involutive v), Z.lnot_spec by lia. rewrite (testbit_high (n - 1)); [done| |lia].
    unfold is_u, Z.lnot. lia.
  - apply (testbit_high (n - 1)); [unfold is_u|]; lia.
Qed.

(** The last byte holds the sign. *)
Lemma last_sign n v : 0 < n -> is_s (7 * n) v -> negb (((v ≫ (7 * (n - 1))) .& 127) .& LEB128.kSignMask =? 0) = (v <? 0).
Proof.
  intros Hn Hv. rewrite <- (stream_sign_bit (7 * n)) by (done || lia). change LEB128.kSignMask with (2 ^ 6).
  rewrite <- Z.land_assoc. change (127 .& 2 ^ 6) with (2 ^ 6).
  assert (Et : Z.testbit v (7 * n - 1) = Z.testbit (v ≫ (7 * (n - 1))) 6) by (rewrite Z.shiftr_spec by lia; f_equal; lia).
  rewrite Et. set (x := v ≫ _). destruct (Z.testbit x 6) eqn:E.
  - apply negb_true_iff, Z.eqb_neq. intros Hz. apply (f_equal (fun y => Z.testbit y 6)) in Hz.
    by rewrite Z.land_spec, E in Hz.
  - apply negb_false_iff, Z.eqb_eq. apply Z.bits_inj'. intros i Hi. rewrite Z.land_spec, Z.bits_0, Z.pow2_bits_eqb by lia.
    destruct (6 =? i) eqn:Ei; reflect_bool; [by subst i; rewrite E|apply andb_false_r].
Qed.

(** Setting the bits above the groups of a negative number. *)
Lemma sign_extension w s v :
  0 < s <= w -> is_s s v -> v < 0 -> uwrap w (uwrap s v) .| uwrap w (Z.lnot (uwrap w (1 ≪ s) - 1)) = uwrap w v.
Proof.
  intros Hs Hv Hn. destruct (decide (s = w)) as [->|Hne].
  { rewrite uwrap_uwrap, Z.shiftl_1_l. unfold uwrap at 3. rewrite Z_mod_same_full. change (Z.lnot (0 - 1)) with 0.
    rewrite (uwrap_small w 0) by (unfold is_u; pose proof (pow2_pos w); lia). apply Z.lor_0_r. }
  rewrite Z.shiftl_1_l. assert (2 ^ s < 2 ^ w) by (apply Z.pow_lt_mono_r; lia). pose proof (pow2_pos s ltac:(lia)).
  rewrite (uwrap_small w (2 ^ s)), <- uwrap_lor by (unfold is_u; lia). apply (f_equal (uwrap w)).
  apply Z.bits_inj'. intros i Hi. replace (2 ^ s - 1) with (Z.ones s) by (rewrite Z.ones_equiv; lia).
  rewrite Z.lor_spec, Z.lnot_spec, Z.testbit_ones_nonneg by lia. unfold uwrap.
  destruct (i <? s) eqn:Ei; reflect_bool; cbn [negb].
  - by rewrite Z.mod_pow2_bits_low, orb_false_r by lia.
  - rewrite orb_true_r. symmetry. rewrite <- (Z.lnot_involutive v), Z.lnot_spec by lia.
    rewrite (testbit_high s); [done| |lia]. unfold is_s in Hv. pose proof (pow2_split s ltac:(lia)).
    unfold is_u, Z.lnot. lia.
Qed.

Lemma ReadSLEB128_ok T v bs :
  let x := swrap (ct_bits T) v in
  0 < ct_bits T -> ct_in T v -> groups x bs -> 7 * (Z.of_nat (length bs) - 1) < ct_bits T ->
  is_s (7 * Z.of_nat (length bs)) x -> reads (ReadSLEB128 T) bs v.
Proof.
  intros x Hw Hin Hg Hl Hs rest st Hp. unfold ReadSLEB128. cbv zeta. set (w := ct_bits T) in *.
  pose proof (groups_length _ _ Hg) as Hn.
  destruct (leb_loop_ok w Hw x bs Hg rest (rounds st) 0 0 st) as (st' & -> & Hp');
    [done|pose proof (pending_rounds _ _ Hp) as Hr; rewrite length_app in Hr; lia|lia|lia|].
  cbn [mbind result_bind]. exists st'. split; [|done]. rewrite Z.lor_0_l, Z.shiftl_0_r, Z.add_0_l.
  set (n := Z.of_nat (length bs)) in *. rewrite last_sign by (done || lia).
  assert (Ex : uwrap w x = uwrap w v) by (unfold x; apply uwrap_swrap; lia).
  assert (E : uwrap w (uwrap (7 * n) x) .| (if (x <? 0) && (7 * n <? w) then uwrap w (Z.lnot (uwrap w (1 ≪ (7 * n)) - 1)) else 0)
    = uwrap w v).
  { destruct (x <? 0) eqn:Es; reflect_bool; cbn [andb].
    - destruct (7 * n <? w) eqn:El; reflect_bool.
      + rewrite sign_extension by (done || lia). done.
      + rewrite Z.lor_0_r, uwrap_le by lia. done.
    - rewrite Z.lor_0_r, (uwrap_small (7 * n)); [done|]. unfold is_s, is_u in *.
      pose proof (pow2_split (7 * n) ltac:(lia)). lia. }
  rewrite E. assert (Ec : ct_cast T (uwrap w v) = ct_cast T v).
  { unfold ct_cast. destruct (ct_signed T); [by apply swrap_uwrap|apply uwrap_uwrap]. }
  by rewrite Ec, ct_cast_id.
Qed.
End ReadFacts.

(** ** The writers of numbers *)

Module CodecFacts.
Import Write WriteFacts ReadFacts.

Lemma appends_ext f g bs : (forall st, f st = g st) -> appends g bs -> appends f bs.
Proof. intros E Hg st Hst. rewrite E. by apply Hg. Qed.

Lemma shift_7 v : v ≫ 7 = v / 128.
Proof. by rewrite Z.shiftr_div_pow2. Qed.

Lemma group_byte v : is_u 8 (v .& 127) /\ is_u 8 ((v .& 127) .| 128).
Proof.
  pose proof (low_7 v). assert (is_u 8 (v .& 127)) by (unfold is_u; lia). split; [done|].
  apply is_u_lor; [lia|done|done].
Qed.

(** One group less. *)
Lemma shrink v a b k :
  0 <= k -> a * 2 ^ (7 * (k + 1)) <= v < b * 2 ^ (7 * (k + 1)) -> a * 2 ^ (7 * k) <= v ≫ 7 < b * 2 ^ (7 * k).
Proof.
  intros Hk Hv. rewrite shift_7. replace (7 * (k + 1)) with (7 + 7 * k) in Hv by lia.
  rewrite Z.pow_add_r in Hv by lia. change (2 ^ 7) with 128 in Hv. pose proof (pow2_pos (7 * k)).
  split; [apply Z.div_le_lower_bound|apply Z.div_lt_upper_bound]; lia.
Qed.

Lemma WriteUnsigned_ok (k : nat) : forall f v, (k <= f)%nat -> 0 <= v < 128 * 2 ^ (7 * Z.of_nat k) ->
  exists bs, coded 128 0 127 v bs /\ (length bs <= S k)%nat /\ appends (WriteUnsigned_loop f v) bs.
Proof.
  induction k as [|k IH]; intros f v Hf Hv; (destruct (127 <? v) eqn:E;
    [apply Z.ltb_lt in E|apply Z.ltb_ge in E; exists [v + 128]; split_and!; [constructor; lia|cbn; lia|];
      apply (appends_ext _ (WriteByte (v + 128))); [|apply WriteByte_appends; unfold is_u; lia];
      intros st; destruct f; cbn [WriteUnsigned_loop]; change kMaxUnsignedDataPerByte with 127;
      change kEndUnsignedByteMarker with 128; rewrite (proj2 (Z.ltb_ge 127 v)) by lia; done]).
  - cbn in Hv. lia.
  - destruct f as [|f]; [lia|]. destruct (IH f (v ≫ 7)) as (bs & Hc & Hl & Ha); [lia| |].
    { pose proof (shrink v 0 128 (Z.of_nat k) ltac:(lia)). rewrite Nat2Z.inj_succ in Hv. unfold Z.succ in Hv. lia. }
    exists ((v .& 127) :: bs). split_and!; [by constructor|cbn; lia|].
    apply (appends_ext _ (fun st => st ← WriteByte (v .& 127) st; WriteUnsigned_loop f (v ≫ 7) st)).
    + intros st. cbn [WriteUnsigned_loop]. change kMaxUnsignedDataPerByte with 127. change kByteMask with 127.
      by rewrite (proj2 (Z.ltb_lt 127 v)) by lia.
    + apply (appends_bind _ _ [_]); [|done]. apply WriteByte_appends, group_byte.
Qed.

Lemma Write_ok (k : nat) : forall f v, (k <= f)%nat -> -64 * 2 ^ (7 * Z.of_nat k) <= v < 64 * 2 ^ (7 * Z.of_nat k) ->
  exists bs, coded 192 (-64) 63 v bs /\ (length bs <= S k)%nat /\ appends (Write_loop f v) bs.
Proof.
  induction k as [|k IH]; intros f v Hf Hv; (destruct ((v <? -64) || (63 <? v)) eqn:E;
    [|apply orb_false_iff in E as [E1%Z.ltb_ge E2%Z.ltb_ge]; exists [v + 192]; split_and!; [constructor; lia|cbn; lia|];
      apply (appends_ext _ (WriteByte (v + 192))); [|apply WriteByte_appends; unfold is_u; lia];
      intros st; destruct f; cbn [Write_loop]; change kMinDataPerByte with (-64); change kMaxDataPerByte with 63;
      change kEndByteMarker with 192; rewrite (proj2 (Z.ltb_ge v (-64))), (proj2 (Z.ltb_ge 63 v)) by lia; done]).
  - apply orb_true_iff in E. rewrite !Z.ltb_lt in E. cbn in Hv. lia.
  - destruct f as [|f]; [lia|]. destruct (IH f (v ≫ 7)) as (bs & Hc & Hl & Ha); [lia| |].
    { pose proof (shrink v (-64) 64 (Z.of_nat k) ltac:(lia)). rewrite Nat2Z.inj_succ in Hv. unfold Z.succ in Hv. lia. }
    exists ((v .& 127) :: bs). split_and!; [by constructor|cbn; lia|].
    apply (appends_ext _ (fun st => st ← WriteByte (v .& 127) st; Write_loop f (v ≫ 7) st)).
    + intros st. cbn [Write_loop]. change kMinDataPerByte with (-64). change kMaxDataPerByte with 63.
      change kByteMask with 127. by rewrite E.
    + apply (appends_bind _ _ [_]); [|done]. apply WriteByte_appends, group_byte.
Qed.

Lemma WriteLEB128_ok (k : nat) : forall f v, (k < f)%nat -> 0 <= v < 128 * 2 ^ (7 * Z.of_nat k) ->
  exists bs, groups v bs /\ (length bs <= S k)%nat /\ v < 2 ^ (7 * Z.of_nat (length bs)) /\
    appends (WriteLEB128_loop f v) bs.
Proof.
  induction k as [|k IH]; intros f v Hf Hv; (destruct f as [|f]; [lia|]);
    (destruct (v ≫ 7 =? 0) eqn:E;
      [exists [v .& 127]; split_and!; [constructor|cbn; lia|apply Z.eqb_eq in E; rewrite shift_7 in E;
         apply Z.div_small_iff in E; cbn [length]; lia|];
       apply (appends_ext _ (WriteByte (v .& 127))); [|apply WriteByte_appends, group_byte];
       intros st; cbn [WriteLEB128_loop]; unfold kDataBitsPerByte; by rewrite E|]).
  - apply Z.eqb_neq in E. exfalso. apply E. rewrite shift_7. apply Z.div_small. cbn in Hv. lia.
  - destruct (IH f (v ≫ 7)) as (bs & Hg & Hl & Hb & Ha); [lia| |].
    { pose proof (shrink v 0 128 (Z.of_nat k) ltac:(lia)). rewrite Nat2Z.inj_succ in Hv. unfold Z.succ in Hv. lia. }
    exists (((v .& 127) .| 128) :: bs). split_and!; [by constructor|cbn; lia| |].
    + cbn [length]. rewrite shift_7 in Hb. rewrite Nat2Z.inj_succ. unfold Z.succ.
      replace (7 * (Z.of_nat (length bs) + 1)) with (7 + 7 * Z.of_nat (length bs)) by lia.
      rewrite Z.pow_add_r by lia. change (2 ^ 7) with 128.
      pose proof (Z.div_mod v 128 ltac:(lia)). pose proof (Z.mod_pos_bound v 128 ltac:(lia)). lia.
    + apply (appends_ext _ (fun st => st ← WriteByte ((v .& 127) .| 128) st; WriteLEB128_loop f (v ≫ 7) st)).
      * intros st. cbn [WriteLEB128_loop]. unfold kDataBitsPerByte. by rewrite E.
      * apply (appends_bind _ _ [_]); [|done]. apply WriteByte_appends, group_byte.
Qed.

(** The test for the last part of a signed number. *)
Lemma last_part v :
  (if v <? 0 then (v ≫ 7 =? -1) && negb ((v .& 127) .& LEB128.kSignMask =? 0)
   else (v ≫ 7 =? 0) && ((v .& 127) .& LEB128.kSignMask =? 0)) = (-64 <=? v) && (v <=? 63).
Proof.
  destruct (decide (-128 <= v < 128)) as [Hv|Hv].
  - assert (Hall : forallb (fun v => bool_decide ((if v <? 0 then (v ≫ 7 =? -1) && negb ((v .& 127) .& LEB128.kSignMask =? 0)
      else (v ≫ 7 =? 0) && ((v .& 127) .& LEB128.kSignMask =? 0)) = (-64 <=? v) && (v <=? 63))) (seqZ (-128) 256) = true)
      by (vm_compute; reflexivity).
    rewrite forallb_forall in Hall. specialize (Hall v). rewrite <- list_elem_of_In, elem_of_seqZ in Hall.
    apply (bool_decide_eq_true_1 _), Hall. lia.
  - assert (E : (-64 <=? v) && (v <=? 63) = false) by (apply andb_false_iff; rewrite !Z.leb_gt; lia).
    rewrite E, shift_7. pose proof (Z.div_mod v 128 ltac:(lia)). pose proof (Z.mod_pos_bound v 128 ltac:(lia)).
    destruct (v <? 0); apply andb_false_iff; left; apply Z.eqb_neq; lia.
Qed.

(** Setting the upper bits of a negative number that has them does nothing. *)
Lemma sign_extend_same w y :
  7 < w -> - 2 ^ (w - 7) <= y < 0 -> y .| Z.lnot (swrap w (uwrap w (1 ≪ (w - 7)) - 1)) = y.
Proof.
  intros Hw Hy. rewrite Z.shiftl_1_l.
  assert (2 ^ (w - 7) < 2 ^ (w - 1)) by (apply Z.pow_lt_mono_r; lia). pose proof (pow2_split w ltac:(lia)).
  rewrite (uwrap_small w) by (unfold is_u; lia). rewrite swrap_small by (unfold is_s; lia).
  replace (2 ^ (w - 7) - 1) with (Z.ones (w - 7)) by (rewrite Z.ones_equiv; lia).
  apply Z.bits_inj'. intros i Hi. rewrite Z.lor_spec, Z.lnot_spec, Z.testbit_ones_nonneg by lia.
  destruct (i <? w - 7) eqn:E; cbn [negb]; [by rewrite orb_false_r|]. apply Z.ltb_ge in E. rewrite orb_true_r. symmetry.
  rewrite <- (Z.lnot_involutive y), Z.lnot_spec by lia. rewrite (testbit_high (w - 7)); [done| |lia].
  unfold is_u, Z.lnot. lia.
Qed.

Lemma WriteSLEB128_ok w (k : nat) : 7 < w -> forall f v, (k < f)%nat -> is_s w v ->
  -64 * 2 ^ (7 * Z.of_nat k) <= v < 64 * 2 ^ (7 * Z.of_nat k) ->
  exists bs, groups v bs /\ (length bs <= S k)%nat /\ is_s (7 * Z.of_nat (length bs)) v /\
    appends (WriteSLEB128_loop f w (v <? 0) v) bs.
Proof.
  intros Hw. induction k as [|k IH]; intros f v Hf Hs Hv; (destruct f as [|f]; [lia|]);
    (assert (Hrem : (if v <? 0 then (v ≫ 7) .| Z.lnot (swrap w (uwrap w (1 ≪ (w - 7)) - 1)) else v ≫ 7) = v ≫ 7);
      [destruct (v <? 0) eqn:En; [|done]; apply Z.ltb_lt in En; apply sign_extend_same; [done|];
       unfold is_s in Hs; assert (2 ^ (w - 1) = 2 ^ (w - 8) * 128)
         by (change 128 with (2 ^ 7); rewrite <- Z.pow_add_r by lia; f_equal; lia);
       assert (2 ^ (w - 8) <= 2 ^ (w - 7)) by (apply Z.pow_le_mono_r; lia);
       rewrite shift_7; split; [apply Z.div_le_lower_bound|apply Z.div_lt_upper_bound]; lia|]);
    (assert (Eloop : forall st, WriteSLEB128_loop (S f) w (v <? 0) v st =
        (if (-64 <=? v) && (v <=? 63) then WriteByte (v .& 127) st
         else st ← WriteByte ((v .& 127) .| 128) st; WriteSLEB128_loop f w (v <? 0) (v ≫ 7) st));
      [intros st; cbn [WriteSLEB128_loop]; unfold kDataBitsPerByte; change LEB128.kDataByteMask with 127;
       rewrite Hrem, last_part; done|]);
    (destruct ((-64 <=? v) && (v <=? 63)) eqn:E;
      [exists [v .& 127]; split_and!; [constructor|cbn; lia|
         apply andb_true_iff in E as [E1%Z.leb_le E2%Z.leb_le]; unfold is_s; cbn; lia|
         apply (appends_ext _ _ _ Eloop), WriteByte_appends, group_byte]|]).
  - apply andb_false_iff in E. rewrite !Z.leb_gt in E. cbn in Hv. lia.
  - assert (En : (v ≫ 7 <? 0) = (v <? 0)).
    { rewrite shift_7. pose proof (Z.div_mod v 128 ltac:(lia)). pose proof (Z.mod_pos_bound v 128 ltac:(lia)).
      apply Bool.eq_iff_eq_true. rewrite !Z.ltb_lt. lia. }
    destruct (IH f (v ≫ 7)) as (bs & Hg & Hl & Hb & Ha); [lia| | |].
    { unfold is_s in *. rewrite shift_7. split; [apply Z.div_le_lower_bound|apply Z.div_lt_upper_bound]; lia. }
    { pose proof (shrink v (-64) 64 (Z.of_nat k) ltac:(lia)). rewrite Nat2Z.inj_succ in Hv. unfold Z.succ in Hv. lia. }
    exists (((v .& 127) .| 128) :: bs). split_and!; [by constructor|cbn; lia| |].
    + cbn [length]. unfold is_s in *. pose proof (groups_length _ _ Hg). rewrite shift_7 in Hb.
      assert (Ep : 2 ^ (7 * Z.of_nat (S (length bs)) - 1) = 128 * 2 ^ (7 * Z.of_nat (length bs) - 1))
        by (change 128 with (2 ^ 7); rewrite <- Z.pow_add_r by lia; f_equal; lia).
      pose proof (Z.div_mod v 128 ltac:(lia)). pose proof (Z.mod_pos_bound v 128 ltac:(lia)). lia.
    + apply (appends_ext _ _ _ Eloop), (appends_bind _ _ [_]); [apply WriteByte_appends, group_byte|]. by rewrite <- En.
Qed.

(** The rounds a type of [w] bits needs. *)
Lemma round_count w : 8 <= w <= 64 ->
  exists k : nat, (k < kRounds)%nat /\ 7 * Z.of_nat k < w /\ 2 ^ w <= 128 * 2 ^ (7 * Z.of_nat k) /\
    2 ^ (w - 1) <= 64 * 2 ^ (7 * Z.of_nat k).
Proof.
  intros Hw. exists (Z.to_nat ((w - 1) / 7)). unfold kRounds.
  pose proof (Z.div_mod (w - 1) 7 ltac:(lia)). pose proof (Z.mod_pos_bound (w - 1) 7 ltac:(lia)).
  rewrite Z2Nat.id by lia. split_and!; [lia|lia|..].
  - change 128 with (2 ^ 7). rewrite <- Z.pow_add_r by lia. apply Z.pow_le_mono_r; lia.
  - change 64 with (2 ^ 6). rewrite <- Z.pow_add_r by lia. apply Z.pow_le_mono_r; lia.
Qed.

(** A writer and a reader that belong together. *)
Definition codec (write : WriteStream -> stream_result WriteStream)
    (read : ReadStream -> stream_result (Z * ReadStream)) (v : Z) : Prop :=
  exists bs, Forall (is_u 8) bs /\ appends write bs /\ reads read bs v.

Lemma coded_bytes m lo hi v bs : m + lo = 128 -> m + hi = 255 -> coded m lo hi v bs -> Forall (is_u 8) bs.
Proof.
  intros H1 H2. induction 1; constructor; try done; [unfold is_u; lia|apply group_byte].
Qed.
Lemma groups_bytes v bs : groups v bs -> Forall (is_u 8) bs.
Proof. induction 1; constructor; try done; apply group_byte. Qed.

Lemma cast_uwrap T v : 0 < ct_bits T -> ct_in T v -> ct_cast T (uwrap (ct_bits T) v) = v.
Proof.
  intros Hw Hv. rewrite <- (ct_cast_id T v Hw Hv) at 2. unfold ct_cast.
  destruct (ct_signed T); [by apply swrap_uwrap|apply uwrap_uwrap].
Qed.

Section Codecs.
Context (T : ctype) (v : Z) (HT : 8 <= ct_bits T <= 64) (Hv : ct_in T v).

Lemma signed_codec : ct_signed T = true -> codec (Write v) (Read.Read T) v.
Proof.
  intros Hs. unfold ct_in in Hv. rewrite Hs in Hv. unfold is_s in Hv.
  destruct (round_count (ct_bits T) HT) as (k & Hk & Hw & _ & Hb).
  destruct (Write_ok k kRounds v) as (bs & Hc & Hl & Ha); [lia|lia|]. exists bs.
  split_and!; [by eapply coded_bytes; [| |exact Hc]|done|].
  rewrite <- (cast_uwrap T v) by (lia || by unfold ct_in; rewrite Hs).
  apply (reads_ret _ bs (uwrap (ct_bits T) v)), (Read_marker_ok _ _ (-64) 63); [lia|done|done|lia].
Qed.

Lemma unsigned_codec : 0 <= v -> codec (WriteUnsigned v) (Read.ReadUnsigned T) v.
Proof.
  intros H0. destruct (round_count (ct_bits T) HT) as (k & Hk & Hw & Hb & _).
  assert (Hlt : v < 2 ^ ct_bits T).
  { unfold ct_in, is_s, is_u in Hv. pose proof (pow2_split (ct_bits T) ltac:(lia)). destruct (ct_signed T); lia. }
  destruct (WriteUnsigned_ok k kRounds v) as (bs & Hc & Hl & Ha); [lia|lia|]. exists bs.
  split_and!; [by eapply coded_bytes; [| |exact Hc]|done|].
  rewrite <- (cast_uwrap T v) by (done || lia).
  apply (reads_ret _ bs (uwrap (ct_bits T) v)), (Read_marker_ok _ _ 0 127); [lia|done|done|lia].
Qed.

Lemma leb_codec : 0 <= v -> codec (WriteLEB128 T v) (Read.ReadLEB128 T) v.
Proof.
  intros H0. destruct (round_count (ct_bits T) HT) as (k & Hk & Hw & Hb & _).
  assert (Hlt : v < 2 ^ ct_bits T).
  { unfold ct_in, is_s, is_u in Hv. pose proof (pow2_split (ct_bits T) ltac:(lia)). destruct (ct_signed T); lia. }
  destruct (WriteLEB128_ok k kRounds v) as (bs & Hg & Hl & Hbs & Ha); [lia|lia|]. exists bs.
  split_and!; [by eapply groups_bytes| |].
  - unfold WriteLEB128. by rewrite (uwrap_small _ v) by done.
  - apply ReadLEB128_ok; [lia|done|done|lia|done].
Qed.

Lemma sleb_codec : codec (WriteSLEB128 T v) (Read.ReadSLEB128 T) v.
Proof.
  destruct (round_count (ct_bits T) HT) as (k & Hk & Hw & _ & Hb).
  pose proof (swrap_range (ct_bits T) v ltac:(lia)) as Hx. unfold WriteSLEB128. cbv zeta.
  set (x := swrap (ct_bits T) v) in *.
  destruct (WriteSLEB128_ok (ct_bits T) k ltac:(lia) kRounds x) as (bs & Hg & Hl & Hbs & Ha); [lia|done|unfold is_s in Hx; lia|].
  exists bs. split_and!; [by eapply groups_bytes|done|]. apply ReadSLEB128_ok; [lia|done|done|lia|done].
Qed.
End Codecs.

Lemma raw_codec T v :
  ct_bits T ∈ [8; 16; 32; 64] -> ct_in T v -> codec (Raw T v) (Read.Raw T) v.
Proof.
  intros HT Hv. assert (Hw : 8 <= ct_bits T <= 64) by (rewrite !elem_of_cons, elem_of_nil in HT; lia).
  destruct (decide (ct_bits T = 8)) as [E8|E8].
  { exists [uwrap 8 v]. pose proof (uwrap_range 8 v ltac:(lia)) as Hb. split_and!; [by apply Forall_singleton| |].
    - eapply appends_ext; [|by apply WriteByte_appends]. intros st. unfold Raw. rewrite E8. done.
    - pose proof (cast_uwrap T v ltac:(lia) Hv) as Ec. rewrite E8 in Ec. intros rest st Hp. unfold Read.Raw. rewrite E8. cbn [Z.eqb Pos.eqb]. cbn [app] in Hp.
      destruct (ReadByte_ok _ _ _ Hp) as (st' & -> & Hp'). cbn [mbind result_bind]. rewrite Ec. by exists st'. }
  destruct (round_count (ct_bits T) Hw) as (k & Hk & Hk7 & _ & Hb).
  pose proof (swrap_range (ct_bits T) v ltac:(lia)) as Hs. unfold is_s in Hs.
  destruct (Write_ok k kRounds (swrap (ct_bits T) v)) as (bs & Hc & Hl & Ha); [lia|lia|].
  pose proof (coded_bytes 192 (-64) 63 _ _ eq_refl eq_refl Hc) as Hbytes. exists bs. split_and!; [done| |].
  - eapply appends_ext; [|exact Ha]. intros st. unfold Raw. by rewrite (proj2 (Z.eqb_neq _ 8) E8).
  - rewrite <- (cast_uwrap T v) by (done || lia). intros rest st Hp.
    destruct (Read_marker_ok (ct_bits T) 192 (-64) 63 ltac:(lia) ltac:(done) _ bs Hc ltac:(lia) rest st Hp) as (st' & Em & Hp').
    rewrite uwrap_swrap in Em by lia. exists st'. split; [|done]. unfold Read.Raw.
    rewrite (proj2 (Z.eqb_neq _ 8) E8).
    assert (Hfirst : forall b st1, Read.ReadByte st = Ok (b, st1) -> is_u 8 b).
    { intros b st1 Eb. destruct Hc as [v' ?|v' bs' ?]; cbn [app] in Hp;
        destruct (ReadByte_ok _ _ _ Hp) as (st2 & Eb' & _); rewrite Eb in Eb'; injection Eb' as -> _;
        by inversion Hbytes. }
    rewrite !elem_of_cons, elem_of_nil in HT. destruct HT as [?|[E|[E|[E|[]]]]]; [lia|..]; rewrite E in *.
    + cbn [Z.eqb Pos.eqb]. unfold Read.Read16. erewrite Read_unrolled_ok; [done|lia|lia|by cbn|done|exact Em].
    + cbn [Z.eqb Pos.eqb]. unfold Read.Read32. erewrite Read_unrolled_ok; [done|lia|lia|by cbn|done|exact Em].
    + cbn [Z.eqb Pos.eqb]. unfold Read.Read64. erewrite Read_unrolled_ok; [done|lia|lia|by cbn|done|exact Em].
Qed.

Lemma word_codec v : is_u 64 v -> codec (WriteWordWith32BitWrites v) Read.ReadWordWith32BitReads v.
Proof.
  intros Hv. pose proof (uwrap_range 32 v ltac:(lia)). pose proof (uwrap_range 32 (v ≫ 32) ltac:(lia)).
  destruct (raw_codec uint32_t (u32 v)) as (b1 & F1 & A1 & R1); [by right; right; left|done|].
  destruct (raw_codec uint32_t (u32 (v ≫ 32))) as (b2 & F2 & A2 & R2); [by right; right; left|done|].
  exists (b1 ++ b2). split_and!; [by apply Forall_app|by apply appends_bind|].
  intros rest st Hp. rewrite <- app_assoc in Hp. unfold Read.ReadWordWith32BitReads.
  destruct (R1 _ _ Hp) as (st1 & -> & Hp1). cbn [mbind result_bind]. destruct (R2 _ _ Hp1) as (st2 & -> & Hp2).
  cbn [mbind result_bind]. exists st2. split; [|done]. rewrite Z.lor_0_l, Z.shiftl_0_r. do 2 f_equal.
  unfold is_u in Hv. rewrite (uwrap_small 64 (u32 v)) by (unfold is_u; lia). rewrite Z.shiftl_mul_pow2 by lia.
  rewrite (uwrap_small 64 (_ * _)) by (unfold is_u; lia).
  assert (Eh : u32 (v ≫ 32) = v / 2 ^ 32).
  { rewrite Z.shiftr_div_pow2 by lia. apply uwrap_small. unfold is_u. split; [apply Z.div_pos; lia|].
    apply Z.div_lt_upper_bound; lia. }
  assert (En : u32 v .& (u32 (v ≫ 32) * 2 ^ 32) = 0).
  { apply Z.bits_inj'. intros i Hi. rewrite Z.land_spec, Z.bits_0, Z.mul_pow2_bits by lia.
    destruct (decide (i < 32)); [rewrite (Z.testbit_neg_r _ (i - 32)) by lia; apply andb_false_r|].
    by rewrite (testbit_high 32 (u32 v)) by (done || lia). }
  rewrite <- Z.lxor_lor, <- Z.add_nocarry_lxor, Eh by done. unfold uwrap.
  pose proof (Z.div_mod v (2 ^ 32) ltac:(lia)). lia.
Qed.

(** *** References *)

Lemma put_if_ok (c : bool) b st : wf st -> 1 <= Remaining st ->
  exists st', put_if c b st = Ok st' /\ written (if c then [b] else []) st st' /\ Remaining st - 1 <= Remaining st'.
Proof.
  intros Hst Hr. unfold put_if. destruct c.
  - destruct (put_ok b st Hst Hr) as (st' & E & W & F & P & C). exists st'. split_and!; [done|done|].
    unfold Remaining, BasePosition. lia.
  - exists st. split_and!; [done|split_and!; [done|by rewrite app_nil_r|done|done]|lia].
Qed.

Definition ref_bytes (v : Z) : list Z :=
  (if negb (v ≫ 21 =? 0) then [(v ≫ 21) .& 127] else []) ++
  (if negb (v ≫ 14 =? 0) then [(v ≫ 14) .& 127] else []) ++
  (if negb (v ≫ 7 =? 0) then [(v ≫ 7) .& 127] else []) ++ [(v .& 127) .| 128].

Lemma WriteRefId_appends v : appends (WriteRefId v) (ref_bytes v).
Proof.
  intros st Hst. unfold WriteRefId. cbv zeta. destruct (EnsureSpace_ok 4 st Hst) as [Hs Hr].
  destruct (put_if_ok (negb (v ≫ 21 =? 0)) ((v ≫ 21) .& 127) _ (proj1 Hs) ltac:(lia)) as (s1 & -> & W1 & R1).
  cbn [mbind result_bind].
  destruct (put_if_ok (negb (v ≫ 14 =? 0)) ((v ≫ 14) .& 127) _ (proj1 W1) ltac:(lia)) as (s2 & -> & W2 & R2).
  cbn [mbind result_bind].
  destruct (put_if_ok (negb (v ≫ 7 =? 0)) ((v ≫ 7) .& 127) _ (proj1 W2) ltac:(lia)) as (s3 & -> & W3 & R3).
  cbn [mbind result_bind].
  destruct (put_ok (((v ≫ 0) .& 127) .| 128) s3 (proj1 W3) ltac:(lia)) as (s4 & -> & W4 & _).
  rewrite Z.shiftr_0_r in W4. exists s4. split; [done|]. apply (written_same _ _ _ _ Hs).
  eapply written_trans; [exact W1|]. eapply written_trans; [exact W2|]. by eapply written_trans; [exact W3|].
Qed.

(** The signed values of the bytes. *)
Lemma ref_byte b : 0 <= b < 128 -> swrap 8 b = b /\ swrap 8 (b .| 128) = b - 128.
Proof.
  intros Hb. assert (Hall : forallb (fun b => (swrap 8 b =? b) && (swrap 8 (b .| 128) =? b - 128)) (seqZ 0 128) = true)
    by (vm_compute; reflexivity).
  rewrite forallb_forall in Hall. specialize (Hall b). rewrite <- list_elem_of_In, elem_of_seqZ in Hall.
  specialize (Hall ltac:(lia)). by rewrite andb_true_iff, !Z.eqb_eq in Hall.
Qed.

Lemma ref_stage_more n b l r st : 0 <= b < 128 -> pending (b :: l) st ->
  exists st', Read.ref_stages (S n) r st = Read.ref_stages n (b + r * 128) st' /\ pending l st'.
Proof.
  intros Hb Hp. cbn [Read.ref_stages]. destruct (ReadByte_ok _ _ _ Hp) as (st' & -> & Hp'). cbn [mbind result_bind]. cbv zeta.
  rewrite (proj1 (ref_byte b Hb)), (proj2 (Z.ltb_ge b 0)), Z.shiftl_mul_pow2 by lia. by exists st'.
Qed.
Lemma ref_stage_last n b l r st : 0 <= b < 128 -> pending ((b .| 128) :: l) st ->
  exists st', Read.ref_stages (S n) r st = Ok (b - 128 + r * 128, st') /\ pending l st'.
Proof.
  intros Hb Hp. cbn [Read.ref_stages]. destruct (ReadByte_ok _ _ _ Hp) as (st' & -> & Hp'). cbn [mbind result_bind]. cbv zeta.
  rewrite (proj2 (ref_byte b Hb)), (proj2 (Z.ltb_lt (b - 128) 0)), Z.shiftl_mul_pow2 by lia. by exists st'.
Qed.

Ltac ref_more B :=
  match goal with
  | Hp : pending _ ?st |- context [Read.ref_stages (S ?n) ?r ?st] =>
      destruct (ref_stage_more n _ _ r st B Hp) as (? & -> & ?); clear Hp
  end.
Ltac ref_last B :=
  match goal with
  | Hp : pending _ ?st |- context [Read.ref_stages (S ?n) ?r ?st] =>
      destruct (ref_stage_last n _ _ r st B Hp) as (? & -> & ?); cbn [mbind result_bind]
  end.

Lemma ref_codec v : is_u 28 v -> codec (WriteRefId v) Read.ReadRefId v.
Proof.
  intros Hv. exists (ref_bytes v). split_and!; [|apply WriteRefId_appends|].
  { unfold ref_bytes. rewrite !Forall_app, Forall_singleton.
    destruct (_ =? 0), (_ =? 0), (_ =? 0); cbn [negb]; rewrite ?Forall_singleton;
      split_and!; try apply group_byte; constructor. }
  assert (E7 : forall k, 0 <= k -> v ≫ (k + 7) = (v ≫ k) ≫ 7) by (intros; by rewrite Z.shiftr_shiftr by lia).
  pose proof (split_7 v) as S0. pose proof (split_7 (v ≫ 7)) as S1. pose proof (split_7 (v ≫ 14)) as S2.
  pose proof (split_7 (v ≫ 21)) as S3.
  rewrite <- (E7 7) in S1 by lia. rewrite <- (E7 14) in S2 by lia. rewrite <- (E7 21) in S3 by lia.
  change (7 + 7) with 14 in S1. change (14 + 7) with 21 in S2. change (21 + 7) with 28 in S3.
  assert (E28 : v ≫ 28 = 0) by (rewrite Z.shiftr_div_pow2 by lia; by apply Z.div_small).
  rewrite E28 in S3. clear E28 E7.
  pose proof (low_7 v) as B0. pose proof (low_7 (v ≫ 7)) as B1. pose proof (low_7 (v ≫ 14)) as B2. pose proof (low_7 (v ≫ 21)) as B3.
  intros rest st Hp. unfold Read.ReadRefId. unfold ref_bytes in Hp.
  destruct (v ≫ 21 =? 0) eqn:E21; [apply Z.eqb_eq in E21|apply Z.eqb_neq in E21];
    (destruct (v ≫ 14 =? 0) eqn:E14; [apply Z.eqb_eq in E14|apply Z.eqb_neq in E14]);
    (destruct (v ≫ 7 =? 0) eqn:E07; [apply Z.eqb_eq in E07|apply Z.eqb_neq in E07]); try (exfalso; lia);
    cbn [negb app] in Hp.
  - ref_last B0. eexists. split; [do 2 f_equal; lia|eassumption].
  - ref_more B1. ref_last B0. eexists. split; [do 2 f_equal; lia|eassumption].
  - ref_more B2. ref_more B1. ref_last B0. eexists. split; [do 2 f_equal; lia|eassumption].
  - ref_more B3. ref_more B2. ref_more B1. ref_last B0. eexists. split; [do 2 f_equal; lia|eassumption].
Qed.
End CodecFacts.

(** ** Sequences of numbers *)

(** A number with the format it is written in. *)
Inductive item : Type :=
| SignedItem (T : ctype) (v : Z)
| UnsignedItem (T : ctype) (v : Z)
| LEB128Item (T : ctype) (v : Z)
| SLEB128Item (T : ctype) (v : Z)
| RawItem (T : ctype) (v : Z)
| RefIdItem (v : Z)
| WordItem (v : Z).

Module Item.
Definition value (i : item) : Z :=
  match i with
  | SignedItem _ v | UnsignedItem _ v | LEB128Item _ v | SLEB128Item _ v | RawItem _ v | RefIdItem v | WordItem v => v
  end.

(** What the template parameters and the assertions ask for. *)
Definition ok (i : item) : Prop :=
  match i with
  | SignedItem T v => 32 <= ct_bits T <= 64 /\ ct_in T v /\ ct_signed T = true
  | UnsignedItem T v | LEB128Item T v => 32 <= ct_bits T <= 64 /\ ct_in T v /\ 0 <= v
  | SLEB128Item T v => 32 <= ct_bits T <= 64 /\ ct_in T v
  | RawItem T v => ct_bits T ∈ [8; 16; 32; 64] /\ ct_in T v
  | RefIdItem v => is_u 28 v
  | WordItem v => is_u 64 v
  end.

Definition write (i : item) : WriteStream -> stream_result WriteStream :=
  match i with
  | SignedItem _ v => Write.Write v
  | UnsignedItem _ v => Write.WriteUnsigned v
  | LEB128Item T v => Write.WriteLEB128 T v
  | SLEB128Item T v => Write.WriteSLEB128 T v
  | RawItem T v => Write.Raw T v
  | RefIdItem v => Write.WriteRefId v
  | WordItem v => Write.WriteWordWith32BitWrites v
  end.
Definition read (i : item) : ReadStream -> stream_result (Z * ReadStream) :=
  match i with
  | SignedItem T _ => Read.Read T
  | UnsignedItem T _ => Read.ReadUnsigned T
  | LEB128Item T _ => Read.ReadLEB128 T
  | SLEB128Item T _ => Read.ReadSLEB128 T
  | RawItem T _ => Read.Raw T
  | RefIdItem _ => Read.ReadRefId
  | WordItem _ => Read.ReadWordWith32BitReads
  end.

Fixpoint write_all (items : list item) (st : WriteStream) : stream_result WriteStream :=
  match items with
  | [] => Ok st
  | i :: items => st ← write i st; write_all items st
  end.
Fixpoint read_all (items : list item) (st : ReadStream) : stream_result (list Z * ReadStream) :=
  match items with
  | [] => Ok ([], st)
  | i :: items => '(v, st) ← read i st; '(vs, st) ← read_all items st; Ok (v :: vs, st)
  end.

Import WriteFacts ReadFacts CodecFacts.

Lemma item_codec i : ok i -> codec (write i) (read i) (value i).
Proof.
  destruct i; cbn [ok write read value].
  - intros (HT & Hv & Hs). apply signed_codec; [lia|done|done].
  - intros (HT & Hv & Hs). apply unsigned_codec; [lia|done|done].
  - intros (HT & Hv & Hs). apply leb_codec; [lia|done|done].
  - intros (HT & Hv). apply sleb_codec; [lia|done].
  - intros (HT & Hv). by apply raw_codec.
  - apply ref_codec.
  - apply word_codec.
Qed.

Lemma items_codec items : Forall ok items ->
  exists bs, Forall (is_u 8) bs /\ appends (write_all items) bs /\ reads (read_all items) bs (map value items).
Proof.
  induction 1 as [|i items Hi Hs IH].
  - exists []. split_and!; [done| |].
    + intros st Hst. exists st. split; [done|]. split_and!; [done|by rewrite app_nil_r|done|done].
    + intros rest st Hp. by exists st.
  - destruct (item_codec i Hi) as (b1 & F1 & A1 & R1). destruct IH as (b2 & F2 & A2 & R2).
    exists (b1 ++ b2). split_and!; [by apply Forall_app|by apply appends_bind|].
    intros rest st Hp. rewrite <- app_assoc in Hp. cbn [read_all].
    destruct (R1 _ _ Hp) as (st1 & -> & Hp1). cbn [mbind result_bind].
    destruct (R2 _ _ Hp1) as (st2 & -> & Hp2). by exists st2.
Qed.
End Item.

(** ** The theorems *)

Section Claims.
Import WriteFacts ReadFacts.

(** C16: Streams return what was written.  Numbers in any of the formats, signed and unsigned with
    a marked last byte, LEB128 and SLEB128, raw integers of 8 to 64 bits, references and
    words, one after the other, can be written to a new stream of any class; the position
    counts the bytes, and a read stream over these bytes returns the numbers in the same
    order and has no bytes left.  Every loop ends within its bound. *)
Theorem stream_round_trip class initial_size items :
  1 <= initial_size <= 2 ^ 62 -> Forall Item.ok items ->
  exists st bytes, Item.write_all items (Write.create class initial_size) = Ok st /\
    contents st = map Some bytes /\ Write.Position st = Z.of_nat (length bytes) /\ Forall (is_u 8) bytes /\
    exists rst, Item.read_all items (mkReadStream bytes 0) = Ok (map Item.value items, rst) /\ Read.PendingBytes rst = 0.
Proof.
  intros Hn Hi. destruct (Item.items_codec items Hi) as (bs & Hb & Ha & Hr).
  destruct (new_stream_ok class initial_size Hn) as [Hw Hc].
  destruct (Ha _ Hw) as (st & E & W & C & _). rewrite Hc in C. cbn [app] in C.
  exists st, bs. split_and!; [done|done|rewrite wf_Position by done; by rewrite C, length_map|done|].
  destruct (Hr [] (mkReadStream bs 0)) as (rst & Er & Hp); [split; [cbn; lia|]; by rewrite app_nil_r|].
  exists rst. split; [done|]. destruct Hp as [Hp Hd]. apply (f_equal length) in Hd. rewrite length_drop in Hd.
  unfold Read.PendingBytes. cbn in Hd. lia.
Qed.

(** C18: The unrolled readers.  [Read16], [Read32] and [Read64] return what the loop of [Read] returns
    at their width and leave the stream at the same place, whatever the bytes are, whenever the
    loop ends before the bits are used up. *)
Theorem unrolled_reads marker st x st' :
  Forall (is_u 8) (rs_buffer st) ->
  (Read.Read_marker 16 marker st = Ok (x, st') -> Read.Read16 marker st = Ok (x, st')) /\
  (Read.Read_marker 32 marker st = Ok (x, st') -> Read.Read32 marker st = Ok (x, st')) /\
  (Read.Read_marker 64 marker st = Ok (x, st') -> Read.Read64 marker st = Ok (x, st')).
Proof.
  intros Hb.
  assert (Hfirst : forall b st1, Read.ReadByte st = Ok (b, st1) -> is_u 8 b).
  { intros b st1. unfold Read.ReadByte. destruct (0 <=? _); [|done].
    destruct (_ !! _) as [c|] eqn:El; [|done]. intros [= -> _]. eapply Forall_lookup_1; [exact Hb|exact El]. }
  split_and!; apply Read_unrolled_ok; first [lia|exact Hfirst|by cbn].
Qed.

(** C17: Write streams.  A stream that satisfies the invariant has its contents, the flushed bytes and those
    of the buffer, and its position is their number.  Writing a byte or bytes appends them, [Align] appends
    the zeros that are missing to the next aligned position, and [EnsureSpace] gives the room asked for
    and changes nothing else; [SetPosition] of a stream that does not flush goes to any position and
    keeps the bytes before it; [Steal] hands out the bytes of the contents.  The buffer doubles
    whenever it is full, also that of a streaming stream, which was emptied just before. *)
Theorem write_streams st b bytes k offset n position :
  wf st -> is_u 8 b -> 0 <= k -> 0 <= position ->
  Write.Position st = Z.of_nat (length (contents st)) /\
  (exists st', Write.WriteByte b st = Ok st' /\ written [b] st st') /\
  (exists st', Write.WriteBytes bytes st = Ok st' /\ written bytes st st') /\
  (exists m st', Write.Align (2 ^ k) offset st = Ok (Z.of_nat m, st') /\ written (repeat 0 m) st st' /\
     Z.of_nat m < 2 ^ k /\ (Write.Position st' + offset) mod 2 ^ k = 0) /\
  (same_stream st (Write.EnsureSpace n st) /\ n <= Write.Remaining (Write.EnsureSpace n st)) /\
  (Write.Remaining st < n -> 2 * Write.capacity st <= Write.capacity (Write.EnsureSpace n st)) /\
  (ws_class st <> StreamingWriteStream ->
   wf (Write.SetPosition position st) /\ Write.Position (Write.SetPosition position st) = position /\
   take (Z.to_nat position) (contents (Write.SetPosition position st)) = contents (Write.SetPosition position st) /\
   (position <= Write.Position st -> contents (Write.SetPosition position st) = take (Z.to_nat position) (contents st)) /\
   fst (Write.Steal st) = contents st).
Proof.
  intros Hst Hb Hk Hp. split_and!.
  - by apply wf_Position.
  - by apply WriteByte_appends.
  - by apply WriteBytes_appends.
  - by apply Align_ok.
  - by apply EnsureSpace_ok.
  - by apply EnsureSpace_ok.
  - by apply EnsureSpace_doubles.
  - intros Hc. by apply SetPosition_ok.
Qed.
End Claims.

(** ** Concrete streams *)

Definition example_items : list item :=
  [SignedItem int64_t (- 2 ^ 63); UnsignedItem uint64_t (2 ^ 64 - 1); LEB128Item uint32_t 624485;
   SLEB128Item int32_t (-123456); RawItem int16_t (-300); RefIdItem 200000000; WordItem 0x123456789ABCDEF0].

Lemma example_items_ok : Forall Item.ok example_items.
Proof.
  unfold example_items. rewrite !Forall_cons. split_and!; try constructor; cbn; unfold is_s, is_u; try lia; try done.
  right. left.
Qed.

Example stream_round_trip_witness :
  exists st bytes, Item.write_all example_items (Write.create StreamingWriteStream 8) = Ok st /\
    WriteFacts.contents st = map Some bytes /\
    exists rst, Item.read_all example_items (mkReadStream bytes 0) = Ok (map Item.value example_items, rst).
Proof.
  destruct (stream_round_trip StreamingWriteStream 8 example_items) as (st & bytes & E & C & _ & _ & rst & R & _).
  - lia.
  - apply example_items_ok.
  - exists st, bytes. split; [exact E|]. split; [exact C|]. exists rst. exact R.
Defined.

(** The example of the LEB128 format, 624485, and a signed number. *)
Example leb128_bytes :
  (st ← Write.WriteLEB128 uint32_t 624485 (Write.create MallocWriteStream 8);
   st ← Write.WriteSLEB128 int32_t (-123456) st; Ok (WriteFacts.contents st))
  = Ok (map Some [0xE5; 0x8E; 0x26; 0xC0; 0xBB; 0x78]).
Proof. vm_compute. reflexivity. Qed.

(** -292 in two bytes. *)
Example unrolled_reads_witness :
  Read.Read32 kEndByteMarker (mkReadStream [0x5C; 0xBD] 0) = Ok (2 ^ 32 - 292, mkReadStream [0x5C; 0xBD] 2).
Proof.
  destruct (unrolled_reads kEndByteMarker (mkReadStream [0x5C; 0xBD] 0) (2 ^ 32 - 292) (mkReadStream [0x5C; 0xBD] 2)) as (_ & H32 & _).
  - cbn [rs_buffer]. rewrite !Forall_cons. split_and!; [by vm_compute|by vm_compute|constructor].
  - apply H32. vm_compute. reflexivity.
Defined.

Example write_streams_witness :
  exists m st', Write.Align 16 0 (Write.create MallocWriteStream 100) = Ok (Z.of_nat m, st') /\
    (Write.Position st' + 0) mod 16 = 0 /\
    exists st1, Write.WriteByte 7 (Write.create MallocWriteStream 100) = Ok st1 /\ WriteFacts.contents st1 = [Some 7].
Proof.
  destruct (WriteFacts.new_stream_ok MallocWriteStream 100) as [Hw Hc]; [lia|].
  destruct (write_streams (Write.create MallocWriteStream 100) 7 [] 4 0 0 0) as (_ & (st1 & E1 & W1) & _ & (m & st' & E & _ & _ & Hm) & _).
  - exact Hw.
  - by vm_compute.
  - lia.
  - lia.
  - exists m, st'. split; [exact E|]. split; [exact Hm|]. exists st1. split; [exact E1|]. destruct W1 as (_ & -> & _). by rewrite Hc.
Defined.
