(* ===== verification/Unicode.v ===== *)
(** * Text in UTF-8 and UTF-16: runtime/platform/unicode.h and unicode.cc

    Encoding, decoding and validation of UTF-8, surrogate pairs of UTF-16, and the
    conversions from the one to the other.  An array with its length is a list; the
    array that a conversion fills is the list of what it has written.  The tables of
    case mappings are not modelled. *)

From S2P Require Import Prelude Utils.

(** A read of an array at its end. *)
Inductive text_error : Type := OutsideArray | TextRounds.
Abbreviation text_result := (result text_error).

Module Utf.
Definition kMaxCodePoint : Z := 0x10FFFF.
Definition kReplacementChar : Z := 0xFFFD.
Definition IsLatin1 (code_point : Z) : bool := (0 <=? code_point) && (code_point <=? 0xFF).
Definition IsBmp (code_point : Z) : bool := (0 <=? code_point) && (code_point <=? 0xFFFF).
Definition IsSupplementary (code_point : Z) : bool := (0xFFFF <? code_point) && (code_point <=? kMaxCodePoint).
Definition IsOutOfRange (code_point : Z) : bool := (code_point <? 0) || (kMaxCodePoint <? code_point).
End Utf.

Module Utf16.
Definition kMaxCodeUnit : Z := 0xFFFF.
Definition kLeadSurrogateOffset : Z := 0xD800 - (0x10000 ≫ 10).

Definition Length (ch : Z) : Z := if ch <=? kMaxCodeUnit then 1 else 2.
Definition IsSurrogate (ch : Z) : bool := u32 ch .& 0xFFFFF800 =? 0xD800.
Definition IsLeadSurrogate (ch : Z) : bool := u32 ch .& 0xFFFFFC00 =? 0xD800.
Definition IsTrailSurrogate (ch : Z) : bool := u32 ch .& 0xFFFFFC00 =? 0xDC00.

Definition Decode (lead trail : Z) : Z := 0x10000 + ((lead .& 0x3FF) ≪ 10) + (trail .& 0x3FF).

(** The two code units of a supplementary code point. *)
Definition Encode (codepoint : Z) : list Z :=
  [uwrap 16 (kLeadSurrogateOffset + (codepoint ≫ 10)); uwrap 16 (0xDC00 + (codepoint .& 0x3FF))].

(** The character at [i] and the next [i]. *)
Definition Next (characters : list Z) (i : Z) : text_result (Z * Z) :=
  match characters !! Z.to_nat i with
  | None => Err OutsideArray
  | Some ch =>
      if IsLeadSurrogate ch && (i <? Z.of_nat (length characters) - 1) then
        match characters !! Z.to_nat (i + 1) with
        | None => Err OutsideArray
        | Some ch2 => if IsTrailSurrogate ch2 then Ok (Decode ch ch2, i + 1 + 1) else Ok (ch, i + 1)
        end
      else Ok (ch, i + 1)
  end.
End Utf16.

Module Latin1.
Definition kMaxChar : Z := 0xff.
Definition TryConvertToLatin1 (c : Z) : Z :=
  if (c =? 0x39c) || (c =? 0x3bc) then 0xb5 else if c =? 0x178 then 0xff else c.
End Latin1.

Module Utf8.

(** [enum Type]. *)
Inductive Type_ : Type := kLatin1 | kBMP | kSupplementary.

Definition kMaxOneByteChar : Z := 0x7F.
Definition kMaxTwoByteChar : Z := 0x7FF.
Definition kMaxThreeByteChar : Z := 0xFFFF.

Definition kTrailBytes : list Z :=
  repeat 1 128 ++ repeat 0 64 ++ repeat 2 32 ++ repeat 3 16 ++ [4; 4; 4; 4; 4; 4; 4; 4; 5; 5; 5; 5; 6; 6; 0; 0].
Definition kMagicBits : list Z :=
  [0; 0x00000000; 0x00003080; 0x000E2080; 0x03C82080; 0xFA082080; 0x82082080].
Definition kOverlongMinimum : list Z := [0; 0x0; 0x80; 0x800; 0x10000; 0xFFFFFFFF; 0xFFFFFFFF].

Definition table (t : list Z) (i : Z) : Z := nth (Z.to_nat i) t 0.

Definition IsTrailByte (code_unit : Z) : bool := code_unit .& 0xC0 =? 0x80.
Definition IsNonShortestForm (code_point num_code_units : Z) : bool :=
  code_point <? table kOverlongMinimum num_code_units.
Definition IsLatin1SequenceStart (code_unit : Z) : bool := code_unit <=? 0xC3.
Definition IsSupplementarySequenceStart (code_unit : Z) : bool := 0xF0 <=? code_unit.

(** The units that start a sequence, two for a supplementary one. *)
Fixpoint count_units (utf8_array : list Z) (len : Z) (char_type : Type_) : Z * Type_ :=
  match utf8_array with
  | [] => (len, char_type)
  | code_unit :: utf8_array =>
      if negb (IsTrailByte code_unit) then
        let len := len + 1 in
        if negb (IsLatin1SequenceStart code_unit) then
          if IsSupplementarySequenceStart code_unit then count_units utf8_array (len + 1) kSupplementary
          else count_units utf8_array len (match char_type with kLatin1 => kBMP | t => t end)
        else count_units utf8_array len char_type
      else count_units utf8_array len char_type
  end.
Definition CodeUnitCount (utf8_array : list Z) : Z * Type_ := count_units utf8_array 0 kLatin1.

(** The loop over the bytes after the first: the bits so far and whether one of them
    was malformed, [None] at the end of the array. *)
Fixpoint trail_loop (n : nat) (rest : list Z) (ch : Z) (is_malformed : bool) : option (Z * bool) :=
  match n with
  | O => Some (ch, is_malformed)
  | S n =>
      match rest with
      | [] => None
      | code_unit :: rest =>
          trail_loop n rest (u32 ((ch ≪ 6) + code_unit)) (is_malformed || negb (IsTrailByte code_unit))
      end
  end.

(** The test at the end: [j] bytes were read. *)
Definition well_formed (ch j num_trail_bytes : Z) (is_malformed : bool) : bool :=
  negb is_malformed && (j =? num_trail_bytes) && negb (Utf.IsOutOfRange (s32 ch)) && negb (IsNonShortestForm ch j).

(** The sequence at the start of an array: its length and code point, when well formed. *)
Definition sequence (first : Z) (rest : list Z) : option (Z * Z) :=
  let ch := first .& 0xFF in
  if 0x80 <=? ch then
    let num_trail_bytes := table kTrailBytes ch in
    let j := Z.max 1 num_trail_bytes in
    match trail_loop (Z.to_nat (j - 1)) rest ch false with
    | None => None
    | Some (ch, is_malformed) =>
        let ch := u32 (ch - table kMagicBits num_trail_bytes) in
        if negb (well_formed ch j num_trail_bytes is_malformed) then None else Some (j, ch)
    end
  else Some (1, ch).

Fixpoint IsValid_loop (fuel : nat) (utf8_array : list Z) : bool :=
  match utf8_array with
  | [] => true
  | first :: rest =>
      match fuel with
      | O => false
      | S fuel =>
          match sequence first rest with
          | None => false
          | Some (j, _) => IsValid_loop fuel (drop (Z.to_nat j) utf8_array)
          end
      end
  end.
Definition IsValid (utf8_array : list Z) : bool := IsValid_loop (length utf8_array) utf8_array.

Definition Length (ch : Z) : Z :=
  if ch <=? kMaxOneByteChar then 1
  else if ch <=? kMaxTwoByteChar then 2
  else if ch <=? kMaxThreeByteChar then 3
  else 4.

Definition kMask : Z := Z.lnot (1 ≪ 6).
(** The bytes of a code point; their number is what the code returns. *)
Definition Encode (ch : Z) : list Z :=
  if ch <=? kMaxOneByteChar then [u8 ch]
  else if ch <=? kMaxTwoByteChar then [u8 (0xC0 .| (ch ≫ 6)); u8 (0x80 .| (ch .& kMask))]
  else if ch <=? kMaxThreeByteChar then
    [u8 (0xE0 .| (ch ≫ 12)); u8 (0x80 .| ((ch ≫ 6) .& kMask)); u8 (0x80 .| (ch .& kMask))]
  else
    [u8 (0xF0 .| (ch ≫ 18)); u8 (0x80 .| ((ch ≫ 12) .& kMask)); u8 (0x80 .| ((ch ≫ 6) .& kMask));
     u8 (0x80 .| (ch .& kMask))].

(** The number of bytes and the code point, zero and -1 when the bytes are malformed. *)
Definition Decode (utf8_array : list Z) : text_result (Z * Z) :=
  match utf8_array with
  | [] => Err OutsideArray
  | first :: rest =>
      match sequence first rest with
      | None => Ok (0, -1)
      | Some (i, ch) => Ok (i, s32 ch)
      end
  end.

(** The loops of the conversions: [dst] is what was written, [emit] what one character
    adds to it, [None] when there is no room. *)
Fixpoint decode_loop (fuel : nat) (emit : Z -> Z -> list Z -> option (list Z)) (utf8_array : list Z) (len : Z)
    (dst : list Z) : text_result (bool * list Z) :=
  match utf8_array with
  | [] => Ok (true, dst)
  | first :: _ =>
      if Z.of_nat (length dst) <? len then
        match fuel with
        | O => Err TextRounds
        | S fuel =>
            '(num_bytes, ch) ← Decode utf8_array;
            if ch =? -1 then Ok (false, dst)
            else
              match emit first ch dst with
              | None => Ok (false, dst)
              | Some dst => decode_loop fuel emit (drop (Z.to_nat num_bytes) utf8_array) len dst
              end
        end
      else Ok (negb (Z.of_nat (length dst) =? len), dst)
  end.

Definition DecodeToLatin1 (utf8_array : list Z) (len : Z) : text_result (bool * list Z) :=
  decode_loop (length utf8_array) (fun _ ch dst => Some (dst ++ [u8 ch])) utf8_array len [].

Definition DecodeToUTF16 (utf8_array : list Z) (len : Z) : text_result (bool * list Z) :=
  decode_loop (length utf8_array)
    (fun first ch dst =>
       if IsSupplementarySequenceStart first then
         if Z.of_nat (length dst) =? len - 1 then None else Some (dst ++ Utf16.Encode ch)
       else Some (dst ++ [uwrap 16 ch])) utf8_array len [].

Definition DecodeToUTF32 (utf8_array : list Z) (len : Z) : text_result (bool * list Z) :=
  decode_loop (length utf8_array) (fun _ ch dst => Some (dst ++ [ch])) utf8_array len [].

(** [DecodeCStringToUTF32]: the array ends at the first zero. *)
Fixpoint c_string (str : list Z) : list Z :=
  match str with
  | [] => []
  | c :: str => if c =? 0 then [] else c :: c_string str
  end.
Definition DecodeCStringToUTF32 (str : list Z) (len : Z) := DecodeToUTF32 (c_string str) len.

(** The index of the first byte that cannot be decoded; the output is not modelled. *)
Fixpoint report_loop (fuel : nat) (utf8_array : list Z) (i j len : Z) : text_result Z :=
  match utf8_array with
  | [] => Ok i
  | first :: _ =>
      if j <? len then
        match fuel with
        | O => Err TextRounds
        | S fuel =>
            '(num_bytes, ch) ← Decode utf8_array;
            if ch =? -1 then Ok i
            else
              let j := if IsSupplementarySequenceStart first then j + 1 else j in
              report_loop fuel (drop (Z.to_nat num_bytes) utf8_array) (i + num_bytes) (j + 1) len
        end
      else Ok i
  end.
Definition ReportInvalidByte (utf8_array : list Z) (len : Z) : text_result Z :=
  report_loop (length utf8_array) utf8_array 0 0 len.
End Utf8.
