(* ===== verification/UnicodeCorrect.v ===== *)
(** * UTF-8 is decoded as it is encoded

    The encoder and the decoder are inverse to each other on all code points, surrogates
    included, valid arrays are the arrays of encoded code points, and the conversions to
    UTF-16, UTF-32 and Latin-1 succeed with the room that [CodeUnitCount] asks for. *)

From S2P Require Import Prelude Utils Unicode.

Module TextFacts.
Import Utf8.

Definition code_point (c : Z) : Prop := 0 <= c <= Utf.kMaxCodePoint.

(** ** Bytes *)

(** What holds for all numbers below a bound holds by running it. *)
Lemma below_all (n : Z) (P : Z -> bool) : forallb P (seqZ 0 n) = true -> forall x, 0 <= x < n -> P x = true.
Proof.
  intros Hall x Hx. rewrite forallb_forall in Hall. apply Hall. rewrite <- list_elem_of_In, elem_of_seqZ. lia.
Qed.
Lemma below_eq (n : Z) (f g : Z -> Z) :
  forallb (fun x => f x =? g x) (seqZ 0 n) = true -> forall x, 0 <= x < n -> f x = g x.
Proof. intros Hall x Hx. apply Z.eqb_eq. by apply (below_all n (fun x => f x =? g x)). Qed.

Lemma trail_unit x : u8 (0x80 .| (x .& kMask)) = 0x80 + x mod 64.
Proof.
  transitivity (0x80 .| (x .& 63)).
  { unfold uwrap. rewrite <- Z.land_ones by lia. change (Z.ones 8) with 255. apply Z.bits_inj'. intros n Hn.
    rewrite !Z.land_spec, !Z.lor_spec, !Z.land_spec.
    destruct (decide (n < 8)) as [H|H].
    - assert (n = 0 \/ n = 1 \/ n = 2 \/ n = 3 \/ n = 4 \/ n = 5 \/ n = 6 \/ n = 7) as D by lia.
      destruct D as [->|[->|[->|[->|[->|[->|[->| ->]]]]]]]; destruct (Z.testbit x _); reflexivity.
    - rewrite (Z.bits_above_log2 255), (Z.bits_above_log2 0x80), (Z.bits_above_log2 63) by (simpl; lia).
      rewrite !andb_false_r. reflexivity. }
  change 63 with (Z.ones 6). rewrite Z.land_ones by lia. change (2 ^ 6) with 64.
  apply (below_eq 64 (fun y => 0x80 .| y) (fun y => 0x80 + y)); [reflexivity|]. apply Z.mod_pos_bound. lia.
Qed.

Lemma lead_unit2 x : 0 <= x < 32 -> u8 (0xC0 .| x) = 0xC0 + x.
Proof. apply (below_eq 32 (fun x => u8 (0xC0 .| x)) (fun x => 0xC0 + x)). reflexivity. Qed.
Lemma lead_unit3 x : 0 <= x < 16 -> u8 (0xE0 .| x) = 0xE0 + x.
Proof. apply (below_eq 16 (fun x => u8 (0xE0 .| x)) (fun x => 0xE0 + x)). reflexivity. Qed.
Lemma lead_unit4 x : 0 <= x < 8 -> u8 (0xF0 .| x) = 0xF0 + x.
Proof. apply (below_eq 8 (fun x => u8 (0xF0 .| x)) (fun x => 0xF0 + x)). reflexivity. Qed.

Lemma trail_bytes_table b : is_u 8 b ->
  table kTrailBytes b = (if b <? 128 then 1 else if b <? 192 then 0 else if b <? 224 then 2 else if b <? 240 then 3
    else if b <? 248 then 4 else if b <? 252 then 5 else if b <? 254 then 6 else 0).
Proof. revert b. apply (below_eq 256). vm_compute. reflexivity. Qed.

Lemma trail_byte b : is_u 8 b -> IsTrailByte b = (0x80 <=? b) && (b <? 0xC0).
Proof.
  intros Hb. apply eqb_prop. revert b Hb. apply (below_all 256). vm_compute. reflexivity.
Qed.
Lemma trail_byte_true b : is_u 8 b -> IsTrailByte b = true -> 0x80 <= b < 0xC0.
Proof. intros Hb. rewrite trail_byte, andb_true_iff, Z.leb_le, Z.ltb_lt by done. lia. Qed.
Lemma trail_byte_unit x : 0 <= x < 64 -> IsTrailByte (0x80 + x) = true.
Proof. apply (below_all 64 (fun x => IsTrailByte (0x80 + x))). reflexivity. Qed.

(** ** The bytes of a code point, as numbers *)

Inductive encoded (c : Z) : list Z -> Prop :=
  | encoded1 : 0 <= c < 0x80 -> encoded c [c]
  | encoded2 a b : 0x80 <= c < 0x800 -> c = a * 64 + b -> 0 <= b < 64 -> encoded c [0xC0 + a; 0x80 + b]
  | encoded3 a b d : 0x800 <= c < 0x10000 -> c = (a * 64 + b) * 64 + d -> 0 <= b < 64 -> 0 <= d < 64 ->
      encoded c [0xE0 + a; 0x80 + b; 0x80 + d]
  | encoded4 a b d e : 0x10000 <= c <= 0x10FFFF -> c = ((a * 64 + b) * 64 + d) * 64 + e ->
      0 <= b < 64 -> 0 <= d < 64 -> 0 <= e < 64 -> encoded c [0xF0 + a; 0x80 + b; 0x80 + d; 0x80 + e].

(** Linear arithmetic with quotients and remainders by constants. *)
Ltac euclid := Z.to_euclidean_division_equations; lia.

Lemma encode_encoded c : code_point c -> encoded c (Encode c).
Proof.
  unfold code_point, Utf.kMaxCodePoint, Encode, kMaxOneByteChar, kMaxTwoByteChar, kMaxThreeByteChar. intros Hc.
  destruct (Z.leb_spec c 0x7F).
  { unfold uwrap. rewrite Z.mod_small by lia. constructor. lia. }
  rewrite !trail_unit, !Z.shiftr_div_pow2 by lia.
  change (2 ^ 6) with 64. change (2 ^ 12) with 4096. change (2 ^ 18) with 262144.
  destruct (Z.leb_spec c 0x7FF); [|destruct (Z.leb_spec c 0xFFFF)].
  - rewrite lead_unit2 by euclid. constructor; euclid.
  - rewrite lead_unit3 by euclid. constructor; euclid.
  - rewrite lead_unit4 by euclid. constructor; euclid.
Qed.

Lemma encoded_code_point c l : encoded c l -> code_point c.
Proof. unfold code_point, Utf.kMaxCodePoint. destruct 1; lia. Qed.

Lemma encoded_fun c l l' : encoded c l -> encoded c l' -> l = l'.
Proof. destruct 1; inversion 1; subst; try lia; repeat first [lia | f_equal]. Qed.

Lemma encoded_encode c l : encoded c l -> l = Encode c.
Proof. intros H. exact (encoded_fun c _ _ H (encode_encoded c (encoded_code_point c l H))). Qed.

Lemma encoded_length c l : encoded c l -> Z.of_nat (length l) = Length c.
Proof.
  unfold Length, kMaxOneByteChar, kMaxTwoByteChar, kMaxThreeByteChar.
  destruct 1; repeat match goal with |- context [?x <=? ?y] => destruct (Z.leb_spec x y) end; simpl length; lia.
Qed.

Lemma encoded_bytes c l : encoded c l -> Forall (is_u 8) l.
Proof. unfold is_u. destruct 1; repeat constructor; lia. Qed.

(** ** Reading one sequence *)

Lemma u32_small z : 0 <= z < 2 ^ 32 -> u32 z = z.
Proof. exact (uwrap_small 32 z). Qed.
Lemma s32_code_point z : code_point z -> s32 z = z.
Proof. unfold code_point, Utf.kMaxCodePoint. intros. apply swrap_small; unfold is_s; lia. Qed.
Lemma byte_mask b : is_u 8 b -> b .& 0xFF = b.
Proof. intros Hb. change 0xFF with (Z.ones 8). rewrite Z.land_ones by lia. by apply Z.mod_small. Qed.

(** The loop reads as many bytes as the table says and tests each of them. *)
Definition accumulate (ch code_unit : Z) : Z := u32 ((ch ≪ 6) + code_unit).
Lemma trail_loop_spec n rest ch malformed :
  trail_loop n rest ch malformed =
    if decide (n <= length rest)%nat
    then Some (fold_left accumulate (take n rest) ch, malformed || negb (forallb IsTrailByte (take n rest)))
    else None.
Proof.
  revert rest ch malformed. induction n as [|n IH]; intros rest ch malformed; cbn [trail_loop].
  { rewrite decide_True by lia. cbn. by rewrite orb_false_r. }
  destruct rest as [|b rest]; cbn [length take fold_left forallb]; [by rewrite decide_False by lia|]. rewrite IH.
  destruct (decide (n <= length rest)%nat); [rewrite decide_True by lia|by rewrite decide_False by lia].
  rewrite <- orb_assoc, negb_andb. reflexivity.
Qed.

(** In range and in shortest form: what the test leaves. *)
Lemma well_formed_in_range ch n : is_u 32 ch ->
  well_formed ch n n false = true <-> table kOverlongMinimum n <= ch <= Utf.kMaxCodePoint.
Proof.
  intros Hch. unfold well_formed, Utf.IsOutOfRange, IsNonShortestForm. rewrite Z.eqb_refl. simpl.
  rewrite andb_true_iff, !negb_true_iff, orb_false_iff, !Z.ltb_ge. unfold Utf.kMaxCodePoint.
  unfold swrap, is_u in *. change (2 ^ 32) with 4294967296 in *. change (2 ^ (32 - 1)) with 2147483648.
  split; euclid.
Qed.

(** A sequence that is accepted is the first byte and as many trail bytes as its table
    entry says; the code point is in the range of that length. *)
Lemma sequence_spec first rest : is_u 8 first -> Forall (is_u 8) rest -> 0x80 <= first ->
  let n := table kTrailBytes first in
  let bs := take (Z.to_nat (n - 1)) rest in
  let ch := u32 (fold_left accumulate bs first - table kMagicBits n) in
  sequence first rest =
    if decide (0 < n /\ n - 1 <= Z.of_nat (length rest) /\ forallb IsTrailByte bs = true /\
               table kOverlongMinimum n <= ch <= Utf.kMaxCodePoint)
    then Some (n, ch) else None.
Proof.
  intros Hf Hrest Hhigh n bs ch. unfold sequence. rewrite (byte_mask first Hf).
  destruct (Z.leb_spec 0x80 first); [|lia]. fold n.
  assert (Hn : 0 <= n) by (unfold n; rewrite trail_bytes_table by done; repeat case_match; lia).
  rewrite trail_loop_spec.
  destruct (decide (0 < n)) as [Hpos|].
  - rewrite Z.max_r by lia. fold bs.
    destruct (decide (Z.to_nat (n - 1) <= length rest)%nat); [|rewrite decide_False; [done|intros (_ & ? & _); lia]].
    fold ch. destruct (forallb IsTrailByte bs) eqn:Hb; simpl.
    + destruct (well_formed ch n n false) eqn:Hw; simpl.
      * apply well_formed_in_range in Hw; [|apply uwrap_range; lia]. rewrite decide_True; [done|]. repeat split; lia.
      * rewrite decide_False; [done|]. intros (_ & _ & _ & Hr). apply well_formed_in_range in Hr; [congruence|].
        apply uwrap_range; lia.
    + rewrite decide_False; [done|]. intros (_ & _ & ? & _). congruence.
  - assert (Hzero : n = 0) by lia. rewrite (decide_False (P := _ /\ _)) by (intros [? _]; lia). rewrite Hzero.
    destruct (decide _); [|done]. unfold well_formed. simpl. by rewrite ?andb_false_r.
Qed.

Lemma accumulate_small ch b : 0 <= ch < 2 ^ 25 -> is_u 8 b -> accumulate ch b = ch * 64 + b.
Proof.
  unfold accumulate, is_u. intros Hch Hb. rewrite Z.shiftl_mul_pow2 by lia. change (2 ^ 6) with 64.
  apply u32_small. lia.
Qed.

Ltac accumulate_bytes :=
  repeat match goal with
  | |- context [accumulate ?x ?y] =>
      lazymatch x with
      | context [accumulate _ _] => fail
      | _ => rewrite (accumulate_small x y) by (unfold is_u in *; lia)
      end
  end.

(** The bytes of a code point are read back as that code point, whatever follows them. *)
Lemma sequence_complete c first bs tail : encoded c (first :: bs) -> Forall (is_u 8) tail ->
  sequence first (bs ++ tail) = Some (Z.of_nat (length (first :: bs)), c).
Proof.
  intros He Htail. pose proof (encoded_bytes _ _ He) as Hbytes. apply Forall_cons in Hbytes as [Hf Hbs].
  destruct (Z.ltb_spec first 0x80).
  { inversion He; subst; try lia. unfold sequence. rewrite byte_mask by done.
    destruct (Z.leb_spec 0x80 first); [lia|done]. }
  rewrite sequence_spec by (done || by apply Forall_app). 
  assert (Hn : table kTrailBytes first = Z.of_nat (length (first :: bs))).
  { rewrite trail_bytes_table by done. inversion He; subst; simpl length;
    repeat match goal with |- context [?x <? ?y] => destruct (Z.ltb_spec x y) end; lia. }
  rewrite Hn. rewrite take_app_length' by (simpl; lia).
  assert (Hch : u32 (fold_left accumulate bs first - table kMagicBits (Z.of_nat (length (first :: bs)))) = c).
  { inversion He; subst; try lia; simpl fold_left; accumulate_bytes;
    simpl length; unfold kMagicBits, table; simpl nth; rewrite u32_small by lia; lia. }
  rewrite Hch, decide_True; clear Hch; [done|]. rewrite length_app. split_and!; [simpl; lia|simpl; lia| | |].
  - inversion He; subst; simpl; rewrite ?trail_byte_unit by lia; done.
  - inversion He; subst; simpl length; unfold kOverlongMinimum, table; simpl nth; lia.
  - exact (proj2 (encoded_code_point _ _ He)).
Qed.

Lemma trail_bytes bs : Forall (is_u 8) bs -> forallb IsTrailByte bs = true -> Forall (fun b => 0x80 <= b < 0xC0) bs.
Proof.
  induction 1 as [|b bs Hb Hbs IH]; simpl; [constructor|]. rewrite andb_true_iff. intros [Ht Hts].
  constructor; [by apply trail_byte_true|by apply IH].
Qed.

(** Bytes in the ranges of a sequence, with their code point in the range of its length. *)
Lemma bytes_encoded first bs n : is_u 8 first -> 0x80 <= first -> n = table kTrailBytes first -> n <> 0 ->
  n = Z.of_nat (length (first :: bs)) -> Forall (fun b => 0x80 <= b < 0xC0) bs ->
  let ch := u32 (fold_left accumulate bs first - table kMagicBits n) in
  table kOverlongMinimum n <= ch <= Utf.kMaxCodePoint -> encoded ch (first :: bs).
Proof.
  intros Hf Hhigh Hn Hnz Hlen Hbs. rewrite trail_bytes_table in Hn by done. unfold Utf.kMaxCodePoint.
  destruct bs as [|b1 [|b2 [|b3 [|b4 bs]]]]; simpl length in Hlen;
    [| | | |subst n; repeat match type of Hlen with context [?x <? ?y] => destruct (Z.ltb_spec x y) in Hlen end;
      try lia; unfold table; simpl; lia];
    repeat match type of Hn with context [?x <? ?y] => destruct (Z.ltb_spec x y) in Hn end; try lia; subst n;
    repeat match goal with H : Forall _ (_ :: _) |- _ => apply Forall_cons in H as [? H] end;
    simpl fold_left; accumulate_bytes; unfold table; simpl nth; rewrite u32_small by lia; intros Hr.
  - replace [first; b1] with [0xC0 + (first - 0xC0); 0x80 + (b1 - 0x80)] by (repeat f_equal; lia).
    apply encoded2; lia.
  - replace [first; b1; b2] with [0xE0 + (first - 0xE0); 0x80 + (b1 - 0x80); 0x80 + (b2 - 0x80)]
      by (repeat f_equal; lia).
    apply encoded3; lia.
  - replace [first; b1; b2; b3]
      with [0xF0 + (first - 0xF0); 0x80 + (b1 - 0x80); 0x80 + (b2 - 0x80); 0x80 + (b3 - 0x80)]
      by (repeat f_equal; lia).
    apply encoded4; lia.
Qed.

(** A sequence that is accepted is the encoding of the code point that is returned. *)
Lemma sequence_sound first rest j c : is_u 8 first -> Forall (is_u 8) rest -> sequence first rest = Some (j, c) ->
  exists bs tail, rest = bs ++ tail /\ encoded c (first :: bs) /\ j = Z.of_nat (length (first :: bs)).
Proof.
  intros Hf Hrest. destruct (Z.ltb_spec first 0x80) as [Hlow|Hhigh].
  { unfold sequence. rewrite byte_mask by done. destruct (Z.leb_spec 0x80 first); [lia|]. intros [= <- <-].
    exists [], rest. unfold is_u in Hf. split_and!; [done|constructor; lia|done]. }
  rewrite sequence_spec by done. set (n := table kTrailBytes first). set (bs := take (Z.to_nat (n - 1)) rest).
  destruct (decide _) as [(Hn & Hlen & Ht & Hr)|]; [|done]. intros [= <- <-].
  exists bs, (drop (Z.to_nat (n - 1)) rest).
  assert (Hj : n = Z.of_nat (length (first :: bs))) by (simpl; unfold bs; rewrite length_take; lia).
  split_and!; [by unfold bs; rewrite take_drop| |done].
  apply bytes_encoded; try done; [lia|]. apply trail_bytes; [by apply Forall_take|done].
Qed.

(** ** Whole arrays *)

Abbreviation encode_all := (flat_map Encode).
Definition bytes (l : list Z) : Prop := Forall (is_u 8) l.

Lemma encode_cons c : code_point c -> exists first bs, Encode c = first :: bs /\ encoded c (first :: bs).
Proof.
  intros Hc. pose proof (encode_encoded c Hc) as He. destruct (Encode c) as [|first bs]; [inversion He|]. eauto.
Qed.

Lemma encode_all_bytes cps : Forall code_point cps -> bytes (encode_all cps).
Proof.
  induction 1 as [|c cps Hc _ IH]; simpl; [constructor|]. apply Forall_app. split; [|done].
  exact (encoded_bytes c _ (encode_encoded c Hc)).
Qed.

(** One step over an array: it starts with an encoded code point or it is rejected. *)
Inductive step_of (l : list Z) : option (Z * Z) -> Prop :=
  | step_ok c tail : code_point c -> l = Encode c ++ tail -> step_of l (Some (Length c, c))
  | step_bad : (forall c tail, code_point c -> l <> Encode c ++ tail) -> step_of l None.

Lemma sequence_step first rest : bytes (first :: rest) -> step_of (first :: rest) (sequence first rest).
Proof.
  intros Hl. apply Forall_cons in Hl as [Hf Hrest]. destruct (sequence first rest) as [[j c]|] eqn:Hs.
  - destruct (sequence_sound _ _ _ _ Hf Hrest Hs) as (bs & tail & -> & He & ->).
    rewrite (encoded_length _ _ He). apply (step_ok _ c tail); [exact (encoded_code_point _ _ He)|].
    by rewrite <- (encoded_encode _ _ He).
  - constructor. intros c tail Hc Heq. destruct (encode_cons c Hc) as (b & bs & E & He). rewrite E in Heq.
    injection Heq as <- ->. rewrite (sequence_complete _ _ _ _ He) in Hs; [done|]. by apply Forall_app in Hrest as [_ ?].
Qed.

Lemma decode_step l : bytes l -> l <> [] ->
  exists r, step_of l r /\ Decode l = Ok (match r with Some (n, c) => (n, c) | None => (0, -1) end).
Proof.
  destruct l as [|first rest]; [done|]. intros Hl _. exists (sequence first rest). split; [by apply sequence_step|].
  simpl. destruct (sequence_step first rest Hl) as [c tail Hc _|]; [|done]. by rewrite s32_code_point.
Qed.

Lemma utf8_encode_length c : code_point c -> length (Encode c) = Z.to_nat (Length c) /\ 1 <= Length c.
Proof.
  intros Hc. pose proof (encoded_length c _ (encode_encoded c Hc)) as E. split; [lia|].
  unfold Length. repeat case_match; lia.
Qed.

Lemma encode_prefix c d t t' : code_point c -> code_point d -> Encode c ++ t = Encode d ++ t' -> bytes (Encode c ++ t) ->
  c = d /\ t = t'.
Proof.
  intros Hc Hd E Hb. destruct (encode_cons c Hc) as (f & bs & Ef & Hf). destruct (encode_cons d Hd) as (g & gs & Eg & Hg).
  rewrite Ef, Eg in *. injection E as <- E.
  assert (Hall : bytes (bs ++ t)) by by apply Forall_cons in Hb as [_ ?].
  assert (Ht : bytes t) by by apply Forall_app in Hall as [_ ?].
  rewrite E in Hall. apply Forall_app in Hall as [_ Ht'].
  pose proof (sequence_complete _ _ _ t Hf Ht) as Hs. rewrite E, (sequence_complete _ _ _ t' Hg Ht') in Hs.
  injection Hs as _ ->. injection (encoded_fun _ _ _ Hf Hg) as ->. by apply app_inv_head in E.
Qed.

(** An array has one reading as code points. *)
Lemma encode_all_inj cps cps' : Forall code_point cps -> Forall code_point cps' ->
  encode_all cps = encode_all cps' -> cps = cps'.
Proof.
  intros H. revert cps'. induction H as [|c cps Hc Hcps IH]; intros cps' H' E.
  - destruct H' as [|d cps' Hd _]; [done|]. destruct (encode_cons d Hd) as (? & ? & Ed & _).
    simpl in E. by rewrite Ed in E.
  - destruct H' as [|d cps' Hd Hcps']; simpl in E.
    { destruct (encode_cons c Hc) as (? & ? & Ec & _). by rewrite Ec in E. }
    destruct (encode_prefix c d _ _ Hc Hd E) as [-> E'].
    { apply (encode_all_bytes (c :: cps)). by constructor. }
    f_equal. by apply IH.
Qed.

Definition valid (l : list Z) : Prop := exists cps, Forall code_point cps /\ l = encode_all cps.

Lemma valid_step c tail : code_point c -> bytes (Encode c ++ tail) -> valid (Encode c ++ tail) <-> valid tail.
Proof.
  intros Hc Hb. split.
  - intros ([|d cps] & Hcps & E).
    { destruct (encode_cons c Hc) as (? & ? & Ec & _). by rewrite Ec in E. }
    apply Forall_cons in Hcps as [Hd Hcps]. destruct (encode_prefix c d _ _ Hc Hd E Hb) as [-> ->]. by exists cps.
  - intros (cps & Hcps & ->). exists (c :: cps). split; [by constructor|done].
Qed.

Lemma drop_encode c tail : code_point c -> drop (Z.to_nat (Length c)) (Encode c ++ tail) = tail.
Proof. intros Hc. apply drop_app_length'. symmetry. apply (utf8_encode_length c Hc). Qed.

Lemma tail_shorter c tail : code_point c -> (length tail < length (Encode c ++ tail))%nat.
Proof. intros Hc. rewrite length_app. pose proof (utf8_encode_length c Hc). lia. Qed.

Lemma IsValid_loop_correct fuel l : (length l <= fuel)%nat -> bytes l -> IsValid_loop fuel l = true <-> valid l.
Proof.
  revert l. induction fuel as [|fuel IH]; intros [|first rest] Hfuel Hb; simpl in Hfuel; [|lia| |].
  - split; [by exists []|done].
  - split; [by exists []|done].
  - simpl IsValid_loop. destruct (sequence_step first rest Hb) as [c tail Hc E|Hbad].
    + pose proof (tail_shorter c tail Hc) as Hlt. rewrite E in Hb |- *. rewrite <- E in Hlt. simpl in Hlt.
      rewrite drop_encode, IH, valid_step by (done || lia || by apply Forall_app in Hb as [_ ?]). done.
    + split; [done|]. intros ([|c cps] & Hcps & E); [done|]. apply Forall_cons in Hcps as [Hc _].
      exfalso. exact (Hbad c _ Hc E).
Qed.
Lemma IsValid_correct l : bytes l -> IsValid l = true <-> valid l.
Proof. by apply IsValid_loop_correct. Qed.

(** ** Conversions

    [units] are the code units of a character in the target: a conversion writes those of
    the longest prefix of the array that can be decoded and has room, and succeeds when
    that is the whole array. *)
Definition converts (units : Z -> list Z) (l : list Z) (len : Z) (run : text_result (bool * list Z)) : Prop :=
  exists cps tail,
    Forall code_point cps /\ l = encode_all cps ++ tail /\
    run = Ok (bool_decide (tail = []), flat_map units cps) /\
    Z.of_nat (length (flat_map units cps)) <= len /\
    forall c rest, code_point c -> tail = Encode c ++ rest ->
      len < Z.of_nat (length (flat_map units cps)) + Z.of_nat (length (units c)).

Section Conversion.
Context (units : Z -> list Z) (emit : Z -> Z -> list Z -> option (list Z)) (len : Z).
Hypothesis units_some : forall c, code_point c -> units c <> [].
Hypothesis emit_units : forall c first bs dst, code_point c -> Encode c = first :: bs -> Z.of_nat (length dst) < len ->
  emit first c dst = if Z.of_nat (length dst) + Z.of_nat (length (units c)) <=? len then Some (dst ++ units c) else None.

Lemma decode_loop_converts fuel l dst : (length l <= fuel)%nat -> bytes l -> Z.of_nat (length dst) <= len ->
  exists cps tail,
    Forall code_point cps /\ l = encode_all cps ++ tail /\
    decode_loop fuel emit l len dst = Ok (bool_decide (tail = []), dst ++ flat_map units cps) /\
    Z.of_nat (length (dst ++ flat_map units cps)) <= len /\
    forall c rest, code_point c -> tail = Encode c ++ rest ->
      len < Z.of_nat (length (dst ++ flat_map units cps)) + Z.of_nat (length (units c)).
Proof.
  revert l dst. induction fuel as [|fuel IH]; intros [|first rest] dst Hfuel Hb Hdst; simpl in Hfuel; [|lia| |].
  1,2: exists [], []; rewrite !app_nil_r; split_and!; try done; intros c t Hc E;
    destruct (encode_cons c Hc) as (? & ? & Ec & _); by rewrite Ec in E.
  simpl decode_loop. destruct (Z.ltb_spec (Z.of_nat (length dst)) len).
  2: { exists [], (first :: rest). rewrite app_nil_r. destruct (Z.eqb_spec (Z.of_nat (length dst)) len); [|lia].
    split_and!; try done. intros c t Hc E. pose proof (units_some c Hc). destruct (units c); [done|simpl; lia]. }
  destruct (sequence_step first rest Hb) as [c tail Hc E|Hbad]; cbn [mbind result_bind].
  2: { exists [], (first :: rest). rewrite app_nil_r. split_and!; try done. intros c t Hc E. exfalso. by apply (Hbad c t). }
  rewrite s32_code_point by done. destruct (Z.eqb_spec c (-1)); [unfold code_point in Hc; lia|].
  destruct (encode_cons c Hc) as (b & bs & Ec & He).
  assert (first = b) as -> by (rewrite Ec in E; by injection E).
  rewrite (emit_units c b bs dst Hc Ec) by done. rewrite E in Hb |- *.
  destruct (Z.leb_spec (Z.of_nat (length dst) + Z.of_nat (length (units c))) len).
  - rewrite drop_encode by done.
    destruct (IH tail (dst ++ units c)) as (cps & t & Hcps & -> & -> & Hlen & Hroom).
    { pose proof (tail_shorter c tail Hc) as Hlt. rewrite <- E in Hlt. simpl in Hlt. lia. }
    { by apply Forall_app in Hb as [_ ?]. }
    { rewrite length_app. lia. }
    exists (c :: cps), t. simpl. rewrite !app_assoc. split_and!; try done. by constructor.
  - exists [], (Encode c ++ tail). rewrite app_nil_r. split_and!; try done.
    + rewrite bool_decide_eq_false_2; [done|]. by rewrite Ec.
    + intros d t Hd E'. by destruct (encode_prefix c d tail t Hc Hd E' Hb) as [<- _].
Qed.

Lemma conversion_converts l : bytes l -> 0 <= len -> converts units l len (decode_loop (length l) emit l len []).
Proof. intros Hb Hlen. exact (decode_loop_converts (length l) l [] (le_n _) Hb Hlen). Qed.
End Conversion.

(** With room for all of them, the code points of a valid array are converted. *)
Lemma converts_all units cps len run : Forall code_point cps -> converts units (encode_all cps) len run ->
  Z.of_nat (length (flat_map units cps)) <= len -> run = Ok (true, flat_map units cps).
Proof.
  intros Hcps (cps1 & tail & Hcps1 & E & -> & _ & Hroom) Hlen.
  assert (Hv : exists cps2, Forall code_point cps2 /\ cps = cps1 ++ cps2 /\ tail = encode_all cps2).
  { clear Hroom Hlen. revert cps Hcps E. induction Hcps1 as [|c cps1 Hc _ IH]; intros cps Hcps E.
    { by exists cps. }
    destruct Hcps as [|d cps Hd Hcps]; simpl in E.
    { destruct (encode_cons c Hc) as (? & ? & Ec & _). by rewrite Ec in E. }
    rewrite <- app_assoc in E. destruct (encode_prefix d c _ _ Hd Hc E) as [-> E'].
    { apply (encode_all_bytes (d :: cps)). by constructor. }
    destruct (IH cps Hcps E') as (cps2 & ? & -> & ?). by exists cps2. }
  destruct Hv as ([|c cps2] & Hcps2 & -> & ->); [by rewrite app_nil_r|].
  apply Forall_cons in Hcps2 as [Hc _]. specialize (Hroom c _ Hc eq_refl).
  rewrite flat_map_app, length_app in Hlen. simpl in Hlen. rewrite length_app in Hlen. lia.
Qed.

(** ** UTF-16 *)

Definition utf16_units (c : Z) : list Z := if c <=? 0xFFFF then [c] else Utf16.Encode c.
Definition latin1_units (c : Z) : list Z := [u8 c].
Definition utf32_units (c : Z) : list Z := [c].

Lemma supplementary_start c first bs : code_point c -> Encode c = first :: bs ->
  IsSupplementarySequenceStart first = (0xFFFF <? c).
Proof.
  intros Hc Ec. pose proof (encode_encoded c Hc) as He. rewrite Ec in He. unfold IsSupplementarySequenceStart.
  inversion He; subst;
    match goal with |- (?a <=? ?x) = (?b <? ?y) => destruct (Z.leb_spec a x), (Z.ltb_spec b y) end; lia.
Qed.

Lemma to_utf16 l len : bytes l -> 0 <= len -> converts utf16_units l len (DecodeToUTF16 l len).
Proof.
  apply conversion_converts.
  - intros c _. unfold utf16_units. by case_match.
  - intros c first bs dst Hc Ec Hdst. rewrite (supplementary_start c first bs Hc Ec). unfold utf16_units.
    unfold code_point, Utf.kMaxCodePoint in Hc. destruct (Z.ltb_spec 0xFFFF c), (Z.leb_spec c 0xFFFF); try lia; simpl length.
    + destruct (Z.eqb_spec (Z.of_nat (length dst)) (len - 1)), (Z.leb_spec (Z.of_nat (length dst) + Z.of_nat 2) len); try lia; done.
    + destruct (Z.leb_spec (Z.of_nat (length dst) + Z.of_nat 1) len); [|lia]. rewrite uwrap_small by (unfold is_u; lia). done.
Qed.
Lemma to_utf32 l len : bytes l -> 0 <= len -> converts utf32_units l len (DecodeToUTF32 l len).
Proof.
  apply conversion_converts; [done|]. intros c first bs dst _ _ Hdst. simpl length.
  destruct (Z.leb_spec (Z.of_nat (length dst) + Z.of_nat 1) len); [done|lia].
Qed.
Lemma to_latin1 l len : bytes l -> 0 <= len -> converts latin1_units l len (DecodeToLatin1 l len).
Proof.
  apply conversion_converts; [done|]. intros c first bs dst _ _ Hdst. simpl length.
  destruct (Z.leb_spec (Z.of_nat (length dst) + Z.of_nat 1) len); [done|lia].
Qed.

Lemma high_bits_mask k ch : 0 <= k <= 32 -> is_u 32 ch -> ch .& (Z.ones (32 - k) ≪ k) = ch / 2 ^ k * 2 ^ k.
Proof.
  intros Hk Hch. rewrite <- Z.shiftr_div_pow2, <- Z.shiftl_mul_pow2 by lia. apply Z.bits_inj'. intros n Hn.
  rewrite Z.land_spec, !Z.shiftl_spec by lia. destruct (Z.ltb_spec n k).
  { rewrite !(Z.testbit_neg_r _ (n - k)) by lia. by rewrite andb_false_r. }
  rewrite Z.shiftr_spec, Z.testbit_ones_nonneg by lia. replace (n - k + k) with n by lia.
  destruct (Z.ltb_spec (n - k) (32 - k)); [by rewrite andb_true_r|].
  rewrite (testbit_high 32 ch n Hch) by lia. done.
Qed.

Lemma surrogate ch : is_u 32 ch -> Utf16.IsSurrogate ch = (0xD800 <=? ch) && (ch <=? 0xDFFF).
Proof.
  intros Hch. unfold Utf16.IsSurrogate. rewrite uwrap_small by done.
  change 0xFFFFF800 with (Z.ones (32 - 11) ≪ 11). rewrite high_bits_mask by (done || lia). change (2 ^ 11) with 2048.
  destruct (Z.eqb_spec (ch / 2048 * 2048) 0xD800), (Z.leb_spec 0xD800 ch), (Z.leb_spec ch 0xDFFF); simpl; try done; euclid.
Qed.
Lemma lead_surrogate ch : is_u 32 ch -> Utf16.IsLeadSurrogate ch = (0xD800 <=? ch) && (ch <=? 0xDBFF).
Proof.
  intros Hch. unfold Utf16.IsLeadSurrogate. rewrite uwrap_small by done.
  change 0xFFFFFC00 with (Z.ones (32 - 10) ≪ 10). rewrite high_bits_mask by (done || lia). change (2 ^ 10) with 1024.
  destruct (Z.eqb_spec (ch / 1024 * 1024) 0xD800), (Z.leb_spec 0xD800 ch), (Z.leb_spec ch 0xDBFF); simpl; try done; euclid.
Qed.
Lemma trail_surrogate ch : is_u 32 ch -> Utf16.IsTrailSurrogate ch = (0xDC00 <=? ch) && (ch <=? 0xDFFF).
Proof.
  intros Hch. unfold Utf16.IsTrailSurrogate. rewrite uwrap_small by done.
  change 0xFFFFFC00 with (Z.ones (32 - 10) ≪ 10). rewrite high_bits_mask by (done || lia). change (2 ^ 10) with 1024.
  destruct (Z.eqb_spec (ch / 1024 * 1024) 0xDC00), (Z.leb_spec 0xDC00 ch), (Z.leb_spec ch 0xDFFF); simpl; try done; euclid.
Qed.

(** The surrogates of a supplementary code point. *)
Inductive pair_of (c : Z) : list Z -> Prop :=
  | pair_units a b : c = 0x10000 + a * 1024 + b -> 0 <= a < 1024 -> 0 <= b < 1024 -> pair_of c [0xD800 + a; 0xDC00 + b].

Lemma encode_pair c : 0xFFFF < c <= Utf.kMaxCodePoint -> pair_of c (Utf16.Encode c).
Proof.
  unfold Utf.kMaxCodePoint, Utf16.Encode, Utf16.kLeadSurrogateOffset. intros Hc.
  change 0x3FF with (Z.ones 10). rewrite Z.land_ones, !Z.shiftr_div_pow2 by lia.
  change (2 ^ 10) with 1024. change (0x10000 / 1024) with 64.
  rewrite !uwrap_small by (unfold is_u; euclid).
  replace (0xD800 - 64 + c / 1024) with (0xD800 + (c / 1024 - 64)) by lia. constructor; euclid.
Qed.

Lemma decode_pair a b : 0 <= a < 1024 -> 0 <= b < 1024 -> Utf16.Decode (0xD800 + a) (0xDC00 + b) = 0x10000 + a * 1024 + b.
Proof.
  intros Ha Hb. unfold Utf16.Decode. change 0x3FF with (Z.ones 10). rewrite !Z.land_ones, Z.shiftl_mul_pow2 by lia.
  change (2 ^ 10) with 1024. euclid.
Qed.

(** Reading at a character: a character that is not a lead surrogate of its own is read
    back, and the index advances by its units. *)
Lemma next_character pre c post : code_point c -> Utf16.IsSurrogate c = false ->
  Utf16.Next (pre ++ utf16_units c ++ post) (Z.of_nat (length pre)) = Ok (c, Z.of_nat (length pre) + Utf16.Length c).
Proof.
  unfold code_point. intros Hc. rewrite surrogate by (unfold is_u, Utf.kMaxCodePoint in *; lia). intros Hs.
  unfold utf16_units, Utf16.Length, Utf16.kMaxCodeUnit, Utf16.Next.
  rewrite Nat2Z.id, lookup_app_r, Nat.sub_diag by lia.
  replace (Z.to_nat (Z.of_nat (length pre) + 1)) with (S (length pre)) by lia.
  rewrite (lookup_app_r pre _ (S (length pre))) by lia. replace (S (length pre) - length pre)%nat with 1%nat by lia.
  destruct (Z.leb_spec c 0xFFFF).
  - simpl. rewrite lead_surrogate by (unfold is_u; lia).
    destruct (Z.leb_spec 0xD800 c), (Z.leb_spec c 0xDFFF), (Z.leb_spec c 0xDBFF); simpl in *; try done; lia.
  - assert (Hp : pair_of c (Utf16.Encode c)) by (apply encode_pair; lia). destruct Hp as [a b -> Ha Hb]. simpl.
    rewrite lead_surrogate by (unfold is_u; lia). rewrite length_app. simpl.
    destruct (Z.leb_spec 0xD800 (0xD800 + a)), (Z.leb_spec (0xD800 + a) 0xDBFF); try lia; simpl.
    destruct (Z.ltb_spec (Z.of_nat (length pre)) (Z.of_nat (length pre + S (S (length post))) - 1)); [|lia].
    rewrite trail_surrogate by (unfold is_u; lia).
    destruct (Z.leb_spec 0xDC00 (0xDC00 + b)), (Z.leb_spec (0xDC00 + b) 0xDFFF); try lia; simpl.
    rewrite decode_pair by done. do 2 f_equal. lia.
Qed.

(** ** Room for a conversion *)

Definition char_type (cps : list Z) : Type_ :=
  if existsb (Z.ltb 0xFFFF) cps then kSupplementary else if existsb (Z.ltb 0xFF) cps then kBMP else kLatin1.
Definition join_type (t u : Type_) : Type_ :=
  match t, u with
  | kSupplementary, _ | _, kSupplementary => kSupplementary
  | kBMP, _ | _, kBMP => kBMP
  | kLatin1, kLatin1 => kLatin1
  end.

Lemma char_type_cons c cps : char_type (c :: cps) = join_type (char_type [c]) (char_type cps).
Proof.
  unfold char_type. simpl. rewrite !orb_false_r.
  destruct (0xFFFF <? c), (0xFF <? c), (existsb (Z.ltb 0xFFFF) cps), (existsb (Z.ltb 0xFF) cps); reflexivity.
Qed.
Lemma join_type_assoc t u v : join_type t (join_type u v) = join_type (join_type t u) v.
Proof. by destruct t, u, v. Qed.

Lemma utf16_units_length c : Z.of_nat (length (utf16_units c)) = Utf16.Length c.
Proof. unfold utf16_units, Utf16.Length, Utf16.kMaxCodeUnit. by destruct (c <=? 0xFFFF). Qed.

Lemma count_units_encode c tail len t : code_point c ->
  count_units (Encode c ++ tail) len t = count_units tail (len + Utf16.Length c) (join_type t (char_type [c])).
Proof.
  intros Hc. pose proof (encode_encoded c Hc) as He. pose proof (encoded_bytes _ _ He) as Hb.
  unfold char_type, Utf16.Length, Utf16.kMaxCodeUnit. simpl existsb. rewrite !orb_false_r.
  destruct He; apply Forall_cons in Hb as [Hf _]; simpl count_units; rewrite ?(trail_byte_unit _) by lia; simpl;
    rewrite (trail_byte _ Hf); unfold IsLatin1SequenceStart, IsSupplementarySequenceStart;
    repeat match goal with
    | |- context [?x <=? ?y] => destruct (Z.leb_spec x y)
    | |- context [?x <? ?y] => destruct (Z.ltb_spec x y)
    end; simpl; try lia; destruct t; simpl; f_equal; lia.
Qed.

Lemma count_units_all cps len t : Forall code_point cps ->
  count_units (encode_all cps) len t =
    (len + Z.of_nat (length (flat_map utf16_units cps)), join_type t (char_type cps)).
Proof.
  intros H. revert len t. induction H as [|c cps Hc _ IH]; intros len t; simpl.
  { rewrite Z.add_0_r. by destruct t. }
  rewrite count_units_encode, IH, length_app, Nat2Z.inj_add, utf16_units_length, (char_type_cons c cps), join_type_assoc by done.
  f_equal. lia.
Qed.
Lemma CodeUnitCount_all cps : Forall code_point cps ->
  CodeUnitCount (encode_all cps) = (Z.of_nat (length (flat_map utf16_units cps)), char_type cps).
Proof. intros H. unfold CodeUnitCount. rewrite count_units_all by done. by destruct (char_type cps). Qed.

(** Latin-1 text: one unit for each code point, with its value. *)
Lemma latin1_text cps : Forall code_point cps -> char_type cps = kLatin1 ->
  flat_map latin1_units cps = cps /\ flat_map utf16_units cps = cps.
Proof.
  unfold code_point. induction 1 as [|c cps Hc _ IH]; [done|]. rewrite (char_type_cons c cps).
  unfold char_type at 1. simpl. rewrite !orb_false_r.
  destruct (Z.ltb_spec 0xFFFF c); [done|]. destruct (Z.ltb_spec 0xFF c); [by destruct (char_type cps)|].
  intros E. assert (char_type cps = kLatin1) as E' by by destruct (char_type cps).
  destruct (IH E') as [E1 E2]. unfold utf16_units at 1. rewrite E1, E2, uwrap_small by (unfold is_u; lia).
  destruct (Z.leb_spec c 0xFFFF); [done|lia].
Qed.

(** The report stops at the first byte that does not start a code point. *)
Lemma report_loop_stops cps : Forall code_point cps -> forall fuel tail i j len,
  (length (encode_all cps ++ tail) <= fuel)%nat -> bytes tail ->
  j + Z.of_nat (length (flat_map utf16_units cps)) < len ->
  (forall c rest, code_point c -> tail <> Encode c ++ rest) ->
  report_loop fuel (encode_all cps ++ tail) i j len = Ok (i + Z.of_nat (length (encode_all cps))).
Proof.
  induction 1 as [|c cps Hc Hcps IH]; intros fuel tail i j len Hfuel Hb Hlen Hbad.
  - simpl in *. rewrite Z.add_0_r in *. destruct tail as [|first rest]; [by destruct fuel|].
    destruct fuel as [|fuel]; [simpl in Hfuel; lia|]. simpl. destruct (Z.ltb_spec j len); [|lia].
    destruct (sequence_step first rest Hb) as [c t Hc E|_]; [|done]. by destruct (Hbad c t Hc).
  - destruct (encode_cons c Hc) as (first & bs & Ec & He). pose proof (utf8_encode_length c Hc) as [Hl Hl1].
    cbn [flat_map] in *. rewrite <- app_assoc, !length_app, Nat2Z.inj_add in *. rewrite utf16_units_length in Hlen.
    destruct fuel as [|fuel]; [lia|].
    assert (Hall : bytes (Encode c ++ encode_all cps ++ tail)).
    { apply Forall_app; split; [by rewrite Ec; exact (encoded_bytes _ _ He)|].
      apply Forall_app; split; [by apply encode_all_bytes|done]. }
    destruct (decode_step (Encode c ++ encode_all cps ++ tail) Hall) as (r & Hr & Hd); [by rewrite Ec|].
    assert (r = Some (Length c, c)) as ->.
    { destruct Hr as [d t Hd' E|Hbad']; [|by destruct (Hbad' c (encode_all cps ++ tail) Hc)].
      by destruct (encode_prefix c d _ _ Hc Hd' E Hall) as [<- _]. }
    pose proof (drop_encode c (encode_all cps ++ tail) Hc) as Hdrop.
    rewrite Ec in Hd, Hdrop |- *. cbn [app report_loop] in *. rewrite Hd. cbn [mbind result_bind].
    pose proof (supplementary_start c first bs Hc Ec) as Hsup. rewrite Hsup, Hdrop. 
    destruct (Z.ltb_spec j len); [|unfold Utf16.Length in Hlen; case_match; lia].
    destruct (Z.eqb_spec c (-1)); [unfold code_point in Hc; lia|].
    rewrite IH; [f_equal; rewrite <- Ec; lia| |done| |done].
    + rewrite length_app. lia.
    + unfold Utf16.Length, Utf16.kMaxCodeUnit in Hlen. destruct (Z.ltb_spec 0xFFFF c), (Z.leb_spec c 0xFFFF); lia.
Qed.
End TextFacts.

Import TextFacts.
Import Utf8.

(** C19: every code point is encoded in [Length] bytes and decoded from them, whatever
    follows; an array that starts with no encoding of a code point, overlong and
    truncated sequences included, gives -1 and no bytes; an array is valid exactly when it
    is a sequence of encodings, and it has one reading. *)
Theorem utf8_codec c tail l : code_point c -> bytes tail -> bytes l -> l <> [] ->
  Decode (Encode c ++ tail) = Ok (Length c, c) /\ Z.of_nat (length (Encode c)) = Length c /\
  ((exists d rest, code_point d /\ l = Encode d ++ rest /\ Decode l = Ok (Length d, d)) \/
   ((forall d rest, code_point d -> l <> Encode d ++ rest) /\ Decode l = Ok (0, -1))) /\
  (IsValid l = true <-> exists cps, Forall code_point cps /\ l = encode_all cps) /\
  (forall cps cps', Forall code_point cps -> Forall code_point cps' -> encode_all cps = encode_all cps' -> cps = cps').
Proof.
  intros Hc Ht Hl Hne. pose proof (encode_encoded c Hc) as He. split_and!.
  - assert (Hall : bytes (Encode c ++ tail)) by (apply Forall_app; split; [exact (encoded_bytes _ _ He)|done]).
    destruct (encode_cons c Hc) as (first & bs & Ec & He').
    destruct (decode_step (Encode c ++ tail) Hall) as (r & Hr & ->); [by rewrite Ec|].
    destruct Hr as [d t Hd E|Hbad]; [|by destruct (Hbad c tail Hc)].
    by destruct (encode_prefix c d _ _ Hc Hd E Hall) as [<- _].
  - exact (encoded_length c _ He).
  - destruct (decode_step l Hl Hne) as (r & [d t Hd E|Hbad] & ->); [left; by exists d, t|by right].
  - by apply IsValid_correct.
  - exact encode_all_inj.
Qed.
Lemma utf8_codec_witness : Decode [0xE2; 0x82; 0xAC; 0x41] = Ok (3, 0x20AC) /\ IsValid [0xC0; 0x80] = false.
Proof.
  destruct (utf8_codec 0x20AC [0x41] [0xC0; 0x80]) as (Hd & _ & _ & _ & _).
  - by vm_compute.
  - repeat constructor; by vm_compute.
  - repeat constructor; by vm_compute.
  - done.
  - split; [exact Hd|reflexivity].
Defined.

(** C20: conversions.  On every array of bytes and every room, the conversions to UTF-16,
    UTF-32 and Latin-1 write the units of the longest decodable prefix that has room, never
    past the room, and return true exactly when that prefix is the whole array.  Text is
    transcoded with the room that [CodeUnitCount] asks for: the array of the encodings of some code points has as many UTF-16 units as it counts, and is Latin-1
    when it says so; the conversions into that room succeed with the units of all code
    points, and [Next] reads each of them that is not a surrogate back from its units; a
    malformed byte after them is the one that is reported. *)
Theorem utf8_conversions any len cps bad : bytes any -> 0 <= len -> Forall code_point cps -> bytes bad ->
  (forall c rest, code_point c -> bad <> Encode c ++ rest) ->
  (converts utf16_units any len (DecodeToUTF16 any len) /\
   converts utf32_units any len (DecodeToUTF32 any len) /\
   converts latin1_units any len (DecodeToLatin1 any len)) /\
  let l := encode_all cps in
  let count := (CodeUnitCount l).1 in
  CodeUnitCount l = (Z.of_nat (length (flat_map utf16_units cps)), char_type cps) /\
  DecodeToUTF16 l count = Ok (true, flat_map utf16_units cps) /\
  DecodeToUTF32 l (Z.of_nat (length cps)) = Ok (true, cps) /\
  (char_type cps = kLatin1 -> DecodeToLatin1 l count = Ok (true, cps)) /\
  (forall pre c post, cps = pre ++ c :: post -> Utf16.IsSurrogate c = false ->
     let i := Z.of_nat (length (flat_map utf16_units pre)) in
     Utf16.Next (flat_map utf16_units cps) i = Ok (c, i + Utf16.Length c)) /\
  (forall room, count < room -> ReportInvalidByte (l ++ bad) room = Ok (Z.of_nat (length l))).
Proof.
  intros Hany Hlen0 Hcps Hbad Hmal. split; [split_and!; [by apply to_utf16|by apply to_utf32|by apply to_latin1]|].
  intros l count. pose proof (encode_all_bytes cps Hcps) as Hb.
  pose proof (CodeUnitCount_all cps Hcps) as Hcount. unfold count, l. rewrite Hcount. simpl fst. split_and!.
  - done.
  - apply converts_all with (len := Z.of_nat (length (flat_map utf16_units cps))); [done| |lia]. apply to_utf16; [done|lia].
  - assert (E : flat_map utf32_units cps = cps) by (clear; induction cps as [|c cps IH]; [done|]; simpl; by rewrite IH).
    transitivity (Ok (E := text_error) (true, flat_map utf32_units cps)); [|by rewrite E].
    apply converts_all with (len := Z.of_nat (length cps)); [done| |by rewrite E].
    apply to_utf32; [done|lia].
  - intros Ht. destruct (latin1_text cps Hcps Ht) as [E1 E2]. rewrite E2.
    transitivity (Ok (E := text_error) (true, flat_map latin1_units cps)); [|by rewrite E1].
    apply converts_all with (len := Z.of_nat (length cps)); [done| |by rewrite E1]. apply to_latin1; [done|lia].
  - intros pre c post -> Hs. rewrite flat_map_app. simpl. apply next_character; [|done].
    apply Forall_app in Hcps as [_ Hcps]. by apply Forall_cons in Hcps as [? _].
  - intros room Hroom. apply (report_loop_stops cps Hcps _ bad 0 0 room); try done.
Qed.
Lemma utf8_conversions_witness :
  converts utf16_units [0x41; 0xF0; 0x9F; 0x98; 0x80] 2 (Ok (false, [0x41])) /\
  DecodeToUTF16 [0x41; 0xF0; 0x9F; 0x98; 0x80] 3 = Ok (true, [0x41; 0xD83D; 0xDE00]).
Proof.
  destruct (utf8_conversions [0x41; 0xF0; 0x9F; 0x98; 0x80] 2 [0x41; 0x1F600] []) as ((Hc & _) & _ & H & _).
  - repeat constructor; by vm_compute.
  - lia.
  - repeat constructor; by vm_compute.
  - constructor.
  - intros c rest Hc E. destruct (encode_cons c Hc) as (? & ? & Ec & _). by rewrite Ec in E.
  - split; [exact Hc|exact H].
Defined.
