(* ===== verification/UnicodeString.v ===== *)
(** * Strings in UTF-8: runtime/vm/unicode.cc

    The length of a string in UTF-8 and its encoding, with the loops over the words of a
    one-byte string, and the iterator over the code points of a string of vm/object.h.
    The data of a one-byte string is read as words of eight bytes in little-endian order;
    the array that [Encode] fills is the list of what it has written. *)

From S2P Require Import Prelude Utils Unicode.

(** The two representations of a string: characters of one byte or of two. *)
Inductive String_ : Type :=
  | OneByteString (characters : list Z)
  | TwoByteString (characters : list Z).
Definition characters (str : String_) : list Z :=
  match str with OneByteString l => l | TwoByteString l => l end.
Definition IsOneByteString (str : String_) : bool :=
  match str with OneByteString _ => true | TwoByteString _ => false end.
Definition LengthOf (str : String_) : Z := Z.of_nat (length (characters str)).
Definition CharAt (str : String_) (index : Z) : text_result Z :=
  if index <? 0 then Err OutsideArray
  else match characters str !! Z.to_nat index with Some ch => Ok ch | None => Err OutsideArray end.

(** ** Code points of a string *)
Module CodePointIterator.

Record t : Type := mk { ch_ : Z; index_ : Z; end_ : Z }.

Definition make (str : String_) : t := mk 0 (-1) (LengthOf str).

Definition Current (it : t) : Z := ch_ it.

(** Whether there is a next character; the iterator is at it then. *)
Definition Next (str : String_) (it : t) : text_result (bool * t) :=
  let length := Utf16.Length (ch_ it) in
  if index_ it <? end_ it - length then
    let index := index_ it + length in
    ch ← CharAt str index;
    if Utf16.IsLeadSurrogate ch && (index <? end_ it - 1) then
      ch2 ← CharAt str (index + 1);
      if Utf16.IsTrailSurrogate ch2 then Ok (true, mk (Utf16.Decode ch ch2) index (end_ it))
      else Ok (true, mk ch index (end_ it))
    else Ok (true, mk ch index (end_ it))
  else Ok (false, mk (ch_ it) (end_ it) (end_ it)).
End CodePointIterator.

Module StringUtf8.
Import CodePointIterator.

Definition kWordSize : Z := 8.
Definition kAsciiWordMask : Z := 0x8080808080808080.

(** The word of a one-byte string that starts at the character [offset]. *)
Definition load_word (data : list Z) (offset : Z) : text_result Z :=
  if (0 <=? offset) && (offset + kWordSize <=? Z.of_nat (length data))
  then Ok (little_endian_to_Z 8 (take 8 (drop (Z.to_nat offset) data)))
  else Err OutsideArray.

(** ** Length *)

(** The characters of a word that take two bytes, counted by adding up their high bits. *)
Definition high_bits (chunk : Z) : Z :=
  let chunk := chunk .& kAsciiWordMask in
  if negb (chunk =? 0) then
    let chunk := u64 (chunk + (chunk ≫ 32)) in
    let chunk := u64 (chunk + (chunk ≫ 16)) in
    let chunk := u64 (chunk + (chunk ≫ 8)) in
    (chunk ≫ 7) .& 0xf
  else 0.

(** The loop over the words; [i] is where the next word ends. *)
Fixpoint Length_words (fuel : nat) (data : list Z) (i length_ : Z) : text_result (Z * Z) :=
  if i <=? Z.of_nat (length data) then
    match fuel with
    | O => Err TextRounds
    | S fuel =>
        chunk ← load_word data (i - kWordSize);
        Length_words fuel data (i + kWordSize) (u64 (length_ + high_bits chunk))
    end
  else Ok (i, length_).

(** The loop over the characters after the last word. *)
Fixpoint Length_tail (fuel : nat) (str : String_) (i length_ : Z) : text_result Z :=
  if i <? LengthOf str then
    match fuel with
    | O => Err TextRounds
    | S fuel =>
        ch ← CharAt str i;
        Length_tail fuel str (i + 1) (if Utf8.kMaxOneByteChar <? ch then u64 (length_ + 1) else length_)
    end
  else Ok length_.

(** The loop over the code points of a two-byte string. *)
Fixpoint Length_points (fuel : nat) (str : String_) (it : t) (length_ : Z) : text_result Z :=
  next ← Next str it;
  match next, fuel with
  | (false, _), _ => Ok length_
  | (true, _), O => Err TextRounds
  | (true, it), S fuel => Length_points fuel str it (length_ + Utf8.Length (Current it))
  end.

Definition Length (str : String_) : text_result Z :=
  let fuel := length (characters str) in
  if IsOneByteString str then
    '(i, length_) ← Length_words fuel (characters str) kWordSize (LengthOf str);
    Length_tail fuel str (i - kWordSize) length_
  else Length_points fuel str (make str) 0.

(** ** Encoding *)

(** Up to one word of characters, one at a time; false when the array is full. *)
Fixpoint Encode_chars (p : list Z) (array_len : Z) (dst : list Z) : bool * list Z :=
  match p with
  | [] => (true, dst)
  | c :: p =>
      let bytes := Utf8.Length c in
      if array_len <? Z.of_nat (length dst) + bytes then (false, dst)
      else Encode_chars p array_len (dst ++ Utf8.Encode c)
  end.

(** The loop over the words of a one-byte string: whether it reached the end, and what
    was written.  The position in the array is the number of bytes written. *)
Fixpoint Encode_words (fuel : nat) (data : list Z) (i array_len : Z) (dst : list Z) : text_result (bool * list Z) :=
  let char_length := Z.of_nat (length data) in
  if i <? char_length then
    match fuel with
    | O => Err TextRounds
    | S fuel =>
        ascii ← (if i + kWordSize <=? char_length then
                   word ← load_word data i;
                   Ok (if (word .& kAsciiWordMask =? 0) && (Z.of_nat (length dst) + kWordSize <=? array_len)
                       then Some word else None)
                 else Ok None);
        match ascii with
        | Some word => Encode_words fuel data (i + kWordSize) array_len (dst ++ Z_to_little_endian kWordSize 8 word)
        | None =>
            match Encode_chars (take (Z.to_nat (Z.min kWordSize (char_length - i))) (drop (Z.to_nat i) data))
                    array_len dst with
            | (true, dst) => Encode_words fuel data (i + kWordSize) array_len dst
            | (false, dst) => Ok (false, dst)
            end
        end
    end
  else Ok (true, dst).

(** The loop over the code points of a two-byte string; unpaired surrogates are replaced. *)
Fixpoint Encode_points (fuel : nat) (src : String_) (it : t) (len : Z) (dst : list Z) : text_result (list Z) :=
  next ← Next src it;
  match next, fuel with
  | (false, _), _ => Ok dst
  | (true, _), O => Err TextRounds
  | (true, it), S fuel =>
      let ch := if Utf16.IsSurrogate (Current it) then Utf.kReplacementChar else Current it in
      let num_bytes := Utf8.Length ch in
      if len <? Z.of_nat (length dst) + num_bytes then Ok dst
      else Encode_points fuel src it len (dst ++ Utf8.Encode ch)
  end.

(** The value that is returned and the bytes that are written.  The block for one-byte
    strings counts in a [pos] of its own, which the [return] after the blocks does not see. *)
Definition Encode (src : String_) (len : Z) : text_result (Z * list Z) :=
  let array_len := len in
  let pos := 0 in
  let fuel := length (characters src) in
  if IsOneByteString src then
    written ← Encode_words fuel (characters src) 0 array_len [];
    match written with
    | (true, dst) => Ok (pos, dst)
    | (false, dst) => Ok (Z.of_nat (length dst), dst)
    end
  else
    dst ← Encode_points fuel src (make src) len [];
    Ok (Z.of_nat (length dst), dst).
End StringUtf8.
