(* ===== verification/UnicodeStringCorrect.v ===== *)
(** * The encoding of strings in UTF-8 is that of their code points

    The length computed word by word from the high bits is the number of bytes of the
    encoding, and the encoding of a string is that of its code points, whether words or
    characters are written; what [Encode] returns is that number for two-byte strings. *)

From S2P Require Import Prelude Utils Unicode UnicodeCorrect UnicodeString.
Import TextFacts.

Module StringFacts.
Import CodePointIterator StringUtf8.

(** ** Words of characters *)

Lemma land_little_endian bs ms : length bs = length ms -> bytes bs -> bytes ms ->
  little_endian_to_Z 8 bs .& little_endian_to_Z 8 ms = little_endian_to_Z 8 (zip_with Z.land bs ms).
Proof.
  revert ms. induction bs as [|b bs IH]; intros [|m ms] Hl Hb Hm; try done. simpl in *.
  apply Forall_cons in Hb as [Hb Hbs]. apply Forall_cons in Hm as [Hm Hms]. rewrite <- IH by (done || lia).
  apply Z.bits_inj'. intros n Hn. rewrite !Z.land_spec, !Z.lor_spec, Z.land_spec, !Z.shiftl_spec, Z.land_spec by lia.
  destruct (Z.ltb_spec n 8).
  - rewrite !(Z.testbit_neg_r _ (n - 8)) by lia. by rewrite !orb_false_r.
  - rewrite (testbit_high 8 b n Hb), (testbit_high 8 m n Hm) by lia. done.
Qed.

Lemma high_bit b : is_u 8 b -> b .& 0x80 = if 0x80 <=? b then 0x80 else 0.
Proof. revert b. apply (below_eq 256 (fun b => b .& 0x80)). reflexivity. Qed.

Definition two_bytes (b : Z) : Z := if 0x80 <=? b then 1 else 0.
Fixpoint count_high (l : list Z) : Z := match l with [] => 0 | b :: l => two_bytes b + count_high l end.

Lemma count_high_nonneg l : 0 <= count_high l.
Proof. induction l as [|b l IH]; simpl; [lia|]. unfold two_bytes. case_match; lia. Qed.

(** The masked word has one bit for each character above 0x7F. *)
Lemma ascii_mask bs : length bs = 8%nat -> bytes bs ->
  little_endian_to_Z 8 bs .& kAsciiWordMask = little_endian_to_Z 8 (map (fun b => if 0x80 <=? b then 0x80 else 0) bs).
Proof.
  intros Hl Hb. change kAsciiWordMask with (little_endian_to_Z 8 (repeat 0x80 8)). rewrite <- Hl.
  rewrite land_little_endian; [|by rewrite repeat_length|done|by rewrite Hl; repeat constructor].
  f_equal. clear Hl. induction Hb as [|b bs Hb _ IH]; simpl; [done|]. by rewrite IH, high_bit.
Qed.

(** A word is given by its eight characters. *)
Lemma eight_of (l : list Z) : length l = 8%nat -> exists a b c d e f g h, l = [a; b; c; d; e; f; g; h].
Proof.
  do 8 (destruct l as [|? l]; [done|]). destruct l; [|done]. intros _. do 8 eexists. reflexivity.
Qed.

Lemma high_bits_count bs : length bs = 8%nat -> bytes bs -> high_bits (little_endian_to_Z 8 bs) = count_high bs.
Proof.
  intros Hl Hb. unfold high_bits. rewrite ascii_mask by done. clear Hb.
  destruct (eight_of bs Hl) as (a & b & c & d & e & f & g & h & ->). cbn [map count_high]. unfold two_bytes.
  destruct (0x80 <=? a), (0x80 <=? b), (0x80 <=? c), (0x80 <=? d), (0x80 <=? e), (0x80 <=? f), (0x80 <=? g), (0x80 <=? h);
    reflexivity.
Qed.

Lemma ascii_word bs : length bs = 8%nat -> bytes bs -> little_endian_to_Z 8 bs .& kAsciiWordMask = 0 ->
  Forall (fun b => 0 <= b < 0x80) bs.
Proof.
  intros Hl Hb E. pose proof (high_bits_count bs Hl Hb) as Hc. unfold high_bits in Hc. rewrite E in Hc. simpl in Hc.
  symmetry in Hc. revert Hc. clear Hl E. induction Hb as [|b bs [Hb _] _ IH]; [constructor|]. simpl. unfold two_bytes.
  pose proof (count_high_nonneg bs). destruct (Z.leb_spec 0x80 b); [lia|]. intros E. constructor; [lia|]. apply IH. lia.
Qed.

Lemma load_word_at (data : list Z) (i : nat) : (i + 8 <= length data)%nat ->
  load_word data (Z.of_nat i) = Ok (little_endian_to_Z 8 (take 8 (drop i data))).
Proof.
  intros Hi. unfold load_word, kWordSize. destruct (Z.leb_spec 0 (Z.of_nat i)), (Z.leb_spec (Z.of_nat i + 8) (Z.of_nat (length data)));
    try lia. simpl. by rewrite Nat2Z.id.
Qed.

(** ** Length of one-byte strings *)

Lemma count_high_app l l' : count_high (l ++ l') = count_high l + count_high l'.
Proof. induction l as [|b l IH]; simpl; lia. Qed.

Lemma utf8_length_byte b : is_u 8 b -> Utf8.Length b = 1 + two_bytes b.
Proof. revert b. apply (below_eq 256 Utf8.Length (fun b => 1 + two_bytes b)). reflexivity. Qed.

Lemma byte_code_point b : is_u 8 b -> code_point b.
Proof. unfold is_u, code_point, Utf.kMaxCodePoint. lia. Qed.
Lemma bytes_code_points l : bytes l -> Forall code_point l.
Proof. intros H. eapply Forall_impl; [exact H|]. exact byte_code_point. Qed.

Lemma encode_all_length_cons c cps : code_point c ->
  Z.of_nat (length (encode_all (c :: cps))) = Utf8.Length c + Z.of_nat (length (encode_all cps)).
Proof. intros Hc. simpl. rewrite length_app. pose proof (utf8_encode_length c Hc). lia. Qed.

Lemma encode_all_bytes_length l : bytes l -> Z.of_nat (length (encode_all l)) = Z.of_nat (length l) + count_high l.
Proof.
  induction 1 as [|b l Hb _ IH]; [done|].
  rewrite encode_all_length_cons, IH, utf8_length_byte by (done || by apply byte_code_point). simpl. lia.
Qed.

Lemma Length_words_count fuel data i n : bytes data -> (i <= length data)%nat -> (length data - i <= fuel)%nat ->
  0 <= n -> n + count_high (drop i data) < 2 ^ 64 ->
  exists j m, (j <= length data)%nat /\ Length_words fuel data (Z.of_nat i + 8) n = Ok (Z.of_nat j + 8, m) /\
    0 <= m /\ m + count_high (drop j data) = n + count_high (drop i data).
Proof.
  intros Hb. revert i n. induction fuel as [|fuel IH]; intros i n Hi Hfuel Hn Hmax; simpl Length_words.
  - destruct (Z.leb_spec (Z.of_nat i + 8) (Z.of_nat (length data))); [lia|]. by exists i, n.
  - destruct (Z.leb_spec (Z.of_nat i + 8) (Z.of_nat (length data))) as [Hw|_]; [|by exists i, n].
    unfold kWordSize. replace (Z.of_nat i + 8 - 8) with (Z.of_nat i) by lia. rewrite load_word_at by lia.
    cbn [mbind result_bind].
    assert (Hl : length (take 8 (drop i data)) = 8%nat) by (rewrite length_take, length_drop; lia).
    assert (Hbw : bytes (take 8 (drop i data))) by by apply Forall_take, Forall_drop.
    rewrite high_bits_count by done.
    assert (E : count_high (drop i data) = count_high (take 8 (drop i data)) + count_high (drop (i + 8) data)).
    { rewrite <- drop_drop, <- count_high_app. by rewrite take_drop. }
    pose proof (count_high_nonneg (take 8 (drop i data))). pose proof (count_high_nonneg (drop (i + 8) data)).
    rewrite uwrap_small by (unfold is_u; lia). replace (Z.of_nat i + 8 + 8) with (Z.of_nat (i + 8) + 8) by lia.
    destruct (IH (i + 8)%nat (n + count_high (take 8 (drop i data)))) as (j & m & Hj & -> & Hm & Hsum); [lia..|].
    exists j, m. split_and!; (done || lia).
Qed.

Lemma CharAt_at str i ch : characters str !! i = Some ch -> CharAt str (Z.of_nat i) = Ok ch.
Proof. intros E. unfold CharAt. destruct (Z.ltb_spec (Z.of_nat i) 0); [lia|]. by rewrite Nat2Z.id, E. Qed.

Lemma Length_tail_count fuel data i n : bytes data -> (length data - i <= fuel)%nat ->
  0 <= n -> n + count_high (drop i data) < 2 ^ 64 ->
  Length_tail fuel (OneByteString data) (Z.of_nat i) n = Ok (n + count_high (drop i data)).
Proof.
  intros Hb. revert i n. induction fuel as [|fuel IH]; intros i n Hfuel Hn Hmax; simpl Length_tail;
    unfold LengthOf; simpl characters; destruct (Z.ltb_spec (Z.of_nat i) (Z.of_nat (length data))).
  - lia.
  - rewrite drop_ge by lia. simpl. f_equal. lia.
  - destruct (lookup_lt_is_Some_2 data i) as [b Eb]; [lia|]. rewrite (CharAt_at _ i b) by done. cbn [mbind result_bind].
    rewrite (drop_S data b i) in Hmax |- * by done. cbn [count_high] in *. unfold two_bytes, Utf8.kMaxOneByteChar in *.
    pose proof (count_high_nonneg (drop (S i) data)). replace (Z.of_nat i + 1) with (Z.of_nat (S i)) by lia.
    destruct (Z.ltb_spec 0x7F b), (Z.leb_spec 0x80 b); try lia; rewrite ?uwrap_small by (unfold is_u; lia);
      rewrite IH by lia; f_equal; lia.
  - rewrite drop_ge by lia. simpl. f_equal. lia.
Qed.

(** The length of a one-byte string is that of its encoding. *)
Lemma Length_one_byte data : bytes data -> 2 * Z.of_nat (length data) < 2 ^ 64 ->
  Length (OneByteString data) = Ok (Z.of_nat (length (encode_all data))).
Proof.
  intros Hb Hmax. pose proof (encode_all_bytes_length data Hb) as E.
  assert (Hc : count_high data <= Z.of_nat (length data)).
  { clear. induction data as [|b data IH]; simpl; [lia|]. unfold two_bytes. case_match; lia. }
  unfold Length. simpl. unfold LengthOf. simpl.
  destruct (Length_words_count (length data) data 0 (Z.of_nat (length data)) Hb) as (j & m & Hj & Hw & Hm & Hsum);
    [lia|lia|lia|rewrite drop_0; lia|]. change (Z.of_nat 0 + 8) with kWordSize in Hw. rewrite Hw. cbn [mbind result_bind].
  unfold kWordSize. replace (Z.of_nat j + 8 - 8) with (Z.of_nat j) by lia. rewrite drop_0 in Hsum.
  rewrite Length_tail_count by (done || lia). f_equal. lia.
Qed.

(** ** Encoding into an array

    The bytes of the longest prefix of the code points that has room after [dst]. *)
Inductive fills (len : Z) (dst : list Z) (cps : list Z) : bool * list Z -> Prop :=
  | fills_prefix pre post : cps = pre ++ post -> Z.of_nat (length (dst ++ encode_all pre)) <= len ->
      (forall c rest, post = c :: rest -> len < Z.of_nat (length (dst ++ encode_all pre)) + Utf8.Length c) ->
      fills len dst cps (bool_decide (post = []), dst ++ encode_all pre).

Lemma fills_nil len dst : Z.of_nat (length dst) <= len -> fills len dst [] (true, dst).
Proof.
  intros Hlen. pose proof (fills_prefix len dst [] [] []) as H. simpl in H. rewrite app_nil_r in H. by apply H.
Qed.
Lemma fills_full len dst c cps : Z.of_nat (length dst) <= len -> len < Z.of_nat (length dst) + Utf8.Length c ->
  fills len dst (c :: cps) (false, dst).
Proof.
  intros Hlen Hfull. pose proof (fills_prefix len dst (c :: cps) [] (c :: cps)) as H. simpl in H.
  rewrite app_nil_r in H. apply H; [done|done|]. by intros d rest [= <- <-].
Qed.
Lemma fills_app len dst pre cps out : fills len (dst ++ encode_all pre) cps out -> fills len dst (pre ++ cps) out.
Proof.
  destruct 1 as [pre' post -> Hlen Hroom]. rewrite <- app_assoc, <- flat_map_app in *. rewrite app_assoc.
  by constructor.
Qed.
Lemma fills_split len dst cps cps' b out : fills len dst cps (b, out) ->
  (if b then forall out', fills len out cps' out' -> fills len dst (cps ++ cps') out' else fills len dst (cps ++ cps') (b, out)).
Proof.
  inversion 1 as [pre post E Hlen Hroom Eb]. subst. destruct post as [|c post].
  - rewrite bool_decide_eq_true_2 by done. intros out'. rewrite app_nil_r. apply fills_app.
  - rewrite bool_decide_eq_false_2 by done. rewrite <- app_assoc.
    pose proof (fills_prefix len dst (pre ++ (c :: post) ++ cps') pre ((c :: post) ++ cps') eq_refl Hlen) as Hf.
    rewrite bool_decide_eq_false_2 in Hf by done. apply Hf. intros d rest [= <- <-]. by apply (Hroom c post).
Qed.

Lemma Encode_chars_fills p len dst : Forall code_point p -> Z.of_nat (length dst) <= len ->
  fills len dst p (Encode_chars p len dst).
Proof.
  intros Hp. revert dst. induction Hp as [|c p Hc _ IH]; intros dst Hlen; simpl; [by apply fills_nil|].
  destruct (Z.ltb_spec len (Z.of_nat (length dst) + Utf8.Length c)); [by apply fills_full|].
  pose proof (utf8_encode_length c Hc). apply (fills_app len dst [c]). simpl. rewrite app_nil_r. apply IH.
  rewrite length_app. lia.
Qed.

Lemma ascii_encoding l : Forall (fun b => 0 <= b < 0x80) l -> encode_all l = l.
Proof.
  induction 1 as [|b l Hb _ IH]; simpl; [done|]. rewrite IH. unfold Utf8.Encode, Utf8.kMaxOneByteChar.
  destruct (Z.leb_spec b 0x7F); [|lia]. by rewrite uwrap_small by (unfold is_u; lia).
Qed.

(** A word without high bits is written as it is, which is how its characters are encoded. *)
Lemma word_fills w len dst : length w = 8%nat -> bytes w -> little_endian_to_Z 8 w .& kAsciiWordMask = 0 ->
  Z.of_nat (length dst) + 8 <= len ->
  fills len dst w (true, dst ++ Z_to_little_endian kWordSize 8 (little_endian_to_Z 8 w)).
Proof.
  intros Hl Hb Hm Hlen. pose proof (ascii_encoding w (ascii_word w Hl Hb Hm)) as E. unfold kWordSize.
  rewrite Z_to_little_endian_to_Z by (lia || done). pose proof (fills_prefix len dst w w []) as H.
  rewrite bool_decide_eq_true_2, E in H by done. apply H; [by rewrite app_nil_r| |done]. rewrite length_app. lia.
Qed.

Lemma Encode_words_fills fuel data i len dst : bytes data -> (length data - i <= fuel)%nat ->
  Z.of_nat (length dst) <= len ->
  exists out, Encode_words fuel data (Z.of_nat i) len dst = Ok out /\ fills len dst (drop i data) out.
Proof.
  intros Hb. revert i dst. induction fuel as [|fuel IH]; intros i dst Hfuel Hlen; simpl Encode_words;
    destruct (Z.ltb_spec (Z.of_nat i) (Z.of_nat (length data))) as [Hi|Hi]; try lia;
    try (rewrite drop_ge by lia; eexists; split; [done|by apply fills_nil]).
  assert (Hnext : forall w dst', w = take 8 (drop i data) -> fills len dst w (true, dst') ->
    exists out, Encode_words fuel data (Z.of_nat i + kWordSize) len dst' = Ok out /\ fills len dst (drop i data) out).
  { intros w dst' -> Hw. replace (Z.of_nat i + kWordSize) with (Z.of_nat (i + 8)) by (unfold kWordSize; lia).
    pose proof (fills_split len dst _ (drop 8 (drop i data)) true dst' Hw) as Hs. simpl in Hs.
    rewrite take_drop, drop_drop in Hs. destruct (IH (i + 8)%nat dst') as (out & -> & Hout); [lia|by inversion Hw|].
    eauto. }
  assert (Hchars : exists out, match Encode_chars (take 8 (drop i data)) len dst with
      | (true, dst) => Encode_words fuel data (Z.of_nat i + kWordSize) len dst
      | (false, dst) => Ok (false, dst) end = Ok out /\ fills len dst (drop i data) out).
  { pose proof (Encode_chars_fills (take 8 (drop i data)) len dst) as Hf.
    destruct (Encode_chars (take 8 (drop i data)) len dst) as [[|] dst'].
    - apply (Hnext (take 8 (drop i data))); [done|]. apply Hf; [|done]. by apply bytes_code_points, Forall_take, Forall_drop.
    - eexists. split; [done|]. rewrite <- (take_drop 8 (drop i data)).
      apply (fills_split len dst _ (drop 8 (drop i data)) false dst'). apply Hf; [|done].
      by apply bytes_code_points, Forall_take, Forall_drop. }
  assert (Et : take (Z.to_nat (Z.min kWordSize (Z.of_nat (length data) - Z.of_nat i))) (drop (Z.to_nat (Z.of_nat i)) data)
               = take 8 (drop i data)).
  { rewrite Nat2Z.id. unfold kWordSize. destruct (Z.leb_spec 8 (Z.of_nat (length data) - Z.of_nat i)).
    - by rewrite Z.min_l.
    - rewrite Z.min_r, !take_ge by (rewrite ?length_drop; lia). done. }
  rewrite Et. destruct (Z.leb_spec (Z.of_nat i + kWordSize) (Z.of_nat (length data))) as [Hw|_]; [|exact Hchars].
  unfold kWordSize in Hw. rewrite load_word_at by lia. cbn [mbind result_bind].
  destruct (Z.eqb_spec (little_endian_to_Z 8 (take 8 (drop i data)) .& kAsciiWordMask) 0) as [Hm|_]; [|exact Hchars].
  destruct (Z.leb_spec (Z.of_nat (length dst) + kWordSize) len) as [Hr|_]; [|exact Hchars].
  apply (Hnext (take 8 (drop i data))); [done|]. apply word_fills; try done.
  - rewrite length_take, length_drop. lia.
  - by apply Forall_take, Forall_drop.
Qed.

(** ** Code points of a string *)

(** The code points of UTF-16 units: a lead surrogate and the trail surrogate after it are
    one, any other unit is one. *)
Fixpoint points (l : list Z) : list Z :=
  match l with
  | [] => []
  | a :: rest =>
      match rest with
      | b :: l' =>
          if Utf16.IsLeadSurrogate a && Utf16.IsTrailSurrogate b then Utf16.Decode a b :: points l'
          else a :: points rest
      | [] => [a]
      end
  end.
Definition units (l : list Z) : Prop := Forall (is_u 16) l.

Lemma u16_u32 a : is_u 16 a -> is_u 32 a.
Proof. unfold is_u. lia. Qed.

(** A surrogate pair is read as a supplementary code point, and written as it was. *)
Lemma surrogate_pair a b : is_u 16 a -> is_u 16 b -> Utf16.IsLeadSurrogate a && Utf16.IsTrailSurrogate b = true ->
  0xFFFF < Utf16.Decode a b <= Utf.kMaxCodePoint /\ Utf16.Encode (Utf16.Decode a b) = [a; b].
Proof.
  intros Ha Hb. rewrite lead_surrogate, trail_surrogate by by apply u16_u32.
  rewrite !andb_true_iff, !Z.leb_le. intros [[??] [??]].
  pose proof (decode_pair (a - 0xD800) (b - 0xDC00)) as E.
  replace (0xD800 + (a - 0xD800)) with a in E by lia. replace (0xDC00 + (b - 0xDC00)) with b in E by lia.
  specialize (E ltac:(lia) ltac:(lia)).
  assert (Hr : 0xFFFF < Utf16.Decode a b <= Utf.kMaxCodePoint) by (unfold Utf.kMaxCodePoint; lia). split; [done|].
  destruct (encode_pair _ Hr) as [x y Exy Hx Hy]. repeat first [lia | f_equal].
Qed.

(** Two characters at most make a step. *)
Lemma points_ind (P : list Z -> Prop) : P [] -> (forall a, P [a]) ->
  (forall a b l, P l -> P (b :: l) -> P (a :: b :: l)) -> forall l, P l.
Proof.
  intros H0 H1 H2 l. assert (H : P l /\ forall a, P (a :: l)); [|apply H].
  induction l as [|b l [IH1 IH2]]; [done|]. split; [done|]. intros a. by apply H2.
Qed.

Lemma unit_length a : is_u 16 a -> Utf16.Length a = 1.
Proof. unfold is_u, Utf16.Length, Utf16.kMaxCodeUnit. intros. destruct (Z.leb_spec a 0xFFFF); lia. Qed.

Lemma points_units l : units l -> Forall code_point (points l) /\ flat_map utf16_units (points l) = l.
Proof.
  induction l as [|a|a b l IH1 IH2] using points_ind; intros Hl.
  - done.
  - apply Forall_cons in Hl as [Ha _]. unfold is_u in Ha. simpl. unfold utf16_units.
    destruct (Z.leb_spec a 0xFFFF); [|lia]. split; [|done]. repeat constructor; unfold Utf.kMaxCodePoint; lia.
  - apply Forall_cons in Hl as [Ha Hl]. pose proof Hl as Hl'. apply Forall_cons in Hl' as [Hb Hl'].
    cbn [points]. destruct (Utf16.IsLeadSurrogate a && Utf16.IsTrailSurrogate b) eqn:Hp.
    + destruct (surrogate_pair a b Ha Hb Hp) as [Hr Hc]. destruct (IH1 Hl') as [Hcp E]. split.
      * constructor; [unfold code_point; lia|done].
      * cbn [flat_map]. rewrite E. unfold utf16_units. rewrite Hc. destruct (Z.leb_spec (Utf16.Decode a b) 0xFFFF); [lia|done].
    + destruct (IH2 Hl) as [Hcp E]. cbn [points] in *. split.
      * constructor; [unfold code_point, Utf.kMaxCodePoint, is_u in *; lia|done].
      * cbn [flat_map]. rewrite E. unfold utf16_units. unfold is_u in Ha. destruct (Z.leb_spec a 0xFFFF); [done|lia].
Qed.

Lemma points_length l : (length (points l) <= length l)%nat.
Proof.
  induction l as [|a|a b l IH1 IH2] using points_ind; [done..|]. cbn [points].
  destruct (_ && _); cbn [length points] in *; lia.
Qed.

(** The iterator is before the characters from [n] on. *)
Definition before (str : String_) (it : t) (n : nat) : Prop :=
  index_ it + Utf16.Length (ch_ it) = Z.of_nat n /\ end_ it = LengthOf str.

Lemma before_make str : before str (make str) 0.
Proof. by split. Qed.

(** One step of the iterator takes the first code point of what is left. *)
Lemma Next_point str it n : units (characters str) -> before str it n ->
  match points (drop n (characters str)) with
  | [] => exists it', Next str it = Ok (false, it')
  | c :: cps => exists it' n', Next str it = Ok (true, it') /\ Current it' = c /\ before str it' n' /\
      points (drop n' (characters str)) = cps
  end.
Proof.
  intros Hu [Hn Hend]. unfold Next. rewrite Hend. unfold LengthOf in *. set (l := characters str) in *.
  destruct (Z.ltb_spec (index_ it) (Z.of_nat (length l) - Utf16.Length (ch_ it))) as [Hi|Hi].
  2: { rewrite drop_ge by lia. simpl. eauto. }
  rewrite Hn. destruct (lookup_lt_is_Some_2 l n) as [a Ea]; [lia|]. rewrite (CharAt_at str n a) by done.
  cbn [mbind result_bind]. rewrite (drop_S l a n) by done.
  assert (Ha : is_u 16 a) by exact (Forall_lookup_1 _ _ _ _ Hu Ea).
  assert (Hone : before str (mk a (Z.of_nat n) (Z.of_nat (length l))) (S n)).
  { split; simpl; [rewrite unit_length by done; lia|done]. }
  destruct (Z.ltb_spec (Z.of_nat n) (Z.of_nat (length l) - 1)) as [Hm|Hm].
  - destruct (lookup_lt_is_Some_2 l (S n)) as [b Eb]; [lia|].
    assert (Hb : is_u 16 b) by exact (Forall_lookup_1 _ _ _ _ Hu Eb).
    replace (Z.of_nat n + 1) with (Z.of_nat (S n)) by lia. rewrite (CharAt_at str (S n) b) by done.
    cbn [mbind result_bind]. rewrite andb_true_r, (drop_S l b (S n)) by done. cbn [points].
    destruct (Utf16.IsLeadSurrogate a) eqn:Hlead; cbn [andb];
      [destruct (Utf16.IsTrailSurrogate b) eqn:Htrail|].
    + destruct (surrogate_pair a b Ha Hb) as [Hr _]; [by rewrite Hlead, Htrail|].
      do 2 eexists. split_and!; [done|done| |done]. split; [|done]. simpl. unfold Utf16.Length, Utf16.kMaxCodeUnit.
      destruct (Z.leb_spec (Utf16.Decode a b) 0xFFFF); [lia|]. lia.
    + do 2 eexists. split_and!; [done|done|exact Hone|]. by rewrite (drop_S l b (S n)).
    + do 2 eexists. split_and!; [done|done|exact Hone|]. by rewrite (drop_S l b (S n)).
  - rewrite andb_false_r, drop_ge by lia. cbn [points]. do 2 eexists. split_and!; [done|done|exact Hone|].
    by rewrite drop_ge by lia.
Qed.

Lemma Length_points_sum fuel str it n len : units (characters str) -> before str it n ->
  (length (points (drop n (characters str))) <= fuel)%nat ->
  Length_points fuel str it len = Ok (len + Z.of_nat (length (encode_all (points (drop n (characters str)))))).
Proof.
  intros Hu. revert it n len. induction fuel as [|fuel IH]; intros it n len Hbefore Hfuel;
    pose proof (Next_point str it n Hu Hbefore) as Hnext;
    pose proof (proj1 (points_units (drop n (characters str)) (Forall_drop _ _ _ Hu))) as Hcps;
    destruct (points (drop n (characters str))) as [|c cps]; simpl in Hfuel; try lia; cbn [Length_points].
  1,2: destruct Hnext as (it' & ->); cbn [mbind result_bind]; f_equal; simpl; lia.
  destruct Hnext as (it' & n' & -> & Hc & Hb' & Hrest). cbn [mbind result_bind]. apply Forall_cons in Hcps as [Hcp _].
  rewrite encode_all_length_cons by done. rewrite (IH it' n') by (done || rewrite Hrest; lia).
  rewrite Hrest, Hc. f_equal. lia.
Qed.

(** Unpaired surrogates become replacement characters, of the same length. *)
Definition replaced (ch : Z) : Z := if Utf16.IsSurrogate ch then Utf.kReplacementChar else ch.
Lemma replaced_code_point c : code_point c -> code_point (replaced c) /\ Utf16.IsSurrogate (replaced c) = false.
Proof. intros Hc. unfold replaced. destruct (Utf16.IsSurrogate c) eqn:E; [by vm_compute|done]. Qed.
Lemma replaced_length c : code_point c -> Utf8.Length (replaced c) = Utf8.Length c.
Proof.
  unfold code_point, Utf.kMaxCodePoint, replaced. intros Hc. rewrite surrogate by (unfold is_u; lia).
  destruct (Z.leb_spec 0xD800 c), (Z.leb_spec c 0xDFFF); try done. cbn [andb].
  change (Utf8.Length Utf.kReplacementChar) with 3.
  unfold Utf8.Length, Utf8.kMaxOneByteChar, Utf8.kMaxTwoByteChar, Utf8.kMaxThreeByteChar.
  repeat match goal with |- context [c <=? ?k] => destruct (Z.leb_spec c k) end; lia.
Qed.

Lemma encode_all_replaced_length cps : Forall code_point cps ->
  length (encode_all (map replaced cps)) = length (encode_all cps).
Proof.
  intros H. apply Nat2Z.inj. induction H as [|c cps Hc _ IH]; [done|]. cbn [map].
  rewrite !encode_all_length_cons, IH, replaced_length by (done || by apply replaced_code_point). done.
Qed.

Lemma Encode_points_fills fuel str it n len dst : units (characters str) -> before str it n ->
  (length (points (drop n (characters str))) <= fuel)%nat -> Z.of_nat (length dst) <= len ->
  exists b out, Encode_points fuel str it len dst = Ok out /\
    fills len dst (map replaced (points (drop n (characters str)))) (b, out).
Proof.
  intros Hu. revert it n dst. induction fuel as [|fuel IH]; intros it n dst Hbefore Hfuel Hlen;
    pose proof (Next_point str it n Hu Hbefore) as Hnext;
    pose proof (proj1 (points_units (drop n (characters str)) (Forall_drop _ _ _ Hu))) as Hcps;
    destruct (points (drop n (characters str))) as [|c cps]; simpl in Hfuel; try lia; cbn [Encode_points].
  1,2: destruct Hnext as (it' & ->); exists true, dst; split; [done|by apply fills_nil].
  destruct Hnext as (it' & n' & -> & Hc & Hb' & Hrest). cbn [mbind result_bind]. apply Forall_cons in Hcps as [Hcp _].
  rewrite Hc. fold (replaced c). cbn [map]. pose proof (utf8_encode_length _ (proj1 (replaced_code_point c Hcp))) as [Hl _].
  destruct (Z.ltb_spec len (Z.of_nat (length dst) + Utf8.Length (replaced c))).
  { exists false, dst. split; [done|by apply fills_full]. }
  destruct (IH it' n' (dst ++ Utf8.Encode (replaced c))) as (b & out & -> & Hf); [done|rewrite Hrest; lia|rewrite length_app; lia|].
  exists b, out. split; [done|]. apply (fills_app len dst [replaced c]). simpl. rewrite app_nil_r, <- Hrest. exact Hf.
Qed.

(** ** Strings *)

Definition string_ok (str : String_) : Prop :=
  match str with OneByteString l => bytes l | TwoByteString l => units l end /\ 2 * LengthOf str < 2 ^ 64.

(** The code points that are encoded. *)
Definition utf8_points (str : String_) : list Z :=
  match str with OneByteString l => l | TwoByteString l => map replaced (points l) end.

Lemma utf8_points_ok str : string_ok str ->
  Forall (fun c => code_point c /\ Utf16.IsSurrogate c = false) (utf8_points str).
Proof.
  intros [Hs _]. destruct str as [l|l]; simpl.
  - eapply Forall_impl; [exact Hs|]. intros b Hb. split; [by apply byte_code_point|]. unfold is_u in Hb.
    rewrite surrogate by (unfold is_u; lia). destruct (Z.leb_spec 0xD800 b); [lia|done].
  - apply Forall_map. eapply Forall_impl; [exact (proj1 (points_units l Hs))|]. exact replaced_code_point.
Qed.
Lemma utf8_points_code_points str : string_ok str -> Forall code_point (utf8_points str).
Proof. intros H. eapply Forall_impl; [exact (utf8_points_ok str H)|]. by intros c []. Qed.

Lemma Length_string str : string_ok str -> Length str = Ok (Z.of_nat (length (encode_all (utf8_points str)))).
Proof.
  intros [Hs Hmax]. destruct str as [l|l]; simpl utf8_points; [by apply Length_one_byte|].
  unfold Length. simpl. rewrite (Length_points_sum _ (TwoByteString l) _ 0) by (done || apply before_make || apply points_length).
  rewrite encode_all_replaced_length by by apply points_units. done.
Qed.

Lemma Encode_string str len : string_ok str -> 0 <= len ->
  exists b out, fills len [] (utf8_points str) (b, out) /\
    Encode str len = Ok (if IsOneByteString str && b then 0 else Z.of_nat (length out), out).
Proof.
  intros [Hs Hmax] Hlen. destruct str as [l|l]; simpl utf8_points; unfold Encode; simpl.
  - destruct (Encode_words_fills (length l) l 0 len [] Hs) as ([b out] & E & Hf); [lia|done|].
    change (Z.of_nat 0) with 0 in E. rewrite E. rewrite drop_0 in Hf. exists b, out. split; [done|]. by destruct b.
  - destruct (Encode_points_fills (length l) (TwoByteString l) (make (TwoByteString l)) 0 len []) as (b & out & E & Hf);
      [done|apply before_make|apply points_length|done|].
    rewrite E. exists b, out. done.
Qed.

(** With room for all of them, all code points are encoded. *)
Lemma fills_all len cps b out : Forall code_point cps -> fills len [] cps (b, out) ->
  Z.of_nat (length (encode_all cps)) <= len -> b = true /\ out = encode_all cps.
Proof.
  intros Hcps Hf Hlen. inversion Hf as [pre post E Hl Hroom Eb]. subst. simpl in *. destruct post as [|c post].
  { by rewrite app_nil_r. }
  apply Forall_app in Hcps as [_ Hcps]. apply Forall_cons in Hcps as [Hc _]. specialize (Hroom c post eq_refl).
  rewrite flat_map_app, length_app in Hlen. pose proof (encode_all_length_cons c post Hc). lia.
Qed.

(** A string without unpaired surrogates is what its encoding is decoded to. *)
Lemma string_round_trip str : string_ok str -> Forall (fun c => Utf16.IsSurrogate c = false) (points (characters str)) ->
  flat_map utf16_units (utf8_points str) = characters str.
Proof.
  intros [Hs _] Hp. destruct str as [l|l]; simpl in *.
  - clear Hp. induction Hs as [|b l Hb _ IH]; [done|]. simpl. rewrite IH. unfold utf16_units. unfold is_u in Hb.
    destruct (Z.leb_spec b 0xFFFF); [done|lia].
  - rewrite <- (proj2 (points_units l Hs)) at 2. f_equal.
    induction Hp as [|c cps Hc _ IH]; [done|]. simpl. rewrite IH. unfold replaced. by rewrite Hc.
Qed.
End StringFacts.

Import StringFacts.

(** C21: [Length] of a string is the number of bytes of its encoding, [Encode] with that
    much room writes the encoding of its code points, unpaired surrogates replaced, and
    with less the longest prefix that has room; what is written is valid UTF-8 and, when
    no surrogate is unpaired, converted back to the characters of the string.  The value
    returned is the number of bytes written, but zero for a one-byte string that had room:
    the count is kept in a variable of the inner block that hides the one returned. *)
Theorem string_utf8 str len : string_ok str -> 0 <= len ->
  let cps := utf8_points str in
  StringUtf8.Length str = Ok (Z.of_nat (length (encode_all cps))) /\
  (exists b out, fills len [] cps (b, out) /\
     StringUtf8.Encode str len = Ok (if IsOneByteString str && b then 0 else Z.of_nat (length out), out)) /\
  (Z.of_nat (length (encode_all cps)) <= len ->
     StringUtf8.Encode str len = Ok (if IsOneByteString str then 0 else Z.of_nat (length (encode_all cps)), encode_all cps)) /\
  Utf8.IsValid (encode_all cps) = true /\ Forall (fun c => Utf16.IsSurrogate c = false) cps /\
  (Forall (fun c => Utf16.IsSurrogate c = false) (points (characters str)) ->
     Utf8.DecodeToUTF16 (encode_all cps) (LengthOf str) = Ok (true, characters str)).
Proof.
  intros Hs Hlen cps. pose proof (utf8_points_code_points str Hs) as Hcps.
  destruct (Encode_string str len Hs Hlen) as (b & out & Hf & He). split_and!.
  - by apply Length_string.
  - eauto.
  - intros Hroom. destruct (fills_all len cps b out Hcps Hf Hroom) as [-> ->]. by rewrite He, andb_true_r.
  - apply IsValid_correct; [by apply encode_all_bytes|]. by exists cps.
  - eapply Forall_impl; [exact (utf8_points_ok str Hs)|]. by intros c [].
  - intros Hp. pose proof (string_round_trip str Hs Hp) as E. fold cps in E. unfold LengthOf. rewrite <- E at 1 2.
    apply converts_all with (len := Z.of_nat (length (flat_map utf16_units cps))); [done| |lia].
    apply to_utf16; [by apply encode_all_bytes|lia].
Qed.
Lemma string_utf8_witness :
  StringUtf8.Encode (OneByteString [0x48; 0xE9]) 3 = Ok (0, [0x48; 0xC3; 0xA9]) /\
  StringUtf8.Encode (TwoByteString [0x48; 0xD800; 0xD83D; 0xDE00]) 8
    = Ok (8, [0x48; 0xEF; 0xBF; 0xBD; 0xF0; 0x9F; 0x98; 0x80]).
Proof.
  destruct (string_utf8 (OneByteString [0x48; 0xE9]) 3) as (_ & _ & H1 & _); [|lia|].
  { split; [repeat constructor; by vm_compute|by vm_compute]. }
  destruct (string_utf8 (TwoByteString [0x48; 0xD800; 0xD83D; 0xDE00]) 8) as (_ & _ & H2 & _); [|lia|].
  { split; [repeat constructor; by vm_compute|by vm_compute]. }
  split; [apply H1|apply H2]; by vm_compute.
Defined.
