(* ===== verification/UnicodeData.v ===== *)
(** * The tables of the case mappings: runtime/vm/unicode_data.cc

    A code point selects a block through its high bits; the block holds the distance to
    the other case, shifted by the kind of the entry. *)

From S2P Require Import Prelude.

Module CaseTables.

(** The block of each 256 code points. *)
Definition stage1_ : list Z :=
  [0; 1; 2; 3; 4; 5; 6; 6; 6; 6; 6; 6; 6; 6; 6; 6; 7; 6; 6; 6; 6; 6; 6; 6; 6; 6; 6; 6; 6; 8; 9; 10; 6; 11; 6; 6;
   12; 6; 6; 6; 6; 6; 6; 6; 13; 14; 6; 6; 6; 6; 6; 6; 6; 6; 6; 6; 6; 6; 6; 6; 6; 6; 6; 6; 6; 6; 6; 6; 6; 6; 6;
   6; 6; 6; 6; 6; 6; 6; 6; 6; 6; 6; 6; 6; 6; 6; 6; 6; 6; 6; 6; 6; 6; 6; 6; 6; 6; 6; 6; 6; 6; 6; 6; 6; 6; 6; 6;
   6; 6; 6; 6; 6; 6; 6; 6; 6; 6; 6; 6; 6; 6; 6; 6; 6; 6; 6; 6; 6; 6; 6; 6; 6; 6; 6; 6; 6; 6; 6; 6; 6; 6; 6; 6;
   6; 6; 6; 6; 6; 6; 6; 6; 6; 6; 6; 6; 6; 6; 6; 6; 6; 6; 6; 6; 6; 6; 6; 15; 16; 6; 6; 6; 6; 6; 6; 6; 6; 6; 6; 6;
   6; 6; 6; 6; 6; 6; 6; 6; 6; 6; 6; 6; 6; 6; 6; 6; 6; 6; 6; 6; 6; 6; 6; 6; 6; 6; 6; 6; 6; 6; 6; 6; 6; 6; 6; 6;
   6; 6; 6; 6; 6; 6; 6; 6; 6; 6; 6; 6; 6; 6; 6; 6; 6; 6; 6; 6; 6; 6; 6; 6; 6; 6; 6; 6; 6; 6; 6; 6; 6; 6; 6; 6;
   6; 6; 6; 6; 17; 6; 6; 6; 6; 18].

(** ** The blocks of [stage2_] *)

Definition block0 : list Z :=
  [0; 0; 0; 0; 0; 0; 0; 0; 0; 0; 0; 0; 0; 0; 0; 0; 0; 0; 0; 0; 0; 0; 0; 0; 0; 0; 0; 0; 0; 0; 0; 0; 0; 0; 0; 0;
   0; 0; 0; 0; 0; 0; 0; 0; 0; 0; 0; 0; 0; 0; 0; 0; 0; 0; 0; 0; 0; 0; 0; 0; 0; 0; 0; 0; 0; 130; 130; 130; 130;
   130; 130; 130; 130; 130; 130; 130; 130; 130; 130; 130; 130; 130; 130; 130; 130; 130; 130; 130; 130; 130; 130;
   0; 0; 0; 0; 0; 0; (-127); (-127); (-127); (-127); (-127); (-127); (-127); (-127); (-127); (-127); (-127);
   (-127); (-127); (-127); (-127); (-127); (-127); (-127); (-127); (-127); (-127); (-127); (-127); (-127);
   (-127); (-127); 0; 0; 0; 0; 0; 0; 0; 0; 0; 0; 0; 0; 0; 0; 0; 0; 0; 0; 0; 0; 0; 0; 0; 0; 0; 0; 0; 0; 0; 0; 0;
   0; 0; 0; 0; 0; 0; 0; 0; 0; 0; 0; 0; 0; 0; 0; 0; 0; 0; 0; 0; 0; 0; 0; 0; 0; 0; 0; 2973; 0; 0; 0; 0; 0; 0; 0;
   0; 0; 0; 130; 130; 130; 130; 130; 130; 130; 130; 130; 130; 130; 130; 130; 130; 130; 130; 130; 130; 130; 130;
   130; 130; 130; 0; 130; 130; 130; 130; 130; 130; 130; 0; (-127); (-127); (-127); (-127); (-127); (-127);
   (-127); (-127); (-127); (-127); (-127); (-127); (-127); (-127); (-127); (-127); (-127); (-127); (-127);
   (-127); (-127); (-127); (-127); 0; (-127); (-127); (-127); (-127); (-127); (-127); (-127); 485].
Definition block1 : list Z :=
  [6; (-3); 6; (-3); 6; (-3); 6; (-3); 6; (-3); 6; (-3); 6; (-3); 6; (-3); 6; (-3); 6; (-3); 6; (-3); 6; (-3);
   6; (-3); 6; (-3); 6; (-3); 6; (-3); 6; (-3); 6; (-3); 6; (-3); 6; (-3); 6; (-3); 6; (-3); 6; (-3); 6; (-3);
   (-794); (-927); 6; (-3); 6; (-3); 6; (-3); 0; 6; (-3); 6; (-3); 6; (-3); 6; (-3); 6; (-3); 6; (-3); 6; (-3);
   6; (-3); 0; 6; (-3); 6; (-3); 6; (-3); 6; (-3); 6; (-3); 6; (-3); 6; (-3); 6; (-3); 6; (-3); 6; (-3); 6;
   (-3); 6; (-3); 6; (-3); 6; (-3); 6; (-3); 6; (-3); 6; (-3); 6; (-3); 6; (-3); 6; (-3); 6; (-3); 6; (-3); 6;
   (-3); (-482); 6; (-3); 6; (-3); 6; (-3); (-1199); 781; 842; 6; (-3); 6; (-3); 826; 6; (-3); 822; 822; 6;
   (-3); 0; 318; 810; 814; 6; (-3); 822; 830; 389; 846; 838; 6; (-3); 653; 0; 846; 854; 521; 858; 6; (-3); 6;
   (-3); 6; (-3); 874; 6; (-3); 874; 0; 0; 6; (-3); 874; 6; (-3); 870; 870; 6; (-3); 6; (-3); 878; 6; (-3); 0;
   0; 6; (-3); 0; 225; 0; 0; 0; 0; 10; 3; (-7); 10; 7; (-7); 10; 11; (-7); 6; (-3); 6; (-3); 6; (-3); 6; (-3);
   6; (-3); 6; (-3); 6; (-3); 6; (-3); (-315); 6; (-3); 6; (-3); 6; (-3); 6; (-3); 6; (-3); 6; (-3); 6; (-3); 6;
   (-3); 6; (-3); 0; 10; 15; (-7); 6; (-3); (-386); (-222); 6; (-3); 6; (-3); 6; (-3); 6; (-3)].
Definition block2 : list Z :=
  [6; (-3); 6; (-3); 6; (-3); 6; (-3); 6; (-3); 6; (-3); 6; (-3); 6; (-3); 6; (-3); 6; (-3); 6; (-3); 6; (-3);
   6; (-3); 6; (-3); 6; (-3); 6; (-3); (-518); 0; 6; (-3); 6; (-3); 6; (-3); 6; (-3); 6; (-3); 6; (-3); 6; (-3);
   6; (-3); 6; (-3); 0; 0; 0; 0; 0; 0; 19; 6; (-3); (-650); 23; 0; 0; 6; (-3); (-778); 278; 286; 6; (-3); 6;
   (-3); 6; (-3); 6; (-3); 6; (-3); 27; 31; 0; (-839); (-823); 0; (-819); (-819); 0; (-807); 0; (-811); 0; 0; 0;
   0; (-819); 0; 0; (-827); 0; 0; 0; 0; (-835); (-843); 0; 35; 0; 0; 0; (-843); 0; 39; (-851); 0; 0; (-855); 0;
   0; 0; 0; 0; 0; 0; 43; 0; 0; (-871); 0; 0; (-871); 0; 0; 0; 0; (-871); (-275); (-867); (-867); (-283); 0; 0;
   0; 0; 0; (-875); 0; 0; 0; 0; 0; 0; 0; 0; 0; 0; 0; 0; 0; 0; 0; 0; 0; 0; 0; 0; 0; 0; 0; 0; 0; 0; 0; 0; 0; 0; 0;
   0; 0; 0; 0; 0; 0; 0; 0; 0; 0; 0; 0; 0; 0; 0; 0; 0; 0; 0; 0; 0; 0; 0; 0; 0; 0; 0; 0; 0; 0; 0; 0; 0; 0; 0; 0;
   0; 0; 0; 0; 0; 0; 0; 0; 0; 0; 0; 0; 0; 0; 0; 0; 0; 0; 0; 0; 0; 0; 0; 0; 0; 0; 0; 0; 0; 0; 0; 0; 0; 0; 0; 0;
   0; 0; 0; 0; 0; 0].
Definition block3 : list Z :=
  [0; 0; 0; 0; 0; 0; 0; 0; 0; 0; 0; 0; 0; 0; 0; 0; 0; 0; 0; 0; 0; 0; 0; 0; 0; 0; 0; 0; 0; 0; 0; 0; 0; 0; 0; 0;
   0; 0; 0; 0; 0; 0; 0; 0; 0; 0; 0; 0; 0; 0; 0; 0; 0; 0; 0; 0; 0; 0; 0; 0; 0; 0; 0; 0; 0; 0; 0; 0; 0; 337; 0; 0;
   0; 0; 0; 0; 0; 0; 0; 0; 0; 0; 0; 0; 0; 0; 0; 0; 0; 0; 0; 0; 0; 0; 0; 0; 0; 0; 0; 0; 0; 0; 0; 0; 0; 0; 0; 0;
   0; 0; 0; 0; 6; (-3); 6; (-3); 0; 0; 6; (-3); 0; 0; 0; 521; 521; 521; 0; 0; 0; 0; 0; 0; 0; 0; 154; 0; 150;
   150; 150; 0; 258; 0; 254; 254; 0; 130; 130; 130; 130; 130; 130; 130; 130; 130; 130; 130; 130; 130; 130; 130;
   130; 130; 0; 130; 130; 130; 130; 130; 130; 130; 130; 130; (-151); (-147); (-147); (-147); 0; (-127); (-127);
   (-127); (-127); (-127); (-127); (-127); (-127); (-127); (-127); (-127); (-127); (-127); (-127); (-127);
   (-127); (-127); (-123); (-127); (-127); (-127); (-127); (-127); (-127); (-127); (-127); (-127); (-255);
   (-251); (-251); 34; (-247); (-227); 0; 0; 0; (-187); (-215); (-31); 6; (-3); 6; (-3); 6; (-3); 6; (-3); 6;
   (-3); 6; (-3); 6; (-3); 6; (-3); 6; (-3); 6; (-3); 6; (-3); 6; (-3); (-343); (-319); 29; 0; (-238); (-383);
   0; 6; (-3); (-26); 6; (-3); 0; (-518); (-518); (-518)].
Definition block4 : list Z :=
  [322; 322; 322; 322; 322; 322; 322; 322; 322; 322; 322; 322; 322; 322; 322; 322; 130; 130; 130; 130; 130; 130;
   130; 130; 130; 130; 130; 130; 130; 130; 130; 130; 130; 130; 130; 130; 130; 130; 130; 130; 130; 130; 130; 130;
   130; 130; 130; 130; (-127); (-127); (-127); (-127); (-127); (-127); (-127); (-127); (-127); (-127); (-127);
   (-127); (-127); (-127); (-127); (-127); (-127); (-127); (-127); (-127); (-127); (-127); (-127); (-127);
   (-127); (-127); (-127); (-127); (-127); (-127); (-127); (-127); (-319); (-319); (-319); (-319); (-319);
   (-319); (-319); (-319); (-319); (-319); (-319); (-319); (-319); (-319); (-319); (-319); 6; (-3); 6; (-3); 6;
   (-3); 6; (-3); 6; (-3); 6; (-3); 6; (-3); 6; (-3); 6; (-3); 6; (-3); 6; (-3); 6; (-3); 6; (-3); 6; (-3); 6;
   (-3); 6; (-3); 6; (-3); 0; 0; 0; 0; 0; 0; 0; 0; 6; (-3); 6; (-3); 6; (-3); 6; (-3); 6; (-3); 6; (-3); 6;
   (-3); 6; (-3); 6; (-3); 6; (-3); 6; (-3); 6; (-3); 6; (-3); 6; (-3); 6; (-3); 6; (-3); 6; (-3); 6; (-3); 6;
   (-3); 6; (-3); 6; (-3); 6; (-3); 6; (-3); 6; (-3); 6; (-3); 6; (-3); 6; (-3); 62; 6; (-3); 6; (-3); 6; (-3);
   6; (-3); 6; (-3); 6; (-3); 6; (-3); (-59); 6; (-3); 6; (-3); 6; (-3); 6; (-3); 6; (-3); 6; (-3); 6; (-3); 6;
   (-3); 6; (-3); 6; (-3); 6; (-3); 6; (-3); 6; (-3); 6; (-3); 6; (-3); 6; (-3); 6; (-3); 6; (-3); 6; (-3); 6;
   (-3); 6; (-3); 6; (-3); 6; (-3); 6; (-3)].
Definition block5 : list Z :=
  [6; (-3); 6; (-3); 6; (-3); 6; (-3); 6; (-3); 6; (-3); 6; (-3); 6; (-3); 6; (-3); 6; (-3); 6; (-3); 6; (-3);
   6; (-3); 6; (-3); 6; (-3); 6; (-3); 6; (-3); 6; (-3); 0; 0; 0; 0; 0; 0; 0; 0; 0; 0; 0; 0; 0; 194; 194; 194;
   194; 194; 194; 194; 194; 194; 194; 194; 194; 194; 194; 194; 194; 194; 194; 194; 194; 194; 194; 194; 194; 194;
   194; 194; 194; 194; 194; 194; 194; 194; 194; 194; 194; 194; 194; 0; 0; 0; 0; 0; 0; 0; 0; 0; 0; (-191);
   (-191); (-191); (-191); (-191); (-191); (-191); (-191); (-191); (-191); (-191); (-191); (-191); (-191);
   (-191); (-191); (-191); (-191); (-191); (-191); (-191); (-191); (-191); (-191); (-191); (-191); (-191);
   (-191); (-191); (-191); (-191); (-191); (-191); (-191); (-191); (-191); (-191); (-191); 0; 0; 0; 0; 0; 0; 0;
   0; 0; 0; 0; 0; 0; 0; 0; 0; 0; 0; 0; 0; 0; 0; 0; 0; 0; 0; 0; 0; 0; 0; 0; 0; 0; 0; 0; 0; 0; 0; 0; 0; 0; 0; 0;
   0; 0; 0; 0; 0; 0; 0; 0; 0; 0; 0; 0; 0; 0; 0; 0; 0; 0; 0; 0; 0; 0; 0; 0; 0; 0; 0; 0; 0; 0; 0; 0; 0; 0; 0; 0;
   0; 0; 0; 0; 0; 0; 0; 0; 0; 0; 0; 0; 0; 0; 0; 0; 0; 0; 0; 0; 0; 0; 0; 0; 0; 0; 0; 0; 0; 0; 0; 0; 0; 0; 0; 0;
   0; 0; 0; 0; 0; 0].
Definition block6 : list Z :=
  [0; 0; 0; 0; 0; 0; 0; 0; 0; 0; 0; 0; 0; 0; 0; 0; 0; 0; 0; 0; 0; 0; 0; 0; 0; 0; 0; 0; 0; 0; 0; 0; 0; 0; 0; 0;
   0; 0; 0; 0; 0; 0; 0; 0; 0; 0; 0; 0; 0; 0; 0; 0; 0; 0; 0; 0; 0; 0; 0; 0; 0; 0; 0; 0; 0; 0; 0; 0; 0; 0; 0; 0;
   0; 0; 0; 0; 0; 0; 0; 0; 0; 0; 0; 0; 0; 0; 0; 0; 0; 0; 0; 0; 0; 0; 0; 0; 0; 0; 0; 0; 0; 0; 0; 0; 0; 0; 0; 0;
   0; 0; 0; 0; 0; 0; 0; 0; 0; 0; 0; 0; 0; 0; 0; 0; 0; 0; 0; 0; 0; 0; 0; 0; 0; 0; 0; 0; 0; 0; 0; 0; 0; 0; 0; 0;
   0; 0; 0; 0; 0; 0; 0; 0; 0; 0; 0; 0; 0; 0; 0; 0; 0; 0; 0; 0; 0; 0; 0; 0; 0; 0; 0; 0; 0; 0; 0; 0; 0; 0; 0; 0;
   0; 0; 0; 0; 0; 0; 0; 0; 0; 0; 0; 0; 0; 0; 0; 0; 0; 0; 0; 0; 0; 0; 0; 0; 0; 0; 0; 0; 0; 0; 0; 0; 0; 0; 0; 0;
   0; 0; 0; 0; 0; 0; 0; 0; 0; 0; 0; 0; 0; 0; 0; 0; 0; 0; 0; 0; 0; 0; 0; 0; 0; 0; 0; 0; 0; 0; 0; 0; 0; 0; 0; 0;
   0; 0; 0; 0].
Definition block7 : list Z :=
  [0; 0; 0; 0; 0; 0; 0; 0; 0; 0; 0; 0; 0; 0; 0; 0; 0; 0; 0; 0; 0; 0; 0; 0; 0; 0; 0; 0; 0; 0; 0; 0; 0; 0; 0; 0;
   0; 0; 0; 0; 0; 0; 0; 0; 0; 0; 0; 0; 0; 0; 0; 0; 0; 0; 0; 0; 0; 0; 0; 0; 0; 0; 0; 0; 0; 0; 0; 0; 0; 0; 0; 0;
   0; 0; 0; 0; 0; 0; 0; 0; 0; 0; 0; 0; 0; 0; 0; 0; 0; 0; 0; 0; 0; 0; 0; 0; 0; 0; 0; 0; 0; 0; 0; 0; 0; 0; 0; 0;
   0; 0; 0; 0; 0; 0; 0; 0; 0; 0; 0; 0; 0; 0; 0; 0; 0; 0; 0; 0; 0; 0; 0; 0; 0; 0; 0; 0; 0; 0; 0; 0; 0; 0; 0; 0;
   0; 0; 0; 0; 0; 0; 0; 0; 0; 0; 0; 0; 0; 0; 0; 0; 29058; 29058; 29058; 29058; 29058; 29058; 29058; 29058;
   29058; 29058; 29058; 29058; 29058; 29058; 29058; 29058; 29058; 29058; 29058; 29058; 29058; 29058; 29058;
   29058; 29058; 29058; 29058; 29058; 29058; 29058; 29058; 29058; 29058; 29058; 29058; 29058; 29058; 29058; 0;
   0; 0; 0; 0; 0; 0; 0; 0; 0; 0; 0; 0; 0; 0; 0; 0; 0; 0; 0; 0; 0; 0; 0; 0; 0; 0; 0; 0; 0; 0; 0; 0; 0; 0; 0; 0;
   0; 0; 0; 0; 0; 0; 0; 0; 0; 0; 0; 0; 0; 0; 0; 0; 0; 0; 0; 0; 0].
Definition block8 : list Z :=
  [0; 0; 0; 0; 0; 0; 0; 0; 0; 0; 0; 0; 0; 0; 0; 0; 0; 0; 0; 0; 0; 0; 0; 0; 0; 0; 0; 0; 0; 0; 0; 0; 0; 0; 0; 0;
   0; 0; 0; 0; 0; 0; 0; 0; 0; 0; 0; 0; 0; 0; 0; 0; 0; 0; 0; 0; 0; 0; 0; 0; 0; 0; 0; 0; 0; 0; 0; 0; 0; 0; 0; 0;
   0; 0; 0; 0; 0; 0; 0; 0; 0; 0; 0; 0; 0; 0; 0; 0; 0; 0; 0; 0; 0; 0; 0; 0; 0; 0; 0; 0; 0; 0; 0; 0; 0; 0; 0; 0;
   0; 0; 0; 0; 0; 0; 0; 0; 0; 0; 0; 0; 0; 47; 0; 0; 0; 15257; 0; 0; 0; 0; 0; 0; 0; 0; 0; 0; 0; 0; 0; 0; 0; 0; 0;
   0; 0; 0; 0; 0; 0; 0; 0; 0; 0; 0; 0; 0; 0; 0; 0; 0; 0; 0; 0; 0; 0; 0; 0; 0; 0; 0; 0; 0; 0; 0; 0; 0; 0; 0; 0;
   0; 0; 0; 0; 0; 0; 0; 0; 0; 0; 0; 0; 0; 0; 0; 0; 0; 0; 0; 0; 0; 0; 0; 0; 0; 0; 0; 0; 0; 0; 0; 0; 0; 0; 0; 0;
   0; 0; 0; 0; 0; 0; 0; 0; 0; 0; 0; 0; 0; 0; 0; 0; 0; 0; 0; 0; 0; 0; 0; 0; 0; 0; 0; 0; 0; 0; 0; 0; 0; 0; 0; 0;
   0; 0; 0; 0; 0].
Definition block9 : list Z :=
  [6; (-3); 6; (-3); 6; (-3); 6; (-3); 6; (-3); 6; (-3); 6; (-3); 6; (-3); 6; (-3); 6; (-3); 6; (-3); 6; (-3);
   6; (-3); 6; (-3); 6; (-3); 6; (-3); 6; (-3); 6; (-3); 6; (-3); 6; (-3); 6; (-3); 6; (-3); 6; (-3); 6; (-3);
   6; (-3); 6; (-3); 6; (-3); 6; (-3); 6; (-3); 6; (-3); 6; (-3); 6; (-3); 6; (-3); 6; (-3); 6; (-3); 6; (-3);
   6; (-3); 6; (-3); 6; (-3); 6; (-3); 6; (-3); 6; (-3); 6; (-3); 6; (-3); 6; (-3); 6; (-3); 6; (-3); 6; (-3);
   6; (-3); 6; (-3); 6; (-3); 6; (-3); 6; (-3); 6; (-3); 6; (-3); 6; (-3); 6; (-3); 6; (-3); 6; (-3); 6; (-3);
   6; (-3); 6; (-3); 6; (-3); 6; (-3); 6; (-3); 6; (-3); 6; (-3); 6; (-3); 6; (-3); 6; (-3); 6; (-3); 6; (-3);
   6; (-3); 6; (-3); 6; (-3); 0; 0; 0; 0; 0; (-235); 0; 0; (-30458); 0; 6; (-3); 6; (-3); 6; (-3); 6; (-3); 6;
   (-3); 6; (-3); 6; (-3); 6; (-3); 6; (-3); 6; (-3); 6; (-3); 6; (-3); 6; (-3); 6; (-3); 6; (-3); 6; (-3); 6;
   (-3); 6; (-3); 6; (-3); 6; (-3); 6; (-3); 6; (-3); 6; (-3); 6; (-3); 6; (-3); 6; (-3); 6; (-3); 6; (-3); 6;
   (-3); 6; (-3); 6; (-3); 6; (-3); 6; (-3); 6; (-3); 6; (-3); 6; (-3); 6; (-3); 6; (-3); 6; (-3); 6; (-3); 6;
   (-3); 6; (-3); 6; (-3); 6; (-3); 6; (-3); 6; (-3); 6; (-3); 6; (-3)].
Definition block10 : list Z :=
  [33; 33; 33; 33; 33; 33; 33; 33; (-30); (-30); (-30); (-30); (-30); (-30); (-30); (-30); 33; 33; 33; 33; 33;
   33; 0; 0; (-30); (-30); (-30); (-30); (-30); (-30); 0; 0; 33; 33; 33; 33; 33; 33; 33; 33; (-30); (-30);
   (-30); (-30); (-30); (-30); (-30); (-30); 33; 33; 33; 33; 33; 33; 33; 33; (-30); (-30); (-30); (-30); (-30);
   (-30); (-30); (-30); 33; 33; 33; 33; 33; 33; 0; 0; (-30); (-30); (-30); (-30); (-30); (-30); 0; 0; 0; 33; 0;
   33; 0; 33; 0; 33; 0; (-30); 0; (-30); 0; (-30); 0; (-30); 33; 33; 33; 33; 33; 33; 33; 33; (-30); (-30);
   (-30); (-30); (-30); (-30); (-30); (-30); 297; 297; 345; 345; 345; 345; 401; 401; 513; 513; 449; 449; 505;
   505; 0; 0; 33; 33; 33; 33; 33; 33; 33; 33; (-30); (-30); (-30); (-30); (-30); (-30); (-30); (-30); 33; 33;
   33; 33; 33; 33; 33; 33; (-30); (-30); (-30); (-30); (-30); (-30); (-30); (-30); 33; 33; 33; 33; 33; 33; 33;
   33; (-30); (-30); (-30); (-30); (-30); (-30); (-30); (-30); 33; 33; 0; 37; 0; 0; 0; 0; (-30); (-30); (-294);
   (-294); (-34); 0; (-28819); 0; 0; 0; 0; 37; 0; 0; 0; 0; (-342); (-342); (-342); (-342); (-34); 0; 0; 0; 33;
   33; 0; 0; 0; 0; 0; 0; (-30); (-30); (-398); (-398); 0; 0; 0; 0; 33; 33; 0; 0; 0; 29; 0; 0; (-30); (-30);
   (-446); (-446); (-26); 0; 0; 0; 0; 0; 0; 37; 0; 0; 0; 0; (-510); (-510); (-502); (-502); (-34); 0; 0; 0].
Definition block11 : list Z :=
  [0; 0; 0; 0; 0; 0; 0; 0; 0; 0; 0; 0; 0; 0; 0; 0; 0; 0; 0; 0; 0; 0; 0; 0; 0; 0; 0; 0; 0; 0; 0; 0; 0; 0; 0; 0;
   0; 0; (-30066); 0; 0; 0; 51; 55; 0; 0; 0; 0; 0; 0; 114; 0; 0; 0; 0; 0; 0; 0; 0; 0; 0; 0; 0; 0; 0; 0; 0; 0; 0;
   0; 0; 0; 0; 0; 0; 0; 0; 0; (-111); 0; 0; 0; 0; 0; 0; 0; 0; 0; 0; 0; 0; 0; 0; 0; 0; 0; 66; 66; 66; 66; 66; 66;
   66; 66; 66; 66; 66; 66; 66; 66; 66; 66; (-63); (-63); (-63); (-63); (-63); (-63); (-63); (-63); (-63); (-63);
   (-63); (-63); (-63); (-63); (-63); (-63); 0; 0; 0; 6; (-3); 0; 0; 0; 0; 0; 0; 0; 0; 0; 0; 0; 0; 0; 0; 0; 0;
   0; 0; 0; 0; 0; 0; 0; 0; 0; 0; 0; 0; 0; 0; 0; 0; 0; 0; 0; 0; 0; 0; 0; 0; 0; 0; 0; 0; 0; 0; 0; 0; 0; 0; 0; 0;
   0; 0; 0; 0; 0; 0; 0; 0; 0; 0; 0; 0; 0; 0; 0; 0; 0; 0; 0; 0; 0; 0; 0; 0; 0; 0; 0; 0; 0; 0; 0; 0; 0; 0; 0; 0;
   0; 0; 0; 0; 0; 0; 0; 0; 0; 0; 0; 0; 0; 0; 0; 0; 0; 0; 0; 0; 0; 0; 0; 0; 0; 0; 0; 0; 0; 0; 0; 0; 0; 0; 0].
Definition block12 : list Z :=
  [0; 0; 0; 0; 0; 0; 0; 0; 0; 0; 0; 0; 0; 0; 0; 0; 0; 0; 0; 0; 0; 0; 0; 0; 0; 0; 0; 0; 0; 0; 0; 0; 0; 0; 0; 0;
   0; 0; 0; 0; 0; 0; 0; 0; 0; 0; 0; 0; 0; 0; 0; 0; 0; 0; 0; 0; 0; 0; 0; 0; 0; 0; 0; 0; 0; 0; 0; 0; 0; 0; 0; 0;
   0; 0; 0; 0; 0; 0; 0; 0; 0; 0; 0; 0; 0; 0; 0; 0; 0; 0; 0; 0; 0; 0; 0; 0; 0; 0; 0; 0; 0; 0; 0; 0; 0; 0; 0; 0;
   0; 0; 0; 0; 0; 0; 0; 0; 0; 0; 0; 0; 0; 0; 0; 0; 0; 0; 0; 0; 0; 0; 0; 0; 0; 0; 0; 0; 0; 0; 0; 0; 0; 0; 0; 0;
   0; 0; 0; 0; 0; 0; 0; 0; 0; 0; 0; 0; 0; 0; 0; 0; 0; 0; 0; 0; 0; 0; 0; 0; 0; 0; 0; 0; 0; 0; 0; 0; 0; 0; 0; 0;
   0; 0; 106; 106; 106; 106; 106; 106; 106; 106; 106; 106; 106; 106; 106; 106; 106; 106; 106; 106; 106; 106;
   106; 106; 106; 106; 106; 106; (-103); (-103); (-103); (-103); (-103); (-103); (-103); (-103); (-103); (-103);
   (-103); (-103); (-103); (-103); (-103); (-103); (-103); (-103); (-103); (-103); (-103); (-103); (-103);
   (-103); (-103); (-103); 0; 0; 0; 0; 0; 0; 0; 0; 0; 0; 0; 0; 0; 0; 0; 0; 0; 0; 0; 0; 0; 0].
Definition block13 : list Z :=
  [194; 194; 194; 194; 194; 194; 194; 194; 194; 194; 194; 194; 194; 194; 194; 194; 194; 194; 194; 194; 194; 194;
   194; 194; 194; 194; 194; 194; 194; 194; 194; 194; 194; 194; 194; 194; 194; 194; 194; 194; 194; 194; 194; 194;
   194; 194; 194; 0; (-191); (-191); (-191); (-191); (-191); (-191); (-191); (-191); (-191); (-191); (-191);
   (-191); (-191); (-191); (-191); (-191); (-191); (-191); (-191); (-191); (-191); (-191); (-191); (-191);
   (-191); (-191); (-191); (-191); (-191); (-191); (-191); (-191); (-191); (-191); (-191); (-191); (-191);
   (-191); (-191); (-191); (-191); (-191); (-191); (-191); (-191); (-191); (-191); 0; 6; (-3); 59; (-15254); 63;
   67; 71; 6; (-3); 6; (-3); 6; (-3); 75; 79; 83; 0; 0; 6; (-3); 0; 6; (-3); 0; 0; 0; 0; 0; 0; 0; 0; 0; 6; (-3);
   6; (-3); 6; (-3); 6; (-3); 6; (-3); 6; (-3); 6; (-3); 6; (-3); 6; (-3); 6; (-3); 6; (-3); 6; (-3); 6; (-3);
   6; (-3); 6; (-3); 6; (-3); 6; (-3); 6; (-3); 6; (-3); 6; (-3); 6; (-3); 6; (-3); 6; (-3); 6; (-3); 6; (-3);
   6; (-3); 6; (-3); 6; (-3); 6; (-3); 6; (-3); 6; (-3); 6; (-3); 6; (-3); 6; (-3); 6; (-3); 6; (-3); 6; (-3);
   6; (-3); 6; (-3); 6; (-3); 6; (-3); 6; (-3); 6; (-3); 6; (-3); 6; (-3); 6; (-3); 6; (-3); 6; (-3); 6; (-3);
   6; (-3); 0; 0; 0; 0; 0; 0; 0; 0; 0; 0; 0; 0; 0; 0; 0; 0; 0; 0; 0; 0; 0; 0; 0; 0; 0; 0; 0; 0].
Definition block14 : list Z :=
  [(-29055); (-29055); (-29055); (-29055); (-29055); (-29055); (-29055); (-29055); (-29055); (-29055); (-29055);
   (-29055); (-29055); (-29055); (-29055); (-29055); (-29055); (-29055); (-29055); (-29055); (-29055); (-29055);
   (-29055); (-29055); (-29055); (-29055); (-29055); (-29055); (-29055); (-29055); (-29055); (-29055); (-29055);
   (-29055); (-29055); (-29055); (-29055); (-29055); 0; 0; 0; 0; 0; 0; 0; 0; 0; 0; 0; 0; 0; 0; 0; 0; 0; 0; 0; 0;
   0; 0; 0; 0; 0; 0; 0; 0; 0; 0; 0; 0; 0; 0; 0; 0; 0; 0; 0; 0; 0; 0; 0; 0; 0; 0; 0; 0; 0; 0; 0; 0; 0; 0; 0; 0;
   0; 0; 0; 0; 0; 0; 0; 0; 0; 0; 0; 0; 0; 0; 0; 0; 0; 0; 0; 0; 0; 0; 0; 0; 0; 0; 0; 0; 0; 0; 0; 0; 0; 0; 0; 0;
   0; 0; 0; 0; 0; 0; 0; 0; 0; 0; 0; 0; 0; 0; 0; 0; 0; 0; 0; 0; 0; 0; 0; 0; 0; 0; 0; 0; 0; 0; 0; 0; 0; 0; 0; 0;
   0; 0; 0; 0; 0; 0; 0; 0; 0; 0; 0; 0; 0; 0; 0; 0; 0; 0; 0; 0; 0; 0; 0; 0; 0; 0; 0; 0; 0; 0; 0; 0; 0; 0; 0; 0;
   0; 0; 0; 0; 0; 0; 0; 0; 0; 0; 0; 0; 0; 0; 0; 0; 0; 0; 0; 0; 0; 0; 0; 0; 0; 0; 0; 0; 0; 0; 0; 0; 0; 0; 0; 0;
   0; 0; 0; 0; 0; 0; 0; 0; 0; 0; 0; 0; 0; 0; 0; 0; 0; 0].
Definition block15 : list Z :=
  [0; 0; 0; 0; 0; 0; 0; 0; 0; 0; 0; 0; 0; 0; 0; 0; 0; 0; 0; 0; 0; 0; 0; 0; 0; 0; 0; 0; 0; 0; 0; 0; 0; 0; 0; 0;
   0; 0; 0; 0; 0; 0; 0; 0; 0; 0; 0; 0; 0; 0; 0; 0; 0; 0; 0; 0; 0; 0; 0; 0; 0; 0; 0; 0; 6; (-3); 6; (-3); 6;
   (-3); 6; (-3); 6; (-3); 6; (-3); 6; (-3); 6; (-3); 6; (-3); 6; (-3); 6; (-3); 6; (-3); 6; (-3); 6; (-3); 6;
   (-3); 6; (-3); 0; 0; 6; (-3); 6; (-3); 6; (-3); 6; (-3); 6; (-3); 6; (-3); 0; 0; 0; 0; 0; 0; 0; 0; 0; 0; 0;
   0; 0; 0; 0; 0; 0; 0; 6; (-3); 6; (-3); 6; (-3); 6; (-3); 6; (-3); 6; (-3); 6; (-3); 6; (-3); 6; (-3); 6;
   (-3); 6; (-3); 6; (-3); 0; 0; 0; 0; 0; 0; 0; 0; 0; 0; 0; 0; 0; 0; 0; 0; 0; 0; 0; 0; 0; 0; 0; 0; 0; 0; 0; 0;
   0; 0; 0; 0; 0; 0; 0; 0; 0; 0; 0; 0; 0; 0; 0; 0; 0; 0; 0; 0; 0; 0; 0; 0; 0; 0; 0; 0; 0; 0; 0; 0; 0; 0; 0; 0;
   0; 0; 0; 0; 0; 0; 0; 0; 0; 0; 0; 0; 0; 0; 0; 0; 0; 0; 0; 0; 0; 0; 0; 0; 0; 0; 0; 0; 0; 0; 0; 0; 0; 0; 0; 0;
   0; 0; 0; 0].
Definition block16 : list Z :=
  [0; 0; 0; 0; 0; 0; 0; 0; 0; 0; 0; 0; 0; 0; 0; 0; 0; 0; 0; 0; 0; 0; 0; 0; 0; 0; 0; 0; 0; 0; 0; 0; 0; 0; 6;
   (-3); 6; (-3); 6; (-3); 6; (-3); 6; (-3); 6; (-3); 6; (-3); 0; 0; 6; (-3); 6; (-3); 6; (-3); 6; (-3); 6;
   (-3); 6; (-3); 6; (-3); 6; (-3); 6; (-3); 6; (-3); 6; (-3); 6; (-3); 6; (-3); 6; (-3); 6; (-3); 6; (-3); 6;
   (-3); 6; (-3); 6; (-3); 6; (-3); 6; (-3); 6; (-3); 6; (-3); 6; (-3); 6; (-3); 6; (-3); 6; (-3); 6; (-3); 6;
   (-3); 6; (-3); 6; (-3); 0; 0; 0; 0; 0; 0; 0; 0; 0; 6; (-3); 6; (-3); 87; 6; (-3); 6; (-3); 6; (-3); 6; (-3);
   6; (-3); 0; 0; 0; 6; (-3); 0; 0; 0; 0; 0; 0; 0; 0; 0; 0; 0; 0; 0; 0; 0; 0; 0; 0; 0; 0; 0; 0; 0; 0; 0; 0; 0;
   0; 0; 0; 0; 0; 0; 0; 0; 0; 0; 0; 0; 0; 0; 0; 0; 0; 0; 0; 0; 0; 0; 0; 0; 0; 0; 0; 0; 0; 0; 0; 0; 0; 0; 0; 0;
   0; 0; 0; 0; 0; 0; 0; 0; 0; 0; 0; 0; 0; 0; 0; 0; 0; 0; 0; 0; 0; 0; 0; 0; 0; 0; 0; 0; 0; 0; 0; 0; 0; 0; 0; 0;
   0; 0; 0; 0; 0; 0; 0; 0; 0; 0; 0; 0; 0; 0; 0; 0].
Definition block17 : list Z :=
  [0; 0; 0; 0; 0; 0; 0; 0; 0; 0; 0; 0; 0; 0; 0; 0; 0; 0; 0; 0; 0; 0; 0; 0; 0; 0; 0; 0; 0; 0; 0; 0; 0; 130; 130;
   130; 130; 130; 130; 130; 130; 130; 130; 130; 130; 130; 130; 130; 130; 130; 130; 130; 130; 130; 130; 130; 130;
   130; 130; 0; 0; 0; 0; 0; 0; (-127); (-127); (-127); (-127); (-127); (-127); (-127); (-127); (-127); (-127);
   (-127); (-127); (-127); (-127); (-127); (-127); (-127); (-127); (-127); (-127); (-127); (-127); (-127);
   (-127); (-127); (-127); 0; 0; 0; 0; 0; 0; 0; 0; 0; 0; 0; 0; 0; 0; 0; 0; 0; 0; 0; 0; 0; 0; 0; 0; 0; 0; 0; 0;
   0; 0; 0; 0; 0; 0; 0; 0; 0; 0; 0; 0; 0; 0; 0; 0; 0; 0; 0; 0; 0; 0; 0; 0; 0; 0; 0; 0; 0; 0; 0; 0; 0; 0; 0; 0;
   0; 0; 0; 0; 0; 0; 0; 0; 0; 0; 0; 0; 0; 0; 0; 0; 0; 0; 0; 0; 0; 0; 0; 0; 0; 0; 0; 0; 0; 0; 0; 0; 0; 0; 0; 0;
   0; 0; 0; 0; 0; 0; 0; 0; 0; 0; 0; 0; 0; 0; 0; 0; 0; 0; 0; 0; 0; 0; 0; 0; 0; 0; 0; 0; 0; 0; 0; 0; 0; 0; 0; 0;
   0; 0; 0; 0; 0; 0; 0; 0; 0; 0; 0; 0; 0; 0; 0; 0; 0; 0; 0; 0; 0; 0; 0; 0; 0; 0; 0; 0; 0].
Definition block18 : list Z :=
  [162; 162; 162; 162; 162; 162; 162; 162; 162; 162; 162; 162; 162; 162; 162; 162; 162; 162; 162; 162; 162; 162;
   162; 162; 162; 162; 162; 162; 162; 162; 162; 162; 162; 162; 162; 162; 162; 162; 162; 162; (-159); (-159);
   (-159); (-159); (-159); (-159); (-159); (-159); (-159); (-159); (-159); (-159); (-159); (-159); (-159);
   (-159); (-159); (-159); (-159); (-159); (-159); (-159); (-159); (-159); (-159); (-159); (-159); (-159);
   (-159); (-159); (-159); (-159); (-159); (-159); (-159); (-159); (-159); (-159); (-159); (-159); 0; 0; 0; 0;
   0; 0; 0; 0; 0; 0; 0; 0; 0; 0; 0; 0; 0; 0; 0; 0; 0; 0; 0; 0; 0; 0; 0; 0; 0; 0; 0; 0; 0; 0; 0; 0; 0; 0; 0; 0;
   0; 0; 0; 0; 0; 0; 0; 0; 0; 0; 0; 0; 0; 0; 0; 0; 0; 0; 0; 0; 0; 0; 0; 0; 0; 0; 0; 0; 0; 0; 0; 0; 0; 0; 0; 0;
   0; 0; 0; 0; 0; 0; 0; 0; 0; 0; 0; 0; 0; 0; 0; 0; 0; 0; 0; 0; 0; 0; 0; 0; 0; 0; 0; 0; 0; 0; 0; 0; 0; 0; 0; 0;
   0; 0; 0; 0; 0; 0; 0; 0; 0; 0; 0; 0; 0; 0; 0; 0; 0; 0; 0; 0; 0; 0; 0; 0; 0; 0; 0; 0; 0; 0; 0; 0; 0; 0; 0; 0;
   0; 0; 0; 0; 0; 0; 0; 0; 0; 0; 0; 0; 0; 0; 0; 0; 0; 0; 0; 0; 0; 0; 0; 0; 0; 0; 0; 0].

Definition blocks : list (list Z) :=
  [block0; block1; block2; block3; block4; block5; block6; block7; block8; block9;
   block10; block11; block12; block13; block14; block15; block16; block17; block18].
Definition stage2_ : list Z := concat blocks.

(** The distances of the code points that have two of them or a large one. *)
Definition stage2_exception_ : list (list Z) :=
  [[(-1); 1]; [(-1); 1]; [(-1); 1]; [(-1); 1]; [0; 10795]; [0; 10792]; [10783; 0]; [10780; 0]; [10743; 0];
   [10749; 0]; [10727; 0]; [35332; 0]; [0; (-8383)]; [0; (-8262)]; [0; (-10743)]; [0; (-10727)]; [(-10795); 0];
   [(-10792); 0]; [0; (-10780)]; [0; (-10749)]; [0; (-10783)]; [0; (-35332)]].
End CaseTables.
