(* ===== verification/UnicodeCase.v ===== *)
(** * Case mapping: [CaseMapping] of runtime/platform/unicode.h

    The mappings of code points to the other case through the tables of unicode_data.cc,
    each read of a table with its bounds. *)

From S2P Require Import Prelude Utils Unicode UnicodeData.
Import CaseTables.

Module CaseMapping.

Definition kUppercase : Z := 1.
Definition kLowercase : Z := 2.
Definition kException : Z := 3.
Definition kTypeShift : Z := 2.
Definition kTypeMask : Z := 3.
Definition kStage1Size : Z := 261.
Definition kBlockSizeLog2 : Z := 8.
Definition kBlockSize : Z := 1 ≪ kBlockSizeLog2.

Definition read {A} (table : list A) (i : Z) : text_result A :=
  if i <? 0 then Err OutsideArray
  else match table !! Z.to_nat i with Some a => Ok a | None => Err OutsideArray end.

Definition Convert (ch mapping : Z) : text_result Z :=
  if Utf.IsLatin1 ch then
    info ← read stage2_ ch;
    if info .& kTypeMask =? mapping then Ok (ch + (info ≫ kTypeShift)) else Ok ch
  else if ch <=? kStage1Size ≪ kBlockSizeLog2 then
    block ← read stage1_ (ch ≫ kBlockSizeLog2);
    let offset := s16 (block ≪ kBlockSizeLog2) in
    info ← read stage2_ (offset + (ch .& (kBlockSize - 1)));
    let type := info .& kTypeMask in
    if type =? mapping then Ok (ch + (info ≫ kTypeShift))
    else if type =? kException then
      row ← read stage2_exception_ (info ≫ kTypeShift);
      delta ← read row (mapping - 1);
      Ok (ch + delta)
    else Ok ch
  else Ok ch.

Definition ToUpper (code_point : Z) : text_result Z := Convert code_point kUppercase.
Definition ToLower (code_point : Z) : text_result Z := Convert code_point kLowercase.
End CaseMapping.
