(* ===== verification/UnicodeCaseCorrect.v ===== *)
(** * The case mappings stay in their tables

    The flat table of entries is read by blocks, the tables are run once over all entries,
    and the claim on the mappings follows from that for every code point. *)

From S2P Require Import Prelude Utils Unicode UnicodeCorrect UnicodeData UnicodeCase.
Import TextFacts CaseTables.

Module CaseFacts.
Import CaseMapping.

(** ** Blocks of the flat table *)

Lemma concat_lookup {A} (ls : list (list A)) n s blk k : Forall (fun l => length l = n) ls ->
  ls !! s = Some blk -> (k < n)%nat -> concat ls !! (s * n + k)%nat = blk !! k.
Proof.
  intros H. revert s. induction H as [|l ls Hl _ IH]; intros [|s] E Hk; try done; simpl in *.
  - injection E as ->. apply lookup_app_l. lia.
  - rewrite lookup_app_r by lia. rewrite <- (IH s E Hk). f_equal. lia.
Qed.

Lemma blocks_length : Forall (fun l => length l = 256%nat) blocks.
Proof. unfold blocks. repeat (constructor; [vm_compute; reflexivity|]). constructor. Qed.

(** What an entry does to a code point. *)
Definition apply_entry (ch info mapping : Z) : text_result Z :=
  let type := info .& kTypeMask in
  if type =? mapping then Ok (ch + (info ≫ kTypeShift))
  else if type =? kException then
    row ← read stage2_exception_ (info ≫ kTypeShift);
    delta ← read row (mapping - 1);
    Ok (ch + delta)
  else Ok ch.

(** The entry of a code point, block by block. *)
Definition entry (ch : Z) : option Z :=
  block ← stage1_ !! Z.to_nat (ch / 256);
  blk ← blocks !! Z.to_nat block;
  blk !! Z.to_nat (ch mod 256).
Definition convert (ch mapping : Z) : text_result Z :=
  match entry ch with Some info => apply_entry ch info mapping | None => Err OutsideArray end.

Lemma read_some {A} (t : list A) (i : nat) a : t !! i = Some a -> read t (Z.of_nat i) = Ok a.
Proof. intros E. unfold read. destruct (Z.ltb_spec (Z.of_nat i) 0); [lia|]. by rewrite Nat2Z.id, E. Qed.

(** Latin-1 code points have no entry in the table of exceptions. *)
Lemma latin1_entries : Forall (fun info => info .& kTypeMask <> kException) block0.
Proof. apply Forall_forall. intros info Hin. apply list_elem_of_In in Hin.
  assert (E : forallb (fun info => negb (info .& kTypeMask =? kException)) block0 = true) by (vm_compute; reflexivity).
  rewrite forallb_forall in E. specialize (E info Hin). by apply negb_true_iff, Z.eqb_neq in E.
Qed.

(** In the range of the tables the mapping is that of the entry. *)
Lemma Convert_entry ch mapping info : 0 <= ch < 261 * 256 -> entry ch = Some info ->
  Convert ch mapping = apply_entry ch info mapping.
Proof.
  intros Hch. unfold entry. destruct (stage1_ !! Z.to_nat (ch / 256)) as [block|] eqn:E1; [|done]. cbn [mbind option_bind].
  destruct (blocks !! Z.to_nat block) as [blk|] eqn:E2; [|done]. cbn [mbind option_bind]. intros E3.
  assert (Hblock : 0 <= block < 19).
  { revert E1. apply (Forall_lookup_1 (fun b => 0 <= b < 19)). unfold stage1_. repeat (constructor; [lia|]). constructor. }
  assert (Hinfo : stage2_ !! Z.to_nat (block * 256 + ch mod 256) = Some info).
  { rewrite <- E3, <- (concat_lookup blocks 256 (Z.to_nat block) blk (Z.to_nat (ch mod 256)) blocks_length E2).
    - unfold stage2_. f_equal. pose proof (Z.mod_pos_bound ch 256). lia.
    - pose proof (Z.mod_pos_bound ch 256). lia. }
  assert (Hread : read stage2_ (block * 256 + ch mod 256) = Ok info).
  { pose proof (Z.mod_pos_bound ch 256). replace (block * 256 + ch mod 256) with (Z.of_nat (Z.to_nat (block * 256 + ch mod 256))) by lia.
    by apply read_some. }
  unfold Convert, Utf.IsLatin1, kStage1Size, kBlockSize, kBlockSizeLog2.
  destruct (Z.leb_spec 0 ch), (Z.leb_spec ch 0xFF); try lia; cbn [andb].
  - rewrite Z.div_small in E1 by lia. injection E1 as <-. injection E2 as <-. rewrite Z.mod_small in * by lia.
    change (0 * 256 + ch) with ch in Hread. rewrite Hread. cbn [mbind result_bind]. unfold apply_entry.
    pose proof (Forall_lookup_1 _ _ _ _ latin1_entries E3). destruct (Z.eqb_spec (info .& kTypeMask) kException); [done|].
    by destruct (info .& kTypeMask =? mapping).
  - change (261 ≪ 8) with (261 * 256). destruct (Z.leb_spec ch (261 * 256)); [|lia].
    rewrite Z.shiftr_div_pow2 by lia. change (2 ^ 8) with 256. change (1 ≪ 8 - 1) with (Z.ones 8).
    rewrite Z.land_ones by lia. change (2 ^ 8) with 256.
    replace (ch / 256) with (Z.of_nat (Z.to_nat (ch / 256))) by (pose proof (Z.div_pos ch 256); lia).
    rewrite (read_some _ _ _ E1). cbn [mbind result_bind].
    rewrite swrap_small by (rewrite ?Z.shiftl_mul_pow2 by lia; unfold is_s; lia).
    rewrite Z.shiftl_mul_pow2 by lia. change (2 ^ 8) with 256. rewrite Hread. reflexivity.
Qed.

(** ** The tables *)

(** Letters that a mapping takes to a letter of the other case and not back. *)
Definition one_way_upper : list Z :=
  [0xb5; 0x131; 0x17f; 0x1c5; 0x1c8; 0x1cb; 0x1f2; 0x345; 0x3c2; 0x3d0; 0x3d1; 0x3d5; 0x3d6; 0x3f0; 0x3f1; 0x3f5;
   0x1e9b; 0x1fbe].
Definition one_way_lower : list Z :=
  [0x130; 0x1c5; 0x1c8; 0x1cb; 0x1f2; 0x3f4; 0x1e9e; 0x2126; 0x212a; 0x212b].

Definition same (r : text_result Z) (c : Z) : bool := match r with Ok d => d =? c | Err _ => false end.

(** An entry keeps its code point, or takes it to one that the mapping keeps and the other
    takes back, save the letters [one_way]. *)
Definition entry_ok (one_way : list Z) (mapping other ch info : Z) : bool :=
  match apply_entry ch info mapping with
  | Err _ => false
  | Ok r =>
      (r =? ch) ||
      ((0 <=? r) && (r <? 261 * 256) && same (convert r mapping) r &&
       (same (convert r other) ch || existsb (Z.eqb ch) one_way))
  end.
Definition block_ok (one_way : list Z) (mapping other b block : Z) : bool :=
  match blocks !! Z.to_nat block with
  | None => false
  | Some blk =>
      if block =? 6 then true
      else forallb (fun '(ch, info) => entry_ok one_way mapping other ch info) (zip (seqZ (256 * b) 256) blk)
  end.
Definition tables_ok (one_way : list Z) (mapping other : Z) : bool :=
  forallb (fun '(b, block) => block_ok one_way mapping other b block) (zip (seqZ 0 261) stage1_).

Lemma upper_tables_ok : tables_ok one_way_upper kUppercase kLowercase = true.
Proof. vm_compute. reflexivity. Qed.
Lemma lower_tables_ok : tables_ok one_way_lower kLowercase kUppercase = true.
Proof. vm_compute. reflexivity. Qed.
Lemma empty_block : forallb (Z.eqb 0) block6 = true.
Proof. vm_compute. reflexivity. Qed.

Lemma same_eq r c : same r c = true -> r = Ok c.
Proof. destruct r as [d|]; simpl; [|done]. by intros ->%Z.eqb_eq. Qed.

Lemma forallb_zip {A B} (P : A * B -> bool) (l : list A) (k : list B) (i : nat) a b :
  forallb P (zip l k) = true -> l !! i = Some a -> k !! i = Some b -> P (a, b) = true.
Proof.
  intros H Ha Hb. rewrite forallb_forall in H. apply H. apply list_elem_of_In, list_elem_of_lookup. exists i.
  by apply lookup_zip_Some.
Qed.

(** Every code point in the range of the tables has an entry. *)
Lemma entry_some ch : 0 <= ch < 261 * 256 -> exists block blk info,
  stage1_ !! Z.to_nat (ch / 256) = Some block /\ blocks !! Z.to_nat block = Some blk /\
  blk !! Z.to_nat (ch mod 256) = Some info /\ entry ch = Some info.
Proof.
  intros Hch. destruct (lookup_lt_is_Some_2 stage1_ (Z.to_nat (ch / 256))) as [block E1].
  { change (length stage1_) with 261%nat. euclid. }
  assert (Hblock : 0 <= block < 19).
  { revert E1. apply (Forall_lookup_1 (fun b => 0 <= b < 19)). unfold stage1_. repeat (constructor; [lia|]). constructor. }
  destruct (lookup_lt_is_Some_2 blocks (Z.to_nat block)) as [blk E2].
  { change (length blocks) with 19%nat. lia. }
  pose proof (Forall_lookup_1 _ _ _ _ blocks_length E2) as Hl. simpl in Hl.
  destruct (lookup_lt_is_Some_2 blk (Z.to_nat (ch mod 256))) as [info E3].
  { rewrite Hl. euclid. }
  exists block, blk, info. unfold entry. rewrite E1. cbn [mbind option_bind]. rewrite E2. done.
Qed.

Lemma Convert_convert ch mapping : 0 <= ch < 261 * 256 -> Convert ch mapping = convert ch mapping.
Proof.
  intros Hch. destruct (entry_some ch Hch) as (block & blk & info & _ & _ & _ & E). unfold convert. rewrite E.
  by apply Convert_entry.
Qed.

Definition maps_to (one_way : list Z) (mapping other ch r : Z) : Prop :=
  r = ch \/ (0 <= r < 261 * 256 /\ Convert r mapping = Ok r /\ (Convert r other = Ok ch \/ In ch one_way)).

Lemma entry_ok_maps one_way mapping other ch info : entry ch = Some info -> 0 <= ch < 261 * 256 ->
  entry_ok one_way mapping other ch info = true ->
  exists r, Convert ch mapping = Ok r /\ maps_to one_way mapping other ch r.
Proof.
  intros E Hch. rewrite (Convert_entry ch mapping info Hch E). unfold entry_ok, maps_to.
  destruct (apply_entry ch info mapping) as [r|]; [|done]. intros Hok. exists r. split; [done|].
  destruct (Z.eqb_spec r ch); [by left|]. right. simpl in Hok. rewrite !andb_true_iff, Z.leb_le, Z.ltb_lt in Hok.
  destruct Hok as [[[? ?] Hsame] Hback]. split; [done|]. rewrite !Convert_convert by done. split; [by apply same_eq|].
  apply orb_true_iff in Hback as [Hback|Hback]; [left; by apply same_eq|right].
  apply existsb_exists in Hback as (c & Hin & ->%Z.eqb_eq). done.
Qed.

Lemma tables_map one_way mapping other ch : tables_ok one_way mapping other = true -> mapping = 1 \/ mapping = 2 ->
  0 <= ch < 261 * 256 -> exists r, Convert ch mapping = Ok r /\ maps_to one_way mapping other ch r.
Proof.
  intros Hok Hm Hch. destruct (entry_some ch Hch) as (block & blk & info & E1 & E2 & E3 & E).
  assert (Hb : block_ok one_way mapping other (ch / 256) block = true).
  { apply (forallb_zip _ _ _ (Z.to_nat (ch / 256)) (ch / 256) block Hok); [|done].
    apply lookup_seqZ. split; euclid. }
  unfold block_ok in Hb. rewrite E2 in Hb. destruct (Z.eqb_spec block 6) as [->|].
  - injection E2 as <-. rewrite (Convert_entry ch mapping info Hch E).
    assert (info = 0) as ->.
    { pose proof empty_block as Hz. rewrite forallb_forall in Hz. symmetry. apply Z.eqb_eq, Hz, list_elem_of_In.
      by apply list_elem_of_lookup_2 in E3. }
    exists ch. split; [by destruct Hm as [-> | ->]|by left].
  - apply (entry_ok_maps one_way mapping other ch info E Hch).
    apply (forallb_zip _ _ _ (Z.to_nat (ch mod 256)) ch info Hb); [|done]. apply lookup_seqZ. split; euclid.
Qed.

Lemma Convert_outside ch mapping : 261 * 256 < ch -> Convert ch mapping = Ok ch.
Proof.
  intros Hch. unfold Convert, Utf.IsLatin1, kStage1Size, kBlockSizeLog2. change (261 ≪ 8) with (261 * 256).
  destruct (Z.leb_spec ch 0xFF); [lia|]. rewrite andb_false_r. destruct (Z.leb_spec ch (261 * 256)); [lia|done].
Qed.
End CaseFacts.

Import CaseMapping CaseFacts.

(** C22: for every code point but U+10500 the case mappings read within their tables and
    give a code point that they keep; a letter that is changed is changed back by the
    other mapping, save the letters listed.  At U+10500 the bound is tested with [<=] and
    [stage1_] is read one past its end. *)
Theorem case_mapping ch : code_point ch ->
  (ch <> 0x10500 -> exists u l, ToUpper ch = Ok u /\ ToLower ch = Ok l /\
     code_point u /\ code_point l /\ ToUpper u = Ok u /\ ToLower l = Ok l /\
     (u = ch \/ ToLower u = Ok ch \/ In ch one_way_upper) /\ (l = ch \/ ToUpper l = Ok ch \/ In ch one_way_lower)) /\
  (ToUpper 0x10500 = Err OutsideArray /\ ToLower 0x10500 = Err OutsideArray).
Proof.
  unfold code_point, Utf.kMaxCodePoint. intros Hch. split; [|by vm_compute]. intros Hne.
  destruct (Z.ltb_spec ch (261 * 256)).
  - destruct (tables_map _ _ _ ch upper_tables_ok) as (u & Hu & Hmu); [by left|lia|].
    destruct (tables_map _ _ _ ch lower_tables_ok) as (l & Hl & Hml); [by right|lia|].
    exists u, l. unfold ToUpper, ToLower, maps_to in *.
    split_and!; [done|done|..]; (destruct Hmu as [->|(? & ? & Hbu)]; destruct Hml as [->|(? & ? & Hbl)]); auto; lia.
  - exists ch, ch. unfold ToUpper, ToLower. rewrite !Convert_outside by lia. split_and!; auto; lia.
Qed.
Lemma case_mapping_witness : ToUpper 0xE9 = Ok 0xC9 /\ ToLower 0x130 = Ok 0x69 /\
  (ToUpper 0x10500 = Err OutsideArray /\ ToLower 0x10500 = Err OutsideArray).
Proof.
  destruct (case_mapping 0xE9) as [_ H]; [by vm_compute|]. split; [by vm_compute|]. split; [by vm_compute|exact H].
Defined.
