(* ===== verification/RiscvConstants.v ===== *)
(** * Registers, opcodes and function codes of runtime/vm/constants_riscv.h

    The enumerations of the header as integer constants, one [Module] per C++
    enum (the enums reuse names such as [ADD] and [SUB]).  The decoders cast
    arbitrary integers to these enums, so an enum value is a [Z].  The target
    is RISCV64: [XLEN] is 64. *)

From S2P Require Import Prelude.

Definition XLEN : Z := 64.
Definition kMaxUIntX : Z := 2 ^ 64 - 1.
Definition kMinIntX : Z := - 2 ^ 63.

Module Register.
Definition ZR : Z := 0.
Definition RA : Z := 1.
Definition SP : Z := 2.
Definition GP : Z := 3.
Definition TP : Z := 4.
Definition T0 : Z := 5.
Definition T1 : Z := 6.
Definition T2 : Z := 7.
Definition FP : Z := 8.
Definition S1 : Z := 9.
Definition A0 : Z := 10.
Definition A1 : Z := 11.
Definition A2 : Z := 12.
Definition A3 : Z := 13.
Definition A4 : Z := 14.
Definition A5 : Z := 15.
Definition A6 : Z := 16.
Definition A7 : Z := 17.
Definition S2 : Z := 18.
Definition S3 : Z := 19.
Definition S4 : Z := 20.
Definition S5 : Z := 21.
Definition S6 : Z := 22.
Definition S7 : Z := 23.
Definition S8 : Z := 24.
Definition S9 : Z := 25.
Definition S10 : Z := 26.
Definition S11 : Z := 27.
Definition T3 : Z := 28.
Definition T4 : Z := 29.
Definition T5 : Z := 30.
Definition T6 : Z := 31.
Definition FAR_TMP : Z := S8.
End Register.

Module Opcode.
Definition LUI : Z := 0x37.
Definition AUIPC : Z := 0x17.
Definition JAL : Z := 0x6f.
Definition JALR : Z := 0x67.
Definition BRANCH : Z := 0x63.
Definition LOAD : Z := 0x3.
Definition STORE : Z := 0x23.
Definition OPIMM : Z := 0x13.
Definition OP : Z := 0x33.
Definition MISCMEM : Z := 0xf.
Definition SYSTEM : Z := 0x73.
Definition OP32 : Z := 0x3b.
Definition OPIMM32 : Z := 0x1b.
Definition AMO : Z := 0x2f.
Definition LOADFP : Z := 0x7.
Definition STOREFP : Z := 0x27.
Definition FMADD : Z := 0x43.
Definition FMSUB : Z := 0x47.
Definition FNMSUB : Z := 0x4b.
Definition FNMADD : Z := 0x4f.
Definition OPFP : Z := 0x53.
End Opcode.

Module Funct12.
Definition ECALL : Z := 0x0.
Definition EBREAK : Z := 0x1.
End Funct12.

Module Funct3.
Definition F3_0 : Z := 0x0.
Definition F3_1 : Z := 0x1.
Definition BEQ : Z := 0x0.
Definition BNE : Z := 0x1.
Definition BLT : Z := 0x4.
Definition BGE : Z := 0x5.
Definition BLTU : Z := 0x6.
Definition BGEU : Z := 0x7.
Definition LB : Z := 0x0.
Definition LH : Z := 0x1.
Definition LW : Z := 0x2.
Definition LBU : Z := 0x4.
Definition LHU : Z := 0x5.
Definition LWU : Z := 0x6.
Definition LD : Z := 0x3.
Definition SB : Z := 0x0.
Definition SH : Z := 0x1.
Definition SW : Z := 0x2.
Definition SD : Z := 0x3.
Definition ADDI : Z := 0x0.
Definition SLLI : Z := 0x1.
Definition SLTI : Z := 0x2.
Definition SLTIU : Z := 0x3.
Definition XORI : Z := 0x4.
Definition SRI : Z := 0x5.
Definition ORI : Z := 0x6.
Definition ANDI : Z := 0x7.
Definition ADD : Z := 0x0.
Definition SLL : Z := 0x1.
Definition SLT : Z := 0x2.
Definition SLTU : Z := 0x3.
Definition XOR : Z := 0x4.
Definition SR : Z := 0x5.
Definition OR : Z := 0x6.
Definition AND : Z := 0x7.
Definition FENCE : Z := 0x0.
Definition FENCEI : Z := 0x1.
Definition CSRRW : Z := 0x1.
Definition CSRRS : Z := 0x2.
Definition CSRRC : Z := 0x3.
Definition CSRRWI : Z := 0x5.
Definition CSRRSI : Z := 0x6.
Definition CSRRCI : Z := 0x7.
Definition MUL : Z := 0x0.
Definition MULH : Z := 0x1.
Definition MULHSU : Z := 0x2.
Definition MULHU : Z := 0x3.
Definition DIV : Z := 0x4.
Definition DIVU : Z := 0x5.
Definition REM : Z := 0x6.
Definition REMU : Z := 0x7.
Definition MULW : Z := 0x0.
Definition DIVW : Z := 0x4.
Definition DIVUW : Z := 0x5.
Definition REMW : Z := 0x6.
Definition REMUW : Z := 0x7.
Definition WIDTH8 : Z := 0x0.
Definition WIDTH16 : Z := 0x1.
Definition WIDTH32 : Z := 0x2.
Definition WIDTH64 : Z := 0x3.
Definition S : Z := 0x2.
Definition D : Z := 0x3.
Definition SH1ADD : Z := 0x2.
Definition SH2ADD : Z := 0x4.
Definition SH3ADD : Z := 0x6.
Definition F3_COUNT : Z := 0x1.
Definition MAX : Z := 0x6.
Definition MAXU : Z := 0x7.
Definition MIN : Z := 0x4.
Definition MINU : Z := 0x5.
Definition CLMUL : Z := 0x1.
Definition CLMULH : Z := 0x3.
Definition CLMULR : Z := 0x2.
Definition SEXT : Z := 0x1.
Definition ZEXT : Z := 0x4.
Definition ROL : Z := 0x1.
Definition ROR : Z := 0x5.
Definition BCLR : Z := 0x1.
Definition BEXT : Z := 0x5.
Definition F3_BINV : Z := 0x1.
Definition F3_BSET : Z := 0x1.
Definition CZEROEQZ : Z := 0x5.
Definition CZERONEZ : Z := 0x7.
End Funct3.

Module Funct7.
Definition F7_0 : Z := 0x0.
Definition SRA : Z := 0x20.
Definition SUB : Z := 0x20.
Definition MULDIV : Z := 0x1.
Definition ADDUW : Z := 0x4.
Definition SHADD : Z := 0x10.
Definition SLLIUW : Z := 0x4.
Definition COUNT : Z := 0x30.
Definition MINMAXCLMUL : Z := 0x5.
Definition ROTATE : Z := 0x30.
Definition BCLRBEXT : Z := 0x24.
Definition BINV : Z := 0x34.
Definition BSET : Z := 0x14.
Definition CZERO : Z := 0x7.
End Funct7.

Module Funct5.
Definition LR : Z := 0x2.
Definition SC : Z := 0x3.
Definition AMOSWAP : Z := 0x1.
Definition AMOADD : Z := 0x0.
Definition AMOXOR : Z := 0x4.
Definition AMOAND : Z := 0xc.
Definition AMOOR : Z := 0x8.
Definition AMOMIN : Z := 0x10.
Definition AMOMAX : Z := 0x14.
Definition AMOMINU : Z := 0x18.
Definition AMOMAXU : Z := 0x1c.
Definition LOADORDERED : Z := 0x6.
Definition STOREORDERED : Z := 0x7.
End Funct5.

Module COpcode.
Definition C_OP_MASK : Z := 0xe003.
Definition C_ADDI4SPN : Z := 0x0.
Definition C_FLD : Z := 0x2000.
Definition C_LW : Z := 0x4000.
Definition C_FLW : Z := 0x6000.
Definition C_LD : Z := 0x6000.
Definition C_FSD : Z := 0xa000.
Definition C_SW : Z := 0xc000.
Definition C_FSW : Z := 0xe000.
Definition C_SD : Z := 0xe000.
Definition C_ADDI : Z := 0x1.
Definition C_JAL : Z := 0x2001.
Definition C_ADDIW : Z := 0x2001.
Definition C_LI : Z := 0x4001.
Definition C_ADDI16SP : Z := 0x6001.
Definition C_LUI : Z := 0x6001.
Definition C_MISCALU : Z := 0x8001.
Definition C_MISCALU_MASK : Z := 0xec03.
Definition C_SRLI : Z := 0x8001.
Definition C_SRAI : Z := 0x8401.
Definition C_ANDI : Z := 0x8801.
Definition C_RR : Z := 0x8c01.
Definition C_RR_MASK : Z := 0xfc63.
Definition C_SUB : Z := 0x8c01.
Definition C_XOR : Z := 0x8c21.
Definition C_OR : Z := 0x8c41.
Definition C_AND : Z := 0x8c61.
Definition C_SUBW : Z := 0x9c01.
Definition C_ADDW : Z := 0x9c21.
Definition C_MUL : Z := 0x9c41.
Definition C_EXT : Z := 0x9c61.
Definition C_EXT_MASK : Z := 0xfc7f.
Definition C_ZEXTB : Z := 0x9c61.
Definition C_SEXTB : Z := 0x9c65.
Definition C_ZEXTH : Z := 0x9c69.
Definition C_SEXTH : Z := 0x9c6d.
Definition C_ZEXTW : Z := 0x9c71.
Definition C_NOT : Z := 0x9c75.
Definition C_J : Z := 0xa001.
Definition C_BEQZ : Z := 0xc001.
Definition C_BNEZ : Z := 0xe001.
Definition C_SLLI : Z := 0x2.
Definition C_FLDSP : Z := 0x2002.
Definition C_LWSP : Z := 0x4002.
Definition C_FLWSP : Z := 0x6002.
Definition C_LDSP : Z := 0x6002.
Definition C_JR : Z := 0x8002.
Definition C_MV : Z := 0x8002.
Definition C_JALR : Z := 0x9002.
Definition C_ADD : Z := 0x9002.
Definition C_FSDSP : Z := 0xa002.
Definition C_SWSP : Z := 0xc002.
Definition C_FSWSP : Z := 0xe002.
Definition C_SDSP : Z := 0xe002.
Definition C_NOP : Z := 0x1.
Definition C_EBREAK : Z := 0x9002.
Definition C_LBU : Z := 0x8000.
Definition C_LH : Z := 0x8440.
Definition C_LHU : Z := 0x8400.
Definition C_SB : Z := 0x8800.
Definition C_SH : Z := 0x8c00.
End COpcode.

(** Extensions are bit positions of an [ExtensionSet]. *)
Module Extension.
Definition RV_I : Z := 0.
Definition RV_M : Z := 1.
Definition RV_A : Z := 2.
Definition RV_F : Z := 3.
Definition RV_D : Z := 4.
Definition RV_C : Z := 5.
Definition RV_Zba : Z := 6.
Definition RV_Zbb : Z := 7.
Definition RV_Zbs : Z := 8.
Definition RV_Zbc : Z := 9.
Definition RV_Zicond : Z := 10.
Definition RV_Zcb : Z := 11.
Definition RV_Zabha : Z := 12.
Definition RV_Zfa : Z := 13.
Definition RV_Zalasr : Z := 14.
End Extension.
