(* ===== verification/Locations.v ===== *)
(** * Locations of values: [Location] of runtime/vm/compiler/backend/locations.h

    A location is a word: the address of a constant with a tag in its low bits, or the
    kind of the location and its payload in bit fields.  The two components of a pair are
    behind a pointer, which is not modelled. *)

From S2P Require Import Prelude Utils BitField RiscvConstants.

Abbreviation Location := Z (only parsing).

Module Location.
Import BitField.

Definition kInvalidLocation : Z := 0.
Definition kLocationTagMask : Z := 0x3.

(** [enum Kind]. *)
Definition kInvalid : Z := 0.
Definition kConstantTag : Z := 1.
Definition kPairLocationTag : Z := 2.
Definition kUnallocated : Z := 1 ≪ 2.
Definition kStackSlot : Z := 2 ≪ 2.
Definition kDoubleStackSlot : Z := 3 ≪ 2.
Definition kQuadStackSlot : Z := 4 ≪ 2.
Definition kRegister : Z := 5 ≪ 2.
Definition kFpuRegister : Z := 6 ≪ 2.

(** [enum Policy]. *)
Definition kAny : Z := 0.
Definition kPrefersRegister : Z := 1.
Definition kRequiresRegister : Z := 2.
Definition kRequiresFpuRegister : Z := 3.
Definition kWritableRegister : Z := 4.
Definition kSameAsFirstInput : Z := 5.
Definition kSameAsFirstOrSecondInput : Z := 6.
Definition kMayBeSameAsFirstInput : Z := 7.
Definition kRequiresStack : Z := 8.

(** ** Layout; enumerations count as unsigned. *)
Definition KindField : field_params := mkField uword uint64_t 0 (BitLength kFpuRegister) false.
Definition PayloadField : field_params := mkField uword uword (kNextBit KindField) (64 - kNextBit KindField) false.
Definition PolicyField : field_params := mkField uword uint32_t 0 (BitLength kRequiresStack) false.
Definition kBitsForBaseReg : Z := 6.
Definition StackSlotBaseField : field_params := mkField uword uint32_t 0 kBitsForBaseReg false.
Definition StackIndexField : field_params :=
  mkField uword intptr_t (kNextBit StackSlotBaseField) (size PayloadField - kNextBit StackSlotBaseField) true.

Definition make (kind payload : Z) : Location := encode KindField kind .| encode PayloadField payload.
Definition kind (value_ : Location) : Z := decode KindField value_.
Definition payload (value_ : Location) : Z := decode PayloadField value_.

Definition NoLocation : Location := kInvalidLocation.
Definition IsInvalid (value_ : Location) : bool := value_ =? kInvalidLocation.
Definition Equals (value_ other : Location) : bool := value_ =? other.

(** ** Constants and pairs *)
Definition IsConstant (value_ : Location) : bool := value_ .& kConstantTag =? kConstantTag.
Definition Constant (obj pair_index : Z) : Location :=
  (obj .| (if negb (pair_index =? 0) then kPairLocationTag else 0)) .| kConstantTag.
Definition pair_index (value_ : Location) : Z := if negb (value_ .& kPairLocationTag =? 0) then 1 else 0.
Definition constant_instruction (value_ : Location) : Z := value_ .& u64 (Z.lnot kLocationTagMask).
Definition IsPairLocation (value_ : Location) : bool := value_ .& kLocationTagMask =? kPairLocationTag.

(** ** Unallocated locations *)
Definition IsUnallocated (value_ : Location) : bool := kind value_ =? kUnallocated.
Definition UnallocatedLocation (policy : Z) : Location := make kUnallocated (encode PolicyField policy).
Definition Any : Location := UnallocatedLocation kAny.
Definition RequiresStack : Location := UnallocatedLocation kRequiresStack.
Definition PrefersRegister : Location := UnallocatedLocation kPrefersRegister.
Definition RequiresRegister : Location := UnallocatedLocation kRequiresRegister.
Definition RequiresFpuRegister : Location := UnallocatedLocation kRequiresFpuRegister.
Definition WritableRegister : Location := UnallocatedLocation kWritableRegister.
Definition SameAsFirstInput : Location := UnallocatedLocation kSameAsFirstInput.
Definition SameAsFirstOrSecondInput : Location := UnallocatedLocation kSameAsFirstOrSecondInput.
Definition MayBeSameAsFirstInput : Location := UnallocatedLocation kMayBeSameAsFirstInput.
Definition policy (value_ : Location) : Z := decode PolicyField (payload value_).
Definition IsRegisterBeneficial (value_ : Location) : bool :=
  negb (Equals value_ Any) && negb (Equals value_ RequiresStack).

(** ** Registers *)
Definition RegisterLocation (reg : Z) : Location := make kRegister reg.
Definition IsRegister (value_ : Location) : bool := kind value_ =? kRegister.
Definition reg (value_ : Location) : Z := payload value_.
Definition FpuRegisterLocation (reg : Z) : Location := make kFpuRegister reg.
Definition IsFpuRegister (value_ : Location) : bool := kind value_ =? kFpuRegister.
Definition fpu_reg (value_ : Location) : Z := payload value_.
Definition IsMachineRegisterKind (kind : Z) : bool := (kind =? kRegister) || (kind =? kFpuRegister).
Definition MachineRegisterLocation (kind reg : Z) : Location :=
  if kind =? kRegister then RegisterLocation reg else FpuRegisterLocation reg.
Definition IsMachineRegister (value_ : Location) : bool := IsMachineRegisterKind (kind value_).
Definition register_code (value_ : Location) : Z := payload value_.

(** ** Stack slots *)
Definition slot_payload (stack_index base : Z) : Z :=
  encode StackSlotBaseField base .| encode StackIndexField stack_index.
Definition StackSlot (stack_index base : Z) : Location := make kStackSlot (slot_payload stack_index base).
Definition DoubleStackSlot (stack_index base : Z) : Location := make kDoubleStackSlot (slot_payload stack_index base).
Definition QuadStackSlot (stack_index base : Z) : Location := make kQuadStackSlot (slot_payload stack_index base).
Definition IsStackSlot (value_ : Location) : bool := kind value_ =? kStackSlot.
Definition IsDoubleStackSlot (value_ : Location) : bool := kind value_ =? kDoubleStackSlot.
Definition IsQuadStackSlot (value_ : Location) : bool := kind value_ =? kQuadStackSlot.
Definition HasStackIndex (value_ : Location) : bool :=
  IsStackSlot value_ || IsDoubleStackSlot value_ || IsQuadStackSlot value_.
Definition base_reg (value_ : Location) : Z := decode StackSlotBaseField (payload value_).
Definition stack_index (value_ : Location) : Z := decode StackIndexField (payload value_).
Definition set_stack_index (index : Z) (value_ : Location) : Location :=
  update PayloadField (update StackIndexField index (payload value_)) value_.
Definition set_base_reg (reg : Z) (value_ : Location) : Location :=
  update PayloadField (update StackSlotBaseField reg (payload value_)) value_.

(** In words of eight bytes. *)
Definition ToStackSlotOffset (value_ : Location) : Z := stack_index value_ * 8.

(** [ToSpRelative], of a location that is not a pair. *)
Definition ToSpRelative (fp_to_sp_delta : Z) (value_ : Location) : Location :=
  if HasStackIndex value_ then make (kind value_) (slot_payload (stack_index value_ - fp_to_sp_delta) Register.SP)
  else value_.
End Location.
