(* ===== verification/LocationsCorrect.v ===== *)
(** * Locations are distinct and read back

    Every constant, register, stack slot and policy has a location of its own, from which
    the kind and the operands are read. *)

From S2P Require Import Prelude Utils BitField RiscvConstants Locations.

Module LocationFacts.
Import BitField BitFieldFacts Location.

(** ** The fields *)

Lemma kind_field_ok : field_ok KindField.
Proof. by split. Qed.
Lemma payload_field_ok : field_ok PayloadField.
Proof. by split. Qed.
Lemma policy_field_ok : field_ok PolicyField.
Proof. by split. Qed.
Lemma base_field_ok : field_ok StackSlotBaseField.
Proof. by split. Qed.
Lemma index_field_ok : field_ok StackIndexField.
Proof. by split. Qed.

Lemma kind_payload_disjoint : disjoint_fields KindField PayloadField.
Proof. left. by vm_compute. Qed.
Lemma base_index_disjoint : disjoint_fields StackSlotBaseField StackIndexField.
Proof. left. by vm_compute. Qed.

Lemma make_kind k p : is_u 5 k -> kind (make k p) = k.
Proof. intros Hk. apply decode_pair_encode; [apply kind_field_ok|apply payload_field_ok|apply kind_payload_disjoint|exact Hk]. Qed.
Lemma make_payload k p : is_u 59 p -> payload (make k p) = p.
Proof.
  intros Hp. unfold payload, make. rewrite Z.lor_comm.
  apply decode_pair_encode; [apply payload_field_ok|apply kind_field_ok| |exact Hp].
  destruct kind_payload_disjoint; [by right|by left].
Qed.

Lemma make_range k p : is_u 64 (make k p).
Proof.
  apply is_u_lor; [lia| |].
  - apply (is_u_mono 5); [lia|]. exact (encode_range KindField k kind_field_ok).
  - exact (encode_range PayloadField p payload_field_ok).
Qed.

(** The kind is in the low bits, where the tags are. *)
Lemma kind_mod l : is_u 64 l -> kind l = l mod 32.
Proof.
  intros Hl. unfold kind, decode. cbn [bf_sign_extend KindField bf_T bf_position]. rewrite uwrap_small by done.
  change (u64 (mask KindField)) with (Z.ones 5). change (ct_cast uint64_t) with (uwrap 64).
  rewrite Z.shiftr_0_r, Z.land_ones by lia. change (2 ^ 5) with 32. apply uwrap_small.
  pose proof (Z.mod_pos_bound l 32). unfold is_u. lia.
Qed.
Lemma land_1 x : x .& 1 = x mod 2.
Proof. change 1 with (Z.ones 1). rewrite Z.land_ones by lia. reflexivity. Qed.
Lemma land_3 x : x .& 3 = x mod 4.
Proof. change 3 with (Z.ones 2). rewrite Z.land_ones by lia. reflexivity. Qed.

Definition a_kind (k : Z) : Prop :=
  In k [kUnallocated; kStackSlot; kDoubleStackSlot; kQuadStackSlot; kRegister; kFpuRegister].
Lemma a_kind_range k : a_kind k -> is_u 5 k /\ k mod 4 = 0 /\ k <> 0.
Proof. intros Hk. repeat destruct Hk as [<-|Hk]; [by vm_compute..|destruct Hk]. Qed.

(** A location with a kind is not invalid, no constant and no pair. *)
Lemma kind_tags l : is_u 64 l -> a_kind (kind l) ->
  IsInvalid l = false /\ IsConstant l = false /\ IsPairLocation l = false.
Proof.
  intros Hl Hk. destruct (a_kind_range _ Hk) as (Hr & H4 & H0). rewrite (kind_mod l Hl) in *.
  unfold IsInvalid, IsConstant, IsPairLocation, kInvalidLocation, kConstantTag, kPairLocationTag, kLocationTagMask.
  rewrite land_1, land_3. split_and!; apply Z.eqb_neq; Z.to_euclidean_division_equations; lia.
Qed.

(** ** Places *)

Inductive place : Type :=
  | AConstant (obj pair_index : Z)
  | APolicy (policy : Z)
  | ARegister (reg : Z)
  | AnFpuRegister (reg : Z)
  | AStackSlot (kind stack_index base : Z).

Definition place_ok (p : place) : Prop :=
  match p with
  | AConstant obj i => is_u 64 obj /\ obj mod 4 = 0 /\ (i = 0 \/ i = 1)
  | APolicy p => 0 <= p <= kRequiresStack
  | ARegister r | AnFpuRegister r => 0 <= r < 32
  | AStackSlot k i b => In k [kStackSlot; kDoubleStackSlot; kQuadStackSlot] /\ is_s 53 i /\ is_u 6 b
  end.

Definition location_of (p : place) : Location :=
  match p with
  | AConstant obj i => Constant obj i
  | APolicy p => UnallocatedLocation p
  | ARegister r => RegisterLocation r
  | AnFpuRegister r => FpuRegisterLocation r
  | AStackSlot k i b =>
      if k =? kStackSlot then StackSlot i b else if k =? kDoubleStackSlot then DoubleStackSlot i b else QuadStackSlot i b
  end.

(** What the accessors read. *)
Definition place_of (l : Location) : option place :=
  if IsInvalid l then None
  else if IsConstant l then Some (AConstant (constant_instruction l) (pair_index l))
  else if IsPairLocation l then None
  else if IsUnallocated l then Some (APolicy (policy l))
  else if IsRegister l then Some (ARegister (reg l))
  else if IsFpuRegister l then Some (AnFpuRegister (fpu_reg l))
  else if HasStackIndex l then Some (AStackSlot (kind l) (stack_index l) (base_reg l))
  else None.

Lemma slot_payload_range i b : is_u 59 (slot_payload i b).
Proof.
  apply is_u_lor; [lia| |].
  - apply (is_u_mono 6); [lia|]. exact (encode_range StackSlotBaseField b base_field_ok).
  - exact (encode_range StackIndexField i index_field_ok).
Qed.
Lemma slot_fields k i b : is_s 53 i -> is_u 6 b ->
  stack_index (make k (slot_payload i b)) = i /\ base_reg (make k (slot_payload i b)) = b.
Proof.
  intros Hi Hb. unfold stack_index, base_reg. rewrite make_payload by apply slot_payload_range. split.
  - unfold slot_payload. rewrite Z.lor_comm. apply decode_pair_encode; [apply index_field_ok|apply base_field_ok| |exact Hi].
    destruct base_index_disjoint; [by right|by left].
  - apply decode_pair_encode; [apply base_field_ok|apply index_field_ok|apply base_index_disjoint|exact Hb].
Qed.

(** A constant has its tags in the bits that its address leaves free. *)
Lemma constant_bits obj i n : obj mod 4 = 0 -> i = 0 \/ i = 1 -> 0 <= n ->
  Z.testbit (Constant obj i) n = if n <? 2 then (n =? 0) || (i =? 1) else Z.testbit obj n.
Proof.
  intros H4 Hi Hn. unfold Constant, kConstantTag, kPairLocationTag. rewrite !Z.lor_spec.
  assert (Hlow : n < 2 -> Z.testbit obj n = false).
  { intros Hlt. rewrite <- (Z.mod_pow2_bits_low obj 2 n) by lia. change (2 ^ 2) with 4. rewrite H4. apply Z.bits_0. }
  destruct (Z.ltb_spec n 2).
  - rewrite Hlow by lia. assert (n = 0 \/ n = 1) as [-> | ->] by lia; destruct Hi as [-> | ->]; reflexivity.
  - rewrite (Z.bits_above_log2 1) by (simpl; lia). rewrite orb_false_r.
    destruct (negb (i =? 0)); [rewrite (Z.bits_above_log2 2) by (simpl; lia)|rewrite Z.bits_0]; apply orb_false_r.
Qed.
Lemma constant_read obj i : place_ok (AConstant obj i) -> place_of (Constant obj i) = Some (AConstant obj i).
Proof.
  intros (Hobj & H4 & Hi). pose proof (constant_bits obj i) as Hb. unfold place_of, IsInvalid, IsConstant, kConstantTag.
  assert (Ec : Constant obj i .& 1 = 1).
  { apply Z.bits_inj'. intros n Hn. rewrite Z.land_spec, Hb by done. destruct (Z.eqb_spec n 0) as [->|]; [done|].
    rewrite (Z.bits_above_log2 1) by (simpl; lia). apply andb_false_r. }
  destruct (Z.eqb_spec (Constant obj i) kInvalidLocation) as [E0|_]; [by rewrite E0 in Ec|]. rewrite Ec. simpl.
  assert (Eo : constant_instruction (Constant obj i) = obj).
  { apply Z.bits_inj'. intros n Hn. unfold constant_instruction. rewrite Z.land_spec, testbit_uwrap, Hb by (done || lia).
    rewrite Z.lnot_spec by done. unfold kLocationTagMask.
    assert (Hlow : n < 2 -> Z.testbit obj n = false).
    { intros Hlt. rewrite <- (Z.mod_pow2_bits_low obj 2 n) by lia. change (2 ^ 2) with 4. rewrite H4. apply Z.bits_0. }
    destruct (Z.ltb_spec n 2).
    - rewrite Hlow by lia. assert (n = 0 \/ n = 1) as [-> | ->] by lia; apply andb_false_r.
    - rewrite (Z.bits_above_log2 3) by (simpl; lia). destruct (Z.ltb_spec n 64); [by rewrite andb_true_r|].
      rewrite (testbit_high 64 obj n Hobj) by lia. done. }
  assert (Ep : pair_index (Constant obj i) = i).
  { unfold pair_index, kPairLocationTag. assert (E : Constant obj i .& 2 = 2 * i).
    { apply Z.bits_inj'. intros n Hn. rewrite Z.land_spec, Hb by done. destruct (Z.ltb_spec n 2).
      - assert (n = 0 \/ n = 1) as [-> | ->] by lia; destruct Hi as [-> | ->]; reflexivity.
      - rewrite (Z.bits_above_log2 2), andb_false_r by (simpl; lia). destruct Hi as [-> | ->]; [by rewrite Z.bits_0|].
        by rewrite (Z.bits_above_log2 (2 * 1)) by (simpl; lia). }
    rewrite E. destruct Hi as [-> | ->]; reflexivity. }
  by rewrite Eo, Ep.
Qed.

Lemma kind_read l k p : is_u 64 l -> a_kind k -> kind l = k -> payload l = p ->
  place_of l =
    if k =? kUnallocated then Some (APolicy (decode PolicyField p))
    else if k =? kRegister then Some (ARegister p)
    else if k =? kFpuRegister then Some (AnFpuRegister p)
    else Some (AStackSlot k (decode StackIndexField p) (decode StackSlotBaseField p)).
Proof.
  intros Hl Hk Ek Ep. rewrite <- Ek in Hk. destruct (kind_tags l Hl Hk) as (Hi & Hc & Hpair). rewrite Ek in Hk.
  unfold place_of, IsUnallocated, IsRegister, IsFpuRegister, HasStackIndex, IsStackSlot, IsDoubleStackSlot, IsQuadStackSlot,
    policy, reg, fpu_reg, stack_index, base_reg.
  rewrite Hi, Hc, Hpair, Ek, Ep. repeat destruct Hk as [<-|Hk]; [reflexivity..|destruct Hk].
Qed.
Lemma make_read k p : a_kind k -> is_u 59 p ->
  place_of (make k p) =
    if k =? kUnallocated then Some (APolicy (decode PolicyField p))
    else if k =? kRegister then Some (ARegister p)
    else if k =? kFpuRegister then Some (AnFpuRegister p)
    else Some (AStackSlot k (decode StackIndexField p) (decode StackSlotBaseField p)).
Proof.
  intros Hk Hp. destruct (a_kind_range k Hk) as (Hr & _ & _).
  apply kind_read; [apply make_range|done|by apply make_kind|by apply make_payload].
Qed.

#[local] Opaque make decode encode.

Lemma slot_location k i b : In k [kStackSlot; kDoubleStackSlot; kQuadStackSlot] ->
  location_of (AStackSlot k i b) = make k (slot_payload i b) /\ a_kind k /\
  (k =? kUnallocated) = false /\ (k =? kRegister) = false /\ (k =? kFpuRegister) = false.
Proof.
  intros [<-|[<-|[<-|[]]]]; (split; [reflexivity|]); (split; [|done]); [right; by left|do 2 right; by left|do 3 right; by left].
Qed.

Lemma location_read p : place_ok p -> place_of (location_of p) = Some p.
Proof.
  destruct p as [obj i|p|r|r|k i b]; intros Hp.
  - by apply constant_read.
  - cbn [location_of place_ok] in *. unfold UnallocatedLocation. rewrite make_read; [|by left|].
    + change (kUnallocated =? kUnallocated) with true. cbv iota.
      rewrite decode_encode; [done|apply policy_field_ok|]. change (is_u 4 p). unfold is_u, kRequiresStack in *. lia.
    + apply (is_u_mono 4); [lia|]. exact (encode_range PolicyField p policy_field_ok).
  - cbn [location_of place_ok] in *. unfold RegisterLocation. rewrite make_read; [done|do 4 right; by left|]. unfold is_u. lia.
  - cbn [location_of place_ok] in *. unfold FpuRegisterLocation. rewrite make_read; [done|do 5 right; by left|]. unfold is_u. lia.
  - destruct Hp as (Hk & Hi & Hb). destruct (slot_location k i b Hk) as (E & Ha & E1 & E2 & E3).
    rewrite E, make_read, E1, E2, E3 by (done || apply slot_payload_range). destruct (slot_fields k i b Hi Hb) as [E4 E5].
    unfold stack_index, base_reg in E4, E5. rewrite make_payload in E4, E5 by apply slot_payload_range. by rewrite E4, E5.
Qed.

Lemma location_inj p q : place_ok p -> place_ok q -> location_of p = location_of q -> p = q.
Proof.
  intros Hp Hq E. pose proof (location_read p Hp) as Ep. rewrite E, (location_read q Hq) in Ep. by injection Ep.
Qed.

(** Setting a part of the payload of a slot. *)
Lemma set_payload k i b p' : In k [kStackSlot; kDoubleStackSlot; kQuadStackSlot] -> is_u 59 p' ->
  let l := update PayloadField p' (make k (slot_payload i b)) in
  kind l = k /\ payload l = p' /\ is_u 64 l.
Proof.
  intros Hk Hp l. destruct (slot_location k i b Hk) as (_ & Ha & _). destruct (a_kind_range k Ha) as (Hr & _ & _).
  pose proof (make_range k (slot_payload i b)) as Hm. split_and!.
  - unfold kind, l. rewrite decode_update_other; [by apply make_kind|apply payload_field_ok|apply kind_field_ok| |exact Hm].
    destruct kind_payload_disjoint; [by right|by left].
  - apply decode_update; [apply payload_field_ok|exact Hm|exact Hp].
  - exact (update_range PayloadField _ _ payload_field_ok).
Qed.

Lemma update_slot_read k i b p' : In k [kStackSlot; kDoubleStackSlot; kQuadStackSlot] -> is_u 59 p' ->
  place_of (update PayloadField p' (location_of (AStackSlot k i b)))
    = Some (AStackSlot k (decode StackIndexField p') (decode StackSlotBaseField p')).
Proof.
  intros Hk Hp. destruct (slot_location k i b Hk) as (-> & Ha & E1 & E2 & E3).
  destruct (set_payload k i b p' Hk Hp) as (Ek & Ep & Hr). rewrite (kind_read _ k p' Hr Ha Ek Ep). by rewrite E1, E2, E3.
Qed.

Lemma payload_range F v p : field_ok F -> bf_S F = uword -> kNextBit F <= 59 -> is_u 59 p -> is_u 59 (update F v p).
Proof.
  intros HF HS HN Hp. destruct (size_bounds F HF) as [Hs _]. pose proof (ok_fits F HF) as [HP _].
  assert (Hp64 : is_u (ct_bits (bf_S F)) p) by (rewrite HS; apply (is_u_mono 59); [simpl; lia|done]).
  apply is_u_bits; [lia|apply (update_range F v p HF)|]. intros n Hn. rewrite testbit_update by (done || lia).
  rewrite (proj2 (Z.ltb_ge n (kNextBit F))), andb_false_r by lia. by apply (testbit_high 59).
Qed.

Lemma setters k i b j r : place_ok (AStackSlot k i b) -> is_s 53 j -> is_u 6 r ->
  let l := location_of (AStackSlot k i b) in
  place_of (set_stack_index j l) = Some (AStackSlot k j b) /\ place_of (set_base_reg r l) = Some (AStackSlot k i r) /\
  (forall delta, is_s 53 (i - delta) -> place_of (ToSpRelative delta l) = Some (AStackSlot k (i - delta) Register.SP)).
Proof.
  intros (Hk & Hi & Hb) Hj Hr l. destruct (slot_location k i b Hk) as (E & Ha & _). destruct (a_kind_range k Ha) as (Hr5 & _ & _).
  destruct (slot_fields k i b Hi Hb) as [Ei Eb]. pose proof (slot_payload_range i b) as Hp.
  assert (Hp64 : is_u 64 (slot_payload i b)) by (apply (is_u_mono 59); [lia|done]).
  assert (El : payload l = slot_payload i b) by (unfold l; rewrite E; by apply make_payload).
  assert (Ei' : decode StackIndexField (slot_payload i b) = i) by (rewrite <- El; unfold l; rewrite E; exact Ei).
  assert (Eb' : decode StackSlotBaseField (slot_payload i b) = b) by (rewrite <- El; unfold l; rewrite E; exact Eb).
  pose proof base_index_disjoint as Hd. assert (Hd' : disjoint_fields StackIndexField StackSlotBaseField) by (destruct Hd; [by right|by left]).
  split_and!.
  - unfold set_stack_index. rewrite El. unfold l. rewrite update_slot_read;
      [|done|by apply payload_range; [apply index_field_ok|..]].
    rewrite decode_update, decode_update_other, Eb' by (apply index_field_ok || apply base_field_ok || assumption). reflexivity.
  - unfold set_base_reg. rewrite El. unfold l. rewrite update_slot_read;
      [|done|by apply payload_range; [apply base_field_ok|..]].
    rewrite decode_update, decode_update_other, Ei' by (apply index_field_ok || apply base_field_ok || assumption). reflexivity.
  - intros delta Hdelta. unfold ToSpRelative.
    assert (Hl : kind l = k) by (unfold l; rewrite E; by apply make_kind).
    assert (Hs : HasStackIndex l = true).
    { unfold HasStackIndex, IsStackSlot, IsDoubleStackSlot, IsQuadStackSlot. rewrite Hl.
      destruct Hk as [<-|[<-|[<-|[]]]]; reflexivity. }
    rewrite Hs, Hl. unfold stack_index. rewrite El, Ei'.
    destruct (slot_location k (i - delta) Register.SP Hk) as (<- & _). apply location_read. split_and!; [done..|by vm_compute].
Qed.
End LocationFacts.

Import LocationFacts Location.

(** C25: a constant, a policy, a register and a stack slot each have a location of their
    own, never the invalid one, from which the accessors read what it was made of;
    [Equals] holds exactly for the same place; the setters and the move to the stack
    pointer change the part of a slot they name. *)
Theorem locations_distinct p q k i b j r : place_ok p -> place_ok q ->
  place_of (location_of p) = Some p /\ IsInvalid (location_of p) = false /\
  IsConstant (location_of p) = (match p with AConstant _ _ => true | _ => false end) /\
  (Equals (location_of p) (location_of q) = true <-> p = q) /\
  (p = AStackSlot k i b -> is_s 53 j -> is_u 6 r ->
   let l := location_of p in
   place_of (set_stack_index j l) = Some (AStackSlot k j b) /\ place_of (set_base_reg r l) = Some (AStackSlot k i r) /\
   (forall delta, is_s 53 (i - delta) -> place_of (ToSpRelative delta l) = Some (AStackSlot k (i - delta) Register.SP))).
Proof.
  intros Hp Hq. pose proof (location_read p Hp) as E. split_and!.
  - done.
  - unfold place_of in E. by destruct (IsInvalid (location_of p)).
  - unfold place_of in E. destruct (IsInvalid (location_of p)); [done|].
    destruct (IsConstant (location_of p)); [by injection E as <-|].
    destruct p; [|reflexivity..]. exfalso. revert E. repeat case_match; discriminate.
  - unfold Equals. rewrite Z.eqb_eq. split; [by apply location_inj|by intros ->].
  - intros -> Hj Hr. by apply setters.
Qed.
Lemma locations_distinct_witness :
  place_of (StackSlot (-3) Register.FP) = Some (AStackSlot kStackSlot (-3) Register.FP) /\
  place_of (ToSpRelative (-10) (StackSlot (-3) Register.FP)) = Some (AStackSlot kStackSlot 7 Register.SP) /\
  Equals (StackSlot 5 Register.FP) (RegisterLocation 5) = false.
Proof.
  destruct (locations_distinct (AStackSlot kStackSlot (-3) Register.FP) (ARegister 5) kStackSlot (-3) Register.FP 0 0)
    as (H1 & _ & _ & _ & H2).
  - split; [by left|]. by split.
  - by split.
  - destruct (H2 eq_refl) as (_ & _ & H3); [split; lia|split; lia|]. specialize (H3 (-10) ltac:(split; lia)).
    split; [exact H1|]. split; [exact H3|vm_compute; reflexivity].
Defined.
