(* ===== verification/ParallelMove.v ===== *)
(** * Parallel moves: runtime/vm/compiler/backend/parallel_move_resolver.h and .cc

    [ParallelMoveResolver] turns moves that are to happen at once into a schedule of
    moves and swaps, and [ParallelMoveEmitter] looks for scratch registers while the
    schedule is emitted.  [MoveOperands] is from il.h.  The assertions of the resolver, of
    [MarkPending] and of [ClearPending] are part of the model: one that fails is an error.
    The one of [IsEliminated], that a move without source has no destination, is not: the
    moves that are kept have a source until [Eliminate] clears both. *)

From S2P Require Import Prelude Utils RiscvConstants Locations.
Import Location.

(** A failed assertion, an index outside an array, and no more rounds. *)
Inductive move_error : Type := AssertionFailed | OutsideMoves | MoveRounds.
Abbreviation move_result := (result move_error).
Definition ASSERT (b : bool) : move_result unit := if b then Ok tt else Err AssertionFailed.

Record MoveOperands : Type := mkMove { dest_ : Location; src_ : Location }.
#[global] Instance MoveOperands_eq_dec : EqDecision MoveOperands.
Proof. solve_decision. Defined.

Module Move.
Definition set_src (value : Location) (m : MoveOperands) : MoveOperands := mkMove (dest_ m) value.
Definition IsEliminated (m : MoveOperands) : bool := IsInvalid (src_ m).
Definition Eliminate (m : MoveOperands) : MoveOperands := mkMove NoLocation NoLocation.
Definition IsPending (m : MoveOperands) : bool := IsInvalid (dest_ m) && negb (IsInvalid (src_ m)).
Definition MarkPending (m : MoveOperands) : Location * MoveOperands := (dest_ m, mkMove NoLocation (src_ m)).
Definition ClearPending (dest : Location) (m : MoveOperands) : MoveOperands := mkMove dest (src_ m).
Definition Blocks (m : MoveOperands) (loc : Location) : bool := negb (IsEliminated m) && Equals (src_ m) loc.
Definition IsRedundant (m : MoveOperands) : bool :=
  IsEliminated m || IsInvalid (dest_ m) || Equals (src_ m) (dest_ m).
End Move.
Import Move.

(** [enum class OpKind] and [struct Op]. *)
Inductive OpKind : Type := kNop | kMove | kSwap.
#[global] Instance OpKind_eq_dec : EqDecision OpKind.
Proof. solve_decision. Defined.
Record Op : Type := mkOp { op_kind : OpKind; operands : MoveOperands }.

(** The state of the resolver. *)
Record Resolver : Type := mkResolver { moves_ : list MoveOperands; scheduled_ops_ : list Op }.

Module ParallelMoveResolver.

Definition move_at (index : nat) (r : Resolver) : move_result MoveOperands :=
  match moves_ r !! index with Some m => Ok m | None => Err OutsideMoves end.
Definition set_move (index : nat) (m : MoveOperands) (r : Resolver) : Resolver :=
  mkResolver (<[index := m]> (moves_ r)) (scheduled_ops_ r).
Definition add_op (op : Op) (r : Resolver) : Resolver := mkResolver (moves_ r) (scheduled_ops_ r ++ [op]).

Definition BuildInitialMoveList (parallel_move : list MoveOperands) : list MoveOperands :=
  List.filter (fun m => negb (IsRedundant m)) parallel_move.

Definition AddMoveToSchedule (index : nat) (r : Resolver) : move_result Resolver :=
  move ← move_at index r;
  Ok (set_move index (Eliminate move) (add_op (mkOp kMove move) r)).

(** The sources of the other moves after a swap. *)
Definition swap_src (source destination : Location) (m : MoveOperands) : MoveOperands :=
  if Blocks m source then set_src destination m
  else if Blocks m destination then set_src source m
  else m.

Definition AddSwapToSchedule (index : nat) (r : Resolver) : move_result Resolver :=
  move ← move_at index r;
  let source := src_ move in
  let destination := dest_ move in
  let r := set_move index (Eliminate move) (add_op (mkOp kSwap move) r) in
  Ok (mkResolver (map (swap_src source destination) (moves_ r)) (scheduled_ops_ r)).

(** The loop that performs the blocking moves, and the search for a pending one. *)
Fixpoint perform_blocking (perform : nat -> Resolver -> move_result Resolver) (destination : Location) (indices : list nat)
    (r : Resolver) : move_result Resolver :=
  match indices with
  | [] => Ok r
  | i :: indices =>
      other_move ← move_at i r;
      r ← (if Blocks other_move destination && negb (IsPending other_move) then perform i r else Ok r);
      perform_blocking perform destination indices r
  end.
Definition find_blocking (destination : Location) (moves : list MoveOperands) : option MoveOperands :=
  List.find (fun m => Blocks m destination) moves.

Fixpoint PerformMove (fuel : nat) (index : nat) (r : Resolver) : move_result Resolver :=
  match fuel with
  | O => Err MoveRounds
  | S fuel =>
      move ← move_at index r;
      _ ← ASSERT (negb (IsPending move));
      _ ← ASSERT (negb (IsRedundant move));
      _ ← ASSERT (negb (IsInvalid (src_ move)));
      let '(destination, pending) := MarkPending move in
      let r := set_move index pending r in
      r ← perform_blocking (PerformMove fuel) destination (seq 0 (length (moves_ r))) r;
      move ← move_at index r;
      _ ← ASSERT (IsPending move);
      let move := ClearPending destination move in
      let r := set_move index move r in
      if Equals (src_ move) destination then Ok (set_move index (Eliminate move) r)
      else
        match find_blocking destination (moves_ r) with
        | Some other_move =>
            _ ← ASSERT (IsPending other_move);
            AddSwapToSchedule index r
        | None => AddMoveToSchedule index r
        end
  end.

(** The loop of [Resolve] over the moves that have no constant as source. *)
Fixpoint perform_all (indices : list nat) (r : Resolver) : move_result Resolver :=
  match indices with
  | [] => Ok r
  | i :: indices =>
      move ← move_at i r;
      r ← (if negb (IsEliminated move) && negb (IsConstant (src_ move))
           then PerformMove (length (moves_ r)) i r else Ok r);
      perform_all indices r
  end.

(** Then the constants. *)
Fixpoint add_constants (moves : list MoveOperands) (ops : list Op) : move_result (list Op) :=
  match moves with
  | [] => Ok ops
  | move :: moves =>
      if negb (IsEliminated move) then
        _ ← ASSERT (IsConstant (src_ move));
        add_constants moves (ops ++ [mkOp kMove move])
      else add_constants moves ops
  end.

(** [MoveSchedule::From]. *)
Definition From (ops : list Op) : list Op := List.filter (fun op => bool_decide (op_kind op <> kNop)) ops.

Definition Resolve (parallel_move : list MoveOperands) : move_result (list Op) :=
  let r := mkResolver (BuildInitialMoveList parallel_move) [] in
  r ← perform_all (seq 0 (length (moves_ r))) r;
  ops ← add_constants (moves_ r) (scheduled_ops_ r);
  Ok (From ops).
End ParallelMoveResolver.

Module ParallelMoveEmitter.

(** The tests of the two loops of [IsScratchLocation]. *)
Definition reads (loc : Location) (op : Op) : bool :=
  Equals (src_ (operands op)) loc || (bool_decide (op_kind op = kSwap) && Equals (dest_ (operands op)) loc).
Definition writes (loc : Location) (op : Op) : bool :=
  bool_decide (op_kind op = kMove) && Equals (dest_ (operands op)) loc.
Definition IsScratchLocation (move_schedule : list Op) (current_move_ : nat) (loc : Location) : bool :=
  if existsb (reads loc) (drop current_move_ move_schedule) then false
  else existsb (writes loc) (drop (current_move_ + 1) move_schedule).

(** The bit of a register in the type of the literal, as a word. *)
Definition reg_bit (reg : Z) : Z := u64 (s32 (1 ≪ reg)).
Definition kNoRegister : Z := -1.
Definition RegMaskBit (reg : Z) : Z := if negb (reg =? kNoRegister) then reg_bit reg else 0.

(** The registers from the first to the last. *)
Definition registers (first last : Z) : list Z := seqZ first (last - first + 1).

(** The register and whether it has to be spilled. *)
Definition AllocateScratchRegister (move_schedule : list Op) (current_move_ : nat) (kind blocked_mask first_free_register
    last_free_register : Z) : Z * bool :=
  let free reg := reg_bit reg .& blocked_mask =? 0 in
  let regs := registers first_free_register last_free_register in
  match List.find (fun reg => free reg &&
      IsScratchLocation move_schedule current_move_ (MachineRegisterLocation kind reg)) regs with
  | Some scratch => (scratch, false)
  | None => (match List.find free regs with Some scratch => scratch | None => -1 end, true)
  end.

(** [AllocateTemporary], for a function that is no intrinsic or one. *)
Definition TMP : Z := Register.A3.
Definition TMP2 : Z := Register.A4.
Definition PP : Z := Register.A5.
Definition kReservedCpuRegisters : Z :=
  fold_left (fun m r => m .| (1 ≪ r))
    [Register.ZR; Register.TP; Register.GP; Register.SP; Register.FP; TMP; TMP2; PP; Register.S1; Register.RA;
     Register.S11; Register.S10; Register.S9; Register.FAR_TMP] 0.
Definition kNumberOfCpuRegisters : Z := 32.
Definition AllocateTemporary (move_schedule : list Op) (current_move_ : nat) (intrinsic_mode : bool) (blocked_ : Z) : Z * bool :=
  let blocked_mask := RegMaskBit blocked_ .| kReservedCpuRegisters in
  let blocked_mask :=
    if intrinsic_mode then (blocked_mask .| RegMaskBit Register.S4) .| RegMaskBit Register.A2 else blocked_mask in
  AllocateScratchRegister move_schedule current_move_ kRegister blocked_mask 0 (kNumberOfCpuRegisters - 1).
End ParallelMoveEmitter.
