(* ===== verification/ParallelMoveCorrect.v ===== *)
(** * A schedule does what the parallel move asks for

    The recursion of [PerformMove] is followed with the stack of pending moves: each
    pending move but the outermost reads what the one before it is to overwrite, a
    location that is read by no move that waits is free to be overwritten, and a swap
    only disturbs destinations that are still to be written. *)

From S2P Require Import Prelude Utils RiscvConstants Locations ParallelMove.
Import Location Move ParallelMoveResolver ParallelMoveEmitter.

Module MoveFacts.

(** ** What a schedule does to the values of the locations *)
Section Values.
Context {V : Type}.

Definition assign (l : Location) (v : V) (s : Location -> V) : Location -> V := fun x => if x =? l then v else s x.
Definition exec_op (op : Op) (s : Location -> V) : Location -> V :=
  let '(mkMove dest src) := operands op in
  match op_kind op with
  | kNop => s
  | kMove => assign dest (s src) s
  | kSwap => assign dest (s src) (assign src (s dest) s)
  end.
Definition exec (ops : list Op) (s : Location -> V) : Location -> V := fold_left (fun s op => exec_op op s) ops s.

Lemma exec_snoc ops op s : exec (ops ++ [op]) s = exec_op op (exec ops s).
Proof. unfold exec. by rewrite fold_left_app. Qed.
Lemma assign_eq l v s : assign l v s l = v.
Proof. unfold assign. by rewrite Z.eqb_refl. Qed.
Lemma assign_ne l v s x : x <> l -> assign l v s x = s x.
Proof. intros H. unfold assign. by rewrite (proj2 (Z.eqb_neq _ _) H). Qed.
End Values.

Section Resolver.
Context {V : Type} (s0 : Location -> V) (n : nat) (D S0 : nat -> Location).
Hypothesis D_valid : forall i, (i < n)%nat -> D i <> NoLocation.
Hypothesis D_variable : forall i, (i < n)%nat -> IsConstant (D i) = false.
Hypothesis D_inj : forall i j, (i < n)%nat -> (j < n)%nat -> D i = D j -> i = j.

Definition live (moves : list MoveOperands) (i : nat) : Prop :=
  exists m, moves !! i = Some m /\ src_ m <> NoLocation.

(** What is known of the move at [i], in a state with the values [s] and the pending
    moves [ps]. *)
Definition pending_ok (s : Location -> V) (i : nat) (m : MoveOperands) : Prop :=
  dest_ m = NoLocation /\ src_ m <> NoLocation /\ s (src_ m) = s0 (S0 i).
Definition done_ok (s : Location -> V) (i : nat) (m : MoveOperands) : Prop :=
  m = mkMove NoLocation NoLocation /\ s (D i) = s0 (S0 i).
Definition waiting_ok (s : Location -> V) (i : nat) (m : MoveOperands) : Prop :=
  dest_ m = D i /\ src_ m <> NoLocation /\ src_ m <> D i /\ s (src_ m) = s0 (S0 i).

Record inv (r : Resolver) (ps : list nat) : Prop := {
  inv_length : length (moves_ r) = n;
  inv_nodup : NoDup ps;
  inv_bound : Forall (fun i => (i < n)%nat) ps;
  inv_pending : forall i m, i ∈ ps -> moves_ r !! i = Some m -> pending_ok (exec (scheduled_ops_ r) s0) i m;
  inv_other : forall i m, i ∉ ps -> moves_ r !! i = Some m ->
    done_ok (exec (scheduled_ops_ r) s0) i m \/ waiting_ok (exec (scheduled_ops_ r) s0) i m;
  inv_frame : forall l, (forall i, (i < n)%nat -> D i <> l) -> exec (scheduled_ops_ r) s0 l = s0 l;
  inv_chain : forall k a b m, ps !! k = Some a -> ps !! S k = Some b -> moves_ r !! a = Some m -> src_ m = D b
}.

(** How the moves change: none comes back to life, and a waiting one gets a new source
    only when no destination that is still to be written is that source. *)
Record evolves (ps : list nat) (moves moves' : list MoveOperands) : Prop := {
  ev_live : forall i, live moves' i -> live moves i;
  ev_source : forall i m m', i ∉ ps -> moves !! i = Some m -> moves' !! i = Some m' -> src_ m' <> NoLocation ->
    src_ m' = src_ m \/ (IsConstant (src_ m) = false /\ forall q, live moves' q -> D q <> src_ m')
}.

Lemma invalid_spec l : IsInvalid l = false <-> l <> NoLocation.
Proof. unfold IsInvalid, NoLocation, kInvalidLocation. apply Z.eqb_neq. Qed.
Lemma blocks_spec m l : Blocks m l = true <-> src_ m <> NoLocation /\ src_ m = l.
Proof.
  unfold Blocks, IsEliminated, Equals. rewrite andb_true_iff, negb_true_iff, invalid_spec, Z.eqb_eq. done.
Qed.

Lemma evolves_refl ps moves : evolves ps moves moves.
Proof. split; [done|]. intros i m m' _ E E' _. left. congruence. Qed.
Lemma evolves_trans ps moves1 moves2 moves3 : length moves2 = n -> length moves3 = n ->
  evolves ps moves1 moves2 -> evolves ps moves2 moves3 -> evolves ps moves1 moves3.
Proof.
  intros H2 H3 [L1 S1] [L2 S2]. split; [by auto|]. intros i m m' Hi E E' Hv.
  assert (Hl : live moves2 i) by (apply L2; by exists m'). destruct Hl as (m2 & E2 & Hv2).
  destruct (S1 i m m2 Hi E E2 Hv2) as [Es|[Hc Hq]], (S2 i m2 m' Hi E2 E' Hv) as [Es'|[Hc' Hq']]; try rewrite Es in *.
  - left. congruence.
  - by right.
  - right. split; [done|]. rewrite Es'. intros q Hlq. by apply Hq, L2.
  - by right.
Qed.

(** ** The end of a move *)

Definition eliminated : MoveOperands := mkMove NoLocation NoLocation.

Lemma lookup_eliminated (moves : list MoveOperands) x i m : (<[x := eliminated]> moves) !! i = Some m ->
  (i = x /\ m = eliminated) \/ (i <> x /\ moves !! i = Some m).
Proof.
  intros E. destruct (decide (i = x)) as [->|Hne].
  - left. split; [done|]. assert (Hx : (x < length moves)%nat).
    { apply lookup_lt_Some in E. by rewrite length_insert in E. }
    rewrite list_lookup_insert_eq in E by done. congruence.
  - right. split; [done|]. by rewrite list_lookup_insert_ne in E by done.
Qed.

Section Finish.
Context (r : Resolver) (x : nat) (ps : list nat) (m : MoveOperands).
Hypothesis Hinv : inv r (x :: ps).
Hypothesis Hm : moves_ r !! x = Some m.

Let s := exec (scheduled_ops_ r) s0.

Lemma x_bound : (x < n)%nat.
Proof. pose proof (inv_bound _ _ Hinv) as H. by apply Forall_cons in H as [? _]. Qed.
Lemma x_fresh : x ∉ ps.
Proof. pose proof (inv_nodup _ _ Hinv) as H. by apply NoDup_cons in H as [? _]. Qed.
Lemma x_pending : pending_ok s x m.
Proof. apply (inv_pending _ _ Hinv); [by left|done]. Qed.
Lemma index_bound i mi : moves_ r !! i = Some mi -> (i < n)%nat.
Proof. intros E. apply lookup_lt_Some in E. by rewrite (inv_length _ _ Hinv) in E. Qed.

(** The state in which the move is gone: what is left to show is what the values of the
    locations are. *)
Lemma finish_inv moves' ops' (s' := exec ops' s0) :
  length moves' = n ->
  (forall i mi', i <> x -> moves' !! i = Some mi' ->
     exists mi, moves_ r !! i = Some mi /\ dest_ mi' = dest_ mi /\ (src_ mi' = NoLocation <-> src_ mi = NoLocation) /\
       (src_ mi <> NoLocation -> s' (src_ mi') = s (src_ mi)) /\
       (i ∉ ps -> src_ mi <> NoLocation -> src_ mi' <> D i) /\
       (forall k b, ps !! k = Some i -> ps !! S k = Some b -> src_ mi' = src_ mi)) ->
  moves' !! x = Some eliminated ->
  s' (D x) = s0 (S0 x) ->
  (forall i, (i < n)%nat -> i <> x -> (forall mi, moves_ r !! i = Some mi -> (i ∉ ps) /\ src_ mi = NoLocation) -> s' (D i) = s (D i)) ->
  (forall l, (forall i, (i < n)%nat -> D i <> l) -> s' l = s l) ->
  inv (mkResolver moves' ops') ps.
Proof.
  intros Hlen Hsame Hx Hvalue Hdone Hframe. pose proof x_fresh as Hfresh. split; cbn [moves_ scheduled_ops_].
  - done.
  - pose proof (inv_nodup _ _ Hinv) as H. by apply NoDup_cons in H as [_ ?].
  - pose proof (inv_bound _ _ Hinv) as H. by apply Forall_cons in H as [_ ?].
  - intros i mi' Hi E. assert (i <> x) by congruence.
    destruct (Hsame i mi') as (mi & Ei & Hd & Hl & Hs & _); [done|done|].
    destruct (inv_pending _ _ Hinv i mi) as (Pd & Ps & Pv); [by right|done|]. fold s in Pv.
    split_and!; [congruence|by rewrite Hl|]. change (s' (src_ mi') = s0 (S0 i)). rewrite Hs by done. exact Pv.
  - intros i mi' Hi E. destruct (decide (i = x)) as [->|Hne].
    { left. rewrite Hx in E. injection E as <-. split; [done|exact Hvalue]. }
    destruct (Hsame i mi') as (mi & Ei & Hd & Hl & Hs & Hself & _); [done|done|].
    destruct (inv_other _ _ Hinv i mi) as [[-> Pv]|(Pd & Ps & Pn & Pv)]; [|done| |].
    + intros Hin. apply elem_of_cons in Hin as [|]; done.
    + left. fold s in Pv. destruct mi' as [d' s'']. simpl in *. split.
      * f_equal; [congruence|by apply Hl].
      * change (s' (D i) = s0 (S0 i)). rewrite Hdone; [exact Pv|by eapply index_bound|done|].
        intros mi Emi. rewrite Ei in Emi. by injection Emi as <-.
    + right. fold s in Pv. split_and!; [congruence|by rewrite Hl|by apply Hself|].
      change (s' (src_ mi') = s0 (S0 i)). rewrite Hs by done. exact Pv.
  - intros l Hl. change (s' l = s0 l). rewrite Hframe by done. by apply (inv_frame _ _ Hinv).
  - intros k a b ma Ha Hb E. assert (a <> x).
    { intros ->. apply Hfresh. by eapply list_elem_of_lookup_2. }
    destruct (Hsame a ma) as (mi & Ei & _ & _ & _ & _ & Hchain); [done|done|]. rewrite (Hchain k b) by done.
    by apply (inv_chain _ _ Hinv (S k) a b mi).
Qed.

Lemma eliminate_length : length (<[x := eliminated]> (moves_ r)) = n.
Proof. rewrite length_insert. apply (inv_length _ _ Hinv). Qed.
Lemma eliminate_lookup : <[x := eliminated]> (moves_ r) !! x = Some eliminated.
Proof. apply list_lookup_insert_eq. rewrite (inv_length _ _ Hinv). apply x_bound. Qed.

(** An untouched move, read in the new state. *)
Lemma untouched ops' (s' := exec ops' s0) i mi' :
  (forall mi, moves_ r !! i = Some mi -> src_ mi <> NoLocation -> s' (src_ mi) = s (src_ mi)) ->
  i <> x -> <[x := eliminated]> (moves_ r) !! i = Some mi' ->
  exists mi, moves_ r !! i = Some mi /\ dest_ mi' = dest_ mi /\ (src_ mi' = NoLocation <-> src_ mi = NoLocation) /\
    (src_ mi <> NoLocation -> s' (src_ mi') = s (src_ mi)) /\
    (i ∉ ps -> src_ mi <> NoLocation -> src_ mi' <> D i) /\
    (forall k b, ps !! k = Some i -> ps !! S k = Some b -> src_ mi' = src_ mi).
Proof.
  intros Hs Hne E. rewrite list_lookup_insert_ne in E by done. exists mi'. split_and!; [done|done|done|by apply Hs| |done].
  intros Hi Hv. destruct (inv_other _ _ Hinv i mi') as [[-> _]|(_ & _ & Hn & _)]; [|done|done|done].
  intros Hin. apply elem_of_cons in Hin as [|]; done.
Qed.

(** The source has become the destination: nothing is left to do. *)
Lemma redundant_inv : src_ m = D x -> inv (mkResolver (<[x := eliminated]> (moves_ r)) (scheduled_ops_ r)) ps.
Proof.
  intros Hsrc. destruct x_pending as (_ & _ & Hv). apply finish_inv.
  - exact eliminate_length.
  - intros i mi' Hne E. by apply untouched.
  - exact eliminate_lookup.
  - rewrite <- Hsrc. exact Hv.
  - done.
  - done.
Qed.

(** No move reads the destination: it is overwritten. *)
Lemma moved_inv : src_ m <> D x ->
  (forall i mi, i <> x -> moves_ r !! i = Some mi -> src_ mi <> NoLocation -> src_ mi <> D x) ->
  inv (mkResolver (<[x := eliminated]> (moves_ r)) (scheduled_ops_ r ++ [mkOp kMove (mkMove (D x) (src_ m))])) ps.
Proof.
  intros Hsrc Hfree. destruct x_pending as (_ & _ & Hv). pose proof x_bound as Hx.
  assert (Hexec : forall l, exec (scheduled_ops_ r ++ [mkOp kMove (mkMove (D x) (src_ m))]) s0 l
    = assign (D x) (s (src_ m)) s l) by (intros l; by rewrite exec_snoc).
  apply finish_inv.
  - exact eliminate_length.
  - intros i mi' Hne E. apply untouched; [|done|done]. intros mi Emi Hl. rewrite Hexec. apply assign_ne.
    by apply (Hfree i mi).
  - exact eliminate_lookup.
  - rewrite Hexec, assign_eq. exact Hv.
  - intros i Hi Hne _. rewrite Hexec. apply assign_ne. intros E. by apply Hne, D_inj.
  - intros l Hl. rewrite Hexec. apply assign_ne. intros ->. by apply (Hl x).
Qed.

(** A pending move reads the destination: the values are exchanged, and the sources of
    the others follow. *)
Lemma swapped_inv p ps' : ps = p :: ps' -> src_ m <> D x ->
  (forall i mi, i ∉ x :: ps -> moves_ r !! i = Some mi -> src_ mi <> NoLocation -> src_ mi <> D x) ->
  inv (mkResolver (map (swap_src (src_ m) (D x)) (<[x := eliminated]> (moves_ r)))
         (scheduled_ops_ r ++ [mkOp kSwap (mkMove (D x) (src_ m))])) ps.
Proof.
  intros Hps Hsrc Hfree. destruct x_pending as (_ & Hvalid & Hv). pose proof x_bound as Hx. pose proof x_fresh as Hfresh.
  assert (HS : src_ m = D p).
  { apply (inv_chain _ _ Hinv 0 x p m); [done|by rewrite Hps|done]. }
  assert (Hpb : (p < n)%nat).
  { pose proof (inv_bound _ _ Hinv) as H. rewrite Hps in H. apply Forall_cons in H as [_ H]. by apply Forall_cons in H as [? _]. }
  assert (Hexec : forall l, exec (scheduled_ops_ r ++ [mkOp kSwap (mkMove (D x) (src_ m))]) s0 l
    = assign (D x) (s (src_ m)) (assign (src_ m) (s (D x)) s) l) by (intros l; by rewrite exec_snoc).
  assert (Hother : forall l, l <> D x -> l <> src_ m -> exec (scheduled_ops_ r ++ [mkOp kSwap (mkMove (D x) (src_ m))]) s0 l = s l).
  { intros l H1 H2. rewrite Hexec, !assign_ne by done. done. }
  apply finish_inv.
  - rewrite length_map. exact eliminate_length.
  - intros i mi' Hne E. rewrite list_lookup_fmap in E. rewrite list_lookup_insert_ne in E by done.
    destruct (moves_ r !! i) as [mi|] eqn:Ei; [|done]. simpl in E. injection E as <-. exists mi. split; [done|].
    assert (Hib : (i < n)%nat) by by eapply index_bound.
    unfold swap_src. destruct (Blocks mi (src_ m)) eqn:B1; [|destruct (Blocks mi (D x)) eqn:B2].
    + apply blocks_spec in B1 as [Hl1 Es1]. cbn [set_src dest_ src_].
      split_and!; [done|by split; [intros E; destruct (D_valid x Hx)|]| | |].
      * intros _. rewrite Hexec, assign_eq. congruence.
      * intros _ _ E. by apply Hne, D_inj.
      * intros k b Ha Hb. exfalso.
        assert (Ec : src_ mi = D b) by by apply (inv_chain _ _ Hinv (S k) i b mi).
        assert (Hbp : b = p).
        { apply D_inj; [|done|congruence]. pose proof (inv_bound _ _ Hinv) as H. apply Forall_cons in H as [_ H].
          by apply (Forall_lookup_1 _ _ _ _ H Hb). }
        pose proof (inv_nodup _ _ Hinv) as H. apply NoDup_cons in H as [_ H]. subst b.
        assert (S k = 0%nat); [|done]. apply (NoDup_lookup ps _ _ p H Hb). by rewrite Hps.
    + apply blocks_spec in B2 as [Hl2 Es2]. cbn [set_src dest_ src_]. split_and!; [done|by split| | |].
      * intros _. rewrite Hexec, assign_ne, assign_eq by done. congruence.
      * intros Hi _. exfalso. apply (Hfree i mi); [|done|done|done]. intros Hin. apply elem_of_cons in Hin as [|]; done.
      * intros k b Ha Hb. exfalso.
        assert (Ec : src_ mi = D b) by by apply (inv_chain _ _ Hinv (S k) i b mi).
        assert (Hbx : b = x).
        { apply D_inj; [|done|congruence]. pose proof (inv_bound _ _ Hinv) as H. apply Forall_cons in H as [_ H].
          by apply (Forall_lookup_1 _ _ _ _ H Hb). }
        subst b. apply Hfresh. by eapply list_elem_of_lookup_2.
    + split_and!; [done|done| | |done].
      * intros Hl. apply Hother; intros E; [assert (B : Blocks mi (D x) = true)|assert (B : Blocks mi (src_ m) = true)];
          try (by apply blocks_spec); congruence.
      * intros Hi Hl. destruct (inv_other _ _ Hinv i mi) as [[-> _]|(_ & _ & Hn & _)]; [|done|done|done].
        intros Hin. apply elem_of_cons in Hin as [|]; done.
  - rewrite list_lookup_fmap, eliminate_lookup. simpl. f_equal.
  - rewrite Hexec, assign_eq. exact Hv.
  - intros i Hi Hne Hdead. apply Hother.
    + intros E. by apply Hne, D_inj.
    + rewrite HS. intros E. assert (i = p) as -> by by apply D_inj.
      destruct (lookup_lt_is_Some_2 (moves_ r) p) as [mp Ep]; [by rewrite (inv_length _ _ Hinv)|].
      destruct (Hdead mp Ep) as [Hnot _]. apply Hnot. rewrite Hps. by left.
  - intros l Hl. apply Hother; [intros ->; by apply (Hl x)|rewrite HS; intros ->; by apply (Hl p)].
Qed.

Lemma eliminate_evolves : evolves ps (moves_ r) (<[x := eliminated]> (moves_ r)).
Proof.
  split.
  - intros i (mi & E & Hl). apply lookup_eliminated in E as [[-> ->]|[_ E]]; [done|by exists mi].
  - intros i mi mi' _ E E' Hl. apply lookup_eliminated in E' as [[-> ->]|[_ E']]; [done|]. left. congruence.
Qed.

Lemma swap_evolves p ps' : ps = p :: ps' -> 
  (forall i mi, i ∉ x :: ps -> moves_ r !! i = Some mi -> src_ mi <> NoLocation -> src_ mi <> D x) ->
  evolves ps (moves_ r) (map (swap_src (src_ m) (D x)) (<[x := eliminated]> (moves_ r))).
Proof.
  intros Hps Hfree. pose proof x_bound as Hx.
  assert (HS : src_ m = D p) by (apply (inv_chain _ _ Hinv 0 x p m); [done|by rewrite Hps|done]).
  assert (Hpb : (p < n)%nat).
  { pose proof (inv_bound _ _ Hinv) as H. rewrite Hps in H. apply Forall_cons in H as [_ H]. by apply Forall_cons in H as [? _]. }
  assert (Hlive : forall q, live (map (swap_src (src_ m) (D x)) (<[x := eliminated]> (moves_ r))) q -> live (moves_ r) q /\ q <> x).
  { intros q (mq & E & Hl). rewrite list_lookup_fmap in E. destruct (<[x := eliminated]> (moves_ r) !! q) as [mq'|] eqn:Eq; [|done].
    simpl in E. injection E as <-. apply lookup_eliminated in Eq as [[-> ->]|[Hne Eq]]; [done|]. split; [|done].
    exists mq'. split; [done|]. intros E0. apply Hl. unfold swap_src, Blocks, IsEliminated. rewrite E0. done. }
  split; [by intros q Hq; apply Hlive|]. intros i mi mi' Hi E E' Hl.
  rewrite list_lookup_fmap in E'. destruct (<[x := eliminated]> (moves_ r) !! i) as [mj|] eqn:Ej; [|done].
  simpl in E'. injection E' as <-. apply lookup_eliminated in Ej as [[-> ->]|[Hne Ej]]; [done|].
  rewrite E in Ej. injection Ej as <-. unfold swap_src in *. destruct (Blocks mi (src_ m)) eqn:B1; [|destruct (Blocks mi (D x)) eqn:B2].
  - apply blocks_spec in B1 as [_ E1]. right. cbn [set_src src_]. split; [rewrite E1, HS; by apply D_variable|].
    intros q Hq. destruct (Hlive q Hq) as [(mq & Eq & _) Hqx]. intros ED. apply Hqx, D_inj; [by eapply index_bound|done|done].
  - apply blocks_spec in B2 as [Hl2 E2]. exfalso. apply (Hfree i mi); [|done|done|done].
    intros Hin. apply elem_of_cons in Hin as [|]; done.
  - by left.
Qed.

(** The code after the loop. *)
Definition finish (r : Resolver) : move_result Resolver :=
  move ← move_at x r;
  _ ← ASSERT (IsPending move);
  let move := ClearPending (D x) move in
  let r := set_move x move r in
  if Equals (src_ move) (D x) then Ok (set_move x (Eliminate move) r)
  else
    match find_blocking (D x) (moves_ r) with
    | Some other_move => _ ← ASSERT (IsPending other_move); AddSwapToSchedule x r
    | None => AddMoveToSchedule x r
    end.

Lemma finish_ok :
  (forall i mi, i ∉ x :: ps -> moves_ r !! i = Some mi -> src_ mi <> NoLocation -> src_ mi <> D x) ->
  exists r', finish r = Ok r' /\ inv r' ps /\ evolves ps (moves_ r) (moves_ r') /\ moves_ r' !! x = Some eliminated.
Proof.
  intros Hfree. destruct x_pending as (Hd & Hl & Hv). pose proof x_bound as Hx.
  assert (Hlen : (x < length (moves_ r))%nat) by by rewrite (inv_length _ _ Hinv).
  unfold finish, move_at. rewrite Hm. cbn [mbind result_bind].
  assert (Hp : IsPending m = true).
  { unfold IsPending. rewrite Hd. change (IsInvalid NoLocation) with true. apply invalid_spec in Hl. by rewrite Hl. }
  rewrite Hp. cbn [ASSERT mbind result_bind]. cbv zeta.
  change (src_ (ClearPending (D x) m)) with (src_ m). unfold Equals. destruct (Z.eqb_spec (src_ m) (D x)) as [He|He].
  { eexists. split; [reflexivity|]. unfold set_move. cbn [moves_ scheduled_ops_]. rewrite list_insert_insert_eq.
    split_and!; [by apply redundant_inv|apply eliminate_evolves|apply eliminate_lookup]. }
  unfold set_move. cbn [moves_ scheduled_ops_]. set (mx := ClearPending (D x) m).
  assert (Emx : mx = mkMove (D x) (src_ m)) by reflexivity.
  destruct (find_blocking (D x) (<[x := mx]> (moves_ r))) as [mo|] eqn:Ef.
  - apply find_some in Ef as [Hin Hbl]. apply blocks_spec in Hbl as [Hol Hos].
    apply list_elem_of_In, list_elem_of_lookup in Hin as [o Eo].
    assert (Hox : o <> x).
    { intros ->. rewrite list_lookup_insert_eq in Eo by done. injection Eo as <-. done. }
    rewrite list_lookup_insert_ne in Eo by done.
    assert (Hops : o ∈ ps).
    { destruct (decide (o ∈ x :: ps)) as [H|H]; [by apply elem_of_cons in H as [|]|]. exfalso. by apply (Hfree o mo). }
    destruct (inv_pending _ _ Hinv o mo) as (Pd & _ & _); [by right|done|].
    assert (Hmo : IsPending mo = true).
    { unfold IsPending. rewrite Pd. change (IsInvalid NoLocation) with true. apply invalid_spec in Hol. by rewrite Hol. }
    rewrite Hmo. cbn [ASSERT mbind result_bind]. unfold AddSwapToSchedule, move_at, set_move, add_op.
    cbn [moves_ scheduled_ops_]. rewrite list_lookup_insert_eq by done. cbn [mbind result_bind]. eexists. split; [reflexivity|].
    cbn [moves_ scheduled_ops_]. rewrite list_insert_insert_eq, Emx. cbn [src_ dest_]. change (Eliminate _) with eliminated.
    assert (exists p ps', ps = p :: ps') as (p & ps' & Hps).
    { clear -Hops. destruct ps as [|p ps']; [by apply elem_of_nil in Hops|by eauto]. }
    split_and!; [by apply (swapped_inv p ps')|by apply (swap_evolves p ps')|]. rewrite list_lookup_fmap, eliminate_lookup. simpl. f_equal.
  - unfold AddMoveToSchedule, move_at, set_move, add_op. cbn [moves_ scheduled_ops_]. rewrite list_lookup_insert_eq by done.
    cbn [mbind result_bind]. eexists. split; [reflexivity|]. cbn [moves_ scheduled_ops_]. rewrite list_insert_insert_eq, Emx.
    change (Eliminate _) with eliminated. split_and!; [|apply eliminate_evolves|apply eliminate_lookup].
    apply moved_inv; [done|]. intros i mi Hne Ei Hil Hid. unfold find_blocking in Ef.
    assert (Hb : Blocks mi (D x) = false).
    { apply (find_none _ _ Ef mi), list_elem_of_In, list_elem_of_lookup. exists i. by rewrite list_lookup_insert_ne. }
    assert (Blocks mi (D x) = true) by by apply blocks_spec. congruence.
Qed.
End Finish.

(** ** The recursion *)

Lemma pending_live r ps i : inv r ps -> i ∈ ps -> live (moves_ r) i.
Proof.
  intros Hinv Hi. assert (Hb : (i < n)%nat).
  { pose proof (inv_bound _ _ Hinv) as H. rewrite Forall_forall in H. by apply H. }
  destruct (lookup_lt_is_Some_2 (moves_ r) i) as [m E]; [by rewrite (inv_length _ _ Hinv)|].
  exists m. split; [done|]. by apply (inv_pending _ _ Hinv i m Hi E).
Qed.

(** A live move that is not marked is waiting, and one that is marked is pending. *)
Lemma waiting_move r ps i m : inv r ps -> i ∉ ps -> moves_ r !! i = Some m -> src_ m <> NoLocation ->
  waiting_ok (exec (scheduled_ops_ r) s0) i m /\ IsPending m = false /\ IsRedundant m = false.
Proof.
  intros Hinv Hi E Hl. destruct (inv_other _ _ Hinv i m Hi E) as [[-> _]|Hw]; [done|]. split; [done|].
  destruct Hw as (Hd & _ & Hn & _). assert (Hb : (i < n)%nat).
  { apply lookup_lt_Some in E. by rewrite (inv_length _ _ Hinv) in E. }
  pose proof (D_valid i Hb) as Hv. apply invalid_spec in Hv, Hl.
  unfold IsPending, IsRedundant, IsEliminated, Equals. rewrite Hd, Hv, Hl. split; [done|]. by apply Z.eqb_neq.
Qed.
Lemma marked_move r ps i m : inv r ps -> moves_ r !! i = Some m -> src_ m <> NoLocation -> IsPending m = false -> i ∉ ps.
Proof.
  intros Hinv E Hl Hp Hi. destruct (inv_pending _ _ Hinv i m Hi E) as (Hd & _). apply invalid_spec in Hl.
  unfold IsPending in Hp. rewrite Hd, Hl in Hp. done.
Qed.

Lemma mark_inv r ps x m : inv r ps -> x ∉ ps -> moves_ r !! x = Some m -> src_ m <> NoLocation ->
  (forall p ps', ps = p :: ps' -> src_ m = D p) -> inv (set_move x (mkMove NoLocation (src_ m)) r) (x :: ps).
Proof.
  intros Hinv Hx E Hl Hchain. destruct (waiting_move r ps x m Hinv Hx E Hl) as [(Hd & _ & _ & Hv) _].
  assert (Hb : (x < length (moves_ r))%nat) by by apply lookup_lt_Some in E.
  unfold set_move. split; cbn [moves_ scheduled_ops_].
  - rewrite length_insert. apply (inv_length _ _ Hinv).
  - constructor; [done|apply (inv_nodup _ _ Hinv)].
  - constructor; [by rewrite (inv_length _ _ Hinv) in Hb|apply (inv_bound _ _ Hinv)].
  - intros i mi Hi Ei. destruct (decide (i = x)) as [->|Hne].
    + rewrite list_lookup_insert_eq in Ei by done. injection Ei as <-. done.
    + rewrite list_lookup_insert_ne in Ei by done. apply elem_of_cons in Hi as [|Hi]; [done|].
      by apply (inv_pending _ _ Hinv).
  - intros i mi Hi Ei. assert (i <> x) by (intros ->; apply Hi; by left).
    rewrite list_lookup_insert_ne in Ei by done. apply (inv_other _ _ Hinv); [|done]. intros ?. apply Hi. by right.
  - apply (inv_frame _ _ Hinv).
  - intros [|k] a b ma Ha Hb' Ea.
    + simpl in Ha. injection Ha as <-. rewrite list_lookup_insert_eq in Ea by done. injection Ea as <-. cbn [src_].
      destruct ps as [|p ps']; [done|]. simpl in Hb'. injection Hb' as <-. by apply (Hchain p ps').
    + simpl in Ha, Hb'. assert (a <> x) by (intros ->; apply Hx; by eapply list_elem_of_lookup_2).
      rewrite list_lookup_insert_ne in Ea by done. by apply (inv_chain _ _ Hinv k a b ma).
Qed.
Lemma mark_evolves r x m ps : moves_ r !! x = Some m -> src_ m <> NoLocation ->
  evolves ps (moves_ r) (moves_ (set_move x (mkMove NoLocation (src_ m)) r)).
Proof.
  intros E Hl. assert (Hb : (x < length (moves_ r))%nat) by by apply lookup_lt_Some in E. unfold set_move. cbn [moves_]. split.
  - intros i (mi & Ei & Hli). destruct (decide (i = x)) as [->|Hne]; [by exists m|].
    rewrite list_lookup_insert_ne in Ei by done. by exists mi.
  - intros i mi mi' _ Ei Ei' _. left. destruct (decide (i = x)) as [->|Hne].
    + rewrite list_lookup_insert_eq in Ei' by done. injection Ei' as <-. cbn. congruence.
    + rewrite list_lookup_insert_ne in Ei' by done. congruence.
Qed.

(** No move that waits reads the destination, but those still to be looked at. *)
Definition none_blocks (x : nat) (ps indices : list nat) (moves : list MoveOperands) : Prop :=
  forall i m, i ∉ x :: ps -> i ∉ indices -> moves !! i = Some m -> src_ m <> NoLocation -> src_ m <> D x.

Section Loop.
Context (perform : nat -> Resolver -> move_result Resolver) (x : nat) (ps : list nat).
Hypothesis perform_ok : forall i r, inv r (x :: ps) -> i ∉ x :: ps -> live (moves_ r) i ->
  (forall m, moves_ r !! i = Some m -> src_ m = D x) ->
  exists r', perform i r = Ok r' /\ inv r' (x :: ps) /\ evolves (x :: ps) (moves_ r) (moves_ r') /\
    moves_ r' !! i = Some eliminated.

Lemma perform_blocking_ok indices r : Forall (fun i => (i < n)%nat) indices -> inv r (x :: ps) ->
  none_blocks x ps indices (moves_ r) ->
  exists r', perform_blocking perform (D x) indices r = Ok r' /\ inv r' (x :: ps) /\
    evolves (x :: ps) (moves_ r) (moves_ r') /\ none_blocks x ps [] (moves_ r').
Proof.
  intros Hb. revert r. induction Hb as [|i indices Hi _ IH]; intros r Hinv Hnone; cbn [perform_blocking].
  { exists r. split_and!; [done|done|apply evolves_refl|done]. }
  destruct (lookup_lt_is_Some_2 (moves_ r) i) as [m E]; [by rewrite (inv_length _ _ Hinv)|].
  unfold move_at. rewrite E. cbn [mbind result_bind]. destruct (Blocks m (D x) && negb (IsPending m)) eqn:Hbl.
  - apply andb_true_iff in Hbl as [Hbl Hp]. apply blocks_spec in Hbl as [Hl Hs]. apply negb_true_iff in Hp.
    destruct (perform_ok i r) as (r1 & -> & Hinv1 & Hev & He); [done|by eapply marked_move|by exists m| |].
    { intros m' E'. congruence. }
    cbn [mbind result_bind]. destruct (IH r1 Hinv1) as (r2 & -> & Hinv2 & Hev2 & Hn2).
    + intros j mj Hj Hji Ej Hlj. destruct (decide (j = i)) as [->|Hne]; [rewrite He in Ej; by injection Ej as <-|].
      destruct (ev_live _ _ _ Hev j) as (mj0 & Ej0 & Hlj0); [by exists mj|].
      destruct (ev_source _ _ _ Hev j mj0 mj Hj Ej0 Ej Hlj) as [->|[_ Hq]].
      * apply (Hnone j mj0); [done| |done|done]. intros Hin. apply elem_of_cons in Hin as [|]; done.
      * intros Ed. apply (Hq x); [|done]. apply (pending_live r1 (x :: ps)); [done|by left].
    + exists r2. split_and!; [done|done| |done].
      apply (evolves_trans _ _ (moves_ r1)); [apply (inv_length _ _ Hinv1)|apply (inv_length _ _ Hinv2)|done|done].
  - cbn [mbind result_bind]. apply IH; [done|]. intros j mj Hj Hji Ej Hlj. destruct (decide (j = i)) as [->|Hne].
    + rewrite E in Ej. injection Ej as <-. intros Hs. destruct (waiting_move r (x :: ps) i m Hinv Hj E Hlj) as (_ & Hp & _).
      assert (Blocks m (D x) = true) by by apply blocks_spec. rewrite H, Hp in Hbl. done.
    + apply (Hnone j mj); [done| |done|done]. intros Hin. apply elem_of_cons in Hin as [|]; done.
Qed.
End Loop.

Lemma stack_bound (ps : list nat) x : NoDup (x :: ps) -> Forall (fun i => (i < n)%nat) (x :: ps) -> (length ps < n)%nat.
Proof.
  intros Hd Hb. assert (H : (length (x :: ps) <= length (seq 0 n))%nat).
  { apply NoDup_incl_length; [by apply NoDup_ListNoDup|]. intros i Hi. apply in_seq.
    rewrite Forall_forall in Hb. apply list_elem_of_In in Hi. specialize (Hb i Hi). lia. }
  rewrite length_seq in H. simpl in H. lia.
Qed.

Lemma PerformMove_ok fuel : forall index ps r, inv r ps -> index ∉ ps -> live (moves_ r) index ->
  (forall p ps' m, ps = p :: ps' -> moves_ r !! index = Some m -> src_ m = D p) -> (n <= length ps + fuel)%nat ->
  exists r', PerformMove fuel index r = Ok r' /\ inv r' ps /\ evolves ps (moves_ r) (moves_ r') /\
    moves_ r' !! index = Some eliminated.
Proof.
  induction fuel as [|fuel IH]; intros x ps r Hinv Hx (m & E & Hl) Hchain Hfuel.
  { assert (Hb : (x < n)%nat) by (apply lookup_lt_Some in E; by rewrite (inv_length _ _ Hinv) in E).
    pose proof (stack_bound ps x) as H. exfalso. revert H.
    intros H. enough (length ps < n)%nat by lia. apply H; constructor; try done; apply Hinv. }
  destruct (waiting_move r ps x m Hinv Hx E Hl) as ((Hd & _ & Hn & Hv) & Hp & Hr).
  assert (Em : move_at x r = Ok m) by (unfold move_at; by rewrite E).
  cbn [PerformMove]. rewrite Em. cbn [mbind result_bind]. rewrite Hp, Hr. cbn [negb ASSERT mbind result_bind].
  pose proof Hl as Hl'. apply invalid_spec in Hl'. rewrite Hl'. cbn [negb ASSERT mbind result_bind].
  unfold MarkPending. rewrite Hd. cbv iota.
  set (r1 := set_move x (mkMove NoLocation (src_ m)) r).
  assert (Hinv1 : inv r1 (x :: ps)) by (apply mark_inv; [done|done|done|done|by intros p ps' ->; apply (Hchain p ps' m)]).
  pose proof (mark_evolves r x m ps E Hl) as Hev1. fold r1 in Hev1.
  destruct (perform_blocking_ok (PerformMove fuel) x ps) with (indices := seq 0 (length (moves_ r1))) (r := r1)
    as (r2 & -> & Hinv2 & Hev2 & Hnone).
  - intros i r' Hi' Hin Hli Hs. apply IH; [done|done|done| |simpl; lia]. intros p ps' m' [= <- <-] Em'. by apply Hs.
  - apply Forall_forall. intros i Hi. apply list_elem_of_In, in_seq in Hi. rewrite (inv_length _ _ Hinv1) in Hi. lia.
  - done.
  - intros i mi _ Hi Ei _. exfalso. apply Hi, list_elem_of_In, in_seq. apply lookup_lt_Some in Ei. lia.
  - cbn [mbind result_bind]. destruct (pending_live r2 (x :: ps) x Hinv2) as (m2 & Em2 & Hl2); [by left|].
    destruct (finish_ok r2 x ps m2 Hinv2 Em2) as (r3 & Hf & Hinv3 & Hev3 & He).
    { intros i mi Hi Ei Hli. apply (Hnone i mi); [done|by apply not_elem_of_nil|done|done]. }
    exists r3. split; [exact Hf|]. split_and!; [done| |done]. split.
    + intros i Hi. by apply (ev_live _ _ _ Hev1), (ev_live _ _ _ Hev2), (ev_live _ _ _ Hev3).
    + intros i mi mi' Hi Ei Ei' Hli. assert (Hix : i <> x) by (intros ->; rewrite He in Ei'; by injection Ei' as <-).
      assert (Hi2 : i ∉ x :: ps) by (intros Hin; apply elem_of_cons in Hin as [|]; done).
      destruct (ev_live _ _ _ Hev3 i) as (mi2 & Ei2 & Hli2); [by exists mi'|].
      assert (Ei1 : moves_ r1 !! i = Some mi) by (unfold r1, set_move; cbn [moves_]; by rewrite list_lookup_insert_ne).
      destruct (ev_source _ _ _ Hev2 i mi mi2 Hi2 Ei1 Ei2 Hli2) as [Es|[Hc Hq]],
        (ev_source _ _ _ Hev3 i mi2 mi' Hi Ei2 Ei' Hli) as [Es'|[Hc' Hq']]; try rewrite Es in *.
      * left. congruence.
      * by right.
      * right. split; [done|]. rewrite Es'. intros q Hlq. by apply Hq, (ev_live _ _ _ Hev3).
      * by right.
Qed.

(** ** All moves *)

Definition constants_left (indices : list nat) (moves : list MoveOperands) : Prop :=
  forall i m, i ∉ indices -> moves !! i = Some m -> src_ m <> NoLocation -> IsConstant (src_ m) = true.

Lemma perform_all_ok indices r : Forall (fun i => (i < n)%nat) indices -> inv r [] -> constants_left indices (moves_ r) ->
  exists r', perform_all indices r = Ok r' /\ inv r' [] /\ constants_left [] (moves_ r').
Proof.
  intros Hb. revert r. induction Hb as [|i indices Hi _ IH]; intros r Hinv Hleft; cbn [perform_all].
  { by exists r. }
  destruct (lookup_lt_is_Some_2 (moves_ r) i) as [m E]; [by rewrite (inv_length _ _ Hinv)|].
  assert (Em : move_at i r = Ok m) by (unfold move_at; by rewrite E). rewrite Em. cbn [mbind result_bind].
  destruct (negb (IsEliminated m) && negb (IsConstant (src_ m))) eqn:Ht.
  - apply andb_true_iff in Ht as [Hl _]. apply negb_true_iff in Hl. apply invalid_spec in Hl.
    destruct (PerformMove_ok (length (moves_ r)) i [] r Hinv) as (r1 & -> & Hinv1 & Hev & He);
      [by apply not_elem_of_nil|by exists m|done|simpl; by rewrite (inv_length _ _ Hinv)|].
    cbn [mbind result_bind]. apply IH; [done|]. intros j mj Hj Ej Hlj.
    destruct (decide (j = i)) as [->|Hne]; [rewrite He in Ej; by injection Ej as <-|].
    destruct (ev_live _ _ _ Hev j) as (mj0 & Ej0 & Hlj0); [by exists mj|].
    assert (Hc : IsConstant (src_ mj0) = true).
    { apply (Hleft j mj0); [|done|done]. intros Hin. apply elem_of_cons in Hin as [|]; done. }
    destruct (ev_source _ _ _ Hev j mj0 mj (not_elem_of_nil j) Ej0 Ej Hlj) as [->|[Hc' _]]; congruence.
  - cbn [mbind result_bind]. apply IH; [done|]. intros j mj Hj Ej Hlj. destruct (decide (j = i)) as [->|Hne].
    + rewrite E in Ej. injection Ej as <-. unfold IsEliminated in Ht. apply invalid_spec in Hlj. rewrite Hlj in Ht. simpl in Ht.
      by apply negb_false_iff in Ht.
    + apply (Hleft j mj); [|done|done]. intros Hin. apply elem_of_cons in Hin as [|]; done.
Qed.
End Resolver.

(** The constants are moved last, in any order. *)
Definition left_moves (moves : list MoveOperands) : list MoveOperands := List.filter (fun m => negb (IsEliminated m)) moves.

Lemma add_constants_ok moves ops :
  (forall m, In m moves -> src_ m <> NoLocation -> IsConstant (src_ m) = true) ->
  add_constants moves ops = Ok (ops ++ map (mkOp kMove) (left_moves moves)).
Proof.
  revert ops. induction moves as [|m moves IH]; intros ops Hc; simpl; [by rewrite app_nil_r|].
  destruct (negb (IsEliminated m)) eqn:El; simpl.
  - assert (Hl : src_ m <> NoLocation) by (apply negb_true_iff in El; by apply invalid_spec in El).
    rewrite (Hc m) by (done || by left). cbn [ASSERT mbind result_bind].
    rewrite IH, <- app_assoc; [done|]. intros m' Hin. apply Hc. by right.
  - apply IH. intros m' Hin. apply Hc. by right.
Qed.

Section Constants.
Context {V : Type}.
Lemma exec_app (ops ops' : list Op) (s : Location -> V) : exec (ops ++ ops') s = exec ops' (exec ops s).
Proof. unfold exec. by rewrite fold_left_app. Qed.

Lemma exec_constants (cs : list MoveOperands) (s : Location -> V) : NoDup (map dest_ cs) ->
  (forall m m', In m cs -> In m' cs -> src_ m <> dest_ m') ->
  (forall m, In m cs -> exec (map (mkOp kMove) cs) s (dest_ m) = s (src_ m)) /\
  (forall l, ~ In l (map dest_ cs) -> exec (map (mkOp kMove) cs) s l = s l).
Proof.
  revert s. induction cs as [|[d c] cs IH]; intros s Hd Hs; [done|]. cbn [map] in Hd. apply NoDup_cons in Hd as [Hnew Hd].
  change (exec (map (mkOp kMove) (mkMove d c :: cs)) s) with (exec (map (mkOp kMove) cs) (assign d (s c) s)).
  destruct (IH (assign d (s c) s) Hd) as [IH1 IH2]; [by intros; apply Hs; right|]. split.
  - intros m [<-|Hm].
    + simpl. rewrite IH2, assign_eq; [done|]. intros Hin. apply Hnew. by apply list_elem_of_In.
    + rewrite IH1 by done. apply assign_ne. apply (Hs m (mkMove d c)); [by right|by left].
  - intros l Hl. rewrite IH2; [|intros ?; apply Hl; by right]. apply assign_ne. intros ->. apply Hl. by left.
Qed.
End Constants.

Lemma left_nodup moves :
  (forall i j mi mj, moves !! i = Some mi -> moves !! j = Some mj -> src_ mi <> NoLocation -> src_ mj <> NoLocation ->
     dest_ mi = dest_ mj -> i = j) -> NoDup (map dest_ (left_moves moves)).
Proof.
  induction moves as [|m moves IH]; intros Hinj; [constructor|]. unfold left_moves. simpl.
  assert (IH' : NoDup (map dest_ (left_moves moves))).
  { apply IH. intros i j mi mj Ei Ej Hi Hj Hd. apply Nat.succ_inj. by apply (Hinj (S i) (S j) mi mj). }
  destruct (negb (IsEliminated m)) eqn:El; [|exact IH']. cbn [map]. constructor; [|exact IH'].
  intros Hin. apply list_elem_of_In, in_map_iff in Hin as (m' & Hd & Hin). apply filter_In in Hin as [Hin Hl].
  apply list_elem_of_In, list_elem_of_lookup in Hin as [j Ej].
  enough (O = S j) by done. apply (Hinj O (S j) m m'); [done|done| | |done].
  - apply negb_true_iff in El. by apply invalid_spec in El.
  - apply negb_true_iff in Hl. by apply invalid_spec in Hl.
Qed.

Lemma exec_From {V} ops (s : Location -> V) : exec (From ops) s = exec ops s.
Proof.
  revert s. induction ops as [|[k o] ops IH]; intros s; [done|]. unfold From. simpl. destruct k; simpl; [|apply IH..].
  rewrite IH. unfold exec_op. simpl. by destruct o.
Qed.

(** ** Parallel moves *)

(** The moves that do something have different destinations, none of them a constant. *)
Definition moves_ok (ms : list MoveOperands) : Prop :=
  NoDup (map dest_ (BuildInitialMoveList ms)) /\
  Forall (fun m => IsConstant (dest_ m) = false) (BuildInitialMoveList ms).

Section Resolve.
Context (ms : list MoveOperands) (Hms : moves_ok ms).
Let initial : list MoveOperands := BuildInitialMoveList ms.
Let no_move : MoveOperands := mkMove NoLocation NoLocation.
Let D (i : nat) : Location := dest_ (nth i initial no_move).
Let S0 (i : nat) : Location := src_ (nth i initial no_move).

Lemma initial_lookup i m : initial !! i = Some m -> nth i initial no_move = m /\ In m initial.
Proof.
  intros E. split; [by apply nth_lookup_Some|]. apply list_elem_of_In. by eapply list_elem_of_lookup_2.
Qed.
Lemma initial_nth i : (i < length initial)%nat -> initial !! i = Some (nth i initial no_move) /\ In (nth i initial no_move) initial.
Proof.
  intros Hi. split; [|by apply nth_In]. destruct (nth_lookup_or_length initial i no_move); [done|lia].
Qed.
Lemma initial_move m : In m initial <-> In m ms /\ IsRedundant m = false.
Proof. unfold initial, BuildInitialMoveList. by rewrite filter_In, negb_true_iff. Qed.
Lemma not_redundant m : IsRedundant m = false -> src_ m <> NoLocation /\ dest_ m <> NoLocation /\ src_ m <> dest_ m.
Proof.
  unfold IsRedundant, IsEliminated, Equals. intros H. apply orb_false_iff in H as [H H3]. apply orb_false_iff in H as [H1 H2].
  split_and!; [by apply invalid_spec|by apply invalid_spec|by apply Z.eqb_neq].
Qed.

Lemma D_valid_initial i : (i < length initial)%nat -> D i <> NoLocation.
Proof. intros Hi. destruct (initial_nth i Hi) as [_ Hin]. apply initial_move in Hin as [_ Hr]. by apply not_redundant in Hr as (_ & ? & _). Qed.
Lemma D_variable_initial i : (i < length initial)%nat -> IsConstant (D i) = false.
Proof.
  intros Hi. destruct (initial_nth i Hi) as [_ Hin]. destruct Hms as [_ Hc]. rewrite Forall_forall in Hc.
  apply Hc. by apply list_elem_of_In.
Qed.
Lemma D_inj_initial i j : (i < length initial)%nat -> (j < length initial)%nat -> D i = D j -> i = j.
Proof.
  intros Hi Hj E. destruct Hms as [Hd _]. fold initial in Hd. apply (NoDup_lookup (map dest_ initial) i j (D i) Hd).
  - rewrite list_lookup_fmap, (proj1 (initial_nth i Hi)). done.
  - rewrite list_lookup_fmap, (proj1 (initial_nth j Hj)), E. done.
Qed.

Section Effect.
Context {V : Type} (s0 : Location -> V).

Lemma initial_inv : inv s0 (length initial) D S0 (mkResolver initial []) [].
Proof.
  split; cbn [moves_ scheduled_ops_].
  - done.
  - constructor.
  - constructor.
  - intros i m Hi. by apply elem_of_nil in Hi.
  - intros i m _ E. right. destruct (initial_lookup i m E) as [En Hin]. apply initial_move in Hin as [_ Hr].
    apply not_redundant in Hr as (H1 & H2 & H3). unfold waiting_ok, D, S0. rewrite En. done.
  - done.
  - intros k a b m Ha. done.
Qed.

(** The schedule is found, it moves every value to its destination and leaves the other
    locations alone. *)
Lemma resolve_effect : exists schedule, Resolve ms = Ok schedule /\
  (forall i, (i < length initial)%nat -> exec schedule s0 (D i) = s0 (S0 i)) /\
  (forall l, (forall i, (i < length initial)%nat -> D i <> l) -> exec schedule s0 l = s0 l).
Proof.
  destruct (perform_all_ok s0 (length initial) D S0 D_valid_initial D_variable_initial D_inj_initial
    (seq 0 (length initial)) (mkResolver initial [])) as (r & Hp & Hinv & Hc).
  - apply Forall_forall. intros i Hi. apply list_elem_of_In, in_seq in Hi. lia.
  - exact initial_inv.
  - intros i m Hi E. exfalso. apply Hi, list_elem_of_In, in_seq. apply lookup_lt_Some in E. simpl in E. lia.
  - assert (Hcs : forall m, In m (moves_ r) -> src_ m <> NoLocation -> IsConstant (src_ m) = true).
    { intros m Hin Hl. apply list_elem_of_In, list_elem_of_lookup in Hin as [i E]. by apply (Hc i m (not_elem_of_nil i)). }
    assert (Hw : forall i m, moves_ r !! i = Some m -> src_ m <> NoLocation ->
      (i < length initial)%nat /\ dest_ m = D i /\ exec (scheduled_ops_ r) s0 (src_ m) = s0 (S0 i)).
    { intros i m E Hl. pose proof (lookup_lt_Some _ _ _ E) as Hb. rewrite (inv_length _ _ _ _ _ _ Hinv) in Hb.
      destruct (inv_other _ _ _ _ _ _ Hinv i m (not_elem_of_nil i) E) as [[-> _]|(Hd & _ & _ & Hv)]; done. }
    assert (Hleft : forall m, In m (left_moves (moves_ r)) <-> In m (moves_ r) /\ src_ m <> NoLocation).
    { intros m. unfold left_moves. by rewrite filter_In, negb_true_iff, <- invalid_spec. }
    destruct (exec_constants (left_moves (moves_ r)) (exec (scheduled_ops_ r) s0)) as [He1 He2].
    { apply left_nodup. intros i j mi mj Ei Ej Hi Hj Hd. destruct (Hw i mi Ei Hi) as (Hbi & Di & _), (Hw j mj Ej Hj) as (Hbj & Dj & _).
      apply D_inj_initial; [done|done|congruence]. }
    { intros m m' Hm Hm' E. apply Hleft in Hm as [Hm Hl], Hm' as [Hm' Hl']. pose proof (Hcs m Hm Hl) as Hcm.
      apply list_elem_of_In, list_elem_of_lookup in Hm' as [j Ej]. destruct (Hw j m' Ej Hl') as (Hbj & Dj & _).
      rewrite E, Dj, D_variable_initial in Hcm; done. }
    exists (From (scheduled_ops_ r ++ map (mkOp kMove) (left_moves (moves_ r)))). split_and!.
    + unfold Resolve. fold initial. cbn [moves_]. rewrite Hp. cbn [mbind result_bind]. rewrite add_constants_ok by done. done.
    + intros i Hi. rewrite exec_From, exec_app.
      destruct (lookup_lt_is_Some_2 (moves_ r) i) as [m E]; [by rewrite (inv_length _ _ _ _ _ _ Hinv)|].
      destruct (inv_other _ _ _ _ _ _ Hinv i m (not_elem_of_nil i) E) as [[-> Hv]|(Hd & Hl & _ & Hv)].
      * rewrite He2; [done|]. intros Hin. apply in_map_iff in Hin as (m' & Hd & Hin). apply Hleft in Hin as [Hin Hl].
        apply list_elem_of_In, list_elem_of_lookup in Hin as [j Ej]. destruct (Hw j m' Ej Hl) as (Hbj & Dj & _).
        assert (i = j) as <- by (apply D_inj_initial; [done|done|congruence]). rewrite E in Ej. by injection Ej as <-.
      * rewrite <- Hd, He1; [done|]. apply Hleft. split; [|done]. apply list_elem_of_In. by eapply list_elem_of_lookup_2.
    + intros l Hl. rewrite exec_From, exec_app, He2; [by apply (inv_frame _ _ _ _ _ _ Hinv)|].
      intros Hin. apply in_map_iff in Hin as (m & <- & Hin). apply Hleft in Hin as [Hin Hlm].
      apply list_elem_of_In, list_elem_of_lookup in Hin as [j Ej]. destruct (Hw j m Ej Hlm) as (Hbj & Dj & _). by apply (Hl j).
Qed.
End Effect.
End Resolve.

(** ** Scratch locations *)

Section Scratch.
Context {V : Type} (loc : Location).

(** States that differ at the location only. *)
Definition agree (s s' : Location -> V) : Prop := forall l, l <> loc -> s l = s' l.

Lemma reads_false op : reads loc op = false ->
  src_ (operands op) <> loc /\ (op_kind op = kSwap -> dest_ (operands op) <> loc).
Proof.
  unfold reads, Equals. intros H. apply orb_false_iff in H as [H1 H2]. split; [by apply Z.eqb_neq|].
  intros Hk. rewrite bool_decide_eq_true_2 in H2 by done. by apply Z.eqb_neq.
Qed.

Lemma exec_op_agree op s s' : reads loc op = false -> agree s s' -> agree (exec_op op s) (exec_op op s').
Proof.
  intros Hr Ha. apply reads_false in Hr as [Hsrc Hdest]. destruct op as [k [d c]]. simpl in *. unfold exec_op. simpl.
  intros l Hl. destruct k; simpl; [by apply Ha|..]; unfold assign.
  - destruct (l =? d); [by apply Ha|by apply Ha].
  - specialize (Hdest eq_refl). destruct (l =? d); [by apply Ha|]. destruct (l =? c); by apply Ha.
Qed.

(** A move to the location makes them equal. *)
Lemma exec_op_equal op s s' : reads loc op = false -> writes loc op = true -> agree s s' ->
  forall l, exec_op op s l = exec_op op s' l.
Proof.
  intros Hr Hw Ha l. destruct (decide (l = loc)) as [->|Hne]; [|by apply exec_op_agree].
  apply reads_false in Hr as [Hsrc _]. unfold writes, Equals in Hw. apply andb_true_iff in Hw as [Hk Hd].
  apply bool_decide_eq_true_1 in Hk. apply Z.eqb_eq in Hd. destruct op as [k [d c]]. simpl in *. subst. unfold exec_op. simpl.
  rewrite !assign_eq. by apply Ha.
Qed.

Lemma exec_op_ext op (s s' : Location -> V) : (forall l, s l = s' l) -> forall l, exec_op op s l = exec_op op s' l.
Proof.
  intros E l. destruct op as [k [d c]]. unfold exec_op. simpl. destruct k; unfold assign; repeat case_match; by rewrite ?E.
Qed.
Lemma exec_ext ops (s s' : Location -> V) : (forall l, s l = s' l) -> forall l, exec ops s l = exec ops s' l.
Proof.
  revert s s'. induction ops as [|op ops IH]; intros s s' E; [done|]. simpl. apply IH. by apply exec_op_ext.
Qed.

Lemma exec_scratch ops s s' : existsb (reads loc) ops = false -> existsb (writes loc) ops = true -> agree s s' ->
  forall l, exec ops s l = exec ops s' l.
Proof.
  revert s s'. induction ops as [|op ops IH]; intros s s' Hr Hw Ha; [done|]. simpl in Hr, Hw.
  apply orb_false_iff in Hr as [Hr Hrs]. destruct (writes loc op) eqn:Hop.
  - simpl. apply exec_ext. by apply exec_op_equal.
  - simpl. apply IH; [done|done|]. by apply exec_op_agree.
Qed.
End Scratch.

(** ** Scratch registers *)

Lemma free_bit reg mask : 0 <= reg < 32 -> (reg_bit reg .& mask =? 0) = true -> Z.testbit mask reg = false.
Proof.
  intros Hr H. apply Z.eqb_eq in H. assert (Hb : Z.testbit (reg_bit reg) reg = true).
  { unfold reg_bit. rewrite testbit_uwrap, testbit_swrap by lia.
    rewrite (proj2 (Z.ltb_lt reg 64)), (proj2 (Z.ltb_lt reg 32)) by lia. cbn [andb]. rewrite Z.shiftl_spec by lia.
    by rewrite Z.sub_diag. }
  assert (E : Z.testbit (reg_bit reg .& mask) reg = false) by (rewrite H; apply Z.bits_0).
  rewrite Z.land_spec, Hb in E. exact E.
Qed.

Lemma find_spec {A} (f : A -> bool) l :
  match List.find f l with Some x => In x l /\ f x = true | None => forall x, In x l -> f x = false end.
Proof. destruct (List.find f l) as [x|] eqn:E; [by apply find_some|]. intros x. by apply find_none. Qed.

Lemma in_registers reg first last : In reg (registers first last) <-> first <= reg <= last.
Proof. unfold registers. rewrite <- list_elem_of_In, elem_of_seqZ. lia. Qed.

(** The register that is allocated is free, and needs no spilling exactly when one of the
    free registers is scratch. *)
Lemma allocate_scratch schedule i kind mask first last : (exists r, first <= r <= last /\ (reg_bit r .& mask =? 0) = true) ->
  let '(reg, spilled) := AllocateScratchRegister schedule i kind mask first last in
  (first <= reg <= last /\ (reg_bit reg .& mask =? 0) = true) /\
  (spilled = false -> IsScratchLocation schedule i (MachineRegisterLocation kind reg) = true) /\
  (spilled = true -> forall r, first <= r <= last -> (reg_bit r .& mask =? 0) = true ->
     IsScratchLocation schedule i (MachineRegisterLocation kind r) = false).
Proof.
  intros (r0 & Hr0 & Hf0). unfold AllocateScratchRegister.
  pose proof (find_spec (fun reg => (reg_bit reg .& mask =? 0) &&
    IsScratchLocation schedule i (MachineRegisterLocation kind reg)) (registers first last)) as H1.
  destruct (List.find _ _) as [reg|].
  { destruct H1 as [Hin H]. apply in_registers in Hin. apply andb_true_iff in H as [Hf Hs]. done. }
  pose proof (find_spec (fun reg => reg_bit reg .& mask =? 0) (registers first last)) as H2.
  destruct (List.find _ _) as [reg|].
  - destruct H2 as [Hin Hf]. apply in_registers in Hin. split_and!; [lia|lia|done|done|]. intros _ r Hr Hfr.
    specialize (H1 r). rewrite in_registers, Hfr in H1. by apply H1.
  - specialize (H2 r0). rewrite in_registers in H2. rewrite (H2 Hr0) in Hf0. done.
Qed.

(** The mask of [AllocateTemporary]. *)
Definition temporary_mask (intrinsic_mode : bool) (blocked_ : Z) : Z :=
  let mask := RegMaskBit blocked_ .| kReservedCpuRegisters in
  if intrinsic_mode then (mask .| RegMaskBit Register.S4) .| RegMaskBit Register.A2 else mask.

(** Some register is always free. *)
Lemma temporary_free intrinsic blocked : -1 <= blocked < 32 ->
  exists r, 0 <= r <= 31 /\ (reg_bit r .& temporary_mask intrinsic blocked =? 0) = true.
Proof.
  intros Hb. assert (E : forallb (fun b => existsb (fun r => reg_bit r .& temporary_mask intrinsic b =? 0) (registers 0 31))
    (seqZ (-1) 33) = true) by (destruct intrinsic; vm_compute; reflexivity).
  rewrite forallb_forall in E. specialize (E blocked). rewrite <- list_elem_of_In, elem_of_seqZ in E.
  apply existsb_exists in E as (r & Hin & Hr); [|lia]. apply in_registers in Hin. by exists r.
Qed.

Lemma temporary_mask_bits intrinsic blocked reg : 0 <= reg < 32 -> -1 <= blocked < 32 ->
  Z.testbit (temporary_mask intrinsic blocked) reg = false ->
  Z.testbit kReservedCpuRegisters reg = false /\ reg <> blocked /\
  (intrinsic = true -> reg <> Register.S4 /\ reg <> Register.A2).
Proof.
  intros Hr Hb Hm. assert (Hbit : forall b, 0 <= b < 32 -> Z.testbit (RegMaskBit b) b = true).
  { intros b Hbb. unfold RegMaskBit, kNoRegister. destruct (Z.eqb_spec b (-1)); [lia|]. simpl. unfold reg_bit.
    rewrite testbit_uwrap, testbit_swrap by lia. rewrite (proj2 (Z.ltb_lt b 64)), (proj2 (Z.ltb_lt b 32)) by lia. cbn [andb].
    rewrite Z.shiftl_spec, Z.sub_diag by lia. done. }
  unfold temporary_mask in Hm. destruct intrinsic; rewrite !Z.lor_spec in Hm; repeat (apply orb_false_iff in Hm as [Hm ?]).
  - split_and!; [done|intros ->; rewrite Hbit in Hm; [done|lia]|]. intros _. split; intros ->;
      match goal with H : Z.testbit (RegMaskBit ?b) ?b = false |- _ => rewrite (Hbit b) in H by (unfold b; lia); discriminate end.
  - split_and!; [done|intros ->; rewrite Hbit in Hm; [done|lia]|done].
Qed.
End MoveFacts.

Import MoveFacts.

(** C23: for moves with different destinations, none of them a constant, the resolver
    ends, no assertion fails, and the schedule it leaves, run one operation after the
    other, has the effect of all moves at once: every destination gets the value its
    source had at the start, whatever cycles the moves form, and no other location
    changes. *)
Theorem parallel_move_resolved ms : moves_ok ms ->
  exists schedule, Resolve ms = Ok schedule /\ Forall (fun op => op_kind op <> kNop) schedule /\
    forall (V : Type) (s : Location -> V),
      (forall m, In m ms -> IsRedundant m = false -> exec schedule s (dest_ m) = s (src_ m)) /\
      (forall l, (forall m, In m ms -> IsRedundant m = false -> dest_ m <> l) -> exec schedule s l = s l).
Proof.
  intros Hms. destruct (resolve_effect ms Hms (fun _ => tt)) as (schedule & Hr & _). exists schedule. split_and!.
  - done.
  - unfold Resolve in Hr. apply bind_Ok_inv in Hr as (r & _ & Hr). apply bind_Ok_inv in Hr as (ops & _ & Hr). injection Hr as <-.
    apply Forall_forall. intros op Hin. apply list_elem_of_In, filter_In in Hin as [_ Hk]. by apply bool_decide_eq_true_1 in Hk.
  - intros V s. destruct (resolve_effect ms Hms s) as (schedule' & Hr' & Hd & Hf).
    rewrite Hr in Hr'. injection Hr' as <-. split.
    + intros m Hin Hred. assert (Hi : In m (BuildInitialMoveList ms)) by by apply initial_move.
      apply (In_nth _ _ (mkMove NoLocation NoLocation)) in Hi as (i & Hi & <-). by apply Hd.
    + intros l Hl. apply Hf. intros i Hi. destruct (initial_nth ms i Hi) as [_ Hin]. apply initial_move in Hin as [Hin Hred].
      by apply Hl.
Qed.
Lemma parallel_move_resolved_witness :
  let r := RegisterLocation in
  let ms := [mkMove (r 10) (r 11); mkMove (r 11) (r 12); mkMove (r 12) (r 10); mkMove (r 13) (r 11)] in
  exists schedule, Resolve ms = Ok schedule /\ exec schedule (fun l => l) (r 12) = r 10 /\ exec schedule (fun l => l) (r 13) = r 11.
Proof.
  cbv zeta. destruct (parallel_move_resolved [mkMove (RegisterLocation 10) (RegisterLocation 11);
    mkMove (RegisterLocation 11) (RegisterLocation 12); mkMove (RegisterLocation 12) (RegisterLocation 10);
    mkMove (RegisterLocation 13) (RegisterLocation 11)]) as (schedule & E & _ & Heff).
  - split; [apply (bool_decide_eq_true_1 (NoDup (map dest_ _))); vm_compute; reflexivity|]. repeat constructor; vm_compute; reflexivity.
  - destruct (Heff Z (fun l => l)) as [Hm _]. exists schedule. split_and!.
    + exact E.
    + apply (Hm (mkMove (RegisterLocation 12) (RegisterLocation 10))); [by do 2 right; left|vm_compute; reflexivity].
    + apply (Hm (mkMove (RegisterLocation 13) (RegisterLocation 11))); [by do 3 right; left|vm_compute; reflexivity].
Defined.

(** C24: a location that [IsScratchLocation] accepts may be overwritten while the current
    operation of a schedule is emitted: neither that operation nor the rest of the
    schedule sees what it held, and the rest writes it.  [AllocateTemporary] always finds
    a register; it is not reserved, blocked or preserved for intrinsics, and is spilled
    exactly when no register that may be taken is scratch. *)
Theorem scratch_registers schedule i op loc intrinsic blocked (V : Type) (s : Location -> V) v :
  schedule !! i = Some op -> -1 <= blocked < 32 ->
  (IsScratchLocation schedule i loc = true ->
   (forall l, l <> loc -> exec_op op (assign loc v s) l = exec_op op s l) /\
   (forall l, exec (drop (i + 1) schedule) (assign loc v s) l = exec (drop (i + 1) schedule) s l)) /\
  let '(reg, spilled) := AllocateTemporary schedule i intrinsic blocked in
  0 <= reg < 32 /\ Z.testbit kReservedCpuRegisters reg = false /\ reg <> blocked /\
  (intrinsic = true -> reg <> Register.S4 /\ reg <> Register.A2) /\
  (spilled = false -> IsScratchLocation schedule i (RegisterLocation reg) = true) /\
  (spilled = true -> forall r, 0 <= r < 32 -> (reg_bit r .& temporary_mask intrinsic blocked =? 0) = true ->
     IsScratchLocation schedule i (RegisterLocation r) = false).
Proof.
  intros Hop Hb. split.
  - unfold IsScratchLocation. destruct (existsb (reads loc) (drop i schedule)) eqn:Hr; [done|]. intros Hw.
    rewrite (drop_S schedule op i Hop) in Hr. simpl in Hr. apply orb_false_iff in Hr as [Hr Hrs].
    assert (Ha : agree loc (assign loc v s) s) by (intros l Hl; by apply assign_ne). split.
    + intros l Hl. by apply exec_op_agree with (loc := loc).
    + rewrite Nat.add_1_r in *. by apply exec_scratch with (loc := loc).
  - pose proof (allocate_scratch schedule i kRegister (temporary_mask intrinsic blocked) 0 (kNumberOfCpuRegisters - 1)
      (temporary_free intrinsic blocked Hb)) as H.
    change (AllocateTemporary schedule i intrinsic blocked) with
      (AllocateScratchRegister schedule i kRegister (temporary_mask intrinsic blocked) 0 (kNumberOfCpuRegisters - 1)).
    destruct (AllocateScratchRegister _ _ _ _ _ _) as [reg spilled]. unfold kNumberOfCpuRegisters in H.
    destruct H as ((Hr & Hf) & Hs & Hn). assert (Hr' : 0 <= reg < 32) by lia.
    destruct (temporary_mask_bits intrinsic blocked reg Hr' Hb (free_bit _ _ Hr' Hf)) as (H1 & H2 & H3).
    split_and!; try done; try lia. intros Hsp r Hrr. apply Hn; [done|lia].
Qed.
Lemma scratch_registers_witness :
  let r := RegisterLocation in
  let schedule := [mkOp kMove (mkMove (r 10) (r 11)); mkOp kMove (mkMove (r 12) (r 10))] in
  IsScratchLocation schedule 0 (r 12) = true /\ AllocateTemporary schedule 0 false (-1) = (12, false) /\
  (forall l, exec (drop 1 schedule) (assign (r 12) 7 (fun l => l)) l = exec (drop 1 schedule) (fun l => l) l).
Proof.
  cbv zeta. destruct (scratch_registers [mkOp kMove (mkMove (RegisterLocation 10) (RegisterLocation 11));
    mkOp kMove (mkMove (RegisterLocation 12) (RegisterLocation 10))] 0 (mkOp kMove (mkMove (RegisterLocation 10) (RegisterLocation 11)))
    (RegisterLocation 12) false (-1) Z (fun l => l) 7) as [H _]; [reflexivity|lia|].
  assert (E : IsScratchLocation [mkOp kMove (mkMove (RegisterLocation 10) (RegisterLocation 11));
    mkOp kMove (mkMove (RegisterLocation 12) (RegisterLocation 10))] 0 (RegisterLocation 12) = true) by (vm_compute; reflexivity).
  destruct (H E) as [_ H2]. split; [exact E|]. split; [vm_compute; reflexivity|exact H2].
Defined.
