(* ===== verification/RangeAnalysis.v ===== *)
(** * Ranges of integers: runtime/vm/compiler/backend/range_analysis.h and .cc

    The optimizing compiler knows for an integer definition a range, whose boundaries are
    constants or another definition plus an offset, and removes overflow and bounds checks
    that the ranges make redundant.  This file has the boundaries, the ranges and their
    arithmetic, the joins at phis with widening and narrowing, and the test for a
    redundant bounds check.  The target is a 64-bit one without compressed pointers.

    Of a definition the model has what these functions read: its range, whether it is a
    constant, a constraint, the unboxing of another one or an operation on Smis, and
    whether it loads a length.  An assertion that fails is an error, but for the one in the
    constructor of a range, that both boundaries or none are unknown; so is the end of the
    rounds of a recursion along the symbols, which C++ does not bound. *)

From S2P Require Import Prelude Utils.

Inductive range_error : Type := RangeAssertion | RangeRounds.
Abbreviation range_result := (result range_error).

Definition RASSERT (b : bool) : range_result unit := if b then Ok tt else Err RangeAssertion.

(** The operations of [Token::Kind] on integers, and the comparisons. *)
Inductive Token : Type :=
  | kADD | kSUB | kMUL | kTRUNCDIV | kMOD | kSHL | kSHR | kUSHR | kBIT_AND | kBIT_OR | kBIT_XOR | kDIV
  | kEQ | kNE | kLT | kGT | kLTE | kGTE.

(** [RangeBoundary] by its kind; a symbol is a definition. *)
Inductive RangeBoundary : Type :=
  | kUnknown
  | kSymbol (symbol offset : Z)
  | kConstant (value : Z).
Record Range : Type := mkRange { min_ : RangeBoundary; max_ : RangeBoundary }.

(** What is read of a definition: [length_load] is [IsLengthLoad], [integer] is
    [RangeAnalysis::IsIntegerDefinition], and [smi_bound] the constant a use of it is bound
    to, when that is a Smi. *)
Inductive DefinitionKind : Type :=
  | Constant (value : Z)
  | Constraint (value : Z)
  | UnboxInt64 (value : Z)
  | BinarySmiOp (op_kind : Token) (left right : Z)
  | OtherDefinition.
Record Definition_ : Type := mkDefinition {
  kind_ : DefinitionKind;
  range_ : option Range;
  length_load : bool;
  integer : bool;
  smi_bound : option Z }.

(** The definitions, the test [a->AllowsCSE() && b->AllowsCSE() && a->Equals( *b)], and the
    number of definitions. *)
Record FlowGraph : Type := mkGraph {
  defn : Z -> Definition_;
  equal_instructions : Z -> Z -> bool;
  definitions : nat }.

Definition kSmiBits : Z := 64 - 2.
Definition kSmiMax : Z := 2 ^ kSmiBits - 1.
Definition kSmiMin : Z := - 2 ^ kSmiBits.
Definition IsSmi (v : Z) : bool := IsInt int64_t (kSmiBits + 1) v.

Module RangeBoundary.

Definition IsUnknown (b : RangeBoundary) : bool := match b with kUnknown => true | _ => false end.
Definition IsSymbol (b : RangeBoundary) : bool := match b with kSymbol _ _ => true | _ => false end.
Definition IsConstant (b : RangeBoundary) : bool := match b with kConstant _ => true | _ => false end.
Definition ConstantValue (b : RangeBoundary) : range_result Z :=
  match b with kConstant v => Ok v | _ => Err RangeAssertion end.
Definition symbol (b : RangeBoundary) : range_result Z :=
  match b with kSymbol d _ => Ok d | _ => Err RangeAssertion end.
Definition offset (b : RangeBoundary) : Z := match b with kSymbol _ o => o | _ => 0 end.

Definition FromConstant (val : Z) : RangeBoundary := kConstant val.
Definition MinSmi : RangeBoundary := FromConstant kSmiMin.
Definition MaxSmi : RangeBoundary := FromConstant kSmiMax.
Definition MinInt64 : RangeBoundary := FromConstant kMinInt64.
Definition MaxInt64 : RangeBoundary := FromConstant kMaxInt64.
Definition Smi : Range := mkRange MinSmi MaxSmi.
Definition Int64 : Range := mkRange MinInt64 MaxInt64.

Definition IsValidOffsetForSymbolicRangeBoundary (offset : Z) : bool :=
  if (kMaxInt64 - kSmiMax <? offset) || (offset <? kMinInt64 - kSmiMin) then false else true.

Definition Clamp (b : RangeBoundary) (full_range : Range) : range_result RangeBoundary :=
  match b with
  | kConstant v =>
      range_min ← ConstantValue (min_ full_range);
      if v <=? range_min then Ok (min_ full_range)
      else
        range_max ← ConstantValue (max_ full_range);
        if range_max <=? v then Ok (max_ full_range) else Ok b
  | _ => Ok b
  end.

(** [WillAddOverflow] and [Add], and the same for subtraction. *)
Definition AddOverflows (a b : RangeBoundary) : range_result bool :=
  x ← ConstantValue a; y ← ConstantValue b; Ok (WillAddOverflow x y).
Definition Add (a b : RangeBoundary) : range_result RangeBoundary :=
  x ← ConstantValue a; y ← ConstantValue b;
  _ ← RASSERT (negb (WillAddOverflow x y));
  Ok (FromConstant (s64 (x + y))).
Definition SubOverflows (a b : RangeBoundary) : range_result bool :=
  x ← ConstantValue a; y ← ConstantValue b; Ok (WillSubOverflow x y).
Definition Sub (a b : RangeBoundary) : range_result RangeBoundary :=
  x ← ConstantValue a; y ← ConstantValue b;
  _ ← RASSERT (negb (WillSubOverflow x y));
  Ok (FromConstant (s64 (x - y))).

Definition WillShlOverflow (value_boundary : RangeBoundary) (shift_count : Z) : range_result bool :=
  value ← ConstantValue value_boundary;
  _ ← RASSERT (0 <=? shift_count);
  if value =? 0 then Ok false
  else Ok ((64 <=? shift_count) || negb (IsInt int64_t (64 - shift_count) value)).
Definition Shl (value_boundary : RangeBoundary) (shift_count : Z) : range_result RangeBoundary :=
  value ← ConstantValue value_boundary;
  overflow ← WillShlOverflow value_boundary shift_count;
  _ ← RASSERT (negb overflow);
  if value =? 0 then Ok (FromConstant 0) else Ok (kConstant (s64 (u64 value ≪ shift_count))).
Definition Shr (value_boundary : RangeBoundary) (shift_count : Z) : range_result RangeBoundary :=
  value ← ConstantValue value_boundary;
  _ ← RASSERT (0 <=? shift_count);
  Ok (kConstant (if shift_count <=? 63 then value ≫ shift_count else if 0 <=? value then 0 else -1)).

(** The bodies of [Range::ConstantMin] and [ConstantMax], for a recursion through the
    ranges of the symbols. *)
Definition constant_min (lower : RangeBoundary -> range_result RangeBoundary) (range : option Range)
    (full_range : Range) : range_result RangeBoundary :=
  match range with None => Ok (min_ full_range) | Some r => b ← lower (min_ r); Clamp b full_range end.
Definition constant_max (upper : RangeBoundary -> range_result RangeBoundary) (range : option Range)
    (full_range : Range) : range_result RangeBoundary :=
  match range with None => Ok (max_ full_range) | Some r => b ← upper (max_ r); Clamp b full_range end.

Section Boundaries.
Context (g : FlowGraph).

Definition FromDefinition (d offs : Z) : range_result RangeBoundary :=
  match kind_ (defn g d) with
  | Constant v =>
      if IsSmi v then Ok (FromConstant (s64 (v + offs)))
      else _ ← RASSERT (IsValidOffsetForSymbolicRangeBoundary offs); Ok (kSymbol d offs)
  | _ => _ ← RASSERT (IsValidOffsetForSymbolicRangeBoundary offs); Ok (kSymbol d offs)
  end.

Fixpoint LowerBound_rounds (rounds : nat) (b : RangeBoundary) : range_result RangeBoundary :=
  match b with
  | kConstant _ => Ok b
  | kUnknown => Err RangeAssertion
  | kSymbol d offset =>
      match rounds with
      | O => Err RangeRounds
      | S rounds =>
          m ← constant_min (LowerBound_rounds rounds) (range_ (defn g d)) Smi;
          Add m (FromConstant offset)
      end
  end.
Fixpoint UpperBound_rounds (rounds : nat) (b : RangeBoundary) : range_result RangeBoundary :=
  match b with
  | kConstant _ => Ok b
  | kUnknown => Err RangeAssertion
  | kSymbol d offset =>
      match rounds with
      | O => Err RangeRounds
      | S rounds =>
          m ← constant_max (UpperBound_rounds rounds) (range_ (defn g d)) Smi;
          Add m (FromConstant offset)
      end
  end.
Definition LowerBound (b : RangeBoundary) : range_result RangeBoundary := LowerBound_rounds (definitions g) b.
Definition UpperBound (b : RangeBoundary) : range_result RangeBoundary := UpperBound_rounds (definitions g) b.

(** [int64_t LowerBound(const Range& full_range)], and [Overflowed]. *)
Definition LowerBound_in (b : RangeBoundary) (full_range : Range) : range_result Z :=
  b ← LowerBound b; b ← Clamp b full_range; ConstantValue b.
Definition UpperBound_in (b : RangeBoundary) (full_range : Range) : range_result Z :=
  b ← UpperBound b; b ← Clamp b full_range; ConstantValue b.

(** [UnwrapConstraint], [AreEqualDefinitions] and [DependOnSameSymbol]. *)
Fixpoint UnwrapConstraint_rounds (rounds : nat) (d : Z) : range_result Z :=
  match kind_ (defn g d) with
  | Constraint value =>
      match rounds with O => Err RangeRounds | S rounds => UnwrapConstraint_rounds rounds value end
  | _ => Ok d
  end.
Definition UnwrapConstraint (d : Z) : range_result Z := UnwrapConstraint_rounds (definitions g) d.
Definition AreEqualDefinitions (a b : Z) : range_result bool :=
  a ← UnwrapConstraint a; b ← UnwrapConstraint b; Ok ((a =? b) || equal_instructions g a b).
Definition DependOnSameSymbol (a b : RangeBoundary) : range_result bool :=
  match a, b with kSymbol x _, kSymbol y _ => AreEqualDefinitions x y | _, _ => Ok false end.

Definition Equals (b other : RangeBoundary) : range_result bool :=
  match b, other with
  | kConstant x, kConstant y => Ok (x =? y)
  | kSymbol _ o1, kSymbol _ o2 => if o1 =? o2 then DependOnSameSymbol b other else Ok false
  | kUnknown, kUnknown => Ok true
  | _, _ => Ok false
  end.
Definition Overflowed (b : RangeBoundary) (full_range : Range) : range_result bool :=
  _ ← RASSERT (IsConstant b);
  c ← Clamp b full_range; e ← Equals b c; Ok (negb e).
Definition OverflowedSmi (b : RangeBoundary) : bool :=
  match b with kConstant v => negb (IsSmi v) | _ => false end.
Definition IsLessOrEqual (b other : RangeBoundary) : range_result bool :=
  o ← ConstantValue other; Ok (match b with kConstant v => v <=? o | _ => false end).
Definition IsGreaterOrEqual (b other : RangeBoundary) : range_result bool :=
  o ← ConstantValue other; Ok (match b with kConstant v => o <=? v | _ => false end).

Definition SymbolicAdd (a b : RangeBoundary) : range_result (option RangeBoundary) :=
  let add d o v :=
    if WillAddOverflow o v then Ok None
    else
      let offset := o + v in
      if negb (IsValidOffsetForSymbolicRangeBoundary offset) then Ok None
      else r ← FromDefinition d offset; Ok (Some r) in
  match a, b with
  | kSymbol d o, kConstant v => add d o v
  | kConstant v, kSymbol d o => add d o v
  | _, _ => Ok None
  end.
Definition SymbolicSub (a b : RangeBoundary) : range_result (option RangeBoundary) :=
  match a, b with
  | kSymbol d o, kConstant v =>
      if WillSubOverflow o v then Ok None
      else
        let offset := o - v in
        if negb (IsValidOffsetForSymbolicRangeBoundary offset) then Ok None
        else r ← FromDefinition d offset; Ok (Some r)
  | _, _ => Ok None
  end.

(** The loop of [CanonicalizeBoundary], to the definition and offset it ends with or, when
    the offset overflows, to none. *)
Definition smi_constant (d : Z) : option Z := match kind_ (defn g d) with Constant v => Some v | _ => None end.
Fixpoint canonicalize (rounds : nat) (symbol offset : Z) : range_result (option (Z * Z)) :=
  let again symbol offset :=
    match rounds with O => Err RangeRounds | S rounds => canonicalize rounds symbol offset end in
  match kind_ (defn g symbol) with
  | Constraint value => again value offset
  | UnboxInt64 value => again value offset
  | BinarySmiOp kADD l r =>
      match smi_constant r, smi_constant l with
      | Some rhs, _ =>
          _ ← RASSERT (IsSmi rhs);
          if WillAddOverflow offset rhs then Ok None else again l (offset + rhs)
      | None, Some rhs =>
          _ ← RASSERT (IsSmi rhs);
          if WillAddOverflow offset rhs then Ok None else again r (offset + rhs)
      | None, None => Ok (Some (symbol, offset))
      end
  | BinarySmiOp kSUB l r =>
      match smi_constant r with
      | Some rhs =>
          _ ← RASSERT (IsSmi rhs);
          if WillSubOverflow offset rhs then Ok None else again l (offset - rhs)
      | None => Ok (Some (symbol, offset))
      end
  | _ => Ok (Some (symbol, offset))
  end.
Definition CanonicalizeBoundary (a overflow : RangeBoundary) : range_result RangeBoundary :=
  match a with
  | kConstant _ => Ok a
  | kUnknown => Err RangeAssertion
  | kSymbol symbol offset =>
      r ← canonicalize (definitions g) symbol offset;
      match r with
      | None => Ok overflow
      | Some (symbol, offset) =>
          if negb (IsValidOffsetForSymbolicRangeBoundary offset) then Ok overflow
          else FromDefinition symbol offset
      end
  end.

(** [CanonicalizeMaxBoundary] and [CanonicalizeMinBoundary]: the new boundary, or none when
    they return false. *)
Definition canonicalize_by (boundary : Range -> RangeBoundary) (limit a : RangeBoundary)
    : range_result (option RangeBoundary) :=
  match a with
  | kSymbol d o =>
      match range_ (defn g d) with
      | Some range =>
          match boundary range with
          | kSymbol s so =>
              if WillAddOverflow so o then Ok (Some limit)
              else
                let offset := so + o in
                if negb (IsValidOffsetForSymbolicRangeBoundary offset) then Ok (Some limit)
                else b ← FromDefinition s offset; r ← CanonicalizeBoundary b limit; Ok (Some r)
          | _ => Ok None
          end
      | None => Ok None
      end
  | _ => Ok None
  end.
Definition CanonicalizeMaxBoundary : RangeBoundary -> range_result (option RangeBoundary) :=
  canonicalize_by max_ MaxInt64.
Definition CanonicalizeMinBoundary : RangeBoundary -> range_result (option RangeBoundary) :=
  canonicalize_by min_ MinInt64.

(** The loop of [CanonicalizeForComparison], which steps the first boundary as long as it
    can and then the second. *)
Fixpoint compare_loop (rounds : nat) (op_a op_b : RangeBoundary -> range_result (option RangeBoundary))
    (a b : RangeBoundary) : range_result (option (RangeBoundary * RangeBoundary)) :=
  same ← DependOnSameSymbol a b;
  if (same : bool) then Ok (Some (a, b))
  else
    match rounds with
    | O => Err RangeRounds
    | S rounds =>
        next_a ← op_a a;
        match next_a with
        | Some a => compare_loop rounds op_a op_b a b
        | None =>
            next_b ← op_b b;
            match next_b with
            | Some b => compare_loop rounds op_a op_b a b
            | None => Ok None
            end
        end
    end.
Definition comparison_rounds : nat := S (2 * definitions g).
Definition CanonicalizeForComparison (a b : RangeBoundary) (op : RangeBoundary -> range_result (option RangeBoundary))
    : range_result (option (RangeBoundary * RangeBoundary)) :=
  if negb (IsSymbol a) || negb (IsSymbol b) then Ok None else compare_loop comparison_rounds op op a b.

Definition JoinMin (a b : RangeBoundary) (full_range : Range) : range_result RangeBoundary :=
  e ← Equals a b;
  if (e : bool) then Ok b
  else
    c ← CanonicalizeForComparison a b CanonicalizeMinBoundary;
    match c with
    | Some (a, b) => Ok (if offset a <=? offset b then a else b)
    | None =>
        inf_a ← LowerBound_in a full_range;
        inf_b ← LowerBound_in b full_range;
        sup_a ← UpperBound_in a full_range;
        sup_b ← UpperBound_in b full_range;
        la ← LowerBound a; lb ← LowerBound b;
        oa ← Overflowed la full_range; ob ← Overflowed lb full_range;
        if (sup_a <=? inf_b) && negb oa then Ok a
        else if (sup_b <=? inf_a) && negb ob then Ok b
        else Ok (FromConstant (Minimum inf_a inf_b))
    end.
Definition JoinMax (a b : RangeBoundary) (full_range : Range) : range_result RangeBoundary :=
  e ← Equals a b;
  if (e : bool) then Ok b
  else
    c ← CanonicalizeForComparison a b CanonicalizeMaxBoundary;
    match c with
    | Some (a, b) => Ok (if offset b <=? offset a then a else b)
    | None =>
        inf_a ← LowerBound_in a full_range;
        inf_b ← LowerBound_in b full_range;
        sup_a ← UpperBound_in a full_range;
        sup_b ← UpperBound_in b full_range;
        ua ← UpperBound a; ub ← UpperBound b;
        oa ← Overflowed ua full_range; ob ← Overflowed ub full_range;
        if (sup_a <=? inf_b) && negb ob then Ok b
        else if (sup_b <=? inf_a) && negb oa then Ok a
        else Ok (FromConstant (Maximum sup_a sup_b))
    end.
Definition IntersectionMin (a b : RangeBoundary) : range_result RangeBoundary :=
  _ ← RASSERT (negb (IsUnknown a) && negb (IsUnknown b));
  e ← Equals a b;
  if (e : bool) then Ok a
  else
    match a, b with
    | kConstant x, kConstant y => Ok (kConstant (Maximum x y))
    | _, _ =>
        c ← CanonicalizeForComparison a b CanonicalizeMinBoundary;
        match c with
        | Some (a, b) => Ok (if offset b <=? offset a then a else b)
        | None =>
            la ← LowerBound a; inf_a ← ConstantValue la;
            lb ← LowerBound b; inf_b ← ConstantValue lb;
            Ok (if inf_b <=? inf_a then a else b)
        end
    end.
Definition IntersectionMax (a b : RangeBoundary) : range_result RangeBoundary :=
  _ ← RASSERT (negb (IsUnknown a) && negb (IsUnknown b));
  e ← Equals a b;
  if (e : bool) then Ok a
  else
    match a, b with
    | kConstant x, kConstant y => Ok (kConstant (Minimum x y))
    | _, _ =>
        c ← CanonicalizeForComparison a b CanonicalizeMaxBoundary;
        match c with
        | Some (a, b) => Ok (if offset a <=? offset b then a else b)
        | None =>
            ua ← UpperBound a; sup_a ← ConstantValue ua;
            ub ← UpperBound b; sup_b ← ConstantValue ub;
            Ok (if sup_a <=? sup_b then a else b)
        end
    end.
End Boundaries.
End RangeBoundary.
Import RangeBoundary.

(** The representations of integers, with the C++ type of an unboxed one. *)
Inductive Representation : Type :=
  | kTagged | kUntagged
  | kUnboxedInt8 | kUnboxedUint8 | kUnboxedInt16 | kUnboxedUint16 | kUnboxedInt32 | kUnboxedUint32 | kUnboxedInt64.
Definition value_type (rep : Representation) : option ctype :=
  match rep with
  | kTagged | kUntagged => None
  | kUnboxedInt8 => Some int8_t | kUnboxedUint8 => Some uint8_t
  | kUnboxedInt16 => Some int16_t | kUnboxedUint16 => Some uint16_t
  | kUnboxedInt32 => Some int32_t | kUnboxedUint32 => Some uint32_t
  | kUnboxedInt64 => Some int64_t
  end.
Module RepresentationUtils.
Definition IsUnboxedInteger (rep : Representation) : bool := match value_type rep with Some _ => true | None => false end.
Definition IsUnsignedInteger (rep : Representation) : bool :=
  match value_type rep with Some T => negb (ct_signed T) | None => false end.
Definition ValueSize (rep : Representation) : Z := match value_type rep with Some T => ct_sizeof T | None => 8 end.
Definition MinValue (rep : Representation) : range_result Z :=
  match value_type rep with
  | Some T => Ok (if ct_signed T then - 2 ^ (ct_bits T - 1) else 0)
  | None => Err RangeAssertion
  end.
Definition MaxValue (rep : Representation) : range_result Z :=
  match value_type rep with
  | Some T => Ok (if ct_signed T then 2 ^ (ct_bits T - 1) - 1 else 2 ^ ct_bits T - 1)
  | None => Err RangeAssertion
  end.
End RepresentationUtils.
Import RepresentationUtils.

(** [TaggedMode]: whether a tagged value counts as a Smi. *)
Inductive TaggedMode : Type := kTaggedNotAllowed | kTaggedIsSmi.

Module Range.

Definition IsUnknown (range : option Range) : bool :=
  match range with None => true | Some r => RangeBoundary.IsUnknown (min_ r) end.
Definition Full (rep : Representation) (tagged_mode : TaggedMode) : range_result Range :=
  match rep, tagged_mode with
  | kTagged, kTaggedIsSmi => Ok Smi
  | kTagged, kTaggedNotAllowed => Err RangeAssertion
  | _, _ => lo ← MinValue rep; hi ← MaxValue rep; Ok (mkRange (FromConstant lo) (FromConstant hi))
  end.

(** The conversions of [Ushr] between signed and unsigned. *)
Definition ConvertRangeToUnsigned (a b : Z) : range_result (Z * Z) :=
  _ ← RASSERT (a <=? b);
  if (a <? 0) && (0 <=? b) then Ok (0, 2 ^ 64 - 1) else Ok (u64 a, u64 b).
Definition ConvertRangeToSigned (a b : Z) : range_result (Z * Z) :=
  _ ← RASSERT (a <=? b);
  if (a <=? u64 kMaxInt64) && (u64 kMinInt64 <=? b) then Ok (kMinInt64, kMaxInt64) else Ok (s64 a, s64 b).

Section Ranges.
Context (g : FlowGraph).

Definition ConstantMin_in (range : option Range) (full_range : Range) : range_result RangeBoundary :=
  constant_min (LowerBound g) range full_range.
Definition ConstantMax_in (range : option Range) (full_range : Range) : range_result RangeBoundary :=
  constant_max (UpperBound g) range full_range.
Definition ConstantMin (range : Range) : range_result Z := b ← ConstantMin_in (Some range) Int64; ConstantValue b.
Definition ConstantMax (range : Range) : range_result Z := b ← ConstantMax_in (Some range) Int64; ConstantValue b.
Definition ConstantMinSmi (range : option Range) : range_result Z := b ← ConstantMin_in range Smi; ConstantValue b.

Definition Equals (range : Range) (other : option Range) : range_result bool :=
  _ ← RASSERT (eqb (RangeBoundary.IsUnknown (min_ range)) (RangeBoundary.IsUnknown (max_ range)));
  match other with
  | None => Ok (RangeBoundary.IsUnknown (min_ range))
  | Some other =>
      e ← RangeBoundary.Equals g (min_ range) (min_ other);
      if (e : bool) then RangeBoundary.Equals g (max_ range) (max_ other) else Ok false
  end.
Definition OnlyLessThanOrEqualTo (range : Range) (val : Z) : range_result bool :=
  b ← UpperBound g (max_ range); u ← ConstantValue b; Ok (u <=? val).
Definition OnlyGreaterThanOrEqualTo (range : Range) (val : Z) : range_result bool :=
  b ← LowerBound g (min_ range); l ← ConstantValue b; Ok (val <=? l).
Definition IsPositive (range : Range) : range_result bool := OnlyGreaterThanOrEqualTo range 0.
Definition IsNegative (range : Range) : range_result bool := OnlyLessThanOrEqualTo range (-1).
Definition IsWithin (range : Range) (min_int max_int : Z) : range_result bool :=
  a ← OnlyGreaterThanOrEqualTo range min_int;
  if (a : bool) then OnlyLessThanOrEqualTo range max_int else Ok false.
Definition IsWithin_range (range other : Range) : range_result bool :=
  _ ← LowerBound g (min_ other); _ ← UpperBound g (max_ other);
  lo ← ConstantValue (min_ other); hi ← ConstantValue (max_ other); IsWithin range lo hi.
Definition Overlaps (range : Range) (min_int max_int : Z) : range_result bool :=
  l ← LowerBound g (min_ range); u ← UpperBound g (max_ range);
  this_min ← ConstantValue l; this_max ← ConstantValue u;
  Ok (((this_min <=? min_int) && (min_int <=? this_max)) || ((this_min <=? max_int) && (max_int <=? this_max))
      || ((min_int <? this_min) && (this_max <? max_int))).
Definition IsUnsatisfiable (range : Range) : range_result bool :=
  lo ← ConstantMin range; hi ← ConstantMax range;
  if hi <? lo then Ok true
  else same ← DependOnSameSymbol g (min_ range) (max_ range);
       Ok ((same : bool) && (offset (max_ range) <? offset (min_ range))).
Definition IsSingleton (range : Range) : bool :=
  match min_ range, max_ range with kConstant x, kConstant y => x =? y | _, _ => false end.
Definition Intersect (range other : Range) : range_result Range :=
  lo ← IntersectionMin g (min_ range) (min_ other); hi ← IntersectionMax g (max_ range) (max_ other);
  Ok (mkRange lo hi).
Definition Fits (range : option Range) (rep : Representation) (tagged_mode : TaggedMode) : range_result bool :=
  match range with
  | None => Ok false
  | Some range => other ← Full rep tagged_mode; IsWithin_range range other
  end.
Definition Clamp (range full_range : Range) : range_result Range :=
  lo ← RangeBoundary.Clamp (min_ range) full_range; hi ← RangeBoundary.Clamp (max_ range) full_range;
  Ok (mkRange lo hi).
Definition ClampToConstant (range full_range : Range) : range_result Range :=
  l ← LowerBound g (min_ range); lo ← RangeBoundary.Clamp l full_range;
  u ← UpperBound g (max_ range); hi ← RangeBoundary.Clamp u full_range;
  Ok (mkRange lo hi).

Definition OnlyPositiveOrZero (a b : Range) : range_result bool :=
  x ← OnlyGreaterThanOrEqualTo a 0; if (x : bool) then OnlyGreaterThanOrEqualTo b 0 else Ok false.
Definition OnlyNegativeOrZero (a b : Range) : range_result bool :=
  x ← OnlyLessThanOrEqualTo a 0; if (x : bool) then OnlyLessThanOrEqualTo b 0 else Ok false.
Definition ConstantAbsMax (range : Range) : range_result Z :=
  lo ← ConstantMin range; hi ← ConstantMax range; Ok (Maximum (AbsWithSaturation lo) (AbsWithSaturation hi)).
Definition ConstantAbsMin (range : Range) : range_result Z :=
  lo ← ConstantMin range; hi ← ConstantMax range; Ok (Minimum (AbsWithSaturation lo) (AbsWithSaturation hi)).

(** The results of the operations are the boundaries [*result_min] and [*result_max]. *)
Definition whole : Range := mkRange MinInt64 MaxInt64.
Definition Shl (left_range right_range : Range) : range_result Range :=
  left_max ← ConstantMax left_range; left_min ← ConstantMin left_range;
  rmax ← ConstantMax right_range; rmin ← ConstantMin right_range;
  let right_max := Maximum rmax 0 in
  let right_min := Maximum rmin 0 in
  let amount_min := if 0 <? left_min then right_min else right_max in
  o1 ← WillShlOverflow (kConstant left_min) amount_min;
  let amount_max := if 0 <? left_max then right_max else right_min in
  o2 ← WillShlOverflow (kConstant left_max) amount_max;
  if (o1 : bool) || (o2 : bool) then Ok whole
  else lo ← RangeBoundary.Shl (kConstant left_min) amount_min; hi ← RangeBoundary.Shl (kConstant left_max) amount_max;
       Ok (mkRange lo hi).
Definition Shr (left_range right_range : Range) : range_result Range :=
  left_max ← ConstantMax left_range; left_min ← ConstantMin left_range;
  rmax ← ConstantMax right_range; rmin ← ConstantMin right_range;
  let right_max := Maximum rmax 0 in
  let right_min := Maximum rmin 0 in
  lo ← RangeBoundary.Shr (kConstant left_min) (if 0 <? left_min then right_max else right_min);
  hi ← RangeBoundary.Shr (kConstant left_max) (if 0 <? left_max then right_min else right_max);
  Ok (mkRange lo hi).
Definition Ushr (left_range right_range : Range) : range_result Range :=
  left_max ← ConstantMax left_range; left_min ← ConstantMin left_range;
  rmax ← ConstantMax right_range; rmin ← ConstantMin right_range;
  let right_max := Maximum rmax 0 in
  let right_min := Maximum rmin 0 in
  ul ← ConvertRangeToUnsigned left_min left_max;
  let unsigned_result_min := if 64 <=? right_max then 0 else fst ul ≫ right_max in
  let unsigned_result_max := if 64 <=? right_min then 0 else snd ul ≫ right_min in
  sr ← ConvertRangeToSigned unsigned_result_min unsigned_result_max;
  Ok (mkRange (kConstant (fst sr)) (kConstant (snd sr))).

Definition BitSize (range : Range) : range_result Z :=
  lo ← ConstantMin range; hi ← ConstantMax range; Ok (Maximum (BitLength lo) (BitLength hi)).
Definition BitwiseOp (left_range right_range : Range) : range_result Range :=
  bl ← BitSize left_range; br ← BitSize right_range;
  let bitsize := Maximum bl br in
  pl ← IsPositive left_range;
  pr ← (if (pl : bool) then IsPositive right_range else Ok false);
  let lo := if (pr : bool) then 0 else s64 (- u64 (1 ≪ bitsize)) in
  Ok (mkRange (FromConstant lo) (FromConstant (s64 (u64 (1 ≪ bitsize) - 1)))).
Definition And (left_range right_range : Range) : range_result Range :=
  right_min ← ConstantMin right_range;
  if 0 <=? right_min then hi ← ConstantMax right_range; Ok (mkRange (FromConstant 0) (kConstant hi))
  else
    left_min ← ConstantMin left_range;
    if 0 <=? left_min then hi ← ConstantMax left_range; Ok (mkRange (FromConstant 0) (kConstant hi))
    else BitwiseOp left_range right_range.

Definition IsLengthLoad (left_defn : option Z) : bool :=
  match left_defn with Some d => length_load (defn g d) | None => false end.
(** The left boundary of [Add] and [Sub]. *)
Definition left_boundary (left_defn : option Z) (b : RangeBoundary) : range_result RangeBoundary :=
  match left_defn with
  | Some d => if IsLengthLoad (Some d) then FromDefinition g d 0 else Ok b
  | None => Ok b
  end.
(** One boundary of a sum or difference: symbolic, constant, or none on overflow. *)
Definition sum_boundary (symbolic : option RangeBoundary) (bound_a bound_b : range_result RangeBoundary)
    (overflows : RangeBoundary -> RangeBoundary -> range_result bool)
    (op : RangeBoundary -> RangeBoundary -> range_result RangeBoundary) : range_result (option RangeBoundary) :=
  match symbolic with
  | Some b => Ok (Some b)
  | None =>
      a ← bound_a; b ← bound_b; o ← overflows a b;
      if (o : bool) then Ok None else c ← op a b; Ok (Some c)
  end.
Definition sum_range (lo hi : option RangeBoundary) : Range :=
  match lo, hi with Some lo, Some hi => mkRange lo hi | _, _ => whole end.
Definition Add (left_range right_range : Range) (left_defn : option Z) : range_result Range :=
  left_min ← left_boundary left_defn (min_ left_range);
  left_max ← left_boundary left_defn (max_ left_range);
  s1 ← SymbolicAdd g left_min (min_ right_range);
  lo ← sum_boundary s1 (LowerBound g (min_ left_range)) (LowerBound g (min_ right_range)) AddOverflows RangeBoundary.Add;
  s2 ← SymbolicAdd g left_max (max_ right_range);
  hi ← sum_boundary s2 (UpperBound g (max_ left_range)) (UpperBound g (max_ right_range)) AddOverflows RangeBoundary.Add;
  Ok (sum_range lo hi).
Definition Sub (left_range right_range : Range) (left_defn : option Z) : range_result Range :=
  left_min ← left_boundary left_defn (min_ left_range);
  left_max ← left_boundary left_defn (max_ left_range);
  s1 ← SymbolicSub g left_min (max_ right_range);
  lo ← sum_boundary s1 (LowerBound g (min_ left_range)) (UpperBound g (max_ right_range)) SubOverflows RangeBoundary.Sub;
  s2 ← SymbolicSub g left_max (min_ right_range);
  hi ← sum_boundary s2 (UpperBound g (max_ left_range)) (LowerBound g (min_ right_range)) SubOverflows RangeBoundary.Sub;
  Ok (sum_range lo hi).

Definition Mul (left_range right_range : Range) : range_result Range :=
  left_max ← ConstantAbsMax left_range; right_max ← ConstantAbsMax right_range;
  if (left_max <=? - kSmiMin) && (right_max <=? - kSmiMin) &&
     ((left_max =? 0) || (right_max <=? Z.quot kMaxInt64 left_max)) then
    let mul_max := s64 (left_max * right_max) in
    pos ← OnlyPositiveOrZero left_range right_range;
    same ← (if (pos : bool) then Ok true else OnlyNegativeOrZero left_range right_range);
    if (same : bool) then
      left_min ← ConstantAbsMin left_range; right_min ← ConstantAbsMin right_range;
      Ok (mkRange (FromConstant (s64 (left_min * right_min))) (FromConstant mul_max))
    else Ok (mkRange (FromConstant (- mul_max)) (FromConstant mul_max))
  else Ok whole.
Definition TruncDiv (left_range right_range : Range) : range_result Range :=
  a ← OnlyGreaterThanOrEqualTo left_range 0;
  b ← (if (a : bool) then OnlyGreaterThanOrEqualTo right_range 1 else Ok false);
  if (b : bool) then
    left_max ← ConstantAbsMax left_range; left_min ← ConstantAbsMin left_range;
    right_max ← ConstantAbsMax right_range; right_min ← ConstantAbsMin right_range;
    Ok (mkRange (FromConstant (Z.quot left_min right_max)) (FromConstant (Z.quot left_max right_min)))
  else Ok whole.
Definition Mod (right_range : Range) : range_result Range :=
  right_min ← ConstantMin right_range;
  mod_max ← (if negb (right_min =? kMinInt64) then right_max ← ConstantAbsMax right_range; Ok (Maximum (right_max - 1) 0)
             else Ok kMaxInt64);
  Ok (mkRange (FromConstant 0) (FromConstant mod_max)).

Definition BinaryOp (op : Token) (left_range right_range : Range) (left_defn : option Z) : range_result Range :=
  let checked (r : range_result Range) :=
    r ← r;
    _ ← RASSERT (negb (RangeBoundary.IsUnknown (min_ r)) && negb (RangeBoundary.IsUnknown (max_ r)));
    _ ← RASSERT (match min_ r, max_ r with kConstant l, kConstant u => l <=? u | _, _ => true end);
    Ok r in
  match op with
  | kADD => checked (Add left_range right_range left_defn)
  | kSUB => checked (Sub left_range right_range left_defn)
  | kMUL => checked (Mul left_range right_range)
  | kTRUNCDIV => checked (TruncDiv left_range right_range)
  | kMOD => checked (Mod right_range)
  | kSHL => checked (Shl left_range right_range)
  | kSHR => checked (Shr left_range right_range)
  | kUSHR => checked (Ushr left_range right_range)
  | kBIT_AND => checked (And left_range right_range)
  | kBIT_XOR | kBIT_OR => checked (BitwiseOp left_range right_range)
  | _ => Ok Int64
  end.
End Ranges.
End Range.
Import Range.

(** ** The analysis *)

Module RangeAnalysis.

(** What [RangeAnalysis::InferRange] does with the range of a phi it has inferred again. *)
Inductive JoinOperator : Type := NONE | WIDEN | NARROW.

Section Analysis.
Context (g : FlowGraph).

Definition ConstraintRange (op : Token) (boundary : Z) (full_range : Range) : range_result Range :=
  match op with
  | kEQ => b ← FromDefinition g boundary 0; Ok (mkRange b b)
  | kNE => Ok full_range
  | kLT => b ← FromDefinition g boundary (-1); Ok (mkRange (min_ full_range) b)
  | kGT => b ← FromDefinition g boundary 1; Ok (mkRange b (max_ full_range))
  | kLTE => b ← FromDefinition g boundary 0; Ok (mkRange (min_ full_range) b)
  | kGTE => b ← FromDefinition g boundary 0; Ok (mkRange b (max_ full_range))
  | _ => Err RangeAssertion
  end.

(** [ConstrainValueAfterBranch] for the operand at [use_index] of a comparison: the ranges
    of the constraints at the true and the false successor, or none. *)
Definition NegateComparison (op : Token) : range_result Token :=
  match op with
  | kEQ => Ok kNE | kNE => Ok kEQ | kLT => Ok kGTE | kGT => Ok kLTE | kLTE => Ok kGT | kGTE => Ok kLT
  | _ => Err RangeAssertion
  end.
Definition FlipComparison (op : Token) : range_result Token :=
  match op with
  | kEQ => Ok kEQ | kNE => Ok kNE | kLT => Ok kGT | kGT => Ok kLT | kLTE => Ok kGTE | kGTE => Ok kLTE
  | _ => Err RangeAssertion
  end.
Definition boundary_full_range (boundary : Z) (rep : Representation) : range_result (option Range) :=
  match rep with
  | kTagged => Ok (Some Smi)
  | _ =>
      _ ← RASSERT (IsUnboxedInteger rep);
      if negb (length_load (defn g boundary)) then Ok None else f ← Full rep kTaggedNotAllowed; Ok (Some f)
  end.
Definition ConstrainValueAfterBranch (use_index : Z) (op : Token) (l r : Z) (rep : Representation)
    : range_result (option (Range * Range)) :=
  _ ← RASSERT ((use_index =? 0) || (use_index =? 1));
  let boundary := if use_index =? 0 then r else l in
  op_kind ← (if use_index =? 0 then Ok op else FlipComparison op);
  full ← boundary_full_range boundary rep;
  match full with
  | None => Ok None
  | Some full_range =>
      true_range ← ConstraintRange op_kind boundary full_range;
      negated ← NegateComparison op_kind;
      false_range ← ConstraintRange negated boundary full_range;
      Ok (Some (true_range, false_range))
  end.

(** The range of the constraint after a bounds check: on its index, or on its length. *)
Definition ConstrainValueAfterCheckBound (constrains_index : bool) (length index : Z) : range_result Range :=
  if constrains_index then b ← FromDefinition g length (-1); Ok (mkRange (FromConstant 0) b)
  else b ← FromDefinition g index 1; Ok (mkRange b MaxSmi).

Definition WidenMin (range new_range full_range : Range) : range_result RangeBoundary :=
  let constant :=
    b ← ConstantMin_in g (Some range) full_range; m ← ConstantValue b;
    n ← ConstantMin_in g (Some new_range) full_range; n ← ConstantValue n;
    Ok (if m <=? n then b else min_ full_range) in
  match min_ range with
  | kSymbol _ _ =>
      l ← LowerBound g (min_ range); o ← Overflowed g l full_range;
      if (o : bool) then Ok (min_ full_range)
      else
        same ← DependOnSameSymbol g (min_ range) (min_ new_range);
        if (same : bool) then
          Ok (if offset (min_ range) <=? offset (min_ new_range) then min_ range else min_ full_range)
        else
          sup ← UpperBound_in g (min_ range) full_range; inf ← LowerBound_in g (min_ new_range) full_range;
          if sup <=? inf then Ok (min_ range) else constant
  | _ => constant
  end.
Definition WidenMax (range new_range full_range : Range) : range_result RangeBoundary :=
  let constant :=
    b ← ConstantMax_in g (Some range) full_range; m ← ConstantValue b;
    n ← ConstantMax_in g (Some new_range) full_range; n ← ConstantValue n;
    Ok (if n <=? m then b else max_ full_range) in
  match max_ range with
  | kSymbol _ _ =>
      u ← UpperBound g (max_ range); o ← Overflowed g u full_range;
      if (o : bool) then Ok (max_ full_range)
      else
        same ← DependOnSameSymbol g (max_ range) (max_ new_range);
        if (same : bool) then
          Ok (if offset (max_ new_range) <=? offset (max_ range) then max_ range else max_ full_range)
        else
          inf ← LowerBound_in g (max_ range) full_range; sup ← UpperBound_in g (max_ new_range) full_range;
          if sup <=? inf then Ok (max_ range) else constant
  | _ => constant
  end.
Definition NarrowMin (range new_range full_range : Range) : range_result RangeBoundary :=
  m ← ConstantMin_in g (Some range) full_range; m ← ConstantValue m;
  n ← ConstantMin_in g (Some new_range) full_range; n ← ConstantValue n;
  if n <? m then Ok (min_ range)
  else w ← IsLessOrEqual (min_ range) (min_ full_range); Ok (if (w : bool) then min_ new_range else min_ range).
Definition NarrowMax (range new_range full_range : Range) : range_result RangeBoundary :=
  m ← ConstantMax_in g (Some range) full_range; m ← ConstantValue m;
  n ← ConstantMax_in g (Some new_range) full_range; n ← ConstantValue n;
  if m <? n then Ok (max_ range)
  else w ← IsGreaterOrEqual (max_ range) (max_ full_range); Ok (if (w : bool) then max_ new_range else max_ range).

(** The new range of a phi that has one, and whether the range of a definition changes. *)
Definition phi_update (op : JoinOperator) (old range full_range : Range) : range_result Range :=
  match op with
  | WIDEN => lo ← WidenMin old range full_range; hi ← WidenMax old range full_range; Ok (mkRange lo hi)
  | NARROW => lo ← NarrowMin old range full_range; hi ← NarrowMax old range full_range; Ok (mkRange lo hi)
  | NONE => Ok range
  end.
Definition InferRange (op : JoinOperator) (phi : bool) (old : option Range) (range full_range : Range)
    : range_result (option Range) :=
  if Range.IsUnknown (Some range) then Ok None
  else
    range ← (match old with
             | Some o => if phi && negb (Range.IsUnknown old) then phi_update op o range full_range else Ok range
             | None => Ok range
             end);
    e ← Range.Equals g range old;
    Ok (if (e : bool) then None else Some range).

Definition FullRangeForPhi (smi_type : bool) (rep : Representation) : range_result Range :=
  if smi_type then Ok Smi
  else if IsUnboxedInteger rep then Full rep kTaggedNotAllowed
  else match rep with kTagged => Ok Int64 | _ => Err RangeAssertion end.

Definition DependsOnSymbol (a : RangeBoundary) (symbol : Z) : range_result bool :=
  match a with kSymbol d _ => u ← UnwrapConstraint g d; Ok (u =? symbol) | _ => Ok false end.
Definition Join (range : Range) (d : Z) (defn_range : option Range) (full_range : Range) : range_result Range :=
  match defn_range with
  | None => Ok range
  | Some dr =>
      if RangeBoundary.IsUnknown (min_ dr) then Ok range
      else if RangeBoundary.IsUnknown (min_ range) then Ok dr
      else
        unwrapped ← UnwrapConstraint g d;
        d1 ← DependsOnSymbol (min_ range) unwrapped;
        d2 ← DependsOnSymbol (max_ range) unwrapped;
        other ← (if (d1 : bool) || (d2 : bool) then b ← FromDefinition g d 0; Ok (mkRange b b) else Ok dr);
        inf_range ← LowerBound_in g (min_ range) full_range;
        inf_other ← LowerBound_in g (min_ other) full_range;
        sup_range ← UpperBound_in g (max_ range) full_range;
        sup_other ← UpperBound_in g (max_ other) full_range;
        if sup_range <=? inf_other then Ok (mkRange (min_ range) (max_ other))
        else if sup_other <=? inf_range then Ok (mkRange (min_ other) (max_ range))
        else
          lo ← JoinMin g (min_ range) (min_ other) full_range;
          hi ← JoinMax g (max_ range) (max_ other) full_range;
          Ok (mkRange lo hi)
  end.
Definition EnsureAcyclicSymbol (dominates_phi : Z -> bool) (a limit : RangeBoundary) : range_result RangeBoundary :=
  match a with
  | kSymbol d o =>
      if dominates_phi d then Ok a
      else
        unwrapped ← UnwrapConstraint g d;
        if negb (unwrapped =? d) && dominates_phi unwrapped then FromDefinition g unwrapped o else Ok limit
  | _ => Ok a
  end.
Definition GetInputRange (d : Z) (full_range : Range) : option Range :=
  match range_ (defn g d) with
  | None => if negb (integer (defn g d)) then Some full_range else None
  | r => r
  end.
Fixpoint join_inputs (range : Range) (inputs : list Z) (full_range : Range) : range_result Range :=
  match inputs with
  | [] => Ok range
  | d :: inputs => range ← Join range d (GetInputRange d full_range) full_range; join_inputs range inputs full_range
  end.

(** [PhiInstr::InferRange]. *)
Definition Phi_InferRange (inputs : list Z) (dominates_phi : Z -> bool) (full_range : Range) : range_result Range :=
  range ← join_inputs (mkRange kUnknown kUnknown) inputs full_range;
  lo ← EnsureAcyclicSymbol dominates_phi (min_ range) MinSmi;
  hi ← EnsureAcyclicSymbol dominates_phi (max_ range) MaxSmi;
  Ok (mkRange lo hi).

(** The other instructions, by the ranges of their inputs; none leaves the range unknown. *)
Definition Constraint_InferRange (value_range : option Range) (constraint : Range) : range_result (option Range) :=
  match value_range with
  | None => Ok None
  | Some vr =>
      if RangeBoundary.IsUnknown (min_ vr) then Ok None
      else r ← Intersect g vr constraint; u ← IsUnsatisfiable g r; Ok (if (u : bool) then None else Some r)
  end.
Definition CheckBound_InferRange (length_range index_range : option Range) : range_result (option Range) :=
  hi ← ConstantMax_in g length_range Int64;
  let checked_range := mkRange (FromConstant 0) hi in
  result ← (match index_range with
            | Some ir => if RangeBoundary.IsUnknown (min_ ir) then Ok checked_range else Intersect g ir checked_range
            | None => Ok checked_range
            end);
  u ← IsUnsatisfiable g result; Ok (if (u : bool) then None else Some result).

(** [InferRangeHelper]: the range and, for an operation that does not truncate, whether it
    can overflow. *)
Definition InferRangeHelper (op : Token) (rep : Representation) (truncating : bool) (left_range right_range : option Range)
    (left_defn : option Z) : range_result (option (Range * option bool)) :=
  match left_range, right_range with
  | Some l, Some r =>
      if RangeBoundary.IsUnknown (min_ l) || RangeBoundary.IsUnknown (min_ r) then Ok None
      else
        range ← BinaryOp g op l r left_defn;
        _ ← RASSERT (negb (RangeBoundary.IsUnknown (min_ range)));
        can_overflow ← (if negb truncating then f ← Fits g (Some range) rep kTaggedIsSmi; Ok (Some (negb (f : bool)))
                        else Ok None);
        full ← Full rep kTaggedIsSmi;
        range ← Range.Clamp range full;
        Ok (Some (range, can_overflow))
  | _, _ => Ok None
  end.

(** [CheckRangeForRepresentation], which ASSERT_VALID_RANGE_FOR_REPRESENTATION calls. *)
Definition CheckRangeForRepresentation (range : Range) (rep : Representation) : range_result unit :=
  other ← Full rep kTaggedNotAllowed;
  within ← (if RangeBoundary.IsUnknown (min_ range) then Ok false else IsWithin_range g range other);
  RASSERT within.
Definition UnboxInteger_InferRange (unbox_int64 : bool) (value : Z) (rep : Representation) : range_result Range :=
  if unbox_int64 && length_load (defn g value) then v ← FromDefinition g value 0; Ok (mkRange v v)
  else
    to_range ← Full rep kTaggedNotAllowed;
    range ← match range_ (defn g value) with
            | Some vr =>
                if RangeBoundary.IsUnknown (min_ vr) then Ok to_range
                else
                  within ← IsWithin_range g vr to_range;
                  if (within : bool) then Ok vr
                  else _ ← RASSERT (match rep with kUnboxedInt32 | kUnboxedUint32 => true | _ => false end); Ok to_range
            | None => Ok to_range
            end;
    _ ← CheckRangeForRepresentation range rep;
    Ok range.
Definition IntConverter_InferRange (from to : Representation) (value_range : option Range) : range_result Range :=
  _ ← RASSERT (match to with kUntagged => false | _ => true end);
  _ ← RASSERT (IsUnboxedInteger to);
  _ ← RASSERT (match from with kUntagged => true | _ => IsUnboxedInteger from end);
  to_range ← Full to kTaggedNotAllowed;
  range ← match from, value_range with
          | kUntagged, Some _ => Err RangeAssertion
          | _, None => Ok to_range
          | _, Some vr =>
              if RangeBoundary.IsUnknown (min_ vr) then Ok to_range
              else if (ValueSize from <? ValueSize to) && (negb (IsUnsignedInteger to) || IsUnsignedInteger from) then Ok vr
              else
                full_from ← Full from kTaggedNotAllowed;
                common_range ← Intersect g full_from to_range;
                within ← IsWithin_range g vr common_range;
                Ok (if (within : bool) then vr else to_range)
          end;
  _ ← CheckRangeForRepresentation range to;
  Ok range.

(** [IsRedundantBasedOnRangeInformation]: whether an index needs no check against a length.
    First the range of the index and the index as a boundary, then the comparison. *)
Definition index_known (index : Z) : range_result (option (Range * RangeBoundary)) :=
  match range_ (defn g index), smi_bound (defn g index) with
  | Some r, _ => m ← FromDefinition g index 0; Ok (Some (r, m))
  | None, Some c => Ok (Some (mkRange (FromConstant c) (FromConstant c), FromConstant c))
  | None, None => Ok None
  end.
Definition index_below (index_range : Range) (max : RangeBoundary) (length : Z) : range_result bool :=
  lo ← ConstantMinSmi g (Some index_range);
  if lo <? 0 then Ok false
  else
    max_upper ← UpperBound g max;
    array_length ← FromDefinition g length 0;
    length_lower ← LowerBound g array_length;
    if OverflowedSmi max_upper || OverflowedSmi length_lower then Ok false
    else
      u ← ConstantValue max_upper; l ← ConstantValue length_lower;
      if u <? l then Ok true
      else
        canonical_length ← CanonicalizeBoundary g array_length MaxInt64;
        if OverflowedSmi canonical_length then Ok false
        else
          r ← compare_loop g (comparison_rounds g) (CanonicalizeMaxBoundary g) (CanonicalizeMinBoundary g) max canonical_length;
          Ok (match r with Some (max, len) => offset max <? offset len | None => false end).
Definition IsRedundantBasedOnRangeInformation (index length : Z) : range_result bool :=
  match smi_bound (defn g index), smi_bound (defn g length) with
  | Some index_val, Some length_val => Ok ((0 <=? index_val) && (index_val <? length_val))
  | _, _ =>
      known ← index_known index;
      match known with
      | None => Ok false
      | Some (index_range, max) => index_below index_range max length
      end
  end.
End Analysis.
End RangeAnalysis.
