(* ===== verification/RangeAnalysisProofs.v ===== *)
(** * Soundness of the ranges: what a range says of a value is true

    A valuation gives every definition the value it has when the program runs.  It fits a
    graph when the ranges of the definitions contain their values and the definitions mean
    what their instructions compute; the ranks of the definitions say that the symbols of a
    range and the inputs of an instruction come before it. *)

From S2P Require Import Prelude Utils RangeAnalysis.
Import RangeBoundary RepresentationUtils.

Definition smi (z : Z) : Prop := kSmiMin <= z <= kSmiMax.

(** The value of a boundary, and the values of a range. *)
Definition eval (val : Z -> Z) (b : RangeBoundary) : Z :=
  match b with kConstant v => v | kSymbol d o => val d + o | kUnknown => 0 end.
Definition contains (val : Z -> Z) (r : Range) (x : Z) : Prop := eval val (min_ r) <= x <= eval val (max_ r).

(** A boundary that is known: a 64-bit constant, or a Smi with an offset that cannot wrap. *)
Definition boundary_ok (g : FlowGraph) (val : Z -> Z) (rank : Z -> nat) (b : RangeBoundary) : Prop :=
  match b with
  | kConstant v => is_s 64 v
  | kSymbol d o => smi (val d) /\ IsValidOffsetForSymbolicRangeBoundary o = true /\ (rank d < definitions g)%nat
  | kUnknown => False
  end.
Definition range_ok (g : FlowGraph) (val : Z -> Z) (rank : Z -> nat) (r : Range) : Prop :=
  boundary_ok g val rank (min_ r) /\ boundary_ok g val rank (max_ r).
Definition before (rank : Z -> nat) (d : Z) (b : RangeBoundary) : Prop :=
  match b with kSymbol s _ => (rank s < rank d)%nat | _ => True end.

(** What an instruction says of the value of its definition. *)
Definition kind_ok (g : FlowGraph) (val : Z -> Z) (rank : Z -> nat) (d : Z) : Prop :=
  let operand v := (rank v < rank d)%nat /\ smi (val v) in
  match kind_ (defn g d) with
  | Constant v => val d = v
  | Constraint v | UnboxInt64 v => (rank v < rank d)%nat /\ val d = val v
  | BinarySmiOp op l r =>
      let constant v := match smi_constant g v with Some c => smi c /\ val v = c | None => True end in
      operand l /\ operand r /\ constant l /\ constant r /\
      match op with kADD => val d = val l + val r | kSUB => val d = val l - val r | _ => True end
  | OtherDefinition => True
  end.

Record valuation_ok (g : FlowGraph) (val : Z -> Z) (rank : Z -> nat) : Prop := {
  value_in_range d r : range_ (defn g d) = Some r -> (rank d < definitions g)%nat ->
    range_ok g val rank r /\ before rank d (min_ r) /\ before rank d (max_ r) /\ contains val r (val d);
  value_of_kind d : (rank d < definitions g)%nat -> kind_ok g val rank d;
  value_of_equal a b : equal_instructions g a b = true -> val a = val b;
  value_of_bound d c : smi_bound (defn g d) = Some c -> val d = c }.

(** The operations of the language on 64-bit integers; none when they throw. *)
Definition apply_op (op : Token) (x y : Z) : option Z :=
  match op with
  | kADD => Some (s64 (x + y))
  | kSUB => Some (s64 (x - y))
  | kMUL => Some (s64 (x * y))
  | kTRUNCDIV => if y =? 0 then None else Some (s64 (Z.quot x y))
  | kMOD => if y =? 0 then None else Some (x mod Z.abs y)
  | kSHL => if y <? 0 then None else Some (if 64 <=? y then 0 else s64 (x ≪ y))
  | kSHR => if y <? 0 then None else Some (x / 2 ^ y)
  | kUSHR => if y <? 0 then None else Some (s64 (u64 x / 2 ^ y))
  | kBIT_AND => Some (x .& y)
  | kBIT_OR => Some (x .| y)
  | kBIT_XOR => Some (x .^ y)
  | _ => None
  end.

(** ** Constants *)

Module RangeFacts.

Ltac run H := rewrite H; cbn [mbind result_bind].

Lemma Minimum_min x y : Minimum x y = Z.min x y.
Proof. unfold Minimum. destruct (Z.ltb_spec x y); lia. Qed.
Lemma Maximum_max x y : Maximum x y = Z.max x y.
Proof. unfold Maximum. destruct (Z.ltb_spec y x); lia. Qed.
Lemma abs_saturated x : is_s 64 x -> AbsWithSaturation x = Z.min (Z.abs x) kMaxInt64.
Proof.
  unfold is_s, AbsWithSaturation, kMinInt64, kMaxInt64. intros. destruct (Z.ltb_spec x 0); [|lia].
  destruct (Z.eqb_spec x (- 2 ^ 63)); lia.
Qed.
Lemma add_overflow a b : is_s 64 a -> is_s 64 b -> WillAddOverflow a b = false <-> is_s 64 (a + b).
Proof.
  unfold WillAddOverflow, is_s, kMinInt64, kMaxInt64. intros. rewrite orb_false_iff, !andb_false_iff, !Z.ltb_ge. lia.
Qed.
Lemma sub_overflow a b : is_s 64 a -> is_s 64 b -> WillSubOverflow a b = false <-> is_s 64 (a - b).
Proof.
  unfold WillSubOverflow, is_s, kMinInt64, kMaxInt64. intros. rewrite orb_false_iff, !andb_false_iff, !Z.ltb_ge. lia.
Qed.
Lemma IsSmi_smi v : IsSmi v = true <-> smi v.
Proof.
  unfold IsSmi, IsInt. change (ct_signed int64_t) with true. change (ct_bits int64_t <=? kSmiBits + 1) with false. cbv zeta iota.
  rewrite andb_true_iff, Z.leb_le, Z.ltb_lt. change (1 ≪ (kSmiBits + 1 - 1)) with (kSmiMax + 1). unfold smi.
  change (- (kSmiMax + 1)) with kSmiMin. lia.
Qed.
Lemma valid_offset o : IsValidOffsetForSymbolicRangeBoundary o = true <-> - 2 ^ 62 <= o <= 2 ^ 62.
Proof.
  unfold IsValidOffsetForSymbolicRangeBoundary, kMaxInt64, kSmiMax, kMinInt64, kSmiMin, kSmiBits.
  destruct (Z.ltb_spec (2 ^ 63 - 1 - (2 ^ (64 - 2) - 1)) o), (Z.ltb_spec o (- 2 ^ 63 - - 2 ^ (64 - 2))); cbn in *; lia.
Qed.
Lemma smi_range z : smi z <-> - 2 ^ 62 <= z <= 2 ^ 62 - 1.
Proof. done. Qed.
Lemma s64_id z : is_s 64 z -> s64 z = z.
Proof. intros. by apply swrap_small. Qed.

Definition clamp (lo hi v : Z) : Z := if v <=? lo then lo else if hi <=? v then hi else v.
Definition full (lo hi : Z) : Range := mkRange (kConstant lo) (kConstant hi).
Lemma Clamp_constant v lo hi : RangeBoundary.Clamp (kConstant v) (full lo hi) = Ok (kConstant (clamp lo hi v)).
Proof. unfold RangeBoundary.Clamp, clamp, full. cbn. by repeat case_match. Qed.
Lemma clamp_spec lo hi v : lo <= hi -> lo <= clamp lo hi v <= hi /\ (v <= hi -> v <= clamp lo hi v) /\ (lo <= v -> clamp lo hi v <= v).
Proof. intros. unfold clamp. destruct (Z.leb_spec v lo), (Z.leb_spec hi v); lia. Qed.
Lemma clamp_id lo hi v : lo <= v <= hi -> clamp lo hi v = v.
Proof. intros. unfold clamp. destruct (Z.leb_spec v lo), (Z.leb_spec hi v); lia. Qed.


(** ** Bits *)

Lemma land_between x y : 0 <= y -> 0 <= x .& y <= y.
Proof.
  intros Hy. split; [apply Z.land_nonneg; by right|].
  assert (E : Z.ldiff (x .& y) y = 0) by (apply Z.bits_inj'; intros; rewrite Z.ldiff_spec, Z.land_spec, Z.bits_0; by destruct (Z.testbit x n), (Z.testbit y n)).
  pose proof (Z.sub_nocarry_ldiff _ _ E) as Hs. assert (0 <= Z.ldiff y (x .& y)) by (apply Z.ldiff_nonneg; by left). lia.
Qed.

(** Numbers of [b] bits and a sign. *)
Definition fits_bits (b z : Z) : Prop := - 2 ^ b <= z < 2 ^ b.
Lemma fits_shiftr b z : 0 <= b -> fits_bits b z <-> z ≫ b = 0 \/ z ≫ b = -1.
Proof.
  intros Hb. unfold fits_bits. rewrite Z.shiftr_div_pow2 by lia. pose proof (pow2_pos b Hb).
  pose proof (Z.div_mod z (2 ^ b) ltac:(lia)). pose proof (Z.mod_pos_bound z (2 ^ b) ltac:(lia)).
  split.
  - intros. assert (-1 <= z / 2 ^ b < 1) by (split; [apply Z.div_le_lower_bound|apply Z.div_lt_upper_bound]; lia). lia.
  - intros [E|E]; rewrite E in *; lia.
Qed.
Lemma fits_land b x y : 0 <= b -> fits_bits b x -> fits_bits b y -> fits_bits b (x .& y).
Proof. intros Hb. rewrite !fits_shiftr, Z.shiftr_land by done. intros [-> | ->] [-> | ->]; vm_compute; tauto. Qed.
Lemma fits_lor b x y : 0 <= b -> fits_bits b x -> fits_bits b y -> fits_bits b (x .| y).
Proof. intros Hb. rewrite !fits_shiftr, Z.shiftr_lor by done. intros [-> | ->] [-> | ->]; vm_compute; tauto. Qed.
Lemma fits_lxor b x y : 0 <= b -> fits_bits b x -> fits_bits b y -> fits_bits b (x .^ y).
Proof. intros Hb. rewrite !fits_shiftr, Z.shiftr_lxor by done. intros [-> | ->] [-> | ->]; vm_compute; tauto. Qed.

(** The binary search of [HighestBit]. *)
Lemma halve_log n x r v : 0 <= n -> 0 <= r -> 0 < x -> x = v ≫ r ->
  let '(x', r') := (if negb (x ≫ n =? 0) then (x ≫ n, r + n) else (x, r)) in
  0 < x' /\ 0 <= r' /\ x' = v ≫ r' /\ (x < 2 ^ (2 * n) -> x' < 2 ^ n).
Proof.
  intros Hn Hr Hx ->. pose proof (pow2_pos n Hn). rewrite !Z.shiftr_shiftr by lia.
  destruct (Z.eqb_spec (v ≫ (r + n)) 0) as [E|E]; cbn [negb].
  - split_and!; [done|done|done|]. intros _. rewrite <- Z.shiftr_shiftr, (Z.shiftr_div_pow2 _ n) in E by lia. apply Z.div_small_iff in E; lia.
  - assert (0 <= v ≫ (r + n)) by (rewrite <- Z.shiftr_shiftr by lia; apply Z.shiftr_nonneg; lia).
    split_and!; [lia|lia|done|]. intros Hlt. rewrite <- Z.shiftr_shiftr, (Z.shiftr_div_pow2 _ n) by lia.
    apply Z.div_lt_upper_bound; [lia|]. rewrite <- Z.pow_add_r by lia. by replace (n + n) with (2 * n) by lia.
Qed.
Lemma HighestBit_log v : 0 < v < 2 ^ 63 -> 0 <= HighestBit v <= 62 /\ v < 2 ^ (HighestBit v + 1).
Proof.
  intros Hv. unfold HighestBit. rewrite (proj2 (Z.ltb_lt 0 v)) by lia. rewrite uwrap_small by (unfold is_u; lia). cbv zeta.
  pose proof (halve_log 32 v 0 v ltac:(lia) ltac:(lia) ltac:(lia) ltac:(by rewrite Z.shiftr_0_r)) as H1.
  destruct (if negb (v ≫ 32 =? 0) then (v ≫ 32, 0 + 32) else (v, 0)) as [x1 r1].
  destruct H1 as (P1 & R1 & E1 & B1). specialize (B1 ltac:(lia)).
  pose proof (halve_log 16 x1 r1 v ltac:(lia) R1 P1 E1) as H2.
  destruct (if negb (x1 ≫ 16 =? 0) then (x1 ≫ 16, r1 + 16) else (x1, r1)) as [x2 r2].
  destruct H2 as (P2 & R2 & E2 & B2). specialize (B2 B1).
  pose proof (halve_log 8 x2 r2 v ltac:(lia) R2 P2 E2) as H3.
  destruct (if negb (x2 ≫ 8 =? 0) then (x2 ≫ 8, r2 + 8) else (x2, r2)) as [x3 r3].
  destruct H3 as (P3 & R3 & E3 & B3). specialize (B3 B2).
  pose proof (halve_log 4 x3 r3 v ltac:(lia) R3 P3 E3) as H4.
  destruct (if negb (x3 ≫ 4 =? 0) then (x3 ≫ 4, r3 + 4) else (x3, r3)) as [x4 r4].
  destruct H4 as (P4 & R4 & E4 & B4). specialize (B4 B3).
  pose proof (halve_log 2 x4 r4 v ltac:(lia) R4 P4 E4) as H5.
  destruct (if negb (x4 ≫ 2 =? 0) then (x4 ≫ 2, r4 + 2) else (x4, r4)) as [x5 r5].
  destruct H5 as (P5 & R5 & E5 & B5). specialize (B5 B4). change (2 ^ 2) with 4 in B5.
  assert (Hup : forall q, 0 <= q -> v ≫ (r5 + q) = 0 -> v < 2 ^ (r5 + q)).
  { intros q Hq E. rewrite Z.shiftr_div_pow2 in E by lia. apply Z.div_small_iff in E; [lia|apply Z.pow_nonzero; lia]. }
  assert (Hlow : forall q, 0 <= q -> 0 < v ≫ (r5 + q) -> r5 + q <= 62).
  { intros q Hq E. destruct (Z.le_gt_cases (r5 + q) 62); [done|]. exfalso.
    rewrite Z.shiftr_div_pow2 in E by lia. rewrite Z.div_small in E; [lia|].
    split; [lia|]. apply Z.lt_le_trans with (2 ^ 63); [lia|apply Z.pow_le_mono_r; lia]. }
  assert (Ex : x5 ≫ 1 = v ≫ (r5 + 1)) by (rewrite E5; apply Z.shiftr_shiftr; lia).
  rewrite Z.shiftr_div_pow2 in Ex by lia. change (2 ^ 1) with 2 in Ex.
  destruct (Z.ltb_spec 1 x5).
  - assert (x5 / 2 = 1) by (apply Z.le_antisymm; [apply Z.lt_succ_r, Z.div_lt_upper_bound; lia|apply Z.div_le_lower_bound; lia]).
    split; [split; [lia|apply Hlow; lia]|]. replace (r5 + 1 + 1) with (r5 + 2) by lia. apply Hup; [lia|].
    rewrite <- Z.shiftr_shiftr, <- E5, Z.shiftr_div_pow2 by lia. change (2 ^ 2) with 4. apply Z.div_small. lia.
  - replace x5 with 1 in * by lia. split; [split; [lia|]; rewrite <- (Z.add_0_r r5); apply Hlow; [lia|rewrite Z.add_0_r; lia]|].
    apply Hup; [lia|]. by rewrite <- Ex.
Qed.
Lemma BitLength_fits v : is_s 64 v -> 0 <= BitLength v <= 63 /\ fits_bits (BitLength v) v.
Proof.
  intros Hv. unfold BitLength, is_s in *. change (64 - 1) with 63 in *.
  assert (E : v ≫ 63 = if v <? 0 then -1 else 0).
  { rewrite Z.shiftr_div_pow2 by lia. destruct (Z.ltb_spec v 0); [|apply Z.div_small; lia].
    symmetry. apply Z.div_unique with (v + 2 ^ 63); lia. }
  rewrite E. assert (Hx : Z.lxor v (if v <? 0 then -1 else 0) = if v <? 0 then - v - 1 else v).
  { destruct (v <? 0); [rewrite Z.lxor_m1_r; unfold Z.lnot; lia|apply Z.lxor_0_r]. }
  rewrite Hx. set (w := if v <? 0 then - v - 1 else v). assert (Hw : 0 <= w < 2 ^ 63) by (unfold w; destruct (Z.ltb_spec v 0); lia).
  assert (Hfit : forall b, 0 <= b -> w < 2 ^ b -> fits_bits b v) by (unfold w, fits_bits; intros; destruct (Z.ltb_spec v 0); lia).
  destruct (Z.eqb_spec w 0) as [E0|E0]; [split; [lia|]; apply Hfit; [lia|]; rewrite E0; by vm_compute|].
  destruct (HighestBit_log w) as [? ?]; [lia|]. split; [lia|]. apply Hfit; lia.
Qed.

(** ** Shifts by a constant *)

Lemma WillShlOverflow_spec v n : is_s 64 v -> 0 <= n ->
  exists o, WillShlOverflow (kConstant v) n = Ok o /\
    (o = false -> is_s 64 (v * 2 ^ n) /\ (64 <= n -> v = 0) /\ RangeBoundary.Shl (kConstant v) n = Ok (kConstant (v * 2 ^ n))).
Proof.
  intros Hv Hn. unfold RangeBoundary.Shl, WillShlOverflow. cbn [ConstantValue mbind result_bind].
  rewrite (proj2 (Z.leb_le 0 n) Hn). cbn [RASSERT mbind result_bind].
  destruct (Z.eqb_spec v 0) as [->|Hne]; cbn [mbind result_bind]; [by exists false|].
  eexists. split; [reflexivity|]. intros E. rewrite E. cbn. apply orb_false_iff in E as [E1 E2].
  rewrite Z.leb_gt in E1. apply negb_false_iff in E2.
  assert (Hr : is_s 64 (v * 2 ^ n)).
  { unfold IsInt in E2. change (ct_signed int64_t) with true in E2. change (ct_bits int64_t) with 64 in E2. cbv iota in E2.
    destruct (Z.leb_spec 64 (64 - n)).
    - replace n with 0 by lia. by rewrite Z.mul_1_r.
    - cbv zeta in E2. rewrite Z.shiftl_1_l, andb_true_iff, Z.leb_le, Z.ltb_lt in E2. unfold is_s. change (64 - 1) with 63.
      assert (E63 : 2 ^ 63 = 2 ^ (64 - n - 1) * 2 ^ n) by (rewrite <- Z.pow_add_r by lia; f_equal; lia).
      pose proof (pow2_pos n Hn). nia. }
  split; [done|]. split; [lia|]. do 2 f_equal. rewrite Z.shiftl_mul_pow2 by lia.
  rewrite swrap_mul_l. by apply s64_id.
Qed.
Lemma Shr_spec v n : is_s 64 v -> 0 <= n -> RangeBoundary.Shr (kConstant v) n = Ok (kConstant (v / 2 ^ n)).
Proof.
  intros Hv Hn. unfold RangeBoundary.Shr. cbn [ConstantValue mbind result_bind]. rewrite (proj2 (Z.leb_le 0 n) Hn). cbn [RASSERT mbind result_bind].
  do 2 f_equal. destruct (Z.leb_spec n 63); [by apply Z.shiftr_div_pow2|].
  assert (2 ^ 63 <= 2 ^ n) by (apply Z.pow_le_mono_r; lia). unfold is_s in Hv. change (64 - 1) with 63 in Hv.
  destruct (Z.leb_spec 0 v); [symmetry; apply Z.div_small; lia|]. apply Z.div_unique with (v + 2 ^ n); lia.
Qed.
Lemma div_pow_mono a b n m : a <= b -> 0 <= m <= n -> 0 <= b -> a / 2 ^ n <= b / 2 ^ m.
Proof.
  intros Hab Hnm Hb. pose proof (pow2_pos m ltac:(lia)). pose proof (pow2_pos n ltac:(lia)). transitivity (b / 2 ^ n); [by apply Z.div_le_mono|].
  apply Z.div_le_compat_l; [done|]. split; [lia|apply Z.pow_le_mono_r; lia].
Qed.
Lemma div_pow_mono_neg a b n m : a <= b -> 0 <= n <= m -> a <= 0 -> a / 2 ^ n <= b / 2 ^ m.
Proof.
  intros Hab Hnm Hb. pose proof (pow2_pos m ltac:(lia)). pose proof (pow2_pos n ltac:(lia)). transitivity (a / 2 ^ m); [|by apply Z.div_le_mono].
  replace m with (n + (m - n)) by lia. rewrite Z.pow_add_r by lia. rewrite <- Z.div_div by (try apply Z.pow_nonzero; try apply pow2_pos; lia).
  assert (a / 2 ^ n <= 0) by (apply Z.div_le_upper_bound; lia). pose proof (pow2_pos (m - n) ltac:(lia)).
  apply Z.div_le_lower_bound; [lia|]. nia.
Qed.

(** Conversions of numbers in the upper half. *)
Lemma u64_negative z : - 2 ^ 64 <= z < 0 -> u64 z = z + 2 ^ 64.
Proof. intros Hz. unfold uwrap. symmetry. apply Z.mod_unique with (-1); lia. Qed.
Lemma s64_high z : 2 ^ 63 <= z < 2 ^ 64 -> s64 z = z - 2 ^ 64.
Proof. intros Hz. unfold swrap. change (64 - 1) with 63. rewrite <- (Z.mod_unique (z + 2 ^ 63) (2 ^ 64) 1 (z - 2 ^ 63)); lia. Qed.
Section Sound.
Context (g : FlowGraph) (val : Z -> Z) (rank : Z -> nat) (Hv : valuation_ok g val rank).
Local Abbreviation ok := (boundary_ok g val rank).
Local Abbreviation ev := (eval val).

Lemma eval_range b : ok b -> is_s 64 (ev b).
Proof.
  destruct b as [|d o|v]; cbn; [done| |done]. rewrite valid_offset, smi_range. unfold is_s. intros (Hs & Ho & _). lia.
Qed.

Lemma Add_constant a b : is_s 64 a -> is_s 64 b -> is_s 64 (a + b) ->
  RangeBoundary.Add (kConstant a) (kConstant b) = Ok (kConstant (a + b)).
Proof.
  intros Ha Hb Hab. unfold RangeBoundary.Add. cbn. rewrite (proj2 (add_overflow a b Ha Hb) Hab). cbn.
  unfold FromConstant. by rewrite s64_id.
Qed.
Lemma Sub_constant a b : is_s 64 a -> is_s 64 b -> is_s 64 (a - b) ->
  RangeBoundary.Sub (kConstant a) (kConstant b) = Ok (kConstant (a - b)).
Proof.
  intros Ha Hb Hab. unfold RangeBoundary.Sub. cbn. rewrite (proj2 (sub_overflow a b Ha Hb) Hab). cbn.
  unfold FromConstant. by rewrite s64_id.
Qed.

(** Bounds, which follow the symbols to a constant. *)
Lemma lower_rounds n b : ok b -> (forall d o, b = kSymbol d o -> (rank d < n)%nat) ->
  exists c, LowerBound_rounds g n b = Ok (kConstant c) /\ is_s 64 c /\ c <= ev b.
Proof.
  revert b. induction n as [|n IH]; intros b Hb Hn; destruct b as [|d o|v]; try done; try (exists v; split_and!; [done|exact Hb|cbn; lia]).
  - exfalso. specialize (Hn d o eq_refl). lia.
  - destruct Hb as (Hs & Ho & Hd). rewrite valid_offset in Ho. pose proof (proj1 (smi_range _) Hs) as Hs'.
    assert (exists m, constant_min (LowerBound_rounds g n) (range_ (defn g d)) Smi = Ok (kConstant m) /\
              - 2 ^ 62 <= m <= val d) as (m & Em & Hm).
    { unfold constant_min. destruct (range_ (defn g d)) as [r|] eqn:Er; [|exists kSmiMin; split; [done|]; unfold kSmiMin, kSmiBits; lia].
      destruct (value_in_range _ _ _ Hv d r Er Hd) as ((Hmin & _) & Hbef & _ & Hin & _).
      destruct (IH (min_ r) Hmin) as (c & Ec & Hc & Hle).
      { intros s o' Es. rewrite Es in Hbef. cbn in Hbef. specialize (Hn d o eq_refl). lia. }
      run Ec. change Smi with (full kSmiMin kSmiMax). rewrite Clamp_constant.
      pose proof (clamp_spec kSmiMin kSmiMax c ltac:(by vm_compute)). eexists. split; [reflexivity|].
      unfold smi in Hs. change (- 2 ^ 62) with kSmiMin. unfold clamp in *. destruct (c <=? kSmiMin) eqn:E1; [lia|].
      destruct (kSmiMax <=? c) eqn:E2; lia. }
    cbn [LowerBound_rounds]. run Em. exists (m + o). unfold FromConstant.
    rewrite Add_constant by (unfold is_s; lia). split; [done|]. unfold is_s, eval. lia.
Qed.
Lemma upper_rounds n b : ok b -> (forall d o, b = kSymbol d o -> (rank d < n)%nat) ->
  exists c, UpperBound_rounds g n b = Ok (kConstant c) /\ is_s 64 c /\ ev b <= c.
Proof.
  revert b. induction n as [|n IH]; intros b Hb Hn; destruct b as [|d o|v]; try done; try (exists v; split_and!; [done|exact Hb|cbn; lia]).
  - exfalso. specialize (Hn d o eq_refl). lia.
  - destruct Hb as (Hs & Ho & Hd). rewrite valid_offset in Ho. pose proof (proj1 (smi_range _) Hs) as Hs'.
    assert (exists m, constant_max (UpperBound_rounds g n) (range_ (defn g d)) Smi = Ok (kConstant m) /\
              val d <= m <= 2 ^ 62 - 1) as (m & Em & Hm).
    { unfold constant_max. destruct (range_ (defn g d)) as [r|] eqn:Er; [|exists kSmiMax; split; [done|]; unfold kSmiMax, kSmiBits; lia].
      destruct (value_in_range _ _ _ Hv d r Er Hd) as ((_ & Hmax) & _ & Hbef & _ & Hin).
      destruct (IH (max_ r) Hmax) as (c & Ec & Hc & Hle).
      { intros s o' Es. rewrite Es in Hbef. cbn in Hbef. specialize (Hn d o eq_refl). lia. }
      run Ec. change Smi with (full kSmiMin kSmiMax). rewrite Clamp_constant.
      pose proof (clamp_spec kSmiMin kSmiMax c ltac:(by vm_compute)). eexists. split; [reflexivity|].
      unfold smi in Hs. change (2 ^ 62 - 1) with kSmiMax. unfold clamp in *. destruct (c <=? kSmiMin) eqn:E1; [lia|].
      destruct (kSmiMax <=? c) eqn:E2; lia. }
    cbn [UpperBound_rounds]. run Em. exists (m + o). unfold FromConstant.
    rewrite Add_constant by (unfold is_s; lia). split; [done|]. unfold is_s, eval. lia.
Qed.
Lemma lower b : ok b -> exists c, LowerBound g b = Ok (kConstant c) /\ is_s 64 c /\ c <= ev b.
Proof. intros Hb. apply lower_rounds; [done|]. intros d o ->. apply Hb. Qed.
Lemma upper b : ok b -> exists c, UpperBound g b = Ok (kConstant c) /\ is_s 64 c /\ ev b <= c.
Proof. intros Hb. apply upper_rounds; [done|]. intros d o ->. apply Hb. Qed.

(** ** Symbols *)

Lemma from_definition d o : (rank d < definitions g)%nat -> smi (val d) -> IsValidOffsetForSymbolicRangeBoundary o = true ->
  exists b, FromDefinition g d o = Ok b /\ ok b /\ ev b = val d + o /\ (forall e, (rank d < rank e)%nat -> before rank e b).
Proof.
  intros Hd Hs Ho. pose proof (value_of_kind _ _ _ Hv d Hd) as Hk. unfold kind_ok in Hk. unfold FromDefinition.
  assert (Hsym : exists b, (_ ← RASSERT (IsValidOffsetForSymbolicRangeBoundary o); Ok (kSymbol d o)) = Ok b /\ ok b /\
    ev b = val d + o /\ (forall e, (rank d < rank e)%nat -> before rank e b)) by (rewrite Ho; cbn; by exists (kSymbol d o)).
  destruct (kind_ (defn g d)) as [v| | | |]; try exact Hsym.
  subst v. rewrite (proj2 (IsSmi_smi _) Hs). rewrite valid_offset in Ho. rewrite smi_range in Hs.
  exists (kConstant (val d + o)). unfold FromConstant. rewrite s64_id by (unfold is_s; lia). split; [done|]. split; [cbn; unfold is_s; lia|done].
Qed.
Lemma symbolic_add a b : ok a -> ok b ->
  exists s, SymbolicAdd g a b = Ok s /\ forall c, s = Some c -> ok c /\ ev c = ev a + ev b.
Proof.
  intros Ha Hb. assert (Hadd : forall d o v, ok (kSymbol d o) -> is_s 64 v ->
    exists s, (if WillAddOverflow o v then Ok None
      else if negb (IsValidOffsetForSymbolicRangeBoundary (o + v)) then Ok None
      else r ← FromDefinition g d (o + v); Ok (Some r)) = Ok s /\ forall c, s = Some c -> ok c /\ ev c = val d + o + v).
  { intros d o v (Hs & Ho & Hd) Hc. destruct (WillAddOverflow o v); [by exists None|].
    destruct (IsValidOffsetForSymbolicRangeBoundary (o + v)) eqn:Eo; cbn [negb]; [|by exists None].
    destruct (from_definition d (o + v) Hd Hs Eo) as (r & Er & Hr & Ev & _). run Er. exists (Some r).
    split; [done|]. intros c [= <-]. split; [done|]. rewrite Ev. lia. }
  unfold SymbolicAdd. destruct a as [|d o|v], b as [|d' o'|v']; try (by exists None); cbn zeta.
  - apply (Hadd d o v'); done.
  - destruct (Hadd d' o' v Hb Ha) as (s & E & Hs). exists s. split; [exact E|]. intros c Hc. destruct (Hs c Hc) as [? Ev]. split; [done|].
    cbn [eval]. rewrite Ev. lia.
Qed.
Lemma symbolic_sub a b : ok a -> ok b ->
  exists s, SymbolicSub g a b = Ok s /\ forall c, s = Some c -> ok c /\ ev c = ev a - ev b.
Proof.
  intros Ha Hb. unfold SymbolicSub. destruct a as [|d o|v], b as [|d' o'|v']; try (by exists None).
  destruct (WillSubOverflow o v'); [by exists None|]. cbn zeta.
  destruct (IsValidOffsetForSymbolicRangeBoundary (o - v')) eqn:Eo; cbn [negb]; [|by exists None].
  destruct Ha as (Hs & Ho & Hd). destruct (from_definition d (o - v') Hd Hs Eo) as (r & Er & Hr & Ev & _). run Er. exists (Some r).
  split; [done|]. intros c [= <-]. split; [done|]. rewrite Ev. cbn. lia.
Qed.

(** ** Ranges *)

(** The constants between which the values of a range lie. *)
Definition bounds (r : Range) (l u : Z) : Prop :=
  LowerBound g (min_ r) = Ok (kConstant l) /\ UpperBound g (max_ r) = Ok (kConstant u) /\ is_s 64 l /\ is_s 64 u /\
  l <= ev (min_ r) /\ ev (max_ r) <= u.
Lemma range_bounds r : range_ok g val rank r -> exists l u, bounds r l u.
Proof.
  intros [Hmin Hmax]. destruct (lower _ Hmin) as (l & ? & ? & ?), (upper _ Hmax) as (u & ? & ? & ?). by exists l, u.
Qed.
Lemma bounds_contain r l u x : bounds r l u -> contains val r x -> l <= x <= u.
Proof. unfold bounds, contains. intros (_ & _ & _ & _ & Hl & Hu) Hx. lia. Qed.

Lemma clamp_64 v : is_s 64 v -> clamp kMinInt64 kMaxInt64 v = v.
Proof. unfold is_s, kMinInt64, kMaxInt64. intros. apply clamp_id. lia. Qed.
Lemma ConstantMin_bounds r l u : bounds r l u -> Range.ConstantMin g r = Ok l.
Proof.
  intros (El & _ & Hl & _). unfold Range.ConstantMin, Range.ConstantMin_in, constant_min. run El.
  change Int64 with (full kMinInt64 kMaxInt64). rewrite Clamp_constant. cbn. by rewrite clamp_64.
Qed.
Lemma ConstantMax_bounds r l u : bounds r l u -> Range.ConstantMax g r = Ok u.
Proof.
  intros (_ & Eu & _ & Hu & _). unfold Range.ConstantMax, Range.ConstantMax_in, constant_max. run Eu.
  change Int64 with (full kMinInt64 kMaxInt64). rewrite Clamp_constant. cbn. by rewrite clamp_64.
Qed.
Lemma OnlyGreater_bounds r l u v : bounds r l u -> Range.OnlyGreaterThanOrEqualTo g r v = Ok (v <=? l).
Proof. intros (El & _). unfold Range.OnlyGreaterThanOrEqualTo. by run El. Qed.
Lemma OnlyLess_bounds r l u v : bounds r l u -> Range.OnlyLessThanOrEqualTo g r v = Ok (u <=? v).
Proof. intros (_ & Eu & _). unfold Range.OnlyLessThanOrEqualTo. by run Eu. Qed.
Lemma AbsMax_bounds r l u : bounds r l u ->
  Range.ConstantAbsMax g r = Ok (Z.max (Z.min (Z.abs l) kMaxInt64) (Z.min (Z.abs u) kMaxInt64)).
Proof.
  intros Hb. unfold Range.ConstantAbsMax. run (ConstantMin_bounds _ _ _ Hb). run (ConstantMax_bounds _ _ _ Hb).
  destruct Hb as (_ & _ & Hl & Hu & _). by rewrite Maximum_max, !abs_saturated.
Qed.
Lemma AbsMin_bounds r l u : bounds r l u ->
  Range.ConstantAbsMin g r = Ok (Z.min (Z.min (Z.abs l) kMaxInt64) (Z.min (Z.abs u) kMaxInt64)).
Proof.
  intros Hb. unfold Range.ConstantAbsMin. run (ConstantMin_bounds _ _ _ Hb). run (ConstantMax_bounds _ _ _ Hb).
  destruct Hb as (_ & _ & Hl & Hu & _). by rewrite Minimum_min, !abs_saturated.
Qed.

(** A result with constant boundaries around a value. *)
Definition around (z : Z) (r : range_result Range) : Prop :=
  exists lo hi, r = Ok (full lo hi) /\ is_s 64 lo /\ is_s 64 hi /\ lo <= z <= hi.
Lemma around_full z lo hi : is_s 64 lo -> is_s 64 hi -> lo <= z <= hi -> around z (Ok (full lo hi)).
Proof. intros. by exists lo, hi. Qed.
Lemma around_whole z : is_s 64 z -> around z (Ok Range.whole).
Proof.
  intros Hz. change Range.whole with (full kMinInt64 kMaxInt64). unfold is_s, kMinInt64, kMaxInt64 in *. apply around_full; unfold is_s; lia.
Qed.

(** Absolute values of what lies between two numbers. *)
Inductive abs_spec (l u x : Z) : Z -> Z -> Prop :=
  AbsSpec m n : (m <= 2 ^ 62 -> Z.abs x <= m /\ ((0 <= l \/ u <= 0) -> 0 <= n <= Z.abs x)) -> 0 <= m -> 0 <= n -> abs_spec l u x m n.
Lemma abs_max_small l u x : l <= x <= u ->
  abs_spec l u x (Z.max (Z.min (Z.abs l) kMaxInt64) (Z.min (Z.abs u) kMaxInt64)) (Z.min (Z.min (Z.abs l) kMaxInt64) (Z.min (Z.abs u) kMaxInt64)).
Proof. intros Hx. unfold kMaxInt64. split; [|lia..]. intros Hm. split; [lia|]. intros Hs. lia. Qed.
Lemma product_bounds m1 m2 x y : 0 <= m1 -> 0 <= m2 -> Z.abs x <= m1 -> Z.abs y <= m2 -> m1 = 0 \/ m2 <= Z.quot kMaxInt64 m1 ->
  0 <= m1 * m2 <= 2 ^ 63 - 1 /\ - (m1 * m2) <= x * y <= m1 * m2.
Proof.
  intros H1 H2 Hx Hy Hm. split; [|nia]. split; [nia|]. destruct (Z.eq_dec m1 0) as [->|Hne]; [lia|]. destruct Hm as [Hm|Hm]; [lia|].
  rewrite Z.quot_div_nonneg in Hm by (unfold kMaxInt64; lia). pose proof (Z.mul_div_le kMaxInt64 m1 ltac:(lia)).
  unfold kMaxInt64 in *. nia.
Qed.

Section Operands.
Context (L R : Range) (l1 u1 l2 u2 x y : Z) (HL : bounds L l1 u1) (HR : bounds R l2 u2) (Hx : l1 <= x <= u1) (Hy : l2 <= y <= u2).

Lemma operand_ranges : is_s 64 l1 /\ is_s 64 u1 /\ is_s 64 l2 /\ is_s 64 u2 /\ is_s 64 x /\ is_s 64 y.
Proof. destruct HL as (_ & _ & ? & ? & _), HR as (_ & _ & ? & ? & _). unfold is_s in *. lia. Qed.

Lemma Mul_sound : around (s64 (x * y)) (Range.Mul g L R).
Proof.
  destruct operand_ranges as (H1 & H2 & H3 & H4 & H5 & H6).
  unfold Range.Mul. run (AbsMax_bounds _ _ _ HL). run (AbsMax_bounds _ _ _ HR).
  unfold Range.OnlyPositiveOrZero, Range.OnlyNegativeOrZero.
  rewrite (OnlyGreater_bounds _ _ _ 0 HL), (OnlyLess_bounds _ _ _ 0 HL). cbn [mbind result_bind].
  rewrite (OnlyGreater_bounds _ _ _ 0 HR), (OnlyLess_bounds _ _ _ 0 HR).
  rewrite (AbsMin_bounds _ _ _ HL), (AbsMin_bounds _ _ _ HR). cbn [mbind result_bind].
  destruct (abs_max_small l1 u1 x) as [m1 n1 E1 Hx1 Hn1]; [done|]. destruct (abs_max_small l2 u2 y) as [m2 n2 E2 Hy1 Hn2]; [done|].
  destruct (_ && _) eqn:E; [|apply around_whole, swrap_range; lia].
  rewrite !andb_true_iff, orb_true_iff, !Z.leb_le, Z.eqb_eq in E. destruct E as [[Em1 Em2] E3].
  change (- kSmiMin) with (2 ^ 62) in *. destruct (E1 Em1) as (Hx2 & Hn3), (E2 Em2) as (Hy2 & Hn4).
  destruct (product_bounds m1 m2 x y) as (Hm & Hxy); [done..|].
  rewrite (s64_id (x * y)), (s64_id (m1 * m2)) by (unfold is_s; lia).
  assert (Hsame : (0 <= l1 \/ u1 <= 0) -> (0 <= l2 \/ u2 <= 0) -> 0 <= x * y ->
    around (x * y) (Ok (mkRange (FromConstant (s64 (n1 * n2))) (FromConstant (m1 * m2))))).
  { intros Hc1 Hc2 Hpos. specialize (Hn3 Hc1). specialize (Hn4 Hc2).
    assert (0 <= n1 * n2 <= x * y) by nia. rewrite s64_id by (unfold is_s; lia). apply around_full; unfold is_s; lia. }
  assert (Hmixed : around (x * y) (Ok (mkRange (FromConstant (- (m1 * m2))) (FromConstant (m1 * m2))))) by (apply around_full; unfold is_s; lia).
  destruct (Z.leb_spec 0 l1), (Z.leb_spec 0 l2), (Z.leb_spec u1 0), (Z.leb_spec u2 0); cbn [mbind result_bind];
    try exact Hmixed; (apply Hsame; [lia..|nia]).
Qed.

Lemma TruncDiv_sound : y <> 0 -> around (s64 (Z.quot x y)) (Range.TruncDiv g L R).
Proof.
  intros Hy0. destruct operand_ranges as (H1 & H2 & H3 & H4 & H5 & H6).
  unfold Range.TruncDiv. run (OnlyGreater_bounds _ _ _ 0 HL).
  assert (Hw : around (s64 (Z.quot x y)) (Ok Range.whole)) by (apply around_whole, swrap_range; lia).
  destruct (Z.leb_spec 0 l1); [|exact Hw]. run (OnlyGreater_bounds _ _ _ 1 HR). destruct (Z.leb_spec 1 l2); [|exact Hw].
  run (AbsMax_bounds _ _ _ HL). run (AbsMin_bounds _ _ _ HL). run (AbsMax_bounds _ _ _ HR). run (AbsMin_bounds _ _ _ HR).
  unfold kMaxInt64, is_s in *.
  replace (Z.max (Z.min (Z.abs l1) _) _) with u1 by lia. replace (Z.min (Z.min (Z.abs l1) _) _) with l1 by lia.
  replace (Z.max (Z.min (Z.abs l2) _) _) with u2 by lia. replace (Z.min (Z.min (Z.abs l2) _) _) with l2 by lia.
  rewrite !Z.quot_div_nonneg by lia.
  assert (l1 / u2 <= x / y) by (transitivity (x / u2); [apply Z.div_le_mono; lia|apply Z.div_le_compat_l; lia]).
  assert (x / y <= u1 / l2) by (transitivity (u1 / y); [apply Z.div_le_mono; lia|apply Z.div_le_compat_l; lia]).
  assert (0 <= l1 / u2) by (apply Z.div_pos; lia).
  assert (u1 / l2 <= u1) by (apply Z.div_le_upper_bound; nia).
  rewrite s64_id by (unfold is_s; lia). apply around_full; unfold is_s; lia.
Qed.

Lemma TruncDiv_zero : y = 0 -> around 0 (Range.TruncDiv g L R).
Proof.
  intros Hy0. unfold Range.TruncDiv. run (OnlyGreater_bounds _ _ _ 0 HL).
  assert (Hw : around 0 (Ok Range.whole)) by (apply around_whole; by vm_compute).
  destruct (Z.leb_spec 0 l1); [|exact Hw]. run (OnlyGreater_bounds _ _ _ 1 HR). destruct (Z.leb_spec 1 l2); [lia|exact Hw].
Qed.

Lemma Mod_sound : (y <> 0 -> around (x mod Z.abs y) (Range.Mod g R)) /\ around 0 (Range.Mod g R).
Proof.
  destruct operand_ranges as (H1 & H2 & H3 & H4 & H5 & H6).
  unfold Range.Mod. run (ConstantMin_bounds _ _ _ HR). rewrite (AbsMax_bounds _ _ _ HR).
  assert (Hmod : y <> 0 -> 0 <= x mod Z.abs y < Z.abs y) by (intros; apply Z.mod_pos_bound; lia).
  unfold kMinInt64, kMaxInt64, is_s in *. destruct (Z.eqb_spec l2 (- 2 ^ 63)); cbn [negb mbind result_bind].
  - split; [intros Hy0; specialize (Hmod Hy0)|]; apply around_full; unfold is_s; lia.
  - rewrite Maximum_max. split; [intros Hy0; specialize (Hmod Hy0)|]; apply around_full; unfold is_s; lia.
Qed.

(** A shift count that is not negative. *)
Section Shift.
Context (n : Z) (Hn : Z.max l2 0 <= n <= Z.max u2 0).

Lemma Shl_sound : around (if 64 <=? n then 0 else s64 (x ≪ n)) (Range.Shl g L R).
Proof.
  destruct operand_ranges as (H1 & H2 & H3 & H4 & H5 & H6).
  unfold Range.Shl. run (ConstantMax_bounds _ _ _ HL). run (ConstantMin_bounds _ _ _ HL). run (ConstantMax_bounds _ _ _ HR). run (ConstantMin_bounds _ _ _ HR).
  rewrite !Maximum_max. set (rmin := Z.max l2 0) in *. set (rmax := Z.max u2 0) in *.
  set (a1 := if 0 <? l1 then rmin else rmax). set (a2 := if 0 <? u1 then rmax else rmin).
  assert (Ha1 : 0 <= a1) by (unfold a1; case_match; lia). assert (Ha2 : 0 <= a2) by (unfold a2; case_match; lia).
  destruct (WillShlOverflow_spec l1 a1) as (o1 & E1 & S1); [done..|]. destruct (WillShlOverflow_spec u1 a2) as (o2 & E2 & S2); [done..|].
  run E1. run E2. destruct o1; [apply around_whole; case_match; [by vm_compute|apply swrap_range; lia]|].
  destruct o2; [apply around_whole; case_match; [by vm_compute|apply swrap_range; lia]|].
  destruct (S1 eq_refl) as (R1 & Z1 & F1), (S2 eq_refl) as (R2 & Z2 & F2). cbn [orb]. run F1. run F2.
  assert (Hle : l1 * 2 ^ a1 <= x * 2 ^ n /\ x * 2 ^ n <= u1 * 2 ^ a2).
  { pose proof (pow2_pos n ltac:(lia)). unfold a1, a2.
    assert (2 ^ rmin <= 2 ^ n) by (apply Z.pow_le_mono_r; lia). assert (2 ^ n <= 2 ^ rmax) by (apply Z.pow_le_mono_r; lia).
    pose proof (pow2_pos rmin ltac:(lia)). destruct (Z.ltb_spec 0 l1), (Z.ltb_spec 0 u1); split; nia. }
  assert (Hz : (if 64 <=? n then 0 else s64 (x ≪ n)) = x * 2 ^ n).
  { destruct (Z.leb_spec 64 n).
    - unfold a1, a2 in *. destruct (Z.ltb_spec 0 u1); [specialize (Z2 ltac:(lia)); lia|].
      destruct (Z.ltb_spec 0 l1); [lia|]. specialize (Z1 ltac:(lia)). replace x with 0 by lia. done.
    - rewrite Z.shiftl_mul_pow2 by lia. apply s64_id. unfold is_s in *. lia. }
  rewrite Hz. by apply around_full.
Qed.

Lemma Shr_sound : around (x / 2 ^ n) (Range.Shr g L R).
Proof.
  destruct operand_ranges as (H1 & H2 & H3 & H4 & H5 & H6).
  unfold Range.Shr. run (ConstantMax_bounds _ _ _ HL). run (ConstantMin_bounds _ _ _ HL). run (ConstantMax_bounds _ _ _ HR). run (ConstantMin_bounds _ _ _ HR).
  rewrite !Maximum_max. set (rmin := Z.max l2 0) in *. set (rmax := Z.max u2 0) in *.
  rewrite (Shr_spec l1), (Shr_spec u1) by (done || (case_match; lia)). cbn [mbind result_bind].
  assert (Hs : forall v k, is_s 64 v -> 0 <= k -> is_s 64 (v / 2 ^ k)).
  { intros v k Hvk Hk. pose proof (pow2_pos k Hk). unfold is_s in *. change (64 - 1) with 63 in *. split.
    - apply Z.div_le_lower_bound; nia.
    - apply Z.div_lt_upper_bound; nia. }
  apply around_full; [apply Hs; [done|case_match; lia]..|]. split.
  - destruct (Z.ltb_spec 0 l1); [apply div_pow_mono; lia|apply div_pow_mono_neg; lia].
  - destruct (Z.ltb_spec 0 u1); [apply div_pow_mono; lia|apply div_pow_mono_neg; lia].
Qed.

Lemma Ushr_sound : around (s64 (u64 x / 2 ^ n)) (Range.Ushr g L R).
Proof.
  destruct operand_ranges as (H1 & H2 & H3 & H4 & H5 & H6).
  unfold Range.Ushr. run (ConstantMax_bounds _ _ _ HL). run (ConstantMin_bounds _ _ _ HL). run (ConstantMax_bounds _ _ _ HR). run (ConstantMin_bounds _ _ _ HR).
  rewrite !Maximum_max. set (rmin := Z.max l2 0) in *. set (rmax := Z.max u2 0) in *.
  assert (exists ua ub, Range.ConvertRangeToUnsigned l1 u1 = Ok (ua, ub) /\ 0 <= ua <= u64 x /\ u64 x <= ub < 2 ^ 64) as (ua & ub & E & Ha & Hb).
  { unfold Range.ConvertRangeToUnsigned. rewrite (proj2 (Z.leb_le l1 u1)) by lia. cbn [RASSERT mbind result_bind].
    pose proof (uwrap_range 64 x ltac:(lia)). unfold is_s in *. change (64 - 1) with 63 in *.
    destruct (Z.ltb_spec l1 0), (Z.leb_spec 0 u1); cbn [andb]; eexists _, _; (split; [reflexivity|]); try lia.
    - rewrite (u64_negative l1), (u64_negative u1), (u64_negative x) by lia. lia.
    - rewrite !uwrap_small by (unfold is_u; lia). lia. }
  run E. cbn [fst snd].
  assert (Hdiv : forall v k, 0 <= v < 2 ^ 64 -> 0 <= k -> (if 64 <=? k then 0 else v ≫ k) = v / 2 ^ k).
  { intros v k Hv0 Hk. destruct (Z.leb_spec 64 k); [|by apply Z.shiftr_div_pow2]. symmetry. apply Z.div_small.
    split; [lia|]. apply Z.lt_le_trans with (2 ^ 64); [lia|apply Z.pow_le_mono_r; lia]. }
  rewrite !Hdiv by lia. set (z := u64 x / 2 ^ n).
  assert (Hz1 : ua / 2 ^ rmax <= z) by (apply div_pow_mono; lia).
  assert (Hz2 : z <= ub / 2 ^ rmin) by (apply div_pow_mono; lia).
  assert (Hz3 : 0 <= ua / 2 ^ rmax) by (apply Z.div_pos; [lia|apply pow2_pos; lia]).
  assert (Hz4 : ub / 2 ^ rmin < 2 ^ 64) by (apply Z.div_lt_upper_bound; [apply pow2_pos; lia|]; pose proof (pow2_pos rmin ltac:(lia)); nia).
  unfold Range.ConvertRangeToSigned. rewrite (proj2 (Z.leb_le (ua / 2 ^ rmax) (ub / 2 ^ rmin))) by lia. cbn [RASSERT mbind result_bind].
  change (u64 kMaxInt64) with (2 ^ 63 - 1). change (u64 kMinInt64) with (2 ^ 63).
  assert (Hlow : forall v, 0 <= v < 2 ^ 63 -> s64 v = v) by (intros; apply s64_id; unfold is_s; lia).
  assert (Hhigh : forall v, 2 ^ 63 <= v < 2 ^ 64 -> s64 v = v - 2 ^ 64) by (intros; apply s64_high; lia).
  destruct (Z.leb_spec (ua / 2 ^ rmax) (2 ^ 63 - 1)), (Z.leb_spec (2 ^ 63) (ub / 2 ^ rmin)); cbn [andb mbind result_bind fst snd].
  - apply around_whole, swrap_range; lia.
  - rewrite !Hlow by lia. apply around_full; unfold is_s; lia.
  - rewrite !Hhigh by lia. apply around_full; unfold is_s; lia.
  - lia.
Qed.
End Shift.

(** Operations on bits. *)
Lemma BitSize_fits : exists b, 0 <= b <= 63 /\ fits_bits b x /\ fits_bits b y /\
  Range.BitwiseOp g L R = Ok (full (if (0 <=? l1) && (0 <=? l2) then 0 else - 2 ^ b) (2 ^ b - 1)).
Proof.
  destruct operand_ranges as (H1 & H2 & H3 & H4 & H5 & H6).
  destruct (BitLength_fits l1 H1) as [B1 F1], (BitLength_fits u1 H2) as [B2 F2], (BitLength_fits l2 H3) as [B3 F3], (BitLength_fits u2 H4) as [B4 F4].
  unfold Range.BitwiseOp, Range.BitSize.
  rewrite (ConstantMin_bounds _ _ _ HL), (ConstantMax_bounds _ _ _ HL), (ConstantMin_bounds _ _ _ HR), (ConstantMax_bounds _ _ _ HR).
  cbn [mbind result_bind]. rewrite !Maximum_max. unfold Range.IsPositive. run (OnlyGreater_bounds _ _ _ 0 HL). rewrite (OnlyGreater_bounds _ _ _ 0 HR).
  set (b := Z.max (Z.max (BitLength l1) (BitLength u1)) (Z.max (BitLength l2) (BitLength u2))).
  assert (Hb : 0 <= b <= 63) by lia. exists b.
  assert (Hup : forall k, 0 <= k <= b -> 2 ^ k <= 2 ^ b) by (intros; apply Z.pow_le_mono_r; lia).
  unfold fits_bits in *. pose proof (Hup (BitLength l1) ltac:(lia)). pose proof (Hup (BitLength u1) ltac:(lia)).
  pose proof (Hup (BitLength l2) ltac:(lia)). pose proof (Hup (BitLength u2) ltac:(lia)).
  split_and!; try lia. assert (Hb63 : 2 ^ b <= 2 ^ 63) by (apply Z.pow_le_mono_r; lia). pose proof (pow2_pos b ltac:(lia)).
  rewrite Z.shiftl_1_l, (uwrap_small 64 (2 ^ b)) by (unfold is_u; lia).
  rewrite (s64_id (2 ^ b - 1)), (s64_id (- 2 ^ b)) by (unfold is_s; lia).
  by destruct (0 <=? l1), (0 <=? l2).
Qed.
Lemma BitwiseOp_sound z : (forall b, 0 <= b -> fits_bits b x -> fits_bits b y -> fits_bits b z) -> (0 <= x -> 0 <= y -> 0 <= z) ->
  around z (Range.BitwiseOp g L R).
Proof.
  intros Hf Hp. destruct BitSize_fits as (b & Hb & Fx & Fy & ->). specialize (Hf b ltac:(lia) Fx Fy). unfold fits_bits in Hf.
  assert (Hb63 : 2 ^ b <= 2 ^ 63) by (apply Z.pow_le_mono_r; lia). pose proof (pow2_pos b ltac:(lia)).
  destruct (Z.leb_spec 0 l1), (Z.leb_spec 0 l2); cbn [andb]; apply around_full; unfold is_s; try lia.
Qed.
Lemma And_sound : around (x .& y) (Range.And g L R).
Proof.
  destruct operand_ranges as (H1 & H2 & H3 & H4 & H5 & H6).
  unfold Range.And. run (ConstantMin_bounds _ _ _ HR). rewrite (ConstantMax_bounds _ _ _ HR), (ConstantMax_bounds _ _ _ HL), (ConstantMin_bounds _ _ _ HL).
  cbn [mbind result_bind]. destruct (Z.leb_spec 0 l2).
  - pose proof (land_between x y ltac:(lia)). apply around_full; [by vm_compute|done|lia].
  - destruct (Z.leb_spec 0 l1).
    + rewrite Z.land_comm. pose proof (land_between y x ltac:(lia)). apply around_full; [by vm_compute|done|lia].
    + apply BitwiseOp_sound; [intros b; apply fits_land|]. intros Hx0 _. apply Z.land_nonneg. by left.
Qed.
End Operands.

(** Sums and differences. *)
Lemma sum_boundary_ok (P : RangeBoundary -> Prop) s c1 c2 : is_s 64 c1 -> is_s 64 c2 -> (forall c, s = Some c -> P c) ->
  (is_s 64 (c1 + c2) -> P (kConstant (c1 + c2))) ->
  exists o, Range.sum_boundary s (Ok (kConstant c1)) (Ok (kConstant c2)) AddOverflows RangeBoundary.Add = Ok o /\
    forall c, o = Some c -> P c.
Proof.
  intros H1 H2 Hs Hz. unfold Range.sum_boundary. destruct s as [c|]; [exists (Some c); by split|]. cbn [mbind result_bind AddOverflows ConstantValue].
  destruct (WillAddOverflow c1 c2) eqn:E; [by exists None|]. apply add_overflow in E; [|done..].
  rewrite Add_constant by done. exists (Some (kConstant (c1 + c2))). split; [done|]. intros c [= <-]. by apply Hz.
Qed.
Lemma difference_boundary_ok (P : RangeBoundary -> Prop) s c1 c2 : is_s 64 c1 -> is_s 64 c2 -> (forall c, s = Some c -> P c) ->
  (is_s 64 (c1 - c2) -> P (kConstant (c1 - c2))) ->
  exists o, Range.sum_boundary s (Ok (kConstant c1)) (Ok (kConstant c2)) SubOverflows RangeBoundary.Sub = Ok o /\
    forall c, o = Some c -> P c.
Proof.
  intros H1 H2 Hs Hz. unfold Range.sum_boundary. destruct s as [c|]; [exists (Some c); by split|]. cbn [mbind result_bind SubOverflows ConstantValue].
  destruct (WillSubOverflow c1 c2) eqn:E; [by exists None|]. apply sub_overflow in E; [|done..].
  rewrite Sub_constant by done. exists (Some (kConstant (c1 - c2))). split; [done|]. intros c [= <-]. by apply Hz.
Qed.

Lemma known_min r : range_ok g val rank r -> RangeBoundary.IsUnknown (min_ r) = false.
Proof. intros [H _]. by destruct (min_ r). Qed.

(** A result that is known and contains a value. *)
Definition holds (z : Z) (r : range_result Range) : Prop :=
  exists q, r = Ok q /\ range_ok g val rank q /\ contains val q z.
Lemma around_holds z r : around z r -> holds z r.
Proof. intros (lo & hi & -> & ? & ? & ?). by exists (full lo hi). Qed.
Lemma sum_range_holds lo hi z : (forall c, lo = Some c -> ok c /\ ev c <= z) -> (forall c, hi = Some c -> ok c /\ z <= ev c) ->
  holds (s64 z) (Ok (Range.sum_range lo hi)).
Proof.
  intros Hlo Hhi. assert (Hw : holds (s64 z) (Ok Range.whole)) by (apply around_holds, around_whole, swrap_range; lia).
  destruct lo as [lo|], hi as [hi|]; try exact Hw. destruct (Hlo lo eq_refl) as [Ol El], (Hhi hi eq_refl) as [Oh Eh].
  pose proof (eval_range _ Ol). pose proof (eval_range _ Oh). rewrite s64_id by (unfold is_s in *; lia).
  exists (mkRange lo hi). split; [done|]. by split.
Qed.

(** What is known of the left operand when it loads a length. *)
Definition left_ok (left_defn : option Z) (x : Z) : Prop :=
  match left_defn with
  | Some d => length_load (defn g d) = true -> val d = x /\ smi x /\ (rank d < definitions g)%nat
  | None => True
  end.
Lemma left_boundary_ok left_defn x b : left_ok left_defn x -> ok b ->
  exists c, Range.left_boundary g left_defn b = Ok c /\ ok c /\ (ev b <= x -> ev c <= x) /\ (x <= ev b -> x <= ev c).
Proof.
  intros Hl Hb. unfold Range.left_boundary, left_ok in *. destruct left_defn as [d|]; [|by exists b].
  unfold Range.IsLengthLoad. destruct (length_load (defn g d)); [|by exists b]. destruct (Hl eq_refl) as (Hx & Hs & Hd). subst x.
  destruct (from_definition d 0 Hd Hs) as (c & Ec & Hc & Ev & _); [by vm_compute|]. exists c. rewrite Ev. split_and!; [done|done|lia..].
Qed.

Section Sums.
Context (L R : Range) (left_defn : option Z) (x y : Z) (HL : range_ok g val rank L) (HR : range_ok g val rank R)
  (Hx : contains val L x) (Hy : contains val R y) (Hl : left_ok left_defn x).

Lemma Add_sound : holds (s64 (x + y)) (Range.Add g L R left_defn).
Proof.
  destruct (range_bounds L HL) as (l1 & u1 & E1 & E2 & R1 & R2 & B1 & B2), (range_bounds R HR) as (l2 & u2 & E3 & E4 & R3 & R4 & B3 & B4).
  destruct HL as [OL1 OL2], HR as [OR1 OR2]. unfold contains in *. unfold Range.Add.
  destruct (left_boundary_ok left_defn x _ Hl OL1) as (c1 & F1 & O1 & Le1 & _), (left_boundary_ok left_defn x _ Hl OL2) as (c2 & F2 & O2 & _ & Le2).
  run F1. run F2. destruct (symbolic_add c1 _ O1 OR1) as (s1 & S1 & P1), (symbolic_add c2 _ O2 OR2) as (s2 & S2 & P2).
  run S1. rewrite E1, E3, E2, E4. destruct (sum_boundary_ok (fun c => ok c /\ ev c <= x + y) s1 l1 l2) as (lo & Q1 & T1); [done..| |intros; split; [done|cbn; lia]|].
  { intros c Hc. destruct (P1 c Hc) as [? ->]. split; [done|]. lia. }
  run Q1. run S2. destruct (sum_boundary_ok (fun c => ok c /\ x + y <= ev c) s2 u1 u2) as (hi & Q2 & T2); [done..| |intros; split; [done|cbn; lia]|].
  { intros c Hc. destruct (P2 c Hc) as [? ->]. split; [done|]. lia. }
  run Q2. by apply sum_range_holds.
Qed.
Lemma Sub_sound : holds (s64 (x - y)) (Range.Sub g L R left_defn).
Proof.
  destruct (range_bounds L HL) as (l1 & u1 & E1 & E2 & R1 & R2 & B1 & B2), (range_bounds R HR) as (l2 & u2 & E3 & E4 & R3 & R4 & B3 & B4).
  destruct HL as [OL1 OL2], HR as [OR1 OR2]. unfold contains in *. unfold Range.Sub.
  destruct (left_boundary_ok left_defn x _ Hl OL1) as (c1 & F1 & O1 & Le1 & _), (left_boundary_ok left_defn x _ Hl OL2) as (c2 & F2 & O2 & _ & Le2).
  run F1. run F2. destruct (symbolic_sub c1 _ O1 OR2) as (s1 & S1 & P1), (symbolic_sub c2 _ O2 OR1) as (s2 & S2 & P2).
  run S1. rewrite E1, E3, E2, E4. destruct (difference_boundary_ok (fun c => ok c /\ ev c <= x - y) s1 l1 u2) as (lo & Q1 & T1); [done..| |intros; split; [done|cbn; lia]|].
  { intros c Hc. destruct (P1 c Hc) as [? ->]. split; [done|]. lia. }
  run Q1. run S2. destruct (difference_boundary_ok (fun c => ok c /\ x - y <= ev c) s2 u1 l2) as (hi & Q2 & T2); [done..| |intros; split; [done|cbn; lia]|].
  { intros c Hc. destruct (P2 c Hc) as [? ->]. split; [done|]. lia. }
  run Q2. by apply sum_range_holds.
Qed.
End Sums.

(** ** All operations *)

Lemma binary_op_holds op L R left_defn x y : range_ok g val rank L -> range_ok g val rank R -> contains val L x -> contains val R y ->
  left_ok left_defn x ->
  exists q, Range.BinaryOp g op L R left_defn = Ok q /\ range_ok g val rank q /\ forall z, apply_op op x y = Some z -> contains val q z.
Proof.
  intros HL HR Hx Hy Hl. destruct (range_bounds L HL) as (l1 & u1 & BL), (range_bounds R HR) as (l2 & u2 & BR).
  pose proof (bounds_contain _ _ _ _ BL Hx) as Hx'. pose proof (bounds_contain _ _ _ _ BR Hy) as Hy'.
  assert (Hchecked : forall r z, holds z r -> (forall z', apply_op op x y = Some z' -> z' = z) ->
    exists q, (r ← r; _ ← RASSERT (negb (RangeBoundary.IsUnknown (min_ r)) && negb (RangeBoundary.IsUnknown (max_ r)));
      _ ← RASSERT (match min_ r, max_ r with kConstant l, kConstant u => l <=? u | _, _ => true end); Ok r) = Ok q /\
      range_ok g val rank q /\ forall z, apply_op op x y = Some z -> contains val q z).
  { intros r z (q & -> & Hq & Hz) Hop. exists q. split; [|split; [done|intros z' Hz'; by rewrite (Hop z' Hz')]].
    destruct Hq as [Hq1 Hq2]. unfold contains in Hz. cbn [mbind result_bind].
    destruct q as [[|d o|v] [|d' o'|v']]; try done. cbn in *. by rewrite (proj2 (Z.leb_le v v')) by lia. }
  assert (Hn : Z.max l2 0 <= Z.max y 0 <= Z.max u2 0) by lia.
  destruct op; cbn [Range.BinaryOp apply_op] in *; try (by exists Int64).
  - apply (Hchecked _ (s64 (x + y))); [by apply Add_sound|congruence].
  - apply (Hchecked _ (s64 (x - y))); [by apply Sub_sound|congruence].
  - apply (Hchecked _ (s64 (x * y))); [by eapply around_holds, Mul_sound|congruence].
  - destruct (Z.eqb_spec y 0); [apply (Hchecked _ 0); [by eapply around_holds, TruncDiv_zero|done]|].
    apply (Hchecked _ (s64 (Z.quot x y))); [by eapply around_holds, TruncDiv_sound|congruence].
  - destruct (Mod_sound _ _ _ _ _ _ _ _ BL BR Hx' Hy') as [Hm Hm0].
    destruct (Z.eqb_spec y 0); [apply (Hchecked _ 0); [by apply around_holds|done]|].
    apply (Hchecked _ (x mod Z.abs y)); [by apply around_holds, Hm|congruence].
  - apply (Hchecked _ (if 64 <=? Z.max y 0 then 0 else s64 (x ≪ Z.max y 0))); [exact (around_holds _ _ (Shl_sound _ _ _ _ _ _ _ _ BL BR Hx' Hy' _ Hn))|].
    destruct (Z.ltb_spec y 0); [done|]. rewrite Z.max_l by lia. congruence.
  - apply (Hchecked _ (x / 2 ^ Z.max y 0)); [exact (around_holds _ _ (Shr_sound _ _ _ _ _ _ _ _ BL BR Hx' Hy' _ Hn))|].
    destruct (Z.ltb_spec y 0); [done|]. rewrite Z.max_l by lia. congruence.
  - apply (Hchecked _ (s64 (u64 x / 2 ^ Z.max y 0))); [exact (around_holds _ _ (Ushr_sound _ _ _ _ _ _ _ _ BL BR Hx' Hy' _ Hn))|].
    destruct (Z.ltb_spec y 0); [done|]. rewrite Z.max_l by lia. congruence.
  - apply (Hchecked _ (x .& y)); [by eapply around_holds, And_sound|congruence].
  - apply (Hchecked _ (x .| y)); [|congruence]. apply around_holds, (BitwiseOp_sound _ _ _ _ _ _ _ _ BL BR Hx' Hy'); [intros; by apply fits_lor|].
    intros. by apply Z.lor_nonneg.
  - apply (Hchecked _ (x .^ y)); [|congruence]. apply around_holds, (BitwiseOp_sound _ _ _ _ _ _ _ _ BL BR Hx' Hy'); [intros; by apply fits_lxor|].
    intros. by apply Z.lxor_nonneg.
Qed.

(** ** Equal symbols *)

(** A boundary whose symbol need not be a Smi. *)
Definition weak (b : RangeBoundary) : Prop :=
  is_s 64 (ev b) /\
  match b with
  | kConstant _ => True
  | kSymbol d o => IsValidOffsetForSymbolicRangeBoundary o = true /\ (rank d < definitions g)%nat
  | kUnknown => False
  end.
Lemma ok_weak b : ok b -> weak b.
Proof. intros Hb. split; [by apply eval_range|]. destruct b; try done. by destruct Hb as (_ & ? & ?). Qed.

Lemma unwrap_rounds n d : (rank d <= n)%nat -> (rank d < definitions g)%nat ->
  exists u, UnwrapConstraint_rounds g n d = Ok u /\ val u = val d /\ (rank u <= rank d)%nat.
Proof.
  revert d. induction n as [|n IH]; intros d Hn Hd; pose proof (value_of_kind _ _ _ Hv d Hd) as Hk; unfold kind_ok in Hk;
    cbn [UnwrapConstraint_rounds]; destruct (kind_ (defn g d)) as [|v| | |]; try (by exists d).
  - lia.
  - destruct Hk as [Hr Ev]. destruct (IH v) as (u & E & Eu & Hu); [lia..|]. exists u. split_and!; [done|congruence|lia].
Qed.
Lemma unwrap d : (rank d < definitions g)%nat -> exists u, UnwrapConstraint g d = Ok u /\ val u = val d /\ (rank u <= rank d)%nat.
Proof. intros. apply unwrap_rounds; lia. Qed.
Lemma depend a b : weak a -> weak b -> exists e, DependOnSameSymbol g a b = Ok e /\
  (e = true -> exists d o d' o', a = kSymbol d o /\ b = kSymbol d' o' /\ val d = val d').
Proof.
  intros [_ Ha] [_ Hb]. destruct a as [|d o|v], b as [|d' o'|v']; try (by exists false). destruct Ha as [_ Ha], Hb as [_ Hb].
  cbn [DependOnSameSymbol]. unfold AreEqualDefinitions. destruct (unwrap d Ha) as (u & E & Eu & _), (unwrap d' Hb) as (u' & E' & Eu' & _).
  run E. run E'. eexists. split; [reflexivity|]. intros He. exists d, o, d', o'. split_and!; [done..|].
  rewrite <- Eu, <- Eu'. apply orb_true_iff in He as [He|He]; [by apply Z.eqb_eq in He as ->|by apply (value_of_equal _ _ _ Hv)].
Qed.
Lemma equals a b : ok a -> ok b -> exists e, RangeBoundary.Equals g a b = Ok e /\ (e = true -> ev a = ev b).
Proof.
  intros Ha Hb. destruct (depend a b (ok_weak _ Ha) (ok_weak _ Hb)) as (e & E & He).
  destruct a as [|d o|v], b as [|d' o'|v']; try done; cbn [RangeBoundary.Equals]; try (by exists false).
  - destruct (Z.eqb_spec o o') as [->|]; [|by exists false]. exists e. split; [done|]. intros Ht. destruct (He Ht) as (? & ? & ? & ? & [= -> ->] & [= -> ->] & Ev).
    cbn. lia.
  - eexists. split; [reflexivity|]. intros Ht. by apply Z.eqb_eq in Ht as ->.
Qed.

(** ** Canonical boundaries *)

Lemma canonicalize_ok n d o : (rank d <= n)%nat -> (rank d < definitions g)%nat -> smi (val d) -> is_s 64 o ->
  exists r, canonicalize g n d o = Ok r /\
    forall s o', r = Some (s, o') -> val s + o' = val d + o /\ (rank s <= rank d)%nat /\ smi (val s) /\ is_s 64 o'.
Proof.
  revert d o. induction n as [|n IH]; intros d o Hn Hd Hs Ho; pose proof (value_of_kind _ _ _ Hv d Hd) as Hk; unfold kind_ok in Hk;
    cbn [canonicalize];
    (assert (Hstop : exists r, Ok (E := range_error) (Some (d, o)) = Ok r /\
      forall s o', r = Some (s, o') -> val s + o' = val d + o /\ (rank s <= rank d)%nat /\ smi (val s) /\ is_s 64 o')
      by (eexists; split; [reflexivity|]; by intros ? ? [= <- <-])).
  - destruct (kind_ (defn g d)) as [|v|v|op l r|]; try exact Hstop; [lia|lia|]. destruct Hk as ([Hl _] & _). lia.
  - assert (Hgo : forall v o', (rank v < rank d)%nat -> smi (val v) -> is_s 64 o' -> val v + o' = val d + o ->
      exists r, canonicalize g n v o' = Ok r /\
        forall s o', r = Some (s, o') -> val s + o' = val d + o /\ (rank s <= rank d)%nat /\ smi (val s) /\ is_s 64 o').
    { intros v o' Hr Hsv Ho' Ev. destruct (IH v o') as (r & E & Hr'); [lia|lia|done|done|]. exists r. split; [done|].
      intros s o'' Es. destruct (Hr' s o'' Es) as (? & ? & ? & ?). split_and!; [lia|lia|done|done]. }
    assert (Hsmi64 : forall c, smi c -> is_s 64 c) by (intros c; rewrite smi_range; unfold is_s; lia).
    destruct (kind_ (defn g d)) as [|v|v|op l r|]; try exact Hstop.
    + destruct Hk as [? Ev]. apply Hgo; [done|by rewrite <- Ev|done|lia].
    + destruct Hk as [? Ev]. apply Hgo; [done|by rewrite <- Ev|done|lia].
    + destruct Hk as ([Hl Sl] & [Hr Sr] & Cl & Cr & Ev). destruct op; try exact Hstop.
      * destruct (smi_constant g r) as [c|] eqn:Er; [|destruct (smi_constant g l) as [c|] eqn:El; [|exact Hstop]].
        -- destruct Cr as [Sc Ec]. rewrite (proj2 (IsSmi_smi c) Sc). cbn [RASSERT mbind result_bind].
           destruct (WillAddOverflow o c) eqn:Eo; [by exists None|]. apply add_overflow in Eo; [|by auto..]. apply Hgo; [done..|lia].
        -- destruct Cl as [Sc Ec]. rewrite (proj2 (IsSmi_smi c) Sc). cbn [RASSERT mbind result_bind].
           destruct (WillAddOverflow o c) eqn:Eo; [by exists None|]. apply add_overflow in Eo; [|by auto..]. apply Hgo; [done..|lia].
      * destruct (smi_constant g r) as [c|] eqn:Er; [|exact Hstop].
        destruct Cr as [Sc Ec]. rewrite (proj2 (IsSmi_smi c) Sc). cbn [RASSERT mbind result_bind].
        destruct (WillSubOverflow o c) eqn:Eo; [by exists None|]. apply sub_overflow in Eo; [|by auto..]. apply Hgo; [done..|lia].
Qed.
Lemma canonicalize_boundary a limit : ok a -> exists b, CanonicalizeBoundary g a limit = Ok b /\
  (b = limit \/ ok b /\ ev b = ev a /\ forall e, before rank e a -> before rank e b).
Proof.
  intros Ha. destruct a as [|d o|v]; [done| |exists (kConstant v); split; [done|by right]]. destruct Ha as (Hs & Ho & Hd).
  cbn [CanonicalizeBoundary].
  destruct (canonicalize_ok (definitions g) d o) as (r & E & Hr); [lia|done|done|rewrite valid_offset in Ho; unfold is_s; lia|]. run E.
  destruct r as [[s o']|]; [|exists limit; split; [done|by left]]. destruct (Hr s o' eq_refl) as (Ev & Hrank & Hss & _).
  destruct (IsValidOffsetForSymbolicRangeBoundary o') eqn:Eo; cbn [negb]; [|exists limit; split; [done|by left]].
  destruct (from_definition s o' ltac:(lia) Hss Eo) as (b & Eb & Hb & Evb & Hbef). exists b. split; [done|]. right.
  split_and!; [done|cbn; lia|]. intros e He. apply Hbef. cbn in He. lia.
Qed.

(** A step from a symbol along its range, in the direction [le]. *)
Definition height (b : RangeBoundary) : nat := match b with kSymbol d _ => S (rank d) | _ => O end.
Definition steps (le : Z -> Z -> Prop) (op : RangeBoundary -> range_result (option RangeBoundary)) : Prop :=
  forall a, weak a -> exists r, op a = Ok r /\
    forall b, r = Some b -> ok b /\ le (ev a) (ev b) /\ (height b < height a)%nat.

Lemma canonicalize_by_steps (le : Z -> Z -> Prop) boundary limit :
  (forall r, range_ok g val rank r -> ok (boundary r)) ->
  (forall d r, before rank d (min_ r) -> before rank d (max_ r) -> before rank d (boundary r)) ->
  (forall r x o, contains val r x -> le (x + o) (ev (boundary r) + o)) ->
  (forall z, is_s 64 z -> le z (ev limit)) -> ok limit -> height limit = O ->
  steps le (canonicalize_by g boundary limit).
Proof.
  intros Hb Hbef Hle Hlim Hlok Hh a [Hr Ha]. unfold canonicalize_by.
  destruct a as [|d o|v]; try (exists None; by split). destruct Ha as [Ho Hd].
  destruct (range_ (defn g d)) as [r|] eqn:Er; [|exists None; by split].
  destruct (value_in_range _ _ _ Hv d r Er Hd) as (Hrok & B1 & B2 & Hin).
  specialize (Hb r Hrok). specialize (Hbef d r B1 B2). specialize (Hle r (val d) o Hin).
  assert (Hlimit : exists q, Ok (E := range_error) (Some limit) = Ok q /\
    forall b, q = Some b -> ok b /\ le (ev (kSymbol d o)) (ev b) /\ (height b < height (kSymbol d o))%nat).
  { eexists. split; [reflexivity|]. intros b [= <-]. split_and!; [done|by apply Hlim|]. rewrite Hh. cbn. lia. }
  destruct (boundary r) as [|s so|c]; try (exists None; by split).
  destruct (WillAddOverflow so o); [exact Hlimit|]. cbn zeta.
  destruct (IsValidOffsetForSymbolicRangeBoundary (so + o)) eqn:Eo; cbn [negb]; [|exact Hlimit].
  destruct Hb as (Hss & Hso & Hsr). destruct (from_definition s (so + o) Hsr Hss Eo) as (b & Eb & Hbok & Evb & Hbb). run Eb.
  destruct (canonicalize_boundary b limit Hbok) as (c & Ec & Hc). run Ec. destruct Hc as [->|(Hcok & Evc & Hcb)]; [exact Hlimit|].
  eexists. split; [reflexivity|]. intros b' [= <-]. split_and!; [done| |].
  - rewrite Evc, Evb. cbn in Hle |- *. by rewrite <- Z.add_assoc in Hle.
  - specialize (Hcb d (Hbb d Hbef)). destruct c; cbn in *; lia.
Qed.
Lemma max_steps : steps Z.le (CanonicalizeMaxBoundary g).
Proof.
  apply canonicalize_by_steps; try done; [by intros r []|unfold contains; intros; lia|].
  intros z. cbn. unfold is_s, kMaxInt64. lia.
Qed.
Lemma min_steps : steps Z.ge (CanonicalizeMinBoundary g).
Proof.
  apply canonicalize_by_steps; try done; [by intros r []|unfold contains; intros; lia|].
  intros z. cbn. unfold is_s, kMinInt64. lia.
Qed.

Lemma compare_loop_ok (le_a le_b : Z -> Z -> Prop) `{!PreOrder le_a, !PreOrder le_b} op_a op_b (Q : RangeBoundary -> Prop) n a b :
  steps le_a op_a -> steps le_b op_b -> (forall c, Q c -> weak c) -> (forall c, ok c -> Q c) -> Q a -> Q b ->
  (height a + height b < n)%nat ->
  exists r, compare_loop g n op_a op_b a b = Ok r /\
    forall a' b', r = Some (a', b') -> Q a' /\ Q b' /\ le_a (ev a) (ev a') /\ le_b (ev b) (ev b') /\
      ev a' - ev b' = offset a' - offset b'.
Proof.
  intros Sa Sb HQw HQok. revert a b. induction n as [|n IH]; intros a b Ha Hb Hn; cbn [compare_loop];
    destruct (depend a b (HQw _ Ha) (HQw _ Hb)) as (e & E & He); run E;
    (destruct e; [eexists; split; [reflexivity|]; intros a' b' [= <- <-];
      destruct (He eq_refl) as (d & o & d' & o' & -> & -> & Ev); split_and!; [done|done|reflexivity|reflexivity|cbn; lia]|]).
  - lia.
  - destruct (Sa a (HQw _ Ha)) as (ra & Ea & Hra). run Ea. destruct ra as [a1|].
    + destruct (Hra a1 eq_refl) as (O1 & L1 & H1). destruct (IH a1 b) as (r & E1 & Hr); [by apply HQok|done|lia|].
      exists r. split; [done|]. intros a' b' Er. destruct (Hr a' b' Er) as (? & ? & ? & ? & ?). split_and!; try done. by transitivity (ev a1).
    + destruct (Sb b (HQw _ Hb)) as (rb & Eb & Hrb). run Eb. destruct rb as [b1|]; [|exists None; by split].
      destruct (Hrb b1 eq_refl) as (O1 & L1 & H1). destruct (IH a b1) as (r & E1 & Hr); [done|by apply HQok|lia|].
      exists r. split; [done|]. intros a' b' Er. destruct (Hr a' b' Er) as (? & ? & ? & ? & ?). split_and!; try done. by transitivity (ev b1).
Qed.

(** ** Joins and intersections *)

Lemma height_definitions b : ok b -> (height b <= definitions g)%nat.
Proof. destruct b as [|d o|v]; cbn; [done|intros (_ & _ & ?); lia|lia]. Qed.
Lemma comparison_ok (le : Z -> Z -> Prop) `{!PreOrder le} op a b : steps le op -> ok a -> ok b ->
  exists r, CanonicalizeForComparison g a b op = Ok r /\
    forall a' b', r = Some (a', b') -> ok a' /\ ok b' /\ le (ev a) (ev a') /\ le (ev b) (ev b') /\ ev a' - ev b' = offset a' - offset b'.
Proof.
  intros Hs Ha Hb. unfold CanonicalizeForComparison. destruct (negb (IsSymbol a) || negb (IsSymbol b)); [exists None; by split|].
  apply (compare_loop_ok le le); try done; [exact ok_weak|]. pose proof (height_definitions _ Ha). pose proof (height_definitions _ Hb).
  unfold comparison_rounds. lia.
Qed.
#[local] Instance ge_preorder : PreOrder Z.ge.
Proof. split; [intros x; lia|intros x y z; lia]. Qed.

Lemma Overflowed_constant v lo hi : lo <= hi -> Overflowed g (kConstant v) (full lo hi) = Ok (negb ((lo <=? v) && (v <=? hi))).
Proof.
  intros Hf. unfold Overflowed. cbn [IsConstant RASSERT mbind result_bind]. rewrite Clamp_constant. cbn [mbind result_bind RangeBoundary.Equals].
  do 2 f_equal. unfold clamp. destruct (Z.leb_spec v lo), (Z.leb_spec hi v), (Z.leb_spec lo v), (Z.leb_spec v hi); cbn; lia.
Qed.

Section Full.
Context (lo hi : Z) (Hlo : is_s 64 lo) (Hhi : is_s 64 hi) (Hf : lo <= hi).

Lemma lower_in b c : LowerBound g b = Ok (kConstant c) -> LowerBound_in g b (full lo hi) = Ok (clamp lo hi c).
Proof. intros E. unfold LowerBound_in. run E. by rewrite Clamp_constant. Qed.
Lemma upper_in b c : UpperBound g b = Ok (kConstant c) -> UpperBound_in g b (full lo hi) = Ok (clamp lo hi c).
Proof. intros E. unfold UpperBound_in. run E. by rewrite Clamp_constant. Qed.
Lemma clamp_64_range c : is_s 64 c -> is_s 64 (clamp lo hi c).
Proof. intros Hc. pose proof (clamp_spec lo hi c Hf). unfold is_s in *. lia. Qed.
(** Values of the full range keep their place when a bound is clamped. *)
Lemma clamp_below c x : c <= x -> lo <= x -> clamp lo hi c <= x.
Proof. intros. unfold clamp. destruct (Z.leb_spec c lo), (Z.leb_spec hi c); lia. Qed.
Lemma clamp_above c x : x <= c -> x <= hi -> x <= clamp lo hi c.
Proof. intros. unfold clamp. destruct (Z.leb_spec c lo), (Z.leb_spec hi c); lia. Qed.

Lemma JoinMin_ok a b : ok a -> ok b -> ev a <= hi -> ev b <= hi ->
  exists c, JoinMin g a b (full lo hi) = Ok c /\ ok c /\ forall x, lo <= x <= hi -> ev a <= x \/ ev b <= x -> ev c <= x.
Proof.
  intros Ha Hb Hah Hbh. unfold JoinMin. destruct (equals a b Ha Hb) as (e & E & He). run E.
  destruct e; [specialize (He eq_refl); exists b; split_and!; [done|done|lia]|]. clear He.
  destruct (comparison_ok Z.ge _ a b min_steps Ha Hb) as (r & Er & Hr). run Er. destruct r as [[a' b']|].
  - destruct (Hr a' b' eq_refl) as (Ha' & Hb' & La & Lb & Eo). eexists. split; [reflexivity|].
    destruct (Z.leb_spec (offset a') (offset b')); (split; [done|lia]).
  - destruct (lower a Ha) as (la & Ela & Rla & Bla), (lower b Hb) as (lb & Elb & Rlb & Blb),
      (upper a Ha) as (ua & Eua & Rua & Bua), (upper b Hb) as (ub & Eub & Rub & Bub).
    rewrite (lower_in a la Ela), (lower_in b lb Elb), (upper_in a ua Eua), (upper_in b ub Eub). cbn [mbind result_bind].
    rewrite Ela, Elb. cbn [mbind result_bind]. rewrite !Overflowed_constant by done. cbn [mbind result_bind]. rewrite !negb_involutive.
    assert (Hpick : forall a b la ua lb, ok a -> la <= ev a -> ev a <= ua -> lb <= ev b -> ev a <= hi ->
      (clamp lo hi ua <=? clamp lo hi lb) && ((lo <=? la) && (la <=? hi)) = true ->
      forall x, lo <= x <= hi -> ev a <= x \/ ev b <= x -> ev a <= x).
    { clear. intros a b la ua lb Ha H1 H2 H3 H4 E x Hx [|Hx']; [done|]. rewrite !andb_true_iff, !Z.leb_le in E.
      pose proof (clamp_above ua (ev a) H2 H4). pose proof (clamp_below lb x ltac:(lia) ltac:(lia)). lia. }
    destruct (_ && _) eqn:E1; [exists a; split_and!; [done|done|by apply (Hpick a b la ua lb)]|].
    destruct ((clamp lo hi ub <=? _) && _) eqn:E2.
    { exists b. split_and!; [done|done|]. intros x Hx Hor. apply (Hpick b a lb ub la); try done. tauto. }
    eexists. split; [reflexivity|]. rewrite Minimum_min. split.
    + cbn. destruct (Z.min_spec (clamp lo hi la) (clamp lo hi lb)) as [[_ ->]|[_ ->]]; by apply clamp_64_range.
    + intros x Hx Hor. cbn. destruct Hor as [Hor|Hor].
      * pose proof (clamp_below la x ltac:(lia) ltac:(lia)). lia.
      * pose proof (clamp_below lb x ltac:(lia) ltac:(lia)). lia.
Qed.
Lemma JoinMax_ok a b : ok a -> ok b -> lo <= ev a -> lo <= ev b ->
  exists c, JoinMax g a b (full lo hi) = Ok c /\ ok c /\ forall x, lo <= x <= hi -> x <= ev a \/ x <= ev b -> x <= ev c.
Proof.
  intros Ha Hb Hah Hbh. unfold JoinMax. destruct (equals a b Ha Hb) as (e & E & He). run E.
  destruct e; [specialize (He eq_refl); exists b; split_and!; [done|done|lia]|]. clear He.
  destruct (comparison_ok Z.le _ a b max_steps Ha Hb) as (r & Er & Hr). run Er. destruct r as [[a' b']|].
  - destruct (Hr a' b' eq_refl) as (Ha' & Hb' & La & Lb & Eo). eexists. split; [reflexivity|].
    destruct (Z.leb_spec (offset b') (offset a')); (split; [done|lia]).
  - destruct (lower a Ha) as (la & Ela & Rla & Bla), (lower b Hb) as (lb & Elb & Rlb & Blb),
      (upper a Ha) as (ua & Eua & Rua & Bua), (upper b Hb) as (ub & Eub & Rub & Bub).
    rewrite (lower_in a la Ela), (lower_in b lb Elb), (upper_in a ua Eua), (upper_in b ub Eub). cbn [mbind result_bind].
    rewrite Eua, Eub. cbn [mbind result_bind]. rewrite !Overflowed_constant by done. cbn [mbind result_bind]. rewrite !negb_involutive.
    assert (Hpick : forall a b lb ua ub, ok b -> ev a <= ua -> lb <= ev b -> ev b <= ub -> lo <= ev b ->
      (clamp lo hi ua <=? clamp lo hi lb) && ((lo <=? ub) && (ub <=? hi)) = true ->
      forall x, lo <= x <= hi -> x <= ev a \/ x <= ev b -> x <= ev b).
    { clear. intros a b lb ua ub Ha H1 H2 H3 H4 E x Hx [Hx'|]; [|done]. rewrite !andb_true_iff, !Z.leb_le in E.
      pose proof (clamp_above ua x ltac:(lia) ltac:(lia)). pose proof (clamp_below lb (ev b) ltac:(lia) ltac:(lia)). lia. }
    destruct (_ && _) eqn:E1; [exists b; split_and!; [done|done|by apply (Hpick a b lb ua ub)]|].
    destruct ((clamp lo hi ub <=? _) && _) eqn:E2.
    { exists a. split_and!; [done|done|]. intros x Hx Hor. apply (Hpick b a la ub ua); try done. tauto. }
    eexists. split; [reflexivity|]. rewrite Maximum_max. split.
    + cbn. destruct (Z.max_spec (clamp lo hi ua) (clamp lo hi ub)) as [[_ ->]|[_ ->]]; by apply clamp_64_range.
    + intros x Hx Hor. cbn. destruct Hor as [Hor|Hor].
      * pose proof (clamp_above ua x ltac:(lia) ltac:(lia)). lia.
      * pose proof (clamp_above ub x ltac:(lia) ltac:(lia)). lia.
Qed.
End Full.

Lemma IntersectionMin_ok a b : ok a -> ok b ->
  exists c, IntersectionMin g a b = Ok c /\ ok c /\ forall x, ev a <= x -> ev b <= x -> ev c <= x.
Proof.
  intros Ha Hb. unfold IntersectionMin. assert (RangeBoundary.IsUnknown a = false /\ RangeBoundary.IsUnknown b = false) as [-> ->] by (by destruct a, b).
  cbn [negb andb RASSERT mbind result_bind]. destruct (equals a b Ha Hb) as (e & E & He). run E.
  destruct e; [by exists a|]. clear He E.
  assert (Hrest : exists c, (c ← CanonicalizeForComparison g a b (CanonicalizeMinBoundary g);
    match c with
    | Some (a, b) => Ok (if offset b <=? offset a then a else b)
    | None => la ← LowerBound g a; inf_a ← ConstantValue la; lb ← LowerBound g b; inf_b ← ConstantValue lb; Ok (if inf_b <=? inf_a then a else b)
    end) = Ok c /\ ok c /\ forall x, ev a <= x -> ev b <= x -> ev c <= x).
  { destruct (comparison_ok Z.ge _ a b min_steps Ha Hb) as (r & Er & Hr). run Er. destruct r as [[a' b']|].
    - destruct (Hr a' b' eq_refl) as (Ha' & Hb' & La & Lb & Eo). eexists. split; [reflexivity|].
      destruct (Z.leb_spec (offset b') (offset a')); (split; [done|lia]).
    - destruct (lower a Ha) as (la & Ela & _), (lower b Hb) as (lb & Elb & _). run Ela. run Elb. eexists. split; [reflexivity|]. by case_match. }
  destruct a as [|d o|v], b as [|d' o'|v']; try exact Hrest. eexists. split; [reflexivity|]. rewrite Maximum_max. cbn in *.
  split; [destruct (Z.max_spec v v') as [[_ ->]|[_ ->]]; done|lia].
Qed.
Lemma IntersectionMax_ok a b : ok a -> ok b ->
  exists c, IntersectionMax g a b = Ok c /\ ok c /\ forall x, x <= ev a -> x <= ev b -> x <= ev c.
Proof.
  intros Ha Hb. unfold IntersectionMax. assert (RangeBoundary.IsUnknown a = false /\ RangeBoundary.IsUnknown b = false) as [-> ->] by (by destruct a, b).
  cbn [negb andb RASSERT mbind result_bind]. destruct (equals a b Ha Hb) as (e & E & He). run E.
  destruct e; [by exists a|]. clear He E.
  assert (Hrest : exists c, (c ← CanonicalizeForComparison g a b (CanonicalizeMaxBoundary g);
    match c with
    | Some (a, b) => Ok (if offset a <=? offset b then a else b)
    | None => ua ← UpperBound g a; sup_a ← ConstantValue ua; ub ← UpperBound g b; sup_b ← ConstantValue ub; Ok (if sup_a <=? sup_b then a else b)
    end) = Ok c /\ ok c /\ forall x, x <= ev a -> x <= ev b -> x <= ev c).
  { destruct (comparison_ok Z.le _ a b max_steps Ha Hb) as (r & Er & Hr). run Er. destruct r as [[a' b']|].
    - destruct (Hr a' b' eq_refl) as (Ha' & Hb' & La & Lb & Eo). eexists. split; [reflexivity|].
      destruct (Z.leb_spec (offset a') (offset b')); (split; [done|lia]).
    - destruct (upper a Ha) as (la & Ela & _), (upper b Hb) as (lb & Elb & _). run Ela. run Elb. eexists. split; [reflexivity|]. by case_match. }
  destruct a as [|d o|v], b as [|d' o'|v']; try exact Hrest. eexists. split; [reflexivity|]. rewrite Minimum_min. cbn in *.
  split; [destruct (Z.min_spec v v') as [[_ ->]|[_ ->]]; done|lia].
Qed.
Lemma Intersect_holds r q x : range_ok g val rank r -> range_ok g val rank q -> contains val r x -> contains val q x ->
  holds x (Range.Intersect g r q).
Proof.
  intros [R1 R2] [Q1 Q2] [? ?] [? ?]. unfold Range.Intersect.
  destruct (IntersectionMin_ok _ _ R1 Q1) as (a & Ea & Oa & Ha), (IntersectionMax_ok _ _ R2 Q2) as (b & Eb & Ob & Hb).
  run Ea. run Eb. exists (mkRange a b). split; [done|]. split; [by split|]. split; [by apply Ha|by apply Hb].
Qed.
Lemma satisfiable r x : range_ok g val rank r -> contains val r x -> Range.IsUnsatisfiable g r = Ok false.
Proof.
  intros Hr Hx. destruct (range_bounds r Hr) as (l & u & B). pose proof (bounds_contain _ _ _ _ B Hx). unfold Range.IsUnsatisfiable.
  run (ConstantMin_bounds _ _ _ B). run (ConstantMax_bounds _ _ _ B). rewrite (proj2 (Z.ltb_ge u l)) by lia.
  destruct Hr as [R1 R2]. destruct (depend _ _ (ok_weak _ R1) (ok_weak _ R2)) as (e & E & He). run E. f_equal.
  destruct e; [|done]. destruct (He eq_refl) as (d & o & d' & o' & E1 & E2 & Ev). unfold contains in Hx. rewrite E1, E2 in *. cbn in *.
  apply Z.ltb_ge. lia.
Qed.

(** ** Phis *)

Section Phis.
Context (lo hi : Z) (Hlo : is_s 64 lo) (Hhi : is_s 64 hi) (Hf : lo <= hi).
Local Abbreviation fr := (full lo hi).

(** A range of which some value of the full range is known. *)
Definition inhabited (r : Range) : Prop := exists w, lo <= w <= hi /\ contains val r w.

(** A range that lies below another one. *)
Lemma stacked r q u l w v : UpperBound g (max_ r) = Ok (kConstant u) -> ev (max_ r) <= u -> l <= ev (min_ q) ->
  clamp lo hi u <= clamp lo hi l -> contains val r w -> lo <= w <= hi -> contains val q v -> lo <= v <= hi -> w <= v.
Proof.
  intros _ Hu Hl Hc [_ Hw] Hwf [Hv1 _] Hvf. pose proof (clamp_above lo hi u w ltac:(lia) ltac:(lia)).
  pose proof (clamp_below lo hi l v ltac:(lia) ltac:(lia)). lia.
Qed.
Lemma Join_ok r d dr : range_ok g val rank r -> inhabited r -> (rank d < definitions g)%nat ->
  range_ok g val rank dr -> contains val dr (val d) -> lo <= val d <= hi ->
  exists q, RangeAnalysis.Join g r d (Some dr) fr = Ok q /\ range_ok g val rank q /\
    forall x, lo <= x <= hi -> contains val r x \/ x = val d -> contains val q x.
Proof.
  intros Hr (w & Hw & Hwr) Hd Hdr Hin Hdf. unfold RangeAnalysis.Join.
  pose proof Hr as [R1 R2]. pose proof Hdr as [D1 D2].
  rewrite (known_min dr Hdr).
  rewrite (known_min r Hr).
  destruct (unwrap d Hd) as (u & Eu & Ev & _). run Eu.
  assert (Hdep : forall b, ok b -> exists e, RangeAnalysis.DependsOnSymbol g b u = Ok e /\ (e = true -> smi (val d))).
  { intros b Hb. unfold RangeAnalysis.DependsOnSymbol. destruct b as [|s o|c]; try (by exists false). destruct Hb as (Hs & _ & Hsr).
    destruct (unwrap s Hsr) as (t & Et & Evt & _). run Et. eexists. split; [reflexivity|]. intros He. apply Z.eqb_eq in He as ->. congruence. }
  destruct (Hdep _ R1) as (e1 & E1 & S1), (Hdep _ R2) as (e2 & E2 & S2). run E1. run E2.
  assert (exists other, (if e1 || e2 then b ← FromDefinition g d 0; Ok (mkRange b b) else Ok dr) = Ok other /\
    range_ok g val rank other /\ contains val other (val d)) as (other & Eo & Hok & Hod).
  { destruct (e1 || e2) eqn:Ee; [|by exists dr]. assert (Hs : smi (val d)) by (apply orb_true_iff in Ee as [->| ->]; auto).
    destruct (from_definition d 0 Hd Hs) as (b & Eb & Hb & Evb & _); [by vm_compute|]. run Eb. exists (mkRange b b).
    split; [done|]. split; [by split|]. unfold contains. cbn. rewrite Evb. lia. }
  run Eo. destruct Hok as [K1 K2]. clear Eo.
  destruct (lower _ R1) as (lr & Elr & _ & Blr), (lower _ K1) as (lk & Elk & _ & Blk), (upper _ R2) as (ur & Eur & _ & Bur), (upper _ K2) as (uk & Euk & _ & Buk).
  rewrite (lower_in lo hi _ _ Elr), (lower_in lo hi _ _ Elk), (upper_in lo hi _ _ Eur), (upper_in lo hi _ _ Euk). cbn [mbind result_bind].
  pose proof Hod as [Hod1 Hod2]. pose proof Hwr as [Hw1 Hw2].
  destruct (Z.leb_spec (clamp lo hi ur) (clamp lo hi lk)) as [Hle|_]; [|destruct (Z.leb_spec (clamp lo hi uk) (clamp lo hi lr)) as [Hle|_]].
  - exists (mkRange (min_ r) (max_ other)). split; [done|]. split; [by split|]. intros x Hx [Hxr| ->].
    + pose proof (stacked r other ur lk x (val d) Eur Bur Blk Hle Hxr Hx Hod Hdf). destruct Hxr. split; cbn; lia.
    + pose proof (stacked r other ur lk w (val d) Eur Bur Blk Hle Hwr Hw Hod Hdf). split; cbn; lia.
  - exists (mkRange (min_ other) (max_ r)). split; [done|]. split; [by split|]. intros x Hx [Hxr| ->].
    + pose proof (stacked other r uk lr (val d) x Euk Buk Blr Hle Hod Hdf Hxr Hx). destruct Hxr. split; cbn; lia.
    + pose proof (stacked other r uk lr (val d) w Euk Buk Blr Hle Hod Hdf Hwr Hw). split; cbn; lia.
  - destruct (JoinMin_ok lo hi Hlo Hhi Hf _ _ R1 K1) as (a & Ea & Oa & Ha); [lia..|].
    destruct (JoinMax_ok lo hi Hlo Hhi Hf _ _ R2 K2) as (b & Eb & Ob & Hb); [lia..|]. run Ea. run Eb.
    exists (mkRange a b). split; [done|]. split; [by split|]. intros x Hx [[? ?]| ->]; (split; cbn; [apply Ha; [done|]; lia|apply Hb; [done|]; lia]).
Qed.

(** The inputs of a phi, with their ranges. *)
Definition input_ok (d : Z) : Prop :=
  (rank d < definitions g)%nat /\ lo <= val d <= hi /\ (range_ (defn g d) = None -> integer (defn g d) = false).
Lemma input_range d : input_ok d -> exists dr, RangeAnalysis.GetInputRange g d fr = Some dr /\ range_ok g val rank dr /\ contains val dr (val d).
Proof.
  intros (Hd & Hdf & Hn). unfold RangeAnalysis.GetInputRange. destruct (range_ (defn g d)) as [r|] eqn:E.
  - destruct (value_in_range _ _ _ Hv d r E Hd) as (? & _ & _ & ?). by exists r.
  - rewrite (Hn eq_refl). by exists fr.
Qed.
Lemma join_inputs_ok ds : forall r, range_ok g val rank r -> inhabited r -> Forall input_ok ds ->
  exists q, RangeAnalysis.join_inputs g r ds fr = Ok q /\ range_ok g val rank q /\
    (forall x, lo <= x <= hi -> contains val r x -> contains val q x) /\ Forall (fun d => contains val q (val d)) ds.
Proof.
  induction ds as [|d ds IH]; intros r Hr Hi Hds; [by exists r|]. apply Forall_cons in Hds as [Hd Hds]. cbn [RangeAnalysis.join_inputs].
  destruct (input_range d Hd) as (dr & -> & Hdr & Hin). destruct Hd as (Hd & Hdf & _).
  destruct (Join_ok r d dr Hr Hi Hd Hdr Hin Hdf) as (q & Eq & Hq & Hsub). run Eq.
  destruct (IH q Hq) as (t & Et & Ht & Hx & Hall); [by exists (val d); split; [done|]; apply Hsub; auto|done|].
  exists t. split_and!; [done|done|by auto|]. apply Forall_cons. split; [|done]. apply Hx; [done|]. apply Hsub; auto.
Qed.
Lemma ensure_acyclic dom b limit : ok b -> ok limit -> exists c, RangeAnalysis.EnsureAcyclicSymbol g dom b limit = Ok c /\ ok c /\
  (ev c = ev b \/ c = limit).
Proof.
  intros Hb Hl. unfold RangeAnalysis.EnsureAcyclicSymbol. destruct b as [|d o|v]; [done| |exists (kConstant v); split_and!; [done|done|by left]].
  destruct (dom d); [exists (kSymbol d o); split_and!; [done|done|by left]|]. destruct Hb as (Hs & Ho & Hd).
  destruct (unwrap d Hd) as (u & Eu & Ev & Hu). run Eu. destruct (negb (u =? d) && dom u); [|exists limit; split_and!; [done|done|by right]].
  destruct (from_definition u o ltac:(lia) ltac:(by rewrite Ev) Ho) as (c & Ec & Hc & Evc & _). exists c. split_and!; [done|done|left; cbn; lia].
Qed.
Lemma Phi_ok d ds dom : Forall input_ok (d :: ds) -> Forall (fun d => smi (val d)) (d :: ds) ->
  exists q, RangeAnalysis.Phi_InferRange g (d :: ds) dom fr = Ok q /\ range_ok g val rank q /\ Forall (fun d => contains val q (val d)) (d :: ds).
Proof.
  intros Hds Hsmi. unfold RangeAnalysis.Phi_InferRange. cbn [RangeAnalysis.join_inputs].
  pose proof Hds as Hds'. apply Forall_cons in Hds' as [Hd Hds'].
  destruct (input_range d Hd) as (dr & Edr & Hdr & Hin). rewrite Edr. unfold RangeAnalysis.Join at 1. cbn [min_ RangeBoundary.IsUnknown].
  rewrite (known_min dr Hdr). cbn [mbind result_bind].
  destruct (join_inputs_ok ds dr Hdr) as (q & Eq & [Q1 Q2] & Hx & Hall); [exists (val d); destruct Hd as (_ & ? & _); done|done|]. run Eq.
  destruct (ensure_acyclic dom (min_ q) MinSmi Q1) as (a & Ea & Oa & Ha); [by vm_compute|].
  destruct (ensure_acyclic dom (max_ q) MaxSmi Q2) as (b & Eb & Ob & Hb); [by vm_compute|]. run Ea. run Eb.
  exists (mkRange a b). split; [done|]. split; [by split|].
  assert (Hall' : Forall (fun d => contains val q (val d)) (d :: ds)).
  { apply Forall_cons. split; [|done]. apply Hx; [|done]. by destruct Hd as (_ & ? & _). }
  rewrite Forall_forall in Hall', Hsmi |- *. intros e He. specialize (Hall' e He). specialize (Hsmi e He). destruct Hall' as [C1 C2]. unfold smi in Hsmi.
  split; cbn; [destruct Ha as [->| ->]; cbn; lia|destruct Hb as [->| ->]; cbn; lia].
Qed.

(** ** Widening and narrowing *)

(** How often a boundary can still be widened. *)
Definition widenings (limit : Z) (b : RangeBoundary) : nat :=
  match b with kSymbol _ _ => 3 | kConstant v => if v =? limit then 0 else if (lo <=? v) && (v <=? hi) then 1 else 2 | kUnknown => 0 end.
Lemma WidenMin_ok r q : range_ok g val rank r -> range_ok g val rank q -> ev (min_ r) <= hi ->
  exists c, RangeAnalysis.WidenMin g r q fr = Ok c /\ ok c /\ (forall x, lo <= x <= hi -> ev (min_ q) <= x -> ev c <= x) /\
    (c = min_ r \/ (widenings lo c < widenings lo (min_ r))%nat).
Proof.
  intros [R1 _] [Q1 _] Hh. unfold RangeAnalysis.WidenMin.
  destruct (lower _ R1) as (lr & Elr & Rlr & Blr), (lower _ Q1) as (lq & Elq & Rlq & Blq), (upper _ R1) as (ur & Eur & Rur & Bur).
  assert (Hlimit : forall x, lo <= x <= hi -> ev (min_ q) <= x -> ev (kConstant lo) <= x) by (cbn; lia).
  assert (Hconst : exists c, (b ← Range.ConstantMin_in g (Some r) fr; m ← ConstantValue b; n ← Range.ConstantMin_in g (Some q) fr; n ← ConstantValue n;
      Ok (if m <=? n then b else min_ fr)) = Ok c /\ ok c /\ (forall x, lo <= x <= hi -> ev (min_ q) <= x -> ev c <= x) /\
      (c = min_ r \/ (widenings lo c < widenings lo (min_ r))%nat)).
  { unfold Range.ConstantMin_in, constant_min. run Elr. rewrite Clamp_constant. cbn [mbind result_bind ConstantValue]. run Elq. rewrite Clamp_constant.
    cbn [mbind result_bind ConstantValue]. eexists. split; [reflexivity|]. pose proof (clamp_spec lo hi lr Hf) as Hc.
    assert (Hlow : widenings lo (kConstant lo) = O) by (cbn; by rewrite Z.eqb_refl).
    assert (Hm : forall c, lo <= c <= hi -> (c = lr \/ (lr < lo \/ hi < lr) \/ c = lo) -> kConstant c = min_ r \/ (widenings lo (kConstant c) < widenings lo (min_ r))%nat).
    { intros c Hcr Hor. destruct (min_ r) as [|d o|v] eqn:Er; [done| |].
      - right. cbn. rewrite (proj2 (Z.leb_le lo c)), (proj2 (Z.leb_le c hi)) by lia. cbn. case_match; lia.
      - cbn in Elr. unfold LowerBound in Elr. assert (lr = v) as -> by (destruct (definitions g); cbn in Elr; congruence).
        destruct (Z.eq_dec c v) as [->|Hne]; [by left|]. right. cbn. destruct (Z.eqb_spec c lo), (Z.eqb_spec v lo), (Z.leb_spec lo v), (Z.leb_spec v hi), (Z.leb_spec lo c), (Z.leb_spec c hi); cbn; lia. }
    destruct (Z.leb_spec (clamp lo hi lr) (clamp lo hi lq)).
    - split; [by apply clamp_64_range|]. split; [intros x Hx Hxq; pose proof (clamp_below lo hi lq x ltac:(lia) ltac:(lia)); cbn; lia|].
      apply Hm; [lia|]. unfold clamp. destruct (Z.leb_spec lr lo), (Z.leb_spec hi lr); lia.
    - split; [done|]. split; [done|]. apply Hm; [lia|]. by right; right. }
  destruct (min_ r) as [|d o|v] eqn:Er; [done| |exact Hconst]. run Elr. rewrite Overflowed_constant by done. cbn [mbind result_bind].
  assert (Hdown : exists c, Ok (E := range_error) (min_ fr) = Ok c /\ ok c /\ (forall x, lo <= x <= hi -> ev (min_ q) <= x -> ev c <= x) /\
    (c = kSymbol d o \/ (widenings lo c < widenings lo (kSymbol d o))%nat)).
  { eexists. split; [reflexivity|]. split_and!; [done|exact Hlimit|]. right. cbn. rewrite Z.eqb_refl. lia. }
  destruct (negb _); [exact Hdown|]. destruct (depend (kSymbol d o) (min_ q) (ok_weak _ R1) (ok_weak _ Q1)) as (e & E & He). run E.
  destruct e.
  - destruct (He eq_refl) as (d1 & o1 & d2 & o2 & [= -> ->] & Eq & Ev). rewrite Eq in *. cbn [offset].
    destruct (Z.leb_spec o1 o2); [|exact Hdown]. eexists. split; [reflexivity|]. split_and!; [done|cbn; lia|by left].
  - rewrite (upper_in lo hi _ _ Eur), (lower_in lo hi _ _ Elq). cbn [mbind result_bind].
    destruct (Z.leb_spec (clamp lo hi ur) (clamp lo hi lq)); [|exact Hconst]. eexists. split; [reflexivity|]. split_and!; [done| |by left].
    intros x Hx Hxq. pose proof (clamp_above lo hi ur (ev (kSymbol d o)) Bur Hh). pose proof (clamp_below lo hi lq x ltac:(lia) ltac:(lia)). lia.
Qed.
Lemma WidenMax_ok r q : range_ok g val rank r -> range_ok g val rank q -> lo <= ev (max_ r) ->
  exists c, RangeAnalysis.WidenMax g r q fr = Ok c /\ ok c /\ (forall x, lo <= x <= hi -> x <= ev (max_ q) -> x <= ev c) /\
    (c = max_ r \/ (widenings hi c < widenings hi (max_ r))%nat).
Proof.
  intros [_ R1] [_ Q1] Hh. unfold RangeAnalysis.WidenMax.
  destruct (upper _ R1) as (lr & Elr & Rlr & Blr), (upper _ Q1) as (lq & Elq & Rlq & Blq), (lower _ R1) as (ur & Eur & Rur & Bur).
  assert (Hlimit : forall x, lo <= x <= hi -> x <= ev (max_ q) -> x <= ev (kConstant hi)) by (cbn; lia).
  assert (Hconst : exists c, (b ← Range.ConstantMax_in g (Some r) fr; m ← ConstantValue b; n ← Range.ConstantMax_in g (Some q) fr; n ← ConstantValue n;
      Ok (if n <=? m then b else max_ fr)) = Ok c /\ ok c /\ (forall x, lo <= x <= hi -> x <= ev (max_ q) -> x <= ev c) /\
      (c = max_ r \/ (widenings hi c < widenings hi (max_ r))%nat)).
  { unfold Range.ConstantMax_in, constant_max. run Elr. rewrite Clamp_constant. cbn [mbind result_bind ConstantValue]. run Elq. rewrite Clamp_constant.
    cbn [mbind result_bind ConstantValue]. eexists. split; [reflexivity|]. pose proof (clamp_spec lo hi lr Hf) as Hc.
    assert (Hm : forall c, lo <= c <= hi -> (c = lr \/ (lr < lo \/ hi < lr) \/ c = hi) -> kConstant c = max_ r \/ (widenings hi (kConstant c) < widenings hi (max_ r))%nat).
    { intros c Hcr Hor. destruct (max_ r) as [|d o|v] eqn:Er; [done| |].
      - right. cbn. rewrite (proj2 (Z.leb_le lo c)), (proj2 (Z.leb_le c hi)) by lia. cbn. case_match; lia.
      - cbn in Elr. unfold UpperBound in Elr. assert (lr = v) as -> by (destruct (definitions g); cbn in Elr; congruence).
        destruct (Z.eq_dec c v) as [->|Hne]; [by left|]. right. cbn. destruct (Z.eqb_spec c hi), (Z.eqb_spec v hi), (Z.leb_spec lo v), (Z.leb_spec v hi), (Z.leb_spec lo c), (Z.leb_spec c hi); cbn; lia. }
    destruct (Z.leb_spec (clamp lo hi lq) (clamp lo hi lr)).
    - split; [by apply clamp_64_range|]. split; [intros x Hx Hxq; pose proof (clamp_above lo hi lq x ltac:(lia) ltac:(lia)); cbn; lia|].
      apply Hm; [lia|]. unfold clamp. destruct (Z.leb_spec lr lo), (Z.leb_spec hi lr); lia.
    - split; [done|]. split; [done|]. apply Hm; [lia|]. by right; right. }
  destruct (max_ r) as [|d o|v] eqn:Er; [done| |exact Hconst]. run Elr. rewrite Overflowed_constant by done. cbn [mbind result_bind].
  assert (Hup : exists c, Ok (E := range_error) (max_ fr) = Ok c /\ ok c /\ (forall x, lo <= x <= hi -> x <= ev (max_ q) -> x <= ev c) /\
    (c = kSymbol d o \/ (widenings hi c < widenings hi (kSymbol d o))%nat)).
  { eexists. split; [reflexivity|]. split_and!; [done|exact Hlimit|]. right. cbn. rewrite Z.eqb_refl. lia. }
  destruct (negb _); [exact Hup|]. destruct (depend (kSymbol d o) (max_ q) (ok_weak _ R1) (ok_weak _ Q1)) as (e & E & He). run E.
  destruct e.
  - destruct (He eq_refl) as (d1 & o1 & d2 & o2 & [= -> ->] & Eq & Ev). rewrite Eq in *. cbn [offset].
    destruct (Z.leb_spec o2 o1); [|exact Hup]. eexists. split; [reflexivity|]. split_and!; [done|cbn; lia|by left].
  - rewrite (lower_in lo hi _ _ Eur), (upper_in lo hi _ _ Elq). cbn [mbind result_bind].
    destruct (Z.leb_spec (clamp lo hi lq) (clamp lo hi ur)); [|exact Hconst]. eexists. split; [reflexivity|]. split_and!; [done| |by left].
    intros x Hx Hxq. pose proof (clamp_below lo hi ur (ev (kSymbol d o)) Bur Hh). pose proof (clamp_above lo hi lq x ltac:(lia) ltac:(lia)). lia.
Qed.
Lemma Narrow_ok r q : range_ok g val rank r -> range_ok g val rank q ->
  exists c c', RangeAnalysis.NarrowMin g r q fr = Ok c /\ RangeAnalysis.NarrowMax g r q fr = Ok c' /\
    (c = min_ r \/ c = min_ q) /\ (c' = max_ r \/ c' = max_ q).
Proof.
  intros Hr Hq. destruct (range_bounds r Hr) as (l & u & El & Eu & _), (range_bounds q Hq) as (l' & u' & El' & Eu' & _).
  unfold RangeAnalysis.NarrowMin, RangeAnalysis.NarrowMax, Range.ConstantMin_in, Range.ConstantMax_in, constant_min, constant_max.
  run El. run Eu. rewrite !Clamp_constant. cbn [mbind result_bind ConstantValue]. run El'. run Eu'. rewrite !Clamp_constant.
  cbn [mbind result_bind ConstantValue IsLessOrEqual IsGreaterOrEqual full min_ max_].
  destruct (_ <? _), (clamp lo hi u <? _); eexists _, _; (split; [reflexivity|]); (split; [reflexivity|]); split; repeat case_match; tauto.
Qed.
End Phis.

(** ** Instructions *)

Lemma Full_constant rep T : value_type rep = Some T -> exists lo hi,
  (forall mode, Range.Full rep mode = Ok (full lo hi)) /\ is_s 64 lo /\ is_s 64 hi /\ lo <= hi /\ forall x, lo <= x <= hi <-> ct_in T x.
Proof.
  intros ET. assert (Hrep : forall mode, Range.Full rep mode = Ok (full (if ct_signed T then - 2 ^ (ct_bits T - 1) else 0)
    (if ct_signed T then 2 ^ (ct_bits T - 1) - 1 else 2 ^ ct_bits T - 1))) by (by destruct rep; try discriminate; injection ET as <-; intros []).
  eexists _, _. split; [exact Hrep|]. clear Hrep. split_and!; [destruct rep; try discriminate; injection ET as <-; by vm_compute..|].
  intros x. unfold ct_in, is_s, is_u. destruct (ct_signed T); lia.
Qed.
Lemma value_type_bits rep T : value_type rep = Some T -> 0 < ct_bits T.
Proof. intros E. destruct rep; try discriminate; by injection E as <-. Qed.
Lemma Full_tagged : Range.Full kTagged kTaggedIsSmi = Ok (full kSmiMin kSmiMax).
Proof. done. Qed.

Lemma IsWithin_bounds r l u a b : bounds r l u -> Range.IsWithin_range g r (full a b) = Ok ((a <=? l) && (u <=? b)).
Proof.
  intros B. unfold Range.IsWithin_range, LowerBound, UpperBound. destruct (definitions g); cbn [LowerBound_rounds UpperBound_rounds min_ max_ full mbind result_bind ConstantValue];
    unfold Range.IsWithin; run (OnlyGreater_bounds r l u a B); rewrite (OnlyLess_bounds r l u b B); by destruct (a <=? l).
Qed.
Lemma Clamp_range_holds q z lo hi : range_ok g val rank q -> is_s 64 lo -> is_s 64 hi -> lo <= hi ->
  exists r, Range.Clamp q (full lo hi) = Ok r /\ range_ok g val rank r /\ (contains val q z -> lo <= z <= hi -> contains val r z).
Proof.
  intros [Q1 Q2] Hlo Hhi Hf.
  assert (Hc : forall b, ok b -> exists c, RangeBoundary.Clamp b (full lo hi) = Ok c /\ ok c /\ (ev b <= z -> lo <= z -> ev c <= z) /\ (z <= ev b -> z <= hi -> z <= ev c)).
  { intros b Hb. destruct b as [|d o|v]; [done|by exists (kSymbol d o)|]. rewrite Clamp_constant. eexists. split; [reflexivity|].
    split_and!; [by apply clamp_64_range|by apply clamp_below|by apply clamp_above]. }
  destruct (Hc _ Q1) as (a & Ea & Oa & La & _), (Hc _ Q2) as (b & Eb & Ob & _ & Lb). unfold Range.Clamp. run Ea. run Eb.
  exists (mkRange a b). split; [done|]. split; [by split|]. intros [? ?] [? ?]. split; cbn; auto.
Qed.

(** The representations of the results of operations: Smis, or unboxed integers. *)
Definition full_of (rep : Representation) (lo hi : Z) : Prop :=
  Range.Full rep kTaggedIsSmi = Ok (full lo hi) /\ is_s 64 lo /\ is_s 64 hi /\ lo <= hi.
Lemma helper_holds op rep truncating L R left_defn x y z lo hi : range_ok g val rank L -> range_ok g val rank R ->
  contains val L x -> contains val R y -> left_ok left_defn x -> apply_op op x y = Some z -> full_of rep lo hi ->
  exists q o, RangeAnalysis.InferRangeHelper g op rep truncating (Some L) (Some R) left_defn = Ok (Some (q, o)) /\ range_ok g val rank q /\
    (lo <= z <= hi -> contains val q z) /\ (truncating = true -> o = None) /\ (o = Some false -> lo <= z <= hi).
Proof.
  intros HL HR Hx Hy Hl Hz (Ef & Hlo & Hhi & Hf). unfold RangeAnalysis.InferRangeHelper.
  rewrite (known_min L HL).
  rewrite (known_min R HR). cbn [orb].
  destruct (binary_op_holds op L R left_defn x y HL HR Hx Hy Hl) as (q & Eq & Hq & Hin). run Eq. specialize (Hin z Hz). rewrite (known_min q Hq). cbn [negb RASSERT mbind result_bind].
  destruct (range_bounds q Hq) as (l & u & B). pose proof (bounds_contain _ _ _ _ B Hin) as Hlu.
  assert (exists o, (if negb truncating then f ← Range.Fits g (Some q) rep kTaggedIsSmi; Ok (Some (negb f)) else Ok None) = Ok o /\
    (truncating = true -> o = None) /\ (o = Some false -> lo <= z <= hi)) as (o & Eo & Ho1 & Ho2).
  { destruct truncating; cbn [negb]; [by exists None|]. unfold Range.Fits. run Ef. run (IsWithin_bounds q l u lo hi B).
    eexists. split; [reflexivity|]. split; [done|]. intros [= E]. apply negb_false_iff, andb_true_iff in E as [E1 E2]. rewrite Z.leb_le in E1, E2. lia. }
  run Eo. run Ef. destruct (Clamp_range_holds q z lo hi Hq Hlo Hhi Hf) as (r & Er & Hr & Hc). run Er. exists r, o. split_and!; auto.
Qed.

(** A range between constants passes the assertion for a representation around them. *)
Lemma Check_bounds r l u rep lo hi : range_ok g val rank r -> bounds r l u -> Range.Full rep kTaggedNotAllowed = Ok (full lo hi) -> lo <= l -> u <= hi ->
  RangeAnalysis.CheckRangeForRepresentation g r rep = Ok tt.
Proof.
  intros Hr B Ef Hl Hu. unfold RangeAnalysis.CheckRangeForRepresentation. run Ef. rewrite (known_min r Hr). run (IsWithin_bounds r l u lo hi B).
  by rewrite (proj2 (Z.leb_le lo l)), (proj2 (Z.leb_le u hi)).
Qed.
Lemma constant_range_ok a b : is_s 64 a -> is_s 64 b -> range_ok g val rank (full a b).
Proof. by split. Qed.
Lemma constant_bounds a b : is_s 64 a -> is_s 64 b -> bounds (full a b) a b.
Proof.
  intros. unfold bounds, LowerBound, UpperBound. destruct (definitions g); cbn [LowerBound_rounds UpperBound_rounds min_ max_ full]; split_and!; try done; cbn; lia.
Qed.
Lemma Check_constant a b rep lo hi : is_s 64 a -> is_s 64 b -> Range.Full rep kTaggedNotAllowed = Ok (full lo hi) -> lo <= a -> b <= hi ->
  RangeAnalysis.CheckRangeForRepresentation g (full a b) rep = Ok tt.
Proof. intros. by eapply Check_bounds; [by apply constant_range_ok|by apply constant_bounds|..]. Qed.

(** The representations of the three classes of unboxing instructions. *)
Definition unboxes (rep : Representation) : Prop := rep = kUnboxedInt32 \/ rep = kUnboxedUint32 \/ rep = kUnboxedInt64.
Lemma unbox_holds unbox64 d rep T : unboxes rep -> value_type rep = Some T -> (rank d < definitions g)%nat ->
  (length_load (defn g d) = true -> smi (val d)) -> (unbox64 = true -> ct_in T (val d)) ->
  holds (ct_cast T (val d)) (RangeAnalysis.UnboxInteger_InferRange g unbox64 d rep).
Proof.
  intros Hrep ET Hd Hlen H64. unfold RangeAnalysis.UnboxInteger_InferRange. pose proof (value_type_bits rep T ET) as Hb.
  destruct (unbox64 && length_load (defn g d)) eqn:E.
  - apply andb_true_iff in E as [-> E]. destruct (from_definition d 0 Hd (Hlen E)) as (b & Eb & Hbok & Ev & _); [by vm_compute|]. run Eb.
    rewrite ct_cast_id by auto. exists (mkRange b b). split; [done|]. split; [by split|]. unfold contains. cbn. lia.
  - destruct (Full_constant rep T ET) as (lo & hi & Ef & Hlo & Hhi & Hf & Hin). run (Ef kTaggedNotAllowed).
    assert (Hfull : holds (ct_cast T (val d)) (_ ← RangeAnalysis.CheckRangeForRepresentation g (full lo hi) rep; Ok (full lo hi))).
    { run (Check_constant lo hi rep lo hi Hlo Hhi (Ef _) (Z.le_refl _) (Z.le_refl _)).
      exists (full lo hi). split; [done|]. split; [by split|]. apply Hin, ct_cast_in. done. }
    destruct (range_ (defn g d)) as [r|] eqn:Er; [|exact Hfull]. destruct (value_in_range _ _ _ Hv d r Er Hd) as (Hr & _ & _ & Hc).
    rewrite (known_min r Hr).
    destruct (range_bounds r Hr) as (l & u & B). pose proof (bounds_contain _ _ _ _ B Hc). run (IsWithin_bounds r l u lo hi B).
    destruct ((lo <=? l) && (u <=? hi)) eqn:Ew.
    + rewrite andb_true_iff, !Z.leb_le in Ew. cbn [mbind result_bind]. run (Check_bounds r l u rep lo hi Hr B (Ef _) (proj1 Ew) (proj2 Ew)).
      rewrite ct_cast_id; [by exists r|done|]. apply Hin. lia.
    + destruct Hrep as [->|[->| ->]]; [exact Hfull..|]. exfalso. injection ET as <-. pose proof (Ef kTaggedNotAllowed) as [= <- <-].
      destruct B as (_ & _ & Bl & Bu & _). unfold is_s, kMinInt64, kMaxInt64 in *. apply andb_false_iff in Ew. rewrite !Z.leb_gt in Ew. cbn in Ew. lia.
Qed.

Lemma convert_holds from to Tf Tt r x : value_type from = Some Tf -> value_type to = Some Tt -> range_ok g val rank r ->
  RangeAnalysis.CheckRangeForRepresentation g r from = Ok tt -> contains val r x ->
  holds (ct_cast Tt x) (RangeAnalysis.IntConverter_InferRange g from to (Some r)).
Proof.
  intros Ef Et Hr Hw Hx. unfold RangeAnalysis.IntConverter_InferRange. pose proof (value_type_bits to Tt Et) as Hb.
  destruct (Full_constant to Tt Et) as (lo & hi & Eto & Hlo & Hhi & Hf & Hin), (Full_constant from Tf Ef) as (lo' & hi' & Efrom & Hlo' & Hhi' & Hf' & Hin').
  destruct (range_bounds r Hr) as (l & u & B). pose proof (bounds_contain _ _ _ _ B Hx).
  assert (Hlu : lo' <= l /\ u <= hi').
  { unfold RangeAnalysis.CheckRangeForRepresentation in Hw. rewrite Efrom in Hw. cbn [mbind result_bind] in Hw. rewrite (known_min r Hr) in Hw.
    rewrite (IsWithin_bounds r l u lo' hi' B) in Hw. cbn [mbind result_bind] in Hw. destruct ((lo' <=? l) && (u <=? hi')) eqn:E; [|done].
    by rewrite andb_true_iff, !Z.leb_le in E. }
  assert (Hfx : ct_in Tf x) by (apply Hin'; lia).
  replace (match to with kUntagged => false | _ => true end) with true by (by destruct to).
  replace (IsUnboxedInteger to) with true by (unfold IsUnboxedInteger; by rewrite Et).
  replace (match from with kUntagged => true | _ => IsUnboxedInteger from end) with true by (unfold IsUnboxedInteger; rewrite Ef; by destruct from).
  cbn [RASSERT mbind result_bind]. run (Eto kTaggedNotAllowed). run (Efrom kTaggedNotAllowed).
  assert (Hkeep : lo <= l /\ u <= hi -> holds (ct_cast Tt x) (_ ← RangeAnalysis.CheckRangeForRepresentation g r to; Ok r)).
  { intros [H1 H2]. run (Check_bounds r l u to lo hi Hr B (Eto _) H1 H2). rewrite ct_cast_id; [by exists r|done|]. apply Hin. lia. }
  assert (Hfull : holds (ct_cast Tt x) (_ ← RangeAnalysis.CheckRangeForRepresentation g (full lo hi) to; Ok (full lo hi))).
  { run (Check_constant lo hi to lo hi Hlo Hhi (Eto _) (Z.le_refl _) (Z.le_refl _)).
    exists (full lo hi). split; [done|]. split; [by split|]. apply Hin, ct_cast_in. done. }
  rewrite (known_min r Hr).
  assert (Hgoal : holds (ct_cast Tt x) (
      range ← (if (ValueSize from <? ValueSize to) && (negb (IsUnsignedInteger to) || IsUnsignedInteger from) then Ok r
        else common_range ← Range.Intersect g (full lo' hi') (full lo hi); within ← Range.IsWithin_range g r common_range; Ok (if (within : bool) then r else full lo hi));
      _ ← RangeAnalysis.CheckRangeForRepresentation g range to; Ok range)).
  { destruct (_ && _) eqn:E.
    - apply Hkeep. clear - Ef Et E Efrom Eto Hlu. pose proof (Efrom kTaggedNotAllowed) as E1. pose proof (Eto kTaggedNotAllowed) as E2.
      destruct from; try discriminate; injection Ef as <-; destruct to; try discriminate; injection Et as <-; try discriminate E; injection E1 as <- <-; injection E2 as <- <-; cbn in *; lia.
    - assert (exists a b, Range.Intersect g (full lo' hi') (full lo hi) = Ok (full a b) /\ lo <= a /\ b <= hi) as (a & b & Ei & Ha & Hbb).
      { unfold Range.Intersect, full, IntersectionMin, IntersectionMax. cbn [min_ max_ RangeBoundary.IsUnknown negb andb RASSERT mbind result_bind RangeBoundary.Equals].
        destruct (Z.eqb_spec lo' lo), (Z.eqb_spec hi' hi); cbn [mbind result_bind]; eexists _, _; (split; [reflexivity|]); rewrite ?Maximum_max, ?Minimum_min; lia. }
      run Ei. run (IsWithin_bounds r l u a b B).
      destruct ((a <=? l) && (u <=? b)) eqn:Ew; [|exact Hfull]. rewrite andb_true_iff, !Z.leb_le in Ew. apply Hkeep. lia. }
  destruct from; try discriminate; exact Hgoal.
Qed.

Lemma convert_unknown_holds from to Tt x : from = kUntagged \/ IsUnboxedInteger from = true -> value_type to = Some Tt ->
  holds (ct_cast Tt x) (RangeAnalysis.IntConverter_InferRange g from to None).
Proof.
  intros Hf Et. unfold RangeAnalysis.IntConverter_InferRange. destruct (Full_constant to Tt Et) as (lo & hi & Eto & Hlo & Hhi & Hle & Hin).
  replace (match to with kUntagged => false | _ => true end) with true by (by destruct to).
  replace (IsUnboxedInteger to) with true by (unfold IsUnboxedInteger; by rewrite Et).
  replace (match from with kUntagged => true | _ => IsUnboxedInteger from end) with true by (destruct Hf as [->|Hf]; [done|rewrite Hf; by destruct from]).
  cbn [RASSERT mbind result_bind]. run (Eto kTaggedNotAllowed).
  assert (Hfull : holds (ct_cast Tt x) (_ ← RangeAnalysis.CheckRangeForRepresentation g (full lo hi) to; Ok (full lo hi))).
  { run (Check_constant lo hi to lo hi Hlo Hhi (Eto _) (Z.le_refl _) (Z.le_refl _)). exists (full lo hi). split; [done|]. split; [by split|].
    apply Hin, ct_cast_in, (value_type_bits to Tt Et). }
  destruct from; exact Hfull.
Qed.

(** Comparisons and checks. *)
Definition compares (op : Token) (x y : Z) : Prop :=
  match op with kEQ => x = y | kNE => x <> y | kLT => x < y | kGT => x > y | kLTE => x <= y | kGTE => x >= y | _ => False end.
Definition comparison (op : Token) : bool := match op with kEQ | kNE | kLT | kGT | kLTE | kGTE => true | _ => false end.
Lemma ConstraintRange_ok op d lo hi : is_s 64 lo -> is_s 64 hi -> (rank d < definitions g)%nat -> smi (val d) -> comparison op = true ->
  exists c, RangeAnalysis.ConstraintRange g op d (full lo hi) = Ok c /\ range_ok g val rank c /\
    forall x, lo <= x <= hi -> compares op x (val d) -> contains val c x.
Proof.
  intros Hlo Hhi Hd Hs Hop.
  assert (Hfrom : forall o, IsValidOffsetForSymbolicRangeBoundary o = true -> exists b, FromDefinition g d o = Ok b /\ ok b /\ ev b = val d + o).
  { intros o Ho. destruct (from_definition d o Hd Hs Ho) as (b & ? & ? & ? & _). by exists b. }
  destruct (Hfrom 0) as (b0 & E0 & O0 & V0); [by vm_compute|]. destruct (Hfrom 1) as (b1 & E1 & O1 & V1); [by vm_compute|].
  destruct (Hfrom (-1)) as (b2 & E2 & O2 & V2); [by vm_compute|].
  destruct op; try done; cbn [RangeAnalysis.ConstraintRange compares]; rewrite ?E0, ?E1, ?E2; cbn [mbind result_bind];
    eexists; (split; [reflexivity|]); (split; [by split|]); intros x Hx Hc; unfold contains; cbn; lia.
Qed.
Lemma constraint_holds op d x lo hi r : is_s 64 lo -> is_s 64 hi -> lo <= x <= hi -> (rank d < definitions g)%nat -> smi (val d) -> compares op x (val d) ->
  range_ok g val rank r -> contains val r x ->
  exists c, RangeAnalysis.ConstraintRange g op d (full lo hi) = Ok c /\ range_ok g val rank c /\ contains val c x /\
    exists q, RangeAnalysis.Constraint_InferRange g (Some r) c = Ok (Some q) /\ range_ok g val rank q /\ contains val q x.
Proof.
  intros Hlo Hhi Hx Hd Hs Hop Hr Hrx.
  destruct (ConstraintRange_ok op d lo hi Hlo Hhi Hd Hs) as (c & Ec & Hc & Hin); [by destruct op|]. pose proof (Hin x Hx Hop) as Hcx.
  exists c. split_and!; try done. unfold RangeAnalysis.Constraint_InferRange.
  rewrite (known_min r Hr).
  destruct (Intersect_holds r c x Hr Hc Hrx Hcx) as (q & Eq & Hq & Hqx). run Eq. run (satisfiable q x Hq Hqx). by exists q.
Qed.
Lemma negated op : comparison op = true -> exists n, RangeAnalysis.NegateComparison op = Ok n /\ comparison n = true /\
  forall x y, ~ compares op x y -> compares n x y.
Proof. destruct op; try done; intros _; eexists; (split; [reflexivity|]); (split; [done|]); cbn; lia. Qed.
Lemma flipped op : comparison op = true -> exists n, RangeAnalysis.FlipComparison op = Ok n /\ comparison n = true /\
  forall x y, compares op x y <-> compares n y x.
Proof. destruct op; try done; intros _; eexists; (split; [reflexivity|]); (split; [done|]); cbn; lia. Qed.
(** The constraints at the successors of a branch. *)
Lemma branch_constrained use op l r rep : use = 0 \/ use = 1 -> comparison op = true ->
  let b := if use =? 0 then r else l in let v := if use =? 0 then l else r in
  (rank b < definitions g)%nat -> smi (val b) -> (rep = kTagged /\ smi (val v) \/ exists T, value_type rep = Some T /\ ct_in T (val v)) ->
  exists c, RangeAnalysis.ConstrainValueAfterBranch g use op l r rep = Ok c /\ forall t f, c = Some (t, f) ->
    range_ok g val rank t /\ range_ok g val rank f /\
    (compares op (val l) (val r) -> contains val t (val v)) /\ (~ compares op (val l) (val r) -> contains val f (val v)).
Proof.
  intros Hu Hop b v Hb Hs Hrep. unfold RangeAnalysis.ConstrainValueAfterBranch.
  assert (RASSERT ((use =? 0) || (use =? 1)) = Ok tt) as -> by (by destruct Hu as [-> | ->]). cbn [mbind result_bind]. fold b.
  assert (exists k, (if use =? 0 then Ok op else RangeAnalysis.FlipComparison op) = Ok k /\ comparison k = true /\
    (compares op (val l) (val r) <-> compares k (val v) (val b))) as (k & -> & Hk & Hiff).
  { subst b v. destruct Hu as [-> | ->]; cbn; [by exists op|]. destruct (flipped op Hop) as (k & ? & ? & ?). by exists k. }
  cbn [mbind result_bind].
  assert (exists c, RangeAnalysis.boundary_full_range g b rep = Ok c /\ forall fr, c = Some fr -> exists lo hi, fr = full lo hi /\ is_s 64 lo /\ is_s 64 hi /\ lo <= val v <= hi)
    as (c & -> & Hfull).
  { unfold RangeAnalysis.boundary_full_range. destruct Hrep as [(-> & Hval) | (T & ET & Hval)].
    - eexists. split; [reflexivity|]. intros fr [= <-]. exists kSmiMin, kSmiMax. split_and!; [done|by vm_compute|by vm_compute|exact (proj1 Hval)|exact (proj2 Hval)].
    - destruct (Full_constant rep T ET) as (lo & hi & Ef & Hlo & Hhi & _ & Hin).
      assert (exists c, (_ ← RASSERT (IsUnboxedInteger rep); if negb (length_load (defn g b)) then Ok None else f ← Range.Full rep kTaggedNotAllowed; Ok (Some f)) = Ok c /\
        (c = None \/ c = Some (full lo hi))) as (c & Ec & Hc).
      { unfold IsUnboxedInteger. rewrite ET, Ef. cbn [RASSERT mbind result_bind]. destruct (length_load (defn g b)); cbn; eauto. }
      exists c. split; [destruct rep; try discriminate; exact Ec|]. intros fr ->. destruct Hc as [Hc|Hc]; [done|]. injection Hc as ->.
      exists lo, hi. split_and!; [done|done|done|by apply Hin..]. }
  cbn [mbind result_bind]. destruct c as [fr|]; [|by exists None]. destruct (Hfull fr eq_refl) as (lo & hi & -> & Hlo & Hhi & Hval).
  destruct (ConstraintRange_ok k b lo hi Hlo Hhi Hb Hs Hk) as (t & Et & Ht & Hit). run Et.
  destruct (negated k Hk) as (n & En & Hn & Hneg). run En.
  destruct (ConstraintRange_ok n b lo hi Hlo Hhi Hb Hs Hn) as (f & Ef & Hf & Hif). run Ef.
  eexists. split; [reflexivity|]. intros t' f' [= <- <-]. split_and!; [done|done|intros; apply Hit; [done|by apply Hiff]|].
  intros Hnot. apply Hif; [done|]. apply Hneg. by rewrite <- Hiff.
Qed.
(** The constraints after a bounds check. *)
Lemma checked_constrained (constrains_index : bool) length index : (rank length < definitions g)%nat -> (rank index < definitions g)%nat ->
  smi (val length) -> smi (val index) -> 0 <= val index < val length ->
  holds (val (if constrains_index then index else length)) (RangeAnalysis.ConstrainValueAfterCheckBound g constrains_index length index).
Proof.
  intros Hl Hi Sl Si Hb. unfold RangeAnalysis.ConstrainValueAfterCheckBound. destruct constrains_index.
  - destruct (from_definition length (-1) Hl Sl) as (b & Eb & Ob & Vb & _); [by vm_compute|]. run Eb. exists (mkRange (FromConstant 0) b).
    split; [done|]. split; [by split|]. split; cbn; lia.
  - destruct (from_definition index 1 Hi Si) as (b & Eb & Ob & Vb & _); [by vm_compute|]. run Eb. exists (mkRange b MaxSmi).
    split; [done|]. split; [by split|]. unfold smi in Sl. split; cbn; lia.
Qed.
Lemma check_bound_holds x len lr ir : 0 <= x < len -> is_s 64 len ->
  (forall r, lr = Some r -> range_ok g val rank r /\ contains val r len) -> (forall r, ir = Some r -> range_ok g val rank r /\ contains val r x) ->
  exists q, RangeAnalysis.CheckBound_InferRange g lr ir = Ok (Some q) /\ range_ok g val rank q /\ contains val q x.
Proof.
  intros Hx Hlen Hl Hi. unfold RangeAnalysis.CheckBound_InferRange.
  assert (exists u, Range.ConstantMax_in g lr Int64 = Ok (kConstant u) /\ is_s 64 u /\ len <= u) as (u & Eu & Ru & Hu).
  { unfold Range.ConstantMax_in, constant_max. destruct lr as [r|].
    - destruct (Hl r eq_refl) as [Hr Hc]. destruct (range_bounds r Hr) as (l & u & B). pose proof (bounds_contain _ _ _ _ B Hc).
      destruct B as (_ & Eu & _ & Ru & _). run Eu. change Int64 with (full kMinInt64 kMaxInt64). rewrite Clamp_constant, clamp_64 by done.
      exists u. split_and!; [done|done|lia].
    - exists kMaxInt64. split_and!; [done|by vm_compute|unfold is_s, kMaxInt64 in *; lia]. }
  run Eu. set (checked := mkRange (FromConstant 0) (kConstant u)).
  assert (Hck : range_ok g val rank checked /\ contains val checked x) by (split; [split; [by vm_compute|done]|unfold contains; cbn; lia]). destruct Hck as [Hck Hcx].
  assert (holds x (match ir with Some ir => if RangeBoundary.IsUnknown (min_ ir) then Ok checked else Range.Intersect g ir checked | None => Ok checked end)) as (q & Eq & Hq & Hqx).
  { destruct ir as [r|]; [|by exists checked]. destruct (Hi r eq_refl) as [Hr Hc].
    rewrite (known_min r Hr). by apply Intersect_holds. }
  run Eq. run (satisfiable q x Hq Hqx). by exists q.
Qed.
Lemma phi_widened lo hi r q : is_s 64 lo -> is_s 64 hi -> lo <= hi -> range_ok g val rank r -> inhabited lo hi r -> range_ok g val rank q ->
  exists t, RangeAnalysis.phi_update g RangeAnalysis.WIDEN r q (full lo hi) = Ok t /\ range_ok g val rank t /\
    (forall x, lo <= x <= hi -> contains val q x -> contains val t x) /\
    (min_ t = min_ r \/ (widenings lo hi lo (min_ t) < widenings lo hi lo (min_ r))%nat) /\
    (max_ t = max_ r \/ (widenings lo hi hi (max_ t) < widenings lo hi hi (max_ r))%nat).
Proof.
  intros Hlo Hhi Hf Hr (w & Hw & [? ?]) Hq. unfold RangeAnalysis.phi_update.
  destruct (WidenMin_ok lo hi Hlo Hhi Hf r q Hr Hq) as (a & Ea & Oa & Ha & Ma); [lia|].
  destruct (WidenMax_ok lo hi Hlo Hhi Hf r q Hr Hq) as (b & Eb & Ob & Hb & Mb); [lia|]. run Ea. run Eb.
  exists (mkRange a b). split; [done|]. split; [by split|]. split; [|done]. intros x Hx [? ?]. split; cbn; [by apply Ha|by apply Hb].
Qed.
Lemma phi_narrowed lo hi r q : range_ok g val rank r -> range_ok g val rank q ->
  exists t, RangeAnalysis.phi_update g RangeAnalysis.NARROW r q (full lo hi) = Ok t /\ range_ok g val rank t /\
    forall x, contains val r x -> contains val q x -> contains val t x.
Proof.
  intros Hr Hq. unfold RangeAnalysis.phi_update. destruct (Narrow_ok lo hi r q Hr Hq) as (a & b & Ea & Eb & Ha & Hb). run Ea. run Eb.
  exists (mkRange a b). split; [done|]. destruct Hr as [R1 R2], Hq as [Q1 Q2].
  split; [by destruct Ha as [-> | ->], Hb as [-> | ->]|]. intros x [? ?] [? ?]. split; cbn; [by destruct Ha as [-> | ->]|by destruct Hb as [-> | ->]].
Qed.

(** ** Bounds checks *)

(** The upper bound of a definition that need not be a Smi. *)
Lemma upper_symbol d r : range_ (defn g d) = Some r -> (rank d < definitions g)%nat ->
  exists m, UpperBound g (kSymbol d 0) = Ok (kConstant m) /\ smi m /\ (val d <= m \/ m = kSmiMax).
Proof.
  intros Er Hd. destruct (value_in_range _ _ _ Hv d r Er Hd) as ([_ R2] & _ & B & [_ Hin]). unfold UpperBound.
  destruct (definitions g) as [|n] eqn:En; [lia|]. cbn [UpperBound_rounds]. unfold constant_max. rewrite Er.
  destruct (upper_rounds n (max_ r) R2) as (c & Ec & _ & Hc); [intros s o Es; rewrite Es in B; cbn in B; lia|]. run Ec.
  change Smi with (full kSmiMin kSmiMax). rewrite Clamp_constant. cbn [mbind result_bind].
  pose proof (clamp_spec kSmiMin kSmiMax c ltac:(by vm_compute)) as Hcl. exists (clamp kSmiMin kSmiMax c).
  assert (Hm : smi (clamp kSmiMin kSmiMax c)) by (unfold smi; lia). pose proof (proj1 (smi_range _) Hm).
  unfold FromConstant. rewrite Add_constant by (unfold is_s; lia). rewrite Z.add_0_r. split_and!; [done|done|].
  unfold clamp. destruct (Z.leb_spec c kSmiMin), (Z.leb_spec kSmiMax c); [right; lia|left; lia|right; lia|left; lia].
Qed.
(** The index as a boundary, with an upper bound of it. *)
Lemma index_boundary d r : range_ (defn g d) = Some r -> (rank d < definitions g)%nat -> is_s 64 (val d) ->
  exists b m, FromDefinition g d 0 = Ok b /\ weak b /\ ev b = val d /\ (height b <= definitions g)%nat /\
    UpperBound g b = Ok (kConstant m) /\ (val d <= m \/ m = kSmiMax).
Proof.
  intros Er Hd Hr. pose proof (value_of_kind _ _ _ Hv d Hd) as Hk. unfold kind_ok in Hk. unfold FromDefinition.
  assert (Hsym : exists b m, (_ ← RASSERT (IsValidOffsetForSymbolicRangeBoundary 0); Ok (kSymbol d 0)) = Ok b /\ weak b /\ ev b = val d /\
    (height b <= definitions g)%nat /\ UpperBound g b = Ok (kConstant m) /\ (val d <= m \/ m = kSmiMax)).
  { destruct (upper_symbol d r Er Hd) as (m & Em & _ & Hm). exists (kSymbol d 0), m. unfold weak. cbn [eval height]. rewrite Z.add_0_r.
    split_and!; [by vm_compute|done|by vm_compute|done|done|lia|done|done]. }
  destruct (kind_ (defn g d)) as [v| | | |]; try exact Hsym. subst v. destruct (IsSmi (val d)); [|exact Hsym].
  rewrite Z.add_0_r, s64_id by done. exists (kConstant (val d)), (val d). split; [done|]. split; [by split|]. split; [done|]. split; [cbn; lia|]. split; [|by left].
  unfold UpperBound. by destruct (definitions g).
Qed.

(** What is known of an index. *)
Definition known_index (index : Z) (r : Range) (b : RangeBoundary) : Prop :=
  range_ok g val rank r /\ contains val r (val index) /\ weak b /\ ev b = val index /\ (height b <= definitions g)%nat /\
  exists m, UpperBound g b = Ok (kConstant m) /\ (val index <= m \/ m = kSmiMax).
Lemma index_known_ok index : (rank index < definitions g)%nat -> is_s 64 (val index) ->
  exists known, RangeAnalysis.index_known g index = Ok known /\ forall r b, known = Some (r, b) -> known_index index r b.
Proof.
  intros Hi Hir. unfold RangeAnalysis.index_known, known_index. destruct (range_ (defn g index)) as [r|] eqn:Er.
  - destruct (index_boundary index r Er Hi Hir) as (b & m & Eb & Hw & Ev & Hh & Em & Hm). run Eb. eexists. split; [reflexivity|]. intros r' b' [= <- <-].
    destruct (value_in_range _ _ _ Hv index r Er Hi) as (Hr & _ & _ & Hc). split_and!; try done. by exists m.
  - destruct (smi_bound (defn g index)) as [c|] eqn:Ec; [|by exists None]. pose proof (value_of_bound _ _ _ Hv index c Ec) as Evc.
    eexists. split; [reflexivity|]. intros r' b' [= <- <-]. unfold range_ok, contains, weak. cbn. rewrite <- Evc. split_and!; try done; try lia.
    exists (val index). split; [|by left]. unfold UpperBound. by destruct (definitions g).
Qed.
Lemma index_below_sound index r b length : known_index index r b -> (rank length < definitions g)%nat -> smi (val length) ->
  exists e, RangeAnalysis.index_below g r b length = Ok e /\ (e = true -> 0 <= val index < val length).
Proof.
  intros (Hr & Hc & Hw & Ev & Hh & m & Em & Hm) Hl Hls. unfold RangeAnalysis.index_below.
  destruct (range_bounds r Hr) as (l & u & El & _ & Rl & _ & Bl & _). unfold Range.ConstantMinSmi, Range.ConstantMin_in, constant_min. run El.
  change Smi with (full kSmiMin kSmiMax). rewrite Clamp_constant. cbn [mbind result_bind ConstantValue].
  destruct (Z.ltb_spec (clamp kSmiMin kSmiMax l) 0) as [_|Hpos]; [by exists false|].
  assert (H0 : 0 <= val index).
  { destruct Hc as [Hc _]. unfold clamp in Hpos. destruct (Z.leb_spec l kSmiMin); [assert (kSmiMin < 0) by (by vm_compute); lia|].
    destruct (Z.leb_spec kSmiMax l) as [Hle|]; [assert (0 <= kSmiMax) by (by vm_compute)|]; lia. }
  run Em. destruct (from_definition length 0 Hl Hls) as (al & Eal & Oal & Val & _); [by vm_compute|]. run Eal. rewrite Z.add_0_r in Val.
  destruct (lower al Oal) as (ll & Ell & _ & Bll). run Ell.
  destruct (OverflowedSmi (kConstant m) || OverflowedSmi (kConstant ll)); [by exists false|]. cbn [mbind result_bind ConstantValue].
  destruct (Z.ltb_spec m ll) as [Hlt|_]; [exists true; split; [done|]; intros _; unfold smi in Hls; lia|].
  destruct (canonicalize_boundary al MaxInt64 Oal) as (cl & Ecl & Hcl). run Ecl. destruct Hcl as [->|(Ocl & Vcl & _)]; [by exists false|].
  destruct (OverflowedSmi cl); [by exists false|]. pose proof (height_definitions _ Ocl).
  destruct (compare_loop_ok Z.le Z.ge _ _ weak (comparison_rounds g) b cl max_steps min_steps ltac:(done) ok_weak Hw (ok_weak _ Ocl)) as (res & Eres & Hres);
    [unfold comparison_rounds; lia|].
  run Eres. destruct res as [[b' cl']|]; [|by exists false]. eexists. split; [reflexivity|]. intros Hlt. rewrite Z.ltb_lt in Hlt.
  destruct (Hres b' cl' eq_refl) as (_ & _ & L1 & L2 & Eo). lia.
Qed.
Lemma redundant_sound index length : (rank index < definitions g)%nat -> (rank length < definitions g)%nat -> is_s 64 (val index) -> smi (val length) ->
  exists b, RangeAnalysis.IsRedundantBasedOnRangeInformation g index length = Ok b /\ (b = true -> 0 <= val index < val length).
Proof.
  intros Hi Hl Hir Hls. unfold RangeAnalysis.IsRedundantBasedOnRangeInformation. destruct (index_known_ok index Hi Hir) as (known & Ek & Hk).
  assert (Hmain : exists b, (known ← RangeAnalysis.index_known g index;
    match known with None => Ok false | Some (r, m) => RangeAnalysis.index_below g r m length end) = Ok b /\ (b = true -> 0 <= val index < val length)).
  { run Ek. destruct known as [[r b]|]; [|by exists false]. by apply (index_below_sound index r b length); [apply Hk|..]. }
  destruct (smi_bound (defn g index)) as [ci|] eqn:Eci; [|exact Hmain]. destruct (smi_bound (defn g length)) as [cl|] eqn:Ecl; [|exact Hmain].
  eexists. split; [reflexivity|]. rewrite (value_of_bound _ _ _ Hv _ _ Eci), (value_of_bound _ _ _ Hv _ _ Ecl), andb_true_iff, Z.leb_le, Z.ltb_lt. done.
Qed.
End Sound.

(** ** Results between constants *)

Section Constants.
Context (g : FlowGraph).
Definition constants (r : range_result Range) : Prop := forall q, r = Ok q -> exists a b, q = full a b.
Lemma constants_full a b : constants (Ok (mkRange (kConstant a) (kConstant b))).
Proof. intros q [= <-]. by exists a, b. Qed.
Lemma constants_bind {A} (m : range_result A) f : (forall x, m = Ok x -> constants (f x)) -> constants (x ← m; f x).
Proof. intros H q. destruct m; [by apply H|done]. Qed.
Lemma constants_if (b : bool) x y : constants x -> constants y -> constants (if b then x else y).
Proof. by destruct b. Qed.
Lemma Shl_constant_inv b n c : RangeBoundary.Shl b n = Ok c -> exists v, c = kConstant v.
Proof.
  unfold RangeBoundary.Shl. destruct (ConstantValue b) as [v|]; [|done]. cbn [mbind result_bind]. destruct (WillShlOverflow b n) as [o|]; [|done].
  cbn [mbind result_bind]. destruct o; [done|]. cbn. destruct (v =? 0); intros [= <-]; eauto.
Qed.
Lemma Shr_constant_inv b n c : RangeBoundary.Shr b n = Ok c -> exists v, c = kConstant v.
Proof.
  unfold RangeBoundary.Shr. destruct (ConstantValue b) as [v|]; [|done]. cbn [mbind result_bind]. destruct (0 <=? n); [|done].
  intros [= <-]. eauto.
Qed.
Ltac constants_tac := repeat first
  [ apply constants_full | apply constants_if | apply constants_bind; intros | progress cbv zeta ].

(** All operations but additions and subtractions. *)
Lemma BinaryOp_constants op L R left_defn : op <> kADD -> op <> kSUB -> constants (Range.BinaryOp g op L R left_defn).
Proof.
  intros Ha Hs.
  assert (Hc : forall r, constants r -> constants (r ← r;
    _ ← RASSERT (negb (RangeBoundary.IsUnknown (min_ r)) && negb (RangeBoundary.IsUnknown (max_ r)));
    _ ← RASSERT (match min_ r, max_ r with kConstant l, kConstant u => l <=? u | _, _ => true end); Ok r)).
  { intros r Hr. apply constants_bind. intros x ->. destruct (Hr x eq_refl) as (a & b & ->). constants_tac. }
  assert (Hb : constants (Range.BitwiseOp g L R)) by (unfold Range.BitwiseOp; constants_tac).
  destruct op; try done; cbn [Range.BinaryOp]; try apply Hc; try exact Hb;
    unfold Range.Mul, Range.TruncDiv, Range.Mod, Range.Shl, Range.Shr, Range.Ushr, Range.And; constants_tac; try exact Hb.
  all: repeat match goal with
    | H : RangeBoundary.Shl _ _ = Ok _ |- _ => apply Shl_constant_inv in H as [? ->]
    | H : RangeBoundary.Shr _ _ = Ok _ |- _ => apply Shr_constant_inv in H as [? ->]
    end; constants_tac.
Qed.
Lemma helper_constants op rep t L R left_defn lo hi q o : op <> kADD -> op <> kSUB -> full_of rep lo hi ->
  RangeAnalysis.InferRangeHelper g op rep t L R left_defn = Ok (Some (q, o)) -> exists a b, q = full a b /\ lo <= a /\ b <= hi.
Proof.
  intros Ha Hs (Ef & _ & _ & Hf). unfold RangeAnalysis.InferRangeHelper. destruct L as [l|], R as [r|]; try done.
  destruct (_ || _); [done|]. destruct (Range.BinaryOp g op l r left_defn) as [x|] eqn:Ex; [|done].
  destruct (BinaryOp_constants op l r left_defn Ha Hs x Ex) as (a & b & ->). cbn [mbind result_bind].
  change (RASSERT (negb (RangeBoundary.IsUnknown (min_ (full a b))))) with (Ok (E := range_error) tt). cbn [mbind result_bind].
  destruct (if negb t then _ else _) as [c|]; [|done]. cbn [mbind result_bind]. rewrite Ef. cbn [mbind result_bind].
  unfold Range.Clamp. change (min_ (full a b)) with (kConstant a). change (max_ (full a b)) with (kConstant b). rewrite !Clamp_constant.
  cbn [mbind result_bind]. intros [= <- <-]. eexists _, _. split; [reflexivity|]. split; by apply clamp_spec.
Qed.
End Constants.

(** ** Ranges that do not contain their values *)

Section Unsound.
Context (g : FlowGraph).

(** The bounds of a symbol whose range is between two Smis. *)
Lemma symbol_bounds s o a b : (0 < definitions g)%nat -> range_ (defn g s) = Some (full a b) -> smi a -> smi b ->
  IsValidOffsetForSymbolicRangeBoundary o = true ->
  LowerBound g (kSymbol s o) = Ok (kConstant (a + o)) /\ UpperBound g (kSymbol s o) = Ok (kConstant (b + o)).
Proof.
  intros Hn Hr Ha Hb Ho. unfold LowerBound, UpperBound. destruct (definitions g) as [|n]; [lia|]. cbn [LowerBound_rounds UpperBound_rounds].
  rewrite Hr. unfold constant_min, constant_max.
  assert (El : LowerBound_rounds g n (min_ (full a b)) = Ok (kConstant a)) by (by destruct n).
  assert (Eu : UpperBound_rounds g n (max_ (full a b)) = Ok (kConstant b)) by (by destruct n).
  rewrite El, Eu. cbn [mbind result_bind]. change Smi with (full kSmiMin kSmiMax). rewrite !Clamp_constant. cbn [mbind result_bind].
  rewrite !clamp_id by done. apply valid_offset in Ho. rewrite smi_range in Ha, Hb.
  split; apply Add_constant; unfold is_s; lia.
Qed.
Lemma constant_boundary v : LowerBound g (kConstant v) = Ok (kConstant v) /\ UpperBound g (kConstant v) = Ok (kConstant v).
Proof. unfold LowerBound, UpperBound. by destruct (definitions g). Qed.

(** [Join] of a range below the next one, or above it, that has a symbol at its far end. *)
Lemma Join_symbol r d x y lo hi (below : bool) s o c a b s' d' :
  (0 < definitions g)%nat -> range_ (defn g s) = Some (full a b) -> smi a -> smi b -> IsValidOffsetForSymbolicRangeBoundary o = true ->
  UnwrapConstraint g s = Ok s' -> UnwrapConstraint g d = Ok d' -> s' <> d' -> lo <= x -> x <= y -> y <= hi ->
  r = (if below then mkRange (kSymbol s o) (kConstant c) else mkRange (kConstant c) (kSymbol s o)) ->
  (if below then lo <= c <= x else y <= c <= hi /\ x < b + o /\ x < hi) ->
  RangeAnalysis.Join g r d (Some (full x y)) (full lo hi) = Ok (if below then mkRange (kSymbol s o) (kConstant y) else mkRange (kConstant x) (kSymbol s o)).
Proof.
  intros Hn Hr Ha Hb Ho Es Ed Hne Hx Hxy Hy -> Hc. destruct (symbol_bounds s o a b Hn Hr Ha Hb Ho) as [El Eu].
  assert (Hdep : RangeAnalysis.DependsOnSymbol g (kSymbol s o) d' = Ok false).
  { cbn. rewrite Es. cbn. by rewrite (proj2 (Z.eqb_neq s' d')). }
  assert (HL : forall v, lo <= v <= hi -> LowerBound_in g (kConstant v) (full lo hi) = Ok v).
  { intros v Hv. unfold LowerBound_in. rewrite (proj1 (constant_boundary v)). cbn [mbind result_bind]. rewrite Clamp_constant, clamp_id by done. done. }
  assert (HU : forall v, lo <= v <= hi -> UpperBound_in g (kConstant v) (full lo hi) = Ok v).
  { intros v Hv. unfold UpperBound_in. rewrite (proj2 (constant_boundary v)). cbn [mbind result_bind]. rewrite Clamp_constant, clamp_id by done. done. }
  assert (EL : LowerBound_in g (kSymbol s o) (full lo hi) = Ok (clamp lo hi (a + o))).
  { unfold LowerBound_in. rewrite El. cbn [mbind result_bind]. by rewrite Clamp_constant. }
  assert (EU : UpperBound_in g (kSymbol s o) (full lo hi) = Ok (clamp lo hi (b + o))).
  { unfold UpperBound_in. rewrite Eu. cbn [mbind result_bind]. by rewrite Clamp_constant. }
  unfold RangeAnalysis.Join. destruct below; cbn [min_ max_ full RangeBoundary.IsUnknown]; run Ed; rewrite Hdep;
    cbn [RangeAnalysis.DependsOnSymbol mbind result_bind orb min_ max_ full]; fold (full lo hi); rewrite EL || rewrite EU; rewrite ?EL, ?EU; cbn [mbind result_bind];
    rewrite ?HL, ?HU by lia; cbn [mbind result_bind]; rewrite ?EU; cbn [mbind result_bind]; rewrite ?HU by lia; cbn [mbind result_bind].
  - by rewrite (proj2 (Z.leb_le c x)) by lia.
  - rewrite (proj2 (Z.leb_gt (clamp lo hi (b + o)) x)); [by rewrite (proj2 (Z.leb_le y c)) by lia|].
    unfold clamp. destruct (Z.leb_spec (b + o) lo), (Z.leb_spec hi (b + o)); lia.
Qed.

(** A symbol that the phi loses. *)
Definition lost (dom : Z -> bool) (b : RangeBoundary) : Prop :=
  exists s o u, b = kSymbol s o /\ dom s = false /\ UnwrapConstraint g s = Ok u /\ dom u = false.
Lemma acyclic_lost dom b limit : lost dom b -> RangeAnalysis.EnsureAcyclicSymbol g dom b limit = Ok limit.
Proof. intros (s & o & u & -> & E1 & E2 & E3). unfold RangeAnalysis.EnsureAcyclicSymbol. rewrite E1, E2. cbn. rewrite E3. by rewrite andb_false_r. Qed.
Lemma acyclic_kept dom b limit : match b with kSymbol s _ => dom s = true | _ => True end -> RangeAnalysis.EnsureAcyclicSymbol g dom b limit = Ok b.
Proof. destruct b; cbn; intros H; by rewrite ?H. Qed.

(** An addition of 32-bit unsigned integers that truncates. *)
Lemma uint32_sum a b c e left_defn : 0 <= a -> a <= b -> b < 2 ^ 32 -> 0 <= c -> c <= e -> e < 2 ^ 32 ->
  Range.IsLengthLoad g left_defn = false ->
  RangeAnalysis.InferRangeHelper g kADD kUnboxedUint32 true (Some (full a b)) (Some (full c e)) left_defn =
    Ok (Some (full (clamp 0 (2 ^ 32 - 1) (a + c)) (clamp 0 (2 ^ 32 - 1) (b + e)), None)).
Proof.
  intros Ha Hab Hb Hc Hce He Hl. unfold RangeAnalysis.InferRangeHelper. cbn [full min_ max_ RangeBoundary.IsUnknown orb].
  assert (Eb : forall v, Range.left_boundary g left_defn (kConstant v) = Ok (kConstant v)).
  { intros v. unfold Range.left_boundary. destruct left_defn; [|done]. by rewrite Hl. }
  assert (Ho : forall v w, 0 <= v < 2 ^ 32 -> 0 <= w < 2 ^ 32 -> AddOverflows (kConstant v) (kConstant w) = Ok false).
  { intros v w Hv Hw. unfold AddOverflows. cbn [ConstantValue mbind result_bind]. rewrite (proj2 (add_overflow v w ltac:(unfold is_s; lia) ltac:(unfold is_s; lia))); [done|unfold is_s; lia]. }
  assert (Es : Range.Add g (full a b) (full c e) left_defn = Ok (full (a + c) (b + e))).
  { unfold Range.Add. cbn [full min_ max_]. rewrite !Eb. cbn [mbind result_bind SymbolicAdd Range.sum_boundary].
    rewrite !(proj1 (constant_boundary _)), !(proj2 (constant_boundary _)). cbn [mbind result_bind]. rewrite !Ho by lia. cbn [mbind result_bind].
    rewrite !Add_constant by (unfold is_s; lia). done. }
  cbn [Range.BinaryOp]. fold (full a b) (full c e). run Es. cbn [full min_ max_ RangeBoundary.IsUnknown negb andb RASSERT mbind result_bind].
  rewrite (proj2 (Z.leb_le (a + c) (b + e))) by lia. cbn [RASSERT mbind result_bind min_ RangeBoundary.IsUnknown negb].
  change (Range.Full kUnboxedUint32 kTaggedIsSmi) with (Ok (E := range_error) (full 0 (2 ^ 32 - 1))). cbn [mbind result_bind].
  change (min_ (full (a + c) (b + e))) with (kConstant (a + c)). cbn [RangeBoundary.IsUnknown negb RASSERT mbind result_bind].
  unfold Range.Clamp. change (min_ (full (a + c) (b + e))) with (kConstant (a + c)). change (max_ (full (a + c) (b + e))) with (kConstant (b + e)).
  rewrite !Clamp_constant. done.
Qed.
End Unsound.
End RangeFacts.
