(* ===== verification/RangeAnalysisCorrect.v ===== *)
(** * The theorems on range analysis

    What the arithmetic of ranges, the ranges of phis, constraints and conversions, and the
    elimination of bounds checks promise, and the phis and truncating operations whose
    ranges do not contain their values. *)

From S2P Require Import Prelude Utils RangeAnalysis RangeAnalysisProofs.
Import RangeBoundary RepresentationUtils RangeAnalysis RangeFacts.

(** C26: Operations.  In a graph in which every range contains the value of its definition
    and has symbols defined before it only ([valuation_ok]): for every operation of the
    language and operands in their ranges, whether the boundaries are constants or symbols,
    a left operand that is the load of a length being a Smi, [BinaryOp] ends, no assertion
    fails, and the range it returns contains the 64-bit result.  [InferRangeHelper] clamps it
    to the representation: a result that fits the representation stays in the range (one
    that a truncating operation wraps need not), and an operation that does not
    truncate and is said not to overflow has a result that fits.  For the representations
    that instructions unbox to, Int32, Uint32 and Int64, the assertions of
    [UnboxInteger_InferRange] hold and its range contains the unboxed value; those of
    [IntConverter_InferRange] hold and its range contains the converted value when the
    value's range lies within the representation it is converted from, or is not known. *)
Theorem range_operations_sound g val rank : valuation_ok g val rank ->
  (forall op L R left_defn x y, range_ok g val rank L -> range_ok g val rank R -> contains val L x -> contains val R y ->
   left_ok g val rank left_defn x ->
   (exists q, Range.BinaryOp g op L R left_defn = Ok q /\ range_ok g val rank q /\ forall z, apply_op op x y = Some z -> contains val q z) /\
   (forall rep truncating z lo hi, apply_op op x y = Some z -> full_of rep lo hi ->
    exists q o, InferRangeHelper g op rep truncating (Some L) (Some R) left_defn = Ok (Some (q, o)) /\ range_ok g val rank q /\
      (lo <= z <= hi -> contains val q z) /\ (o = Some false -> lo <= z <= hi))) /\
  (forall unbox64 d rep T, unboxes rep -> value_type rep = Some T -> (rank d < definitions g)%nat -> (length_load (defn g d) = true -> smi (val d)) ->
   (unbox64 = true -> ct_in T (val d)) ->
   exists q, UnboxInteger_InferRange g unbox64 d rep = Ok q /\ range_ok g val rank q /\ contains val q (ct_cast T (val d))) /\
  (forall from to Tf Tt r x, value_type from = Some Tf -> value_type to = Some Tt -> range_ok g val rank r ->
   CheckRangeForRepresentation g r from = Ok tt -> contains val r x ->
   exists q, IntConverter_InferRange g from to (Some r) = Ok q /\ range_ok g val rank q /\ contains val q (ct_cast Tt x)) /\
  (forall from to Tt x, from = kUntagged \/ IsUnboxedInteger from = true -> value_type to = Some Tt ->
   exists q, IntConverter_InferRange g from to None = Ok q /\ range_ok g val rank q /\ contains val q (ct_cast Tt x)).
Proof.
  intros Hv. split_and!.
  - intros op L R left_defn x y HL HR Hx Hy Hl. split; [by apply binary_op_holds|]. intros rep truncating z lo hi Hz Hf.
    destruct (helper_holds g val rank Hv op rep truncating L R left_defn x y z lo hi HL HR Hx Hy Hl Hz Hf) as (q & o & ? & ? & ? & _ & ?). by exists q, o.
  - intros. by apply unbox_holds.
  - intros from to Tf Tt r x. intros. by apply (convert_holds g val rank Hv from to Tf Tt).
  - intros from to Tt x Hf Ht. by apply (convert_unknown_holds g val rank from to Tt x).
Qed.

(** C27: Control flow. The graph has values under which every range contains the value of its
    definition and has symbols defined before it only ([valuation_ok]). (1) If all
    inputs of a phi are Smis inside the full range of the phi and, by the same
    valuation, inside their own ranges, the range of the phi contains the values of all
    of them; when the symbol in the range of an input that was not taken has another
    value, it need not. (2) After a comparison with a Smi the range of the constraint,
    and after a bounds check with a 64-bit length the range of the index, contain every
    value that passed and was in the range before. (3) The constraints at the two
    successors of a branch, on either operand, a Smi or an unboxed integer compared with
    a Smi, contain its value on the successor that is taken; those after a bounds check
    of Smis contain the index and the length. (4) Widening a range that contains some
    value of the full range keeps the values of the new range and changes each boundary
    at most three times; narrowing keeps the values that are in both ranges. *)
Theorem range_control_flow_sound g val rank lo hi : valuation_ok g val rank -> is_s 64 lo -> is_s 64 hi -> lo <= hi ->
  (forall d ds dom, Forall (input_ok g val rank lo hi) (d :: ds) -> Forall (fun d => smi (val d)) (d :: ds) ->
   exists q, Phi_InferRange g (d :: ds) dom (full lo hi) = Ok q /\ range_ok g val rank q /\ Forall (fun d => contains val q (val d)) (d :: ds)) /\
  (forall op d x r, lo <= x <= hi -> (rank d < definitions g)%nat -> smi (val d) -> compares op x (val d) -> range_ok g val rank r -> contains val r x ->
   exists c, ConstraintRange g op d (full lo hi) = Ok c /\ range_ok g val rank c /\ contains val c x /\
     exists q, Constraint_InferRange g (Some r) c = Ok (Some q) /\ range_ok g val rank q /\ contains val q x) /\
  (forall x len lr ir, 0 <= x < len -> is_s 64 len -> (forall r, lr = Some r -> range_ok g val rank r /\ contains val r len) ->
   (forall r, ir = Some r -> range_ok g val rank r /\ contains val r x) ->
   exists q, CheckBound_InferRange g lr ir = Ok (Some q) /\ range_ok g val rank q /\ contains val q x) /\
  (forall use op l r rep, use = 0 \/ use = 1 -> comparison op = true ->
   let b := if use =? 0 then r else l in let v := if use =? 0 then l else r in
   (rank b < definitions g)%nat -> smi (val b) -> (rep = kTagged /\ smi (val v) \/ exists T, value_type rep = Some T /\ ct_in T (val v)) ->
   exists c, ConstrainValueAfterBranch g use op l r rep = Ok c /\ forall t f, c = Some (t, f) -> range_ok g val rank t /\ range_ok g val rank f /\
     (compares op (val l) (val r) -> contains val t (val v)) /\ (~ compares op (val l) (val r) -> contains val f (val v))) /\
  (forall (on_index : bool) length index, (rank length < definitions g)%nat -> (rank index < definitions g)%nat ->
   smi (val length) -> smi (val index) -> 0 <= val index < val length ->
   exists c, ConstrainValueAfterCheckBound g on_index length index = Ok c /\ range_ok g val rank c /\ contains val c (val (if on_index then index else length))) /\
  (forall r q, range_ok g val rank r -> inhabited val lo hi r -> range_ok g val rank q ->
   exists t, phi_update g WIDEN r q (full lo hi) = Ok t /\ range_ok g val rank t /\ (forall x, lo <= x <= hi -> contains val q x -> contains val t x) /\
     (min_ t = min_ r \/ (widenings lo hi lo (min_ t) < widenings lo hi lo (min_ r) <= 3)%nat) /\
     (max_ t = max_ r \/ (widenings lo hi hi (max_ t) < widenings lo hi hi (max_ r) <= 3)%nat)) /\
  (forall r q, range_ok g val rank r -> range_ok g val rank q ->
   exists t, phi_update g NARROW r q (full lo hi) = Ok t /\ range_ok g val rank t /\ forall x, contains val r x -> contains val q x -> contains val t x).
Proof.
  intros Hv Hlo Hhi Hf. split_and!.
  - intros. by apply Phi_ok.
  - intros op d x r Hx. intros. by apply constraint_holds.
  - intros x len lr ir Hx. intros. by apply (check_bound_holds g val rank Hv x len).
  - apply branch_constrained, Hv.
  - intros. by apply checked_constrained.
  - intros r q Hr Hi Hq. destruct (phi_widened g val rank Hv lo hi r q Hlo Hhi Hf Hr Hi Hq) as (t & Et & Ht & Hx & Hmin & Hmax).
    assert (Hw : forall l b, (widenings lo hi l b <= 3)%nat) by (intros l b; unfold widenings; repeat case_match; lia).
    exists t. split_and!; [done|done|done|destruct Hmin; auto|destruct Hmax; auto].
  - intros. by apply phi_narrowed.
Qed.

(** C28: Bounds checks. In a graph in which every range contains the value of its definition
    and has symbols defined before it only ([valuation_ok], which the iteration
    establishes for code that is executed in order, and which the ranges at the end of
    this file violate), for an index of 64 bits and a length that is a Smi,
    [IsRedundantBasedOnRangeInformation] ends and, when it says that the check is
    redundant, the index is inside the bounds. *)
Theorem bounds_check_elimination_sound g val rank index length : valuation_ok g val rank ->
  (rank index < definitions g)%nat -> (rank length < definitions g)%nat -> is_s 64 (val index) -> smi (val length) ->
  exists b, IsRedundantBasedOnRangeInformation g index length = Ok b /\ (b = true -> 0 <= val index < val length).
Proof. intros Hv. by apply redundant_sound. Qed.

(** ** Concrete graphs *)

(** A length of at most 2^40, and an index below it. *)
Definition loop_graph : FlowGraph := mkGraph
  (fun d => if d =? 0 then mkDefinition OtherDefinition (Some (full 0 (2 ^ 40))) true true None
            else if d =? 1 then mkDefinition OtherDefinition (Some (mkRange (kConstant 0) (kSymbol 0 (-1)))) false true None
            else mkDefinition OtherDefinition None false true None)
  (fun _ _ => false) 2.
Definition loop_values (d : Z) : Z := if d =? 0 then 10 else if d =? 1 then 3 else 0.
Definition loop_rank (d : Z) : nat := if d =? 0 then 0 else if d =? 1 then 1 else 2.
Lemma loop_ok : valuation_ok loop_graph loop_values loop_rank.
Proof.
  split.
  - intros d r. unfold loop_graph, loop_rank, loop_values. cbn. destruct (Z.eqb_spec d 0) as [->|].
    + intros [= <-] _. repeat split; try done; vm_compute; discriminate.
    + destruct (Z.eqb_spec d 1) as [->|]; [|done]. intros [= <-] _. repeat split; try done; try (vm_compute; discriminate); vm_compute; lia.
  - intros d _. unfold kind_ok, loop_graph. cbn. destruct (d =? 0); [done|]. by destruct (d =? 1).
  - done.
  - intros d c. unfold loop_graph. cbn. destruct (d =? 0); [done|]. by destruct (d =? 1).
Qed.

Lemma range_operations_sound_witness :
  exists q, Range.BinaryOp loop_graph kMUL (mkRange (kConstant 0) (kSymbol 0 (-1))) (full (-7) 5) None = Ok q /\ contains loop_values q (3 * 5) /\
    Range.BinaryOp loop_graph kMUL (mkRange (kConstant 0) (kSymbol 0 (-1))) (full (-7) 5) None = Ok (full (-7 * (2 ^ 40 - 1)) (7 * (2 ^ 40 - 1))).
Proof.
  destruct (range_operations_sound loop_graph loop_values loop_rank loop_ok) as [H _].
  destruct (H kMUL (mkRange (kConstant 0) (kSymbol 0 (-1))) (full (-7) 5) None 3 5) as [(q & Eq & _ & Hq) _].
  - repeat split; try done; try (vm_compute; discriminate); vm_compute; lia.
  - by repeat split.
  - by repeat split.
  - by repeat split.
  - done.
  - exists q. split; [exact Eq|]. split; [apply Hq; vm_compute; reflexivity|vm_compute; reflexivity].
Defined.
Lemma range_control_flow_sound_witness :
  exists q, Phi_InferRange loop_graph [0; 1] (fun _ => true) Smi = Ok q /\ contains loop_values q 10 /\ contains loop_values q 3 /\
    q = mkRange (kConstant 0) (kConstant (2 ^ 40)).
Proof.
  destruct (range_control_flow_sound loop_graph loop_values loop_rank kSmiMin kSmiMax loop_ok) as [H _];
    [vm_compute; split; congruence|vm_compute; split; congruence|vm_compute; discriminate|].
  destruct (H 0 [1] (fun _ => true)) as (q & Eq & _ & Hq).
  - repeat (apply Forall_cons; split); try done; (split; [vm_compute; lia|split; [vm_compute; split; discriminate|done]]).
  - repeat (apply Forall_cons; split); try done; vm_compute; split; discriminate.
  - exists q. apply Forall_cons in Hq as [H0 Hq]. apply Forall_cons in Hq as [H1 _]. split; [exact Eq|]. split; [exact H0|]. split; [exact H1|].
    enough (Ok (E := range_error) q = Ok (mkRange (kConstant 0) (kConstant (2 ^ 40)))) by congruence. rewrite <- Eq. vm_compute. reflexivity.
Defined.
Lemma bounds_check_elimination_sound_witness :
  IsRedundantBasedOnRangeInformation loop_graph 1 0 = Ok true /\ 0 <= loop_values 1 < loop_values 0.
Proof.
  assert (E : IsRedundantBasedOnRangeInformation loop_graph 1 0 = Ok true) by (vm_compute; reflexivity). split; [exact E|].
  destruct (bounds_check_elimination_sound loop_graph loop_values loop_rank 1 0 loop_ok) as (b & Eb & Hb);
    [vm_compute; lia|vm_compute; lia|vm_compute; split; congruence|vm_compute; split; congruence|].
  apply Hb. congruence.
Defined.

(** C30: Ranges that do not contain their values.
    (1) For any phi of two inputs of which the first has a range from a symbol (with an
    offset) to a constant and the second a constant range above that constant, and a symbol
    that dominates the phi, has a range between Smis and is not the second input, [Join]
    keeps the symbol as the minimum: every value of the second input that is smaller than
    the symbol's is outside the range of the phi, and for every value of it below the
    symbol's largest one there is such a symbol; and the same for a maximum and a second
    range below the constant.
    (2) A phi whose joined range has symbols that do not dominate it, also when their
    constraints are unwrapped, gets the range of the Smis, whatever its full range is:
    values of a 64-bit phi that are no Smis are outside.
    (3) The range of a truncating addition of 32-bit unsigned integers is clamped, so that a
    sum that wraps around to less than the sum of the minima is outside. *)
Theorem ranges_unsound g :
  (forall (below : bool) d e dom lo hi s s' e' o c a b x y,
   (0 < definitions g)%nat -> range_ (defn g s) = Some (full a b) -> smi a -> smi b -> IsValidOffsetForSymbolicRangeBoundary o = true ->
   UnwrapConstraint g s = Ok s' -> UnwrapConstraint g e = Ok e' -> s' <> e' -> dom s = true ->
   range_ (defn g d) = Some (if below then mkRange (kSymbol s o) (kConstant c) else mkRange (kConstant c) (kSymbol s o)) ->
   range_ (defn g e) = Some (full x y) -> lo <= x -> x <= y -> y <= hi ->
   (if below then lo <= c <= x else y <= c <= hi /\ x < b + o /\ x < hi) ->
   exists q, Phi_InferRange g [d; e] dom (full lo hi) = Ok q /\
     (forall val z, contains val q z <-> if below then val s + o <= z <= y else x <= z <= val s + o) /\
     (forall z, x <= z <= y -> a <= b -> (if below then z < b + o else a + o < z) ->
      exists val, a <= val s <= b /\ contains val (full x y) z /\ ~ contains val q z)) /\
  (forall inputs dom full_range r, join_inputs g (mkRange kUnknown kUnknown) inputs full_range = Ok r ->
   lost g dom (min_ r) -> lost g dom (max_ r) ->
   exists q, Phi_InferRange g inputs dom full_range = Ok q /\ forall val z, contains val q z <-> smi z) /\
  (forall a b c e left_defn, 0 <= a -> a <= b -> b < 2 ^ 32 -> 0 <= c -> c <= e -> e < 2 ^ 32 -> Range.IsLengthLoad g left_defn = false ->
   exists q, InferRangeHelper g kADD kUnboxedUint32 true (Some (full a b)) (Some (full c e)) left_defn = Ok (Some (q, None)) /\
     forall val x y, a <= x <= b -> c <= y <= e -> 2 ^ 32 <= x + y -> x + y - 2 ^ 32 < a + c -> ~ contains val q (ct_cast uint32_t (x + y))).
Proof.
  split_and!.
  - intros below d e dom lo hi s s' e' o c a b x y Hn Hs Ha Hb Ho Es Ee Hne Hdom Hd He Hx Hxy Hy Hc.
    exists (if below then mkRange (kSymbol s o) (kConstant y) else mkRange (kConstant x) (kSymbol s o)). split_and!.
    + unfold Phi_InferRange. cbn [join_inputs]. unfold GetInputRange. rewrite Hd, He.
      assert (Ej : Join g (mkRange kUnknown kUnknown) d (Some (if below then mkRange (kSymbol s o) (kConstant c) else mkRange (kConstant c) (kSymbol s o))) (full lo hi)
        = Ok (if below then mkRange (kSymbol s o) (kConstant c) else mkRange (kConstant c) (kSymbol s o))) by (by destruct below).
      rewrite Ej. cbn [mbind result_bind]. rewrite (Join_symbol g _ e x y lo hi below s o c a b s' e') by done. cbn [mbind result_bind].
      destruct below; rewrite !acyclic_kept by done; done.
    + intros val z. unfold contains. destruct below; cbn; lia.
    + intros z Hz Hab Hlt. exists (fun _ => if below then b else a). unfold contains. destruct below; cbn; lia.
  - intros inputs dom full_range r Er H1 H2. exists (mkRange MinSmi MaxSmi). split; [|done].
    unfold Phi_InferRange. rewrite Er. cbn [mbind result_bind]. rewrite (acyclic_lost g dom _ _ H1). cbn [mbind result_bind].
    by rewrite (acyclic_lost g dom _ _ H2).
  - intros a b c e left_defn Ha Hab Hb Hc Hce He Hl. eexists. split; [by apply uint32_sum|]. intros val x y Hx Hy Hw Hlt.
    unfold contains. cbn [eval min_ max_ full].
    assert (ct_cast uint32_t (x + y) = x + y - 2 ^ 32) as ->.
    { change (ct_cast uint32_t (x + y)) with ((x + y) mod 2 ^ 32). symmetry. apply (Z.mod_unique_pos _ _ 1); lia. }
    unfold clamp. destruct (Z.leb_spec (a + c) 0), (Z.leb_spec (2 ^ 32 - 1) (a + c)); lia.
Qed.

(** Definition 2 is the value 1 after the comparisons [>= s] and [<= 5], where [s] is
    definition 0; definition 3 is the constant 7. *)
Definition guarded_graph : FlowGraph := mkGraph
  (fun d => if d =? 0 then mkDefinition OtherDefinition (Some (full 1 10)) false true None
            else if d =? 1 then mkDefinition OtherDefinition (Some (full 0 10)) false true None
            else if d =? 2 then mkDefinition (Constraint 1) (Some (mkRange (kSymbol 0 0) (kConstant 5))) false true None
            else mkDefinition (Constant 7) (Some (full 7 7)) false true (Some 7))
  (fun _ _ => false) 4.
(** Definition 1 is a length plus the largest Smi. *)
Definition offset_graph : FlowGraph := mkGraph
  (fun d => if d =? 0 then mkDefinition OtherDefinition (Some (full 0 (2 ^ 40))) true true None
            else mkDefinition OtherDefinition (Some (mkRange (kSymbol 0 kSmiMax) (kSymbol 0 kSmiMax))) false true None)
  (fun _ _ => false) 2.
Lemma ranges_unsound_witness :
  (c ← ConstraintRange guarded_graph kGTE 0 Smi; r ← Constraint_InferRange guarded_graph (Some (full 0 10)) c;
   Constraint_InferRange guarded_graph r (full kSmiMin 5)) = Ok (range_ (defn guarded_graph 2)) /\
  (exists q val, Phi_InferRange guarded_graph [2; 3] (fun _ => true) Smi = Ok q /\ 1 <= val 0 <= 10 /\ ~ contains val q 7) /\
  (exists q, Phi_InferRange offset_graph [1] (fun _ => false) Int64 = Ok q /\ ~ contains (fun d => if d =? 0 then 1 else 1 + kSmiMax) q (1 + kSmiMax)) /\
  (exists q, InferRangeHelper guarded_graph kADD kUnboxedUint32 true (Some (full 1 (2 ^ 32 - 1))) (Some (full 1 1)) None = Ok (Some (q, None)) /\
     ~ contains (fun _ => 0) q (ct_cast uint32_t (2 ^ 32 - 1 + 1))).
Proof.
  split; [vm_compute; reflexivity|]. destruct (ranges_unsound guarded_graph) as (H1 & _ & H3). split; [|split].
  - destruct (H1 true 2 3 (fun _ => true) kSmiMin kSmiMax 0 0 3 0 5 1 10 7 7) as (q & Eq & _ & Hex);
      first [reflexivity|discriminate|lia|vm_compute; discriminate|vm_compute; split; discriminate|cbn; lia|idtac].
    destruct (Hex 7) as (val & Hs & _ & Hq); try lia. by exists q, val.
  - destruct (ranges_unsound offset_graph) as (_ & H2 & _).
    destruct (H2 [1] (fun _ => false) Int64 (mkRange (kSymbol 0 kSmiMax) (kSymbol 0 kSmiMax))) as (q & Eq & Hq); [reflexivity|by exists 0, kSmiMax, 0..|].
    exists q. split; [exact Eq|]. rewrite Hq. unfold smi. lia.
  - destruct (H3 1 (2 ^ 32 - 1) 1 1 None) as (q & Eq & Hq); try lia; try done. exists q. split; [exact Eq|]. apply Hq; lia.
Defined.
