(* ===== verification/RangeInference.v ===== *)
(** * Inferring ranges: the instructions and the iteration of runtime/vm/compiler/backend/range_analysis.cc

    The integer definitions of a flow graph are visited in reverse postorder, again and
    again, until no range changes: twice as they are, then with the phis widened, then with
    the phis narrowed.  This file has the range that each instruction infers from the ranges
    of its inputs, what an operation remembers of its right operand and of its overflow,
    and the iteration.

    An instruction has the fields these methods read, its inputs as the definitions they
    use.  The definitions in their order, [definitions_], are part of the program. *)

From S2P Require Import Prelude Utils BitField RangeAnalysis.
Import RangeBoundary RepresentationUtils Range RangeAnalysis.

(** The slots whose loads are integers; [UnboxedNativeSlot] are those of
    UNBOXED_NATIVE_SLOTS_LIST, with the representation they are declared with. *)
Inductive SlotKind : Type :=
  | kArray_length | kGrowableObjectArray_length
  | kTypedDataBase_length | kTypedDataView_offset_in_bytes
  | kAbstractType_hash | kTypeArguments_hash
  | kTypeArguments_length | kRecord_shape | kString_length
  | kDartField | kCapturedVariable | kRecordField
  | UnboxedNativeSlot (representation : Representation)
  | kClosure_hash | kLinkedHashBase_hash_mask | kLinkedHashBase_used_data | kLinkedHashBase_deleted_keys
  | kArgumentsDescriptor_type_args_len | kArgumentsDescriptor_positional_count
  | kArgumentsDescriptor_count | kArgumentsDescriptor_size.

(** What [Definition::InferRange] asks of a definition: the first test that holds of its
    type being a Smi, [IsInt64Definition], [IsInt32Definition] and its type being int, and
    the representation. *)
Inductive IntegerType : Type := SmiType | Int64Definition | Int32Definition | IntType | NotInteger.
Record DefaultType : Type := mkDefault { integer_type : IntegerType; default_representation : Representation }.

Inductive Instr : Type :=
  | ConstantInstr (value : Z)
  | ConstraintInstr (value : Z) (constraint : Range) (representation : Representation)
  | PhiInstr (inputs : list Z) (dominates_phi : Z -> bool) (smi_type : bool) (representation : Representation)
  | BinaryIntegerOpInstr (op_kind : Token) (left right : Z) (left_representation right_representation representation : Representation)
      (is_truncating : bool)
  | BoxIntegerInstr (value : Z) (from_representation : Representation)
  | UnboxIntegerInstr (value : Z) (representation : Representation)
  | IntConverterInstr (value : Z) (from to : Representation)
  | AssertAssignableInstr (value : Z)
  | CheckBoundBaseInstr (length index : Z)
  | LoadFieldInstr (slot : SlotKind) (type : DefaultType)
  | LoadIndexedInstr (element : Representation) (type : DefaultType)
  | LoadCodeUnitsInstr (one_byte : bool) (element_count : Z)
  | Utf8ScanInstr
  | IfThenElseInstr (if_true if_false : Z)
  | DefaultInstr (type : DefaultType).

(** The program, and what the analysis writes: the range of each definition, and the
    [right_range_] and [can_overflow_] of each operation. *)
Record Program : Type := mkProgram {
  instr : Z -> Instr;
  is_length_load : Z -> bool;
  is_integer : Z -> bool;
  bound_smi : Z -> option Z;
  equal_instrs : Z -> Z -> bool;
  definition_count : nat;
  definitions_ : list Z }.
Record Ranges : Type := mkRanges { ranges : gmap Z Range; right_range_ : gmap Z Range; can_overflow_ : gmap Z bool }.

Module Inference.

Definition Array_kMaxElements : Z := 0x7ffffffffffffff.
Definition String_kMaxElements : Z := 0x1fffffffffffffff.
Definition TypeArguments_kMaxElements : Z := 0x7ffffffffffffff.
Definition kMaxInt32 : positive := 0x7fffffff.

(** The definitions as the rest of the analysis sees them. *)
Definition kind_of (i : Instr) : DefinitionKind :=
  match i with
  | ConstantInstr v => Constant v
  | ConstraintInstr v _ _ => Constraint v
  | UnboxIntegerInstr v kUnboxedInt64 => UnboxInt64 v
  | BinaryIntegerOpInstr op l r _ _ kTagged _ => BinarySmiOp op l r
  | _ => OtherDefinition
  end.
Definition graph (p : Program) (s : Ranges) : FlowGraph := mkGraph
  (fun d => mkDefinition (kind_of (instr p d)) (ranges s !! d) (is_length_load p d) (is_integer p d) (bound_smi p d))
  (equal_instrs p) (definition_count p).

Definition unknown : Range := mkRange kUnknown kUnknown.
Definition positive_smi : Range := mkRange (FromConstant 0) MaxSmi.

Section Program.
Context (p : Program).

(** [Definition::InferRange]. *)
Definition Default_InferRange (g : FlowGraph) (t : DefaultType) : range_result Range :=
  range ← match integer_type t with
          | SmiType => Ok Smi
          | Int64Definition | IntType => Ok Int64
          | Int32Definition => Full kUnboxedInt32 kTaggedNotAllowed
          | NotInteger => Err RangeAssertion
          end;
  if IsUnboxedInteger (default_representation t) then
    full ← Full (default_representation t) kTaggedNotAllowed; Intersect g full range
  else Ok range.

Definition LoadField_InferRange (g : FlowGraph) (slot : SlotKind) (t : DefaultType) : range_result Range :=
  match slot with
  | kArray_length | kGrowableObjectArray_length => Ok (mkRange (FromConstant 0) (FromConstant Array_kMaxElements))
  | kTypedDataBase_length | kTypedDataView_offset_in_bytes => Ok positive_smi
  | kAbstractType_hash | kTypeArguments_hash => Ok Smi
  | kTypeArguments_length => Ok (mkRange (FromConstant 0) (FromConstant TypeArguments_kMaxElements))
  | kRecord_shape => Ok positive_smi
  | kString_length => Ok (mkRange (FromConstant 0) (FromConstant String_kMaxElements))
  | kDartField | kCapturedVariable | kRecordField => Default_InferRange g t
  | UnboxedNativeSlot rep => Full rep kTaggedNotAllowed
  | kClosure_hash | kLinkedHashBase_hash_mask | kLinkedHashBase_used_data | kLinkedHashBase_deleted_keys => Ok positive_smi
  | kArgumentsDescriptor_type_args_len | kArgumentsDescriptor_positional_count
  | kArgumentsDescriptor_count | kArgumentsDescriptor_size => Ok positive_smi
  end.
Definition LoadIndexed_InferRange (g : FlowGraph) (element : Representation) (t : DefaultType) : range_result Range :=
  if IsUnboxedInteger element then Full element kTaggedNotAllowed else Default_InferRange g t.
Definition LoadCodeUnits_InferRange (one_byte : bool) (element_count : Z) : range_result Range :=
  _ ← RASSERT (0 <? element_count);
  if one_byte then
    _ ← RASSERT (element_count <=? 4); Ok (mkRange (FromConstant 0) (FromConstant (BitField.NBitMask (8 * element_count))))
  else
    _ ← RASSERT (element_count <=? 2); Ok (mkRange (FromConstant 0) (FromConstant (BitField.NBitMask (2 * 8 * element_count)))).
Definition IfThenElse_InferRange (if_true if_false : Z) : Range :=
  mkRange (FromConstant (Minimum if_true if_false)) (FromConstant (Maximum if_true if_false)).
Definition BoxInteger_InferRange (g : FlowGraph) (value_range : option Range) (from_representation : Representation) : range_result Range :=
  match value_range with
  | Some r =>
      if RangeBoundary.IsUnknown (min_ r) then Full from_representation kTaggedNotAllowed
      else _ ← CheckRangeForRepresentation g r from_representation; Ok r
  | None => Full from_representation kTaggedNotAllowed
  end.
Definition AssertAssignable_InferRange (value_range : option Range) : Range :=
  match value_range with
  | Some r => if RangeBoundary.IsUnknown (min_ r) then Int64 else r
  | None => Int64
  end.

(** [CacheRange] for the [right_range_] of operation [d]. *)
Definition CacheRange (g : FlowGraph) (d : Z) (range : option Range) (full_range : Range) (s : Ranges) : range_result Ranges :=
  match range with
  | Some r =>
      c ← ClampToConstant g r full_range;
      Ok (mkRanges (ranges s) (<[d := c]> (right_range_ s)) (can_overflow_ s))
  | None =>
      match right_range_ s !! d with
      | Some _ => Ok (mkRanges (ranges s) (<[d := unknown]> (right_range_ s)) (can_overflow_ s))
      | None => Ok s
      end
  end.
Definition remembers_right (op : Token) : bool :=
  match op with kSHL | kSHR | kUSHR | kMOD | kTRUNCDIV => true | _ => false end.
Definition set_can_overflow (d : Z) (o : option bool) (s : Ranges) : Ranges :=
  match o with Some b => mkRanges (ranges s) (right_range_ s) (<[d := b]> (can_overflow_ s)) | None => s end.
Definition BinaryIntegerOp_InferRange (d : Z) (op : Token) (l r : Z) (left_rep right_rep rep : Representation) (is_truncating : bool)
    (s : Ranges) : range_result (Range * Ranges) :=
  let g := graph p s in
  left_range ← Full left_rep kTaggedIsSmi;
  right_range ← Full right_rep kTaggedIsSmi;
  let right_input_range := GetInputRange g r right_range in
  s ← (if remembers_right op then CacheRange g d right_input_range right_range s else Ok s);
  result ← InferRangeHelper g op rep is_truncating (GetInputRange g l left_range) right_input_range (Some l);
  match result with
  | Some (range, overflow) => Ok (range, set_can_overflow d overflow s)
  | None => Ok (unknown, s)
  end.

(** The virtual [InferRange] of definition [d], with [*range] unknown before. *)
Definition Definition_InferRange (d : Z) (s : Ranges) : range_result (Range * Ranges) :=
  let g := graph p s in
  let pure (r : range_result Range) := r ← r; Ok (r, s) in
  let partial (r : range_result (option Range)) := r ← r; Ok (default unknown r, s) in
  match instr p d with
  | ConstantInstr v => Ok (mkRange (FromConstant v) (FromConstant v), s)
  | ConstraintInstr v constraint rep =>
      full_range ← Full rep kTaggedIsSmi; partial (Constraint_InferRange g (GetInputRange g v full_range) constraint)
  | PhiInstr inputs dominates_phi smi_type rep =>
      full_range ← FullRangeForPhi smi_type rep; pure (Phi_InferRange g inputs dominates_phi full_range)
  | BinaryIntegerOpInstr op l r left_rep right_rep rep is_truncating =>
      BinaryIntegerOp_InferRange d op l r left_rep right_rep rep is_truncating s
  | BoxIntegerInstr v from => pure (BoxInteger_InferRange g (ranges s !! v) from)
  | UnboxIntegerInstr v rep =>
      pure (UnboxInteger_InferRange g (match rep with kUnboxedInt64 => true | _ => false end) v rep)
  | IntConverterInstr v from to => pure (IntConverter_InferRange g from to (ranges s !! v))
  | AssertAssignableInstr v => Ok (AssertAssignable_InferRange (ranges s !! v), s)
  | CheckBoundBaseInstr length index => partial (CheckBound_InferRange g (ranges s !! length) (ranges s !! index))
  | LoadFieldInstr slot t => pure (LoadField_InferRange g slot t)
  | LoadIndexedInstr element t => pure (LoadIndexed_InferRange g element t)
  | LoadCodeUnitsInstr one_byte element_count => pure (LoadCodeUnits_InferRange one_byte element_count)
  | Utf8ScanInstr => Ok (positive_smi, s)
  | IfThenElseInstr if_true if_false => Ok (IfThenElse_InferRange if_true if_false, s)
  | DefaultInstr t => pure (Default_InferRange g t)
  end.

(** [RangeAnalysis::InferRange]: the new state, and whether the range of [d] changed. *)
Definition set_range (d : Z) (r : Range) (s : Ranges) : Ranges :=
  mkRanges (<[d := r]> (ranges s)) (right_range_ s) (can_overflow_ s).
Definition phi_full_range (i : Instr) : option (range_result Range) :=
  match i with PhiInstr _ _ smi_type rep => Some (FullRangeForPhi smi_type rep) | _ => None end.
Definition infer (op : JoinOperator) (d : Z) (s : Ranges) : range_result (Ranges * bool) :=
  inferred ← Definition_InferRange d s;
  let '(range, s) := inferred in
  new ← match phi_full_range (instr p d) with
        | Some full => full_range ← full; InferRange (graph p s) op true (ranges s !! d) range full_range
        | None => InferRange (graph p s) op false (ranges s !! d) range Int64
        end;
  Ok (match new with Some r => (set_range d r s, true) | None => (s, false) end).

(** One round over the definitions, and at most as many rounds as a number says, until no
    range changes. *)
Fixpoint pass (op : JoinOperator) (ds : list Z) (s : Ranges) : range_result (Ranges * bool) :=
  match ds with
  | [] => Ok (s, false)
  | d :: ds =>
      r ← infer op d s; let '(s, c1) := r in
      r ← pass op ds s; let '(s, c2) := r in
      Ok (s, c1 || c2)
  end.
Fixpoint rounds (n : positive) (f : Ranges -> range_result (Ranges * bool)) (s : Ranges) : range_result (Ranges * bool) :=
  match n with
  | xH => f s
  | xO n => r ← rounds n f s; let '(s, changed) := r in if (changed : bool) then rounds n f s else Ok (s, false)
  | xI n =>
      r ← f s; let '(s, changed) := r in
      if (changed : bool) then
        r ← rounds n f s; let '(s, changed) := r in
        if (changed : bool) then rounds n f s else Ok (s, false)
      else Ok (s, false)
  end.
Definition Iterate (op : JoinOperator) (max_iterations : positive) (s : Ranges) : range_result Ranges :=
  r ← rounds max_iterations (pass op (definitions_ p)) s; Ok (fst r).
Definition InferRanges (s : Ranges) : range_result Ranges :=
  s ← Iterate NONE 2 s; s ← Iterate WIDEN kMaxInt32 s; Iterate NARROW kMaxInt32 s.
End Program.
End Inference.
