(* ===== verification/RangeInferenceCorrect.v ===== *)
(** * The ranges that the iteration leaves contain the values

    For code in which every definition has been executed, its instructions have the values
    their operations say.  The rounds of the iteration, however many there are and whatever
    they do to the phis, then leave ranges that contain these values, and so the bounds
    checks that are removed do not fail. *)

From Stdlib Require Import Sorted.
From S2P Require Import Prelude Utils BitField RangeAnalysis RangeAnalysisProofs RangeInference.
Import RangeBoundary RepresentationUtils RangeAnalysis RangeFacts Inference.

(** What the execution of an instruction says of the values.  The result of an operation
    that does not fit its representation is none that the operation leaves. *)
Definition in_full (rep : Representation) (x : Z) : Prop := exists lo hi, full_of rep lo hi /\ lo <= x <= hi.
Definition of_type (t : DefaultType) (x : Z) : Prop :=
  match integer_type t with
  | SmiType => smi x
  | Int64Definition | IntType => is_s 64 x
  | Int32Definition => is_s 32 x
  | NotInteger => False
  end /\
  forall T, value_type (default_representation t) = Some T -> ct_in T x.
Definition of_slot (slot : SlotKind) (t : DefaultType) (x : Z) : Prop :=
  match slot with
  | kArray_length | kGrowableObjectArray_length => 0 <= x <= Array_kMaxElements
  | kTypeArguments_length => 0 <= x <= TypeArguments_kMaxElements
  | kString_length => 0 <= x <= String_kMaxElements
  | kAbstractType_hash | kTypeArguments_hash => smi x
  | kDartField | kCapturedVariable | kRecordField => of_type t x
  | UnboxedNativeSlot rep => exists T, value_type rep = Some T /\ ct_in T x
  | _ => 0 <= x <= kSmiMax
  end.

(** The definitions whose range is at all times one between constants, from [lo] to [hi]:
    instructions that infer it from nothing else, operations but additions and subtractions,
    and conversions of such definitions; definitions that are not visited have none. *)
Inductive constant_within (p : Program) : Z -> Z -> Z -> Prop :=
  | not_visited v lo hi : v ∉ definitions_ p -> constant_within p lo hi v
  | infers_constant v lo hi a b : phi_full_range (instr p v) = None -> (forall s, Definition_InferRange p v s = Ok (full a b, s)) ->
      lo <= a -> b <= hi -> constant_within p lo hi v
  | operates v lo hi a b op l r left_rep right_rep rep t :
      instr p v = BinaryIntegerOpInstr op l r left_rep right_rep rep t -> op <> kADD -> op <> kSUB -> full_of rep a b ->
      lo <= a -> b <= hi -> constant_within p lo hi v
  | boxes v lo hi a b w c e rep : instr p v = BoxIntegerInstr w rep -> full_of rep a b ->
      constant_within p c e w -> lo <= a -> b <= hi -> constant_within p lo hi v
  | unboxes_to v lo hi a b w c e rep : instr p v = UnboxIntegerInstr w rep -> (rep = kUnboxedInt64 -> is_length_load p w = false) ->
      full_of rep a b -> constant_within p c e w -> lo <= a -> b <= hi -> constant_within p lo hi v
  | converts v lo hi a b w c e from to : instr p v = IntConverterInstr w from to -> full_of to a b ->
      constant_within p c e w -> lo <= a -> b <= hi -> constant_within p lo hi v.

(** A value whose range, if it has one, is always inside the representation: the assertions
    of [BoxInteger_InferRange] and [IntConverter_InferRange] hold of it. *)
Definition fits_representation (p : Program) (rep : Representation) (v : Z) : Prop :=
  rep = kUnboxedInt64 \/ exists lo hi, full_of rep lo hi /\ constant_within p lo hi v.

Section Execution.
Context (p : Program) (val : Z -> Z) (rank : Z -> nat).

Definition executed (d : Z) : Prop :=
  let input v := (rank v < rank d)%nat in
  let operand rep v := input v /\ in_full rep (val v) in
  match instr p d with
  | ConstantInstr v => is_s 64 v /\ val d = v
  | ConstraintInstr v c rep =>
      operand rep v /\ val d = val v /\ contains val c (val v) /\
      range_ok (graph p (mkRanges ∅ ∅ ∅)) val rank c /\ before rank d (min_ c) /\ before rank d (max_ c)
  | PhiInstr ds _ smi_type rep =>
      exists lo hi, FullRangeForPhi smi_type rep = Ok (full lo hi) /\ is_s 64 lo /\ is_s 64 hi /\ lo <= hi /\
        Forall (fun v => input v /\ smi (val v) /\ lo <= val v <= hi) ds /\ exists v, v ∈ ds /\ val d = val v
  | BinaryIntegerOpInstr op l r left_rep right_rep rep _ =>
      operand left_rep l /\ operand right_rep r /\ (is_length_load p l = true -> smi (val l)) /\
      (rep = kTagged -> smi (val l) /\ smi (val r)) /\ apply_op op (val l) (val r) = Some (val d) /\ in_full rep (val d)
  | BoxIntegerInstr v rep =>
      input v /\ (exists T, value_type rep = Some T /\ ct_in T (val v)) /\ val d = val v /\ fits_representation p rep v
  | UnboxIntegerInstr v rep =>
      input v /\ unboxes rep /\ (is_length_load p v = true -> smi (val v)) /\
      exists T, value_type rep = Some T /\ (rep = kUnboxedInt64 -> is_s 64 (val v)) /\ val d = ct_cast T (val v)
  | IntConverterInstr v from to =>
      input v /\ exists T, value_type to = Some T /\
        match from with
        | kUntagged => (v ∉ definitions_ p) /\ ct_in T (val d)
        | _ => exists Tf, value_type from = Some Tf /\ val d = ct_cast T (val v) /\ fits_representation p from v
        end
  | AssertAssignableInstr v => input v /\ is_s 64 (val v) /\ val d = val v
  | CheckBoundBaseInstr length index =>
      input length /\ input index /\ is_s 64 (val length) /\ 0 <= val index < val length /\ val d = val index
  | LoadFieldInstr slot t => of_slot slot t (val d)
  | LoadIndexedInstr element t =>
      match value_type element with Some T => ct_in T (val d) | None => of_type t (val d) end
  | LoadCodeUnitsInstr one_byte n => 0 < n <= (if one_byte then 4 else 2) /\ 0 <= val d < 2 ^ (n * if one_byte then 8 else 16)
  | Utf8ScanInstr => 0 <= val d <= kSmiMax
  | IfThenElseInstr a b => is_s 64 a /\ is_s 64 b /\ (val d = a \/ val d = b)
  | DefaultInstr t => of_type t (val d)
  end.

(** The code: the definitions are visited after the ones they use, the integers among them
    are all visited, and the others have no range. *)
Record execution : Prop := {
  visited_in_order : StronglySorted (fun a b => rank a < rank b)%nat (definitions_ p);
  visited_are_definitions d : d ∈ definitions_ p -> (rank d < definition_count p)%nat /\ executed d;
  integers_are_visited d : (rank d < definition_count p)%nat -> is_integer p d = true -> d ∈ definitions_ p;
  others_are_opaque d : (rank d < definition_count p)%nat -> d ∈ definitions_ p \/ kind_of (instr p d) = OtherDefinition;
  equal_values a b : equal_instrs p a b = true -> val a = val b;
  bound_values d c : bound_smi p d = Some c -> val d = c }.
End Execution.

Module InferenceFacts.
Section Inferred.
Context (p : Program) (val : Z -> Z) (rank : Z -> nat) (He : execution p val rank).

(** What a state has that is right so far: ranges that contain the values, of visited
    definitions only, constants where they always are, and remembered ranges of right
    operands with constants around their values. *)
Definition right_ok (s : Ranges) : Prop := forall d r, right_range_ s !! d = Some r -> exists op x y xr yr rep t lo hi,
  instr p d = BinaryIntegerOpInstr op x y xr yr rep t /\ r = full lo hi /\ lo <= val y <= hi.
Definition known (s : Ranges) (d : Z) : Prop := is_Some (ranges s !! d).
Definition settled (m : gmap Z Range) : Prop :=
  (forall v, is_Some (m !! v) -> v ∈ definitions_ p) /\
  forall lo hi v r, constant_within p lo hi v -> m !! v = Some r -> exists a b, r = full a b /\ lo <= a /\ b <= hi.
Definition sound (s : Ranges) : Prop := valuation_ok (graph p s) val rank /\ settled (ranges s) /\ right_ok s.

Lemma in_full_tagged x : in_full kTagged x <-> smi x.
Proof.
  unfold in_full, full_of. split.
  - intros (lo & hi & (E & _) & Hx). injection E as <- <-. done.
  - intros Hx. exists kSmiMin, kSmiMax. split; [|done]. split; [done|]. by vm_compute.
Qed.
Lemma kinds s d : (rank d < definition_count p)%nat -> kind_ok (graph p s) val rank d.
Proof.
  intros Hd. unfold kind_ok. cbn [graph defn kind_].
  destruct (others_are_opaque _ _ _ He d Hd) as [Hin|Ho]; [|by rewrite Ho]. destruct (visited_are_definitions _ _ _ He d Hin) as [_ Hx].
  unfold executed in Hx. cbv beta zeta in Hx. destruct (instr p d) as [v|v c rep| |op l r lr rr rep t| |v rep| | | | | | | | | ] eqn:Ei; try done; cbn [kind_of].
  - apply Hx.
  - destruct Hx as ((Hi & _) & Ev & _). done.
  - destruct rep; try done. destruct Hx as ((Hl & _) & (Hr & _) & _ & Ht & Ez & _). destruct (Ht eq_refl) as [Sl Sr].
    assert (Hc : forall v, (rank v < rank d)%nat -> smi (val v) ->
      match smi_constant (graph p s) v with Some c => smi c /\ val v = c | None => True end).
    { intros v Hv Sv. unfold smi_constant. cbn [graph defn kind_].
      destruct (others_are_opaque _ _ _ He v ltac:(lia)) as [Hvin|Hvo]; [|by rewrite Hvo].
      destruct (visited_are_definitions _ _ _ He v Hvin) as [_ Hxv]. unfold executed in Hxv. cbv beta zeta in Hxv.
      destruct (instr p v) as [c|c ? ?| |? ? ? ? ? [] ?| |? []| | | | | | | | | ]; cbn; try done. destruct Hxv as [_ Ec]. split; [by rewrite <- Ec|done]. }
    split; [by split|]. split; [by split|]. split; [by apply Hc|]. split; [by apply Hc|]. rewrite smi_range in Sl, Sr.
    destruct op; try done; cbn [apply_op] in Ez; injection Ez as <-; apply s64_id; unfold is_s; lia.
  - destruct rep; try done. destruct Hx as (Hi & _ & _ & T & [= <-] & H64 & ->). split; [done|]. apply ct_cast_id; [done|]. by apply H64.
Qed.

(** The definitions before [d] only, as ranks. *)
Definition below (d : Z) (v : Z) : nat := if (rank v <? rank d)%nat then rank v else definition_count p.
Lemma below_before d v : (rank d < definition_count p)%nat -> (below d v < definition_count p)%nat <-> (rank v < rank d)%nat.
Proof. unfold below. destruct (Nat.ltb_spec (rank v) (rank d)); lia. Qed.
Lemma below_range s d r : (rank d < definition_count p)%nat ->
  range_ok (graph p s) val (below d) r <-> range_ok (graph p s) val rank r /\ before rank d (min_ r) /\ before rank d (max_ r).
Proof.
  intros Hd. assert (Hb : forall b, boundary_ok (graph p s) val (below d) b <-> boundary_ok (graph p s) val rank b /\ before rank d b).
  { intros [|v o|c]; cbn; [tauto| |tauto]. rewrite below_before by done. split; [intros (? & ? & ?); split_and!; auto; lia|tauto]. }
  unfold range_ok. rewrite !Hb. tauto.
Qed.
Lemma below_valuation s d : (rank d < definition_count p)%nat -> valuation_ok (graph p s) val rank -> valuation_ok (graph p s) val (below d).
Proof.
  intros Hd Hv. assert (Hmono : forall a b, (rank a < rank b)%nat -> (below d b < definition_count p)%nat -> (below d a < below d b)%nat).
  { intros a b Hab Hb. apply below_before in Hb; [|done]. unfold below. repeat (case_match; rewrite ?Nat.ltb_lt, ?Nat.ltb_ge in *); lia. }
  split.
  - intros v r Er Hvb. pose proof Hvb as Hr. cbn [graph definitions] in Hr. apply below_before in Hr; [|done].
    destruct (value_in_range _ _ _ Hv v r Er) as (Hok & B1 & B2 & Hc); [cbn; lia|].
    assert (Hbb : forall b, before rank v b -> before (below d) v b /\ before rank d b) by (intros [|w o|c]; cbn; try done; intros; split; [by apply Hmono|lia]).
    split_and!; [apply below_range; [done|]; split_and!; [done|by apply Hbb|by apply Hbb]|by apply Hbb|by apply Hbb|done].
  - intros v Hvb. pose proof Hvb as Hr. cbn [graph definitions] in Hr. apply below_before in Hr; [|done].
    pose proof (value_of_kind _ _ _ Hv v ltac:(cbn; lia)) as Hk. unfold kind_ok in *.
    destruct (kind_ (defn (graph p s) v)); try done; [..|]; try (destruct Hk as [? ?]; split; [by apply Hmono|done]).
    destruct Hk as ((? & ?) & (? & ?) & ? & ? & ?). split_and!; try done; by apply Hmono.
  - apply Hv.
  - apply Hv.
Qed.

(** ** One instruction *)

Section Step.
Context (d : Z) (s : Ranges) (Hd : (rank d < definition_count p)%nat) (Hs : sound s).
Local Abbreviation g := (graph p s).
Local Abbreviation rk := (below d).
Context (Hready : forall v, (rank v < rank d)%nat -> is_integer p v = true -> known s v).

Lemma before_ok : valuation_ok g val rk.
Proof. apply below_valuation; [done|apply Hs]. Qed.
Lemma input_before v : (rank v < rank d)%nat -> (rk v < definitions g)%nat.
Proof. intros. by apply below_before. Qed.
Lemma input_available v lo hi : (rank v < rank d)%nat -> lo <= val v <= hi -> input_ok g val rk lo hi v.
Proof.
  intros Hr Hv. split; [by apply input_before|]. split; [done|]. cbn. intros En. destruct (is_integer p v) eqn:Ei; [|done].
  destruct (Hready v Hr Ei) as [r Er]. congruence.
Qed.
Lemma input_contained v lo hi : is_s 64 lo -> is_s 64 hi -> (rank v < rank d)%nat -> lo <= val v <= hi ->
  exists r, GetInputRange g v (full lo hi) = Some r /\ range_ok g val rk r /\ contains val r (val v).
Proof. intros. apply input_range; [apply before_ok|done|done|]. by apply input_available. Qed.
Lemma range_contained v r : (rank v < rank d)%nat -> ranges s !! v = Some r -> range_ok g val rk r /\ contains val r (val v).
Proof.
  intros Hr E. destruct (value_in_range _ _ _ before_ok v r E) as (? & _ & _ & ?); [by apply input_before|]. done.
Qed.

Local Abbreviation inferred q := (holds g val rk (val d) q).
Lemma constant_range lo hi : is_s 64 lo -> is_s 64 hi -> lo <= val d <= hi -> inferred (Ok (full lo hi)).
Proof. intros. exists (full lo hi). split; [done|]. by split. Qed.
Lemma full_range rep T mode : value_type rep = Some T -> ct_in T (val d) -> inferred (Range.Full rep mode).
Proof.
  intros ET Hx. destruct (Full_constant rep T ET) as (lo & hi & -> & ? & ? & ? & Hin). apply constant_range; [done..|]. by apply Hin.
Qed.
Lemma default_range t : of_type t (val d) -> inferred (Default_InferRange g t).
Proof.
  intros [Ht Hr]. unfold Default_InferRange.
  assert (inferred (match integer_type t with SmiType => Ok Smi | Int64Definition | IntType => Ok Int64
    | Int32Definition => Range.Full kUnboxedInt32 kTaggedNotAllowed | NotInteger => Err RangeAssertion end)) as (q & -> & Hq & Hx).
  { destruct (integer_type t); try done; try (by apply (full_range kUnboxedInt32 int32_t));
      (apply constant_range; [by vm_compute..|]); first [exact Ht|unfold is_s, kMinInt64, kMaxInt64 in *; lia]. }
  cbn [mbind result_bind]. unfold IsUnboxedInteger. destruct (value_type (default_representation t)) as [T|] eqn:ET; [|by exists q].
  destruct (full_range _ T kTaggedNotAllowed ET (Hr T eq_refl)) as (f & -> & Hf & Hfx). cbn [mbind result_bind].
  by apply Intersect_holds; [apply before_ok|..].
Qed.
Lemma load_range slot t : of_slot slot t (val d) -> inferred (LoadField_InferRange g slot t).
Proof.
  intros Hx. destruct slot; cbn [LoadField_InferRange of_slot] in *; try (by apply default_range);
    try (by apply constant_range; [by vm_compute..|]). destruct Hx as (T & ET & Hx). by apply (full_range _ T).
Qed.
Lemma code_units_range (one_byte : bool) n : 0 < n <= (if one_byte then 4 else 2) -> 0 <= val d < 2 ^ (n * if one_byte then 8 else 16) ->
  inferred (LoadCodeUnits_InferRange one_byte n).
Proof.
  intros Hn Hx. unfold LoadCodeUnits_InferRange. rewrite (proj2 (Z.ltb_lt 0 n)) by lia. cbn [RASSERT mbind result_bind].
  assert (Hm : forall b, 0 <= b <= 32 -> BitField.NBitMask b = 2 ^ b - 1).
  { intros b Hb. unfold BitField.NBitMask. destruct (Z.eqb_spec b 64); [lia|]. rewrite Z.shiftl_1_l. done. }
  assert (Hp : forall b, 0 <= b <= 32 -> 0 < 2 ^ b <= 2 ^ 32) by (intros; split; [apply Z.pow_pos_nonneg; lia|apply Z.pow_le_mono_r; lia]).
  destruct one_byte.
  - rewrite (proj2 (Z.leb_le n 4)) by lia. cbn [RASSERT mbind result_bind]. rewrite Hm by lia. replace (8 * n) with (n * 8) by lia.
    specialize (Hp (n * 8) ltac:(lia)). apply constant_range; unfold is_s; lia.
  - rewrite (proj2 (Z.leb_le n 2)) by lia. cbn [RASSERT mbind result_bind]. rewrite Hm by lia. replace (2 * 8 * n) with (n * 16) by lia.
    specialize (Hp (n * 16) ltac:(lia)). apply constant_range; unfold is_s; lia.
Qed.
(** The assertions on the ranges of the values that are boxed and converted. *)
Lemma fits_checked rep T v r : value_type rep = Some T -> (rank v < rank d)%nat -> ranges s !! v = Some r -> fits_representation p rep v ->
  CheckRangeForRepresentation g r rep = Ok tt.
Proof.
  intros ET Hi Er Hfit. destruct (range_contained v r Hi Er) as [Hr _]. destruct (range_bounds g val rk before_ok r Hr) as (l & u & B).
  destruct Hfit as [->|(lo & hi & (Ef & Hlo & Hhi & _) & Hw)].
  - pose proof B as (_ & _ & Bl & Bu & _). unfold is_s in *.
    apply (Check_bounds g val rk r l u kUnboxedInt64 kMinInt64 kMaxInt64 Hr B eq_refl); unfold kMinInt64, kMaxInt64; lia.
  - destruct (proj2 (proj1 (proj2 Hs)) lo hi v r Hw Er) as (a & b & -> & Ha & Hb). destruct Hr as [Ra Rb].
    apply (Check_constant g val rk a b rep lo hi); try done. by destruct rep; try discriminate ET.
Qed.
Lemma converter_range v from to : executed p val rank d -> instr p d = IntConverterInstr v from to ->
  inferred (IntConverter_InferRange g from to (ranges s !! v)).
Proof.
  unfold executed. cbv beta zeta. intros Hx Ei. rewrite Ei in Hx. destruct Hx as (Hi & T & ET & Hx).
  pose proof (value_type_bits to T ET) as Hb. destruct (ranges s !! v) as [r|] eqn:Er.
  - destruct (range_contained v r Hi Er) as [Hr Hc].
    assert (Hfrom : forall Tf, value_type from = Some Tf -> val d = ct_cast T (val v) -> fits_representation p from v ->
      inferred (IntConverter_InferRange g from to (Some r))).
    { intros Tf ETf -> Hfit. eapply convert_holds; [apply before_ok|done|done|done|by eapply fits_checked|done]. }
    destruct from; try (destruct Hx as (Tf & ETf & Ev & Hfit); by apply (Hfrom Tf)). destruct Hx as [Hn _], Hn. apply (proj1 (proj1 (proj2 Hs))). by exists r.
  - assert (exists x, val d = ct_cast T x) as [x ->].
    { destruct from; try (destruct Hx as (Tf & ETf & -> & _); by exists (val v)). destruct Hx as [_ Hx]. exists (val d). by rewrite ct_cast_id. }
    apply convert_unknown_holds; [|done]. unfold IsUnboxedInteger.
    destruct from; try (by left); right; try done; by destruct Hx as (Tf & ETf & _).
Qed.
Lemma constraint_range v c rep : executed p val rank d -> instr p d = ConstraintInstr v c rep ->
  inferred (f ← Range.Full rep kTaggedIsSmi; r ← Constraint_InferRange g (GetInputRange g v f) c; Ok (default unknown r)).
Proof.
  unfold executed. cbv beta zeta. intros Hx Ei. rewrite Ei in Hx.
  destruct Hx as ((Hi & lo & hi & (Ef & Hlo & Hhi & _) & Hv) & -> & Hc & Hok & B1 & B2). rewrite Ef. cbn [mbind result_bind].
  destruct (input_contained v lo hi Hlo Hhi Hi Hv) as (r & -> & Hr & Hrx). unfold Constraint_InferRange. rewrite (known_min g val rk r Hr).
  assert (Hck : range_ok g val rk c) by (by apply below_range).
  destruct (Intersect_holds g val rk before_ok r c (val v) Hr Hck Hrx Hc) as (q & -> & Hq & Hqx). cbn [mbind result_bind].
  rewrite (satisfiable g val rk before_ok q (val v) Hq Hqx). by exists q.
Qed.
Lemma phi_range ds dom smi_type rep lo hi : FullRangeForPhi smi_type rep = Ok (full lo hi) -> is_s 64 lo -> is_s 64 hi -> lo <= hi ->
  Forall (fun v => (rank v < rank d)%nat /\ smi (val v) /\ lo <= val v <= hi) ds -> (exists v, v ∈ ds /\ val d = val v) ->
  inferred (Phi_InferRange g ds dom (full lo hi)) /\ lo <= val d <= hi.
Proof.
  intros _ Hlo Hhi Hf Hds (v & Hin & Ev). rewrite Forall_forall in Hds. split; [|rewrite Ev; by apply Hds].
  destruct ds as [|e ds]; [by apply elem_of_nil in Hin|].
  destruct (Phi_ok g val rk before_ok lo hi Hlo Hhi Hf e ds dom) as (q & Eq & Hq & Hall).
  - apply Forall_forall. intros w Hw. destruct (Hds w Hw) as (? & _ & ?). by apply input_available.
  - apply Forall_forall. intros w Hw. by destruct (Hds w Hw) as (_ & ? & _).
  - exists q. split_and!; [done|done|]. rewrite Forall_forall in Hall. rewrite Ev. by apply Hall.
Qed.

(** The range of the right operand that is remembered. *)
Lemma clamped r lo hi x : is_s 64 lo -> is_s 64 hi -> lo <= hi -> range_ok g val rk r -> contains val r x -> lo <= x <= hi ->
  exists a b, Range.ClampToConstant g r (full lo hi) = Ok (full a b) /\ a <= x <= b.
Proof.
  intros Hlo Hhi Hf Hr Hx Hxf. destruct (range_bounds g val rk before_ok r Hr) as (l & u & B).
  pose proof (bounds_contain _ _ _ _ _ _ B Hx). destruct B as (El & Eu & _). unfold Range.ClampToConstant. rewrite El. cbn [mbind result_bind].
  rewrite Clamp_constant. cbn [mbind result_bind]. rewrite Eu. cbn [mbind result_bind]. rewrite Clamp_constant. cbn [mbind result_bind].
  eexists _, _. split; [reflexivity|]. split; [apply clamp_below|apply clamp_above]; lia.
Qed.
Lemma binary_range op l r lrep rrep rep t : executed p val rank d -> instr p d = BinaryIntegerOpInstr op l r lrep rrep rep t ->
  exists q s', BinaryIntegerOp_InferRange p d op l r lrep rrep rep t s = Ok (q, s') /\ ranges s' = ranges s /\ right_ok s' /\
    range_ok g val rk q /\ contains val q (val d).
Proof.
  unfold executed. cbv beta zeta. intros Hx Ei. rewrite Ei in Hx.
  destruct Hx as ((Hl & lo1 & hi1 & (F1 & ? & ? & ?) & Hlv) & (Hr & lo2 & hi2 & (F2 & ? & ? & ?) & Hrv) & Hlen & _ & Hop & lo & hi & F & Hres).
  unfold BinaryIntegerOp_InferRange. rewrite F1. cbn [mbind result_bind]. rewrite F2. cbn [mbind result_bind].
  destruct (input_contained l lo1 hi1) as (L & EL & HL & HLx); [done..|]. destruct (input_contained r lo2 hi2) as (R & ER & HR & HRx); [done..|].
  rewrite EL, ER.
  assert (exists s1, (if remembers_right op then CacheRange g d (Some R) (full lo2 hi2) s else Ok s) = Ok s1 /\ ranges s1 = ranges s /\ right_ok s1) as (s1 & -> & E1 & Hs1).
  { destruct (remembers_right op); [|exists s; split_and!; [done|done|apply (proj2 (proj2 Hs))]].
    destruct (clamped R lo2 hi2 (val r)) as (a & b & Ec & Hab); [done..|]. unfold CacheRange. rewrite Ec. cbn [mbind result_bind].
    eexists. split; [reflexivity|]. split; [done|]. intros e q. cbn. destruct (decide (d = e)) as [<-|Hne].
    - rewrite lookup_insert_eq. intros [= <-]. by exists op, l, r, lrep, rrep, rep, t, a, b.
    - rewrite lookup_insert_ne by done. apply (proj2 (proj2 Hs)). }
  cbn [mbind result_bind].
  destruct (helper_holds g val rk before_ok op rep t L R (Some l) (val l) (val r) (val d) lo hi HL HR HLx HRx) as (q & o & Eq & Hq & Hin & _); [|done|done|].
  { intros El. split_and!; [done|by apply Hlen..|by apply input_before]. }
  rewrite Eq. cbn [mbind result_bind]. exists q, (set_can_overflow d o s1). split_and!; [done|by destruct o|by destruct o|done|by apply Hin].
Qed.

(** What the method of an instruction does. *)
Definition yields (r : range_result (Range * Ranges)) : Prop :=
  exists q s', r = Ok (q, s') /\ ranges s' = ranges s /\ right_ok s' /\ range_ok g val rk q /\ contains val q (val d).
Lemma inferred_yields r : inferred r -> yields (r ← r; Ok (r, s)).
Proof. intros (q & -> & Hq & Hx). exists q, s. split_and!; [done|done|apply (proj2 (proj2 Hs))|done|done]. Qed.
Lemma partial_yields r : inferred (r ← r; Ok (default unknown r)) -> yields (r ← r; Ok (default unknown r, s)).
Proof. intros H. apply inferred_yields in H. by destruct r. Qed.
Lemma instruction_yields : executed p val rank d -> yields (Definition_InferRange p d s).
Proof.
  intros Hx. pose proof before_ok as Hv. unfold Definition_InferRange. pose proof Hx as Hm. unfold executed in Hm. cbv beta zeta in Hm |- *.
  destruct (instr p d) eqn:Ei.
  - destruct Hm as [Hc Ev]. apply (inferred_yields (Ok _)), constant_range; [done..|lia].
  - pose proof (constraint_range _ _ _ Hx Ei) as Hc. destruct (Range.Full _ _); [|by destruct Hc as (? & ? & _)]. by apply partial_yields.
  - destruct Hm as (lo & hi & Ef & ? & ? & ? & Hds & Hphi). rewrite Ef. cbn [mbind result_bind].
    apply inferred_yields. by destruct (phi_range inputs dominates_phi smi_type representation lo hi) as [? _].
  - by eapply binary_range.
  - destruct Hm as (Hi & (T & ET & HT) & Ev & Hfit). apply inferred_yields. unfold BoxInteger_InferRange.
    rewrite <- Ev in HT. destruct (ranges s !! value) as [r|] eqn:Er; [|by apply (full_range _ T)].
    destruct (range_contained _ _ Hi Er) as [Hr Hc]. rewrite (known_min g val rk r Hr), Ev, (fits_checked _ T value r ET Hi Er Hfit). by exists r.
  - destruct Hm as (Hi & Hrep & Hlen & T & ET & H64 & Ev). apply inferred_yields. rewrite Ev. apply unbox_holds; [done|done|done|by apply input_before|done|].
    intros Hr. destruct representation; try done. injection ET as <-. by apply H64.
  - apply inferred_yields. by eapply converter_range.
  - destruct Hm as (Hi & H64 & Ev). apply (inferred_yields (Ok _)). unfold AssertAssignable_InferRange.
    assert (Hfull : inferred (Ok Int64)) by (apply constant_range; [by vm_compute..|rewrite Ev; unfold is_s, kMinInt64, kMaxInt64 in *; lia]).
    destruct (ranges s !! value) as [r|] eqn:Er; [|done]. destruct (range_contained _ _ Hi Er) as [Hr Hc]. rewrite (known_min g val rk r Hr), Ev. by exists r.
  - destruct Hm as (Hl & Hi & H64 & Hb & Ev). apply partial_yields.
    destruct (check_bound_holds g val rk Hv (val index) (val length) (ranges s !! length) (ranges s !! index) Hb H64) as (q & -> & Hq & Hc);
      [intros; by apply range_contained..|]. rewrite <- Ev in Hc. by exists q.
  - apply inferred_yields. by apply load_range.
  - apply inferred_yields. unfold LoadIndexed_InferRange, IsUnboxedInteger.
    destruct (value_type element) as [T|] eqn:ET; [by apply (full_range _ T)|by apply default_range].
  - destruct Hm. apply inferred_yields. by apply code_units_range.
  - apply (inferred_yields (Ok _)), constant_range; [by vm_compute..|done].
  - destruct Hm as (Ha & Hb & Hor). apply (inferred_yields (Ok _)). unfold IfThenElse_InferRange. rewrite Minimum_min, Maximum_max.
    apply constant_range; [unfold is_s in *; lia..|]. destruct Hor; lia.
  - apply inferred_yields. by apply default_range.
Qed.

(** The range that is kept, after widening or narrowing. *)
Lemma updated op q lo hi phi : is_s 64 lo -> is_s 64 hi -> lo <= hi -> (phi = true -> lo <= val d <= hi) ->
  range_ok g val rk q -> contains val q (val d) ->
  exists new, InferRange g op phi (ranges s !! d) q (full lo hi) = Ok new /\
    match new with Some t => range_ok g val rk t /\ contains val t (val d) | None => known s d end.
Proof.
  intros Hlo Hhi Hf Hphi Hq Hx. pose proof before_ok as Hv. unfold InferRange. cbn [Range.IsUnknown]. rewrite (known_min g val rk q Hq).
  assert (Hboth : forall t, range_ok g val rk t -> RASSERT (eqb (RangeBoundary.IsUnknown (min_ t)) (RangeBoundary.IsUnknown (max_ t))) = Ok tt).
  { intros t [T1 T2]. by destruct (min_ t), (max_ t). }
  destruct (ranges s !! d) as [o|] eqn:Eo; cbn [mbind result_bind Range.IsUnknown].
  - destruct (value_in_range _ _ _ (proj1 Hs) d o Eo Hd) as (Ho1 & Ho2 & Ho3 & Hox).
    assert (Ho : range_ok g val rk o) by (by apply below_range). rewrite (known_min g val rk o Ho).
    assert (exists t, (if phi && negb false then phi_update g op o q (full lo hi) else Ok q) = Ok t /\ range_ok g val rk t /\ contains val t (val d)) as (t & -> & Ht & Htx).
    { destruct phi; cbn [negb andb]; [|by exists q]. destruct op; [by exists q|..].
      - destruct (phi_widened g val rk Hv lo hi o q Hlo Hhi Hf Ho) as (t & Et & Ht & Hin & _); [by exists (val d); split; [apply Hphi|]|done|].
        exists t. split_and!; [done|done|]. by apply Hin; [apply Hphi|].
      - destruct (phi_narrowed g val rk Hv lo hi o q Ho Hq) as (t & Et & Ht & Hin). exists t. split_and!; [done|done|]. by apply Hin. }
    cbn [mbind result_bind]. unfold Range.Equals. rewrite (Hboth t Ht). cbn [mbind result_bind].
    pose proof Ht as [T1 T2]. destruct Ho as [O1 O2].
    destruct (equals g val rk Hv _ _ T1 O1) as (e1 & -> & _), (equals g val rk Hv _ _ T2 O2) as (e2 & E2 & _). cbn [mbind result_bind].
    rewrite E2. assert (Hk : known s d) by (by exists o).
    destruct e1; cbn [mbind result_bind]; [destruct e2|]; eexists; (split; [reflexivity|]); done.
  - unfold Range.Equals. rewrite (Hboth q Hq). cbn [mbind result_bind]. rewrite (known_min g val rk q Hq). by exists (Some q).
Qed.

(** A definition whose range is always one between constants gets such a range. *)
Lemma checked_inside a b rep lo hi : is_s 64 a -> is_s 64 b -> full_of rep lo hi -> CheckRangeForRepresentation g (full a b) rep = Ok tt -> lo <= a /\ b <= hi.
Proof.
  intros Ha Hb (Ef & _) E. unfold CheckRangeForRepresentation in E.
  assert (Ef' : Range.Full rep kTaggedNotAllowed = Ok (full lo hi)) by (by destruct rep). rewrite Ef' in E. cbn [mbind result_bind] in E.
  change (RangeBoundary.IsUnknown (min_ (full a b))) with false in E. cbv iota in E.
  rewrite (IsWithin_bounds g val (full a b) a b lo hi) in E by (by apply constant_bounds). cbn [mbind result_bind] in E.
  destruct ((lo <=? a) && (b <=? hi)) eqn:Ew; [|done]. by rewrite andb_true_iff, !Z.leb_le in Ew.
Qed.
Lemma constant_input w c e : constant_within p c e w -> ranges s !! w = None \/ exists a b, ranges s !! w = Some (full a b).
Proof.
  intros Hw. destruct (ranges s !! w) as [r|] eqn:Er; [right|by left].
  destruct (proj2 (proj1 (proj2 Hs)) c e w r Hw Er) as (a & b & -> & _). by exists a, b.
Qed.
Ltac bind_inv H x E := match type of H with mbind _ ?m = Ok _ => destruct m as [x|] eqn:E; [|discriminate H]; cbn [mbind result_bind] in H end.
Lemma same_full rep lo hi q : full_of rep lo hi -> Range.Full rep kTaggedNotAllowed = Ok q -> q = full lo hi.
Proof.
  intros [Ef _] E. assert (Range.Full rep kTaggedNotAllowed = Range.Full rep kTaggedIsSmi) by (by destruct rep). congruence.
Qed.
Lemma unbox_constant w c e unbox64 rep q : constant_within p c e w -> unbox64 && length_load (defn g w) = false ->
  UnboxInteger_InferRange g unbox64 w rep = Ok q -> CheckRangeForRepresentation g q rep = Ok tt /\ (Range.Full rep kTaggedNotAllowed = Ok q \/ ranges s !! w = Some q).
Proof.
  intros Hw Hl E. unfold UnboxInteger_InferRange in E. rewrite Hl in E. bind_inv E f Ef. bind_inv E m Em. bind_inv E u Eu. destruct u. injection E as <-.
  split; [done|]. cbn [graph defn range_] in Em. destruct (constant_input w c e Hw) as [En|(a & b & En)]; rewrite En in Em |- *; [left; congruence|].
  change (RangeBoundary.IsUnknown (min_ (full a b))) with false in Em. cbv iota in Em. bind_inv Em within Ewi. destruct within; [right; congruence|].
  bind_inv Em v Ev. left. congruence.
Qed.
Lemma convert_constant w c e from to q : constant_within p c e w -> IntConverter_InferRange g from to (ranges s !! w) = Ok q ->
  CheckRangeForRepresentation g q to = Ok tt /\ (Range.Full to kTaggedNotAllowed = Ok q \/ ranges s !! w = Some q).
Proof.
  intros Hw E. unfold IntConverter_InferRange in E. bind_inv E t1 E1. bind_inv E t2 E2. bind_inv E t3 E3. bind_inv E f Ef. bind_inv E m Em. bind_inv E u Eu.
  destruct u. injection E as <-. split; [done|]. destruct (constant_input w c e Hw) as [En|(a & b & En)]; rewrite En in Em |- *.
  - left. destruct from; congruence.
  - change (RangeBoundary.IsUnknown (min_ (full a b))) with false in Em. cbv iota in Em.
    assert (Hm : (if (ValueSize from <? ValueSize to) && (negb (IsUnsignedInteger to) || IsUnsignedInteger from) then Ok (full a b)
      else full_from ← Range.Full from kTaggedNotAllowed; common_range ← Range.Intersect g full_from f;
        within ← Range.IsWithin_range g (full a b) common_range; Ok (if (within : bool) then full a b else f)) = Ok m) by (by destruct from). clear Em.
    destruct (_ && _); [right; congruence|]. bind_inv Hm x1 F1. bind_inv Hm x2 F2. bind_inv Hm x3 F3. destruct x3; [right|left]; congruence.
Qed.
Lemma checked_constant rep lo hi w c e q : full_of rep lo hi -> constant_within p c e w -> range_ok g val rk q ->
  CheckRangeForRepresentation g q rep = Ok tt -> Range.Full rep kTaggedNotAllowed = Ok q \/ ranges s !! w = Some q ->
  exists a b, q = full a b /\ lo <= a /\ b <= hi.
Proof.
  intros Hf Hw Hq Hc Hor. assert (exists a b, q = full a b) as (a & b & ->).
  { destruct Hor as [E|E].
    - exists lo, hi. by apply (same_full rep).
    - destruct (constant_input w c e Hw) as [En|(a & b & En)]; [congruence|]. exists a, b. congruence. }
  exists a, b. split; [done|]. destruct Hq as [Q1 Q2]. by apply (checked_inside a b rep).
Qed.
Lemma constant_step lo hi q s1 : d ∈ definitions_ p -> constant_within p lo hi d -> Definition_InferRange p d s = Ok (q, s1) -> range_ok g val rk q ->
  phi_full_range (instr p d) = None /\ exists a b, q = full a b /\ lo <= a /\ b <= hi.
Proof.
  intros Hin Hc E Hq. assert (Hinside : forall a b, (exists a' b', q = full a' b' /\ a <= a' /\ b' <= b) -> lo <= a -> b <= hi ->
    exists a b, q = full a b /\ lo <= a /\ b <= hi) by (intros a b (a' & b' & -> & ? & ?) ? ?; exists a', b'; split_and!; [done|lia..]).
  inversion Hc as [v ? ? Hn|v ? ? a b Hphi Hi Ha Hb|v ? ? a b op l r lr rr rep t Ei Hadd Hsub Hf Ha Hb|v ? ? a b w c e rep Ei Hf Hw Ha Hb
    |v ? ? a b w c e rep Ei Hl Hf Hw Ha Hb|v ? ? a b w c e from to Ei Hf Hw Ha Hb]; subst v.
  - done.
  - split; [done|]. exists a, b. split; [|done]. rewrite Hi in E. congruence.
  - split; [by rewrite Ei|]. apply (Hinside a b); [|done..]. unfold Definition_InferRange in E. rewrite Ei in E. unfold BinaryIntegerOp_InferRange in E.
    bind_inv E f1 F1. bind_inv E f2 F2. bind_inv E s2 F3. bind_inv E res F4. destruct res as [[q' o]|]; injection E as <- _; [|by destruct Hq].
    by eapply helper_constants.
  - split; [by rewrite Ei|]. apply (Hinside a b); [|done..]. unfold Definition_InferRange in E. rewrite Ei in E. cbv beta zeta in E. bind_inv E q' Eqr.
    injection E as -> _. unfold BoxInteger_InferRange in Eqr. destruct (constant_input w c e Hw) as [En|(x & y & En)]; rewrite En in Eqr.
    + exists a, b. split; [by apply (same_full rep)|lia].
    + change (RangeBoundary.IsUnknown (min_ (full x y))) with false in Eqr. cbv iota in Eqr. bind_inv Eqr u Eu. destruct u. injection Eqr as <-.
      eapply checked_constant; [done|exact Hw|done|done|by right].
  - split; [by rewrite Ei|]. apply (Hinside a b); [|done..]. unfold Definition_InferRange in E. rewrite Ei in E. cbv beta zeta in E. bind_inv E q' Eqr.
    injection E as -> _. apply (unbox_constant w c e) in Eqr as [? ?]; [by eapply checked_constant|done|]. destruct rep; try done. by apply Hl.
  - split; [by rewrite Ei|]. apply (Hinside a b); [|done..]. unfold Definition_InferRange in E. rewrite Ei in E. cbv beta zeta in E. bind_inv E q' Eqr.
    injection E as -> _. apply (convert_constant w c e) in Eqr as [? ?]; [by eapply checked_constant|done].
Qed.
Lemma unchanged_range op old q f t : InferRange g op false old q f = Ok (Some t) -> t = q.
Proof.
  unfold InferRange. cbn [andb]. destruct (Range.IsUnknown _); [done|]. intros E. bind_inv E x Ex.
  assert (x = q) as -> by (destruct old; congruence). bind_inv E y Ey. destruct y; congruence.
Qed.

Lemma set_range_sound s1 t : d ∈ definitions_ p -> ranges s1 = ranges s -> right_ok s1 -> range_ok g val rk t -> contains val t (val d) ->
  (forall lo hi, constant_within p lo hi d -> exists a b, t = full a b /\ lo <= a /\ b <= hi) -> sound (set_range d t s1).
Proof.
  intros Hin E1 Hr Ht Hx Hconst. apply below_range in Ht as (Ht & B1 & B2); [|done]. split; [|split; [|done]]; [split|split; cbn [set_range ranges]; rewrite E1].
  - intros v r. cbn [graph defn range_ set_range ranges definitions]. rewrite E1. destruct (decide (d = v)) as [<-|Hne].
    + rewrite lookup_insert_eq. intros [= <-] _. by split_and!.
    + rewrite lookup_insert_ne by done. intros Er Hvd. by destruct (value_in_range _ _ _ (proj1 Hs) v r Er Hvd).
  - intros v Hvd. by apply kinds.
  - apply He.
  - apply He.
  - intros v. destruct (decide (d = v)) as [<-|Hne]; [done|]. rewrite lookup_insert_ne by done. apply Hs.
  - intros lo hi v r. destruct (decide (d = v)) as [<-|Hne]; [rewrite lookup_insert_eq; intros Hc [= <-]; by apply Hconst|].
    rewrite lookup_insert_ne by done. apply Hs.
Qed.
Lemma infer_ok op : d ∈ definitions_ p -> executed p val rank d ->
  exists s' c, infer p op d s = Ok (s', c) /\ sound s' /\ known s' d /\ forall v, known s v -> known s' v.
Proof.
  intros Hin Hx. destruct (instruction_yields Hx) as (q & s1 & E & E1 & Hr & Hq & Hqx). unfold infer. rewrite E. cbn [mbind result_bind].
  assert (Eg : graph p s1 = g) by (unfold graph; by rewrite E1). rewrite Eg, E1.
  assert (exists new, match phi_full_range (instr p d) with
    | Some full => full_range ← full; InferRange g op true (ranges s !! d) q full_range
    | None => InferRange g op false (ranges s !! d) q Int64 end = Ok new /\
    match new with Some t => range_ok g val rk t /\ contains val t (val d) | None => known s d end) as (new & Enew & Hnew).
  { assert (Hn : exists new, InferRange g op false (ranges s !! d) q Int64 = Ok new /\
      match new with Some t => range_ok g val rk t /\ contains val t (val d) | None => known s d end) by (by apply updated).
    unfold executed in Hx. cbv beta zeta in Hx. destruct (instr p d); try exact Hn.
    destruct Hx as (lo & hi & Ef & Hlo & Hhi & Hf & Hds & v & Hin' & Ev). cbn [phi_full_range]. rewrite Ef. cbn [mbind result_bind].
    apply updated; [done..| |done|done]. intros _. rewrite Ev. rewrite Forall_forall in Hds. by apply Hds. }
  rewrite Enew. cbn [mbind result_bind]. destruct new as [t|].
  - destruct Hnew as [Ht Htx]. exists (set_range d t s1), true. split; [done|].
    split; [apply set_range_sound; try done; intros lo hi Hc; destruct (constant_step lo hi q s1 Hin Hc E Hq) as [Hphi ?];
      rewrite Hphi in Enew; by rewrite (unchanged_range _ _ _ _ _ Enew)|]. unfold known. cbn. rewrite E1.
    split; [rewrite lookup_insert_eq; by exists t|]. intros v Hv. destruct (decide (d = v)) as [<-|]; [rewrite lookup_insert_eq; by exists t|by rewrite lookup_insert_ne].
  - exists s1, false. split; [done|]. split; [split; [rewrite Eg; apply Hs|split; [rewrite E1; apply Hs|done]]|]. unfold known in *. rewrite E1. done.
Qed.
End Step.

(** ** The iteration *)

Lemma pass_ok op ds : forall done s, definitions_ p = done ++ ds -> sound s -> Forall (known s) done ->
  exists s' c, pass p op ds s = Ok (s', c) /\ sound s' /\ Forall (known s') (definitions_ p).
Proof.
  induction ds as [|d ds IH]; intros pre s Ep Hs Hk; [exists s, false; rewrite Ep, app_nil_r; done|].
  assert (Hin : d ∈ definitions_ p) by (rewrite Ep; apply elem_of_app; right; apply elem_of_cons; by left).
  destruct (visited_are_definitions _ _ _ He d Hin) as [Hd Hx].
  assert (Hready : forall v, (rank v < rank d)%nat -> is_integer p v = true -> known s v).
  { intros v Hr Hi. pose proof (integers_are_visited _ _ _ He v ltac:(lia) Hi) as Hv. pose proof (visited_in_order _ _ _ He) as Hsort.
    rewrite Ep in Hv, Hsort. apply elem_of_app in Hv as [Hv|Hv]; [by rewrite Forall_forall in Hk; apply Hk|]. exfalso.
    assert (Hds : StronglySorted (fun a b => rank a < rank b)%nat (d :: ds)) by (clear -Hsort; induction pre; [done|inversion Hsort; auto]).
    inversion Hds as [|? ? _ Hall]; subst. apply elem_of_cons in Hv as [->|Hv]; [lia|]. rewrite Forall_forall in Hall. specialize (Hall v Hv). lia. }
  destruct (infer_ok d s Hd Hs Hready op Hin Hx) as (s1 & c1 & E1 & Hs1 & Hk1 & Hmore). cbn [pass]. rewrite E1. cbn [mbind result_bind].
  destruct (IH (pre ++ [d]) s1) as (s2 & c2 & E2 & Hs2 & Hk2).
  - by rewrite <- app_assoc.
  - done.
  - apply Forall_app. split; [|by repeat constructor]. eapply Forall_impl; [exact Hk|exact Hmore].
  - rewrite E2. cbn [mbind result_bind]. by exists s2, (c1 || c2).
Qed.

(** What every pass reaches from a good state, the rounds reach. *)
Lemma rounds_reach (P Q : Ranges -> Prop) f : (forall s, P s -> exists s' c, f s = Ok (s', c) /\ Q s') -> (forall s, Q s -> P s) ->
  forall n s, P s -> exists s' c, rounds n f s = Ok (s', c) /\ Q s'.
Proof.
  intros Hf HQ. induction n as [n IH|n IH|]; intros s Hs; cbn [rounds]; [| |by apply Hf].
  - destruct (Hf s Hs) as (s1 & c1 & -> & H1). cbn [mbind result_bind]. destruct c1; [|by exists s1, false].
    destruct (IH s1 (HQ s1 H1)) as (s2 & c2 & -> & H2). cbn [mbind result_bind]. destruct c2; [by apply IH, HQ|by exists s2, false].
  - destruct (IH s Hs) as (s2 & c2 & -> & H2). cbn [mbind result_bind]. destruct c2; [by apply IH, HQ|by exists s2, false].
Qed.
Lemma Iterate_ok op n s : sound s -> exists s', Iterate p op n s = Ok s' /\ sound s' /\ Forall (known s') (definitions_ p).
Proof.
  intros Hs. destruct (rounds_reach sound (fun s => sound s /\ Forall (known s) (definitions_ p)) (pass p op (definitions_ p))) with (n := n) (s := s)
    as (s' & c & E & ?); [|by intros ? []|done|].
  - intros s1 Hs1. by apply (pass_ok op (definitions_ p) [] s1).
  - unfold Iterate. rewrite E. by exists s'.
Qed.
Lemma iterations_ok a b c s : sound s ->
  exists s', (s ← Iterate p NONE a s; s ← Iterate p WIDEN b s; Iterate p NARROW c s) = Ok s' /\ sound s' /\ Forall (known s') (definitions_ p).
Proof.
  intros Hs. destruct (Iterate_ok NONE a s Hs) as (s1 & -> & Hs1 & _). cbn [mbind result_bind].
  destruct (Iterate_ok WIDEN b s1 Hs1) as (s2 & -> & Hs2 & _). cbn [mbind result_bind]. by apply Iterate_ok.
Qed.
Lemma InferRanges_ok s : sound s -> exists s', InferRanges p s = Ok s' /\ sound s' /\ Forall (known s') (definitions_ p).
Proof. exact (iterations_ok 2 kMaxInt32 kMaxInt32 s). Qed.
Lemma nothing_sound : sound (mkRanges ∅ ∅ ∅).
Proof.
  split; [|split; [split; [by intros d [r E]|by intros lo hi d r _ E]|by intros d r E]].
  split; [by intros d r E|intros d; by apply kinds|apply He|apply He].
Qed.
End Inferred.
End InferenceFacts.
Import InferenceFacts.

(** C29: Inferred ranges. The code is executed in order: every visited definition once, after
    those it uses, so that there are no loops ([execution]). Its phis are phis of Smis
    whose inputs have all been executed; the results of its operations fit their
    representations, as those of truncating operations need not; unboxing is to Int32,
    Uint32 or Int64; an untagged value that is converted is not visited; and a value
    that is boxed or converted from a representation narrower than Int64 always has a
    range between constants inside it ([constant_within]: it is loaded, a constant, a
    conversion of such a value, or the result of an operation other than addition and
    subtraction). Then [InferRanges] ends and no assertion fails; every visited
    definition has a range that contains its value, the remembered range of a right
    operand contains that operand, and for a 64-bit index and a length that is a Smi, a
    bounds check that [IsRedundantBasedOnRangeInformation] calls redundant with these
    ranges does not fail. *)
Theorem inferred_ranges_sound p val rank : execution p val rank ->
  exists s, InferRanges p (mkRanges ∅ ∅ ∅) = Ok s /\
    (forall d, d ∈ definitions_ p -> exists r, ranges s !! d = Some r /\ contains val r (val d)) /\
    (forall d r, right_range_ s !! d = Some r -> exists op x y xr yr rep t,
       instr p d = BinaryIntegerOpInstr op x y xr yr rep t /\ contains val r (val y)) /\
    (forall index length, (rank index < definition_count p)%nat -> (rank length < definition_count p)%nat ->
       is_s 64 (val index) -> smi (val length) ->
       exists b, IsRedundantBasedOnRangeInformation (graph p s) index length = Ok b /\ (b = true -> 0 <= val index < val length)).
Proof.
  intros He. destruct (InferRanges_ok p val rank He _ (nothing_sound p val rank He)) as (s & E & (Hv & _ & Hr) & Hk). exists s. split; [done|]. split_and!.
  - intros d Hd. rewrite Forall_forall in Hk. destruct (Hk d Hd) as [r Er]. exists r. split; [done|].
    destruct (visited_are_definitions _ _ _ He d Hd) as [Hc _]. by destruct (value_in_range _ _ _ Hv d r Er Hc) as (_ & _ & _ & ?).
  - intros d r Er. destruct (Hr d r Er) as (op & x & y & xr & yr & rep & t & lo & hi & Ei & -> & Hy). by exists op, x, y, xr, yr, rep, t.
  - intros index length Hi Hl. by apply (redundant_sound (graph p s) val rank Hv).
Qed.

(** ** A concrete program *)

(** The length of an array and an index, which is compared with zero and the length and
    taken modulo the length; the larger of the constants 3 and 5 as a phi; a byte that is
    loaded, converted, boxed and unboxed. *)
Definition check_code (d : Z) : Instr :=
  match d with
  | 0 => LoadFieldInstr kArray_length (mkDefault SmiType kTagged)
  | 1 => DefaultInstr (mkDefault SmiType kTagged)
  | 2 => ConstraintInstr 1 (mkRange (kConstant 0) (kConstant kSmiMax)) kTagged
  | 3 => ConstraintInstr 2 (mkRange (kConstant kSmiMin) (kSymbol 0 (-1))) kTagged
  | 4 => BinaryIntegerOpInstr kMOD 1 0 kTagged kTagged kTagged false
  | 5 => ConstantInstr 3
  | 6 => ConstantInstr 5
  | 7 => PhiInstr [5; 6] (fun _ => false) true kTagged
  | 8 => LoadIndexedInstr kUnboxedUint8 (mkDefault NotInteger kUnboxedInt64)
  | 9 => IntConverterInstr 8 kUnboxedUint8 kUnboxedInt32
  | 10 => BoxIntegerInstr 9 kUnboxedInt32
  | 11 => UnboxIntegerInstr 10 kUnboxedUint32
  | _ => DefaultInstr (mkDefault SmiType kTagged)
  end.
Definition check_program : Program := mkProgram check_code (Z.eqb 0) (fun d => (0 <=? d) && (d <? 12)) (fun _ => None) (fun _ _ => false) 12
  [0; 1; 2; 3; 4; 5; 6; 7; 8; 9; 10; 11].
Definition check_values (d : Z) : Z := match d with 0 => 10 | 1 | 2 | 3 | 4 => 7 | 5 => 3 | 6 | 7 => 5 | 8 | 9 | 10 | 11 => 200 | _ => 0 end.
Definition check_rank (d : Z) : nat := if (0 <=? d) && (d <? 12) then Z.to_nat d else 12.
Lemma check_executed : execution check_program check_values check_rank.
Proof.
  assert (Hvisited : forall d, (check_rank d < 12)%nat -> d ∈ [0; 1; 2; 3; 4; 5; 6; 7; 8; 9; 10; 11]).
  { intros d. unfold check_rank. destruct ((0 <=? d) && (d <? 12)) eqn:E; [|lia]. rewrite andb_true_iff, Z.leb_le, Z.ltb_lt in E.
    intros _. rewrite !elem_of_cons. lia. }
  assert (Hsmi : forall x, in_full kTagged x <-> smi x) by apply in_full_tagged.
  split; [..|done|done].
  - cbn. repeat (constructor; [|repeat constructor; vm_compute; lia]). constructor.
  - intros d Hd. cbn in Hd. rewrite !elem_of_cons in Hd.
    destruct Hd as [->|[->|[->|[->|[->|[->|[->|[->|[->|[->|[->|[->|Hd]]]]]]]]]]]]; [..|by apply elem_of_nil in Hd]; (split; [vm_compute; lia|]);
      unfold executed; cbn -[smi in_full is_s ct_in ct_cast fits_representation unboxes kSmiMin kSmiMax Array_kMaxElements contains]; rewrite ?Hsmi.
    + by vm_compute.
    + by repeat split.
    + by repeat split; try (vm_compute; lia).
    + by repeat split; try (vm_compute; lia).
    + by repeat split; try (vm_compute; lia).
    + by repeat split.
    + by repeat split.
    + exists kSmiMin, kSmiMax. split_and!; try done.
      * apply Forall_forall. intros v Hv. rewrite !elem_of_cons, elem_of_nil in Hv. destruct Hv as [->|[->|[]]]; vm_compute; repeat split; congruence || lia.
      * exists 6. split; [|done]. rewrite !elem_of_cons. auto.
    + by vm_compute.
    + split; [vm_compute; lia|]. exists int32_t. split; [done|]. exists uint8_t. split_and!; [done|done|].
      right. exists 0, 255. split; [by vm_compute|]. by apply (infers_constant _ _ _ _ 0 255).
    + split; [vm_compute; lia|]. split; [by exists int32_t|]. split; [done|]. right. exists (- 2 ^ 31), (2 ^ 31 - 1). split; [by vm_compute|].
      apply (converts _ _ _ _ (- 2 ^ 31) (2 ^ 31 - 1) 8 0 255 kUnboxedUint8 kUnboxedInt32); [done|by vm_compute| |lia|lia]. by apply (infers_constant _ _ _ _ 0 255).
    + split; [vm_compute; lia|]. split; [by right; left|]. split; [done|]. by exists uint32_t.
  - intros d Hd _. by apply Hvisited.
  - intros d Hd. left. by apply Hvisited.
Qed.
Lemma inferred_ranges_sound_witness :
  exists s, InferRanges check_program (mkRanges ∅ ∅ ∅) = Ok s /\
    ranges s !! 3 = Some (mkRange (kConstant 0) (kSymbol 0 (-1))) /\ ranges s !! 7 = Some (full 3 5) /\
    right_range_ s !! 4 = Some (full 0 Array_kMaxElements) /\ ranges s !! 11 = Some (full 0 255) /\
    (exists r, ranges s !! 4 = Some r /\ contains check_values r (check_values 4)) /\
    IsRedundantBasedOnRangeInformation (graph check_program s) 3 0 = Ok true /\ 0 <= check_values 3 < check_values 0.
Proof.
  destruct (inferred_ranges_sound check_program check_values check_rank check_executed) as (s & E & Hr & _ & Hb).
  assert (Hs : match InferRanges check_program (mkRanges ∅ ∅ ∅) with
    | Ok s => ranges s !! 3 = Some (mkRange (kConstant 0) (kSymbol 0 (-1))) /\ ranges s !! 7 = Some (full 3 5) /\
        right_range_ s !! 4 = Some (full 0 Array_kMaxElements) /\ ranges s !! 11 = Some (full 0 255) /\ IsRedundantBasedOnRangeInformation (graph check_program s) 3 0 = Ok true
    | Err _ => False end) by (vm_compute; repeat split; reflexivity).
  rewrite E in Hs. destruct Hs as (H3 & H7 & H4 & H11 & Hc). exists s. split; [exact E|]. split; [exact H3|]. split; [exact H7|]. split; [exact H4|]. split; [exact H11|].
  split; [apply Hr; cbn; rewrite !elem_of_cons; auto 10|]. split; [exact Hc|].
  destruct (Hb 3 0) as (b & Eb & Hin); [vm_compute; lia|vm_compute; lia|vm_compute; split; congruence|vm_compute; split; congruence|].
  apply Hin. congruence.
Defined.
