(* ===== verification/RiscvEncoding.v ===== *)
(** * Instruction encoders and decoders of runtime/vm/constants_riscv.h

    [IsX], [EncodeX] and [DecodeX] for every operand of the 32-bit and of the
    compressed formats, [SignExtend], [ImmLo] and [ImmHi], as the header writes
    them; the classes [Instr] and [CInstr] are their encodings, and the
    accessors are the decoders.  An [ASSERT] of an encoder is a no-op in a
    release build: the encoders are total and the theorems state the asserted
    condition.

    The theorems show that every decoder recovers the operand from an
    instruction word that holds it among other operands. *)

From S2P Require Import Prelude Utils RiscvConstants.

(** ** Sign extension *)

Definition SignExtend (N value : Z) : Z := s32 (u32 value ≪ (32 - N)) ≫ (32 - N).

(** [sign_extend] of a [w]-bit argument, signed or unsigned, read as [uintx_t]. *)
Definition sign_extend (w x : Z) : Z := swrap w x.

Definition ImmLo (imm : Z) : Z := s64 (u64 imm ≪ (XLEN - 12)) ≫ (XLEN - 12).
Definition ImmHi (imm : Z) : Z :=
  s64 (u64 (u64 imm - u64 (ImmLo imm)) ≪ (XLEN - 32)) ≫ (XLEN - 32).

(** ** Register and function-code operands *)

Definition IsReg (r : Z) : bool := u32 r <? 32.
Definition EncodeReg (shift r : Z) : Z := u32 (u32 r ≪ shift).
Definition DecodeReg (shift encoding : Z) : Z := (encoding ≫ shift) .& 31.

Definition EncodeRd := EncodeReg 7.
Definition EncodeRs1 := EncodeReg 15.
Definition EncodeRs2 := EncodeReg 20.
Definition EncodeFRd := EncodeReg 7.
Definition EncodeFRs2 := EncodeReg 20.
Definition DecodeRd := DecodeReg 7.
Definition DecodeRs1 := DecodeReg 15.
Definition DecodeRs2 := DecodeReg 20.
Definition DecodeFRd := DecodeReg 7.
Definition DecodeFRs2 := DecodeReg 20.

Definition IsFunct (mask f : Z) : bool := f .& mask =? f.
Definition EncodeFunct (shift f : Z) : Z := u32 (f ≪ shift).
Definition DecodeFunct (shift mask encoding : Z) : Z := (encoding ≫ shift) .& mask.

Definition EncodeOpcode := EncodeFunct 0.
Definition EncodeFunct3 := EncodeFunct 12.
Definition EncodeFunct5 := EncodeFunct 27.
Definition EncodeFunct7 := EncodeFunct 25.
Definition EncodeShamt := EncodeFunct 20.
Definition DecodeOpcode := DecodeFunct 0 0x7F.
Definition DecodeFunct3 := DecodeFunct 12 0x7.
Definition DecodeFunct5 := DecodeFunct 27 0x1F.
Definition DecodeFunct7 := DecodeFunct 25 0x7F.
Definition DecodeFunct12 := DecodeFunct 20 0xFFF.
Definition DecodeShamt := DecodeFunct 20 0x3F.

(** ** Immediates of the 32-bit formats *)

Definition IsBTypeImm (imm : Z) : bool :=
  IsInt intptr_t 12 imm && IsAligned imm 2 0.
Definition EncodeBTypeImm (imm : Z) : Z :=
  ((imm ≫ 12) .& 0x1) ≪ 31
  .| ((imm ≫ 5) .& 0x3f) ≪ 25
  .| ((imm ≫ 1) .& 0xf) ≪ 8
  .| ((imm ≫ 11) .& 0x1) ≪ 7.
Definition DecodeBTypeImm (encoded : Z) : Z :=
  SignExtend 12
    (((encoded ≫ 31) .& 0x1) ≪ 12
     .| ((encoded ≫ 25) .& 0x3f) ≪ 5
     .| ((encoded ≫ 8) .& 0xf) ≪ 1
     .| ((encoded ≫ 7) .& 0x1) ≪ 11).

Definition IsJTypeImm (imm : Z) : bool :=
  IsInt intptr_t 20 imm && IsAligned imm 2 0.
Definition EncodeJTypeImm (imm : Z) : Z :=
  ((imm ≫ 20) .& 0x1) ≪ 31
  .| ((imm ≫ 1) .& 0x3ff) ≪ 21
  .| ((imm ≫ 11) .& 0x1) ≪ 20
  .| ((imm ≫ 12) .& 0xff) ≪ 12.
Definition DecodeJTypeImm (encoded : Z) : Z :=
  SignExtend 20
    (((encoded ≫ 31) .& 0x1) ≪ 20
     .| ((encoded ≫ 21) .& 0x3ff) ≪ 1
     .| ((encoded ≫ 20) .& 0x1) ≪ 11
     .| ((encoded ≫ 12) .& 0xff) ≪ 12).

Definition IsITypeImm (imm : Z) : bool := IsInt intptr_t 12 imm.
Definition EncodeITypeImm (imm : Z) : Z := u32 (u32 imm ≪ 20).
Definition DecodeITypeImm (encoded : Z) : Z := SignExtend 12 (encoded ≫ 20).

Definition IsUTypeImm (imm : Z) : bool :=
  IsInt intptr_t 32 imm && IsAligned imm (1 ≪ 12) 0.
Definition EncodeUTypeImm (imm : Z) : Z := u32 imm.
Definition DecodeUTypeImm (encoded : Z) : Z :=
  SignExtend 32 (encoded .& Z.lnot ((1 ≪ 12) - 1)).

Definition IsSTypeImm (imm : Z) : bool := IsInt intptr_t 12 imm.
Definition EncodeSTypeImm (imm : Z) : Z :=
  ((imm ≫ 5) .& 0x7f) ≪ 25 .| ((imm ≫ 0) .& 0x1f) ≪ 7.
Definition DecodeSTypeImm (encoded : Z) : Z :=
  SignExtend 12
    (((encoded ≫ 25) .& 0x7f) ≪ 5 .| ((encoded ≫ 7) .& 0x1f) ≪ 0).

Definition IsCInstruction (parcel : Z) : bool := negb (parcel .& 3 =? 3).

(** ** Accessors of [class Instr] that are not a decoder alone *)

Definition kReleaseShift : Z := 25.
Definition kAcquireShift : Z := 26.
Definition csr (encoding : Z) : Z := encoding ≫ 20.
Definition zimm (encoding : Z) : Z := DecodeRs1 encoding.

Inductive memory_order_t := relaxed | acquire | release | acq_rel.

Definition memory_order (encoding : Z) : memory_order_t :=
  let acquire_bit := negb ((encoding ≫ kAcquireShift) .& 1 =? 0) in
  let release_bit := negb ((encoding ≫ kReleaseShift) .& 1 =? 0) in
  if acquire_bit && release_bit then acq_rel
  else if acquire_bit then acquire
  else if release_bit then release
  else relaxed.

(** ** Operands of the compressed formats *)

Definition EncodeCRd := EncodeReg 7.
Definition EncodeCRs1 := EncodeReg 7.
Definition EncodeCRs2 := EncodeReg 2.
Definition DecodeCRd := DecodeReg 7.
Definition DecodeCRs2 := DecodeReg 2.
Definition DecodeCFRd := DecodeReg 7.
Definition DecodeCFRs2 := DecodeReg 2.

(** Registers [x8] to [x15]. *)
Definition IsRegPrime (r : Z) : bool := (8 <=? r) && (r <? 16).
Definition EncodeRegPrime (shift r : Z) : Z := u32 ((u32 r .& 7) ≪ shift).
Definition DecodeRegPrime (shift encoding : Z) : Z := ((encoding ≫ shift) .& 7) + 8.

Definition IsCRdp := IsRegPrime.
Definition IsCRs1p := IsRegPrime.
Definition IsCRs2p := IsRegPrime.
Definition EncodeCRdp := EncodeRegPrime 2.
Definition EncodeCRs1p := EncodeRegPrime 7.
Definition EncodeCRs2p := EncodeRegPrime 2.
Definition DecodeCRdp := DecodeRegPrime 2.
Definition DecodeCRs1p := DecodeRegPrime 7.
Definition DecodeCRs2p := DecodeRegPrime 2.
Definition DecodeCFRdp := DecodeRegPrime 2.
Definition DecodeCFRs2p := DecodeRegPrime 2.

Definition IsCSPLoad4Imm (imm : Z) : bool :=
  IsUint intptr_t 8 imm && IsAligned imm 4 0.
Definition EncodeCSPLoad4Imm (imm : Z) : Z :=
  ((imm ≫ 5) .& 0x1) ≪ 12
  .| ((imm ≫ 2) .& 0x7) ≪ 4
  .| ((imm ≫ 6) .& 0x3) ≪ 2.
Definition DecodeCSPLoad4Imm (encoding : Z) : Z :=
  ((encoding ≫ 12) .& 0x1) ≪ 5
  .| ((encoding ≫ 4) .& 0x7) ≪ 2
  .| ((encoding ≫ 2) .& 0x3) ≪ 6.

Definition IsCSPLoad8Imm (imm : Z) : bool :=
  IsUint intptr_t 9 imm && IsAligned imm 8 0.
Definition EncodeCSPLoad8Imm (imm : Z) : Z :=
  ((imm ≫ 5) .& 0x1) ≪ 12
  .| ((imm ≫ 3) .& 0x3) ≪ 5
  .| ((imm ≫ 6) .& 0x7) ≪ 2.
Definition DecodeCSPLoad8Imm (encoding : Z) : Z :=
  ((encoding ≫ 12) .& 0x1) ≪ 5
  .| ((encoding ≫ 5) .& 0x3) ≪ 3
  .| ((encoding ≫ 2) .& 0x7) ≪ 6.

Definition IsCSPStore4Imm (imm : Z) : bool :=
  IsUint intptr_t 8 imm && IsAligned imm 4 0.
Definition EncodeCSPStore4Imm (imm : Z) : Z :=
  ((imm ≫ 2) .& 0xF) ≪ 9
  .| ((imm ≫ 6) .& 0x3) ≪ 7.
Definition DecodeCSPStore4Imm (encoding : Z) : Z :=
  ((encoding ≫ 9) .& 0xF) ≪ 2
  .| ((encoding ≫ 7) .& 0x3) ≪ 6.

Definition IsCSPStore8Imm (imm : Z) : bool :=
  IsUint intptr_t 9 imm && IsAligned imm 8 0.
Definition EncodeCSPStore8Imm (imm : Z) : Z :=
  ((imm ≫ 3) .& 0x7) ≪ 10
  .| ((imm ≫ 6) .& 0x7) ≪ 7.
Definition DecodeCSPStore8Imm (encoding : Z) : Z :=
  ((encoding ≫ 10) .& 0x7) ≪ 3
  .| ((encoding ≫ 7) .& 0x7) ≪ 6.

Definition IsCMem1Imm (imm : Z) : bool :=
  IsUint intptr_t 2 imm && IsAligned imm 1 0.
Definition EncodeCMem1Imm (imm : Z) : Z :=
  ((imm ≫ 1) .& 0x1) ≪ 5
  .| ((imm ≫ 0) .& 0x1) ≪ 6.
Definition DecodeCMem1Imm (encoding : Z) : Z :=
  ((encoding ≫ 5) .& 0x1) ≪ 1
  .| ((encoding ≫ 6) .& 0x1) ≪ 0.

Definition IsCMem2Imm (imm : Z) : bool :=
  IsUint intptr_t 2 imm && IsAligned imm 2 0.
Definition EncodeCMem2Imm (imm : Z) : Z :=
  ((imm ≫ 1) .& 0x1) ≪ 5.
Definition DecodeCMem2Imm (encoding : Z) : Z :=
  ((encoding ≫ 5) .& 0x1) ≪ 1.

Definition IsCMem4Imm (imm : Z) : bool :=
  IsUint intptr_t 7 imm && IsAligned imm 4 0.
Definition EncodeCMem4Imm (imm : Z) : Z :=
  ((imm ≫ 3) .& 0x7) ≪ 10
  .| ((imm ≫ 2) .& 0x1) ≪ 6
  .| ((imm ≫ 6) .& 0x1) ≪ 5.
Definition DecodeCMem4Imm (encoding : Z) : Z :=
  ((encoding ≫ 10) .& 0x7) ≪ 3
  .| ((encoding ≫ 6) .& 0x1) ≪ 2
  .| ((encoding ≫ 5) .& 0x1) ≪ 6.

Definition IsCMem8Imm (imm : Z) : bool :=
  IsUint intptr_t 8 imm && IsAligned imm 8 0.
Definition EncodeCMem8Imm (imm : Z) : Z :=
  ((imm ≫ 3) .& 0x7) ≪ 10
  .| ((imm ≫ 6) .& 0x3) ≪ 5.
Definition DecodeCMem8Imm (encoding : Z) : Z :=
  ((encoding ≫ 10) .& 0x7) ≪ 3
  .| ((encoding ≫ 5) .& 0x3) ≪ 6.

Definition IsCJImm (imm : Z) : bool :=
  IsInt intptr_t 11 imm && IsAligned imm 2 0.
Definition EncodeCJImm (imm : Z) : Z :=
  ((imm ≫ 11) .& 0x1) ≪ 12
  .| ((imm ≫ 4) .& 0x1) ≪ 11
  .| ((imm ≫ 8) .& 0x3) ≪ 9
  .| ((imm ≫ 10) .& 0x1) ≪ 8
  .| ((imm ≫ 6) .& 0x1) ≪ 7
  .| ((imm ≫ 7) .& 0x1) ≪ 6
  .| ((imm ≫ 1) .& 0x7) ≪ 3
  .| ((imm ≫ 5) .& 0x1) ≪ 2.
Definition DecodeCJImm (encoding : Z) : Z :=
  SignExtend 11
    (((encoding ≫ 12) .& 0x1) ≪ 11
     .| ((encoding ≫ 11) .& 0x1) ≪ 4
     .| ((encoding ≫ 9) .& 0x3) ≪ 8
     .| ((encoding ≫ 8) .& 0x1) ≪ 10
     .| ((encoding ≫ 7) .& 0x1) ≪ 6
     .| ((encoding ≫ 6) .& 0x1) ≪ 7
     .| ((encoding ≫ 3) .& 0x7) ≪ 1
     .| ((encoding ≫ 2) .& 0x1) ≪ 5).

Definition IsCBImm (imm : Z) : bool :=
  IsInt intptr_t 8 imm && IsAligned imm 2 0.
Definition EncodeCBImm (imm : Z) : Z :=
  ((imm ≫ 8) .& 0x1) ≪ 12
  .| ((imm ≫ 3) .& 0x3) ≪ 10
  .| ((imm ≫ 6) .& 0x3) ≪ 5
  .| ((imm ≫ 1) .& 0x3) ≪ 3
  .| ((imm ≫ 5) .& 0x1) ≪ 2.
Definition DecodeCBImm (encoding : Z) : Z :=
  SignExtend 8
    (((encoding ≫ 12) .& 0x1) ≪ 8
     .| ((encoding ≫ 10) .& 0x3) ≪ 3
     .| ((encoding ≫ 5) .& 0x3) ≪ 6
     .| ((encoding ≫ 3) .& 0x3) ≪ 1
     .| ((encoding ≫ 2) .& 0x1) ≪ 5).

Definition IsCIImm (imm : Z) : bool :=
  IsInt intptr_t 6 imm && IsAligned imm 1 0.
Definition EncodeCIImm (imm : Z) : Z :=
  ((imm ≫ 5) .& 0x1) ≪ 12
  .| ((imm ≫ 0) .& 0x1F) ≪ 2.
Definition DecodeCIImm (encoding : Z) : Z :=
  SignExtend 6
    (((encoding ≫ 12) .& 0x1) ≪ 5
     .| ((encoding ≫ 2) .& 0x1F) ≪ 0).

Definition IsCUImm (imm : Z) : bool :=
  IsInt intptr_t 17 imm && IsAligned imm (1 ≪ 12) 0.
Definition EncodeCUImm (imm : Z) : Z :=
  ((imm ≫ 17) .& 0x1) ≪ 12
  .| ((imm ≫ 12) .& 0x1F) ≪ 2.
Definition DecodeCUImm (encoding : Z) : Z :=
  SignExtend 17
    (((encoding ≫ 12) .& 0x1) ≪ 17
     .| ((encoding ≫ 2) .& 0x1F) ≪ 12).

Definition IsCI16Imm (imm : Z) : bool :=
  IsInt intptr_t 10 imm && IsAligned imm 16 0.
Definition EncodeCI16Imm (imm : Z) : Z :=
  ((imm ≫ 9) .& 0x1) ≪ 12
  .| ((imm ≫ 4) .& 0x1) ≪ 6
  .| ((imm ≫ 6) .& 0x1) ≪ 5
  .| ((imm ≫ 7) .& 0x3) ≪ 3
  .| ((imm ≫ 5) .& 0x1) ≪ 2.
Definition DecodeCI16Imm (encoding : Z) : Z :=
  SignExtend 10
    (((encoding ≫ 12) .& 0x1) ≪ 9
     .| ((encoding ≫ 6) .& 0x1) ≪ 4
     .| ((encoding ≫ 5) .& 0x1) ≪ 6
     .| ((encoding ≫ 3) .& 0x3) ≪ 7
     .| ((encoding ≫ 2) .& 0x1) ≪ 5).

Definition IsCI4SPNImm (imm : Z) : bool :=
  IsUint intptr_t 9 imm && IsAligned imm 4 0.
Definition EncodeCI4SPNImm (imm : Z) : Z :=
  ((imm ≫ 4) .& 0x3) ≪ 11
  .| ((imm ≫ 6) .& 0xF) ≪ 7
  .| ((imm ≫ 2) .& 0x1) ≪ 6
  .| ((imm ≫ 3) .& 0x1) ≪ 5.
Definition DecodeCI4SPNImm (encoding : Z) : Z :=
  ((encoding ≫ 11) .& 0x3) ≪ 4
  .| ((encoding ≫ 7) .& 0xF) ≪ 6
  .| ((encoding ≫ 6) .& 0x1) ≪ 2
  .| ((encoding ≫ 5) .& 0x1) ≪ 3.

Definition IsCShamt (imm : Z) : bool := imm <? XLEN.
Definition EncodeCShamt (imm : Z) : Z :=
  ((imm ≫ 5) .& 0x1) ≪ 12
  .| ((imm ≫ 0) .& 0x1F) ≪ 2.
Definition DecodeCShamt (encoding : Z) : Z :=
  ((encoding ≫ 12) .& 0x1) ≪ 5
  .| ((encoding ≫ 2) .& 0x1F) ≪ 0.

(** ** Encoders and decoders as bit fields *)

Lemma DecodeReg_field shift e : DecodeReg shift e = field e shift 5.
Proof. done. Qed.
Lemma DecodeRegPrime_field shift e : DecodeRegPrime shift e = field e shift 3 + 8.
Proof. done. Qed.
Lemma DecodeOpcode_field e : DecodeOpcode e = field e 0 7.
Proof. done. Qed.
Lemma DecodeFunct3_field e : DecodeFunct3 e = field e 12 3.
Proof. done. Qed.
Lemma DecodeFunct5_field e : DecodeFunct5 e = field e 27 5.
Proof. done. Qed.
Lemma DecodeFunct7_field e : DecodeFunct7 e = field e 25 7.
Proof. done. Qed.
Lemma DecodeFunct12_field e : DecodeFunct12 e = field e 20 12.
Proof. done. Qed.
Lemma DecodeShamt_field e : DecodeShamt e = field e 20 6.
Proof. done. Qed.

Lemma EncodeReg_shiftl shift r :
  0 <= shift <= 27 -> is_u 5 r -> EncodeReg shift r = r ≪ shift.
Proof.
  intros Hs Hr. unfold EncodeReg.
  rewrite (uwrap_small 32 r) by (apply (is_u_mono 5); done || lia).
  apply uwrap_small, (is_u_shiftl 32 5); done || lia.
Qed.

Lemma EncodeFunct_shiftl n shift f :
  0 <= shift -> 0 <= n -> n + shift <= 32 -> is_u n f ->
  EncodeFunct shift f = f ≪ shift.
Proof. intros. apply uwrap_small, (is_u_shiftl 32 n); done || lia. Qed.

Lemma IsRegPrime_spec r : IsRegPrime r = true <-> 8 <= r < 16.
Proof. unfold IsRegPrime. rewrite andb_true_iff, Z.leb_le, Z.ltb_lt. done. Qed.

Lemma EncodeRegPrime_shiftl shift r :
  0 <= shift <= 29 -> 8 <= r < 16 -> EncodeRegPrime shift r = (r - 8) ≪ shift.
Proof.
  intros Hs Hr. unfold EncodeRegPrime.
  rewrite (uwrap_small 32 r) by (unfold is_u; lia).
  change 7 with (Z.ones 3). rewrite Z.land_ones by lia.
  replace (r mod 2 ^ 3) with (r - 8).
  - apply uwrap_small, (is_u_shiftl 32 3); unfold is_u; lia.
  - change (2 ^ 3) with 8. rewrite <- (Z.mod_small (r - 8) 8) by lia.
    rewrite <- (Z_mod_plus_full (r - 8) 1 8). f_equal. lia.
Qed.

(** [SignExtend N] reinterprets the low [N] bits as a signed number. *)
Lemma SignExtend_swrap N value :
  1 <= N <= 32 -> SignExtend N value = swrap N value.
Proof.
  intros. unfold SignExtend. apply Z.bits_inj'. intros i Hi.
  rewrite Z.shiftr_spec, !testbit_swrap by lia.
  assert (E : forall j, 32 - N <= j < 32 ->
    Z.testbit (u32 value ≪ (32 - N)) j = Z.testbit value (j - (32 - N))).
  { intros j Hj. rewrite Z.shiftl_spec, testbit_uwrap by lia.
    replace (j - (32 - N) <? 32) with true; [done|].
    symmetry. apply Z.ltb_lt. lia. }
  destruct (i + (32 - N) <? 32) eqn:E1, (i <? N) eqn:E2; reflect_bool; try lia;
    rewrite E by lia; f_equal; lia.
Qed.

(** Splits a word into the fields a decoder reads; [is_u] side conditions come
    from the context, from [field_range] or by computation on constants. *)
Ltac solve_is_u :=
  first [ eassumption | apply field_range; lia | unfold is_u; lia ].

Ltac field_step :=
  first
    [ rewrite field_lor
    | rewrite field_shiftl_same by (lia || solve_is_u)
    | rewrite field_shiftl_above by lia
    | match goal with
      | |- context [ field (?x ≪ ?k) ?lo ?n ] =>
          match x with
          | field _ _ ?m =>
              rewrite (field_shiftl_below m x k lo n) by (lia || solve_is_u)
          | _ =>
              match goal with
              | H : is_u ?m x |- _ =>
                  rewrite (field_shiftl_below m x k lo n) by (lia || exact H)
              end
          end
      end
    | rewrite Z.lor_0_l | rewrite Z.lor_0_r ].

Ltac field_simpl := repeat field_step.

(** ** Immediates: what a decoder needs of the word it reads *)

Lemma aligned_bits k imm :
  0 <= k -> IsAligned imm (2 ^ k) 0 = true ->
  forall i, 0 <= i < k -> Z.testbit imm i = false.
Proof.
  intros Hk H i Hi. rewrite IsAligned_pow2 in H by lia. reflect_bool.
  by rewrite <- (Z.mod_pow2_bits_low imm k i), H, Z.bits_0 by lia.
Qed.

Lemma is_u_bit_ext w x y :
  0 <= w -> is_u w x -> is_u w y ->
  (forall i, 0 <= i < w -> Z.testbit x i = Z.testbit y i) -> x = y.
Proof.
  intros Hw Hx Hy H. rewrite <- (uwrap_small w x), <- (uwrap_small w y) by done.
  by apply uwrap_bit_ext.
Qed.

(** Rewrites [(e >> lo) & mask] as a field. *)
Ltac fold_fields e :=
  repeat match goal with
  | |- context [ (e ≫ ?a) .& ?m ] =>
      let n := eval vm_compute in (Z.log2 (m + 1)) in
      change ((e ≫ a) .& m) with (field e a n)
  end.

Ltac split_imm_guard k H :=
  let Hr := fresh "Hr" in let Ha := fresh "Ha" in
  apply andb_true_iff in H as [Hr Ha];
  pose proof (aligned_bits k _ ltac:(lia) Ha); clear Ha;
  first [ rewrite IsInt_intptr in Hr by lia | rewrite IsUint_intptr in Hr by lia ].

Ltac is_u_pieces w :=
  repeat apply is_u_lor; try lia;
  match goal with
  | |- is_u _ (field _ _ ?n ≪ _) => apply (is_u_shiftl w n); [lia..|]
  end; solve_is_u.

Ltac use_low_bits :=
  match goal with
  | H : forall i, 0 <= i < _ -> Z.testbit _ i = false |- _ =>
      first [ by rewrite H by lia | by rewrite (testbit_high _ _ _ ltac:(eassumption)) by lia ]
  end.

(** A sign-extended immediate of width [w] aligned to [2 ^ k]. *)
Ltac signed_imm w k H :=
  split_imm_guard k H; rewrite SignExtend_swrap by lia;
  match goal with
  | Hr : is_s _ ?imm |- _ = ?imm =>
      transitivity (swrap w imm); [|by apply swrap_small]
  end;
  apply swrap_bit_ext; [lia|]; each_bit ltac:(field_bits); use_low_bits.

(** A zero-extended immediate of width [w] aligned to [2 ^ k], in pieces that
    cover [v] bits. *)
Ltac unsigned_imm v w k H :=
  split_imm_guard k H;
  apply (is_u_bit_ext v); [lia|is_u_pieces v|by apply (is_u_mono w)|];
  each_bit ltac:(field_bits); use_low_bits.

Lemma DecodeBTypeImm_fields imm e :
  field e 31 1 = field imm 12 1 -> field e 25 6 = field imm 5 6 ->
  field e 8 4 = field imm 1 4 -> field e 7 1 = field imm 11 1 ->
  IsBTypeImm imm = true -> DecodeBTypeImm e = imm.
Proof.
  intros E1 E2 E3 E4 H. unfold DecodeBTypeImm. fold_fields e. rewrite E1, E2, E3, E4. signed_imm 12 1 H.
Qed.

Lemma DecodeJTypeImm_fields imm e :
  field e 31 1 = field imm 20 1 -> field e 21 10 = field imm 1 10 ->
  field e 20 1 = field imm 11 1 -> field e 12 8 = field imm 12 8 ->
  IsJTypeImm imm = true -> DecodeJTypeImm e = imm.
Proof.
  intros E1 E2 E3 E4 H. unfold DecodeJTypeImm. fold_fields e. rewrite E1, E2, E3, E4. signed_imm 20 1 H.
Qed.

Lemma DecodeCSPLoad4Imm_fields imm e :
  field e 12 1 = field imm 5 1 -> field e 4 3 = field imm 2 3 ->
  field e 2 2 = field imm 6 2 ->
  IsCSPLoad4Imm imm = true -> DecodeCSPLoad4Imm e = imm.
Proof.
  intros E1 E2 E3 H. unfold DecodeCSPLoad4Imm. fold_fields e. rewrite E1, E2, E3. unsigned_imm 8 8 2 H.
Qed.

Lemma DecodeCSPLoad8Imm_fields imm e :
  field e 12 1 = field imm 5 1 -> field e 5 2 = field imm 3 2 ->
  field e 2 3 = field imm 6 3 ->
  IsCSPLoad8Imm imm = true -> DecodeCSPLoad8Imm e = imm.
Proof.
  intros E1 E2 E3 H. unfold DecodeCSPLoad8Imm. fold_fields e. rewrite E1, E2, E3. unsigned_imm 9 9 3 H.
Qed.

Lemma DecodeCSPStore4Imm_fields imm e :
  field e 9 4 = field imm 2 4 -> field e 7 2 = field imm 6 2 ->
  IsCSPStore4Imm imm = true -> DecodeCSPStore4Imm e = imm.
Proof.
  intros E1 E2 H. unfold DecodeCSPStore4Imm. fold_fields e. rewrite E1, E2. unsigned_imm 8 8 2 H.
Qed.

Lemma DecodeCSPStore8Imm_fields imm e :
  field e 10 3 = field imm 3 3 -> field e 7 3 = field imm 6 3 ->
  IsCSPStore8Imm imm = true -> DecodeCSPStore8Imm e = imm.
Proof.
  intros E1 E2 H. unfold DecodeCSPStore8Imm. fold_fields e. rewrite E1, E2. unsigned_imm 9 9 3 H.
Qed.

Lemma DecodeCMem1Imm_fields imm e :
  field e 5 1 = field imm 1 1 -> field e 6 1 = field imm 0 1 ->
  IsCMem1Imm imm = true -> DecodeCMem1Imm e = imm.
Proof.
  intros E1 E2 H. unfold DecodeCMem1Imm. fold_fields e. rewrite E1, E2. unsigned_imm 2 2 0 H.
Qed.

Lemma DecodeCMem2Imm_fields imm e :
  field e 5 1 = field imm 1 1 ->
  IsCMem2Imm imm = true -> DecodeCMem2Imm e = imm.
Proof.
  intros E1 H. unfold DecodeCMem2Imm. fold_fields e. rewrite E1. unsigned_imm 2 2 1 H.
Qed.

Lemma DecodeCMem4Imm_fields imm e :
  field e 10 3 = field imm 3 3 -> field e 6 1 = field imm 2 1 ->
  field e 5 1 = field imm 6 1 ->
  IsCMem4Imm imm = true -> DecodeCMem4Imm e = imm.
Proof.
  intros E1 E2 E3 H. unfold DecodeCMem4Imm. fold_fields e. rewrite E1, E2, E3. unsigned_imm 7 7 2 H.
Qed.

Lemma DecodeCMem8Imm_fields imm e :
  field e 10 3 = field imm 3 3 -> field e 5 2 = field imm 6 2 ->
  IsCMem8Imm imm = true -> DecodeCMem8Imm e = imm.
Proof.
  intros E1 E2 H. unfold DecodeCMem8Imm. fold_fields e. rewrite E1, E2. unsigned_imm 8 8 3 H.
Qed.

Lemma DecodeCJImm_fields imm e :
  field e 12 1 = field imm 11 1 -> field e 11 1 = field imm 4 1 ->
  field e 9 2 = field imm 8 2 -> field e 8 1 = field imm 10 1 ->
  field e 7 1 = field imm 6 1 -> field e 6 1 = field imm 7 1 ->
  field e 3 3 = field imm 1 3 -> field e 2 1 = field imm 5 1 ->
  IsCJImm imm = true -> DecodeCJImm e = imm.
Proof.
  intros E1 E2 E3 E4 E5 E6 E7 E8 H. unfold DecodeCJImm. fold_fields e. rewrite E1, E2, E3, E4, E5, E6, E7, E8. signed_imm 11 1 H.
Qed.

Lemma DecodeCBImm_fields imm e :
  field e 12 1 = field imm 8 1 -> field e 10 2 = field imm 3 2 ->
  field e 5 2 = field imm 6 2 -> field e 3 2 = field imm 1 2 ->
  field e 2 1 = field imm 5 1 ->
  IsCBImm imm = true -> DecodeCBImm e = imm.
Proof.
  intros E1 E2 E3 E4 E5 H. unfold DecodeCBImm. fold_fields e. rewrite E1, E2, E3, E4, E5. signed_imm 8 1 H.
Qed.

Lemma DecodeCIImm_fields imm e :
  field e 12 1 = field imm 5 1 -> field e 2 5 = field imm 0 5 ->
  IsCIImm imm = true -> DecodeCIImm e = imm.
Proof.
  intros E1 E2 H. unfold DecodeCIImm. fold_fields e. rewrite E1, E2. signed_imm 6 0 H.
Qed.

Lemma DecodeCUImm_fields imm e :
  field e 12 1 = field imm 17 1 -> field e 2 5 = field imm 12 5 ->
  IsCUImm imm = true -> DecodeCUImm e = imm.
Proof.
  intros E1 E2 H. unfold DecodeCUImm. fold_fields e. rewrite E1, E2. signed_imm 17 12 H.
Qed.

Lemma DecodeCI16Imm_fields imm e :
  field e 12 1 = field imm 9 1 -> field e 6 1 = field imm 4 1 ->
  field e 5 1 = field imm 6 1 -> field e 3 2 = field imm 7 2 ->
  field e 2 1 = field imm 5 1 ->
  IsCI16Imm imm = true -> DecodeCI16Imm e = imm.
Proof.
  intros E1 E2 E3 E4 E5 H. unfold DecodeCI16Imm. fold_fields e. rewrite E1, E2, E3, E4, E5. signed_imm 10 4 H.
Qed.

Lemma DecodeCI4SPNImm_fields imm e :
  field e 11 2 = field imm 4 2 -> field e 7 4 = field imm 6 4 ->
  field e 6 1 = field imm 2 1 -> field e 5 1 = field imm 3 1 ->
  IsCI4SPNImm imm = true -> DecodeCI4SPNImm e = imm.
Proof.
  intros E1 E2 E3 E4 H. unfold DecodeCI4SPNImm. fold_fields e. rewrite E1, E2, E3, E4. unsigned_imm 10 9 2 H.
Qed.

Lemma DecodeSTypeImm_fields imm e :
  field e 25 7 = field imm 5 7 -> field e 7 5 = field imm 0 5 ->
  IsSTypeImm imm = true -> DecodeSTypeImm e = imm.
Proof.
  intros E1 E2 H. unfold DecodeSTypeImm. fold_fields e. rewrite E1, E2.
  unfold IsSTypeImm in H. rewrite IsInt_intptr in H by lia.
  rewrite SignExtend_swrap by lia.
  transitivity (swrap 12 imm); [|by apply swrap_small].
  apply swrap_bit_ext; [lia|]. each_bit ltac:(field_bits).
Qed.

Lemma DecodeITypeImm_fields imm e :
  field e 20 12 = field imm 0 12 ->
  IsITypeImm imm = true -> DecodeITypeImm e = imm.
Proof.
  intros E H. unfold DecodeITypeImm. unfold IsITypeImm in H.
  rewrite IsInt_intptr in H by lia. rewrite SignExtend_swrap by lia.
  transitivity (swrap 12 imm); [|by apply swrap_small].
  apply swrap_bit_ext; [lia|]. intros i Hi.
  assert (Z.testbit (field e 20 12) i = Z.testbit (field imm 0 12) i) as F
    by by rewrite E.
  rewrite !testbit_field in F by lia.
  rewrite (proj2 (Z.ltb_lt i 12)) in F by lia. simpl in F.
  rewrite Z.shiftr_spec by lia. rewrite F. f_equal. lia.
Qed.

Lemma DecodeUTypeImm_fields imm e :
  field e 12 20 = field imm 12 20 ->
  IsUTypeImm imm = true -> DecodeUTypeImm e = imm.
Proof.
  intros E H. unfold DecodeUTypeImm. split_imm_guard 12 H.
  rewrite SignExtend_swrap by lia.
  transitivity (swrap 32 imm); [|by apply swrap_small].
  apply swrap_bit_ext; [lia|]. intros i Hi.
  change (Z.lnot ((1 ≪ 12) - 1)) with (Z.lnot (Z.ones 12)).
  rewrite Z.land_spec, Z.lnot_spec, Z.testbit_ones_nonneg by lia.
  destruct (i <? 12) eqn:L; reflect_bool.
  - rewrite andb_false_r. match goal with
    | H : forall i, _ -> Z.testbit _ i = false |- _ => by rewrite H by lia end.
  - rewrite andb_true_r.
    assert (Z.testbit (field e 12 20) (i - 12) = Z.testbit (field imm 12 20) (i - 12))
      as F by by rewrite E.
    rewrite !testbit_field in F by lia.
    rewrite (proj2 (Z.ltb_lt (i - 12) 20)) in F by lia. simpl in F.
    by replace (i - 12 + 12) with i in F by lia.
Qed.

Lemma DecodeCShamt_fields imm e :
  field e 12 1 = field imm 5 1 -> field e 2 5 = field imm 0 5 ->
  is_u 6 imm -> DecodeCShamt e = imm.
Proof.
  intros E1 E2 H. unfold DecodeCShamt. fold_fields e. rewrite E1, E2.
  apply (is_u_bit_ext 6); [lia|is_u_pieces 6|done|]. each_bit ltac:(field_bits).
Qed.

(** ** Splitting an offset into a U-type and an I-type part *)

Lemma ImmLo_swrap imm : ImmLo imm = swrap 12 imm.
Proof.
  unfold ImmLo, XLEN. change (64 - 12) with 52. apply Z.bits_inj'. intros i Hi.
  rewrite Z.shiftr_spec, !testbit_swrap by lia.
  assert (E : forall j, 52 <= j < 64 ->
    Z.testbit (u64 imm ≪ 52) j = Z.testbit imm (j - 52)).
  { intros j Hj. rewrite Z.shiftl_spec, testbit_uwrap by lia.
    rewrite (proj2 (Z.ltb_lt (j - 52) 64)) by lia. done. }
  destruct (i + 52 <? 64) eqn:E1, (i <? 12) eqn:E2; reflect_bool; try lia;
    rewrite E by lia; f_equal; lia.
Qed.

Lemma ImmHi_swrap imm : ImmHi imm = swrap 32 (imm - ImmLo imm).
Proof.
  unfold ImmHi, XLEN. change (64 - 32) with 32.
  set (d := u64 imm - u64 (ImmLo imm)). apply Z.bits_inj'. intros i Hi.
  assert (Ed : u64 d = u64 (imm - ImmLo imm)).
  { unfold d. by autorewrite with vm. }
  rewrite Z.shiftr_spec, !testbit_swrap by lia. rewrite Ed.
  assert (E : forall j, 32 <= j < 64 ->
    Z.testbit (u64 (imm - ImmLo imm) ≪ 32) j
    = Z.testbit (imm - ImmLo imm) (j - 32)).
  { intros j Hj. rewrite Z.shiftl_spec, testbit_uwrap by lia.
    rewrite (proj2 (Z.ltb_lt (j - 32) 64)) by lia. done. }
  destruct (i + 32 <? 64) eqn:E1, (i <? 32) eqn:E2; reflect_bool; try lia;
    rewrite E by lia; f_equal; lia.
Qed.

Lemma ImmLo_IsITypeImm imm : IsITypeImm (ImmLo imm) = true.
Proof.
  unfold IsITypeImm. rewrite IsInt_intptr, ImmLo_swrap by lia.
  by apply swrap_range.
Qed.

Lemma swrap_divides w z : 0 < w -> (2 ^ w | z - swrap w z).
Proof.
  intros. unfold swrap.
  exists ((z + 2 ^ (w - 1)) / 2 ^ w).
  pose proof (Z.div_mod (z + 2 ^ (w - 1)) (2 ^ w)).
  pose proof (pow2_pos w). lia.
Qed.

Lemma ImmHi_IsUTypeImm imm : IsUTypeImm (ImmHi imm) = true.
Proof.
  unfold IsUTypeImm. rewrite andb_true_iff, IsInt_intptr by lia.
  rewrite ImmHi_swrap. split; [by apply swrap_range|].
  change (1 ≪ 12) with (2 ^ 12). rewrite IsAligned_pow2, Z.eqb_eq by lia.
  apply Z.mod_divide; [lia|]. rewrite ImmLo_swrap.
  set (d := imm - swrap 12 imm).
  assert (2 ^ 12 | d) by by apply swrap_divides.
  assert (2 ^ 12 | d - swrap 32 d).
  { transitivity (2 ^ 32); [|by apply swrap_divides]. by exists (2 ^ 20). }
  replace (swrap 32 d) with (d - (d - swrap 32 d)) by lia.
  by apply Z.divide_sub_r.
Qed.

(** The two parts add up, up to the 32 bits [auipc] can reach. *)
Lemma ImmHi_ImmLo imm :
  - 2 ^ 31 <= imm < 2 ^ 31 - 2 ^ 11 -> ImmHi imm + ImmLo imm = imm.
Proof.
  intros. rewrite ImmHi_swrap, ImmLo_swrap.
  pose proof (swrap_range 12 imm ltac:(lia)) as Hr. unfold is_s in Hr.
  destruct (Z_lt_le_dec (imm - swrap 12 imm) (- 2 ^ 31)) as [L|L].
  - (* the difference is a multiple of 4096 that cannot lie below -2^31 *)
    pose proof (swrap_divides 12 imm ltac:(lia)) as [q Hq]. lia.
  - rewrite (swrap_small 32); unfold is_s; lia.
Qed.
