(* ===== verification/RiscvAssembler.v ===== *)
(** * The micro-assembler: runtime/vm/compiler/assembler/assembler_riscv.{h,cc}

    [MicroAssembler] appends the encoding of one instruction to its buffer and
    chooses a compressed encoding when the enabled extensions and the operands
    allow it.  Every method is a function from the assembler state to the next
    one, with the tests and the early returns of the source; [ASSERT]s are
    no-ops of a release build and reappear as hypotheses of the theorems.  The
    floating-point methods are not modelled. *)

From S2P Require Import Prelude Utils RiscvConstants RiscvEncoding.

Record Address := mkAddress { base : Z; offset : Z }.

Record MicroAssembler := mkAsm {
  buffer_ : list Z;             (* the bytes emitted so far *)
  extensions_ : Z;              (* an [ExtensionSet] *)
  far_branch_level_ : Z
}.

Definition set_buffer (b : list Z) (a : MicroAssembler) : MicroAssembler :=
  mkAsm b (extensions_ a) (far_branch_level_ a).

(** [ExtensionSet::Includes]. *)
Definition Includes (set ext : Z) : bool := negb (set .& (1 ≪ ext) =? 0).

Module Asm.

Definition Supports (a : MicroAssembler) (ext : Z) : bool :=
  Includes (extensions_ a) ext.

Definition Position (a : MicroAssembler) : Z := Z.of_nat (length (buffer_ a)).

Definition Emit16 (instruction : Z) (a : MicroAssembler) : MicroAssembler :=
  set_buffer (buffer_ a ++ Z_to_little_endian 2 8 (u16 instruction)) a.
Definition Emit32 (instruction : Z) (a : MicroAssembler) : MicroAssembler :=
  set_buffer (buffer_ a ++ Z_to_little_endian 4 8 (u32 instruction)) a.

(** ** Instruction formats *)

Definition EmitRType (funct7 rs2 rs1 funct3 rd opcode : Z)
    (a : MicroAssembler) : MicroAssembler :=
  Emit32 (EncodeFunct7 funct7 .| EncodeRs2 rs2 .| EncodeRs1 rs1
          .| EncodeFunct3 funct3 .| EncodeRd rd .| EncodeOpcode opcode) a.

(** The overload that takes a shift amount in place of [rs2]. *)
Definition EmitRTypeShamt (funct7 shamt rs1 funct3 rd opcode : Z)
    (a : MicroAssembler) : MicroAssembler :=
  Emit32 (EncodeFunct7 funct7 .| EncodeShamt shamt .| EncodeRs1 rs1
          .| EncodeFunct3 funct3 .| EncodeRd rd .| EncodeOpcode opcode) a.

(** The overload for atomics: the ordering bits are the low bits of [funct7]. *)
Definition order_bits (order : memory_order_t) : Z :=
  match order with
  | acq_rel => 3
  | acquire => 2
  | release => 1
  | relaxed => 0
  end.

Definition EmitRTypeOrder (funct5 : Z) (order : memory_order_t)
    (rs2 rs1 funct3 rd opcode : Z) (a : MicroAssembler) : MicroAssembler :=
  EmitRType ((funct5 ≪ 2) .| order_bits order) rs2 rs1 funct3 rd opcode a.

Definition EmitIType (imm rs1 funct3 rd opcode : Z)
    (a : MicroAssembler) : MicroAssembler :=
  Emit32 (EncodeITypeImm imm .| EncodeRs1 rs1 .| EncodeFunct3 funct3
          .| EncodeRd rd .| EncodeOpcode opcode) a.

Definition EmitSType (imm rs2 rs1 funct3 opcode : Z)
    (a : MicroAssembler) : MicroAssembler :=
  Emit32 (EncodeSTypeImm imm .| EncodeRs2 rs2 .| EncodeRs1 rs1
          .| EncodeFunct3 funct3 .| EncodeOpcode opcode) a.

Definition EmitBType (imm rs2 rs1 funct3 opcode : Z)
    (a : MicroAssembler) : MicroAssembler :=
  Emit32 (EncodeBTypeImm imm .| EncodeRs2 rs2 .| EncodeRs1 rs1
          .| EncodeFunct3 funct3 .| EncodeOpcode opcode) a.

Definition EmitUType (imm rd opcode : Z)
    (a : MicroAssembler) : MicroAssembler :=
  Emit32 (EncodeUTypeImm imm .| EncodeRd rd .| EncodeOpcode opcode) a.

Definition EmitJType (imm rd opcode : Z)
    (a : MicroAssembler) : MicroAssembler :=
  Emit32 (EncodeJTypeImm imm .| EncodeRd rd .| EncodeOpcode opcode) a.

(** ** Compressed instructions *)

Definition c_lwsp (rd : Z) (addr : Address)
    (a : MicroAssembler) : MicroAssembler :=
  Emit16 (COpcode.C_LWSP .| EncodeCRd rd .| EncodeCSPLoad4Imm (offset addr)) a.

Definition c_ldsp (rd : Z) (addr : Address)
    (a : MicroAssembler) : MicroAssembler :=
  Emit16 (COpcode.C_LDSP .| EncodeCRd rd .| EncodeCSPLoad8Imm (offset addr)) a.

Definition c_swsp (rs2 : Z) (addr : Address)
    (a : MicroAssembler) : MicroAssembler :=
  Emit16 (COpcode.C_SWSP .| EncodeCRs2 rs2
      .| EncodeCSPStore4Imm (offset addr)) a.

Definition c_sdsp (rs2 : Z) (addr : Address)
    (a : MicroAssembler) : MicroAssembler :=
  Emit16 (COpcode.C_SDSP .| EncodeCRs2 rs2
      .| EncodeCSPStore8Imm (offset addr)) a.

Definition c_lw (rd : Z) (addr : Address)
    (a : MicroAssembler) : MicroAssembler :=
  Emit16 (COpcode.C_LW .| EncodeCRdp rd .| EncodeCRs1p (base addr)
      .| EncodeCMem4Imm (offset addr)) a.

Definition c_ld (rd : Z) (addr : Address)
    (a : MicroAssembler) : MicroAssembler :=
  Emit16 (COpcode.C_LD .| EncodeCRdp rd .| EncodeCRs1p (base addr)
      .| EncodeCMem8Imm (offset addr)) a.

Definition c_sw (rs2 : Z) (addr : Address)
    (a : MicroAssembler) : MicroAssembler :=
  Emit16 (COpcode.C_SW .| EncodeCRs1p (base addr) .| EncodeCRs2p rs2
      .| EncodeCMem4Imm (offset addr)) a.

Definition c_sd (rs2 : Z) (addr : Address)
    (a : MicroAssembler) : MicroAssembler :=
  Emit16 (COpcode.C_SD .| EncodeCRs1p (base addr) .| EncodeCRs2p rs2
      .| EncodeCMem8Imm (offset addr)) a.

Definition c_jr (rs1 : Z) (a : MicroAssembler) : MicroAssembler :=
  Emit16 (COpcode.C_JR .| EncodeCRs1 rs1 .| EncodeCRs2 Register.ZR) a.

Definition c_jalr (rs1 : Z) (a : MicroAssembler) : MicroAssembler :=
  Emit16 (COpcode.C_JALR .| EncodeCRs1 rs1 .| EncodeCRs2 Register.ZR) a.

Definition c_li (rd imm : Z) (a : MicroAssembler) : MicroAssembler :=
  Emit16 (COpcode.C_LI .| EncodeCRd rd .| EncodeCIImm imm) a.

Definition c_lui (rd imm : Z) (a : MicroAssembler) : MicroAssembler :=
  Emit16 (COpcode.C_LUI .| EncodeCRd rd .| EncodeCUImm imm) a.

Definition c_addi (rd rs1 imm : Z) (a : MicroAssembler) : MicroAssembler :=
  Emit16 (COpcode.C_ADDI .| EncodeCRd rd .| EncodeCIImm imm) a.

Definition c_addiw (rd rs1 imm : Z) (a : MicroAssembler) : MicroAssembler :=
  Emit16 (COpcode.C_ADDIW .| EncodeCRd rd .| EncodeCIImm imm) a.

Definition c_addi16sp (rd rs1 imm : Z) (a : MicroAssembler) : MicroAssembler :=
  Emit16 (COpcode.C_ADDI16SP .| EncodeCRd rd .| EncodeCI16Imm imm) a.

Definition c_addi4spn (rdp rs1 imm : Z)
    (a : MicroAssembler) : MicroAssembler :=
  Emit16 (COpcode.C_ADDI4SPN .| EncodeCRdp rdp .| EncodeCI4SPNImm imm) a.

Definition c_slli (rd rs1 imm : Z) (a : MicroAssembler) : MicroAssembler :=
  Emit16 (COpcode.C_SLLI .| EncodeCRd rd .| EncodeCShamt imm) a.

Definition c_srli (rd rs1 imm : Z) (a : MicroAssembler) : MicroAssembler :=
  Emit16 (COpcode.C_SRLI .| EncodeCRs1p rd .| EncodeCShamt imm) a.

Definition c_srai (rd rs1 imm : Z) (a : MicroAssembler) : MicroAssembler :=
  Emit16 (COpcode.C_SRAI .| EncodeCRs1p rd .| EncodeCShamt imm) a.

Definition c_andi (rd rs1 imm : Z) (a : MicroAssembler) : MicroAssembler :=
  Emit16 (COpcode.C_ANDI .| EncodeCRs1p rd .| EncodeCIImm imm) a.

Definition c_mv (rd rs2 : Z) (a : MicroAssembler) : MicroAssembler :=
  Emit16 (COpcode.C_MV .| EncodeCRd rd .| EncodeCRs2 rs2) a.

Definition c_add (rd rs1 rs2 : Z) (a : MicroAssembler) : MicroAssembler :=
  Emit16 (COpcode.C_ADD .| EncodeCRd rd .| EncodeCRs2 rs2) a.

Definition c_and (rd rs1 rs2 : Z) (a : MicroAssembler) : MicroAssembler :=
  Emit16 (COpcode.C_AND .| EncodeCRs1p rs1 .| EncodeCRs2p rs2) a.

Definition c_or (rd rs1 rs2 : Z) (a : MicroAssembler) : MicroAssembler :=
  Emit16 (COpcode.C_OR .| EncodeCRs1p rs1 .| EncodeCRs2p rs2) a.

Definition c_xor (rd rs1 rs2 : Z) (a : MicroAssembler) : MicroAssembler :=
  Emit16 (COpcode.C_XOR .| EncodeCRs1p rs1 .| EncodeCRs2p rs2) a.

Definition c_sub (rd rs1 rs2 : Z) (a : MicroAssembler) : MicroAssembler :=
  Emit16 (COpcode.C_SUB .| EncodeCRs1p rs1 .| EncodeCRs2p rs2) a.

Definition c_addw (rd rs1 rs2 : Z) (a : MicroAssembler) : MicroAssembler :=
  Emit16 (COpcode.C_ADDW .| EncodeCRs1p rs1 .| EncodeCRs2p rs2) a.

Definition c_subw (rd rs1 rs2 : Z) (a : MicroAssembler) : MicroAssembler :=
  Emit16 (COpcode.C_SUBW .| EncodeCRs1p rs1 .| EncodeCRs2p rs2) a.

Definition c_nop (a : MicroAssembler) : MicroAssembler :=
  Emit16 COpcode.C_NOP a.

Definition c_ebreak (a : MicroAssembler) : MicroAssembler :=
  Emit16 COpcode.C_EBREAK a.

Definition c_lbu (rd : Z) (addr : Address)
    (a : MicroAssembler) : MicroAssembler :=
  Emit16 (COpcode.C_LBU .| EncodeCRdp rd .| EncodeCRs1p (base addr)
      .| EncodeCMem1Imm (offset addr)) a.

Definition c_lhu (rd : Z) (addr : Address)
    (a : MicroAssembler) : MicroAssembler :=
  Emit16 (COpcode.C_LHU .| EncodeCRdp rd .| EncodeCRs1p (base addr)
      .| EncodeCMem2Imm (offset addr)) a.

Definition c_lh (rd : Z) (addr : Address)
    (a : MicroAssembler) : MicroAssembler :=
  Emit16 (COpcode.C_LH .| EncodeCRdp rd .| EncodeCRs1p (base addr)
      .| EncodeCMem2Imm (offset addr)) a.

Definition c_sb (rs2 : Z) (addr : Address)
    (a : MicroAssembler) : MicroAssembler :=
  Emit16 (COpcode.C_SB .| EncodeCRs1p (base addr) .| EncodeCRs2p rs2
      .| EncodeCMem1Imm (offset addr)) a.

Definition c_sh (rs2 : Z) (addr : Address)
    (a : MicroAssembler) : MicroAssembler :=
  Emit16 (COpcode.C_SH .| EncodeCRs1p (base addr) .| EncodeCRs2p rs2
      .| EncodeCMem2Imm (offset addr)) a.

Definition c_zextb (rd rs1 : Z) (a : MicroAssembler) : MicroAssembler :=
  Emit16 (COpcode.C_ZEXTB .| EncodeCRs1p rs1) a.

Definition c_sextb (rd rs1 : Z) (a : MicroAssembler) : MicroAssembler :=
  Emit16 (COpcode.C_SEXTB .| EncodeCRs1p rs1) a.

Definition c_zexth (rd rs1 : Z) (a : MicroAssembler) : MicroAssembler :=
  Emit16 (COpcode.C_ZEXTH .| EncodeCRs1p rs1) a.

Definition c_sexth (rd rs1 : Z) (a : MicroAssembler) : MicroAssembler :=
  Emit16 (COpcode.C_SEXTH .| EncodeCRs1p rs1) a.

Definition c_zextw (rd rs1 : Z) (a : MicroAssembler) : MicroAssembler :=
  Emit16 (COpcode.C_ZEXTW .| EncodeCRs1p rs1) a.

Definition c_mul (rd rs1 rs2 : Z) (a : MicroAssembler) : MicroAssembler :=
  Emit16 (COpcode.C_MUL .| EncodeCRs1p rs1 .| EncodeCRs2p rs2) a.

Definition c_not (rd rs1 : Z) (a : MicroAssembler) : MicroAssembler :=
  Emit16 (COpcode.C_NOT .| EncodeCRs1p rs1) a.

(** ** Instructions *)

Definition lui (rd imm : Z) (a : MicroAssembler) : MicroAssembler :=
  if Supports a Extension.RV_C && negb (rd =? Register.ZR)
      && negb (rd =? Register.SP) && IsCUImm imm
  then c_lui rd imm a
  else EmitUType imm rd Opcode.LUI a.

Definition lui_fixed (rd imm : Z) (a : MicroAssembler) : MicroAssembler :=
  EmitUType imm rd Opcode.LUI a.

Definition auipc (rd imm : Z) (a : MicroAssembler) : MicroAssembler :=
  EmitUType imm rd Opcode.AUIPC a.

Definition jalr (rd rs1 offset : Z) (a : MicroAssembler) : MicroAssembler :=
  if Supports a Extension.RV_C
  then (if negb (rs1 =? Register.ZR) && (offset =? 0)
    then (if (rd =? Register.ZR)
      then c_jr rs1 a
      else if (rd =? Register.RA)
      then c_jalr rs1 a
      else EmitIType offset rs1 Funct3.F3_0 rd Opcode.JALR a)
    else EmitIType offset rs1 Funct3.F3_0 rd Opcode.JALR a)
  else EmitIType offset rs1 Funct3.F3_0 rd Opcode.JALR a.

Definition jalr_fixed (rd rs1 offset : Z)
    (a : MicroAssembler) : MicroAssembler :=
  EmitIType offset rs1 Funct3.F3_0 rd Opcode.JALR a.

Definition lb (rd : Z) (addr : Address)
    (a : MicroAssembler) : MicroAssembler :=
  EmitIType (offset addr) (base addr) Funct3.LB rd Opcode.LOAD a.

Definition lh (rd : Z) (addr : Address)
    (a : MicroAssembler) : MicroAssembler :=
  if Supports a Extension.RV_Zcb && IsCRdp rd && IsCRs1p (base addr)
      && IsCMem2Imm (offset addr)
  then c_lh rd addr a
  else EmitIType (offset addr) (base addr) Funct3.LH rd Opcode.LOAD a.

Definition lw (rd : Z) (addr : Address)
    (a : MicroAssembler) : MicroAssembler :=
  if Supports a Extension.RV_C
  then (if negb (rd =? Register.ZR) && ((base addr) =? Register.SP)
      && IsCSPLoad4Imm (offset addr)
    then c_lwsp rd addr a
    else if IsCRdp rd && IsCRs1p (base addr) && IsCMem4Imm (offset addr)
    then c_lw rd addr a
    else EmitIType (offset addr) (base addr) Funct3.LW rd Opcode.LOAD a)
  else EmitIType (offset addr) (base addr) Funct3.LW rd Opcode.LOAD a.

Definition lbu (rd : Z) (addr : Address)
    (a : MicroAssembler) : MicroAssembler :=
  if Supports a Extension.RV_Zcb && IsCRdp rd && IsCRs1p (base addr)
      && IsCMem1Imm (offset addr)
  then c_lbu rd addr a
  else EmitIType (offset addr) (base addr) Funct3.LBU rd Opcode.LOAD a.

Definition lhu (rd : Z) (addr : Address)
    (a : MicroAssembler) : MicroAssembler :=
  if Supports a Extension.RV_Zcb && IsCRdp rd && IsCRs1p (base addr)
      && IsCMem2Imm (offset addr)
  then c_lhu rd addr a
  else EmitIType (offset addr) (base addr) Funct3.LHU rd Opcode.LOAD a.

Definition sb (rs2 : Z) (addr : Address)
    (a : MicroAssembler) : MicroAssembler :=
  if Supports a Extension.RV_Zcb && IsCRs2p rs2 && IsCRs1p (base addr)
      && IsCMem1Imm (offset addr)
  then c_sb rs2 addr a
  else EmitSType (offset addr) rs2 (base addr) Funct3.SB Opcode.STORE a.

Definition sh (rs2 : Z) (addr : Address)
    (a : MicroAssembler) : MicroAssembler :=
  if Supports a Extension.RV_Zcb && IsCRs2p rs2 && IsCRs1p (base addr)
      && IsCMem2Imm (offset addr)
  then c_sh rs2 addr a
  else EmitSType (offset addr) rs2 (base addr) Funct3.SH Opcode.STORE a.

Definition sw (rs2 : Z) (addr : Address)
    (a : MicroAssembler) : MicroAssembler :=
  if Supports a Extension.RV_C
  then (if ((base addr) =? Register.SP) && IsCSPStore4Imm (offset addr)
    then c_swsp rs2 addr a
    else if IsCRs2p rs2 && IsCRs1p (base addr) && IsCMem4Imm (offset addr)
    then c_sw rs2 addr a
    else EmitSType (offset addr) rs2 (base addr) Funct3.SW Opcode.STORE a)
  else EmitSType (offset addr) rs2 (base addr) Funct3.SW Opcode.STORE a.

Definition addi (rd rs1 imm : Z) (a : MicroAssembler) : MicroAssembler :=
  if Supports a Extension.RV_C
  then (if negb (rd =? Register.ZR) && (rs1 =? Register.ZR) && IsCIImm imm
    then c_li rd imm a
    else if (rd =? rs1) && IsCIImm imm && negb (imm =? 0)
    then c_addi rd rs1 imm a
    else if (rd =? Register.SP) && (rs1 =? Register.SP) && IsCI16Imm imm
        && negb (imm =? 0)
    then c_addi16sp rd rs1 imm a
    else if IsCRdp rd && (rs1 =? Register.SP) && IsCI4SPNImm imm
        && negb (imm =? 0)
    then c_addi4spn rd rs1 imm a
    else if (imm =? 0)
    then (if (rd =? Register.ZR) && (rs1 =? Register.ZR)
      then c_nop a
      else if negb (rd =? Register.ZR) && negb (rs1 =? Register.ZR)
      then c_mv rd rs1 a
      else EmitIType imm rs1 Funct3.ADDI rd Opcode.OPIMM a)
    else EmitIType imm rs1 Funct3.ADDI rd Opcode.OPIMM a)
  else EmitIType imm rs1 Funct3.ADDI rd Opcode.OPIMM a.

Definition slti (rd rs1 imm : Z) (a : MicroAssembler) : MicroAssembler :=
  EmitIType imm rs1 Funct3.SLTI rd Opcode.OPIMM a.

Definition sltiu (rd rs1 imm : Z) (a : MicroAssembler) : MicroAssembler :=
  EmitIType imm rs1 Funct3.SLTIU rd Opcode.OPIMM a.

Definition xori (rd rs1 imm : Z) (a : MicroAssembler) : MicroAssembler :=
  if Supports a Extension.RV_Zcb
  then (if (rd =? rs1) && IsCRs1p rs1 && (imm =? (-1))
    then c_not rd rs1 a
    else EmitIType imm rs1 Funct3.XORI rd Opcode.OPIMM a)
  else EmitIType imm rs1 Funct3.XORI rd Opcode.OPIMM a.

Definition ori (rd rs1 imm : Z) (a : MicroAssembler) : MicroAssembler :=
  EmitIType imm rs1 Funct3.ORI rd Opcode.OPIMM a.

Definition andi (rd rs1 imm : Z) (a : MicroAssembler) : MicroAssembler :=
  if Supports a Extension.RV_C
  then (if (rd =? rs1) && IsCRs1p rs1 && IsCIImm imm
    then c_andi rd rs1 imm a
    else if Supports a Extension.RV_Zcb
    then (if (rd =? rs1) && IsCRs1p rs1 && (imm =? 0xFF)
      then c_zextb rd rs1 a
      else EmitIType imm rs1 Funct3.ANDI rd Opcode.OPIMM a)
    else EmitIType imm rs1 Funct3.ANDI rd Opcode.OPIMM a)
  else EmitIType imm rs1 Funct3.ANDI rd Opcode.OPIMM a.

Definition slli (rd rs1 shamt : Z) (a : MicroAssembler) : MicroAssembler :=
  if Supports a Extension.RV_C
  then (if (rd =? rs1) && negb (rd =? Register.ZR) && IsCShamt shamt
    then c_slli rd rs1 shamt a
    else EmitRTypeShamt Funct7.F7_0 shamt rs1 Funct3.SLLI rd Opcode.OPIMM a)
  else EmitRTypeShamt Funct7.F7_0 shamt rs1 Funct3.SLLI rd Opcode.OPIMM a.

Definition srli (rd rs1 shamt : Z) (a : MicroAssembler) : MicroAssembler :=
  if Supports a Extension.RV_C
  then (if (rd =? rs1) && IsCRs1p rs1 && IsCShamt shamt
    then c_srli rd rs1 shamt a
    else EmitRTypeShamt Funct7.F7_0 shamt rs1 Funct3.SRI rd Opcode.OPIMM a)
  else EmitRTypeShamt Funct7.F7_0 shamt rs1 Funct3.SRI rd Opcode.OPIMM a.

Definition srai (rd rs1 shamt : Z) (a : MicroAssembler) : MicroAssembler :=
  if Supports a Extension.RV_C
  then (if (rd =? rs1) && IsCRs1p rs1 && IsCShamt shamt
    then c_srai rd rs1 shamt a
    else EmitRTypeShamt Funct7.SRA shamt rs1 Funct3.SRI rd Opcode.OPIMM a)
  else EmitRTypeShamt Funct7.SRA shamt rs1 Funct3.SRI rd Opcode.OPIMM a.

Definition add (rd rs1 rs2 : Z) (a : MicroAssembler) : MicroAssembler :=
  if Supports a Extension.RV_C
  then (if (rd =? rs1)
    then c_add rd rs1 rs2 a
    else if (rd =? rs2)
    then c_add rd rs2 rs1 a
    else EmitRType Funct7.F7_0 rs2 rs1 Funct3.ADD rd Opcode.OP a)
  else EmitRType Funct7.F7_0 rs2 rs1 Funct3.ADD rd Opcode.OP a.

Definition sub (rd rs1 rs2 : Z) (a : MicroAssembler) : MicroAssembler :=
  if Supports a Extension.RV_C
  then (if (rd =? rs1) && IsCRs1p rs1 && IsCRs2p rs2
    then c_sub rd rs1 rs2 a
    else EmitRType Funct7.SUB rs2 rs1 Funct3.ADD rd Opcode.OP a)
  else EmitRType Funct7.SUB rs2 rs1 Funct3.ADD rd Opcode.OP a.

Definition sll (rd rs1 rs2 : Z) (a : MicroAssembler) : MicroAssembler :=
  EmitRType Funct7.F7_0 rs2 rs1 Funct3.SLL rd Opcode.OP a.

Definition slt (rd rs1 rs2 : Z) (a : MicroAssembler) : MicroAssembler :=
  EmitRType Funct7.F7_0 rs2 rs1 Funct3.SLT rd Opcode.OP a.

Definition sltu (rd rs1 rs2 : Z) (a : MicroAssembler) : MicroAssembler :=
  EmitRType Funct7.F7_0 rs2 rs1 Funct3.SLTU rd Opcode.OP a.

Definition xor_ (rd rs1 rs2 : Z) (a : MicroAssembler) : MicroAssembler :=
  if Supports a Extension.RV_C
  then (if (rd =? rs1) && IsCRs1p rs1 && IsCRs2p rs2
    then c_xor rd rs1 rs2 a
    else if (rd =? rs2) && IsCRs1p rs1 && IsCRs2p rs2
    then c_xor rd rs2 rs1 a
    else EmitRType Funct7.F7_0 rs2 rs1 Funct3.XOR rd Opcode.OP a)
  else EmitRType Funct7.F7_0 rs2 rs1 Funct3.XOR rd Opcode.OP a.

Definition srl (rd rs1 rs2 : Z) (a : MicroAssembler) : MicroAssembler :=
  EmitRType Funct7.F7_0 rs2 rs1 Funct3.SR rd Opcode.OP a.

Definition sra (rd rs1 rs2 : Z) (a : MicroAssembler) : MicroAssembler :=
  EmitRType Funct7.SRA rs2 rs1 Funct3.SR rd Opcode.OP a.

Definition or_ (rd rs1 rs2 : Z) (a : MicroAssembler) : MicroAssembler :=
  if Supports a Extension.RV_C
  then (if (rd =? rs1) && IsCRs1p rs1 && IsCRs2p rs2
    then c_or rd rs1 rs2 a
    else if (rd =? rs2) && IsCRs1p rs1 && IsCRs2p rs2
    then c_or rd rs2 rs1 a
    else EmitRType Funct7.F7_0 rs2 rs1 Funct3.OR rd Opcode.OP a)
  else EmitRType Funct7.F7_0 rs2 rs1 Funct3.OR rd Opcode.OP a.

Definition and_ (rd rs1 rs2 : Z) (a : MicroAssembler) : MicroAssembler :=
  if Supports a Extension.RV_C
  then (if (rd =? rs1) && IsCRs1p rs1 && IsCRs2p rs2
    then c_and rd rs1 rs2 a
    else if (rd =? rs2) && IsCRs1p rs1 && IsCRs2p rs2
    then c_and rd rs2 rs1 a
    else EmitRType Funct7.F7_0 rs2 rs1 Funct3.AND rd Opcode.OP a)
  else EmitRType Funct7.F7_0 rs2 rs1 Funct3.AND rd Opcode.OP a.

Definition fence (predecessor successor : Z)
    (a : MicroAssembler) : MicroAssembler :=
  EmitIType ((predecessor ≪ 4)
      .| successor) Register.ZR Funct3.FENCE Register.ZR Opcode.MISCMEM a.

Definition fencei (a : MicroAssembler) : MicroAssembler :=
  EmitIType 0 Register.ZR Funct3.FENCEI Register.ZR Opcode.MISCMEM a.

Definition ecall (a : MicroAssembler) : MicroAssembler :=
  EmitIType Funct12.ECALL Register.ZR Funct3.F3_0 Register.ZR Opcode.SYSTEM a.

Definition ebreak (a : MicroAssembler) : MicroAssembler :=
  if Supports a Extension.RV_C
  then c_ebreak a
  else EmitIType Funct12.EBREAK Register.ZR Funct3.F3_0 Register.ZR Opcode.SYSTEM a.

Definition SimulatorPrintObject (rs1 : Z)
    (a : MicroAssembler) : MicroAssembler :=
  EmitIType Funct12.ECALL rs1 Funct3.F3_0 Register.ZR Opcode.SYSTEM a.

Definition csrrw (rd csr rs1 : Z) (a : MicroAssembler) : MicroAssembler :=
  EmitIType csr rs1 Funct3.CSRRW rd Opcode.SYSTEM a.

Definition csrrs (rd csr rs1 : Z) (a : MicroAssembler) : MicroAssembler :=
  EmitIType csr rs1 Funct3.CSRRS rd Opcode.SYSTEM a.

Definition csrrc (rd csr rs1 : Z) (a : MicroAssembler) : MicroAssembler :=
  EmitIType csr rs1 Funct3.CSRRC rd Opcode.SYSTEM a.

Definition csrrwi (rd csr imm : Z) (a : MicroAssembler) : MicroAssembler :=
  EmitIType csr imm Funct3.CSRRWI rd Opcode.SYSTEM a.

Definition csrrsi (rd csr imm : Z) (a : MicroAssembler) : MicroAssembler :=
  EmitIType csr imm Funct3.CSRRSI rd Opcode.SYSTEM a.

Definition csrrci (rd csr imm : Z) (a : MicroAssembler) : MicroAssembler :=
  EmitIType csr imm Funct3.CSRRCI rd Opcode.SYSTEM a.

Definition trap (a : MicroAssembler) : MicroAssembler :=
  if Supports a Extension.RV_C then Emit16 0 a
  else Emit32 0 a.

Definition lwu (rd : Z) (addr : Address)
    (a : MicroAssembler) : MicroAssembler :=
  EmitIType (offset addr) (base addr) Funct3.LWU rd Opcode.LOAD a.

Definition ld (rd : Z) (addr : Address)
    (a : MicroAssembler) : MicroAssembler :=
  if Supports a Extension.RV_C
  then (if negb (rd =? Register.ZR) && ((base addr) =? Register.SP)
      && IsCSPLoad8Imm (offset addr)
    then c_ldsp rd addr a
    else if IsCRdp rd && IsCRs1p (base addr) && IsCMem8Imm (offset addr)
    then c_ld rd addr a
    else EmitIType (offset addr) (base addr) Funct3.LD rd Opcode.LOAD a)
  else EmitIType (offset addr) (base addr) Funct3.LD rd Opcode.LOAD a.

Definition sd (rs2 : Z) (addr : Address)
    (a : MicroAssembler) : MicroAssembler :=
  if Supports a Extension.RV_C
  then (if ((base addr) =? Register.SP) && IsCSPStore8Imm (offset addr)
    then c_sdsp rs2 addr a
    else if IsCRs2p rs2 && IsCRs1p (base addr) && IsCMem8Imm (offset addr)
    then c_sd rs2 addr a
    else EmitSType (offset addr) rs2 (base addr) Funct3.SD Opcode.STORE a)
  else EmitSType (offset addr) rs2 (base addr) Funct3.SD Opcode.STORE a.

Definition addiw (rd rs1 imm : Z) (a : MicroAssembler) : MicroAssembler :=
  if Supports a Extension.RV_C
  then (if negb (rd =? Register.ZR) && (rs1 =? Register.ZR) && IsCIImm imm
    then c_li rd imm a
    else if (rd =? rs1) && negb (rd =? Register.ZR) && IsCIImm imm
    then c_addiw rd rs1 imm a
    else EmitIType imm rs1 Funct3.ADDI rd Opcode.OPIMM32 a)
  else EmitIType imm rs1 Funct3.ADDI rd Opcode.OPIMM32 a.

Definition slliw (rd rs1 shamt : Z) (a : MicroAssembler) : MicroAssembler :=
  EmitRTypeShamt Funct7.F7_0 shamt rs1 Funct3.SLLI rd Opcode.OPIMM32 a.

Definition srliw (rd rs1 shamt : Z) (a : MicroAssembler) : MicroAssembler :=
  EmitRTypeShamt Funct7.F7_0 shamt rs1 Funct3.SRI rd Opcode.OPIMM32 a.

Definition sraiw (rd rs1 shamt : Z) (a : MicroAssembler) : MicroAssembler :=
  EmitRTypeShamt Funct7.SRA shamt rs1 Funct3.SRI rd Opcode.OPIMM32 a.

Definition addw (rd rs1 rs2 : Z) (a : MicroAssembler) : MicroAssembler :=
  if Supports a Extension.RV_C
  then (if (rd =? rs1) && IsCRs1p rs1 && IsCRs2p rs2
    then c_addw rd rs1 rs2 a
    else if (rd =? rs2) && IsCRs1p rs1 && IsCRs2p rs2
    then c_addw rd rs2 rs1 a
    else EmitRType Funct7.F7_0 rs2 rs1 Funct3.ADD rd Opcode.OP32 a)
  else EmitRType Funct7.F7_0 rs2 rs1 Funct3.ADD rd Opcode.OP32 a.

Definition subw (rd rs1 rs2 : Z) (a : MicroAssembler) : MicroAssembler :=
  if Supports a Extension.RV_C
  then (if (rd =? rs1) && IsCRs1p rs1 && IsCRs2p rs2
    then c_subw rd rs1 rs2 a
    else EmitRType Funct7.SUB rs2 rs1 Funct3.ADD rd Opcode.OP32 a)
  else EmitRType Funct7.SUB rs2 rs1 Funct3.ADD rd Opcode.OP32 a.

Definition sllw (rd rs1 rs2 : Z) (a : MicroAssembler) : MicroAssembler :=
  EmitRType Funct7.F7_0 rs2 rs1 Funct3.SLL rd Opcode.OP32 a.

Definition srlw (rd rs1 rs2 : Z) (a : MicroAssembler) : MicroAssembler :=
  EmitRType Funct7.F7_0 rs2 rs1 Funct3.SR rd Opcode.OP32 a.

Definition sraw (rd rs1 rs2 : Z) (a : MicroAssembler) : MicroAssembler :=
  EmitRType Funct7.SRA rs2 rs1 Funct3.SR rd Opcode.OP32 a.

Definition mul (rd rs1 rs2 : Z) (a : MicroAssembler) : MicroAssembler :=
  if Supports a Extension.RV_Zcb
  then (if (rd =? rs1) && IsCRs1p rs1 && IsCRs2p rs2
    then c_mul rd rs1 rs2 a
    else if (rd =? rs2) && IsCRs1p rs1 && IsCRs2p rs2
    then c_mul rd rs2 rs1 a
    else EmitRType Funct7.MULDIV rs2 rs1 Funct3.MUL rd Opcode.OP a)
  else EmitRType Funct7.MULDIV rs2 rs1 Funct3.MUL rd Opcode.OP a.

Definition mulh (rd rs1 rs2 : Z) (a : MicroAssembler) : MicroAssembler :=
  EmitRType Funct7.MULDIV rs2 rs1 Funct3.MULH rd Opcode.OP a.

Definition mulhsu (rd rs1 rs2 : Z) (a : MicroAssembler) : MicroAssembler :=
  EmitRType Funct7.MULDIV rs2 rs1 Funct3.MULHSU rd Opcode.OP a.

Definition mulhu (rd rs1 rs2 : Z) (a : MicroAssembler) : MicroAssembler :=
  EmitRType Funct7.MULDIV rs2 rs1 Funct3.MULHU rd Opcode.OP a.

Definition div (rd rs1 rs2 : Z) (a : MicroAssembler) : MicroAssembler :=
  EmitRType Funct7.MULDIV rs2 rs1 Funct3.DIV rd Opcode.OP a.

Definition divu (rd rs1 rs2 : Z) (a : MicroAssembler) : MicroAssembler :=
  EmitRType Funct7.MULDIV rs2 rs1 Funct3.DIVU rd Opcode.OP a.

Definition rem (rd rs1 rs2 : Z) (a : MicroAssembler) : MicroAssembler :=
  EmitRType Funct7.MULDIV rs2 rs1 Funct3.REM rd Opcode.OP a.

Definition remu (rd rs1 rs2 : Z) (a : MicroAssembler) : MicroAssembler :=
  EmitRType Funct7.MULDIV rs2 rs1 Funct3.REMU rd Opcode.OP a.

Definition mulw (rd rs1 rs2 : Z) (a : MicroAssembler) : MicroAssembler :=
  EmitRType Funct7.MULDIV rs2 rs1 Funct3.MULW rd Opcode.OP32 a.

Definition divw (rd rs1 rs2 : Z) (a : MicroAssembler) : MicroAssembler :=
  EmitRType Funct7.MULDIV rs2 rs1 Funct3.DIVW rd Opcode.OP32 a.

Definition divuw (rd rs1 rs2 : Z) (a : MicroAssembler) : MicroAssembler :=
  EmitRType Funct7.MULDIV rs2 rs1 Funct3.DIVUW rd Opcode.OP32 a.

Definition remw (rd rs1 rs2 : Z) (a : MicroAssembler) : MicroAssembler :=
  EmitRType Funct7.MULDIV rs2 rs1 Funct3.REMW rd Opcode.OP32 a.

Definition remuw (rd rs1 rs2 : Z) (a : MicroAssembler) : MicroAssembler :=
  EmitRType Funct7.MULDIV rs2 rs1 Funct3.REMUW rd Opcode.OP32 a.

Definition lrw (rd : Z) (addr : Address) (order : memory_order_t)
    (a : MicroAssembler) : MicroAssembler :=
  EmitRTypeOrder Funct5.LR order Register.ZR (base addr) Funct3.WIDTH32 rd Opcode.AMO a.

Definition scw (rd rs2 : Z) (addr : Address) (order : memory_order_t)
    (a : MicroAssembler) : MicroAssembler :=
  EmitRTypeOrder Funct5.SC order rs2 (base addr) Funct3.WIDTH32 rd Opcode.AMO a.

Definition amoswapw (rd rs2 : Z) (addr : Address) (order : memory_order_t)
    (a : MicroAssembler) : MicroAssembler :=
  EmitRTypeOrder Funct5.AMOSWAP order rs2 (base addr) Funct3.WIDTH32 rd Opcode.AMO a.

Definition amoaddw (rd rs2 : Z) (addr : Address) (order : memory_order_t)
    (a : MicroAssembler) : MicroAssembler :=
  EmitRTypeOrder Funct5.AMOADD order rs2 (base addr) Funct3.WIDTH32 rd Opcode.AMO a.

Definition amoxorw (rd rs2 : Z) (addr : Address) (order : memory_order_t)
    (a : MicroAssembler) : MicroAssembler :=
  EmitRTypeOrder Funct5.AMOXOR order rs2 (base addr) Funct3.WIDTH32 rd Opcode.AMO a.

Definition amoandw (rd rs2 : Z) (addr : Address) (order : memory_order_t)
    (a : MicroAssembler) : MicroAssembler :=
  EmitRTypeOrder Funct5.AMOAND order rs2 (base addr) Funct3.WIDTH32 rd Opcode.AMO a.

Definition amoorw (rd rs2 : Z) (addr : Address) (order : memory_order_t)
    (a : MicroAssembler) : MicroAssembler :=
  EmitRTypeOrder Funct5.AMOOR order rs2 (base addr) Funct3.WIDTH32 rd Opcode.AMO a.

Definition amominw (rd rs2 : Z) (addr : Address) (order : memory_order_t)
    (a : MicroAssembler) : MicroAssembler :=
  EmitRTypeOrder Funct5.AMOMIN order rs2 (base addr) Funct3.WIDTH32 rd Opcode.AMO a.

Definition amomaxw (rd rs2 : Z) (addr : Address) (order : memory_order_t)
    (a : MicroAssembler) : MicroAssembler :=
  EmitRTypeOrder Funct5.AMOMAX order rs2 (base addr) Funct3.WIDTH32 rd Opcode.AMO a.

Definition amominuw (rd rs2 : Z) (addr : Address) (order : memory_order_t)
    (a : MicroAssembler) : MicroAssembler :=
  EmitRTypeOrder Funct5.AMOMINU order rs2 (base addr) Funct3.WIDTH32 rd Opcode.AMO a.

Definition amomaxuw (rd rs2 : Z) (addr : Address) (order : memory_order_t)
    (a : MicroAssembler) : MicroAssembler :=
  EmitRTypeOrder Funct5.AMOMAXU order rs2 (base addr) Funct3.WIDTH32 rd Opcode.AMO a.

Definition lrd (rd : Z) (addr : Address) (order : memory_order_t)
    (a : MicroAssembler) : MicroAssembler :=
  EmitRTypeOrder Funct5.LR order Register.ZR (base addr) Funct3.WIDTH64 rd Opcode.AMO a.

Definition scd (rd rs2 : Z) (addr : Address) (order : memory_order_t)
    (a : MicroAssembler) : MicroAssembler :=
  EmitRTypeOrder Funct5.SC order rs2 (base addr) Funct3.WIDTH64 rd Opcode.AMO a.

Definition amoswapd (rd rs2 : Z) (addr : Address) (order : memory_order_t)
    (a : MicroAssembler) : MicroAssembler :=
  EmitRTypeOrder Funct5.AMOSWAP order rs2 (base addr) Funct3.WIDTH64 rd Opcode.AMO a.

Definition amoaddd (rd rs2 : Z) (addr : Address) (order : memory_order_t)
    (a : MicroAssembler) : MicroAssembler :=
  EmitRTypeOrder Funct5.AMOADD order rs2 (base addr) Funct3.WIDTH64 rd Opcode.AMO a.

Definition amoxord (rd rs2 : Z) (addr : Address) (order : memory_order_t)
    (a : MicroAssembler) : MicroAssembler :=
  EmitRTypeOrder Funct5.AMOXOR order rs2 (base addr) Funct3.WIDTH64 rd Opcode.AMO a.

Definition amoandd (rd rs2 : Z) (addr : Address) (order : memory_order_t)
    (a : MicroAssembler) : MicroAssembler :=
  EmitRTypeOrder Funct5.AMOAND order rs2 (base addr) Funct3.WIDTH64 rd Opcode.AMO a.

Definition amoord (rd rs2 : Z) (addr : Address) (order : memory_order_t)
    (a : MicroAssembler) : MicroAssembler :=
  EmitRTypeOrder Funct5.AMOOR order rs2 (base addr) Funct3.WIDTH64 rd Opcode.AMO a.

Definition amomind (rd rs2 : Z) (addr : Address) (order : memory_order_t)
    (a : MicroAssembler) : MicroAssembler :=
  EmitRTypeOrder Funct5.AMOMIN order rs2 (base addr) Funct3.WIDTH64 rd Opcode.AMO a.

Definition amomaxd (rd rs2 : Z) (addr : Address) (order : memory_order_t)
    (a : MicroAssembler) : MicroAssembler :=
  EmitRTypeOrder Funct5.AMOMAX order rs2 (base addr) Funct3.WIDTH64 rd Opcode.AMO a.

Definition amominud (rd rs2 : Z) (addr : Address) (order : memory_order_t)
    (a : MicroAssembler) : MicroAssembler :=
  EmitRTypeOrder Funct5.AMOMINU order rs2 (base addr) Funct3.WIDTH64 rd Opcode.AMO a.

Definition amomaxud (rd rs2 : Z) (addr : Address) (order : memory_order_t)
    (a : MicroAssembler) : MicroAssembler :=
  EmitRTypeOrder Funct5.AMOMAXU order rs2 (base addr) Funct3.WIDTH64 rd Opcode.AMO a.

Definition adduw (rd rs1 rs2 : Z) (a : MicroAssembler) : MicroAssembler :=
  if Supports a Extension.RV_Zcb
  then (if (rd =? rs1) && IsCRs1p rs1 && (rs2 =? Register.ZR)
    then c_zextw rd rs1 a
    else EmitRType Funct7.ADDUW rs2 rs1 Funct3.F3_0 rd Opcode.OP32 a)
  else EmitRType Funct7.ADDUW rs2 rs1 Funct3.F3_0 rd Opcode.OP32 a.

Definition sh1add (rd rs1 rs2 : Z) (a : MicroAssembler) : MicroAssembler :=
  EmitRType Funct7.SHADD rs2 rs1 Funct3.SH1ADD rd Opcode.OP a.

Definition sh1adduw (rd rs1 rs2 : Z) (a : MicroAssembler) : MicroAssembler :=
  EmitRType Funct7.SHADD rs2 rs1 Funct3.SH1ADD rd Opcode.OP32 a.

Definition sh2add (rd rs1 rs2 : Z) (a : MicroAssembler) : MicroAssembler :=
  EmitRType Funct7.SHADD rs2 rs1 Funct3.SH2ADD rd Opcode.OP a.

Definition sh2adduw (rd rs1 rs2 : Z) (a : MicroAssembler) : MicroAssembler :=
  EmitRType Funct7.SHADD rs2 rs1 Funct3.SH2ADD rd Opcode.OP32 a.

Definition sh3add (rd rs1 rs2 : Z) (a : MicroAssembler) : MicroAssembler :=
  EmitRType Funct7.SHADD rs2 rs1 Funct3.SH3ADD rd Opcode.OP a.

Definition sh3adduw (rd rs1 rs2 : Z) (a : MicroAssembler) : MicroAssembler :=
  EmitRType Funct7.SHADD rs2 rs1 Funct3.SH3ADD rd Opcode.OP32 a.

Definition slliuw (rd rs1 shamt : Z) (a : MicroAssembler) : MicroAssembler :=
  EmitRTypeShamt Funct7.SLLIUW shamt rs1 Funct3.SLLI rd Opcode.OPIMM32 a.

Definition andn (rd rs1 rs2 : Z) (a : MicroAssembler) : MicroAssembler :=
  EmitRType Funct7.SUB rs2 rs1 Funct3.AND rd Opcode.OP a.

Definition orn (rd rs1 rs2 : Z) (a : MicroAssembler) : MicroAssembler :=
  EmitRType Funct7.SUB rs2 rs1 Funct3.OR rd Opcode.OP a.

Definition xnor (rd rs1 rs2 : Z) (a : MicroAssembler) : MicroAssembler :=
  EmitRType Funct7.SUB rs2 rs1 Funct3.XOR rd Opcode.OP a.

Definition clz (rd rs1 : Z) (a : MicroAssembler) : MicroAssembler :=
  EmitRTypeShamt Funct7.COUNT 0x0 rs1 Funct3.F3_COUNT rd Opcode.OPIMM a.

Definition clzw (rd rs1 : Z) (a : MicroAssembler) : MicroAssembler :=
  EmitRTypeShamt Funct7.COUNT 0x0 rs1 Funct3.F3_COUNT rd Opcode.OPIMM32 a.

Definition ctz (rd rs1 : Z) (a : MicroAssembler) : MicroAssembler :=
  EmitRTypeShamt Funct7.COUNT 0x1 rs1 Funct3.F3_COUNT rd Opcode.OPIMM a.

Definition ctzw (rd rs1 : Z) (a : MicroAssembler) : MicroAssembler :=
  EmitRTypeShamt Funct7.COUNT 0x1 rs1 Funct3.F3_COUNT rd Opcode.OPIMM32 a.

Definition cpop (rd rs1 : Z) (a : MicroAssembler) : MicroAssembler :=
  EmitRTypeShamt Funct7.COUNT 0x2 rs1 Funct3.F3_COUNT rd Opcode.OPIMM a.

Definition cpopw (rd rs1 : Z) (a : MicroAssembler) : MicroAssembler :=
  EmitRTypeShamt Funct7.COUNT 0x2 rs1 Funct3.F3_COUNT rd Opcode.OPIMM32 a.

Definition max (rd rs1 rs2 : Z) (a : MicroAssembler) : MicroAssembler :=
  EmitRType Funct7.MINMAXCLMUL rs2 rs1 Funct3.MAX rd Opcode.OP a.

Definition maxu (rd rs1 rs2 : Z) (a : MicroAssembler) : MicroAssembler :=
  EmitRType Funct7.MINMAXCLMUL rs2 rs1 Funct3.MAXU rd Opcode.OP a.

Definition min (rd rs1 rs2 : Z) (a : MicroAssembler) : MicroAssembler :=
  EmitRType Funct7.MINMAXCLMUL rs2 rs1 Funct3.MIN rd Opcode.OP a.

Definition minu (rd rs1 rs2 : Z) (a : MicroAssembler) : MicroAssembler :=
  EmitRType Funct7.MINMAXCLMUL rs2 rs1 Funct3.MINU rd Opcode.OP a.

Definition sextb (rd rs1 : Z) (a : MicroAssembler) : MicroAssembler :=
  if Supports a Extension.RV_Zcb
  then (if (rd =? rs1) && IsCRs1p rs1
    then c_sextb rd rs1 a
    else EmitRTypeShamt 0x30 0x4 rs1 Funct3.SEXT rd Opcode.OPIMM a)
  else EmitRTypeShamt 0x30 0x4 rs1 Funct3.SEXT rd Opcode.OPIMM a.

Definition sexth (rd rs1 : Z) (a : MicroAssembler) : MicroAssembler :=
  if Supports a Extension.RV_Zcb
  then (if (rd =? rs1) && IsCRs1p rs1
    then c_sexth rd rs1 a
    else EmitRTypeShamt 0x30 0x5 rs1 Funct3.SEXT rd Opcode.OPIMM a)
  else EmitRTypeShamt 0x30 0x5 rs1 Funct3.SEXT rd Opcode.OPIMM a.

Definition zexth (rd rs1 : Z) (a : MicroAssembler) : MicroAssembler :=
  if Supports a Extension.RV_Zcb
  then (if (rd =? rs1) && IsCRs1p rs1
    then c_zexth rd rs1 a
    else EmitRTypeShamt 0x4 0x0 rs1 Funct3.ZEXT rd Opcode.OP32 a)
  else EmitRTypeShamt 0x4 0x0 rs1 Funct3.ZEXT rd Opcode.OP32 a.

Definition rol (rd rs1 rs2 : Z) (a : MicroAssembler) : MicroAssembler :=
  EmitRType Funct7.ROTATE rs2 rs1 Funct3.ROL rd Opcode.OP a.

Definition rolw (rd rs1 rs2 : Z) (a : MicroAssembler) : MicroAssembler :=
  EmitRType Funct7.ROTATE rs2 rs1 Funct3.ROL rd Opcode.OP32 a.

Definition ror (rd rs1 rs2 : Z) (a : MicroAssembler) : MicroAssembler :=
  EmitRType Funct7.ROTATE rs2 rs1 Funct3.ROR rd Opcode.OP a.

Definition rori (rd rs1 shamt : Z) (a : MicroAssembler) : MicroAssembler :=
  EmitRTypeShamt Funct7.ROTATE shamt rs1 Funct3.ROR rd Opcode.OPIMM a.

Definition roriw (rd rs1 shamt : Z) (a : MicroAssembler) : MicroAssembler :=
  EmitRTypeShamt Funct7.ROTATE shamt rs1 Funct3.ROR rd Opcode.OPIMM32 a.

Definition rorw (rd rs1 rs2 : Z) (a : MicroAssembler) : MicroAssembler :=
  EmitRType Funct7.ROTATE rs2 rs1 Funct3.ROR rd Opcode.OP32 a.

Definition orcb (rd rs1 : Z) (a : MicroAssembler) : MicroAssembler :=
  EmitRTypeShamt 0x14 0x7 rs1 0x5 rd Opcode.OPIMM a.

Definition rev8 (rd rs1 : Z) (a : MicroAssembler) : MicroAssembler :=
  EmitRTypeShamt 0x35 0x18 rs1 0x5 rd Opcode.OPIMM a.

Definition clmul (rd rs1 rs2 : Z) (a : MicroAssembler) : MicroAssembler :=
  EmitRType Funct7.MINMAXCLMUL rs2 rs1 Funct3.CLMUL rd Opcode.OP a.

Definition clmulh (rd rs1 rs2 : Z) (a : MicroAssembler) : MicroAssembler :=
  EmitRType Funct7.MINMAXCLMUL rs2 rs1 Funct3.CLMULH rd Opcode.OP a.

Definition clmulr (rd rs1 rs2 : Z) (a : MicroAssembler) : MicroAssembler :=
  EmitRType Funct7.MINMAXCLMUL rs2 rs1 Funct3.CLMULR rd Opcode.OP a.

Definition bclr (rd rs1 rs2 : Z) (a : MicroAssembler) : MicroAssembler :=
  EmitRType Funct7.BCLRBEXT rs2 rs1 Funct3.BCLR rd Opcode.OP a.

Definition bclri (rd rs1 shamt : Z) (a : MicroAssembler) : MicroAssembler :=
  EmitRTypeShamt Funct7.BCLRBEXT shamt rs1 Funct3.BCLR rd Opcode.OPIMM a.

Definition bext (rd rs1 rs2 : Z) (a : MicroAssembler) : MicroAssembler :=
  EmitRType Funct7.BCLRBEXT rs2 rs1 Funct3.BEXT rd Opcode.OP a.

Definition bexti (rd rs1 shamt : Z) (a : MicroAssembler) : MicroAssembler :=
  EmitRTypeShamt Funct7.BCLRBEXT shamt rs1 Funct3.BEXT rd Opcode.OPIMM a.

Definition binv (rd rs1 rs2 : Z) (a : MicroAssembler) : MicroAssembler :=
  EmitRType Funct7.BINV rs2 rs1 Funct3.F3_BINV rd Opcode.OP a.

Definition binvi (rd rs1 shamt : Z) (a : MicroAssembler) : MicroAssembler :=
  EmitRTypeShamt Funct7.BINV shamt rs1 Funct3.F3_BINV rd Opcode.OPIMM a.

Definition bset (rd rs1 rs2 : Z) (a : MicroAssembler) : MicroAssembler :=
  EmitRType Funct7.BSET rs2 rs1 Funct3.F3_BSET rd Opcode.OP a.

Definition bseti (rd rs1 shamt : Z) (a : MicroAssembler) : MicroAssembler :=
  EmitRTypeShamt Funct7.BSET shamt rs1 Funct3.F3_BSET rd Opcode.OPIMM a.

Definition czeroeqz (rd rs1 rs2 : Z) (a : MicroAssembler) : MicroAssembler :=
  EmitRType Funct7.CZERO rs2 rs1 Funct3.CZEROEQZ rd Opcode.OP a.

Definition czeronez (rd rs1 rs2 : Z) (a : MicroAssembler) : MicroAssembler :=
  EmitRType Funct7.CZERO rs2 rs1 Funct3.CZERONEZ rd Opcode.OP a.

Definition amoswapb (rd rs2 : Z) (addr : Address) (order : memory_order_t)
    (a : MicroAssembler) : MicroAssembler :=
  EmitRTypeOrder Funct5.AMOSWAP order rs2 (base addr) Funct3.WIDTH8 rd Opcode.AMO a.

Definition amoaddb (rd rs2 : Z) (addr : Address) (order : memory_order_t)
    (a : MicroAssembler) : MicroAssembler :=
  EmitRTypeOrder Funct5.AMOADD order rs2 (base addr) Funct3.WIDTH8 rd Opcode.AMO a.

Definition amoxorb (rd rs2 : Z) (addr : Address) (order : memory_order_t)
    (a : MicroAssembler) : MicroAssembler :=
  EmitRTypeOrder Funct5.AMOXOR order rs2 (base addr) Funct3.WIDTH8 rd Opcode.AMO a.

Definition amoandb (rd rs2 : Z) (addr : Address) (order : memory_order_t)
    (a : MicroAssembler) : MicroAssembler :=
  EmitRTypeOrder Funct5.AMOAND order rs2 (base addr) Funct3.WIDTH8 rd Opcode.AMO a.

Definition amoorb (rd rs2 : Z) (addr : Address) (order : memory_order_t)
    (a : MicroAssembler) : MicroAssembler :=
  EmitRTypeOrder Funct5.AMOOR order rs2 (base addr) Funct3.WIDTH8 rd Opcode.AMO a.

Definition amominb (rd rs2 : Z) (addr : Address) (order : memory_order_t)
    (a : MicroAssembler) : MicroAssembler :=
  EmitRTypeOrder Funct5.AMOMIN order rs2 (base addr) Funct3.WIDTH8 rd Opcode.AMO a.

Definition amomaxb (rd rs2 : Z) (addr : Address) (order : memory_order_t)
    (a : MicroAssembler) : MicroAssembler :=
  EmitRTypeOrder Funct5.AMOMAX order rs2 (base addr) Funct3.WIDTH8 rd Opcode.AMO a.

Definition amominub (rd rs2 : Z) (addr : Address) (order : memory_order_t)
    (a : MicroAssembler) : MicroAssembler :=
  EmitRTypeOrder Funct5.AMOMINU order rs2 (base addr) Funct3.WIDTH8 rd Opcode.AMO a.

Definition amomaxub (rd rs2 : Z) (addr : Address) (order : memory_order_t)
    (a : MicroAssembler) : MicroAssembler :=
  EmitRTypeOrder Funct5.AMOMAXU order rs2 (base addr) Funct3.WIDTH8 rd Opcode.AMO a.

Definition amoswaph (rd rs2 : Z) (addr : Address) (order : memory_order_t)
    (a : MicroAssembler) : MicroAssembler :=
  EmitRTypeOrder Funct5.AMOSWAP order rs2 (base addr) Funct3.WIDTH16 rd Opcode.AMO a.

Definition amoaddh (rd rs2 : Z) (addr : Address) (order : memory_order_t)
    (a : MicroAssembler) : MicroAssembler :=
  EmitRTypeOrder Funct5.AMOADD order rs2 (base addr) Funct3.WIDTH16 rd Opcode.AMO a.

Definition amoxorh (rd rs2 : Z) (addr : Address) (order : memory_order_t)
    (a : MicroAssembler) : MicroAssembler :=
  EmitRTypeOrder Funct5.AMOXOR order rs2 (base addr) Funct3.WIDTH16 rd Opcode.AMO a.

Definition amoandh (rd rs2 : Z) (addr : Address) (order : memory_order_t)
    (a : MicroAssembler) : MicroAssembler :=
  EmitRTypeOrder Funct5.AMOAND order rs2 (base addr) Funct3.WIDTH16 rd Opcode.AMO a.

Definition amoorh (rd rs2 : Z) (addr : Address) (order : memory_order_t)
    (a : MicroAssembler) : MicroAssembler :=
  EmitRTypeOrder Funct5.AMOOR order rs2 (base addr) Funct3.WIDTH16 rd Opcode.AMO a.

Definition amominh (rd rs2 : Z) (addr : Address) (order : memory_order_t)
    (a : MicroAssembler) : MicroAssembler :=
  EmitRTypeOrder Funct5.AMOMIN order rs2 (base addr) Funct3.WIDTH16 rd Opcode.AMO a.

Definition amomaxh (rd rs2 : Z) (addr : Address) (order : memory_order_t)
    (a : MicroAssembler) : MicroAssembler :=
  EmitRTypeOrder Funct5.AMOMAX order rs2 (base addr) Funct3.WIDTH16 rd Opcode.AMO a.

Definition amominuh (rd rs2 : Z) (addr : Address) (order : memory_order_t)
    (a : MicroAssembler) : MicroAssembler :=
  EmitRTypeOrder Funct5.AMOMINU order rs2 (base addr) Funct3.WIDTH16 rd Opcode.AMO a.

Definition amomaxuh (rd rs2 : Z) (addr : Address) (order : memory_order_t)
    (a : MicroAssembler) : MicroAssembler :=
  EmitRTypeOrder Funct5.AMOMAXU order rs2 (base addr) Funct3.WIDTH16 rd Opcode.AMO a.

Definition lb_order (rd : Z) (addr : Address) (order : memory_order_t)
    (a : MicroAssembler) : MicroAssembler :=
  EmitRTypeOrder Funct5.LOADORDERED order Register.ZR (base addr) Funct3.WIDTH8 rd Opcode.AMO a.

Definition lh_order (rd : Z) (addr : Address) (order : memory_order_t)
    (a : MicroAssembler) : MicroAssembler :=
  EmitRTypeOrder Funct5.LOADORDERED order Register.ZR (base addr) Funct3.WIDTH16 rd Opcode.AMO a.

Definition lw_order (rd : Z) (addr : Address) (order : memory_order_t)
    (a : MicroAssembler) : MicroAssembler :=
  EmitRTypeOrder Funct5.LOADORDERED order Register.ZR (base addr) Funct3.WIDTH32 rd Opcode.AMO a.

Definition sb_order (rs2 : Z) (addr : Address) (order : memory_order_t)
    (a : MicroAssembler) : MicroAssembler :=
  EmitRTypeOrder Funct5.STOREORDERED order rs2 (base addr) Funct3.WIDTH8 Register.ZR Opcode.AMO a.

Definition sh_order (rs2 : Z) (addr : Address) (order : memory_order_t)
    (a : MicroAssembler) : MicroAssembler :=
  EmitRTypeOrder Funct5.STOREORDERED order rs2 (base addr) Funct3.WIDTH16 Register.ZR Opcode.AMO a.

Definition sw_order (rs2 : Z) (addr : Address) (order : memory_order_t)
    (a : MicroAssembler) : MicroAssembler :=
  EmitRTypeOrder Funct5.STOREORDERED order rs2 (base addr) Funct3.WIDTH32 Register.ZR Opcode.AMO a.

Definition ld_order (rd : Z) (addr : Address) (order : memory_order_t)
    (a : MicroAssembler) : MicroAssembler :=
  EmitRTypeOrder Funct5.LOADORDERED order Register.ZR (base addr) Funct3.WIDTH64 rd Opcode.AMO a.

Definition sd_order (rs2 : Z) (addr : Address) (order : memory_order_t)
    (a : MicroAssembler) : MicroAssembler :=
  EmitRTypeOrder Funct5.STOREORDERED order rs2 (base addr) Funct3.WIDTH64 Register.ZR Opcode.AMO a.

End Asm.
