(* ===== verification/RiscvLabels.v ===== *)
(** * Labels and branches of the micro-assembler

    [class Label] of runtime/vm/compiler/assembler/assembler_base.h and the part
    of [MicroAssembler] (assembler_riscv.{h,cc}) that emits branches to labels
    and resolves them: [Bind] with its five [Update]s, [EmitBranch], [EmitJump],
    [EmitCBranch], [EmitCJump] and the branch instructions.

    A branch to a label that is not bound yet is emitted with the distance to
    the previous branch of its class to the same label, and [Bind] walks these
    lists.  The methods change the label and the assembler and may leave by
    [FATAL] or by a long jump; they return the pair of new states or the error.
    The loop that compiles a function again with longer branches after such a
    jump (runtime/vm/compiler/jit/compiler.cc) is modelled over the code
    generator it runs. *)

From S2P Require Import Prelude Utils RiscvConstants RiscvEncoding RiscvAssembler.

(** ** Errors *)

Inductive asm_error : Type :=
| Fatal                   (* [FATAL] *)
| BranchOffsetError       (* [BailoutWithBranchOffsetError] *)
| Unreachable             (* [UNREACHABLE] *)
| OutsideBuffer (position : Z)  (* an access outside the buffer: undefined *)
| ReleaseAssert           (* a failed [RELEASE_ASSERT] *)
| SignedOverflow          (* of C++ arithmetic: undefined *)
| LoopFuel.               (* the bound on a loop of the model was reached *)

Abbreviation asm_result := (result asm_error).

(** ** [class Label] *)

Record Label := mkLabel {
  position_ : Z;
  unresolved_cb_ : Z;
  unresolved_cj_ : Z;
  unresolved_b_ : Z;
  unresolved_j_ : Z;
  unresolved_far_ : Z
}.

Module Lbl.
Definition new : Label := mkLabel (-1) (-1) (-1) (-1) (-1) (-1).

Definition Position (l : Label) : Z := position_ l.
Definition IsBound (l : Label) : bool := negb (position_ l =? -1).
Definition IsLinked (l : Label) : bool :=
  negb (unresolved_cb_ l =? -1) || negb (unresolved_cj_ l =? -1)
  || negb (unresolved_b_ l =? -1) || negb (unresolved_j_ l =? -1)
  || negb (unresolved_far_ l =? -1).
Definition IsUnused (l : Label) : bool := negb (IsBound l) && negb (IsLinked l).

Definition BindTo (position : Z) (l : Label) : Label :=
  mkLabel (s32 position) (unresolved_cb_ l) (unresolved_cj_ l) (unresolved_b_ l)
    (unresolved_j_ l) (unresolved_far_ l).

(** Assignments to the heads of the lists. *)
Definition set_cb (v : Z) (l : Label) : Label :=
  mkLabel (position_ l) v (unresolved_cj_ l) (unresolved_b_ l) (unresolved_j_ l) (unresolved_far_ l).
Definition set_cj (v : Z) (l : Label) : Label :=
  mkLabel (position_ l) (unresolved_cb_ l) v (unresolved_b_ l) (unresolved_j_ l) (unresolved_far_ l).
Definition set_b (v : Z) (l : Label) : Label :=
  mkLabel (position_ l) (unresolved_cb_ l) (unresolved_cj_ l) v (unresolved_j_ l) (unresolved_far_ l).
Definition set_j (v : Z) (l : Label) : Label :=
  mkLabel (position_ l) (unresolved_cb_ l) (unresolved_cj_ l) (unresolved_b_ l) v (unresolved_far_ l).
Definition set_far (v : Z) (l : Label) : Label :=
  mkLabel (position_ l) (unresolved_cb_ l) (unresolved_cj_ l) (unresolved_b_ l) (unresolved_j_ l) v.

(** [link_##name]: the offset to emit, given the head of the list. *)
Definition link_offset (head position : Z) : Z :=
  if head =? -1 then 0 else position - head.

Definition link_cb (position : Z) (l : Label) : Z * Label :=
  (link_offset (unresolved_cb_ l) (s32 position), set_cb (s32 position) l).
Definition link_cj (position : Z) (l : Label) : Z * Label :=
  (link_offset (unresolved_cj_ l) (s32 position), set_cj (s32 position) l).
Definition link_b (position : Z) (l : Label) : Z * Label :=
  (link_offset (unresolved_b_ l) (s32 position), set_b (s32 position) l).
Definition link_j (position : Z) (l : Label) : Z * Label :=
  (link_offset (unresolved_j_ l) (s32 position), set_j (s32 position) l).
Definition link_far (position : Z) (l : Label) : Z * Label :=
  (link_offset (unresolved_far_ l) (s32 position), set_far (s32 position) l).
End Lbl.

(** [kFarJump = false], [kNearJump = true]. *)
Inductive JumpDistance : Type := kFarJump | kNearJump.

Definition is_near (d : JumpDistance) : bool :=
  match d with kNearJump => true | kFarJump => false end.

Module Branch.

(** ** Reading and patching the buffer *)

(** The [n] bytes at [position], which must lie in the buffer. *)
Definition buffer_bytes (n : nat) (position : Z) (a : MicroAssembler) : asm_result (list Z) :=
  if (0 <=? position) && (position + Z.of_nat n <=? Asm.Position a)
  then Ok (take n (drop (Z.to_nat position) (buffer_ a)))
  else Err (OutsideBuffer position).

Definition buffer_write (bs : list Z) (position : Z) (a : MicroAssembler)
    : asm_result MicroAssembler :=
  if (0 <=? position) && (position + Z.of_nat (length bs) <=? Asm.Position a)
  then Ok (set_buffer (list_inserts (Z.to_nat position) bs (buffer_ a)) a)
  else Err (OutsideBuffer position).

Definition Read16 (position : Z) (a : MicroAssembler) : asm_result Z :=
  bs ← buffer_bytes 2 position a; Ok (little_endian_to_Z 8 bs).
Definition Read32 (position : Z) (a : MicroAssembler) : asm_result Z :=
  bs ← buffer_bytes 4 position a; Ok (little_endian_to_Z 8 bs).
Definition Write16 (position instruction : Z) (a : MicroAssembler) : asm_result MicroAssembler :=
  buffer_write (Z_to_little_endian 2 8 (u16 instruction)) position a.
Definition Write32 (position instruction : Z) (a : MicroAssembler) : asm_result MicroAssembler :=
  buffer_write (Z_to_little_endian 4 8 (u32 instruction)) position a.

(** [CInstr::opcode]. *)
Definition c_opcode (instr : Z) : Z := instr .& COpcode.C_OP_MASK.

Definition UpdateCBOffset (branch_position new_offset : Z) (a : MicroAssembler)
    : asm_result (Z * MicroAssembler) :=
  instr ← Read16 branch_position a;
  let old_offset := DecodeCBImm instr in
  if negb (IsCBImm new_offset) then Err Fatal
  else
    a ← Write16 branch_position
          (c_opcode instr .| EncodeCRs1p (DecodeCRs1p instr) .| EncodeCBImm new_offset) a;
    Ok (old_offset, a).

Definition UpdateCJOffset (branch_position new_offset : Z) (a : MicroAssembler)
    : asm_result (Z * MicroAssembler) :=
  instr ← Read16 branch_position a;
  let old_offset := DecodeCJImm instr in
  if negb (IsCJImm new_offset) then Err Fatal
  else
    a ← Write16 branch_position (c_opcode instr .| EncodeCJImm new_offset) a;
    Ok (old_offset, a).

Definition UpdateBOffset (branch_position new_offset : Z) (a : MicroAssembler)
    : asm_result (Z * MicroAssembler) :=
  instr ← Read32 branch_position a;
  let old_offset := DecodeBTypeImm instr in
  if negb (IsBTypeImm new_offset) then Err BranchOffsetError
  else
    a ← Write32 branch_position
          (EncodeRs2 (DecodeRs2 instr) .| EncodeRs1 (DecodeRs1 instr)
           .| EncodeFunct3 (DecodeFunct3 instr) .| EncodeOpcode (DecodeOpcode instr)
           .| EncodeBTypeImm new_offset) a;
    Ok (old_offset, a).

Definition UpdateJOffset (branch_position new_offset : Z) (a : MicroAssembler)
    : asm_result (Z * MicroAssembler) :=
  instr ← Read32 branch_position a;
  let old_offset := DecodeJTypeImm instr in
  if negb (IsJTypeImm new_offset) then Err BranchOffsetError
  else
    a ← Write32 branch_position
          (EncodeRd (DecodeRd instr) .| EncodeOpcode (DecodeOpcode instr)
           .| EncodeJTypeImm new_offset) a;
    Ok (old_offset, a).

Definition UpdateFarOffset (branch_position new_offset : Z) (a : MicroAssembler)
    : asm_result (Z * MicroAssembler) :=
  auipc_instr ← Read32 branch_position a;
  jr_instr ← Read32 (branch_position + 4) a;
  let old_offset := DecodeUTypeImm auipc_instr + DecodeITypeImm jr_instr in
  let lo := ImmLo new_offset in
  let hi := ImmHi new_offset in
  if negb (IsUTypeImm hi) then Err Fatal
  else
    a ← Write32 branch_position
          (EncodeUTypeImm hi .| EncodeRd Register.FAR_TMP .| EncodeOpcode Opcode.AUIPC) a;
    a ← Write32 (branch_position + 4)
          (EncodeITypeImm lo .| EncodeRs1 Register.FAR_TMP .| EncodeFunct3 Funct3.F3_0
           .| EncodeRd Register.ZR .| EncodeOpcode Opcode.JALR) a;
    Ok (old_offset, a).

(** ** Binding a label *)

(** The loop of [BIND(head, update)], for at most [fuel] branches. *)
Fixpoint BIND (fuel : nat) (update : Z -> Z -> MicroAssembler -> asm_result (Z * MicroAssembler))
    (target_position branch_position : Z) (a : MicroAssembler) : asm_result MicroAssembler :=
  if branch_position <? 0 then Ok a
  else match fuel with
  | O => Err LoopFuel
  | S fuel =>
      let new_offset := target_position - branch_position in
      '(old_offset, a) ← update branch_position new_offset a;
      if old_offset =? 0 then Ok a
      else BIND fuel update target_position (branch_position - old_offset) a
  end.

(** More rounds than there are branches in the buffer. *)
Definition bind_fuel (a : MicroAssembler) : nat := S (length (buffer_ a)).

Definition Bind (label : Label) (a : MicroAssembler) : asm_result (Label * MicroAssembler) :=
  let target_position := Asm.Position a in
  let n := bind_fuel a in
  a ← BIND n UpdateCBOffset target_position (unresolved_cb_ label) a;
  let label := Lbl.set_cb (-1) label in
  a ← BIND n UpdateCJOffset target_position (unresolved_cj_ label) a;
  let label := Lbl.set_cj (-1) label in
  a ← BIND n UpdateBOffset target_position (unresolved_b_ label) a;
  let label := Lbl.set_b (-1) label in
  a ← BIND n UpdateJOffset target_position (unresolved_j_ label) a;
  let label := Lbl.set_j (-1) label in
  a ← BIND n UpdateFarOffset target_position (unresolved_far_ label) a;
  let label := Lbl.set_far (-1) label in
  Ok (Lbl.BindTo target_position label, a).

(** ** Emitting branches *)

Definition InvertFunct3 (func : Z) : asm_result Z :=
  if func =? Funct3.BEQ then Ok Funct3.BNE
  else if func =? Funct3.BNE then Ok Funct3.BEQ
  else if func =? Funct3.BGE then Ok Funct3.BLT
  else if func =? Funct3.BGEU then Ok Funct3.BLTU
  else if func =? Funct3.BLT then Ok Funct3.BGE
  else if func =? Funct3.BLTU then Ok Funct3.BGEU
  else Err Unreachable.

(** [auipc FAR_TMP, hi; jalr ZR, FAR_TMP, lo], with the check of [hi]. *)
Definition emit_far (offset : Z) (a : MicroAssembler) : asm_result MicroAssembler :=
  let lo := ImmLo offset in
  let hi := ImmHi offset in
  if negb (IsUTypeImm hi) then Err Fatal
  else Ok (Asm.EmitIType lo Register.FAR_TMP Funct3.F3_0 Register.ZR Opcode.JALR
             (Asm.EmitUType hi Register.FAR_TMP Opcode.AUIPC a)).

(** The branch around a long jump of [len] bytes: its inverse, compressed when
    one of the registers is [ZR]. *)
Definition emit_skip (rs1 rs2 func len : Z) (a : MicroAssembler) : asm_result MicroAssembler :=
  if Asm.Supports a Extension.RV_C && ((func =? Funct3.BEQ) || (func =? Funct3.BNE)) &&
     (((rs1 =? Register.ZR) && IsCRs1p rs2) || ((rs2 =? Register.ZR) && IsCRs1p rs1)) then
    let kFarBranchLength := 2 + len in
    Ok (Asm.Emit16 ((if func =? Funct3.BEQ then COpcode.C_BNEZ else COpcode.C_BEQZ)
          .| EncodeCRs1p (if rs1 =? Register.ZR then rs2 else rs1)
          .| EncodeCBImm kFarBranchLength) a)
  else
    let kFarBranchLength := 4 + len in
    f ← InvertFunct3 func;
    Ok (Asm.EmitBType kFarBranchLength rs2 rs1 f Opcode.BRANCH a).

Definition EmitBranch (rs1 rs2 : Z) (label : Label) (func : Z) (distance : JumpDistance)
    (a : MicroAssembler) : asm_result (Label * MicroAssembler) :=
  if Lbl.IsBound label then
    let offset := Lbl.Position label - Asm.Position a in
    if IsBTypeImm offset then Ok (label, Asm.EmitBType offset rs2 rs1 func Opcode.BRANCH a)
    else if IsJTypeImm (offset + 4) then
      f ← InvertFunct3 func;
      let a := Asm.EmitBType 8 rs2 rs1 f Opcode.BRANCH a in
      let offset := Lbl.Position label - Asm.Position a in
      Ok (label, Asm.EmitJType offset Register.ZR Opcode.JAL a)
    else
      f ← InvertFunct3 func;
      let a := Asm.EmitBType 12 rs2 rs1 f Opcode.BRANCH a in
      let offset := Lbl.Position label - Asm.Position a in
      a ← emit_far offset a;
      Ok (label, a)
  else if is_near distance then
    let '(offset, label) := Lbl.link_b (Asm.Position a) label in
    if negb (IsBTypeImm offset) then Err Fatal
    else Ok (label, Asm.EmitBType offset rs2 rs1 func Opcode.BRANCH a)
  else if far_branch_level_ a =? 0 then
    let '(offset, label) := Lbl.link_b (Asm.Position a) label in
    if negb (IsBTypeImm offset) then Err BranchOffsetError
    else Ok (label, Asm.EmitBType offset rs2 rs1 func Opcode.BRANCH a)
  else if far_branch_level_ a =? 1 then
    a ← emit_skip rs1 rs2 func 4 a;
    let '(offset, label) := Lbl.link_j (Asm.Position a) label in
    Ok (label, Asm.EmitJType offset Register.ZR Opcode.JAL a)
  else
    a ← emit_skip rs1 rs2 func 8 a;
    let '(offset, label) := Lbl.link_far (Asm.Position a) label in
    a ← emit_far offset a;
    Ok (label, a).

Definition EmitJump (rd : Z) (label : Label) (op : Z) (distance : JumpDistance)
    (a : MicroAssembler) : asm_result (Label * MicroAssembler) :=
  if Lbl.IsBound label then
    let offset := Lbl.Position label - Asm.Position a in
    if IsJTypeImm offset then Ok (label, Asm.EmitJType offset rd Opcode.JAL a)
    else a ← emit_far offset a; Ok (label, a)
  else if is_near distance then
    let '(offset, label) := Lbl.link_j (Asm.Position a) label in
    if negb (IsJTypeImm offset) then Err Fatal
    else Ok (label, Asm.EmitJType offset rd Opcode.JAL a)
  else if far_branch_level_ a <? 2 then
    let '(offset, label) := Lbl.link_j (Asm.Position a) label in
    if negb (IsJTypeImm offset) then Err BranchOffsetError
    else Ok (label, Asm.EmitJType offset rd Opcode.JAL a)
  else
    let '(offset, label) := Lbl.link_far (Asm.Position a) label in
    a ← emit_far offset a;
    Ok (label, a).

Definition EmitCBranch (rs1p : Z) (label : Label) (op : Z) (a : MicroAssembler)
    : asm_result (Label * MicroAssembler) :=
  let '(offset, label) :=
    if Lbl.IsBound label then (Lbl.Position label - Asm.Position a, label)
    else Lbl.link_cb (Asm.Position a) label in
  if negb (IsCBImm offset) then Err Fatal
  else Ok (label, Asm.Emit16 (op .| EncodeCRs1p rs1p .| EncodeCBImm offset) a).

Definition EmitCJump (label : Label) (op : Z) (a : MicroAssembler)
    : asm_result (Label * MicroAssembler) :=
  let '(offset, label) :=
    if Lbl.IsBound label then (Lbl.Position label - Asm.Position a, label)
    else Lbl.link_cj (Asm.Position a) label in
  if negb (IsCJImm offset) then Err Fatal
  else Ok (label, Asm.Emit16 (op .| EncodeCJImm offset) a).

Definition c_j (label : Label) (a : MicroAssembler) := EmitCJump label COpcode.C_J a.
Definition c_beqz (rs1p : Z) (label : Label) (a : MicroAssembler) :=
  EmitCBranch rs1p label COpcode.C_BEQZ a.
Definition c_bnez (rs1p : Z) (label : Label) (a : MicroAssembler) :=
  EmitCBranch rs1p label COpcode.C_BNEZ a.

Definition jal (rd : Z) (label : Label) (distance : JumpDistance) (a : MicroAssembler)
    : asm_result (Label * MicroAssembler) :=
  if Asm.Supports a Extension.RV_C &&
     (is_near distance ||
      Lbl.IsBound label && IsCJImm (Lbl.Position label - Asm.Position a)) &&
     (rd =? Register.ZR)
  then c_j label a
  else EmitJump rd label Opcode.JAL distance a.

(** The test of [beq] and [bne] for a compressed branch. *)
Definition compressible (label : Label) (distance : JumpDistance) (a : MicroAssembler) : bool :=
  Asm.Supports a Extension.RV_C &&
  (is_near distance || Lbl.IsBound label && IsCBImm (Lbl.Position label - Asm.Position a)).

Definition beq (rs1 rs2 : Z) (label : Label) (distance : JumpDistance) (a : MicroAssembler)
    : asm_result (Label * MicroAssembler) :=
  if compressible label distance a && ((rs1 =? Register.ZR) && IsCRs1p rs2) then
    c_beqz rs2 label a
  else if compressible label distance a && ((rs2 =? Register.ZR) && IsCRs1p rs1) then
    c_beqz rs1 label a
  else EmitBranch rs1 rs2 label Funct3.BEQ distance a.

Definition bne (rs1 rs2 : Z) (label : Label) (distance : JumpDistance) (a : MicroAssembler)
    : asm_result (Label * MicroAssembler) :=
  if compressible label distance a && ((rs1 =? Register.ZR) && IsCRs1p rs2) then
    c_bnez rs2 label a
  else if compressible label distance a && ((rs2 =? Register.ZR) && IsCRs1p rs1) then
    c_bnez rs1 label a
  else EmitBranch rs1 rs2 label Funct3.BNE distance a.

Definition blt (rs1 rs2 : Z) (label : Label) (distance : JumpDistance) (a : MicroAssembler) :=
  EmitBranch rs1 rs2 label Funct3.BLT distance a.
Definition bge (rs1 rs2 : Z) (label : Label) (distance : JumpDistance) (a : MicroAssembler) :=
  EmitBranch rs1 rs2 label Funct3.BGE distance a.
Definition bltu (rs1 rs2 : Z) (label : Label) (distance : JumpDistance) (a : MicroAssembler) :=
  EmitBranch rs1 rs2 label Funct3.BLTU distance a.
Definition bgeu (rs1 rs2 : Z) (label : Label) (distance : JumpDistance) (a : MicroAssembler) :=
  EmitBranch rs1 rs2 label Funct3.BGEU distance a.

End Branch.

(** ** Compiling again with longer branches

    [generate] is the code generator under a level of far branches; a long jump
    with the branch offset error restarts it. *)
Section Retry.
Context {A : Type} (generate : Z -> asm_result A).

Fixpoint Compile_loop (rounds : nat) (far_branch_level : Z) : asm_result A :=
  match generate far_branch_level with
  | Ok code => Ok code
  | Err BranchOffsetError =>
      if far_branch_level <? 2 then
        match rounds with
        | O => Err LoopFuel
        | S rounds => Compile_loop rounds (far_branch_level + 1)
        end
      else Err ReleaseAssert
  | Err e => Err e
  end.

(** The level grows to two at most. *)
Definition Compile : asm_result A := Compile_loop 2 0.
End Retry.
