(* ===== verification/SimMemory.v ===== *)
(** * Simulator memory: runtime/vm/simulator_memory.h

    The simulator reads and writes the memory of its own process, directly
    ([DirectSimulatorMemory]) or through a small write buffer that delays
    stores ([BufferedSimulatorMemory]).  The host memory is a finite map from
    addresses to bytes; an access to an address outside it is a fault of the
    host process.  The theorems show that the buffer is invisible to the
    simulated program: both memories implement one abstract memory. *)

From S2P Require Import Prelude Utils.

(** What stops the simulator. *)
Inductive sim_error : Type :=
| HostFault (addr : Z)             (* access to memory that is not mapped *)
| IllegalInstruction (encoding : Z)
| Ebreak
| MisalignedAtomic (addr : Z)
| UnknownCSR (csr : Z)
| Unimplemented
| StackMisaligned
| HostCall (pc : Z)                (* an [ecall] into the runtime *)
| UndefinedShift (amount : Z)      (* C++ shift by at least the width *)
| SignedOverflow (value : Z)       (* C++ signed arithmetic out of range *)
| FloatingPoint (encoding : Z)     (* an instruction of the F/D extensions *)
| OutOfFuel.

Abbreviation sim_result := (result sim_error).
Abbreviation host := (gmap Z Z).

(** ** Bytes of the host *)

Fixpoint read_bytes (h : host) (addr : Z) (n : nat) : sim_result (list Z) :=
  match n with
  | O => Ok []
  | S n =>
      match h !! addr with
      | None => Err (HostFault addr)
      | Some b => bs ← read_bytes h (addr + 1) n; Ok (b :: bs)
      end
  end.

Fixpoint write_bytes (h : host) (addr : Z) (bs : list Z) : sim_result host :=
  match bs with
  | [] => Ok h
  | b :: bs =>
      match h !! addr with
      | None => Err (HostFault addr)
      | Some _ => write_bytes (<[addr := b]> h) (addr + 1) bs
      end
  end.

(** Memory with the given bytes at the given addresses. *)
Definition image (segments : list (Z * list Z)) : host :=
  list_to_map (concat ((fun '(addr, bs) =>
    zip (seqZ addr (Z.of_nat (length bs))) bs) <$> segments)).

(** [LoadUnaligned] and [StoreUnaligned] on a little-endian host. *)
Definition host_load (T : ctype) (addr : Z) (h : host) : sim_result Z :=
  bs ← read_bytes h addr (Z.to_nat (ct_sizeof T));
  Ok (ct_cast T (little_endian_to_Z 8 bs)).

Definition host_store (T : ctype) (addr value : Z) (h : host) : sim_result host :=
  write_bytes h addr (Z_to_little_endian (ct_sizeof T) 8 value).

(** [std::atomic<T>::compare_exchange_weak] at [addr]: whether it stored, the
    value left in [old_value], and the memory.  The weak form may fail although
    the values agree; [spurious] says whether the host does so. *)
Definition host_compare_exchange_weak (spurious : bool) (T : ctype)
    (addr old_value value : Z) (h : host) : sim_result (bool * Z * host) :=
  v ← host_load T addr h;
  if (v =? old_value) && negb spurious
  then h ← host_store T addr value h; Ok (true, old_value, h)
  else Ok (false, v, h).

(** ** [DirectSimulatorMemory] *)

Module Direct.

Definition Load (T : ctype) (addr : Z) (m : host) : sim_result (Z * host) :=
  v ← host_load T addr m; Ok (v, m).
Definition Store (T : ctype) (addr value : Z) (m : host) : sim_result host :=
  host_store T addr value m.

(** The overloads that take a [std::memory_order]. *)
Definition LoadOrdered (T : ctype) (addr : Z) (m : host) : sim_result (Z * host) :=
  v ← host_load T addr m; Ok (v, m).
Definition StoreOrdered (T : ctype) (addr value : Z) (m : host) : sim_result host :=
  host_store T addr value m.
Definition CompareExchange (spurious : bool) (T : ctype) (addr old_value value : Z)
    (m : host) : sim_result (bool * Z * host) :=
  host_compare_exchange_weak spurious T addr old_value value m.

Definition FlushAddress (addr : Z) (m : host) : sim_result host := Ok m.
Definition FlushAll (m : host) : sim_result host := Ok m.

End Direct.

(** ** [BufferedSimulatorMemory] *)

(** An entry is a word address and the word's value; [size_] is the length. *)
Record buffered := mkBuffered { backing : host; buffer : list (Z * Z) }.

Module Buffered.

Definition kCapacity : Z := 16.
Definition size_ (m : buffered) : Z := Z.of_nat (length (buffer m)).

(** The reads and writes of a [T] inside the word of an entry. *)
Definition sub_load (T : ctype) (word word_offset : Z) : Z :=
  ct_cast T (word ≫ (8 * word_offset)).
Definition sub_store (T : ctype) (word word_offset value : Z) : Z :=
  (word .& Z.lnot (Z.ones (ct_bits T) ≪ (8 * word_offset)))
  .| (uwrap (ct_bits T) value ≪ (8 * word_offset)).

(** [for (i = size_ - 1; i >= 0; i--) if (buffer_[i].addr == word_addr)]. *)
Fixpoint find_from (b : list (Z * Z)) (i : nat) (word_addr : Z)
    : option (nat * Z) :=
  match i with
  | O => None
  | S i =>
      match b !! i with
      | Some (a, v) => if a =? word_addr then Some (i, v) else find_from b i word_addr
      | None => find_from b i word_addr
      end
  end.
Definition find (m : buffered) (word_addr : Z) : option (nat * Z) :=
  find_from (buffer m) (length (buffer m)) word_addr.

(** [*reinterpret_cast<uword*>(entry.addr) = entry.value]. *)
Definition write_entry (e : Z * Z) (h : host) : sim_result host :=
  host_store uword (fst e) (snd e) h.

Fixpoint flush_entries (b : list (Z * Z)) (h : host) : sim_result host :=
  match b with
  | [] => Ok h
  | e :: b => h ← write_entry e h; flush_entries b h
  end.

Definition FlushAll (m : buffered) : sim_result buffered :=
  h ← flush_entries (buffer m) (backing m); Ok (mkBuffered h []).

(** [buffer_[i] = buffer_[size_ - 1]; size_--]. *)
Definition remove_entry (i : nat) (b : list (Z * Z)) : list (Z * Z) :=
  match last b with
  | Some e => take (length b - 1) (<[i := e]> b)
  | None => b
  end.

Definition flush_entry (i : nat) (m : buffered) : sim_result buffered :=
  match buffer m !! i with
  | Some e => h ← write_entry e (backing m); Ok (mkBuffered h (remove_entry i (buffer m)))
  | None => Ok m
  end.

(** The loop of [FlushAddress] from index [i]; [n] bounds the entries left. *)
Fixpoint FlushAddress_from (n i : nat) (addr : Z) (m : buffered)
    : sim_result buffered :=
  match n with
  | O => Ok m
  | S n =>
      match buffer m !! i with
      | None => Ok m
      | Some (a, _) =>
          m ← (if a =? addr then flush_entry i m else Ok m);
          FlushAddress_from n (S i) addr m
      end
  end.
Definition FlushAddress (addr : Z) (m : buffered) : sim_result buffered :=
  FlushAddress_from (length (buffer m)) 0 addr m.

(** The pseudo-random victim of [FlushSome]: an [intptr_t] computed from the
    value of the first entry; [%] is C++'s remainder. *)
Definition victim (m : buffered) : Z :=
  match buffer m with
  | (_, v) :: _ =>
      let i := s64 v in
      let i := i .^ (i ≫ 4) in
      let i := i .^ (i ≫ 8) in
      Z.rem i (size_ m)
  | [] => 0
  end.

(** [while (size_ > kCapacity / 2)]; every round removes an entry, so the
    number of entries is enough fuel. *)
Fixpoint FlushSome_loop (n : nat) (m : buffered) : sim_result buffered :=
  match n with
  | O => Ok m
  | S n =>
      if kCapacity / 2 <? size_ m
      then m ← flush_entry (Z.to_nat (victim m)) m; FlushSome_loop n m
      else Ok m
  end.
Definition FlushSome (m : buffered) : sim_result buffered :=
  FlushSome_loop (length (buffer m)) m.

(** Whether an access is a single naturally aligned one within a word. *)
Definition slow_path (T : ctype) (addr : Z) : bool :=
  (8 <? ct_sizeof T) || negb (addr .& (ct_sizeof T - 1) =? 0).

Definition Load (T : ctype) (addr : Z) (m : buffered) : sim_result (Z * buffered) :=
  if slow_path T addr then
    m ← FlushAll m;
    v ← host_load T addr (backing m);
    Ok (v, m)
  else
    let word_addr := addr .& Z.lnot (8 - 1) in
    let word_offset := addr - word_addr in
    match find m word_addr with
    | Some (_, word) => Ok (sub_load T word word_offset, m)
    | None => v ← host_load T addr (backing m); Ok (v, m)
    end.

Definition Store (T : ctype) (addr value : Z) (m : buffered) : sim_result buffered :=
  if slow_path T addr then
    m ← FlushAll m;
    h ← host_store T addr value (backing m);
    Ok (mkBuffered h (buffer m))
  else
    let word_addr := addr .& Z.lnot (8 - 1) in
    let word_offset := addr - word_addr in
    match find m word_addr with
    | Some (i, word) =>
        Ok (mkBuffered (backing m)
              (<[i := (word_addr, sub_store T word word_offset value)]> (buffer m)))
    | None =>
        word ← host_load uword word_addr (backing m);
        let m := mkBuffered (backing m)
          (buffer m ++ [(word_addr, sub_store T word word_offset value)]) in
        if size_ m =? kCapacity then FlushSome m else Ok m
    end.

(** The overloads that take a [std::memory_order]. *)
Definition LoadOrdered (T : ctype) (addr : Z) (m : buffered)
    : sim_result (Z * buffered) :=
  m ← FlushAddress addr m;
  v ← host_load T addr (backing m);
  Ok (v, m).

Definition StoreOrdered (T : ctype) (addr value : Z) (m : buffered)
    : sim_result buffered :=
  m ← FlushAddress addr m;
  h ← host_store T addr value (backing m);
  Ok (mkBuffered h (buffer m)).

Definition CompareExchange (spurious : bool) (T : ctype) (addr old_value value : Z)
    (m : buffered) : sim_result (bool * Z * buffered) :=
  m ← FlushAddress addr m;
  '(ok, v, h) ← host_compare_exchange_weak spurious T addr old_value value (backing m);
  Ok (ok, v, mkBuffered h (buffer m)).

End Buffered.

(** ** [SimulatorMemory]

    [direct_] has no state of its own; both memories access the same process. *)

Record SimulatorMemory := mkSimulatorMemory {
  use_buffered_ : bool;
  buffered_ : buffered
}.

Module Sim.

(** Runs an operation of [direct_] on the process memory. *)
Definition set_buffered (m : SimulatorMemory) (b : buffered) : SimulatorMemory :=
  mkSimulatorMemory (use_buffered_ m) b.
Definition set_direct (m : SimulatorMemory) (h : host) : SimulatorMemory :=
  set_buffered m (mkBuffered h (buffer (buffered_ m))).

Definition Load (T : ctype) (addr : Z) (m : SimulatorMemory)
    : sim_result (Z * SimulatorMemory) :=
  if use_buffered_ m
  then '(v, b) ← Buffered.Load T addr (buffered_ m); Ok (v, set_buffered m b)
  else '(v, h) ← Direct.Load T addr (backing (buffered_ m)); Ok (v, set_direct m h).

Definition Store (T : ctype) (addr value : Z) (m : SimulatorMemory)
    : sim_result SimulatorMemory :=
  if use_buffered_ m
  then b ← Buffered.Store T addr value (buffered_ m); Ok (set_buffered m b)
  else h ← Direct.Store T addr value (backing (buffered_ m)); Ok (set_direct m h).

Definition LoadOrdered (T : ctype) (addr : Z) (m : SimulatorMemory)
    : sim_result (Z * SimulatorMemory) :=
  if use_buffered_ m
  then '(v, b) ← Buffered.LoadOrdered T addr (buffered_ m); Ok (v, set_buffered m b)
  else '(v, h) ← Direct.LoadOrdered T addr (backing (buffered_ m));
       Ok (v, set_direct m h).

Definition StoreOrdered (T : ctype) (addr value : Z) (m : SimulatorMemory)
    : sim_result SimulatorMemory :=
  if use_buffered_ m
  then b ← Buffered.StoreOrdered T addr value (buffered_ m); Ok (set_buffered m b)
  else h ← Direct.StoreOrdered T addr value (backing (buffered_ m));
       Ok (set_direct m h).

Definition CompareExchange (spurious : bool) (T : ctype) (addr old_value value : Z)
    (m : SimulatorMemory) : sim_result (bool * Z * SimulatorMemory) :=
  if use_buffered_ m
  then '(ok, v, b) ← Buffered.CompareExchange spurious T addr old_value value
                       (buffered_ m);
       Ok (ok, v, set_buffered m b)
  else '(ok, v, h) ← Direct.CompareExchange spurious T addr old_value value
                       (backing (buffered_ m));
       Ok (ok, v, set_direct m h).

Definition FlushAddress (addr : Z) (m : SimulatorMemory) : sim_result SimulatorMemory :=
  if use_buffered_ m
  then b ← Buffered.FlushAddress addr (buffered_ m); Ok (set_buffered m b)
  else h ← Direct.FlushAddress addr (backing (buffered_ m)); Ok (set_direct m h).

Definition FlushAll (m : SimulatorMemory) : sim_result SimulatorMemory :=
  if use_buffered_ m
  then b ← Buffered.FlushAll (buffered_ m); Ok (set_buffered m b)
  else h ← Direct.FlushAll (backing (buffered_ m)); Ok (set_direct m h).

End Sim.

(** ** The interface of a simulator memory

    The operations the simulator uses, with the memory of the process itself
    ([process], [set_process]): instruction fetch and the atomic operations go
    to the process without passing through the memory. *)

Class MemoryOps (M : Type) := {
  mem_load : ctype -> Z -> M -> sim_result (Z * M);
  mem_store : ctype -> Z -> Z -> M -> sim_result M;
  mem_load_ordered : ctype -> Z -> M -> sim_result (Z * M);
  mem_store_ordered : ctype -> Z -> Z -> M -> sim_result M;
  mem_compare_exchange : bool -> ctype -> Z -> Z -> Z -> M -> sim_result (bool * Z * M);
  mem_flush_address : Z -> M -> sim_result M;
  mem_flush_all : M -> sim_result M;
  process : M -> host;
  set_process : host -> M -> M
}.

#[export] Instance direct_ops : MemoryOps host := {|
  mem_load := Direct.Load;
  mem_store := Direct.Store;
  mem_load_ordered := Direct.LoadOrdered;
  mem_store_ordered := Direct.StoreOrdered;
  mem_compare_exchange := Direct.CompareExchange;
  mem_flush_address := Direct.FlushAddress;
  mem_flush_all := Direct.FlushAll;
  process := fun m => m;
  set_process := fun h _ => h
|}.

#[export] Instance buffered_ops : MemoryOps buffered := {|
  mem_load := Buffered.Load;
  mem_store := Buffered.Store;
  mem_load_ordered := Buffered.LoadOrdered;
  mem_store_ordered := Buffered.StoreOrdered;
  mem_compare_exchange := Buffered.CompareExchange;
  mem_flush_address := Buffered.FlushAddress;
  mem_flush_all := Buffered.FlushAll;
  process := backing;
  set_process := fun h m => mkBuffered h (buffer m)
|}.

#[export] Instance simulator_memory_ops : MemoryOps SimulatorMemory := {|
  mem_load := Sim.Load;
  mem_store := Sim.Store;
  mem_load_ordered := Sim.LoadOrdered;
  mem_store_ordered := Sim.StoreOrdered;
  mem_compare_exchange := Sim.CompareExchange;
  mem_flush_address := Sim.FlushAddress;
  mem_flush_all := Sim.FlushAll;
  process := fun m => backing (buffered_ m);
  set_process := fun h m => Sim.set_direct m h
|}.

(** ** Reading and writing bytes *)

(** The byte of [w] at byte offset [j]. *)
Definition byte (w j : Z) : Z := field w (8 * j) 8.

(** The [n] addresses from [addr] are mapped. *)
Definition mapped (h : host) (addr n : Z) : Prop :=
  forall i, 0 <= i < n -> is_Some (h !! (addr + i)).

(** The widths of the accesses the simulator makes. *)
Definition ct_ok (T : ctype) : Prop :=
  ct_bits T = 8 \/ ct_bits T = 16 \/ ct_bits T = 32 \/ ct_bits T = 64.

Lemma ct_ok_sizeof T : ct_ok T -> ct_bits T = 8 * ct_sizeof T /\ 1 <= ct_sizeof T <= 8.
Proof. unfold ct_ok, ct_sizeof. intros [E|[E|[E|E]]]; rewrite E; by vm_compute; repeat split. Qed.

Lemma read_bytes_ext h1 h2 n : forall addr,
  (forall i, 0 <= i < Z.of_nat n -> h1 !! (addr + i) = h2 !! (addr + i)) ->
  read_bytes h1 addr n = read_bytes h2 addr n.
Proof.
  induction n as [|n IH]; intros addr H; [done|]. cbn [read_bytes].
  pose proof (H 0 ltac:(lia)) as H0. rewrite Z.add_0_r in H0. rewrite H0.
  rewrite (IH (addr + 1)); [done|]. intros i Hi.
  replace (addr + 1 + i) with (addr + (i + 1)) by lia. apply H. lia.
Qed.

Lemma read_bytes_lookup h bs : forall addr,
  (forall i : nat, (i < length bs)%nat -> h !! (addr + Z.of_nat i) = bs !! i) ->
  read_bytes h addr (length bs) = Ok bs.
Proof.
  induction bs as [|b bs IH]; intros addr H; [done|]. cbn [read_bytes length].
  pose proof (H 0%nat ltac:(cbn; lia)) as H0. rewrite Z.add_0_r in H0.
  rewrite H0. cbn. rewrite IH; [done|]. intros i Hi.
  replace (addr + 1 + Z.of_nat i) with (addr + Z.of_nat (S i)) by lia.
  apply (H (S i)). cbn. lia.
Qed.

Lemma read_bytes_fault h n : forall addr i,
  0 <= i < Z.of_nat n -> h !! (addr + i) = None ->
  exists a, read_bytes h addr n = Err (HostFault a).
Proof.
  induction n as [|n IH]; intros addr i Hi Hn; [lia|]. cbn [read_bytes].
  destruct (h !! addr) eqn:E; [|eauto].
  assert (i <> 0) by (intros ->; rewrite Z.add_0_r in Hn; congruence).
  destruct (IH (addr + 1) (i - 1)) as [a ->]; [lia| |cbn; eauto].
  by replace (addr + 1 + (i - 1)) with (addr + i) by lia.
Qed.

Lemma write_bytes_lookup bs : forall h addr,
  mapped h addr (Z.of_nat (length bs)) ->
  exists h', write_bytes h addr bs = Ok h' /\
    forall a, h' !! a = if decide (addr <= a < addr + Z.of_nat (length bs))
                        then bs !! Z.to_nat (a - addr) else h !! a.
Proof.
  induction bs as [|b bs IH]; intros h addr Hm.
  - exists h. split; [done|]. intros a. case_decide; [cbn in *; lia|done].
  - cbn [write_bytes length] in *.
    destruct (Hm 0 ltac:(lia)) as [c Hc]. rewrite Z.add_0_r in Hc. rewrite Hc.
    destruct (IH (<[addr := b]> h) (addr + 1)) as (h' & -> & Hl).
    { intros i Hi. replace (addr + 1 + i) with (addr + (i + 1)) by lia.
      rewrite lookup_insert_ne by lia. apply Hm. lia. }
    exists h'. split; [done|]. intros a. rewrite Hl.
    repeat case_decide; try lia.
    + by replace (Z.to_nat (a - addr)) with (S (Z.to_nat (a - (addr + 1)))) by lia.
    + assert (a = addr) as -> by lia.
      by rewrite lookup_insert, decide_True, Z.sub_diag.
    + by rewrite lookup_insert_ne by lia.
Qed.

Lemma write_bytes_fault bs : forall h addr i,
  0 <= i < Z.of_nat (length bs) -> h !! (addr + i) = None ->
  exists a, write_bytes h addr bs = Err (HostFault a).
Proof.
  induction bs as [|b bs IH]; intros h addr i Hi Hn; cbn [length] in *; [lia|].
  cbn [write_bytes]. destruct (h !! addr) eqn:E; [|eauto].
  assert (i <> 0) by (intros ->; rewrite Z.add_0_r in Hn; congruence).
  apply (IH _ (addr + 1) (i - 1)); [lia|].
  replace (addr + 1 + (i - 1)) with (addr + i) by lia.
  by rewrite lookup_insert_ne by lia.
Qed.

Lemma mapped_dec h addr n : {mapped h addr n} + {exists i, 0 <= i < n /\ h !! (addr + i) = None}.
Proof.
  destruct (decide (Forall (fun i => is_Some (h !! (addr + i))) (seqZ 0 n))) as [H|H].
  - left. intros i Hi. rewrite Forall_forall in H. apply H, elem_of_seqZ. lia.
  - right. apply not_Forall_Exists in H; [|apply _].
    apply Exists_exists in H as (i & Hi & Hn). apply elem_of_seqZ in Hi.
    exists i. split; [lia|]. by apply eq_None_not_Some.
Qed.

(** ** Loads and stores, byte by byte *)

Lemma host_load_ext T addr h1 h2 :
  (forall i, 0 <= i < ct_sizeof T -> h1 !! (addr + i) = h2 !! (addr + i)) ->
  host_load T addr h1 = host_load T addr h2.
Proof.
  intros H. unfold host_load. rewrite (read_bytes_ext h1 h2); [done|].
  intros i Hi. apply H. lia.
Qed.

Lemma host_store_lookup T addr v h :
  0 <= ct_sizeof T -> mapped h addr (ct_sizeof T) ->
  exists h', host_store T addr v h = Ok h' /\
    forall a, h' !! a = if decide (addr <= a < addr + ct_sizeof T)
                        then Some (byte v (a - addr)) else h !! a.
Proof.
  intros Hs Hm. unfold host_store.
  assert (El : Z.of_nat (length (Z_to_little_endian (ct_sizeof T) 8 v)) = ct_sizeof T)
    by (rewrite length_Z_to_little_endian; lia).
  destruct (write_bytes_lookup (Z_to_little_endian (ct_sizeof T) 8 v) h addr)
    as (h' & -> & Hl); [by rewrite El|].
  exists h'. split; [done|]. intros a. rewrite Hl, El. case_decide; [|done].
  apply Z_to_little_endian_lookup_Some; [lia..|]. split; [lia|].
  unfold byte, field. do 2 f_equal. lia.
Qed.

Lemma host_store_fault T addr v h i :
  0 <= i < ct_sizeof T -> h !! (addr + i) = None ->
  exists a, host_store T addr v h = Err (HostFault a).
Proof.
  intros Hi. apply write_bytes_fault. rewrite length_Z_to_little_endian; lia.
Qed.

Lemma byte_range w j : is_u 8 (byte w j).
Proof. by apply field_range. Qed.

Lemma byte_shiftr w j k : 0 <= j -> 0 <= k -> byte (w ≫ (8 * k)) j = byte w (k + j).
Proof.
  intros. unfold byte, field. rewrite Z.shiftr_shiftr by lia. do 2 f_equal. lia.
Qed.

Lemma little_endian_bytes n : forall w,
  0 <= n -> little_endian_to_Z 8 (Z_to_little_endian n 8 w) = w mod 2 ^ (8 * n).
Proof.
  intros w Hn. rewrite little_endian_to_Z_to_little_endian by lia.
  f_equal. f_equal. lia.
Qed.

(** A load of bytes that are consecutive bytes of [w]. *)
Lemma host_load_bytes T addr h w off :
  ct_ok T -> 0 <= off ->
  (forall i, 0 <= i < ct_sizeof T -> h !! (addr + i) = Some (byte w (off + i))) ->
  host_load T addr h = Ok (ct_cast T (w ≫ (8 * off))).
Proof.
  intros HT Ho H. pose proof (ct_ok_sizeof T HT) as [Hb Hs]. unfold host_load.
  set (bs := Z_to_little_endian (ct_sizeof T) 8 (w ≫ (8 * off))).
  assert (El : length bs = Z.to_nat (ct_sizeof T))
    by (pose proof (length_Z_to_little_endian (ct_sizeof T) 8 (w ≫ (8 * off)));
        unfold bs; lia).
  rewrite <- El, read_bytes_lookup.
  - cbn. unfold bs. rewrite little_endian_bytes, <- Hb by lia.
    change (?z mod 2 ^ ct_bits T) with (uwrap (ct_bits T) z).
    unfold ct_cast. destruct (ct_signed T);
      [by rewrite swrap_uwrap|by rewrite uwrap_uwrap].
  - intros i Hi. rewrite H by lia. symmetry.
    apply Z_to_little_endian_lookup_Some; [lia..|]. split; [lia|].
    rewrite <- byte_shiftr by lia. unfold byte, field. do 2 f_equal. lia.
Qed.

Lemma host_load_fault T addr h i :
  0 <= i < ct_sizeof T -> h !! (addr + i) = None ->
  exists a, host_load T addr h = Err (HostFault a).
Proof.
  intros Hi Hn. unfold host_load.
  destruct (read_bytes_fault h (Z.to_nat (ct_sizeof T)) addr i) as [a ->]; [lia|done|].
  cbn. eauto.
Qed.

(** Storing a value and loading it back converts it to the type. *)
Lemma host_load_store T addr v h h' :
  ct_ok T -> host_store T addr v h = Ok h' -> host_load T addr h' = Ok (ct_cast T v).
Proof.
  intros HT Hst. pose proof (ct_ok_sizeof T HT) as [_ Hs].
  destruct (mapped_dec h addr (ct_sizeof T)) as [Hm|(i & Hi & Hn)].
  - destruct (host_store_lookup T addr v h) as (h2 & E & Hl); [lia|done|].
    assert (h2 = h') as -> by congruence.
    rewrite (host_load_bytes T addr h' v 0); [|done|lia|].
    + by rewrite Z.shiftr_0_r.
    + intros i Hi. rewrite Hl, decide_True by lia. do 2 f_equal. lia.
  - destruct (host_store_fault T addr v h i) as [a E]; [done..|congruence].
Qed.

(** ** Related results

    Two runs agree when they both succeed with related values, or both stop
    with the same error; two faults may name different addresses, since the
    buffered memory touches the whole word of an access. *)

Definition err_rel (e1 e2 : sim_error) : Prop :=
  e1 = e2 \/ exists a1 a2, e1 = HostFault a1 /\ e2 = HostFault a2.

Definition res_rel {A B} (R : A -> B -> Prop)
    (x : sim_result A) (y : sim_result B) : Prop :=
  match x, y with
  | Ok a, Ok b => R a b
  | Err e1, Err e2 => err_rel e1 e2
  | _, _ => False
  end.

Lemma res_rel_bind {A B C D} (R : A -> B -> Prop) (S : C -> D -> Prop) x y f g :
  res_rel R x y -> (forall a b, R a b -> res_rel S (f a) (g b)) ->
  res_rel S (x ≫= f) (y ≫= g).
Proof. destruct x, y; cbn; auto; done. Qed.

Lemma res_rel_mono {A B} (R S : A -> B -> Prop) x y :
  res_rel R x y -> (forall a b, R a b -> S a b) -> res_rel S x y.
Proof. destruct x, y; cbn; auto. Qed.

Lemma err_rel_fault a1 a2 : err_rel (HostFault a1) (HostFault a2).
Proof. right. eauto. Qed.

Lemma err_rel_refl e : err_rel e e.
Proof. by left. Qed.

Lemma res_rel_refl {A} (R : A -> A -> Prop) x :
  (forall a, R a a) -> res_rel R x x.
Proof. destruct x; cbn; auto using err_rel_refl. Qed.

#[export] Hint Resolve err_rel_fault err_rel_refl : vm.

(** ** The contract of a simulator memory *)

(** What a memory promises the simulator: [mem_abs m h] says that a program
    that uses [m] sees the bytes of [h]. *)
Class MemoryLaws (M : Type) `{MemoryOps M} := {
  mem_abs : M -> host -> Prop;
  mem_load_law : forall T addr m h, ct_ok T -> mem_abs m h ->
    res_rel (fun '(v1, m') v2 => v1 = v2 /\ mem_abs m' h)
      (mem_load T addr m) (host_load T addr h);
  mem_store_law : forall T addr v m h, ct_ok T -> mem_abs m h ->
    res_rel mem_abs (mem_store T addr v m) (host_store T addr v h);
  mem_flush_all_law : forall m h, mem_abs m h ->
    exists m', mem_flush_all m = Ok m' /\ mem_abs m' h /\ process m' = h;
  (** Flushing an aligned word makes it visible to the process, which may then
      write it. *)
  mem_flush_address_law : forall addr m h, addr mod 8 = 0 -> mem_abs m h ->
    exists m', mem_flush_address addr m = Ok m' /\ mem_abs m' h /\
      (forall T, ct_ok T -> host_load T addr (process m') = host_load T addr h) /\
      (forall T v, ct_ok T ->
        res_rel mem_abs (p ← host_store T addr v (process m'); Ok (set_process p m'))
          (host_store T addr v h));
  (** The ordered accesses and compare-exchange flush and go to the process. *)
  mem_load_ordered_law : forall T addr m, ct_ok T ->
    mem_load_ordered T addr m
    = (m ← mem_flush_address addr m; v ← host_load T addr (process m); Ok (v, m));
  mem_store_ordered_law : forall T addr v m, ct_ok T ->
    mem_store_ordered T addr v m
    = (m ← mem_flush_address addr m; p ← host_store T addr v (process m); Ok (set_process p m));
  mem_compare_exchange_law : forall spurious T addr old v m, ct_ok T ->
    mem_compare_exchange spurious T addr old v m
    = (m ← mem_flush_address addr m;
       '(ok, x, p) ← host_compare_exchange_weak spurious T addr old v (process m);
       Ok (ok, x, set_process p m));
  set_process_process : forall m, set_process (process m) m = m
}.
