(* ===== verification/SimMemoryProofs.v ===== *)
(** * The write buffer is invisible: proofs about simulator_memory.h

    [BufferedFacts] defines the bytes a program sees through the write buffer
    and the invariant of the buffer, and shows that every operation refines the
    one on plain memory.  The instances at the end discharge the contract
    [MemoryLaws] for the three memories, so that what is proved of the
    simulator against the contract holds for each of them. *)

From S2P Require Import Prelude Utils SimMemory.

Module BufferedFacts.

(** The word an entry of the buffer holds. *)
Definition entries (b : list (Z * Z)) : gmap Z Z := list_to_map b.

(** The byte at [a] a program sees. *)
Definition view (h : host) (b : list (Z * Z)) (a : Z) : option Z :=
  match entries b !! (8 * (a / 8)) with
  | Some w => Some (byte w (a mod 8))
  | None => h !! a
  end.

Definition entry_ok (h : host) (e : Z * Z) : Prop :=
  fst e mod 8 = 0 /\ mapped h (fst e) 8.

(** The process maps memory in whole words. *)
Definition whole_words (h : host) : Prop :=
  forall a b, a / 8 = b / 8 -> is_Some (h !! a) -> is_Some (h !! b).

Definition bytes_ok (h : host) : Prop := map_Forall (fun _ b => is_u 8 b) h.

Record wf (m : buffered) : Prop := {
  wf_nodup : NoDup (buffer m).*1;
  wf_entries : Forall (entry_ok (backing m)) (buffer m);
  wf_words : whole_words (backing m);
  wf_bytes : bytes_ok (backing m)
}.

(** Between operations the buffer is not full. *)
Definition inv (m : buffered) : Prop :=
  wf m /\ Buffered.size_ m < Buffered.kCapacity.

Definition sees (m : buffered) (h : host) : Prop :=
  forall a, h !! a = view (backing m) (buffer m) a.

Definition abs (m : buffered) (h : host) : Prop := inv m /\ sees m h.

Lemma word_addr addr : addr .& Z.lnot (8 - 1) = 8 * (addr / 8).
Proof. apply (RoundDown_pow2 addr 3). lia. Qed.

Lemma find_from_spec b n wa :
  (n <= length b)%nat -> NoDup b.*1 ->
  match Buffered.find_from b n wa with
  | Some (i, v) => b !! i = Some (wa, v)
  | None => forall i v, (i < n)%nat -> b !! i <> Some (wa, v)
  end.
Proof.
  induction n as [|n IH]; cbn [Buffered.find_from]; intros Hn Hd; [lia|].
  destruct (lookup_lt_is_Some_2 b n ltac:(lia)) as [[a v] E]. rewrite E.
  destruct (a =? wa) eqn:Ea; reflect_bool; [by subst|].
  specialize (IH ltac:(lia) Hd). destruct (Buffered.find_from b n wa) as [[]|]; [done|].
  intros i v' Hi. destruct (decide (i = n)) as [->|]; [congruence|].
  apply IH. lia.
Qed.

Lemma find_entries m wa : wf m ->
  match Buffered.find m wa with
  | Some (i, v) => buffer m !! i = Some (wa, v) /\ entries (buffer m) !! wa = Some v
  | None => entries (buffer m) !! wa = None
  end.
Proof.
  intros Hi. pose proof (wf_nodup m Hi) as Hd. unfold Buffered.find.
  pose proof (find_from_spec (buffer m) (length (buffer m)) wa ltac:(lia) Hd) as F.
  destruct (Buffered.find_from _ _ _) as [[i v]|].
  - split; [done|]. apply elem_of_list_to_map_1; [done|].
    by eapply list_elem_of_lookup_2.
  - apply not_elem_of_list_to_map_1. rewrite list_elem_of_fmap.
    intros ([a v] & -> & (i & Hl)%list_elem_of_lookup).
    apply (F i v); [|done]. by eapply lookup_lt_Some.
Qed.

(** Writing an entry back. *)
Lemma write_entry_lookup e h :
  entry_ok h e ->
  exists h', Buffered.write_entry e h = Ok h' /\
    (forall a, h' !! a = if decide (8 * (a / 8) = fst e)
                        then Some (byte (snd e) (a mod 8)) else h !! a).
Proof.
  intros [Ha Hm]. unfold Buffered.write_entry.
  destruct (host_store_lookup uword (fst e) (snd e) h) as (h' & E & Hl); [done..|].
  exists h'. split; [done|]. intros a. rewrite Hl.
  change (ct_sizeof uword) with 8.
  pose proof (Z.div_mod a 8 ltac:(lia)). pose proof (Z.mod_pos_bound a 8 ltac:(lia)).
  pose proof (Z.div_mod (fst e) 8 ltac:(lia)).
  repeat case_decide; try lia; [|done]. do 2 f_equal. lia.
Qed.

Definition same_dom (h h' : host) : Prop :=
  forall a, is_Some (h' !! a) <-> is_Some (h !! a).

Lemma store_same_dom T addr v h h' :
  ct_ok T -> host_store T addr v h = Ok h' -> same_dom h h'.
Proof.
  intros HT Hst a. pose proof (ct_ok_sizeof T HT) as [_ Hs].
  destruct (mapped_dec h addr (ct_sizeof T)) as [Hm|(i & Hi & Hn)].
  - destruct (host_store_lookup T addr v h) as (h2 & E & Hl); [lia|done|].
    assert (h2 = h') as -> by congruence. rewrite Hl. case_decide; [|done].
    split; [|done]. intros _. replace a with (addr + (a - addr)) by lia.
    apply Hm. lia.
  - destruct (host_store_fault T addr v h i) as [x E]; [done..|congruence].
Qed.

Lemma store_bytes_ok T addr v h h' :
  ct_ok T -> host_store T addr v h = Ok h' -> bytes_ok h -> bytes_ok h'.
Proof.
  intros HT Hst Hb a b Hl. pose proof (ct_ok_sizeof T HT) as [_ Hs].
  destruct (mapped_dec h addr (ct_sizeof T)) as [Hm|(i & Hi & Hn)].
  - destruct (host_store_lookup T addr v h) as (h2 & E & Hl2); [lia|done|].
    assert (h2 = h') as -> by congruence. rewrite Hl2 in Hl.
    case_decide; simplify_eq; [apply byte_range|by eapply Hb].
  - destruct (host_store_fault T addr v h i) as [x E]; [done..|congruence].
Qed.

Lemma entry_ok_same_dom h h' e : same_dom h h' -> entry_ok h e -> entry_ok h' e.
Proof.
  intros Hd [Ha Hm]. split; [done|]. intros i Hi. apply Hd, Hm. done.
Qed.

Lemma whole_words_same_dom h h' : same_dom h h' -> whole_words h -> whole_words h'.
Proof. intros Hd Hw a b E Ha. apply Hd, (Hw a b E), Hd, Ha. Qed.

Lemma write_entry_same_dom e h h' :
  Buffered.write_entry e h = Ok h' -> same_dom h h'.
Proof. apply store_same_dom. right. right. by right. Qed.

Lemma write_entry_bytes_ok e h h' :
  Buffered.write_entry e h = Ok h' -> bytes_ok h -> bytes_ok h'.
Proof. apply store_bytes_ok. right. right. by right. Qed.

Lemma flush_entries_view b : forall h,
  NoDup b.*1 -> Forall (entry_ok h) b ->
  exists h', Buffered.flush_entries b h = Ok h' /\
    (forall a, h' !! a = view h b a) /\ same_dom h h' /\ (bytes_ok h -> bytes_ok h').
Proof.
  induction b as [|e b IH]; intros h Hd Hf; cbn [Buffered.flush_entries].
  - by exists h.
  - apply Forall_cons in Hf as [He Hf]. cbn in Hd. apply NoDup_cons in Hd as [Hn Hd].
    destruct (write_entry_lookup e h He) as (h1 & E1 & Hl). rewrite E1. cbn.
    pose proof (write_entry_same_dom _ _ _ E1) as Hs.
    destruct (IH h1 Hd) as (h' & -> & Hv & Hs' & Hb').
    { eapply Forall_impl; [done|]. intros. by eapply entry_ok_same_dom. }
    pose proof (write_entry_bytes_ok _ _ _ E1) as Hb. exists h'. split; [done|].
    split; [|split; [intros a; by etransitivity; [apply Hs'|apply Hs]|by auto]].
    intros a. rewrite Hv. unfold view, entries. destruct e as [ea ev]. cbn in *.
    rewrite Hl. case_decide as D.
    + subst ea. rewrite lookup_insert, decide_True by done.
      by rewrite (not_elem_of_list_to_map_1 b) by done.
    + by rewrite lookup_insert_ne by done.
Qed.

(** [buffer_[i] = buffer_[size_ - 1]; size_--] removes the entry. *)
Lemma remove_entry_perm i b :
  (i < length b)%nat -> Buffered.remove_entry i b ≡ₚ delete i b.
Proof.
  intros Hi. destruct b as [|e b _] using rev_ind; [cbn in *; lia|].
  unfold Buffered.remove_entry. rewrite last_snoc. rewrite length_app in *. cbn in *.
  replace (length b + 1 - 1)%nat with (length b) by lia.
  destruct (decide (i = length b)) as [->|Hne].
  - rewrite list_insert_id, take_app_length by (by rewrite lookup_app_r, Nat.sub_diag by lia).
    by rewrite delete_take_drop, take_app_length, drop_ge, app_nil_r
      by (rewrite length_app; cbn; lia).
  - rewrite insert_app_l, take_app_length' by (rewrite ?length_insert; lia).
    rewrite insert_take_drop by lia.
    rewrite (delete_take_drop (b ++ [e])), take_app_le, drop_app_le by lia.
    rewrite app_assoc. rewrite <- Permutation_cons_append. by rewrite <- Permutation_middle.
Qed.

Lemma flush_entry_view i m e h :
  wf m -> sees m h -> buffer m !! i = Some e ->
  exists m', Buffered.flush_entry i m = Ok m' /\ wf m' /\ sees m' h /\
    entries (buffer m') = delete (fst e) (entries (buffer m)) /\
    Buffered.size_ m' = Buffered.size_ m - 1.
Proof.
  intros Hw Hs Hl. unfold Buffered.flush_entry. rewrite Hl.
  assert (Hi : (i < length (buffer m))%nat) by by eapply lookup_lt_Some.
  assert (He : entry_ok (backing m) e).
  { eapply (proj1 (Forall_lookup _ _)); [apply (wf_entries m Hw)|done]. }
  destruct (write_entry_lookup e _ He) as (h1 & E1 & Hl1). rewrite E1. cbn.
  pose proof (write_entry_same_dom _ _ _ E1) as Hd.
  pose proof (remove_entry_perm i (buffer m) Hi) as P.
  pose proof (delete_Permutation (buffer m) i e Hl) as Pm.
  pose proof (wf_nodup m Hw) as Hn. rewrite Pm in Hn. cbn in Hn.
  apply NoDup_cons in Hn as [Hni Hnd].
  assert (Hent : entries (Buffered.remove_entry i (buffer m))
                 = delete (fst e) (entries (buffer m))).
  { unfold entries. rewrite (list_to_map_proper (Buffered.remove_entry i (buffer m)) (delete i (buffer m)))
      by (done || by rewrite P).
    rewrite (list_to_map_proper (buffer m) _ (wf_nodup m Hw) Pm).
    destruct e as [ea ev]. cbn. rewrite delete_insert_id; [done|].
    by apply not_elem_of_list_to_map_1. }
  eexists. split; [done|]. split; [|split; [|split; [done|]]].
  - split; cbn.
    + by rewrite P.
    + rewrite P. pose proof (wf_entries m Hw) as Hf. rewrite Pm in Hf.
      apply Forall_cons in Hf as [_ Hf]. eapply Forall_impl; [done|].
      intros. by eapply entry_ok_same_dom.
    + eapply whole_words_same_dom; [done|apply Hw].
    + eapply write_entry_bytes_ok; [done|apply Hw].
  - intros a. rewrite Hs. unfold view. cbn [backing buffer]. rewrite Hent, Hl1.
    assert (entries (buffer m) !! fst e = Some (snd e)) as Hee.
    { apply elem_of_list_to_map_1; [apply Hw|]. destruct e.
      by eapply list_elem_of_lookup_2. }
    destruct (decide (8 * (a / 8) = fst e)) as [D|D].
    + by rewrite D, lookup_delete_eq, Hee.
    + by rewrite lookup_delete_ne by done.
  - unfold Buffered.size_. cbn. rewrite P.
    rewrite length_delete by done. lia.
Qed.

(** ** The flushing loops *)

Lemma victim_range m :
  buffer m <> [] -> 0 <= Buffered.victim m < Buffered.size_ m.
Proof.
  unfold Buffered.victim, Buffered.size_. destruct (buffer m) as [|[a v] b]; [done|].
  intros _. cbn [length]. cbv zeta.
  set (i := s64 v .^ (s64 v ≫ 4)). assert (0 <= i).
  { apply Z.lxor_nonneg. rewrite Z.shiftr_nonneg. done. }
  apply Z.rem_bound_pos; [|lia].
  apply Z.lxor_nonneg. rewrite Z.shiftr_nonneg. done.
Qed.

Lemma flush_some_view n : forall m h,
  wf m -> sees m h -> (length (buffer m) <= n)%nat ->
  exists m', Buffered.FlushSome_loop n m = Ok m' /\ wf m' /\ sees m' h /\
    Buffered.size_ m' <= Buffered.kCapacity / 2.
Proof.
  induction n as [|n IH]; intros m h Hw Hs Hn; cbn [Buffered.FlushSome_loop];
    change (Buffered.kCapacity / 2) with 8 in *.
  - exists m. split_and!; [done..|]. unfold Buffered.size_. lia.
  - destruct (8 <? Buffered.size_ m) eqn:E; reflect_bool.
    + assert (buffer m <> []) as Hne.
      { intros E0. unfold Buffered.size_ in E. rewrite E0 in E.
        done. }
      pose proof (victim_range m Hne) as Hv.
      destruct (lookup_lt_is_Some_2 (buffer m) (Z.to_nat (Buffered.victim m)))
        as [e He]; [unfold Buffered.size_ in Hv; lia|].
      destruct (flush_entry_view _ m e h Hw Hs He) as (m1 & -> & Hw1 & Hs1 & _ & Hz).
      cbn. apply IH; [done..|]. unfold Buffered.size_ in Hz. lia.
    + by exists m.
Qed.

Lemma entries_lookup m i a v :
  wf m -> buffer m !! i = Some (a, v) -> entries (buffer m) !! a = Some v.
Proof.
  intros Hw Hl. apply elem_of_list_to_map_1; [apply Hw|].
  by eapply list_elem_of_lookup_2.
Qed.

Lemma entries_aligned m a v :
  wf m -> entries (buffer m) !! a = Some v -> a mod 8 = 0 /\ mapped (backing m) a 8.
Proof.
  intros Hw He. apply elem_of_list_to_map_2 in He.
  pose proof (wf_entries m Hw) as Hf. rewrite Forall_forall in Hf.
  by apply (Hf (a, v)).
Qed.

(** Flushing an address that is not buffered does nothing. *)
Lemma flush_address_absent n : forall i addr m,
  wf m -> entries (buffer m) !! addr = None ->
  Buffered.FlushAddress_from n i addr m = Ok m.
Proof.
  induction n as [|n IH]; intros i addr m Hw Hn; cbn [Buffered.FlushAddress_from]; [done|].
  destruct (buffer m !! i) as [[a v]|] eqn:E; [|done].
  pose proof (entries_lookup m i a v Hw E).
  destruct (a =? addr) eqn:Ea; reflect_bool; [congruence|]. cbn. by apply IH.
Qed.

Lemma flush_address_from_view n : forall i addr m h,
  wf m -> sees m h -> (length (buffer m) <= n + i)%nat ->
  (forall j v, (j < i)%nat -> buffer m !! j <> Some (addr, v)) ->
  exists m', Buffered.FlushAddress_from n i addr m = Ok m' /\ wf m' /\ sees m' h /\
    entries (buffer m') !! addr = None /\ Buffered.size_ m' <= Buffered.size_ m.
Proof.
  induction n as [|n IH]; intros i addr m h Hw Hs Hn Hb; cbn [Buffered.FlushAddress_from].
  - exists m. split_and!; [done|done|done| |lia].
    apply not_elem_of_list_to_map_1. rewrite list_elem_of_fmap.
    intros ([a v] & -> & (j & Hl)%list_elem_of_lookup).
    apply (Hb j v); [|done]. apply lookup_lt_Some in Hl. lia.
  - destruct (buffer m !! i) as [[a v]|] eqn:E.
    + destruct (a =? addr) eqn:Ea; reflect_bool.
      * subst a. destruct (flush_entry_view i m _ h Hw Hs E)
          as (m1 & -> & Hw1 & Hs1 & He1 & Hz). cbn [mbind result_bind].
        assert (Ha : entries (buffer m1) !! addr = None)
          by (rewrite He1; apply lookup_delete_eq).
        rewrite flush_address_absent by done. exists m1. split_and!;
          done || lia.
      * cbn [mbind result_bind]. apply IH; [done..|lia|]. intros j v' Hj.
        destruct (decide (j = i)) as [->|]; [congruence|]. apply Hb. lia.
    + exists m. split_and!; [done|done|done| |lia].
      apply not_elem_of_list_to_map_1. rewrite list_elem_of_fmap.
      intros ([a v] & -> & (j & Hl)%list_elem_of_lookup).
      apply (Hb j v); [|done]. apply lookup_lt_Some in Hl.
      apply lookup_ge_None in E. lia.
Qed.

Lemma flush_address_view addr m h :
  abs m h ->
  exists m', Buffered.FlushAddress addr m = Ok m' /\ abs m' h /\
    entries (buffer m') !! addr = None.
Proof.
  intros [[Hw Hz] Hs].
  destruct (flush_address_from_view (length (buffer m)) 0 addr m h)
    as (m' & E & Hw' & Hs' & Hn & Hz'); [done..|lia|intros; lia|].
  exists m'. split_and!; [done|split; [split|]|]; done || lia.
Qed.

Lemma flush_all_view m h :
  abs m h -> exists m', Buffered.FlushAll m = Ok m' /\ abs m' h /\
    backing m' = h /\ buffer m' = [].
Proof.
  intros [[Hw _] Hs]. unfold Buffered.FlushAll.
  destruct (flush_entries_view (buffer m) (backing m)) as (h' & -> & Hv & Hd & Hb);
    [apply Hw..|]. cbn.
  assert (h' = h) as -> by (apply map_eq; intros a; by rewrite Hv, Hs).
  eexists. split; [done|]. split; [|done]. split; [split; [split|]|]; cbn.
  - constructor.
  - constructor.
  - eapply whole_words_same_dom; [done|apply Hw].
  - apply Hb, Hw.
  - done.
  - done.
Qed.

(** ** Accesses within a word *)

Lemma slow_path_false T addr :
  ct_ok T -> Buffered.slow_path T addr = false -> addr mod ct_sizeof T = 0.
Proof.
  unfold Buffered.slow_path, ct_ok, ct_sizeof. intros HT H.
  apply orb_false_iff in H as [_ H]. apply negb_false_iff, Z.eqb_eq in H.
  destruct HT as [E|[E|[E|E]]]; rewrite E in *; revert H.
  - intros _. apply Z.mod_1_r.
  - change (16 / 8 - 1) with (Z.ones 1). change (16 / 8) with (2 ^ 1).
    by rewrite Z.land_ones.
  - change (32 / 8 - 1) with (Z.ones 2). change (32 / 8) with (2 ^ 2).
    by rewrite Z.land_ones.
  - change (64 / 8 - 1) with (Z.ones 3). change (64 / 8) with (2 ^ 3).
    by rewrite Z.land_ones.
Qed.

(** A naturally aligned access stays within one word. *)
Lemma access_in_word T addr i :
  ct_ok T -> addr mod ct_sizeof T = 0 -> 0 <= i < ct_sizeof T ->
  (addr + i) / 8 = addr / 8 /\ (addr + i) mod 8 = addr mod 8 + i.
Proof.
  unfold ct_ok, ct_sizeof. intros [E|[E|[E|E]]]; rewrite E;
    [change (8 / 8) with 1|change (16 / 8) with 2
    |change (32 / 8) with 4|change (64 / 8) with 8];
    intros; Z.div_mod_to_equations; lia.
Qed.

Lemma access_end T addr :
  ct_ok T -> addr mod ct_sizeof T = 0 -> addr mod 8 + ct_sizeof T <= 8.
Proof.
  intros HT Ha. pose proof (ct_ok_sizeof T HT) as [_ Hs].
  destruct (access_in_word T addr (ct_sizeof T - 1) HT Ha) as [_ E]; [lia|].
  pose proof (Z.mod_pos_bound (addr + (ct_sizeof T - 1)) 8). lia.
Qed.

(** What a store into the word of an entry changes. *)
Lemma byte_sub_store T w off v j :
  ct_ok T -> 0 <= off -> 0 <= j ->
  byte (Buffered.sub_store T w off v) j
  = if decide (off <= j < off + ct_sizeof T) then byte v (j - off) else byte w j.
Proof.
  intros HT Ho Hj. pose proof (ct_ok_sizeof T HT) as [Hb Hs].
  unfold Buffered.sub_store, byte. rewrite Hb. apply Z.bits_inj'. intros k Hk.
  rewrite testbit_field by lia. rewrite Z.lor_spec, Z.land_spec, Z.lnot_spec by lia.
  rewrite !Z.shiftl_spec by lia. set (n := ct_sizeof T) in *.
  destruct (k <? 8) eqn:Ek; reflect_bool; cbn [andb].
  2: { case_decide; rewrite testbit_field, (proj2 (Z.ltb_ge k 8)) by lia; done. }
  destruct (Z_lt_le_dec j off).
  - rewrite !(Z.testbit_neg_r _ (k + 8 * j - 8 * off)) by lia.
    rewrite decide_False, testbit_field, (proj2 (Z.ltb_lt k 8)) by lia.
    by rewrite orb_false_r, andb_true_r.
  - rewrite Z.testbit_ones_nonneg, testbit_uwrap by lia.
    destruct (k + 8 * j - 8 * off <? 8 * n) eqn:E; reflect_bool.
    + rewrite decide_True, testbit_field, (proj2 (Z.ltb_lt k 8)) by lia.
      rewrite andb_false_r. cbn. f_equal. lia.
    + rewrite decide_False, testbit_field, (proj2 (Z.ltb_lt k 8)) by lia.
      by rewrite orb_false_r, andb_true_r.
Qed.

Lemma mod8_word addr : addr - 8 * (addr / 8) = addr mod 8.
Proof. Z.div_mod_to_equations. lia. Qed.

Lemma word_aligned addr : (8 * (addr / 8)) mod 8 = 0.
Proof. rewrite Z.mul_comm. apply Z.mod_mul. lia. Qed.

Lemma word_div addr : 8 * (addr / 8) / 8 = addr / 8.
Proof. rewrite Z.mul_comm. apply Z.div_mul. lia. Qed.

(** The process and the buffer map the same bytes. *)
Lemma sees_same_dom m h : wf m -> sees m h -> same_dom (backing m) h.
Proof.
  intros Hw Hs a. rewrite Hs. unfold view.
  destruct (entries (buffer m) !! (8 * (a / 8))) as [w|] eqn:E; [|done].
  split; [|done]. intros _. apply entries_aligned in E as [_ Hm]; [|done].
  replace a with (8 * (a / 8) + a mod 8) by (Z.div_mod_to_equations; lia).
  apply Hm. apply Z.mod_pos_bound. lia.
Qed.

Lemma load_law T addr m h :
  ct_ok T -> abs m h ->
  res_rel (fun '(v1, m') v2 => v1 = v2 /\ abs m' h)
    (Buffered.Load T addr m) (host_load T addr h).
Proof.
  intros HT Ha. unfold Buffered.Load.
  destruct (Buffered.slow_path T addr) eqn:E.
  - destruct (flush_all_view m h Ha) as (m' & -> & Ha' & <- & _). cbn.
    destruct (host_load T addr (backing m')); cbn; auto with vm.
  - pose proof (slow_path_false T addr HT E) as Hal. destruct Ha as [[Hw Hz] Hs].
    rewrite word_addr, mod8_word.
    pose proof (find_entries m (8 * (addr / 8)) Hw) as F.
    destruct (Buffered.find m (8 * (addr / 8))) as [[i w]|].
    + destruct F as [_ F]. rewrite (host_load_bytes T addr h w (addr mod 8)); cbn.
      * done.
      * done.
      * apply Z.mod_pos_bound. lia.
      * intros j Hj. rewrite Hs. unfold view.
        destruct (access_in_word T addr j HT Hal Hj) as [-> ->]. by rewrite F.
    + rewrite (host_load_ext T addr (backing m) h).
      * destruct (host_load T addr h); cbn; [done|auto with vm].
      * intros j Hj. rewrite Hs. unfold view.
        destruct (access_in_word T addr j HT Hal Hj) as [-> _]. by rewrite F.
Qed.

(** Replacing or adding the word that holds [addr]. *)
Lemma sees_update T addr v m h h' w b' :
  ct_ok T -> addr mod ct_sizeof T = 0 -> wf m -> sees m h ->
  (forall j, 0 <= j < 8 -> h !! (8 * (addr / 8) + j) = Some (byte w j)) ->
  host_store T addr v h = Ok h' ->
  entries b' = <[8 * (addr / 8) := Buffered.sub_store T w (addr mod 8) v]>
                 (entries (buffer m)) ->
  sees (mkBuffered (backing m) b') h'.
Proof.
  intros HT Hal Hw Hs Hword Hst Hb' a. pose proof (ct_ok_sizeof T HT) as [_ Hsz].
  pose proof (access_end T addr HT Hal) as Hend.
  destruct (mapped_dec h addr (ct_sizeof T)) as [Hm|(i & Hi & Hn)].
  2: { destruct (host_store_fault T addr v h i) as [x E]; [done..|congruence]. }
  destruct (host_store_lookup T addr v h) as (h2 & E & Hl); [lia|done|].
  assert (h2 = h') as -> by congruence. rewrite Hl.
  unfold view. cbn [backing buffer]. rewrite Hb'.
  pose proof (Z.div_mod addr 8 ltac:(lia)). pose proof (Z.div_mod a 8 ltac:(lia)).
  pose proof (Z.mod_pos_bound addr 8 ltac:(lia)).
  pose proof (Z.mod_pos_bound a 8 ltac:(lia)).
  destruct (decide (a / 8 = addr / 8)) as [D|D].
  - rewrite D, lookup_insert_eq, byte_sub_store by (done || lia).
    destruct (decide (addr <= a < addr + ct_sizeof T)).
    + rewrite decide_True by lia. do 2 f_equal. lia.
    + rewrite decide_False by lia. rewrite <- Hword by lia. f_equal. lia.
  - rewrite lookup_insert_ne, decide_False by lia. apply Hs.
Qed.

Lemma load_word_bytes a h :
  mapped h a 8 -> bytes_ok h ->
  exists w, host_load uword a h = Ok w /\
    forall j, 0 <= j < 8 -> h !! (a + j) = Some (byte w j).
Proof.
  intros Hm Hb.
  assert (exists bs, length bs = 8%nat /\ Forall (is_u 8) bs /\
    forall i : nat, (i < length bs)%nat -> h !! (a + Z.of_nat i) = bs !! i)
    as (bs & Hlen & Hf & Hl).
  { exists ((fun j => default 0 (h !! (a + j))) <$> seqZ 0 8).
    split; [done|]. split.
    - apply Forall_fmap, Forall_forall. intros j Hj%elem_of_seqZ. cbn.
      destruct (Hm j) as [b Eb]; [lia|]. rewrite Eb. by apply (Hb _ _ Eb).
    - intros i Hi. rewrite length_fmap, length_seqZ in Hi.
      rewrite list_lookup_fmap, (proj2 (lookup_seqZ _ _ _ (Z.of_nat i))) by lia.
      cbn. by destruct (Hm (Z.of_nat i)) as [b ->]; [lia|]. }
  exists (little_endian_to_Z 8 bs).
  assert (Hu : is_u 64 (little_endian_to_Z 8 bs)).
  { pose proof (little_endian_to_Z_bound 8 bs ltac:(lia)) as B.
    rewrite Hlen in B. apply B. eapply Forall_impl; [done|]. by unfold is_u. }
  split.
  - unfold host_load. change (Z.to_nat (ct_sizeof uword)) with 8%nat.
    rewrite <- Hlen, read_bytes_lookup by done. cbn. f_equal.
    by apply (uwrap_small 64).
  - intros j Hj. pose proof (Hl (Z.to_nat j)) as Hlj.
    rewrite Z2Nat.id in Hlj by lia. rewrite Hlj by lia.
    rewrite <- (Z_to_little_endian_to_Z 8 8 bs) at 1 by (unfold is_u in *; done || lia).
    apply Z_to_little_endian_lookup_Some; [lia..|]. split; [lia|].
    unfold byte, field. do 2 f_equal. lia.
Qed.

Lemma entries_insert b i wa w x :
  NoDup b.*1 -> b !! i = Some (wa, w) ->
  entries (<[i := (wa, x)]> b) = <[wa := x]> (entries b).
Proof.
  intros Hd Hl. pose proof (delete_Permutation b i _ Hl) as P.
  assert (Hi : (i < length b)%nat) by by eapply lookup_lt_Some.
  assert (P' : <[i := (wa, x)]> b ≡ₚ (wa, x) :: delete i b).
  { rewrite insert_take_drop, delete_take_drop by done. by rewrite <- Permutation_middle. }
  assert (Hd' : (<[i := (wa, x)]> b).*1 = b.*1).
  { rewrite list_fmap_insert. apply list_insert_id. by rewrite list_lookup_fmap, Hl. }
  unfold entries. rewrite (list_to_map_proper _ _ ltac:(by rewrite Hd') P').
  rewrite (list_to_map_proper b _ Hd P). cbn. by rewrite insert_insert_eq.
Qed.

(** A store that the process accepts. *)
Lemma store_mapped T addr v m h :
  ct_ok T -> addr mod ct_sizeof T = 0 -> wf m -> sees m h ->
  mapped (backing m) (8 * (addr / 8)) 8 ->
  exists h', host_store T addr v h = Ok h'.
Proof.
  intros HT Hal Hw Hs Hm. pose proof (ct_ok_sizeof T HT) as [_ Hsz].
  destruct (host_store_lookup T addr v h) as (h' & E & _); [lia| |eauto].
  intros i Hi. apply (sees_same_dom m h Hw Hs).
  pose proof (access_end T addr HT Hal). pose proof (Z.mod_pos_bound addr 8 ltac:(lia)).
  replace (addr + i) with (8 * (addr / 8) + (addr mod 8 + i))
    by (Z.div_mod_to_equations; lia).
  apply Hm. lia.
Qed.

Lemma store_hit T addr v m h i w :
  ct_ok T -> addr mod ct_sizeof T = 0 -> abs m h ->
  buffer m !! i = Some (8 * (addr / 8), w) ->
  res_rel abs
    (Ok (mkBuffered (backing m)
      (<[i := (8 * (addr / 8), Buffered.sub_store T w (addr mod 8) v)]> (buffer m))))
    (host_store T addr v h).
Proof.
  intros HT Hal [[Hw Hz] Hs] Hl.
  pose proof (entries_lookup m i _ _ Hw Hl) as He.
  destruct (entries_aligned m _ _ Hw He) as [_ Hm].
  destruct (store_mapped T addr v m h) as [h' E]; [done..|]. rewrite E. cbn.
  assert (Hword : forall j, 0 <= j < 8 -> h !! (8 * (addr / 8) + j) = Some (byte w j)).
  { intros j Hj. rewrite Hs. unfold view.
    destruct (access_in_word uword (8 * (addr / 8)) j) as [-> ->];
      [right; right; by right|apply word_aligned|done|].
    by rewrite word_div, He, word_aligned. }
  split; [split; [split|]|]; cbn [backing buffer].
  - rewrite list_fmap_insert. rewrite list_insert_id; [apply Hw|].
    by rewrite list_lookup_fmap, Hl.
  - apply Forall_insert; [apply Hw|]. split; [apply word_aligned|done].
  - apply Hw.
  - apply Hw.
  - unfold Buffered.size_ in *. cbn. by rewrite length_insert.
  - eapply sees_update; [done..|]. by apply (entries_insert _ _ _ w); [apply Hw|].
Qed.

Lemma entries_snoc b wa w :
  wa ∉ b.*1 -> NoDup b.*1 -> entries (b ++ [(wa, w)]) = <[wa := w]> (entries b).
Proof.
  intros Hn Hd. unfold entries.
  rewrite (list_to_map_proper (b ++ [(wa, w)]) ((wa, w) :: b)); [done| |].
  - rewrite fmap_app. apply NoDup_app. split; [done|]. split; [|apply NoDup_singleton].
    intros x Hx Hx'. apply list_elem_of_singleton in Hx' as ->. done.
  - by rewrite <- Permutation_cons_append.
Qed.

Lemma store_miss T addr v m h :
  ct_ok T -> addr mod ct_sizeof T = 0 -> abs m h ->
  entries (buffer m) !! (8 * (addr / 8)) = None ->
  res_rel abs
    (word ← host_load uword (8 * (addr / 8)) (backing m);
     let m := mkBuffered (backing m)
       (buffer m ++ [(8 * (addr / 8), Buffered.sub_store T word (addr mod 8) v)]) in
     if Buffered.size_ m =? Buffered.kCapacity then Buffered.FlushSome m else Ok m)
    (host_store T addr v h).
Proof.
  intros HT Hal [[Hw Hz] Hs] Hn. pose proof (ct_ok_sizeof T HT) as [_ Hsz].
  destruct (mapped_dec (backing m) (8 * (addr / 8)) 8) as [Hm|(i & Hi & Hu)].
  - destruct (load_word_bytes _ _ Hm (wf_bytes m Hw)) as (w & -> & Hbw).
    cbn [mbind result_bind]. cbv zeta.
    destruct (store_mapped T addr v m h) as [h' E]; [done..|]. rewrite E.
    set (x := Buffered.sub_store T w (addr mod 8) v).
    set (m1 := mkBuffered (backing m) (buffer m ++ [(8 * (addr / 8), x)])).
    assert (Hnew : 8 * (addr / 8) ∉ (buffer m).*1)
      by by apply not_elem_of_list_to_map_2.
    assert (Hs1 : sees m1 h').
    { eapply (sees_update T addr v m h h' w); [done..| |done|].
      - intros j Hj. rewrite Hs. unfold view.
        destruct (access_in_word uword (8 * (addr / 8)) j) as [-> _];
          [right; right; by right|apply word_aligned|done|].
        rewrite word_div, Hn. by apply Hbw.
      - apply entries_snoc; [done|apply Hw]. }
    assert (Hw1 : wf m1).
    { split; cbn [backing buffer m1].
      - rewrite fmap_app. apply NoDup_app. split; [apply Hw|].
        split; [|apply NoDup_singleton]. intros y Hy Hy'.
        apply list_elem_of_singleton in Hy' as ->. done.
      - apply Forall_app. split; [apply Hw|]. apply Forall_singleton.
        split; [apply word_aligned|done].
      - apply Hw.
      - apply Hw. }
    assert (Hz1 : Buffered.size_ m1 = Buffered.size_ m + 1).
    { unfold Buffered.size_, m1. cbn [buffer]. rewrite length_app. cbn. lia. }
    destruct (Buffered.size_ m1 =? Buffered.kCapacity) eqn:Ez; reflect_bool.
    + destruct (flush_some_view (length (buffer m1)) m1 h') as (m2 & E2 & Hw2 & Hs2 & Hz2);
        [done..|]. unfold Buffered.FlushSome. rewrite E2. cbn [res_rel].
      split; [split; [done|]|done]. eapply Z.le_lt_trans; [exact Hz2|done].
    + cbn [res_rel]. split; [split; [done|]|done]. lia.
  - destruct (host_load_fault uword _ _ i Hi Hu) as [a1 ->]. cbn.
    destruct (host_store_fault T addr v h 0) as [a2 ->]; [lia| |apply err_rel_fault].
    rewrite Z.add_0_r. apply eq_None_not_Some. intros Hsome.
    apply (sees_same_dom m h Hw Hs) in Hsome.
    apply (wf_words m Hw addr (8 * (addr / 8) + i)) in Hsome.
    + rewrite Hu in Hsome. by apply is_Some_None in Hsome.
    + destruct (access_in_word uword (8 * (addr / 8)) i) as [-> _];
        [right; right; by right|apply word_aligned|done|]. by rewrite word_div.
Qed.

Lemma store_law T addr v m h :
  ct_ok T -> abs m h ->
  res_rel abs (Buffered.Store T addr v m) (host_store T addr v h).
Proof.
  intros HT Ha. unfold Buffered.Store.
  destruct (Buffered.slow_path T addr) eqn:E.
  - destruct (flush_all_view m h Ha) as (m' & -> & [[Hw Hz] _] & <- & Hb). cbn.
    destruct (host_store T addr v (backing m')) as [h'|e] eqn:Est; cbn; [|auto with vm].
    rewrite Hb. pose proof (store_same_dom _ _ _ _ _ HT Est) as Hd.
    split; [split; [split|]|]; cbn; [constructor..| | | |done].
    + eapply whole_words_same_dom; [done|apply Hw].
    + eapply store_bytes_ok; [done|done|apply Hw].
    + done.
  - pose proof (slow_path_false T addr HT E) as Hal.
    rewrite word_addr, mod8_word.
    pose proof (find_entries m (8 * (addr / 8)) (proj1 (proj1 Ha))) as F.
    destruct (Buffered.find m (8 * (addr / 8))) as [[i w]|].
    + by apply (store_hit T addr v m h i w HT Hal Ha), F.
    + by apply store_miss.
Qed.

(** A word that is not buffered may be written behind the buffer. *)
Lemma process_store_law T addr v m h :
  ct_ok T -> addr mod 8 = 0 -> abs m h -> entries (buffer m) !! addr = None ->
  res_rel abs (p ← host_store T addr v (backing m); Ok (mkBuffered p (buffer m)))
    (host_store T addr v h).
Proof.
  intros HT Hal [[Hw Hz] Hs] Hn. pose proof (ct_ok_sizeof T HT) as [_ Hsz].
  pose proof (sees_same_dom m h Hw Hs) as Hd.
  destruct (mapped_dec h addr (ct_sizeof T)) as [Hm|(i & Hi & Hu)].
  2: { destruct (host_store_fault T addr v h i) as [a2 ->]; [done..|].
       destruct (host_store_fault T addr v (backing m) i) as [a1 ->];
         [done| |apply err_rel_fault].
       apply eq_None_not_Some. intros Hx%Hd. rewrite Hu in Hx. by apply is_Some_None in Hx. }
  assert (Hm' : mapped (backing m) addr (ct_sizeof T)).
  { intros i Hi. by apply Hd, Hm. }
  destruct (host_store_lookup T addr v h) as (h' & -> & Hl); [lia|done|].
  destruct (host_store_lookup T addr v (backing m)) as (p & E & Hlp); [lia|done|].
  rewrite E. cbn. pose proof (store_same_dom _ _ _ _ _ HT E) as Hdp.
  split; [split; [split|]|]; cbn [backing buffer].
  - apply Hw.
  - eapply Forall_impl; [apply Hw|]. intros. by eapply entry_ok_same_dom.
  - eapply whole_words_same_dom; [done|apply Hw].
  - eapply store_bytes_ok; [done..|apply Hw].
  - done.
  - intros a. rewrite Hl. unfold view. cbn [backing buffer]. rewrite Hlp.
    case_decide as D; [|apply Hs].
    replace (8 * (a / 8)) with addr by (Z.div_mod_to_equations; lia). by rewrite Hn.
Qed.

Lemma process_load_law T addr m h :
  ct_ok T -> addr mod 8 = 0 -> abs m h -> entries (buffer m) !! addr = None ->
  host_load T addr (backing m) = host_load T addr h.
Proof.
  intros HT Hal [_ Hs] Hn. pose proof (ct_ok_sizeof T HT) as [_ Hsz].
  apply host_load_ext. intros i Hi. rewrite Hs. unfold view.
  replace (8 * ((addr + i) / 8)) with addr by (Z.div_mod_to_equations; lia).
  by rewrite Hn.
Qed.

End BufferedFacts.

(** Every memory of the simulator keeps the contract. *)

Lemma bind_assoc {A B C} (x : sim_result A) (f : A -> sim_result B)
    (g : B -> sim_result C) :
  ((x ≫= f) ≫= g) = (x ≫= (fun a => f a ≫= g)).
Proof. by destruct x. Qed.

Lemma res_rel_map {A B C} (R : A -> B -> Prop) (S : C -> B -> Prop)
    (f : A -> C) x y :
  res_rel R x y -> (forall a b, R a b -> S (f a) b) ->
  res_rel S (a ← x; Ok (f a)) y.
Proof. destruct x, y; cbn; auto. Qed.

Lemma bind_ret {A} (x : sim_result A) : (a ← x; Ok a) = x.
Proof. by destruct x. Qed.

#[export] Program Instance direct_laws : MemoryLaws host := {|
  mem_abs := fun m h => m = h
|}.
Next Obligation.
  intros T addr m h _ ->. cbn. unfold Direct.Load.
  destruct (host_load T addr h); cbn; auto with vm.
Qed.
Next Obligation. intros T addr v m h _ ->. by apply res_rel_refl. Qed.
Next Obligation. intros m h ->. by exists h. Qed.
Next Obligation.
  intros addr m h _ ->. exists h. split_and!; [done..|]. intros T v HT. cbn.
  rewrite bind_ret. by apply res_rel_refl.
Qed.
Next Obligation. done. Qed.
Next Obligation. intros. cbn. unfold Direct.StoreOrdered. by rewrite bind_ret. Qed.
Next Obligation.
  intros. cbn. unfold Direct.CompareExchange.
  by destruct (host_compare_exchange_weak _ _ _ _ _ _) as [[[]]|].
Qed.
Next Obligation. done. Qed.

#[export] Program Instance buffered_laws : MemoryLaws buffered := {|
  mem_abs := BufferedFacts.abs
|}.
Next Obligation. intros. by apply BufferedFacts.load_law. Qed.
Next Obligation. intros. by apply BufferedFacts.store_law. Qed.
Next Obligation.
  intros m h Ha. destruct (BufferedFacts.flush_all_view m h Ha) as (m' & E & Ha' & Hb & _).
  by exists m'.
Qed.
Next Obligation.
  intros addr m h Hal Ha.
  destruct (BufferedFacts.flush_address_view addr m h Ha) as (m' & E & Ha' & Hn).
  exists m'. split_and!; [done..| |].
  - intros T HT. by apply BufferedFacts.process_load_law.
  - intros T v HT. by apply BufferedFacts.process_store_law.
Qed.
Next Obligation. done. Qed.
Next Obligation. done. Qed.
Next Obligation. done. Qed.
Next Obligation. by intros []. Qed.

#[export] Program Instance simulator_memory_laws : MemoryLaws SimulatorMemory := {|
  mem_abs := fun m h => if use_buffered_ m then BufferedFacts.abs (buffered_ m) h
                        else backing (buffered_ m) = h
|}.
Next Obligation.
  intros T addr [[] m] h HT Ha; cbn in *; unfold Sim.Load; cbn.
  - pose proof (BufferedFacts.load_law T addr m h HT Ha) as L.
    destruct (Buffered.Load T addr m) as [[]|], (host_load T addr h); done.
  - subst h. unfold Direct.Load. destruct (host_load T addr (backing m)); cbn; auto with vm.
Qed.
Next Obligation.
  intros T addr v [[] m] h HT Ha; cbn in *; unfold Sim.Store; cbn.
  - eapply res_rel_map; [by apply BufferedFacts.store_law|done].
  - subst h. unfold Direct.Store. destruct (host_store T addr v (backing m)); cbn; auto with vm.
Qed.
Next Obligation.
  intros [[] m] h Ha; cbn in *; unfold Sim.FlushAll; cbn.
  - destruct (BufferedFacts.flush_all_view m h Ha) as (m' & -> & Ha' & Hb & _).
    by eexists.
  - subst h. by eexists.
Qed.
Next Obligation.
  intros addr [[] m] h Hal Ha; cbn in *; unfold Sim.FlushAddress; cbn.
  - destruct (BufferedFacts.flush_address_view addr m h Ha) as (m' & -> & Ha' & Hn).
    eexists. split_and!; [done..| |]; cbn.
    + intros T HT. by apply BufferedFacts.process_load_law.
    + intros T v HT. pose proof (BufferedFacts.process_store_law T addr v m' h HT Hal Ha' Hn).
      by destruct (host_store T addr v (backing m')), (host_store T addr v h).
  - subst h. eexists. split_and!; [done..|]. intros T v HT. cbn.
    destruct (host_store T addr v (backing m)); cbn; auto with vm.
Qed.
Next Obligation.
  intros T addr [[] m] HT; cbn; unfold Sim.LoadOrdered, Sim.FlushAddress; cbn.
  - unfold Buffered.LoadOrdered. destruct (Buffered.FlushAddress addr m) as [m1|]; [|done].
    cbn. by destruct (host_load T addr (backing m1)).
  - unfold Direct.LoadOrdered. by destruct (host_load T addr (backing m)).
Qed.
Next Obligation.
  intros T addr v [[] m] HT; cbn; unfold Sim.StoreOrdered, Sim.FlushAddress; cbn.
  - unfold Buffered.StoreOrdered. destruct (Buffered.FlushAddress addr m) as [m1|]; [|done].
    cbn. by destruct (host_store T addr v (backing m1)).
  - unfold Direct.StoreOrdered. by destruct (host_store T addr v (backing m)).
Qed.
Next Obligation.
  intros sp T addr old v [[] m] HT; cbn; unfold Sim.CompareExchange, Sim.FlushAddress; cbn.
  - unfold Buffered.CompareExchange.
    destruct (Buffered.FlushAddress addr m) as [m1|]; [|done]. cbn.
    by destruct (host_compare_exchange_weak _ _ _ _ _ _) as [[[]]|].
  - unfold Direct.CompareExchange.
    by destruct (host_compare_exchange_weak _ _ _ _ _ _) as [[[]]|].
Qed.
Next Obligation. by intros [? []]. Qed.
