(* ===== verification/SimMemoryCorrect.v ===== *)
(** * Correctness of the simulator memory

    Sequences of operations: whichever memory the simulator was started with,
    the program observes the same values and leaves the same process memory. *)

From S2P Require Import Prelude Utils SimMemory SimMemoryProofs.

(** The operations of [SimulatorMemory] on the interface. *)
Inductive memory_op : Type :=
| OpLoad (T : ctype) (addr : Z)
| OpStore (T : ctype) (addr value : Z)
| OpLoadOrdered (T : ctype) (addr : Z)
| OpStoreOrdered (T : ctype) (addr value : Z)
| OpCompareExchange (spurious : bool) (T : ctype) (addr old_value value : Z)
| OpFlushAddress (addr : Z)
| OpFlushAll.

Section Run.
Context {M : Type} `{MemoryOps M}.

(** An operation with what the program observes of it. *)
Definition run_op (op : memory_op) (m : M) : sim_result (list Z * M) :=
  match op with
  | OpLoad T addr => '(v, m) ← mem_load T addr m; Ok ([v], m)
  | OpStore T addr v => m ← mem_store T addr v m; Ok ([], m)
  | OpLoadOrdered T addr => '(v, m) ← mem_load_ordered T addr m; Ok ([v], m)
  | OpStoreOrdered T addr v => m ← mem_store_ordered T addr v m; Ok ([], m)
  | OpCompareExchange spurious T addr old v =>
      '(ok, x, m) ← mem_compare_exchange spurious T addr old v m;
      Ok ([Z.b2z ok; x], m)
  | OpFlushAddress addr => m ← mem_flush_address addr m; Ok ([], m)
  | OpFlushAll => m ← mem_flush_all m; Ok ([], m)
  end.

Fixpoint run_ops (ops : list memory_op) (m : M) : sim_result (list Z * M) :=
  match ops with
  | [] => Ok ([], m)
  | op :: ops =>
      '(o1, m) ← run_op op m;
      '(o2, m) ← run_ops ops m;
      Ok (o1 ++ o2, m)
  end.
End Run.

(** Accesses of the simulator's widths; the ordered ones are to whole words. *)
Definition op_ok (op : memory_op) : Prop :=
  match op with
  | OpLoad T _ => ct_ok T
  | OpStore T _ _ => ct_ok T
  | OpLoadOrdered T addr => ct_ok T /\ addr mod 8 = 0
  | OpStoreOrdered T addr _ => ct_ok T /\ addr mod 8 = 0
  | OpCompareExchange _ T addr _ _ => ct_ok T /\ addr mod 8 = 0
  | OpFlushAddress addr => addr mod 8 = 0
  | OpFlushAll => True
  end.

Section Refinement.
Context {M : Type} `{MemoryLaws M}.

(** The observations agree and the memories correspond. *)
Definition outcome (x : list Z * M) (y : list Z * host) : Prop :=
  fst x = fst y /\ mem_abs (snd x) (snd y).

Lemma compare_exchange_rel spurious T addr old v (m : M) (h : host) :
  ct_ok T -> addr mod 8 = 0 -> mem_abs m h ->
  res_rel (fun '(ok1, x1, m') '(ok2, x2, h') =>
      ok1 = ok2 /\ x1 = x2 /\ mem_abs m' h')
    (mem_compare_exchange spurious T addr old v m)
    (host_compare_exchange_weak spurious T addr old v h).
Proof.
  intros HT Ha Hm. rewrite mem_compare_exchange_law by done.
  destruct (mem_flush_address_law addr m h Ha Hm) as (m' & -> & Hm' & Hl & Hst).
  cbn [mbind result_bind]. unfold host_compare_exchange_weak. rewrite (Hl T HT).
  destruct (host_load T addr h) as [x|e]; cbn [mbind result_bind]; [|apply err_rel_refl].
  destruct ((x =? old) && negb spurious); cbn [mbind result_bind].
  - specialize (Hst T v HT).
    destruct (host_store T addr v (process m')), (host_store T addr v h); cbn in *; auto.
  - cbn. by rewrite set_process_process.
Qed.

Lemma run_op_rel op (m : M) (h : host) :
  op_ok op -> mem_abs m h -> res_rel outcome (run_op op m) (run_op op h).
Proof.
  intros Hop Hm. unfold outcome.
  destruct op; cbn [run_op op_ok mem_load mem_store mem_load_ordered mem_store_ordered mem_compare_exchange
    mem_flush_address mem_flush_all direct_ops] in *.
  - unfold Direct.Load. pose proof (mem_load_law T addr m h Hop Hm) as Hr.
    destruct (mem_load T addr m) as [[]|], (host_load T addr h); cbn in *; auto.
    by destruct Hr as [-> ?].
  - unfold Direct.Store. pose proof (mem_store_law T addr value m h Hop Hm) as Hr.
    destruct (mem_store T addr value m), (host_store T addr value h); cbn in *; auto.
  - destruct Hop as [HT Ha]. unfold Direct.LoadOrdered.
    rewrite mem_load_ordered_law by done.
    destruct (mem_flush_address_law addr m h Ha Hm) as (m' & -> & Hm' & Hl & _).
    cbn [mbind result_bind]. rewrite (Hl T HT).
    destruct (host_load T addr h); cbn; auto using err_rel_refl.
  - destruct Hop as [HT Ha]. unfold Direct.StoreOrdered.
    rewrite mem_store_ordered_law by done.
    destruct (mem_flush_address_law addr m h Ha Hm) as (m' & -> & Hm' & _ & Hst).
    cbn [mbind result_bind]. specialize (Hst T value HT).
    destruct (host_store T addr value (process m')), (host_store T addr value h); cbn in *; auto.
  - destruct Hop as [HT Ha]. unfold Direct.CompareExchange.
    pose proof (compare_exchange_rel spurious T addr old_value value m h HT Ha Hm) as Hr.
    destruct (mem_compare_exchange spurious T addr old_value value m) as [[[]]|],
      (host_compare_exchange_weak spurious T addr old_value value h) as [[[]]|];
      cbn in *; auto. by destruct Hr as (-> & -> & ?).
  - destruct (mem_flush_address_law addr m h Hop Hm) as (m' & -> & Hm' & _). done.
  - destruct (mem_flush_all_law m h Hm) as (m' & -> & Hm' & _). done.
Qed.

Lemma run_ops_rel ops : forall (m : M) (h : host),
  Forall op_ok ops -> mem_abs m h -> res_rel outcome (run_ops ops m) (run_ops ops h).
Proof.
  induction ops as [|op ops IH]; intros m h Hf Hm; [done|].
  apply Forall_cons in Hf as [Hop Hf]. cbn [run_ops].
  eapply res_rel_bind; [by apply run_op_rel|].
  intros [o1 m1] [o2 h1] [E Hm1]. cbn in E, Hm1. subst o2.
  eapply res_rel_bind; [by apply IH|].
  intros [o3 m2] [o4 h2] [E Hm2]. cbn in *. by subst o4.
Qed.
End Refinement.

(** The process memory the simulator starts with: bytes, mapped by whole words. *)
Definition process_ok (h : host) : Prop :=
  BufferedFacts.whole_words h /\ BufferedFacts.bytes_ok h.

Lemma initial_abs h :
  process_ok h -> BufferedFacts.abs (mkBuffered h []) h.
Proof.
  intros [Hw Hb]. split; [split|].
  - split; cbn; [constructor|constructor|done|done].
  - done.
  - intros a. done.
Qed.

(** ** The theorems *)

(** C4: The write buffer is invisible.  For process memory that is mapped by whole
    words, and operations of 8 to 64 bits of which the ordered loads and stores, the
    compare-exchanges and [FlushAddress] have addresses that are multiples of 8 (at
    the others [FlushAddress] does not find a buffered store): a program that uses
    [SimulatorMemory] makes the same observations (loaded values, outcomes of
    compare-exchange) in the same order, or stops with the same error, whether the
    stores are buffered or not; and after [FlushAll] the process memory is the same. *)
Theorem memory_transparent ops use_buffered h :
  process_ok h -> Forall op_ok ops ->
  res_rel (fun '(o1, m) '(o2, h') => o1 = o2 /\
      exists m', Sim.FlushAll m = Ok m' /\ backing (buffered_ m') = h')
    (run_ops ops (mkSimulatorMemory use_buffered (mkBuffered h [])))
    (run_ops ops h).
Proof.
  intros Hh Hf. eapply res_rel_mono.
  - apply run_ops_rel; [done|]. cbn. destruct use_buffered; [by apply initial_abs|done].
  - intros [o1 m] [o2 h'] [E Hm]. cbn in E. split; [done|].
    destruct (mem_flush_all_law m h' Hm) as (m' & Ef & _ & Ep). by exists m'.
Qed.

Lemma run_buffered_inv ops h o m :
  process_ok h -> Forall op_ok ops ->
  run_ops ops (mkBuffered h []) = Ok (o, m) -> BufferedFacts.inv m.
Proof.
  intros Hh Hf Hr.
  pose proof (run_ops_rel ops (mkBuffered h []) h Hf (initial_abs h Hh)) as Hrel.
  rewrite Hr in Hrel. destruct (run_ops ops h) as [[o2 h2]|]; cbn in Hrel; [|done].
  apply Hrel.
Qed.

(** The buffer between operations and after [FlushSome]. *)
Lemma buffer_kept ops h o m m1 h1 :
  process_ok h -> Forall op_ok ops ->
  run_ops ops (mkBuffered h []) = Ok (o, m) ->
  (Buffered.size_ m < Buffered.kCapacity /\
   NoDup (buffer m).*1 /\
   Forall (fun e => fst e mod 8 = 0 /\ mapped (backing m) (fst e) 8) (buffer m)) /\
  (BufferedFacts.wf m1 -> BufferedFacts.sees m1 h1 ->
   (buffer m1 <> [] -> 0 <= Buffered.victim m1 < Buffered.size_ m1) /\
   exists m2, Buffered.FlushSome m1 = Ok m2 /\ Buffered.size_ m2 <= Buffered.kCapacity / 2 /\
     BufferedFacts.wf m2 /\ BufferedFacts.sees m2 h1).
Proof.
  intros Hh Hf Hr. split.
  - destruct (run_buffered_inv _ _ _ _ Hh Hf Hr) as [[] Hz]. done.
  - intros Hw Hs. split; [apply BufferedFacts.victim_range|].
    destruct (BufferedFacts.flush_some_view (length (buffer m1)) m1 h1 Hw Hs) as (m2 & E & Hw' & Hs' & Hz); [done|].
    by exists m2.
Qed.

Lemma host_load_store_disjoint T1 T2 a1 a2 v h h' :
  ct_ok T1 -> ct_ok T2 -> host_store T1 a1 v h = Ok h' ->
  a1 + ct_sizeof T1 <= a2 \/ a2 + ct_sizeof T2 <= a1 ->
  host_load T2 a2 h' = host_load T2 a2 h.
Proof.
  intros HT1 HT2 Hst Hd. pose proof (ct_ok_sizeof T1 HT1) as [_ Hs].
  apply host_load_ext. intros i Hi.
  destruct (mapped_dec h a1 (ct_sizeof T1)) as [Hm|(j & Hj & Hn)].
  - destruct (host_store_lookup T1 a1 v h) as (h2 & E & Hl); [lia|done|].
    assert (h2 = h') as -> by congruence. by rewrite Hl, decide_False by lia.
  - destruct (host_store_fault T1 a1 v h j) as [x E]; [done..|congruence].
Qed.

Section Accesses.
Context {M : Type} `{MemoryLaws M}.

(** A load returns what was stored. *)
Lemma load_stored T1 T2 a1 a2 v (m m' : M) h :
  mem_abs m h -> ct_ok T1 -> ct_ok T2 ->
  mem_store T1 a1 v m = Ok m' ->
  (exists m2, mem_load T1 a1 m' = Ok (ct_cast T1 v, m2)) /\
  (a1 + ct_sizeof T1 <= a2 \/ a2 + ct_sizeof T2 <= a1 ->
   res_rel (fun x y => fst x = fst y) (mem_load T2 a2 m') (mem_load T2 a2 m)).
Proof.
  intros Hm HT1 HT2 Hst. pose proof (mem_store_law T1 a1 v m h HT1 Hm) as Hr.
  rewrite Hst in Hr. destruct (host_store T1 a1 v h) as [h'|] eqn:Eh; cbn in Hr; [|done].
  split.
  - pose proof (mem_load_law T1 a1 m' h' HT1 Hr) as L.
    rewrite (host_load_store T1 a1 v h h' HT1 Eh) in L.
    destruct (mem_load T1 a1 m') as [[x m2]|]; cbn in L; [|done].
    destruct L as [-> _]. by exists m2.
  - intros Hd. pose proof (mem_load_law T2 a2 m' h' HT2 Hr) as L1.
    pose proof (mem_load_law T2 a2 m h HT2 Hm) as L2.
    rewrite (host_load_store_disjoint T1 T2 a1 a2 v h h') in L1 by done.
    destruct (mem_load T2 a2 m') as [[]|], (mem_load T2 a2 m) as [[]|],
      (host_load T2 a2 h); cbn in *; try done.
    + by destruct L1 as [-> _], L2 as [-> _].
    + unfold err_rel in *. destruct L1 as [->|(?&?&->&->)], L2 as [->|(?&?&->&?)];
        eauto 6.
Qed.
End Accesses.

Lemma mapped_word h addr :
  process_ok h -> is_Some (h !! addr) -> mapped h (8 * (addr / 8)) 8.
Proof.
  intros [Hw _] Ha i Hi. apply (Hw addr); [|done]. Z.div_mod_to_equations; lia.
Qed.

(** [FlushAddress] compares the address of the access with the addresses of words. *)
Lemma ordered_load_misses h addr v old :
  process_ok h -> addr mod 8 = 4 -> host_load uint32_t addr h = Ok old ->
  exists m, Buffered.Store uint32_t addr v (mkBuffered h []) = Ok m /\
    Buffered.LoadOrdered uint32_t addr m = Ok (old, m).
Proof.
  intros Hh Ha Hl.
  assert (Hs : is_Some (h !! addr)).
  { destruct (h !! addr) eqn:E; [done|].
    destruct (host_load_fault uint32_t addr h 0) as [x Ex]; [done| |congruence].
    by rewrite Z.add_0_r. }
  destruct (BufferedFacts.load_word_bytes (8 * (addr / 8)) h) as (w & Ew & _);
    [by apply mapped_word|apply Hh|].
  eexists. unfold Buffered.Store.
  assert (Buffered.slow_path uint32_t addr = false) as ->.
  { unfold Buffered.slow_path. change (ct_sizeof uint32_t - 1) with (Z.ones 2).
    rewrite Z.land_ones by lia. change (2 ^ 2) with 4.
    replace (addr mod 4) with 0 by (Z.div_mod_to_equations; lia). done. }
  cbv zeta. rewrite BufferedFacts.word_addr. cbn [Buffered.find buffer length
    Buffered.find_from backing]. rewrite Ew. cbn [mbind result_bind].
  split; [reflexivity|]. unfold Buffered.LoadOrdered, Buffered.FlushAddress.
  cbn [buffer length app Buffered.FlushAddress_from lookup list_lookup].
  rewrite (proj2 (Z.eqb_neq _ _)) by (Z.div_mod_to_equations; lia).
  cbn [mbind result_bind backing]. by rewrite Hl.
Qed.

(** C33: The memories of the simulator.  For every memory a load after a store of the same
    type at the same address returns the value converted to the type, and a load that does
    not overlap the store returns what it returned before.  The ordered loads of the
    buffered memory do not keep this: [FlushAddress] compares the address of the access
    with the addresses of words, so that an ordered load of the upper half of a buffered
    word, as [lr.w] makes it, does not see the store that the program made there just
    before.  Between operations of any program the buffer has a free slot, so that
    [buffer_[size_]] is inside the array; it holds a word at most once, every entry is the
    address of an aligned word that the process maps.  In an operation, with the buffer
    full or not, [FlushSome] terminates with at most half of the capacity in use, every
    index it computes from the first entry's value is inside the buffer, and what the
    program sees does not change. *)
Theorem simulator_memories {M : Type} `{MemoryLaws M} :
  (forall T1 T2 a1 a2 v (m m' : M) h,
   mem_abs m h -> ct_ok T1 -> ct_ok T2 ->
   mem_store T1 a1 v m = Ok m' ->
   (exists m2, mem_load T1 a1 m' = Ok (ct_cast T1 v, m2)) /\
   (a1 + ct_sizeof T1 <= a2 \/ a2 + ct_sizeof T2 <= a1 ->
    res_rel (fun x y => fst x = fst y) (mem_load T2 a2 m') (mem_load T2 a2 m))) /\
  (forall h addr v old,
   process_ok h -> addr mod 8 = 4 -> host_load uint32_t addr h = Ok old ->
   exists m, Buffered.Store uint32_t addr v (mkBuffered h []) = Ok m /\
     Buffered.LoadOrdered uint32_t addr m = Ok (old, m)) /\
  (forall ops h o m m1 h1,
    process_ok h -> Forall op_ok ops ->
    run_ops ops (mkBuffered h []) = Ok (o, m) ->
    (Buffered.size_ m < Buffered.kCapacity /\
     NoDup (buffer m).*1 /\
     Forall (fun e => fst e mod 8 = 0 /\ mapped (backing m) (fst e) 8) (buffer m)) /\
    (BufferedFacts.wf m1 -> BufferedFacts.sees m1 h1 ->
     (buffer m1 <> [] -> 0 <= Buffered.victim m1 < Buffered.size_ m1) /\
     exists m2, Buffered.FlushSome m1 = Ok m2 /\ Buffered.size_ m2 <= Buffered.kCapacity / 2 /\
       BufferedFacts.wf m2 /\ BufferedFacts.sees m2 h1)).
Proof. split; [exact load_stored|]. split; [exact ordered_load_misses|exact buffer_kept]. Qed.

(** ** Concrete instances *)

(** [n] zero bytes from [lo]. *)
Definition blank (lo n : Z) : host := gset_to_gmap 0 (list_to_set (seqZ lo n)).

Lemma blank_lookup lo n a x : blank lo n !! a = Some x <-> lo <= a < lo + n /\ x = 0.
Proof.
  unfold blank. rewrite lookup_gset_to_gmap_Some, elem_of_list_to_set, elem_of_seqZ.
  intuition.
Qed.

Lemma blank_ok lo n : lo mod 8 = 0 -> n mod 8 = 0 -> process_ok (blank lo n).
Proof.
  intros Hlo Hn. split.
  - intros a b E [x Hx]. apply blank_lookup in Hx as [Hx _]. exists 0.
    apply blank_lookup. split; [|done]. Z.div_mod_to_equations; lia.
  - intros a b Hx. apply blank_lookup in Hx as [_ ->]. done.
Qed.

Definition example_ops : list memory_op :=
  [OpStore uint32_t 0x1004 7; OpStore uint64_t 0x1008 (-1); OpLoad uint64_t 0x1000;
   OpCompareExchange false uint64_t 0x1008 (2 ^ 64 - 1) 5; OpLoad uint16_t 0x1007;
   OpLoad uint64_t 0x1008].

Lemma example_ops_ok : Forall op_ok example_ops.
Proof. repeat (apply Forall_cons; split); unfold op_ok, ct_ok; cbn; auto 6. Qed.

(** The observations of a run. *)
Definition observed {M} (r : sim_result (list Z * M)) : option (list Z) :=
  match r with Ok (o, _) => Some o | Err _ => None end.

Definition example_observed : list Z := [7 * 2 ^ 32; 1; 2 ^ 64 - 1; 0x500; 5].

Lemma memory_transparent_witness :
  match run_ops example_ops (mkSimulatorMemory true (mkBuffered (blank 0x1000 32) [])),
    run_ops example_ops (blank 0x1000 32) with
  | Ok (o1, _), Ok (o2, _) => o1 = o2 /\ o2 = example_observed
  | _, _ => False
  end.
Proof.
  pose proof (memory_transparent example_ops true (blank 0x1000 32)
    (blank_ok 0x1000 32 eq_refl eq_refl) example_ops_ok) as Ht.
  assert (Ho : observed (run_ops example_ops (blank 0x1000 32)) = Some example_observed)
    by (vm_compute; reflexivity).
  destruct (run_ops example_ops (blank 0x1000 32)) as [[o2 h]|]; [|discriminate].
  destruct (run_ops example_ops (mkSimulatorMemory true _)) as [[o1 m]|]; [|done].
  destruct Ht as [-> _]. split; [reflexivity|]. by injection Ho.
Defined.

(** A buffer with nine entries. *)
Definition example_full : buffered :=
  mkBuffered (blank 0x1000 256)
    ((fun i => (0x1000 + 8 * i, 2 ^ 64 - 1 - i)) <$> seqZ 0 9).

Lemma example_full_wf : BufferedFacts.wf example_full.
Proof.
  destruct (blank_ok 0x1000 256) as [Hw Hb]; [done..|]. split; [| |done|done].
  - apply (bool_decide_eq_true_1 _). vm_compute. reflexivity.
  - apply Forall_fmap, Forall_forall. intros i Hi. apply elem_of_seqZ in Hi.
    split; cbn; [Z.div_mod_to_equations; lia|].
    intros j Hj. exists 0. apply blank_lookup. lia.
Qed.

Lemma simulator_memories_witness :
  (match Buffered.Store int16_t 0x1002 (-2) (mkBuffered (blank 0x1000 16) []) with
   | Ok m => exists m2, Buffered.Load int16_t 0x1002 m = Ok (-2, m2)
   | Err _ => False
   end /\
   exists m, Buffered.Store uint32_t 0x1004 7 (mkBuffered (blank 0x1000 8) []) = Ok m /\
     Buffered.LoadOrdered uint32_t 0x1004 m = Ok (0, m)) /\
  (match run_ops example_ops (mkBuffered (blank 0x1000 32) []) with
   | Ok (o, m) => o = example_observed /\ Buffered.size_ m < 16
   | Err _ => False
   end) /\
  (match Buffered.FlushSome example_full with
   | Ok m => Buffered.size_ m <= 8
   | Err _ => False
   end /\ 0 <= Buffered.victim example_full < 9).
Proof.
  destruct (simulator_memories (M := buffered)) as (Hplain & Hordered & Hbuffer). split.
  - split.
    * destruct (Buffered.Store int16_t 0x1002 (-2) (mkBuffered (blank 0x1000 16) []))
        as [m|] eqn:E; [|by vm_compute in E].
      exact (proj1 (Hplain int16_t int8_t 0x1002 0x1004 (-2)
        (mkBuffered (blank 0x1000 16) []) m (blank 0x1000 16)
        (initial_abs _ (blank_ok 0x1000 16 eq_refl eq_refl))
        (or_intror (or_introl eq_refl)) (or_introl eq_refl) E)).
    * apply (Hordered (blank 0x1000 8) 0x1004 7 0).
      -- exact (blank_ok 0x1000 8 eq_refl eq_refl).
      -- reflexivity.
      -- vm_compute. reflexivity.
  - assert (Ho : observed (run_ops example_ops (mkBuffered (blank 0x1000 32) []))
                 = Some example_observed) by (vm_compute; reflexivity).
    destruct (run_ops example_ops (mkBuffered (blank 0x1000 32) [])) as [[o m]|] eqn:E;
      [|discriminate].
    destruct (BufferedFacts.flush_entries_view (buffer example_full) (backing example_full))
      as (h & _ & Hv & _); [apply example_full_wf..|].
    destruct (Hbuffer example_ops (blank 0x1000 32) o m example_full h
      (blank_ok 0x1000 32 eq_refl eq_refl) example_ops_ok E) as [(Hsize & _) Hflush].
    destruct (Hflush example_full_wf Hv) as [Hr (m2 & E2 & Hz & _)].
    split; [split; [by injection Ho|exact Hsize]|]. rewrite E2. split; [exact Hz|]. by apply Hr.
Defined.
