(* ===== verification/RiscvSimulator.v ===== *)
(** * The RISC-V simulator: runtime/vm/simulator_riscv.{h,cc}

    [Simulator] as a record and one definition per function of the interpreter,
    for RISCV64 in a release build.  An [Interpret] function maps the state to
    the next one or to the error that stops the simulator.  The simulator is
    parametric in the memory it runs on ([MemoryOps]), which is
    [SimulatorMemory] in the code.

    C++ behaviour that the standard leaves undefined is an error of the model
    ([UndefinedShift], [SignedOverflow]).  The floating-point computations
    (FMADD and the rest of the opcode, OPFP) stop the model with
    [FloatingPoint]; loads and stores of floating-point registers move bit
    patterns and are modelled.  A call into the runtime ([ecall]) stops it with
    [HostCall] after the memory has been flushed. *)

From S2P Require Import Prelude Utils RiscvConstants RiscvEncoding SimMemory.

(** ** [Random] (runtime/vm/random.cc) *)

Module Random.

Definition NextState (state : Z) : Z :=
  let MASK_32 := 0xffffffff in
  let A := 0xffffda61 in
  let state_lo := state .& MASK_32 in
  let state_hi := (state ≫ 32) .& MASK_32 in
  u64 (A * state_lo + state_hi).

(** [NextUInt32]: the value and the state it leaves. *)
Definition NextUInt32 (state : Z) : Z * Z :=
  let state := NextState state in (state .& 0xffffffff, state).

(** [Initialize] cranks the state a couple of times. *)
Definition Initialize (seed : Z) : Z :=
  NextState (NextState (NextState (NextState seed))).

End Random.

(** ** Arithmetic of the instructions *)

Module Arith.

Definition mul (a b : Z) : Z := s64 (u64 (u64 a * u64 b)).

Definition kLoMask : Z := (1 ≪ (XLEN / 2)) - 1.
Definition kHiShift : Z := XLEN / 2.

(** Operands of mixed signedness are converted to [uintx_t]. *)
Definition mulh (a b : Z) : Z :=
  let a_lo := u64 a .& kLoMask in
  let a_hi := a ≫ kHiShift in
  let b_lo := u64 b .& kLoMask in
  let b_hi := b ≫ kHiShift in
  let x := u64 (a_lo * b_lo) in
  let y := s64 (u64 a_hi * b_lo) in
  let z := s64 (a_lo * u64 b_hi) in
  let w := a_hi * b_hi in
  let r0 := s64 ((x ≫ kHiShift) + u64 y) in
  let r1 := s64 ((u64 r0 .& kLoMask) + u64 z) in
  w + (r0 ≫ kHiShift) + (r1 ≫ kHiShift).

Definition mulhu (a b : Z) : Z :=
  let a_lo := a .& kLoMask in
  let a_hi := a ≫ kHiShift in
  let b_lo := b .& kLoMask in
  let b_hi := b ≫ kHiShift in
  let x := u64 (a_lo * b_lo) in
  let y := u64 (a_hi * b_lo) in
  let z := u64 (a_lo * b_hi) in
  let w := u64 (a_hi * b_hi) in
  let r0 := u64 ((x ≫ kHiShift) + y) in
  let r1 := u64 ((r0 .& kLoMask) + z) in
  u64 (w + (r0 ≫ kHiShift) + (r1 ≫ kHiShift)).

Definition mulhsu (a b : Z) : Z :=
  let a_lo := u64 a .& kLoMask in
  let a_hi := a ≫ kHiShift in
  let b_lo := b .& kLoMask in
  let b_hi := b ≫ kHiShift in
  let x := u64 (a_lo * b_lo) in
  let y := s64 (u64 a_hi * b_lo) in
  let z := u64 (a_lo * b_hi) in
  let w := s64 (u64 a_hi * b_hi) in
  let r0 := s64 ((x ≫ kHiShift) + u64 y) in
  let r1 := u64 ((u64 r0 .& kLoMask) + z) in
  u64 (w + (r0 ≫ kHiShift) + (r1 ≫ kHiShift)).

Definition div (a b : Z) : Z :=
  if b =? 0 then -1
  else if (b =? -1) && (a =? kMinIntX) then kMinIntX
  else Z.quot a b.

Definition divu (a b : Z) : Z := if b =? 0 then kMaxUIntX else a / b.

Definition rem (a b : Z) : Z :=
  if b =? 0 then a
  else if (b =? -1) && (a =? kMinIntX) then 0
  else Z.rem a b.

Definition remu (a b : Z) : Z := if b =? 0 then a else a mod b.

Definition kMinInt32 : Z := - 2 ^ 31.
Definition kMaxUint32 : Z := 2 ^ 32 - 1.

(** A product of [int32_t]s that does not fit is undefined behaviour. *)
Definition mulw (a b : Z) : sim_result Z :=
  if (- 2 ^ 31 <=? a * b) && (a * b <? 2 ^ 31) then Ok (a * b)
  else Err (SignedOverflow (a * b)).

Definition divw (a b : Z) : Z :=
  if b =? 0 then -1
  else if (b =? -1) && (a =? kMinInt32) then kMinInt32
  else Z.quot a b.

Definition divuw (a b : Z) : Z := if b =? 0 then kMaxUint32 else a / b.

Definition remw (a b : Z) : Z :=
  if b =? 0 then a
  else if (b =? -1) && (a =? kMinInt32) then 0
  else Z.rem a b.

Definition remuw (a b : Z) : Z := if b =? 0 then a else a mod b.

(** [for (bit = n - 1; bit >= 0; bit--)] of [clz] at width [w]. *)
Fixpoint clz_from (w : Z) (n : nat) (a : Z) : Z :=
  match n with
  | O => w
  | S n =>
      let bit := Z.of_nat n in
      if negb (a .& (1 ≪ bit) =? 0) then w - bit - 1 else clz_from w n a
  end.
Definition clz (a : Z) : Z := clz_from XLEN 64 a.
Definition clzw (a : Z) : Z := clz_from 32 32 a.

(** [for (bit = w - n; bit < w; bit++)] of [ctz]. *)
Fixpoint ctz_from (w : Z) (n : nat) (a : Z) : Z :=
  match n with
  | O => w
  | S n' =>
      let bit := w - Z.of_nat n in
      if negb (a .& (1 ≪ bit) =? 0) then bit else ctz_from w n' a
  end.
Definition ctz (a : Z) : Z := ctz_from XLEN 64 a.
Definition ctzw (a : Z) : Z := ctz_from 32 32 a.

Definition cpop_loop (w a : Z) : Z :=
  fold_left (fun count bit =>
    if negb (a .& (1 ≪ bit) =? 0) then count + 1 else count) (seqZ 0 w) 0.
Definition cpop (a : Z) : Z := cpop_loop XLEN a.
Definition cpopw (a : Z) : Z := cpop_loop 32 a.

Definition max (a b : Z) : Z := if b <? a then a else b.
Definition maxu (a b : Z) : Z := if b <? a then a else b.
Definition min (a b : Z) : Z := if a <? b then a else b.
Definition minu (a b : Z) : Z := if a <? b then a else b.

Definition clmul (a b : Z) : Z :=
  fold_left (fun result bit =>
    if negb ((b ≫ bit) .& 1 =? 0) then result .^ u64 (a ≪ bit) else result)
    (seqZ 0 XLEN) 0.
Definition clmulh (a b : Z) : Z :=
  fold_left (fun result bit =>
    if negb ((b ≫ bit) .& 1 =? 0) then result .^ (a ≫ (XLEN - bit)) else result)
    (seqZ 1 (XLEN - 1)) 0.
Definition clmulr (a b : Z) : Z :=
  fold_left (fun result bit =>
    if negb ((b ≫ bit) .& 1 =? 0) then result .^ (a ≫ (XLEN - bit - 1)) else result)
    (seqZ 0 XLEN) 0.

(** The sign extensions return [uintx_t]. *)
Definition sextb (a : Z) : Z := u64 (s64 (u64 (a ≪ (XLEN - 8))) ≫ (XLEN - 8)).
Definition zextb (a : Z) : Z := u64 (a ≪ (XLEN - 8)) ≫ (XLEN - 8).
Definition sexth (a : Z) : Z := u64 (s64 (u64 (a ≪ (XLEN - 16))) ≫ (XLEN - 16)).
Definition zexth (a : Z) : Z := u64 (a ≪ (XLEN - 16)) ≫ (XLEN - 16).
Definition zextw (a : Z) : Z := u64 (a ≪ (XLEN - 32)) ≫ (XLEN - 32).

Definition ror (a b : Z) : Z :=
  let r := b .& (XLEN - 1) in
  let l := (XLEN - r) .& (XLEN - 1) in
  u64 (a ≪ l) .| (a ≫ r).
Definition rol (a b : Z) : Z :=
  let l := b .& (XLEN - 1) in
  let r := (XLEN - l) .& (XLEN - 1) in
  u64 (a ≪ l) .| (a ≫ r).

(** C++ shifts of a 32-bit operand; a shift by 32 or more is undefined. *)
Definition shl32 (a b : Z) : sim_result Z :=
  if b <? 32 then Ok (u32 (a ≪ b)) else Err (UndefinedShift b).
Definition shr32 (a b : Z) : sim_result Z :=
  if b <? 32 then Ok (a ≫ b) else Err (UndefinedShift b).

Definition rorw (a b : Z) : sim_result Z :=
  let r := b .& (XLEN - 1) in
  let l := (XLEN - r) .& (XLEN - 1) in
  let x := u32 a in
  hi ← shl32 x l;
  lo ← shr32 x r;
  Ok (sign_extend 32 (hi .| lo)).
Definition rolw (a b : Z) : sim_result Z :=
  let l := b .& (XLEN - 1) in
  let r := (XLEN - l) .& (XLEN - 1) in
  let x := u32 a in
  hi ← shl32 x l;
  lo ← shr32 x r;
  Ok (sign_extend 32 (hi .| lo)).

(** [for (shift = 0; shift < XLEN; shift += 8)]. *)
Definition byte_shifts : list Z := [0; 8; 16; 24; 32; 40; 48; 56].

Definition orcb (a : Z) : Z :=
  fold_left (fun result shift =>
    if negb ((a ≫ shift) .& 0xFF =? 0) then result .| u64 (0xFF ≪ shift) else result)
    byte_shifts 0.
Definition rev8 (a : Z) : Z :=
  fold_left (fun result shift => u64 (result ≪ 8) .| ((a ≫ shift) .& 0xFF))
    byte_shifts 0.

Definition bclr (a b : Z) : Z := a .& u64 (Z.lnot (1 ≪ (b .& (XLEN - 1)))).
Definition bext (a b : Z) : Z := (a ≫ (b .& (XLEN - 1))) .& 1.
Definition binv (a b : Z) : Z := a .^ (1 ≪ (b .& (XLEN - 1))).
Definition bset (a b : Z) : Z := a .| (1 ≪ (b .& (XLEN - 1))).

End Arith.

(** ** The state of the simulator *)

Record Simulator (M : Type) := mkSimulator {
  pc_ : Z;
  xregs_ : list Z;               (* 32 registers of type [uintx_t] *)
  instret_ : Z;
  reserved_address_ : Z;
  reserved_value_ : Z;
  fregs_ : list Z;               (* 32 bit patterns of [double]s *)
  fcsr_ : Z;
  random_ : Z;                   (* the state of [Random] *)
  memory_ : M;
  (** The outcomes of the compare-exchange instructions of the host to come:
      [true] is a spurious failure; beyond the list there are none. *)
  weak_failures : list bool
}.
Arguments mkSimulator {M}.
Arguments pc_ {M}.
Arguments xregs_ {M}.
Arguments instret_ {M}.
Arguments reserved_address_ {M}.
Arguments reserved_value_ {M}.
Arguments fregs_ {M}.
Arguments fcsr_ {M}.
Arguments random_ {M}.
Arguments memory_ {M}.
Arguments weak_failures {M}.

Definition kEndSimulatingPC : Z := u64 (-2).
Definition kNaNBox : Z := 0xFFFFFFFF00000000.

Section Simulator.
Context {M : Type} `{MemoryOps M}.
Implicit Types (s : Simulator M) (m : M).

Definition set_pc (v : Z) s : Simulator M :=
  mkSimulator v (xregs_ s) (instret_ s) (reserved_address_ s) (reserved_value_ s)
    (fregs_ s) (fcsr_ s) (random_ s) (memory_ s) (weak_failures s).
Definition set_xregs (v : list Z) s : Simulator M :=
  mkSimulator (pc_ s) v (instret_ s) (reserved_address_ s) (reserved_value_ s)
    (fregs_ s) (fcsr_ s) (random_ s) (memory_ s) (weak_failures s).
Definition set_instret (v : Z) s : Simulator M :=
  mkSimulator (pc_ s) (xregs_ s) v (reserved_address_ s) (reserved_value_ s)
    (fregs_ s) (fcsr_ s) (random_ s) (memory_ s) (weak_failures s).
Definition set_reserved (addr v : Z) s : Simulator M :=
  mkSimulator (pc_ s) (xregs_ s) (instret_ s) addr v
    (fregs_ s) (fcsr_ s) (random_ s) (memory_ s) (weak_failures s).
Definition set_fregs_ (v : list Z) s : Simulator M :=
  mkSimulator (pc_ s) (xregs_ s) (instret_ s) (reserved_address_ s) (reserved_value_ s)
    v (fcsr_ s) (random_ s) (memory_ s) (weak_failures s).
Definition set_random (v : Z) s : Simulator M :=
  mkSimulator (pc_ s) (xregs_ s) (instret_ s) (reserved_address_ s) (reserved_value_ s)
    (fregs_ s) (fcsr_ s) v (memory_ s) (weak_failures s).
Definition set_memory (v : M) s : Simulator M :=
  mkSimulator (pc_ s) (xregs_ s) (instret_ s) (reserved_address_ s) (reserved_value_ s)
    (fregs_ s) (fcsr_ s) (random_ s) v (weak_failures s).
Definition set_weak_failures (v : list bool) s : Simulator M :=
  mkSimulator (pc_ s) (xregs_ s) (instret_ s) (reserved_address_ s) (reserved_value_ s)
    (fregs_ s) (fcsr_ s) (random_ s) (memory_ s) v.

(** ** Registers *)

Definition get_xreg (rs : Z) s : Z := xregs_ s !!! Z.to_nat rs.
(** A register holds a [uintx_t]; signed values are converted. *)
Definition set_xreg (rd value : Z) s : Simulator M :=
  if rd =? Register.ZR then s
  else set_xregs (<[Z.to_nat rd := u64 value]> (xregs_ s)) s.

(** [get_xreg] converted to [intx_t]. *)
Definition get_xreg_signed (rs : Z) s : Z := s64 (get_xreg rs s).

Definition get_fregd (rs : Z) s : Z := fregs_ s !!! Z.to_nat rs.
Definition set_fregd (rd value : Z) s : Simulator M :=
  set_fregs_ (<[Z.to_nat rd := u64 value]> (fregs_ s)) s.
(** A [float] is its 32-bit pattern, boxed in the register. *)
Definition get_fregs (rs : Z) s : Z :=
  let bits64 := get_fregd rs s in
  if negb (bits64 .& kNaNBox =? kNaNBox) then 0x7fc00000 else u32 bits64.
Definition set_fregs (rd value : Z) s : Simulator M :=
  set_fregd rd (u32 value .| kNaNBox) s.

(** [pc_ += offset]. *)
Definition add_pc (offset : Z) s : Simulator M := set_pc (u64 (pc_ s + offset)) s.

(** [Instr::length] and [CInstr::length]. *)
Definition kInstrSize : Z := 4.
Definition kCInstrSize : Z := 2.

(** ** Memory *)

Definition MemoryRead (T : ctype) (addr : Z) s : sim_result (Z * Simulator M) :=
  '(v, m) ← mem_load T addr (memory_ s); Ok (v, set_memory m s).
Definition MemoryWrite (T : ctype) (addr value : Z) s : sim_result (Simulator M) :=
  m ← mem_store T addr (ct_cast T value) (memory_ s); Ok (set_memory m s).

(** [set_xreg(rd, MemoryRead<T>(addr, base))]. *)
Definition load_xreg (T : ctype) (rd addr : Z) s : sim_result (Simulator M) :=
  '(v, s) ← MemoryRead T addr s; Ok (set_xreg rd v s).

(** [float] and [double] accesses move 32 and 64 bits. *)
Definition load_fregs (rd addr : Z) s : sim_result (Simulator M) :=
  '(v, s) ← MemoryRead uint32_t addr s; Ok (set_fregs rd v s).
Definition load_fregd (rd addr : Z) s : sim_result (Simulator M) :=
  '(v, s) ← MemoryRead uint64_t addr s; Ok (set_fregd rd v s).

(** ** 32-bit instructions

    An instruction is its encoding; the accessors of [Instr] are decoders. *)

Abbreviation rd := DecodeRd.
Abbreviation rs1 := DecodeRs1.
Abbreviation rs2 := DecodeRs2.

Definition InterpretLUI (instr : Z) s : sim_result (Simulator M) :=
  let s := set_xreg (rd instr) (sign_extend 64 (DecodeUTypeImm instr)) s in
  Ok (add_pc kInstrSize s).

Definition InterpretAUIPC (instr : Z) s : sim_result (Simulator M) :=
  let s := set_xreg (rd instr) (pc_ s + sign_extend 64 (DecodeUTypeImm instr)) s in
  Ok (add_pc kInstrSize s).

Definition InterpretJAL (instr : Z) s : sim_result (Simulator M) :=
  let s := set_xreg (rd instr) (pc_ s + kInstrSize) s in
  Ok (add_pc (sign_extend 64 (DecodeJTypeImm instr)) s).

Definition InterpretJALR (instr : Z) s : sim_result (Simulator M) :=
  let base := get_xreg (rs1 instr) s in
  let offset := u64 (DecodeITypeImm instr) in
  let s := set_xreg (rd instr) (pc_ s + kInstrSize) s in
  Ok (set_pc (u64 (base + offset)) s).

(** The common shape of the cases of [InterpretBRANCH]. *)
Definition branch_if (taken : bool) (instr : Z) s : sim_result (Simulator M) :=
  if taken then Ok (add_pc (DecodeBTypeImm instr) s) else Ok (add_pc kInstrSize s).

Definition InterpretBRANCH (instr : Z) s : sim_result (Simulator M) :=
  let f := DecodeFunct3 instr in
  let a := get_xreg (rs1 instr) s in
  let b := get_xreg (rs2 instr) s in
  if f =? Funct3.BEQ then branch_if (a =? b) instr s
  else if f =? Funct3.BNE then branch_if (negb (a =? b)) instr s
  else if f =? Funct3.BLT then branch_if (s64 a <? s64 b) instr s
  else if f =? Funct3.BGE then branch_if (s64 b <=? s64 a) instr s
  else if f =? Funct3.BLTU then branch_if (a <? b) instr s
  else if f =? Funct3.BGEU then branch_if (b <=? a) instr s
  else Err (IllegalInstruction instr).

Definition InterpretLOAD (instr : Z) s : sim_result (Simulator M) :=
  let addr := u64 (get_xreg (rs1 instr) s + DecodeITypeImm instr) in
  let f := DecodeFunct3 instr in
  s ← (if f =? Funct3.LB then load_xreg int8_t (rd instr) addr s
       else if f =? Funct3.LH then load_xreg int16_t (rd instr) addr s
       else if f =? Funct3.LW then load_xreg int32_t (rd instr) addr s
       else if f =? Funct3.LBU then load_xreg uint8_t (rd instr) addr s
       else if f =? Funct3.LHU then load_xreg uint16_t (rd instr) addr s
       else if f =? Funct3.LWU then load_xreg uint32_t (rd instr) addr s
       else if f =? Funct3.LD then load_xreg int64_t (rd instr) addr s
       else Err (IllegalInstruction instr));
  Ok (add_pc kInstrSize s).

Definition InterpretLOADFP (instr : Z) s : sim_result (Simulator M) :=
  let addr := u64 (get_xreg (rs1 instr) s + DecodeITypeImm instr) in
  let f := DecodeFunct3 instr in
  s ← (if f =? Funct3.S then load_fregs (DecodeFRd instr) addr s
       else if f =? Funct3.D then load_fregd (DecodeFRd instr) addr s
       else Err (IllegalInstruction instr));
  Ok (add_pc kInstrSize s).

Definition InterpretSTORE (instr : Z) s : sim_result (Simulator M) :=
  let addr := u64 (get_xreg (rs1 instr) s + DecodeSTypeImm instr) in
  let f := DecodeFunct3 instr in
  let v := get_xreg (rs2 instr) s in
  s ← (if f =? Funct3.SB then MemoryWrite uint8_t addr v s
       else if f =? Funct3.SH then MemoryWrite uint16_t addr v s
       else if f =? Funct3.SW then MemoryWrite uint32_t addr v s
       else if f =? Funct3.SD then MemoryWrite uint64_t addr v s
       else Err (IllegalInstruction instr));
  Ok (add_pc kInstrSize s).

Definition InterpretSTOREFP (instr : Z) s : sim_result (Simulator M) :=
  let addr := u64 (get_xreg (rs1 instr) s + DecodeSTypeImm instr) in
  let f := DecodeFunct3 instr in
  s ← (if f =? Funct3.S
       then MemoryWrite uint32_t addr (get_fregs (DecodeFRs2 instr) s) s
       else if f =? Funct3.D
       then MemoryWrite uint64_t addr (get_fregd (DecodeFRs2 instr) s) s
       else Err (IllegalInstruction instr));
  Ok (add_pc kInstrSize s).

(** The conditional expression [c ? 1 : 0]. *)
Definition of_bool (c : bool) : Z := if c then 1 else 0.

Definition InterpretOPIMM (instr : Z) s : sim_result (Simulator M) :=
  let f := DecodeFunct3 instr in
  let f7 := DecodeFunct7 instr in
  let imm := DecodeITypeImm instr in
  let shamt := DecodeShamt instr in
  let a := get_xreg (rs1 instr) s in
  v ← (if f =? Funct3.ADDI then Ok (a + imm)
       else if f =? Funct3.SLTI then Ok (of_bool (s64 a <? imm))
       else if f =? Funct3.SLTIU then Ok (of_bool (a <? u64 imm))
       else if f =? Funct3.XORI then Ok (a .^ u64 imm)
       else if f =? Funct3.ORI then Ok (a .| u64 imm)
       else if f =? Funct3.ANDI then Ok (a .& u64 imm)
       else if f =? Funct3.SLLI then
         if f7 =? Funct7.COUNT then
           if shamt =? 0x0 then Ok (Arith.clz a)
           else if shamt =? 0x1 then Ok (Arith.ctz a)
           else if shamt =? 0x2 then Ok (Arith.cpop a)
           else if shamt =? 0x4 then Ok (Arith.sextb a)
           else if shamt =? 0x5 then Ok (Arith.sexth a)
           else Err (IllegalInstruction instr)
         else if f7 .& 0x7e =? Funct7.BCLRBEXT then Ok (Arith.bclr a shamt)
         else if f7 .& 0x7e =? Funct7.BINV then Ok (Arith.binv a shamt)
         else if f7 .& 0x7e =? Funct7.BSET then Ok (Arith.bset a shamt)
         else Ok (a ≪ shamt)
       else if f =? Funct3.SRI then
         if f7 .& 0x7e =? Funct7.SRA then Ok (s64 a ≫ shamt)
         else if f7 .& 0x7e =? Funct7.ROTATE then Ok (Arith.ror a shamt)
         else if f7 =? 0x14 then Ok (Arith.orcb a)
         else if f7 =? 0x35 then Ok (Arith.rev8 a)
         else if f7 .& 0x7e =? Funct7.BCLRBEXT then Ok (Arith.bext a shamt)
         else Ok (a ≫ shamt)
       else Err (IllegalInstruction instr));
  Ok (add_pc kInstrSize (set_xreg (rd instr) v s)).

Definition InterpretOPIMM32 (instr : Z) s : sim_result (Simulator M) :=
  let f := DecodeFunct3 instr in
  let f7 := DecodeFunct7 instr in
  let shamt := DecodeShamt instr in
  let x := get_xreg (rs1 instr) s in
  v ← (if f =? Funct3.ADDI then
         let a := u32 x in
         let b := u32 (DecodeITypeImm instr) in
         Ok (sign_extend 32 (u32 (a + b)))
       else if f =? Funct3.SLLI then
         if f7 =? Funct7.SLLIUW then Ok (u32 x ≪ shamt)
         else if f7 =? Funct7.COUNT then
           if shamt =? 0x0 then Ok (Arith.clzw (u32 x))
           else if shamt =? 0x1 then Ok (Arith.ctzw (u32 x))
           else if shamt =? 0x2 then Ok (Arith.cpopw (u32 x))
           else Err (IllegalInstruction instr)
         else r ← Arith.shl32 (u32 x) shamt; Ok (sign_extend 32 r)
       else if f =? Funct3.SRI then
         if f7 =? Funct7.SRA then r ← Arith.shr32 (s32 x) shamt; Ok (sign_extend 32 r)
         else if f7 =? Funct7.ROTATE then Arith.rorw x shamt
         else r ← Arith.shr32 (u32 x) shamt; Ok (sign_extend 32 r)
       else Err (IllegalInstruction instr));
  Ok (add_pc kInstrSize (set_xreg (rd instr) v s)).

(** ** Register-register instructions *)

Definition InterpretOP_0 (instr : Z) s : sim_result (Simulator M) :=
  let f := DecodeFunct3 instr in
  let a := get_xreg (rs1 instr) s in
  let b := get_xreg (rs2 instr) s in
  let shamt := b .& (XLEN - 1) in
  v ← (if f =? Funct3.ADD then Ok (a + b)
       else if f =? Funct3.SLL then Ok (a ≪ shamt)
       else if f =? Funct3.SLT then Ok (of_bool (s64 a <? s64 b))
       else if f =? Funct3.SLTU then Ok (of_bool (a <? b))
       else if f =? Funct3.XOR then Ok (a .^ b)
       else if f =? Funct3.SR then Ok (a ≫ shamt)
       else if f =? Funct3.OR then Ok (a .| b)
       else if f =? Funct3.AND then Ok (a .& b)
       else Err (IllegalInstruction instr));
  Ok (add_pc kInstrSize (set_xreg (rd instr) v s)).

Definition InterpretOP_MULDIV (instr : Z) s : sim_result (Simulator M) :=
  let f := DecodeFunct3 instr in
  let a := get_xreg (rs1 instr) s in
  let b := get_xreg (rs2 instr) s in
  v ← (if f =? Funct3.MUL then Ok (Arith.mul (s64 a) (s64 b))
       else if f =? Funct3.MULH then Ok (Arith.mulh (s64 a) (s64 b))
       else if f =? Funct3.MULHSU then Ok (Arith.mulhsu (s64 a) b)
       else if f =? Funct3.MULHU then Ok (Arith.mulhu a b)
       else if f =? Funct3.DIV then Ok (Arith.div (s64 a) (s64 b))
       else if f =? Funct3.DIVU then Ok (Arith.divu a b)
       else if f =? Funct3.REM then Ok (Arith.rem (s64 a) (s64 b))
       else if f =? Funct3.REMU then Ok (Arith.remu a b)
       else Err (IllegalInstruction instr));
  Ok (add_pc kInstrSize (set_xreg (rd instr) v s)).

Definition InterpretOP_SUB (instr : Z) s : sim_result (Simulator M) :=
  let f := DecodeFunct3 instr in
  let a := get_xreg (rs1 instr) s in
  let b := get_xreg (rs2 instr) s in
  let shamt := b .& (XLEN - 1) in
  v ← (if f =? Funct3.ADD then Ok (a - b)
       else if f =? Funct3.SR then Ok (s64 a ≫ shamt)
       else if f =? Funct3.AND then Ok (a .& u64 (Z.lnot b))
       else if f =? Funct3.OR then Ok (a .| u64 (Z.lnot b))
       else if f =? Funct3.XOR then Ok (a .^ u64 (Z.lnot b))
       else Err (IllegalInstruction instr));
  Ok (add_pc kInstrSize (set_xreg (rd instr) v s)).

Definition InterpretOP_SHADD (instr : Z) s : sim_result (Simulator M) :=
  let f := DecodeFunct3 instr in
  let a := get_xreg (rs1 instr) s in
  let b := get_xreg (rs2 instr) s in
  v ← (if f =? Funct3.SH1ADD then Ok (u64 (a ≪ 1) + b)
       else if f =? Funct3.SH2ADD then Ok (u64 (a ≪ 2) + b)
       else if f =? Funct3.SH3ADD then Ok (u64 (a ≪ 3) + b)
       else Err (IllegalInstruction instr));
  Ok (add_pc kInstrSize (set_xreg (rd instr) v s)).

Definition InterpretOP_MINMAXCLMUL (instr : Z) s : sim_result (Simulator M) :=
  let f := DecodeFunct3 instr in
  let a := get_xreg (rs1 instr) s in
  let b := get_xreg (rs2 instr) s in
  v ← (if f =? Funct3.MAX then Ok (Arith.max (s64 a) (s64 b))
       else if f =? Funct3.MAXU then Ok (Arith.maxu a b)
       else if f =? Funct3.MIN then Ok (Arith.min (s64 a) (s64 b))
       else if f =? Funct3.MINU then Ok (Arith.minu a b)
       else if f =? Funct3.CLMUL then Ok (Arith.clmul a b)
       else if f =? Funct3.CLMULH then Ok (Arith.clmulh a b)
       else if f =? Funct3.CLMULR then Ok (Arith.clmulr a b)
       else Err (IllegalInstruction instr));
  Ok (add_pc kInstrSize (set_xreg (rd instr) v s)).

Definition InterpretOP_ROTATE (instr : Z) s : sim_result (Simulator M) :=
  let f := DecodeFunct3 instr in
  let a := get_xreg (rs1 instr) s in
  let b := get_xreg (rs2 instr) s in
  v ← (if f =? Funct3.ROR then Ok (Arith.ror a b)
       else if f =? Funct3.ROL then Ok (Arith.rol a b)
       else Err (IllegalInstruction instr));
  Ok (add_pc kInstrSize (set_xreg (rd instr) v s)).

Definition InterpretOP_BCLRBEXT (instr : Z) s : sim_result (Simulator M) :=
  let f := DecodeFunct3 instr in
  let a := get_xreg (rs1 instr) s in
  let b := get_xreg (rs2 instr) s in
  v ← (if f =? Funct3.BCLR then Ok (Arith.bclr a b)
       else if f =? Funct3.BEXT then Ok (Arith.bext a b)
       else Err (IllegalInstruction instr));
  Ok (add_pc kInstrSize (set_xreg (rd instr) v s)).

Definition InterpretOP_CZERO (instr : Z) s : sim_result (Simulator M) :=
  let f := DecodeFunct3 instr in
  let a := get_xreg (rs1 instr) s in
  let b := get_xreg (rs2 instr) s in
  v ← (if f =? Funct3.CZEROEQZ then Ok (if b =? 0 then 0 else a)
       else if f =? Funct3.CZERONEZ then Ok (if negb (b =? 0) then 0 else a)
       else Err (IllegalInstruction instr));
  Ok (add_pc kInstrSize (set_xreg (rd instr) v s)).

Definition InterpretOP (instr : Z) s : sim_result (Simulator M) :=
  let f7 := DecodeFunct7 instr in
  let a := get_xreg (rs1 instr) s in
  let b := get_xreg (rs2 instr) s in
  if f7 =? 0 then InterpretOP_0 instr s
  else if f7 =? Funct7.SUB then InterpretOP_SUB instr s
  else if f7 =? Funct7.MULDIV then InterpretOP_MULDIV instr s
  else if f7 =? Funct7.SHADD then InterpretOP_SHADD instr s
  else if f7 =? Funct7.MINMAXCLMUL then InterpretOP_MINMAXCLMUL instr s
  else if f7 =? Funct7.ROTATE then InterpretOP_ROTATE instr s
  else if f7 =? Funct7.BCLRBEXT then InterpretOP_BCLRBEXT instr s
  else if f7 =? Funct7.BINV then
    Ok (add_pc kInstrSize (set_xreg (rd instr) (Arith.binv a b) s))
  else if f7 =? Funct7.BSET then
    Ok (add_pc kInstrSize (set_xreg (rd instr) (Arith.bset a b) s))
  else if f7 =? Funct7.CZERO then InterpretOP_CZERO instr s
  else Err (IllegalInstruction instr).

Definition InterpretOP32_0 (instr : Z) s : sim_result (Simulator M) :=
  let f := DecodeFunct3 instr in
  let a := u32 (get_xreg (rs1 instr) s) in
  let y := get_xreg (rs2 instr) s in
  v ← (if f =? Funct3.ADD then Ok (sign_extend 32 (u32 (a + u32 y)))
       else if f =? Funct3.SLL then
         r ← Arith.shl32 a (u32 (y .& (32 - 1))); Ok (sign_extend 32 r)
       else if f =? Funct3.SR then
         r ← Arith.shr32 a (u32 (y .& (32 - 1))); Ok (sign_extend 32 r)
       else Err (IllegalInstruction instr));
  Ok (add_pc kInstrSize (set_xreg (rd instr) v s)).

Definition InterpretOP32_SUB (instr : Z) s : sim_result (Simulator M) :=
  let f := DecodeFunct3 instr in
  let x := get_xreg (rs1 instr) s in
  let y := get_xreg (rs2 instr) s in
  v ← (if f =? Funct3.ADD then Ok (sign_extend 32 (u32 (u32 x - u32 y)))
       else if f =? Funct3.SR then
         r ← Arith.shr32 (s32 x) (u32 (y .& (32 - 1))); Ok (sign_extend 32 r)
       else Err (IllegalInstruction instr));
  Ok (add_pc kInstrSize (set_xreg (rd instr) v s)).

Definition InterpretOP32_MULDIV (instr : Z) s : sim_result (Simulator M) :=
  let f := DecodeFunct3 instr in
  let x := get_xreg (rs1 instr) s in
  let y := get_xreg (rs2 instr) s in
  v ← (if f =? Funct3.MULW then
         r ← Arith.mulw (s32 x) (s32 y); Ok (sign_extend 32 r)
       else if f =? Funct3.DIVW then Ok (sign_extend 32 (Arith.divw (s32 x) (s32 y)))
       else if f =? Funct3.DIVUW then Ok (sign_extend 32 (Arith.divuw (u32 x) (u32 y)))
       else if f =? Funct3.REMW then Ok (sign_extend 32 (Arith.remw (s32 x) (s32 y)))
       else if f =? Funct3.REMUW then Ok (sign_extend 32 (Arith.remuw (u32 x) (u32 y)))
       else Err (IllegalInstruction instr));
  Ok (add_pc kInstrSize (set_xreg (rd instr) v s)).

Definition InterpretOP32_SHADD (instr : Z) s : sim_result (Simulator M) :=
  let f := DecodeFunct3 instr in
  let a := u32 (get_xreg (rs1 instr) s) in
  let b := get_xreg (rs2 instr) s in
  v ← (if f =? Funct3.SH1ADD then Ok (u64 (a ≪ 1) + b)
       else if f =? Funct3.SH2ADD then Ok (u64 (a ≪ 2) + b)
       else if f =? Funct3.SH3ADD then Ok (u64 (a ≪ 3) + b)
       else Err (IllegalInstruction instr));
  Ok (add_pc kInstrSize (set_xreg (rd instr) v s)).

Definition InterpretOP32_ADDUW (instr : Z) s : sim_result (Simulator M) :=
  let f := DecodeFunct3 instr in
  let x := get_xreg (rs1 instr) s in
  let b := get_xreg (rs2 instr) s in
  v ← (if f =? Funct3.F3_0 then Ok (u32 x + b)
       else if f =? Funct3.ZEXT then Ok (Arith.zexth x)
       else Err (IllegalInstruction instr));
  Ok (add_pc kInstrSize (set_xreg (rd instr) v s)).

Definition InterpretOP32_ROTATE (instr : Z) s : sim_result (Simulator M) :=
  let f := DecodeFunct3 instr in
  let a := get_xreg (rs1 instr) s in
  let b := get_xreg (rs2 instr) s in
  v ← (if f =? Funct3.ROR then Arith.rorw a b
       else if f =? Funct3.ROL then Arith.rolw a b
       else Err (IllegalInstruction instr));
  Ok (add_pc kInstrSize (set_xreg (rd instr) v s)).

Definition InterpretOP32 (instr : Z) s : sim_result (Simulator M) :=
  let f7 := DecodeFunct7 instr in
  if f7 =? 0 then InterpretOP32_0 instr s
  else if f7 =? Funct7.SUB then InterpretOP32_SUB instr s
  else if f7 =? Funct7.MULDIV then InterpretOP32_MULDIV instr s
  else if f7 =? Funct7.SHADD then InterpretOP32_SHADD instr s
  else if f7 =? Funct7.ADDUW then InterpretOP32_ADDUW instr s
  else if f7 =? Funct7.ROTATE then InterpretOP32_ROTATE instr s
  else Err (IllegalInstruction instr).

(** ** Fences, system instructions and control registers *)

Definition flush_all s : sim_result (Simulator M) :=
  m ← mem_flush_all (memory_ s); Ok (set_memory m s).

Definition InterpretMISCMEM (instr : Z) s : sim_result (Simulator M) :=
  let f := DecodeFunct3 instr in
  s ← (if f =? Funct3.FENCE then flush_all s
       else if f =? Funct3.FENCEI then Ok s
       else Err (IllegalInstruction instr));
  Ok (add_pc kInstrSize s).

(** [enum ControlStatusRegister]. *)
Definition csr_fcsr : Z := 0x003.
Definition csr_cycle : Z := 0xC00.
Definition csr_time : Z := 0xC01.
Definition csr_instret : Z := 0xC02.

Definition CSRRead (csr : Z) s : sim_result Z :=
  if csr =? csr_fcsr then Ok (fcsr_ s)
  else if csr =? csr_cycle then Ok (instret_ s / 2)
  else if csr =? csr_time then Ok 0
  else if csr =? csr_instret then Ok (instret_ s)
  else Err (UnknownCSR csr).
Definition CSRWrite (csr value : Z) s : sim_result (Simulator M) := Err Unimplemented.
Definition CSRSet (csr mask : Z) s : sim_result (Simulator M) := Err Unimplemented.
Definition CSRClear (csr mask : Z) s : sim_result (Simulator M) := Err Unimplemented.

(** An [ecall] with a register operand prints an object for debugging; without
    one it leaves the simulator for the runtime. *)
Definition InterpretECALL (instr : Z) s : sim_result (Simulator M) :=
  if negb (rs1 instr =? Register.ZR) then Ok (add_pc kInstrSize s)
  else if negb (IsAligned (get_xreg Register.SP s) 16 0) then Err StackMisaligned
  else s ← flush_all s; Err (HostCall (pc_ s)).

Definition InterpretEBREAK (instr : Z) s : sim_result (Simulator M) := Err Ebreak.

Definition InterpretSYSTEM (instr : Z) s : sim_result (Simulator M) :=
  let f := DecodeFunct3 instr in
  let c := csr instr in
  if f =? 0 then
    if DecodeFunct12 instr =? Funct12.ECALL then InterpretECALL instr s
    else if DecodeFunct12 instr =? Funct12.EBREAK then InterpretEBREAK instr s
    else Err (IllegalInstruction instr)
  else
    s ← (if f =? Funct3.CSRRW then
           let v := get_xreg (rs1 instr) s in
           if rd instr =? Register.ZR then CSRWrite c v s
           else r ← CSRRead c s; s ← CSRWrite c v s; Ok (set_xreg (rd instr) r s)
         else if f =? Funct3.CSRRS then
           r ← CSRRead c s;
           s ← (if rs1 instr =? Register.ZR then Ok s
                else CSRSet c (get_xreg (rs1 instr) s) s);
           Ok (set_xreg (rd instr) r s)
         else if f =? Funct3.CSRRC then
           r ← CSRRead c s;
           s ← (if rs1 instr =? Register.ZR then Ok s
                else CSRClear c (get_xreg (rs1 instr) s) s);
           Ok (set_xreg (rd instr) r s)
         else if f =? Funct3.CSRRWI then
           if rd instr =? Register.ZR then CSRWrite c (zimm instr) s
           else r ← CSRRead c s; s ← CSRWrite c (zimm instr) s;
                Ok (set_xreg (rd instr) r s)
         else if f =? Funct3.CSRRSI then
           r ← CSRRead c s;
           s ← (if zimm instr =? 0 then Ok s else CSRSet c (zimm instr) s);
           Ok (set_xreg (rd instr) r s)
         else if f =? Funct3.CSRRCI then
           r ← CSRRead c s;
           s ← (if zimm instr =? 0 then Ok s else CSRClear c (zimm instr) s);
           Ok (set_xreg (rd instr) r s)
         else Err (IllegalInstruction instr));
    Ok (add_pc kInstrSize s).

(** ** Atomic instructions

    The simulated program has one thread here; the memory orders have no
    further effect. *)

(** The check every atomic instruction starts with. *)
Definition misaligned (T : ctype) (addr : Z) : bool :=
  negb (addr .& (ct_sizeof T - 1) =? 0).

Definition next_weak_failure s : bool * Simulator M :=
  match weak_failures s with
  | b :: l => (b, set_weak_failures l s)
  | [] => (false, s)
  end.

Definition InterpretLR (T : ctype) (instr : Z) s : sim_result (Simulator M) :=
  let addr := get_xreg (rs1 instr) s in
  if misaligned T addr then Err (MisalignedAtomic addr)
  else
    '(v, m) ← mem_load_ordered T addr (memory_ s);
    let s := set_reserved addr (u64 v) (set_memory m s) in
    Ok (set_xreg (rd instr) (reserved_value_ s) s).

Definition InterpretSC (T : ctype) (instr : Z) s : sim_result (Simulator M) :=
  let addr := get_xreg (rs1 instr) s in
  if misaligned T addr then Err (MisalignedAtomic addr)
  else if negb (addr =? reserved_address_ s) then Ok (set_xreg (rd instr) 1 s)
  else
    let '(r, state) := Random.NextUInt32 (random_ s) in
    let s := set_random state s in
    if r mod 16 =? 0 then Ok (set_xreg (rd instr) 1 s)
    else
      let expected := ct_cast T (reserved_value_ s) in
      let desired := ct_cast T (get_xreg (rs2 instr) s) in
      let '(spurious, s) := next_weak_failure s in
      '(success, _, m) ← mem_compare_exchange spurious T addr expected desired
                           (memory_ s);
      Ok (set_xreg (rd instr) (if success : bool then 0 else 1) (set_memory m s)).

Definition flush_address (addr : Z) s : sim_result (Simulator M) :=
  m ← mem_flush_address addr (memory_ s); Ok (set_memory m s).

(** [std::atomic<T>] at [addr] in the process: [load], [store], and the
    read-modify-write operations that return the old value. *)
Definition atomic_load (T : ctype) (addr : Z) s : sim_result Z :=
  host_load T addr (process (memory_ s)).
Definition atomic_store (T : ctype) (addr value : Z) s : sim_result (Simulator M) :=
  p ← host_store T addr value (process (memory_ s));
  Ok (set_memory (set_process p (memory_ s)) s).
Definition atomic_rmw (T : ctype) (addr : Z) (f : Z -> Z) s
    : sim_result (Z * Simulator M) :=
  v ← atomic_load T addr s;
  s ← atomic_store T addr (ct_cast T (f v)) s;
  Ok (v, s).

Definition InterpretAMOSWAP (T : ctype) (instr : Z) s : sim_result (Simulator M) :=
  let addr := get_xreg (rs1 instr) s in
  if misaligned T addr then Err (MisalignedAtomic addr)
  else
    s ← flush_address addr s;
    let desired := ct_cast T (get_xreg (rs2 instr) s) in
    '(result, s) ← atomic_rmw T addr (fun _ => desired) s;
    Ok (set_xreg (rd instr) (sign_extend (ct_bits T) result) s).

Definition InterpretAMOADD (T : ctype) (instr : Z) s : sim_result (Simulator M) :=
  let addr := get_xreg (rs1 instr) s in
  if misaligned T addr then Err (MisalignedAtomic addr)
  else
    s ← flush_address addr s;
    let arg := ct_cast T (get_xreg (rs2 instr) s) in
    '(result, s) ← atomic_rmw T addr (fun v => v + arg) s;
    Ok (set_xreg (rd instr) (sign_extend (ct_bits T) result) s).

Definition InterpretAMOXOR (T : ctype) (instr : Z) s : sim_result (Simulator M) :=
  let addr := get_xreg (rs1 instr) s in
  if misaligned T addr then Err (MisalignedAtomic addr)
  else
    s ← flush_address addr s;
    let arg := ct_cast T (get_xreg (rs2 instr) s) in
    '(result, s) ← atomic_rmw T addr (fun v => v .^ arg) s;
    Ok (set_xreg (rd instr) (sign_extend (ct_bits T) result) s).

Definition InterpretAMOAND (T : ctype) (instr : Z) s : sim_result (Simulator M) :=
  let addr := get_xreg (rs1 instr) s in
  if misaligned T addr then Err (MisalignedAtomic addr)
  else
    s ← flush_address addr s;
    let arg := ct_cast T (get_xreg (rs2 instr) s) in
    '(result, s) ← atomic_rmw T addr (fun v => v .& arg) s;
    Ok (set_xreg (rd instr) (sign_extend (ct_bits T) result) s).

Definition InterpretAMOOR (T : ctype) (instr : Z) s : sim_result (Simulator M) :=
  let addr := get_xreg (rs1 instr) s in
  if misaligned T addr then Err (MisalignedAtomic addr)
  else
    s ← flush_address addr s;
    let arg := ct_cast T (get_xreg (rs2 instr) s) in
    '(result, s) ← atomic_rmw T addr (fun v => v .| arg) s;
    Ok (set_xreg (rd instr) (sign_extend (ct_bits T) result) s).

(** [do { desired = f(expected); } while (!compare_exchange_weak(expected,
    desired));] returns the last [expected].  A failure is spurious or reloads
    [expected]; [n] bounds the rounds. *)
Fixpoint exchange_loop (n : nat) (T : ctype) (addr : Z) (f : Z -> Z) (expected : Z) s
    : sim_result (Z * Simulator M) :=
  match n with
  | O => Err OutOfFuel
  | S n =>
      let desired := f expected in
      let '(spurious, s) := next_weak_failure s in
      '(ok, expected, p) ← host_compare_exchange_weak spurious T addr expected desired
                             (process (memory_ s));
      let s := set_memory (set_process p (memory_ s)) s in
      if ok : bool then Ok (expected, s) else exchange_loop n T addr f expected s
  end.
Definition exchange_rounds s : nat := S (length (weak_failures s)).

Definition InterpretAMOMIN (T : ctype) (instr : Z) s : sim_result (Simulator M) :=
  let addr := get_xreg (rs1 instr) s in
  if misaligned T addr then Err (MisalignedAtomic addr)
  else
    s ← flush_address addr s;
    expected ← atomic_load T addr s;
    let compare := ct_cast T (get_xreg (rs2 instr) s) in
    '(expected, s) ← exchange_loop (exchange_rounds s) T addr
      (fun expected => if expected <? compare then expected else compare) expected s;
    Ok (set_xreg (rd instr) (sign_extend (ct_bits T) expected) s).

Definition InterpretAMOMAX (T : ctype) (instr : Z) s : sim_result (Simulator M) :=
  let addr := get_xreg (rs1 instr) s in
  if misaligned T addr then Err (MisalignedAtomic addr)
  else
    s ← flush_address addr s;
    expected ← atomic_load T addr s;
    let compare := ct_cast T (get_xreg (rs2 instr) s) in
    '(expected, s) ← exchange_loop (exchange_rounds s) T addr
      (fun expected => if compare <? expected then expected else compare) expected s;
    Ok (set_xreg (rd instr) (sign_extend (ct_bits T) expected) s).

Definition InterpretLOADORDERED (T : ctype) (instr : Z) s : sim_result (Simulator M) :=
  let addr := get_xreg (rs1 instr) s in
  if misaligned T addr then Err (MisalignedAtomic addr)
  else
    s ← flush_address addr s;
    value ← atomic_load T addr s;
    Ok (set_xreg (rd instr) (sign_extend (ct_bits T) value) s).

Definition InterpretSTOREORDERED (T : ctype) (instr : Z) s : sim_result (Simulator M) :=
  let addr := get_xreg (rs1 instr) s in
  if misaligned T addr then Err (MisalignedAtomic addr)
  else
    s ← flush_address addr s;
    let value := ct_cast T (get_xreg (rs2 instr) s) in
    atomic_store T addr value s.

Definition InterpretAMO8 (instr : Z) s : sim_result (Simulator M) :=
  let f := DecodeFunct5 instr in
  s ← (if f =? Funct5.AMOSWAP then InterpretAMOSWAP int8_t instr s
       else if f =? Funct5.AMOADD then InterpretAMOADD int8_t instr s
       else if f =? Funct5.AMOXOR then InterpretAMOXOR int8_t instr s
       else if f =? Funct5.AMOAND then InterpretAMOAND int8_t instr s
       else if f =? Funct5.AMOOR then InterpretAMOOR int8_t instr s
       else if f =? Funct5.AMOMIN then InterpretAMOMIN int8_t instr s
       else if f =? Funct5.AMOMAX then InterpretAMOMAX int8_t instr s
       else if f =? Funct5.AMOMINU then InterpretAMOMIN uint8_t instr s
       else if f =? Funct5.AMOMAXU then InterpretAMOMAX uint8_t instr s
       else if f =? Funct5.LOADORDERED then InterpretLOADORDERED int8_t instr s
       else if f =? Funct5.STOREORDERED then InterpretSTOREORDERED int8_t instr s
       else Err (IllegalInstruction instr));
  Ok (add_pc kInstrSize s).

Definition InterpretAMO16 (instr : Z) s : sim_result (Simulator M) :=
  let f := DecodeFunct5 instr in
  s ← (if f =? Funct5.AMOSWAP then InterpretAMOSWAP int16_t instr s
       else if f =? Funct5.AMOADD then InterpretAMOADD int16_t instr s
       else if f =? Funct5.AMOXOR then InterpretAMOXOR int16_t instr s
       else if f =? Funct5.AMOAND then InterpretAMOAND int16_t instr s
       else if f =? Funct5.AMOOR then InterpretAMOOR int16_t instr s
       else if f =? Funct5.AMOMIN then InterpretAMOMIN int16_t instr s
       else if f =? Funct5.AMOMAX then InterpretAMOMAX int16_t instr s
       else if f =? Funct5.AMOMINU then InterpretAMOMIN uint16_t instr s
       else if f =? Funct5.AMOMAXU then InterpretAMOMAX uint16_t instr s
       else if f =? Funct5.LOADORDERED then InterpretLOADORDERED int16_t instr s
       else if f =? Funct5.STOREORDERED then InterpretSTOREORDERED int16_t instr s
       else Err (IllegalInstruction instr));
  Ok (add_pc kInstrSize s).

Definition InterpretAMO32 (instr : Z) s : sim_result (Simulator M) :=
  let f := DecodeFunct5 instr in
  s ← (if f =? Funct5.LR then InterpretLR int32_t instr s
       else if f =? Funct5.SC then InterpretSC int32_t instr s
       else if f =? Funct5.AMOSWAP then InterpretAMOSWAP int32_t instr s
       else if f =? Funct5.AMOADD then InterpretAMOADD int32_t instr s
       else if f =? Funct5.AMOXOR then InterpretAMOXOR int32_t instr s
       else if f =? Funct5.AMOAND then InterpretAMOAND int32_t instr s
       else if f =? Funct5.AMOOR then InterpretAMOOR int32_t instr s
       else if f =? Funct5.AMOMIN then InterpretAMOMIN int32_t instr s
       else if f =? Funct5.AMOMAX then InterpretAMOMAX int32_t instr s
       else if f =? Funct5.AMOMINU then InterpretAMOMIN uint32_t instr s
       else if f =? Funct5.AMOMAXU then InterpretAMOMAX uint32_t instr s
       else if f =? Funct5.LOADORDERED then InterpretLOADORDERED int32_t instr s
       else if f =? Funct5.STOREORDERED then InterpretSTOREORDERED int32_t instr s
       else Err (IllegalInstruction instr));
  Ok (add_pc kInstrSize s).

Definition InterpretAMO64 (instr : Z) s : sim_result (Simulator M) :=
  let f := DecodeFunct5 instr in
  s ← (if f =? Funct5.LR then InterpretLR int64_t instr s
       else if f =? Funct5.SC then InterpretSC int64_t instr s
       else if f =? Funct5.AMOSWAP then InterpretAMOSWAP int64_t instr s
       else if f =? Funct5.AMOADD then InterpretAMOADD int64_t instr s
       else if f =? Funct5.AMOXOR then InterpretAMOXOR int64_t instr s
       else if f =? Funct5.AMOAND then InterpretAMOAND int64_t instr s
       else if f =? Funct5.AMOOR then InterpretAMOOR int64_t instr s
       else if f =? Funct5.AMOMIN then InterpretAMOMIN int64_t instr s
       else if f =? Funct5.AMOMAX then InterpretAMOMAX int64_t instr s
       else if f =? Funct5.AMOMINU then InterpretAMOMIN uint64_t instr s
       else if f =? Funct5.AMOMAXU then InterpretAMOMAX uint64_t instr s
       else if f =? Funct5.LOADORDERED then InterpretLOADORDERED int64_t instr s
       else if f =? Funct5.STOREORDERED then InterpretSTOREORDERED int64_t instr s
       else Err (IllegalInstruction instr));
  Ok (add_pc kInstrSize s).

Definition InterpretAMO (instr : Z) s : sim_result (Simulator M) :=
  let f := DecodeFunct3 instr in
  if f =? Funct3.WIDTH8 then InterpretAMO8 instr s
  else if f =? Funct3.WIDTH16 then InterpretAMO16 instr s
  else if f =? Funct3.WIDTH32 then InterpretAMO32 instr s
  else if f =? Funct3.WIDTH64 then InterpretAMO64 instr s
  else Err (IllegalInstruction instr).

(** The floating-point computations are outside the model. *)
Definition InterpretFP (instr : Z) s : sim_result (Simulator M) :=
  Err (FloatingPoint instr).

Definition Interpret (instr : Z) s : sim_result (Simulator M) :=
  let op := DecodeOpcode instr in
  if op =? Opcode.LUI then InterpretLUI instr s
  else if op =? Opcode.AUIPC then InterpretAUIPC instr s
  else if op =? Opcode.JAL then InterpretJAL instr s
  else if op =? Opcode.JALR then InterpretJALR instr s
  else if op =? Opcode.BRANCH then InterpretBRANCH instr s
  else if op =? Opcode.LOAD then InterpretLOAD instr s
  else if op =? Opcode.STORE then InterpretSTORE instr s
  else if op =? Opcode.OPIMM then InterpretOPIMM instr s
  else if op =? Opcode.OPIMM32 then InterpretOPIMM32 instr s
  else if op =? Opcode.OP then InterpretOP instr s
  else if op =? Opcode.OP32 then InterpretOP32 instr s
  else if op =? Opcode.MISCMEM then InterpretMISCMEM instr s
  else if op =? Opcode.SYSTEM then InterpretSYSTEM instr s
  else if op =? Opcode.AMO then InterpretAMO instr s
  else if op =? Opcode.LOADFP then InterpretLOADFP instr s
  else if op =? Opcode.STOREFP then InterpretSTOREFP instr s
  else if op =? Opcode.FMADD then InterpretFP instr s
  else if op =? Opcode.FMSUB then InterpretFP instr s
  else if op =? Opcode.FNMADD then InterpretFP instr s
  else if op =? Opcode.FNMSUB then InterpretFP instr s
  else if op =? Opcode.OPFP then InterpretFP instr s
  else Err (IllegalInstruction instr).

(** ** Compressed instructions

    The nested switches of [Interpret(CInstr)] are functions of their own; a
    case that leaves the outer switch by [break] returns to it. *)

Abbreviation crd := DecodeCRd.
Abbreviation crs1 := DecodeCRd.
Abbreviation crs2 := DecodeCRs2.
Abbreviation crdp := DecodeCRdp.
Abbreviation crs1p := DecodeCRs1p.
Abbreviation crs2p := DecodeCRs2p.

Definition interpret_c_ext (instr : Z) s : sim_result (Simulator M) :=
  let a := get_xreg (crs1p instr) s in
  let e := instr .& COpcode.C_EXT_MASK in
  if e =? COpcode.C_ZEXTB then Ok (set_xreg (crs1p instr) (Arith.zextb a) s)
  else if e =? COpcode.C_SEXTB then Ok (set_xreg (crs1p instr) (Arith.sextb a) s)
  else if e =? COpcode.C_ZEXTH then Ok (set_xreg (crs1p instr) (Arith.zexth a) s)
  else if e =? COpcode.C_SEXTH then Ok (set_xreg (crs1p instr) (Arith.sexth a) s)
  else if e =? COpcode.C_ZEXTW then Ok (set_xreg (crs1p instr) (Arith.zextw a) s)
  else if e =? COpcode.C_NOT then Ok (set_xreg (crs1p instr) (Z.lnot a) s)
  else Err (IllegalInstruction instr).

Definition interpret_c_rr (instr : Z) s : sim_result (Simulator M) :=
  let a := get_xreg (crs1p instr) s in
  let b := get_xreg (crs2p instr) s in
  let e := instr .& COpcode.C_RR_MASK in
  if e =? COpcode.C_AND then Ok (set_xreg (crs1p instr) (a .& b) s)
  else if e =? COpcode.C_OR then Ok (set_xreg (crs1p instr) (a .| b) s)
  else if e =? COpcode.C_XOR then Ok (set_xreg (crs1p instr) (a .^ b) s)
  else if e =? COpcode.C_SUB then Ok (set_xreg (crs1p instr) (a - b) s)
  else if e =? COpcode.C_ADDW then
    Ok (set_xreg (crs1p instr) (sign_extend 32 (u32 (u32 a + u32 b))) s)
  else if e =? COpcode.C_SUBW then
    Ok (set_xreg (crs1p instr) (sign_extend 32 (u32 (u32 a - u32 b))) s)
  else if e =? COpcode.C_MUL then
    Ok (set_xreg (crs1p instr) (Arith.mul (s64 a) (s64 b)) s)
  else if e =? COpcode.C_EXT then interpret_c_ext instr s
  else Err (IllegalInstruction instr).

Definition interpret_c_miscalu (instr : Z) s : sim_result (Simulator M) :=
  let a := get_xreg (crs1p instr) s in
  let shamt := DecodeCShamt instr in
  let e := instr .& COpcode.C_MISCALU_MASK in
  if e =? COpcode.C_SRLI then
    if XLEN <=? shamt then Err (IllegalInstruction instr)
    else Ok (set_xreg (crs1p instr) (a ≫ shamt) s)
  else if e =? COpcode.C_SRAI then
    if XLEN <=? shamt then Err (IllegalInstruction instr)
    else Ok (set_xreg (crs1p instr) (s64 a ≫ shamt) s)
  else if e =? COpcode.C_ANDI then
    Ok (set_xreg (crs1p instr) (a .& u64 (DecodeCIImm instr)) s)
  else if e =? COpcode.C_RR then interpret_c_rr instr s
  else Err (IllegalInstruction instr).

Definition interpret_c_mem (instr : Z) s : sim_result (Simulator M) :=
  let a := get_xreg (crs1p instr) s in
  let addr1 := u64 (a + DecodeCMem1Imm instr) in
  let addr2 := u64 (a + DecodeCMem2Imm instr) in
  let e := instr .& 0xfc03 in
  if e =? COpcode.C_LBU then load_xreg uint8_t (crdp instr) addr1 s
  else if e =? COpcode.C_LHU then
    if instr .& 0x40 =? 0 then load_xreg uint16_t (crdp instr) addr2 s
    else load_xreg int16_t (crdp instr) addr2 s
  else if e =? COpcode.C_SB then MemoryWrite uint8_t addr1 (get_xreg (crs2p instr) s) s
  else if e =? COpcode.C_SH then MemoryWrite uint16_t addr2 (get_xreg (crs2p instr) s) s
  else Err (IllegalInstruction instr).

(** [pc_ += instr.length()] after the switch. *)
Definition next_c (r : sim_result (Simulator M)) : sim_result (Simulator M) :=
  s ← r; Ok (add_pc kCInstrSize s).

Definition interpret_c_jr (instr : Z) s : sim_result (Simulator M) :=
  if negb (instr .& (COpcode.C_JALR .^ COpcode.C_JR) =? 0) then
    if (crs1 instr =? Register.ZR) && (crs2 instr =? Register.ZR) then
      next_c (InterpretEBREAK instr s)
    else if crs2 instr =? Register.ZR then
      let target := get_xreg (crs1 instr) s in
      let s := set_xreg Register.RA (pc_ s + kCInstrSize) s in
      Ok (set_pc target s)
    else
      next_c (Ok (set_xreg (crd instr)
        (get_xreg (crs1 instr) s + get_xreg (crs2 instr) s) s))
  else
    if negb (crd instr =? Register.ZR) && negb (crs2 instr =? Register.ZR) then
      next_c (Ok (set_xreg (crd instr) (get_xreg (crs2 instr) s) s))
    else if negb (crs2 instr =? Register.ZR) then
      next_c (Err (IllegalInstruction instr))
    else Ok (set_pc (get_xreg (crs1 instr) s) s).

Definition InterpretC (instr : Z) s : sim_result (Simulator M) :=
  let op := instr .& COpcode.C_OP_MASK in
  let sp := get_xreg Register.SP s in
  let a := get_xreg (crs1p instr) s in
  if op =? COpcode.C_LWSP then
    next_c (load_xreg int32_t (crd instr) (u64 (sp + DecodeCSPLoad4Imm instr)) s)
  else if op =? COpcode.C_LDSP then
    next_c (load_xreg int64_t (crd instr) (u64 (sp + DecodeCSPLoad8Imm instr)) s)
  else if op =? COpcode.C_FLDSP then
    next_c (load_fregd (DecodeCFRd instr) (u64 (sp + DecodeCSPLoad8Imm instr)) s)
  else if op =? COpcode.C_SWSP then
    next_c (MemoryWrite uint32_t (u64 (sp + DecodeCSPStore4Imm instr))
              (get_xreg (crs2 instr) s) s)
  else if op =? COpcode.C_SDSP then
    next_c (MemoryWrite uint64_t (u64 (sp + DecodeCSPStore8Imm instr))
              (get_xreg (crs2 instr) s) s)
  else if op =? COpcode.C_FSDSP then
    next_c (MemoryWrite uint64_t (u64 (sp + DecodeCSPStore8Imm instr))
              (get_fregd (DecodeCFRs2 instr) s) s)
  else if op =? COpcode.C_LW then
    next_c (load_xreg int32_t (crdp instr) (u64 (a + DecodeCMem4Imm instr)) s)
  else if op =? COpcode.C_LD then
    next_c (load_xreg int64_t (crdp instr) (u64 (a + DecodeCMem8Imm instr)) s)
  else if op =? COpcode.C_FLD then
    next_c (load_fregd (DecodeCFRdp instr) (u64 (a + DecodeCMem8Imm instr)) s)
  else if op =? COpcode.C_SW then
    next_c (MemoryWrite uint32_t (u64 (a + DecodeCMem4Imm instr))
              (get_xreg (crs2p instr) s) s)
  else if op =? COpcode.C_SD then
    next_c (MemoryWrite uint64_t (u64 (a + DecodeCMem8Imm instr))
              (get_xreg (crs2p instr) s) s)
  else if op =? COpcode.C_FSD then
    next_c (MemoryWrite uint64_t (u64 (a + DecodeCMem8Imm instr))
              (get_fregd (DecodeCFRs2p instr) s) s)
  else if op =? COpcode.C_J then
    Ok (add_pc (sign_extend 32 (DecodeCJImm instr)) s)
  else if op =? COpcode.C_JR then interpret_c_jr instr s
  else if op =? COpcode.C_BEQZ then
    if a =? 0 then Ok (add_pc (DecodeCBImm instr) s) else next_c (Ok s)
  else if op =? COpcode.C_BNEZ then
    if negb (a =? 0) then Ok (add_pc (DecodeCBImm instr) s) else next_c (Ok s)
  else if op =? COpcode.C_LI then
    next_c (if crd instr =? Register.ZR then Err (IllegalInstruction instr)
            else Ok (set_xreg (crd instr) (sign_extend 64 (DecodeCIImm instr)) s))
  else if op =? COpcode.C_LUI then
    next_c (if crd instr =? Register.SP then
              if DecodeCI16Imm instr =? 0 then Err (IllegalInstruction instr)
              else Ok (set_xreg (crd instr)
                (get_xreg (crs1 instr) s + sign_extend 64 (DecodeCI16Imm instr)) s)
            else if (crd instr =? Register.ZR) || (DecodeCUImm instr =? 0) then
              Err (IllegalInstruction instr)
            else Ok (set_xreg (crd instr) (sign_extend 64 (DecodeCUImm instr)) s))
  else if op =? COpcode.C_ADDI then
    next_c (Ok (set_xreg (crd instr) (get_xreg (crs1 instr) s + DecodeCIImm instr) s))
  else if op =? COpcode.C_ADDIW then
    let a := u32 (get_xreg (crs1 instr) s) in
    let b := u32 (DecodeCIImm instr) in
    next_c (Ok (set_xreg (crd instr) (sign_extend 32 (u32 (a + b))) s))
  else if op =? COpcode.C_ADDI4SPN then
    next_c (if DecodeCI4SPNImm instr =? 0 then Err (IllegalInstruction instr)
            else Ok (set_xreg (crdp instr) (sp + DecodeCI4SPNImm instr) s))
  else if op =? COpcode.C_SLLI then
    next_c (if crd instr =? Register.ZR then Err (IllegalInstruction instr)
            else Ok (set_xreg (crd instr)
              (get_xreg (crs1 instr) s ≪ DecodeCShamt instr) s))
  else if op =? COpcode.C_MISCALU then next_c (interpret_c_miscalu instr s)
  else if op =? COpcode.C_LBU then next_c (interpret_c_mem instr s)
  else Err (IllegalInstruction instr).

(** ** Execution *)

(** A round of the loop of [ExecuteNoTrace]: instructions are fetched from the
    process. *)
Definition step s : sim_result (Simulator M) :=
  parcel ← host_load uint16_t (pc_ s) (process (memory_ s));
  s ← (if IsCInstruction parcel then InterpretC parcel s
       else instr ← host_load uint32_t (pc_ s) (process (memory_ s));
            Interpret instr s);
  Ok (set_instret (u64 (instret_ s + 1)) s).

(** At most [n] rounds. *)
Fixpoint ExecuteNoTrace (n : nat) s : sim_result (Simulator M) :=
  if pc_ s =? kEndSimulatingPC then Ok s
  else match n with
       | O => Err OutOfFuel
       | S n => s ← step s; ExecuteNoTrace n s
       end.

(** [RunCall] in a release build. *)
Definition RunCall (n : nat) (entry : Z) s : sim_result (Simulator M) :=
  let s := set_xreg Register.RA kEndSimulatingPC (set_pc (u64 entry) s) in
  s ← ExecuteNoTrace n s;
  flush_all s.

(** [CallX]: the value of [A0] and the state. *)
Definition CallX (n : nat) (function arg0 arg1 arg2 arg3 : Z) s
    : sim_result (Z * Simulator M) :=
  let s := set_xreg Register.A0 arg0 s in
  let s := set_xreg Register.A1 arg1 s in
  let s := set_xreg Register.A2 arg2 s in
  let s := set_xreg Register.A3 arg3 s in
  s ← RunCall n function s;
  Ok (get_xreg_signed Register.A0 s, s).

End Simulator.
