(* ===== verification/RiscvArith.v ===== *)
(** * Arithmetic of the instructions: what the helpers of simulator_riscv.cc compute

    The static functions [mul] to [bset] of the simulator work on machine words
    with half-word products, masks, shifts and bit loops.  The theorems give
    each of them its mathematical meaning: the high half of a product, the
    quotient rounded towards zero, the position of a set bit, a rotation, a
    carry-less product. *)

From S2P Require Import Prelude Utils RiscvConstants RiscvEncoding SimMemory.
From S2P Require Import RiscvSimulator.

(** ** The high half of a product *)

Lemma land_kLoMask a : a .& Arith.kLoMask = a mod 2 ^ 32.
Proof. change Arith.kLoMask with (Z.ones 32). by rewrite Z.land_ones. Qed.

Lemma shift_kHiShift a : a ≫ Arith.kHiShift = a / 2 ^ 32.
Proof. change Arith.kHiShift with 32. by rewrite Z.shiftr_div_pow2. Qed.

(** The schoolbook product of two half-words each, with floor division. *)
Lemma high_product B ah al bh bl : 0 < B ->
  (ah * B + al) * (bh * B + bl) / (B * B)
  = ah * bh + (al * bl / B + ah * bl) / B
    + ((al * bl / B + ah * bl) mod B + al * bh) / B.
Proof.
  intros HB. rewrite <- Z.div_div by lia.
  replace ((ah * B + al) * (bh * B + bl))
    with (al * bl + (ah * bh * B + ah * bl + al * bh) * B) by ring.
  rewrite Z.div_add by lia. set (r0 := al * bl / B + ah * bl).
  replace (al * bl / B + (ah * bh * B + ah * bl + al * bh))
    with (r0 mod B + al * bh + (ah * bh + r0 / B) * B).
  - rewrite Z.div_add by lia. lia.
  - pose proof (Z.div_mod r0 B ltac:(lia)). unfold r0 in *. lia.
Qed.

Lemma split_word a : a = a / 2 ^ 32 * 2 ^ 32 + a mod 2 ^ 32.
Proof. pose proof (Z.div_mod a (2 ^ 32)). lia. Qed.

Lemma high_product_word a b :
  a * b / 2 ^ 64
  = a / 2 ^ 32 * (b / 2 ^ 32)
    + (a mod 2 ^ 32 * (b mod 2 ^ 32) / 2 ^ 32 + a / 2 ^ 32 * (b mod 2 ^ 32)) / 2 ^ 32
    + ((a mod 2 ^ 32 * (b mod 2 ^ 32) / 2 ^ 32 + a / 2 ^ 32 * (b mod 2 ^ 32)) mod 2 ^ 32
       + a mod 2 ^ 32 * (b / 2 ^ 32)) / 2 ^ 32.
Proof.
  rewrite <- high_product by lia. change (2 ^ 64) with (2 ^ 32 * 2 ^ 32).
  by rewrite <- !split_word.
Qed.

Lemma half_u64 a : is_u 64 a -> 0 <= a / 2 ^ 32 < 2 ^ 32.
Proof.
  unfold is_u. intros. split; [apply Z.div_pos; lia|].
  apply Z.div_lt_upper_bound; lia.
Qed.

Lemma half_s64 a : is_s 64 a -> - 2 ^ 31 <= a / 2 ^ 32 < 2 ^ 31.
Proof.
  unfold is_s. intros. split; [apply Z.div_le_lower_bound; lia|].
  apply Z.div_lt_upper_bound; lia.
Qed.

Lemma half_product_range x y :
  0 <= x < 2 ^ 32 -> 0 <= y < 2 ^ 32 -> 0 <= x * y / 2 ^ 32 <= 2 ^ 32 - 2.
Proof.
  intros. split; [apply Z.div_pos; nia|].
  enough (x * y / 2 ^ 32 < 2 ^ 32 - 1) by lia.
  apply Z.div_lt_upper_bound; nia.
Qed.

Lemma mod_half a : 0 <= a mod 2 ^ 32 < 2 ^ 32.
Proof. by apply Z.mod_pos_bound. Qed.

Lemma mulhu_spec a b :
  is_u 64 a -> is_u 64 b -> Arith.mulhu a b = a * b / 2 ^ 64.
Proof.
  intros Ha Hb. unfold Arith.mulhu. rewrite !land_kLoMask, !shift_kHiShift.
  rewrite high_product_word.
  pose proof (half_u64 a Ha). pose proof (half_u64 b Hb).
  pose proof (mod_half a). pose proof (mod_half b).
  set (ah := a / 2 ^ 32) in *. set (al := a mod 2 ^ 32) in *.
  set (bh := b / 2 ^ 32) in *. set (bl := b mod 2 ^ 32) in *.
  pose proof (half_product_range al bl ltac:(lia) ltac:(lia)) as Hx.
  rewrite !(uwrap_small 64 (_ * _)) by (unfold is_u; nia).
  set (x := al * bl / 2 ^ 32) in *.
  rewrite (uwrap_small 64 (x + _)) by (unfold is_u; nia).
  set (r0 := x + ah * bl).
  pose proof (mod_half r0).
  rewrite (uwrap_small 64 (r0 mod _ + _)) by (unfold is_u; nia).
  apply uwrap_small.
  assert (Hr : 0 <= a * b / 2 ^ 64 < 2 ^ 64).
  { unfold is_u in *. split; [apply Z.div_pos; nia|].
    apply Z.div_lt_upper_bound; nia. }
  by rewrite high_product_word in Hr.
Qed.

Lemma u64_mod_half a : u64 a mod 2 ^ 32 = a mod 2 ^ 32.
Proof. by apply (uwrap_le 64 32). Qed.

Lemma mulh_spec a b :
  is_s 64 a -> is_s 64 b -> Arith.mulh a b = a * b / 2 ^ 64.
Proof.
  intros Ha Hb. unfold Arith.mulh.
  rewrite !land_kLoMask, !shift_kHiShift, !u64_mod_half, high_product_word.
  pose proof (half_s64 a Ha). pose proof (half_s64 b Hb).
  pose proof (mod_half a). pose proof (mod_half b).
  set (ah := a / 2 ^ 32) in *. set (al := a mod 2 ^ 32) in *.
  set (bh := b / 2 ^ 32) in *. set (bl := b mod 2 ^ 32) in *.
  pose proof (half_product_range al bl ltac:(lia) ltac:(lia)) as Hx.
  autorewrite with vm.
  rewrite (uwrap_small 64 (al * bl)) by (unfold is_u; nia).
  set (x := al * bl / 2 ^ 32) in *.
  rewrite (swrap_small 64 (ah * bl)), (swrap_small 64 (al * bh)) by (unfold is_s; nia).
  rewrite (swrap_small 64 (x + _)) by (unfold is_s; nia).
  set (r0 := x + ah * bl). pose proof (mod_half r0).
  by rewrite (swrap_small 64 (r0 mod _ + _)) by (unfold is_s; nia).
Qed.

Lemma mulhsu_spec a b :
  is_s 64 a -> is_u 64 b -> Arith.mulhsu a b = u64 (a * b / 2 ^ 64).
Proof.
  intros Ha Hb. unfold Arith.mulhsu.
  rewrite !land_kLoMask, !shift_kHiShift, !u64_mod_half, high_product_word.
  pose proof (half_s64 a Ha). pose proof (half_u64 b Hb).
  pose proof (mod_half a). pose proof (mod_half b).
  set (ah := a / 2 ^ 32) in *. set (al := a mod 2 ^ 32) in *.
  set (bh := b / 2 ^ 32) in *. set (bl := b mod 2 ^ 32) in *.
  pose proof (half_product_range al bl ltac:(lia) ltac:(lia)) as Hx.
  autorewrite with vm.
  rewrite !(uwrap_small 64 (al * _)) by (unfold is_u; nia).
  set (x := al * bl / 2 ^ 32) in *.
  rewrite !(swrap_small 64 (ah * _)) by (unfold is_s; nia).
  rewrite (swrap_small 64 (x + _)) by (unfold is_s; nia).
  set (r0 := x + ah * bl). pose proof (mod_half r0).
  by rewrite (uwrap_small 64 (r0 mod _ + _)) by (unfold is_u; nia).
Qed.

(** The sum [mulh] returns is computed on [intx_t] without overflow. *)
Lemma mulh_no_overflow a b :
  is_s 64 a -> is_s 64 b -> is_s 64 (Arith.mulh a b).
Proof.
  intros Ha Hb. rewrite mulh_spec by done. unfold is_s in *.
  split; [apply Z.div_le_lower_bound; nia|]. apply Z.div_lt_upper_bound; nia.
Qed.

(** ** Division: towards zero, with the results RISC-V defines for zero and overflow *)

Definition quot_spec (a b : Z) : Z := if b =? 0 then -1 else Z.quot a b.
Definition rem_spec (a b : Z) : Z := if b =? 0 then a else Z.rem a b.

(** Only the quotient of the least number by -1 leaves the type. *)
Lemma quot_range w a b :
  1 < w -> is_s w a -> is_s w b -> b <> 0 -> (b <> -1 \/ a <> - 2 ^ (w - 1)) ->
  is_s w (Z.quot a b).
Proof.
  intros Hw Ha Hb H0 Hne. unfold is_s in *. pose proof (Z.quot_abs a b H0) as Q.
  pose proof (pow2_split (w - 1) ltac:(lia)). pose proof (pow2_pos (w - 1 - 1) ltac:(lia)).
  assert (0 <= Z.abs a ÷ Z.abs b) by (apply Z.quot_pos; lia).
  destruct (decide (b = -1)) as [->|].
  - change (-1) with (- (1)) in *. rewrite Z.quot_opp_r, Z.quot_1_r by lia. lia.
  - destruct (decide (b = 1)) as [->|]; [rewrite Z.quot_1_r; lia|].
    assert (Z.abs a ÷ Z.abs b <= 2 ^ (w - 1 - 1))
      by (apply Z.quot_le_upper_bound; nia).
    lia.
Qed.

Lemma div_spec a b :
  is_s 64 a -> is_s 64 b -> Arith.div a b = s64 (quot_spec a b).
Proof.
  intros Ha Hb. unfold Arith.div, quot_spec.
  destruct (b =? 0) eqn:E0; [done|].
  destruct ((b =? -1) && (a =? kMinIntX)) eqn:E1; reflect_bool; [by subst|].
  symmetry. apply swrap_small, quot_range; [lia..|done|done|done|].
  by apply andb_false_iff in E1 as [E1|E1]; reflect_bool; [left|right].
Qed.

Lemma rem_range a b w : 0 < w -> b <> 0 -> is_s w a -> is_s w b -> is_s w (Z.rem a b).
Proof.
  intros Hw H0 Ha Hb. unfold is_s in *.
  destruct (Z_le_gt_dec 0 a).
  - pose proof (Z.rem_bound_pos a (Z.abs b) ltac:(lia) ltac:(lia)).
    rewrite Z.rem_abs_r in H by done. lia.
  - pose proof (Z.rem_bound_pos (- a) (Z.abs b) ltac:(lia) ltac:(lia)).
    rewrite Z.rem_abs_r, Z.rem_opp_l in H by done. lia.
Qed.

Lemma rem_spec_ok a b :
  is_s 64 a -> is_s 64 b -> Arith.rem a b = rem_spec a b.
Proof.
  intros Ha Hb. unfold Arith.rem, rem_spec.
  destruct (b =? 0) eqn:E0; [done|]. reflect_bool.
  destruct ((b =? -1) && (a =? kMinIntX)) eqn:E1; reflect_bool; by subst.
Qed.

Lemma divw_spec a b :
  is_s 32 a -> is_s 32 b -> Arith.divw a b = s32 (quot_spec a b).
Proof.
  intros Ha Hb. unfold Arith.divw, quot_spec.
  destruct (b =? 0) eqn:E0; [done|].
  destruct ((b =? -1) && (a =? Arith.kMinInt32)) eqn:E1; reflect_bool; [by subst|].
  symmetry. apply swrap_small, quot_range; [lia..|done|done|done|].
  by apply andb_false_iff in E1 as [E1|E1]; reflect_bool; [left|right].
Qed.

Lemma remw_spec a b :
  is_s 32 a -> is_s 32 b -> Arith.remw a b = rem_spec a b.
Proof.
  intros Ha Hb. unfold Arith.remw, rem_spec.
  destruct (b =? 0) eqn:E0; [done|]. reflect_bool.
  destruct ((b =? -1) && (a =? Arith.kMinInt32)) eqn:E1; reflect_bool; by subst.
Qed.

(** ** Counting bits *)

Lemma bit_test a bit :
  0 <= bit -> negb (a .& (1 ≪ bit) =? 0) = Z.testbit a bit.
Proof.
  intros. rewrite Z.shiftl_1_l. destruct (Z.testbit a bit) eqn:E.
  - apply negb_true_iff, Z.eqb_neq. intros H0.
    assert (Z.testbit (a .& 2 ^ bit) bit = false) as F by by rewrite H0, Z.bits_0.
    rewrite Z.land_spec, Z.pow2_bits_true, E in F by lia. done.
  - apply negb_false_iff, Z.eqb_eq. apply Z.bits_inj'. intros i Hi.
    rewrite Z.land_spec, Z.bits_0. destruct (decide (i = bit)) as [->|].
    + by rewrite E.
    + rewrite Z.pow2_bits_false by lia. apply andb_false_r.
Qed.

(** [clz] counts the zeros above the highest set bit. *)
Lemma clz_from_spec w n a :
  0 <= a < 2 ^ Z.of_nat n ->
  Arith.clz_from w n a = if a =? 0 then w else w - 1 - Z.log2 a.
Proof.
  induction n as [|n IH]; intros Ha; cbn [Arith.clz_from].
  - replace a with 0 by lia. done.
  - rewrite bit_test by lia. destruct (Z.testbit a (Z.of_nat n)) eqn:E.
    + assert (a <> 0) by (intros ->; by rewrite Z.bits_0 in E).
      rewrite (proj2 (Z.eqb_neq a 0)) by done.
      rewrite (Z.log2_unique a (Z.of_nat n)); [lia|lia|]. split.
      * destruct (Z_lt_le_dec a (2 ^ Z.of_nat n)); [|done].
        rewrite (testbit_high (Z.of_nat n)) in E by (unfold is_u; lia). done.
      * rewrite <- Nat2Z.inj_succ. lia.
    + apply IH. split; [lia|].
      replace (Z.of_nat (S n)) with (Z.of_nat n + 1) in Ha by lia.
      apply Z.bounded_iff_bits_nonneg; [lia..|]. intros i Hi.
      destruct (decide (i = Z.of_nat n)) as [->|]; [done|].
      apply (testbit_high (Z.of_nat n + 1)); unfold is_u; lia.
Qed.

Definition clz_spec (w a : Z) : Z := if a =? 0 then w else w - 1 - Z.log2 a.

Lemma clz_ok a : is_u 64 a -> Arith.clz a = clz_spec 64 a.
Proof. intros. by apply (clz_from_spec 64 64). Qed.
Lemma clzw_ok a : is_u 32 a -> Arith.clzw a = clz_spec 32 a.
Proof. intros. by apply (clz_from_spec 32 32). Qed.

(** [ctz] is the position of the lowest set bit, the width when there is none. *)
Definition is_ctz (w a n : Z) : Prop :=
  (forall i, 0 <= i < n -> Z.testbit a i = false) /\
  (n = w \/ 0 <= n < w /\ Z.testbit a n = true).

Lemma is_ctz_unique w a n m : is_ctz w a n -> is_ctz w a m -> 0 <= w -> n = m.
Proof.
  intros [Hn Hn'] [Hm Hm'] Hw.
  destruct (Z.lt_trichotomy n m) as [L|[L|L]]; [|done|].
  - destruct Hn' as [->|[? Hn']].
    + destruct Hm' as [->|[? _]]; lia.
    + rewrite Hm in Hn' by lia. done.
  - destruct Hm' as [->|[? Hm']].
    + destruct Hn' as [->|[? _]]; lia.
    + rewrite Hn in Hm' by lia. done.
Qed.

Lemma ctz_from_spec w n a :
  Z.of_nat n <= w -> (forall i, 0 <= i < w - Z.of_nat n -> Z.testbit a i = false) ->
  is_ctz w a (Arith.ctz_from w n a).
Proof.
  induction n as [|n IH]; intros Hn Hlow; cbn [Arith.ctz_from].
  - split; [|by left]. intros i Hi. apply Hlow. lia.
  - rewrite bit_test by lia. destruct (Z.testbit a (w - Z.of_nat (S n))) eqn:E.
    + split; [done|]. right. split; [lia|done].
    + apply IH; [lia|]. intros i Hi.
      destruct (decide (i = w - Z.of_nat (S n))) as [->|]; [done|]. apply Hlow. lia.
Qed.

Lemma ctz_ok a : is_ctz 64 a (Arith.ctz a).
Proof. apply ctz_from_spec; [done|]. unfold XLEN. intros; lia. Qed.
Lemma ctzw_ok a : is_ctz 32 a (Arith.ctzw a).
Proof. apply ctz_from_spec; [done|]. intros; lia. Qed.

(** The same as a function: the first set bit of a search. *)
Definition ctz_spec (w a : Z) : Z :=
  default w (head (filter (fun i => Z.testbit a i = true) (seqZ 0 w))).

Lemma ctz_from_search w n a :
  Z.of_nat n <= w ->
  Arith.ctz_from w n a
  = default w (head (filter (fun i => Z.testbit a i = true)
                       (seqZ (w - Z.of_nat n) (Z.of_nat n)))).
Proof.
  induction n as [|n IH]; intros Hn; cbn [Arith.ctz_from]; [done|].
  rewrite bit_test by lia. rewrite seqZ_cons by lia. rewrite filter_cons.
  destruct (Z.testbit a (w - Z.of_nat (S n))) eqn:E.
  - by rewrite decide_True.
  - rewrite decide_False by congruence. rewrite IH by lia.
    do 4 f_equal; lia.
Qed.

Lemma ctz_search a : Arith.ctz a = ctz_spec 64 a.
Proof. by apply (ctz_from_search 64 64). Qed.
Lemma ctzw_search a : Arith.ctzw a = ctz_spec 32 a.
Proof. by apply (ctz_from_search 32 32). Qed.

(** [cpop] is the number of set bits below the width. *)
Definition cpop_spec (w a : Z) : Z :=
  Z.of_nat (length (filter (fun i => Z.testbit a i = true) (seqZ 0 w))).

Lemma cpop_loop_spec a l c :
  Forall (fun i => 0 <= i) l ->
  fold_left (fun count bit =>
    if negb (a .& (1 ≪ bit) =? 0) then count + 1 else count) l c
  = c + Z.of_nat (length (filter (fun i => Z.testbit a i = true) l)).
Proof.
  revert c. induction l as [|i l IH]; intros c Hf; cbn [fold_left]; [cbn; lia|].
  apply Forall_cons in Hf as [Hi Hf]. rewrite bit_test by done.
  rewrite IH by done. rewrite filter_cons. destruct (Z.testbit a i) eqn:E.
  - rewrite decide_True by done. cbn [length]. lia.
  - rewrite decide_False by congruence. lia.
Qed.

Lemma cpop_ok w a : Arith.cpop_loop w a = cpop_spec w a.
Proof.
  unfold Arith.cpop_loop. rewrite cpop_loop_spec; [done|].
  apply Forall_forall. intros i Hi%elem_of_seqZ. lia.
Qed.

Lemma cpop64_ok a : Arith.cpop a = cpop_spec 64 a.
Proof. apply (cpop_ok 64). Qed.
Lemma cpop32_ok a : Arith.cpopw a = cpop_spec 32 a.
Proof. apply (cpop_ok 32). Qed.

Lemma cpop_spec_u32 a : cpop_spec 32 (u32 a) = cpop_spec 32 a.
Proof.
  unfold cpop_spec. do 2 f_equal. apply filter_ext_elem.
  intros i Hi%elem_of_seqZ. rewrite testbit_uwrap by lia.
  by rewrite (proj2 (Z.ltb_lt i 32)) by lia.
Qed.

Lemma ctz_spec_u32 a : ctz_spec 32 (u32 a) = ctz_spec 32 a.
Proof.
  unfold ctz_spec. do 2 f_equal. apply filter_ext_elem.
  intros i Hi%elem_of_seqZ. rewrite testbit_uwrap by lia.
  by rewrite (proj2 (Z.ltb_lt i 32)) by lia.
Qed.

(** ** Carry-less products *)

(** The carry-less product of [a] and the bits [l] of [b]. *)
Definition clprod (a b : Z) (l : list Z) : Z :=
  fold_left (fun r i => if Z.testbit b i then r .^ (a ≪ i) else r) l 0.

Lemma shr_test b bit : 0 <= bit -> negb ((b ≫ bit) .& 1 =? 0) = Z.testbit b bit.
Proof.
  intros. rewrite <- (Z.shiftl_0_r 1) at 1. rewrite (bit_test (b ≫ bit) 0) by lia.
  rewrite Z.shiftr_spec by lia. done.
Qed.

(** A loop that accumulates the images of the shifted operands accumulates the
    image of the product, for any map that preserves [xor]. *)
Lemma clmul_loop (g : Z -> Z) a b l :
  g 0 = 0 -> (forall x y, g (x .^ y) = g x .^ g y) ->
  Forall (fun i => 0 <= i) l ->
  forall f r, (forall i, i ∈ l -> Z.testbit b i = true -> f i = g (a ≪ i)) ->
  fold_left (fun result bit =>
    if negb ((b ≫ bit) .& 1 =? 0) then result .^ f bit else result) l (g r)
  = g (fold_left (fun r i => if Z.testbit b i then r .^ (a ≪ i) else r) l r).
Proof.
  intros H0 Hx Hf f. induction l as [|i l IH]; intros r Hfi; cbn [fold_left]; [done|].
  apply Forall_cons in Hf as [Hi Hf]. rewrite shr_test by done.
  destruct (Z.testbit b i) eqn:E.
  - rewrite Hfi, <- Hx by (done || apply list_elem_of_here).
    apply IH; [done|]. intros. apply Hfi; [by apply list_elem_of_further|done].
  - apply IH; [done|]. intros. apply Hfi; [by apply list_elem_of_further|done].
Qed.

Lemma u64_lxor x y : u64 (x .^ y) = u64 x .^ u64 y.
Proof.
  apply Z.bits_inj'. intros i Hi. rewrite Z.lxor_spec, !testbit_uwrap, Z.lxor_spec by lia.
  by destruct (i <? 64).
Qed.

Lemma seqZ_nonneg lo n : 0 <= lo -> Forall (fun i => 0 <= i) (seqZ lo n).
Proof. intros. apply Forall_forall. intros i Hi%elem_of_seqZ. lia. Qed.

Lemma clmul_ok a b : Arith.clmul a b = u64 (clprod a b (seqZ 0 64)).
Proof.
  apply (clmul_loop u64 a b (seqZ 0 64)) with (r := 0) (f := fun i => u64 (a ≪ i));
    [done|apply u64_lxor|by apply seqZ_nonneg|done].
Qed.

Lemma clmulh_loop a b l :
  is_u 64 a -> (forall i, i ∈ l -> 0 < i < 64) ->
  fold_left (fun result bit =>
    if negb ((b ≫ bit) .& 1 =? 0) then result .^ (a ≫ (XLEN - bit)) else result) l 0
  = clprod a b (0 :: l) ≫ 64.
Proof.
  intros Ha Hin. unfold clprod. cbn [fold_left].
  rewrite <- (clmul_loop (fun x => x ≫ 64) a b l) with (f := fun i => a ≫ (XLEN - i)).
  - f_equal. destruct (Z.testbit b 0); [|done]. rewrite Z.lxor_0_l, Z.shiftl_0_r.
    rewrite Z.shiftr_div_pow2 by lia. symmetry. by apply Z.div_small.
  - done.
  - intros. apply Z.shiftr_lxor.
  - apply Forall_forall. intros i Hi. apply Hin in Hi. lia.
  - intros i Hi _. apply Hin in Hi. by rewrite Z.shiftr_shiftl_r by lia.
Qed.

Lemma clmulh_ok a b :
  is_u 64 a -> Arith.clmulh a b = clprod a b (seqZ 0 64) ≫ 64.
Proof.
  intros Ha. rewrite (seqZ_cons 0 64) by lia. apply clmulh_loop; [done|].
  intros i Hi%elem_of_seqZ. lia.
Qed.

Lemma clmulr_ok a b : Arith.clmulr a b = clprod a b (seqZ 0 64) ≫ 63.
Proof.
  apply (clmul_loop (fun x => x ≫ 63) a b (seqZ 0 64)) with
    (r := 0) (f := fun i => a ≫ (XLEN - i - 1)); [done| |by apply seqZ_nonneg|].
  - intros. apply Z.shiftr_lxor.
  - intros i Hi%elem_of_seqZ _. unfold XLEN. rewrite Z.shiftr_shiftl_r by lia.
    f_equal. lia.
Qed.

(** ** Extensions *)

Lemma shl_shr_signed k a :
  0 < k <= 64 -> s64 (u64 (a ≪ (64 - k))) ≫ (64 - k) = swrap k a.
Proof.
  intros. apply Z.bits_inj'. intros i Hi.
  rewrite Z.shiftr_spec, swrap_uwrap, !testbit_swrap by lia.
  destruct (i + (64 - k) <? 64) eqn:E1, (i <? k) eqn:E2; reflect_bool; try lia;
    rewrite Z.shiftl_spec by lia; f_equal; lia.
Qed.

Lemma shl_shr_unsigned k a :
  0 < k <= 64 -> u64 (a ≪ (64 - k)) ≫ (64 - k) = uwrap k a.
Proof.
  intros. apply Z.bits_inj'. intros i Hi.
  rewrite Z.shiftr_spec, !testbit_uwrap, Z.shiftl_spec by lia.
  replace (i + (64 - k) - (64 - k)) with i by lia.
  destruct (i + (64 - k) <? 64) eqn:E1, (i <? k) eqn:E2; reflect_bool; done || lia.
Qed.

Lemma sextb_ok a : Arith.sextb a = u64 (s8 a).
Proof. unfold Arith.sextb, XLEN. by rewrite shl_shr_signed. Qed.
Lemma sexth_ok a : Arith.sexth a = u64 (s16 a).
Proof. unfold Arith.sexth, XLEN. by rewrite shl_shr_signed. Qed.
Lemma zextb_ok a : Arith.zextb a = u8 a.
Proof. unfold Arith.zextb, XLEN. by rewrite shl_shr_unsigned. Qed.
Lemma zexth_ok a : Arith.zexth a = u16 a.
Proof. unfold Arith.zexth, XLEN. by rewrite shl_shr_unsigned. Qed.
Lemma zextw_ok a : Arith.zextw a = u32 a.
Proof. unfold Arith.zextw, XLEN. by rewrite shl_shr_unsigned. Qed.

(** ** Rotations *)

(** [r] is [a] rotated right by [n] in a word of [w] bits. *)
Definition is_rotation (w n a r : Z) : Prop :=
  is_u w r /\ forall i, 0 <= i < w -> Z.testbit r i = Z.testbit a ((i + n) mod w).

Lemma is_rotation_unique w n a r1 r2 :
  0 <= w -> is_rotation w n a r1 -> is_rotation w n a r2 -> r1 = r2.
Proof.
  intros Hw [U1 B1] [U2 B2]. apply (is_u_bit_ext w); [done..|].
  intros i Hi. by rewrite B1, B2.
Qed.

Lemma land_63 b : b .& (XLEN - 1) = b mod 64.
Proof. change (XLEN - 1) with (Z.ones 6). by rewrite Z.land_ones. Qed.

Lemma rotate_bits a r :
  is_u 64 a -> 0 <= r < 64 ->
  is_rotation 64 r a (u64 (a ≪ ((64 - r) mod 64)) .| (a ≫ r)).
Proof.
  intros Ha Hr. split.
  - apply is_u_lor; [done|by apply uwrap_range|]. unfold is_u in *.
    rewrite Z.shiftr_div_pow2 by lia. split; [apply Z.div_pos; [lia|apply pow2_pos; lia]|].
    apply Z.div_lt_upper_bound; [apply pow2_pos; lia|].
    pose proof (pow2_pos r ltac:(lia)). nia.
  - intros i Hi. rewrite Z.lor_spec, testbit_uwrap, Z.shiftr_spec by lia.
    rewrite (proj2 (Z.ltb_lt i 64)) by lia. cbn [andb].
    destruct (decide (r = 0)) as [->|].
    + rewrite Z.shiftl_0_r, Z.add_0_r, Z.mod_small by lia. apply orb_diag.
    + rewrite (Z.mod_small (64 - r)), Z.shiftl_spec by lia.
      destruct (Z_lt_le_dec (i + r) 64).
      * rewrite (Z.testbit_neg_r _ (i - (64 - r))), Z.mod_small by lia. done.
      * rewrite (testbit_high 64 _ (i + r)) by (done || lia). rewrite orb_false_r.
        f_equal. rewrite <- (Z.mod_small (i - (64 - r)) 64) by lia.
        rewrite <- (Z_mod_plus_full (i - (64 - r)) 1 64). f_equal. lia.
Qed.

Lemma ror_ok a b : is_u 64 a -> is_rotation 64 (b mod 64) a (Arith.ror a b).
Proof.
  intros. unfold Arith.ror. rewrite !land_63. unfold XLEN.
  apply rotate_bits; [done|]. by apply Z.mod_pos_bound.
Qed.

Lemma rol_ok a b : is_u 64 a -> is_rotation 64 ((- b) mod 64) a (Arith.rol a b).
Proof.
  intros Ha. unfold Arith.rol. rewrite !land_63. unfold XLEN.
  replace ((64 - b mod 64) mod 64) with ((- b) mod 64).
  - replace (b mod 64) with ((64 - (- b) mod 64) mod 64) at 1.
    + apply rotate_bits; [done|]. by apply Z.mod_pos_bound.
    + rewrite Zminus_mod_idemp_r. replace (64 - - b) with (b + 1 * 64) by lia.
      apply Z_mod_plus_full.
  - rewrite Zminus_mod_idemp_r. replace (64 - b) with (- b + 1 * 64) by lia.
    symmetry. apply Z_mod_plus_full.
Qed.

(** ** Bytes *)

(** The word whose byte [j] is [f j]. *)
Definition word_of_bytes (f : Z -> Z) : Z :=
  f 0 ≪ 0 .| f 1 ≪ 8 .| f 2 ≪ 16 .| f 3 ≪ 24
  .| f 4 ≪ 32 .| f 5 ≪ 40 .| f 6 ≪ 48 .| f 7 ≪ 56.

Lemma byte_word_of_bytes f :
  (forall j, is_u 8 (f j)) ->
  is_u 64 (word_of_bytes f) /\
  forall j, 0 <= j < 8 -> byte (word_of_bytes f) j = f j.
Proof.
  intros U. pose proof (U 0). pose proof (U 1). pose proof (U 2). pose proof (U 3).
  pose proof (U 4). pose proof (U 5). pose proof (U 6). pose proof (U 7).
  unfold word_of_bytes. split.
  - repeat (apply is_u_lor; [done| |]); apply (is_u_shiftl 64 8); done || lia.
  - apply (forall_range (fun j => byte _ j = f j)). unfold byte.
    change (seqZ 0 8) with [0;1;2;3;4;5;6;7].
    repeat apply Forall_cons_2; [..|apply Forall_nil_2]; cbn [Z.mul Pos.mul];
      field_simpl; done.
Qed.

(** The mask [orc.b] puts in place of a byte. *)
Definition byte_mask (x : Z) : Z := if x =? 0 then 0 else 0xFF.

Lemma byte_mask_range x : is_u 8 (byte_mask x).
Proof. unfold byte_mask. by destruct (x =? 0). Qed.

Lemma orcb_step result a shift :
  0 <= shift <= 56 ->
  (if negb ((a ≫ shift) .& 0xFF =? 0) then result .| u64 (0xFF ≪ shift) else result)
  = result .| byte_mask (field a shift 8) ≪ shift.
Proof.
  intros. change ((a ≫ shift) .& 0xFF) with (field a shift 8). unfold byte_mask.
  destruct (field a shift 8 =? 0); cbn [negb].
  - by rewrite Z.shiftl_0_l, Z.lor_0_r.
  - rewrite uwrap_small; [done|]. apply (is_u_shiftl 64 8); done || lia.
Qed.

Lemma orcb_ok a : Arith.orcb a = word_of_bytes (fun j => byte_mask (byte a j)).
Proof.
  unfold Arith.orcb, Arith.byte_shifts. cbn [fold_left].
  rewrite !orcb_step by lia. by rewrite Z.lor_0_l.
Qed.

(** [rev8] reverses the bytes. *)
Lemma rev8_step a x shift k :
  0 <= k <= 56 -> is_u k x ->
  u64 (x ≪ 8) .| ((a ≫ shift) .& 0xFF) = x ≪ 8 .| field a shift 8 /\
  is_u (k + 8) (x ≪ 8 .| field a shift 8).
Proof.
  intros Hk Hx. split.
  - rewrite uwrap_small; [done|]. apply (is_u_shiftl 64 k); done || lia.
  - apply is_u_lor; [lia|apply (is_u_shiftl _ k); done || lia|].
    apply (is_u_mono 8); [lia|]. by apply field_range.
Qed.

Lemma lor_reverse a b c d e f g h :
  a .| b .| c .| d .| e .| f .| g .| h = h .| g .| f .| e .| d .| c .| b .| a.
Proof.
  rewrite (Z.lor_comm _ h), (Z.lor_comm _ g), (Z.lor_comm _ f), (Z.lor_comm _ e),
    (Z.lor_comm _ d), (Z.lor_comm _ c), (Z.lor_comm a b).
  by rewrite !Z.lor_assoc.
Qed.

Lemma rev8_ok a : Arith.rev8 a = word_of_bytes (fun j => byte a (7 - j)).
Proof.
  unfold Arith.rev8, Arith.byte_shifts. cbn [fold_left].
  assert (is_u 0 0) as U by done.
  repeat match goal with
  | U : is_u ?k ?x |- context [ u64 (?x ≪ 8) .| ((a ≫ ?sh) .& 0xFF) ] =>
      let E := fresh in let U' := fresh in
      destruct (rev8_step a x sh k ltac:(lia) U) as [E U']; rewrite E; clear E U
  end.
  rewrite !Z.shiftl_lor, !Z.shiftl_shiftl by lia. rewrite Z.shiftl_0_l, Z.lor_0_l.
  unfold word_of_bytes, byte. cbn [Z.mul Pos.mul Z.sub Z.add Z.opp Z.pos_sub].
  rewrite Z.shiftl_0_r. apply lor_reverse.
Qed.

(** ** Single bits *)

Lemma bset_ok a b : Arith.bset a b = Z.setbit a (b mod 64).
Proof.
  unfold Arith.bset. rewrite land_63. unfold Z.setbit.
  by rewrite Z.shiftl_1_l.
Qed.

Lemma bclr_ok a b : is_u 64 a -> Arith.bclr a b = Z.clearbit a (b mod 64).
Proof.
  intros Ha. unfold Arith.bclr. rewrite land_63. unfold Z.clearbit.
  pose proof (Z.mod_pos_bound b 64 ltac:(lia)).
  rewrite Z.shiftl_1_l. apply Z.bits_inj'. intros i Hi.
  rewrite Z.land_spec, Z.ldiff_spec, testbit_uwrap, Z.lnot_spec by lia.
  destruct (i <? 64) eqn:E; reflect_bool; [done|].
  by rewrite (testbit_high 64 a i).
Qed.

Lemma binv_ok a b : Arith.binv a b = a .^ 2 ^ (b mod 64).
Proof. unfold Arith.binv. rewrite land_63. by rewrite Z.shiftl_1_l. Qed.

Lemma bext_ok a b : Arith.bext a b = Z.b2z (Z.testbit a (b mod 64)).
Proof.
  unfold Arith.bext. rewrite land_63.
  pose proof (Z.mod_pos_bound b 64 ltac:(lia)).
  rewrite (Z.land_ones _ 1), <- Z.bit0_mod, Z.shiftr_spec by lia. done.
Qed.

(** ** Where the 32-bit helpers are undefined *)

(** The product of [mulw] is defined when it fits in 32 bits. *)
Lemma mulw_ok a b :
  is_s 32 (a * b) -> Arith.mulw a b = Ok (a * b).
Proof.
  unfold Arith.mulw, is_s. intros.
  by rewrite (proj2 (Z.leb_le _ _)), (proj2 (Z.ltb_lt _ _)) by lia.
Qed.

(** [rorw] and [rolw] mask the amount with [XLEN - 1] and shift a [uint32_t]:
    one of the two shifts is out of range unless the amount is a multiple of 64. *)
Lemma rotate32_undefined x r :
  0 < r < 64 ->
  exists e, (hi ← Arith.shl32 x ((64 - r) mod 64); lo ← Arith.shr32 x r;
             Ok (sign_extend 32 (hi .| lo))) = Err (UndefinedShift e).
Proof.
  intros. rewrite Z.mod_small by lia. unfold Arith.shl32, Arith.shr32.
  destruct (64 - r <? 32) eqn:E; reflect_bool; cbn; [|eauto].
  rewrite (proj2 (Z.ltb_ge r 32)) by lia. cbn. eauto.
Qed.
