(* ===== verification/RiscvArithCorrect.v ===== *)
(** * The arithmetic of the simulator: theorems

    What the helper functions of the simulator compute, stated without reference
    to the way they compute it. *)

From S2P Require Import Prelude Utils RiscvConstants RiscvEncoding SimMemory.
From S2P Require Import RiscvSimulator RiscvArith.

#[local] Opaque Arith.clz Arith.ctz Arith.cpop Arith.clmul Arith.clmulh Arith.clmulr
  Arith.orcb Arith.rev8.

Lemma mul_low a b : u64 (Arith.mul a b) = (a * b) mod 2 ^ 64.
Proof.
  unfold Arith.mul. rewrite uwrap_swrap, uwrap_uwrap, uwrap_mul_l, uwrap_mul_r by lia.
  reflexivity.
Qed.

(** High products.  The high half computed from four half-word products and
    the low half make up the exact 128-bit product, for signed, unsigned and mixed
    operands; no intermediate sum of [mulh] leaves its type. *)
Lemma products_ok a b c d :
  is_s 64 a -> is_s 64 b -> is_u 64 c -> is_u 64 d ->
  (Arith.mulh a b * 2 ^ 64 + u64 (Arith.mul a b) = a * b /\ is_s 64 (Arith.mulh a b)) /\
  Arith.mulhu c d * 2 ^ 64 + u64 (c * d) = c * d /\
  s64 (Arith.mulhsu a c) * 2 ^ 64 + u64 (a * c) = a * c.
Proof.
  intros Ha Hb Hc Hd. rewrite mul_low, mulh_spec, mulhu_spec, mulhsu_spec by done.
  split_and!.
  - pose proof (Z.div_mod (a * b) (2 ^ 64) ltac:(lia)). lia.
  - rewrite <- mulh_spec by done. by apply mulh_no_overflow.
  - pose proof (Z.div_mod (c * d) (2 ^ 64) ltac:(lia)). unfold uwrap. lia.
  - rewrite swrap_uwrap by lia. rewrite swrap_small; [|lia|].
    + pose proof (Z.div_mod (a * c) (2 ^ 64) ltac:(lia)). unfold uwrap. lia.
    + unfold is_s, is_u in *. split.
      * apply Z.div_le_lower_bound; nia.
      * apply Z.div_lt_upper_bound; nia.
Qed.

(** Division.  Quotient and remainder satisfy the division equation with a
    remainder of the dividend's sign, except where the manual defines other
    results: division by zero and the overflow of the least number by -1. *)
Lemma division_ok a b :
  is_s 64 a -> is_s 64 b ->
  (b = 0 -> Arith.div a b = -1 /\ Arith.rem a b = a) /\
  (a = - 2 ^ 63 -> b = -1 -> Arith.div a b = a /\ Arith.rem a b = 0) /\
  (b <> 0 -> ~ (a = - 2 ^ 63 /\ b = -1) ->
   a = b * Arith.div a b + Arith.rem a b /\
   Z.abs (Arith.rem a b) < Z.abs b /\ 0 <= a * Arith.rem a b /\
   is_s 64 (Arith.div a b)).
Proof.
  intros Ha Hb. split_and!.
  - intros ->. done.
  - intros -> ->. done.
  - intros Hz Ho. rewrite div_spec, rem_spec_ok by done. unfold quot_spec, rem_spec.
    rewrite (proj2 (Z.eqb_neq b 0) Hz).
    assert (Hq : is_s 64 (Z.quot a b)).
    { apply quot_range; try done. change (64 - 1) with 63. lia. }
    rewrite (swrap_small 64) by done. split_and!; [| | |done].
    + apply Z.quot_rem'.
    + by apply Z.rem_bound_abs.
    + destruct (Z.le_gt_cases 0 a).
      * apply Z.mul_nonneg_nonneg; [done|]. by apply Z.rem_nonneg.
      * apply Z.mul_nonpos_nonpos; [lia|]. apply Z.rem_nonpos; [done|lia].
Qed.

(** Counting.  [clz] brackets a non-zero operand between powers of two,
    [ctz] is the index of its lowest set bit, both are 64 for zero, and [cpop]
    counts the set bits. *)
Lemma counts_ok a :
  is_u 64 a ->
  (a <> 0 -> 2 ^ (63 - Arith.clz a) <= a < 2 ^ (64 - Arith.clz a) /\
             Z.testbit a (Arith.ctz a) = true /\ (2 ^ Arith.ctz a | a)) /\
  (a = 0 -> Arith.clz a = 64 /\ Arith.ctz a = 64) /\
  Arith.cpop a = Z.of_nat (length (filter (fun i => Z.testbit a i = true) (seqZ 0 64))).
Proof.
  intros Ha. rewrite clz_ok by done. unfold clz_spec.
  destruct (ctz_ok a) as [Hlow Hc]. split_and!.
  - intros Hz. rewrite (proj2 (Z.eqb_neq a 0) Hz).
    replace (63 - (64 - 1 - Z.log2 a)) with (Z.log2 a) by lia.
    replace (64 - (64 - 1 - Z.log2 a)) with (Z.succ (Z.log2 a)) by lia.
    assert (Hr : 0 <= Arith.ctz a < 64 /\ Z.testbit a (Arith.ctz a) = true).
    { destruct Hc as [E|Hc]; [|done]. exfalso. apply Hz, Z.bits_inj'. intros i Hi.
      rewrite Z.bits_0. destruct (decide (i < 64)); [apply Hlow; lia|].
      by apply (testbit_high 64); [|lia]. }
    split; [apply Z.log2_spec; unfold is_u in Ha; lia|]. split; [apply Hr|].
    apply Z.mod_divide; [pose proof (pow2_pos (Arith.ctz a)); lia|].
    apply Z.bits_inj'. intros i Hi. rewrite Z.bits_0.
    destruct (decide (i < Arith.ctz a)).
    + rewrite Z.mod_pow2_bits_low by lia. apply Hlow. lia.
    + apply Z.mod_pow2_bits_high. lia.
  - intros ->. split; [done|]. destruct Hc as [E|[_ Hc]]; [done|].
    by rewrite Z.bits_0 in Hc.
  - apply cpop64_ok.
Qed.

(** Carry-less products.  [clmul] and [clmulh] are the two halves of one
    128-bit polynomial product and [clmulr] is its middle part. *)
Lemma carryless_ok a b :
  is_u 64 a ->
  let p := clprod a b (seqZ 0 64) in
  Arith.clmulh a b * 2 ^ 64 + Arith.clmul a b = p /\
  Arith.clmulr a b = p / 2 ^ 63.
Proof.
  intros Ha p. rewrite clmulh_ok, clmul_ok, clmulr_ok by done. fold p.
  rewrite !Z.shiftr_div_pow2 by lia. split; [|done]. unfold uwrap.
  pose proof (Z.div_mod p (2 ^ 64) ltac:(lia)). lia.
Qed.

Lemma rotate_compose a r1 r2 n1 n2 :
  is_rotation 64 n1 a r1 -> is_rotation 64 n2 r1 r2 -> is_rotation 64 (n1 + n2) a r2.
Proof.
  intros [_ H1] [U2 H2]. split; [done|]. intros i Hi. rewrite H2 by done.
  rewrite H1 by (apply Z.mod_pos_bound; lia). f_equal.
  rewrite Zplus_mod_idemp_l. f_equal. lia.
Qed.

Lemma rotate_full a r n : is_u 64 a -> n mod 64 = 0 -> is_rotation 64 n a r -> r = a.
Proof.
  intros Ha Hn Hr. apply (is_rotation_unique 64 n a); [lia|done|]. split; [done|].
  intros i Hi. f_equal. rewrite Zplus_mod, Hn, Z.add_0_r, Zmod_mod, Z.mod_small; done.
Qed.

(** Rotations.  [ror] moves bit [(i + b) mod 64] to bit [i] and loses none;
    [rol] is its inverse. *)
Lemma rotations_ok a b :
  is_u 64 a ->
  is_u 64 (Arith.ror a b) /\
  (forall i, 0 <= i < 64 ->
     Z.testbit (Arith.ror a b) i = Z.testbit a ((i + b) mod 64)) /\
  Arith.rol (Arith.ror a b) b = a /\ Arith.ror (Arith.rol a b) b = a.
Proof.
  intros Ha. destruct (ror_ok a b Ha) as [U Hb]. destruct (rol_ok a b Ha) as [U' Hb'].
  split_and!; [done| | |].
  - intros i Hi. rewrite Hb by done. by rewrite Zplus_mod_idemp_r.
  - apply (rotate_full a _ (b mod 64 + (- b) mod 64)); [done| |].
    + rewrite <- Zplus_mod, Z.add_opp_diag_r. done.
    + apply (rotate_compose a (Arith.ror a b)); [by apply ror_ok|by apply rol_ok].
  - apply (rotate_full a _ ((- b) mod 64 + b mod 64)); [done| |].
    + rewrite <- Zplus_mod, Z.add_opp_diag_l. done.
    + apply (rotate_compose a (Arith.rol a b)); [by apply rol_ok|by apply ror_ok].
Qed.

Lemma byte_ext a b :
  is_u 64 a -> is_u 64 b -> (forall j, 0 <= j < 8 -> byte a j = byte b j) -> a = b.
Proof.
  intros Ha Hb He. apply Z.bits_inj'. intros i Hi.
  destruct (decide (i < 64)); [|by rewrite !(testbit_high 64) by (done || lia)].
  specialize (He (i / 8) ltac:(Z.div_mod_to_equations; lia)).
  apply (f_equal (fun x => Z.testbit x (i mod 8))) in He. unfold byte in He.
  pose proof (Z.mod_pos_bound i 8 ltac:(lia)). pose proof (Z.div_pos i 8 ltac:(lia) ltac:(lia)).
  rewrite !testbit_field, (proj2 (Z.ltb_lt (i mod 8) 8)) in He by lia.
  replace (i mod 8 + 8 * (i / 8)) with i in He by (Z.div_mod_to_equations; lia). done.
Qed.

Lemma rev8_bytes a :
  is_u 64 (Arith.rev8 a) /\ forall j, 0 <= j < 8 -> byte (Arith.rev8 a) j = byte a (7 - j).
Proof. rewrite rev8_ok. apply byte_word_of_bytes. intros. apply byte_range. Qed.

(** Byte operations.  [rev8] reverses the bytes of a register and is its own
    inverse; [orc.b] turns every non-zero byte into 0xFF and is idempotent. *)
Lemma bytes_ok a :
  is_u 64 a ->
  (forall j, 0 <= j < 8 ->
     byte (Arith.rev8 a) j = byte a (7 - j) /\
     byte (Arith.orcb a) j = (if byte a j =? 0 then 0 else 0xFF)) /\
  Arith.rev8 (Arith.rev8 a) = a /\
  Arith.orcb (Arith.orcb a) = Arith.orcb a.
Proof.
  intros Ha.
  assert (Ho : forall a, is_u 64 (Arith.orcb a) /\
    forall j, 0 <= j < 8 -> byte (Arith.orcb a) j = byte_mask (byte a j)).
  { intros x. rewrite orcb_ok. apply byte_word_of_bytes. intros. apply byte_mask_range. }
  split_and!.
  - intros j Hj. split; [by apply rev8_bytes|by apply Ho].
  - apply byte_ext; [apply rev8_bytes|done|]. intros j Hj.
    rewrite (proj2 (rev8_bytes _)), (proj2 (rev8_bytes a)) by lia. f_equal. lia.
  - apply byte_ext; [apply Ho..|]. intros j Hj. rewrite !(proj2 (Ho _)) by done.
    unfold byte_mask. by destruct (byte a j =? 0).
Qed.

(** [rorw] and [rolw] mask the amount with [XLEN - 1] but shift a 32-bit
    operand: unless the amount is a multiple of 64 one of the two shifts is by 32
    or more, which C++ leaves undefined, also for the amounts below 32 that the
    instruction defines. *)
Lemma rotations_undefined a b :
  b mod 64 <> 0 ->
  (exists n, Arith.rorw a b = Err (UndefinedShift n)) /\
  (exists n, Arith.rolw a b = Err (UndefinedShift n)).
Proof.
  intros Hb. pose proof (Z.mod_pos_bound b 64 ltac:(lia)).
  unfold Arith.rorw, Arith.rolw. cbv zeta. rewrite !land_63. change XLEN with 64. split.
  - apply rotate32_undefined. lia.
  - pose proof (rotate32_undefined (u32 a) ((64 - b mod 64) mod 64)) as U.
    rewrite (Z.mod_small (64 - b mod 64)) in * by lia.
    rewrite (Z.mod_small (64 - (64 - b mod 64))) in U by lia.
    replace (64 - (64 - b mod 64)) with (b mod 64) in U by lia. apply U. lia.
Qed.

(** C38: The arithmetic of the simulator.  The high half computed from four half-word
    products and the low half make up the exact 128-bit product, for signed, unsigned and
    mixed operands.  Quotient and remainder satisfy the division equation with a
    remainder of the dividend's sign, except for division by zero and the overflow of the
    least number by -1, for which the manual defines other results.  [clz] brackets a
    non-zero operand between powers of two, [ctz] is the index of its lowest set bit, both
    are 64 for zero, and [cpop] counts the set bits; [clmul] and [clmulh] are the halves of
    one polynomial product and [clmulr] is its middle part; [ror] moves bit
    [(i + b) mod 64] to bit [i] and [rol] is its inverse; [rev8] reverses the bytes and is
    its own inverse; [orc.b] turns every non-zero byte into 0xFF and is idempotent.
    [rorw] and [rolw] mask the amount with [XLEN - 1] but shift a 32-bit operand: unless
    the amount is a multiple of 64 one of the two shifts is by 32 or more, which C++
    leaves undefined. *)
Theorem arithmetic_helpers :
  (forall a b c d,
    is_s 64 a -> is_s 64 b -> is_u 64 c -> is_u 64 d ->
    ((Arith.mulh a b * 2 ^ 64 + u64 (Arith.mul a b) = a * b /\ is_s 64 (Arith.mulh a b)) /\
     Arith.mulhu c d * 2 ^ 64 + u64 (c * d) = c * d /\
     s64 (Arith.mulhsu a c) * 2 ^ 64 + u64 (a * c) = a * c) /\
    (b = 0 -> Arith.div a b = -1 /\ Arith.rem a b = a) /\
    (a = - 2 ^ 63 -> b = -1 -> Arith.div a b = a /\ Arith.rem a b = 0) /\
    (b <> 0 -> ~ (a = - 2 ^ 63 /\ b = -1) ->
     a = b * Arith.div a b + Arith.rem a b /\
     Z.abs (Arith.rem a b) < Z.abs b /\ 0 <= a * Arith.rem a b /\
     is_s 64 (Arith.div a b))) /\
  (forall a b,
    is_u 64 a ->
    ((a <> 0 -> 2 ^ (63 - Arith.clz a) <= a < 2 ^ (64 - Arith.clz a) /\
                Z.testbit a (Arith.ctz a) = true /\ (2 ^ Arith.ctz a | a)) /\
     (a = 0 -> Arith.clz a = 64 /\ Arith.ctz a = 64) /\
     Arith.cpop a = Z.of_nat (length (filter (fun i => Z.testbit a i = true) (seqZ 0 64)))) /\
    (Arith.clmulh a b * 2 ^ 64 + Arith.clmul a b = clprod a b (seqZ 0 64) /\
     Arith.clmulr a b = clprod a b (seqZ 0 64) / 2 ^ 63) /\
    (is_u 64 (Arith.ror a b) /\
     (forall i, 0 <= i < 64 -> Z.testbit (Arith.ror a b) i = Z.testbit a ((i + b) mod 64)) /\
     Arith.rol (Arith.ror a b) b = a /\ Arith.ror (Arith.rol a b) b = a) /\
    (forall j, 0 <= j < 8 ->
       byte (Arith.rev8 a) j = byte a (7 - j) /\
       byte (Arith.orcb a) j = (if byte a j =? 0 then 0 else 0xFF)) /\
    (Arith.rev8 (Arith.rev8 a) = a /\ Arith.orcb (Arith.orcb a) = Arith.orcb a) /\
    (b mod 64 <> 0 ->
     (exists n, Arith.rorw a b = Err (UndefinedShift n)) /\ (exists n, Arith.rolw a b = Err (UndefinedShift n)))).
Proof.
  split.
  - intros a b c d Ha Hb Hc Hd. exact (conj (products_ok a b c d Ha Hb Hc Hd) (division_ok a b Ha Hb)).
  - intros a b Ha. destruct (bytes_ok a Ha) as (Hb & Hr & Ho).
    exact (conj (counts_ok a Ha) (conj (carryless_ok a b Ha) (conj (rotations_ok a b Ha)
      (conj Hb (conj (conj Hr Ho) (rotations_undefined a b)))))).
Qed.

(** [mulw] multiplies [int32_t]s: it is defined exactly when the product fits,
    although the instruction is defined for all operands. *)
Lemma mulw_defined a b :
  (is_s 32 (a * b) <-> Arith.mulw a b = Ok (a * b)) /\
  (~ is_s 32 (a * b) <-> Arith.mulw a b = Err (SignedOverflow (a * b))).
Proof.
  unfold Arith.mulw, is_s. change (32 - 1) with 31.
  destruct ((- 2 ^ 31 <=? a * b) && (a * b <? 2 ^ 31)) eqn:E.
  - reflect_bool. split; split; try done; lia.
  - apply andb_false_iff in E. rewrite Z.leb_gt, Z.ltb_ge in E.
    split; split; try done; lia.
Qed.

(** ** Concrete instances *)

Lemma arithmetic_helpers_witness :
  (Arith.mulh (- 2 ^ 63) (-7) * 2 ^ 64 + u64 (Arith.mul (- 2 ^ 63) (-7)) = (- 2 ^ 63) * (-7) /\
   - 2 ^ 63 = (-7) * Arith.div (- 2 ^ 63) (-7) + Arith.rem (- 2 ^ 63) (-7) /\ Arith.rem (- 2 ^ 63) (-7) = -1) /\
  Arith.clz 0xF0 = 56 /\ 2 ^ (63 - Arith.clz 0xF0) <= 0xF0 < 2 ^ (64 - Arith.clz 0xF0) /\
  Arith.ror 0xF0 5 = 2 ^ 63 + 7 /\ Arith.rol (Arith.ror 0xF0 5) 5 = 0xF0.
Proof.
  destruct arithmetic_helpers as [Hmd Hbits]. split.
  - destruct (Hmd (- 2 ^ 63) (-7) 0 0) as (((Hm & _) & _) & _ & _ & Hd); [unfold is_s, is_u; lia..|].
    split; [exact Hm|]. split; [apply Hd; [discriminate|intros [_ ?]; discriminate]|reflexivity].
  - destruct (Hbits 0xF0 5) as ((Hc & _) & _ & (_ & _ & Hr & _) & _); [unfold is_u; lia|].
    split; [reflexivity|]. split; [apply Hc; discriminate|]. split; [reflexivity|exact Hr].
Defined.
