(* ===== verification/RiscvIsa.v ===== *)
(** * An abstract RISC-V: the specification of the assembler and the simulator

    The integer instructions as data and their meaning as functions on 64-bit
    register values, written from the instruction-set manual rather than from
    the simulator: products and quotients are those of [Z], counts are
    logarithms, rotations and carry-less products are defined on whole words.
    [RiscvCorrect] shows that assembling an instruction and simulating the
    bytes has this meaning. *)

From S2P Require Import Prelude Utils RiscvConstants RiscvEncoding RiscvAssembler.
From S2P Require Import SimMemory RiscvSimulator RiscvArith.

(** ** Register-register instructions *)

Inductive rop : Type :=
| ADD | SUB | SLL | SLT | SLTU | XOR | SRL | SRA | OR | AND
| ADDW | SUBW | SLLW | SRLW | SRAW
| MUL | MULH | MULHSU | MULHU | DIV | DIVU | REM | REMU
| DIVW | DIVUW | REMW | REMUW
| ADD_UW | SH1ADD | SH2ADD | SH3ADD | SH1ADD_UW | SH2ADD_UW | SH3ADD_UW
| ANDN | ORN | XNOR | MAX | MAXU | MIN | MINU | ROL | ROR
| CLMUL | CLMULH | CLMULR
| BCLR | BEXT | BINV | BSET
| CZERO_EQZ | CZERO_NEZ.

(** Rotation to the right within 64 bits. *)
Definition rotr (a n : Z) : Z := (a ≫ n) .| u64 (a ≪ (64 - n)).

(** The value is taken modulo [2 ^ 64] when it is written to the register. *)
Definition rop_sem (op : rop) (a b : Z) : Z :=
  match op with
  | ADD => a + b
  | SUB => a - b
  | SLL => a * 2 ^ (b mod 64)
  | SLT => of_bool (s64 a <? s64 b)
  | SLTU => of_bool (a <? b)
  | XOR => a .^ b
  | SRL => a / 2 ^ (b mod 64)
  | SRA => s64 a / 2 ^ (b mod 64)
  | OR => a .| b
  | AND => a .& b
  | ADDW => s32 (a + b)
  | SUBW => s32 (a - b)
  | SLLW => s32 (a * 2 ^ (b mod 32))
  | SRLW => s32 (u32 a / 2 ^ (b mod 32))
  | SRAW => s32 a / 2 ^ (b mod 32)
  | MUL => a * b
  | MULH => s64 a * s64 b / 2 ^ 64
  | MULHSU => s64 a * b / 2 ^ 64
  | MULHU => a * b / 2 ^ 64
  | DIV => quot_spec (s64 a) (s64 b)
  | DIVU => if b =? 0 then -1 else a / b
  | REM => rem_spec (s64 a) (s64 b)
  | REMU => if b =? 0 then a else a mod b
  | DIVW => s32 (quot_spec (s32 a) (s32 b))
  | DIVUW => s32 (if u32 b =? 0 then -1 else u32 a / u32 b)
  | REMW => s32 (rem_spec (s32 a) (s32 b))
  | REMUW => s32 (if u32 b =? 0 then a else u32 a mod u32 b)
  | ADD_UW => u32 a + b
  | SH1ADD => 2 * a + b
  | SH2ADD => 4 * a + b
  | SH3ADD => 8 * a + b
  | SH1ADD_UW => 2 * u32 a + b
  | SH2ADD_UW => 4 * u32 a + b
  | SH3ADD_UW => 8 * u32 a + b
  | ANDN => Z.ldiff a b
  | ORN => a .| Z.lnot b
  | XNOR => Z.lnot (a .^ b)
  | MAX => Z.max (s64 a) (s64 b)
  | MAXU => Z.max a b
  | MIN => Z.min (s64 a) (s64 b)
  | MINU => Z.min a b
  | ROL => rotr a ((- b) mod 64)
  | ROR => rotr a (b mod 64)
  | CLMUL => clprod a b (seqZ 0 64)
  | CLMULH => clprod a b (seqZ 0 64) ≫ 64
  | CLMULR => clprod a b (seqZ 0 64) ≫ 63
  | BCLR => Z.clearbit a (b mod 64)
  | BEXT => Z.b2z (Z.testbit a (b mod 64))
  | BINV => a .^ 2 ^ (b mod 64)
  | BSET => Z.setbit a (b mod 64)
  | CZERO_EQZ => if b =? 0 then 0 else a
  | CZERO_NEZ => if b =? 0 then a else 0
  end.

(** ** Instructions with an immediate *)

Inductive iop : Type := ADDI | SLTI | SLTIU | XORI | ORI | ANDI | ADDIW.

Definition iop_sem (op : iop) (a imm : Z) : Z :=
  match op with
  | ADDI => a + imm
  | SLTI => of_bool (s64 a <? imm)
  | SLTIU => of_bool (a <? u64 imm)
  | XORI => a .^ imm
  | ORI => a .| imm
  | ANDI => a .& imm
  | ADDIW => s32 (a + imm)
  end.

Inductive shop : Type :=
| SLLI | SRLI | SRAI | SLLIW | SRLIW | SRAIW | SLLI_UW
| RORI | BCLRI | BEXTI | BINVI | BSETI.

Definition shop_sem (op : shop) (a n : Z) : Z :=
  match op with
  | SLLI => a * 2 ^ n
  | SRLI => a / 2 ^ n
  | SRAI => s64 a / 2 ^ n
  | SLLIW => s32 (a * 2 ^ n)
  | SRLIW => s32 (u32 a / 2 ^ n)
  | SRAIW => s32 a / 2 ^ n
  | SLLI_UW => u32 a * 2 ^ n
  | RORI => rotr a n
  | BCLRI => Z.clearbit a n
  | BEXTI => Z.b2z (Z.testbit a n)
  | BINVI => a .^ 2 ^ n
  | BSETI => Z.setbit a n
  end.

(** The shift amounts of an instruction. *)
Definition shop_width (op : shop) : Z :=
  match op with
  | SLLIW | SRLIW | SRAIW => 32
  | _ => 64
  end.

(** ** Unary instructions *)

Inductive uop : Type :=
| CLZ | CTZ | CPOP | CLZW | CTZW | CPOPW | SEXT_B | SEXT_H | ZEXT_H | ORC_B | REV8.

Definition uop_sem (op : uop) (a : Z) : Z :=
  match op with
  | CLZ => clz_spec 64 a
  | CTZ => ctz_spec 64 a
  | CPOP => cpop_spec 64 a
  | CLZW => clz_spec 32 (u32 a)
  | CTZW => ctz_spec 32 a
  | CPOPW => cpop_spec 32 a
  | SEXT_B => s8 a
  | SEXT_H => s16 a
  | ZEXT_H => u16 a
  | ORC_B => word_of_bytes (fun j => byte_mask (byte a j))
  | REV8 => word_of_bytes (fun j => byte a (7 - j))
  end.

(** ** Memory *)

Inductive lop : Type := LB | LH | LW | LBU | LHU | LWU | LD.
Inductive sop : Type := SB | SH | SW | SD.

Definition lop_type (op : lop) : ctype :=
  match op with
  | LB => int8_t | LH => int16_t | LW => int32_t
  | LBU => uint8_t | LHU => uint16_t | LWU => uint32_t | LD => int64_t
  end.
Definition sop_type (op : sop) : ctype :=
  match op with
  | SB => uint8_t | SH => uint16_t | SW => uint32_t | SD => uint64_t
  end.

(** ** Conditions of branches *)

Inductive bop : Type := BEQ | BNE | BLT | BGE | BLTU | BGEU.

Definition bop_sem (op : bop) (a b : Z) : bool :=
  match op with
  | BEQ => a =? b
  | BNE => negb (a =? b)
  | BLT => s64 a <? s64 b
  | BGE => negb (s64 a <? s64 b)
  | BLTU => a <? b
  | BGEU => negb (a <? b)
  end.

(** ** Instructions and their execution *)

Inductive instruction : Type :=
| Reg (op : rop) (rd rs1 rs2 : Z)
| Imm (op : iop) (rd rs1 imm : Z)
| Shift (op : shop) (rd rs1 shamt : Z)
| Unary (op : uop) (rd rs1 : Z)
| Lui (rd imm : Z)
| Auipc (rd imm : Z)
| Jalr (rd rs1 imm : Z)
| Load (op : lop) (rd : Z) (addr : Address)
| Store (op : sop) (rs2 : Z) (addr : Address).

Section Exec.
Context {M : Type} `{MemoryOps M}.
Implicit Types s : Simulator M.

(** Completion of an instruction of [len] bytes. *)
Definition count s : Simulator M := set_instret (u64 (instret_ s + 1)) s.
Definition retire (len : Z) s : Simulator M := count (add_pc len s).

Definition address (addr : Address) s : Z := u64 (get_xreg (base addr) s + offset addr).

(** What an instruction of [len] bytes does. *)
Definition exec (i : instruction) (len : Z) s : sim_result (Simulator M) :=
  match i with
  | Reg op rd rs1 rs2 =>
      Ok (retire len (set_xreg rd (rop_sem op (get_xreg rs1 s) (get_xreg rs2 s)) s))
  | Imm op rd rs1 imm =>
      Ok (retire len (set_xreg rd (iop_sem op (get_xreg rs1 s) imm) s))
  | Shift op rd rs1 n =>
      Ok (retire len (set_xreg rd (shop_sem op (get_xreg rs1 s) n) s))
  | Unary op rd rs1 => Ok (retire len (set_xreg rd (uop_sem op (get_xreg rs1 s)) s))
  | Lui rd imm => Ok (retire len (set_xreg rd imm s))
  | Auipc rd imm => Ok (retire len (set_xreg rd (pc_ s + imm) s))
  | Jalr rd rs1 imm =>
      let target := Z.clearbit (u64 (get_xreg rs1 s + imm)) 0 in
      Ok (count (set_pc target (set_xreg rd (pc_ s + len) s)))
  | Load op rd addr =>
      '(v, m) ← mem_load (lop_type op) (address addr s) (memory_ s);
      Ok (retire len (set_xreg rd v (set_memory m s)))
  | Store op rs2 addr =>
      m ← mem_store (sop_type op) (address addr s)
            (uwrap (ct_bits (sop_type op)) (get_xreg rs2 s)) (memory_ s);
      Ok (retire len (set_memory m s))
  end.

End Exec.

(** ** The assembler method of an instruction *)

Definition assemble_rop (op : rop) : Z -> Z -> Z -> MicroAssembler -> MicroAssembler :=
  match op with
  | ADD => Asm.add | SUB => Asm.sub | SLL => Asm.sll | SLT => Asm.slt
  | SLTU => Asm.sltu | XOR => Asm.xor_ | SRL => Asm.srl | SRA => Asm.sra
  | OR => Asm.or_ | AND => Asm.and_
  | ADDW => Asm.addw | SUBW => Asm.subw | SLLW => Asm.sllw | SRLW => Asm.srlw
  | SRAW => Asm.sraw
  | MUL => Asm.mul | MULH => Asm.mulh | MULHSU => Asm.mulhsu | MULHU => Asm.mulhu
  | DIV => Asm.div | DIVU => Asm.divu | REM => Asm.rem | REMU => Asm.remu
  | DIVW => Asm.divw | DIVUW => Asm.divuw | REMW => Asm.remw | REMUW => Asm.remuw
  | ADD_UW => Asm.adduw | SH1ADD => Asm.sh1add | SH2ADD => Asm.sh2add
  | SH3ADD => Asm.sh3add | SH1ADD_UW => Asm.sh1adduw | SH2ADD_UW => Asm.sh2adduw
  | SH3ADD_UW => Asm.sh3adduw
  | ANDN => Asm.andn | ORN => Asm.orn | XNOR => Asm.xnor
  | MAX => Asm.max | MAXU => Asm.maxu | MIN => Asm.min | MINU => Asm.minu
  | ROL => Asm.rol | ROR => Asm.ror
  | CLMUL => Asm.clmul | CLMULH => Asm.clmulh | CLMULR => Asm.clmulr
  | BCLR => Asm.bclr | BEXT => Asm.bext | BINV => Asm.binv | BSET => Asm.bset
  | CZERO_EQZ => Asm.czeroeqz | CZERO_NEZ => Asm.czeronez
  end.

Definition assemble_iop (op : iop) : Z -> Z -> Z -> MicroAssembler -> MicroAssembler :=
  match op with
  | ADDI => Asm.addi | SLTI => Asm.slti | SLTIU => Asm.sltiu | XORI => Asm.xori
  | ORI => Asm.ori | ANDI => Asm.andi | ADDIW => Asm.addiw
  end.

Definition assemble_shop (op : shop) : Z -> Z -> Z -> MicroAssembler -> MicroAssembler :=
  match op with
  | SLLI => Asm.slli | SRLI => Asm.srli | SRAI => Asm.srai
  | SLLIW => Asm.slliw | SRLIW => Asm.srliw | SRAIW => Asm.sraiw
  | SLLI_UW => Asm.slliuw | RORI => Asm.rori
  | BCLRI => Asm.bclri | BEXTI => Asm.bexti | BINVI => Asm.binvi | BSETI => Asm.bseti
  end.

Definition assemble_uop (op : uop) : Z -> Z -> MicroAssembler -> MicroAssembler :=
  match op with
  | CLZ => Asm.clz | CTZ => Asm.ctz | CPOP => Asm.cpop
  | CLZW => Asm.clzw | CTZW => Asm.ctzw | CPOPW => Asm.cpopw
  | SEXT_B => Asm.sextb | SEXT_H => Asm.sexth | ZEXT_H => Asm.zexth
  | ORC_B => Asm.orcb | REV8 => Asm.rev8
  end.

Definition assemble_lop (op : lop) : Z -> Address -> MicroAssembler -> MicroAssembler :=
  match op with
  | LB => Asm.lb | LH => Asm.lh | LW => Asm.lw | LBU => Asm.lbu | LHU => Asm.lhu
  | LWU => Asm.lwu | LD => Asm.ld
  end.

Definition assemble_sop (op : sop) : Z -> Address -> MicroAssembler -> MicroAssembler :=
  match op with
  | SB => Asm.sb | SH => Asm.sh | SW => Asm.sw | SD => Asm.sd
  end.

Definition assemble (i : instruction) : MicroAssembler -> MicroAssembler :=
  match i with
  | Reg op rd rs1 rs2 => assemble_rop op rd rs1 rs2
  | Imm op rd rs1 imm => assemble_iop op rd rs1 imm
  | Shift op rd rs1 n => assemble_shop op rd rs1 n
  | Unary op rd rs1 => assemble_uop op rd rs1
  | Lui rd imm => Asm.lui rd imm
  | Auipc rd imm => Asm.auipc rd imm
  | Jalr rd rs1 imm => Asm.jalr rd rs1 imm
  | Load op rd addr => assemble_lop op rd addr
  | Store op rs2 addr => assemble_sop op rs2 addr
  end.
