(* ===== verification/RiscvDecode.v ===== *)
(** * From emitted bytes to decoded operands

    What the decoders of [Instr] read from the words the assembler's formats
    build, and how the simulator fetches the bytes the assembler emitted.
    These lemmas connect [RiscvAssembler] with [RiscvSimulator]; the compressed
    formats have few enough operands that their tables are checked by
    computation. *)

From S2P Require Import Prelude Utils RiscvConstants RiscvEncoding RiscvAssembler.
From S2P Require Import SimMemory RiscvSimulator RiscvIsa.

(** ** The 32-bit formats *)

Definition rtype_word (funct7 rs2 rs1 funct3 rd opcode : Z) : Z :=
  EncodeFunct7 funct7 .| EncodeRs2 rs2 .| EncodeRs1 rs1
  .| EncodeFunct3 funct3 .| EncodeRd rd .| EncodeOpcode opcode.
Definition shamt_word (funct7 shamt rs1 funct3 rd opcode : Z) : Z :=
  EncodeFunct7 funct7 .| EncodeShamt shamt .| EncodeRs1 rs1
  .| EncodeFunct3 funct3 .| EncodeRd rd .| EncodeOpcode opcode.
Definition itype_word (imm rs1 funct3 rd opcode : Z) : Z :=
  EncodeITypeImm imm .| EncodeRs1 rs1 .| EncodeFunct3 funct3
  .| EncodeRd rd .| EncodeOpcode opcode.
Definition stype_word (imm rs2 rs1 funct3 opcode : Z) : Z :=
  EncodeSTypeImm imm .| EncodeRs2 rs2 .| EncodeRs1 rs1
  .| EncodeFunct3 funct3 .| EncodeOpcode opcode.
Definition utype_word (imm rd opcode : Z) : Z :=
  EncodeUTypeImm imm .| EncodeRd rd .| EncodeOpcode opcode.

(** Rewrites the encoders of a word as shifted fields. *)
Ltac encode_fields :=
  unfold EncodeFunct7, EncodeRs2, EncodeRs1, EncodeFunct3, EncodeRd, EncodeShamt,
    EncodeOpcode in *;
  rewrite ?(EncodeFunct_shiftl 7 25), ?(EncodeFunct_shiftl 3 12),
    ?(EncodeFunct_shiftl 6 20), ?(EncodeFunct_shiftl 7 0), ?(EncodeReg_shiftl 20),
    ?(EncodeReg_shiftl 15), ?(EncodeReg_shiftl 7) by (done || lia).

Ltac decode_fields :=
  rewrite ?DecodeOpcode_field, ?DecodeFunct3_field, ?DecodeFunct7_field,
    ?DecodeShamt_field, ?DecodeFunct12_field;
  unfold DecodeRd, DecodeRs1, DecodeRs2 in *; rewrite ?DecodeReg_field.

Ltac word_range :=
  repeat (apply is_u_lor; [lia| |]);
  match goal with
  | H : is_u ?n ?x |- is_u 32 (?x ≪ ?k) => apply (is_u_shiftl 32 n); done || lia
  | |- is_u 32 (field _ _ ?n ≪ ?k) =>
      apply (is_u_shiftl 32 n); [lia..|]; apply field_range; lia
  end.

Section Formats.
Variables (f7 rs2 rs1 f3 rd op : Z).
Hypotheses (Hf7 : is_u 7 f7) (Hrs2 : is_u 5 rs2) (Hrs1 : is_u 5 rs1)
  (Hf3 : is_u 3 f3) (Hrd : is_u 5 rd) (Hop : is_u 7 op).

Lemma rtype_word_decode :
  let w := rtype_word f7 rs2 rs1 f3 rd op in
  is_u 32 w /\ DecodeOpcode w = op /\ DecodeFunct3 w = f3 /\ DecodeFunct7 w = f7 /\
  DecodeRd w = rd /\ DecodeRs1 w = rs1 /\ DecodeRs2 w = rs2.
Proof.
  cbv zeta. unfold rtype_word. encode_fields. split; [word_range|].
  decode_fields. split_and!; field_simpl; done.
Qed.

(** The amount and [funct7] share bit 25. *)
Lemma shamt_word_decode shamt : is_u 6 shamt ->
  let w := shamt_word f7 shamt rs1 f3 rd op in
  is_u 32 w /\ DecodeOpcode w = op /\ DecodeFunct3 w = f3 /\
  DecodeFunct7 w = f7 .| field shamt 5 1 /\
  DecodeShamt w = field f7 0 1 ≪ 5 .| shamt /\
  DecodeRd w = rd /\ DecodeRs1 w = rs1.
Proof.
  intros Hs. cbv zeta. unfold shamt_word. encode_fields. split; [word_range|].
  decode_fields. split_and!.
  - field_simpl. done.
  - field_simpl. done.
  - rewrite !field_lor. rewrite (field_shiftl_same f7) by done.
    rewrite (field_shiftl_below 5 rs1), (field_shiftl_below 3 f3),
      (field_shiftl_below 5 rd), (field_shiftl_below 7 op), !Z.lor_0_r by done.
    f_equal. apply Z.bits_inj'. intros i Hi. rewrite !testbit_field, Z.shiftl_spec by lia.
    replace (i + 25 - 20) with (i + 5) by lia.
    destruct (i <? 1) eqn:E1; reflect_bool; cbn [andb].
    + by rewrite (proj2 (Z.ltb_lt i 7)) by lia.
    + rewrite (testbit_high 6 shamt) by (done || lia). apply andb_false_r.
  - rewrite !field_lor. rewrite (field_shiftl_same shamt) by done.
    rewrite (field_shiftl_below 5 rs1), (field_shiftl_below 3 f3),
      (field_shiftl_below 5 rd), (field_shiftl_below 7 op), !Z.lor_0_r by done.
    f_equal. apply Z.bits_inj'. intros i Hi.
    rewrite testbit_field, testbit_field_shiftl, Z.shiftl_spec by lia.
    destruct (i <? 6) eqn:E1, (5 <=? i) eqn:E2; reflect_bool; cbn [andb].
    + rewrite (proj2 (Z.ltb_lt i (5 + 1))) by lia. cbn. f_equal. lia.
    + rewrite Z.testbit_neg_r by lia. done.
    + rewrite (proj2 (Z.ltb_ge i (5 + 1))) by lia. done.
    + lia.
  - field_simpl. done.
  - field_simpl. done.
Qed.

Lemma itype_word_fields imm :
  let w := itype_word imm rs1 f3 rd op in
  is_u 32 w /\ DecodeOpcode w = op /\ DecodeFunct3 w = f3 /\
  DecodeRd w = rd /\ DecodeRs1 w = rs1 /\ field w 20 12 = field imm 0 12.
Proof.
  cbv zeta. unfold itype_word.
  replace (EncodeITypeImm imm) with (field imm 0 12 ≪ 20).
  2: { unfold EncodeITypeImm. apply Z.bits_inj'. intros i Hi.
       rewrite testbit_field_shiftl, testbit_uwrap, Z.shiftl_spec by lia.
       destruct (20 <=? i) eqn:E1, (i <? 20 + 12) eqn:E2; reflect_bool; cbn [andb].
       - rewrite (proj2 (Z.ltb_lt i 32)), testbit_uwrap by lia.
         rewrite (proj2 (Z.ltb_lt (i - 20) 32)) by lia. cbn. f_equal. lia.
       - by rewrite (proj2 (Z.ltb_ge i 32)) by lia.
       - rewrite Z.testbit_neg_r by lia. by rewrite andb_false_r.
       - lia. }
  encode_fields. split; [word_range|].
  decode_fields. split_and!; field_simpl; done.
Qed.

Lemma itype_word_decode imm :
  IsITypeImm imm = true -> DecodeITypeImm (itype_word imm rs1 f3 rd op) = imm.
Proof.
  intros H. apply DecodeITypeImm_fields; [|done].
  apply (itype_word_fields imm).
Qed.

Lemma stype_word_decode imm : IsSTypeImm imm = true ->
  let w := stype_word imm rs2 rs1 f3 op in
  is_u 32 w /\ DecodeOpcode w = op /\ DecodeFunct3 w = f3 /\
  DecodeRs1 w = rs1 /\ DecodeRs2 w = rs2 /\ DecodeSTypeImm w = imm.
Proof.
  intros Hi. cbv zeta. unfold stype_word, EncodeSTypeImm. fold_fields imm.
  encode_fields. split; [word_range|].
  decode_fields. split_and!; [field_simpl; done..|].
  apply DecodeSTypeImm_fields; [field_simpl; done..|done].
Qed.

Lemma utype_word_decode imm : IsUTypeImm imm = true ->
  let w := utype_word imm rd op in
  is_u 32 w /\ DecodeOpcode w = op /\ DecodeRd w = rd /\ DecodeUTypeImm w = imm.
Proof.
  intros Hi. cbv zeta. unfold utype_word.
  assert (EncodeUTypeImm imm = field imm 12 20 ≪ 12) as ->.
  { unfold EncodeUTypeImm. unfold IsUTypeImm in Hi.
    apply andb_true_iff in Hi as [_ Ha].
    pose proof (aligned_bits 12 _ ltac:(lia) Ha) as Hlow.
    apply Z.bits_inj'. intros i Hi.
    rewrite testbit_field_shiftl, testbit_uwrap by lia.
    destruct (i <? 32) eqn:E1, (12 <=? i) eqn:E2; reflect_bool; cbn [andb].
    - rewrite (proj2 (Z.ltb_lt i (12 + 20))) by lia. cbn. f_equal. lia.
    - apply Hlow. lia.
    - by rewrite (proj2 (Z.ltb_ge i (12 + 20))) by lia.
    - done. }
  encode_fields. split; [word_range|].
  decode_fields. split_and!; [field_simpl; done..|].
  apply DecodeUTypeImm_fields; [field_simpl; done|done].
Qed.

End Formats.

(** ** Fetching what was emitted *)

(** The bytes a method appended. *)
Definition emitted (a a' : MicroAssembler) : list Z :=
  drop (length (buffer_ a)) (buffer_ a').

Lemma emitted_Emit32 w a :
  is_u 32 w -> emitted a (Asm.Emit32 w a) = Z_to_little_endian 4 8 w.
Proof.
  intros. unfold emitted, Asm.Emit32. cbn [buffer_ set_buffer].
  by rewrite drop_app_length, uwrap_small.
Qed.

Lemma emitted_Emit16 w a :
  is_u 16 w -> emitted a (Asm.Emit16 w a) = Z_to_little_endian 2 8 w.
Proof.
  intros. unfold emitted, Asm.Emit16. cbn [buffer_ set_buffer].
  by rewrite drop_app_length, uwrap_small.
Qed.

(** The bytes [bs] are in the process at [addr]. *)
Definition code_at (h : host) (addr : Z) (bs : list Z) : Prop :=
  forall i : nat, (i < length bs)%nat -> h !! (addr + Z.of_nat i) = bs !! i.

Lemma code_at_app h addr bs1 bs2 :
  code_at h addr (bs1 ++ bs2) <->
  code_at h addr bs1 /\ code_at h (addr + Z.of_nat (length bs1)) bs2.
Proof.
  unfold code_at. rewrite length_app. split.
  - intros Hc. split; intros i Hi.
    + rewrite Hc by lia. by rewrite lookup_app_l.
    + replace (addr + Z.of_nat (length bs1) + Z.of_nat i)
        with (addr + Z.of_nat (length bs1 + i)) by lia.
      rewrite Hc by lia. rewrite lookup_app_r by lia. f_equal. lia.
  - intros [H1 H2] i Hi. destruct (decide (i < length bs1)%nat).
    + rewrite lookup_app_l by done. by apply H1.
    + rewrite lookup_app_r by lia. rewrite <- H2 by lia. f_equal. lia.
Qed.

Lemma code_at_byte h addr n w i :
  0 <= n -> code_at h addr (Z_to_little_endian n 8 w) -> 0 <= i < n ->
  h !! (addr + i) = Some (byte w (0 + i)).
Proof.
  intros Hn Hc Hi. pose proof (length_Z_to_little_endian n 8 w Hn) as L.
  rewrite <- (Z2Nat.id i) at 1 by lia. rewrite Hc by lia.
  apply Z_to_little_endian_lookup_Some; [lia..|]. split; [lia|].
  unfold byte, field. do 2 f_equal. lia.
Qed.

Lemma code_at_load T h addr n w :
  ct_ok T -> ct_signed T = false -> ct_sizeof T <= n ->
  code_at h addr (Z_to_little_endian n 8 w) ->
  host_load T addr h = Ok (uwrap (ct_bits T) w).
Proof.
  intros HT Hu Hn Hc. pose proof (ct_ok_sizeof T HT) as [_ Hs].
  rewrite (host_load_bytes T addr h w 0); [|done|lia|].
  - rewrite Z.shiftr_0_r. unfold ct_cast. by rewrite Hu.
  - intros i Hi. apply (code_at_byte h addr n); [lia|done|lia].
Qed.

Lemma IsCInstruction_word w :
  IsCInstruction (u16 w) = negb (field w 0 2 =? 3).
Proof.
  unfold IsCInstruction. do 2 f_equal. apply Z.bits_inj'. intros i Hi.
  change 3 with (Z.ones 2). rewrite Z.land_spec, testbit_uwrap, testbit_field,
    Z.testbit_ones_nonneg by lia.
  destruct (i <? 2) eqn:E; reflect_bool; [|apply andb_false_r].
  rewrite (proj2 (Z.ltb_lt i 16)) by lia. rewrite andb_true_r. cbn. f_equal. lia.
Qed.

Section Fetch.
Context {M : Type} `{MemoryOps M}.
Implicit Types s : Simulator M.

(** The code [bs] is what the simulator executes next. *)
Definition loaded (bs : list Z) s : Prop :=
  code_at (process (memory_ s)) (pc_ s) bs.

Lemma step_32 w s :
  is_u 32 w -> field (DecodeOpcode w) 0 2 = 3 ->
  loaded (Z_to_little_endian 4 8 w) s ->
  step s = (s' ← Interpret w s; Ok (count s')).
Proof.
  intros Hw Hop Hl. unfold step, loaded in *.
  rewrite (code_at_load uint16_t _ _ 4 w) by (done || by (right; left) || done).
  cbn [mbind result_bind]. change (uwrap (ct_bits uint16_t) w) with (u16 w).
  rewrite IsCInstruction_word.
  replace (field w 0 2) with 3.
  - cbn [negb Z.eqb Pos.eqb].
    rewrite (code_at_load uint32_t _ _ 4 w) by (done || by (right; right; left) || done).
    change (uwrap (ct_bits uint32_t) w) with (u32 w). rewrite uwrap_small by done. done.
  - rewrite <- Hop, DecodeOpcode_field. apply Z.bits_inj'. intros i Hi.
    rewrite !testbit_field by lia. destruct (i <? 2) eqn:E; [|done]. reflect_bool.
    rewrite (proj2 (Z.ltb_lt (i + 0) 7)) by lia. cbn. f_equal. lia.
Qed.

Lemma step_16 w s :
  is_u 16 w -> IsCInstruction w = true ->
  loaded (Z_to_little_endian 2 8 w) s ->
  step s = (s' ← InterpretC w s; Ok (count s')).
Proof.
  intros Hw Hc Hl. unfold step, loaded in *.
  rewrite (code_at_load uint16_t _ _ 2 w) by (done || by (right; left) || done).
  cbn [mbind result_bind]. change (uwrap (ct_bits uint16_t) w) with (u16 w).
  rewrite uwrap_small by done. by rewrite Hc.
Qed.

End Fetch.

(** ** Compressed formats, by computation

    [checked P l1 l2] runs a boolean test on all pairs of operands. *)

Definition checked (P : Z -> Z -> bool) (l1 l2 : list Z) : bool :=
  forallb (fun x => forallb (P x) l2) l1.

Lemma checked_spec P lo1 n1 lo2 n2 :
  checked P (seqZ lo1 n1) (seqZ lo2 n2) = true ->
  forall x y, lo1 <= x < lo1 + n1 -> lo2 <= y < lo2 + n2 -> P x y = true.
Proof.
  unfold checked. rewrite forallb_forall. intros H x y Hx Hy.
  specialize (H x). rewrite forallb_forall in H. apply H.
  - apply list_elem_of_In, elem_of_seqZ. lia.
  - apply list_elem_of_In, elem_of_seqZ. lia.
Qed.

(** A 16-bit parcel of the compressed opcode [op] under [mask]. *)
Definition is_parcel (w mask op : Z) : bool :=
  (0 <=? w) && (w <? 2 ^ 16) && IsCInstruction w && (w .& mask =? op).

Lemma is_parcel_spec w mask op :
  is_parcel w mask op = true ->
  is_u 16 w /\ IsCInstruction w = true /\ w .& mask = op.
Proof. unfold is_parcel, is_u. intros. reflect_bool. done. Qed.
