(* ===== verification/RiscvInterpret.v ===== *)
(** * Assembling and simulating: the correctness of the RISC-V stack

    For every integer instruction of the abstract RISC-V, the bytes that the
    assembler emits for it, in whatever encoding it chooses, make the simulator
    take exactly the step the instruction specifies. *)

From S2P Require Import Prelude Utils RiscvConstants RiscvEncoding RiscvAssembler.
From S2P Require Import SimMemory RiscvSimulator RiscvArith RiscvIsa RiscvDecode.

(** The bit loops are compared by name, never run symbolically. *)
#[local] Opaque Arith.clz Arith.ctz Arith.cpop Arith.clzw Arith.ctzw Arith.cpopw
  Arith.clmul Arith.clmulh Arith.clmulr Arith.orcb Arith.rev8
  clz_spec ctz_spec cpop_spec clprod word_of_bytes.

(** ** Well-formed states *)

Section State.
Context {M : Type} `{MemoryOps M}.
Implicit Types s : Simulator M.

Record sim_wf s : Prop := {
  wf_length : length (xregs_ s) = 32%nat;
  wf_range : Forall (is_u 64) (xregs_ s);
  wf_zero : xregs_ s !! 0%nat = Some 0;
  wf_pc : is_u 64 (pc_ s)
}.

Lemma get_xreg_range r s : sim_wf s -> is_u 5 r -> is_u 64 (get_xreg r s).
Proof.
  intros Hs Hr. unfold get_xreg. apply Forall_lookup_total_1; [apply Hs|].
  rewrite (wf_length s Hs). unfold is_u in Hr. lia.
Qed.

Lemma get_xreg_zr s : sim_wf s -> get_xreg Register.ZR s = 0.
Proof. intros Hs. apply list_lookup_total_correct, Hs. Qed.

Lemma set_xreg_ext rd v1 v2 s :
  u64 v1 = u64 v2 -> set_xreg rd v1 s = set_xreg rd v2 s.
Proof. intros E. unfold set_xreg. by rewrite E. Qed.

(** [set_xreg] preserves well-formedness, and with it [x0] stays zero. *)
Lemma set_xreg_wf rd v s : sim_wf s -> is_u 5 rd -> sim_wf (set_xreg rd v s).
Proof.
  intros Hs Hr. unfold set_xreg, Register.ZR.
  destruct (rd =? 0) eqn:E; [done|]. reflect_bool. unfold is_u in Hr.
  split; cbn.
  - rewrite length_insert. apply Hs.
  - apply Forall_insert; [apply Hs|]. by apply uwrap_range.
  - rewrite list_lookup_insert_ne by lia. apply Hs.
  - apply Hs.
Qed.

Lemma get_set_xreg r rd v s :
  sim_wf s -> is_u 5 r -> is_u 5 rd ->
  get_xreg r (set_xreg rd v s)
  = if (r =? rd) && negb (rd =? Register.ZR) then u64 v else get_xreg r s.
Proof.
  intros Hs Hr Hrd. unfold set_xreg, get_xreg, Register.ZR, is_u in *.
  destruct (rd =? 0) eqn:E; [by rewrite andb_false_r|]. rewrite andb_true_r. cbn.
  destruct (r =? rd) eqn:E2; reflect_bool.
  - subst. rewrite list_lookup_total_insert_eq; [done|]. rewrite (wf_length s Hs). lia.
  - by rewrite list_lookup_total_insert_ne by lia.
Qed.

Lemma memory_set_xreg rd v s : memory_ (set_xreg rd v s) = memory_ s.
Proof. unfold set_xreg. by destruct (rd =? Register.ZR). Qed.
Lemma pc_set_xreg rd v s : pc_ (set_xreg rd v s) = pc_ s.
Proof. unfold set_xreg. by destruct (rd =? Register.ZR). Qed.

End State.

#[export] Hint Resolve get_xreg_range set_xreg_wf : vm.

(** A simulator about to execute at [pc]. *)
Definition boot {M} (pc : Z) (m : M) : Simulator M :=
  mkSimulator pc (replicate 32 0) 0 0 0 (replicate 32 0) 0 1 m [].

Lemma boot_wf {M} `{MemoryOps M} pc (m : M) : is_u 64 pc -> sim_wf (boot pc m).
Proof. intros. split; [done| |done|done]. by repeat constructor. Qed.

(** ** Values: what the interpreter computes is what the instruction means *)

Lemma u64_eq_mod x y : (2 ^ 64 | x - y) -> u64 x = u64 y.
Proof.
  intros [k Hk]. unfold uwrap. replace x with (y + k * 2 ^ 64) by lia.
  apply Z_mod_plus_full.
Qed.

Lemma shiftl_mod a b : a ≪ (b .& (XLEN - 1)) = a * 2 ^ (b mod 64).
Proof.
  rewrite land_63. apply Z.shiftl_mul_pow2. apply Z.mod_pos_bound. lia.
Qed.
Lemma shiftr_mod a b : a ≫ (b .& (XLEN - 1)) = a / 2 ^ (b mod 64).
Proof.
  rewrite land_63. apply Z.shiftr_div_pow2. apply Z.mod_pos_bound. lia.
Qed.

Lemma land_31 b : u32 (b .& (32 - 1)) = b mod 32.
Proof.
  change (32 - 1) with (Z.ones 5). rewrite Z.land_ones by lia.
  change (2 ^ 5) with 32. apply uwrap_small. unfold is_u.
  pose proof (Z.mod_pos_bound b 32 ltac:(lia)). lia.
Qed.

Lemma shl32_mod a b : Arith.shl32 a (u32 (b .& (32 - 1))) = Ok (u32 (a * 2 ^ (b mod 32))).
Proof.
  rewrite land_31. pose proof (Z.mod_pos_bound b 32 ltac:(lia)).
  unfold Arith.shl32. rewrite (proj2 (Z.ltb_lt _ _)) by lia.
  by rewrite Z.shiftl_mul_pow2 by lia.
Qed.
Lemma shr32_mod a b : Arith.shr32 a (u32 (b .& (32 - 1))) = Ok (a / 2 ^ (b mod 32)).
Proof.
  rewrite land_31. pose proof (Z.mod_pos_bound b 32 ltac:(lia)).
  unfold Arith.shr32. rewrite (proj2 (Z.ltb_lt _ _)) by lia.
  by rewrite Z.shiftr_div_pow2 by lia.
Qed.

Lemma s32_u32_mul a k : s32 (u32 (u32 a * k)) = s32 (a * k).
Proof. by rewrite uwrap_mul_l, swrap_uwrap. Qed.

(** The quotient of a 32-bit number by a power of two fits. *)
Lemma s32_div_pow2 a n : 0 <= n -> s32 (s32 a / 2 ^ n) = s32 a / 2 ^ n.
Proof.
  intros Hn. apply swrap_small; [lia|]. pose proof (swrap_range 32 a ltac:(lia)) as Hr.
  unfold is_s in *. pose proof (pow2_pos n Hn). split.
  - apply Z.div_le_lower_bound; [lia|]. nia.
  - apply Z.div_lt_upper_bound; [lia|]. nia.
Qed.

Lemma rotr_rotation a n : is_u 64 a -> 0 <= n < 64 -> is_rotation 64 n a (rotr a n).
Proof.
  intros Ha Hn. unfold rotr. rewrite Z.lor_comm.
  destruct (decide (n = 0)) as [->|].
  - replace (u64 (a ≪ (64 - 0))) with 0.
    + rewrite Z.lor_0_l, Z.shiftr_0_r. split; [done|]. intros i Hi.
      by rewrite Z.add_0_r, Z.mod_small.
    + rewrite Z.shiftl_mul_pow2 by lia. symmetry. apply Z.mod_mul. lia.
  - rewrite <- (Z.mod_small (64 - n) 64) by lia. by apply rotate_bits.
Qed.

Lemma ror_value a b : is_u 64 a -> Arith.ror a b = rotr a (b mod 64).
Proof.
  intros Ha. eapply (is_rotation_unique 64); [lia|by apply ror_ok|].
  apply rotr_rotation; [done|]. apply Z.mod_pos_bound. lia.
Qed.

Lemma rol_value a b : is_u 64 a -> Arith.rol a b = rotr a ((- b) mod 64).
Proof.
  intros Ha. eapply (is_rotation_unique 64); [lia|by apply rol_ok|].
  apply rotr_rotation; [done|]. apply Z.mod_pos_bound. lia.
Qed.

Lemma u64_land_lnot a b : is_u 64 a -> a .& u64 (Z.lnot b) = Z.ldiff a b.
Proof.
  intros Ha. apply Z.bits_inj'. intros i Hi.
  rewrite Z.land_spec, Z.ldiff_spec, testbit_uwrap, Z.lnot_spec by lia.
  destruct (i <? 64) eqn:E; reflect_bool; [done|].
  by rewrite (testbit_high 64 a i).
Qed.

(** Bitwise operations commute with the conversion to a register. *)
Lemma u64_lor_u64 a b : u64 (a .| u64 b) = u64 (a .| b).
Proof.
  apply uwrap_bit_ext; [lia|]. intros i Hi. rewrite !Z.lor_spec, testbit_uwrap by lia.
  by rewrite (proj2 (Z.ltb_lt i 64)) by lia.
Qed.
Lemma u64_lxor_u64 a b : u64 (a .^ u64 b) = u64 (a .^ b).
Proof.
  apply uwrap_bit_ext; [lia|]. intros i Hi. rewrite !Z.lxor_spec, testbit_uwrap by lia.
  by rewrite (proj2 (Z.ltb_lt i 64)) by lia.
Qed.
Lemma u64_land_u64 a b : u64 (a .& u64 b) = u64 (a .& b).
Proof.
  apply uwrap_bit_ext; [lia|]. intros i Hi. rewrite !Z.land_spec, testbit_uwrap by lia.
  by rewrite (proj2 (Z.ltb_lt i 64)) by lia.
Qed.

Lemma lxor_lnot a b : a .^ Z.lnot b = Z.lnot (a .^ b).
Proof.
  apply Z.bits_inj'. intros i Hi. rewrite Z.lnot_spec, !Z.lxor_spec, Z.lnot_spec by lia.
  by destruct (Z.testbit a i), (Z.testbit b i).
Qed.

Lemma max_value a b : Arith.max a b = Z.max a b.
Proof. unfold Arith.max. destruct (b <? a) eqn:E; reflect_bool; lia. Qed.
Lemma min_value a b : Arith.min a b = Z.min a b.
Proof. unfold Arith.min. destruct (a <? b) eqn:E; reflect_bool; lia. Qed.

Lemma mul_value a b : u64 (Arith.mul (s64 a) (s64 b)) = u64 (a * b).
Proof.
  unfold Arith.mul. rewrite uwrap_swrap, !uwrap_uwrap, !uwrap_swrap by lia.
  by rewrite uwrap_mul_l, uwrap_mul_r.
Qed.

Lemma u64_small_div a n : is_u 64 a -> 0 <= n -> is_u 64 (a / 2 ^ n).
Proof.
  intros Ha Hn. unfold is_u in *. pose proof (pow2_pos n Hn).
  split; [apply Z.div_pos; lia|]. apply Z.div_lt_upper_bound; nia.
Qed.

(** ** One interpreted instruction *)

(** [(funct7, funct3, opcode)] of a register-register instruction. *)
Definition rop_code (op : rop) : Z * Z * Z :=
  match op with
  | ADD => (Funct7.F7_0, Funct3.ADD, Opcode.OP)
  | SUB => (Funct7.SUB, Funct3.ADD, Opcode.OP)
  | SLL => (Funct7.F7_0, Funct3.SLL, Opcode.OP)
  | SLT => (Funct7.F7_0, Funct3.SLT, Opcode.OP)
  | SLTU => (Funct7.F7_0, Funct3.SLTU, Opcode.OP)
  | XOR => (Funct7.F7_0, Funct3.XOR, Opcode.OP)
  | SRL => (Funct7.F7_0, Funct3.SR, Opcode.OP)
  | SRA => (Funct7.SRA, Funct3.SR, Opcode.OP)
  | OR => (Funct7.F7_0, Funct3.OR, Opcode.OP)
  | AND => (Funct7.F7_0, Funct3.AND, Opcode.OP)
  | ADDW => (Funct7.F7_0, Funct3.ADD, Opcode.OP32)
  | SUBW => (Funct7.SUB, Funct3.ADD, Opcode.OP32)
  | SLLW => (Funct7.F7_0, Funct3.SLL, Opcode.OP32)
  | SRLW => (Funct7.F7_0, Funct3.SR, Opcode.OP32)
  | SRAW => (Funct7.SRA, Funct3.SR, Opcode.OP32)
  | MUL => (Funct7.MULDIV, Funct3.MUL, Opcode.OP)
  | MULH => (Funct7.MULDIV, Funct3.MULH, Opcode.OP)
  | MULHSU => (Funct7.MULDIV, Funct3.MULHSU, Opcode.OP)
  | MULHU => (Funct7.MULDIV, Funct3.MULHU, Opcode.OP)
  | DIV => (Funct7.MULDIV, Funct3.DIV, Opcode.OP)
  | DIVU => (Funct7.MULDIV, Funct3.DIVU, Opcode.OP)
  | REM => (Funct7.MULDIV, Funct3.REM, Opcode.OP)
  | REMU => (Funct7.MULDIV, Funct3.REMU, Opcode.OP)
  | DIVW => (Funct7.MULDIV, Funct3.DIVW, Opcode.OP32)
  | DIVUW => (Funct7.MULDIV, Funct3.DIVUW, Opcode.OP32)
  | REMW => (Funct7.MULDIV, Funct3.REMW, Opcode.OP32)
  | REMUW => (Funct7.MULDIV, Funct3.REMUW, Opcode.OP32)
  | ADD_UW => (Funct7.ADDUW, Funct3.F3_0, Opcode.OP32)
  | SH1ADD => (Funct7.SHADD, Funct3.SH1ADD, Opcode.OP)
  | SH2ADD => (Funct7.SHADD, Funct3.SH2ADD, Opcode.OP)
  | SH3ADD => (Funct7.SHADD, Funct3.SH3ADD, Opcode.OP)
  | SH1ADD_UW => (Funct7.SHADD, Funct3.SH1ADD, Opcode.OP32)
  | SH2ADD_UW => (Funct7.SHADD, Funct3.SH2ADD, Opcode.OP32)
  | SH3ADD_UW => (Funct7.SHADD, Funct3.SH3ADD, Opcode.OP32)
  | ANDN => (Funct7.SUB, Funct3.AND, Opcode.OP)
  | ORN => (Funct7.SUB, Funct3.OR, Opcode.OP)
  | XNOR => (Funct7.SUB, Funct3.XOR, Opcode.OP)
  | MAX => (Funct7.MINMAXCLMUL, Funct3.MAX, Opcode.OP)
  | MAXU => (Funct7.MINMAXCLMUL, Funct3.MAXU, Opcode.OP)
  | MIN => (Funct7.MINMAXCLMUL, Funct3.MIN, Opcode.OP)
  | MINU => (Funct7.MINMAXCLMUL, Funct3.MINU, Opcode.OP)
  | ROL => (Funct7.ROTATE, Funct3.ROL, Opcode.OP)
  | ROR => (Funct7.ROTATE, Funct3.ROR, Opcode.OP)
  | CLMUL => (Funct7.MINMAXCLMUL, Funct3.CLMUL, Opcode.OP)
  | CLMULH => (Funct7.MINMAXCLMUL, Funct3.CLMULH, Opcode.OP)
  | CLMULR => (Funct7.MINMAXCLMUL, Funct3.CLMULR, Opcode.OP)
  | BCLR => (Funct7.BCLRBEXT, Funct3.BCLR, Opcode.OP)
  | BEXT => (Funct7.BCLRBEXT, Funct3.BEXT, Opcode.OP)
  | BINV => (Funct7.BINV, Funct3.F3_BINV, Opcode.OP)
  | BSET => (Funct7.BSET, Funct3.F3_BSET, Opcode.OP)
  | CZERO_EQZ => (Funct7.CZERO, Funct3.CZEROEQZ, Opcode.OP)
  | CZERO_NEZ => (Funct7.CZERO, Funct3.CZERONEZ, Opcode.OP)
  end.

(** The value the interpreter computes for it. *)
Definition rop_value (op : rop) (a b : Z) : Z :=
  match op with
  | ADD => a + b
  | SUB => a - b
  | SLL => a ≪ (b .& (XLEN - 1))
  | SLT => of_bool (s64 a <? s64 b)
  | SLTU => of_bool (a <? b)
  | XOR => a .^ b
  | SRL => a ≫ (b .& (XLEN - 1))
  | SRA => s64 a ≫ (b .& (XLEN - 1))
  | OR => a .| b
  | AND => a .& b
  | ADDW => sign_extend 32 (u32 (u32 a + u32 b))
  | SUBW => sign_extend 32 (u32 (u32 a - u32 b))
  | SLLW => sign_extend 32 (u32 (u32 a * 2 ^ (b mod 32)))
  | SRLW => sign_extend 32 (u32 a / 2 ^ (b mod 32))
  | SRAW => sign_extend 32 (s32 a / 2 ^ (b mod 32))
  | MUL => Arith.mul (s64 a) (s64 b)
  | MULH => Arith.mulh (s64 a) (s64 b)
  | MULHSU => Arith.mulhsu (s64 a) b
  | MULHU => Arith.mulhu a b
  | DIV => Arith.div (s64 a) (s64 b)
  | DIVU => Arith.divu a b
  | REM => Arith.rem (s64 a) (s64 b)
  | REMU => Arith.remu a b
  | DIVW => sign_extend 32 (Arith.divw (s32 a) (s32 b))
  | DIVUW => sign_extend 32 (Arith.divuw (u32 a) (u32 b))
  | REMW => sign_extend 32 (Arith.remw (s32 a) (s32 b))
  | REMUW => sign_extend 32 (Arith.remuw (u32 a) (u32 b))
  | ADD_UW => u32 a + b
  | SH1ADD => u64 (a ≪ 1) + b
  | SH2ADD => u64 (a ≪ 2) + b
  | SH3ADD => u64 (a ≪ 3) + b
  | SH1ADD_UW => u64 (u32 a ≪ 1) + b
  | SH2ADD_UW => u64 (u32 a ≪ 2) + b
  | SH3ADD_UW => u64 (u32 a ≪ 3) + b
  | ANDN => a .& u64 (Z.lnot b)
  | ORN => a .| u64 (Z.lnot b)
  | XNOR => a .^ u64 (Z.lnot b)
  | MAX => Arith.max (s64 a) (s64 b)
  | MAXU => Arith.maxu a b
  | MIN => Arith.min (s64 a) (s64 b)
  | MINU => Arith.minu a b
  | ROL => Arith.rol a b
  | ROR => Arith.ror a b
  | CLMUL => Arith.clmul a b
  | CLMULH => Arith.clmulh a b
  | CLMULR => Arith.clmulr a b
  | BCLR => Arith.bclr a b
  | BEXT => Arith.bext a b
  | BINV => Arith.binv a b
  | BSET => Arith.bset a b
  | CZERO_EQZ => if b =? 0 then 0 else a
  | CZERO_NEZ => if negb (b =? 0) then 0 else a
  end.

Lemma rop_value_sem op a b :
  is_u 64 a -> is_u 64 b -> u64 (rop_value op a b) = u64 (rop_sem op a b).
Proof.
  intros Ha Hb.
  pose proof (swrap_range 64 a ltac:(lia)). pose proof (swrap_range 64 b ltac:(lia)).
  pose proof (swrap_range 32 a ltac:(lia)). pose proof (swrap_range 32 b ltac:(lia)).
  destruct op; cbn [rop_value rop_sem]; unfold sign_extend;
    rewrite ?shiftl_mod, ?shiftr_mod, ?s32_u32_mul;
    autorewrite with vm; try done.
  - rewrite s32_div_pow2; [done|]. apply Z.mod_pos_bound. lia.
  - apply mul_value.
  - by rewrite mulh_spec.
  - by rewrite mulhsu_spec, uwrap_uwrap.
  - by rewrite mulhu_spec.
  - by rewrite div_spec, uwrap_swrap.
  - unfold Arith.divu. by destruct (b =? 0).
  - by rewrite rem_spec_ok.
  - by rewrite divw_spec, swrap_swrap.
  - unfold Arith.divuw. by destruct (u32 b =? 0).
  - by rewrite remw_spec.
  - unfold Arith.remuw. destruct (u32 b =? 0); [|done]. by rewrite swrap_uwrap.
  - by rewrite Z.shiftl_mul_pow2, (Z.mul_comm a).
  - by rewrite Z.shiftl_mul_pow2, (Z.mul_comm a).
  - by rewrite Z.shiftl_mul_pow2, (Z.mul_comm (u32 a)).
  - by rewrite Z.shiftl_mul_pow2, (Z.mul_comm (u32 a)).
  - by rewrite u64_land_lnot.
  - apply u64_lor_u64.
  - by rewrite u64_lxor_u64, lxor_lnot.
  - by rewrite max_value.
  - by rewrite <- max_value.
  - by rewrite min_value.
  - by rewrite <- min_value.
  - by rewrite rol_value.
  - by rewrite ror_value.
  - by rewrite clmul_ok, uwrap_uwrap.
  - by rewrite clmulh_ok.
  - by rewrite clmulr_ok.
  - by rewrite bclr_ok.
  - by rewrite bext_ok.
  - by rewrite binv_ok.
  - by rewrite bset_ok.
  - by destruct (b =? 0).
Qed.

(** Runs the interpreter on a word whose operands are known: rewrites the
    decoded fields and takes the branches of the switches. *)
Ltac is_open t := match t with context [ ?x ] => is_var x end.

Ltac switch_step :=
  match goal with
  | |- context [ if ?a =? ?b then _ else _ ] =>
      tryif is_open a then fail else idtac;
      let c := eval vm_compute in (a =? b) in
      lazymatch c with true => idtac | false => idtac end;
      change (a =? b) with c; cbv iota
  end.

Section Interpret.
Context {M : Type} `{MemoryOps M}.
Implicit Types s : Simulator M.

Lemma decoded_reg_range w : is_u 5 (DecodeRs1 w) /\ is_u 5 (DecodeRs2 w) /\ is_u 5 (DecodeRd w).
Proof. split_and!; by apply field_range. Qed.

Lemma interpret_rop op w s f7 f3 opc :
  sim_wf s -> rop_code op = (f7, f3, opc) ->
  DecodeOpcode w = opc -> DecodeFunct3 w = f3 -> DecodeFunct7 w = f7 ->
  Interpret w s
  = Ok (add_pc 4 (set_xreg (DecodeRd w)
      (rop_sem op (get_xreg (DecodeRs1 w) s) (get_xreg (DecodeRs2 w) s)) s)).
Proof.
  intros Hs Hc Ho H3 H7. destruct (decoded_reg_range w) as (R1 & R2 & _).
  rewrite <- (set_xreg_ext (DecodeRd w) _ _ s
    (rop_value_sem op _ _ (get_xreg_range _ s Hs R1) (get_xreg_range _ s Hs R2))).
  unfold Interpret. cbv zeta. rewrite Ho.
  destruct op; cbn in Hc; injection Hc as <- <- <-; repeat switch_step;
    unfold InterpretOP, InterpretOP32; cbv zeta; rewrite H7; repeat switch_step;
    unfold InterpretOP_0, InterpretOP_SUB, InterpretOP_MULDIV, InterpretOP_SHADD,
      InterpretOP_MINMAXCLMUL, InterpretOP_ROTATE, InterpretOP_BCLRBEXT,
      InterpretOP_CZERO, InterpretOP32_0, InterpretOP32_SUB, InterpretOP32_MULDIV,
      InterpretOP32_SHADD, InterpretOP32_ADDUW;
    cbv zeta; rewrite ?H3; repeat switch_step;
    rewrite ?shl32_mod, ?shr32_mod; cbn [rop_value]; done.
Qed.

(** Instructions with an immediate. *)
Definition iop_code (op : iop) : Z * Z :=
  match op with
  | ADDI => (Funct3.ADDI, Opcode.OPIMM)
  | SLTI => (Funct3.SLTI, Opcode.OPIMM)
  | SLTIU => (Funct3.SLTIU, Opcode.OPIMM)
  | XORI => (Funct3.XORI, Opcode.OPIMM)
  | ORI => (Funct3.ORI, Opcode.OPIMM)
  | ANDI => (Funct3.ANDI, Opcode.OPIMM)
  | ADDIW => (Funct3.ADDI, Opcode.OPIMM32)
  end.

Lemma interpret_iop op w s f3 opc :
  iop_code op = (f3, opc) -> DecodeOpcode w = opc -> DecodeFunct3 w = f3 ->
  Interpret w s
  = Ok (add_pc 4 (set_xreg (DecodeRd w)
      (iop_sem op (get_xreg (DecodeRs1 w) s) (DecodeITypeImm w)) s)).
Proof.
  intros Hc Ho H3. unfold Interpret. cbv zeta. rewrite Ho.
  destruct op; cbn in Hc; injection Hc as <- <-; repeat switch_step;
    unfold InterpretOPIMM, InterpretOPIMM32; cbv zeta; rewrite H3; repeat switch_step;
    cbn [mbind result_bind iop_sem]; unfold kInstrSize; do 2 f_equal; try done;
    apply set_xreg_ext.
  - apply u64_lxor_u64.
  - apply u64_lor_u64.
  - apply u64_land_u64.
  - unfold sign_extend. by autorewrite with vm.
Qed.

(** Shifts by an immediate; [funct7] takes its low bit from the amount. *)
Definition shop_code (op : shop) : Z * Z * Z :=
  match op with
  | SLLI => (Funct7.F7_0, Funct3.SLLI, Opcode.OPIMM)
  | SRLI => (Funct7.F7_0, Funct3.SRI, Opcode.OPIMM)
  | SRAI => (Funct7.SRA, Funct3.SRI, Opcode.OPIMM)
  | SLLIW => (Funct7.F7_0, Funct3.SLLI, Opcode.OPIMM32)
  | SRLIW => (Funct7.F7_0, Funct3.SRI, Opcode.OPIMM32)
  | SRAIW => (Funct7.SRA, Funct3.SRI, Opcode.OPIMM32)
  | SLLI_UW => (Funct7.SLLIUW, Funct3.SLLI, Opcode.OPIMM32)
  | RORI => (Funct7.ROTATE, Funct3.ROR, Opcode.OPIMM)
  | BCLRI => (Funct7.BCLRBEXT, Funct3.BCLR, Opcode.OPIMM)
  | BEXTI => (Funct7.BCLRBEXT, Funct3.BEXT, Opcode.OPIMM)
  | BINVI => (Funct7.BINV, Funct3.F3_BINV, Opcode.OPIMM)
  | BSETI => (Funct7.BSET, Funct3.F3_BSET, Opcode.OPIMM)
  end.

(** The amounts the simulator accepts: [slli.uw] compares all of [funct7] and
    does not recognise amounts of 32 and more. *)
Definition shop_limit (op : shop) : Z :=
  match op with
  | SLLIW | SRLIW | SRAIW | SLLI_UW => 32
  | _ => 64
  end.

Lemma shamt_bit n : 0 <= n < 64 -> field n 5 1 = of_bool (32 <=? n).
Proof.
  intros. unfold field. rewrite Z.land_ones, Z.shiftr_div_pow2 by lia.
  destruct (32 <=? n) eqn:E; reflect_bool; cbn [of_bool].
  - replace (n / 2 ^ 5) with 1; [done|]. apply (Z.div_unique _ _ _ (n - 32)); lia.
  - by rewrite (Z.div_small n) by lia.
Qed.

Lemma interpret_shop op w s f7 f3 opc n :
  sim_wf s -> shop_code op = (f7, f3, opc) -> 0 <= n < shop_limit op ->
  DecodeOpcode w = opc -> DecodeFunct3 w = f3 ->
  DecodeFunct7 w = f7 .| field n 5 1 -> DecodeShamt w = n ->
  Interpret w s
  = Ok (add_pc 4 (set_xreg (DecodeRd w) (shop_sem op (get_xreg (DecodeRs1 w) s) n) s)).
Proof.
  intros Hs Hc Hn Ho H3 H7 Hsh. destruct (decoded_reg_range w) as (R1 & _ & _).
  pose proof (get_xreg_range _ s Hs R1) as Hr.
  assert (Hn64 : 0 <= n < 64) by (destruct op; cbn in Hn; lia).
  rewrite shamt_bit in H7 by done. unfold Interpret. cbv zeta. rewrite Ho.
  destruct op; cbn in Hc, Hn; injection Hc as <- <- <-; repeat switch_step;
    unfold InterpretOPIMM, InterpretOPIMM32; cbv zeta; rewrite H3, H7, Hsh;
    repeat switch_step;
    (destruct (32 <=? n) eqn:E; reflect_bool; [try lia|]; cbn [of_bool]);
    repeat switch_step; cbn [mbind result_bind shop_sem]; unfold kInstrSize;
    unfold Arith.shl32, Arith.shr32; rewrite ?(proj2 (Z.ltb_lt n 32)) by lia;
    cbn [mbind result_bind]; do 2 f_equal; apply set_xreg_ext; unfold sign_extend;
    rewrite ?Z.shiftl_mul_pow2, ?Z.shiftr_div_pow2, ?s32_u32_mul, ?s32_div_pow2,
      ?bclr_ok, ?bext_ok, ?binv_ok, ?bset_ok, ?ror_value, ?(Z.mod_small n 64)
      by (done || lia); done.
Qed.

(** Unary instructions are shifts with a fixed amount field. *)
Definition uop_code (op : uop) : Z * Z * Z * Z :=
  match op with
  | CLZ => (Funct7.COUNT, 0x0, Funct3.F3_COUNT, Opcode.OPIMM)
  | CTZ => (Funct7.COUNT, 0x1, Funct3.F3_COUNT, Opcode.OPIMM)
  | CPOP => (Funct7.COUNT, 0x2, Funct3.F3_COUNT, Opcode.OPIMM)
  | CLZW => (Funct7.COUNT, 0x0, Funct3.F3_COUNT, Opcode.OPIMM32)
  | CTZW => (Funct7.COUNT, 0x1, Funct3.F3_COUNT, Opcode.OPIMM32)
  | CPOPW => (Funct7.COUNT, 0x2, Funct3.F3_COUNT, Opcode.OPIMM32)
  | SEXT_B => (0x30, 0x4, Funct3.SEXT, Opcode.OPIMM)
  | SEXT_H => (0x30, 0x5, Funct3.SEXT, Opcode.OPIMM)
  | ZEXT_H => (0x4, 0x0, Funct3.ZEXT, Opcode.OP32)
  | ORC_B => (0x14, 0x7, 0x5, Opcode.OPIMM)
  | REV8 => (0x35, 0x18, 0x5, Opcode.OPIMM)
  end.

(** The value the interpreter computes. *)
Definition uop_value (op : uop) (a : Z) : Z :=
  match op with
  | CLZ => Arith.clz a
  | CTZ => Arith.ctz a
  | CPOP => Arith.cpop a
  | CLZW => Arith.clzw (u32 a)
  | CTZW => Arith.ctzw (u32 a)
  | CPOPW => Arith.cpopw (u32 a)
  | SEXT_B => Arith.sextb a
  | SEXT_H => Arith.sexth a
  | ZEXT_H => Arith.zexth a
  | ORC_B => Arith.orcb a
  | REV8 => Arith.rev8 a
  end.

Lemma uop_value_sem op a : is_u 64 a -> u64 (uop_value op a) = u64 (uop_sem op a).
Proof.
  intros Ha. pose proof (uwrap_range 32 a ltac:(lia)).
  destruct op; cbn [uop_value uop_sem].
  - by rewrite clz_ok.
  - by rewrite ctz_search.
  - by rewrite cpop64_ok.
  - by rewrite clzw_ok.
  - by rewrite ctzw_search, ctz_spec_u32.
  - by rewrite cpop32_ok, cpop_spec_u32.
  - by rewrite sextb_ok, uwrap_uwrap.
  - by rewrite sexth_ok, uwrap_uwrap.
  - by rewrite zexth_ok.
  - by rewrite orcb_ok.
  - by rewrite rev8_ok.
Qed.

(** Makes the results of the bit loops on [x] arbitrary. *)
Ltac hide_loops x :=
  generalize (Arith.clz x) (Arith.ctz x) (Arith.cpop x) (Arith.orcb x) (Arith.rev8 x)
    (Arith.clzw (u32 x)) (Arith.ctzw (u32 x)) (Arith.cpopw (u32 x)); intros.

Lemma interpret_uop op w s f7 sh f3 opc :
  sim_wf s -> uop_code op = (f7, sh, f3, opc) ->
  DecodeOpcode w = opc -> DecodeFunct3 w = f3 -> DecodeFunct7 w = f7 .| field sh 5 1 ->
  DecodeShamt w = field f7 0 1 ≪ 5 .| sh ->
  Interpret w s
  = Ok (add_pc 4 (set_xreg (DecodeRd w) (uop_sem op (get_xreg (DecodeRs1 w) s)) s)).
Proof.
  intros Hs Hc Ho H3 H7 Hsh. destruct (decoded_reg_range w) as (R1 & _ & _).
  rewrite <- (set_xreg_ext (DecodeRd w) _ _ s
    (uop_value_sem op _ (get_xreg_range _ s Hs R1))).
  unfold Interpret. cbv zeta. rewrite Ho.
  destruct op; cbn in Hc; injection Hc as <- <- <- <-; repeat switch_step;
    unfold InterpretOPIMM, InterpretOPIMM32, InterpretOP32, InterpretOP32_ADDUW;
    cbv zeta; cbn [uop_value]; hide_loops (get_xreg (DecodeRs1 w) s);
    rewrite ?H3, ?H7, ?Hsh; repeat switch_step; done.
Qed.

(** Loads and stores. *)
Definition lop_code (op : lop) : Z :=
  match op with
  | LB => Funct3.LB | LH => Funct3.LH | LW => Funct3.LW | LBU => Funct3.LBU
  | LHU => Funct3.LHU | LWU => Funct3.LWU | LD => Funct3.LD
  end.
Definition sop_code (op : sop) : Z :=
  match op with
  | SB => Funct3.SB | SH => Funct3.SH | SW => Funct3.SW | SD => Funct3.SD
  end.

Lemma interpret_lop op w s :
  DecodeOpcode w = Opcode.LOAD -> DecodeFunct3 w = lop_code op ->
  Interpret w s
  = ('(v, m) ← mem_load (lop_type op)
        (u64 (get_xreg (DecodeRs1 w) s + DecodeITypeImm w)) (memory_ s);
     Ok (add_pc 4 (set_xreg (DecodeRd w) v (set_memory m s)))).
Proof.
  intros Ho H3. unfold Interpret. cbv zeta. rewrite Ho. repeat switch_step.
  unfold InterpretLOAD. cbv zeta. rewrite H3.
  destruct op; cbn [lop_code lop_type]; repeat switch_step;
    unfold load_xreg, MemoryRead; by destruct (mem_load _ _ _) as [[]|].
Qed.

Lemma interpret_sop op w s :
  DecodeOpcode w = Opcode.STORE -> DecodeFunct3 w = sop_code op ->
  Interpret w s
  = (m ← mem_store (sop_type op)
        (u64 (get_xreg (DecodeRs1 w) s + DecodeSTypeImm w))
        (uwrap (ct_bits (sop_type op)) (get_xreg (DecodeRs2 w) s)) (memory_ s);
     Ok (add_pc 4 (set_memory m s))).
Proof.
  intros Ho H3. unfold Interpret. cbv zeta. rewrite Ho. repeat switch_step.
  unfold InterpretSTORE. cbv zeta. rewrite H3.
  destruct op; cbn [sop_code sop_type]; repeat switch_step;
    unfold MemoryWrite; by destruct (mem_store _ _ _ _).
Qed.

(** Upper immediates and indirect jumps. *)
Lemma interpret_lui w s :
  DecodeOpcode w = Opcode.LUI ->
  Interpret w s = Ok (add_pc 4 (set_xreg (DecodeRd w) (DecodeUTypeImm w) s)).
Proof.
  intros Ho. unfold Interpret. cbv zeta. rewrite Ho. repeat switch_step.
  unfold InterpretLUI. cbv zeta. unfold kInstrSize. do 2 f_equal. apply set_xreg_ext.
  by apply uwrap_swrap.
Qed.

Lemma interpret_auipc w s :
  DecodeOpcode w = Opcode.AUIPC ->
  Interpret w s = Ok (add_pc 4 (set_xreg (DecodeRd w) (pc_ s + DecodeUTypeImm w) s)).
Proof.
  intros Ho. unfold Interpret. cbv zeta. rewrite Ho. repeat switch_step.
  unfold InterpretAUIPC. cbv zeta. unfold kInstrSize. do 2 f_equal. apply set_xreg_ext.
  unfold sign_extend. by rewrite <- uwrap_add_r, uwrap_swrap, uwrap_add_r.
Qed.

Lemma interpret_jalr w s :
  DecodeOpcode w = Opcode.JALR ->
  Interpret w s
  = Ok (set_pc (u64 (get_xreg (DecodeRs1 w) s + DecodeITypeImm w))
      (set_xreg (DecodeRd w) (pc_ s + 4) s)).
Proof.
  intros Ho. unfold Interpret. cbv zeta. rewrite Ho. repeat switch_step.
  unfold InterpretJALR. cbv zeta. by rewrite uwrap_add_r.
Qed.

(** ** One step on a 32-bit encoding *)

(** The state after the fetched instruction [s'] is counted. *)
Lemma retire_4 s : count (add_pc 4 s) = retire 4 s.
Proof. done. Qed.

Lemma le4_length w : length (Z_to_little_endian 4 8 w) = 4%nat.
Proof. pose proof (length_Z_to_little_endian 4 8 w). lia. Qed.
Lemma le2_length w : length (Z_to_little_endian 2 8 w) = 2%nat.
Proof. pose proof (length_Z_to_little_endian 2 8 w). lia. Qed.

(** [implements f i]: the bytes [f] emits make the simulator execute [i]. *)
Definition implements (f : MicroAssembler -> MicroAssembler) (i : instruction)
    (a : MicroAssembler) s : Prop :=
  loaded (emitted a (f a)) s ->
  step s = exec i (Z.of_nat (length (emitted a (f a)))) s.

Lemma implements_32 w i a s :
  is_u 32 w -> field (DecodeOpcode w) 0 2 = 3 ->
  (s' ← Interpret w s; Ok (count s')) = exec i 4 s ->
  implements (Asm.Emit32 w) i a s.
Proof.
  intros Hw Ho He. unfold implements. rewrite emitted_Emit32 by done.
  intros Hl. rewrite le4_length. by rewrite (step_32 w).
Qed.

Lemma implements_16 w i a s :
  is_u 16 w -> IsCInstruction w = true ->
  (s' ← InterpretC w s; Ok (count s')) = exec i 2 s ->
  implements (Asm.Emit16 w) i a s.
Proof.
  intros Hw Ho He. unfold implements. rewrite emitted_Emit16 by done.
  intros Hl. rewrite le2_length. by rewrite (step_16 w).
Qed.

Lemma rop_code_range op f7 f3 opc :
  rop_code op = (f7, f3, opc) ->
  is_u 7 f7 /\ is_u 3 f3 /\ is_u 7 opc /\ field opc 0 2 = 3.
Proof. destruct op; cbn; intros E; injection E as <- <- <-; done. Qed.

Lemma rtype_implements op rd rs1 rs2 a s f7 f3 opc :
  sim_wf s -> is_u 5 rd -> is_u 5 rs1 -> is_u 5 rs2 ->
  rop_code op = (f7, f3, opc) ->
  implements (Asm.EmitRType f7 rs2 rs1 f3 rd opc) (Reg op rd rs1 rs2) a s.
Proof.
  intros Hs Hd H1 H2 Hc. destruct (rop_code_range _ _ _ _ Hc) as (R7 & R3 & Ro & Hl).
  destruct (rtype_word_decode f7 rs2 rs1 f3 rd opc)
    as (Hw & Do & D3 & D7 & Dd & D1 & D2); [done..|].
  apply (implements_32 (rtype_word f7 rs2 rs1 f3 rd opc)); [done|by rewrite Do|].
  rewrite (interpret_rop op _ s f7 f3 opc) by done. by rewrite Dd, D1, D2.
Qed.

Lemma itype_implements op rd rs1 imm a s f3 opc :
  is_u 5 rd -> is_u 5 rs1 -> IsITypeImm imm = true -> iop_code op = (f3, opc) ->
  implements (Asm.EmitIType imm rs1 f3 rd opc) (Imm op rd rs1 imm) a s.
Proof.
  intros Hd H1 Hi Hc.
  assert (is_u 3 f3 /\ is_u 7 opc /\ field opc 0 2 = 3) as (R3 & Ro & Hl)
    by (destruct op; cbn in Hc; injection Hc as <- <-; done).
  destruct (itype_word_fields rs1 f3 rd opc H1 R3 Hd Ro imm) as (Hw & Do & D3 & Dd & D1 & _).
  pose proof (itype_word_decode rs1 f3 rd opc H1 R3 Hd Ro imm Hi) as Di.
  apply (implements_32 (itype_word imm rs1 f3 rd opc)); [done|by rewrite Do|].
  rewrite (interpret_iop op _ s f3 opc) by done. by rewrite Dd, D1, Di.
Qed.

Lemma shamt_implements op rd rs1 n a s f7 f3 opc :
  sim_wf s -> is_u 5 rd -> is_u 5 rs1 -> 0 <= n < shop_limit op ->
  shop_code op = (f7, f3, opc) ->
  implements (Asm.EmitRTypeShamt f7 n rs1 f3 rd opc) (Shift op rd rs1 n) a s.
Proof.
  intros Hs Hd H1 Hn Hc.
  assert (is_u 7 f7 /\ is_u 3 f3 /\ is_u 7 opc /\ field opc 0 2 = 3 /\ field f7 0 1 = 0)
    as (R7 & R3 & Ro & Hl & He)
    by (destruct op; cbn in Hc; injection Hc as <- <- <-; done).
  assert (Rn : is_u 6 n) by (unfold is_u; destruct op; cbn in Hn; lia).
  destruct (shamt_word_decode f7 rs1 f3 rd opc R7 H1 R3 Hd Ro n Rn)
    as (Hw & Do & D3 & D7 & Ds & Dd & D1).
  apply (implements_32 (shamt_word f7 n rs1 f3 rd opc)); [done|by rewrite Do|].
  rewrite He, Z.shiftl_0_l, Z.lor_0_l in Ds.
  rewrite (interpret_shop op _ s f7 f3 opc n) by done. by rewrite Dd, D1.
Qed.

Lemma unary_implements op rd rs1 a s f7 sh f3 opc :
  sim_wf s -> is_u 5 rd -> is_u 5 rs1 -> uop_code op = (f7, sh, f3, opc) ->
  implements (Asm.EmitRTypeShamt f7 sh rs1 f3 rd opc) (Unary op rd rs1) a s.
Proof.
  intros Hs Hd H1 Hc.
  assert (is_u 7 f7 /\ is_u 6 sh /\ is_u 3 f3 /\ is_u 7 opc /\ field opc 0 2 = 3)
    as (R7 & Rn & R3 & Ro & Hl)
    by (destruct op; cbn in Hc; injection Hc as <- <- <- <-; done).
  destruct (shamt_word_decode f7 rs1 f3 rd opc R7 H1 R3 Hd Ro sh Rn)
    as (Hw & Do & D3 & D7 & Ds & Dd & D1).
  apply (implements_32 (shamt_word f7 sh rs1 f3 rd opc)); [done|by rewrite Do|].
  rewrite (interpret_uop op _ s f7 sh f3 opc) by done. by rewrite Dd, D1.
Qed.

Lemma load_implements op rd addr a s :
  is_u 5 rd -> is_u 5 (base addr) -> IsITypeImm (offset addr) = true ->
  implements (Asm.EmitIType (offset addr) (base addr) (lop_code op) rd Opcode.LOAD)
    (Load op rd addr) a s.
Proof.
  intros Hd H1 Hi. assert (R3 : is_u 3 (lop_code op)) by by destruct op.
  assert (Ro : is_u 7 Opcode.LOAD) by done.
  destruct (itype_word_fields _ _ _ _ H1 R3 Hd Ro (offset addr))
    as (Hw & Do & D3 & Dd & D1 & _).
  pose proof (itype_word_decode _ _ _ _ H1 R3 Hd Ro _ Hi) as Di.
  apply (implements_32 (itype_word (offset addr) (base addr) (lop_code op) rd Opcode.LOAD));
    [done|by rewrite Do|].
  rewrite (interpret_lop op) by done. rewrite Dd, D1, Di. cbn [exec]. unfold address.
  by destruct (mem_load _ _ _) as [[]|].
Qed.

Lemma store_implements op rs2 addr a s :
  is_u 5 rs2 -> is_u 5 (base addr) -> IsSTypeImm (offset addr) = true ->
  implements (Asm.EmitSType (offset addr) rs2 (base addr) (sop_code op) Opcode.STORE)
    (Store op rs2 addr) a s.
Proof.
  intros H2 H1 Hi. assert (R3 : is_u 3 (sop_code op)) by by destruct op.
  assert (Ro : is_u 7 Opcode.STORE) by done.
  destruct (stype_word_decode _ _ _ _ H2 H1 R3 Ro _ Hi) as (Hw & Do & D3 & D1 & D2 & Di).
  apply (implements_32 (stype_word (offset addr) rs2 (base addr) (sop_code op) Opcode.STORE));
    [done|by rewrite Do|].
  rewrite (interpret_sop op) by done. rewrite D2, D1, Di. cbn [exec]. unfold address.
  by destruct (mem_store _ _ _ _).
Qed.
End Interpret.
