(* ===== verification/RiscvInvariant.v ===== *)
(** * The invariant of the simulator

    Whatever bytes the simulator executes, and whatever memory it runs on, a
    round of its loop keeps the state well formed: 32 registers of 64 bits, [x0]
    equal to zero, a 64-bit program counter. *)

From S2P Require Import Prelude Utils RiscvConstants RiscvEncoding SimMemory.
From S2P Require Import RiscvSimulator RiscvInterpret.

(** A property of the result of a run that does not stop with an error. *)
Definition ok_when {A} (P : A -> Prop) (r : sim_result A) : Prop :=
  match r with Ok a => P a | Err _ => True end.

Lemma ok_when_bind {A B} (Q : A -> Prop) (P : B -> Prop) (x : sim_result A) f :
  ok_when Q x -> (forall a, Q a -> ok_when P (f a)) -> ok_when P (x ≫= f).
Proof. destruct x; cbn; auto. Qed.

Lemma ok_when_any {A} (x : sim_result A) : ok_when (fun _ => True) x.
Proof. by destruct x. Qed.

Section Invariant.
Context {M : Type} `{MemoryOps M}.
Implicit Types s : Simulator M.

Definition keeps : sim_result (Simulator M) -> Prop := ok_when sim_wf.
Definition keeps2 : sim_result (Z * Simulator M) -> Prop := ok_when (fun x => sim_wf (snd x)).

Lemma keeps_bind x (f : Simulator M -> sim_result (Simulator M)) :
  keeps x -> (forall s, sim_wf s -> keeps (f s)) -> keeps (x ≫= f).
Proof. apply ok_when_bind. Qed.

Lemma keeps_bind2 x (f : Z * Simulator M -> sim_result (Simulator M)) :
  keeps2 x -> (forall v s, sim_wf s -> keeps (f (v, s))) -> keeps (x ≫= f).
Proof. intros Hx Hf. eapply ok_when_bind; [exact Hx|]. intros [v s]. apply Hf. Qed.

Lemma keeps_value {A} (x : sim_result A) (f : A -> sim_result (Simulator M)) :
  (forall a, keeps (f a)) -> keeps (x ≫= f).
Proof. intros Hf. apply (ok_when_bind (fun _ => True)); [apply ok_when_any|intros a _; apply Hf]. Qed.

(** Only the registers and the program counter matter. *)
Lemma sim_wf_same s s' :
  xregs_ s' = xregs_ s -> pc_ s' = pc_ s -> sim_wf s -> sim_wf s'.
Proof. intros Ex Ep []. split; by rewrite ?Ex, ?Ep. Qed.

Lemma set_pc_keeps v s : sim_wf s -> is_u 64 v -> sim_wf (set_pc v s).
Proof. intros [] Hv. by split. Qed.
Lemma add_pc_keeps d s : sim_wf s -> sim_wf (add_pc d s).
Proof. intros Hs. apply set_pc_keeps; [done|]. by apply uwrap_range. Qed.

Lemma reg_decoded shift w : is_u 5 (DecodeReg shift w).
Proof. by apply field_range. Qed.
Lemma prime_decoded shift w : is_u 5 (DecodeRegPrime shift w).
Proof.
  rewrite DecodeRegPrime_field. pose proof (field_range w shift 3 ltac:(lia)).
  unfold is_u in *. lia.
Qed.

Lemma set_decoded rd v s : sim_wf s -> is_u 5 rd -> sim_wf (set_xreg rd v s).
Proof. apply set_xreg_wf. Qed.

Lemma MemoryRead_keeps T addr s : sim_wf s -> keeps2 (MemoryRead T addr s).
Proof.
  intros Hs. unfold keeps2, MemoryRead. destruct (mem_load _ _ _) as [[]|]; [|done].
  by apply (sim_wf_same s).
Qed.

Lemma MemoryWrite_keeps T addr v s : sim_wf s -> keeps (MemoryWrite T addr v s).
Proof.
  intros Hs. unfold keeps, MemoryWrite. destruct (mem_store _ _ _ _); [|done].
  by apply (sim_wf_same s).
Qed.

Lemma flush_all_keeps s : sim_wf s -> keeps (flush_all s).
Proof.
  intros Hs. unfold keeps, flush_all. destruct (mem_flush_all _); [|done].
  by apply (sim_wf_same s).
Qed.

Lemma flush_address_keeps addr s : sim_wf s -> keeps (flush_address addr s).
Proof.
  intros Hs. unfold keeps, flush_address. destruct (mem_flush_address _ _); [|done].
  by apply (sim_wf_same s).
Qed.

Lemma atomic_store_keeps T addr v s : sim_wf s -> keeps (atomic_store T addr v s).
Proof.
  intros Hs. unfold keeps, atomic_store. destruct (host_store _ _ _ _); [|done].
  by apply (sim_wf_same s).
Qed.

Lemma atomic_rmw_keeps T addr f s : sim_wf s -> keeps2 (atomic_rmw T addr f s).
Proof.
  intros Hs. unfold keeps2, atomic_rmw. destruct (atomic_load T addr s); [|done].
  cbn [mbind result_bind].
  eapply (ok_when_bind sim_wf); [by apply atomic_store_keeps|done].
Qed.

Lemma next_weak_failure_keeps s b s' :
  next_weak_failure s = (b, s') -> sim_wf s -> sim_wf s'.
Proof.
  unfold next_weak_failure. intros E Hs.
  destruct (weak_failures s); injection E as <- <-; [done|by apply (sim_wf_same s)].
Qed.

Lemma exchange_loop_keeps n T addr f : forall expected s,
  sim_wf s -> keeps2 (exchange_loop n T addr f expected s).
Proof.
  induction n as [|n IH]; intros e s Hs; [done|]. cbn [exchange_loop].
  destruct (next_weak_failure s) as [b s1] eqn:E.
  pose proof (next_weak_failure_keeps _ _ _ E Hs).
  destruct (host_compare_exchange_weak _ _ _ _ _ _) as [[[[] v] p]|]; cbn; try done.
  - by apply (sim_wf_same s1).
  - apply IH. by apply (sim_wf_same s1).
Qed.
End Invariant.

Create HintDb keeps discriminated.
#[export] Hint Constants Opaque : keeps.
#[export] Hint Resolve set_decoded add_pc_keeps set_pc_keeps reg_decoded prime_decoded
  MemoryRead_keeps MemoryWrite_keeps flush_all_keeps flush_address_keeps
  atomic_store_keeps atomic_rmw_keeps exchange_loop_keeps uwrap_range get_xreg_range : keeps.
#[export] Hint Extern 1 (is_u 64 (uwrap 64 _)) => apply uwrap_range; lia : keeps.
#[export] Hint Extern 1 (is_u 5 Register.RA) => done : keeps.
#[export] Hint Extern 1 (is_u 5 (DecodeRd _)) => apply reg_decoded : keeps.

(** Follows the control flow of an interpreter function. *)
Ltac keep :=
  cbv zeta;
  repeat (cbn beta iota;
    match goal with
    | |- keeps (Err _) => exact I
    | |- keeps (Ok _) => cbn [keeps ok_when]
    | |- keeps (if ?c then _ else _) => destruct c
    | |- keeps (mbind (M := result sim_error) (A := Simulator _) _ _) =>
        apply keeps_bind; [|intros]
    | |- keeps (mbind (M := result sim_error) (A := Z * Simulator _) _ _) =>
        apply keeps_bind2; [|intros]
    | |- keeps (mbind (M := result sim_error) _ _) => apply keeps_value; intros
    end); auto with keeps.

Section Functions.
Context {M : Type} `{MemoryOps M}.
Implicit Types s : Simulator M.

Lemma load_xreg_keeps T rd addr s : sim_wf s -> is_u 5 rd -> keeps (load_xreg T rd addr s).
Proof. intros. unfold load_xreg. keep. Qed.

Lemma load_fregs_keeps rd addr s : sim_wf s -> keeps (load_fregs rd addr s).
Proof. intros. unfold load_fregs. keep. by apply (sim_wf_same s0). Qed.
Lemma load_fregd_keeps rd addr s : sim_wf s -> keeps (load_fregd rd addr s).
Proof. intros. unfold load_fregd. keep. by apply (sim_wf_same s0). Qed.

Lemma decoded_CRd w : is_u 5 (DecodeCRd w).
Proof. apply reg_decoded. Qed.
Lemma decoded_CRdp w : is_u 5 (DecodeCRdp w).
Proof. apply prime_decoded. Qed.
Lemma decoded_CRs1p w : is_u 5 (DecodeCRs1p w).
Proof. apply prime_decoded. Qed.
Lemma decoded_CRs2 w : is_u 5 (DecodeCRs2 w).
Proof. apply reg_decoded. Qed.
End Functions.

#[export] Hint Resolve load_xreg_keeps load_fregs_keeps load_fregd_keeps decoded_CRd
  decoded_CRdp decoded_CRs1p decoded_CRs2 : keeps.

Section Atomics.
Context {M : Type} `{MemoryOps M}.
Implicit Types s : Simulator M.

Lemma InterpretLR_keeps T w s : sim_wf s -> keeps (InterpretLR T w s).
Proof.
  intros Hs. unfold InterpretLR. cbv zeta. destruct (misaligned _ _); [done|].
  destruct (mem_load_ordered _ _ _) as [[]|]; [|done]. cbn.
  apply set_xreg_wf; [by apply (sim_wf_same s)|apply reg_decoded].
Qed.

Lemma InterpretSC_keeps T w s : sim_wf s -> keeps (InterpretSC T w s).
Proof.
  intros Hs. unfold InterpretSC. cbv zeta. destruct (misaligned _ _); [done|].
  destruct (negb _); [keep|]. destruct (Random.NextUInt32 _) as [r state].
  assert (Hr : sim_wf (set_random state s)) by by apply (sim_wf_same s).
  destruct (r mod 16 =? 0); [keep|].
  destruct (next_weak_failure _) as [b s1] eqn:E.
  pose proof (next_weak_failure_keeps _ _ _ E Hr).
  destruct (mem_compare_exchange _ _ _ _ _ _) as [[[]]|]; [|done]. cbn.
  apply set_xreg_wf; [by apply (sim_wf_same s1)|apply reg_decoded].
Qed.

Lemma InterpretAMO_keeps w s : sim_wf s -> keeps (InterpretAMO w s).
Proof.
  intros Hs. unfold InterpretAMO, InterpretAMO8, InterpretAMO16, InterpretAMO32,
    InterpretAMO64.
  keep; try (by apply InterpretLR_keeps); try (by apply InterpretSC_keeps);
    unfold InterpretAMOSWAP, InterpretAMOADD, InterpretAMOXOR, InterpretAMOAND,
      InterpretAMOOR, InterpretAMOMIN, InterpretAMOMAX, InterpretLOADORDERED,
      InterpretSTOREORDERED; keep.
Qed.

Lemma InterpretSYSTEM_keeps w s : sim_wf s -> keeps (InterpretSYSTEM w s).
Proof.
  intros Hs. unfold InterpretSYSTEM, InterpretECALL, InterpretEBREAK, CSRWrite, CSRSet,
    CSRClear. keep.
Qed.

Lemma InterpretOP_keeps w s : sim_wf s -> keeps (InterpretOP w s).
Proof.
  intros Hs. unfold InterpretOP, InterpretOP_0, InterpretOP_SUB, InterpretOP_MULDIV,
    InterpretOP_SHADD, InterpretOP_MINMAXCLMUL, InterpretOP_ROTATE, InterpretOP_BCLRBEXT,
    InterpretOP_CZERO. keep.
Qed.

Lemma InterpretOP32_keeps w s : sim_wf s -> keeps (InterpretOP32 w s).
Proof.
  intros Hs. unfold InterpretOP32, InterpretOP32_0, InterpretOP32_SUB, InterpretOP32_MULDIV,
    InterpretOP32_SHADD, InterpretOP32_ADDUW, InterpretOP32_ROTATE. keep.
Qed.

Lemma InterpretLUI_keeps w s : sim_wf s -> keeps (InterpretLUI w s).
Proof. intros. unfold InterpretLUI. keep. Qed.
Lemma InterpretAUIPC_keeps w s : sim_wf s -> keeps (InterpretAUIPC w s).
Proof. intros. unfold InterpretAUIPC. keep. Qed.
Lemma InterpretJAL_keeps w s : sim_wf s -> keeps (InterpretJAL w s).
Proof. intros. unfold InterpretJAL. keep. Qed.
Lemma InterpretJALR_keeps w s : sim_wf s -> keeps (InterpretJALR w s).
Proof. intros. unfold InterpretJALR. keep. Qed.
Lemma InterpretBRANCH_keeps w s : sim_wf s -> keeps (InterpretBRANCH w s).
Proof. intros. unfold InterpretBRANCH, branch_if. keep. Qed.
Lemma InterpretLOAD_keeps w s : sim_wf s -> keeps (InterpretLOAD w s).
Proof. intros. unfold InterpretLOAD. keep. Qed.
Lemma InterpretSTORE_keeps w s : sim_wf s -> keeps (InterpretSTORE w s).
Proof. intros. unfold InterpretSTORE. keep. Qed.
Lemma InterpretOPIMM_keeps w s : sim_wf s -> keeps (InterpretOPIMM w s).
Proof. intros. unfold InterpretOPIMM. keep. Qed.
Lemma InterpretOPIMM32_keeps w s : sim_wf s -> keeps (InterpretOPIMM32 w s).
Proof. intros. unfold InterpretOPIMM32. keep. Qed.
Lemma InterpretMISCMEM_keeps w s : sim_wf s -> keeps (InterpretMISCMEM w s).
Proof. intros. unfold InterpretMISCMEM. keep. Qed.
Lemma InterpretLOADFP_keeps w s : sim_wf s -> keeps (InterpretLOADFP w s).
Proof. intros. unfold InterpretLOADFP. keep. Qed.
Lemma InterpretSTOREFP_keeps w s : sim_wf s -> keeps (InterpretSTOREFP w s).
Proof. intros. unfold InterpretSTOREFP. keep. Qed.

Lemma interpret_c_ext_keeps w s : sim_wf s -> keeps (interpret_c_ext w s).
Proof. intros. unfold interpret_c_ext. keep. Qed.
Lemma interpret_c_mem_keeps w s : sim_wf s -> keeps (interpret_c_mem w s).
Proof. intros. unfold interpret_c_mem. keep. Qed.
Lemma interpret_c_jr_keeps w s : sim_wf s -> keeps (interpret_c_jr w s).
Proof. intros. unfold interpret_c_jr, next_c, InterpretEBREAK. keep. Qed.
End Atomics.

#[export] Hint Resolve InterpretAMO_keeps InterpretSYSTEM_keeps InterpretOP_keeps
  InterpretOP32_keeps interpret_c_ext_keeps interpret_c_mem_keeps interpret_c_jr_keeps
  InterpretLUI_keeps InterpretAUIPC_keeps InterpretJAL_keeps InterpretJALR_keeps InterpretBRANCH_keeps InterpretLOAD_keeps
  InterpretSTORE_keeps InterpretOPIMM_keeps InterpretOPIMM32_keeps InterpretMISCMEM_keeps InterpretLOADFP_keeps InterpretSTOREFP_keeps : keeps.

Section Step.
Context {M : Type} `{MemoryOps M}.
Implicit Types s : Simulator M.

Lemma interpret_c_rr_keeps w s : sim_wf s -> keeps (interpret_c_rr w s).
Proof. intros. unfold interpret_c_rr. keep. Qed.
Lemma interpret_c_miscalu_keeps w s : sim_wf s -> keeps (interpret_c_miscalu w s).
Proof.
  intros Hs. unfold interpret_c_miscalu.
  pose proof (interpret_c_rr_keeps w s Hs). keep.
Qed.

Lemma Interpret_keeps w s : sim_wf s -> keeps (Interpret w s).
Proof. intros Hs. unfold Interpret, InterpretFP. keep. Qed.

Lemma InterpretC_keeps w s : sim_wf s -> keeps (InterpretC w s).
Proof.
  intros Hs. pose proof (interpret_c_miscalu_keeps w s Hs).
  unfold InterpretC, next_c. keep.
Qed.

Lemma step_keeps s : sim_wf s -> keeps (step s).
Proof.
  intros Hs. unfold step. apply keeps_value. intros parcel. apply keeps_bind.
  - destruct (IsCInstruction parcel); [by apply InterpretC_keeps|].
    apply keeps_value. intros. by apply Interpret_keeps.
  - intros s1 H1. by apply (sim_wf_same s1).
Qed.
End Step.

Section Claims.
Context {M : Type} `{MemoryOps M}.

Lemma execute_keeps n : forall s : Simulator M,
  sim_wf s -> ok_when (fun s' => sim_wf s' /\ pc_ s' = kEndSimulatingPC) (ExecuteNoTrace n s).
Proof.
  induction n as [|n IH]; intros s Hs; cbn [ExecuteNoTrace];
    (destruct (pc_ s =? kEndSimulatingPC) eqn:E; [by apply Z.eqb_eq in E|]); [done|].
  eapply (ok_when_bind sim_wf); [by apply step_keeps|]. apply IH.
Qed.

Lemma execute_more n m : forall s : Simulator M,
  (n <= m)%nat ->
  match ExecuteNoTrace n s with
  | Ok s' => ExecuteNoTrace m s = Ok s'
  | Err OutOfFuel => True
  | Err e => ExecuteNoTrace m s = Err e
  end.
Proof.
  revert m. induction n as [|n IH]; intros m s Hm; cbn [ExecuteNoTrace];
    (destruct (pc_ s =? kEndSimulatingPC) eqn:Ep; [destruct m; cbn; by rewrite Ep|]).
  - done.
  - destruct m as [|m]; [lia|]. cbn [ExecuteNoTrace]. rewrite Ep.
    destruct (step s) as [s1|e]; cbn [mbind result_bind]; [apply IH; lia|].
    by destruct e.
Qed.

Lemma call_returned n entry a0 a1 a2 a3 (s s' : Simulator M) v :
  sim_wf s -> CallX n entry a0 a1 a2 a3 s = Ok (v, s') ->
  sim_wf s' /\ pc_ s' = kEndSimulatingPC /\ v = s64 (get_xreg Register.A0 s') /\ is_s 64 v /\
  forall m, (n <= m)%nat -> CallX m entry a0 a1 a2 a3 s = Ok (v, s').
Proof.
  intros Hs. unfold CallX, RunCall. cbv zeta. intros E.
  apply bind_Ok_inv in E as (s1 & E & [= <- <-]).
  apply bind_Ok_inv in E as (s2 & E & Ef).
  set (s0 := set_xreg Register.RA _ _) in E.
  assert (Hs0 : sim_wf s0).
  { apply set_xreg_wf; [|done]. apply set_pc_keeps; [|by apply uwrap_range].
    by repeat apply set_xreg_wf. }
  pose proof (execute_keeps n s0 Hs0) as Hk. rewrite E in Hk. destruct Hk as [Hs2 Hpc].
  assert (Hmore : forall m, (n <= m)%nat -> ExecuteNoTrace m s0 = Ok s2).
  { intros m Hm. pose proof (execute_more n m s0 Hm) as Hx. by rewrite E in Hx. }
  pose proof Ef as Ef2. unfold flush_all in Ef. apply bind_Ok_inv in Ef as (m & _ & [= <-]).
  split_and!; [by apply (sim_wf_same s2)|done|done|by apply swrap_range|].
  intros m' Hm'. fold s0. rewrite (Hmore m' Hm'). cbn [mbind result_bind]. rewrite Ef2. done.
Qed.

(** C9: The registers.  A round of the simulator on any code and any memory that
    does not stop with an error leaves 32 registers with 64-bit values, a 64-bit
    program counter, and zero in [x0].  When [CallX] returns, the machine has left the
    generated code through the return address the runtime set, its state is well formed,
    and the result is the signed value of [A0], the same under every larger bound on the
    rounds. *)
Theorem step_invariant :
  (forall s s' : Simulator M, sim_wf s -> step s = Ok s' -> sim_wf s' /\ get_xreg Register.ZR s' = 0) /\
  (forall n entry a0 a1 a2 a3 (s s' : Simulator M) v, sim_wf s -> CallX n entry a0 a1 a2 a3 s = Ok (v, s') ->
   sim_wf s' /\ pc_ s' = kEndSimulatingPC /\ v = s64 (get_xreg Register.A0 s') /\ is_s 64 v /\
   forall m, (n <= m)%nat -> CallX m entry a0 a1 a2 a3 s = Ok (v, s')).
Proof.
  split; [|apply call_returned]. intros s s' Hs E. pose proof (step_keeps s Hs) as Hk. rewrite E in Hk.
  split; [done|]. by apply get_xreg_zr.
Qed.
End Claims.

(** ** Concrete instances *)

(** [c.addi x1, 1] and [c.jr x1] at 0x1000. *)
Definition example_code : host := image [(0x1000, [0x85; 0x00; 0x82; 0x80])].

(** Entering at the [c.jr] returns at once. *)
Lemma step_invariant_witness :
  match step (boot 0x1000 example_code) with
  | Ok s => get_xreg 1 s = 1 /\ get_xreg Register.ZR s = 0
  | Err _ => False
  end /\
  match CallX 1 0x1002 (-5) 0 0 0 (boot 0 example_code) with
  | Ok (v, s) => v = -5 /\ pc_ s = kEndSimulatingPC /\ CallX 100 0x1002 (-5) 0 0 0 (boot 0 example_code) = Ok (v, s)
  | Err _ => False
  end.
Proof.
  destruct (step_invariant (M := host)) as [Hstep Hcall]. split.
  - assert (H1 : match step (boot 0x1000 example_code) with
                 | Ok s => get_xreg 1 s = 1 | Err _ => False end) by (vm_compute; reflexivity).
    destruct (step (boot 0x1000 example_code)) as [s|] eqn:E; [|done].
    split; [exact H1|]. refine (proj2 (Hstep _ s _ E)). by apply boot_wf.
  - assert (H1 : match CallX 1 0x1002 (-5) 0 0 0 (boot 0 example_code) with
                 | Ok (v, _) => v = -5 | Err _ => False end) by (vm_compute; reflexivity).
    destruct (CallX 1 0x1002 (-5) 0 0 0 (boot 0 example_code)) as [[v s]|] eqn:E; [|done].
    split; [exact H1|].
    destruct (Hcall 1%nat 0x1002 (-5) 0 0 0 (boot 0 example_code) s v) as (_ & Hpc & _ & _ & Hm); [by apply boot_wf|exact E|].
    split; [exact Hpc|]. apply Hm. lia.
Defined.
