(* ===== verification/RiscvRefine.v ===== *)
(** * The simulator does not depend on its memory

    Running on any memory that keeps the contract [MemoryLaws], the simulator
    takes the steps it takes when it accesses the process directly. *)

From S2P Require Import Prelude Utils RiscvConstants RiscvEncoding SimMemory SimMemoryProofs.
From S2P Require Import SimMemoryCorrect RiscvSimulator RiscvInterpret RiscvInvariant.

(** The same state over the memory [h] of the process. *)
Definition over {M} (h : host) (s : Simulator M) : Simulator host :=
  mkSimulator (pc_ s) (xregs_ s) (instret_ s) (reserved_address_ s) (reserved_value_ s)
    (fregs_ s) (fcsr_ s) (random_ s) h (weak_failures s).

Section Refine.
Context {M : Type} `{MemoryLaws M}.
Implicit Types s : Simulator M.

Definition sim_rel s (t : Simulator host) : Prop :=
  exists h, mem_abs (memory_ s) h /\ t = over h s.

Lemma sim_rel_intro s h : mem_abs (memory_ s) h -> sim_rel s (over h s).
Proof. by exists h. Qed.

(** Changes that do not concern the memory. *)
Lemma over_set_xreg h rd v s : set_xreg rd v (over h s) = over h (set_xreg rd v s).
Proof. unfold set_xreg. by destruct (rd =? Register.ZR). Qed.

Lemma rel_set_xreg rd v s t : sim_rel s t -> sim_rel (set_xreg rd v s) (set_xreg rd v t).
Proof.
  intros (h & Hm & ->). exists h. by rewrite memory_set_xreg, over_set_xreg.
Qed.
Lemma rel_add_pc d s t : sim_rel s t -> sim_rel (add_pc d s) (add_pc d t).
Proof. intros (h & Hm & ->). by exists h. Qed.
Lemma rel_set_pc v s t : sim_rel s t -> sim_rel (set_pc v s) (set_pc v t).
Proof. intros (h & Hm & ->). by exists h. Qed.
Lemma rel_set_reserved a v s t :
  sim_rel s t -> sim_rel (set_reserved a v s) (set_reserved a v t).
Proof. intros (h & Hm & ->). by exists h. Qed.
Lemma rel_set_random v s t : sim_rel s t -> sim_rel (set_random v s) (set_random v t).
Proof. intros (h & Hm & ->). by exists h. Qed.
Lemma rel_set_fregd rd v s t : sim_rel s t -> sim_rel (set_fregd rd v s) (set_fregd rd v t).
Proof. intros (h & Hm & ->). by exists h. Qed.
Lemma rel_set_fregs rd v s t : sim_rel s t -> sim_rel (set_fregs rd v s) (set_fregs rd v t).
Proof. apply rel_set_fregd. Qed.
Lemma rel_set_instret v s t : sim_rel s t -> sim_rel (set_instret v s) (set_instret v t).
Proof. intros (h & Hm & ->). by exists h. Qed.

(** Memory. *)
Definition rel_value (x : Z * Simulator M) (y : Z * Simulator host) : Prop :=
  fst x = fst y /\ sim_rel (snd x) (snd y).

Lemma rel_MemoryRead T addr s t :
  ct_ok T -> sim_rel s t -> res_rel rel_value (MemoryRead T addr s) (MemoryRead T addr t).
Proof.
  intros HT (h & Hm & ->). unfold MemoryRead. cbn [memory_ over mem_load direct_ops].
  unfold Direct.Load. pose proof (mem_load_law T addr (memory_ s) h HT Hm) as L.
  destruct (mem_load T addr (memory_ s)) as [[v m]|], (host_load T addr h); cbn in *; try done.
  destruct L as [-> L]. split; [done|]. by exists h.
Qed.

Lemma rel_MemoryWrite T addr v s t :
  ct_ok T -> sim_rel s t -> res_rel sim_rel (MemoryWrite T addr v s) (MemoryWrite T addr v t).
Proof.
  intros HT (h & Hm & ->). unfold MemoryWrite. cbn [memory_ over mem_store direct_ops].
  unfold Direct.Store. pose proof (mem_store_law T addr (ct_cast T v) (memory_ s) h HT Hm) as L.
  destruct (mem_store T addr (ct_cast T v) (memory_ s)) as [m|],
    (host_store T addr (ct_cast T v) h) as [h'|]; cbn in *; try done.
  by exists h'.
Qed.

Lemma rel_flush_all s t : sim_rel s t -> res_rel sim_rel (flush_all s) (flush_all t).
Proof.
  intros (h & Hm & ->). unfold flush_all.
  destruct (mem_flush_all_law (memory_ s) h Hm) as (m' & -> & Hm' & _).
  by exists h.
Qed.

(** The word at [addr] is the same in the process and to the program. *)
Definition flushed (addr : Z) s (t : Simulator host) : Prop :=
  exists h, t = over h s /\ mem_abs (memory_ s) h /\
    (forall T, ct_ok T -> host_load T addr (process (memory_ s)) = host_load T addr h) /\
    (forall T v, ct_ok T ->
      res_rel mem_abs
        (p ← host_store T addr v (process (memory_ s)); Ok (set_process p (memory_ s)))
        (host_store T addr v h)).

Lemma flushed_rel addr s t : flushed addr s t -> sim_rel s t.
Proof. intros (h & -> & Hm & _). by exists h. Qed.

Lemma rel_flush_address addr s t :
  addr mod 8 = 0 -> sim_rel s t ->
  res_rel (flushed addr) (flush_address addr s) (flush_address addr t).
Proof.
  intros Ha (h & Hm & ->). unfold flush_address.
  destruct (mem_flush_address_law addr (memory_ s) h Ha Hm) as (m' & -> & Hm' & Hl & Hst).
  cbn. by exists h.
Qed.

Lemma rel_atomic_load T addr s t :
  ct_ok T -> flushed addr s t -> atomic_load T addr s = atomic_load T addr t.
Proof. intros HT (h & -> & _ & Hl & _). by apply Hl. Qed.

Lemma rel_atomic_store T addr v s t :
  ct_ok T -> flushed addr s t ->
  res_rel sim_rel (atomic_store T addr v s) (atomic_store T addr v t).
Proof.
  intros HT (h & -> & _ & _ & Hst). unfold atomic_store. cbn [memory_ over process direct_ops].
  specialize (Hst T v HT).
  destruct (host_store T addr v (process (memory_ s))) as [p|],
    (host_store T addr v h) as [h'|]; cbn in *; try done. by exists h'.
Qed.

Lemma rel_atomic_rmw T addr f s t :
  ct_ok T -> flushed addr s t ->
  res_rel rel_value (atomic_rmw T addr f s) (atomic_rmw T addr f t).
Proof.
  intros HT Hf. unfold atomic_rmw. rewrite (rel_atomic_load T addr s t HT Hf).
  destruct (atomic_load T addr t) as [v|]; cbn [mbind result_bind]; [|apply err_rel_refl].
  eapply res_rel_bind; [by apply rel_atomic_store|]. intros s1 t1 Hr. by split.
Qed.

Lemma flushed_weak_failures addr l s t :
  flushed addr s t -> flushed addr (set_weak_failures l s) (set_weak_failures l t).
Proof. intros (h & -> & Hx). by exists h. Qed.

Lemma rel_next_weak_failure addr s t :
  flushed addr s t ->
  fst (next_weak_failure s) = fst (next_weak_failure t) /\
  flushed addr (snd (next_weak_failure s)) (snd (next_weak_failure t)).
Proof.
  intros Hf. pose proof Hf as (h & -> & _). unfold next_weak_failure.
  cbn [weak_failures over]. destruct (weak_failures s); [done|]. split; [done|].
  by apply flushed_weak_failures.
Qed.

Lemma set_memory_same s : set_memory (set_process (process (memory_ s)) (memory_ s)) s = s.
Proof. rewrite set_process_process. by destruct s. Qed.

Lemma rel_exchange_loop n T addr f : ct_ok T -> forall expected s t,
  flushed addr s t ->
  res_rel rel_value (exchange_loop n T addr f expected s) (exchange_loop n T addr f expected t).
Proof.
  intros HT. induction n as [|n IH]; intros e s t Hf; [apply err_rel_refl|].
  cbn [exchange_loop].
  pose proof (rel_next_weak_failure addr s t Hf) as [Eb Hf1].
  destruct (next_weak_failure s) as [b s1], (next_weak_failure t) as [b' t1].
  cbn in Eb, Hf1. subst b'. unfold host_compare_exchange_weak.
  pose proof (rel_atomic_load T addr s1 t1 HT Hf1) as El. unfold atomic_load in El. rewrite El.
  destruct (host_load T addr (process (memory_ t1))) as [v|];
    cbn [mbind result_bind]; [|apply err_rel_refl].
  destruct ((v =? e) && negb b); cbn [mbind result_bind].
  - pose proof (rel_atomic_store T addr (f e) s1 t1 HT Hf1) as Hst. unfold atomic_store in Hst.
    destruct (host_store T addr (f e) (process (memory_ s1))),
      (host_store T addr (f e) (process (memory_ t1))); cbn in *; try done.
  - rewrite set_memory_same.
    replace (set_memory (set_process (process (memory_ t1)) (memory_ t1)) t1) with t1
      by by destruct t1.
    by apply IH.
Qed.
End Refine.

(** Relates two runs of the same code. *)
Create HintDb rel discriminated.
#[export] Hint Constants Opaque : rel.
#[export] Hint Resolve rel_set_xreg rel_add_pc rel_set_pc rel_set_reserved rel_set_random
  rel_set_fregd rel_set_fregs rel_set_instret rel_MemoryRead rel_MemoryWrite rel_flush_all
  rel_flush_address rel_atomic_store rel_atomic_rmw rel_exchange_loop flushed_rel : rel.
#[export] Hint Extern 1 (ct_ok _) => unfold ct_ok; cbn; auto : rel.

(** Both states read the same registers. *)
Lemma rel_get_xreg {M} `{MemoryLaws M} r (s : Simulator M) t :
  sim_rel s t -> get_xreg r t = get_xreg r s.
Proof. by intros (h & _ & ->). Qed.
Lemma rel_get_fregs {M} `{MemoryLaws M} r (s : Simulator M) t :
  sim_rel s t -> get_fregs r t = get_fregs r s.
Proof. by intros (h & _ & ->). Qed.
Lemma rel_get_fregd {M} `{MemoryLaws M} r (s : Simulator M) t :
  sim_rel s t -> get_fregd r t = get_fregd r s.
Proof. by intros (h & _ & ->). Qed.
Lemma rel_pc {M} `{MemoryLaws M} (s : Simulator M) t : sim_rel s t -> pc_ t = pc_ s.
Proof. by intros (h & _ & ->). Qed.
Lemma rel_CSRRead {M} `{MemoryLaws M} c (s : Simulator M) t :
  sim_rel s t -> CSRRead c t = CSRRead c s.
Proof. by intros (h & _ & ->). Qed.

Ltac relate_reads :=
  repeat match goal with
  | Hr : flushed _ ?s ?t |- context [ get_xreg ?r ?t ] =>
      rewrite (rel_get_xreg r s t (flushed_rel _ s t Hr))
  | Hr : sim_rel ?s ?t |- context [ get_xreg ?r ?t ] => rewrite (rel_get_xreg r s t Hr)
  | Hr : sim_rel ?s ?t |- context [ get_fregs ?r ?t ] => rewrite (rel_get_fregs r s t Hr)
  | Hr : sim_rel ?s ?t |- context [ get_fregd ?r ?t ] => rewrite (rel_get_fregd r s t Hr)
  | Hr : sim_rel ?s ?t |- context [ CSRRead ?c ?t ] => rewrite (rel_CSRRead c s t Hr)
  | Hr : sim_rel ?s ?t |- context [ pc_ ?t ] => rewrite (rel_pc s t Hr)
  end.

Ltac relate :=
  cbv zeta; relate_reads;
  repeat (cbn beta iota; relate_reads;
    match goal with
    | |- res_rel _ (Err _) (Err _) => apply err_rel_refl
    | |- res_rel _ (Ok _) (Ok _) => cbn [res_rel]
    | |- res_rel _ (if ?c then _ else _) (if ?c then _ else _) => destruct c
    | |- res_rel _ (mbind _ ?x) (mbind _ ?x) =>
        let v := fresh "v" in destruct x as [v|]; cbn [mbind result_bind]
    | |- res_rel sim_rel (mbind (M := result sim_error) (A := Simulator _) _ _) _ =>
        eapply (res_rel_bind sim_rel); [|intros ? ? ?; relate_reads]
    | |- res_rel sim_rel (mbind (M := result sim_error) (A := Z * Simulator _) _ _) _ =>
        eapply (res_rel_bind rel_value);
          [|intros [? ?] [? ?] [? ?]; cbn [fst snd] in *; subst; relate_reads]
    end); eauto 6 with rel.

Section Functions.
Context {M : Type} `{MemoryLaws M}.
Implicit Types s : Simulator M.

Lemma rel_load_xreg T rd addr s t :
  ct_ok T -> sim_rel s t -> res_rel sim_rel (load_xreg T rd addr s) (load_xreg T rd addr t).
Proof. intros. unfold load_xreg. relate. Qed.
Lemma rel_load_fregs rd addr s t :
  sim_rel s t -> res_rel sim_rel (load_fregs rd addr s) (load_fregs rd addr t).
Proof. intros. unfold load_fregs. relate. Qed.
Lemma rel_load_fregd rd addr s t :
  sim_rel s t -> res_rel sim_rel (load_fregd rd addr s) (load_fregd rd addr t).
Proof. intros. unfold load_fregd. relate. Qed.
End Functions.

#[export] Hint Resolve rel_load_xreg rel_load_fregs rel_load_fregd : rel.

Section Interpret.
Context {M : Type} `{MemoryLaws M}.
Implicit Types s : Simulator M.

Lemma rel_LUI w s t :
  sim_rel s t -> res_rel sim_rel (InterpretLUI w s) (InterpretLUI w t).
Proof. intros. unfold InterpretLUI. relate. Qed.
Lemma rel_AUIPC w s t :
  sim_rel s t -> res_rel sim_rel (InterpretAUIPC w s) (InterpretAUIPC w t).
Proof. intros. unfold InterpretAUIPC. relate. Qed.
Lemma rel_JAL w s t :
  sim_rel s t -> res_rel sim_rel (InterpretJAL w s) (InterpretJAL w t).
Proof. intros. unfold InterpretJAL. relate. Qed.
Lemma rel_JALR w s t :
  sim_rel s t -> res_rel sim_rel (InterpretJALR w s) (InterpretJALR w t).
Proof. intros. unfold InterpretJALR. relate. Qed.
Lemma rel_LOAD w s t :
  sim_rel s t -> res_rel sim_rel (InterpretLOAD w s) (InterpretLOAD w t).
Proof. intros. unfold InterpretLOAD. relate. Qed.
Lemma rel_STORE w s t :
  sim_rel s t -> res_rel sim_rel (InterpretSTORE w s) (InterpretSTORE w t).
Proof. intros. unfold InterpretSTORE. relate. Qed.
Lemma rel_OPIMM w s t :
  sim_rel s t -> res_rel sim_rel (InterpretOPIMM w s) (InterpretOPIMM w t).
Proof. intros. unfold InterpretOPIMM. relate. Qed.
Lemma rel_OPIMM32 w s t :
  sim_rel s t -> res_rel sim_rel (InterpretOPIMM32 w s) (InterpretOPIMM32 w t).
Proof. intros. unfold InterpretOPIMM32. relate. Qed.
Lemma rel_MISCMEM w s t :
  sim_rel s t -> res_rel sim_rel (InterpretMISCMEM w s) (InterpretMISCMEM w t).
Proof. intros. unfold InterpretMISCMEM. relate. Qed.
Lemma rel_LOADFP w s t :
  sim_rel s t -> res_rel sim_rel (InterpretLOADFP w s) (InterpretLOADFP w t).
Proof. intros. unfold InterpretLOADFP. relate. Qed.
Lemma rel_STOREFP w s t :
  sim_rel s t -> res_rel sim_rel (InterpretSTOREFP w s) (InterpretSTOREFP w t).
Proof. intros. unfold InterpretSTOREFP. relate. Qed.
Lemma rel_BRANCH w s t :
  sim_rel s t -> res_rel sim_rel (InterpretBRANCH w s) (InterpretBRANCH w t).
Proof. intros. unfold InterpretBRANCH, branch_if. relate. Qed.
Lemma rel_OP w s t : sim_rel s t -> res_rel sim_rel (InterpretOP w s) (InterpretOP w t).
Proof.
  intros. unfold InterpretOP, InterpretOP_0, InterpretOP_SUB, InterpretOP_MULDIV,
    InterpretOP_SHADD, InterpretOP_MINMAXCLMUL, InterpretOP_ROTATE, InterpretOP_BCLRBEXT,
    InterpretOP_CZERO. relate.
Qed.
Lemma rel_OP32 w s t : sim_rel s t -> res_rel sim_rel (InterpretOP32 w s) (InterpretOP32 w t).
Proof.
  intros. unfold InterpretOP32, InterpretOP32_0, InterpretOP32_SUB, InterpretOP32_MULDIV,
    InterpretOP32_SHADD, InterpretOP32_ADDUW, InterpretOP32_ROTATE. relate.
Qed.
Lemma rel_SYSTEM w s t :
  sim_rel s t -> res_rel sim_rel (InterpretSYSTEM w s) (InterpretSYSTEM w t).
Proof.
  intros. unfold InterpretSYSTEM, InterpretECALL, InterpretEBREAK, CSRWrite, CSRSet,
    CSRClear. relate.
Qed.

(** *** Atomics, at the addresses of words *)

Lemma rel_LR T w s t :
  ct_ok T -> get_xreg (DecodeRs1 w) s mod 8 = 0 -> sim_rel s t ->
  res_rel sim_rel (InterpretLR T w s) (InterpretLR T w t).
Proof.
  intros HT Ha Hr. unfold InterpretLR. cbv zeta. rewrite (rel_get_xreg _ s t Hr).
  set (addr := get_xreg (DecodeRs1 w) s) in *. destruct (misaligned T addr);
    [apply err_rel_refl|].
  pose proof (run_op_rel (OpLoadOrdered T addr) (memory_ s)) as L.
  destruct Hr as (h & Hm & ->). specialize (L h (conj HT Ha) Hm). cbn [run_op memory_ over] in *.
  destruct (mem_load_ordered T addr (memory_ s)) as [[v m]|],
    (mem_load_ordered T addr h) as [[v' h']|]; cbn [mbind result_bind res_rel] in *; try done.
  destruct L as [[= ->] Hm']. cbn [snd] in Hm'. cbn [reserved_value_ set_reserved].
  apply rel_set_xreg. by exists h'.
Qed.

Lemma rel_SC T w s t :
  ct_ok T -> get_xreg (DecodeRs1 w) s mod 8 = 0 -> sim_rel s t ->
  res_rel sim_rel (InterpretSC T w s) (InterpretSC T w t).
Proof.
  intros HT Ha Hr. unfold InterpretSC. cbv zeta. pose proof Hr as (h & Hm & ->).
  cbn [reserved_address_ random_ over]. change (get_xreg ?r (over h s)) with (get_xreg r s).
  set (addr := get_xreg (DecodeRs1 w) s) in *.
  destruct (misaligned T addr); [apply err_rel_refl|].
  destruct (negb _); [cbn [res_rel]; by apply rel_set_xreg|].
  destruct (Random.NextUInt32 (random_ s)) as [r state].
  destruct (r mod 16 =? 0); [cbn [res_rel]; by apply rel_set_xreg, rel_set_random|].
  change (get_xreg (DecodeRs2 w) (set_random state (over h s)))
    with (get_xreg (DecodeRs2 w) s).
  change (get_xreg (DecodeRs2 w) (set_random state s)) with (get_xreg (DecodeRs2 w) s).
  unfold next_weak_failure.
  cbn [weak_failures set_random over reserved_value_ memory_].
  destruct (weak_failures s) as [|b l];
    cbn [weak_failures set_random set_weak_failures over reserved_value_ memory_];
  lazymatch goal with
  | |- context [ mem_compare_exchange ?b T addr ?e ?d (memory_ s) ] =>
      pose proof (compare_exchange_rel b T addr e d (memory_ s) h HT Ha Hm) as L;
      cbn [mem_compare_exchange direct_ops]; unfold Direct.CompareExchange;
      destruct (mem_compare_exchange b T addr e d (memory_ s)) as [[[ok v] m]|],
        (host_compare_exchange_weak b T addr e d h) as [[[ok' v'] h']|];
        cbn [mbind result_bind res_rel] in *; try done;
        destruct L as (-> & _ & Hm'); apply rel_set_xreg; by exists h'
  end.
Qed.

Lemma rel_amo_prefix T w s t (f : Simulator M -> sim_result (Simulator M)) g :
  get_xreg (DecodeRs1 w) s mod 8 = 0 -> sim_rel s t ->
  (forall s1 t1, flushed (get_xreg (DecodeRs1 w) s) s1 t1 -> res_rel sim_rel (f s1) (g t1)) ->
  res_rel sim_rel
    (if misaligned T (get_xreg (DecodeRs1 w) s)
     then Err (MisalignedAtomic (get_xreg (DecodeRs1 w) s))
     else s ← flush_address (get_xreg (DecodeRs1 w) s) s; f s)
    (if misaligned T (get_xreg (DecodeRs1 w) t)
     then Err (MisalignedAtomic (get_xreg (DecodeRs1 w) t))
     else t ← flush_address (get_xreg (DecodeRs1 w) t) t; g t).
Proof.
  intros Ha Hr Hf. rewrite (rel_get_xreg _ s t Hr). destruct (misaligned _ _);
    [apply err_rel_refl|].
  eapply res_rel_bind; [by apply rel_flush_address|]. apply Hf.
Qed.

Ltac relate_amo :=
  intros HT Ha Hr; apply rel_amo_prefix; [done..|];
  let s1 := fresh "s1" in let t1 := fresh "t1" in let Hf := fresh "Hf" in
  intros s1 t1 Hf; cbv zeta; relate_reads;
  first
  [ by apply rel_atomic_store
  | eapply res_rel_bind; [by apply rel_atomic_rmw|];
    intros [v1 s2] [v2 t2] [Ev Hr2]; cbn [fst snd] in *; subst; by apply rel_set_xreg
  | rewrite (rel_atomic_load _ _ s1 t1 HT Hf);
    destruct (atomic_load _ _ t1) as [v|]; cbn [mbind result_bind]; [|apply err_rel_refl];
    first
    [ by apply rel_set_xreg, (flushed_rel _ _ _ Hf)
    | replace (exchange_rounds t1) with (exchange_rounds s1)
        by (by destruct Hf as (h & -> & _));
      eapply res_rel_bind; [by apply rel_exchange_loop|];
      intros [v1 s2] [v2 t2] [Ev Hr2]; cbn [fst snd] in *; subst; by apply rel_set_xreg ] ].

Lemma rel_AMOSWAP T w s t :
  ct_ok T -> get_xreg (DecodeRs1 w) s mod 8 = 0 -> sim_rel s t ->
  res_rel sim_rel (InterpretAMOSWAP T w s) (InterpretAMOSWAP T w t).
Proof. relate_amo. Qed.
Lemma rel_AMOADD T w s t :
  ct_ok T -> get_xreg (DecodeRs1 w) s mod 8 = 0 -> sim_rel s t ->
  res_rel sim_rel (InterpretAMOADD T w s) (InterpretAMOADD T w t).
Proof. relate_amo. Qed.
Lemma rel_AMOXOR T w s t :
  ct_ok T -> get_xreg (DecodeRs1 w) s mod 8 = 0 -> sim_rel s t ->
  res_rel sim_rel (InterpretAMOXOR T w s) (InterpretAMOXOR T w t).
Proof. relate_amo. Qed.
Lemma rel_AMOAND T w s t :
  ct_ok T -> get_xreg (DecodeRs1 w) s mod 8 = 0 -> sim_rel s t ->
  res_rel sim_rel (InterpretAMOAND T w s) (InterpretAMOAND T w t).
Proof. relate_amo. Qed.
Lemma rel_AMOOR T w s t :
  ct_ok T -> get_xreg (DecodeRs1 w) s mod 8 = 0 -> sim_rel s t ->
  res_rel sim_rel (InterpretAMOOR T w s) (InterpretAMOOR T w t).
Proof. relate_amo. Qed.
Lemma rel_AMOMIN T w s t :
  ct_ok T -> get_xreg (DecodeRs1 w) s mod 8 = 0 -> sim_rel s t ->
  res_rel sim_rel (InterpretAMOMIN T w s) (InterpretAMOMIN T w t).
Proof. relate_amo. Qed.
Lemma rel_AMOMAX T w s t :
  ct_ok T -> get_xreg (DecodeRs1 w) s mod 8 = 0 -> sim_rel s t ->
  res_rel sim_rel (InterpretAMOMAX T w s) (InterpretAMOMAX T w t).
Proof. relate_amo. Qed.
Lemma rel_LOADORDERED T w s t :
  ct_ok T -> get_xreg (DecodeRs1 w) s mod 8 = 0 -> sim_rel s t ->
  res_rel sim_rel (InterpretLOADORDERED T w s) (InterpretLOADORDERED T w t).
Proof. relate_amo. Qed.
Lemma rel_STOREORDERED T w s t :
  ct_ok T -> get_xreg (DecodeRs1 w) s mod 8 = 0 -> sim_rel s t ->
  res_rel sim_rel (InterpretSTOREORDERED T w s) (InterpretSTOREORDERED T w t).
Proof. relate_amo. Qed.
End Interpret.

#[export] Hint Resolve rel_LR rel_SC rel_AMOSWAP rel_AMOADD rel_AMOXOR rel_AMOAND rel_AMOOR
  rel_AMOMIN rel_AMOMAX rel_LOADORDERED rel_STOREORDERED rel_LUI rel_AUIPC rel_JAL rel_JALR
  rel_LOAD rel_STORE rel_OPIMM rel_OPIMM32 rel_MISCMEM rel_LOADFP rel_STOREFP rel_BRANCH
  rel_OP rel_OP32 rel_SYSTEM : rel.

Section Step.
Context {M : Type} `{MemoryLaws M}.
Implicit Types s : Simulator M.

Lemma rel_AMO w s t :
  get_xreg (DecodeRs1 w) s mod 8 = 0 -> sim_rel s t ->
  res_rel sim_rel (InterpretAMO w s) (InterpretAMO w t).
Proof.
  intros. unfold InterpretAMO, InterpretAMO8, InterpretAMO16, InterpretAMO32,
    InterpretAMO64. relate.
Qed.

(** An atomic instruction accesses the address of a word. *)
Definition atomics_aligned (w : Z) s : Prop :=
  DecodeOpcode w = Opcode.AMO -> get_xreg (DecodeRs1 w) s mod 8 = 0.

Lemma rel_Interpret w s t :
  atomics_aligned w s -> sim_rel s t -> res_rel sim_rel (Interpret w s) (Interpret w t).
Proof.
  intros Ha Hr. unfold Interpret, InterpretFP.
  destruct (DecodeOpcode w =? Opcode.AMO) eqn:E.
  - apply Z.eqb_eq in E. pose proof (rel_AMO w s t (Ha E) Hr). relate.
  - relate.
Qed.

Lemma rel_InterpretC w s t :
  sim_rel s t -> res_rel sim_rel (InterpretC w s) (InterpretC w t).
Proof.
  intros. unfold InterpretC, next_c, interpret_c_jr, interpret_c_miscalu, interpret_c_rr,
    interpret_c_ext, interpret_c_mem, InterpretEBREAK, next_c. relate.
Qed.
End Step.

Section Claims.
Context {M : Type} `{MemoryLaws M}.

(** C8: The memory does not matter. On any memory that keeps its contract (the buffered one
    in particular) a round of the simulator does what it does on the memory of the
    process, or stops with the same error, under two conditions: the code it fetches is
    not waiting in the buffer, and the address of an atomic instruction is a multiple of
    8 (an atomic access to the upper half of a word can miss a buffered store, which
    [FlushAddress] does not find). *)
Theorem step_refines_direct (s : Simulator M) h :
  mem_abs (memory_ s) h ->
  (forall i, 0 <= i < 4 -> process (memory_ s) !! (pc_ s + i) = h !! (pc_ s + i)) ->
  (forall w, host_load uint32_t (pc_ s) h = Ok w -> atomics_aligned w s) ->
  res_rel sim_rel (step s) (step (over h s)).
Proof.
  intros Hm Hcode Ha. assert (ct_sizeof uint16_t = 2) by done.
  assert (ct_sizeof uint32_t = 4) by done. unfold step. cbn [pc_ over memory_ process direct_ops].
  rewrite (host_load_ext uint16_t _ _ h), (host_load_ext uint32_t _ _ h);
    [|intros i Hi; apply Hcode; lia..].
  destruct (host_load uint16_t (pc_ s) h) as [p|]; cbn [mbind result_bind];
    [|apply err_rel_refl].
  eapply (res_rel_bind sim_rel).
  - destruct (IsCInstruction p); [by apply rel_InterpretC, sim_rel_intro|].
    destruct (host_load uint32_t (pc_ s) h) as [w|] eqn:Ew; cbn [mbind result_bind];
      [|apply err_rel_refl].
    apply rel_Interpret; [by apply Ha|by apply sim_rel_intro].
  - intros s1 t1 Hr. cbn [res_rel]. pose proof Hr as (h1 & _ & ->).
    by apply rel_set_instret.
Qed.
End Claims.

(** ** A concrete instance *)

(** [h] with a value stored. *)
Definition with_store (T : ctype) (addr v : Z) (h : host) : host :=
  match host_store T addr v h with Ok h => h | Err _ => h end.

Lemma with_store_ok T addr v h : ct_ok T -> process_ok h -> process_ok (with_store T addr v h).
Proof.
  intros HT [Hw Hb]. unfold with_store. destruct (host_store T addr v h) eqn:E; [|done].
  split.
  - eapply BufferedFacts.whole_words_same_dom; [|done].
    by eapply BufferedFacts.store_same_dom.
  - by eapply BufferedFacts.store_bytes_ok.
Qed.

(** [sd x1, 0(x2)] at 0x1000, on a buffered memory. *)
Definition example_store_word : Z :=
  EncodeSTypeImm 0 .| EncodeRs2 1 .| EncodeRs1 2 .| EncodeFunct3 Funct3.SD
  .| EncodeOpcode Opcode.STORE.
Definition example_process : host :=
  with_store uint32_t 0x1000 example_store_word (blank 0x1000 64).
Definition example_sim : Simulator SimulatorMemory :=
  set_xreg 1 7 (set_xreg 2 0x1020
    (mkSimulator 0x1000 (replicate 32 0) 0 0 0 (replicate 32 0) 0 1
      (mkSimulatorMemory true (mkBuffered example_process [])) [])).

Lemma step_refines_direct_witness :
  match step example_sim, step (over example_process example_sim) with
  | Ok s, Ok t =>
      buffer (buffered_ (memory_ s)) = [(0x1020, 7)] /\ sim_rel s t /\
      host_load uint64_t 0x1020 (memory_ t) = Ok 7
  | _, _ => False
  end.
Proof.
  assert (Hok : process_ok example_process)
    by (apply with_store_ok; [unfold ct_ok; cbn; auto|by apply blank_ok]).
  assert (Hr : res_rel sim_rel (step example_sim) (step (over example_process example_sim))).
  { apply (step_refines_direct example_sim example_process).
    - by apply initial_abs.
    - reflexivity.
    - vm_compute. intros w [= <-] E. discriminate E. }
  assert (Hb : match step example_sim with
               | Ok s => buffer (buffered_ (memory_ s)) = [(0x1020, 7)]
               | Err _ => False end) by (vm_compute; reflexivity).
  assert (Ht : match step (over example_process example_sim) with
               | Ok t => host_load uint64_t 0x1020 (memory_ t) = Ok 7
               | Err _ => False end) by (vm_compute; reflexivity).
  destruct (step example_sim); [|done].
  destruct (step (over example_process example_sim)); [|done]. done.
Defined.
