(* ===== verification/RiscvAtomics.v ===== *)
(** * Atomic instructions

    The simulator implements [amomin] and [amomax] by a loop around a weak
    compare-exchange of the host, which may fail for no reason, and the pair of
    [lr] and [sc] by a compare-exchange with the reserved value.  The theorems say
    that the loops end and do the update exactly once, and when a store
    conditional stores. *)

From S2P Require Import Prelude Utils RiscvConstants RiscvEncoding SimMemory SimMemoryProofs.
From S2P Require Import RiscvSimulator RiscvArith RiscvIsa RiscvInterpret RiscvRefine.

Section Atomics.
Context {M : Type} `{MemoryLaws M}.
Implicit Types s : Simulator M.

(** ** The compare-exchange loop *)

(** What is left of the host's outcomes after the first success. *)
Fixpoint after_success (l : list bool) : list bool :=
  match l with
  | [] => []
  | true :: l => after_success l
  | false :: l => l
  end.

Definition skip_failures s : Simulator M := set_weak_failures (after_success (weak_failures s)) s.

Lemma host_load_in T addr h v : ct_ok T -> host_load T addr h = Ok v -> ct_in T v.
Proof.
  intros HT. unfold host_load. intros (bs & _ & [= <-])%bind_Ok_inv. apply ct_cast_in.
  destruct HT as [-> |[-> |[-> | ->]]]; lia.
Qed.

(** However often the host fails, the loop exchanges once. *)
Lemma exchange_loop_once T addr f v : forall n s,
  (length (weak_failures s) < n)%nat -> host_load T addr (process (memory_ s)) = Ok v ->
  exchange_loop n T addr f v s
  = (p ← host_store T addr (f v) (process (memory_ s));
     Ok (v, set_memory (set_process p (memory_ s)) (skip_failures s))).
Proof.
  intros n. induction n as [|n IH]; intros s Hn Hv; [lia|]. cbn [exchange_loop].
  unfold next_weak_failure, host_compare_exchange_weak.
  destruct (weak_failures s) as [|[] l] eqn:El; cbn [set_weak_failures memory_].
  - rewrite Hv. cbn [mbind result_bind]. rewrite Z.eqb_refl. cbn [negb andb].
    destruct (host_store _ _ _ _); cbn [mbind result_bind]; [|done].
    unfold skip_failures. rewrite El. destruct s; cbn in *. by rewrite El.
  - rewrite Hv. cbn [mbind result_bind]. rewrite andb_false_r. cbn [mbind result_bind].
    change (set_memory (set_process (process (memory_ s)) (memory_ s)) (set_weak_failures l s))
      with (set_weak_failures l (set_memory (set_process (process (memory_ s)) (memory_ s)) s)).
    rewrite set_memory_same. rewrite IH; [|cbn in *; lia|done].
    unfold skip_failures. rewrite El. done.
  - rewrite Hv. cbn [mbind result_bind]. rewrite Z.eqb_refl. cbn [negb andb].
    destruct (host_store _ _ _ _); cbn [mbind result_bind]; [|done].
    unfold skip_failures. by rewrite El.
Qed.

(** ** The read-modify-write instructions as one update *)

(** The instruction that atomically replaces the value [v] at its address by
    [f v x], where [x] is the operand, and returns [v]. *)
Definition amo_update (T : ctype) (f : Z -> Z -> Z) (instr : Z) s : sim_result (Simulator M) :=
  let addr := get_xreg (DecodeRs1 instr) s in
  if misaligned T addr then Err (MisalignedAtomic addr)
  else
    s ← flush_address addr s;
    let x := ct_cast T (get_xreg (DecodeRs2 instr) s) in
    '(v, s) ← atomic_rmw T addr (fun v => f v x) (skip_failures s);
    Ok (set_xreg (DecodeRd instr) (sign_extend (ct_bits T) v) s).

Lemma ct_ok_pos T : ct_ok T -> 0 < ct_bits T.
Proof. intros [-> |[-> |[-> | ->]]]; lia. Qed.

(** The loop is an [atomic_rmw]. *)
Lemma exchange_loop_rmw T addr f v s :
  (forall v, ct_in T v -> ct_in T (f v)) -> ct_ok T ->
  host_load T addr (process (memory_ s)) = Ok v ->
  exchange_loop (exchange_rounds s) T addr f v s = atomic_rmw T addr f (skip_failures s).
Proof.
  intros Hf HT Hv. rewrite exchange_loop_once by (unfold exchange_rounds; lia || done).
  unfold atomic_rmw, atomic_load, atomic_store. cbn [memory_ skip_failures set_weak_failures].
  rewrite Hv. cbn [mbind result_bind].
  assert (Hin : ct_in T v) by by eapply host_load_in.
  rewrite ct_cast_id by (by apply ct_ok_pos || by apply Hf).
  by destruct (host_store _ _ _ _).
Qed.

Lemma min_max_in T x y : ct_in T x -> ct_in T y -> ct_in T (Z.min x y) /\ ct_in T (Z.max x y).
Proof. unfold ct_in, is_u, is_s. destruct (ct_signed T); lia. Qed.

Lemma exchange_update T (g f : Z -> Z -> Z) instr s :
  ct_ok T -> (forall v x, g v x = f v x) ->
  (forall v x, ct_in T v -> ct_in T x -> ct_in T (f v x)) ->
  (let addr := get_xreg (DecodeRs1 instr) s in
   if misaligned T addr then Err (MisalignedAtomic addr)
   else
     s ← flush_address addr s;
     expected ← atomic_load T addr s;
     let compare := ct_cast T (get_xreg (DecodeRs2 instr) s) in
     '(expected, s) ← exchange_loop (exchange_rounds s) T addr
       (fun expected => g expected compare) expected s;
     Ok (set_xreg (DecodeRd instr) (sign_extend (ct_bits T) expected) s))
  = amo_update T f instr s.
Proof.
  intros HT Hg Hf. unfold amo_update. cbv zeta. case_match; [done|].
  destruct (flush_address _ s) as [s1|]; cbn [mbind result_bind]; [|done].
  set (x := ct_cast T _). set (addr := get_xreg _ s).
  assert (Hx : ct_in T x) by by apply ct_cast_in, ct_ok_pos.
  destruct (atomic_load T addr s1) as [v|e] eqn:E; cbn [mbind result_bind].
  - rewrite exchange_loop_rmw; [|intros; rewrite Hg; auto|done|done].
    unfold atomic_rmw. destruct (atomic_load T addr (skip_failures s1)); [|done].
    cbn [mbind result_bind]. by rewrite Hg.
  - unfold atomic_rmw. change (atomic_load T addr (skip_failures s1)) with (atomic_load T addr s1).
    by rewrite E.
Qed.

(** Minimum and maximum are atomic.  The retry loops of [amomin] and [amomax],
    signed or unsigned and of every width, end however often the weak
    compare-exchange of the host fails, and do what one atomic update of the memory
    with the minimum or the maximum does. *)
Lemma min_max_update T instr s :
  ct_ok T ->
  InterpretAMOMIN T instr s = amo_update T Z.min instr s /\
  InterpretAMOMAX T instr s = amo_update T Z.max instr s.
Proof.
  intros HT. split.
  - apply (exchange_update T (fun v x => if v <? x then v else x) Z.min); [done| |].
    + intros v x. destruct (v <? x) eqn:E; reflect_bool; lia.
    + intros. by apply min_max_in.
  - apply (exchange_update T (fun v x => if x <? v then v else x) Z.max); [done| |].
    + intros v x. destruct (x <? v) eqn:E; reflect_bool; lia.
    + intros. by apply min_max_in.
Qed.
End Atomics.

(** ** Store conditional *)

Section StoreConditional.
Implicit Types s : Simulator host.

Lemma reserved_set_xreg rd v s :
  reserved_address_ (set_xreg rd v s) = reserved_address_ s /\
  reserved_value_ (set_xreg rd v s) = reserved_value_ s.
Proof. unfold set_xreg. by destruct (rd =? Register.ZR). Qed.

Lemma decode_rd_range instr : is_u 5 (DecodeRd instr).
Proof. unfold DecodeRd. rewrite DecodeReg_field. by apply field_range. Qed.

(** [t] differs from [s] in the state of the random numbers and of the host only. *)
Definition same_machine s (t : Simulator host) : Prop :=
  xregs_ t = xregs_ s /\ pc_ t = pc_ s /\ reserved_address_ t = reserved_address_ s /\
  reserved_value_ t = reserved_value_ s.

Lemma sc_result instr b s t :
  sim_wf s -> DecodeRd instr <> Register.ZR -> same_machine s t ->
  let t' := set_xreg (DecodeRd instr) (Z.b2z b) t in
  reserved_address_ t' = reserved_address_ s /\ reserved_value_ t' = reserved_value_ s /\
  get_xreg (DecodeRd instr) t' = Z.b2z b /\ memory_ t' = memory_ t.
Proof.
  intros Hs Hd (Hx & Hp & Ha & Hv). cbv zeta. rewrite memory_set_xreg.
  destruct (reserved_set_xreg (DecodeRd instr) (Z.b2z b) t) as [-> ->]. split_and!; [done..| |done].
  rewrite get_set_xreg; [|split; rewrite ?Hx, ?Hp; apply Hs|apply decode_rd_range..].
  rewrite Z.eqb_refl, (proj2 (Z.eqb_neq _ _)) by done. by destruct b.
Qed.

Lemma next_weak_failure_same s :
  exists b t, next_weak_failure s = (b, t) /\ same_machine s t /\ memory_ t = memory_ s.
Proof. unfold next_weak_failure. destruct (weak_failures s) as [|b l]; do 2 eexists; done. Qed.

(** A store conditional on the memory of the process either
    fails, sets its result to one and leaves the memory alone, or succeeds, sets its
    result to zero and has stored; it succeeds only at the reserved address and
    while the memory there holds the reserved value.  The reservation stays. *)
Lemma store_conditional_outcome T instr s s' :
  sim_wf s -> DecodeRd instr <> Register.ZR -> InterpretSC T instr s = Ok s' ->
  let addr := get_xreg (DecodeRs1 instr) s in
  let value := ct_cast T (get_xreg (DecodeRs2 instr) s) in
  reserved_address_ s' = reserved_address_ s /\ reserved_value_ s' = reserved_value_ s /\
  (get_xreg (DecodeRd instr) s' = 1 /\ memory_ s' = memory_ s \/
   get_xreg (DecodeRd instr) s' = 0 /\ addr = reserved_address_ s /\
   host_load T addr (memory_ s) = Ok (ct_cast T (reserved_value_ s)) /\
   host_store T addr value (memory_ s) = Ok (memory_ s')).
Proof.
  intros Hs Hd E. cbv zeta. unfold InterpretSC in E. cbv zeta in E.
  set (addr := get_xreg (DecodeRs1 instr) s) in *.
  assert (Hfail : forall t, same_machine s t -> memory_ t = memory_ s ->
    s' = set_xreg (DecodeRd instr) 1 t ->
    reserved_address_ s' = reserved_address_ s /\ reserved_value_ s' = reserved_value_ s /\
    get_xreg (DecodeRd instr) s' = 1 /\ memory_ s' = memory_ s).
  { intros t Ht Hm ->. destruct (sc_result instr true s t Hs Hd Ht) as (? & ? & ? & ?).
    rewrite <- Hm. done. }
  destruct (misaligned T addr); [done|].
  destruct (addr =? reserved_address_ s) eqn:Ea; cbn [negb] in E; cycle 1.
  { injection E as <-. destruct (Hfail s) as (? & ? & ? & ?); [done..|]. auto. }
  apply Z.eqb_eq in Ea. destruct (Random.NextUInt32 (random_ s)) as [r state].
  destruct (r mod 16 =? 0).
  { injection E as <-. destruct (Hfail (set_random state s)) as (? & ? & ? & ?); [done..|]. auto. }
  destruct (next_weak_failure_same (set_random state s)) as (b & t & En & Ht & Hm). rewrite En in E.
  change (same_machine s t) in Ht. change (memory_ t = memory_ s) in Hm. clear En.
  change (reserved_value_ (set_random state s)) with (reserved_value_ s) in E.
  change (get_xreg (DecodeRs2 instr) (set_random state s)) with (get_xreg (DecodeRs2 instr) s) in E.
  set (value := ct_cast T (get_xreg (DecodeRs2 instr) s)) in *. rewrite Hm in E.
  cbn [mem_compare_exchange direct_ops] in E.
  unfold Direct.CompareExchange, host_compare_exchange_weak in E.
  destruct (host_load T addr (memory_ s)) as [v|] eqn:Ev; cbn [mbind result_bind] in E; [|done].
  destruct ((v =? ct_cast T (reserved_value_ s)) && negb b) eqn:Ec; cycle 1.
  { injection E as <-. destruct (Hfail (set_memory (memory_ s) t)) as (? & ? & ? & ?); [done..|]. auto. }
  apply andb_true_iff in Ec as [Ec _]. apply Z.eqb_eq in Ec. subst v.
  destruct (host_store T addr value (memory_ s)) as [m|] eqn:Est; cbn [mbind result_bind] in E; [|done].
  injection E as <-. destruct (sc_result instr false s (set_memory m t) Hs Hd Ht) as (? & ? & ? & Hm').
  split_and!; [done..|]. right. split_and!; [done..|]. f_equal. symmetry. exact Hm'.
Qed.

(** C37: Atomic instructions.  The retry loops of [amomin] and [amomax], signed or
    unsigned and of every width, end however often the weak compare-exchange of the host
    fails, and do what one atomic update of the memory with the minimum or the maximum
    does.  A store conditional on the memory of the process either fails, sets its result
    to one and leaves the memory alone, or succeeds, sets its result to zero and has
    stored; it succeeds only at the reserved address and while the memory there holds the
    reserved value.  The reservation stays. *)
Theorem atomic_instructions T instr s s' :
  ct_ok T ->
  (InterpretAMOMIN T instr s = amo_update T Z.min instr s /\
   InterpretAMOMAX T instr s = amo_update T Z.max instr s) /\
  (sim_wf s -> DecodeRd instr <> Register.ZR -> InterpretSC T instr s = Ok s' ->
   let addr := get_xreg (DecodeRs1 instr) s in
   let value := ct_cast T (get_xreg (DecodeRs2 instr) s) in
   reserved_address_ s' = reserved_address_ s /\ reserved_value_ s' = reserved_value_ s /\
   (get_xreg (DecodeRd instr) s' = 1 /\ memory_ s' = memory_ s \/
    get_xreg (DecodeRd instr) s' = 0 /\ addr = reserved_address_ s /\
    host_load T addr (memory_ s) = Ok (ct_cast T (reserved_value_ s)) /\
    host_store T addr value (memory_ s) = Ok (memory_ s'))).
Proof. intros HT. exact (conj (min_max_update T instr s HT) (store_conditional_outcome T instr s s')). Qed.
End StoreConditional.

(** ** Concrete instances *)

(** [amomin.w a0, a1, (a2)] and [sc.w a0, a1, (a2)] on a word at 0x2000 that holds 7. *)
Definition example_amomin : Z :=
  EncodeFunct5 Funct5.AMOMIN .| EncodeRs2 Register.A1 .| EncodeRs1 Register.A2
  .| EncodeFunct3 Funct3.WIDTH32 .| EncodeRd Register.A0 .| EncodeOpcode Opcode.AMO.
Definition example_sc : Z :=
  EncodeFunct5 Funct5.SC .| EncodeRs2 Register.A1 .| EncodeRs1 Register.A2
  .| EncodeFunct3 Funct3.WIDTH32 .| EncodeRd Register.A0 .| EncodeOpcode Opcode.AMO.

Definition example_atomic (x : Z) (failures : list bool) : Simulator host :=
  set_weak_failures failures (set_reserved 0x2000 7
    (set_xreg Register.A1 x (set_xreg Register.A2 0x2000
      (boot 0x1000 (image [(0x2000, [7; 0; 0; 0; 0; 0; 0; 0])]))))).

Lemma atomic_instructions_witness :
  InterpretAMOMIN int32_t example_amomin (example_atomic (-3) [true; true; false; true])
  = amo_update int32_t Z.min example_amomin (example_atomic (-3) [true; true; false; true]) /\
  match InterpretSC int32_t example_sc (example_atomic 9 []) with
  | Ok s => get_xreg Register.A0 s = 0 /\ host_load int32_t 0x2000 (memory_ s) = Ok 9 /\
            reserved_address_ s = 0x2000
  | Err _ => False
  end.
Proof.
  split.
  { exact (proj1 (proj1 (atomic_instructions int32_t example_amomin (example_atomic (-3) [true; true; false; true])
      (example_atomic 0 []) (or_intror (or_intror (or_introl eq_refl)))))). }
  assert (Hok : match InterpretSC int32_t example_sc (example_atomic 9 []) with
    | Ok s => (get_xreg Register.A0 s =? 0) &&
              match host_load int32_t 0x2000 (memory_ s) with Ok v => v =? 9 | Err _ => false end
    | Err _ => false end = true) by (vm_compute; reflexivity).
  destruct (InterpretSC int32_t example_sc (example_atomic 9 [])) as [s'|] eqn:E; [|discriminate].
  apply andb_true_iff in Hok as [H0 H9]. apply Z.eqb_eq in H0.
  split_and!; [exact H0| |].
  { destruct (host_load int32_t 0x2000 (memory_ s')) as [v|]; [|discriminate].
    apply Z.eqb_eq in H9. by rewrite H9. }
  apply (proj2 (atomic_instructions int32_t example_sc (example_atomic 9 []) s'
    (or_intror (or_intror (or_introl eq_refl))))).
  - split; try reflexivity; [|split; [discriminate|reflexivity]].
    repeat (constructor; [split; [vm_compute; discriminate|reflexivity]|]). constructor.
  - vm_compute. discriminate.
  - exact E.
Defined.
