(* ===== verification/RiscvTables.v ===== *)
(** * Compressed parcels: what their decoders read

    The decoded operands of every parcel of a compressed format, checked by
    running encoder and decoder on all operands: three-bit and five-bit
    registers and the immediates that pass the assembler's tests. *)

From S2P Require Import Prelude Utils RiscvConstants RiscvEncoding RiscvDecode.

(** ** Tables of decoded parcels *)

Definition checked3 (P : Z -> Z -> Z -> bool) (l1 l2 l3 : list Z) : bool :=
  forallb (fun x => checked (P x) l2 l3) l1.

Lemma checked3_spec P lo1 n1 lo2 n2 lo3 n3 :
  checked3 P (seqZ lo1 n1) (seqZ lo2 n2) (seqZ lo3 n3) = true ->
  forall x y z, lo1 <= x < lo1 + n1 -> lo2 <= y < lo2 + n2 -> lo3 <= z < lo3 + n3 ->
  P x y z = true.
Proof.
  unfold checked3. rewrite forallb_forall. intros H x y z Hx Hy Hz.
  apply (checked_spec (P x) lo2 n2 lo3 n3); [|done..].
  apply H, list_elem_of_In, elem_of_seqZ. lia.
Qed.

(** Registers [x8] to [x15] and all registers. *)
Abbreviation prime := (seqZ 8 8).
Abbreviation regs := (seqZ 0 32).

(** An immediate that passes the test [is] has the word checked by [P]. *)
Definition when (c : bool) (P : bool) : bool := negb c || P.
Lemma when_true c P : when c P = true -> c = true -> P = true.
Proof. unfold when. by destruct c. Qed.

Lemma is_reg_range r : is_u 5 r -> 0 <= r < 0 + 32.
Proof. unfold is_u. lia. Qed.
Lemma is_prime_range r : IsRegPrime r = true -> 8 <= r < 8 + 8.
Proof. rewrite IsRegPrime_spec. lia. Qed.
Lemma is_prime_reg r : IsRegPrime r = true -> is_u 5 r.
Proof. rewrite IsRegPrime_spec. unfold is_u. lia. Qed.

Lemma imm_range (is_imm : Z -> bool) lo n imm :
  is_imm imm = true -> (forall i, is_imm i = true -> lo <= i < lo + n) -> lo <= imm < lo + n.
Proof. auto. Qed.

(** The ranges of the immediates. *)
Ltac imm_range_by N :=
  intros imm; unfold IsCIImm, IsCI16Imm, IsCI4SPNImm, IsCSPLoad4Imm, IsCSPLoad8Imm,
    IsCSPStore4Imm, IsCSPStore8Imm, IsCMem1Imm, IsCMem2Imm, IsCMem4Imm, IsCMem8Imm;
  rewrite andb_true_iff; intros [Hi _];
  first [rewrite IsInt_intptr in Hi by lia | rewrite IsUint_intptr in Hi by lia];
  unfold is_u, is_s in Hi; lia.

Lemma IsCIImm_range : forall imm, IsCIImm imm = true -> -32 <= imm < -32 + 64.
Proof. imm_range_by 6. Qed.
Lemma IsCI16Imm_range : forall imm, IsCI16Imm imm = true -> -512 <= imm < -512 + 1024.
Proof. imm_range_by 10. Qed.
Lemma IsCI4SPNImm_range : forall imm, IsCI4SPNImm imm = true -> 0 <= imm < 0 + 512.
Proof. imm_range_by 9. Qed.
Lemma IsCSPLoad4Imm_range : forall imm, IsCSPLoad4Imm imm = true -> 0 <= imm < 0 + 256.
Proof. imm_range_by 8. Qed.
Lemma IsCSPLoad8Imm_range : forall imm, IsCSPLoad8Imm imm = true -> 0 <= imm < 0 + 512.
Proof. imm_range_by 9. Qed.
Lemma IsCSPStore4Imm_range : forall imm, IsCSPStore4Imm imm = true -> 0 <= imm < 0 + 256.
Proof. imm_range_by 8. Qed.
Lemma IsCSPStore8Imm_range : forall imm, IsCSPStore8Imm imm = true -> 0 <= imm < 0 + 512.
Proof. imm_range_by 9. Qed.
Lemma IsCMem1Imm_range : forall imm, IsCMem1Imm imm = true -> 0 <= imm < 0 + 4.
Proof. imm_range_by 2. Qed.
Lemma IsCMem2Imm_range : forall imm, IsCMem2Imm imm = true -> 0 <= imm < 0 + 4.
Proof. imm_range_by 2. Qed.
Lemma IsCMem4Imm_range : forall imm, IsCMem4Imm imm = true -> 0 <= imm < 0 + 128.
Proof. imm_range_by 7. Qed.
Lemma IsCMem8Imm_range : forall imm, IsCMem8Imm imm = true -> 0 <= imm < 0 + 256.
Proof. imm_range_by 8. Qed.

(** Reads the facts of a line of a table. *)
Ltac read_table C :=
  cbv zeta beta in C; rewrite ?andb_true_iff, ?Z.eqb_eq in C;
  repeat match type of C with _ /\ _ => let D := fresh in destruct C as [C D] end;
  apply is_parcel_spec in C as (? & ? & ?); split_and!; done.

(** The same for a line guarded by a test of the immediate. *)
Ltac read_guarded C :=
  let D := fresh in
  pose proof (when_true _ _ C ltac:(done)) as D; clear C; read_table D.

(** *** Register formats *)

Definition rr_ops : list Z :=
  [COpcode.C_AND; COpcode.C_OR; COpcode.C_XOR; COpcode.C_SUB; COpcode.C_ADDW;
   COpcode.C_SUBW; COpcode.C_MUL].

Definition rr_word (op rs1 rs2 : Z) : Z := op .| EncodeCRs1p rs1 .| EncodeCRs2p rs2.

Lemma rr_table :
  forallb (fun op => checked (fun rs1 rs2 =>
    let w := rr_word op rs1 rs2 in
    is_parcel w COpcode.C_OP_MASK COpcode.C_MISCALU
    && (w .& COpcode.C_MISCALU_MASK =? COpcode.C_RR)
    && (w .& COpcode.C_RR_MASK =? op)
    && (DecodeCRs1p w =? rs1) && (DecodeCRs2p w =? rs2)) prime prime) rr_ops = true.
Proof. vm_compute. done. Qed.

Lemma rr_decode op rs1 rs2 :
  op ∈ rr_ops -> IsRegPrime rs1 = true -> IsRegPrime rs2 = true ->
  let w := rr_word op rs1 rs2 in
  is_u 16 w /\ IsCInstruction w = true /\ w .& COpcode.C_OP_MASK = COpcode.C_MISCALU /\
  w .& COpcode.C_MISCALU_MASK = COpcode.C_RR /\ w .& COpcode.C_RR_MASK = op /\
  DecodeCRs1p w = rs1 /\ DecodeCRs2p w = rs2.
Proof.
  intros Ho H1 H2. cbv zeta. pose proof rr_table as T. rewrite forallb_forall in T.
  specialize (T op (proj1 (list_elem_of_In _ _) Ho)).
  pose proof (checked_spec _ _ _ _ _ T rs1 rs2 (is_prime_range _ H1) (is_prime_range _ H2)) as C.
  read_table C.
Qed.

(** [c.mv] and [c.add]. *)
Definition cr_word (op rd rs2 : Z) : Z := op .| EncodeCRd rd .| EncodeCRs2 rs2.

Lemma cr_table :
  forallb (fun op => checked (fun rd rs2 =>
    let w := cr_word op rd rs2 in
    is_parcel w COpcode.C_OP_MASK COpcode.C_JR
    && (w .& (COpcode.C_JALR .^ COpcode.C_JR) =? op .^ COpcode.C_JR)
    && (DecodeCRd w =? rd) && (DecodeCRs2 w =? rs2)) regs regs)
    [COpcode.C_JR; COpcode.C_JALR] = true.
Proof. vm_compute. done. Qed.

Lemma cr_decode op rd rs2 :
  op ∈ [COpcode.C_JR; COpcode.C_JALR] -> is_u 5 rd -> is_u 5 rs2 ->
  let w := cr_word op rd rs2 in
  is_u 16 w /\ IsCInstruction w = true /\ w .& COpcode.C_OP_MASK = COpcode.C_JR /\
  w .& (COpcode.C_JALR .^ COpcode.C_JR) = op .^ COpcode.C_JR /\
  DecodeCRd w = rd /\ DecodeCRs2 w = rs2.
Proof.
  intros Ho H1 H2. cbv zeta. pose proof cr_table as T. rewrite forallb_forall in T.
  specialize (T op (proj1 (list_elem_of_In _ _) Ho)).
  pose proof (checked_spec _ _ _ _ _ T rd rs2 (is_reg_range _ H1) (is_reg_range _ H2)) as C.
  read_table C.
Qed.

(** The extensions of Zcb. *)
Definition ext_ops : list Z :=
  [COpcode.C_ZEXTB; COpcode.C_SEXTB; COpcode.C_ZEXTH; COpcode.C_SEXTH;
   COpcode.C_ZEXTW; COpcode.C_NOT].

Lemma ext_table :
  forallb (fun op => forallb (fun rs1 =>
    let w := op .| EncodeCRs1p rs1 in
    is_parcel w COpcode.C_OP_MASK COpcode.C_MISCALU
    && (w .& COpcode.C_MISCALU_MASK =? COpcode.C_RR)
    && (w .& COpcode.C_RR_MASK =? COpcode.C_EXT)
    && (w .& COpcode.C_EXT_MASK =? op)
    && (DecodeCRs1p w =? rs1)) prime) ext_ops = true.
Proof. vm_compute. done. Qed.

Lemma ext_decode op rs1 :
  op ∈ ext_ops -> IsRegPrime rs1 = true ->
  let w := op .| EncodeCRs1p rs1 in
  is_u 16 w /\ IsCInstruction w = true /\ w .& COpcode.C_OP_MASK = COpcode.C_MISCALU /\
  w .& COpcode.C_MISCALU_MASK = COpcode.C_RR /\ w .& COpcode.C_RR_MASK = COpcode.C_EXT /\
  w .& COpcode.C_EXT_MASK = op /\ DecodeCRs1p w = rs1.
Proof.
  intros Ho H1. cbv zeta. pose proof ext_table as T. rewrite forallb_forall in T.
  specialize (T op (proj1 (list_elem_of_In _ _) Ho)). rewrite forallb_forall in T.
  pose proof (is_prime_range _ H1).
  assert (C := T rs1 (proj1 (list_elem_of_In _ _)
    (proj2 (elem_of_seqZ 8 8 rs1) ltac:(lia)))).
  read_table C.
Qed.

(** *** Immediate formats *)

Definition ci_word (op rd imm : Z) : Z := op .| EncodeCRd rd .| EncodeCIImm imm.

Lemma ci_table :
  forallb (fun op => checked (fun rd imm =>
    let w := ci_word op rd imm in
    is_parcel w COpcode.C_OP_MASK op && (DecodeCRd w =? rd) && (DecodeCIImm w =? imm))
    regs (seqZ (-32) 64)) [COpcode.C_LI; COpcode.C_ADDI; COpcode.C_ADDIW] = true.
Proof. vm_compute. done. Qed.

Lemma ci_decode op rd imm :
  op ∈ [COpcode.C_LI; COpcode.C_ADDI; COpcode.C_ADDIW] ->
  is_u 5 rd -> IsCIImm imm = true ->
  let w := ci_word op rd imm in
  is_u 16 w /\ IsCInstruction w = true /\ w .& COpcode.C_OP_MASK = op /\
  DecodeCRd w = rd /\ DecodeCIImm w = imm.
Proof.
  intros Ho H1 H2. cbv zeta. pose proof ci_table as T. rewrite forallb_forall in T.
  specialize (T op (proj1 (list_elem_of_In _ _) Ho)).
  pose proof (checked_spec _ _ _ _ _ T rd imm (is_reg_range _ H1) (IsCIImm_range _ H2)) as C.
  read_table C.
Qed.

(** [c.lui]: the immediate is a multiple of 4096. *)
Lemma cu_table :
  checked (fun rd k =>
    let w := COpcode.C_LUI .| EncodeCRd rd .| EncodeCUImm (4096 * k) in
    is_parcel w COpcode.C_OP_MASK COpcode.C_LUI && (DecodeCRd w =? rd)
    && (DecodeCUImm w =? 4096 * k)) regs (seqZ (-16) 32) = true.
Proof. vm_compute. done. Qed.

Lemma cu_decode rd imm :
  is_u 5 rd -> IsCUImm imm = true ->
  let w := COpcode.C_LUI .| EncodeCRd rd .| EncodeCUImm imm in
  is_u 16 w /\ IsCInstruction w = true /\ w .& COpcode.C_OP_MASK = COpcode.C_LUI /\
  DecodeCRd w = rd /\ DecodeCUImm w = imm.
Proof.
  intros H1 H2. cbv zeta. unfold IsCUImm in H2. rewrite andb_true_iff in H2.
  destruct H2 as [Hr Ha]. rewrite IsInt_intptr in Hr by lia.
  change (1 ≪ 12) with (2 ^ 12) in Ha. rewrite IsAligned_pow2 in Ha by lia.
  apply Z.eqb_eq, Z.mod_divide in Ha as [k ->]; [|lia].
  replace (k * 2 ^ 12) with (4096 * k) in * by lia. unfold is_s in Hr.
  pose proof (checked_spec _ _ _ _ _ cu_table rd k (is_reg_range _ H1) ltac:(lia)) as C.
  read_table C.
Qed.

Lemma ci16_table :
  forallb (fun imm =>
    when (IsCI16Imm imm) (let w := COpcode.C_ADDI16SP .| EncodeCRd 2 .| EncodeCI16Imm imm in
    is_parcel w COpcode.C_OP_MASK COpcode.C_LUI && (DecodeCRd w =? 2)
    && (DecodeCI16Imm w =? imm))) (seqZ (-512) 1024) = true.
Proof. vm_compute. done. Qed.

Lemma ci16_decode imm :
  IsCI16Imm imm = true ->
  let w := COpcode.C_ADDI16SP .| EncodeCRd 2 .| EncodeCI16Imm imm in
  is_u 16 w /\ IsCInstruction w = true /\ w .& COpcode.C_OP_MASK = COpcode.C_LUI /\
  DecodeCRd w = 2 /\ DecodeCI16Imm w = imm.
Proof.
  intros H1. cbv zeta. pose proof ci16_table as T. rewrite forallb_forall in T.
  pose proof (IsCI16Imm_range _ H1).
  assert (C := T imm (proj1 (list_elem_of_In _ _)
    (proj2 (elem_of_seqZ (-512) 1024 imm) ltac:(lia)))).
  read_guarded C.
Qed.

Lemma ci4spn_table :
  checked (fun rd imm =>
    when (IsCI4SPNImm imm) (let w := COpcode.C_ADDI4SPN .| EncodeCRdp rd .| EncodeCI4SPNImm imm in
    is_parcel w COpcode.C_OP_MASK COpcode.C_ADDI4SPN && (DecodeCRdp w =? rd)
    && (DecodeCI4SPNImm w =? imm))) prime (seqZ 0 512) = true.
Proof. vm_compute. done. Qed.

Lemma ci4spn_decode rd imm :
  IsRegPrime rd = true -> IsCI4SPNImm imm = true ->
  let w := COpcode.C_ADDI4SPN .| EncodeCRdp rd .| EncodeCI4SPNImm imm in
  is_u 16 w /\ IsCInstruction w = true /\ w .& COpcode.C_OP_MASK = COpcode.C_ADDI4SPN /\
  DecodeCRdp w = rd /\ DecodeCI4SPNImm w = imm.
Proof.
  intros H1 H2. cbv zeta.
  pose proof (checked_spec _ _ _ _ _ ci4spn_table rd imm (is_prime_range _ H1)
    (IsCI4SPNImm_range _ H2)) as C.
  read_guarded C.
Qed.

Lemma cslli_table :
  checked (fun rd n =>
    let w := COpcode.C_SLLI .| EncodeCRd rd .| EncodeCShamt n in
    is_parcel w COpcode.C_OP_MASK COpcode.C_SLLI && (DecodeCRd w =? rd)
    && (DecodeCShamt w =? n)) regs (seqZ 0 64) = true.
Proof. vm_compute. done. Qed.

Lemma cslli_decode rd n :
  is_u 5 rd -> 0 <= n < 64 ->
  let w := COpcode.C_SLLI .| EncodeCRd rd .| EncodeCShamt n in
  is_u 16 w /\ IsCInstruction w = true /\ w .& COpcode.C_OP_MASK = COpcode.C_SLLI /\
  DecodeCRd w = rd /\ DecodeCShamt w = n.
Proof.
  intros H1 H2. cbv zeta.
  pose proof (checked_spec _ _ _ _ _ cslli_table rd n (is_reg_range _ H1) ltac:(lia)) as C.
  read_table C.
Qed.

Lemma cshift_table :
  forallb (fun op => checked (fun rd n =>
    let w := op .| EncodeCRs1p rd .| EncodeCShamt n in
    is_parcel w COpcode.C_OP_MASK COpcode.C_MISCALU
    && (w .& COpcode.C_MISCALU_MASK =? op)
    && (DecodeCRs1p w =? rd) && (DecodeCShamt w =? n)) prime (seqZ 0 64))
    [COpcode.C_SRLI; COpcode.C_SRAI] = true.
Proof. vm_compute. done. Qed.

Lemma cshift_decode op rd n :
  op ∈ [COpcode.C_SRLI; COpcode.C_SRAI] -> IsRegPrime rd = true -> 0 <= n < 64 ->
  let w := op .| EncodeCRs1p rd .| EncodeCShamt n in
  is_u 16 w /\ IsCInstruction w = true /\ w .& COpcode.C_OP_MASK = COpcode.C_MISCALU /\
  w .& COpcode.C_MISCALU_MASK = op /\ DecodeCRs1p w = rd /\ DecodeCShamt w = n.
Proof.
  intros Ho H1 H2. cbv zeta. pose proof cshift_table as T. rewrite forallb_forall in T.
  specialize (T op (proj1 (list_elem_of_In _ _) Ho)).
  pose proof (checked_spec _ _ _ _ _ T rd n (is_prime_range _ H1) ltac:(lia)) as C.
  read_table C.
Qed.

Lemma candi_table :
  checked (fun rd imm =>
    let w := COpcode.C_ANDI .| EncodeCRs1p rd .| EncodeCIImm imm in
    is_parcel w COpcode.C_OP_MASK COpcode.C_MISCALU
    && (w .& COpcode.C_MISCALU_MASK =? COpcode.C_ANDI)
    && (DecodeCRs1p w =? rd) && (DecodeCIImm w =? imm)) prime (seqZ (-32) 64) = true.
Proof. vm_compute. done. Qed.

Lemma candi_decode rd imm :
  IsRegPrime rd = true -> IsCIImm imm = true ->
  let w := COpcode.C_ANDI .| EncodeCRs1p rd .| EncodeCIImm imm in
  is_u 16 w /\ IsCInstruction w = true /\ w .& COpcode.C_OP_MASK = COpcode.C_MISCALU /\
  w .& COpcode.C_MISCALU_MASK = COpcode.C_ANDI /\ DecodeCRs1p w = rd /\
  DecodeCIImm w = imm.
Proof.
  intros H1 H2. cbv zeta.
  pose proof (checked_spec _ _ _ _ _ candi_table rd imm (is_prime_range _ H1)
    (IsCIImm_range _ H2)) as C.
  read_table C.
Qed.

(** *** Loads and stores relative to the stack pointer *)

Lemma lwsp_table :
  checked (fun rd imm =>
    when (IsCSPLoad4Imm imm) (let w := COpcode.C_LWSP .| EncodeCRd rd .| EncodeCSPLoad4Imm imm in
    is_parcel w COpcode.C_OP_MASK COpcode.C_LWSP && (DecodeCRd w =? rd)
    && (DecodeCSPLoad4Imm w =? imm))) regs (seqZ 0 256) = true.
Proof. vm_compute. done. Qed.

Lemma lwsp_decode rd imm :
  is_u 5 rd -> IsCSPLoad4Imm imm = true ->
  let w := COpcode.C_LWSP .| EncodeCRd rd .| EncodeCSPLoad4Imm imm in
  is_u 16 w /\ IsCInstruction w = true /\ w .& COpcode.C_OP_MASK = COpcode.C_LWSP /\
  DecodeCRd w = rd /\ DecodeCSPLoad4Imm w = imm.
Proof.
  intros H1 H2. cbv zeta.
  pose proof (checked_spec _ _ _ _ _ lwsp_table rd imm (is_reg_range _ H1)
    (IsCSPLoad4Imm_range _ H2)) as C.
  read_guarded C.
Qed.

Lemma ldsp_table :
  checked (fun rd imm =>
    when (IsCSPLoad8Imm imm) (let w := COpcode.C_LDSP .| EncodeCRd rd .| EncodeCSPLoad8Imm imm in
    is_parcel w COpcode.C_OP_MASK COpcode.C_LDSP && (DecodeCRd w =? rd)
    && (DecodeCSPLoad8Imm w =? imm))) regs (seqZ 0 512) = true.
Proof. vm_compute. done. Qed.

Lemma ldsp_decode rd imm :
  is_u 5 rd -> IsCSPLoad8Imm imm = true ->
  let w := COpcode.C_LDSP .| EncodeCRd rd .| EncodeCSPLoad8Imm imm in
  is_u 16 w /\ IsCInstruction w = true /\ w .& COpcode.C_OP_MASK = COpcode.C_LDSP /\
  DecodeCRd w = rd /\ DecodeCSPLoad8Imm w = imm.
Proof.
  intros H1 H2. cbv zeta.
  pose proof (checked_spec _ _ _ _ _ ldsp_table rd imm (is_reg_range _ H1)
    (IsCSPLoad8Imm_range _ H2)) as C.
  read_guarded C.
Qed.

Lemma swsp_table :
  checked (fun rs2 imm =>
    when (IsCSPStore4Imm imm) (let w := COpcode.C_SWSP .| EncodeCRs2 rs2 .| EncodeCSPStore4Imm imm in
    is_parcel w COpcode.C_OP_MASK COpcode.C_SWSP && (DecodeCRs2 w =? rs2)
    && (DecodeCSPStore4Imm w =? imm))) regs (seqZ 0 256) = true.
Proof. vm_compute. done. Qed.

Lemma swsp_decode rs2 imm :
  is_u 5 rs2 -> IsCSPStore4Imm imm = true ->
  let w := COpcode.C_SWSP .| EncodeCRs2 rs2 .| EncodeCSPStore4Imm imm in
  is_u 16 w /\ IsCInstruction w = true /\ w .& COpcode.C_OP_MASK = COpcode.C_SWSP /\
  DecodeCRs2 w = rs2 /\ DecodeCSPStore4Imm w = imm.
Proof.
  intros H1 H2. cbv zeta.
  pose proof (checked_spec _ _ _ _ _ swsp_table rs2 imm (is_reg_range _ H1)
    (IsCSPStore4Imm_range _ H2)) as C.
  read_guarded C.
Qed.

Lemma sdsp_table :
  checked (fun rs2 imm =>
    when (IsCSPStore8Imm imm) (let w := COpcode.C_SDSP .| EncodeCRs2 rs2 .| EncodeCSPStore8Imm imm in
    is_parcel w COpcode.C_OP_MASK COpcode.C_SDSP && (DecodeCRs2 w =? rs2)
    && (DecodeCSPStore8Imm w =? imm))) regs (seqZ 0 512) = true.
Proof. vm_compute. done. Qed.

Lemma sdsp_decode rs2 imm :
  is_u 5 rs2 -> IsCSPStore8Imm imm = true ->
  let w := COpcode.C_SDSP .| EncodeCRs2 rs2 .| EncodeCSPStore8Imm imm in
  is_u 16 w /\ IsCInstruction w = true /\ w .& COpcode.C_OP_MASK = COpcode.C_SDSP /\
  DecodeCRs2 w = rs2 /\ DecodeCSPStore8Imm w = imm.
Proof.
  intros H1 H2. cbv zeta.
  pose proof (checked_spec _ _ _ _ _ sdsp_table rs2 imm (is_reg_range _ H1)
    (IsCSPStore8Imm_range _ H2)) as C.
  read_guarded C.
Qed.

(** *** Loads and stores relative to a register *)

Definition cl_word (op enc rd rs1 : Z) : Z := op .| EncodeCRdp rd .| EncodeCRs1p rs1 .| enc.
Definition cs_word (op enc rs1 rs2 : Z) : Z := op .| EncodeCRs1p rs1 .| EncodeCRs2p rs2 .| enc.


Lemma cw_table :
  checked3 (fun r rs1 imm =>
    when (IsCMem4Imm imm)
      (let l := cl_word COpcode.C_LW (EncodeCMem4Imm imm) r rs1 in
       let t := cs_word COpcode.C_SW (EncodeCMem4Imm imm) rs1 r in
       is_parcel l COpcode.C_OP_MASK COpcode.C_LW
       && (is_parcel t COpcode.C_OP_MASK COpcode.C_SW
       && ((DecodeCRdp l =? r) && (DecodeCRs1p l =? rs1) && (DecodeCMem4Imm l =? imm))
       && ((DecodeCRs2p t =? r) && (DecodeCRs1p t =? rs1) && (DecodeCMem4Imm t =? imm)))))
    prime prime (seqZ 0 128) = true.
Proof. vm_compute. done. Qed.

Lemma cd_table :
  checked3 (fun r rs1 imm =>
    when (IsCMem8Imm imm)
      (let l := cl_word COpcode.C_LD (EncodeCMem8Imm imm) r rs1 in
       let t := cs_word COpcode.C_SD (EncodeCMem8Imm imm) rs1 r in
       is_parcel l COpcode.C_OP_MASK COpcode.C_LD
       && (is_parcel t COpcode.C_OP_MASK COpcode.C_SD
       && ((DecodeCRdp l =? r) && (DecodeCRs1p l =? rs1) && (DecodeCMem8Imm l =? imm))
       && ((DecodeCRs2p t =? r) && (DecodeCRs1p t =? rs1) && (DecodeCMem8Imm t =? imm)))))
    prime prime (seqZ 0 256) = true.
Proof. vm_compute. done. Qed.

(** What a load and a store of one format decode to. *)
Definition mem_decodes (lop sop : Z) (enc dec : Z -> Z) (r rs1 imm : Z) : Prop :=
  let l := cl_word lop (enc imm) r rs1 in
  let t := cs_word sop (enc imm) rs1 r in
  (is_u 16 l /\ IsCInstruction l = true /\ l .& COpcode.C_OP_MASK = lop /\
   DecodeCRdp l = r /\ DecodeCRs1p l = rs1 /\ dec l = imm) /\
  (is_u 16 t /\ IsCInstruction t = true /\ t .& COpcode.C_OP_MASK = sop /\
   DecodeCRs2p t = r /\ DecodeCRs1p t = rs1 /\ dec t = imm).

Ltac read_mem C :=
  let D := fresh in
  pose proof (when_true _ _ C ltac:(done)) as D; clear C;
  cbv zeta beta in D; rewrite !andb_true_iff, !Z.eqb_eq in D;
  destruct D as (D1 & (D2 & ((? & ?) & ?)) & ((? & ?) & ?));
  apply is_parcel_spec in D1 as (? & ? & ?); apply is_parcel_spec in D2 as (? & ? & ?);
  split; split_and!; done.

Lemma cw_decode r rs1 imm :
  IsRegPrime r = true -> IsRegPrime rs1 = true -> IsCMem4Imm imm = true ->
  mem_decodes COpcode.C_LW COpcode.C_SW EncodeCMem4Imm DecodeCMem4Imm r rs1 imm.
Proof.
  intros H1 H2 H3.
  pose proof (checked3_spec _ _ _ _ _ _ _ cw_table r rs1 imm (is_prime_range _ H1)
    (is_prime_range _ H2) (IsCMem4Imm_range _ H3)) as C.
  read_mem C.
Qed.

Lemma cd_decode r rs1 imm :
  IsRegPrime r = true -> IsRegPrime rs1 = true -> IsCMem8Imm imm = true ->
  mem_decodes COpcode.C_LD COpcode.C_SD EncodeCMem8Imm DecodeCMem8Imm r rs1 imm.
Proof.
  intros H1 H2 H3.
  pose proof (checked3_spec _ _ _ _ _ _ _ cd_table r rs1 imm (is_prime_range _ H1)
    (is_prime_range _ H2) (IsCMem8Imm_range _ H3)) as C.
  read_mem C.
Qed.

(** The byte and half-word accesses of Zcb share one opcode. *)
Lemma zcb_load_table :
  forallb (fun '(op, bit6) => checked3 (fun r rs1 imm =>
    when (IsCMem2Imm imm)
      (let w := cl_word op (EncodeCMem2Imm imm) r rs1 in
       is_parcel w COpcode.C_OP_MASK COpcode.C_LBU && (w .& 0xfc03 =? COpcode.C_LHU)
       && (w .& 0x40 =? bit6) && (DecodeCRdp w =? r) && (DecodeCRs1p w =? rs1)
       && (DecodeCMem2Imm w =? imm)))
    prime prime (seqZ 0 4)) [(COpcode.C_LHU, 0); (COpcode.C_LH, 0x40)] = true.
Proof. vm_compute. done. Qed.

Lemma zcb_half_decode op bit6 r rs1 imm :
  (op, bit6) ∈ [(COpcode.C_LHU, 0); (COpcode.C_LH, 0x40)] ->
  IsRegPrime r = true -> IsRegPrime rs1 = true -> IsCMem2Imm imm = true ->
  let w := cl_word op (EncodeCMem2Imm imm) r rs1 in
  is_u 16 w /\ IsCInstruction w = true /\ w .& COpcode.C_OP_MASK = COpcode.C_LBU /\
  w .& 0xfc03 = COpcode.C_LHU /\ w .& 0x40 = bit6 /\
  DecodeCRdp w = r /\ DecodeCRs1p w = rs1 /\ DecodeCMem2Imm w = imm.
Proof.
  intros Ho H1 H2 H3. cbv zeta. pose proof zcb_load_table as T. rewrite forallb_forall in T.
  specialize (T _ (proj1 (list_elem_of_In _ _) Ho)).
  pose proof (checked3_spec _ _ _ _ _ _ _ T r rs1 imm (is_prime_range _ H1)
    (is_prime_range _ H2) (IsCMem2Imm_range _ H3)) as C.
  read_guarded C.
Qed.

Lemma zcb_byte_table :
  checked3 (fun r rs1 imm =>
    let w := cl_word COpcode.C_LBU (EncodeCMem1Imm imm) r rs1 in
    is_parcel w COpcode.C_OP_MASK COpcode.C_LBU && (w .& 0xfc03 =? COpcode.C_LBU)
    && (DecodeCRdp w =? r) && (DecodeCRs1p w =? rs1) && (DecodeCMem1Imm w =? imm))
    prime prime (seqZ 0 4) = true.
Proof. vm_compute. done. Qed.

Lemma zcb_byte_decode r rs1 imm :
  IsRegPrime r = true -> IsRegPrime rs1 = true -> IsCMem1Imm imm = true ->
  let w := cl_word COpcode.C_LBU (EncodeCMem1Imm imm) r rs1 in
  is_u 16 w /\ IsCInstruction w = true /\ w .& COpcode.C_OP_MASK = COpcode.C_LBU /\
  w .& 0xfc03 = COpcode.C_LBU /\
  DecodeCRdp w = r /\ DecodeCRs1p w = rs1 /\ DecodeCMem1Imm w = imm.
Proof.
  intros H1 H2 H3. cbv zeta.
  pose proof (checked3_spec _ _ _ _ _ _ _ zcb_byte_table r rs1 imm (is_prime_range _ H1)
    (is_prime_range _ H2) (IsCMem1Imm_range _ H3)) as C.
  read_table C.
Qed.

Lemma zcb_store_table :
  checked3 (fun r rs1 imm =>
    let w := cs_word COpcode.C_SB (EncodeCMem1Imm imm) rs1 r in
    is_parcel w COpcode.C_OP_MASK COpcode.C_LBU && (w .& 0xfc03 =? COpcode.C_SB)
    && (DecodeCRs2p w =? r) && (DecodeCRs1p w =? rs1) && (DecodeCMem1Imm w =? imm))
    prime prime (seqZ 0 4) = true.
Proof. vm_compute. done. Qed.

Lemma zcb_sb_decode r rs1 imm :
  IsRegPrime r = true -> IsRegPrime rs1 = true -> IsCMem1Imm imm = true ->
  let w := cs_word COpcode.C_SB (EncodeCMem1Imm imm) rs1 r in
  is_u 16 w /\ IsCInstruction w = true /\ w .& COpcode.C_OP_MASK = COpcode.C_LBU /\
  w .& 0xfc03 = COpcode.C_SB /\
  DecodeCRs2p w = r /\ DecodeCRs1p w = rs1 /\ DecodeCMem1Imm w = imm.
Proof.
  intros H1 H2 H3. cbv zeta.
  pose proof (checked3_spec _ _ _ _ _ _ _ zcb_store_table r rs1 imm (is_prime_range _ H1)
    (is_prime_range _ H2) (IsCMem1Imm_range _ H3)) as C.
  read_table C.
Qed.

Lemma zcb_sh_table :
  checked3 (fun r rs1 imm =>
    when (IsCMem2Imm imm)
      (let w := cs_word COpcode.C_SH (EncodeCMem2Imm imm) rs1 r in
    is_parcel w COpcode.C_OP_MASK COpcode.C_LBU && (w .& 0xfc03 =? COpcode.C_SH)
    && (DecodeCRs2p w =? r) && (DecodeCRs1p w =? rs1) && (DecodeCMem2Imm w =? imm)))
    prime prime (seqZ 0 4) = true.
Proof. vm_compute. done. Qed.

Lemma zcb_sh_decode r rs1 imm :
  IsRegPrime r = true -> IsRegPrime rs1 = true -> IsCMem2Imm imm = true ->
  let w := cs_word COpcode.C_SH (EncodeCMem2Imm imm) rs1 r in
  is_u 16 w /\ IsCInstruction w = true /\ w .& COpcode.C_OP_MASK = COpcode.C_LBU /\
  w .& 0xfc03 = COpcode.C_SH /\
  DecodeCRs2p w = r /\ DecodeCRs1p w = rs1 /\ DecodeCMem2Imm w = imm.
Proof.
  intros H1 H2 H3. cbv zeta.
  pose proof (checked3_spec _ _ _ _ _ _ _ zcb_sh_table r rs1 imm (is_prime_range _ H1)
    (is_prime_range _ H2) (IsCMem2Imm_range _ H3)) as C.
  read_guarded C.
Qed.
