(* ===== verification/RiscvBranches.v ===== *)
(** * Branches to labels: patching and binding

    An unresolved branch holds the distance to the previous unresolved branch of
    its class to the same label.  [chain] says so of the instructions in the
    buffer, [BIND_chain] that the loop of [Bind] walks exactly these and patches
    each of them, and [Bind_linked] that [Bind] resolves all the branches of a
    label, whatever their classes, and changes nothing else. *)

From Stdlib Require Import Sorting.Sorted.
From S2P Require Import Prelude Utils RiscvConstants RiscvEncoding RiscvAssembler RiscvLabels.
From S2P Require Import SimMemory RiscvSimulator RiscvIsa RiscvDecode RiscvTables.

(** ** The words of branches and jumps *)

Definition btype_word (imm rs2 rs1 funct3 opcode : Z) : Z :=
  EncodeBTypeImm imm .| EncodeRs2 rs2 .| EncodeRs1 rs1
  .| EncodeFunct3 funct3 .| EncodeOpcode opcode.
Definition jtype_word (imm rd opcode : Z) : Z :=
  EncodeJTypeImm imm .| EncodeRd rd .| EncodeOpcode opcode.
Definition cb_word (op rs1p imm : Z) : Z := op .| EncodeCRs1p rs1p .| EncodeCBImm imm.
Definition cj_word (imm : Z) : Z := COpcode.C_J .| EncodeCJImm imm.

Lemma btype_word_fields rs2 rs1 f3 op imm :
  is_u 5 rs2 -> is_u 5 rs1 -> is_u 3 f3 -> is_u 7 op ->
  let w := btype_word imm rs2 rs1 f3 op in
  is_u 32 w /\ DecodeOpcode w = op /\ DecodeFunct3 w = f3 /\
  DecodeRs1 w = rs1 /\ DecodeRs2 w = rs2 /\
  (IsBTypeImm imm = true -> DecodeBTypeImm w = imm).
Proof.
  intros H2 H1 H3 Ho. cbv zeta. unfold btype_word, EncodeBTypeImm. fold_fields imm.
  encode_fields. split; [word_range|].
  decode_fields. split_and!; [field_simpl; done..|].
  intros Hi. apply DecodeBTypeImm_fields; [field_simpl; done..|done].
Qed.

Lemma jtype_word_fields rd op imm :
  is_u 5 rd -> is_u 7 op ->
  let w := jtype_word imm rd op in
  is_u 32 w /\ DecodeOpcode w = op /\ DecodeRd w = rd /\
  (IsJTypeImm imm = true -> DecodeJTypeImm w = imm).
Proof.
  intros Hd Ho. cbv zeta. unfold jtype_word, EncodeJTypeImm. fold_fields imm.
  encode_fields. split; [word_range|].
  decode_fields. split_and!; [field_simpl; done..|].
  intros Hi. apply DecodeJTypeImm_fields; [field_simpl; done..|done].
Qed.

Lemma IsCBImm_range : forall imm, IsCBImm imm = true -> -128 <= imm < -128 + 256.
Proof. intros imm. unfold IsCBImm. rewrite andb_true_iff, IsInt_intptr by lia. unfold is_s. lia. Qed.
Lemma IsCJImm_range : forall imm, IsCJImm imm = true -> -1024 <= imm < -1024 + 2048.
Proof. intros imm. unfold IsCJImm. rewrite andb_true_iff, IsInt_intptr by lia. unfold is_s. lia. Qed.

Definition cb_check (op r imm : Z) : bool :=
  let w := cb_word op r imm in
  is_parcel w COpcode.C_OP_MASK op && (DecodeCRs1p w =? r) &&
  when (IsCBImm imm) (DecodeCBImm w =? imm).

Lemma cb_word_fields op r imm :
  op = COpcode.C_BEQZ \/ op = COpcode.C_BNEZ -> IsRegPrime r = true -> IsCBImm imm = true ->
  let w := cb_word op r imm in
  is_u 16 w /\ IsCInstruction w = true /\ w .& COpcode.C_OP_MASK = op /\
  DecodeCRs1p w = r /\ DecodeCBImm w = imm.
Proof.
  intros Ho Hr Hi. cbv zeta.
  assert (E : cb_check op r imm = true).
  { apply is_prime_range in Hr. apply IsCBImm_range in Hi.
    apply (checked_spec (cb_check op) 8 8 (-128) 256); [|done..].
    destruct Ho as [->| ->]; vm_compute; reflexivity. }
  unfold cb_check in E. cbv zeta in E. reflect_bool.
  match goal with H : is_parcel _ _ _ = true |- _ => apply is_parcel_spec in H as (?&?&?) end.
  match goal with H : when _ _ = true |- _ => pose proof (when_true _ _ H Hi) end. reflect_bool. done.
Qed.

Definition cj_check (imm _ : Z) : bool :=
  when (IsCJImm imm)
    (is_parcel (cj_word imm) COpcode.C_OP_MASK COpcode.C_J && (DecodeCJImm (cj_word imm) =? imm)).

Lemma cj_word_fields imm :
  IsCJImm imm = true ->
  is_u 16 (cj_word imm) /\ IsCInstruction (cj_word imm) = true /\
  cj_word imm .& COpcode.C_OP_MASK = COpcode.C_J /\ DecodeCJImm (cj_word imm) = imm.
Proof.
  intros Hi.
  assert (E : cj_check imm 0 = true).
  { pose proof (IsCJImm_range _ Hi).
    apply (checked_spec cj_check (-1024) 2048 0 1); [vm_compute; reflexivity|done|lia]. }
  apply (fun h => when_true _ _ h Hi) in E. reflect_bool.
  match goal with H : is_parcel _ _ _ = true |- _ => apply is_parcel_spec in H as (?&?&?) end. done.
Qed.

(** ** Instructions that a label can patch *)

(** The condition codes of [BRANCH] instructions. *)
Definition bop_code (op : bop) : Z :=
  match op with
  | BEQ => Funct3.BEQ | BNE => Funct3.BNE | BLT => Funct3.BLT
  | BGE => Funct3.BGE | BLTU => Funct3.BLTU | BGEU => Funct3.BGEU
  end.

Inductive jump : Type :=
| CBranch (zero : bool) (rs1p : Z)      (* [c.beqz] or [c.bnez] *)
| CJump                                 (* [c.j] *)
| Cond (op : bop) (rs1 rs2 : Z)
| Jal (rd : Z)
| Far.                                  (* [auipc FAR_TMP; jalr ZR, FAR_TMP] *)

(** The classes of [DEFINE_BRANCH_CLASS]. *)
Inductive klass : Type := cb | cj | b | j | far.
#[global] Instance klass_eq_dec : EqDecision klass.
Proof. solve_decision. Defined.

Definition klass_of (x : jump) : klass :=
  match x with CBranch _ _ => cb | CJump => cj | Cond _ _ _ => b | Jal _ => j | Far => far end.

Definition cb_op (zero : bool) : Z := if zero then COpcode.C_BEQZ else COpcode.C_BNEZ.

(** The bytes of a jump over the distance [off]. *)
Definition encode (x : jump) (off : Z) : list Z :=
  match x with
  | CBranch z r => Z_to_little_endian 2 8 (u16 (cb_word (cb_op z) r off))
  | CJump => Z_to_little_endian 2 8 (u16 (cj_word off))
  | Cond op rs1 rs2 =>
      Z_to_little_endian 4 8 (u32 (btype_word off rs2 rs1 (bop_code op) Opcode.BRANCH))
  | Jal rd => Z_to_little_endian 4 8 (u32 (jtype_word off rd Opcode.JAL))
  | Far =>
      Z_to_little_endian 4 8 (u32 (utype_word (ImmHi off) Register.FAR_TMP Opcode.AUIPC)) ++
      Z_to_little_endian 4 8
        (u32 (itype_word (ImmLo off) Register.FAR_TMP Funct3.F3_0 Register.ZR Opcode.JALR))
  end.

Definition jump_size (x : jump) : nat :=
  match x with CBranch _ _ | CJump => 2 | Cond _ _ _ | Jal _ => 4 | Far => 8 end.

Definition jump_ok (x : jump) : Prop :=
  match x with
  | CBranch _ r => IsRegPrime r = true
  | Cond _ rs1 rs2 => is_u 5 rs1 /\ is_u 5 rs2
  | Jal rd => is_u 5 rd
  | _ => True
  end.

(** The test of the assembler, and the distances the instruction can cover. *)
Definition fits (k : klass) (off : Z) : bool :=
  match k with
  | cb => IsCBImm off | cj => IsCJImm off | b => IsBTypeImm off | j => IsJTypeImm off
  | far => true
  end.
Definition reaches (k : klass) (off : Z) : Prop :=
  fits k off = true /\ - 2 ^ 31 <= off < 2 ^ 31 - 2 ^ 11.

Definition update (k : klass) : Z -> Z -> MicroAssembler -> asm_result (Z * MicroAssembler) :=
  match k with
  | cb => Branch.UpdateCBOffset | cj => Branch.UpdateCJOffset | b => Branch.UpdateBOffset
  | j => Branch.UpdateJOffset | far => Branch.UpdateFarOffset
  end.
(** How an update of the class fails. *)
Definition overflow (k : klass) : asm_error :=
  match k with cb | cj | far => Fatal | b | j => BranchOffsetError end.

Lemma encode_length x off : length (encode x off) = jump_size x.
Proof.
  destruct x; cbn [encode jump_size]; rewrite ?length_app; apply Nat2Z.inj;
    rewrite ?Nat2Z.inj_add, ?length_Z_to_little_endian by lia; done.
Qed.

Lemma jump_size_pos x : (2 <= jump_size x)%nat.
Proof. destruct x; cbn; lia. Qed.

Lemma fits_range k off : k <> far -> fits k off = true -> - 2 ^ 31 <= off < 2 ^ 31 - 2 ^ 11.
Proof.
  intros Hk. destruct k; try done; cbn [fits];
    unfold IsCBImm, IsCJImm, IsBTypeImm, IsJTypeImm;
    rewrite andb_true_iff, IsInt_intptr by lia; unfold is_s; lia.
Qed.

(** ** Bytes of the buffer *)

Definition bytes_at (buf : list Z) (p : nat) (bs : list Z) : Prop :=
  forall i, (i < length bs)%nat -> buf !! (p + i)%nat = bs !! i.

Lemma bytes_at_app buf p bs1 bs2 :
  bytes_at buf p (bs1 ++ bs2) <-> bytes_at buf p bs1 /\ bytes_at buf (p + length bs1) bs2.
Proof.
  unfold bytes_at. rewrite length_app. split.
  - intros Hb. split; intros i Hi.
    + rewrite Hb by lia. by apply lookup_app_l.
    + rewrite <- Nat.add_assoc, Hb by lia. rewrite lookup_app_r by lia. f_equal. lia.
  - intros [H1 H2] i Hi. destruct (decide (i < length bs1)%nat).
    + rewrite lookup_app_l by done. by apply H1.
    + rewrite lookup_app_r by lia. rewrite <- H2 by lia. f_equal. lia.
Qed.

Lemma bytes_at_bound buf p bs :
  bytes_at buf p bs -> bs <> [] -> (p + length bs <= length buf)%nat.
Proof.
  intros Hb Hn. assert (length bs <> 0)%nat by by destruct bs.
  specialize (Hb (length bs - 1)%nat ltac:(lia)).
  destruct (lookup_lt_is_Some_2 bs (length bs - 1)) as [y Hy]; [lia|].
  rewrite Hy in Hb. apply lookup_lt_Some in Hb. lia.
Qed.

Lemma bytes_at_read buf p bs :
  bytes_at buf p bs -> bs <> [] -> take (length bs) (drop p buf) = bs.
Proof.
  intros Hb Hn. pose proof (bytes_at_bound _ _ _ Hb Hn).
  apply list_eq_same_length with (length bs); [done|by rewrite length_take, length_drop; lia|].
  intros i x y Hi. rewrite lookup_take_lt, lookup_drop, Hb by done. congruence.
Qed.

Lemma bytes_at_inserts buf p bs :
  (p + length bs <= length buf)%nat -> bytes_at (list_inserts p bs buf) p bs.
Proof.
  intros Hp i Hi. rewrite list_lookup_inserts by lia. f_equal. lia.
Qed.

Lemma bytes_at_same buf buf' p bs :
  (forall i, (p <= i < p + length bs)%nat -> buf' !! i = buf !! i) ->
  bytes_at buf p bs -> bytes_at buf' p bs.
Proof. intros He Hb i Hi. rewrite He by lia. by apply Hb. Qed.

(** Reading and writing one parcel or word. *)
Definition patch (p : nat) (bs : list Z) (a : MicroAssembler) : MicroAssembler :=
  set_buffer (list_inserts p bs (buffer_ a)) a.

Lemma buffer_bytes_at n p bs a :
  length bs = n -> (0 < n)%nat -> bytes_at (buffer_ a) p bs ->
  Branch.buffer_bytes n (Z.of_nat p) a = Ok bs.
Proof.
  intros Hn Hp Hb. assert (bs <> []) as Hne by by (intros ->; cbn in Hn; lia).
  pose proof (bytes_at_bound _ _ _ Hb Hne). unfold Branch.buffer_bytes, Asm.Position.
  rewrite (proj2 (Z.leb_le _ _)), (proj2 (Z.leb_le _ _)) by lia. cbn [andb].
  rewrite Nat2Z.id. f_equal. subst n. by apply bytes_at_read.
Qed.

Lemma buffer_write_patch bs p a :
  (p + length bs <= length (buffer_ a))%nat ->
  Branch.buffer_write bs (Z.of_nat p) a = Ok (patch p bs a).
Proof.
  intros Hp. unfold Branch.buffer_write, Asm.Position.
  rewrite (proj2 (Z.leb_le _ _)), (proj2 (Z.leb_le _ _)) by lia. cbn [andb].
  by rewrite Nat2Z.id.
Qed.

Lemma le_length n w : 0 <= n -> length (Z_to_little_endian n 8 w) = Z.to_nat n.
Proof. intros. pose proof (length_Z_to_little_endian n 8 w). lia. Qed.

Lemma Read16_at p w a :
  is_u 16 w -> bytes_at (buffer_ a) p (Z_to_little_endian 2 8 w) ->
  Branch.Read16 (Z.of_nat p) a = Ok w.
Proof.
  intros Hw Hb. unfold Branch.Read16.
  rewrite (buffer_bytes_at 2 p (Z_to_little_endian 2 8 w)) by (done || lia). cbn [mbind result_bind].
  rewrite little_endian_to_Z_to_little_endian by lia. f_equal. by apply uwrap_small.
Qed.

Lemma Read32_at p w a :
  is_u 32 w -> bytes_at (buffer_ a) p (Z_to_little_endian 4 8 w) ->
  Branch.Read32 (Z.of_nat p) a = Ok w.
Proof.
  intros Hw Hb. unfold Branch.Read32.
  rewrite (buffer_bytes_at 4 p (Z_to_little_endian 4 8 w)) by (done || lia). cbn [mbind result_bind].
  rewrite little_endian_to_Z_to_little_endian by lia. f_equal. by apply uwrap_small.
Qed.

Lemma patch_patch p bs1 bs2 a :
  patch (p + length bs1) bs2 (patch p bs1 a) = patch p (bs1 ++ bs2) a.
Proof.
  unfold patch. cbn [buffer_ set_buffer]. rewrite list_inserts_app_l.
  by rewrite (Nat.add_comm p).
Qed.

(** The operands of an updated instruction are in another order. *)
Lemma lor_last x y z : x .| y .| z = z .| x .| y.
Proof. rewrite (Z.lor_comm (x .| y)), Z.lor_assoc. done. Qed.

Lemma update_b_word rs2 rs1 f3 op imm :
  EncodeRs2 rs2 .| EncodeRs1 rs1 .| EncodeFunct3 f3 .| EncodeOpcode op .| EncodeBTypeImm imm
  = btype_word imm rs2 rs1 f3 op.
Proof. unfold btype_word. by rewrite Z.lor_comm, !Z.lor_assoc. Qed.

Lemma update_j_word rd op imm :
  EncodeRd rd .| EncodeOpcode op .| EncodeJTypeImm imm = jtype_word imm rd op.
Proof. apply lor_last. Qed.

(** The two instructions of a far jump. *)
Lemma update_far p old new a :
  - 2 ^ 31 <= old < 2 ^ 31 - 2 ^ 11 -> bytes_at (buffer_ a) p (encode Far old) ->
  (p + 8 <= length (buffer_ a))%nat ->
  Branch.UpdateFarOffset (Z.of_nat p) new a = Ok (old, patch p (encode Far new) a).
Proof.
  intros Hr Hb Hlen. cbn [encode] in Hb. apply bytes_at_app in Hb as [Hb1 Hb2].
  destruct (utype_word_decode Register.FAR_TMP Opcode.AUIPC ltac:(done) ltac:(done) (ImmHi old))
    as (Hw1 & _ & _ & Du); [apply ImmHi_IsUTypeImm|].
  destruct (itype_word_fields Register.FAR_TMP Funct3.F3_0 Register.ZR Opcode.JALR
    ltac:(done) ltac:(done) ltac:(done) ltac:(done) (ImmLo old)) as (Hw2 & _).
  pose proof (itype_word_decode Register.FAR_TMP Funct3.F3_0 Register.ZR Opcode.JALR
    ltac:(done) ltac:(done) ltac:(done) ltac:(done) (ImmLo old) (ImmLo_IsITypeImm old)) as Di.
  rewrite le_length in Hb2 by lia. change (Z.to_nat 4) with 4%nat in Hb2.
  rewrite uwrap_small in Hb1 by done.
  rewrite uwrap_small in Hb2 by done.
  unfold Branch.UpdateFarOffset. rewrite (Read32_at p _ a Hw1 Hb1). cbn [mbind result_bind].
  replace (Z.of_nat p + 4) with (Z.of_nat (p + 4)) by lia.
  rewrite (Read32_at _ _ a Hw2 Hb2). cbn [mbind result_bind].
  rewrite Du, Di, ImmHi_ImmLo, ImmHi_IsUTypeImm by done. cbn [negb].
  unfold Branch.Write32.
  rewrite buffer_write_patch by (rewrite le_length by lia; change (Z.to_nat 4) with 4%nat; lia).
  cbn [mbind result_bind].
  rewrite buffer_write_patch by (unfold patch; cbn [buffer_ set_buffer];
    rewrite length_inserts, le_length by lia; change (Z.to_nat 4) with 4%nat; lia).
  cbn [mbind result_bind].
  change (p + 4)%nat with (p + Z.to_nat 4)%nat.
  rewrite <- (le_length 4 (u32 (utype_word (ImmHi new) Register.FAR_TMP Opcode.AUIPC))) by lia.
  cbn [encode]. rewrite <- patch_patch. unfold utype_word, itype_word. reflexivity.
Qed.

(** An update reads the old distance and replaces it, operands and condition
    kept, or fails the way its class fails. *)
Lemma update_jump x p old new a :
  jump_ok x -> reaches (klass_of x) old -> bytes_at (buffer_ a) p (encode x old) ->
  update (klass_of x) (Z.of_nat p) new a
  = if fits (klass_of x) new then Ok (old, patch p (encode x new) a)
    else Err (overflow (klass_of x)).
Proof.
  intros Hx [Hf Hr] Hb.
  assert (Hlen : (p + jump_size x <= length (buffer_ a))%nat).
  { rewrite <- (encode_length x old). apply bytes_at_bound; [done|].
    intros E. pose proof (encode_length x old) as L. rewrite E in L.
    pose proof (jump_size_pos x). cbn in L. lia. }
  destruct x as [z r| |op rs1 rs2|rd|]; cbn [klass_of update fits overflow encode jump_size] in *.
  - destruct (cb_word_fields (cb_op z) r old) as (Hw & _ & Do & Dr & Di);
      [by destruct z; auto|done..|].
    unfold Branch.UpdateCBOffset. rewrite uwrap_small in Hb by done.
    rewrite (Read16_at p _ a Hw Hb). cbn [mbind result_bind]. unfold Branch.c_opcode.
    rewrite Do, Dr, Di. destruct (IsCBImm new) eqn:En; [|done]. cbn [negb].
    unfold Branch.Write16. rewrite buffer_write_patch by (rewrite le_length by lia; done). done.
  - destruct (cj_word_fields old) as (Hw & _ & Do & Di); [done|].
    unfold Branch.UpdateCJOffset. rewrite uwrap_small in Hb by done.
    rewrite (Read16_at p _ a Hw Hb). cbn [mbind result_bind]. unfold Branch.c_opcode.
    rewrite Do, Di. destruct (IsCJImm new) eqn:En; [|done]. cbn [negb].
    unfold Branch.Write16. rewrite buffer_write_patch by (rewrite le_length by lia; done). done.
  - destruct Hx as [H1 H2].
    destruct (btype_word_fields rs2 rs1 (bop_code op) Opcode.BRANCH old)
      as (Hw & Do & D3 & D1 & D2 & Di); [done|done|by destruct op|done|].
    unfold Branch.UpdateBOffset. rewrite uwrap_small in Hb by done.
    rewrite (Read32_at p _ a Hw Hb). cbn [mbind result_bind].
    rewrite Do, D3, D1, D2, (Di Hf), update_b_word. destruct (IsBTypeImm new); [|done]. cbn [negb].
    unfold Branch.Write32. rewrite buffer_write_patch by (rewrite le_length by lia; done). done.
  - destruct (jtype_word_fields rd Opcode.JAL old) as (Hw & Do & Dd & Di); [done|done|].
    unfold Branch.UpdateJOffset. rewrite uwrap_small in Hb by done.
    rewrite (Read32_at p _ a Hw Hb). cbn [mbind result_bind].
    rewrite Do, Dd, (Di Hf), update_j_word. destruct (IsJTypeImm new); [|done]. cbn [negb].
    unfold Branch.Write32. rewrite buffer_write_patch by (rewrite le_length by lia; done). done.
  - by apply update_far.
Qed.

(** ** Lists of unresolved branches *)

(** Things that occupy bytes of the buffer, the last one first. *)
Section Apart.
Context {A : Type} (size : A -> nat).

Definition above (x y : nat * A) : Prop := (y.1 + size y.2 <= x.1)%nat.
Definition apart (l : list (nat * A)) : Prop := StronglySorted above l.

Definition covers (l : list (nat * A)) (i : nat) : Prop :=
  exists x, x ∈ l /\ (x.1 <= i < x.1 + size x.2)%nat.

Lemma apart_disjoint l x y :
  apart l -> x ∈ l -> y ∈ l -> x = y \/ above x y \/ above y x.
Proof.
  induction 1 as [|z l Hl IH Hz]; intros Hx Hy; [by apply not_elem_of_nil in Hx|].
  rewrite Forall_forall in Hz. apply elem_of_cons in Hx as [->|Hx], Hy as [->|Hy]; auto.
Qed.
End Apart.

Lemma apart_omap {A B} (sa : A -> nat) (sb : B -> nat) (f : nat * A -> option (nat * B)) l :
  (forall x y, f x = Some y -> y.1 = x.1 /\ sb y.2 = sa x.2) ->
  apart sa l -> apart sb (omap f l).
Proof.
  intros Hf. induction 1 as [|x l Hl IH Hx]; [constructor|].
  cbn [omap list_omap]. destruct (f x) as [y|] eqn:E; [|done]. constructor; [done|].
  apply Forall_forall. intros z (x' & Hx' & Ez)%list_elem_of_omap.
  rewrite Forall_forall in Hx. specialize (Hx _ Hx'). unfold above in *.
  destruct (Hf _ _ E) as [-> _], (Hf _ _ Ez) as [-> ->]. done.
Qed.

Lemma apart_filter {A} (size : A -> nat) (P : nat * A -> Prop) `{!forall x, Decision (P x)} l :
  apart size l -> apart size (filter P l).
Proof.
  induction 1 as [|x l Hl IH Hx]; [constructor|]. rewrite filter_cons. case_decide; [|done].
  constructor; [done|]. rewrite !Forall_forall in *.
  intros y Hy%list_elem_of_filter. apply Hx, Hy.
Qed.

Abbreviation links := (list (nat * jump)).

Definition link (p : nat) (rest : links) : Z :=
  match rest with [] => 0 | x :: _ => Z.of_nat p - Z.of_nat x.1 end.
Definition head (l : links) : Z :=
  match l with [] => -1 | x :: _ => Z.of_nat x.1 end.

Fixpoint chain (k : klass) (buf : list Z) (l : links) : Prop :=
  match l with
  | [] => True
  | x :: rest =>
      klass_of x.2 = k /\ jump_ok x.2 /\ reaches k (link x.1 rest) /\
      bytes_at buf x.1 (encode x.2 (link x.1 rest)) /\ chain k buf rest
  end.

Definition all_fit (t : Z) (l : links) : bool :=
  forallb (fun x => fits (klass_of x.2) (t - Z.of_nat x.1)) l.

(** The branches [l] of [a] are resolved to [t] in [a'], which is otherwise [a]. *)
Record resolved (t : Z) (l : links) (a a' : MicroAssembler) : Prop := {
  resolved_extensions : extensions_ a' = extensions_ a;
  resolved_level : far_branch_level_ a' = far_branch_level_ a;
  resolved_length : length (buffer_ a') = length (buffer_ a);
  resolved_links : forall x, x ∈ l ->
    bytes_at (buffer_ a') x.1 (encode x.2 (t - Z.of_nat x.1));
  resolved_rest : forall i, ~ covers jump_size l i -> buffer_ a' !! i = buffer_ a !! i
}.

Lemma covers_cons {A} (size : A -> nat) x l i :
  covers size (x :: l) i <-> (x.1 <= i < x.1 + size x.2)%nat \/ covers size l i.
Proof.
  unfold covers. split.
  - intros (y & [->|Hy]%elem_of_cons & Hi); eauto.
  - intros [Hi|(y & Hy & Hi)]; [exists x|exists y]; split; auto; by constructor.
Qed.

Lemma covers_app {A} (size : A -> nat) l1 l2 i :
  covers size (l1 ++ l2) i <-> covers size l1 i \/ covers size l2 i.
Proof.
  unfold covers. split.
  - intros (y & [Hy|Hy]%elem_of_app & Hi); eauto.
  - intros [(y & Hy & Hi)|(y & Hy & Hi)]; exists y; split; auto; apply elem_of_app; auto.
Qed.

(** Bytes that a resolution does not touch. *)
Lemma resolved_bytes t l a a' p bs :
  resolved t l a a' ->
  (forall x, x ∈ l -> (x.1 + jump_size x.2 <= p \/ p + length bs <= x.1)%nat) ->
  bytes_at (buffer_ a) p bs -> bytes_at (buffer_ a') p bs.
Proof.
  intros Hr Hd. apply bytes_at_same. intros i Hi. apply (resolved_rest _ _ _ _ Hr).
  intros (x & Hx & Hc). specialize (Hd x Hx). lia.
Qed.

Lemma resolved_nil t a : resolved t [] a a.
Proof. split; try done. intros x Hx. by apply not_elem_of_nil in Hx. Qed.

Lemma resolved_app t l1 l2 a a1 a2 :
  (forall x y, x ∈ l1 -> y ∈ l2 -> above jump_size x y \/ above jump_size y x) ->
  resolved t l1 a a1 -> resolved t l2 a1 a2 -> resolved t (l1 ++ l2) a a2.
Proof.
  intros Hd H1 H2. split.
  - rewrite (resolved_extensions _ _ _ _ H2). apply H1.
  - rewrite (resolved_level _ _ _ _ H2). apply H1.
  - rewrite (resolved_length _ _ _ _ H2). apply H1.
  - intros x [Hx|Hx]%elem_of_app; [|by apply H2].
    apply (resolved_bytes t l2 a1); [done| |by apply H1].
    intros y Hy. rewrite encode_length. destruct (Hd x y Hx Hy); unfold above in *; lia.
  - intros i Hi. rewrite covers_app in Hi.
    rewrite (resolved_rest _ _ _ _ H2), (resolved_rest _ _ _ _ H1); tauto.
Qed.

Lemma resolved_perm t l l' a a' :
  (forall x, x ∈ l <-> x ∈ l') -> resolved t l a a' -> resolved t l' a a'.
Proof.
  intros Hp [H1 H2 H3 H4 H5]. split; [done..| |].
  - intros x Hx. apply H4, Hp, Hx.
  - intros i Hi. apply H5. intros (x & Hx & Hc). apply Hi. exists x. split; [by apply Hp|done].
Qed.

Lemma patch_resolved t x a :
  (x.1 + jump_size x.2 <= length (buffer_ a))%nat ->
  resolved t [x] a (patch x.1 (encode x.2 (t - Z.of_nat x.1)) a).
Proof.
  intros Hx. split; try done; unfold patch; cbn [buffer_ set_buffer].
  - apply length_inserts.
  - intros y ->%list_elem_of_singleton. apply bytes_at_inserts. by rewrite encode_length.
  - intros i Hi. rewrite covers_cons in Hi.
    destruct (decide (i < x.1)%nat); [by apply list_lookup_inserts_lt|].
    apply list_lookup_inserts_ge. rewrite encode_length. lia.
Qed.

(** A chain is kept when its bytes are. *)
Lemma chain_same k buf buf' l :
  (forall x, x ∈ l -> forall i, (x.1 <= i < x.1 + jump_size x.2)%nat -> buf' !! i = buf !! i) ->
  chain k buf l -> chain k buf' l.
Proof.
  induction l as [|x l IH]; [done|]. intros Hs (Hk & Ho & Hr & Hb & Hc).
  split_and!; [done..| |].
  - apply (bytes_at_same buf); [|done]. rewrite encode_length. apply Hs. by constructor.
  - apply IH; [|done]. intros y Hy. apply Hs. by constructor.
Qed.

Lemma chain_resolved t k l1 l2 a a' :
  (forall x y, x ∈ l1 -> y ∈ l2 -> above jump_size x y \/ above jump_size y x) ->
  resolved t l1 a a' -> chain k (buffer_ a) l2 -> chain k (buffer_ a') l2.
Proof.
  intros Hd Hr. apply chain_same. intros y Hy i Hi. apply (resolved_rest _ _ _ _ Hr).
  intros (x & Hx & Hc). destruct (Hd x y Hx Hy); unfold above in *; lia.
Qed.

Lemma chain_bound k buf x l :
  chain k buf (x :: l) -> (x.1 + jump_size x.2 <= length buf)%nat.
Proof.
  intros (_ & _ & _ & Hb & _). rewrite <- (encode_length x.2 (link x.1 l)).
  apply bytes_at_bound; [done|]. intros E. pose proof (encode_length x.2 (link x.1 l)) as L.
  rewrite E in L. pose proof (jump_size_pos x.2). cbn in L. lia.
Qed.

(** ** The loop of [Bind] walks a chain *)

Lemma link_rest x l :
  apart jump_size (x :: l) ->
  match l with
  | [] => link x.1 l = 0
  | _ => link x.1 l <> 0 /\ Z.of_nat x.1 - link x.1 l = head l
  end.
Proof.
  intros Ha. destruct l as [|y l]; [done|]. cbn [link head]. split; [|lia].
  inversion Ha as [|? ? _ Hf]; subst. rewrite Forall_cons in Hf. unfold above in Hf.
  pose proof (jump_size_pos y.2). lia.
Qed.

Lemma BIND_chain k t l : forall fuel a,
  chain k (buffer_ a) l -> apart jump_size l -> (length l <= fuel)%nat ->
  if all_fit t l
  then exists a', Branch.BIND fuel (update k) t (head l) a = Ok a' /\ resolved t l a a'
  else Branch.BIND fuel (update k) t (head l) a = Err (overflow k).
Proof.
  induction l as [|x l IH]; intros fuel a Hc Ha Hf.
  { exists a. split; [by destruct fuel|apply resolved_nil]. }
  destruct fuel as [|fuel]; [cbn in Hf; lia|]. cbn [Branch.BIND head].
  rewrite (proj2 (Z.ltb_ge _ _)) by lia.
  pose proof (chain_bound k _ x l Hc) as Hlen.
  destruct Hc as (<- & Hk & Hr & Hb & Hc).
  rewrite (update_jump x.2 _ (link x.1 l)) by done.
  unfold all_fit. cbn [forallb]. fold (all_fit t l).
  destruct (fits (klass_of x.2) (t - Z.of_nat x.1)); [|done]. cbn [andb mbind result_bind].
  pose proof (patch_resolved t x a Hlen) as Hp. set (a1 := patch _ _ a) in *.
  pose proof (link_rest x l Ha) as Hl. inversion Ha as [|? ? Ha' Hab]; subst.
  rewrite Forall_forall in Hab.
  assert (Hc1 : chain (klass_of x.2) (buffer_ a1) l).
  { apply (chain_resolved t _ [x] _ a); [|done..].
    intros ? y ->%list_elem_of_singleton Hy. left. by apply Hab. }
  destruct l as [|y l].
  - rewrite Hl. exists a1. done.
  - destruct Hl as [Hne Heq]. rewrite (proj2 (Z.eqb_neq _ _)), Heq by done.
    specialize (IH fuel a1 Hc1 Ha' ltac:(cbn in Hf |- *; lia)).
    destruct (all_fit t (y :: l)); [|done]. destruct IH as (a' & E & Hr').
    exists a'. split; [done|]. apply (resolved_app t [x] (y :: l) a a1); [|done..].
    intros ? z ->%list_elem_of_singleton Hz. left. by apply Hab.
Qed.

(** ** Binding a label resolves its branches *)

Definition of_class (k : klass) (l : links) : links :=
  filter (fun x => klass_of x.2 = k) l.

Definition unresolved (k : klass) (label : Label) : Z :=
  match k with
  | cb => unresolved_cb_ label | cj => unresolved_cj_ label | b => unresolved_b_ label
  | j => unresolved_j_ label | far => unresolved_far_ label
  end.

(** [l] are the branches to [label] that wait for it to be bound. *)
Record linked (buf : list Z) (l : links) (label : Label) : Prop := {
  linked_apart : apart jump_size l;
  linked_heads : forall k, unresolved k label = head (of_class k l);
  linked_chains : forall k, chain k buf (of_class k l)
}.

Lemma elem_of_class k l x : x ∈ of_class k l <-> klass_of x.2 = k /\ x ∈ l.
Proof. unfold of_class. by rewrite list_elem_of_filter. Qed.

Lemma apart_length l n :
  apart jump_size l -> Forall (fun x => x.1 + jump_size x.2 <= n)%nat l -> (length l <= n)%nat.
Proof.
  intros Ha. revert n. induction Ha as [|x l Hl IH Hx]; intros n Hn; [cbn; lia|].
  apply Forall_cons in Hn as [Hn _]. specialize (IH x.1 Hx).
  pose proof (jump_size_pos x.2). cbn. lia.
Qed.

Lemma chain_in k buf l x :
  chain k buf l -> x ∈ l -> (x.1 + jump_size x.2 <= length buf)%nat.
Proof.
  induction l as [|y l IH]; intros Hc Hx; [by apply not_elem_of_nil in Hx|].
  apply elem_of_cons in Hx as [->|Hx]; [by apply (chain_bound k _ y l)|].
  apply IH; [apply Hc|done].
Qed.

Lemma chain_ok k buf l x : chain k buf l -> x ∈ l -> jump_ok x.2.
Proof.
  induction l as [|y l IH]; intros Hc Hx; [by apply not_elem_of_nil in Hx|].
  apply elem_of_cons in Hx as [->|Hx]; [apply Hc|]. apply IH; [apply Hc|done].
Qed.

Lemma linked_ok buf l label x : linked buf l label -> x ∈ l -> jump_ok x.2.
Proof.
  intros Hl Hx. apply (chain_ok (klass_of x.2) buf (of_class (klass_of x.2) l)); [apply Hl|].
  by apply elem_of_class.
Qed.

Section Bind.
Context (label : Label) (a : MicroAssembler) (l : links).
Hypothesis Hl : linked (buffer_ a) l label.
Let t := Asm.Position a.

Lemma linked_in x : x ∈ l -> (x.1 + jump_size x.2 <= length (buffer_ a))%nat.
Proof.
  intros Hx. apply (chain_in (klass_of x.2) _ (of_class (klass_of x.2) l)); [apply Hl|].
  by apply elem_of_class.
Qed.

(** One of the five loops, after the branches [done] were resolved. *)
Lemma bind_stage k rest a1 :
  resolved t rest a a1 -> (forall x, x ∈ rest -> x ∈ l /\ klass_of x.2 <> k) ->
  if all_fit t (of_class k l)
  then exists a2,
    Branch.BIND (Branch.bind_fuel a) (update k) t (unresolved k label) a1 = Ok a2 /\
    resolved t (rest ++ of_class k l) a a2
  else Branch.BIND (Branch.bind_fuel a) (update k) t (unresolved k label) a1 = Err (overflow k).
Proof.
  intros Hr Hd. rewrite (linked_heads _ _ _ Hl).
  assert (Hdis : forall x y, x ∈ rest -> y ∈ of_class k l ->
    above jump_size x y \/ above jump_size y x).
  { intros x y Hx [Hk Hy]%elem_of_class. destruct (Hd x Hx) as [Hxl Hxk].
    destruct (apart_disjoint jump_size l x y (linked_apart _ _ _ Hl) Hxl Hy) as [->|]; done. }
  assert (Hc : chain k (buffer_ a1) (of_class k l)).
  { apply (chain_resolved t k rest _ a); [done..|]. apply Hl. }
  pose proof (BIND_chain k t (of_class k l) (Branch.bind_fuel a) a1 Hc) as HB.
  destruct (all_fit t (of_class k l)).
  - destruct HB as (a2 & E & Hr2).
    + apply apart_filter, Hl.
    + unfold Branch.bind_fuel. apply Nat.le_le_succ_r, apart_length; [apply apart_filter, Hl|].
      apply Forall_forall. intros x [_ Hx]%elem_of_class. by apply linked_in.
    + exists a2. split; [done|]. by apply (resolved_app t rest _ a a1).
  - apply HB; [apply apart_filter, Hl|].
    unfold Branch.bind_fuel. apply Nat.le_le_succ_r, apart_length; [apply apart_filter, Hl|].
    apply Forall_forall. intros x [_ Hx]%elem_of_class. by apply linked_in.
Qed.

Lemma all_fit_spec l0 :
  all_fit t l0 = true <-> forall x, x ∈ l0 -> fits (klass_of x.2) (t - Z.of_nat x.1) = true.
Proof.
  unfold all_fit. rewrite forallb_forall. setoid_rewrite list_elem_of_In. done.
Qed.

(** The five loops, one after the other. *)
Fixpoint bind_classes (ks : list klass) (a1 : MicroAssembler) : asm_result MicroAssembler :=
  match ks with
  | [] => Ok a1
  | k :: ks =>
      a2 ← Branch.BIND (Branch.bind_fuel a) (update k) t (unresolved k label) a1;
      bind_classes ks a2
  end.

Lemma bind_classes_resolved ks : forall rest a1,
  NoDup ks -> resolved t rest a a1 ->
  (forall x, x ∈ rest -> x ∈ l /\ klass_of x.2 ∉ ks) ->
  match find (fun k => negb (all_fit t (of_class k l))) ks with
  | None => exists a2, bind_classes ks a1 = Ok a2 /\
      resolved t (rest ++ mbind (fun k => of_class k l) ks) a a2
  | Some k => bind_classes ks a1 = Err (overflow k)
  end.
Proof.
  induction ks as [|k ks IH]; intros rest a1 Hn Hr Hd.
  { exists a1. rewrite app_nil_r. done. }
  apply NoDup_cons in Hn as [Hk Hn]. cbn [find bind_classes].
  assert (Hd' : forall x, x ∈ rest -> x ∈ l /\ klass_of x.2 <> k).
  { intros x Hx. destruct (Hd x Hx) as [? Hx']. split; [done|].
    intros E. apply Hx'. rewrite E. by constructor. }
  pose proof (bind_stage k rest a1 Hr Hd') as HB.
  destruct (all_fit t (of_class k l)); cbn [negb].
  - destruct HB as (a2 & -> & Hr2). cbn [mbind result_bind list_bind].
    rewrite app_assoc. apply IH; [done..|].
    intros x [Hx|[<- Hx]%elem_of_class]%elem_of_app; [|done].
    destruct (Hd x Hx) as [? Hx']. split; [done|]. intros Hk'. apply Hx'. by constructor.
  - by rewrite HB.
Qed.

(** The label after [Bind]. *)
Definition bound_label : Label := mkLabel (s32 t) (-1) (-1) (-1) (-1) (-1).

Definition classes : list klass := [cb; cj; b; j; far].

Lemma Bind_classes :
  Branch.Bind label a = (a' ← bind_classes classes a; Ok (bound_label, a')).
Proof.
  unfold Branch.Bind. cbn [classes bind_classes update unresolved]. fold t.
  repeat match goal with
  | |- context [ Branch.BIND ?n ?u ?p ?h ?x ] => destruct (Branch.BIND n u p h x); [|done];
      cbn [mbind result_bind unresolved_cb_ unresolved_cj_ unresolved_b_ unresolved_j_
        unresolved_far_ Lbl.set_cb Lbl.set_cj Lbl.set_b Lbl.set_j Lbl.set_far]
  end. done.
Qed.

(** All the branches of the label are resolved to the position of the label, or
    [Bind] fails because one of them does not reach it. *)
Lemma Bind_linked :
  if all_fit t l
  then exists a', Branch.Bind label a = Ok (bound_label, a') /\ resolved t l a a'
  else Branch.Bind label a
       = Err (if all_fit t (of_class cb l) && all_fit t (of_class cj l)
              then BranchOffsetError else Fatal).
Proof.
  pose proof (bind_classes_resolved classes [] a ltac:(by apply (bool_decide_unpack _))
    (resolved_nil t a) (fun x Hx => False_ind _ (not_elem_of_nil x Hx))) as HB.
  assert (Hfar : all_fit t (of_class far l) = true).
  { apply all_fit_spec. intros x [-> _]%elem_of_class. done. }
  assert (Hall : all_fit t l = forallb (fun k => all_fit t (of_class k l)) classes).
  { apply eq_true_iff_eq. rewrite all_fit_spec, forallb_forall. split.
    - intros Hf k _. apply all_fit_spec. intros x [_ Hx]%elem_of_class. by apply Hf.
    - intros Hf x Hx. eapply all_fit_spec; [apply (Hf (klass_of x.2))|by apply elem_of_class].
      destruct (klass_of x.2); cbn; auto 10. }
  rewrite Bind_classes, Hall. cbn [find forallb classes] in *. rewrite Hfar in *.
  destruct (all_fit t (of_class cb l)), (all_fit t (of_class cj l)),
    (all_fit t (of_class b l)), (all_fit t (of_class j l)); cbn [negb andb] in *;
    try (by rewrite HB).
  destruct HB as (a' & -> & Hr). exists a'. split; [done|].
  apply (resolved_perm t ([] ++ mbind (fun k => of_class k l) classes)); [|done].
  intros x. cbn [app]. rewrite list_elem_of_bind. split.
  - intros (k & Hx%elem_of_class & _). apply Hx.
  - intros Hx. exists (klass_of x.2). split; [by apply elem_of_class|].
    destruct (klass_of x.2); set_solver.
Qed.
End Bind.

(** C6: Binding resolves all branches.  When the branches [l] to a label are linked
    through the instructions of the buffer, whatever their classes, [Bind] ends,
    empties the lists, and rewrites exactly these instructions, each to branch to
    the end of the buffer with its operands kept; when one of them does not reach,
    it fails: with [FATAL] when it is a compressed one, and otherwise with the
    error that makes the compiler use longer branches. *)
Theorem bind_resolves_branches (label : Label) (a : MicroAssembler) (l : links) :
  linked (buffer_ a) l label ->
  if all_fit (Asm.Position a) l
  then exists a', Branch.Bind label a = Ok (bound_label a, a') /\ resolved (Asm.Position a) l a a'
  else Branch.Bind label a
       = Err (if all_fit (Asm.Position a) (of_class cb l) && all_fit (Asm.Position a) (of_class cj l)
              then BranchOffsetError else Fatal).
Proof. apply Bind_linked. Qed.

(** ** A concrete instance *)

Definition bytes_atb (buf : list Z) (p : nat) (bs : list Z) : bool :=
  forallb (fun i => bool_decide (buf !! (p + i)%nat = bs !! i)) (seq 0 (length bs)).

Lemma bytes_atb_spec buf p bs : bytes_atb buf p bs = true -> bytes_at buf p bs.
Proof.
  unfold bytes_atb, bytes_at. rewrite forallb_forall. intros Hc i Hi.
  apply (bool_decide_eq_true_1 _), Hc, in_seq. lia.
Qed.

(** Two branches and a jump to one label. *)
Definition example_links : links :=
  [(8%nat, Jal Register.ZR); (4%nat, Cond BLT Register.A0 Register.A1); (0%nat, Cond BEQ Register.A0 Register.A1)].
Definition example_label : Label := mkLabel (-1) (-1) (-1) 4 8 (-1).
Definition example_asm : MicroAssembler :=
  Asm.EmitJType 0 Register.ZR Opcode.JAL
    (Asm.EmitBType 4 Register.A1 Register.A0 Funct3.BLT Opcode.BRANCH
       (Asm.EmitBType 0 Register.A1 Register.A0 Funct3.BEQ Opcode.BRANCH (mkAsm [] 0 0))).

Lemma bind_resolves_branches_witness :
  exists a', Branch.Bind example_label example_asm = Ok (mkLabel 12 (-1) (-1) (-1) (-1) (-1), a') /\
    resolved 12 example_links example_asm a'.
Proof.
  apply (bind_resolves_branches example_label example_asm example_links). split.
  - repeat constructor; cbn; lia.
  - intros []; reflexivity.
  - intros []; [exact I|exact I| | |exact I].
    + change (of_class b example_links) with
        [(4%nat, Cond BLT Register.A0 Register.A1); (0%nat, Cond BEQ Register.A0 Register.A1)].
      cbn [chain fst snd link]. split_and!; done || (apply bytes_atb_spec; vm_compute; reflexivity).
    + change (of_class j example_links) with [(8%nat, Jal Register.ZR)].
      cbn [chain fst snd link]. split_and!; done || (apply bytes_atb_spec; vm_compute; reflexivity).
Defined.
