(* ===== verification/RiscvEncodingCorrect.v ===== *)
(** * Round trips of the encoders

    Every operand that passes the test of its encoder is recovered by its decoder
    from the instruction word that holds it; the parts of a far offset add up to
    it; the memory order of an atomic instruction survives assembly. *)

From S2P Require Import Prelude Utils RiscvConstants RiscvEncoding RiscvAssembler.
From S2P Require Import SimMemory RiscvSimulator RiscvIsa RiscvDecode RiscvTables RiscvBranches.

(** ** The 32-bit formats *)

(** The 32-bit formats.  The words the assembler emits for the R, I, S, B, U and
    J formats have 32 bits, and the decoders of the simulator read from them the
    operands they were built from: opcode, function codes, registers, and every
    immediate that passes the test of its encoder. *)
Lemma formats_decode f7 rs2 rs1 f3 rd op imm (a : MicroAssembler) :
  is_u 7 f7 -> is_u 5 rs2 -> is_u 5 rs1 -> is_u 3 f3 -> is_u 5 rd -> is_u 7 op ->
  let r := rtype_word f7 rs2 rs1 f3 rd op in
  let i := itype_word imm rs1 f3 rd op in
  let s := stype_word imm rs2 rs1 f3 op in
  let b := btype_word imm rs2 rs1 f3 op in
  let u := utype_word imm rd op in
  let j := jtype_word imm rd op in
  (Asm.EmitRType f7 rs2 rs1 f3 rd op a = Asm.Emit32 r a /\
   Asm.EmitIType imm rs1 f3 rd op a = Asm.Emit32 i a /\
   Asm.EmitSType imm rs2 rs1 f3 op a = Asm.Emit32 s a /\
   Asm.EmitBType imm rs2 rs1 f3 op a = Asm.Emit32 b a /\
   Asm.EmitUType imm rd op a = Asm.Emit32 u a /\ Asm.EmitJType imm rd op a = Asm.Emit32 j a) /\
  (is_u 32 r /\ DecodeOpcode r = op /\ DecodeFunct3 r = f3 /\ DecodeFunct7 r = f7 /\
   DecodeRd r = rd /\ DecodeRs1 r = rs1 /\ DecodeRs2 r = rs2) /\
  (IsITypeImm imm = true -> is_u 32 i /\ DecodeOpcode i = op /\ DecodeFunct3 i = f3 /\
   DecodeRd i = rd /\ DecodeRs1 i = rs1 /\ DecodeITypeImm i = imm) /\
  (IsSTypeImm imm = true -> is_u 32 s /\ DecodeOpcode s = op /\ DecodeFunct3 s = f3 /\
   DecodeRs1 s = rs1 /\ DecodeRs2 s = rs2 /\ DecodeSTypeImm s = imm) /\
  (IsBTypeImm imm = true -> is_u 32 b /\ DecodeOpcode b = op /\ DecodeFunct3 b = f3 /\
   DecodeRs1 b = rs1 /\ DecodeRs2 b = rs2 /\ DecodeBTypeImm b = imm) /\
  (IsUTypeImm imm = true -> is_u 32 u /\ DecodeOpcode u = op /\ DecodeRd u = rd /\
   DecodeUTypeImm u = imm) /\
  (IsJTypeImm imm = true -> is_u 32 j /\ DecodeOpcode j = op /\ DecodeRd j = rd /\
   DecodeJTypeImm j = imm).
Proof.
  intros H7 H2 H1 H3 Hd Ho. cbv zeta.
  split; [split_and!; reflexivity|].
  refine (conj (rtype_word_decode f7 rs2 rs1 f3 rd op H7 H2 H1 H3 Hd Ho) (conj _ (conj _ (conj _ (conj _ _)))));
    intros Hi.
  - destruct (itype_word_fields rs1 f3 rd op H1 H3 Hd Ho imm) as (E1 & E2 & E3 & E4 & E5 & _).
    exact (conj E1 (conj E2 (conj E3 (conj E4 (conj E5 (itype_word_decode rs1 f3 rd op H1 H3 Hd Ho imm Hi)))))).
  - exact (stype_word_decode rs2 rs1 f3 op H2 H1 H3 Ho imm Hi).
  - destruct (btype_word_fields rs2 rs1 f3 op imm H2 H1 H3 Ho) as (E1 & E2 & E3 & E4 & E5 & E6).
    exact (conj E1 (conj E2 (conj E3 (conj E4 (conj E5 (E6 Hi)))))).
  - exact (utype_word_decode rd op Hd Ho imm Hi).
  - destruct (jtype_word_fields rd op imm Hd Ho) as (E1 & E2 & E3 & E4).
    exact (conj E1 (conj E2 (conj E3 (E4 Hi)))).
Qed.

(** ** The compressed immediates *)

(** Recovers an immediate from its own encoding. *)
Ltac recover enc fields imm :=
  intros Hi; apply fields; [unfold enc; fold_fields imm; field_simpl; done..|done].

(** The compressed formats.  Every immediate of a compressed instruction that
    passes the test of its encoder is what its decoder reads. *)
Lemma compressed_decode imm :
  (IsCSPLoad4Imm imm = true -> DecodeCSPLoad4Imm (EncodeCSPLoad4Imm imm) = imm) /\
  (IsCSPLoad8Imm imm = true -> DecodeCSPLoad8Imm (EncodeCSPLoad8Imm imm) = imm) /\
  (IsCSPStore4Imm imm = true -> DecodeCSPStore4Imm (EncodeCSPStore4Imm imm) = imm) /\
  (IsCSPStore8Imm imm = true -> DecodeCSPStore8Imm (EncodeCSPStore8Imm imm) = imm) /\
  (IsCMem1Imm imm = true -> DecodeCMem1Imm (EncodeCMem1Imm imm) = imm) /\
  (IsCMem2Imm imm = true -> DecodeCMem2Imm (EncodeCMem2Imm imm) = imm) /\
  (IsCMem4Imm imm = true -> DecodeCMem4Imm (EncodeCMem4Imm imm) = imm) /\
  (IsCMem8Imm imm = true -> DecodeCMem8Imm (EncodeCMem8Imm imm) = imm) /\
  (IsCJImm imm = true -> DecodeCJImm (EncodeCJImm imm) = imm) /\
  (IsCBImm imm = true -> DecodeCBImm (EncodeCBImm imm) = imm) /\
  (IsCIImm imm = true -> DecodeCIImm (EncodeCIImm imm) = imm) /\
  (IsCUImm imm = true -> DecodeCUImm (EncodeCUImm imm) = imm) /\
  (IsCI16Imm imm = true -> DecodeCI16Imm (EncodeCI16Imm imm) = imm) /\
  (IsCI4SPNImm imm = true -> DecodeCI4SPNImm (EncodeCI4SPNImm imm) = imm).
Proof.
  split_and!.
  - recover EncodeCSPLoad4Imm DecodeCSPLoad4Imm_fields imm.
  - recover EncodeCSPLoad8Imm DecodeCSPLoad8Imm_fields imm.
  - recover EncodeCSPStore4Imm DecodeCSPStore4Imm_fields imm.
  - recover EncodeCSPStore8Imm DecodeCSPStore8Imm_fields imm.
  - recover EncodeCMem1Imm DecodeCMem1Imm_fields imm.
  - recover EncodeCMem2Imm DecodeCMem2Imm_fields imm.
  - recover EncodeCMem4Imm DecodeCMem4Imm_fields imm.
  - recover EncodeCMem8Imm DecodeCMem8Imm_fields imm.
  - recover EncodeCJImm DecodeCJImm_fields imm.
  - recover EncodeCBImm DecodeCBImm_fields imm.
  - recover EncodeCIImm DecodeCIImm_fields imm.
  - recover EncodeCUImm DecodeCUImm_fields imm.
  - recover EncodeCI16Imm DecodeCI16Imm_fields imm.
  - recover EncodeCI4SPNImm DecodeCI4SPNImm_fields imm.
Qed.

(** ** Far offsets *)

(** [ImmHi] and [ImmLo] of any offset pass the tests of [auipc]
    and [jalr], so that the checks for distances beyond 2 GB never fail.  The parts
    add up to the offset from -2^31 up to 2^31 - 2^11; the offsets of the last 2 kB
    before 2^31 wrap around to negative ones. *)
Lemma far_offset_parts imm :
  IsUTypeImm (ImmHi imm) = true /\ IsITypeImm (ImmLo imm) = true /\
  (- 2 ^ 31 <= imm < 2 ^ 31 - 2 ^ 11 -> ImmHi imm + ImmLo imm = imm) /\
  (2 ^ 31 - 2 ^ 11 <= imm < 2 ^ 31 -> ImmHi imm + ImmLo imm = imm - 2 ^ 32).
Proof.
  split_and!; [apply ImmHi_IsUTypeImm|apply ImmLo_IsITypeImm|apply ImmHi_ImmLo|].
  intros Hi. rewrite ImmHi_swrap, ImmLo_swrap.
  assert (El : swrap 12 imm = imm - 2 ^ 31).
  { unfold swrap. change (2 ^ (12 - 1)) with 2048. change (2 ^ 12) with 4096.
    replace (imm + 2048) with (imm + 2048 - 2 ^ 31 + 524288 * 4096) by lia.
    rewrite Z_mod_plus_full, Z.mod_small by lia. lia. }
  rewrite El. replace (imm - (imm - 2 ^ 31)) with (2 ^ 31) by lia.
  change (swrap 32 (2 ^ 31)) with (- 2 ^ 31). lia.
Qed.

(** ** Memory orders *)

(** A field of a field. *)
Lemma field_field x lo m l n :
  0 <= lo -> 0 <= l -> 0 <= n -> l + n <= m -> field (field x lo m) l n = field x (lo + l) n.
Proof.
  intros. apply Z.bits_inj'. intros i Hi. rewrite !testbit_field by lia.
  destruct (i <? n) eqn:E; [|done]. reflect_bool. rewrite (proj2 (Z.ltb_lt _ _)) by lia.
  cbn. f_equal. lia.
Qed.

(** The memory order from the two bits that encode it. *)
Lemma memory_order_bits w order :
  field w 25 2 = Asm.order_bits order -> memory_order w = order.
Proof.
  intros E. unfold memory_order.
  change ((w ≫ kAcquireShift) .& 1) with (field w (25 + 1) 1).
  change ((w ≫ kReleaseShift) .& 1) with (field w (25 + 0) 1).
  rewrite <- !(field_field w 25 2), E by lia. by destruct order.
Qed.

(** Memory orders.  The order an atomic instruction is assembled with is the one
    the simulator passes to the host, and the operation code and the registers beside
    it are the ones it was assembled with. *)
Lemma order_decode funct5 order rs2 rs1 f3 rd op (a : MicroAssembler) :
  is_u 5 funct5 -> is_u 5 rs2 -> is_u 5 rs1 -> is_u 3 f3 -> is_u 5 rd -> is_u 7 op ->
  exists w, Asm.EmitRTypeOrder funct5 order rs2 rs1 f3 rd op a = Asm.Emit32 w a /\
    memory_order w = order /\ DecodeFunct5 w = funct5 /\ DecodeFunct3 w = f3 /\
    DecodeRd w = rd /\ DecodeRs1 w = rs1 /\ DecodeRs2 w = rs2.
Proof.
  intros H5 H2 H1 H3 Hd Ho. set (f7 := (funct5 ≪ 2) .| Asm.order_bits order).
  assert (Hb : is_u 2 (Asm.order_bits order)) by (by destruct order).
  assert (H7 : is_u 7 f7).
  { apply is_u_lor; [lia|apply (is_u_shiftl 7 5); done || lia|by apply (is_u_mono 2)]. }
  exists (rtype_word f7 rs2 rs1 f3 rd op). split; [reflexivity|].
  destruct (rtype_word_decode f7 rs2 rs1 f3 rd op H7 H2 H1 H3 Hd Ho) as (_ & _ & D3 & D7 & Dd & D1 & D2).
  rewrite DecodeFunct7_field in D7. set (w := rtype_word _ _ _ _ _ _) in *.
  split_and!; [| |assumption..].
  - apply memory_order_bits. rewrite <- (field_field w 25 7 0), D7 by lia. unfold f7.
    rewrite field_lor, field_shiftl_above, field_small by (done || lia). done.
  - rewrite DecodeFunct5_field, <- (field_field w 25 7 2), D7 by lia. unfold f7.
    rewrite field_lor, field_shiftl_same, (field_below 2) by (done || lia).
    by rewrite Z.lor_0_r.
Qed.

(** C34: Encodings.  The words the assembler emits for the R, I, S, B, U and J formats have
    32 bits, and the decoders of the simulator read from them the operands they were built
    from: opcode, function codes, registers, and every immediate that passes the test of
    its encoder.  The memory order an atomic instruction is assembled with is the one the
    simulator passes to the host.  Every immediate of a compressed instruction that passes
    the test of its encoder is what its decoder reads.  [ImmHi] and [ImmLo] of any offset
    pass the tests of [auipc] and [jalr], so that the checks for distances beyond 2 GB never
    fail; the parts add up to the offset from -2^31 up to 2^31 - 2^11, and the offsets of
    the last 2 kB before 2^31 wrap around to negative ones. *)
Theorem encodings_round_trip :
  (forall f7 rs2 rs1 f3 rd op imm funct5 order (a : MicroAssembler),
    is_u 7 f7 -> is_u 5 rs2 -> is_u 5 rs1 -> is_u 3 f3 -> is_u 5 rd -> is_u 7 op -> is_u 5 funct5 ->
    (exists w, Asm.EmitRTypeOrder funct5 order rs2 rs1 f3 rd op a = Asm.Emit32 w a /\
      memory_order w = order /\ DecodeFunct5 w = funct5 /\ DecodeFunct3 w = f3 /\
      DecodeRd w = rd /\ DecodeRs1 w = rs1 /\ DecodeRs2 w = rs2) /\
    let r := rtype_word f7 rs2 rs1 f3 rd op in
    let i := itype_word imm rs1 f3 rd op in
    let s := stype_word imm rs2 rs1 f3 op in
    let b := btype_word imm rs2 rs1 f3 op in
    let u := utype_word imm rd op in
    let j := jtype_word imm rd op in
    (Asm.EmitRType f7 rs2 rs1 f3 rd op a = Asm.Emit32 r a /\
     Asm.EmitIType imm rs1 f3 rd op a = Asm.Emit32 i a /\
     Asm.EmitSType imm rs2 rs1 f3 op a = Asm.Emit32 s a /\
     Asm.EmitBType imm rs2 rs1 f3 op a = Asm.Emit32 b a /\
     Asm.EmitUType imm rd op a = Asm.Emit32 u a /\ Asm.EmitJType imm rd op a = Asm.Emit32 j a) /\
    (is_u 32 r /\ DecodeOpcode r = op /\ DecodeFunct3 r = f3 /\ DecodeFunct7 r = f7 /\
     DecodeRd r = rd /\ DecodeRs1 r = rs1 /\ DecodeRs2 r = rs2) /\
    (IsITypeImm imm = true -> is_u 32 i /\ DecodeOpcode i = op /\ DecodeFunct3 i = f3 /\
     DecodeRd i = rd /\ DecodeRs1 i = rs1 /\ DecodeITypeImm i = imm) /\
    (IsSTypeImm imm = true -> is_u 32 s /\ DecodeOpcode s = op /\ DecodeFunct3 s = f3 /\
     DecodeRs1 s = rs1 /\ DecodeRs2 s = rs2 /\ DecodeSTypeImm s = imm) /\
    (IsBTypeImm imm = true -> is_u 32 b /\ DecodeOpcode b = op /\ DecodeFunct3 b = f3 /\
     DecodeRs1 b = rs1 /\ DecodeRs2 b = rs2 /\ DecodeBTypeImm b = imm) /\
    (IsUTypeImm imm = true -> is_u 32 u /\ DecodeOpcode u = op /\ DecodeRd u = rd /\
     DecodeUTypeImm u = imm) /\
    (IsJTypeImm imm = true -> is_u 32 j /\ DecodeOpcode j = op /\ DecodeRd j = rd /\
     DecodeJTypeImm j = imm)) /\
  (forall imm,
    ((IsCSPLoad4Imm imm = true -> DecodeCSPLoad4Imm (EncodeCSPLoad4Imm imm) = imm) /\
     (IsCSPLoad8Imm imm = true -> DecodeCSPLoad8Imm (EncodeCSPLoad8Imm imm) = imm) /\
     (IsCSPStore4Imm imm = true -> DecodeCSPStore4Imm (EncodeCSPStore4Imm imm) = imm) /\
     (IsCSPStore8Imm imm = true -> DecodeCSPStore8Imm (EncodeCSPStore8Imm imm) = imm) /\
     (IsCMem1Imm imm = true -> DecodeCMem1Imm (EncodeCMem1Imm imm) = imm) /\
     (IsCMem2Imm imm = true -> DecodeCMem2Imm (EncodeCMem2Imm imm) = imm) /\
     (IsCMem4Imm imm = true -> DecodeCMem4Imm (EncodeCMem4Imm imm) = imm) /\
     (IsCMem8Imm imm = true -> DecodeCMem8Imm (EncodeCMem8Imm imm) = imm) /\
     (IsCJImm imm = true -> DecodeCJImm (EncodeCJImm imm) = imm) /\
     (IsCBImm imm = true -> DecodeCBImm (EncodeCBImm imm) = imm) /\
     (IsCIImm imm = true -> DecodeCIImm (EncodeCIImm imm) = imm) /\
     (IsCUImm imm = true -> DecodeCUImm (EncodeCUImm imm) = imm) /\
     (IsCI16Imm imm = true -> DecodeCI16Imm (EncodeCI16Imm imm) = imm) /\
     (IsCI4SPNImm imm = true -> DecodeCI4SPNImm (EncodeCI4SPNImm imm) = imm)) /\
    (IsUTypeImm (ImmHi imm) = true /\ IsITypeImm (ImmLo imm) = true /\
     (- 2 ^ 31 <= imm < 2 ^ 31 - 2 ^ 11 -> ImmHi imm + ImmLo imm = imm) /\
     (2 ^ 31 - 2 ^ 11 <= imm < 2 ^ 31 -> ImmHi imm + ImmLo imm = imm - 2 ^ 32))).
Proof.
  split.
  - intros f7 rs2 rs1 f3 rd op imm funct5 order a H7 H2 H1 H3 Hd Ho H5.
    exact (conj (order_decode funct5 order rs2 rs1 f3 rd op a H5 H2 H1 H3 Hd Ho)
      (formats_decode f7 rs2 rs1 f3 rd op imm a H7 H2 H1 H3 Hd Ho)).
  - intros imm. exact (conj (compressed_decode imm) (far_offset_parts imm)).
Qed.

(** ** Witnesses *)

(** [sw a0, -4(sp)]: a negative immediate that every format but the U format takes;
    [c.lwsp] at its largest offset, and a far offset whose low part is negative. *)
Lemma encodings_round_trip_witness :
  (IsSTypeImm (-4) = true /\ IsJTypeImm (-4) = true /\
   DecodeSTypeImm (stype_word (-4) Register.A0 Register.SP Funct3.SW Opcode.STORE) = -4 /\
   DecodeJTypeImm (jtype_word (-4) Register.RA Opcode.JAL) = -4) /\
  (IsCSPLoad4Imm 252 = true /\ DecodeCSPLoad4Imm (EncodeCSPLoad4Imm 252) = 252) /\
  ImmHi 0x12345fff = 0x12346000 /\ ImmLo 0x12345fff = -1 /\
  ImmHi 0x12345fff + ImmLo 0x12345fff = 0x12345fff.
Proof.
  destruct encodings_round_trip as [Hformats Himms]. split.
  - split; [reflexivity|]. split; [reflexivity|].
    destruct (Hformats 0 Register.A0 Register.SP Funct3.SW Register.RA Opcode.STORE (-4) 1 acq_rel (mkAsm [] 0 0))
      as (_ & _ & _ & _ & Hs & _); [by vm_compute..|].
    destruct (Hformats 0 Register.A0 Register.SP Funct3.SW Register.RA Opcode.JAL (-4) 1 acq_rel (mkAsm [] 0 0))
      as (_ & _ & _ & _ & _ & _ & _ & Hj); [by vm_compute..|].
    split; [apply Hs; reflexivity|apply Hj; reflexivity].
  - destruct (Himms 252) as [(Hc & _) _]. destruct (Himms 0x12345fff) as [_ (_ & _ & Hf & _)].
    split; [split; [reflexivity|apply Hc; reflexivity]|]. split; [reflexivity|]. split; [reflexivity|]. apply Hf. lia.
Defined.
