(* ===== verification/RiscvCompressed.v ===== *)
(** * Compressed encodings

    Every compressed method of the assembler makes the simulator execute the
    instruction it abbreviates: the interpreter is run on the fields that
    [RiscvTables] reads from the parcel. *)

From S2P Require Import Prelude Utils RiscvConstants RiscvEncoding RiscvAssembler.
From S2P Require Import SimMemory RiscvSimulator RiscvArith RiscvIsa RiscvDecode.
From S2P Require Import RiscvInterpret RiscvTables.

(** ** Running the interpreter on a parcel *)

Section Compressed.
Context {M : Type} `{MemoryOps M}.
Implicit Types s : Simulator M.

Lemma set_self_ext rd v1 v2 s :
  u64 v1 = u64 v2 ->
  Ok (count (add_pc kCInstrSize (set_xreg rd v1 s)))
  = Ok (E := sim_error) (retire 2 (set_xreg rd v2 s)).
Proof. intros E. by rewrite (set_xreg_ext rd v1 v2 s E). Qed.

(** Membership of a constant in a list of constants. *)
Ltac in_list := apply (bool_decide_eq_true_1 _); vm_compute; reflexivity.

(** Takes the case of the outer switch given by [Hop], for any word with the
    decoded fields of [word]. *)
Ltac run_parcel word Hop :=
  let w := fresh "w" in set (w := word) in *; clearbody w;
  unfold InterpretC; cbv zeta; rewrite Hop; repeat switch_step;
  unfold next_c, interpret_c_miscalu, interpret_c_rr, interpret_c_ext,
    interpret_c_mem, interpret_c_jr; cbv zeta.

(** The compressed register operations. *)
Definition rr_op (op : rop) : option Z :=
  match op with
  | AND => Some COpcode.C_AND | OR => Some COpcode.C_OR | XOR => Some COpcode.C_XOR
  | SUB => Some COpcode.C_SUB | ADDW => Some COpcode.C_ADDW
  | SUBW => Some COpcode.C_SUBW | MUL => Some COpcode.C_MUL
  | _ => None
  end.

Lemma c_rr_implements op c rs1 rs2 a s :
  rr_op op = Some c -> sim_wf s -> IsRegPrime rs1 = true -> IsRegPrime rs2 = true ->
  implements (Asm.Emit16 (rr_word c rs1 rs2)) (Reg op rs1 rs1 rs2) a s.
Proof.
  intros Hc Hs H1 H2.
  assert (c ∈ rr_ops) as Hin
    by (destruct op; try discriminate Hc; injection Hc as <-; in_list).
  destruct (rr_decode c rs1 rs2 Hin H1 H2) as (Hw & HC & Ho & Hm & Hr & D1 & D2).
  apply implements_16; [done..|]. run_parcel (rr_word c rs1 rs2) Ho. rewrite Hm. repeat switch_step.
  rewrite Hr, D1, D2. cbn [exec].
  rewrite <- (set_xreg_ext rs1 _ _ s (rop_value_sem op _ _
    (get_xreg_range _ s Hs (is_prime_reg _ H1)) (get_xreg_range _ s Hs (is_prime_reg _ H2)))).
  destruct op; try discriminate Hc; injection Hc as <-; repeat switch_step;
    cbn [rop_value]; reflexivity.
Qed.

Lemma c_mv_implements rd rs2 a s :
  sim_wf s -> is_u 5 rd -> is_u 5 rs2 -> rd <> 0 -> rs2 <> 0 ->
  implements (Asm.c_mv rd rs2) (Imm ADDI rd rs2 0) a s.
Proof.
  intros Hs Hd H2 Nd N2.
  destruct (cr_decode COpcode.C_JR rd rs2) as (Hw & HC & Ho & Hb & Dd & D2);
    [in_list|done..|].
  apply (implements_16 (cr_word COpcode.C_JR rd rs2)); [done..|].
  run_parcel (cr_word COpcode.C_JR rd rs2) Ho.
  rewrite Hb, Dd, D2. repeat switch_step. unfold Register.ZR.
  rewrite (proj2 (Z.eqb_neq rd 0) Nd), (proj2 (Z.eqb_neq rs2 0) N2).
  cbn [negb andb mbind result_bind exec iop_sem].
  apply set_self_ext. by rewrite Z.add_0_r.
Qed.

Lemma c_add_implements rd rs2 a s :
  sim_wf s -> is_u 5 rd -> is_u 5 rs2 -> rs2 <> 0 ->
  implements (Asm.c_add rd rd rs2) (Reg ADD rd rd rs2) a s.
Proof.
  intros Hs Hd H2 N2.
  destruct (cr_decode COpcode.C_JALR rd rs2) as (Hw & HC & Ho & Hb & Dd & D2);
    [in_list|done..|].
  apply (implements_16 (cr_word COpcode.C_JALR rd rs2)); [done..|].
  run_parcel (cr_word COpcode.C_JALR rd rs2) Ho.
  rewrite Hb, Dd, D2. repeat switch_step. unfold Register.ZR.
  by rewrite (proj2 (Z.eqb_neq rs2 0) N2), andb_false_r.
Qed.

(** [c.jr] and [c.jalr]: the target is even. *)
Lemma clearbit_even x : Z.testbit x 0 = false -> Z.clearbit x 0 = x.
Proof.
  intros Hb. apply Z.bits_inj'. intros i Hi.
  destruct (decide (i = 0)) as [->|].
  - rewrite Z.clearbit_eq. done.
  - by rewrite Z.clearbit_neq by lia.
Qed.

Lemma c_jr_implements rs1 a s :
  sim_wf s -> is_u 5 rs1 -> rs1 <> 0 -> Z.testbit (get_xreg rs1 s) 0 = false ->
  implements (Asm.c_jr rs1) (Jalr 0 rs1 0) a s.
Proof.
  intros Hs H1 N1 He.
  destruct (cr_decode COpcode.C_JR rs1 0) as (Hw & HC & Ho & Hb & Dd & D2);
    [in_list|done..|].
  apply (implements_16 (cr_word COpcode.C_JR rs1 0)); [done..|].
  run_parcel (cr_word COpcode.C_JR rs1 0) Ho.
  rewrite Hb, Dd, D2. repeat switch_step. unfold Register.ZR.
  rewrite ?(proj2 (Z.eqb_neq rs1 0) N1). cbn [negb andb mbind result_bind exec].
  rewrite Z.add_0_r, uwrap_small by by apply get_xreg_range.
  by rewrite clearbit_even.
Qed.

Lemma c_jalr_implements rs1 a s :
  sim_wf s -> is_u 5 rs1 -> rs1 <> 0 -> Z.testbit (get_xreg rs1 s) 0 = false ->
  implements (Asm.c_jalr rs1) (Jalr 1 rs1 0) a s.
Proof.
  intros Hs H1 N1 He.
  destruct (cr_decode COpcode.C_JALR rs1 0) as (Hw & HC & Ho & Hb & Dd & D2);
    [in_list|done..|].
  apply (implements_16 (cr_word COpcode.C_JALR rs1 0)); [done..|].
  run_parcel (cr_word COpcode.C_JALR rs1 0) Ho.
  rewrite Hb, Dd, D2. repeat switch_step. unfold Register.ZR.
  rewrite ?(proj2 (Z.eqb_neq rs1 0) N1). cbn [negb andb mbind result_bind exec].
  rewrite Z.add_0_r, uwrap_small by by apply get_xreg_range.
  by rewrite clearbit_even.
Qed.

(** The extensions of Zcb. *)
Lemma c_ext_run c rs1 s :
  c ∈ ext_ops -> IsRegPrime rs1 = true ->
  let w := c .| EncodeCRs1p rs1 in
  is_u 16 w /\ IsCInstruction w = true /\
  InterpretC w s
  = next_c (let a := get_xreg rs1 s in
      if c =? COpcode.C_ZEXTB then Ok (set_xreg rs1 (Arith.zextb a) s)
      else if c =? COpcode.C_SEXTB then Ok (set_xreg rs1 (Arith.sextb a) s)
      else if c =? COpcode.C_ZEXTH then Ok (set_xreg rs1 (Arith.zexth a) s)
      else if c =? COpcode.C_SEXTH then Ok (set_xreg rs1 (Arith.sexth a) s)
      else if c =? COpcode.C_ZEXTW then Ok (set_xreg rs1 (Arith.zextw a) s)
      else if c =? COpcode.C_NOT then Ok (set_xreg rs1 (Z.lnot a) s)
      else Err (IllegalInstruction w)).
Proof.
  intros Hin H1. cbv zeta.
  destruct (ext_decode c rs1 Hin H1) as (Hw & HC & Ho & Hm & Hr & Hx & D1).
  split_and!; [done..|]. run_parcel (c .| EncodeCRs1p rs1) Ho. rewrite Hm. repeat switch_step.
  rewrite Hr. repeat switch_step. by rewrite Hx, D1.
Qed.

Ltac run_ext c rs1 s :=
  destruct (c_ext_run c rs1 s) as (Hw & HC & HI); [in_list|done|];
  apply (implements_16 (c .| EncodeCRs1p rs1)); [done..|];
  rewrite HI; cbv zeta; repeat switch_step; cbn [mbind result_bind next_c exec].

Lemma c_sextb_implements rs1 a s :
  IsRegPrime rs1 = true -> implements (Asm.c_sextb rs1 rs1) (Unary SEXT_B rs1 rs1) a s.
Proof.
  intros H1. run_ext COpcode.C_SEXTB rs1 s. apply set_self_ext.
  by rewrite sextb_ok, uwrap_uwrap.
Qed.

Lemma c_sexth_implements rs1 a s :
  IsRegPrime rs1 = true -> implements (Asm.c_sexth rs1 rs1) (Unary SEXT_H rs1 rs1) a s.
Proof.
  intros H1. run_ext COpcode.C_SEXTH rs1 s. apply set_self_ext.
  by rewrite sexth_ok, uwrap_uwrap.
Qed.

Lemma c_zexth_implements rs1 a s :
  IsRegPrime rs1 = true -> implements (Asm.c_zexth rs1 rs1) (Unary ZEXT_H rs1 rs1) a s.
Proof.
  intros H1. run_ext COpcode.C_ZEXTH rs1 s. apply set_self_ext. by rewrite zexth_ok.
Qed.

Lemma c_zextb_implements rs1 a s :
  IsRegPrime rs1 = true -> implements (Asm.c_zextb rs1 rs1) (Imm ANDI rs1 rs1 0xFF) a s.
Proof.
  intros H1. run_ext COpcode.C_ZEXTB rs1 s. apply set_self_ext.
  rewrite zextb_ok. cbn [iop_sem]. change 0xFF with (Z.ones 8). by rewrite Z.land_ones.
Qed.

Lemma c_zextw_implements rs1 a s :
  sim_wf s -> IsRegPrime rs1 = true ->
  implements (Asm.c_zextw rs1 rs1) (Reg ADD_UW rs1 rs1 0) a s.
Proof.
  intros Hs H1. run_ext COpcode.C_ZEXTW rs1 s. apply set_self_ext.
  rewrite zextw_ok. cbn [rop_sem]. by rewrite get_xreg_zr, Z.add_0_r.
Qed.

Lemma c_not_implements rs1 a s :
  IsRegPrime rs1 = true -> implements (Asm.c_not rs1 rs1) (Imm XORI rs1 rs1 (-1)) a s.
Proof.
  intros H1. run_ext COpcode.C_NOT rs1 s. apply set_self_ext. cbn [iop_sem].
  by rewrite Z.lxor_m1_r.
Qed.

(** *** Immediates *)

Lemma c_li_implements op rd imm a s :
  op = ADDI \/ op = ADDIW -> sim_wf s -> is_u 5 rd -> rd <> 0 -> IsCIImm imm = true ->
  implements (Asm.c_li rd imm) (Imm op rd 0 imm) a s.
Proof.
  intros Hop Hs Hd Nd Hi. pose proof (IsCIImm_range _ Hi).
  destruct (ci_decode COpcode.C_LI rd imm) as (Hw & HC & Ho & Dd & Di); [in_list|done..|].
  apply (implements_16 (ci_word COpcode.C_LI rd imm)); [done..|].
  run_parcel (ci_word COpcode.C_LI rd imm) Ho. rewrite Dd, Di. unfold Register.ZR.
  rewrite (proj2 (Z.eqb_neq rd 0) Nd). cbn [mbind result_bind exec].
  apply set_self_ext. change 0 with Register.ZR at 1. unfold sign_extend.
  rewrite swrap_small by (unfold is_s; lia).
  destruct Hop as [-> | ->]; cbn [iop_sem]; rewrite get_xreg_zr by done; [done|].
  by rewrite (swrap_small 32) by (unfold is_s; lia).
Qed.

Lemma c_addi_implements rd imm a s :
  is_u 5 rd -> IsCIImm imm = true ->
  implements (Asm.c_addi rd rd imm) (Imm ADDI rd rd imm) a s.
Proof.
  intros Hd Hi.
  destruct (ci_decode COpcode.C_ADDI rd imm) as (Hw & HC & Ho & Dd & Di); [in_list|done..|].
  apply (implements_16 (ci_word COpcode.C_ADDI rd imm)); [done..|].
  run_parcel (ci_word COpcode.C_ADDI rd imm) Ho. by rewrite Dd, Di.
Qed.

Lemma c_nop_implements a s : implements Asm.c_nop (Imm ADDI 0 0 0) a s.
Proof. apply (c_addi_implements 0 0); done. Qed.

Lemma c_addiw_implements rd imm a s :
  is_u 5 rd -> IsCIImm imm = true ->
  implements (Asm.c_addiw rd rd imm) (Imm ADDIW rd rd imm) a s.
Proof.
  intros Hd Hi.
  destruct (ci_decode COpcode.C_ADDIW rd imm) as (Hw & HC & Ho & Dd & Di); [in_list|done..|].
  apply (implements_16 (ci_word COpcode.C_ADDIW rd imm)); [done..|].
  run_parcel (ci_word COpcode.C_ADDIW rd imm) Ho. rewrite Dd, Di. apply set_self_ext.
  cbn [iop_sem]. unfold sign_extend. by autorewrite with vm.
Qed.

Lemma c_lui_implements rd imm a s :
  is_u 5 rd -> rd <> 0 -> rd <> 2 -> imm <> 0 -> IsCUImm imm = true ->
  implements (Asm.c_lui rd imm) (Lui rd imm) a s.
Proof.
  intros Hd Nd N2 Ni Hi. destruct (cu_decode rd imm) as (Hw & HC & Ho & Dd & Di); [done..|].
  set (w0 := COpcode.C_LUI .| EncodeCRd rd .| EncodeCUImm imm) in *.
  apply (implements_16 w0); [done..|]. run_parcel w0 Ho.
  rewrite Dd, Di. unfold Register.ZR, Register.SP.
  rewrite (proj2 (Z.eqb_neq rd 0) Nd), (proj2 (Z.eqb_neq rd 2) N2),
    (proj2 (Z.eqb_neq imm 0) Ni).
  cbn [orb mbind result_bind exec]. apply set_self_ext. by apply uwrap_swrap.
Qed.

Lemma c_addi16sp_implements imm a s :
  imm <> 0 -> IsCI16Imm imm = true ->
  implements (Asm.c_addi16sp 2 2 imm) (Imm ADDI 2 2 imm) a s.
Proof.
  intros Ni Hi. destruct (ci16_decode imm) as (Hw & HC & Ho & Dd & Di); [done..|].
  set (w0 := COpcode.C_ADDI16SP .| EncodeCRd 2 .| EncodeCI16Imm imm) in *.
  apply (implements_16 w0); [done..|]. run_parcel w0 Ho. rewrite Dd, Di.
  repeat switch_step. rewrite (proj2 (Z.eqb_neq imm 0) Ni).
  cbn [mbind result_bind exec iop_sem]. apply set_self_ext. unfold sign_extend.
  by rewrite <- uwrap_add_r, uwrap_swrap, uwrap_add_r.
Qed.

Lemma c_addi4spn_implements rd imm a s :
  IsRegPrime rd = true -> imm <> 0 -> IsCI4SPNImm imm = true ->
  implements (Asm.c_addi4spn rd 2 imm) (Imm ADDI rd 2 imm) a s.
Proof.
  intros Hd Ni Hi. destruct (ci4spn_decode rd imm) as (Hw & HC & Ho & Dd & Di); [done..|].
  set (w0 := COpcode.C_ADDI4SPN .| EncodeCRdp rd .| EncodeCI4SPNImm imm) in *.
  apply (implements_16 w0); [done..|]. run_parcel w0 Ho. rewrite Dd, Di.
  by rewrite (proj2 (Z.eqb_neq imm 0) Ni).
Qed.

Lemma c_slli_implements rd n a s :
  is_u 5 rd -> rd <> 0 -> 0 <= n < 64 ->
  implements (Asm.c_slli rd rd n) (Shift SLLI rd rd n) a s.
Proof.
  intros Hd Nd Hn. destruct (cslli_decode rd n) as (Hw & HC & Ho & Dd & Dn); [done..|].
  set (w0 := COpcode.C_SLLI .| EncodeCRd rd .| EncodeCShamt n) in *.
  apply (implements_16 w0); [done..|]. run_parcel w0 Ho. rewrite Dd, Dn.
  unfold Register.ZR. rewrite (proj2 (Z.eqb_neq rd 0) Nd).
  cbn [mbind result_bind exec shop_sem]. apply set_self_ext.
  by rewrite Z.shiftl_mul_pow2 by lia.
Qed.

Lemma c_srli_implements rd n a s :
  IsRegPrime rd = true -> 0 <= n < 64 ->
  implements (Asm.c_srli rd rd n) (Shift SRLI rd rd n) a s.
Proof.
  intros Hd Hn. destruct (cshift_decode COpcode.C_SRLI rd n)
    as (Hw & HC & Ho & Hm & Dd & Dn); [in_list|done..|].
  set (w0 := COpcode.C_SRLI .| EncodeCRs1p rd .| EncodeCShamt n) in *.
  apply (implements_16 w0); [done..|]. run_parcel w0 Ho. rewrite Hm, Dd, Dn.
  repeat switch_step. unfold XLEN. rewrite (proj2 (Z.leb_gt 64 n)) by lia.
  cbn [mbind result_bind exec shop_sem]. apply set_self_ext.
  by rewrite Z.shiftr_div_pow2 by lia.
Qed.

Lemma c_srai_implements rd n a s :
  IsRegPrime rd = true -> 0 <= n < 64 ->
  implements (Asm.c_srai rd rd n) (Shift SRAI rd rd n) a s.
Proof.
  intros Hd Hn. destruct (cshift_decode COpcode.C_SRAI rd n)
    as (Hw & HC & Ho & Hm & Dd & Dn); [in_list|done..|].
  set (w0 := COpcode.C_SRAI .| EncodeCRs1p rd .| EncodeCShamt n) in *.
  apply (implements_16 w0); [done..|]. run_parcel w0 Ho. rewrite Hm, Dd, Dn.
  repeat switch_step. unfold XLEN. rewrite (proj2 (Z.leb_gt 64 n)) by lia.
  cbn [mbind result_bind exec shop_sem]. apply set_self_ext.
  by rewrite Z.shiftr_div_pow2 by lia.
Qed.

Lemma c_andi_implements rd imm a s :
  IsRegPrime rd = true -> IsCIImm imm = true ->
  implements (Asm.c_andi rd rd imm) (Imm ANDI rd rd imm) a s.
Proof.
  intros Hd Hi. destruct (candi_decode rd imm) as (Hw & HC & Ho & Hm & Dd & Di); [done..|].
  set (w0 := COpcode.C_ANDI .| EncodeCRs1p rd .| EncodeCIImm imm) in *.
  apply (implements_16 w0); [done..|]. run_parcel w0 Ho. rewrite Hm, Dd, Di.
  repeat switch_step. cbn [mbind result_bind exec iop_sem]. apply set_self_ext.
  apply u64_land_u64.
Qed.

(** *** Loads and stores *)

Lemma load_retire T rd x s :
  (s' ← next_c (load_xreg T rd x s); Ok (count s'))
  = ('(v, m) ← mem_load T x (memory_ s); Ok (retire 2 (set_xreg rd v (set_memory m s)))).
Proof. unfold load_xreg, MemoryRead. by destruct (mem_load T x (memory_ s)) as [[]|]. Qed.

Lemma store_retire T x v s :
  ct_signed T = false ->
  (s' ← next_c (MemoryWrite T x v s); Ok (count s'))
  = (m ← mem_store T x (uwrap (ct_bits T) v) (memory_ s); Ok (retire 2 (set_memory m s))).
Proof.
  intros E. unfold MemoryWrite, ct_cast. rewrite E. by destruct (mem_store T x _ (memory_ s)).
Qed.

Lemma c_lwsp_implements rd addr a s :
  is_u 5 rd -> base addr = 2 -> IsCSPLoad4Imm (offset addr) = true ->
  implements (Asm.c_lwsp rd addr) (Load LW rd addr) a s.
Proof.
  intros Hd Hb Hi. destruct (lwsp_decode rd (offset addr)) as (Hw & HC & Ho & Dd & Di); [done..|].
  set (w0 := COpcode.C_LWSP .| EncodeCRd rd .| EncodeCSPLoad4Imm (offset addr)) in *.
  apply (implements_16 w0); [done..|]. run_parcel w0 Ho. rewrite Dd, Di.
  cbn [exec]. unfold address. rewrite Hb. apply load_retire.
Qed.

Lemma c_ldsp_implements rd addr a s :
  is_u 5 rd -> base addr = 2 -> IsCSPLoad8Imm (offset addr) = true ->
  implements (Asm.c_ldsp rd addr) (Load LD rd addr) a s.
Proof.
  intros Hd Hb Hi. destruct (ldsp_decode rd (offset addr)) as (Hw & HC & Ho & Dd & Di); [done..|].
  set (w0 := COpcode.C_LDSP .| EncodeCRd rd .| EncodeCSPLoad8Imm (offset addr)) in *.
  apply (implements_16 w0); [done..|]. run_parcel w0 Ho. rewrite Dd, Di.
  cbn [exec]. unfold address. rewrite Hb. apply load_retire.
Qed.

Lemma c_swsp_implements rs2 addr a s :
  is_u 5 rs2 -> base addr = 2 -> IsCSPStore4Imm (offset addr) = true ->
  implements (Asm.c_swsp rs2 addr) (Store SW rs2 addr) a s.
Proof.
  intros Hd Hb Hi. destruct (swsp_decode rs2 (offset addr)) as (Hw & HC & Ho & Dd & Di); [done..|].
  set (w0 := COpcode.C_SWSP .| EncodeCRs2 rs2 .| EncodeCSPStore4Imm (offset addr)) in *.
  apply (implements_16 w0); [done..|]. run_parcel w0 Ho. rewrite Dd, Di.
  cbn [exec]. unfold address. rewrite Hb. by apply store_retire.
Qed.

Lemma c_sdsp_implements rs2 addr a s :
  is_u 5 rs2 -> base addr = 2 -> IsCSPStore8Imm (offset addr) = true ->
  implements (Asm.c_sdsp rs2 addr) (Store SD rs2 addr) a s.
Proof.
  intros Hd Hb Hi. destruct (sdsp_decode rs2 (offset addr)) as (Hw & HC & Ho & Dd & Di); [done..|].
  set (w0 := COpcode.C_SDSP .| EncodeCRs2 rs2 .| EncodeCSPStore8Imm (offset addr)) in *.
  apply (implements_16 w0); [done..|]. run_parcel w0 Ho. rewrite Dd, Di.
  cbn [exec]. unfold address. rewrite Hb. by apply store_retire.
Qed.

Lemma c_lw_implements rd addr a s :
  IsRegPrime rd = true -> IsRegPrime (base addr) = true -> IsCMem4Imm (offset addr) = true ->
  implements (Asm.c_lw rd addr) (Load LW rd addr) a s.
Proof.
  intros Hd Hb Hi. destruct (cw_decode rd (base addr) (offset addr) Hd Hb Hi)
    as [(Hw & HC & Ho & Dd & D1 & Di) _].
  set (w0 := cl_word _ _ _ _) in *.
  apply (implements_16 w0); [done..|]. run_parcel w0 Ho. rewrite Dd, D1, Di.
  apply load_retire.
Qed.

Lemma c_ld_implements rd addr a s :
  IsRegPrime rd = true -> IsRegPrime (base addr) = true -> IsCMem8Imm (offset addr) = true ->
  implements (Asm.c_ld rd addr) (Load LD rd addr) a s.
Proof.
  intros Hd Hb Hi. destruct (cd_decode rd (base addr) (offset addr) Hd Hb Hi)
    as [(Hw & HC & Ho & Dd & D1 & Di) _].
  set (w0 := cl_word _ _ _ _) in *.
  apply (implements_16 w0); [done..|]. run_parcel w0 Ho. rewrite Dd, D1, Di.
  apply load_retire.
Qed.

Lemma c_sw_implements rs2 addr a s :
  IsRegPrime rs2 = true -> IsRegPrime (base addr) = true -> IsCMem4Imm (offset addr) = true ->
  implements (Asm.c_sw rs2 addr) (Store SW rs2 addr) a s.
Proof.
  intros Hd Hb Hi. destruct (cw_decode rs2 (base addr) (offset addr) Hd Hb Hi)
    as [_ (Hw & HC & Ho & Dd & D1 & Di)].
  set (w0 := cs_word _ _ _ _) in *.
  apply (implements_16 w0); [done..|]. run_parcel w0 Ho. rewrite Dd, D1, Di.
  by apply store_retire.
Qed.

Lemma c_sd_implements rs2 addr a s :
  IsRegPrime rs2 = true -> IsRegPrime (base addr) = true -> IsCMem8Imm (offset addr) = true ->
  implements (Asm.c_sd rs2 addr) (Store SD rs2 addr) a s.
Proof.
  intros Hd Hb Hi. destruct (cd_decode rs2 (base addr) (offset addr) Hd Hb Hi)
    as [_ (Hw & HC & Ho & Dd & D1 & Di)].
  set (w0 := cs_word _ _ _ _) in *.
  apply (implements_16 w0); [done..|]. run_parcel w0 Ho. rewrite Dd, D1, Di.
  by apply store_retire.
Qed.

Lemma c_lbu_implements rd addr a s :
  IsRegPrime rd = true -> IsRegPrime (base addr) = true -> IsCMem1Imm (offset addr) = true ->
  implements (Asm.c_lbu rd addr) (Load LBU rd addr) a s.
Proof.
  intros Hd Hb Hi. destruct (zcb_byte_decode rd (base addr) (offset addr) Hd Hb Hi)
    as (Hw & HC & Ho & Hm & Dd & D1 & Di).
  set (w0 := cl_word _ _ _ _) in *.
  apply (implements_16 w0); [done..|]. run_parcel w0 Ho. rewrite Hm, Dd, D1, Di.
  repeat switch_step. apply load_retire.
Qed.

Lemma c_lhu_implements rd addr a s :
  IsRegPrime rd = true -> IsRegPrime (base addr) = true -> IsCMem2Imm (offset addr) = true ->
  implements (Asm.c_lhu rd addr) (Load LHU rd addr) a s.
Proof.
  intros Hd Hb Hi. destruct (zcb_half_decode COpcode.C_LHU 0 rd (base addr) (offset addr)
    ltac:(in_list) Hd Hb Hi) as (Hw & HC & Ho & Hm & H6 & Dd & D1 & Di).
  set (w0 := cl_word _ _ _ _) in *.
  apply (implements_16 w0); [done..|]. run_parcel w0 Ho. rewrite Hm, H6, Dd, D1, Di.
  repeat switch_step. apply load_retire.
Qed.

Lemma c_lh_implements rd addr a s :
  IsRegPrime rd = true -> IsRegPrime (base addr) = true -> IsCMem2Imm (offset addr) = true ->
  implements (Asm.c_lh rd addr) (Load LH rd addr) a s.
Proof.
  intros Hd Hb Hi. destruct (zcb_half_decode COpcode.C_LH 0x40 rd (base addr) (offset addr)
    ltac:(in_list) Hd Hb Hi) as (Hw & HC & Ho & Hm & H6 & Dd & D1 & Di).
  set (w0 := cl_word _ _ _ _) in *.
  apply (implements_16 w0); [done..|]. run_parcel w0 Ho. rewrite Hm, H6, Dd, D1, Di.
  repeat switch_step. apply load_retire.
Qed.

Lemma c_sb_implements rs2 addr a s :
  IsRegPrime rs2 = true -> IsRegPrime (base addr) = true -> IsCMem1Imm (offset addr) = true ->
  implements (Asm.c_sb rs2 addr) (Store SB rs2 addr) a s.
Proof.
  intros Hd Hb Hi. destruct (zcb_sb_decode rs2 (base addr) (offset addr) Hd Hb Hi)
    as (Hw & HC & Ho & Hm & Dd & D1 & Di).
  set (w0 := cs_word _ _ _ _) in *.
  apply (implements_16 w0); [done..|]. run_parcel w0 Ho. rewrite Hm, Dd, D1, Di.
  repeat switch_step. by apply store_retire.
Qed.

Lemma c_sh_implements rs2 addr a s :
  IsRegPrime rs2 = true -> IsRegPrime (base addr) = true -> IsCMem2Imm (offset addr) = true ->
  implements (Asm.c_sh rs2 addr) (Store SH rs2 addr) a s.
Proof.
  intros Hd Hb Hi. destruct (zcb_sh_decode rs2 (base addr) (offset addr) Hd Hb Hi)
    as (Hw & HC & Ho & Hm & Dd & D1 & Di).
  set (w0 := cs_word _ _ _ _) in *.
  apply (implements_16 w0); [done..|]. run_parcel w0 Ho. rewrite Hm, Dd, D1, Di.
  repeat switch_step. by apply store_retire.
Qed.

End Compressed.
