(* ===== verification/RiscvJumps.v ===== *)
(** * Executing branches and jumps

    What the simulator does on the instructions that labels patch: a branch is
    taken when its condition holds, and a taken branch continues at its distance
    from the instruction.  A far jump is two instructions and changes the
    register reserved for it. *)

From S2P Require Import Prelude Utils RiscvConstants RiscvEncoding RiscvAssembler RiscvLabels.
From S2P Require Import SimMemory RiscvSimulator RiscvArith RiscvIsa RiscvDecode RiscvInterpret.
From S2P Require Import RiscvTables RiscvBranches RiscvCompressed.

Section Jumps.
Context {M : Type} `{MemoryOps M}.
Implicit Types s : Simulator M.

(** [n] rounds of the simulator. *)
Fixpoint steps (n : nat) s : sim_result (Simulator M) :=
  match n with
  | O => Ok s
  | S n => s ← step s; steps n s
  end.

Lemma steps_app n m s s' : steps n s = Ok s' -> steps (n + m) s = steps m s'.
Proof.
  revert s. induction n as [|n IH]; intros s E; cbn [steps Nat.add] in *; [by simplify_eq|].
  apply bind_Ok_inv in E as (s1 & -> & E). by apply IH.
Qed.

(** [s'] is [s] at [pc], up to the registers [rs] and the instruction count. *)
Record moved (rs : list Z) (pc : Z) s s' : Prop := {
  moved_pc : pc_ s' = pc;
  moved_regs : forall r, is_u 5 r -> r ∉ rs -> get_xreg r s' = get_xreg r s;
  moved_memory : memory_ s' = memory_ s;
  moved_fregs : fregs_ s' = fregs_ s /\ fcsr_ s' = fcsr_ s;
  moved_reserved : reserved_address_ s' = reserved_address_ s /\
    reserved_value_ s' = reserved_value_ s;
  moved_random : random_ s' = random_ s /\ weak_failures s' = weak_failures s;
  moved_wf : sim_wf s'
}.

Lemma moved_trans rs1 rs2 pc1 pc2 s s1 s2 :
  moved rs1 pc1 s s1 -> moved rs2 pc2 s1 s2 -> moved (rs1 ++ rs2) pc2 s s2.
Proof.
  intros [Ep Er Em [] [] [] Ew] [Fp Fr Fm [] [] [] Fw].
  split; [done| |congruence|split; congruence..|done].
  intros r Hu Hn. rewrite elem_of_app in Hn. rewrite Fr, Er by tauto. done.
Qed.

Lemma count_pc_wf pc s : sim_wf s -> is_u 64 pc -> sim_wf (count (set_pc pc s)).
Proof. intros [] ?. by split. Qed.

Lemma moved_set_pc pc s : sim_wf s -> is_u 64 pc -> moved [] pc s (count (set_pc pc s)).
Proof. intros. split; try done. by apply count_pc_wf. Qed.

Lemma moved_set_xreg rd v pc s :
  sim_wf s -> is_u 5 rd -> is_u 64 pc ->
  moved [rd] pc s (count (set_pc pc (set_xreg rd v s))).
Proof.
  intros Hs Hd Hp. split; try (unfold set_xreg; by destruct (rd =? Register.ZR)).
  - intros r Hr Hn. change (get_xreg r (set_xreg rd v s) = get_xreg r s).
    rewrite get_set_xreg by done. destruct (r =? rd) eqn:E; [|done]. reflect_bool. set_solver.
  - apply count_pc_wf; [by apply set_xreg_wf|done].
Qed.

(** ** The interpreter on branch instructions *)

Lemma interpret_branch op w s :
  DecodeOpcode w = Opcode.BRANCH -> DecodeFunct3 w = bop_code op ->
  Interpret w s
  = Ok (add_pc (if bop_sem op (get_xreg (DecodeRs1 w) s) (get_xreg (DecodeRs2 w) s)
                then DecodeBTypeImm w else 4) s).
Proof.
  intros Ho H3. unfold Interpret. cbv zeta. rewrite Ho. repeat switch_step.
  unfold InterpretBRANCH, branch_if. cbv zeta. rewrite H3.
  destruct op; cbn [bop_code bop_sem]; repeat switch_step; unfold kInstrSize;
    rewrite ?Z.leb_antisym; by case_match.
Qed.

Lemma interpret_jal w s :
  DecodeOpcode w = Opcode.JAL ->
  Interpret w s = Ok (add_pc (DecodeJTypeImm w) (set_xreg (DecodeRd w) (pc_ s + 4) s)).
Proof.
  intros Ho. unfold Interpret. cbv zeta. rewrite Ho. repeat switch_step.
  unfold InterpretJAL, add_pc, sign_extend, kInstrSize. cbv zeta. do 2 f_equal.
  by rewrite <- uwrap_add_r, uwrap_swrap, uwrap_add_r.
Qed.

(** ** The jumps *)

Definition taken (x : jump) s : bool :=
  match x with
  | CBranch z r => if z then get_xreg r s =? 0 else negb (get_xreg r s =? 0)
  | Cond op rs1 rs2 => bop_sem op (get_xreg rs1 s) (get_xreg rs2 s)
  | _ => true
  end.

(** The registers a jump changes. *)
Definition clobbers (x : jump) : list Z :=
  match x with Jal rd => [rd] | Far => [Register.FAR_TMP] | _ => [] end.

(** Where a jump over [off] bytes continues. *)
Definition continues (x : jump) (off : Z) s : Z :=
  u64 (pc_ s + (if taken x s then off else Z.of_nat (jump_size x))).

Lemma step_cbranch z r off s :
  sim_wf s -> jump_ok (CBranch z r) -> reaches cb off -> loaded (encode (CBranch z r) off) s ->
  exists s', step s = Ok s' /\ moved [] (continues (CBranch z r) off s) s s'.
Proof.
  intros Hs Hr [Hf _] Hl. cbn [encode] in Hl.
  destruct (cb_word_fields (cb_op z) r off) as (Hw & HC & Ho & Dr & Di);
    [by destruct z; auto|done..|].
  rewrite uwrap_small in Hl by done. rewrite (step_16 _ _ Hw HC Hl). clear Hl.
  set (w := cb_word (cb_op z) r off) in *. clearbody w.
  eexists. split; [|apply (moved_set_pc (continues (CBranch z r) off s)); [done|]].
  2: { by apply uwrap_range. }
  unfold InterpretC, continues. cbv zeta. rewrite Ho, Dr, Di. unfold cb_op.
  destruct z; repeat switch_step; cbn [taken jump_size]; unfold next_c, kCInstrSize;
    destruct (get_xreg r s =? 0); done.
Qed.

Lemma interpret_cj w s :
  w .& COpcode.C_OP_MASK = COpcode.C_J ->
  InterpretC w s = Ok (add_pc (sign_extend 32 (DecodeCJImm w)) s).
Proof. intros Ho. unfold InterpretC. cbv zeta. rewrite Ho. repeat switch_step. reflexivity. Qed.

Lemma step_cjump off s :
  sim_wf s -> reaches cj off -> loaded (encode CJump off) s ->
  exists s', step s = Ok s' /\ moved [] (continues CJump off s) s s'.
Proof.
  intros Hs [Hf _] Hl. cbn [encode] in Hl.
  destruct (cj_word_fields off) as (Hw & HC & Ho & Di); [done|].
  rewrite uwrap_small in Hl by done. rewrite (step_16 _ _ Hw HC Hl).
  rewrite interpret_cj by done. rewrite Di. unfold sign_extend.
  rewrite (swrap_small 32); [|lia|apply IsCJImm_range in Hf; unfold is_s; lia].
  eexists. split; [reflexivity|]. apply moved_set_pc; [done|]. by apply uwrap_range.
Qed.

Lemma step_cond op rs1 rs2 off s :
  sim_wf s -> jump_ok (Cond op rs1 rs2) -> reaches b off -> loaded (encode (Cond op rs1 rs2) off) s ->
  exists s', step s = Ok s' /\ moved [] (continues (Cond op rs1 rs2) off s) s s'.
Proof.
  intros Hs [H1 H2] [Hf _] Hl. cbn [encode] in Hl.
  destruct (btype_word_fields rs2 rs1 (bop_code op) Opcode.BRANCH off)
    as (Hw & Do & D3 & D1 & D2 & Di); [done|done|by destruct op|done|].
  rewrite uwrap_small in Hl by done. rewrite (step_32 _ _ Hw) by (done || by rewrite Do).
  rewrite (interpret_branch op) by done. rewrite D1, D2, (Di Hf).
  eexists. split; [done|]. apply moved_set_pc; [done|]. by apply uwrap_range.
Qed.

Lemma step_jal rd off s :
  sim_wf s -> is_u 5 rd -> reaches j off -> loaded (encode (Jal rd) off) s ->
  exists s', step s = Ok s' /\ moved [rd] (continues (Jal rd) off s) s s' /\
    (rd <> Register.ZR -> get_xreg rd s' = u64 (pc_ s + 4)).
Proof.
  intros Hs Hd [Hf _] Hl. cbn [encode] in Hl.
  destruct (jtype_word_fields rd Opcode.JAL off) as (Hw & Do & Dd & Di); [done|done|].
  rewrite uwrap_small in Hl by done. rewrite (step_32 _ _ Hw) by (done || by rewrite Do).
  rewrite interpret_jal by done. rewrite Dd, (Di Hf). cbn [mbind result_bind].
  eexists. split; [done|]. unfold add_pc. rewrite pc_set_xreg. split.
  - apply moved_set_xreg; [done..|]. by apply uwrap_range.
  - intros Hn. change (get_xreg rd (set_xreg rd (pc_ s + 4) s) = u64 (pc_ s + 4)).
    rewrite get_set_xreg by done. rewrite Z.eqb_refl, (proj2 (Z.eqb_neq _ _)) by done. done.
Qed.

(** The two rounds of a far jump. *)
Lemma steps_far off s :
  sim_wf s -> reaches far off -> pc_ s + 8 <= 2 ^ 64 -> loaded (encode Far off) s ->
  exists s', steps 2 s = Ok s' /\ moved [Register.FAR_TMP] (continues Far off s) s s'.
Proof.
  intros Hs [_ Hr] Hpc Hl. unfold loaded in Hl. cbn [encode] in Hl.
  apply code_at_app in Hl as [Hl1 Hl2]. rewrite le_length in Hl2 by lia.
  change (Z.of_nat (Z.to_nat 4)) with 4 in Hl2.
  destruct (utype_word_decode Register.FAR_TMP Opcode.AUIPC ltac:(done) ltac:(done) (ImmHi off))
    as (Hw1 & Do1 & Dd1 & Du); [apply ImmHi_IsUTypeImm|].
  destruct (itype_word_fields Register.FAR_TMP Funct3.F3_0 Register.ZR Opcode.JALR
    ltac:(done) ltac:(done) ltac:(done) ltac:(done) (ImmLo off)) as (Hw2 & Do2 & _ & Dd2 & D12 & _).
  pose proof (itype_word_decode Register.FAR_TMP Funct3.F3_0 Register.ZR Opcode.JALR
    ltac:(done) ltac:(done) ltac:(done) ltac:(done) (ImmLo off) (ImmLo_IsITypeImm off)) as Di.
  rewrite uwrap_small in Hl1 by done. rewrite uwrap_small in Hl2 by done.
  set (w1 := utype_word _ _ _) in *. set (w2 := itype_word _ _ _ _ _) in *.
  clearbody w1 w2. cbn [steps].
  rewrite (step_32 w1) by (done || by rewrite Do1).
  rewrite interpret_auipc by done. rewrite Dd1, Du. cbn [mbind result_bind].
  unfold add_pc. rewrite pc_set_xreg.
  set (s1 := count (set_pc (u64 (pc_ s + 4)) (set_xreg Register.FAR_TMP (pc_ s + ImmHi off) s))).
  assert (Hm1 : moved [Register.FAR_TMP] (u64 (pc_ s + 4)) s s1).
  { apply moved_set_xreg; [done..|]. by apply uwrap_range. }
  assert (Hpc1 : pc_ s1 = pc_ s + 4).
  { rewrite (moved_pc _ _ _ _ Hm1). apply uwrap_small. pose proof (wf_pc _ Hs). unfold is_u in *. lia. }
  assert (Hl2' : loaded (Z_to_little_endian 4 8 w2) s1).
  { unfold loaded. by rewrite (moved_memory _ _ _ _ Hm1), Hpc1. }
  rewrite (step_32 w2) by (done || by rewrite Do2).
  rewrite interpret_jalr by done. rewrite Dd2, D12, Di. cbn [mbind result_bind].
  eexists. split; [done|]. apply (moved_trans [Register.FAR_TMP] [] (u64 (pc_ s + 4)) _ s s1); [done|].
  unfold continues. cbn [taken].
  assert (get_xreg Register.FAR_TMP s1 = u64 (pc_ s + ImmHi off)) as ->.
  { change (get_xreg Register.FAR_TMP (set_xreg Register.FAR_TMP (pc_ s + ImmHi off) s)
      = u64 (pc_ s + ImmHi off)). by rewrite get_set_xreg. }
  rewrite uwrap_add_l, <- Z.add_assoc, ImmHi_ImmLo by done.
  apply moved_set_pc; [apply Hm1|]. by apply uwrap_range.
Qed.

(** The rounds a jump takes. *)
Definition rounds (x : jump) : nat := match x with Far => 2 | _ => 1 end.

(** Every jump goes where its distance says. *)
Lemma jump_executes x off s :
  sim_wf s -> jump_ok x -> reaches (klass_of x) off -> pc_ s + 8 <= 2 ^ 64 ->
  loaded (encode x off) s ->
  exists s', steps (rounds x) s = Ok s' /\ moved (clobbers x) (continues x off s) s s' /\
    (forall rd, x = Jal rd -> rd <> Register.ZR -> get_xreg rd s' = u64 (pc_ s + 4)).
Proof.
  intros Hs Hx Hr Hpc Hl. destruct x; cbn [klass_of clobbers rounds steps] in *.
  - destruct (step_cbranch zero rs1p off s) as (s' & E & Hm); [done..|]. rewrite E. by exists s'.
  - destruct (step_cjump off s) as (s' & E & Hm); [done..|]. rewrite E. by exists s'.
  - destruct (step_cond op rs1 rs2 off s) as (s' & E & Hm); [done..|]. rewrite E. by exists s'.
  - destruct (step_jal rd off s) as (s' & E & Hm & Hv); [done..|]. rewrite E.
    exists s'. split_and!; [done..|]. intros rd' [= <-]. done.
  - destruct (steps_far off s) as (s' & E & Hm); [done..|]. by exists s'.
Qed.
End Jumps.
