(* ===== verification/RiscvCorrect.v ===== *)
(** * The assembler and the simulator agree

    The end-to-end theorems of the RISC-V stack: for every integer instruction,
    in whatever encoding the assembler chooses, the bytes it emits make the
    simulator take the step the abstract RISC-V specifies; and so do straight-line
    programs, called the way the runtime calls generated code. *)

From S2P Require Import Prelude Utils RiscvConstants RiscvEncoding RiscvAssembler.
From S2P Require Import SimMemory RiscvSimulator RiscvArith RiscvIsa RiscvDecode.
From S2P Require Import RiscvInterpret RiscvTables RiscvCompressed.

#[local] Opaque Arith.clz Arith.ctz Arith.cpop Arith.clzw Arith.ctzw Arith.cpopw
  Arith.clmul Arith.clmulh Arith.clmulr Arith.orcb Arith.rev8
  clz_spec ctz_spec cpop_spec clprod word_of_bytes.

(** ** The operands of an instruction *)

Definition is_reg (r : Z) : bool := (0 <=? r) && (r <? 32).

(** What the assertions of the assembler require of the operands, together with
    the operands that its compressed encodings do not support: [add] with [x0]
    into one of its operands is encoded as a jump, [lui] of zero as a reserved
    instruction.  [c] says whether the C extension is enabled. *)
Definition encodable (c : bool) (i : instruction) : bool :=
  match i with
  | Reg op rd rs1 rs2 =>
      is_reg rd && is_reg rs1 && is_reg rs2 &&
      match op with
      | ADD => negb (c && ((rd =? rs1) && (rs2 =? 0) || (rd =? rs2) && (rs1 =? 0)))
      | _ => true
      end
  | Imm op rd rs1 imm => is_reg rd && is_reg rs1 && IsITypeImm imm
  | Shift op rd rs1 n => is_reg rd && is_reg rs1 && (0 <=? n) && (n <? shop_limit op)
  | Unary op rd rs1 => is_reg rd && is_reg rs1
  | Lui rd imm => is_reg rd && IsUTypeImm imm && negb (c && (imm =? 0))
  | Auipc rd imm => is_reg rd && IsUTypeImm imm
  | Jalr rd rs1 imm => is_reg rd && is_reg rs1 && IsITypeImm imm
  | Load op rd addr => is_reg rd && is_reg (base addr) && IsITypeImm (offset addr)
  | Store op rs2 addr => is_reg rs2 && is_reg (base addr) && IsSTypeImm (offset addr)
  end.

Lemma is_reg_spec r : is_reg r = true <-> is_u 5 r.
Proof. unfold is_reg, is_u. rewrite andb_true_iff, Z.leb_le, Z.ltb_lt. lia. Qed.

Section Correct.
Context {M : Type} `{MemoryOps M}.
Implicit Types s : Simulator M.

(** Exchanging the operands of a commutative operation. *)
Definition commutes (op : rop) : bool :=
  match op with ADD | XOR | OR | AND | ADDW | MUL => true | _ => false end.

Lemma rop_sem_comm op x y : commutes op = true -> rop_sem op x y = rop_sem op y x.
Proof.
  destruct op; try discriminate; intros _; cbn [rop_sem];
    first [lia | apply Z.lxor_comm | apply Z.lor_comm | apply Z.land_comm
          | by rewrite Z.add_comm].
Qed.

Lemma implements_comm op f rd rs1 rs2 a s :
  commutes op = true -> implements f (Reg op rd rs2 rs1) a s ->
  implements f (Reg op rd rs1 rs2) a s.
Proof.
  unfold implements. intros Hc Hi Hl. rewrite Hi by done. cbn [exec].
  by rewrite (rop_sem_comm op _ _ Hc).
Qed.


(** Splits a method into the encodings it chooses between. *)
Ltac encodings method :=
  unfold implements; unfold method;
  repeat match goal with
  | |- context [ if ?c then _ else _ ] => let E := fresh "E" in destruct c eqn:E
  end;
  lazymatch goal with
  | |- loaded (emitted ?a (?f ?a)) ?s -> _ = exec ?i _ _ =>
      change (implements f i a s)
  end; reflect_bool; subst.

(** A method that has one encoding only. *)
Ltac one_encoding lem :=
  lazymatch goal with
  | |- implements ?f ?i ?a ?s =>
      let t := eval red in (f a) in
      lazymatch t with
      | Asm.EmitRType ?x1 ?x2 ?x3 ?x4 ?x5 ?x6 _ =>
          change (implements (Asm.EmitRType x1 x2 x3 x4 x5 x6) i a s)
      | Asm.EmitRTypeShamt ?x1 ?x2 ?x3 ?x4 ?x5 ?x6 _ =>
          change (implements (Asm.EmitRTypeShamt x1 x2 x3 x4 x5 x6) i a s)
      | Asm.EmitIType ?x1 ?x2 ?x3 ?x4 ?x5 _ =>
          change (implements (Asm.EmitIType x1 x2 x3 x4 x5) i a s)
      end; eapply lem; done
  end.

(** The 32-bit encoding among several. *)
Ltac one_leaf lem :=
  lazymatch goal with
  | |- implements (Asm.EmitRType _ _ _ _ _ _) _ _ _ => idtac
  | |- implements (Asm.EmitRTypeShamt _ _ _ _ _ _) _ _ _ => idtac
  | |- implements (Asm.EmitIType _ _ _ _ _) _ _ _ => idtac
  | |- implements (Asm.EmitSType _ _ _ _ _) _ _ _ => idtac
  end; eapply lem; done.

Lemma reg_implements op rd rs1 rs2 a s :
  sim_wf s -> is_u 5 rd -> is_u 5 rs1 -> is_u 5 rs2 ->
  (op = ADD -> Asm.Supports a Extension.RV_C = true ->
    (rd = rs1 -> rs2 <> 0) /\ (rd = rs2 -> rs1 <> 0)) ->
  implements (assemble (Reg op rd rs1 rs2)) (Reg op rd rs1 rs2) a s.
Proof.
  intros Hs Hd H1 H2 Hadd. cbn [assemble].
  destruct op; cbn [assemble_rop]; try one_encoding rtype_implements.
  - specialize (Hadd eq_refl). encodings Asm.add; try one_leaf rtype_implements.
    + destruct (Hadd eq_refl) as [N _]. apply c_add_implements; auto.
    + destruct (Hadd eq_refl) as [_ N]. apply implements_comm; [done|].
      apply c_add_implements; auto.
  - encodings Asm.sub; try one_leaf rtype_implements.
    by apply (c_rr_implements SUB).
  - encodings Asm.xor_; try one_leaf rtype_implements.
    + by apply (c_rr_implements XOR).
    + apply implements_comm; [done|]. by apply (c_rr_implements XOR).
  - encodings Asm.or_; try one_leaf rtype_implements.
    + by apply (c_rr_implements OR).
    + apply implements_comm; [done|]. by apply (c_rr_implements OR).
  - encodings Asm.and_; try one_leaf rtype_implements.
    + by apply (c_rr_implements AND).
    + apply implements_comm; [done|]. by apply (c_rr_implements AND).
  - encodings Asm.addw; try one_leaf rtype_implements.
    + by apply (c_rr_implements ADDW).
    + apply implements_comm; [done|]. by apply (c_rr_implements ADDW).
  - encodings Asm.subw; try one_leaf rtype_implements.
    by apply (c_rr_implements SUBW).
  - encodings Asm.mul; try one_leaf rtype_implements.
    + by apply (c_rr_implements MUL).
    + apply implements_comm; [done|]. by apply (c_rr_implements MUL).
  - encodings Asm.adduw; try one_leaf rtype_implements.
    by apply c_zextw_implements.
Qed.

Lemma imm_implements op rd rs1 imm a s :
  sim_wf s -> is_u 5 rd -> is_u 5 rs1 -> IsITypeImm imm = true ->
  implements (assemble (Imm op rd rs1 imm)) (Imm op rd rs1 imm) a s.
Proof.
  intros Hs Hd H1 Hi. cbn [assemble].
  destruct op; cbn [assemble_iop]; try one_encoding itype_implements.
  - encodings Asm.addi; try one_leaf itype_implements.
    + apply c_li_implements; auto.
    + by apply c_addi_implements.
    + by apply c_addi16sp_implements.
    + by apply c_addi4spn_implements.
    + apply c_nop_implements.
    + by apply c_mv_implements.
  - encodings Asm.xori; try one_leaf itype_implements. by apply c_not_implements.
  - encodings Asm.andi; try one_leaf itype_implements.
    + by apply c_andi_implements.
    + by apply c_zextb_implements.
  - encodings Asm.addiw; try one_leaf itype_implements.
    + apply c_li_implements; auto.
    + by apply c_addiw_implements.
Qed.

Lemma shift_implements op rd rs1 n a s :
  sim_wf s -> is_u 5 rd -> is_u 5 rs1 -> 0 <= n < shop_limit op ->
  implements (assemble (Shift op rd rs1 n)) (Shift op rd rs1 n) a s.
Proof.
  intros Hs Hd H1 Hn. cbn [assemble].
  destruct op; cbn [assemble_shop shop_limit] in *; try one_encoding shamt_implements.
  - encodings Asm.slli; try one_leaf shamt_implements. by apply c_slli_implements.
  - encodings Asm.srli; try one_leaf shamt_implements. by apply c_srli_implements.
  - encodings Asm.srai; try one_leaf shamt_implements. by apply c_srai_implements.
Qed.

Lemma unary_op_implements op rd rs1 a s :
  sim_wf s -> is_u 5 rd -> is_u 5 rs1 ->
  implements (assemble (Unary op rd rs1)) (Unary op rd rs1) a s.
Proof.
  intros Hs Hd H1. cbn [assemble].
  destruct op; cbn [assemble_uop]; try one_encoding unary_implements.
  - encodings Asm.sextb; try one_leaf unary_implements. by apply c_sextb_implements.
  - encodings Asm.sexth; try one_leaf unary_implements. by apply c_sexth_implements.
  - encodings Asm.zexth; try one_leaf unary_implements. by apply c_zexth_implements.
Qed.

Lemma load_op_implements op rd addr a s :
  is_u 5 rd -> is_u 5 (base addr) -> IsITypeImm (offset addr) = true ->
  implements (assemble (Load op rd addr)) (Load op rd addr) a s.
Proof.
  intros Hd H1 Hi. cbn [assemble]. destruct op; cbn [assemble_lop].
  - one_encoding (load_implements LB).
  - encodings Asm.lh; try one_leaf (load_implements LH). by apply c_lh_implements.
  - encodings Asm.lw; try one_leaf (load_implements LW).
    + by apply c_lwsp_implements.
    + by apply c_lw_implements.
  - encodings Asm.lbu; try one_leaf (load_implements LBU). by apply c_lbu_implements.
  - encodings Asm.lhu; try one_leaf (load_implements LHU). by apply c_lhu_implements.
  - one_encoding (load_implements LWU).
  - encodings Asm.ld; try one_leaf (load_implements LD).
    + by apply c_ldsp_implements.
    + by apply c_ld_implements.
Qed.

Lemma store_op_implements op rs2 addr a s :
  is_u 5 rs2 -> is_u 5 (base addr) -> IsSTypeImm (offset addr) = true ->
  implements (assemble (Store op rs2 addr)) (Store op rs2 addr) a s.
Proof.
  intros Hd H1 Hi. cbn [assemble]. destruct op; cbn [assemble_sop].
  - encodings Asm.sb; try one_leaf (store_implements SB). by apply c_sb_implements.
  - encodings Asm.sh; try one_leaf (store_implements SH). by apply c_sh_implements.
  - encodings Asm.sw; try one_leaf (store_implements SW).
    + by apply c_swsp_implements.
    + by apply c_sw_implements.
  - encodings Asm.sd; try one_leaf (store_implements SD).
    + by apply c_sdsp_implements.
    + by apply c_sd_implements.
Qed.

(** Upper immediates and indirect jumps. *)
Lemma upper_implements rd imm a s f opc :
  is_u 5 rd -> IsUTypeImm imm = true ->
  (f = Lui /\ opc = Opcode.LUI \/ f = Auipc /\ opc = Opcode.AUIPC) ->
  implements (Asm.EmitUType imm rd opc) (f rd imm) a s.
Proof.
  intros Hd Hi Hf.
  assert (is_u 7 opc /\ field opc 0 2 = 3) as [Ro Hl] by (destruct Hf as [[_ ->]|[_ ->]]; done).
  destruct (utype_word_decode rd opc Hd Ro imm Hi) as (Hw & Do & Dd & Di).
  apply (implements_32 (utype_word imm rd opc)); [done|by rewrite Do|].
  destruct Hf as [[-> ->]|[-> ->]].
  - by rewrite interpret_lui, Dd, Di.
  - by rewrite interpret_auipc, Dd, Di.
Qed.

Lemma lui_implements rd imm a s :
  is_u 5 rd -> IsUTypeImm imm = true ->
  (Asm.Supports a Extension.RV_C = true -> imm <> 0) ->
  implements (assemble (Lui rd imm)) (Lui rd imm) a s.
Proof.
  intros Hd Hi Hc. cbn [assemble]. encodings Asm.lui.
  - apply c_lui_implements; auto.
  - apply upper_implements; auto.
Qed.

(** The target of a jump is even. *)
Definition even_target (rs1 imm : Z) s : Prop :=
  Z.testbit (u64 (get_xreg rs1 s + imm)) 0 = false.

Lemma jalr_implements rd rs1 imm a s :
  sim_wf s -> is_u 5 rd -> is_u 5 rs1 -> IsITypeImm imm = true -> even_target rs1 imm s ->
  implements (assemble (Jalr rd rs1 imm)) (Jalr rd rs1 imm) a s.
Proof.
  intros Hs Hd H1 Hi He.
  assert (Hfixed : implements (Asm.EmitIType imm rs1 Funct3.F3_0 rd Opcode.JALR)
                     (Jalr rd rs1 imm) a s).
  { assert (R3 : is_u 3 Funct3.F3_0) by done. assert (Ro : is_u 7 Opcode.JALR) by done.
    destruct (itype_word_fields _ _ _ _ H1 R3 Hd Ro imm) as (Hw & Do & D3 & Dd & D1 & _).
    pose proof (itype_word_decode _ _ _ _ H1 R3 Hd Ro _ Hi) as Di.
    apply (implements_32 (itype_word imm rs1 Funct3.F3_0 rd Opcode.JALR));
      [done|by rewrite Do|].
    rewrite interpret_jalr by done. rewrite Dd, D1, Di. cbn [exec].
    by rewrite clearbit_even. }
  assert (He0 : imm = 0 -> Z.testbit (get_xreg rs1 s) 0 = false).
  { intros ->. unfold even_target in He. rewrite Z.add_0_r, uwrap_small in He; [done|].
    by apply get_xreg_range. }
  cbn [assemble]. encodings Asm.jalr; try done.
  - apply c_jr_implements; auto.
  - apply c_jalr_implements; auto.
Qed.

(** One instruction. *)
Definition target_ok (i : instruction) s : Prop :=
  match i with Jalr _ rs1 imm => even_target rs1 imm s | _ => True end.

Lemma instruction_implements i a s :
  sim_wf s -> encodable (Asm.Supports a Extension.RV_C) i = true -> target_ok i s ->
  implements (assemble i) i a s.
Proof.
  intros Hs He Ht. unfold target_ok in Ht.
  destruct i; cbn [encodable] in He; reflect_bool;
    repeat match goal with H : is_reg _ = true |- _ => apply is_reg_spec in H end.
  - apply reg_implements; [done..|]. intros -> Hc. rewrite Hc in *.
    match goal with H : negb _ = true |- _ => rename H into Hx end.
    split; intros -> ->; rewrite !Z.eqb_refl in Hx; cbn in Hx;
      [|rewrite orb_true_r in Hx]; discriminate.
  - by apply imm_implements.
  - by apply shift_implements.
  - by apply unary_op_implements.
  - apply lui_implements; [done..|]. intros Hc ->. rewrite Hc in *. done.
  - apply upper_implements; auto.
  - by apply jalr_implements.
  - by apply load_op_implements.
  - by apply store_op_implements.
Qed.
End Correct.

(** ** What a method emits *)

(** A method appends one instruction, of 16 or 32 bits. *)
Definition one_instruction (f : MicroAssembler -> MicroAssembler) (a : MicroAssembler) : Prop :=
  exists w, f a = Asm.Emit32 w a \/
    f a = Asm.Emit16 w a /\
    (Asm.Supports a Extension.RV_C || Asm.Supports a Extension.RV_Zcb) = true.

Ltac one_instruction method :=
  unfold one_instruction; unfold method;
  repeat match goal with
  | |- context [ if ?c then _ else _ ] => let E := fresh "E" in destruct c eqn:E
  end;
  unfold Asm.EmitRType, Asm.EmitRTypeShamt, Asm.EmitIType, Asm.EmitSType, Asm.EmitUType;
  lazymatch goal with
  | |- exists _, Asm.Emit32 ?w _ = _ \/ _ => exists w; left; reflexivity
  | |- _ => reflect_bool; eexists; right; split; [reflexivity|];
      try (match goal with H : Asm.Supports _ _ = true |- _ => rewrite H end);
      by rewrite ?orb_true_r
  end.

Lemma assemble_one i a : one_instruction (assemble i) a.
Proof.
  destruct i; cbn [assemble];
    try (destruct op; cbn [assemble_rop assemble_iop assemble_shop assemble_uop
      assemble_lop assemble_sop]);
    lazymatch goal with |- one_instruction ?f _ =>
      let rec head t := lazymatch t with ?g _ => head g | _ => t end in
      let h := head f in one_instruction h
    end.
Qed.

Lemma one_instruction_buffer f a :
  one_instruction f a ->
  buffer_ (f a) = buffer_ a ++ emitted a (f a) /\
  extensions_ (f a) = extensions_ a /\
  (length (emitted a (f a)) = 4%nat \/
   length (emitted a (f a)) = 2%nat /\
   (Asm.Supports a Extension.RV_C || Asm.Supports a Extension.RV_Zcb) = true).
Proof.
  intros (w & [E|[E HC]]); rewrite E; unfold emitted, Asm.Emit16, Asm.Emit32;
    cbn [buffer_ set_buffer extensions_]; rewrite drop_app_length;
    rewrite ?le2_length, ?le4_length; auto.
Qed.

(** ** Straight-line programs *)

Definition assemble_all (prog : list instruction) (a : MicroAssembler) : MicroAssembler :=
  fold_left (fun a i => assemble i a) prog a.

(** The bytes of the instructions [is] assembled after [a]. *)
Definition code (prog : list instruction) (a : MicroAssembler) : list Z :=
  emitted a (assemble_all prog a).

Lemma code_cons i prog a :
  buffer_ (assemble_all (i :: prog) a) = buffer_ a ++ code (i :: prog) a /\
  code (i :: prog) a = code [i] a ++ code prog (assemble i a).
Proof.
  assert (Happ : forall prog a, buffer_ (assemble_all prog a) = buffer_ a ++ code prog a).
  { clear. induction prog as [|i prog IH]; intros a; unfold code, emitted in *.
    - cbn. by rewrite drop_all, app_nil_r.
    - cbn [assemble_all fold_left] in *.
      destruct (one_instruction_buffer _ _ (assemble_one i a)) as (E & _ & _).
      specialize (IH (assemble i a)). unfold assemble_all in IH.
      rewrite E in IH. rewrite IH, <- app_assoc, drop_app_length. done. }
  split; [apply Happ|].
  pose proof (Happ (i :: prog) a) as E1. pose proof (Happ prog (assemble i a)) as E2.
  pose proof (Happ [i] a) as E3. cbn [assemble_all fold_left] in E1, E2, E3.
  unfold assemble_all in *. cbn [fold_left] in *. rewrite E2, E3, <- app_assoc in E1.
  by apply app_inv_head in E1.
Qed.

Lemma code_one i a : code [i] a = emitted a (assemble i a).
Proof. done. Qed.

Lemma supports_assemble i a : Asm.Supports (assemble i a) = Asm.Supports a.
Proof.
  unfold Asm.Supports. by destruct (one_instruction_buffer _ _ (assemble_one i a)) as (_ & -> & _).
Qed.

Section Programs.
Implicit Types s : Simulator host.

(** The bytes an instruction occupies when it is assembled after [a]. *)
Definition size_of (i : instruction) (a : MicroAssembler) : Z :=
  Z.of_nat (length (emitted a (assemble i a))).

Fixpoint exec_all (a : MicroAssembler) (prog : list instruction) s
    : sim_result (Simulator host) :=
  match prog with
  | [] => Ok s
  | i :: prog => s ← exec i (size_of i a) s; exec_all (assemble i a) prog s
  end.

(** The stores of the program are outside of the addresses from [lo] to [hi]. *)
Fixpoint stores_avoid (lo hi : Z) (a : MicroAssembler) (prog : list instruction) s : Prop :=
  match prog with
  | [] => True
  | i :: prog =>
      match i with
      | Store op _ addr => address addr s + ct_sizeof (sop_type op) <= lo
                           \/ hi <= address addr s
      | _ => True
      end /\
      match exec i (size_of i a) s with
      | Ok s => stores_avoid lo hi (assemble i a) prog s
      | Err _ => True
      end
  end.

Definition straight (i : instruction) : bool :=
  match i with Jalr _ _ _ => false | _ => true end.

Lemma count_wf s : sim_wf s -> sim_wf (count s).
Proof. intros []. by split. Qed.
Lemma set_memory_wf m s : sim_wf s -> sim_wf (set_memory m s).
Proof. intros []. by split. Qed.
Lemma add_pc_wf d s : sim_wf s -> sim_wf (add_pc d s).
Proof. intros []. split; cbn; try done. by apply uwrap_range. Qed.

(** The frame of a straight instruction: where it continues and what it leaves. *)
Lemma exec_frame i len s s' :
  straight i = true -> (exists c, encodable c i = true) -> sim_wf s ->
  exec i len s = Ok s' ->
  sim_wf s' /\ pc_ s' = u64 (pc_ s + len) /\
  match i with
  | Store op rs2 addr =>
      host_store (sop_type op) (address addr s)
        (uwrap (ct_bits (sop_type op)) (get_xreg rs2 s)) (memory_ s) = Ok (memory_ s')
  | _ => memory_ s' = memory_ s
  end.
Proof.
  intros Hst [c He] Hs Hx. unfold retire in *.
  destruct i; cbn [exec encodable straight] in *; try discriminate; reflect_bool;
    repeat match goal with H : is_reg _ = true |- _ => apply is_reg_spec in H end;
    try (injection Hx as <-; unfold retire; cbn [memory_ pc_ count add_pc set_instret set_pc];
         rewrite ?memory_set_xreg, ?pc_set_xreg; split_and!;
         [apply count_wf, add_pc_wf; auto with vm|done|done]).
  - cbn [mem_load direct_ops] in Hx. unfold Direct.Load in Hx.
    destruct (host_load _ _ _); cbn in Hx; [|discriminate].
    injection Hx as <-. unfold retire; cbn [memory_ pc_ count add_pc set_instret set_pc].
    rewrite ?memory_set_xreg, ?pc_set_xreg. split_and!; try done.
    apply count_wf, add_pc_wf, set_xreg_wf; [by apply set_memory_wf|done].
  - cbn [mem_store direct_ops] in Hx. unfold Direct.Store in Hx.
    destruct (host_store _ _ _ _) eqn:E; cbn in Hx; [|discriminate].
    injection Hx as <-. cbn. split_and!; try done.
    by apply count_wf, add_pc_wf, set_memory_wf.
Qed.

Lemma host_store_frame T addr v h h' lo bs :
  ct_ok T -> host_store T addr v h = Ok h' ->
  addr + ct_sizeof T <= lo \/ lo + Z.of_nat (length bs) <= addr ->
  code_at h lo bs -> code_at h' lo bs.
Proof.
  intros HT Hst Hd Hc i Hi. pose proof (ct_ok_sizeof T HT) as [_ Hs].
  destruct (mapped_dec h addr (ct_sizeof T)) as [Hm|(j & Hj & Hn)].
  - destruct (host_store_lookup T addr v h) as (h2 & E & Hl); [lia|done|].
    assert (h2 = h') as -> by congruence.
    rewrite Hl, decide_False by lia. by apply Hc.
  - destruct (host_store_fault T addr v h j) as [x E]; [done..|congruence].
Qed.

(** The code survives a step that does not store into it. *)
Lemma exec_keeps_code i len s s' lo bs :
  straight i = true -> (exists c, encodable c i = true) -> sim_wf s ->
  exec i len s = Ok s' ->
  (match i with
   | Store op _ addr => address addr s + ct_sizeof (sop_type op) <= lo
                        \/ lo + Z.of_nat (length bs) <= address addr s
   | _ => True
   end) ->
  code_at (memory_ s) lo bs -> code_at (memory_ s') lo bs.
Proof.
  intros Hst He Hs Hx Ha Hc. destruct (exec_frame _ _ _ _ Hst He Hs Hx) as (_ & _ & Hm).
  destruct i; try (by rewrite Hm).
  eapply host_store_frame; [|done..]. destruct op; unfold ct_ok; cbn; auto.
Qed.

Definition straight_line (a : MicroAssembler) (prog : list instruction) : bool :=
  forallb (fun i => straight i && encodable (Asm.Supports a Extension.RV_C) i) prog.

Lemma size_of_range i a : 2 <= size_of i a <= 4.
Proof.
  unfold size_of.
  destruct (one_instruction_buffer _ _ (assemble_one i a)) as (_ & _ & [-> | [-> _]]); lia.
Qed.

(** The loop of the simulator follows the program. *)
Lemma execute_straight_line lo hi tail n : forall prog a s,
  sim_wf s -> straight_line a prog = true ->
  code_at (memory_ s) (pc_ s) (code prog a ++ tail) ->
  lo <= pc_ s -> pc_ s + Z.of_nat (length (code prog a ++ tail)) <= hi ->
  pc_ s + Z.of_nat (length (code prog a)) <= kEndSimulatingPC ->
  stores_avoid lo hi a prog s ->
  ExecuteNoTrace (length prog + n) s = (s' ← exec_all a prog s; ExecuteNoTrace n s') /\
  forall s', exec_all a prog s = Ok s' ->
    sim_wf s' /\ pc_ s' = pc_ s + Z.of_nat (length (code prog a)) /\
    code_at (memory_ s') (pc_ s') tail.
Proof.
  induction prog as [|i prog IH]; intros a s Hs Hp Hc Hlo Hhi Hend Hst.
  { split; [done|]. intros s' [= <-]. split_and!; [done| |].
    - change (code [] a) with (drop (length (buffer_ a)) (buffer_ a)).
      rewrite drop_all. cbn. lia.
    - change (code [] a) with (drop (length (buffer_ a)) (buffer_ a)) in Hc.
      by rewrite drop_all in Hc. }
  destruct (code_cons i prog a) as [_ Ecode]. rewrite Ecode in *.
  rewrite code_one, !length_app, !Nat2Z.inj_add in *. fold (size_of i a) in *.
  pose proof (size_of_range i a) as Hsz.
  rewrite <- app_assoc in Hc. apply code_at_app in Hc as [Hc1 Hc2].
  fold (size_of i a) in Hc2.
  cbn [straight_line forallb] in Hp. apply andb_true_iff in Hp as [Hi Hp].
  apply andb_true_iff in Hi as [Hi He]. cbn [stores_avoid exec_all] in *.
  destruct Hst as [Hst1 Hst2].
  assert (Hstep : step s = exec i (size_of i a) s).
  { apply instruction_implements; [done..| |exact Hc1]. by destruct i. }
  cbn [length Nat.add ExecuteNoTrace].
  rewrite (proj2 (Z.eqb_neq (pc_ s) kEndSimulatingPC)) by lia. rewrite Hstep.
  destruct (exec i (size_of i a) s) as [s1|e] eqn:Hx; cbn [mbind result_bind]; [|done].
  destruct (exec_frame i _ s s1 Hi (ex_intro _ _ He) Hs Hx) as (Hs1 & Hpc & _).
  assert (Hpc1 : pc_ s1 = pc_ s + size_of i a).
  { rewrite Hpc. apply uwrap_small. pose proof (wf_pc _ Hs) as Hr. unfold is_u in *.
    assert (kEndSimulatingPC = 2 ^ 64 - 2) by done. lia. }
  rewrite <- Hpc1 in Hc2.
  destruct (IH (assemble i a) s1) as [IH1 IH2]; [done| | |lia| |lia|done|].
  - unfold straight_line. by rewrite supports_assemble.
  - eapply (exec_keeps_code i _ s s1); [done|by eexists|done..| |by rewrite Hpc1 in *].
    destruct i; try done. rewrite length_app, Nat2Z.inj_add. lia.
  - rewrite length_app, Nat2Z.inj_add. lia.
  - split; [exact IH1|]. intros s' Hx'. destruct (IH2 s' Hx') as (? & ? & ?).
    split_and!; [done|lia|done].
Qed.

Lemma set_xreg_zr v s : set_xreg Register.ZR v s = s.
Proof. done. Qed.

Definition ret : instruction := Jalr Register.ZR Register.RA 0.

(** The state in which the callee starts. *)
Definition enter (entry : Z) s : Simulator host :=
  set_xreg Register.RA kEndSimulatingPC (set_pc (u64 entry) s).

Lemma enter_wf entry s : sim_wf s -> sim_wf (enter entry s).
Proof.
  intros []. apply set_xreg_wf; [|done]. split; cbn; try done. by apply uwrap_range.
Qed.

Lemma code_snoc prog i a :
  code (prog ++ [i]) a = code prog a ++ code [i] (assemble_all prog a).
Proof.
  revert a. induction prog as [|j prog IH]; intros a.
  - unfold code at 2, emitted. cbn [app assemble_all fold_left]. by rewrite drop_all.
  - cbn [app]. destruct (code_cons j (prog ++ [i]) a) as [_ ->].
    destruct (code_cons j prog a) as [_ ->]. rewrite IH. by rewrite app_assoc.
Qed.

Lemma supports_assemble_all prog a :
  Asm.Supports (assemble_all prog a) = Asm.Supports a.
Proof.
  revert a. induction prog as [|i prog IH]; intros a; [done|].
  unfold assemble_all in *. cbn [fold_left]. by rewrite IH, supports_assemble.
Qed.

(** The return at the end of a function. *)
Lemma step_ret a s :
  sim_wf s -> get_xreg Register.RA s = kEndSimulatingPC ->
  code_at (memory_ s) (pc_ s) (code [ret] a) ->
  step s = Ok (count (set_pc kEndSimulatingPC s)).
Proof.
  intros Hs Hra Hc. assert (Ht : even_target Register.RA 0 s).
  { unfold even_target. by rewrite Hra. }
  change (loaded (emitted a (assemble ret a)) s) in Hc.
  assert (He : encodable (Asm.Supports a Extension.RV_C) ret = true) by done.
  rewrite (instruction_implements ret a s Hs He Ht Hc). cbn [exec ret].
  rewrite set_xreg_zr, Hra. done.
Qed.
End Programs.

(** ** The theorems *)

Section Claims.
Context {M : Type} `{MemoryOps M}.

(** C3: One instruction, end to end. The instructions are those of [instruction]: operations
    on registers and immediates, shifts, [lui], [auipc], [jalr], loads and stores; not
    mulw, rolw, rorw and roriw, whose simulation is undefined in C++ for some operands.
    Their registers and immediates are in range, and with RV_C they are neither [add rd,
    rd, x0] (or [add rd, x0, rd]) nor [lui rd, 0], which are encoded wrongly; the target
    of [jalr] is even, since the simulator does not clear its lowest bit. Whatever
    encoding [MicroAssembler] chooses for such an instruction, when the emitted bytes
    are at the program counter a round of the simulator's loop does what the
    instruction-set manual specifies, for any simulator memory. *)
Theorem assembled_instruction_executes i a (s : Simulator M) :
  sim_wf s ->
  encodable (Asm.Supports a Extension.RV_C) i = true ->
  target_ok i s ->
  loaded (emitted a (assemble i a)) s ->
  step s = exec i (Z.of_nat (length (emitted a (assemble i a)))) s.
Proof. intros Hs He Ht. by apply instruction_implements. Qed.
End Claims.

(** A method of the assembler appends exactly one instruction to what was
    emitted before: four bytes, or two bytes and then one of the extensions with
    compressed instructions is enabled; the extensions stay as they are. *)
Lemma assemble_appends_one_instruction i a :
  buffer_ (assemble i a) = buffer_ a ++ emitted a (assemble i a) /\
  extensions_ (assemble i a) = extensions_ a /\
  (length (emitted a (assemble i a)) = 4%nat \/
   length (emitted a (assemble i a)) = 2%nat /\
   (Asm.Supports a Extension.RV_C || Asm.Supports a Extension.RV_Zcb) = true).
Proof. apply one_instruction_buffer, assemble_one. Qed.

(** The state of [CallX] at the entry of the function. *)
Definition call_state (entry a0 a1 a2 a3 : Z) (s : Simulator host) : Simulator host :=
  enter entry (set_xreg Register.A3 a3 (set_xreg Register.A2 a2
    (set_xreg Register.A1 a1 (set_xreg Register.A0 a0 s)))).

Lemma flush_all_direct (s : Simulator host) : flush_all s = Ok s.
Proof. by destruct s. Qed.

(** C2: Calling generated code. Take a function assembled from a straight-line body of
    instructions that have an encoding (with RV_C neither [add rd, rd, x0] nor [lui rd,
    0]) and [ret], placed in plain process memory at [entry] below the address that ends
    a simulation, whose stores do not write into its code and whose body, when it does
    not fail, leaves the return address in RA. Called by the runtime through [CallX]
    with a bound of more rounds than the body has instructions, it terminates (one round
    per instruction) and returns in [A0] what the abstract execution of the body leaves
    there, or stops with the error of the body. *)
Theorem call_assembled prog a entry n a0 a1 a2 a3 (s : Simulator host) :
  let s0 := call_state entry a0 a1 a2 a3 s in
  let bytes := code (prog ++ [ret]) a in
  sim_wf s ->
  straight_line a prog = true ->
  0 <= entry -> entry + Z.of_nat (length bytes) <= kEndSimulatingPC ->
  code_at (memory_ s) entry bytes ->
  stores_avoid entry (entry + Z.of_nat (length bytes)) a prog s0 ->
  (forall s1, exec_all a prog s0 = Ok s1 -> get_xreg Register.RA s1 = kEndSimulatingPC) ->
  (length prog < n)%nat ->
  CallX n entry a0 a1 a2 a3 s
  = (s1 ← exec_all a prog s0;
     Ok (s64 (get_xreg Register.A0 s1), count (set_pc kEndSimulatingPC s1))).
Proof.
  cbv zeta. intros Hs Hp H0 Hend Hc Hst Hra Hn. unfold CallX, RunCall. cbv zeta.
  fold (enter entry (set_xreg Register.A3 a3 (set_xreg Register.A2 a2
    (set_xreg Register.A1 a1 (set_xreg Register.A0 a0 s))))).
  fold (call_state entry a0 a1 a2 a3 s). set (s0 := call_state _ _ _ _ _ _) in *.
  assert (Hs0 : sim_wf s0) by (apply enter_wf; repeat apply set_xreg_wf; done).
  assert (Hm0 : memory_ s0 = memory_ s)
    by (unfold s0, call_state, enter; rewrite memory_set_xreg; cbn [memory_ set_pc];
        by rewrite !memory_set_xreg).
  assert (Hpc0 : pc_ s0 = entry).
  { unfold s0, call_state, enter. rewrite pc_set_xreg. cbn. apply uwrap_small.
    assert (kEndSimulatingPC = 2 ^ 64 - 2) by done. unfold is_u. lia. }
  rewrite code_snoc in *. rewrite <- Hpc0, <- Hm0 in Hc.
  destruct (execute_straight_line entry
    (entry + Z.of_nat (length (code prog a ++ code [ret] (assemble_all prog a))))
    (code [ret] (assemble_all prog a)) (n - length prog) prog a s0) as [Hrun Hafter];
    [done..|lia|lia| |done|].
  { rewrite length_app in Hend. lia. }
  replace (length prog + (n - length prog))%nat with n in Hrun by lia. rewrite Hrun.
  destruct (exec_all a prog s0) as [s1|e] eqn:Hx; cbn [mbind result_bind]; [|done].
  destruct (Hafter s1 eq_refl) as (Hs1 & Hpc1 & Hc1).
  destruct (n - length prog)%nat as [|k] eqn:Ek; [lia|]. cbn [ExecuteNoTrace].
  rewrite (step_ret (assemble_all prog a) s1) by auto.
  pose proof (size_of_range ret (assemble_all prog a)) as Hsz.
  rewrite length_app in Hend.
  rewrite code_one in Hend. unfold size_of in Hsz.
  rewrite (proj2 (Z.eqb_neq (pc_ s1) kEndSimulatingPC)) by lia.
  cbn [mbind result_bind].
  assert (Hstop : ExecuteNoTrace k (count (set_pc kEndSimulatingPC s1))
                  = Ok (count (set_pc kEndSimulatingPC s1))) by by destruct k.
  rewrite Hstop. cbn [mbind result_bind]. by rewrite flush_all_direct.
Qed.

(** ** Concrete instances *)

Definition code_atb (h : host) (addr : Z) (bs : list Z) : bool :=
  forallb (fun i => bool_decide (h !! (addr + Z.of_nat i) = bs !! i)) (seq 0 (length bs)).

Lemma code_atb_spec h addr bs : code_atb h addr bs = true -> code_at h addr bs.
Proof.
  unfold code_atb, code_at. rewrite forallb_forall. intros Hc i Hi.
  apply (bool_decide_eq_true_1 _), Hc, in_seq. lia.
Qed.

(** An assembler for a machine with the C and Zcb extensions. *)
Definition asm_c : MicroAssembler :=
  mkAsm [] ((1 ≪ Extension.RV_C) .| (1 ≪ Extension.RV_Zcb)) 0.

(** [x14 := x14 * x15] in its compressed form. *)
Definition example_mul : instruction := Reg MUL 14 14 15.
Definition example_mul_state : Simulator host :=
  set_xreg 14 (-3) (set_xreg 15 7
    (boot 0x1000 (image [(0x1000, emitted asm_c (assemble example_mul asm_c))]))).

Lemma assembled_instruction_executes_witness :
  length (emitted asm_c (assemble example_mul asm_c)) = 2%nat /\
  step example_mul_state = exec example_mul 2 example_mul_state.
Proof.
  split; [reflexivity|].
  apply (assembled_instruction_executes example_mul asm_c example_mul_state).
  - repeat apply set_xreg_wf; [by apply boot_wf|done..].
  - reflexivity.
  - exact I.
  - apply code_atb_spec. vm_compute. reflexivity.
Defined.

(** [a0 := (a0 + 5) * a1], stored at [a2] and loaded back. *)
Definition example_body : list instruction :=
  [Imm ADDI Register.A0 Register.A0 5;
   Reg MUL Register.A0 Register.A0 Register.A1;
   Store SD Register.A0 (mkAddress Register.A2 8);
   Load LW Register.A0 (mkAddress Register.A2 8)].
Definition example_call : Simulator host :=
  boot 0 (image [(0x1000, code (example_body ++ [ret]) asm_c);
                 (0x2000, replicate 16 0)]).

Lemma call_assembled_witness :
  match CallX 5 0x1000 2 (-3) 0x2000 0 example_call with
  | Ok (v, _) => v = -21
  | Err _ => False
  end.
Proof.
  rewrite (call_assembled example_body asm_c 0x1000 5 2 (-3) 0x2000 0 example_call).
  - vm_compute. reflexivity.
  - by apply boot_wf.
  - reflexivity.
  - done.
  - by vm_compute.
  - apply code_atb_spec. vm_compute. reflexivity.
  - vm_compute. repeat split; auto; right; discriminate.
  - intros s1. vm_compute. intros [= <-]. reflexivity.
  - cbn. lia.
Defined.
