(* ===== verification/RiscvEmit.v ===== *)
(** * What the branch methods emit

    Every successful [beq], ..., [bgeu] and [jal] to a label appends one jump, or
    the inverse branch around a long jump: [branch_method_emits] and [jal_emits].
    A jump to a bound label holds its distance, a jump to a label that is not
    bound the link to the previous one. *)

From S2P Require Import Prelude Utils RiscvConstants RiscvEncoding RiscvAssembler RiscvLabels.
From S2P Require Import SimMemory RiscvSimulator RiscvArith RiscvIsa RiscvDecode RiscvInterpret.
From S2P Require Import RiscvTables RiscvBranches RiscvCompressed RiscvJumps RiscvCorrect.

#[local] Arguments encode : simpl never.

(** ** What a branch method emits *)

Definition append (bs : list Z) (a : MicroAssembler) : MicroAssembler :=
  set_buffer (buffer_ a ++ bs) a.

Lemma append_append bs1 bs2 a : append bs2 (append bs1 a) = append (bs1 ++ bs2) a.
Proof. unfold append, set_buffer. cbn. by rewrite app_assoc. Qed.

Lemma append_position bs a : Asm.Position (append bs a) = Asm.Position a + Z.of_nat (length bs).
Proof. unfold Asm.Position, append. cbn. rewrite length_app. lia. Qed.

Definition link_of (k : klass) (position : Z) (label : Label) : Z * Label :=
  match k with
  | cb => Lbl.link_cb position label | cj => Lbl.link_cj position label
  | b => Lbl.link_b position label | j => Lbl.link_j position label
  | far => Lbl.link_far position label
  end.

(** The distance of a backward jump: inside the range of the instruction, or just
    below that of [jal] in the second instruction of a long branch. *)
Definition settled (x : jump) (off : Z) : Prop :=
  fits (klass_of x) off = true \/
  klass_of x = j /\ off < - 2 ^ 19 /\ fits j (off + 8) = true.

(** The jump [x] to a label is emitted: with its distance when the label is
    bound, linked to the previous one of its class when it is not. *)
Inductive emits (a : MicroAssembler) (label : Label) (x : jump) : Label -> MicroAssembler -> Prop :=
| emits_bound off :
    Lbl.IsBound label = true -> off = Lbl.Position label - Asm.Position a ->
    jump_ok x -> settled x off -> emits a label x label (append (encode x off) a)
| emits_link off label' :
    Lbl.IsBound label = false -> link_of (klass_of x) (Asm.Position a) label = (off, label') ->
    jump_ok x -> fits (klass_of x) off = true ->
    emits a label x label' (append (encode x off) a).

(** [x] branches when [op] holds of the registers. *)
Inductive decides : jump -> bop -> Z -> Z -> Prop :=
| decides_cond op rs1 rs2 : decides (Cond op rs1 rs2) op rs1 rs2
| decides_eq_l r : decides (CBranch true r) BEQ Register.ZR r
| decides_eq_r r : decides (CBranch true r) BEQ r Register.ZR
| decides_ne_l r : decides (CBranch false r) BNE Register.ZR r
| decides_ne_r r : decides (CBranch false r) BNE r Register.ZR.

Definition negate (op : bop) : bop :=
  match op with
  | BEQ => BNE | BNE => BEQ | BLT => BGE | BGE => BLT | BLTU => BGEU | BGEU => BLTU
  end.

Lemma negate_sem op x y : bop_sem (negate op) x y = negb (bop_sem op x y).
Proof. destruct op; cbn; by rewrite ?negb_involutive. Qed.

Lemma InvertFunct3_negate op : Branch.InvertFunct3 (bop_code op) = Ok (bop_code (negate op)).
Proof. by destruct op. Qed.

(** Unconditional jumps that save no return address. *)
Definition goes (x : jump) : Prop := x = CJump \/ x = Jal Register.ZR \/ x = Far.

(** A branch is one instruction, or its inverse around a long jump. *)
Inductive branch_emitted (op : bop) (rs1 rs2 : Z) (a : MicroAssembler) (label : Label)
    : Label -> MicroAssembler -> Prop :=
| branch_direct x label' a' :
    decides x op rs1 rs2 -> emits a label x label' a' -> branch_emitted op rs1 rs2 a label label' a'
| branch_around y z label' a' :
    let len := Z.of_nat (jump_size y + jump_size z) in
    decides y (negate op) rs1 rs2 -> jump_ok y -> fits (klass_of y) len = true ->
    z = Jal Register.ZR \/ z = Far ->
    emits (append (encode y len) a) label z label' a' ->
    branch_emitted op rs1 rs2 a label label' a'.

Lemma emit_far_append off a : Branch.emit_far off a = Ok (append (encode Far off) a).
Proof.
  unfold Branch.emit_far. cbv zeta. rewrite ImmHi_IsUTypeImm. cbn [negb]. f_equal.
  unfold encode. rewrite <- append_append. unfold utype_word, itype_word. reflexivity.
Qed.

(** The link of a far branch of level one is not tested by the assembler.  The
    branch may begin with an instruction of two or four bytes. *)
Definition level_one_links (a : MicroAssembler) (label : Label) : Prop :=
  far_branch_level_ a = 1 -> Lbl.IsBound label = false ->
  forall n, n = 0 \/ n = 2 \/ n = 4 -> fits j (link_of j (Asm.Position a + n) label).1 = true.

(** The formats emit the encodings of jumps. *)
Lemma EmitBType_append off op rs1 rs2 a :
  Asm.EmitBType off rs2 rs1 (bop_code op) Opcode.BRANCH a = append (encode (Cond op rs1 rs2) off) a.
Proof. unfold encode, btype_word. reflexivity. Qed.
Lemma EmitJType_append off rd a :
  Asm.EmitJType off rd Opcode.JAL a = append (encode (Jal rd) off) a.
Proof. unfold encode, jtype_word. reflexivity. Qed.
Lemma Emit16_cb z r off a :
  Asm.Emit16 (cb_op z .| EncodeCRs1p r .| EncodeCBImm off) a = append (encode (CBranch z r) off) a.
Proof. unfold encode, cb_word. reflexivity. Qed.
Lemma Emit16_cj off a :
  Asm.Emit16 (COpcode.C_J .| EncodeCJImm off) a = append (encode CJump off) a.
Proof. unfold encode, cj_word. reflexivity. Qed.

(** Emitting one jump, by class. *)
Lemma emits_near a label x off :
  Lbl.IsBound label = true -> off = Lbl.Position label - Asm.Position a ->
  jump_ok x -> fits (klass_of x) off = true -> emits a label x label (append (encode x off) a).
Proof. intros. apply emits_bound; try done. by left. Qed.

Lemma EmitCBranch_emits z r label a label' a' :
  IsRegPrime r = true -> Branch.EmitCBranch r label (cb_op z) a = Ok (label', a') ->
  emits a label (CBranch z r) label' a'.
Proof.
  intros Hr. unfold Branch.EmitCBranch. destruct (Lbl.IsBound label) eqn:Hb.
  - set (off := _ - _). destruct (IsCBImm off) eqn:Hf; cbn [negb]; [|done]. rewrite Emit16_cb.
    intros [= <- <-]. by apply emits_near.
  - destruct (Lbl.link_cb _ _) as [off lab] eqn:E.
    destruct (IsCBImm off) eqn:Hf; cbn [negb]; [|done]. rewrite Emit16_cb.
    intros [= <- <-]. by apply emits_link.
Qed.

Lemma EmitCJump_emits label a label' a' :
  Branch.EmitCJump label COpcode.C_J a = Ok (label', a') -> emits a label CJump label' a'.
Proof.
  unfold Branch.EmitCJump. destruct (Lbl.IsBound label) eqn:Hb.
  - set (off := _ - _). destruct (IsCJImm off) eqn:Hf; cbn [negb]; [|done]. rewrite Emit16_cj.
    intros [= <- <-]. by apply emits_near.
  - destruct (Lbl.link_cj _ _) as [off lab] eqn:E.
    destruct (IsCJImm off) eqn:Hf; cbn [negb]; [|done]. rewrite Emit16_cj.
    intros [= <- <-]. by apply emits_link.
Qed.

Lemma EmitJump_emits rd label d a label' a' :
  is_u 5 rd -> Branch.EmitJump rd label Opcode.JAL d a = Ok (label', a') ->
  emits a label (Jal rd) label' a' \/ emits a label Far label' a'.
Proof.
  intros Hd. unfold Branch.EmitJump. destruct (Lbl.IsBound label) eqn:Hb.
  - set (off := _ - _). destruct (IsJTypeImm off) eqn:Hf.
    + rewrite EmitJType_append. intros [= <- <-]. left. by apply emits_near.
    + rewrite emit_far_append. intros [= <- <-]. right. by apply emits_near.
  - destruct (Lbl.link_j _ _) as [off lab] eqn:E.
    destruct (Lbl.link_far _ _) as [off' lab'] eqn:E'. 
    rewrite emit_far_append, EmitJType_append. destruct (is_near d); [|destruct (_ <? 2)].
    + destruct (IsJTypeImm off) eqn:Hf; cbn [negb]; [|done]. intros [= <- <-]. left.
      by apply emits_link.
    + destruct (IsJTypeImm off) eqn:Hf; cbn [negb]; [|done]. intros [= <- <-]. left.
      by apply emits_link.
    + intros [= <- <-]. right. by apply emits_link.
Qed.

(** The branch around a jump. *)
Lemma skip_compressed op rs1 rs2 :
  (bop_code op =? Funct3.BEQ) || (bop_code op =? Funct3.BNE) = true ->
  ((rs1 =? Register.ZR) && IsCRs1p rs2) || ((rs2 =? Register.ZR) && IsCRs1p rs1) = true ->
  exists zero r, decides (CBranch zero r) (negate op) rs1 rs2 /\ IsRegPrime r = true /\
    cb_op zero = (if bop_code op =? Funct3.BEQ then COpcode.C_BNEZ else COpcode.C_BEQZ) /\
    r = (if rs1 =? Register.ZR then rs2 else rs1).
Proof.
  intros Hop Hreg. exists (negb (bop_code op =? Funct3.BEQ)), (if rs1 =? Register.ZR then rs2 else rs1).
  destruct (rs1 =? Register.ZR) eqn:E1; reflect_bool; subst.
  - assert (IsRegPrime rs2 = true) as Hr by by destruct Hreg as [[]|[]].
    destruct op; try (by destruct Hop); cbn; split_and!; done || constructor.
  - destruct Hreg as [[]|[-> Hr]]; [done|].
    destruct op; try (by destruct Hop); cbn; split_and!; done || constructor.
Qed.

Lemma emit_skip_around op rs1 rs2 z a a' :
  is_u 5 rs1 -> is_u 5 rs2 -> z = Jal Register.ZR \/ z = Far ->
  Branch.emit_skip rs1 rs2 (bop_code op) (Z.of_nat (jump_size z)) a = Ok a' ->
  exists y, let len := Z.of_nat (jump_size y + jump_size z) in
    decides y (negate op) rs1 rs2 /\ jump_ok y /\ fits (klass_of y) len = true /\
    (jump_size y <= 4)%nat /\ a' = append (encode y len) a.
Proof.
  intros H1 H2 Hz. unfold Branch.emit_skip. cbv zeta. destruct (_ && _ && _) eqn:Hc.
  - intros [= <-]. apply andb_true_iff in Hc as [[_ Hop]%andb_true_iff Hreg].
    destruct (skip_compressed op rs1 rs2 Hop Hreg) as (zero & r & Hd & Hr & Ez & Er).
    exists (CBranch zero r). rewrite <- Ez, <- Er, Nat2Z.inj_add.
    split_and!; [done|done| |cbn; lia|apply Emit16_cb]. by destruct Hz as [-> | ->].
  - rewrite InvertFunct3_negate. intros [= <-]. exists (Cond (negate op) rs1 rs2).
    rewrite Nat2Z.inj_add. split_and!; [constructor|done| |cbn; lia|apply EmitBType_append].
    by destruct Hz as [-> | ->].
Qed.

(** The distance tested for a long branch is not the one its [jal] covers. *)
Lemma IsJTypeImm_spec off : IsJTypeImm off = true <-> is_s 20 off /\ off mod 2 = 0.
Proof.
  unfold IsJTypeImm. change 2 with (2 ^ 1) at 1.
  rewrite andb_true_iff, IsInt_intptr, IsAligned_pow2, Z.eqb_eq by lia. done.
Qed.

Lemma IsJTypeImm_below off :
  IsJTypeImm (off + 4) = true -> IsJTypeImm (off - 4) = false -> off - 4 < - 2 ^ 19.
Proof.
  intros [Hr Ha]%IsJTypeImm_spec Hn. destruct (Z_lt_le_dec (off - 4) (- 2 ^ 19)); [done|].
  rewrite (proj2 (IsJTypeImm_spec (off - 4))) in Hn; [done|]. unfold is_s in *.
  split; [lia|]. replace (off - 4) with (off + 4 + (-4) * 2) by lia. by rewrite Z_mod_plus_full.
Qed.

(** A backward branch. *)
Lemma EmitBranch_bound op rs1 rs2 label d a label' a' :
  is_u 5 rs1 -> is_u 5 rs2 -> Lbl.IsBound label = true ->
  Branch.EmitBranch rs1 rs2 label (bop_code op) d a = Ok (label', a') ->
  branch_emitted op rs1 rs2 a label label' a'.
Proof.
  intros H1 H2 Hb. unfold Branch.EmitBranch. rewrite Hb.
  assert (Hx : jump_ok (Cond op rs1 rs2)) by done.
  assert (Hy : jump_ok (Cond (negate op) rs1 rs2)) by done.
  set (off := Lbl.Position label - Asm.Position a).
  rewrite InvertFunct3_negate. cbn [mbind result_bind].
  rewrite !EmitBType_append, EmitJType_append, emit_far_append, !append_position, !encode_length.
  destruct (IsBTypeImm off) eqn:Hf; [|destruct (IsJTypeImm (off + 4)) eqn:Hj].
  - intros [= <- <-]. eapply branch_direct; [constructor|].
    by apply emits_near.
  - intros [= <- <-].
    eapply (branch_around _ _ _ _ _ (Cond (negate op) rs1 rs2) (Jal Register.ZR));
      [constructor|done|done|by left|].
    apply (emits_bound _ label (Jal Register.ZR)); [done| |done|].
    + rewrite append_position, encode_length. done.
    + unfold settled. cbn [klass_of fits jump_size].
      replace (Lbl.Position label - (Asm.Position a + Z.of_nat 4)) with (off - 4) by lia.
      destruct (IsJTypeImm (off - 4)) eqn:Hs; [by left|]. right. split; [done|].
      replace (off - 4 + 8) with (off + 4) by lia. split; [|done].
      apply IsJTypeImm_below; done.
  - intros [= <- <-].
    eapply (branch_around _ _ _ _ _ (Cond (negate op) rs1 rs2) Far);
      [constructor|done|done|by right|].
    apply (emits_near _ label Far); [done| |done|done].
    by rewrite append_position, encode_length.
Qed.

(** A forward branch. *)
Lemma EmitBranch_unbound op rs1 rs2 label d a label' a' :
  is_u 5 rs1 -> is_u 5 rs2 -> Lbl.IsBound label = false -> level_one_links a label ->
  Branch.EmitBranch rs1 rs2 label (bop_code op) d a = Ok (label', a') ->
  branch_emitted op rs1 rs2 a label label' a'.
Proof.
  intros H1 H2 Hb Hlev. unfold Branch.EmitBranch. rewrite Hb.
  assert (Hx : jump_ok (Cond op rs1 rs2)) by done.
  destruct (Lbl.link_b (Asm.Position a) label) as [off lab] eqn:E. rewrite !EmitBType_append.
  destruct (is_near d); [|destruct (_ =? 0) eqn:E0; [|destruct (_ =? 1) eqn:E1]].
  - destruct (IsBTypeImm off) eqn:Hf; cbn [negb]; [|done]. intros [= <- <-].
    eapply branch_direct; [constructor|]. by apply emits_link.
  - destruct (IsBTypeImm off) eqn:Hf; cbn [negb]; [|done]. intros [= <- <-].
    eapply branch_direct; [constructor|]. by apply emits_link.
  - intros (a1 & Es & Er)%bind_Ok_inv.
    destruct (emit_skip_around op rs1 rs2 (Jal Register.ZR) a a1)
      as (y & Hd & Hy & Hf & Hsz & ->); [done|done|by left|done|].
    destruct (Lbl.link_j _ _) as [off' lab'] eqn:E'. rewrite EmitJType_append in Er.
    injection Er as <- <-. eapply branch_around; [done..|by left|].
    apply emits_link; [done..|]. apply Z.eqb_eq in E1.
    assert (Hn : Z.of_nat (jump_size y) = 0 \/ Z.of_nat (jump_size y) = 2 \/ Z.of_nat (jump_size y) = 4).
    { destruct y; cbn in *; lia. }
    specialize (Hlev E1 Hb _ Hn). rewrite append_position, encode_length in E'.
    unfold link_of in Hlev. by rewrite E' in Hlev.
  - intros (a1 & Es & Er)%bind_Ok_inv.
    destruct (emit_skip_around op rs1 rs2 Far a a1)
      as (y & Hd & Hy & Hf & Hsz & ->); [done|done|by right|done|].
    destruct (Lbl.link_far _ _) as [off' lab'] eqn:E'. rewrite emit_far_append in Er.
    injection Er as <- <-. eapply branch_around; [done..|by right|]. by apply emits_link.
Qed.

Lemma EmitBranch_emits op rs1 rs2 label d a label' a' :
  is_u 5 rs1 -> is_u 5 rs2 -> level_one_links a label ->
  Branch.EmitBranch rs1 rs2 label (bop_code op) d a = Ok (label', a') ->
  branch_emitted op rs1 rs2 a label label' a'.
Proof.
  intros. destruct (Lbl.IsBound label) eqn:Hb;
    eauto using EmitBranch_bound, EmitBranch_unbound.
Qed.

Definition branch_method (op : bop) :
    Z -> Z -> Label -> JumpDistance -> MicroAssembler -> asm_result (Label * MicroAssembler) :=
  match op with
  | BEQ => Branch.beq | BNE => Branch.bne | BLT => Branch.blt
  | BGE => Branch.bge | BLTU => Branch.bltu | BGEU => Branch.bgeu
  end.

Lemma branch_method_emits op rs1 rs2 label d a label' a' :
  is_u 5 rs1 -> is_u 5 rs2 -> level_one_links a label ->
  branch_method op rs1 rs2 label d a = Ok (label', a') ->
  branch_emitted op rs1 rs2 a label label' a'.
Proof.
  intros H1 H2 Hlev.
  pose proof (fun op => EmitBranch_emits op rs1 rs2 label d a label' a' H1 H2 Hlev) as HE.
  destruct op; cbn [branch_method]; [| |exact (HE BLT)|exact (HE BGE)|exact (HE BLTU)|exact (HE BGEU)].
  - unfold Branch.beq. destruct (_ && _) eqn:Hc; [|destruct (_ && (_ && IsCRs1p rs1)) eqn:Hc'].
    + reflect_bool. subst. intros E. eapply branch_direct; [apply decides_eq_l|].
      exact (EmitCBranch_emits true _ _ _ _ _ ltac:(eassumption) E).
    + reflect_bool. subst. intros E. eapply branch_direct; [apply decides_eq_r|].
      exact (EmitCBranch_emits true _ _ _ _ _ ltac:(eassumption) E).
    + exact (HE BEQ).
  - unfold Branch.bne. destruct (_ && _) eqn:Hc; [|destruct (_ && (_ && IsCRs1p rs1)) eqn:Hc'].
    + reflect_bool. subst. intros E. eapply branch_direct; [apply decides_ne_l|].
      exact (EmitCBranch_emits false _ _ _ _ _ ltac:(eassumption) E).
    + reflect_bool. subst. intros E. eapply branch_direct; [apply decides_ne_r|].
      exact (EmitCBranch_emits false _ _ _ _ _ ltac:(eassumption) E).
    + exact (HE BNE).
Qed.

(** An unconditional jump. *)
Lemma jal_emits label d a label' a' :
  Branch.jal Register.ZR label d a = Ok (label', a') ->
  exists x, goes x /\ emits a label x label' a'.
Proof.
  unfold Branch.jal. destruct (_ && _).
  - intros E. exists CJump. split; [by left|]. by apply EmitCJump_emits.
  - intros [E|E]%EmitJump_emits; [| |done].
    + exists (Jal Register.ZR). split; [by right; left|done].
    + exists Far. split; [by right; right|done].
Qed.
