(* ===== verification/RiscvPrograms.v ===== *)
(** * Programs with labels

    A program is a list of instructions, branches and jumps to labels, and
    bindings of labels, assembled by the methods of [MicroAssembler] in order.
    [coherent] is the invariant between the labels and the buffer: a branch to a
    bound label holds the distance to it, the branches to a label that is not
    bound form its chains, and everything else in the buffer stays as it was
    emitted.  [assemble_items_ok] says what is known of a program once it is
    assembled. *)

From Stdlib Require Import Sorting.Sorted.
From S2P Require Import Prelude Utils RiscvConstants RiscvEncoding RiscvAssembler RiscvLabels.
From S2P Require Import SimMemory RiscvSimulator RiscvArith RiscvIsa RiscvDecode RiscvInterpret.
From S2P Require Import RiscvTables RiscvBranches RiscvCompressed RiscvJumps RiscvCorrect RiscvEmit.

#[local] Arguments encode : simpl never.

(** ** Programs *)

Inductive item : Type :=
| Instr (i : instruction)
| BranchTo (op : bop) (rs1 rs2 : Z) (l : nat) (d : JumpDistance)
| JumpTo (l : nat) (d : JumpDistance)
| BindTo (l : nat).

(** The labels that were used; the others are new. *)
Abbreviation labels := (gmap nat Label).
Definition label_of (L : labels) (l : nat) : Label := default Lbl.new (L !! l).

Lemma label_of_insert L l x : label_of (<[l := x]> L) l = x.
Proof. unfold label_of. by rewrite lookup_insert_eq. Qed.
Lemma label_of_insert_ne L l l' x : l <> l' -> label_of (<[l := x]> L) l' = label_of L l'.
Proof. intros. unfold label_of. by rewrite lookup_insert_ne. Qed.

Definition with_label (L : labels) (l : nat) (r : asm_result (Label * MicroAssembler))
    : asm_result (labels * MicroAssembler) :=
  '(label, a) ← r; Ok (<[l := label]> L, a).

Definition assemble_item (it : item) (L : labels) (a : MicroAssembler)
    : asm_result (labels * MicroAssembler) :=
  match it with
  | Instr i => Ok (L, assemble i a)
  | BranchTo op rs1 rs2 l d => with_label L l (branch_method op rs1 rs2 (label_of L l) d a)
  | JumpTo l d => with_label L l (Branch.jal Register.ZR (label_of L l) d a)
  | BindTo l => with_label L l (Branch.Bind (label_of L l) a)
  end.

Fixpoint assemble_items (prog : list item) (L : labels) (a : MicroAssembler)
    : asm_result (labels * MicroAssembler) :=
  match prog with
  | [] => Ok (L, a)
  | it :: prog => '(L, a) ← assemble_item it L a; assemble_items prog L a
  end.

(** The positions of the items, and the end of the program. *)
Fixpoint layout (prog : list item) (L : labels) (a : MicroAssembler) : list nat :=
  length (buffer_ a) ::
  match prog with
  | [] => []
  | it :: prog =>
      match assemble_item it L a with
      | Ok (L, a) => layout prog L a
      | Err _ => []
      end
  end.

(** ** The invariant of assembly *)

(** What was emitted, the last piece first: code that stays, and jumps. *)
Inductive piece : Type :=
| Fixed (bs : list Z)
| Site (x : jump) (l : nat).
Abbreviation pieces := (list (nat * piece)).

Definition piece_size (y : piece) : nat :=
  match y with Fixed bs => length bs | Site x _ => jump_size x end.

Definition link_to (l : nat) (y : nat * piece) : option (nat * jump) :=
  match y.2 with
  | Site x l' => if decide (l' = l) then Some (y.1, x) else None
  | Fixed _ => None
  end.
Definition links_of (l : nat) (ps : pieces) : links := omap (link_to l) ps.

Lemma elem_of_links l ps p x : (p, x) ∈ links_of l ps <-> (p, Site x l) ∈ ps.
Proof.
  unfold links_of. rewrite list_elem_of_omap. unfold link_to. split.
  - intros ([q [bs|y l']] & Hy & E); cbn in E; [done|]. case_decide; [|done]. by simplify_eq.
  - intros Hx. exists (p, Site x l). split; [done|]. cbn. by rewrite decide_True.
Qed.

Lemma links_apart l ps : apart piece_size ps -> apart jump_size (links_of l ps).
Proof.
  apply apart_omap. intros [q y] [p x] E. unfold link_to in E. cbn in E.
  destruct y; [done|]. case_decide; [|done]. by simplify_eq.
Qed.

Record coherent (L : labels) (a : MicroAssembler) (ps : pieces) : Prop := {
  co_apart : apart piece_size ps;
  co_inside : forall y, y ∈ ps -> (y.1 + piece_size y.2 <= length (buffer_ a))%nat;
  co_even : forall y, y ∈ ps -> Nat.Even y.1;
  co_length : Nat.Even (length (buffer_ a));
  co_fixed : forall p bs, (p, Fixed bs) ∈ ps -> bytes_at (buffer_ a) p bs;
  co_bound : forall p x l, (p, Site x l) ∈ ps -> Lbl.IsBound (label_of L l) = true ->
    let off := Lbl.Position (label_of L l) - Z.of_nat p in
    bytes_at (buffer_ a) p (encode x off) /\ jump_ok x /\ settled x off;
  co_position : forall l, Lbl.IsBound (label_of L l) = true ->
    0 <= Lbl.Position (label_of L l) <= Asm.Position a;
  co_links : forall l, Lbl.IsBound (label_of L l) = false ->
    linked (buffer_ a) (links_of l ps) (label_of L l)
}.

(** The state of a new assembler. *)
Lemma coherent_new L a :
  buffer_ a = [] -> (forall l, label_of L l = Lbl.new) -> coherent L a [].
Proof.
  intros Hb HL. split; try (intros; by match goal with H : _ ∈ [] |- _ => apply not_elem_of_nil in H end).
  - constructor.
  - rewrite Hb. by exists 0%nat.
  - intros l. by rewrite HL.
  - intros l _. rewrite HL. split; [constructor|by intros []|by intros []].
Qed.

(** ** Emitting a piece *)

Lemma bytes_at_extend buf bs p bs' : bytes_at buf p bs' -> bytes_at (buf ++ bs) p bs'.
Proof.
  intros Hb i Hi. specialize (Hb i Hi). destruct (lookup_lt_is_Some_2 bs' i Hi) as [v Hv].
  rewrite Hv in *. by apply lookup_app_l_Some.
Qed.

Lemma bytes_at_end buf bs : bytes_at (buf ++ bs) (length buf) bs.
Proof. intros i Hi. rewrite lookup_app_r by lia. f_equal. lia. Qed.

Lemma chain_extend k buf bs l : chain k buf l -> chain k (buf ++ bs) l.
Proof.
  induction l as [|x l IH]; [done|]. intros (? & ? & ? & Hb & ?).
  split_and!; auto using bytes_at_extend.
Qed.

Lemma linked_extend buf bs l label : linked buf l label -> linked (buf ++ bs) l label.
Proof. intros [Ha Hh Hc]. split; [done..|]. intros k. apply chain_extend, Hc. Qed.

(** A new piece at the end, with what must hold of it. *)
Definition piece_ok (L : labels) (buf : list Z) (ps : pieces) (y : nat * piece) : Prop :=
  match y.2 with
  | Fixed bs => bytes_at buf y.1 bs
  | Site x l =>
      let off := Lbl.Position (label_of L l) - Z.of_nat y.1 in
      if Lbl.IsBound (label_of L l)
      then bytes_at buf y.1 (encode x off) /\ jump_ok x /\ settled x off
      else linked buf ((y.1, x) :: links_of l ps) (label_of L l)
  end.

Lemma push L L' a ps bs y :
  coherent L a ps ->
  y.1 = length (buffer_ a) -> piece_size y.2 = length bs -> Nat.Even (length bs) ->
  (forall l, Lbl.IsBound (label_of L' l) = Lbl.IsBound (label_of L l) /\
    (label_of L' l = label_of L l \/
     Lbl.IsBound (label_of L l) = false /\ exists x, y.2 = Site x l)) ->
  piece_ok L' (buffer_ a ++ bs) ps y ->
  coherent L' (append bs a) (y :: ps).
Proof.
  intros Hc Hp Hsz He HL Hok.
  assert (HLb : forall l, Lbl.IsBound (label_of L' l) = true -> label_of L' l = label_of L l).
  { intros l Hl. destruct (HL l) as [E [|[Hn _]]]; [done|congruence]. }
  split; unfold append; cbn [buffer_ set_buffer].
  - constructor; [apply Hc|]. apply Forall_forall. intros z Hz. unfold above. rewrite Hp.
    by apply (co_inside _ _ _ Hc).
  - intros z [->|Hz]%elem_of_cons; rewrite length_app; [lia|].
    pose proof (co_inside _ _ _ Hc z Hz). lia.
  - intros z [->|Hz]%elem_of_cons; [|by apply (co_even _ _ _ Hc)]. rewrite Hp. apply Hc.
  - rewrite length_app. destruct He as [n ->], (co_length _ _ _ Hc) as [m ->]. exists (m + n)%nat. lia.
  - intros p bs' [<-|Hz]%elem_of_cons; [done|]. apply bytes_at_extend. by apply (co_fixed _ _ _ Hc).
  - intros p x l [<-|Hz]%elem_of_cons Hl.
    + unfold piece_ok in Hok. cbn [snd fst] in Hok. by rewrite Hl in Hok.
    + pose proof (HLb l Hl) as El. rewrite El in Hl |- *. destruct (co_bound _ _ _ Hc p x l Hz Hl) as (Hb & ? & ?).
      split_and!; [|done..]. by apply bytes_at_extend.
  - intros l Hl. pose proof (HLb l Hl) as El. rewrite El in Hl |- *. pose proof (co_position _ _ _ Hc l Hl).
    unfold Asm.Position in *. cbn [buffer_ set_buffer]. rewrite length_app. lia.
  - intros l Hl. destruct y as [p [bs'|x l']]; cbn [fst snd] in *.
    + destruct (HL l) as [E [El|[_ [? [=]]]]]. rewrite El in *.
      apply linked_extend. by apply (co_links _ _ _ Hc).
    + cbn [links_of omap list_omap link_to snd]. case_decide as Hd.
      * subst l'. unfold piece_ok in Hok. cbn [snd] in Hok. by rewrite Hl in Hok.
      * destruct (HL l) as [E [El|[_ [? [=]]]]]; [|done]. rewrite El in *.
        apply linked_extend. by apply (co_links _ _ _ Hc).
Qed.

(** ** Every item keeps the invariant *)

(** The code fits into 2^30 bytes, so that positions are [int32_t]s and far jumps
    reach. *)
Definition small (a : MicroAssembler) : Prop := Asm.Position a <= 2 ^ 30.

Lemma small_position a : small a -> s32 (Asm.Position a) = Asm.Position a.
Proof. unfold small, Asm.Position. intros. apply swrap_small; unfold is_s; lia. Qed.

Lemma link_of_spec k pos label off label' :
  link_of k pos label = (off, label') ->
  position_ label' = position_ label /\ off = Lbl.link_offset (unresolved k label) (s32 pos) /\
  unresolved k label' = s32 pos /\
  forall k', k' <> k -> unresolved k' label' = unresolved k' label.
Proof.
  destruct k; cbn [link_of]; unfold Lbl.link_cb, Lbl.link_cj, Lbl.link_b, Lbl.link_j, Lbl.link_far;
    intros [= <- <-]; split_and!; try done; by intros [].
Qed.

Lemma link_offset_head p l : Lbl.link_offset (head l) (Z.of_nat p) = link p l.
Proof.
  unfold Lbl.link_offset. destruct l as [|x l]; [done|]. cbn [head link].
  by rewrite (proj2 (Z.eqb_neq _ _)) by lia.
Qed.

Lemma of_class_cons k x l :
  of_class k (x :: l) = if decide (klass_of x.2 = k) then x :: of_class k l else of_class k l.
Proof. unfold of_class. by rewrite filter_cons. Qed.

(** Linking one more branch. *)
Lemma linked_push buf l label x off label' :
  linked buf l label -> (forall y, y ∈ l -> (y.1 + jump_size y.2 <= length buf)%nat) ->
  jump_ok x -> Z.of_nat (length buf) <= 2 ^ 30 -> fits (klass_of x) off = true ->
  link_of (klass_of x) (Z.of_nat (length buf)) label = (off, label') ->
  off = link (length buf) (of_class (klass_of x) l) /\
  linked (buf ++ encode x off) ((length buf, x) :: l) label'.
Proof.
  intros Hl Hin Hx Hsm Hf (Hpos & -> & Hk & Hk')%link_of_spec.
  rewrite (swrap_small 32) in * by (unfold is_s; lia).
  rewrite (linked_heads _ _ _ Hl), link_offset_head in *. split; [done|].
  set (off := link _ _) in *.
  assert (Hr : reaches (klass_of x) off).
  { split; [done|]. subst off. destruct (of_class (klass_of x) l) as [|y l'] eqn:E; cbn [link]; [lia|].
    assert (y ∈ of_class (klass_of x) l) as [_ Hy]%elem_of_class by (rewrite E; by constructor).
    specialize (Hin y Hy). lia. }
  split.
  - constructor; [apply Hl|]. apply Forall_forall. intros y Hy. unfold above. by apply Hin.
  - intros k. rewrite of_class_cons. cbn [snd]. case_decide as Hd.
    + subst k. by rewrite Hk.
    + rewrite Hk' by done. apply Hl.
  - intros k. rewrite of_class_cons. cbn [snd]. case_decide as Hd.
    + subst k. cbn [chain fst snd]. fold off. split_and!; [done..| |].
      * apply bytes_at_end.
      * apply chain_extend, Hl.
    + apply chain_extend, Hl.
Qed.

Lemma jump_size_even x : Nat.Even (jump_size x).
Proof. destruct x; [exists 1%nat|exists 1%nat|exists 2%nat|exists 2%nat|exists 4%nat]; done. Qed.

Lemma emits_coherent L a ps l x label' a' :
  coherent L a ps -> small a -> emits a (label_of L l) x label' a' ->
  coherent (<[l := label']> L) a' ((length (buffer_ a), Site x l) :: ps).
Proof.
  intros Hc Hsm He. destruct He as [off Hb -> Hx Hs|off label' Hb Hlk Hx Hf].
  - apply (push L); [done|done|by rewrite encode_length|rewrite encode_length; apply jump_size_even| |].
    + intros l'. destruct (decide (l = l')) as [<-|]; [rewrite label_of_insert|rewrite label_of_insert_ne]; auto.
    + unfold piece_ok. cbn [fst snd]. rewrite label_of_insert, Hb.
      split_and!; [apply bytes_at_end|done..].
  - unfold Asm.Position in Hlk.
    destruct (linked_push (buffer_ a) (links_of l ps) (label_of L l) x off label') as [_ Hl];
      [by apply (co_links _ _ _ Hc)| |done|done|done|done|].
    { intros [p y] Hy%elem_of_links. apply (co_inside _ _ _ Hc _ Hy). }
    assert (Hb' : Lbl.IsBound label' = false).
    { apply link_of_spec in Hlk as [Hp _]. unfold Lbl.IsBound in *. by rewrite Hp. }
    apply (push L); [done|done|by rewrite encode_length|rewrite encode_length; apply jump_size_even| |].
    + intros l'. destruct (decide (l = l')) as [<-|];
        [rewrite label_of_insert|rewrite label_of_insert_ne by done]; [|auto].
      split; [congruence|]. right. split; [done|]. by exists x.
    + unfold piece_ok. cbn [fst snd]. rewrite label_of_insert, Hb'. done.
Qed.

(** Bytes of another piece are not covered by the branches of a label. *)
Lemma piece_links_apart L a ps l y x :
  coherent L a ps -> y ∈ ps -> (forall z, y.2 = Site z l -> False) -> x ∈ links_of l ps ->
  (x.1 + jump_size x.2 <= y.1 \/ y.1 + piece_size y.2 <= x.1)%nat.
Proof.
  intros Hc Hy Hn Hx. destruct x as [p x]. apply elem_of_links in Hx.
  destruct (apart_disjoint _ _ _ _ (co_apart _ _ _ Hc) Hy Hx) as [E|[Ha|Ha]].
  - subst y. exfalso. by apply (Hn x).
  - left. apply Ha.
  - right. apply Ha.
Qed.

(** What [Bind] does to the pieces. *)
Lemma bind_resolves L a ps l label' a' :
  coherent L a ps -> small a -> Lbl.IsBound (label_of L l) = false ->
  Branch.Bind (label_of L l) a = Ok (label', a') ->
  resolved (Asm.Position a) (links_of l ps) a a' /\ Lbl.IsBound label' = true /\
  Lbl.Position label' = Asm.Position a /\
  forall p x, (p, Site x l) ∈ ps -> jump_ok x /\ settled x (Asm.Position a - Z.of_nat p).
Proof.
  intros Hc Hsm Hb HB. pose proof (co_links _ _ _ Hc l Hb) as Hlk.
  pose proof (Bind_linked (label_of L l) a (links_of l ps) Hlk) as Hbl.
  destruct (all_fit (Asm.Position a) (links_of l ps)) eqn:Hfit; [|congruence].
  destruct Hbl as (a1 & E & Hr). rewrite E in HB. injection HB as <- <-.
  assert (Hpos : Lbl.Position (bound_label a) = Asm.Position a) by by apply small_position.
  split_and!; [done| |done|].
  - unfold Lbl.IsBound. apply negb_true_iff, Z.eqb_neq. change (Lbl.Position (bound_label a) <> -1).
    rewrite Hpos. unfold Asm.Position. lia.
  - intros p x Hx%elem_of_links. split; [by apply (linked_ok _ _ _ (p, x) Hlk)|].
    left. by apply (proj1 (all_fit_spec a _) Hfit (p, x)).
Qed.

Lemma bind_coherent L a ps l label' a' :
  coherent L a ps -> small a -> Lbl.IsBound (label_of L l) = false ->
  Branch.Bind (label_of L l) a = Ok (label', a') -> coherent (<[l := label']> L) a' ps.
Proof.
  intros Hc Hsm Hb HB. destruct (bind_resolves L a ps l _ _ Hc Hsm Hb HB) as (Hr & Hbd & Hpos & Hst).
  pose proof (resolved_length _ _ _ _ Hr) as Hlen.
  split; rewrite ?Hlen; try apply Hc.
  - intros p bs Hy. apply (resolved_bytes _ _ a _ _ _ Hr); [|by apply (co_fixed _ _ _ Hc)].
    intros x Hx. by apply (piece_links_apart L a ps l (p, Fixed bs)).
  - intros p x l' Hy Hl'. destruct (decide (l = l')) as [<-|Hne].
    + rewrite label_of_insert, Hpos. split; [|by apply Hst].
      apply (resolved_links _ _ _ _ Hr (p, x)). by apply elem_of_links.
    + rewrite label_of_insert_ne in * by done.
      destruct (co_bound _ _ _ Hc p x l' Hy Hl') as (Hbs & ? & ?). split_and!; [|done..].
      apply (resolved_bytes _ _ a _ _ _ Hr); [|done]. intros y Hy'. rewrite encode_length.
      apply (piece_links_apart L a ps l (p, Site x l')); [done..| |done].
      cbn. intros z [= _ ->]. done.
  - intros l' Hl'. unfold Asm.Position. rewrite Hlen. destruct (decide (l = l')) as [<-|Hne].
    + rewrite label_of_insert, Hpos. unfold Asm.Position. lia.
    + rewrite label_of_insert_ne in * by done. by apply (co_position _ _ _ Hc).
  - intros l' Hl'. destruct (decide (l = l')) as [<-|Hne].
    { rewrite label_of_insert in Hl'. congruence. }
    rewrite label_of_insert_ne in * by done. destruct (co_links _ _ _ Hc l' Hl') as [Ha Hh Hch].
    split; [done..|]. intros k. apply (chain_resolved (Asm.Position a) k (links_of l ps) _ a); [|done..].
    intros [p x] [q y] Hx%elem_of_links [_ Hy%elem_of_links]%elem_of_class.
    destruct (apart_disjoint _ _ _ _ (co_apart _ _ _ Hc) Hx Hy) as [E'|]; [|done].
    by simplify_eq.
Qed.

(** What the assertions of the assembler require of an item. *)
Definition item_ok (c : bool) (it : item) : bool :=
  match it with
  | Instr i => encodable c i
  | BranchTo _ rs1 rs2 _ _ => is_reg rs1 && is_reg rs2
  | JumpTo _ _ | BindTo _ => true
  end.

(** Positions the branches of the chosen level can span: the links of level one
    are not tested. *)
Definition room (a : MicroAssembler) : Prop :=
  small a /\ (far_branch_level_ a = 1 -> Asm.Position a <= 2 ^ 19 - 8).

(** Where an item is found in the buffer. *)
Definition placed (c : bool) (ps : pieces) (it : item) (p p' : nat) : Prop :=
  match it with
  | Instr i => exists a0, Asm.Supports a0 Extension.RV_C = c /\
      (p, Fixed (emitted a0 (assemble i a0))) ∈ ps /\
      p' = (p + length (emitted a0 (assemble i a0)))%nat
  | BranchTo op rs1 rs2 l _ =>
      (exists x, decides x op rs1 rs2 /\ (p, Site x l) ∈ ps /\ p' = (p + jump_size x)%nat) \/
      (exists y z, let len := Z.of_nat (jump_size y + jump_size z) in
        decides y (negate op) rs1 rs2 /\ jump_ok y /\ fits (klass_of y) len = true /\
        (z = Jal Register.ZR \/ z = Far) /\
        (p, Fixed (encode y len)) ∈ ps /\ (p + jump_size y, Site z l)%nat ∈ ps /\
        p' = (p + (jump_size y + jump_size z))%nat)
  | JumpTo l _ => exists x, goes x /\ (p, Site x l) ∈ ps /\ p' = (p + jump_size x)%nat
  | BindTo _ => p' = p
  end.

Lemma placed_mono c ps ps' it p p' :
  (forall y, y ∈ ps -> y ∈ ps') -> placed c ps it p p' -> placed c ps' it p p'.
Proof.
  intros Hs. destruct it; cbn [placed].
  - intros (a0 & ? & ? & ?). exists a0. auto.
  - intros [(x & ? & ? & ?)|(y & z & ? & ? & ? & ? & ? & ? & ?)].
    + left. exists x. auto.
    + right. exists y, z. split_and!; auto.
  - intros (x & ? & ? & ?). exists x. auto.
  - done.
Qed.

(** The effect of an item besides the code: what stays. *)
Record kept (it : item) (L L' : labels) (a a' : MicroAssembler) : Prop := {
  kept_extensions : extensions_ a' = extensions_ a;
  kept_level : far_branch_level_ a' = far_branch_level_ a;
  kept_bound : forall l, Lbl.IsBound (label_of L l) = true -> label_of L' l = label_of L l;
  kept_unbound : forall l, Lbl.IsBound (label_of L l) = false -> it <> BindTo l ->
    Lbl.IsBound (label_of L' l) = false;
  kept_bind : forall l, it = BindTo l ->
    Lbl.IsBound (label_of L' l) = true /\ Lbl.Position (label_of L' l) = Asm.Position a
}.

Lemma emits_append a label x label' a' :
  emits a label x label' a' -> exists off, a' = append (encode x off) a /\
    (Lbl.IsBound label = true -> label' = label) /\ (Lbl.IsBound label' = Lbl.IsBound label).
Proof.
  intros [off Hb Hp Hx Hs|off lab Hb Hlk Hx Hf]; exists off; split_and!; try done; [by rewrite Hb|].
  apply link_of_spec in Hlk as [Hp _]. unfold Lbl.IsBound in *. by rewrite Hp.
Qed.

Lemma emits_kept it L a1 a l x label' a' :
  extensions_ a1 = extensions_ a -> far_branch_level_ a1 = far_branch_level_ a ->
  (forall l, it <> BindTo l) -> emits a1 (label_of L l) x label' a' ->
  kept it L (<[l := label']> L) a a'.
Proof.
  intros E1 E2 Hit He. destruct (emits_append _ _ _ _ _ He) as (off & -> & Hb & Hu).
  split; [done..| | |by intros ? ?%Hit].
  - intros l' Hl'. destruct (decide (l = l')) as [<-|]; [rewrite label_of_insert; auto|].
    by rewrite label_of_insert_ne.
  - intros l' Hl' _. destruct (decide (l = l')) as [<-|];
      [rewrite label_of_insert; congruence|by rewrite label_of_insert_ne].
Qed.

Lemma emits_length a label x label' a' :
  emits a label x label' a' ->
  length (buffer_ a') = (length (buffer_ a) + jump_size x)%nat.
Proof.
  intros (off & -> & _)%emits_append. unfold append. cbn. by rewrite length_app, encode_length.
Qed.

(** Code that stays. *)
Lemma fixed_coherent L a ps bs :
  coherent L a ps -> Nat.Even (length bs) ->
  coherent L (append bs a) ((length (buffer_ a), Fixed bs) :: ps).
Proof.
  intros Hc He. apply (push L); [done..| |]; [auto|]. apply bytes_at_end.
Qed.

(** The links of level one fit. *)
Lemma level_one_fits L a ps l :
  coherent L a ps -> room a -> level_one_links a (label_of L l).
Proof.
  intros Hc [Hs Hr] Hlev Hb n Hn. specialize (Hr Hlev). unfold small, Asm.Position in *.
  destruct (link_of j _ _) as [off lab] eqn:E.
  apply link_of_spec in E as (_ & -> & _). cbn [fst fits].
  rewrite (swrap_small 32) by (unfold is_s; lia).
  rewrite (linked_heads _ _ _ (co_links _ _ _ Hc l Hb)).
  set (ls := of_class j (links_of l ps)).
  assert (Hls : forall y, y ∈ ls -> Nat.Even y.1 /\ (y.1 <= length (buffer_ a))%nat).
  { intros [q y] [_ Hy%elem_of_links]%elem_of_class. split; [apply (co_even _ _ _ Hc _ Hy)|].
    pose proof (co_inside _ _ _ Hc _ Hy). cbn in *. lia. }
  replace (Z.of_nat (length (buffer_ a)) + n) with (Z.of_nat (length (buffer_ a) + Z.to_nat n)) by lia.
  rewrite link_offset_head. apply IsJTypeImm_spec. destruct ls as [|y ls']; [done|].
  destruct (Hls y ltac:(by constructor)) as [[m Hm] Hle]. cbn [link].
  destruct (co_length _ _ _ Hc) as [k Hk]. split; [unfold is_s; lia|].
  rewrite Hk, Hm. destruct Hn as [-> |[-> | ->]];
    [replace (_ - _) with ((Z.of_nat k - Z.of_nat m) * 2) by lia
    |replace (_ - _) with ((Z.of_nat k + 1 - Z.of_nat m) * 2) by lia
    |replace (_ - _) with ((Z.of_nat k + 2 - Z.of_nat m) * 2) by lia]; apply Z_mod_mult.
Qed.

Lemma assemble_append i a :
  exists bs, assemble i a = append bs a /\ emitted a (assemble i a) = bs /\ Nat.Even (length bs).
Proof.
  exists (emitted a (assemble i a)).
  destruct (one_instruction_buffer _ _ (assemble_one i a)) as (Eb & Ee & Hl).
  destruct (assemble_one i a) as (w & [E|[E _]]); split_and!; try done.
  - rewrite E in *. unfold emitted, append, Asm.Emit32, set_buffer in *. cbn [buffer_] in *.
    by rewrite drop_app_length.
  - destruct Hl as [-> |[-> _]]; [by exists 2%nat|by exists 1%nat].
  - rewrite E in *. unfold emitted, append, Asm.Emit16, set_buffer in *. cbn [buffer_] in *.
    by rewrite drop_app_length.
  - destruct Hl as [-> |[-> _]]; [by exists 2%nat|by exists 1%nat].
Qed.

Lemma branch_coherent op rs1 rs2 l d L a ps label' a' c :
  coherent L a ps -> small a -> small a' ->
  branch_emitted op rs1 rs2 a (label_of L l) label' a' ->
  exists new, coherent (<[l := label']> L) a' (new ++ ps) /\
    placed c (new ++ ps) (BranchTo op rs1 rs2 l d) (length (buffer_ a)) (length (buffer_ a')) /\
    kept (BranchTo op rs1 rs2 l d) L (<[l := label']> L) a a'.
Proof.
  intros Hc Hs Hs' Hem. revert Hs'. destruct Hem as [x lab a1 Hd He|y z lab a1 len Hd Hy Hf Hz He]; intros Hs'.
  - exists [(length (buffer_ a), Site x l)]. split_and!.
    + by apply emits_coherent.
    + left. exists x. rewrite (emits_length _ _ _ _ _ He). split_and!; [done|by constructor|done].
    + by apply (emits_kept _ L a a l x).
  - assert (Hl1 : length (buffer_ (append (encode y len) a)) = (length (buffer_ a) + jump_size y)%nat).
    { unfold append. cbn. by rewrite length_app, encode_length. }
    pose proof (emits_length _ _ _ _ _ He) as Hl. rewrite Hl1 in Hl.
    exists [(length (buffer_ (append (encode y len) a)), Site z l);
            (length (buffer_ a), Fixed (encode y len))]. split_and!.
    + apply emits_coherent; [| |done].
      * apply fixed_coherent; [done|]. rewrite encode_length. apply jump_size_even.
      * unfold small, Asm.Position in *. lia.
    + right. exists y, z. rewrite Hl1, Hl. split_and!; [done..|by do 2 constructor|by constructor|lia].
    + by apply (emits_kept _ L (append (encode y len) a) a l z).
Qed.

Lemma item_coherent it L a ps L' a' :
  let c := Asm.Supports a Extension.RV_C in
  coherent L a ps -> room a -> small a' -> item_ok c it = true ->
  (forall l, it = BindTo l -> Lbl.IsBound (label_of L l) = false) ->
  assemble_item it L a = Ok (L', a') ->
  exists new, coherent L' a' (new ++ ps) /\
    placed c (new ++ ps) it (length (buffer_ a)) (length (buffer_ a')) /\ kept it L L' a a'.
Proof.
  intros c Hc Hr Hs' Hok Hub. destruct it as [i|op rs1 rs2 l d|l d|l]; cbn [assemble_item item_ok] in *.
  - intros [= <- <-]. destruct (assemble_append i a) as (bs & E & Eb & He).
    exists [(length (buffer_ a), Fixed bs)]. rewrite E. split_and!.
    + by apply fixed_coherent.
    + exists a. rewrite Eb. split_and!; [done|by constructor|].
      unfold append. cbn. by rewrite length_app.
    + by split.
  - unfold with_label. intros ([lab a1] & E & [= <- <-])%bind_Ok_inv. reflect_bool.
    repeat match goal with H : is_reg _ = true |- _ => apply is_reg_spec in H end.
    apply branch_coherent; [done|apply Hr|done|].
    apply branch_method_emits in E; [done..|]. by apply (level_one_fits L a ps).
  - unfold with_label. intros ([lab a1] & E & [= <- <-])%bind_Ok_inv.
    apply jal_emits in E as (x & Hg & He).
    exists [(length (buffer_ a), Site x l)]. split_and!.
    + apply emits_coherent; [done|apply Hr|done].
    + exists x. rewrite (emits_length _ _ _ _ _ He). split_and!; [done|by constructor|done].
    + by apply (emits_kept _ L a a l x).
  - unfold with_label. intros ([lab a1] & E & [= <- <-])%bind_Ok_inv. specialize (Hub l eq_refl).
    destruct (bind_resolves L a ps l _ _ Hc (proj1 Hr) Hub E) as (Hres & Hb & Hp & _).
    exists []. split_and!.
    + by apply (bind_coherent L a ps l lab a1 Hc (proj1 Hr)).
    + apply Hres.
    + split; [apply Hres|apply Hres| | |].
      * intros l' Hl'. rewrite label_of_insert_ne; [done|]. intros ->. congruence.
      * intros l' Hl' Hn. rewrite label_of_insert_ne; congruence.
      * intros l' [= <-]. by rewrite label_of_insert.
Qed.

(** ** The whole program *)

Definition binds (it : item) : option nat :=
  match it with BindTo l => Some l | _ => None end.

(** No label is bound twice. *)
Definition bound_once (prog : list item) : Prop := NoDup (omap binds prog).

Lemma bound_once_cons it prog :
  bound_once (it :: prog) -> bound_once prog /\ forall l, BindTo l ∈ prog -> it <> BindTo l.
Proof.
  unfold bound_once. cbn [omap list_omap]. intros Hn. split.
  - destruct (binds it); [by apply NoDup_cons in Hn as [_ Hn]|done].
  - intros l Hl ->. cbn in Hn. apply NoDup_cons in Hn as [Hn _]. apply Hn, list_elem_of_omap.
    by exists (BindTo l).
Qed.

(** What is known of an assembled program: the pieces of every item, and that the
    labels are bound where the program binds them. *)
Record assembled (c : bool) (prog : list item) (lay : list nat) (L : labels) (a : MicroAssembler)
    (ps : pieces) : Prop := {
  as_coherent : coherent L a ps;
  as_supports : Asm.Supports a Extension.RV_C = c;
  as_end : lay !! length prog = Some (length (buffer_ a));
  as_placed : forall k it, prog !! k = Some it -> exists p p',
    lay !! k = Some p /\ lay !! S k = Some p' /\ placed c ps it p p';
  as_bound : forall k l p, prog !! k = Some (BindTo l) -> lay !! k = Some p ->
    Lbl.IsBound (label_of L l) = true /\ Lbl.Position (label_of L l) = Z.of_nat p
}.

Lemma assembled_cons c it prog L L1 L' a a1 a' ps1 ps' lay :
  kept it L L1 a a1 -> placed c ps1 it (length (buffer_ a)) (length (buffer_ a1)) ->
  (forall y, y ∈ ps1 -> y ∈ ps') -> lay !! 0%nat = Some (length (buffer_ a1)) ->
  (forall l, Lbl.IsBound (label_of L1 l) = true -> label_of L' l = label_of L1 l) ->
  assembled c prog lay L' a' ps' ->
  assembled c (it :: prog) (length (buffer_ a) :: lay) L' a' ps'.
Proof.
  intros Hk Hpl Hps Hlay HbL [Ac As Ae Ap Ab]. split; [done|done|done| |].
  - intros [|k] it' Hk'; cbn [lookup list_lookup] in *; [|by apply Ap].
    injection Hk' as <-. exists (length (buffer_ a)), (length (buffer_ a1)).
    split_and!; [done..|]. by apply (placed_mono _ ps1).
  - intros [|k] l p Hk' Hp'; cbn [lookup list_lookup] in *; [|by apply (Ab k)].
    injection Hk' as ->. injection Hp' as <-.
    destruct (kept_bind _ _ _ _ _ Hk l eq_refl) as [Hb Hpos]. by rewrite HbL.
Qed.

Lemma assemble_items_ok prog : forall L a ps L' a',
  let c := Asm.Supports a Extension.RV_C in
  coherent L a ps -> forallb (item_ok c) prog = true -> bound_once prog ->
  (forall l, BindTo l ∈ prog -> Lbl.IsBound (label_of L l) = false) ->
  Forall (fun p => Z.of_nat p <= 2 ^ 30 /\ (far_branch_level_ a = 1 -> Z.of_nat p <= 2 ^ 19 - 8))
    (layout prog L a) ->
  assemble_items prog L a = Ok (L', a') ->
  exists ps', (forall y, y ∈ ps -> y ∈ ps') /\
    (forall l, Lbl.IsBound (label_of L l) = true -> label_of L' l = label_of L l) /\
    assembled c prog (layout prog L a) L' a' ps'.
Proof.
  induction prog as [|it prog IH]; intros L a ps L' a' c Hc Hok Hn Hub Hlay E.
  { injection E as <- <-. exists ps. split_and!; [done..|]. by split. }
  apply bound_once_cons in Hn.
  cbn [assemble_items layout] in *. apply bind_Ok_inv in E as ([L1 a1] & E1 & E). rewrite E1 in *.
  apply Forall_cons in Hlay as [Hp Hlay]. cbn [forallb] in Hok. apply andb_true_iff in Hok as [Hi Hok].
  assert (Hs1 : small a1).
  { destruct prog as [|it' prog]; cbn [layout] in Hlay; apply Forall_cons in Hlay as [[H _] _]; exact H. }
  destruct (item_coherent it L a ps L1 a1 Hc) as (new & Hc1 & Hpl & Hk); [exact Hp|done|done| |done|].
  { intros l ->. apply Hub. by constructor. }
  destruct (IH L1 a1 (new ++ ps) L' a') as (ps' & Hps & HbL & Has).
  - done.
  - unfold Asm.Supports. by rewrite (kept_extensions _ _ _ _ _ Hk).
  - apply Hn.
  - intros l Hl. apply (kept_unbound _ _ _ _ _ Hk); [apply Hub; by constructor|by apply Hn].
  - by rewrite (kept_level _ _ _ _ _ Hk).
  - done.
  - exists ps'. split_and!.
    + intros y Hy. apply Hps, elem_of_app. by right.
    + intros l Hl. rewrite HbL, (kept_bound _ _ _ _ _ Hk); [done|done|].
      by rewrite (kept_bound _ _ _ _ _ Hk).
    + assert (Hc1' : Asm.Supports a1 Extension.RV_C = c).
      { unfold c, Asm.Supports. by rewrite (kept_extensions _ _ _ _ _ Hk). }
      rewrite Hc1' in Has. apply (assembled_cons c it prog L L1 L' a a1 a' (new ++ ps)); try done.
      by destruct prog.
Qed.

(** ** Assembling from the start *)

(** The code generator of a program, at a level of far branches. *)
Definition generate (ext : Z) (prog : list item) (level : Z) : asm_result (labels * MicroAssembler) :=
  assemble_items prog ∅ (mkAsm [] ext level).

Definition supports_c (ext : Z) : bool := Includes ext Extension.RV_C.

Definition positions (ext : Z) (prog : list item) (level : Z) : list nat :=
  layout prog ∅ (mkAsm [] ext level).

(** Positions are [int32_t]s that far jumps reach, and at level one the links,
    which are not tested, reach too. *)
Definition within (level : Z) (lay : list nat) : Prop :=
  Forall (fun p => Z.of_nat p <= 2 ^ 30 /\ (level = 1 -> Z.of_nat p <= 2 ^ 19 - 8)) lay.

Lemma generate_ok ext prog level L a :
  forallb (item_ok (supports_c ext)) prog = true -> bound_once prog ->
  within level (positions ext prog level) -> generate ext prog level = Ok (L, a) ->
  small a /\ exists ps, assembled (supports_c ext) prog (positions ext prog level) L a ps.
Proof.
  intros Hok Hn Hw E.
  destruct (assemble_items_ok prog ∅ (mkAsm [] ext level) [] L a) as (ps & _ & _ & Has); try done.
  - by apply coherent_new.
  - split; [|by exists ps]. unfold within in Hw. rewrite Forall_forall in Hw.
    destruct (Hw (length (buffer_ a))) as [Hs _]; [|exact Hs].
    apply (list_elem_of_lookup_2 _ (length prog)), (as_end _ _ _ _ _ _ Has).
Qed.
