(* ===== verification/RiscvProgramRuns.v ===== *)
(** * The simulator runs programs with labels

    In an assembled program every branch goes to its label within three rounds
    of the simulator, and the simulator follows the program item by item:
    [program_runs]. *)

From Stdlib Require Import Sorting.Sorted.
From S2P Require Import Prelude Utils RiscvConstants RiscvEncoding RiscvAssembler RiscvLabels.
From S2P Require Import SimMemory RiscvSimulator RiscvArith RiscvIsa RiscvDecode RiscvInterpret.
From S2P Require Import RiscvTables RiscvBranches RiscvCompressed RiscvJumps RiscvCorrect RiscvEmit RiscvPrograms.

#[local] Arguments encode : simpl never.

(** ** Running assembled branches *)

Lemma code_at_bytes h base buf p bs :
  code_at h base buf -> bytes_at buf p bs -> (p + length bs <= length buf)%nat ->
  code_at h (base + Z.of_nat p) bs.
Proof.
  intros Hc Hb Hl i Hi. rewrite <- (Hb i Hi), <- Hc by lia. f_equal. lia.
Qed.

Section Run.
Context {M : Type} `{MemoryOps M}.
Implicit Types s : Simulator M.

Lemma taken_decides x op rs1 rs2 s :
  decides x op rs1 rs2 -> sim_wf s ->
  taken x s = bop_sem op (get_xreg rs1 s) (get_xreg rs2 s).
Proof.
  intros Hd Hs. pose proof (get_xreg_zr s Hs) as Hz.
  destruct Hd; cbn [taken bop_sem]; rewrite ?Hz; try done; by rewrite Z.eqb_sym.
Qed.

(** Weakening the registers that may change: [x0] never does. *)
Lemma moved_weaken rs rs' pc s s' :
  (forall r, r ∈ rs -> r ∈ rs' \/ r = Register.ZR) -> sim_wf s ->
  moved rs pc s s' -> moved rs' pc s s'.
Proof.
  intros Hr Hs [? Hreg ? ? ? ? Hw]. split; try done. intros r Hu Hn.
  destruct (decide (r = Register.ZR)) as [->|Hz].
  - by rewrite !get_xreg_zr.
  - apply Hreg; [done|]. intros Hin. destruct (Hr r Hin); done.
Qed.

(** A program loaded at [base]. *)
Context (base : Z) (L : labels) (a : MicroAssembler) (ps : pieces).
Hypotheses (Hco : coherent L a ps) (Hsm : small a)
  (Hbase : 0 <= base /\ base + Asm.Position a + 8 <= 2 ^ 64).

Definition runs_at (p : nat) s : Prop :=
  sim_wf s /\ code_at (process (memory_ s)) base (buffer_ a) /\ pc_ s = base + Z.of_nat p.

Lemma moved_runs_at rs p s s' :
  code_at (process (memory_ s)) base (buffer_ a) ->
  moved rs (base + Z.of_nat p) s s' -> runs_at p s'.
Proof.
  intros Hc Hm. split_and!; [apply Hm| |apply Hm]. by rewrite (moved_memory _ _ _ _ Hm).
Qed.

(** The distances that [jal] of a long backward branch cannot cover. *)
Definition in_gap (off : Z) : Prop := -524296 <= off < -524284.

Lemma settled_reaches x off :
  settled x off -> - 2 ^ 30 <= off <= 2 ^ 30 ->
  (klass_of x = j -> - 2 ^ 19 - 8 <= off < - 2 ^ 19 -> False) ->
  reaches (klass_of x) off.
Proof.
  intros [Hf|(Hk & Ho & [Hf _]%IsJTypeImm_spec)] Hr Hg; [split; [done|lia]|].
  exfalso. apply (Hg Hk). unfold is_s in Hf. lia.
Qed.

Lemma runs_at_pc p n s :
  (p + n <= length (buffer_ a))%nat -> runs_at p s ->
  u64 (pc_ s + Z.of_nat n) = base + Z.of_nat (p + n).
Proof.
  intros Hp (_ & _ & Hpc). rewrite Hpc. unfold Asm.Position in *.
  rewrite uwrap_small by (unfold is_u; lia). lia.
Qed.

(** A jump to a bound label. *)
Lemma site_executes p x l s :
  (p, Site x l) ∈ ps -> Lbl.IsBound (label_of L l) = true -> runs_at p s ->
  let t := Lbl.Position (label_of L l) in
  (klass_of x = j -> - 2 ^ 19 - 8 <= t - Z.of_nat p < - 2 ^ 19 -> False) ->
  exists s', steps (rounds x) s = Ok s' /\
    moved (clobbers x) (base + (if taken x s then t else Z.of_nat (p + jump_size x))) s s'.
Proof.
  intros Hin Hb Hrun t Hg. pose proof Hrun as (Hs & Hc & Hpc).
  destruct (co_bound _ _ _ Hco p x l Hin Hb) as (Hbs & Hx & Hst).
  pose proof (co_position _ _ _ Hco l Hb) as Ht. fold t in Hbs, Hst, Ht.
  pose proof (co_inside _ _ _ Hco _ Hin) as Hp. cbn [fst snd piece_size] in Hp.
  unfold small, Asm.Position in *.
  destruct (jump_executes x (t - Z.of_nat p) s) as (s' & E & Hm & _).
  - done.
  - done.
  - apply settled_reaches; [done|lia|done].
  - lia.
  - unfold loaded. rewrite Hpc.
    apply (code_at_bytes _ _ (buffer_ a)); [done..|]. by rewrite encode_length.
  - exists s'. split; [done|].
    replace (base + _) with (continues x (t - Z.of_nat p) s); [done|].
    unfold continues. destruct (taken x s).
    + rewrite Hpc, uwrap_small; [lia|unfold is_u; lia].
    + by apply runs_at_pc.
Qed.

(** Only the register of far jumps changes. *)
Definition quiet (x : jump) : Prop :=
  forall r, r ∈ clobbers x -> r ∈ [Register.FAR_TMP] \/ r = Register.ZR.

Lemma goes_quiet x : goes x -> quiet x.
Proof.
  intros [-> |[-> | ->]] r Hr; cbn [clobbers] in Hr; [by apply not_elem_of_nil in Hr| |by left].
  right. by apply list_elem_of_singleton in Hr.
Qed.

Lemma decides_direct x op rs1 rs2 :
  decides x op rs1 rs2 -> clobbers x = [] /\ rounds x = 1%nat /\ klass_of x <> j /\
  (jump_size x = 2%nat \/ jump_size x = 4%nat).
Proof. intros []; cbn; auto. Qed.

(** An inverted branch around a long jump to a bound label. *)
Lemma around_executes y z op rs1 rs2 l p s :
  let len := Z.of_nat (jump_size y + jump_size z) in
  decides y (negate op) rs1 rs2 -> jump_ok y -> fits (klass_of y) len = true ->
  z = Jal Register.ZR \/ z = Far ->
  (p, Fixed (encode y len)) ∈ ps -> ((p + jump_size y)%nat, Site z l) ∈ ps ->
  Lbl.IsBound (label_of L l) = true ->
  let t := Lbl.Position (label_of L l) in
  ~ in_gap (t - Z.of_nat p) -> runs_at p s ->
  exists n s', (1 <= n <= 3)%nat /\ steps n s = Ok s' /\
    moved [Register.FAR_TMP]
      (base + if bop_sem op (get_xreg rs1 s) (get_xreg rs2 s) then t
              else Z.of_nat (p + (jump_size y + jump_size z))) s s'.
Proof.
  intros len Hd Hy Hf Hz Hin1 Hin2 Hb t Hg Hrun. pose proof Hrun as (Hs & Hc & Hpc).
  unfold in_gap in Hg. destruct (decides_direct _ _ _ _ Hd) as (Hcl & Hry & _ & Hsz).
  pose proof (co_inside _ _ _ Hco _ Hin1) as Hp1. pose proof (co_inside _ _ _ Hco _ Hin2) as Hp2.
  cbn [fst snd piece_size] in Hp1, Hp2. rewrite encode_length in Hp1.
  assert (Hlen : 0 <= len <= 12) by (unfold len; destruct Hz as [-> | ->]; cbn; lia).
  destruct (jump_executes y len s) as (s1 & E1 & Hm1 & _); [done..|split; [done|lia]| | |].
  { rewrite Hpc. unfold Asm.Position in *. lia. }
  { unfold loaded. rewrite Hpc. apply (code_at_bytes _ _ (buffer_ a)); [done| |by rewrite encode_length].
    by apply (co_fixed _ _ _ Hco). }
  unfold continues in Hm1. rewrite (taken_decides y (negate op) rs1 rs2), negate_sem in Hm1 by done.
  rewrite Hcl in Hm1. rewrite Hry in E1.
  destruct (bop_sem op _ _) eqn:Hb1; cbn [negb] in Hm1.
  - rewrite (runs_at_pc p) in Hm1 by done.
    destruct (site_executes _ z l s1 Hin2 Hb) as (s2 & E2 & Hm2).
    { by apply (moved_runs_at [] _ s). }
    { fold t. intros _. lia. }
    exists (1 + rounds z)%nat, s2. split_and!; [lia|by destruct Hz as [-> | ->]; cbn; lia| |].
    + by rewrite (steps_app 1 _ s s1).
    + apply (moved_weaken ([] ++ clobbers z)); [by apply goes_quiet; right|done|].
      assert (taken z s1 = true) as Htk by by destruct Hz as [-> | ->]. rewrite Htk in Hm2.
      exact (moved_trans _ _ _ _ _ _ _ Hm1 Hm2).
  - exists 1%nat, s1. split_and!; [lia..|done|].
    unfold len in Hm1. rewrite (runs_at_pc p) in Hm1 by (done || lia).
    apply (moved_weaken []); [|done..]. by intros r ?%not_elem_of_nil.
Qed.

(** A branch item: to its label when the condition holds, on to the next item
    otherwise. *)
Lemma branch_executes c op rs1 rs2 l d p p' s :
  placed c ps (BranchTo op rs1 rs2 l d) p p' -> Lbl.IsBound (label_of L l) = true ->
  let t := Lbl.Position (label_of L l) in
  ~ in_gap (t - Z.of_nat p) -> runs_at p s ->
  exists n s', (1 <= n <= 3)%nat /\ steps n s = Ok s' /\
    moved [Register.FAR_TMP]
      (base + if bop_sem op (get_xreg rs1 s) (get_xreg rs2 s) then t else Z.of_nat p') s s'.
Proof.
  intros Hpl Hb t Hg Hrun. pose proof Hrun as (Hs & _ & _).
  destruct Hpl as [(x & Hd & Hin & ->)|(y & z & Hd & Hy & Hf & Hz & Hin1 & Hin2 & ->)].
  - destruct (decides_direct _ _ _ _ Hd) as (Hcl & Hrx & Hk & _).
    destruct (site_executes p x l s Hin Hb Hrun) as (s' & E & Hm); [done|].
    exists 1%nat, s'. rewrite Hrx in E. rewrite Hcl in Hm. split_and!; [lia..|done|].
    rewrite <- (taken_decides x) by done.
    apply (moved_weaken []); [|done..]. by intros r ?%not_elem_of_nil.
  - by apply around_executes.
Qed.

Lemma jump_item_executes c l d p p' s :
  placed c ps (JumpTo l d) p p' -> Lbl.IsBound (label_of L l) = true ->
  let t := Lbl.Position (label_of L l) in
  ~ in_gap (t - Z.of_nat p) -> runs_at p s ->
  exists n s', (1 <= n <= 3)%nat /\ steps n s = Ok s' /\
    moved [Register.FAR_TMP] (base + t) s s'.
Proof.
  intros (x & Hg & Hin & ->) Hb t Hgap Hrun. unfold in_gap in Hgap. pose proof Hrun as (Hs & _ & _).
  destruct (site_executes p x l s Hin Hb Hrun) as (s' & E & Hm); [fold t; lia|].
  exists (rounds x), s'. split_and!; [by destruct x; cbn; lia..|done|].
  apply (moved_weaken (clobbers x)); [by apply goes_quiet|done|].
  assert (taken x s = true) as Htk by by destruct Hg as [-> |[-> | ->]]. by rewrite Htk in Hm.
Qed.
End Run.

(** ** The meaning of a program *)

Definition uses (it : item) : option nat :=
  match it with BranchTo _ _ _ l _ | JumpTo l _ => Some l | _ => None end.

(** Every label that is used is bound somewhere. *)
Definition closed (prog : list item) : Prop :=
  forall k it l, prog !! k = Some it -> uses it = Some l -> exists k', prog !! k' = Some (BindTo l).

(** One item of the program [prog] laid out by [lay] at [base]: an instruction does
    what the manual specifies, a branch continues at the item that binds its label
    when its condition holds, and may change the register of far jumps. *)
Inductive item_step (prog : list item) (lay : list nat) (base : Z)
    : nat * Simulator host -> nat * Simulator host -> Prop :=
| item_instr k i p p' s s' :
    prog !! k = Some (Instr i) -> lay !! k = Some p -> lay !! S k = Some p' ->
    exec i (Z.of_nat (p' - p)) s = Ok s' -> item_step prog lay base (k, s) (S k, s')
| item_branch k op rs1 rs2 l d k' p' s s' :
    prog !! k = Some (BranchTo op rs1 rs2 l d) ->
    (if bop_sem op (get_xreg rs1 s) (get_xreg rs2 s)
     then prog !! k' = Some (BindTo l) else k' = S k) ->
    lay !! k' = Some p' -> moved [Register.FAR_TMP] (base + Z.of_nat p') s s' ->
    item_step prog lay base (k, s) (k', s')
| item_jump k l d k' p' s s' :
    prog !! k = Some (JumpTo l d) -> prog !! k' = Some (BindTo l) ->
    lay !! k' = Some p' -> moved [Register.FAR_TMP] (base + Z.of_nat p') s s' ->
    item_step prog lay base (k, s) (k', s')
| item_bind k l s :
    prog !! k = Some (BindTo l) -> item_step prog lay base (k, s) (S k, s).

(** No backward branch has a distance in the gap. *)
Definition no_gap (prog : list item) (lay : list nat) : Prop :=
  forall k it l k' p p', prog !! k = Some it -> uses it = Some l ->
    prog !! k' = Some (BindTo l) -> lay !! k = Some p -> lay !! k' = Some p' ->
    ~ in_gap (Z.of_nat p' - Z.of_nat p).

(** The next instruction does not store into the code. *)
Definition store_avoids (prog : list item) (base len : Z) (x : nat * Simulator host) : Prop :=
  forall op rs2 addr, prog !! x.1 = Some (Instr (Store op rs2 addr)) ->
    address addr x.2 + ct_sizeof (sop_type op) <= base \/ base + len <= address addr x.2.

Definition straight_item (it : item) : bool :=
  match it with Instr i => straight i | _ => true end.

Section Program.
Context (c : bool) (prog : list item) (lay : list nat) (L : labels) (a : MicroAssembler)
  (ps : pieces) (base : Z).
Hypotheses (Has : assembled c prog lay L a ps) (Hsm : small a)
  (Hok : forallb (item_ok c) prog = true) (Hst : forallb straight_item prog = true)
  (Hcl : closed prog) (Hgap : no_gap prog lay)
  (Hbase : 0 <= base /\ base + Asm.Position a + 8 <= 2 ^ 64).

(** The simulator is at the item [k]. *)
Definition at_item (k : nat) (s : Simulator host) : Prop :=
  exists p, lay !! k = Some p /\ runs_at base a p s.

Lemma prog_ok k it : prog !! k = Some it -> item_ok c it = true /\ straight_item it = true.
Proof.
  intros Hk. apply list_elem_of_lookup_2, list_elem_of_In in Hk.
  split; [by apply (proj1 (forallb_forall _ _) Hok)|by apply (proj1 (forallb_forall _ _) Hst)].
Qed.

Lemma label_target k it l p :
  prog !! k = Some it -> uses it = Some l -> lay !! k = Some p ->
  exists k' p', prog !! k' = Some (BindTo l) /\ lay !! k' = Some p' /\
    Lbl.IsBound (label_of L l) = true /\ Lbl.Position (label_of L l) = Z.of_nat p' /\
    ~ in_gap (Lbl.Position (label_of L l) - Z.of_nat p).
Proof.
  intros Hk Hu Hp. destruct (Hcl k it l Hk Hu) as [k' Hk'].
  destruct (as_placed _ _ _ _ _ _ Has k' _ Hk') as (p' & _ & Hp' & _).
  destruct (as_bound _ _ _ _ _ _ Has k' l p' Hk' Hp') as [Hb Hpos].
  exists k', p'. split_and!; [done..|]. rewrite Hpos. by apply (Hgap k it l k' p p').
Qed.

(** One instruction of the program. *)
Lemma instr_item k i p p' s :
  prog !! k = Some (Instr i) -> lay !! k = Some p -> lay !! S k = Some p' ->
  placed c ps (Instr i) p p' -> runs_at base a p s -> store_avoids prog base (Asm.Position a) (k, s) ->
  step s = exec i (Z.of_nat (p' - p)) s /\ forall s', step s = Ok s' -> at_item (S k) s'.
Proof.
  intros Hk Hp Hp' (a0 & Hc0 & Hin & ->) (Hs & Hc & Hpc) Hav.
  destruct (prog_ok _ _ Hk) as [Hi Hsi]. cbn [item_ok straight_item] in *.
  pose proof (as_coherent _ _ _ _ _ _ Has) as Hco.
  pose proof (co_inside _ _ _ Hco _ Hin) as Hle. cbn [fst snd piece_size] in Hle.
  set (bs := emitted a0 (assemble i a0)) in *.
  assert (Hstep : step s = exec i (Z.of_nat (length bs)) s).
  { apply instruction_implements; [done|by rewrite Hc0|by destruct i|].
    unfold loaded. rewrite Hpc. apply (code_at_bytes _ _ (buffer_ a)); [done| |done].
    by apply (co_fixed _ _ _ Hco). }
  replace (p + length bs - p)%nat with (length bs) by lia.
  split; [done|]. intros s' E. rewrite Hstep in E.
  destruct (exec_frame i _ s s' Hsi (ex_intro _ c Hi) Hs E) as (Hs' & Hpc' & _).
  exists (p + length bs)%nat. split; [done|]. split_and!; [done| |].
  - apply (exec_keeps_code i _ s s' base (buffer_ a) Hsi (ex_intro _ c Hi) Hs E); [|done].
    destruct i; try done. by apply (Hav op rs2 addr).
  - rewrite Hpc'. by apply (runs_at_pc base a Hbase p).
Qed.

(** The simulator at an item takes a step of the program. *)
Lemma program_step k it s :
  prog !! k = Some it -> at_item k s -> store_avoids prog base (Asm.Position a) (k, s) ->
  (exists n k' s', steps n s = Ok s' /\ item_step prog lay base (k, s) (k', s') /\ at_item k' s') \/
  (exists i p p' e, it = Instr i /\ lay !! k = Some p /\ lay !! S k = Some p' /\
    exec i (Z.of_nat (p' - p)) s = Err e /\ step s = Err e).
Proof.
  intros Hk (p & Hp & Hrun) Hav. pose proof (as_coherent _ _ _ _ _ _ Has) as Hco.
  destruct (as_placed _ _ _ _ _ _ Has k it Hk) as (p0 & p' & Hp0 & Hp' & Hpl).
  assert (p0 = p) as -> by congruence.
  destruct it as [i|op rs1 rs2 l d|l d|l].
  - destruct (instr_item k i p p' s Hk Hp Hp' Hpl Hrun Hav) as [Hstep Hnext].
    destruct (step s) as [s'|e] eqn:E; [left|right].
    + exists 1%nat, (S k), s'. cbn [steps]. rewrite E. split_and!; [done| |by apply Hnext].
      by eapply item_instr.
    + exists i, p, p', e. done.
  - left. destruct (label_target k _ l p Hk eq_refl Hp) as (k' & q & Hk' & Hq & Hb & Hpos & Hg).
    destruct (branch_executes base L a ps Hco Hsm Hbase c op rs1 rs2 l d p p' s Hpl Hb Hg Hrun)
      as (n & s' & _ & E & Hm). rewrite Hpos in Hm.
    destruct (bop_sem op _ _) eqn:Hcond.
    + exists n, k', s'. split_and!; [done| |].
      * eapply item_branch; [done|by rewrite Hcond|done..].
      * exists q. split; [done|]. by apply (moved_runs_at base a [Register.FAR_TMP] q s); [apply Hrun|].
    + exists n, (S k), s'. split_and!; [done| |].
      * eapply item_branch; [done|by rewrite Hcond|done..].
      * exists p'. split; [done|]. by apply (moved_runs_at base a [Register.FAR_TMP] p' s); [apply Hrun|].
  - left. destruct (label_target k _ l p Hk eq_refl Hp) as (k' & q & Hk' & Hq & Hb & Hpos & Hg).
    destruct (jump_item_executes base L a ps Hco Hsm Hbase c l d p p' s Hpl Hb Hg Hrun)
      as (n & s' & _ & E & Hm). rewrite Hpos in Hm.
    exists n, k', s'. split_and!; [done|by eapply item_jump|].
    exists q. split; [done|]. by apply (moved_runs_at base a [Register.FAR_TMP] q s); [apply Hrun|].
  - left. cbn in Hpl. subst p'. exists 0%nat, (S k), s.
    split_and!; [done|by eapply item_bind|]. by exists p.
Qed.

(** How [m] items of the program are executed: all of them, or up to the end of
    the program, or up to an instruction that fails. *)
Definition runs (m : nat) (k : nat) (s : Simulator host) : Prop :=
  exists m' n k' s', (m' <= m)%nat /\
    nsteps (item_step prog lay base) m' (k, s) (k', s') /\ steps n s = Ok s' /\ at_item k' s' /\
    (m' = m \/ k' = length prog \/
     exists i p p' e, prog !! k' = Some (Instr i) /\ lay !! k' = Some p /\ lay !! S k' = Some p' /\
       exec i (Z.of_nat (p' - p)) s' = Err e /\ steps (S n) s = Err e).

Lemma program_runs m : forall k s,
  at_item k s -> (k <= length prog)%nat ->
  (forall m' x, nsteps (item_step prog lay base) m' (k, s) x ->
    store_avoids prog base (Asm.Position a) x) ->
  runs m k s.
Proof.
  induction m as [|m IH]; intros k s Hat Hk Hav.
  { exists 0%nat, 0%nat, k, s. split_and!; [lia|constructor|done|done|by left]. }
  destruct (prog !! k) as [it|] eqn:Hit; cycle 1.
  { apply lookup_ge_None in Hit. exists 0%nat, 0%nat, k, s.
    split_and!; [lia|constructor|done|done|right; left; lia]. }
  destruct (program_step k it s Hit Hat (Hav 0%nat _ ltac:(constructor)))
    as [(n & k' & s' & E & Hstep & Hat')|(i & p & p' & e & -> & Hp & Hp' & Hx & E)].
  - destruct (IH k' s' Hat') as (m' & n' & k2 & s2 & Hm & Hpath & E2 & Hat2 & Hend).
    + inversion Hstep; subst; try (apply lookup_lt_Some in Hit; lia).
      * destruct (bop_sem _ _ _); subst; eauto using lookup_lt_Some, Nat.lt_le_incl.
        apply lookup_lt_Some in Hit. lia.
      * eauto using lookup_lt_Some, Nat.lt_le_incl.
    + intros m' x Hx. apply (Hav (S m')). by econstructor.
    + exists (S m'), (n + n')%nat, k2, s2. rewrite (steps_app n n' s s' E).
      split_and!; [lia|by econstructor|done|done|].
      destruct Hend as [->|[->|(i & p & p' & e & ? & ? & ? & ? & Ee)]]; [by left|by right; left|].
      right. right. exists i, p, p', e. split_and!; [done..|].
      rewrite <- Ee, <- (steps_app n (S n') s s' E). f_equal. lia.
  - exists 0%nat, 0%nat, k, s. split_and!; [lia|constructor|done|done|].
    right. right. exists i, p, p', e. cbn [steps]. by rewrite E.
Qed.
End Program.

(** ** The theorems *)

(** C5: Branches reach their labels. Take a program of items that have an encoding
    (registers and immediates in range; with RV_C neither [add rd, rd, x0] nor [lui rd,
    0]) with every label bound at most once, which [generate] assembles at a level, with
    code of at most 2^30 bytes and, at level one, 2^19 - 8 bytes; load its code anywhere
    below the end of the address space. The simulator started at a branch whose label is
    not 524285 to 524296 bytes back is after one to three rounds at the item that binds
    the label of the branch when the condition holds, and at the next item when it does
    not; memory and registers are as before, except for the one reserved for far jumps.
    In the excluded gap of 12 bytes [EmitBranch] emits jumps that do not reach
    (assembler_riscv.cc:2414). *)
Theorem branch_reaches_label {M} `{MemoryOps M} ext level prog L a base
    k op rs1 rs2 l d k' p p1 p' (s : Simulator M) :
  let lay := positions ext prog level in
  forallb (item_ok (supports_c ext)) prog = true -> bound_once prog -> within level lay ->
  generate ext prog level = Ok (L, a) ->
  prog !! k = Some (BranchTo op rs1 rs2 l d) -> prog !! k' = Some (BindTo l) ->
  lay !! k = Some p -> lay !! S k = Some p1 -> lay !! k' = Some p' ->
  ~ in_gap (Z.of_nat p' - Z.of_nat p) ->
  0 <= base -> base + Asm.Position a + 8 <= 2 ^ 64 ->
  sim_wf s -> code_at (process (memory_ s)) base (buffer_ a) -> pc_ s = base + Z.of_nat p ->
  exists n s', (1 <= n <= 3)%nat /\ steps n s = Ok s' /\
    moved [Register.FAR_TMP]
      (base + Z.of_nat (if bop_sem op (get_xreg rs1 s) (get_xreg rs2 s) then p' else p1)) s s'.
Proof.
  intros lay Hok Hn Hw E Hk Hk' Hp Hp1 Hp' Hg Hb0 Hb1 Hs Hc Hpc.  subst lay.
  destruct (generate_ok ext prog level L a Hok Hn Hw E) as (Hsm & ps & Has).
  destruct (as_placed _ _ _ _ _ _ Has k _ Hk) as (q & q1 & Eq & Eq1 & Hpl).
  assert (q = p /\ q1 = p1) as [-> ->] by (split; congruence).
  destruct (as_bound _ _ _ _ _ _ Has k' l p' Hk' Hp') as [Hb Hpos].
  destruct (branch_executes base L a ps (as_coherent _ _ _ _ _ _ Has) Hsm (conj Hb0 Hb1)
    _ op rs1 rs2 l d p p1 s Hpl Hb) as (n & s' & Hn' & Es & Hm); [by rewrite Hpos|done|].
  exists n, s'. split_and!; [lia..|done|]. rewrite Hpos in Hm. by destruct (bop_sem op _ _).
Qed.

(** C1: The simulator runs programs with labels. Take a program of straight-line
    instructions (no [jalr]), branches, jumps and labels: its items have an encoding
    (registers and immediates in range; with RV_C neither [add rd, rd, x0] nor [lui rd,
    0], which are encoded wrongly), every label is bound at most once and the ones used
    are bound, and no branch or jump goes 524285 to 524296 bytes back, where
    [EmitBranch] emits jumps that do not reach (assembler_riscv.cc:2414). Let [generate]
    assemble it at a level, with code of at most 2^30 bytes and, at level one, 2^19 - 8
    bytes, and load the code anywhere below the end of the address space in plain
    process memory. As long as no store writes into the code, the simulator executes the
    program item by item: instructions as the manual specifies, branches to the items
    that bind their labels, until the number of items asked for, the end of the program,
    or an instruction that fails, and then with its error. *)
Theorem program_simulated ext level prog L a base m (s : Simulator host) :
  let lay := positions ext prog level in
  forallb (item_ok (supports_c ext)) prog = true -> forallb straight_item prog = true ->
  bound_once prog -> closed prog -> within level lay -> no_gap prog lay ->
  generate ext prog level = Ok (L, a) ->
  0 <= base -> base + Asm.Position a + 8 <= 2 ^ 64 ->
  sim_wf s -> code_at (memory_ s) base (buffer_ a) -> pc_ s = base ->
  (forall m' x, nsteps (item_step prog lay base) m' (0%nat, s) x ->
    store_avoids prog base (Asm.Position a) x) ->
  runs prog lay a base m 0 s.
Proof.
  intros lay Hok Hst Hn Hcl Hw Hg E Hb0 Hb1 Hs Hc Hpc Hav.
  destruct (generate_ok ext prog level L a Hok Hn Hw E) as (Hsm & ps & Has).
  apply (program_runs (supports_c ext) prog lay L a ps base Has Hsm Hok Hst Hcl Hg (conj Hb0 Hb1));
    [|lia|done].
  exists 0%nat. split; [|split_and!; [done|done|lia]].
  unfold lay, positions. by destruct prog.
Qed.

(** ** Concrete instances *)

(** The sum of the numbers up to [a1] in [a0], with the branches of both kinds. *)
Definition example_sum : list item :=
  [Instr (Imm ADDI Register.A0 Register.ZR 0);
   BranchTo BEQ Register.A1 Register.ZR 1 kFarJump;
   BindTo 0;
   Instr (Reg ADD Register.A0 Register.A0 Register.A1);
   Instr (Imm ADDI Register.A1 Register.A1 (-1));
   BranchTo BLT Register.ZR Register.A1 0 kFarJump;
   BindTo 1;
   Instr (Imm ADDI Register.A0 Register.A0 0)].

Definition rv64c : Z := 1 ≪ Extension.RV_C.

Definition example_bytes (level : Z) : list Z :=
  match generate rv64c example_sum level with
  | Ok (_, a) => buffer_ a
  | Err _ => []
  end.

(** Its state at the item [k]. *)
Definition example_state (level : Z) (k : nat) : Simulator host :=
  set_xreg Register.A1 4
    (boot (0x1000 + Z.of_nat (positions rv64c example_sum level !!! k))
       (image [(0x1000, example_bytes level)])).

(** The assembled example. *)
Lemma example_generated level :
  (match generate rv64c example_sum level with Ok (_, a) => Asm.Position a <=? 64 | Err _ => false end) = true ->
  exists L a, generate rv64c example_sum level = Ok (L, a) /\
    buffer_ a = example_bytes level /\ Asm.Position a <= 64.
Proof.
  unfold example_bytes. destruct (generate _ _ _) as [[L a]|]; [|done].
  intros Hp. apply Z.leb_le in Hp. by exists L, a.
Qed.

Lemma example_state_wf level k :
  (0x1000 + Z.of_nat (positions rv64c example_sum level !!! k) <? 2 ^ 64) = true ->
  sim_wf (example_state level k).
Proof.
  intros Hp. apply Z.ltb_lt in Hp. unfold example_state. apply set_xreg_wf; [|done].
  apply boot_wf. unfold is_u. lia.
Qed.

(** At level two the forward branch is a compressed branch around two instructions:
    it is not taken here. *)
Lemma branch_reaches_label_witness :
  exists n s', (1 <= n <= 3)%nat /\ steps n (example_state 2 1) = Ok s' /\
    moved [Register.FAR_TMP] (0x1000 + 12) (example_state 2 1) s'.
Proof.
  destruct (example_generated 2) as (L & a & E & Hbuf & Hsz); [vm_compute; reflexivity|].
  apply (branch_reaches_label rv64c 2 example_sum L a 0x1000 1 BEQ Register.A1 Register.ZR 1 kFarJump
    6 2 12 20 (example_state 2 1)).
  - vm_compute. reflexivity.
  - apply (bool_decide_unpack _). vm_compute. reflexivity.
  - apply (bool_decide_unpack _). vm_compute. reflexivity.
  - exact E.
  - reflexivity.
  - reflexivity.
  - vm_compute. reflexivity.
  - vm_compute. reflexivity.
  - vm_compute. reflexivity.
  - unfold in_gap. lia.
  - lia.
  - lia.
  - apply example_state_wf. vm_compute. reflexivity.
  - rewrite Hbuf. apply code_atb_spec. vm_compute. reflexivity.
  - vm_compute. reflexivity.
Defined.

(** [closed], decided. *)
Definition closedb (prog : list item) : bool :=
  forallb (fun it => match uses it with
                     | Some l => existsb (fun it' => bool_decide (binds it' = Some l)) prog
                     | None => true
                     end) prog.

Lemma closedb_spec prog : closedb prog = true -> closed prog.
Proof.
  unfold closedb. rewrite forallb_forall. intros Hc k it l Hk Hu.
  apply list_elem_of_lookup_2, list_elem_of_In, Hc in Hk. rewrite Hu in Hk.
  apply existsb_exists in Hk as (it' & Hin & Hb). apply bool_decide_eq_true_1 in Hb.
  apply list_elem_of_In, list_elem_of_lookup_1 in Hin as [k' Hk']. exists k'.
  rewrite Hk'. destruct it'; cbn in Hb; congruence.
Qed.

Lemma example_no_gap : no_gap example_sum (positions rv64c example_sum 0).
Proof.
  assert (Hlay : Forall (fun p => (p <= 64)%nat) (positions rv64c example_sum 0)).
  { apply (bool_decide_unpack _). vm_compute. reflexivity. }
  rewrite Forall_lookup in Hlay. intros k it l k' p p' _ _ _ Hp Hp'.
  apply Hlay in Hp, Hp'. unfold in_gap. lia.
Qed.

Lemma example_no_stores base len x : store_avoids example_sum base len x.
Proof.
  intros op rs2 addr. destruct x as [k s]. cbn [fst].
  do 8 (destruct k as [|k]; [done|]). done.
Qed.

Lemma program_simulated_witness :
  exists L a, generate rv64c example_sum 0 = Ok (L, a) /\
    runs example_sum (positions rv64c example_sum 0) a 0x1000 20 0 (example_state 0 0).
Proof.
  destruct (example_generated 0) as (L & a & E & Hbuf & Hsz); [vm_compute; reflexivity|].
  exists L, a. split; [exact E|].
  apply (program_simulated rv64c 0 example_sum L a 0x1000 20 (example_state 0 0)).
  - vm_compute. reflexivity.
  - vm_compute. reflexivity.
  - apply (bool_decide_unpack _). vm_compute. reflexivity.
  - apply closedb_spec. vm_compute. reflexivity.
  - apply (bool_decide_unpack _). vm_compute. reflexivity.
  - exact example_no_gap.
  - exact E.
  - lia.
  - lia.
  - apply example_state_wf. vm_compute. reflexivity.
  - rewrite Hbuf. apply code_atb_spec. vm_compute. reflexivity.
  - vm_compute. reflexivity.
  - intros m x _. apply example_no_stores.
Defined.

(** The loop computes the sum at every level. *)
Example example_sum_runs :
  forallb (fun level =>
    match steps 15 (example_state level 0) with
    | Ok s => get_xreg Register.A0 s =? 10
    | Err _ => false
    end) [0; 1; 2] = true.
Proof. vm_compute. reflexivity. Qed.
