(* ===== verification/RiscvFarBranches.v ===== *)
(** * Far branches always assemble

    The compiler assembles a function again at the next level of far branches
    when a branch turns out too short.  At level one functions of less than
    512 kB and at level two functions of up to a gigabyte always assemble, and at
    level zero the only failure is the one that makes the compiler try again: the
    loop of the compiler returns code. *)

From Stdlib Require Import Sorting.Sorted.
From S2P Require Import Prelude Utils RiscvConstants RiscvEncoding RiscvAssembler RiscvLabels.
From S2P Require Import SimMemory RiscvSimulator RiscvArith RiscvIsa RiscvDecode RiscvInterpret.
From S2P Require Import RiscvTables RiscvBranches RiscvCompressed RiscvJumps RiscvCorrect RiscvEmit RiscvPrograms.

#[local] Arguments encode : simpl never.

(** The classes of the unresolved branches of a level. *)
Definition allowed (level : Z) (k : klass) : bool :=
  match k with
  | b => level =? 0
  | j => level <? 2
  | far => level =? 2
  | cb | cj => false
  end.

Definition level_ok (level : Z) : Prop := level = 0 \/ level = 1 \/ level = 2.

(** The result of a method at a level: a label whose lists of the other classes
    are as before, or the request for longer branches at level zero. *)
Definition assembles (level : Z) (label : Label) (r : asm_result (Label * MicroAssembler)) : Prop :=
  (exists label' a', r = Ok (label', a') /\
    forall k, allowed level k = false -> unresolved k label' = unresolved k label) \/
  (level = 0 /\ r = Err BranchOffsetError).

Lemma assembles_same level label a' : assembles level label (Ok (label, a')).
Proof. left. by exists label, a'. Qed.

Lemma emit_skip_ok rs1 rs2 op len a :
  exists a', Branch.emit_skip rs1 rs2 (bop_code op) len a = Ok a'.
Proof.
  unfold Branch.emit_skip. cbv zeta. destruct (_ && _ && _); [eauto|].
  rewrite InvertFunct3_negate. cbn [mbind result_bind]. eauto.
Qed.

Lemma EmitBranch_assembles op rs1 rs2 label a :
  level_ok (far_branch_level_ a) ->
  assembles (far_branch_level_ a) label (Branch.EmitBranch rs1 rs2 label (bop_code op) kFarJump a).
Proof.
  intros Hlev. unfold Branch.EmitBranch. cbn [is_near].
  destruct (Lbl.IsBound label).
  - rewrite InvertFunct3_negate. cbn [mbind result_bind]. rewrite emit_far_append.
    destruct (IsBTypeImm _); [apply assembles_same|].
    destruct (IsJTypeImm _); apply assembles_same.
  - destruct Hlev as [-> |[-> | ->]]; cbn [Z.eqb Pos.eqb].
    + unfold Lbl.link_b. set (off := Lbl.link_offset _ _).
      destruct (IsBTypeImm off); cbn [negb]; [left|by right].
      do 2 eexists. split; [done|]. by intros [].
    + destruct (emit_skip_ok rs1 rs2 op 4 a) as [a1 ->]. cbn [mbind result_bind]. left.
      do 2 eexists. split; [done|]. by intros [].
    + destruct (emit_skip_ok rs1 rs2 op 8 a) as [a1 ->]. cbn [mbind result_bind Lbl.link_far].
      rewrite emit_far_append. left. do 2 eexists. split; [done|]. by intros [].
Qed.

(** A compressed branch is emitted only to a bound label in its range. *)
Lemma EmitCBranch_assembles level r label op a :
  Lbl.IsBound label && IsCBImm (Lbl.Position label - Asm.Position a) = true ->
  assembles level label (Branch.EmitCBranch r label op a).
Proof.
  intros [Hb Hf]%andb_true_iff. unfold Branch.EmitCBranch. rewrite Hb, Hf. apply assembles_same.
Qed.

Lemma branch_method_assembles op rs1 rs2 label a :
  level_ok (far_branch_level_ a) ->
  assembles (far_branch_level_ a) label (branch_method op rs1 rs2 label kFarJump a).
Proof.
  intros Hlev. pose proof (fun op => EmitBranch_assembles op rs1 rs2 label a Hlev) as HE.
  destruct op; cbn [branch_method]; [| |exact (HE BLT)|exact (HE BGE)|exact (HE BLTU)|exact (HE BGEU)].
  - unfold Branch.beq, Branch.compressible. cbn [is_near orb].
    destruct (Asm.Supports a Extension.RV_C); [|exact (HE BEQ)].
    destruct (Lbl.IsBound label && _) eqn:Hc; [|exact (HE BEQ)]. cbn [andb].
    destruct ((rs1 =? _) && _); [by apply EmitCBranch_assembles|].
    destruct ((rs2 =? _) && _); [by apply EmitCBranch_assembles|exact (HE BEQ)].
  - unfold Branch.bne, Branch.compressible. cbn [is_near orb].
    destruct (Asm.Supports a Extension.RV_C); [|exact (HE BNE)].
    destruct (Lbl.IsBound label && _) eqn:Hc; [|exact (HE BNE)]. cbn [andb].
    destruct ((rs1 =? _) && _); [by apply EmitCBranch_assembles|].
    destruct ((rs2 =? _) && _); [by apply EmitCBranch_assembles|exact (HE BNE)].
Qed.

Lemma jal_assembles label a :
  level_ok (far_branch_level_ a) ->
  (far_branch_level_ a = 1 -> Lbl.IsBound label = false ->
    fits j (link_of j (Asm.Position a) label).1 = true) ->
  assembles (far_branch_level_ a) label (Branch.jal Register.ZR label kFarJump a).
Proof.
  intros Hlev H1. unfold Branch.jal. cbn [is_near orb]. destruct (_ && _ && _) eqn:Hc.
  - reflect_bool. unfold Branch.c_j, Branch.EmitCJump.
    repeat match goal with H : _ = true |- _ => rewrite H end. apply assembles_same.
  - clear Hc. unfold Branch.EmitJump. cbn [is_near]. destruct (Lbl.IsBound label) eqn:Hb.
    + destruct (IsJTypeImm _); [|rewrite emit_far_append]; apply assembles_same.
    + cbn [link_of fits] in H1. unfold Lbl.link_j, Lbl.link_far in *. cbn [fst] in H1.
      set (off := Lbl.link_offset (unresolved_j_ label) _) in *. rewrite emit_far_append.
      destruct Hlev as [E|[E|E]]; rewrite E in *; cbn [Z.ltb Z.compare Pos.compare Pos.compare_cont].
      * destruct (IsJTypeImm off); cbn [negb]; [left|by right].
        do 2 eexists. split; [done|]. by intros [].
      * rewrite H1 by done. left. do 2 eexists. split; [done|]. by intros [].
      * left. do 2 eexists. split; [done|]. by intros [].
Qed.

(** ** Items and programs at a level *)

Definition only (level : Z) (L : labels) : Prop :=
  forall l, Lbl.IsBound (label_of L l) = false ->
  forall k, allowed level k = false -> unresolved k (label_of L l) = -1.

(** No item asks for a near jump. *)
Definition far_item (it : item) : bool :=
  match it with
  | BranchTo _ _ _ _ d | JumpTo _ d => negb (is_near d)
  | Instr _ | BindTo _ => true
  end.

Lemma head_none l : head l = -1 -> l = [].
Proof. destruct l as [|x l]; [done|]. cbn. lia. Qed.

Section Level.
Context (L : labels) (a : MicroAssembler) (ps : pieces).
Hypotheses (Hlev : level_ok (far_branch_level_ a)) (Hc : coherent L a ps) (Hr : room a)
  (Honly : only (far_branch_level_ a) L).

(** All the branches of a label fit at the levels above zero. *)
Lemma links_fit l :
  Lbl.IsBound (label_of L l) = false -> far_branch_level_ a <> 0 ->
  all_fit (Asm.Position a) (links_of l ps) = true.
Proof.
  intros Hb Hne. apply all_fit_spec. intros [p x] Hx.
  pose proof (co_links _ _ _ Hc l Hb) as Hl.
  assert (Hal : allowed (far_branch_level_ a) (klass_of x) = true).
  { destruct (allowed _ _) eqn:Ha; [done|]. pose proof (Honly l Hb _ Ha) as Hn.
    rewrite (linked_heads _ _ _ Hl) in Hn. apply head_none in Hn.
    assert ((p, x) ∈ of_class (klass_of x) (links_of l ps)) as Hin by by apply elem_of_class.
    rewrite Hn in Hin. by apply not_elem_of_nil in Hin. }
  apply elem_of_links in Hx. cbn [fst snd].
  pose proof (co_inside _ _ _ Hc _ Hx) as Hin. destruct (co_even _ _ _ Hc _ Hx) as [n Hn].
  destruct (co_length _ _ _ Hc) as [m Hm]. cbn [fst snd piece_size] in *.
  destruct (klass_of x) eqn:Ek; cbn [allowed] in Hal; try done.
  - by apply Z.eqb_eq in Hal.
  - apply Z.ltb_lt in Hal. assert (E1 : far_branch_level_ a = 1) by (destruct Hlev as [|[]]; lia).
    pose proof (proj2 Hr E1) as Hle. unfold Asm.Position in *.
    apply IsJTypeImm_spec. split; [unfold is_s; change (2 ^ (20 - 1)) with 524288; lia|].
    replace (_ - _) with ((Z.of_nat m - Z.of_nat n) * 2) by lia. apply Z_mod_mult.
Qed.

Lemma bind_assembles l :
  Lbl.IsBound (label_of L l) = false ->
  (exists label' a', Branch.Bind (label_of L l) a = Ok (label', a')) \/
  far_branch_level_ a = 0 /\ Branch.Bind (label_of L l) a = Err BranchOffsetError.
Proof.
  intros Hb. pose proof (co_links _ _ _ Hc l Hb) as Hl.
  pose proof (Bind_linked (label_of L l) a (links_of l ps) Hl) as HB.
  destruct (Z.eq_dec (far_branch_level_ a) 0) as [E|E]; cycle 1.
  { rewrite links_fit in HB by done. destruct HB as (a' & -> & _). left. eauto. }
  destruct (all_fit _ _); [destruct HB as (a' & -> & _); left; eauto|].
  assert (Hnil : forall k, k = cb \/ k = cj -> of_class k (links_of l ps) = []).
  { intros k Hk. apply head_none. rewrite <- (linked_heads _ _ _ Hl). apply Honly; [done|].
    by destruct Hk as [-> | ->]. }
  rewrite (Hnil cb), (Hnil cj) in HB by auto. right. done.
Qed.

Lemma with_label_only l label' a' :
  Lbl.IsBound label' = true \/
    Lbl.IsBound (label_of L l) = false /\
    (forall k, allowed (far_branch_level_ a) k = false ->
      unresolved k label' = unresolved k (label_of L l)) ->
  far_branch_level_ a' = far_branch_level_ a -> only (far_branch_level_ a') (<[l := label']> L).
Proof.
  intros Hl E l' Hb k Hk. rewrite E in Hk. destruct (decide (l = l')) as [<-|Hne].
  - rewrite label_of_insert in *. destruct Hl as [Hl|[Hu Hl]]; [congruence|].
    rewrite Hl by done. by apply Honly.
  - rewrite label_of_insert_ne in * by done. by apply Honly.
Qed.

Lemma assembles_only it l r :
  assembles (far_branch_level_ a) (label_of L l) r ->
  (forall L' a', with_label L l r = Ok (L', a') -> kept it L L' a a') ->
  (exists L' a', with_label L l r = Ok (L', a') /\ only (far_branch_level_ a') L') \/
  far_branch_level_ a = 0 /\ with_label L l r = Err BranchOffsetError.
Proof.
  intros [(label' & a' & -> & Hu)|[E ->]] Hk; [left|by right]. cbn [with_label mbind result_bind] in *.
  exists (<[l := label']> L), a'. split; [done|]. specialize (Hk _ _ eq_refl).
  apply with_label_only; [|apply Hk].
  destruct (Lbl.IsBound (label_of L l)) eqn:Hb; [left|by right].
  pose proof (kept_bound _ _ _ _ _ Hk l Hb) as E. rewrite label_of_insert in E. congruence.
Qed.
End Level.

(** An item takes at most twelve bytes. *)
Lemma branch_emitted_size op rs1 rs2 a label label' a' :
  branch_emitted op rs1 rs2 a label label' a' ->
  (length (buffer_ a') <= length (buffer_ a) + 12)%nat.
Proof.
  intros [x lab a1 Hd He|y z lab a1 len Hd _ _ Hz He]; rewrite (emits_length _ _ _ _ _ He).
  - destruct Hd; cbn; lia.
  - unfold append. cbn [buffer_ set_buffer]. rewrite length_app, encode_length.
    destruct Hd, Hz as [-> | ->]; cbn; lia.
Qed.

Lemma item_size it L a ps L' a' :
  coherent L a ps -> room a -> item_ok (Asm.Supports a Extension.RV_C) it = true ->
  (forall l, it = BindTo l -> Lbl.IsBound (label_of L l) = false) ->
  assemble_item it L a = Ok (L', a') -> Asm.Position a' <= Asm.Position a + 12.
Proof.
  intros Hc Hr Hok Hub. unfold Asm.Position.
  destruct it as [i|op rs1 rs2 l d|l d|l]; cbn [assemble_item item_ok] in *; unfold with_label.
  - intros [= <- <-]. destruct (one_instruction_buffer _ _ (assemble_one i a)) as (-> & _ & Hl).
    rewrite length_app. lia.
  - intros ([lab a1] & E & [= <- <-])%bind_Ok_inv. reflect_bool.
    repeat match goal with H : is_reg _ = true |- _ => apply is_reg_spec in H end.
    apply branch_method_emits, branch_emitted_size in E; [lia|done..|].
    by apply (level_one_fits L a ps).
  - intros ([lab a1] & E & [= <- <-])%bind_Ok_inv.
    apply jal_emits in E as (x & Hg & He). rewrite (emits_length _ _ _ _ _ He).
    destruct Hg as [-> |[-> | ->]]; cbn; lia.
  - intros ([lab a1] & E & [= <- <-])%bind_Ok_inv. specialize (Hub l eq_refl).
    destruct (bind_resolves L a ps l _ _ Hc (proj1 Hr) Hub E) as (Hres & _).
    rewrite (resolved_length _ _ _ _ Hres). lia.
Qed.

Lemma item_assembles it L a ps :
  level_ok (far_branch_level_ a) -> coherent L a ps -> room a -> only (far_branch_level_ a) L ->
  Asm.Position a + 12 <= 2 ^ 30 ->
  item_ok (Asm.Supports a Extension.RV_C) it = true -> far_item it = true ->
  (forall l, it = BindTo l -> Lbl.IsBound (label_of L l) = false) ->
  (exists L' a' new, assemble_item it L a = Ok (L', a') /\ coherent L' a' (new ++ ps) /\
    kept it L L' a a' /\ only (far_branch_level_ a') L' /\
    Asm.Position a' <= Asm.Position a + 12) \/
  far_branch_level_ a = 0 /\ assemble_item it L a = Err BranchOffsetError.
Proof.
  intros Hlev Hc Hr Ho Hsz Hok Hfar Hub.
  assert (Hkept : forall L' a', assemble_item it L a = Ok (L', a') ->
    exists new, coherent L' a' (new ++ ps) /\ kept it L L' a a' /\
      Asm.Position a' <= Asm.Position a + 12).
  { intros L' a' E. pose proof (item_size it L a ps L' a' Hc Hr Hok Hub E).
    destruct (item_coherent it L a ps L' a' Hc Hr) as (new & ? & _ & ?);
      [unfold small; lia|done..|]. by exists new. }
  assert (Hcase : (exists L' a', assemble_item it L a = Ok (L', a') /\ only (far_branch_level_ a') L') \/
    far_branch_level_ a = 0 /\ assemble_item it L a = Err BranchOffsetError).
  { destruct it as [i|op rs1 rs2 l d|l d|l]; cbn [assemble_item far_item] in *.
    - left. exists L, (assemble i a). split; [done|].
      destruct (Hkept _ _ eq_refl) as (_ & _ & Hk & _). by rewrite (kept_level _ _ _ _ _ Hk).
    - destruct d; [|done]. apply (assembles_only L a Ho (BranchTo op rs1 rs2 l kFarJump)).
      + by apply branch_method_assembles.
      + intros L' a' E. destruct (Hkept _ _ E) as (_ & _ & Hk & _). exact Hk.
    - destruct d; [|done]. apply (assembles_only L a Ho (JumpTo l kFarJump)).
      + apply jal_assembles; [done|]. intros E1 Hb.
        rewrite <- (Z.add_0_r (Asm.Position a)).
        apply (level_one_fits L a ps l Hc Hr E1 Hb 0). by left.
      + intros L' a' E. destruct (Hkept _ _ E) as (_ & _ & Hk & _). exact Hk.
    - specialize (Hub l eq_refl).
      destruct (bind_assembles L a ps Hlev Hc Hr Ho l Hub) as [(label' & a' & E)|[E0 E]];
        rewrite E in *; [left|by right].
      exists (<[l := label']> L), a'. split; [done|].
      destruct (Hkept _ _ eq_refl) as (_ & _ & Hk & _).
      apply (with_label_only L a Ho); [left|apply Hk].
      destruct (kept_bind _ _ _ _ _ Hk l eq_refl) as [Hb _]. by rewrite label_of_insert in Hb. }
  destruct Hcase as [(L' & a' & E & Ho')|]; [left|by right].
  destruct (Hkept _ _ E) as (new & ? & ? & ?). by exists L', a', new.
Qed.

Lemma items_assemble prog : forall L a ps,
  let c := Asm.Supports a Extension.RV_C in
  let level := far_branch_level_ a in
  level_ok level -> coherent L a ps -> only level L ->
  forallb (item_ok c) prog = true -> forallb far_item prog = true -> bound_once prog ->
  (forall l, BindTo l ∈ prog -> Lbl.IsBound (label_of L l) = false) ->
  Asm.Position a + 12 * Z.of_nat (length prog) <= 2 ^ 30 ->
  (level = 1 -> Asm.Position a + 12 * Z.of_nat (length prog) <= 2 ^ 19 - 8) ->
  (exists L' a', assemble_items prog L a = Ok (L', a') /\
    Asm.Position a' <= Asm.Position a + 12 * Z.of_nat (length prog)) \/
  level = 0 /\ assemble_items prog L a = Err BranchOffsetError.
Proof.
  induction prog as [|it prog IH]; intros L a ps c level Hlev Hc Ho Hok Hfar Hn Hub Hsz Hsz1.
  { left. exists L, a. split; [done|]. cbn. lia. }
  apply bound_once_cons in Hn. cbn [forallb assemble_items length] in *. apply andb_true_iff in Hok as [Hi Hok], Hfar as [Hf Hfar].
  destruct (item_assembles it L a ps Hlev Hc) as [(L1 & a1 & new & E & Hc1 & Hk & Ho1 & Hp1)|[E0 E]];
    [split; [unfold small; lia|intros; specialize (Hsz1 ltac:(done)); lia]|done|lia|done|done| |
    |right; by rewrite E].
  { intros l ->. apply Hub. by constructor. }
  rewrite E. cbn [mbind result_bind].
  pose proof (kept_level _ _ _ _ _ Hk) as El. pose proof (kept_extensions _ _ _ _ _ Hk) as Ee.
  destruct (IH L1 a1 (new ++ ps)) as [(L' & a' & E' & Hp')|[E0 E']]; try done.
  - by rewrite El.
  - unfold Asm.Supports. by rewrite Ee.
  - apply Hn.
  - intros l Hl. apply (kept_unbound _ _ _ _ _ Hk); [apply Hub; by constructor|by apply Hn].
  - lia.
  - rewrite El. intros H1. specialize (Hsz1 H1). lia.
  - left. exists L', a'. split; [done|]. lia.
  - right. rewrite El in E0. done.
Qed.

(** ** A function is always assembled *)

Lemma generate_assembles ext prog level :
  level_ok level -> forallb (item_ok (supports_c ext)) prog = true ->
  forallb far_item prog = true -> bound_once prog ->
  12 * Z.of_nat (length prog) <= 2 ^ 30 ->
  (level = 1 -> 12 * Z.of_nat (length prog) <= 2 ^ 19 - 8) ->
  (exists L a, generate ext prog level = Ok (L, a) /\
    Asm.Position a <= 12 * Z.of_nat (length prog)) \/
  level = 0 /\ generate ext prog level = Err BranchOffsetError.
Proof.
  intros Hlev Hok Hfar Hn Hsz Hsz1.
  apply (items_assemble prog ∅ (mkAsm [] ext level) []); try done.
  - apply coherent_new; done.
  - intros l _ k _. by destruct k.
Qed.

Lemma level_two_suffices ext prog :
  forallb (item_ok (supports_c ext)) prog = true -> forallb far_item prog = true ->
  bound_once prog -> 12 * Z.of_nat (length prog) <= 2 ^ 30 ->
  exists L a, generate ext prog 2 = Ok (L, a) /\ Asm.Position a <= 12 * Z.of_nat (length prog).
Proof.
  intros. destruct (generate_assembles ext prog 2) as [|[]]; try done. by right; right.
Qed.

Lemma compile_ends ext prog :
  forallb (item_ok (supports_c ext)) prog = true -> forallb far_item prog = true ->
  bound_once prog -> 12 * Z.of_nat (length prog) <= 2 ^ 19 - 8 ->
  exists level L a, 0 <= level <= 1 /\ Compile (generate ext prog) = Ok (L, a) /\
    generate ext prog level = Ok (L, a).
Proof.
  intros Hok Hfar Hn Hsz. unfold Compile. cbn [Compile_loop].
  destruct (generate_assembles ext prog 0) as [(L & a & E & _)|[_ E]];
    [by left|done|done|done|lia|lia| |].
  - exists 0, L, a. rewrite E. done.
  - rewrite E. cbn [Z.ltb Z.compare]. change (0 + 1) with 1.
    destruct (generate_assembles ext prog 1) as [(L & a & E1 & _)|[[=] _]];
      [by right; left|done|done|done|lia|done|].
    exists 1, L, a. rewrite E1. done.
Qed.

(** C7: The compiler returns code. The programs have items with an encoding, labels bound at
    most once, and no near jumps. When twelve bytes for each of its items are at most a
    gigabyte, a program assembled at level two never fails: neither a branch nor the
    binding of a label asks for longer branches. When twelve bytes for each of its items
    are at most 2^19 - 8, the loop that assembles a program again with longer branches
    after a branch offset error ends with code, at level zero or one, whatever the
    branches of the program; the assertion that bounds the level never fails. *)
Theorem compile_returns_code ext prog :
  forallb (item_ok (supports_c ext)) prog = true -> forallb far_item prog = true -> bound_once prog ->
  (12 * Z.of_nat (length prog) <= 2 ^ 30 ->
   exists L a, generate ext prog 2 = Ok (L, a) /\ Asm.Position a <= 12 * Z.of_nat (length prog)) /\
  (12 * Z.of_nat (length prog) <= 2 ^ 19 - 8 ->
   exists level L a, 0 <= level <= 1 /\ Compile (generate ext prog) = Ok (L, a) /\ generate ext prog level = Ok (L, a)).
Proof. intros Hok Hfar Hn. split; [by apply level_two_suffices|by apply compile_ends]. Qed.

(** ** Where the code generator goes wrong *)

(** A long branch can miss.  [EmitBranch] tests [IsJTypeImm(offset + 4)], but the
    [jal] it then emits covers [offset - 4]: for a label 524292 bytes back the test
    passes and the simulator decodes the emitted distance as a forward one. *)
Lemma long_branch_misses rs1 rs2 op d (label : Label) (a : MicroAssembler) :
  Lbl.IsBound label = true -> Lbl.Position label - Asm.Position a = -524292 ->
  exists a1, Branch.EmitBranch rs1 rs2 label (bop_code op) d a
      = Ok (label, Asm.EmitJType (-524296) Register.ZR Opcode.JAL a1) /\
    Asm.Position a1 = Asm.Position a + 4 /\
    DecodeJTypeImm (jtype_word (-524296) Register.ZR Opcode.JAL) = 524280.
Proof.
  intros Hb Hoff. exists (Asm.EmitBType 8 rs2 rs1 (bop_code (negate op)) Opcode.BRANCH a).
  assert (Hp : Asm.Position (Asm.EmitBType 8 rs2 rs1 (bop_code (negate op)) Opcode.BRANCH a)
    = Asm.Position a + 4).
  { by rewrite EmitBType_append, append_position, encode_length. }
  split_and!; [|done|vm_compute; reflexivity].
  unfold Branch.EmitBranch. rewrite Hb, Hoff, InvertFunct3_negate. cbn [mbind result_bind].
  rewrite Hp. change (IsBTypeImm (-524292)) with false. change (IsJTypeImm (-524292 + 4)) with true.
  cbv iota. replace (Lbl.Position label - (Asm.Position a + 4)) with (-524296) by lia. done.
Qed.

(** A link can be lost.  At level one [EmitBranch] does not test the distance to
    the previous branch to the same label: a branch emitted a megabyte after it is
    encoded like the end of the list, so that [Bind] never patches the earlier
    branch and reports nothing. *)
Lemma level_one_link_lost rs1 rs2 op (label : Label) (a : MicroAssembler) :
  Lbl.IsBound label = false -> far_branch_level_ a = 1 -> Asm.Supports a Extension.RV_C = false ->
  0 <= unresolved_j_ label -> Asm.Position a + 4 = unresolved_j_ label + 2 ^ 20 ->
  Asm.Position a + 4 < 2 ^ 31 ->
  exists label' a1, Branch.EmitBranch rs1 rs2 label (bop_code op) kFarJump a
      = Ok (label', Asm.EmitJType (2 ^ 20) Register.ZR Opcode.JAL a1) /\
    unresolved_j_ label' = Asm.Position a1 /\
    DecodeJTypeImm (jtype_word (2 ^ 20) Register.ZR Opcode.JAL) = 0.
Proof.
  intros Hb Hlev HC Hj Hp Hsz. unfold Branch.EmitBranch, Branch.emit_skip.
  rewrite Hb, Hlev, HC. cbn [is_near Z.eqb Pos.eqb andb]. rewrite InvertFunct3_negate.
  cbn [mbind result_bind]. change (4 + 4) with 8.
  assert (Hp1 : Asm.Position (Asm.EmitBType 8 rs2 rs1 (bop_code (negate op)) Opcode.BRANCH a)
    = Asm.Position a + 4).
  { by rewrite EmitBType_append, append_position, encode_length. }
  set (a1 := Asm.EmitBType _ _ _ _ _ _) in *. unfold Lbl.link_j, Lbl.link_offset. rewrite Hp1.
  rewrite (swrap_small 32) by (unfold is_s; lia). rewrite (proj2 (Z.eqb_neq _ _)) by lia.
  replace (Asm.Position a + 4 - unresolved_j_ label) with (2 ^ 20) by lia.
  exists (Lbl.set_j (Asm.Position a + 4) label), a1. split_and!; [done|by rewrite Hp1|].
  vm_compute. reflexivity.
Qed.

(** A far call forgets the return address.  The far forms of [EmitJump] do not
    use [rd]: with a label that is not bound, at level two, [jal] emits the same
    code for every register, and the register never receives the return address. *)
Lemma far_jump_drops_link rd (label : Label) (a : MicroAssembler) :
  Lbl.IsBound label = false -> far_branch_level_ a = 2 ->
  Branch.jal rd label kFarJump a = Branch.jal Register.ZR label kFarJump a /\
  exists label', Branch.jal rd label kFarJump a
    = Ok (label', append (encode Far (Lbl.link_offset (unresolved_far_ label) (s32 (Asm.Position a)))) a).
Proof.
  intros Hb Hlev.
  assert (HE : forall r, Branch.jal r label kFarJump a
    = Ok (Lbl.set_far (s32 (Asm.Position a)) label,
          append (encode Far (Lbl.link_offset (unresolved_far_ label) (s32 (Asm.Position a)))) a)).
  { intros r. unfold Branch.jal, Branch.EmitJump, Lbl.link_far. rewrite Hb, Hlev.
    cbn [is_near orb andb]. rewrite andb_false_r. cbn [andb Z.ltb Z.compare Pos.compare Pos.compare_cont].
    by rewrite emit_far_append. }
  rewrite !HE. split; [done|]. by eexists.
Qed.

(** C39: Where far branches go wrong.  A long branch can miss: [EmitBranch] tests
    [IsJTypeImm(offset + 4)], but the [jal] it then emits covers [offset - 4], and for a label 524292 bytes
    back the simulator decodes the emitted distance as a forward one.  A link can be lost: at level one
    the distance to the previous branch to the same label is not tested, and a branch emitted a megabyte
    after it is encoded like the end of the list.  A far call forgets the return address: with a
    label that is not bound, at level two, [jal] emits the same code for every register. *)
Theorem far_branch_defects rs1 rs2 op d rd (label : Label) (a : MicroAssembler) :
  (Lbl.IsBound label = true -> Lbl.Position label - Asm.Position a = -524292 ->
   exists a1, Branch.EmitBranch rs1 rs2 label (bop_code op) d a
   = Ok (label, Asm.EmitJType (-524296) Register.ZR Opcode.JAL a1) /\
   Asm.Position a1 = Asm.Position a + 4 /\
   DecodeJTypeImm (jtype_word (-524296) Register.ZR Opcode.JAL) = 524280) /\
  (Lbl.IsBound label = false -> far_branch_level_ a = 1 -> Asm.Supports a Extension.RV_C = false ->
   0 <= unresolved_j_ label -> Asm.Position a + 4 = unresolved_j_ label + 2 ^ 20 ->
   Asm.Position a + 4 < 2 ^ 31 ->
   exists label' a1, Branch.EmitBranch rs1 rs2 label (bop_code op) kFarJump a
   = Ok (label', Asm.EmitJType (2 ^ 20) Register.ZR Opcode.JAL a1) /\
   unresolved_j_ label' = Asm.Position a1 /\
   DecodeJTypeImm (jtype_word (2 ^ 20) Register.ZR Opcode.JAL) = 0) /\
  (Lbl.IsBound label = false -> far_branch_level_ a = 2 ->
   Branch.jal rd label kFarJump a = Branch.jal Register.ZR label kFarJump a /\
   exists label', Branch.jal rd label kFarJump a
   = Ok (label', append (encode Far (Lbl.link_offset (unresolved_far_ label) (s32 (Asm.Position a)))) a)).
Proof.
  exact (conj (long_branch_misses rs1 rs2 op d label a)
    (conj (level_one_link_lost rs1 rs2 op label a) (far_jump_drops_link rd label a))).
Qed.

(** ** Concrete instances *)

(** A branch over two thousand instructions and back, too far for level zero. *)
Definition example_long : list item :=
  BranchTo BNE Register.A0 Register.A1 0 kFarJump ::
  replicate 1100 (Instr (Imm ADDI Register.A0 Register.A0 1)) ++ [BindTo 0; JumpTo 0 kFarJump].

(** Level zero fails and level one is used. *)
Lemma compile_returns_code_witness :
  match generate 0 example_long 0 with Err BranchOffsetError => True | _ => False end /\
  (exists L a, generate 0 example_long 2 = Ok (L, a) /\ Asm.Position a <= 12 * 1103) /\
  exists level L a, 0 <= level <= 1 /\ Compile (generate 0 example_long) = Ok (L, a) /\
    generate 0 example_long level = Ok (L, a).
Proof.
  split; [vm_compute; exact I|].
  destruct (compile_returns_code 0 example_long) as [Htwo Hloop].
  - vm_compute. reflexivity.
  - vm_compute. reflexivity.
  - apply (bool_decide_unpack _). vm_compute. reflexivity.
  - split; [apply Htwo|apply Hloop]; vm_compute; discriminate.
Defined.

(** An assembler that has emitted [n] bytes. *)
Definition emitted_bytes (n : nat) (ext level : Z) : MicroAssembler := mkAsm (replicate n 0) ext level.

Lemma emitted_position n ext level : Asm.Position (emitted_bytes n ext level) = Z.of_nat n.
Proof. unfold Asm.Position. cbn. by rewrite length_replicate. Qed.

Lemma far_branch_defects_witness :
  (exists a1, Branch.EmitBranch Register.A0 Register.A1 (mkLabel 0 (-1) (-1) (-1) (-1) (-1)) Funct3.BEQ
      kFarJump (emitted_bytes (Z.to_nat 524292) 0 0)
      = Ok (mkLabel 0 (-1) (-1) (-1) (-1) (-1), Asm.EmitJType (-524296) Register.ZR Opcode.JAL a1) /\
    Asm.Position a1 = 524296) /\
  (exists label' a1, Branch.EmitBranch Register.A0 Register.A1 (mkLabel (-1) (-1) (-1) (-1) 4 (-1))
      Funct3.BEQ kFarJump (emitted_bytes (Z.to_nat (2 ^ 20)) 0 1)
      = Ok (label', Asm.EmitJType (2 ^ 20) Register.ZR Opcode.JAL a1) /\
    unresolved_j_ label' = Asm.Position a1 /\
    DecodeJTypeImm (jtype_word (2 ^ 20) Register.ZR Opcode.JAL) = 0) /\
  Branch.jal Register.RA Lbl.new kFarJump (mkAsm [] 0 2) = Branch.jal Register.ZR Lbl.new kFarJump (mkAsm [] 0 2).
Proof.
  split; [|split].
  - destruct (far_branch_defects Register.A0 Register.A1 BEQ kFarJump Register.RA
      (mkLabel 0 (-1) (-1) (-1) (-1) (-1)) (emitted_bytes (Z.to_nat 524292) 0 0)) as (Hmiss & _ & _).
    destruct Hmiss as (a1 & E & Hp & _).
    + reflexivity.
    + rewrite emitted_position, Z2Nat.id by lia. reflexivity.
    + exists a1. split; [exact E|]. rewrite Hp, emitted_position, Z2Nat.id by lia. reflexivity.
  - destruct (far_branch_defects Register.A0 Register.A1 BEQ kFarJump Register.RA
      (mkLabel (-1) (-1) (-1) (-1) 4 (-1)) (emitted_bytes (Z.to_nat (2 ^ 20)) 0 1)) as (_ & Hlost & _).
    apply Hlost.
    + reflexivity.
    + reflexivity.
    + reflexivity.
    + cbn. lia.
    + rewrite emitted_position, Z2Nat.id by lia. reflexivity.
    + rewrite emitted_position, Z2Nat.id by lia. reflexivity.
  - destruct (far_branch_defects Register.A0 Register.A1 BEQ kFarJump Register.RA Lbl.new (mkAsm [] 0 2)) as (_ & _ & Hdrop).
    apply Hdrop; reflexivity.
Defined.
