(* ===== verification/RiscvMacro.v ===== *)
(** * The macro-assembler

    [class Assembler] of runtime/vm/compiler/assembler/assembler_riscv.{h,cc}: the
    methods the code generator calls, each a sequence of instructions of the
    micro-assembler.  Modelled are the constants, the arithmetic with immediates,
    the deferred comparisons with [BranchIf] and [SetIf], the branches on overflow,
    extension of values, accesses with large offsets, the stack and the frames, and
    the hash functions, for XLEN = 64.

    A method takes the assembler to the new one, or fails; the methods that branch
    take the label too.  The object pool the assembler shares with the code
    generator is an interface: what the macros use of it is [FindImmediate]. *)

From S2P Require Import Prelude Utils RiscvConstants RiscvEncoding RiscvAssembler RiscvLabels.

(** ** Constants *)

(** The scratch registers of the assembler and the pool pointer. *)
Definition TMP : Z := Register.A3.
Definition TMP2 : Z := Register.A4.
Definition PP : Z := Register.A5.

Definition kSmiTagSize : Z := 1.
Definition kSmiTagShift : Z := 1.
Definition kSmiTagMask : Z := 1.
Definition kWordSize : Z := 8.
Definition kMaxUint8 : Z := 255.

(** [enum Condition]; the platform-independent names are in the comments. *)
Inductive Condition : Type :=
| kNoCondition
| EQ                      (* EQUAL, ZERO *)
| NE                      (* NOT_EQUAL, NOT_ZERO *)
| CS                      (* UNSIGNED_GREATER_EQUAL *)
| CC                      (* UNSIGNED_LESS *)
| MI
| PL
| VS                      (* OVERFLOW *)
| VC                      (* NO_OVERFLOW *)
| HI                      (* UNSIGNED_GREATER *)
| LS                      (* UNSIGNED_LESS_EQUAL *)
| GE                      (* GREATER_EQUAL *)
| LT                      (* LESS *)
| GT                      (* GREATER *)
| LE                      (* LESS_EQUAL *)
| AL
| NV
| kInvalidCondition.

(** [enum OperandSize]; [kWordBytes] is [kEightBytes]. *)
Inductive OperandSize : Type :=
| kByte | kUnsignedByte | kTwoBytes | kUnsignedTwoBytes | kFourBytes
| kUnsignedFourBytes | kEightBytes | kSWord | kDWord | kWordPair | kRegList | kQWord.
Definition kWordBytes : OperandSize := kEightBytes.

Definition OperandSizeInBits (os : OperandSize) : asm_result Z :=
  match os with
  | kByte | kUnsignedByte => Ok 8
  | kTwoBytes | kUnsignedTwoBytes => Ok 16
  | kFourBytes | kUnsignedFourBytes => Ok 32
  | kEightBytes => Ok 64
  | _ => Err Unreachable
  end.

(** ** Integer helpers *)

(** The loop of [Utils::ShiftForPowerOfTwo]; 64 rounds exhaust a [uint64_t]. *)
Fixpoint shift_loop (fuel : nat) (num_shifts x : Z) : Z :=
  match fuel with
  | O => num_shifts
  | S fuel => if 1 <? x then shift_loop fuel (num_shifts + 1) (x ≫ 1) else num_shifts
  end.
Definition ShiftForPowerOfTwo (x : Z) : Z := shift_loop 64 0 x.

(** The number of trailing zeros of the binary representation. *)
Fixpoint positive_ctz (p : positive) : Z :=
  match p with
  | xO p => 1 + positive_ctz p
  | _ => 0
  end.
Definition CountTrailingZeros64 (x : Z) : Z :=
  match x with
  | Zpos p => positive_ctz p
  | _ => 64
  end.

(** Signed 64-bit arithmetic of C++: undefined on overflow. *)
Definition int64 (z : Z) : asm_result Z :=
  if (- 2 ^ 63 <=? z) && (z <? 2 ^ 63) then Ok z else Err SignedOverflow.

(** [Utils::IsPowerOfTwo] at a signed type computes [x - 1] first. *)
Definition IsPowerOfTwo_signed (x : Z) : asm_result bool :=
  x1 ← int64 (x - 1); Ok ((x .& x1 =? 0) && negb (x =? 0)).

(** ** The object pool *)

Class ObjectPool (P : Type) := {
  FindImmediate : Z -> P -> asm_result (Z * P)
}.

(** [target::ObjectPool::element_offset]. *)
Definition element_offset (index : Z) : Z := 0x10 + index * 0x8.

(** ** Hash functions of the runtime *)

(** runtime/vm/hash.h, in [uint32_t] arithmetic. *)
Module Hash.
Definition CombineHashes (hash other_hash : Z) : Z :=
  let hash := u32 (hash + other_hash) in
  let hash := u32 (hash + u32 (hash ≪ 10)) in
  hash .^ (hash ≫ 6).

Definition FinalizeHash (hash hashbits : Z) : Z :=
  let hash := u32 (hash + u32 (hash ≪ 3)) in
  let hash := hash .^ (hash ≫ 11) in
  let hash := u32 (hash + u32 (hash ≪ 15)) in
  let hash := if hashbits <? 32 then hash .& (u32 (1 ≪ hashbits) - 1) else hash in
  if hash =? 0 then 1 else hash.
End Hash.

(** ** The state *)

Inductive DeferredCompareType : Type := kNone | kCompareReg | kCompareImm | kTestReg | kTestImm.

Record Assembler (P : Type) := mkAssembler {
  micro : MicroAssembler;
  object_pool_builder : P;
  constant_pool_allowed_ : bool;
  deferred_compare_ : DeferredCompareType;
  deferred_left_ : Z;
  deferred_reg_ : Z;
  deferred_imm_ : Z
}.
Arguments mkAssembler {P}.
Arguments micro {P}.
Arguments object_pool_builder {P}.
Arguments constant_pool_allowed_ {P}.
Arguments deferred_compare_ {P}.
Arguments deferred_left_ {P}.
Arguments deferred_reg_ {P}.
Arguments deferred_imm_ {P}.

Module Macro.
Section Macro.
Context {P : Type} `{ObjectPool P}.
Implicit Types a : Assembler P.

Definition set_micro (m : MicroAssembler) a : Assembler P :=
  mkAssembler m (object_pool_builder a) (constant_pool_allowed_ a)
    (deferred_compare_ a) (deferred_left_ a) (deferred_reg_ a) (deferred_imm_ a).
Definition set_pool (p : P) a : Assembler P :=
  mkAssembler (micro a) p (constant_pool_allowed_ a)
    (deferred_compare_ a) (deferred_left_ a) (deferred_reg_ a) (deferred_imm_ a).
Definition set_deferred (t : DeferredCompareType) (left reg imm : Z) a : Assembler P :=
  mkAssembler (micro a) (object_pool_builder a) (constant_pool_allowed_ a) t left reg imm.
(** [deferred_compare_ = kNone]. *)
Definition consumed a : Assembler P :=
  set_deferred kNone (deferred_left_ a) (deferred_reg_ a) (deferred_imm_ a) a.

Definition Supports a (ext : Z) : bool := Asm.Supports (micro a) ext.

(** Calls of the micro-assembler. *)
Definition ins (f : MicroAssembler -> MicroAssembler) a : asm_result (Assembler P) :=
  Ok (set_micro (f (micro a)) a).
Definition to_label (f : MicroAssembler -> asm_result (Label * MicroAssembler)) a
    : asm_result (Label * Assembler P) :=
  '(l, m) ← f (micro a); Ok (l, set_micro m a).

Definition addi rd rs1 imm := ins (Asm.addi rd rs1 imm).
Definition addiw rd rs1 imm := ins (Asm.addiw rd rs1 imm).
Definition andi rd rs1 imm := ins (Asm.andi rd rs1 imm).
Definition ori rd rs1 imm := ins (Asm.ori rd rs1 imm).
Definition xori rd rs1 imm := ins (Asm.xori rd rs1 imm).
Definition slti rd rs1 imm := ins (Asm.slti rd rs1 imm).
Definition sltiu rd rs1 imm := ins (Asm.sltiu rd rs1 imm).
Definition slli rd rs1 shamt := ins (Asm.slli rd rs1 shamt).
Definition srli rd rs1 shamt := ins (Asm.srli rd rs1 shamt).
Definition srai rd rs1 shamt := ins (Asm.srai rd rs1 shamt).
Definition slliw rd rs1 shamt := ins (Asm.slliw rd rs1 shamt).
Definition srliw rd rs1 shamt := ins (Asm.srliw rd rs1 shamt).
Definition sraiw rd rs1 shamt := ins (Asm.sraiw rd rs1 shamt).
Definition add rd rs1 rs2 := ins (Asm.add rd rs1 rs2).
Definition addw rd rs1 rs2 := ins (Asm.addw rd rs1 rs2).
Definition sub rd rs1 rs2 := ins (Asm.sub rd rs1 rs2).
Definition and_ rd rs1 rs2 := ins (Asm.and_ rd rs1 rs2).
Definition or_ rd rs1 rs2 := ins (Asm.or_ rd rs1 rs2).
Definition xor_ rd rs1 rs2 := ins (Asm.xor_ rd rs1 rs2).
Definition slt rd rs1 rs2 := ins (Asm.slt rd rs1 rs2).
Definition sltu rd rs1 rs2 := ins (Asm.sltu rd rs1 rs2).
Definition mul rd rs1 rs2 := ins (Asm.mul rd rs1 rs2).
Definition mulw rd rs1 rs2 := ins (Asm.mulw rd rs1 rs2).
Definition mulh rd rs1 rs2 := ins (Asm.mulh rd rs1 rs2).
Definition lui rd imm := ins (Asm.lui rd imm).
Definition ld rd addr := ins (Asm.ld rd addr).
Definition sd rs2 addr := ins (Asm.sd rs2 addr).

(** The pseudo-instructions of the micro-assembler. *)
Definition subi rd rs1 imm := addi rd rs1 (- imm).
Definition li rd imm := addi rd Register.ZR imm.
Definition mv rd rs := addi rd rs 0.
Definition snez rd rs := sltu rd Register.ZR rs.
Definition seqz rd rs := sltiu rd rs 1.
Definition sextw rd rs := addiw rd rs 0.
Definition zextw rd rs := ins (Asm.adduw rd rs Register.ZR).
Definition lx rd addr := ld rd addr.
Definition sx rs2 addr := sd rs2 addr.

Definition beq rs1 rs2 l d := to_label (Branch.beq rs1 rs2 l d).
Definition bne rs1 rs2 l d := to_label (Branch.bne rs1 rs2 l d).
Definition blt rs1 rs2 l d := to_label (Branch.blt rs1 rs2 l d).
Definition bge rs1 rs2 l d := to_label (Branch.bge rs1 rs2 l d).
Definition bltu rs1 rs2 l d := to_label (Branch.bltu rs1 rs2 l d).
Definition bgeu rs1 rs2 l d := to_label (Branch.bgeu rs1 rs2 l d).
Definition bgt rs1 rs2 l d := blt rs2 rs1 l d.
Definition ble rs1 rs2 l d := bge rs2 rs1 l d.
Definition bgtu rs1 rs2 l d := bltu rs2 rs1 l d.
Definition bleu rs1 rs2 l d := bgeu rs2 rs1 l d.
Definition beqz rs l d := beq rs Register.ZR l d.
Definition bnez rs l d := bne rs Register.ZR l d.
Definition bgez rs l d := bge rs Register.ZR l d.
Definition bltz rs l d := blt rs Register.ZR l d.

(** ** Extension of values *)

Definition ExtendValue (rd rn : Z) (sz : OperandSize) a : asm_result (Assembler P) :=
  match sz with
  | kEightBytes => if rd =? rn then Ok a else mv rd rn a
  | kUnsignedFourBytes =>
      if Supports a Extension.RV_Zba then zextw rd rn a
      else a ← slli rd rn (XLEN - 32) a; srli rd rn (XLEN - 32) a
  | kFourBytes => sextw rd rn a
  | kUnsignedTwoBytes =>
      if Supports a Extension.RV_Zbb then ins (Asm.zexth rd rn) a
      else a ← slli rd rn (XLEN - 16) a; srli rd rn (XLEN - 16) a
  | kTwoBytes =>
      if Supports a Extension.RV_Zbb then ins (Asm.sexth rd rn) a
      else a ← slli rd rn (XLEN - 16) a; srai rd rn (XLEN - 16) a
  | kUnsignedByte => andi rd rn kMaxUint8 a
  | kByte =>
      if Supports a Extension.RV_Zbb then ins (Asm.sextb rd rn) a
      else a ← slli rd rn (XLEN - 8) a; srai rd rn (XLEN - 8) a
  | _ => Err Fatal
  end.

Definition SmiTag (dst src : Z) := slli dst src kSmiTagSize.
Definition SmiUntag (dst src : Z) := srai dst src kSmiTagSize.

Definition ExtendAndSmiTagValue (rd rn : Z) (sz : OperandSize) a : asm_result (Assembler P) :=
  match sz with
  | kEightBytes => SmiTag rd rn a
  | kUnsignedFourBytes => a ← slli rd rn (XLEN - 32) a; srli rd rd (XLEN - 32 - kSmiTagShift) a
  | kFourBytes => a ← slli rd rn (XLEN - 32) a; srai rd rd (XLEN - 32 - kSmiTagShift) a
  | kUnsignedTwoBytes => a ← slli rd rn (XLEN - 16) a; srli rd rd (XLEN - 16 - kSmiTagShift) a
  | kTwoBytes => a ← slli rd rn (XLEN - 16) a; srai rd rd (XLEN - 16 - kSmiTagShift) a
  | kUnsignedByte => a ← slli rd rn (XLEN - 8) a; srli rd rd (XLEN - 8 - kSmiTagShift) a
  | kByte => a ← slli rd rn (XLEN - 8) a; srai rd rd (XLEN - 8 - kSmiTagShift) a
  | _ => Err Fatal
  end.

Definition MoveRegister (dst src : Z) := ExtendValue dst src kWordBytes.

(** ** Constants *)

Definition LoadWordFromPoolIndex (dst index pp : Z) a : asm_result (Assembler P) :=
  let offset := u32 (element_offset index) in
  let lo := ImmLo offset in
  let hi := ImmHi offset in
  if hi =? 0 then lx dst (mkAddress pp lo) a
  else
    a ← lui dst hi a;
    a ← add dst dst pp a;
    lx dst (mkAddress dst lo) a.

Definition StoreWordToPoolIndex (src index pp : Z) a : asm_result (Assembler P) :=
  let offset := u32 (element_offset index) in
  let lo := ImmLo offset in
  let hi := ImmHi offset in
  if hi =? 0 then sx src (mkAddress pp lo) a
  else
    a ← lui TMP hi a;
    a ← add TMP TMP pp a;
    sx src (mkAddress TMP lo) a.

(** The recursive calls see 12 bits less each, and the fourth one 32 bits at most. *)
Fixpoint LoadImmediate_loop (fuel : nat) (reg imm : Z) a : asm_result (Assembler P) :=
  if negb (IsInt intptr_t 32 imm) then
    let shift := CountTrailingZeros64 (u64 imm) in
    if IsITypeImm (imm ≫ shift) then
      a ← li reg (imm ≫ shift) a; slli reg reg shift a
    else if (12 <=? shift) && IsUTypeImm (imm ≫ (shift - 12)) then
      a ← lui reg (imm ≫ (shift - 12)) a; slli reg reg (shift - 12) a
    else if constant_pool_allowed_ a then
      '(index, p) ← FindImmediate (u64 imm) (object_pool_builder a);
      LoadWordFromPoolIndex reg index PP (set_pool p a)
    else
      let lo := ImmLo imm in
      hi ← int64 (imm - lo);
      let shift := CountTrailingZeros64 (u64 hi) in
      match fuel with
      | O => Err LoopFuel
      | S fuel =>
          a ← LoadImmediate_loop fuel reg (hi ≫ shift) a;
          a ← slli reg reg shift a;
          if negb (lo =? 0) then addi reg reg lo a else Ok a
      end
  else
    let lo := ImmLo imm in
    let hi := ImmHi imm in
    if hi =? 0 then addi reg Register.ZR lo a
    else
      a ← lui reg hi a;
      if negb (lo =? 0) then addiw reg reg lo a else Ok a.

Definition LoadImmediate : Z -> Z -> Assembler P -> asm_result (Assembler P) :=
  LoadImmediate_loop 3.

(** ** Arithmetic with immediates *)

Definition AddImmediate (rd rs1 imm : Z) a : asm_result (Assembler P) :=
  if (imm =? 0) && (rd =? rs1) then Ok a
  else if IsITypeImm imm then addi rd rs1 imm a
  else a ← LoadImmediate TMP2 imm a; add rd rs1 TMP2 a.

Definition MulImmediate (rd rs1 imm : Z) (sz : OperandSize) a : asm_result (Assembler P) :=
  pow2 ← IsPowerOfTwo_signed imm;
  if (pow2 : bool) then
    let shift := ShiftForPowerOfTwo imm in
    match sz with
    | kFourBytes => slliw rd rs1 shift a
    | _ => slli rd rs1 shift a
    end
  else
    a ← LoadImmediate TMP imm a;
    match sz with
    | kFourBytes => mulw rd rs1 TMP a
    | _ => mul rd rs1 TMP a
    end.

Definition AndImmediate (rd rs1 imm : Z) (sz : OperandSize) a : asm_result (Assembler P) :=
  bit_size ← OperandSizeInBits sz;
  let uimm := if bit_size =? XLEN then u64 imm else u32 imm in
  if (bit_size =? XLEN) && (imm =? -1) then MoveRegister rd rs1 a
  else if (bit_size <? XLEN) && (s32 imm =? -1) then ExtendValue rd rs1 kUnsignedFourBytes a
  else if IsITypeImm (s64 uimm) then andi rd rs1 (s64 uimm) a
  else if Supports a Extension.RV_Zbs && IsPowerOfTwo (u64 (Z.lnot uimm)) then
    ins (Asm.bclri rd rs1 (ShiftForPowerOfTwo (u64 (Z.lnot uimm)))) a
  else if IsPowerOfTwo (u64 (uimm + 1)) then
    let shift := ShiftForPowerOfTwo (u64 (uimm + 1)) in
    if Supports a Extension.RV_Zbb && (shift =? 16) then ins (Asm.zexth rd rs1) a
    else a ← slli rd rs1 (XLEN - shift) a; srli rd rd (XLEN - shift) a
  else
    a ← LoadImmediate TMP2 (s64 uimm) a; and_ rd rs1 TMP2 a.

Definition OrImmediate (rd rs1 imm : Z) a : asm_result (Assembler P) :=
  let uimm := u64 imm in
  if imm =? 0 then MoveRegister rd rs1 a
  else if IsITypeImm imm then ori rd rs1 imm a
  else if Supports a Extension.RV_Zbs && IsPowerOfTwo uimm then
    ins (Asm.bseti rd rs1 (ShiftForPowerOfTwo uimm)) a
  else a ← LoadImmediate TMP2 imm a; or_ rd rs1 TMP2 a.

Definition XorImmediate (rd rs1 imm : Z) a : asm_result (Assembler P) :=
  let uimm := u64 imm in
  if imm =? 0 then MoveRegister rd rs1 a
  else if IsITypeImm imm then xori rd rs1 imm a
  else if Supports a Extension.RV_Zbs && IsPowerOfTwo uimm then
    ins (Asm.binvi rd rs1 (ShiftForPowerOfTwo uimm)) a
  else a ← LoadImmediate TMP2 imm a; xor_ rd rs1 TMP2 a.

Definition LslImmediate (rd rn shift : Z) (sz : OperandSize) a : asm_result (Assembler P) :=
  if shift =? 0 then ExtendValue rd rn sz a
  else match sz with
  | kFourBytes => slliw rd rn shift a
  | kUnsignedFourBytes => a ← slli rd rn (shift + XLEN / 2) a; srli rd rn (XLEN / 2) a
  | _ => slli rd rn shift a
  end.

Definition ArithmeticShiftRightImmediate (dst src shift : Z) (sz : OperandSize) a
    : asm_result (Assembler P) :=
  if shift =? 0 then ExtendValue dst src sz a
  else match sz with
  | kFourBytes => sraiw dst src shift a
  | _ => srai dst src shift a
  end.

Definition AddShifted (dest base index shift : Z) a : asm_result (Assembler P) :=
  if shift =? 0 then add dest index base a
  else if Supports a Extension.RV_Zba && (shift =? 1) then ins (Asm.sh1add dest index base) a
  else if Supports a Extension.RV_Zba && (shift =? 2) then ins (Asm.sh2add dest index base) a
  else if Supports a Extension.RV_Zba && (shift =? 3) then ins (Asm.sh3add dest index base) a
  else if shift <? 0 then
    if negb (base =? dest) then a ← srai dest index (- shift) a; add dest dest base a
    else a ← srai TMP2 index (- shift) a; add dest TMP2 base a
  else
    if negb (base =? dest) then a ← slli dest index shift a; add dest dest base a
    else a ← slli TMP2 index shift a; add dest TMP2 base a.

(** ** Deferred comparisons *)

Definition CompareRegisters (rn rm : Z) a : Assembler P :=
  set_deferred kCompareReg rn rm (deferred_imm_ a) a.
Definition TestRegisters (rn rm : Z) a : Assembler P :=
  set_deferred kTestReg rn rm (deferred_imm_ a) a.
Definition CompareImmediate (rn imm : Z) a : Assembler P :=
  set_deferred kCompareImm rn (deferred_reg_ a) imm a.
Definition TestImmediate (rn imm : Z) a : Assembler P :=
  set_deferred kTestImm rn (deferred_reg_ a) imm a.

(** The branch on a comparison of two registers. *)
Definition branch_compare (condition : Condition) (left right : Z) (label : Label)
    (distance : JumpDistance) a : asm_result (Label * Assembler P) :=
  match condition with
  | EQ => beq left right label distance a
  | NE => bne left right label distance a
  | LT => blt left right label distance a
  | LE => ble left right label distance a
  | GE => bge left right label distance a
  | GT => bgt left right label distance a
  | CC => bltu left right label distance a
  | LS => bleu left right label distance a
  | CS => bgeu left right label distance a
  | HI => bgtu left right label distance a
  | VS | VC => Err Fatal
  | _ => Err Unreachable
  end.

(** The branch on a register that is zero or not. *)
Definition branch_zero (condition : Condition) (rs : Z) (label : Label)
    (distance : JumpDistance) a : asm_result (Label * Assembler P) :=
  match condition with
  | EQ => beqz rs label distance a
  | NE => bnez rs label distance a
  | _ => Err Unreachable
  end.

(** The branch on the sign of a register. *)
Definition branch_sign (condition : Condition) (rs : Z) (label : Label)
    (distance : JumpDistance) a : asm_result (Label * Assembler P) :=
  match condition with
  | EQ => bgez rs label distance a
  | NE => bltz rs label distance a
  | _ => Err Unreachable
  end.

Definition BranchIf (condition : Condition) (label : Label) (distance : JumpDistance) a
    : asm_result (Label * Assembler P) :=
  let left := deferred_left_ a in
  let imm := deferred_imm_ a in
  '(label, a) ← match deferred_compare_ a with
    | kCompareImm =>
        if imm =? 0 then branch_compare condition left Register.ZR label distance a
        else a ← LoadImmediate TMP2 imm a; branch_compare condition left TMP2 label distance a
    | kCompareReg => branch_compare condition left (deferred_reg_ a) label distance a
    | kTestReg =>
        a ← and_ TMP2 left (deferred_reg_ a) a; branch_zero condition TMP2 label distance a
    | kTestImm =>
        let uimm := u64 imm in
        if IsITypeImm imm then
          a ← andi TMP2 left imm a; branch_zero condition TMP2 label distance a
        else if IsPowerOfTwo uimm then
          let shift := ShiftForPowerOfTwo uimm in
          if shift =? XLEN - 1 then branch_sign condition left label distance a
          else
            a ← slli TMP2 left (XLEN - 1 - shift) a;
            branch_sign condition TMP2 label distance a
        else
          a ← AndImmediate TMP2 left imm kWordBytes a;
          branch_zero condition TMP2 label distance a
    | kNone => Err Unreachable
    end;
  Ok (label, consumed a).

(** [SetIf] on a comparison of two registers. *)
Definition set_compare (condition : Condition) (rd left right : Z) a : asm_result (Assembler P) :=
  match condition with
  | EQ =>
      if right =? Register.ZR then seqz rd left a
      else a ← xor_ rd left right a; seqz rd rd a
  | NE =>
      if right =? Register.ZR then snez rd left a
      else a ← xor_ rd left right a; snez rd rd a
  | LT => slt rd left right a
  | LE => a ← slt rd right left a; xori rd rd 1 a
  | GE => a ← slt rd left right a; xori rd rd 1 a
  | GT => slt rd right left a
  | CC => sltu rd left right a
  | LS => a ← sltu rd right left a; xori rd rd 1 a
  | CS => a ← sltu rd left right a; xori rd rd 1 a
  | HI => sltu rd right left a
  | _ => Err Unreachable
  end.

(** [SetIf] on a comparison with an immediate of 12 bits. *)
Definition set_compare_imm (condition : Condition) (rd left right : Z) a
    : asm_result (Assembler P) :=
  match condition with
  | EQ => a ← subi rd left right a; seqz rd rd a
  | NE => a ← subi rd left right a; snez rd rd a
  | LT => slti rd left right a
  | LE => slti rd left (right + 1) a
  | GE => a ← slti rd left right a; xori rd rd 1 a
  | GT => a ← slti rd left (right + 1) a; xori rd rd 1 a
  | CC => sltiu rd left right a
  | LS => sltiu rd left (right + 1) a
  | CS => a ← sltiu rd left right a; xori rd rd 1 a
  | HI => a ← sltiu rd left (right + 1) a; xori rd rd 1 a
  | _ => Err Unreachable
  end.

Definition set_zero (condition : Condition) (rd : Z) a : asm_result (Assembler P) :=
  match condition with
  | EQ => seqz rd rd a
  | NE => snez rd rd a
  | _ => Err Unreachable
  end.

(** The bit in [rd], or its complement. *)
Definition set_bit (condition : Condition) (rd : Z) a : asm_result (Assembler P) :=
  match condition with
  | EQ => xori rd rd 1 a
  | NE => Ok a
  | _ => Err Unreachable
  end.

Definition SetIf (condition : Condition) (rd : Z) a : asm_result (Assembler P) :=
  let left := deferred_left_ a in
  let imm := deferred_imm_ a in
  a ← match deferred_compare_ a with
    | kCompareImm =>
        if imm =? 0 then
          set_compare condition rd left Register.ZR
            (set_deferred kCompareReg left Register.ZR imm a)
        else if negb (IsITypeImm imm) || negb (IsITypeImm (imm + 1)) then
          a ← LoadImmediate TMP2 imm a;
          set_compare condition rd left TMP2 (set_deferred kCompareReg left TMP2 imm a)
        else set_compare_imm condition rd left imm a
    | kCompareReg => set_compare condition rd left (deferred_reg_ a) a
    | kTestImm =>
        let uimm := u64 imm in
        if imm =? 1 then a ← andi rd left 1 a; set_bit condition rd a
        else if Supports a Extension.RV_Zbs && IsPowerOfTwo uimm then
          a ← ins (Asm.bexti rd left (ShiftForPowerOfTwo uimm)) a; set_bit condition rd a
        else a ← AndImmediate rd left imm kWordBytes a; set_zero condition rd a
    | kTestReg => a ← and_ rd left (deferred_reg_ a) a; set_zero condition rd a
    | kNone => Err Unreachable
    end;
  Ok (consumed a).

Definition BranchIfZero (rn : Z) (label : Label) (distance : JumpDistance) a :=
  beqz rn label distance a.

Definition BranchIfBit (rn bit_number : Z) (condition : Condition) (label : Label)
    (distance : JumpDistance) a : asm_result (Label * Assembler P) :=
  a ← andi TMP2 rn (1 ≪ bit_number) a; branch_zero condition TMP2 label distance a.

Definition BranchIfNotSmi (reg : Z) (label : Label) (distance : JumpDistance) a :=
  a ← andi TMP2 reg kSmiTagMask a; bnez TMP2 label distance a.
Definition BranchIfSmi (reg : Z) (label : Label) (distance : JumpDistance) a :=
  a ← andi TMP2 reg kSmiTagMask a; beqz TMP2 label distance a.

(** [RangeCheck]: [temp] is absent when the value may be overwritten. *)
Inductive RangeCheckCondition : Type := kIfNotInRange | kIfInRange.
Definition RangeCheck (value : Z) (temp : option Z) (low high : Z)
    (condition : RangeCheckCondition) (target : Label) a : asm_result (Label * Assembler P) :=
  let cc := match condition with kIfInRange => LS | kIfNotInRange => HI end in
  let to_check := default value temp in
  neg_low ← int64 (- low);
  a ← AddImmediate to_check value neg_low a;
  width ← int64 (high - low);
  BranchIf cc target kFarJump (CompareImmediate to_check width a).

(** ** Branches on overflow *)

Definition AddImmediateBranchOverflow (rd rs1 imm : Z) (overflow : Label) a
    : asm_result (Label * Assembler P) :=
  if rd =? rs1 then
    a ← mv TMP2 rs1 a;
    a ← AddImmediate rd rs1 imm a;
    if 0 <? imm then blt rd TMP2 overflow kFarJump a
    else if imm <? 0 then bgt rd TMP2 overflow kFarJump a
    else Ok (overflow, a)
  else
    a ← AddImmediate rd rs1 imm a;
    if 0 <? imm then blt rd rs1 overflow kFarJump a
    else if imm <? 0 then bgt rd rs1 overflow kFarJump a
    else Ok (overflow, a).

Definition SubtractImmediateBranchOverflow (rd rs1 imm : Z) (overflow : Label) a
    : asm_result (Label * Assembler P) :=
  neg_imm ← int64 (- imm); AddImmediateBranchOverflow rd rs1 neg_imm overflow a.

Definition MultiplyImmediateBranchOverflow (rd rs1 imm : Z) (overflow : Label) a
    : asm_result (Label * Assembler P) :=
  a ← LoadImmediate TMP2 imm a;
  a ← mulh TMP rs1 TMP2 a;
  a ← mul rd rs1 TMP2 a;
  a ← srai TMP2 rd (XLEN - 1) a;
  bne TMP TMP2 overflow kFarJump a.

Definition AddBranchOverflow (rd rs1 rs2 : Z) (overflow : Label) a
    : asm_result (Label * Assembler P) :=
  if (rd =? rs1) && (rd =? rs2) then
    a ← mv TMP rs1 a;
    a ← add rd rs1 rs2 a;
    a ← xor_ TMP TMP rd a;
    bltz TMP overflow kFarJump a
  else if rs1 =? rs2 then
    a ← add rd rs1 rs2 a;
    a ← xor_ TMP rd rs1 a;
    bltz TMP overflow kFarJump a
  else if rd =? rs1 then
    a ← slti TMP rs1 0 a;
    a ← add rd rs1 rs2 a;
    a ← slt TMP2 rd rs2 a;
    bne TMP TMP2 overflow kFarJump a
  else if rd =? rs2 then
    a ← slti TMP rs2 0 a;
    a ← add rd rs1 rs2 a;
    a ← slt TMP2 rd rs1 a;
    bne TMP TMP2 overflow kFarJump a
  else
    a ← add rd rs1 rs2 a;
    a ← slti TMP rs2 0 a;
    a ← slt TMP2 rd rs1 a;
    bne TMP TMP2 overflow kFarJump a.

Definition SubtractBranchOverflow (rd rs1 rs2 : Z) (overflow : Label) a
    : asm_result (Label * Assembler P) :=
  if (rd =? rs1) && (rd =? rs2) then
    a ← mv TMP rs1 a;
    a ← sub rd rs1 rs2 a;
    a ← xor_ TMP TMP rd a;
    bltz TMP overflow kFarJump a
  else if rs1 =? rs2 then
    a ← sub rd rs1 rs2 a;
    a ← xor_ TMP rd rs1 a;
    bltz TMP overflow kFarJump a
  else if rd =? rs1 then
    a ← slti TMP rs1 0 a;
    a ← sub rd rs1 rs2 a;
    a ← slt TMP2 rd rs2 a;
    bne TMP TMP2 overflow kFarJump a
  else if rd =? rs2 then
    a ← slti TMP rs2 0 a;
    a ← sub rd rs1 rs2 a;
    a ← slt TMP2 rd rs1 a;
    bne TMP TMP2 overflow kFarJump a
  else
    a ← sub rd rs1 rs2 a;
    a ← slti TMP rs2 0 a;
    a ← slt TMP2 rs1 rd a;
    bne TMP TMP2 overflow kFarJump a.

Definition MultiplyBranchOverflow (rd rs1 rs2 : Z) (overflow : Label) a
    : asm_result (Label * Assembler P) :=
  a ← mulh TMP rs1 rs2 a;
  a ← mul rd rs1 rs2 a;
  a ← srai TMP2 rd (XLEN - 1) a;
  bne TMP TMP2 overflow kFarJump a.

(** ** Memory *)

(** The address that stands for [base + offset], after the code that prepares it. *)
Definition PrepareLargeOffset (base offset : Z) a : asm_result (Address * Assembler P) :=
  if IsITypeImm offset then Ok (mkAddress base offset, a)
  else
    let lo := ImmLo offset in
    let hi := ImmHi offset in
    a ← lui TMP2 hi a;
    a ← add TMP2 TMP2 base a;
    Ok (mkAddress TMP2 lo, a).

Definition PrepareAtomicOffset (base offset : Z) a : asm_result (Address * Assembler P) :=
  if offset =? 0 then Ok (mkAddress base 0, a)
  else a ← AddImmediate TMP2 base offset a; Ok (mkAddress TMP2 0, a).

Definition Load (dest : Z) (address : Address) (sz : OperandSize) a : asm_result (Assembler P) :=
  '(addr, a) ← PrepareLargeOffset (base address) (offset address) a;
  match sz with
  | kEightBytes => ins (Asm.ld dest addr) a
  | kUnsignedFourBytes => ins (Asm.lwu dest addr) a
  | kFourBytes => ins (Asm.lw dest addr) a
  | kUnsignedTwoBytes => ins (Asm.lhu dest addr) a
  | kTwoBytes => ins (Asm.lh dest addr) a
  | kUnsignedByte => ins (Asm.lbu dest addr) a
  | kByte => ins (Asm.lb dest addr) a
  | _ => Err Unreachable
  end.

Definition Store (src : Z) (address : Address) (sz : OperandSize) a : asm_result (Assembler P) :=
  '(addr, a) ← PrepareLargeOffset (base address) (offset address) a;
  match sz with
  | kEightBytes => ins (Asm.sd src addr) a
  | kUnsignedFourBytes | kFourBytes => ins (Asm.sw src addr) a
  | kUnsignedTwoBytes | kTwoBytes => ins (Asm.sh src addr) a
  | kUnsignedByte | kByte => ins (Asm.sb src addr) a
  | _ => Err Unreachable
  end.

Definition LoadFromStack (dst depth : Z) :=
  Load dst (mkAddress Register.SP (kWordSize * depth)) kWordBytes.
Definition StoreToStack (src depth : Z) :=
  Store src (mkAddress Register.SP (kWordSize * depth)) kWordBytes.

(** ** The stack and the frames *)

Definition PushRegister (r : Z) a : asm_result (Assembler P) :=
  a ← subi Register.SP Register.SP kWordSize a;
  sx r (mkAddress Register.SP 0) a.
Definition PopRegister (r : Z) a : asm_result (Assembler P) :=
  a ← lx r (mkAddress Register.SP 0) a;
  addi Register.SP Register.SP kWordSize a.

Definition PushRegisterPair (r0 r1 : Z) a : asm_result (Assembler P) :=
  a ← subi Register.SP Register.SP (2 * kWordSize) a;
  a ← sx r1 (mkAddress Register.SP kWordSize) a;
  sx r0 (mkAddress Register.SP 0) a.
Definition PopRegisterPair (r0 r1 : Z) a : asm_result (Assembler P) :=
  a ← lx r1 (mkAddress Register.SP kWordSize) a;
  a ← lx r0 (mkAddress Register.SP 0) a;
  addi Register.SP Register.SP (2 * kWordSize) a.

(** The loop of [PushRegistersInOrder]. *)
Fixpoint store_in_order (regs : list Z) (offset : Z) a : asm_result (Assembler P) :=
  match regs with
  | [] => Ok a
  | reg :: regs =>
      let offset := offset - kWordSize in
      a ← sx reg (mkAddress Register.SP offset) a;
      store_in_order regs offset a
  end.
Definition PushRegistersInOrder (regs : list Z) a : asm_result (Assembler P) :=
  let offset := Z.of_nat (length regs) * kWordSize in
  a ← subi Register.SP Register.SP offset a;
  store_in_order regs offset a.

Definition Drop (stack_elements : Z) a : asm_result (Assembler P) :=
  if 0 <? stack_elements
  then AddImmediate Register.SP Register.SP (stack_elements * kWordSize) a
  else Ok a.

Definition EnterFrame (frame_size : Z) a : asm_result (Assembler P) :=
  a ← subi Register.SP Register.SP (frame_size + 2 * kWordSize) a;
  a ← sx Register.RA (mkAddress Register.SP (frame_size + 1 * kWordSize)) a;
  a ← sx Register.FP (mkAddress Register.SP (frame_size + 0 * kWordSize)) a;
  addi Register.FP Register.SP (frame_size + 2 * kWordSize) a.

Definition LeaveFrame a : asm_result (Assembler P) :=
  a ← subi Register.SP Register.FP (2 * kWordSize) a;
  a ← lx Register.FP (mkAddress Register.SP (0 * kWordSize)) a;
  a ← lx Register.RA (mkAddress Register.SP (1 * kWordSize)) a;
  addi Register.SP Register.SP (2 * kWordSize) a.

Definition ReserveAlignedFrameSpace (frame_space : Z) a : asm_result (Assembler P) :=
  a ← (if negb (frame_space =? 0) then addi Register.SP Register.SP (- frame_space) a else Ok a);
  andi Register.SP Register.SP (Z.lnot (16 - 1)) a.

(** ** Hashes *)

Definition CombineHashes (hash other : Z) a : asm_result (Assembler P) :=
  a ← addw hash hash other a;
  a ← slliw other hash 10 a;
  a ← addw hash hash other a;
  a ← srliw other hash 6 a;
  xor_ hash hash other a.

Definition FinalizeHashForSize (bit_size hash scratch : Z) a : asm_result (Assembler P) :=
  a ← slliw scratch hash 3 a;
  a ← addw hash hash scratch a;
  a ← srliw scratch hash 11 a;
  a ← xor_ hash hash scratch a;
  a ← slliw scratch hash 15 a;
  a ← addw hash hash scratch a;
  a ← (if bit_size <? 32 then AndImmediate hash hash ((1 ≪ bit_size) - 1) kWordBytes a else Ok a);
  a ← seqz scratch hash a;
  add hash hash scratch a.

(** ** Tags of heap objects *)

Definition ExtractClassIdFromTags (result tags : Z) := srliw result tags 12.
Definition ExtractInstanceSizeFromTags (result tags : Z) a : asm_result (Assembler P) :=
  a ← srli result tags 8 a;
  a ← andi result result ((1 ≪ 4) - 1) a;
  slli result result 4 a.

End Macro.
End Macro.
