(* ===== verification/RiscvMacroRuns.v ===== *)
(** * Sequences of register instructions

    The macros are sequences of instructions that compute in registers.  This file
    reduces their execution to a function on register files: [steps_alu] says that
    the simulator runs such a sequence, [computes] is the specification of a macro
    that leaves a value in a register, and [branches] that of a macro that ends with
    a branch. *)

From S2P Require Import Prelude Utils RiscvConstants RiscvEncoding RiscvAssembler RiscvLabels.
From S2P Require Import SimMemory RiscvSimulator RiscvIsa RiscvDecode RiscvInterpret.
From S2P Require Import RiscvBranches RiscvJumps RiscvCorrect RiscvEmit RiscvPrograms RiscvMacro.

(** ** Register files as functions *)

Definition regs : Type := Z -> Z.

Definition regs_wf (f : regs) : Prop := (forall r, is_u 5 r -> is_u 64 (f r)) /\ f 0 = 0.

Definition write (rd v : Z) (f : regs) : regs :=
  fun r => if (r =? rd) && negb (rd =? Register.ZR) then u64 v else f r.
#[global] Arguments write : simpl never.

Lemma write_eq rd v f : rd <> 0 -> write rd v f rd = u64 v.
Proof. intros. unfold write. by rewrite Z.eqb_refl, (proj2 (Z.eqb_neq rd Register.ZR)). Qed.
Lemma write_ne rd v f r : r <> rd -> write rd v f r = f r.
Proof. intros. unfold write. by rewrite (proj2 (Z.eqb_neq r rd)). Qed.

Lemma write_wf rd v f : regs_wf f -> regs_wf (write rd v f).
Proof.
  intros [Hr H0]. split; unfold write.
  - intros r Hu. destruct (_ && _); [by apply uwrap_range|auto].
  - destruct (0 =? rd) eqn:E; [|done]. apply Z.eqb_eq in E as <-. done.
Qed.

(** The instructions that compute in registers, and what they compute. *)
Definition alu (i : instruction) : bool :=
  match i with
  | Reg _ _ _ _ | Imm _ _ _ _ | Shift _ _ _ _ | Unary _ _ _ | Lui _ _ => true
  | _ => false
  end.

Definition target (i : instruction) : Z :=
  match i with
  | Reg _ rd _ _ | Imm _ rd _ _ | Shift _ rd _ _ | Unary _ rd _ | Lui rd _ => rd
  | _ => 0
  end.

Definition value (i : instruction) (f : regs) : Z :=
  match i with
  | Reg op _ rs1 rs2 => rop_sem op (f rs1) (f rs2)
  | Imm op _ rs1 imm => iop_sem op (f rs1) imm
  | Shift op _ rs1 n => shop_sem op (f rs1) n
  | Unary op _ rs1 => uop_sem op (f rs1)
  | Lui _ imm => imm
  | _ => 0
  end.

Definition run1 (f : regs) (i : instruction) : regs := write (target i) (value i f) f.
Definition run (body : list instruction) (f : regs) : regs := fold_left run1 body f.

Lemma run_app b1 b2 f : run (b1 ++ b2) f = run b2 (run b1 f).
Proof. apply fold_left_app. Qed.

Lemma run_wf body f : regs_wf f -> regs_wf (run body f).
Proof.
  revert f. induction body as [|i body IH]; intros f Hf; [done|]. by apply IH, write_wf.
Qed.

Lemma run_frame body f r : Forall (fun i => target i <> r) body -> run body f r = f r.
Proof.
  revert f. induction body as [|i body IH]; intros f; [done|].
  rewrite Forall_cons. intros [Hi Hb]. cbn. rewrite IH by done. apply write_ne. congruence.
Qed.

(** Computes the register file after a given sequence. *)
Ltac run_regs :=
  cbn [run fold_left app]; unfold run1; cbn [target value rop_sem iop_sem shop_sem uop_sem];
  repeat first
    [ rewrite write_eq by (assumption || congruence || lia)
    | rewrite write_ne by (assumption || congruence || lia) ].

(** ** Execution *)

Section Runs.
Context {M : Type} `{MemoryOps M}.
Implicit Types s : Simulator M.

Definition regs_of s : regs := fun r => get_xreg r s.

Lemma regs_of_wf s : sim_wf s -> regs_wf (regs_of s).
Proof. intros Hs. split; [intros r; by apply get_xreg_range|by apply get_xreg_zr]. Qed.

Definition operand_ok (c : bool) (i : instruction) : bool := alu i && encodable c i.

Lemma exec_alu c i len s :
  operand_ok c i = true -> sim_wf s -> 0 <= len -> pc_ s + len < 2 ^ 64 ->
  exec i len s = Ok (count (set_pc (pc_ s + len) (set_xreg (target i) (value i (regs_of s)) s)))
  /\ is_u 5 (target i).
Proof.
  intros Hi Hs Hl Hp. apply andb_true_iff in Hi as [Ha He].
  assert (Eu : u64 (pc_ s + len) = pc_ s + len).
  { apply uwrap_small. pose proof (wf_pc _ Hs) as Hr. unfold is_u in *. lia. }
  destruct i; try discriminate; cbn [exec target value encodable] in *; reflect_bool;
    repeat match goal with Hr : is_reg _ = true |- _ => apply is_reg_spec in Hr end;
    (split; [|done]); unfold retire, add_pc; rewrite pc_set_xreg, Eu; reflexivity.
Qed.

Lemma regs_of_step pc rd v s r :
  sim_wf s -> is_u 5 rd -> is_u 5 r ->
  regs_of (count (set_pc pc (set_xreg rd v s))) r = write rd v (regs_of s) r.
Proof.
  intros Hs Hd Hr. change (get_xreg r (set_xreg rd v s) = write rd v (regs_of s) r).
  by rewrite get_set_xreg.
Qed.

(** Only the registers of the machine matter. *)
Definition agree (f g : regs) : Prop := forall r, is_u 5 r -> f r = g r.

Lemma run1_agree c i f g : operand_ok c i = true -> agree f g -> agree (run1 f i) (run1 g i).
Proof.
  intros Hi Hf r Hr. apply andb_true_iff in Hi as [Ha He]. unfold run1, write.
  rewrite (Hf r Hr). destruct (_ && _); [|done]. f_equal.
  destruct i; try discriminate; cbn [value encodable] in *; reflect_bool;
    repeat match goal with Hr : is_reg _ = true |- _ => apply is_reg_spec in Hr end;
    rewrite ?Hf by done; reflexivity.
Qed.

Lemma run_agree c body : forall f g,
  forallb (operand_ok c) body = true -> agree f g -> agree (run body f) (run body g).
Proof.
  induction body as [|i body IH]; intros f g Hb Hf; [done|]. cbn [forallb] in Hb.
  apply andb_true_iff in Hb as [Hi Hb]. apply IH; [done|]. by eapply run1_agree.
Qed.

Lemma moved_mono rs rs' pc s s' :
  (forall r, r ∈ rs -> r ∈ rs') -> moved rs pc s s' -> moved rs' pc s s'.
Proof. intros Hi [? Hr]. split; try done. intros r Hu Hn. apply Hr; [done|]. auto. Qed.

(** The simulator runs a sequence of register instructions. *)
Lemma steps_alu body : forall m s,
  sim_wf s -> forallb (operand_ok (Asm.Supports m Extension.RV_C)) body = true ->
  loaded (code body m) s -> pc_ s + Z.of_nat (length (code body m)) < 2 ^ 64 ->
  exists s', steps (length body) s = Ok s' /\
    moved (map target body) (pc_ s + Z.of_nat (length (code body m))) s s' /\
    agree (regs_of s') (run body (regs_of s)).
Proof.
  induction body as [|i body IH]; intros m s Hs Hb Hl Hp.
  { exists s. change (code [] m) with (drop (length (buffer_ m)) (buffer_ m)).
    rewrite drop_all, Z.add_0_r. split_and!; [done| |done]. by split. }
  cbn [forallb] in Hb. apply andb_true_iff in Hb as [Hi Hb].
  destruct (code_cons i body m) as [_ Ecode]. rewrite Ecode in *. rewrite code_one in *.
  unfold loaded in Hl. apply code_at_app in Hl as [Hl1 Hl2].
  rewrite length_app, Nat2Z.inj_add in *. set (len := Z.of_nat (length (emitted _ _))) in *.
  assert (Hlen : 0 <= len) by lia.
  destruct (exec_alu _ i len s Hi Hs Hlen ltac:(lia)) as [Ex Ht].
  assert (Est : step s = exec i len s).
  { apply instruction_implements; [done| | |exact Hl1].
    - by apply andb_true_iff in Hi as [_ ?].
    - apply andb_true_iff in Hi as [? _]. by destruct i. }
  set (s1 := count _) in *.
  assert (Hm : moved [target i] (pc_ s + len) s s1).
  { apply moved_set_xreg; [done..|]. pose proof (wf_pc _ Hs). unfold is_u in *. lia. }
  destruct (IH (assemble i m) s1) as (s' & E & Hm' & Ha).
  - apply Hm.
  - by rewrite supports_assemble.
  - unfold loaded. rewrite (moved_memory _ _ _ _ Hm), (moved_pc _ _ _ _ Hm). exact Hl2.
  - rewrite (moved_pc _ _ _ _ Hm). lia.
  - exists s'. cbn [length steps]. rewrite Est, Ex. split_and!; [exact E| |].
    + rewrite (moved_pc _ _ _ _ Hm) in Hm'. rewrite Z.add_assoc.
      exact (moved_trans [target i] (map target body) _ _ _ _ _ Hm Hm').
    + intros r Hr. rewrite (Ha r Hr).
      apply (run_agree _ body _ (run1 (regs_of s) i) Hb); [|done].
      intros q Hq. by apply regs_of_step.
Qed.

End Runs.

(** ** Operands *)

(** The registers of an instruction that is being emitted. *)
Lemma is_reg_intro r : is_u 5 r -> is_reg r = true.
Proof. apply is_reg_spec. Qed.

Lemma encodable_imm c op rd rs1 imm :
  is_u 5 rd -> is_u 5 rs1 -> IsITypeImm imm = true -> operand_ok c (Imm op rd rs1 imm) = true.
Proof. intros. cbn. by rewrite !is_reg_intro. Qed.
Lemma encodable_shift c op rd rs1 n :
  is_u 5 rd -> is_u 5 rs1 -> 0 <= n < shop_limit op -> operand_ok c (Shift op rd rs1 n) = true.
Proof.
  intros. unfold operand_ok. cbn [alu encodable]. rewrite !is_reg_intro by done. cbn.
  apply andb_true_iff. rewrite Z.leb_le, Z.ltb_lt. lia.
Qed.
Lemma encodable_reg c op rd rs1 rs2 :
  is_u 5 rd -> is_u 5 rs1 -> is_u 5 rs2 ->
  (op = ADD -> rs1 <> 0 /\ rs2 <> 0) -> operand_ok c (Reg op rd rs1 rs2) = true.
Proof.
  intros Hd H1 H2 Ha. unfold operand_ok. cbn [alu encodable]. rewrite !is_reg_intro by done.
  destruct op; try done. destruct (Ha eq_refl). cbn [andb].
  rewrite (proj2 (Z.eqb_neq rs1 0)), (proj2 (Z.eqb_neq rs2 0)) by done.
  by rewrite !andb_false_r.
Qed.
Lemma encodable_lui c rd imm :
  is_u 5 rd -> IsUTypeImm imm = true -> imm <> 0 -> operand_ok c (Lui rd imm) = true.
Proof.
  intros Hd Hi Hn. unfold operand_ok. cbn [alu encodable]. rewrite is_reg_intro, Hi by done.
  rewrite (proj2 (Z.eqb_neq imm 0)) by done. by rewrite andb_false_r.
Qed.
Lemma encodable_unary c op rd rs1 :
  is_u 5 rd -> is_u 5 rs1 -> operand_ok c (Unary op rd rs1) = true.
Proof. intros. cbn. by rewrite !is_reg_intro. Qed.


(** The registers a given sequence writes. *)
Ltac solve_keeps := let i := fresh in intros i; rewrite ?elem_of_cons, ?elem_of_nil, ?elem_of_app;
  intuition (subst; cbn [target]; rewrite ?elem_of_cons; auto).

(** ** Emitting a sequence *)

Section Emits.
Context {P : Type} `{ObjectPool P}.
Implicit Types a : Assembler P.

(** [a] after the instructions [body]; nothing but the buffer changes. *)
Definition appended (body : list instruction) a : Assembler P :=
  Macro.set_micro (assemble_all body (micro a)) a.

Definition supports_compressed a : bool := Macro.Supports a Extension.RV_C.

Lemma appended_nil a : appended [] a = a.
Proof. by destruct a. Qed.

Lemma appended_app b1 b2 a : appended (b1 ++ b2) a = appended b2 (appended b1 a).
Proof. unfold appended, Macro.set_micro, assemble_all. cbn. by rewrite fold_left_app. Qed.

Lemma supports_appended body a ext : Macro.Supports (appended body a) ext = Macro.Supports a ext.
Proof. unfold Macro.Supports. cbn. by rewrite supports_assemble_all. Qed.

Lemma appended_buffer body a :
  buffer_ (micro (appended body a)) = buffer_ (micro a) ++ emitted (micro a) (micro (appended body a)).
Proof.
  destruct body as [|i body]; [|exact (proj1 (code_cons i body (micro a)))].
  rewrite appended_nil. unfold emitted. by rewrite drop_all, app_nil_r.
Qed.

(** A macro emits a sequence of instructions that can be encoded. *)
Record emits (f : Assembler P -> asm_result (Assembler P)) a (body : list instruction) : Prop := {
  emits_code : f a = Ok (appended body a);
  emits_ok : forallb (operand_ok (supports_compressed a)) body = true
}.

Lemma emits_ins f i a :
  f = Macro.ins (assemble i) -> operand_ok (supports_compressed a) i = true -> emits f a [i].
Proof. intros -> Hi. split; [reflexivity|]. cbn [forallb]. by rewrite Hi. Qed.

Lemma emits_nil a : emits Ok a [].
Proof. split; [by rewrite appended_nil|done]. Qed.

Lemma emits_seq f g a b1 b2 :
  emits f a b1 -> emits g (appended b1 a) b2 -> emits (fun a => a ← f a; g a) a (b1 ++ b2).
Proof.
  intros [E1 O1] [E2 O2]. split.
  - cbv beta. rewrite E1. cbn [mbind result_bind]. by rewrite E2, appended_app.
  - rewrite forallb_app, O1. unfold supports_compressed in *. by rewrite supports_appended in O2.
Qed.

(** ** Specifications of the macros *)

(** [f] appends code that runs to its end, changes the registers [rd] and [rs] at
    most, and leaves in [rd] the value [v] of the registers before. *)
Definition computes (f : Assembler P -> asm_result (Assembler P)) a (rd : Z) (rs : list Z)
    (v : regs -> Z) : Prop :=
  exists a', f a = Ok a' /\ buffer_ (micro a') = buffer_ (micro a) ++ emitted (micro a) (micro a') /\
  forall (M : Type) `(MemoryOps M) (s : Simulator M),
    let size := Z.of_nat (length (emitted (micro a) (micro a'))) in
    sim_wf s -> loaded (emitted (micro a) (micro a')) s -> pc_ s + size < 2 ^ 64 ->
    exists n s', steps n s = Ok s' /\ moved (rd :: rs) (pc_ s + size) s s' /\
      get_xreg rd s' = u64 (v (regs_of s)).

(** The code that [f] emits changes the registers [rs] at most, leaves the values
    [res] of the registers before in theirs, and ends with a branch to the label that
    is taken when [cond] holds of the registers before; [a0] is the assembler after
    [f] but for its buffer. *)
Definition results (res : list (Z * (regs -> Z))) (g g' : regs) : Prop :=
  Forall (fun y => g' y.1 = u64 (y.2 g)) res.

Definition branches (f : Label -> Assembler P -> asm_result (Label * Assembler P))
    (d : JumpDistance) a a0 (rs : list Z) (res : list (Z * (regs -> Z)))
    (cond : regs -> bool) : Prop :=
  exists m op rs1 rs2,
  (forall label, f label a
    = ('(l, m') ← branch_method op rs1 rs2 label d m; Ok (l, Macro.set_micro m' a0))) /\
  forall (M : Type) `(MemoryOps M) (s : Simulator M),
    let size := Z.of_nat (length (emitted (micro a) m)) in
    sim_wf s -> loaded (emitted (micro a) m) s -> pc_ s + size < 2 ^ 64 ->
    exists n s', steps n s = Ok s' /\ moved rs (pc_ s + size) s s' /\
      results res (regs_of s) (regs_of s') /\
      bop_sem op (get_xreg rs1 s') (get_xreg rs2 s') = cond (regs_of s).

Lemma emits_loaded f a body (M : Type) (O : MemoryOps M) (s : Simulator M) :
  emits f a body -> sim_wf s ->
  let size := Z.of_nat (length (emitted (micro a) (micro (appended body a)))) in
  loaded (emitted (micro a) (micro (appended body a))) s -> pc_ s + size < 2 ^ 64 ->
  exists s', steps (length body) s = Ok s' /\ moved (map target body) (pc_ s + size) s s' /\
    agree (regs_of s') (run body (regs_of s)).
Proof. intros [_ Ho] Hs. cbv zeta. intros Hl Hp. by apply steps_alu. Qed.

Definition keeps (body : list instruction) (rs : list Z) : Prop :=
  forall i, i ∈ body -> target i ∈ rs.

Lemma keeps_moved body rs : keeps body rs -> forall r, r ∈ map target body -> r ∈ rs.
Proof. intros Hk r (i & -> & Hi)%list_elem_of_fmap. by apply Hk. Qed.

Lemma emits_computes f a body rd rs v :
  emits f a body -> keeps body (rd :: rs) -> is_u 5 rd ->
  (forall g, regs_wf g -> run body g rd = u64 (v g)) ->
  computes f a rd rs v.
Proof.
  intros He Hk Hd Hv. exists (appended body a). split_and!; [apply He|apply appended_buffer|].
  intros M O s size Hs Hl Hp. destruct (emits_loaded f a body M O s He Hs Hl Hp) as (s' & E & Hm & Ha).
  exists (length body), s'. split_and!; [done| |].
  - eapply moved_mono; [|exact Hm]. by apply keeps_moved.
  - change (regs_of s' rd = u64 (v (regs_of s))). rewrite Ha by done. by apply Hv, regs_of_wf.
Qed.

Lemma emits_branches f d a a0 body op rs1 rs2 rs res cond :
  (forall label, f label a = ('(l, m') ← branch_method op rs1 rs2 label d (assemble_all body (micro a));
    Ok (l, Macro.set_micro m' a0))) ->
  forallb (operand_ok (supports_compressed a)) body = true -> keeps body rs ->
  Forall (fun y => is_u 5 y.1) res -> is_u 5 rs1 -> is_u 5 rs2 ->
  (forall g, regs_wf g -> results res g (run body g) /\
    bop_sem op (run body g rs1) (run body g rs2) = cond g) ->
  branches f d a a0 rs res cond.
Proof.
  intros Hf Ho Hk Hd H1 H2 Hv. exists (assemble_all body (micro a)), op, rs1, rs2.
  split; [exact Hf|]. intros M O s size Hs Hl Hp.
  destruct (steps_alu body (micro a) s Hs Ho Hl Hp) as (s' & E & Hm & Ha).
  destruct (Hv (regs_of s) (regs_of_wf s Hs)) as [Ev Ec].
  exists (length body), s'. split_and!; [done| | |].
  - eapply moved_mono; [|exact Hm]. by apply keeps_moved.
  - unfold results in *. rewrite !Forall_forall in *. intros y Hy. rewrite Ha; auto.
  - change (bop_sem op (regs_of s' rs1) (regs_of s' rs2) = cond (regs_of s)).
    by rewrite !Ha.
Qed.

Lemma emits_ext (f g : Assembler P -> asm_result (Assembler P)) a body :
  f a = g a -> emits g a body -> emits f a body.
Proof. intros E [Ec Eo]. split; [by rewrite E|done]. Qed.

Lemma computes_ext (f g : Assembler P -> asm_result (Assembler P)) a rd rs v :
  f a = g a -> computes g a rd rs v -> computes f a rd rs v.
Proof. unfold computes. by intros ->. Qed.

Lemma computes_value (f : Assembler P -> asm_result (Assembler P)) a rd rs v w :
  (forall g, regs_wf g -> u64 (v g) = u64 (w g)) -> computes f a rd rs v -> computes f a rd rs w.
Proof.
  intros Hv (a' & Ea & Eb & Hr). exists a'. split_and!; [done..|]. intros M O s size Hs Hl Hp.
  destruct (Hr M O s Hs Hl Hp) as (n & s' & E & Hm & Eg). exists n, s'.
  split_and!; [done..|]. rewrite Eg. by apply Hv, regs_of_wf.
Qed.

(** One macro after the other: the second one finds the result of the first, and the
    other registers as they were. *)
Lemma computes_seq_app f h a tmp rd rs rs2 v w u :
  computes f a tmp rs v -> is_u 5 tmp ->
  (forall b, f a = Ok b -> computes h b rd rs2 w) ->
  (forall g g', regs_wf g -> regs_wf g' -> g' tmp = u64 (v g) ->
    (forall r, is_u 5 r -> r ∉ tmp :: rs -> g' r = g r) -> u64 (w g') = u64 (u g)) ->
  computes (fun a => b ← f a; h b) a rd (tmp :: rs ++ rs2) u.
Proof.
  intros (b & Ea & Eb & Hf) Ht Hh Hu. destruct (Hh b Ea) as (c & Ec & Ebc & Hg).
  assert (Ecode : emitted (micro a) (micro c)
    = emitted (micro a) (micro b) ++ emitted (micro b) (micro c)).
  { unfold emitted at 1. by rewrite Ebc, Eb, <- app_assoc, drop_app_length. }
  exists c. split_and!; [by rewrite Ea| |].
  - rewrite Ecode, app_assoc, <- Eb. exact Ebc.
  - intros M O s. cbv zeta. rewrite Ecode, length_app, Nat2Z.inj_add. intros Hs Hl Hp.
    apply code_at_app in Hl as [Hl1 Hl2].
    destruct (Hf M O s Hs Hl1 ltac:(lia)) as (n & s1 & E1 & M1 & V1).
    pose proof (moved_wf _ _ _ _ M1) as Hs1.
    destruct (Hg M O s1 Hs1) as (k & s2 & E2 & M2 & V2).
    { unfold loaded. by rewrite (moved_memory _ _ _ _ M1), (moved_pc _ _ _ _ M1). }
    { rewrite (moved_pc _ _ _ _ M1). lia. }
    exists (n + k)%nat, s2. split_and!.
    + by rewrite (steps_app n k s s1).
    + rewrite (moved_pc _ _ _ _ M1), <- Z.add_assoc in M2.
      eapply moved_mono; [|exact (moved_trans _ _ _ _ _ _ _ M1 M2)].
      intros r. rewrite elem_of_app, !elem_of_cons, elem_of_app. tauto.
    + rewrite V2. apply Hu; [by apply regs_of_wf..|done|].
      intros r Hr Hn. by apply (moved_regs _ _ _ _ M1).
Qed.

Lemma computes_seq f h a tmp rd rs v w u :
  computes f a tmp rs v -> is_u 5 tmp ->
  (forall b, f a = Ok b -> computes h b rd [] w) ->
  (forall g g', regs_wf g -> regs_wf g' -> g' tmp = u64 (v g) ->
    (forall r, is_u 5 r -> r ∉ tmp :: rs -> g' r = g r) -> u64 (w g') = u64 (u g)) ->
  computes (fun a => b ← f a; h b) a rd (tmp :: rs) u.
Proof.
  intros. replace (tmp :: rs) with (tmp :: rs ++ []) by (by rewrite app_nil_r).
  by eapply computes_seq_app.
Qed.

(** A branch after a macro. *)
Lemma computes_branches f h d a a0 rd rs v op r1 r2 cond :
  computes f a rd rs v ->
  (forall b l, f a = Ok b ->
    h l a = ('(l, m) ← branch_method op r1 r2 l d (micro b); Ok (l, Macro.set_micro m a0))) ->
  (forall g g', regs_wf g -> regs_wf g' -> g' rd = u64 (v g) ->
    (forall r, is_u 5 r -> r ∉ rd :: rs -> g' r = g r) -> bop_sem op (g' r1) (g' r2) = cond g) ->
  branches h d a a0 (rd :: rs) [] cond.
Proof.
  intros (b & Ea & Eb & Hf) Hh Hc. exists (micro b), op, r1, r2. split; [intros l; by apply Hh|].
  intros M O s size Hs Hl Hp. destruct (Hf M O s Hs Hl Hp) as (n & s1 & E1 & M1 & V1).
  exists n, s1. split_and!; [done..|by constructor|].
  apply (Hc (regs_of s) (regs_of s1)); [by apply regs_of_wf|apply regs_of_wf, M1|done|].
  intros r Hr Hn. by apply (moved_regs _ _ _ _ M1).
Qed.

(** Only the buffer matters. *)
Lemma computes_around (f : Assembler P -> asm_result (Assembler P)) (pre post : Assembler P -> Assembler P)
    a rd rs v :
  (forall b, micro (pre b) = micro b) -> (forall b, micro (post b) = micro b) ->
  computes f (pre a) rd rs v -> computes (fun a => b ← f (pre a); Ok (post b)) a rd rs v.
Proof.
  intros Hpre Hpost (b & Ea & Eb & Hf). rewrite Hpre in *. exists (post b). rewrite Hpost.
  split_and!; [by rewrite Ea|done|exact Hf].
Qed.

Lemma computes_mono (f : Assembler P -> asm_result (Assembler P)) a rd rs rs' v :
  (forall r, r ∈ rs -> r ∈ rd :: rs') -> computes f a rd rs v -> computes f a rd rs' v.
Proof.
  intros Hi (a' & Ea & Eb & Hr). exists a'. split_and!; [done..|]. intros M O s size Hs Hl Hp.
  destruct (Hr M O s Hs Hl Hp) as (n & s' & E & Hm & Eg). exists n, s'.
  split_and!; [done| |done]. eapply moved_mono; [|exact Hm].
  intros r [->|Hr']%elem_of_cons; [by left|auto].
Qed.

(** No instruction. *)
Lemma nothing_computes a rd rs v :
  is_u 5 rd -> (forall g, regs_wf g -> u64 (g rd) = u64 (v g)) -> computes Ok a rd rs v.
Proof.
  intros Hd Hv. apply (emits_computes _ _ []); [apply emits_nil|solve_keeps|done|].
  intros g Hg. rewrite <- Hv by done. symmetry. apply uwrap_small. by apply Hg.
Qed.

Lemma keeps_app b1 b2 rs : keeps b1 rs -> keeps b2 rs -> keeps (b1 ++ b2) rs.
Proof. intros H1 H2 i [?|?]%elem_of_app; auto. Qed.

Lemma keeps_frame body rs g r : keeps body rs -> r ∉ rs -> run body g r = g r.
Proof.
  intros Hk Hr. apply run_frame, Forall_forall. intros i Hi E. apply Hr. rewrite <- E. by apply Hk.
Qed.

Lemma keeps_mono body rs rs' : keeps body rs -> (forall r, r ∈ rs -> r ∈ rs') -> keeps body rs'.
Proof. intros Hk Hs i Hi. auto. Qed.

(** One instruction. *)
Lemma one_instruction_computes i rd a v :
  target i = rd -> is_u 5 rd -> rd <> 0 -> operand_ok (supports_compressed a) i = true ->
  (forall g, regs_wf g -> u64 (value i g) = u64 (v g)) ->
  forall rs, computes (Macro.ins (assemble i)) a rd rs v.
Proof.
  intros <- Hd Hd0 Ho Hv rs. apply (emits_computes _ _ [i]); [by apply emits_ins|solve_keeps|done|].
  intros g Hg. cbn [run fold_left]. unfold run1. rewrite write_eq by done. by apply Hv.
Qed.

(** Two instructions, the second one on the result of the first. *)
Lemma two_instructions_compute i j rd a v :
  target i = rd -> target j = rd -> is_u 5 rd -> rd <> 0 ->
  operand_ok (supports_compressed a) i = true -> operand_ok (supports_compressed a) j = true ->
  (forall g, regs_wf g -> u64 (value j (write rd (value i g) g)) = u64 (v g)) ->
  forall rs, computes (fun a => a ← Macro.ins (assemble i) a; Macro.ins (assemble j) a) a rd rs v.
Proof.
  intros <- Ej Hd Hd0 Hi Hj Hv rs.
  apply (emits_computes _ _ [i; j]); [split; [reflexivity|]| |done|].
  - cbn [forallb]. by rewrite Hi, Hj.
  - solve_keeps.
  - intros g Hg. cbn [run fold_left]. unfold run1. rewrite Ej, write_eq by done. by apply Hv.
Qed.

End Emits.
