(* ===== verification/RiscvMacroImmediates.v ===== *)
(** * Constants and arithmetic with immediates

    [LoadImmediate] builds every constant it can build without the object pool, in
    at most eight instructions, and [AddImmediate], [AndImmediate], [OrImmediate],
    [XorImmediate], [MulImmediate] and [ExtendValue] compute what they say, in
    whichever of their encodings they choose. *)

From S2P Require Import Prelude Utils RiscvConstants RiscvEncoding RiscvAssembler RiscvLabels.
From S2P Require Import SimMemory RiscvSimulator RiscvIsa RiscvDecode RiscvInterpret RiscvTables.
From S2P Require Import RiscvBranches RiscvJumps RiscvCorrect RiscvEmit RiscvPrograms RiscvMacro.
From S2P Require Import RiscvMacroRuns.

Lemma is_s_mono n w x : 0 < n <= w -> is_s n x -> is_s w x.
Proof.
  unfold is_s. intros. assert (2 ^ (n - 1) <= 2 ^ (w - 1)) by (apply Z.pow_le_mono_r; lia). lia.
Qed.

(** ** Trailing zeros *)

Lemma positive_ctz_spec p :
  0 <= positive_ctz p /\ Zpos p mod 2 ^ positive_ctz p = 0 /\ 2 ^ positive_ctz p <= Zpos p /\
  forall k, 0 <= k -> Zpos p mod 2 ^ k = 0 -> k <= positive_ctz p.
Proof.
  induction p as [p IH|p IH|]; cbn [positive_ctz].
  - split_and!; try done; [by rewrite Z.mod_1_r|].
    intros k Hk Hm. destruct (decide (k = 0)) as [|Hn]; [lia|exfalso].
    apply Z.mod_divide in Hm as [q Hq]; [|pose proof (pow2_pos k); lia].
    replace k with (1 + (k - 1)) in Hq by lia. rewrite Z.pow_add_r in Hq by lia.
    change (2 ^ 1) with 2 in Hq. lia.
  - destruct IH as (H0 & H1 & H2 & H3).
    rewrite Z.pow_add_r by lia. change (2 ^ 1) with 2.
    rewrite (Pos2Z.inj_xO p). pose proof (pow2_pos (positive_ctz p)).
    split_and!; [lia| |lia|].
    + rewrite Z.mul_mod_distr_l by lia. lia.
    + intros k Hk Hm. destruct (decide (k = 0)) as [|Hn]; [lia|].
      replace k with (1 + (k - 1)) in Hm by lia. rewrite Z.pow_add_r in Hm by lia.
      change (2 ^ 1) with 2 in Hm. pose proof (pow2_pos (k - 1)).
      rewrite Z.mul_mod_distr_l in Hm by lia. specialize (H3 (k - 1)). lia.
  - split_and!; try done. intros k Hk Hm. destruct (decide (k = 0)) as [|Hn]; [lia|exfalso].
    rewrite Z.mod_small in Hm; [lia|]. replace k with (1 + (k - 1)) by lia.
    rewrite Z.pow_add_r by lia. pose proof (pow2_pos (k - 1)). lia.
Qed.

(** The trailing zeros of a signed number, counted in its 64-bit representation. *)
Lemma trailing_zeros x :
  is_s 64 x -> x <> 0 ->
  let c := CountTrailingZeros64 (u64 x) in
  0 <= c < 64 /\ x = (x ≫ c) * 2 ^ c /\ forall k, 0 <= k <= 64 -> x mod 2 ^ k = 0 -> k <= c.
Proof.
  intros Hx Hn. cbv zeta. assert (Hu : is_u 64 (u64 x)) by (by apply uwrap_range).
  assert (Hu0 : u64 x <> 0).
  { intros E. apply Hn. assert (Ex : swrap 64 (u64 x) = x)
      by (rewrite swrap_uwrap; by apply swrap_small). by rewrite <- Ex, E. }
  assert (Hk : forall k, 0 <= k <= 64 -> u64 x mod 2 ^ k = x mod 2 ^ k).
  { intros k Hk. apply (uwrap_le 64 k). lia. }
  unfold CountTrailingZeros64. destruct (u64 x) as [|p|p] eqn:E; [done| |unfold is_u in Hu; lia].
  destruct (positive_ctz_spec p) as (H0 & H1 & H2 & H3). set (c := positive_ctz p) in *.
  assert (Hc : c < 64).
  { apply (Z.pow_lt_mono_r_iff 2); [lia..|]. unfold is_u in Hu. lia. }
  split_and!; [lia..| |].
  - rewrite Hk in H1 by lia. rewrite Z.shiftr_div_pow2 by lia.
    pose proof (Z.div_mod x (2 ^ c)). pose proof (pow2_pos c). lia.
  - intros k Hk1 Hm. apply H3; [lia|]. by rewrite Hk.
Qed.

(** ** Constants *)

Section Correct.
Context {P : Type} `{ObjectPool P}.
Implicit Types a : Assembler P.

Lemma shifted_value x c : 0 <= c < 64 -> x = (x ≫ c) * 2 ^ c ->
  u64 (u64 (x ≫ c) * 2 ^ c) = u64 x.
Proof. intros Hc E. rewrite uwrap_mul_l. by rewrite <- E. Qed.

Lemma small_constant reg imm a :
  is_u 5 reg -> reg <> 0 -> is_s 32 imm ->
  exists body,
    emits (fun a => if ImmHi imm =? 0 then Macro.addi reg Register.ZR (ImmLo imm) a
                    else a ← Macro.lui reg (ImmHi imm) a;
                         if negb (ImmLo imm =? 0) then Macro.addiw reg reg (ImmLo imm) a else Ok a)
      a body /\
    keeps body [reg] /\ (length body <= 2)%nat /\ forall g, regs_wf g -> run body g reg = u64 imm.
Proof.
  intros Hu Hn Hi. assert (Es : s32 (ImmHi imm + ImmLo imm) = imm).
  { rewrite ImmHi_swrap, <- (swrap_add_l 32 (swrap 32 _)), uwrap_swrap, swrap_add_l by lia.
    replace (imm - ImmLo imm + ImmLo imm) with imm by lia. by apply swrap_small. }
  pose proof (ImmLo_IsITypeImm imm) as Hlo. pose proof (ImmHi_IsUTypeImm imm) as Hhi.
  assert (Hz : is_u 5 Register.ZR) by done.
  destruct (ImmHi imm =? 0) eqn:E1; reflect_bool.
  - exists [Imm ADDI reg Register.ZR (ImmLo imm)]. split_and!; [|solve_keeps|cbn; lia|].
    + apply emits_ins; [reflexivity|by apply encodable_imm].
    + intros g [_ Hg]. run_regs. unfold Register.ZR. rewrite Hg.
      rewrite E1, swrap_small in Es; [by rewrite Es|lia|].
      apply (is_s_mono 12); [lia|]. unfold IsITypeImm in Hlo. by rewrite IsInt_intptr in Hlo by lia.
  - destruct (ImmLo imm =? 0) eqn:E2; reflect_bool; cbn [negb].
    + exists [Lui reg (ImmHi imm)]. split_and!; [|solve_keeps|cbn; lia|].
      * split; [reflexivity|]. cbn [forallb].
        by rewrite encodable_lui.
      * intros g _. run_regs. rewrite E2, Z.add_0_r, swrap_small in Es; [by rewrite Es|lia|].
        unfold IsUTypeImm in Hhi. apply andb_true_iff in Hhi as [Hhi _].
        by rewrite IsInt_intptr in Hhi by lia.
    + exists [Lui reg (ImmHi imm); Imm ADDIW reg reg (ImmLo imm)]. split_and!; [|solve_keeps|cbn; lia|].
      * split; [reflexivity|]. cbn [forallb].
        by rewrite encodable_lui, encodable_imm.
      * intros g _. run_regs.
        rewrite <- (swrap_add_l 32 (u64 _)), uwrap_le, swrap_add_l, Es by lia. done.
Qed.

(** The rest of a constant after its low 12 bits. *)
Lemma high_part imm B :
  - 2 ^ 12 * B <= imm <= 2 ^ 12 * B -> 0 < B ->
  (imm - ImmLo imm) mod 2 ^ 12 = 0 /\
  forall c, 12 <= c -> - B <= (imm - ImmLo imm) ≫ c <= B.
Proof.
  intros Hi HB. rewrite ImmLo_swrap.
  destruct (swrap_divides 12 imm ltac:(lia)) as [q Hq].
  pose proof (swrap_range 12 imm ltac:(lia)) as Hr. unfold is_s in Hr.
  change (2 ^ (12 - 1)) with 2048 in Hr. change (2 ^ 12) with 4096 in *.
  split; [rewrite Hq; apply Z_mod_mult|]. intros c Hc.
  rewrite Hq, Z.shiftr_div_pow2 by lia. replace c with (12 + (c - 12)) by lia.
  rewrite Z.pow_add_r by lia. change (2 ^ 12) with 4096.
  rewrite <- Z.div_div, Z.div_mul by (try apply pow2_pos; lia).
  pose proof (pow2_pos (c - 12)). assert (- B <= q <= B) by lia.
  split; [apply Z.div_le_lower_bound|apply Z.div_le_upper_bound]; nia.
Qed.

Lemma exact_shift x c k : 0 <= k <= c -> x = (x ≫ c) * 2 ^ c -> x = (x ≫ k) * 2 ^ k.
Proof.
  intros Hk E. set (q := x ≫ c) in *. rewrite Z.shiftr_div_pow2 by lia.
  assert (Ex : x = q * 2 ^ (c - k) * 2 ^ k).
  { rewrite <- Z.mul_assoc, <- Z.pow_add_r by lia. by replace (c - k + k) with c by lia. }
  rewrite Ex. rewrite Z.div_mul; [done|]. pose proof (pow2_pos k). lia.
Qed.

(** The recursive step of a wide constant. *)
Lemma wide_constant fuel imm :
  is_s 64 imm -> imm < 2 ^ 63 - 2 ^ 11 -> ~ is_s 32 imm ->
  - 2 ^ (31 + 12 * Z.of_nat (S fuel)) <= imm <= 2 ^ (31 + 12 * Z.of_nat (S fuel)) ->
  let hi := imm - ImmLo imm in
  let c := CountTrailingZeros64 (u64 hi) in
  let x := hi ≫ c in
  int64 hi = Ok hi /\ 0 <= c < 64 /\ hi = x * 2 ^ c /\
  - 2 ^ (31 + 12 * Z.of_nat fuel) <= x <= 2 ^ (31 + 12 * Z.of_nat fuel) /\
  is_s 64 x /\ x < 2 ^ 63 - 2 ^ 11.
Proof.
  intros Hs Ho Hw Hb. cbv zeta.
  destruct (high_part imm (2 ^ (31 + 12 * Z.of_nat fuel))) as [Hd Hx].
  { rewrite Z.mul_opp_l, <- Z.pow_add_r by lia.
    replace (12 + (31 + 12 * Z.of_nat fuel)) with (31 + 12 * Z.of_nat (S fuel)) by lia. done. }
  { apply pow2_pos. lia. }
  destruct (high_part imm (2 ^ 51)) as [_ Hx2]; [unfold is_s in Hs; lia|lia|].
  assert (Hlo : is_s 12 (ImmLo imm)) by (rewrite ImmLo_swrap; by apply swrap_range).
  set (hi := imm - ImmLo imm) in *. unfold is_s in Hs, Hw, Hlo.
  change (2 ^ (12 - 1)) with 2048 in Hlo. change (2 ^ (64 - 1)) with (2 ^ 63) in Hs.
  change (2 ^ (32 - 1)) with (2 ^ 31) in Hw.
  assert (Hhi : - 2 ^ 63 <= hi < 2 ^ 63).
  { apply Z.mod_divide in Hd as [q Hq]; [|lia]. change (2 ^ 12) with 4096 in Hq. lia. }
  assert (H0 : hi <> 0) by lia.
  destruct (trailing_zeros hi ltac:(unfold is_s; lia) H0) as (Hc & Ec & Hm).
  set (c := CountTrailingZeros64 (u64 hi)) in *.
  assert (H12 : 12 <= c) by (apply Hm; [lia|done]).
  specialize (Hx c H12). specialize (Hx2 c H12). split_and!; try done; try lia.
  - unfold int64. rewrite (proj2 (Z.leb_le (- 2 ^ 63) hi)), (proj2 (Z.ltb_lt hi (2 ^ 63))) by lia. done.
  - unfold is_s. lia.
Qed.

(** A constant that is a shifted immediate. *)
Lemma shifted_constant reg imm (k : Z) (i : instruction) a :
  is_u 5 reg -> 0 <= k < 64 -> imm = (imm ≫ k) * 2 ^ k ->
  i = Imm ADDI reg Register.ZR (imm ≫ k) \/ i = Lui reg (imm ≫ k) -> reg <> 0 ->
  operand_ok (supports_compressed a) i = true ->
  let body := [i; Shift SLLI reg reg k] in
  forallb (operand_ok (supports_compressed a)) body = true /\ keeps body [reg] /\
  forall g, regs_wf g -> run body g reg = u64 imm.
Proof.
  intros Hu Hk E Hi Hn Ho. cbv zeta. cbn [forallb]. rewrite Ho, encodable_shift by done.
  split_and!; [done| |].
  - destruct Hi as [-> | ->]; solve_keeps.
  - intros g [_ Hg]. destruct Hi as [-> | ->]; run_regs.
    + unfold Register.ZR. rewrite Hg, Z.add_0_l. by apply shifted_value.
    + by apply shifted_value.
Qed.

(** What [LoadImmediate] does for a constant that is neither short nor a shifted immediate. *)
Definition wide_branch (fuel : nat) (reg imm : Z) a : asm_result (Assembler P) :=
  if constant_pool_allowed_ a then
    '(index, p) ← FindImmediate (u64 imm) (object_pool_builder a);
    Macro.LoadWordFromPoolIndex reg index PP (Macro.set_pool p a)
  else
    hi ← int64 (imm - ImmLo imm);
    match fuel with
    | O => Err LoopFuel
    | S fuel =>
        a ← Macro.LoadImmediate_loop fuel reg (hi ≫ CountTrailingZeros64 (u64 hi)) a;
        a ← Macro.slli reg reg (CountTrailingZeros64 (u64 hi)) a;
        if negb (ImmLo imm =? 0) then Macro.addi reg reg (ImmLo imm) a else Ok a
    end.

Lemma LoadImmediate_cases fuel reg imm a :
  is_u 5 reg -> reg <> 0 -> is_s 64 imm ->
  (exists body, emits (Macro.LoadImmediate_loop fuel reg imm) a body /\
    keeps body [reg] /\ (length body <= 2)%nat /\ forall g, regs_wf g -> run body g reg = u64 imm) \/
  (~ is_s 32 imm /\ IsITypeImm (imm ≫ CountTrailingZeros64 (u64 imm)) = false /\
   Macro.LoadImmediate_loop fuel reg imm a = wide_branch fuel reg imm a).
Proof.
  intros Hu Hn Hs. destruct (IsInt intptr_t 32 imm) eqn:E32.
  { destruct (small_constant reg imm a Hu Hn (proj1 (IsInt_intptr 32 imm ltac:(lia)) E32)) as (body & He & Hv).
    left. exists body. split; [|done]. eapply emits_ext; [|exact He].
    destruct fuel; cbn [Macro.LoadImmediate_loop]; rewrite E32; reflexivity. }
  assert (Hw : ~ is_s 32 imm) by (rewrite <- IsInt_intptr by lia; congruence).
  assert (H0 : imm <> 0) by (intros ->; by apply Hw).
  destruct (trailing_zeros imm Hs H0) as (Hc1 & Ec & Hm). set (c := CountTrailingZeros64 (u64 imm)) in *.
  destruct (IsITypeImm (imm ≫ c)) eqn:EI.
  { destruct (shifted_constant reg imm c (Imm ADDI reg Register.ZR (imm ≫ c)) a) as (Ho1 & Hk1 & Hv1);
      [done..|by left|done|by apply encodable_imm|].
    left. eexists; split_and!; [split; [|exact Ho1]|exact Hk1|cbn; lia|exact Hv1].
    destruct fuel; cbn [Macro.LoadImmediate_loop]; rewrite E32; fold c; rewrite EI; reflexivity. }
  destruct ((12 <=? c) && IsUTypeImm (imm ≫ (c - 12))) eqn:EU.
  - apply andb_true_iff in EU as [E12 EU]. apply Z.leb_le in E12.
    destruct (shifted_constant reg imm (c - 12) (Lui reg (imm ≫ (c - 12))) a) as (Ho1 & Hk1 & Hv1); try done.
    + lia.
    + apply (exact_shift imm c); [lia|done].
    + by right.
    + apply encodable_lui; [done..|]. intros E0. apply H0.
      rewrite (exact_shift imm c (c - 12)), E0 by (done || lia). done.
    + left. eexists; split_and!; [split; [|exact Ho1]|exact Hk1|cbn; lia|exact Hv1].
      destruct fuel; cbn [Macro.LoadImmediate_loop]; rewrite E32; fold c; rewrite EI, EU, (proj2 (Z.leb_le 12 c)) by done;
        reflexivity.
  - right. split_and!; [done|done|].
    destruct fuel; cbn [Macro.LoadImmediate_loop]; rewrite E32; fold c; rewrite EI, EU; reflexivity.
Qed.

Lemma LoadImmediate_emits fuel reg : forall imm a,
  is_u 5 reg -> reg <> 0 -> constant_pool_allowed_ a = false ->
  - 2 ^ (31 + 12 * Z.of_nat fuel) <= imm <= 2 ^ (31 + 12 * Z.of_nat fuel) ->
  is_s 64 imm -> imm < 2 ^ 63 - 2 ^ 11 ->
  exists body, emits (Macro.LoadImmediate_loop fuel reg imm) a body /\
    keeps body [reg] /\ (length body <= 2 + 2 * fuel)%nat /\
    forall g, regs_wf g -> run body g reg = u64 imm.
Proof.
  induction fuel as [|fuel IH]; intros imm a Hu Hn Hc Hb Hs Ho.
  all: match goal with |- context [Macro.LoadImmediate_loop ?n ?r ?x] =>
         destruct (LoadImmediate_cases n r x a Hu Hn Hs) as [(body & He & Hk & Hl & Hv)|(Hw & EI & Ew)];
         [exists body; split_and!; [done|done|lia|done]|]
       end.
  - exfalso. assert (imm = 2 ^ 31) as E by (unfold is_s in Hw; lia). rewrite E in EI. discriminate.
  - destruct (wide_constant fuel imm Hs Ho Hw Hb) as (Ei & Hc2 & Ex & Hb2 & Hs2 & Ho2).
    unfold wide_branch in Ew. rewrite Hc in Ew.
    set (hi := imm - ImmLo imm) in *. rewrite Ei in Ew. cbn [mbind result_bind] in Ew.
    set (c2 := CountTrailingZeros64 (u64 hi)) in *.
    destruct (IH (hi ≫ c2) a Hu Hn Hc Hb2 Hs2 Ho2) as (b0 & [He Hb0] & Hk0 & Hl0 & Hv0).
    set (rest := Shift SLLI reg reg c2 ::
      if ImmLo imm =? 0 then [] else [Imm ADDI reg reg (ImmLo imm)]).
    exists (b0 ++ rest). split_and!; [split| | |].
    + rewrite Ew, He, appended_app. cbn [mbind result_bind]. unfold rest. by destruct (ImmLo imm =? 0).
    + rewrite forallb_app, Hb0. unfold rest. cbn [forallb andb]. rewrite encodable_shift by done.
      destruct (ImmLo imm =? 0); [done|]. cbn [forallb]. rewrite encodable_imm; try done.
      apply ImmLo_IsITypeImm.
    + apply keeps_app; [done|]. unfold rest. destruct (ImmLo imm =? 0); solve_keeps.
    + rewrite length_app. unfold rest. destruct (ImmLo imm =? 0); cbn [length]; lia.
    + intros g Hg. rewrite run_app. pose proof (Hv0 g Hg) as Hv. set (g1 := run b0 g) in *.
      assert (E1 : u64 (u64 (hi ≫ c2) * 2 ^ c2) = u64 hi) by (by apply shifted_value).
      unfold rest. destruct (ImmLo imm =? 0) eqn:E0; run_regs; rewrite Hv, E1.
      * reflect_bool. unfold hi. by rewrite E0, Z.sub_0_r.
      * rewrite uwrap_add_l. f_equal. lia.
Qed.
End Correct.

(** ** Powers of two *)

Lemma shift_loop_log2 fuel : forall n x,
  1 <= x -> x < 2 ^ (Z.of_nat fuel + 1) -> shift_loop fuel n x = n + Z.log2 x.
Proof.
  induction fuel as [|fuel IH]; intros n x H1 Hx; cbn [shift_loop].
  { change (2 ^ (Z.of_nat 0 + 1)) with 2 in Hx. replace x with 1 by lia. cbn. lia. }
  destruct (1 <? x) eqn:E; reflect_bool.
  - rewrite Z.shiftr_div_pow2 by lia. change (2 ^ 1) with 2.
    rewrite IH; [|apply Z.div_le_lower_bound; lia|].
    + replace (x / 2) with (Z.shiftr x 1) by (rewrite Z.shiftr_div_pow2; [done|lia]).
      rewrite Z.log2_shiftr by lia. pose proof (Z.log2_pos x). lia.
    + apply Z.div_lt_upper_bound; [lia|]. rewrite <- (Z.pow_succ_r 2) by lia.
      replace (Z.succ (Z.of_nat fuel + 1)) with (Z.of_nat (S fuel) + 1) by lia. done.
  - replace x with 1 by lia. cbn. lia.
Qed.

Lemma power_of_two x :
  0 <= x < 2 ^ 64 -> IsPowerOfTwo x = true ->
  0 <= ShiftForPowerOfTwo x < 64 /\ x = 2 ^ ShiftForPowerOfTwo x.
Proof.
  intros Hx Hp. apply andb_true_iff in Hp as [Hp H0]. reflect_bool.
  unfold ShiftForPowerOfTwo. rewrite shift_loop_log2, Z.add_0_l; [|lia|].
  2:{ change (2 ^ (Z.of_nat 64 + 1)) with (2 * 2 ^ 64). lia. }
  assert (Hl : 0 <= Z.log2 x < 64) by (split; [apply Z.log2_nonneg|apply Z.log2_lt_pow2; lia]).
  split; [done|]. destruct (Z.log2_spec x ltac:(lia)) as [L1 L2].
  destruct (decide (x = 2 ^ Z.log2 x)) as [|Hn]; [done|exfalso].
  assert (Hb : Z.testbit (x .& (x - 1)) (Z.log2 x) = true).
  { rewrite Z.land_spec, Z.bit_log2 by lia. cbn.
    replace (Z.log2 x) with (Z.log2 (x - 1)); [apply Z.bit_log2; lia|].
    apply Z.log2_unique; [lia|]. lia. }
  by rewrite Hp, Z.bits_0 in Hb.
Qed.

(** A negative number is not one. *)
Lemma power_of_two_signed x :
  - 2 ^ 63 < x < 2 ^ 63 ->
  IsPowerOfTwo_signed x = Ok (IsPowerOfTwo x) /\ (IsPowerOfTwo x = true -> 0 < x).
Proof.
  intros Hx. split.
  - unfold IsPowerOfTwo_signed, int64.
    rewrite (proj2 (Z.leb_le (- 2 ^ 63) (x - 1))), (proj2 (Z.ltb_lt (x - 1) (2 ^ 63))) by lia. done.
  - intros Hp. apply andb_true_iff in Hp as [Hp H0]. reflect_bool.
    destruct (Z_lt_le_dec 0 x) as [|L]; [done|exfalso].
    assert (x .& (x - 1) < 0) by (apply Z.land_neg; lia). lia.
Qed.

Section Arithmetic.
Context {P : Type} `{ObjectPool P}.
Implicit Types a : Assembler P.

(** What a macro needs to load a constant into a scratch register. *)
Record constant_ok a (imm : Z) : Prop := {
  constant_range : - 2 ^ 63 <= imm < 2 ^ 63 - 2 ^ 11;
  constant_inline : constant_pool_allowed_ a = false
}.

Lemma LoadImmediate_body a reg imm :
  is_u 5 reg -> reg <> 0 -> constant_ok a imm ->
  exists body, emits (Macro.LoadImmediate reg imm) a body /\
    keeps body [reg] /\ (length body <= 8)%nat /\
    forall g, regs_wf g -> run body g reg = u64 imm.
Proof.
  intros Hu Hn [Hr Hc]. apply LoadImmediate_emits; try done; unfold is_s; try lia.
Qed.

(** An operation on a register and a constant in a scratch register. *)
Lemma constant_operand op tmp rd rs1 imm a :
  is_u 5 tmp -> tmp <> 0 -> is_u 5 rd -> rd <> 0 -> is_u 5 rs1 -> rs1 <> tmp ->
  (op = ADD -> rs1 <> 0) -> constant_ok a imm ->
  computes (fun a => a ← Macro.LoadImmediate tmp imm a; Macro.ins (assemble_rop op rd rs1 tmp) a)
    a rd [tmp] (fun g => rop_sem op (g rs1) (u64 imm)).
Proof.
  intros Ht Ht0 Hd Hd0 H1 Hne Hadd Hi.
  destruct (LoadImmediate_body a tmp imm Ht Ht0 Hi) as (body & [Ec Eo] & Hk & _ & Hv).
  apply (emits_computes _ _ (body ++ [Reg op rd rs1 tmp])); [split| |done|].
  - cbv beta. rewrite Ec. cbn [mbind result_bind]. by rewrite appended_app.
  - rewrite forallb_app, Eo. cbn [forallb]. rewrite encodable_reg; try done. auto.
  - apply keeps_app; [|solve_keeps]. eapply keeps_mono; [done|].
    intros r. rewrite !elem_of_cons. tauto.
  - intros g Hg. rewrite run_app. pose proof (Hv g Hg) as Hv1.
    assert (E1 : run body g rs1 = g rs1).
    { apply (keeps_frame _ [tmp]); [done|]. rewrite list_elem_of_singleton. done. }
    set (g1 := run body g) in *. cbn [run fold_left]. unfold run1. cbn [target value].
    rewrite write_eq by done. by rewrite Hv1, E1.
Qed.

End Arithmetic.

(** ** Arithmetic with immediates *)

Section Immediates.
Context {P : Type} `{ObjectPool P} (a : Assembler P) (rd rs1 imm : Z).
Hypothesis (Hd : is_u 5 rd) (Hd0 : rd <> 0) (H1 : is_u 5 rs1) (H10 : rs1 <> 0).
Hypothesis (Hi : constant_ok a imm).

Lemma operand_range g : regs_wf g -> is_u 64 (g rs1).
Proof. intros [Hr _]. by apply Hr. Qed.

Lemma MoveRegister_computes rs : computes (Macro.MoveRegister rd rs1) a rd rs (fun g => g rs1).
Proof.
  destruct (rd =? rs1) eqn:E.
  - apply (computes_ext _ Ok); [unfold Macro.MoveRegister; cbn; by rewrite E|].
    apply nothing_computes; [done|]. intros g _. reflect_bool. by rewrite E.
  - apply (computes_ext _ (Macro.ins (assemble (Imm ADDI rd rs1 0)))).
    + unfold Macro.MoveRegister; cbn; by rewrite E.
    + apply one_instruction_computes; try done; [by apply encodable_imm|].
      intros g _. cbn. by rewrite Z.add_0_r.
Qed.

Lemma tmp_ok : is_u 5 TMP /\ TMP <> 0 /\ is_u 5 TMP2 /\ TMP2 <> 0.
Proof. by split_and!. Qed.

(** The case of a constant that is loaded. *)
Lemma loaded_constant op tmp v :
  tmp = TMP \/ tmp = TMP2 -> rs1 <> tmp ->
  (forall g, regs_wf g -> u64 (rop_sem op (g rs1) (u64 imm)) = u64 (v g)) ->
  computes (fun a => a ← Macro.LoadImmediate tmp imm a; Macro.ins (assemble_rop op rd rs1 tmp) a)
    a rd [tmp] v.
Proof.
  intros Ht Hne Hv. destruct tmp_ok as (? & ? & ? & ?).
  eapply computes_value; [exact Hv|].
  apply constant_operand; try done; destruct Ht as [-> | ->]; done.
Qed.

Lemma AddImmediate_emits :
  rs1 <> TMP2 ->
  exists body, emits (Macro.AddImmediate rd rs1 imm) a body /\ keeps body [rd; TMP2] /\
    (IsITypeImm imm = true -> keeps body [rd]) /\
    forall g, regs_wf g -> run body g rd = u64 (g rs1 + imm).
Proof.
  intros Ht. destruct ((imm =? 0) && (rd =? rs1)) eqn:E0.
  - exists []. split_and!; [|solve_keeps|intros _; solve_keeps|].
    + split; [|done]. unfold Macro.AddImmediate. rewrite E0. by rewrite appended_nil.
    + intros g [Hg _]. reflect_bool. cbn.
      match goal with Ei : imm = 0, Er : rd = rs1 |- _ => rewrite Ei, Er, Z.add_0_r end.
      symmetry. apply uwrap_small. by apply Hg.
  - destruct (IsITypeImm imm) eqn:EI.
    + exists [Imm ADDI rd rs1 imm]. split_and!; [|solve_keeps|intros _; solve_keeps|].
      * split; [unfold Macro.AddImmediate; by rewrite E0, EI|]. cbn [forallb]. by rewrite encodable_imm.
      * intros g _. by run_regs.
    + destruct (LoadImmediate_body a TMP2 imm) as (body & [Ec Eo] & Hk & _ & Hv); try done.
      exists (body ++ [Reg ADD rd rs1 TMP2]). split_and!; [split| |done|].
      * unfold Macro.AddImmediate. rewrite E0, EI, Ec. cbn [mbind result_bind]. by rewrite appended_app.
      * rewrite forallb_app, Eo. cbn [forallb]. by rewrite encodable_reg.
      * apply keeps_app; [|solve_keeps]. eapply keeps_mono; [done|].
        intros r. rewrite !elem_of_cons. tauto.
      * intros g Hg. rewrite run_app. pose proof (Hv g Hg) as Hv1.
        assert (E1 : run body g rs1 = g rs1).
        { apply (keeps_frame _ [TMP2]); [done|]. by rewrite list_elem_of_singleton. }
        set (g1 := run body g) in *. run_regs. by rewrite Hv1, E1, uwrap_add_r.
Qed.

Lemma AddImmediate_computes :
  rs1 <> TMP2 -> computes (Macro.AddImmediate rd rs1 imm) a rd [TMP2] (fun g => g rs1 + imm).
Proof.
  intros Ht. destruct (AddImmediate_emits Ht) as (body & He & Hk & _ & Hv).
  by apply (emits_computes _ _ body).
Qed.

(** [OrImmediate] and [XorImmediate] make the same choices. *)
Lemma or_xor_computes (rop : rop) (iop : iop) (shop : shop) (f : Assembler P -> asm_result (Assembler P)) v :
  rs1 <> TMP2 -> shop_limit shop = 64 -> rop <> ADD ->
  f a = (if imm =? 0 then Macro.MoveRegister rd rs1 a
         else if IsITypeImm imm then Macro.ins (assemble (Imm iop rd rs1 imm)) a
         else if Macro.Supports a Extension.RV_Zbs && IsPowerOfTwo (u64 imm) then
           Macro.ins (assemble (Shift shop rd rs1 (ShiftForPowerOfTwo (u64 imm)))) a
         else a ← Macro.LoadImmediate TMP2 imm a; Macro.ins (assemble_rop rop rd rs1 TMP2) a) ->
  (forall g, regs_wf g -> imm = 0 -> u64 (g rs1) = u64 (v g)) ->
  (forall g, regs_wf g -> u64 (iop_sem iop (g rs1) imm) = u64 (v g)) ->
  (forall g n, regs_wf g -> 0 <= n < 64 -> u64 imm = 2 ^ n -> u64 (shop_sem shop (g rs1) n) = u64 (v g)) ->
  (forall g, regs_wf g -> u64 (rop_sem rop (g rs1) (u64 imm)) = u64 (v g)) ->
  computes f a rd [TMP2] v.
Proof.
  intros Ht Hl Hr Ef V0 VI VS VR. destruct (imm =? 0) eqn:E0.
  - eapply computes_ext; [exact Ef|]. reflect_bool.
    apply (computes_value _ _ _ _ (fun g => g rs1)); [|apply MoveRegister_computes].
    intros g Hg. by apply V0.
  - destruct (IsITypeImm imm) eqn:EI.
    + eapply (computes_ext _ (Macro.ins (assemble (Imm iop rd rs1 imm)))); [exact Ef|].
      apply one_instruction_computes; try done. by apply encodable_imm.
    + destruct (_ && _) eqn:EP.
      * apply andb_true_iff in EP as [_ EP].
        destruct (power_of_two (u64 imm) (uwrap_range 64 imm ltac:(lia)) EP) as [Hn En].
        eapply (computes_ext _ (Macro.ins (assemble (Shift shop rd rs1 _)))); [exact Ef|].
        apply one_instruction_computes; try done; [apply encodable_shift; try done; by rewrite Hl|].
        intros g Hg. by apply VS.
      * eapply (computes_ext _ (fun a => a ← Macro.LoadImmediate TMP2 imm a; Macro.ins _ a)); [exact Ef|].
        apply loaded_constant; auto.
Qed.

Lemma OrImmediate_computes :
  rs1 <> TMP2 -> computes (Macro.OrImmediate rd rs1 imm) a rd [TMP2] (fun g => g rs1 .| imm).
Proof.
  intros Ht. apply (or_xor_computes OR ORI BSETI); try done.
  - intros g Hg ->. by rewrite Z.lor_0_r.
  - intros g n Hg Hn En. cbn [shop_sem]. rewrite Z.setbit_spec', <- En.
    apply uwrap_bit_ext; [lia|]. intros i Hr. rewrite !Z.lor_spec, testbit_uwrap by lia.
    by rewrite (proj2 (Z.ltb_lt i 64)) by lia.
  - intros g Hg. cbn [rop_sem]. apply uwrap_bit_ext; [lia|]. intros i Hr.
    rewrite !Z.lor_spec, testbit_uwrap by lia. by rewrite (proj2 (Z.ltb_lt i 64)) by lia.
Qed.

Lemma XorImmediate_computes :
  rs1 <> TMP2 -> computes (Macro.XorImmediate rd rs1 imm) a rd [TMP2] (fun g => g rs1 .^ imm).
Proof.
  intros Ht. apply (or_xor_computes XOR XORI BINVI); try done.
  - intros g Hg ->. by rewrite Z.lxor_0_r.
  - intros g n Hg Hn En. cbn [shop_sem]. rewrite <- En.
    apply uwrap_bit_ext; [lia|]. intros i Hr. rewrite !Z.lxor_spec, testbit_uwrap by lia.
    by rewrite (proj2 (Z.ltb_lt i 64)) by lia.
  - intros g Hg. cbn [rop_sem]. apply uwrap_bit_ext; [lia|]. intros i Hr.
    rewrite !Z.lxor_spec, testbit_uwrap by lia. by rewrite (proj2 (Z.ltb_lt i 64)) by lia.
Qed.

(** A conjunction with the low bits. *)
Lemma land_low x k : is_u 64 x -> 0 <= k <= 64 ->
  u64 (x * 2 ^ (64 - k)) / 2 ^ (64 - k) = x .& (2 ^ k - 1).
Proof.
  intros Hx Hk. replace (2 ^ k - 1) with (Z.ones k) by (rewrite Z.ones_equiv; lia).
  rewrite Z.land_ones by lia. unfold uwrap. replace (2 ^ 64) with (2 ^ k * 2 ^ (64 - k)).
  - rewrite Z.mul_mod_distr_r, Z.div_mul; [done|pose proof (pow2_pos (64 - k)); lia..|].
    pose proof (pow2_pos k); lia.
  - rewrite <- Z.pow_add_r by lia. f_equal. lia.
Qed.

Lemma land_word x m : is_u 64 x -> x .& u64 m = x .& m.
Proof.
  intros Hx. apply Z.bits_inj'. intros i Hr. rewrite !Z.land_spec, testbit_uwrap by lia.
  destruct (i <? 64) eqn:E; [done|]. reflect_bool. by rewrite (testbit_high 64 x) by (done || lia).
Qed.

Lemma land_clear x n : is_u 64 x -> 0 <= n < 64 -> u64 (Z.lnot (u64 imm)) = 2 ^ n ->
  Z.clearbit x n = x .& imm.
Proof.
  intros Hx Hn En. rewrite Z.clearbit_spec', <- En. apply Z.bits_inj'. intros i Hr.
  rewrite Z.ldiff_spec, Z.land_spec, testbit_uwrap, Z.lnot_spec, testbit_uwrap by lia.
  destruct (i <? 64) eqn:E; cbn; [by rewrite negb_involutive|]. reflect_bool.
  by rewrite (testbit_high 64 x) by (done || lia).
Qed.

(** [AndImmediate] at the size of a register. *)
Lemma AndImmediate_word :
  let k := ShiftForPowerOfTwo (u64 (u64 imm + 1)) in
  Macro.AndImmediate rd rs1 imm kWordBytes a
  = if imm =? -1 then Macro.MoveRegister rd rs1 a
    else if IsITypeImm imm then Macro.ins (assemble (Imm ANDI rd rs1 imm)) a
    else if Macro.Supports a Extension.RV_Zbs && IsPowerOfTwo (u64 (Z.lnot (u64 imm))) then
      Macro.ins (assemble (Shift BCLRI rd rs1 (ShiftForPowerOfTwo (u64 (Z.lnot (u64 imm)))))) a
    else if IsPowerOfTwo (u64 (u64 imm + 1)) then
      if Macro.Supports a Extension.RV_Zbb && (k =? 16)
      then Macro.ins (assemble (Unary ZEXT_H rd rs1)) a
      else a ← Macro.ins (assemble (Shift SLLI rd rs1 (XLEN - k))) a;
           Macro.ins (assemble (Shift SRLI rd rd (XLEN - k))) a
    else a ← Macro.LoadImmediate TMP2 imm a; Macro.ins (assemble_rop AND rd rs1 TMP2) a.
Proof.
  cbv zeta. assert (Es : s64 (u64 imm) = imm).
  { rewrite swrap_uwrap. apply swrap_small; [lia|]. destruct Hi as [Hr _]. unfold is_s. lia. }
  unfold Macro.AndImmediate. cbn [kWordBytes OperandSizeInBits mbind result_bind].
  change (64 =? XLEN) with true. change (64 <? XLEN) with false. cbn [andb]. by rewrite Es.
Qed.

(** The mask of the low bits: not all, not none. *)
Lemma low_mask :
  imm <> -1 -> IsITypeImm imm = false -> IsPowerOfTwo (u64 (u64 imm + 1)) = true ->
  let k := ShiftForPowerOfTwo (u64 (u64 imm + 1)) in
  0 < k < 64 /\ u64 imm = 2 ^ k - 1.
Proof.
  intros Hm EI EP. cbv zeta. destruct Hi as [Hr _].
  destruct (power_of_two _ (uwrap_range 64 (u64 imm + 1) ltac:(lia)) EP) as [Hn En].
  set (k := ShiftForPowerOfTwo _) in *. pose proof (uwrap_range 64 imm ltac:(lia)) as Hu.
  assert (Es : s64 (u64 imm) = imm) by (rewrite swrap_uwrap; apply swrap_small; unfold is_s; lia).
  assert (Hne : u64 imm <> 2 ^ 64 - 1).
  { intros E. apply Hm. rewrite <- Es, E. reflexivity. }
  rewrite (uwrap_small 64 (u64 imm + 1)) in En by (unfold is_u; lia).
  split; [|lia]. destruct (decide (k = 0)) as [E0|]; [|lia]. rewrite E0 in En. change (2 ^ 0) with 1 in En.
  assert (imm = 0) as E.
  { rewrite <- Es. by replace (u64 imm) with 0 by lia. }
  rewrite E in EI. discriminate.
Qed.

Lemma AndImmediate_computes :
  rs1 <> TMP2 -> computes (Macro.AndImmediate rd rs1 imm kWordBytes) a rd [TMP2] (fun g => g rs1 .& imm).
Proof.
  intros Ht. pose proof AndImmediate_word as Ef. cbv zeta in Ef.
  destruct (imm =? -1) eqn:E1.
  { eapply computes_ext; [exact Ef|].
    apply (computes_value _ _ _ _ (fun g => g rs1)); [|apply MoveRegister_computes].
    intros g _. reflect_bool. by rewrite E1, Z.land_m1_r. }
  destruct (IsITypeImm imm) eqn:EI.
  { eapply (computes_ext _ (Macro.ins _)); [exact Ef|].
    apply one_instruction_computes; try done. by apply encodable_imm. }
  destruct (_ && IsPowerOfTwo (u64 (Z.lnot (u64 imm)))) eqn:EB.
  { apply andb_true_iff in EB as [EB1 EB2].
    destruct (power_of_two _ (uwrap_range 64 (Z.lnot (u64 imm)) ltac:(lia)) EB2) as [Hn En].
    eapply (computes_ext _ (Macro.ins _)); [exact Ef|].
    apply one_instruction_computes; try done; [by apply encodable_shift|].
    intros g Hg. cbn [value shop_sem]. f_equal. apply land_clear; try done. by apply operand_range. }
  destruct (IsPowerOfTwo (u64 (u64 imm + 1))) eqn:EP.
  - reflect_bool. destruct (low_mask E1 EI EP) as [Hk Ek]. cbv zeta in *.
    set (k := ShiftForPowerOfTwo _) in *.
    destruct (_ && (k =? 16)) eqn:EZ.
    + eapply (computes_ext _ (Macro.ins _)); [exact Ef|]. reflect_bool.
      apply one_instruction_computes; [done..| |]; [by apply encodable_unary|].
      intros g Hg. cbn [value uop_sem]. f_equal. rewrite <- (land_word (g rs1)), Ek by (by apply operand_range).
      match goal with Ek16 : k = 16 |- _ => rewrite Ek16 end.
      change (2 ^ 16 - 1) with (Z.ones 16). by rewrite Z.land_ones.
    + eapply (computes_ext _ (fun a => a ← Macro.ins _ a; Macro.ins _ a)); [exact Ef|].
      apply two_instructions_compute; [done..| | |]; [apply encodable_shift; [done..|unfold XLEN; cbn [shop_limit]; lia]..|].
      intros g Hg. cbn [value shop_sem]. rewrite write_eq by done. unfold XLEN.
      pose proof (operand_range g Hg). rewrite land_low by (done || lia). f_equal.
      by rewrite <- Ek, land_word.
  - eapply (computes_ext _ (fun a => a ← Macro.LoadImmediate TMP2 imm a; Macro.ins _ a)); [exact Ef|].
    apply loaded_constant; auto. intros g Hg. cbn [rop_sem]. f_equal. apply land_word. by apply operand_range.
Qed.

Lemma MulImmediate_computes :
  rs1 <> TMP -> - 2 ^ 63 < imm ->
  computes (Macro.MulImmediate rd rs1 imm kWordBytes) a rd [TMP] (fun g => g rs1 * imm).
Proof.
  intros Ht Hm. destruct (constant_range _ _ Hi) as [_ Hr].
  destruct (power_of_two_signed imm ltac:(lia)) as [Ep Hp].
  destruct (IsPowerOfTwo imm) eqn:EP.
  - specialize (Hp eq_refl). destruct (power_of_two imm ltac:(lia) EP) as [Hn En].
    apply (computes_ext _ (Macro.ins (assemble (Shift SLLI rd rs1 (ShiftForPowerOfTwo imm))))).
    + unfold Macro.MulImmediate. by rewrite Ep.
    + apply one_instruction_computes; try done; [by apply encodable_shift|].
      intros g _. cbn [value shop_sem]. by rewrite <- En.
  - apply (computes_ext _ (fun a => a ← Macro.LoadImmediate TMP imm a; Macro.ins (assemble_rop MUL rd rs1 TMP) a)).
    + unfold Macro.MulImmediate. by rewrite Ep.
    + apply loaded_constant; auto. intros g _. cbn [rop_sem]. apply uwrap_mul_r.
Qed.
End Immediates.

(** ** Extension of values *)

(** The value of a size in the low bits of a register. *)
Definition extend (sz : OperandSize) (x : Z) : Z :=
  match sz with
  | kByte => s8 x | kUnsignedByte => u8 x
  | kTwoBytes => s16 x | kUnsignedTwoBytes => u16 x
  | kFourBytes => s32 x | kUnsignedFourBytes => u32 x
  | _ => x
  end.

Lemma swrap_scale k x : 0 < k <= 64 -> s64 (x * 2 ^ (64 - k)) = swrap k x * 2 ^ (64 - k).
Proof.
  intros Hk. unfold swrap. set (m := 64 - k).
  assert (E1 : 2 ^ (64 - 1) = 2 ^ (k - 1) * 2 ^ m) by (rewrite <- Z.pow_add_r; [f_equal|..]; lia).
  assert (E2 : 2 ^ 64 = 2 ^ k * 2 ^ m) by (rewrite <- Z.pow_add_r; [f_equal|..]; lia).
  rewrite E1, E2. pose proof (pow2_pos k ltac:(lia)). pose proof (pow2_pos m ltac:(lia)).
  rewrite <- Z.mul_add_distr_r, Z.mul_mod_distr_r by lia. lia.
Qed.

(** Shifts to the left and back. *)
Lemma shift_left_right_signed k x : 0 < k <= 64 ->
  s64 (u64 (x * 2 ^ (64 - k))) / 2 ^ (64 - k) = swrap k x.
Proof.
  intros Hk. rewrite swrap_uwrap, swrap_scale by done. apply Z.div_mul.
  pose proof (pow2_pos (64 - k) ltac:(lia)). lia.
Qed.
Lemma shift_left_right k x : is_u 64 x -> 0 < k <= 64 ->
  u64 (x * 2 ^ (64 - k)) / 2 ^ (64 - k) = uwrap k x.
Proof.
  intros Hx Hk. rewrite land_low by (done || lia).
  replace (2 ^ k - 1) with (Z.ones k) by (rewrite Z.ones_equiv; lia). by rewrite Z.land_ones by lia.
Qed.

Section Extend.
Context {P : Type} `{ObjectPool P} (a : Assembler P) (rd rn : Z).
Hypothesis (Hd : is_u 5 rd) (Hd0 : rd <> 0) (Hn : is_u 5 rn).

(** The sizes [ExtendValue] handles with a pair of shifts when the extension with
    the instruction for them is not there. *)
Definition needs_shifts (sz : OperandSize) : bool :=
  match sz with
  | kUnsignedFourBytes => negb (Macro.Supports a Extension.RV_Zba)
  | kUnsignedTwoBytes | kTwoBytes | kByte => negb (Macro.Supports a Extension.RV_Zbb)
  | _ => false
  end.

Definition extendable (sz : OperandSize) : bool :=
  match sz with
  | kByte | kUnsignedByte | kTwoBytes | kUnsignedTwoBytes | kFourBytes | kUnsignedFourBytes
  | kEightBytes => true
  | _ => false
  end.

Lemma shifts_compute op n k v rs :
  shop_limit op = 64 -> n = 64 - k -> 0 < k < 64 ->
  (forall g, regs_wf g -> u64 (shop_sem op (if rd =? rn then u64 (g rn * 2 ^ n) else g rn) n) = u64 (v g)) ->
  computes (fun a => a ← Macro.slli rd rn n a; Macro.ins (assemble (Shift op rd rn n)) a) a rd rs v.
Proof.
  intros Hl -> Hk Hv.
  apply (two_instructions_compute (Shift SLLI rd rn (64 - k)) (Shift op rd rn (64 - k)) rd a v); try done.
  - apply encodable_shift; try done. cbn [shop_limit]. lia.
  - apply encodable_shift; try done. rewrite Hl. lia.
  - intros g Hg. cbn [value]. rewrite <- Hv by done. do 2 f_equal. cbn [value shop_sem].
    destruct (rd =? rn) eqn:E; reflect_bool; [rewrite E; apply write_eq; congruence|apply write_ne; congruence].
Qed.

(** What the pair of shifts computes: the second one reads [rn], too. *)
Definition shifted (sz : OperandSize) (x : Z) : Z :=
  match sz with
  | kUnsignedFourBytes => x / 2 ^ 32
  | kUnsignedTwoBytes => x / 2 ^ 48
  | kTwoBytes => s64 x / 2 ^ 48
  | kByte => s64 x / 2 ^ 56
  | _ => x
  end.

Lemma ExtendValue_shifts sz rs :
  needs_shifts sz = true ->
  computes (Macro.ExtendValue rd rn sz) a rd rs
    (fun g => if rd =? rn then extend sz (g rn) else shifted sz (g rn)).
Proof.
  intros Hs. destruct sz; try discriminate; cbn [needs_shifts] in Hs; apply negb_true_iff in Hs.
  - apply (computes_ext _ (fun a => a ← Macro.slli rd rn 56 a; Macro.ins (assemble (Shift SRAI rd rn 56)) a)).
    { unfold Macro.ExtendValue. rewrite Hs. reflexivity. }
    apply (shifts_compute SRAI 56 8); try done. intros g Hg. cbn [shop_sem extend shifted].
    destruct (rd =? rn); [|done]. f_equal. by apply (shift_left_right_signed 8).
  - apply (computes_ext _ (fun a => a ← Macro.slli rd rn 48 a; Macro.ins (assemble (Shift SRAI rd rn 48)) a)).
    { unfold Macro.ExtendValue. rewrite Hs. reflexivity. }
    apply (shifts_compute SRAI 48 16); try done. intros g Hg. cbn [shop_sem extend shifted].
    destruct (rd =? rn); [|done]. f_equal. by apply (shift_left_right_signed 16).
  - apply (computes_ext _ (fun a => a ← Macro.slli rd rn 48 a; Macro.ins (assemble (Shift SRLI rd rn 48)) a)).
    { unfold Macro.ExtendValue. rewrite Hs. reflexivity. }
    apply (shifts_compute SRLI 48 16); try done. intros g Hg. cbn [shop_sem extend shifted].
    destruct (rd =? rn); [|done]. f_equal. apply (shift_left_right 16); [by apply Hg|done].
  - apply (computes_ext _ (fun a => a ← Macro.slli rd rn 32 a; Macro.ins (assemble (Shift SRLI rd rn 32)) a)).
    { unfold Macro.ExtendValue. rewrite Hs. reflexivity. }
    apply (shifts_compute SRLI 32 32); try done. intros g Hg. cbn [shop_sem extend shifted].
    destruct (rd =? rn); [|done]. f_equal. apply (shift_left_right 32); [by apply Hg|done].
Qed.

Lemma ExtendValue_computes sz rs :
  extendable sz = true -> (needs_shifts sz = true -> rd = rn) ->
  computes (Macro.ExtendValue rd rn sz) a rd rs (fun g => extend sz (g rn)).
Proof.
  intros He Hs. destruct (needs_shifts sz) eqn:En.
  { eapply computes_value; [|by apply ExtendValue_shifts]. intros g _. cbn.
    by rewrite (proj2 (Z.eqb_eq rd rn)) by auto. }
  assert (Ha : forall f i, f a = Macro.ins (assemble i) a -> target i = rd ->
    operand_ok (supports_compressed a) i = true ->
    (forall g, regs_wf g -> u64 (value i g) = u64 (extend sz (g rn))) ->
    computes f a rd rs (fun g => extend sz (g rn))).
  { intros f i Ef Et Eo Ev. apply (computes_ext _ (Macro.ins (assemble i))); [done|].
    by apply one_instruction_computes. }
  destruct sz; try discriminate; cbn [needs_shifts] in En; try apply negb_false_iff in En.
  - apply (Ha _ (Unary SEXT_B rd rn)); [unfold Macro.ExtendValue; by rewrite En|done|by apply encodable_unary|done].
  - apply (Ha _ (Imm ANDI rd rn 255)); [done|done|by apply encodable_imm|].
    intros g _. cbn. f_equal. change 255 with (Z.ones 8). by rewrite Z.land_ones.
  - apply (Ha _ (Unary SEXT_H rd rn)); [unfold Macro.ExtendValue; by rewrite En|done|by apply encodable_unary|done].
  - apply (Ha _ (Unary ZEXT_H rd rn)); [unfold Macro.ExtendValue; by rewrite En|done|by apply encodable_unary|done].
  - apply (Ha _ (Imm ADDIW rd rn 0)); [done|done|by apply encodable_imm|].
    intros g _. cbn. by rewrite Z.add_0_r.
  - apply (Ha _ (Reg ADD_UW rd rn Register.ZR)); [unfold Macro.ExtendValue; by rewrite En|done|by apply encodable_reg|].
    intros g [_ Hg]. cbn [value rop_sem extend]. unfold Register.ZR. by rewrite Hg, Z.add_0_r.
  - apply (MoveRegister_computes a rd rn); try done.
Qed.
End Extend.
