(* ===== verification/RiscvMacroOverflow.v ===== *)
(** * Branches on overflow

    The macros that add, subtract or multiply and branch when the result is not a
    signed 64-bit number. *)

From S2P Require Import Prelude Utils RiscvConstants RiscvEncoding RiscvAssembler RiscvLabels.
From S2P Require Import SimMemory RiscvSimulator RiscvIsa RiscvDecode RiscvInterpret RiscvTables.
From S2P Require Import RiscvBranches RiscvJumps RiscvCorrect RiscvEmit RiscvPrograms RiscvMacro.
From S2P Require Import RiscvMacroRuns RiscvMacroImmediates.

(** ** Branches on overflow *)

(** Two's complement at 64 bits. *)
Lemma swrap64_cases z :
  - 2 ^ 64 <= z < 2 ^ 64 ->
  s64 z = if z <? - 2 ^ 63 then z + 2 ^ 64 else if z <? 2 ^ 63 then z else z - 2 ^ 64.
Proof.
  intros Hz. unfold swrap. change (2 ^ (64 - 1)) with (2 ^ 63).
  destruct (z <? - 2 ^ 63) eqn:E1; [|destruct (z <? 2 ^ 63) eqn:E2]; reflect_bool.
  - replace (z + 2 ^ 63) with (z + 2 ^ 63 + 2 ^ 64 + (-1) * 2 ^ 64) by lia.
    rewrite Z_mod_plus_full, Z.mod_small; lia.
  - rewrite Z.mod_small; lia.
  - replace (z + 2 ^ 63) with (z + 2 ^ 63 - 2 ^ 64 + 1 * 2 ^ 64) by lia.
    rewrite Z_mod_plus_full, Z.mod_small; lia.
Qed.

(** The sign of a register. *)
Lemma sign_bit x : is_u 64 x -> (s64 x <? 0) = Z.testbit x 63.
Proof.
  intros Hx. unfold is_u in Hx. rewrite swrap64_cases by lia.
  rewrite (proj2 (Z.ltb_ge x (- 2 ^ 63))) by lia.
  destruct (x <? 2 ^ 63) eqn:E; reflect_bool.
  - rewrite (proj2 (Z.ltb_ge x 0)) by lia. symmetry. apply (testbit_high 63); unfold is_u; lia.
  - rewrite (proj2 (Z.ltb_lt (x - 2 ^ 64) 0)) by lia. symmetry.
    apply Z.testbit_true; [lia|].
    replace x with (x - 2 ^ 63 + 1 * 2 ^ 63) by lia. rewrite Z.div_add by lia.
    rewrite Z.div_small by lia. done.
Qed.

Lemma sign_xor x y :
  is_u 64 x -> is_u 64 y -> (s64 (u64 (x .^ y)) <? 0) = xorb (s64 x <? 0) (s64 y <? 0).
Proof.
  intros Hx Hy. rewrite !sign_bit by (done || by apply uwrap_range).
  rewrite testbit_uwrap, Z.lxor_spec by lia. done.
Qed.

(** The sum, difference or product is not a signed 64-bit number. *)
Definition overflows (z : Z) : bool := negb ((- 2 ^ 63 <=? z) && (z <? 2 ^ 63)).

Lemma s64_range x : - 2 ^ 63 <= s64 x < 2 ^ 63.
Proof. apply (swrap_range 64 x). lia. Qed.

Lemma s64_sum x y : s64 (u64 (x + y)) = s64 (s64 x + s64 y).
Proof.
  rewrite swrap_uwrap. rewrite <- (swrap_add_l 64 x), <- (swrap_add_r 64 _ y).
  rewrite <- (swrap_add_l 64 (s64 x)), <- (swrap_add_r 64 _ (s64 y)).
  by rewrite !uwrap_swrap by lia.
Qed.
Lemma s64_difference x y : s64 (u64 (x - y)) = s64 (s64 x - s64 y).
Proof.
  rewrite swrap_uwrap. apply uwrap_eq_swrap; [lia|].
  rewrite <- (uwrap_sub_l 64 (s64 x)), <- (uwrap_sub_r 64 _ (s64 y)), !uwrap_swrap by lia.
  by rewrite uwrap_sub_l, uwrap_sub_r.
Qed.

Ltac decide_signs :=
  repeat match goal with
  | |- context [?x <? ?y] => let E := fresh in destruct (x <? y) eqn:E; reflect_bool
  | |- context [?x <=? ?y] => let E := fresh in destruct (x <=? y) eqn:E; reflect_bool
  | H : context [?x <? ?y] |- _ => let E := fresh in destruct (x <? y) eqn:E; reflect_bool
  end; cbn [negb andb xorb] in *; try reflexivity; try lia.

(** The tests for overflow of a sum. *)
Lemma sum_overflow x y :
  let r := s64 (u64 (x + y)) in
  xorb (s64 y <? 0) (r <? s64 x) = overflows (s64 x + s64 y).
Proof.
  cbv zeta. rewrite s64_sum. pose proof (s64_range x). pose proof (s64_range y).
  generalize dependent (s64 x). generalize dependent (s64 y). intros v Hv u Hu.
  rewrite swrap64_cases by lia. unfold overflows. decide_signs.
Qed.

Lemma double_overflow x :
  is_u 64 x -> (s64 (u64 (u64 x .^ u64 (x + x))) <? 0) = overflows (s64 x + s64 x).
Proof.
  intros Hx. rewrite (uwrap_small 64 x) by done.
  rewrite sign_xor by (done || by apply uwrap_range). rewrite s64_sum.
  pose proof (s64_range x). generalize dependent (s64 x). intros u Hu.
  rewrite swrap64_cases by lia. unfold overflows. decide_signs.
Qed.

Lemma difference_overflow x y :
  xorb (s64 y <? 0) (s64 x <? s64 (u64 (x - y))) = overflows (s64 x - s64 y).
Proof.
  rewrite s64_difference. pose proof (s64_range x). pose proof (s64_range y).
  generalize dependent (s64 x). generalize dependent (s64 y). intros v Hv u Hu.
  rewrite swrap64_cases by lia. unfold overflows. decide_signs.
Qed.

(** Comparison of two flags. *)
Lemma flags_differ b1 b2 : negb (u64 (of_bool b1) =? u64 (of_bool b2)) = xorb b1 b2.
Proof. by destruct b1, b2. Qed.

(** The high half of a product against the sign of the low half. *)
Lemma product_overflow x y :
  negb (u64 (s64 x * s64 y / 2 ^ 64) =? u64 (s64 (u64 (x * y)) / 2 ^ 63))
  = overflows (s64 x * s64 y).
Proof.
  assert (Ep : s64 (u64 (x * y)) = s64 (s64 x * s64 y)).
  { rewrite swrap_uwrap, <- (swrap_mul_l 64 x), <- (swrap_mul_r 64 _ y).
    rewrite <- (swrap_mul_l 64 (s64 x)), <- (swrap_mul_r 64 _ (s64 y)).
    by rewrite !uwrap_swrap by lia. }
  rewrite Ep. pose proof (s64_range x) as Hx. pose proof (s64_range y) as Hy.
  assert (Hp : - 2 ^ 126 <= s64 x * s64 y <= 2 ^ 126) by (change (2 ^ 126) with (2 ^ 63 * 2 ^ 63); nia).
  set (p := s64 x * s64 y) in *. clearbody p. clear Ep Hx Hy.
  pose proof (s64_range p) as Hl. pose proof (Z.div_mod p (2 ^ 64) ltac:(lia)) as Hd.
  pose proof (Z.mod_pos_bound p (2 ^ 64) ltac:(lia)) as Hm.
  assert (Es : s64 p = if p mod 2 ^ 64 <? 2 ^ 63 then p mod 2 ^ 64 else p mod 2 ^ 64 - 2 ^ 64).
  { rewrite <- (swrap_uwrap 64 p), swrap64_cases by (unfold uwrap; lia). unfold uwrap.
    by rewrite (proj2 (Z.ltb_ge (p mod 2 ^ 64) (- 2 ^ 63))) by lia. }
  set (h := p / 2 ^ 64) in *. set (l := p mod 2 ^ 64) in *.
  clearbody h l. assert (Hh : - 2 ^ 63 <= h < 2 ^ 63).
  { clear - Hp Hd Hm. change (2 ^ 126) with (2 ^ 64 * 2 ^ 62) in Hp. split; nia. }
  assert (Eq : s64 p / 2 ^ 63 = if l <? 2 ^ 63 then 0 else -1).
  { rewrite Es. destruct (l <? 2 ^ 63) eqn:E; reflect_bool.
    - apply Z.div_small. lia.
    - symmetry. apply (Z.div_unique _ _ _ (l - 2 ^ 63)); lia. }
  rewrite Eq. set (q := if l <? 2 ^ 63 then 0 else -1) in *.
  assert (Hq : -1 <= q <= 0) by (unfold q; by destruct (l <? 2 ^ 63)).
  assert (Eu : (u64 h =? u64 q) = (h =? q)).
  { apply eq_true_iff_eq. rewrite !Z.eqb_eq. split; [|by intros ->]. intros E.
    apply uwrap_eq_swrap in E; [|lia].
    by rewrite !swrap_small in E by (try lia; unfold is_s; change (2 ^ (64 - 1)) with (2 ^ 63); lia). }
  rewrite Eu. unfold overflows, q.
  destruct (l <? 2 ^ 63) eqn:E; reflect_bool; f_equal; apply eq_true_iff_eq;
    rewrite andb_true_iff, Z.eqb_eq, Z.leb_le, Z.ltb_lt; lia.
Qed.

Section Overflow.
Context {P : Type} `{ObjectPool P} (a : Assembler P) (rd rs1 rs2 : Z).
Hypothesis (Hd : is_u 5 rd) (H1 : is_u 5 rs1) (H2 : is_u 5 rs2).
Hypothesis (Hd0 : rd <> 0) (H10 : rs1 <> 0) (H20 : rs2 <> 0).
Hypothesis (HdT : rd <> TMP) (HdT2 : rd <> TMP2) (H1T : rs1 <> TMP) (H1T2 : rs1 <> TMP2)
  (H2T : rs2 <> TMP) (H2T2 : rs2 <> TMP2).

Lemma scratch : is_u 5 TMP /\ is_u 5 TMP2 /\ TMP <> 0 /\ TMP2 <> 0 /\ TMP <> TMP2.
Proof. by split_and!. Qed.

Lemma body_ok c body :
  Forall (fun i => operand_ok c i = true) body -> forallb (operand_ok c) body = true.
Proof. rewrite forallb_forall, Forall_forall. intros Hb i Hi. by apply Hb, list_elem_of_In. Qed.

(** The instructions of these macros can be encoded. *)
Ltac operands := destruct scratch as (? & ? & ? & ? & ?);
  apply body_ok; repeat constructor;
  first [apply encodable_reg; done | apply encodable_imm; done | apply encodable_shift; done].

(** The registers that are written are among [rd], [TMP] and [TMP2]. *)
Ltac written := solve_keeps.

(** A macro that leaves a result in [rd] and ends with a branch. *)
Lemma overflow_branch f body op r1 r2 v cond :
  (forall l, f l a = ('(l, m) ← branch_method op r1 r2 l kFarJump (assemble_all body (micro a));
    Ok (l, Macro.set_micro m a))) ->
  forallb (operand_ok (supports_compressed a)) body = true -> keeps body [rd; TMP; TMP2] ->
  is_u 5 r1 -> is_u 5 r2 ->
  (forall g, regs_wf g -> run body g rd = u64 (v g) /\
    bop_sem op (run body g r1) (run body g r2) = cond g) ->
  branches f kFarJump a a [rd; TMP; TMP2] [(rd, v)] cond.
Proof.
  intros Hf Ho Hk Hr1 Hr2 Hv. apply (emits_branches _ _ _ _ body op r1 r2); try done.
  - by apply Forall_singleton.
  - intros g Hg. destruct (Hv g Hg) as [E1 E2]. split; [by apply Forall_singleton|done].
Qed.

(** The registers of the machine after a body, from what is known of them. *)
Ltac run_body g Hg :=
  intros g Hg; pose proof (proj2 Hg) as Hzero; destruct scratch as (? & ? & ? & ? & ?);
  unfold Register.ZR in *; split; cbn [bop_sem]; run_regs;
  rewrite ?Hzero, ?Z.add_0_r; change (s64 0) with 0.

Lemma AddBranchOverflow_branches :
  branches (Macro.AddBranchOverflow rd rs1 rs2) kFarJump a a [rd; TMP; TMP2]
    [(rd, fun g => g rs1 + g rs2)] (fun g => overflows (s64 (g rs1) + s64 (g rs2))).
Proof.
  destruct ((rd =? rs1) && (rd =? rs2)) eqn:E1; [|destruct (rs1 =? rs2) eqn:E2;
    [|destruct (rd =? rs1) eqn:E3; [|destruct (rd =? rs2) eqn:E4]]].
  - apply (overflow_branch _
      [Imm ADDI TMP rs1 0; Reg ADD rd rs1 rs2; Reg XOR TMP TMP rd] BLT TMP Register.ZR);
      [|operands|written|done..|].
    + intros l. unfold Macro.AddBranchOverflow. rewrite E1. reflexivity.
    + reflect_bool. run_body g Hg; [done|]. assert (rs2 = rs1) as -> by congruence.
      apply double_overflow. by apply Hg.
  - apply (overflow_branch _ [Reg ADD rd rs1 rs2; Reg XOR TMP rd rs1] BLT TMP Register.ZR);
      [|operands|written|done..|].
    + intros l. unfold Macro.AddBranchOverflow. rewrite E1, E2. reflexivity.
    + reflect_bool. assert (rd <> rs1) by (intros ->; rewrite E2, !Z.eqb_refl in E1; done).
      run_body g Hg; [done|]. rewrite <- E2, Z.lxor_comm.
      rewrite <- (uwrap_small 64 (g rs1)) at 1 by (by apply Hg). apply double_overflow. by apply Hg.
  - apply (overflow_branch _
      [Imm SLTI TMP rs1 0; Reg ADD rd rs1 rs2; Reg SLT TMP2 rd rs2] BNE TMP TMP2);
      [|operands|written|done..|].
    + intros l. unfold Macro.AddBranchOverflow. cbn [andb] in E1. rewrite E3, E1, E2. reflexivity.
    + reflect_bool. run_body g Hg; [done|].
      rewrite flags_differ, (Z.add_comm (g rs1)), (Z.add_comm (s64 (g rs1))). apply sum_overflow.
  - apply (overflow_branch _
      [Imm SLTI TMP rs2 0; Reg ADD rd rs1 rs2; Reg SLT TMP2 rd rs1] BNE TMP TMP2);
      [|operands|written|done..|].
    + intros l. unfold Macro.AddBranchOverflow. rewrite E2, E3, E4. reflexivity.
    + reflect_bool. run_body g Hg; [done|]. rewrite flags_differ. apply sum_overflow.
  - apply (overflow_branch _
      [Reg ADD rd rs1 rs2; Imm SLTI TMP rs2 0; Reg SLT TMP2 rd rs1] BNE TMP TMP2);
      [|operands|written|done..|].
    + intros l. unfold Macro.AddBranchOverflow. rewrite E2, E3, E4. reflexivity.
    + reflect_bool. run_body g Hg; [done|]. rewrite flags_differ. apply sum_overflow.
Qed.

Lemma SubtractBranchOverflow_branches :
  rd <> rs1 -> rd <> rs2 -> rs1 <> rs2 ->
  branches (Macro.SubtractBranchOverflow rd rs1 rs2) kFarJump a a [rd; TMP; TMP2]
    [(rd, fun g => g rs1 - g rs2)] (fun g => overflows (s64 (g rs1) - s64 (g rs2))).
Proof.
  intros N1 N2 N3. apply (overflow_branch _
    [Reg SUB rd rs1 rs2; Imm SLTI TMP rs2 0; Reg SLT TMP2 rs1 rd] BNE TMP TMP2);
    [|operands|written|done..|].
  - intros l. unfold Macro.SubtractBranchOverflow.
    rewrite (proj2 (Z.eqb_neq rd rs1)), (proj2 (Z.eqb_neq rs1 rs2)), (proj2 (Z.eqb_neq rd rs2)) by done.
    reflexivity.
  - run_body g Hg; [done|]. rewrite flags_differ. apply difference_overflow.
Qed.

(** The test of a subtraction into its first operand. *)
Definition subtract_test (x y : Z) : bool := xorb (s64 x <? 0) (s64 (u64 (x - y)) <? s64 y).

Lemma SubtractBranchOverflow_aliased :
  rd = rs1 -> rd <> rs2 ->
  branches (Macro.SubtractBranchOverflow rd rs1 rs2) kFarJump a a [rd; TMP; TMP2]
    [(rd, fun g => g rs1 - g rs2)] (fun g => subtract_test (g rs1) (g rs2)).
Proof.
  intros E N. apply (overflow_branch _
    [Imm SLTI TMP rs1 0; Reg SUB rd rs1 rs2; Reg SLT TMP2 rd rs2] BNE TMP TMP2);
    [|operands|written|done..|].
  - intros l. unfold Macro.SubtractBranchOverflow.
    rewrite (proj2 (Z.eqb_eq rd rs1)), (proj2 (Z.eqb_neq rs1 rs2)), (proj2 (Z.eqb_neq rd rs2))
      by (done || congruence).
    reflexivity.
  - run_body g Hg; [done|]. rewrite flags_differ. done.
Qed.

Lemma MultiplyBranchOverflow_branches :
  branches (Macro.MultiplyBranchOverflow rd rs1 rs2) kFarJump a a [rd; TMP; TMP2]
    [(rd, fun g => g rs1 * g rs2)] (fun g => overflows (s64 (g rs1) * s64 (g rs2))).
Proof.
  apply (overflow_branch _
    [Reg MULH TMP rs1 rs2; Reg MUL rd rs1 rs2; Shift SRAI TMP2 rd 63] BNE TMP TMP2);
    [|operands|written|done..|].
  - intros l. reflexivity.
  - run_body g Hg; [done|]. apply product_overflow.
Qed.

(** With an immediate. *)
Context (imm : Z).
Hypothesis (Hi : constant_ok a imm).

Lemma immediate_value : s64 (u64 imm) = imm.
Proof.
  destruct (constant_range _ _ Hi). rewrite swrap_uwrap. apply swrap_small; [lia|].
  unfold is_s. change (2 ^ (64 - 1)) with (2 ^ 63). lia.
Qed.

Lemma immediate_overflow x :
  (0 < imm -> (s64 (u64 (x + imm)) <? s64 x) = overflows (s64 x + imm)) /\
  (imm < 0 -> (s64 x <? s64 (u64 (x + imm))) = overflows (s64 x + imm)).
Proof.
  rewrite s64_sum. replace (s64 imm) with imm by (rewrite <- swrap_uwrap; by rewrite immediate_value).
  pose proof (s64_range x). destruct (constant_range _ _ Hi). generalize dependent (s64 x). intros u Hu.
  rewrite swrap64_cases by lia. unfold overflows. split; intros; decide_signs.
Qed.

(** The sum of a register and an immediate against a copy of the register. *)
Lemma immediate_branch f body copy :
  imm <> 0 -> is_u 5 copy ->
  (forall l, f l a = ('(l, m) ← (if 0 <? imm then Branch.blt rd copy else Branch.blt copy rd) l kFarJump
      (assemble_all body (micro a)); Ok (l, Macro.set_micro m a))) ->
  forallb (operand_ok (supports_compressed a)) body = true -> keeps body [rd; TMP; TMP2] ->
  (forall g, regs_wf g -> run body g rd = u64 (g rs1 + imm) /\ run body g copy = g rs1) ->
  branches f kFarJump a a [rd; TMP; TMP2] [(rd, fun g => g rs1 + imm)]
    (fun g => overflows (s64 (g rs1) + imm)).
Proof.
  intros Hn Hc Hf Ho Hk Hv.
  destruct (0 <? imm) eqn:E; reflect_bool;
    [apply (overflow_branch _ body BLT rd copy)|apply (overflow_branch _ body BLT copy rd)];
    try assumption; intros g Hg; destruct (Hv g Hg) as [E1 E2]; (split; [done|]);
    cbn [bop_sem]; rewrite E1, E2; apply immediate_overflow; lia.
Qed.

Lemma AddImmediateBranchOverflow_branches :
  imm <> 0 -> rd <> rs1 \/ IsITypeImm imm = true ->
  branches (Macro.AddImmediateBranchOverflow rd rs1 imm) kFarJump a a [rd; TMP; TMP2]
    [(rd, fun g => g rs1 + imm)] (fun g => overflows (s64 (g rs1) + imm)).
Proof.
  intros Hn Hs. destruct scratch as (? & ? & ? & ? & ?).
  destruct (rd =? rs1) eqn:E; reflect_bool.
  - destruct Hs as [|EI]; [done|].
    apply (immediate_branch _ [Imm ADDI TMP2 rs1 0; Imm ADDI rd rs1 imm] TMP2); try done.
    + intros l. unfold Macro.AddImmediateBranchOverflow, Macro.AddImmediate.
      rewrite (proj2 (Z.eqb_eq rd rs1)), (proj2 (Z.eqb_neq imm 0)), EI by done.
      cbn [andb]. destruct (0 <? imm) eqn:E0; [reflexivity|]. reflect_bool.
      rewrite (proj2 (Z.ltb_lt imm 0)) by lia. reflexivity.
    + cbn [forallb]. by rewrite !encodable_imm.
    + solve_keeps.
    + intros g [Hg _]. run_regs. rewrite Z.add_0_r. split; [done|]. apply uwrap_small. by apply Hg.
  - destruct (AddImmediate_emits a rd rs1 imm Hd Hd0 H1 H10 Hi H1T2) as (body & [Ec Eo] & Hk & _ & Hv).
    apply (immediate_branch _ body rs1); try done.
    + intros l. unfold Macro.AddImmediateBranchOverflow. rewrite (proj2 (Z.eqb_neq rd rs1)), Ec by done.
      cbn [mbind result_bind]. destruct (0 <? imm) eqn:E0; [reflexivity|]. reflect_bool.
      rewrite (proj2 (Z.ltb_lt imm 0)) by lia. reflexivity.
    + eapply keeps_mono; [exact Hk|]. intros r. rewrite !elem_of_cons. tauto.
    + intros g Hg. split; [by apply Hv|]. apply (keeps_frame _ [rd; TMP2]); [done|].
      rewrite !elem_of_cons, elem_of_nil. intuition congruence.
Qed.

(** A constant that is loaded into the scratch register takes the place of the copy. *)
Lemma AddImmediateBranchOverflow_aliased :
  0 < imm -> rd = rs1 -> IsITypeImm imm = false ->
  branches (Macro.AddImmediateBranchOverflow rd rs1 imm) kFarJump a a [rd; TMP; TMP2]
    [(rd, fun g => g rs1 + imm)] (fun g => s64 (u64 (g rs1 + imm)) <? imm).
Proof.
  intros Hn E EI. destruct scratch as (? & ? & ? & ? & ?).
  set (b := appended [Imm ADDI TMP2 rs1 0] a).
  destruct (LoadImmediate_body b TMP2 imm) as (body & [Ec Eo] & Hk & _ & Hv); try done.
  { destruct Hi. by split. }
  apply (overflow_branch _ (Imm ADDI TMP2 rs1 0 :: body ++ [Reg ADD rd rs1 TMP2]) BLT rd TMP2); try done.
  - intros l. unfold Macro.AddImmediateBranchOverflow, Macro.AddImmediate.
    rewrite (proj2 (Z.eqb_eq rd rs1)), (proj2 (Z.eqb_neq imm 0)), EI by (done || lia).
    change (Macro.mv TMP2 rs1 a) with (Ok (E:=asm_error) b). cbn [mbind result_bind andb].
    rewrite Ec, (proj2 (Z.ltb_lt 0 imm)) by done. cbn [mbind result_bind].
    unfold assemble_all. cbn [fold_left]. rewrite fold_left_app. reflexivity.
  - cbn [forallb]. rewrite encodable_imm, forallb_app by done.
    unfold supports_compressed in *. unfold b in Eo. rewrite supports_appended in Eo. rewrite Eo.
    cbn [forallb]. by rewrite encodable_reg.
  - intros i [->|Hb]%elem_of_cons; [by right; right; left|].
    revert i Hb. apply keeps_app; [|solve_keeps]. eapply keeps_mono; [exact Hk|].
    intros r. rewrite !elem_of_cons. tauto.
  - intros g Hg. set (g0 := run1 g (Imm ADDI TMP2 rs1 0)).
    assert (Hg0 : regs_wf g0) by exact (run_wf [Imm ADDI TMP2 rs1 0] g Hg).
    assert (E0 : g0 rs1 = g rs1) by (unfold g0; by run_regs).
    change (run (Imm ADDI TMP2 rs1 0 :: body ++ [Reg ADD rd rs1 TMP2]) g)
      with (run (body ++ [Reg ADD rd rs1 TMP2]) g0).
    rewrite run_app. pose proof (Hv g0 Hg0) as Hv1.
    assert (E1 : run body g0 rs1 = g rs1).
    { rewrite <- E0. apply (keeps_frame _ [TMP2]); [done|]. by rewrite list_elem_of_singleton. }
    set (g1 := run body g0) in *. cbn [bop_sem]. run_regs. rewrite Hv1, E1.
    rewrite uwrap_add_r, immediate_value. done.
Qed.

Lemma MultiplyImmediateBranchOverflow_branches :
  branches (Macro.MultiplyImmediateBranchOverflow rd rs1 imm) kFarJump a a [rd; TMP; TMP2]
    [(rd, fun g => g rs1 * imm)] (fun g => overflows (s64 (g rs1) * imm)).
Proof.
  destruct scratch as (? & ? & ? & ? & ?).
  destruct (LoadImmediate_body a TMP2 imm) as (body & [Ec Eo] & Hk & _ & Hv); try done.
  apply (overflow_branch _ (body ++ [Reg MULH TMP rs1 TMP2; Reg MUL rd rs1 TMP2; Shift SRAI TMP2 rd 63])
    BNE TMP TMP2); try done.
  - intros l. unfold Macro.MultiplyImmediateBranchOverflow. rewrite Ec. cbn [mbind result_bind].
    unfold assemble_all. rewrite fold_left_app. reflexivity.
  - rewrite forallb_app, Eo. cbn [forallb]. rewrite !encodable_reg by done. by rewrite encodable_shift.
  - apply keeps_app; [|solve_keeps]. eapply keeps_mono; [done|]. intros r. rewrite !elem_of_cons. tauto.
  - intros g Hg. rewrite run_app. pose proof (Hv g Hg) as Hv1.
    assert (E1 : run body g rs1 = g rs1).
    { apply (keeps_frame _ [TMP2]); [done|]. by rewrite list_elem_of_singleton. }
    set (g1 := run body g) in *. cbn [bop_sem]. run_regs. rewrite Hv1, E1. split; [apply uwrap_mul_r|].
    rewrite product_overflow. by rewrite immediate_value.
Qed.
End Overflow.
