(* ===== verification/RiscvMacroConditions.v ===== *)
(** * Deferred comparisons

    [CompareRegisters], [CompareImmediate], [TestRegisters] and [TestImmediate] emit
    nothing; [SetIf] and [BranchIf] emit the comparison with its use. *)

From S2P Require Import Prelude Utils RiscvConstants RiscvEncoding RiscvAssembler RiscvLabels.
From S2P Require Import SimMemory RiscvSimulator RiscvIsa RiscvDecode RiscvInterpret RiscvTables.
From S2P Require Import RiscvBranches RiscvJumps RiscvCorrect RiscvEmit RiscvPrograms RiscvMacro.
From S2P Require Import RiscvMacroRuns RiscvMacroImmediates RiscvMacroOverflow.

(** ** Deferred comparisons *)

(** What a condition says of two registers, and of a register against zero. *)
Definition compare (c : Condition) (x y : Z) : bool :=
  match c with
  | EQ => x =? y | NE => negb (x =? y)
  | LT => s64 x <? s64 y | LE => s64 x <=? s64 y
  | GT => s64 y <? s64 x | GE => s64 y <=? s64 x
  | CC => x <? y | LS => x <=? y | HI => y <? x | CS => y <=? x
  | _ => false
  end.
Definition comparable (c : Condition) : bool :=
  match c with EQ | NE | LT | LE | GT | GE | CC | LS | HI | CS => true | _ => false end.
Definition test (c : Condition) (x : Z) : bool :=
  match c with EQ => x =? 0 | NE => negb (x =? 0) | _ => false end.
Definition testable (c : Condition) : bool := match c with EQ | NE => true | _ => false end.

(** The comparison an assembler remembers. *)
Definition deferred_holds {P} (a : Assembler P) (c : Condition) (g : regs) : bool :=
  let x := g (deferred_left_ a) in
  match deferred_compare_ a with
  | kCompareReg => compare c x (g (deferred_reg_ a))
  | kCompareImm => compare c x (u64 (deferred_imm_ a))
  | kTestReg => test c (x .& g (deferred_reg_ a))
  | kTestImm => test c (x .& u64 (deferred_imm_ a))
  | kNone => false
  end.

(** The operands of the comparison, and the conditions it is used with. *)
Record deferred_ok {P} (a : Assembler P) (c : Condition) : Prop := {
  deferred_left_reg : is_u 5 (deferred_left_ a) /\ deferred_left_ a <> 0;
  deferred_right_reg : is_u 5 (deferred_reg_ a);
  deferred_constant : match deferred_compare_ a with
    | kCompareImm | kTestImm => deferred_left_ a <> TMP2 /\ constant_ok a (deferred_imm_ a)
    | _ => True
    end;
  deferred_condition : match deferred_compare_ a with
    | kCompareReg | kCompareImm => comparable c = true
    | kTestReg | kTestImm => testable c = true
    | kNone => False
    end
}.

Lemma flag_not b : u64 (u64 (of_bool b) .^ 1) = u64 (of_bool (negb b)).
Proof. by destruct b. Qed.

Lemma is_zero_flag x : is_u 64 x -> of_bool (x <? u64 1) = of_bool (x =? 0).
Proof.
  unfold is_u. intros Hx. change (u64 1) with 1. f_equal. apply eq_true_iff_eq.
  rewrite Z.ltb_lt, Z.eqb_eq. lia.
Qed.
Lemma non_zero_flag x : is_u 64 x -> of_bool (0 <? x) = of_bool (negb (x =? 0)).
Proof.
  unfold is_u. intros Hx. f_equal. apply eq_true_iff_eq.
  rewrite Z.ltb_lt, negb_true_iff, Z.eqb_neq. lia.
Qed.

Lemma xor_word x y : is_u 64 x -> is_u 64 y -> u64 (x .^ y) = x .^ y /\ (x .^ y =? 0) = (x =? y).
Proof.
  intros Hx Hy. split.
  - apply uwrap_small. apply is_u_bits; [lia| |].
    + apply Z.lxor_nonneg. unfold is_u in *. lia.
    + intros i Hi. by rewrite Z.lxor_spec, !(testbit_high 64) by (done || lia).
  - apply eq_true_iff_eq. rewrite !Z.eqb_eq. apply Z.lxor_eq_0_iff.
Qed.

Section Conditions.
Context {P : Type} `{ObjectPool P} (a : Assembler P) (rd left : Z).
Hypothesis (Hd : is_u 5 rd) (Hd0 : rd <> 0) (Hl : is_u 5 left).

Ltac two_steps i j :=
  apply (computes_ext _ (fun a => a ← Macro.ins (assemble i) a; Macro.ins (assemble j) a));
  [reflexivity|]; apply two_instructions_compute; [done..| | |].
Ltac one_step i :=
  apply (computes_ext _ (Macro.ins (assemble i))); [reflexivity|]; apply one_instruction_computes; [done..| |].

(** The flag of a comparison, and its complement. *)
Lemma flag_computes i (b : Assembler P) v rs :
  target i = rd -> operand_ok (supports_compressed b) i = true ->
  (forall g, regs_wf g -> value i g = of_bool (v g)) ->
  computes (Macro.ins (assemble i)) b rd rs (fun g => of_bool (v g)).
Proof. intros Ht Ho Hv. apply one_instruction_computes; try done. intros g Hg. by rewrite Hv. Qed.

Lemma flag_not_computes i (b : Assembler P) v rs :
  target i = rd -> operand_ok (supports_compressed b) i = true ->
  (forall g, regs_wf g -> value i g = of_bool (negb (v g))) ->
  computes (fun b => b ← Macro.ins (assemble i) b; Macro.xori rd rd 1 b) b rd rs
    (fun g => of_bool (v g)).
Proof.
  intros Ht Ho Hv. apply (two_instructions_compute i (Imm XORI rd rd 1)); try done.
  - by apply encodable_imm.
  - intros g Hg. cbn [value iop_sem]. rewrite write_eq, Hv, flag_not by done. by rewrite negb_involutive.
Qed.

Lemma set_compare_computes (b : Assembler P) c right rs :
  comparable c = true -> is_u 5 right ->
  computes (Macro.set_compare c rd left right) b rd rs
    (fun g => of_bool (compare c (g left) (g right))).
Proof.
  intros Hc Hr. destruct c; try discriminate.
  - unfold Macro.set_compare. destruct (right =? Register.ZR) eqn:E; reflect_bool.
    + apply (flag_computes (Imm SLTIU rd left 1)); [done|by apply encodable_imm|]. intros g [Hg Hz].
      cbn [value iop_sem compare]. rewrite E. unfold Register.ZR. rewrite Hz.
      by apply is_zero_flag, Hg.
    + two_steps (Reg XOR rd left right) (Imm SLTIU rd rd 1);
        [by apply encodable_reg|by apply encodable_imm|].
      intros g [Hg _]. cbn [value iop_sem rop_sem compare]. rewrite write_eq by done.
      destruct (xor_word (g left) (g right)) as [Ex Ez]; [by apply Hg..|].
      rewrite is_zero_flag by (by apply uwrap_range). by rewrite Ex, Ez.
  - unfold Macro.set_compare. destruct (right =? Register.ZR) eqn:E; reflect_bool.
    + apply (flag_computes (Reg SLTU rd Register.ZR left)); [done|by apply encodable_reg|].
      intros g [Hg Hz]. cbn [value rop_sem compare]. rewrite E. unfold Register.ZR. rewrite Hz.
      by apply non_zero_flag, Hg.
    + two_steps (Reg XOR rd left right) (Reg SLTU rd Register.ZR rd); [by apply encodable_reg..|].
      intros g [Hg Hz]. cbn [value rop_sem compare]. rewrite write_eq, write_ne by (done || congruence).
      destruct (xor_word (g left) (g right)) as [Ex Ez]; [by apply Hg..|].
      unfold Register.ZR. rewrite Hz, non_zero_flag by (by apply uwrap_range). by rewrite Ex, Ez.
  - apply (flag_not_computes (Reg SLTU rd left right)); [done|by apply encodable_reg|].
    intros g _. cbn. by rewrite Z.ltb_antisym.
  - apply (flag_computes (Reg SLTU rd left right)); [done|by apply encodable_reg|done].
  - apply (flag_computes (Reg SLTU rd right left)); [done|by apply encodable_reg|done].
  - apply (flag_not_computes (Reg SLTU rd right left)); [done|by apply encodable_reg|].
    intros g _. cbn. by rewrite Z.ltb_antisym.
  - apply (flag_not_computes (Reg SLT rd left right)); [done|by apply encodable_reg|].
    intros g _. cbn. by rewrite Z.ltb_antisym.
  - apply (flag_computes (Reg SLT rd left right)); [done|by apply encodable_reg|done].
  - apply (flag_computes (Reg SLT rd right left)); [done|by apply encodable_reg|done].
  - apply (flag_not_computes (Reg SLT rd right left)); [done|by apply encodable_reg|].
    intros g _. cbn. by rewrite Z.ltb_antisym.
Qed.

(** Immediates of 12 bits. *)
Context (imm : Z).
Hypothesis (Hi : IsITypeImm imm = true) (Hi1 : IsITypeImm (imm + 1) = true).

(** The comparisons [SetIf] gets wrong: the negation of -2048 has no 12 bits, and the
    successor of -1 is zero. *)
Definition set_compare_wrong (c : Condition) (imm : Z) : bool :=
  match c with
  | EQ | NE => imm =? -2048
  | LS | HI => imm =? -1
  | _ => false
  end.

Lemma itype_range : -2048 <= imm < 2047.
Proof.
  unfold IsITypeImm in *. rewrite IsInt_intptr in Hi, Hi1 by lia. unfold is_s in *.
  change (2 ^ (12 - 1)) with 2048 in *. lia.
Qed.

Lemma itype_word : s64 (u64 imm) = imm /\
  u64 imm = (if imm <? 0 then imm + 2 ^ 64 else imm) /\
  (imm <> -1 -> u64 (imm + 1) = u64 imm + 1).
Proof.
  pose proof itype_range as Hr.
  assert (E : forall z, -2048 <= z < 2 ^ 63 -> u64 z = if z <? 0 then z + 2 ^ 64 else z).
  { intros z Hz. unfold uwrap. destruct (z <? 0) eqn:E; reflect_bool.
    - replace z with (z + 2 ^ 64 + (-1) * 2 ^ 64) at 1 by lia.
      rewrite Z_mod_plus_full. apply Z.mod_small. lia.
    - apply Z.mod_small. lia. }
  split_and!.
  - rewrite swrap_uwrap. apply swrap_small; [lia|]. unfold is_s. change (2 ^ (64 - 1)) with (2 ^ 63). lia.
  - apply E. lia.
  - intros Hn. rewrite !E by lia. destruct (imm <? 0) eqn:E1, (imm + 1 <? 0) eqn:E2; reflect_bool; lia.
Qed.

Lemma subtract_is_zero x : is_u 64 x -> (u64 (x + - imm) =? 0) = (x =? u64 imm).
Proof.
  intros Hx. apply eq_true_iff_eq. rewrite !Z.eqb_eq.
  rewrite <- (uwrap_small 64 x Hx) at 2. split; intros E.
  - assert (E2 : u64 (x + - imm + imm) = u64 (0 + imm)) by (by rewrite <- (uwrap_add_l 64 (x + - imm)), E).
    by replace (x + - imm + imm) with x in E2 by lia.
  - rewrite <- (uwrap_add_l 64 x), E, uwrap_add_l. by replace (imm + - imm) with 0 by lia.
Qed.

Lemma set_compare_imm_computes (b : Assembler P) c rs :
  comparable c = true -> set_compare_wrong c imm = false ->
  computes (Macro.set_compare_imm c rd left imm) b rd rs
    (fun g => of_bool (compare c (g left) (u64 imm))).
Proof.
  intros Hc Hw. destruct itype_word as (Es & Eu & E1). pose proof itype_range as Hr.
  assert (Hneg : imm <> -2048 -> IsITypeImm (- imm) = true).
  { intros Hn. unfold IsITypeImm. rewrite IsInt_intptr by lia. unfold is_s. change (2 ^ (12 - 1)) with 2048. lia. }
  destruct c; try discriminate; cbn [set_compare_wrong] in Hw; reflect_bool.
  - two_steps (Imm ADDI rd left (- imm)) (Imm SLTIU rd rd 1); [apply encodable_imm; auto|by apply encodable_imm|].
    intros g [Hg _]. cbn [value iop_sem compare]. rewrite write_eq by done.
    rewrite is_zero_flag, subtract_is_zero by (by apply Hg || by apply uwrap_range). done.
  - two_steps (Imm ADDI rd left (- imm)) (Reg SLTU rd Register.ZR rd); [apply encodable_imm; auto|by apply encodable_reg|].
    intros g [Hg Hz]. cbn [value iop_sem rop_sem compare]. rewrite write_eq, write_ne by (done || congruence).
    unfold Register.ZR. rewrite Hz, non_zero_flag, subtract_is_zero by (by apply Hg || by apply uwrap_range). done.
  - apply (flag_not_computes (Imm SLTIU rd left imm)); [done|by apply encodable_imm|].
    intros g _. cbn [value iop_sem compare]. by rewrite Z.ltb_antisym.
  - apply (flag_computes (Imm SLTIU rd left imm)); [done|by apply encodable_imm|done].
  - apply (flag_not_computes (Imm SLTIU rd left (imm + 1))); [done|by apply encodable_imm|].
    intros g _. cbn [value iop_sem compare]. rewrite E1 by done. f_equal.
    apply eq_true_iff_eq. rewrite negb_true_iff, Z.ltb_lt, Z.ltb_ge. lia.
  - apply (flag_computes (Imm SLTIU rd left (imm + 1))); [done|by apply encodable_imm|].
    intros g _. cbn [value iop_sem compare]. rewrite E1 by done. f_equal.
    apply eq_true_iff_eq. rewrite Z.ltb_lt, Z.leb_le. lia.
  - apply (flag_not_computes (Imm SLTI rd left imm)); [done|by apply encodable_imm|].
    intros g _. cbn [value iop_sem compare]. by rewrite Es, Z.ltb_antisym.
  - apply (flag_computes (Imm SLTI rd left imm)); [done|by apply encodable_imm|].
    intros g _. cbn [value iop_sem compare]. by rewrite Es.
  - apply (flag_not_computes (Imm SLTI rd left (imm + 1))); [done|by apply encodable_imm|].
    intros g _. cbn [value iop_sem compare]. rewrite Es. f_equal.
    apply eq_true_iff_eq. rewrite negb_true_iff, Z.ltb_lt, Z.ltb_ge. lia.
  - apply (flag_computes (Imm SLTI rd left (imm + 1))); [done|by apply encodable_imm|].
    intros g _. cbn [value iop_sem compare]. rewrite Es. f_equal.
    apply eq_true_iff_eq. rewrite Z.ltb_lt, Z.leb_le. lia.
Qed.
End Conditions.

(** ** [SetIf] *)

Section SetIf.
Context {P : Type} `{ObjectPool P} (a : Assembler P) (rd : Z) (c : Condition).
Hypothesis (Hd : is_u 5 rd) (Hd0 : rd <> 0).

(** A constant that does not fit into 12 bits is loaded first. *)
Lemma set_compare_loaded (imm left reg : Z) :
  is_u 5 left -> left <> TMP2 -> constant_ok a imm -> comparable c = true ->
  computes (fun a => a ← Macro.LoadImmediate TMP2 imm a;
      Macro.set_compare c rd left TMP2 (Macro.set_deferred kCompareReg left TMP2 imm a))
    a rd [TMP2] (fun g => of_bool (compare c (g left) (u64 imm))).
Proof.
  intros Hl Hl2 Hi Hc. destruct (LoadImmediate_body a TMP2 imm) as (body & He & Hk & _ & Hv); try done.
  apply (computes_seq (Macro.LoadImmediate TMP2 imm) _ a TMP2 rd [] (fun _ => imm)
    (fun g => of_bool (compare c (g left) (g TMP2)))).
  - by apply (emits_computes _ _ body).
  - done.
  - intros b _. eapply (computes_ext _ (fun b => x ← Macro.set_compare c rd left TMP2
      (Macro.set_deferred kCompareReg left TMP2 imm b); Ok x)).
    + by destruct (Macro.set_compare _ _ _ _ _).
    + apply (computes_around _ (fun b => Macro.set_deferred kCompareReg left TMP2 imm b) (fun b => b)); try done.
      by apply set_compare_computes.
  - intros g g' Hg Hg' Et Hf. cbv beta. rewrite Et, (Hf left); [done..|].
    by rewrite list_elem_of_singleton.
Qed.

Lemma and_range x y : is_u 64 x -> is_u 64 (x .& y).
Proof.
  intros Hx. apply is_u_bits; [lia| |].
  - apply Z.land_nonneg. unfold is_u in Hx. lia.
  - intros i Hi. by rewrite Z.land_spec, (testbit_high 64 x) by (done || lia).
Qed.

(** The flag of a register against zero. *)
Lemma set_zero_computes (b : Assembler P) rs :
  testable c = true -> computes (Macro.set_zero c rd) b rd rs (fun g => of_bool (test c (g rd))).
Proof.
  intros Hc. destruct c; try discriminate.
  - apply (flag_computes rd Hd Hd0 (Imm SLTIU rd rd 1)); [done|by apply encodable_imm|].
    intros g [Hg _]. by apply is_zero_flag, Hg.
  - apply (flag_computes rd Hd Hd0 (Reg SLTU rd Register.ZR rd)); [done|by apply encodable_reg|].
    intros g [Hg Hz]. cbn [value rop_sem]. unfold Register.ZR. rewrite Hz. by apply non_zero_flag, Hg.
Qed.

(** A bit in [rd], or its complement. *)
Lemma set_bit_computes i bit (b : Assembler P) rs :
  testable c = true -> target i = rd -> operand_ok (supports_compressed b) i = true ->
  (forall g, regs_wf g -> value i g = of_bool (bit g)) ->
  computes (fun b => b ← Macro.ins (assemble i) b; Macro.set_bit c rd b) b rd rs
    (fun g => of_bool (match c with EQ => negb (bit g) | _ => bit g end)).
Proof.
  intros Hc Ht Ho Hv. destruct c; try discriminate.
  - apply (computes_ext _ (fun b => b ← Macro.ins (assemble i) b; Macro.xori rd rd 1 b)); [reflexivity|].
    apply flag_not_computes; try done. intros g Hg. by rewrite Hv, negb_involutive.
  - apply (computes_ext _ (Macro.ins (assemble i))); [reflexivity|]. by apply flag_computes.
Qed.

Lemma land_bit x n : 0 <= n -> (x .& 2 ^ n =? 0) = negb (Z.testbit x n).
Proof.
  intros Hn. destruct (Z.testbit x n) eqn:E.
  - apply Z.eqb_neq. intros E0. assert (Hb : Z.testbit (x .& 2 ^ n) n = true)
      by (by rewrite Z.land_spec, Z.pow2_bits_true, E). by rewrite E0, Z.bits_0 in Hb.
  - apply Z.eqb_eq, Z.bits_inj'. intros i Hi. rewrite Z.land_spec, Z.bits_0, Z.pow2_bits_eqb by done.
    destruct (n =? i) eqn:E1; [|by rewrite andb_false_r]. reflect_bool. subst. by rewrite E.
Qed.

Lemma test_bit x n : testable c = true -> 0 <= n ->
  test c (x .& 2 ^ n) = match c with EQ => negb (Z.testbit x n) | _ => Z.testbit x n end.
Proof.
  intros Hc Hn. destruct c; try discriminate; cbn [test]; rewrite land_bit by done; [done|].
  by rewrite negb_involutive.
Qed.

Lemma SetIf_computes :
  deferred_ok a c ->
  (deferred_compare_ a = kCompareImm -> set_compare_wrong c (deferred_imm_ a) = false) ->
  computes (Macro.SetIf c rd) a rd [TMP2] (fun g => of_bool (deferred_holds a c g)).
Proof.
  intros Hok Hw. destruct Hok as [(Hl & Hl0) Hr Hi Hc]. unfold deferred_holds.
  set (left := deferred_left_ a) in *. set (imm := deferred_imm_ a) in *. set (reg := deferred_reg_ a) in *.
  assert (Hmain : forall f v, Macro.SetIf c rd a = (f a ≫= fun b => Ok (Macro.consumed b)) ->
    computes f a rd [TMP2] v -> computes (Macro.SetIf c rd) a rd [TMP2] v).
  { intros f v Ef Hf. apply (computes_ext _ (fun a => b ← f a; Ok (Macro.consumed b))); [done|].
    by apply (computes_around f (fun b => b) Macro.consumed). }
  assert (Ef : Macro.SetIf c rd a = Macro.SetIf c rd a) by reflexivity.
  unfold Macro.SetIf in Ef at 2. fold left imm reg in Ef. cbv zeta in Ef.
  destruct (deferred_compare_ a) eqn:Ec; [done| |destruct Hi as [Hl2 Hi]| |destruct Hi as [Hl2 Hi]].
  - apply (Hmain (Macro.set_compare c rd left reg)); [exact Ef|]. by apply set_compare_computes.
  - destruct (imm =? 0) eqn:E0.
    { apply (Hmain (fun a => b ← Macro.set_compare c rd left Register.ZR
        (Macro.set_deferred kCompareReg left Register.ZR imm a); Ok b)).
      - rewrite Ef. by destruct (Macro.set_compare _ _ _ _ _).
      - apply (computes_around _ (fun b => Macro.set_deferred kCompareReg left Register.ZR imm b) (fun b => b));
          try done.
        eapply computes_value; [|by apply set_compare_computes]. intros g [_ Hz]. cbv beta.
        unfold Register.ZR. reflect_bool. by rewrite Hz, E0. }
    destruct (negb (IsITypeImm imm) || negb (IsITypeImm (imm + 1))) eqn:E1.
    { apply (Hmain (fun a => b ← Macro.LoadImmediate TMP2 imm a;
        Macro.set_compare c rd left TMP2 (Macro.set_deferred kCompareReg left TMP2 imm b))); [exact Ef|].
      by apply set_compare_loaded. }
    apply (Hmain (Macro.set_compare_imm c rd left imm)); [exact Ef|].
    apply orb_false_iff in E1 as [E1 E2].
    apply negb_false_iff in E1, E2. apply set_compare_imm_computes; auto.
  - apply (Hmain (fun a => b ← Macro.and_ rd left reg a; Macro.set_zero c rd b)); [exact Ef|].
    eapply (computes_mono _ _ _ [rd]); [intros r; rewrite list_elem_of_singleton; intros ->; by left|].
    apply (computes_seq _ _ a rd rd [] (fun g => g left .& g reg) (fun g => of_bool (test c (g rd)))); [|done| |].
    + apply (one_instruction_computes (Reg AND rd left reg)); try done. by apply encodable_reg.
    + intros b _. by apply set_zero_computes.
    + intros g g' [Hg _] _ Et _. cbv beta. rewrite Et. by rewrite (uwrap_small 64 (g left .& g reg)) by (apply and_range; by apply Hg).
  - destruct (imm =? 1) eqn:E1.
    { apply (Hmain (fun a => b ← Macro.ins (assemble (Imm ANDI rd left 1)) a; Macro.set_bit c rd b)); [exact Ef|].
      eapply computes_value; [|apply (set_bit_computes _ (fun g => Z.testbit (g left) 0)); [done..| |]].
      - intros g _. cbv beta. reflect_bool. rewrite E1. change (u64 1) with (2 ^ 0). by rewrite test_bit.
      - by apply encodable_imm.
      - intros g _. cbn [value iop_sem]. change 1 with (Z.ones 1).
        rewrite Z.land_ones by lia. change (2 ^ 1) with 2. rewrite <- Z.bit0_mod. by destruct (Z.testbit _ _). }
    destruct (Macro.Supports a Extension.RV_Zbs && IsPowerOfTwo (u64 imm)) eqn:EB.
    { apply andb_true_iff in EB as [_ EB].
      destruct (power_of_two _ (uwrap_range 64 imm ltac:(lia)) EB) as [Hn En].
      set (n := ShiftForPowerOfTwo (u64 imm)) in *.
      apply (Hmain (fun a => b ← Macro.ins (assemble (Shift BEXTI rd left n)) a; Macro.set_bit c rd b)); [exact Ef|].
      eapply computes_value; [|apply (set_bit_computes _ (fun g => Z.testbit (g left) n)); [done..| |]].
      - intros g _. cbv beta. rewrite En, test_bit by (done || lia). done.
      - by apply encodable_shift.
      - intros g _. cbn [value shop_sem]. by destruct (Z.testbit _ _). }
    apply (Hmain (fun a => b ← Macro.AndImmediate rd left imm kWordBytes a; Macro.set_zero c rd b)); [exact Ef|].
    eapply (computes_mono _ _ _ [rd; TMP2]); [intros r; rewrite !elem_of_cons; tauto|].
    apply (computes_seq _ _ a rd rd [TMP2] (fun g => g left .& imm) (fun g => of_bool (test c (g rd)))); [|done| |].
    + by apply AndImmediate_computes.
    + intros b _. by apply set_zero_computes.
    + intros g g' [Hg _] _ Et _. cbv beta.
      rewrite Et, (uwrap_small 64 (g left .& imm)) by (apply and_range; by apply Hg). by rewrite land_word by (by apply Hg).
Qed.
End SetIf.

(** ** [BranchIf] *)

Section BranchIf.
Context {P : Type} `{ObjectPool P} (a : Assembler P) (c : Condition).

(** A macro that changes the buffer only. *)
Definition code_only (f : Assembler P -> asm_result (Assembler P)) (a : Assembler P) : Prop :=
  forall b, f a = Ok b -> b = Macro.set_micro (micro b) a.

Lemma AndImmediate_code_only rd rs1 imm :
  constant_ok a imm -> code_only (fun a => Macro.AndImmediate rd rs1 imm kWordBytes a) a.
Proof.
  intros Hi. destruct (LoadImmediate_body a TMP2 imm) as (body & He & _); try done.
  intros b E. rewrite (AndImmediate_word a rd rs1 imm Hi), (emits_code _ _ _ He) in E. cbv zeta in E.
  unfold Macro.MoveRegister, Macro.ExtendValue in E. cbn [kWordBytes] in E.
  repeat case_match; injection E as <-; first [reflexivity|by destruct a].
Qed.

(** The branch instruction of a condition. *)
Definition branch_of (left right : Z) : bop * Z * Z :=
  match c with
  | NE => (BNE, left, right)
  | LT => (BLT, left, right) | LE => (BGE, right, left)
  | GE => (BGE, left, right) | GT => (BLT, right, left)
  | CC => (BLTU, left, right) | LS => (BGEU, right, left)
  | CS => (BGEU, left, right) | HI => (BLTU, right, left)
  | _ => (BEQ, left, right)
  end.

Lemma branch_compare_method left right label d (b : Assembler P) :
  comparable c = true ->
  Macro.branch_compare c left right label d b
  = Macro.to_label (branch_method (branch_of left right).1.1 (branch_of left right).1.2
      (branch_of left right).2 label d) b /\
  forall g : regs, bop_sem (branch_of left right).1.1 (g (branch_of left right).1.2)
    (g (branch_of left right).2) = compare c (g left) (g right).
Proof.
  intros Hc. unfold branch_of. destruct c; try discriminate; (split; [reflexivity|]);
    intros g; cbn [fst snd bop_sem compare]; try done; by rewrite <- Z.leb_antisym.
Qed.

Lemma branch_of_regs left right :
  is_u 5 left -> is_u 5 right ->
  is_u 5 (branch_of left right).1.2 /\ is_u 5 (branch_of left right).2.
Proof. intros. unfold branch_of. by destruct c. Qed.

Definition zero_branch : bop := match c with NE => BNE | _ => BEQ end.
Definition sign_branch : bop := match c with NE => BLT | _ => BGE end.

Lemma branch_zero_method rs label d (b : Assembler P) :
  testable c = true ->
  Macro.branch_zero c rs label d b = Macro.to_label (branch_method zero_branch rs Register.ZR label d) b /\
  forall x, bop_sem zero_branch x 0 = test c x.
Proof. intros Hc. unfold zero_branch. destruct c; try discriminate; by split. Qed.

Lemma branch_sign_method rs label d (b : Assembler P) :
  testable c = true ->
  Macro.branch_sign c rs label d b = Macro.to_label (branch_method sign_branch rs Register.ZR label d) b /\
  forall x, bop_sem sign_branch x 0 = match c with EQ => negb (s64 x <? 0) | _ => s64 x <? 0 end.
Proof. intros Hc. unfold sign_branch. destruct c; try discriminate; by split. Qed.

(** Consuming the comparison after a branch. *)
Lemma consumed_branch op r1 r2 label d (b : Assembler P) :
  b = Macro.set_micro (micro b) a ->
  ('(l, b') ← Macro.to_label (branch_method op r1 r2 label d) b; Ok (l, Macro.consumed b'))
  = ('(l, m) ← branch_method op r1 r2 label d (micro b); Ok (l, Macro.set_micro m (Macro.consumed a))).
Proof.
  intros ->. unfold Macro.to_label. cbn [micro Macro.set_micro].
  by destruct (branch_method _ _ _ _ _ _) as [[l m]|].
Qed.

(** A comparison that emits the branch only. *)
Lemma plain_branch f d op r1 r2 cond :
  is_u 5 r1 -> is_u 5 r2 ->
  (forall l, f l a = ('(l, a1) ← Macro.to_label (branch_method op r1 r2 l d) a; Ok (l, Macro.consumed a1))) ->
  (forall g, regs_wf g -> bop_sem op (g r1) (g r2) = cond g) ->
  branches f d a (Macro.consumed a) [TMP2] [] cond.
Proof.
  intros H1 H2 Hf Hv. apply (emits_branches _ _ _ _ [] op r1 r2); try done.
  - intros l. rewrite Hf. apply consumed_branch. by destruct a.
  - solve_keeps.
  - intros g Hg. split; [constructor|by apply Hv].
Qed.

(** A comparison that computes in [TMP2] first. *)
Lemma computed_branch f h d op r1 r2 v cond :
  computes f a TMP2 [] v \/ computes f a TMP2 [TMP2] v -> code_only f a ->
  (forall l, h l a = ('(l, a1) ← (a1 ← f a; Macro.to_label (branch_method op r1 r2 l d) a1);
    Ok (l, Macro.consumed a1))) ->
  (forall g g', regs_wf g -> regs_wf g' -> g' TMP2 = u64 (v g) ->
    (forall r, is_u 5 r -> r <> TMP2 -> g' r = g r) -> bop_sem op (g' r1) (g' r2) = cond g) ->
  branches h d a (Macro.consumed a) [TMP2] [] cond.
Proof.
  intros Hf Hc Hh Hv. assert (Hf' : computes f a TMP2 [] v).
  { destruct Hf as [Hf|Hf]; [done|]. eapply computes_mono; [|exact Hf].
    intros r Hr. exact Hr. }
  apply (computes_branches f h d a _ TMP2 [] v op r1 r2); [done| |].
  - intros b l Eb. rewrite Hh, Eb. cbn [mbind result_bind]. apply consumed_branch. by apply Hc.
  - intros g g' Hg Hg' Et Hr. apply Hv; try done. intros r Hu Hn. apply Hr; [done|].
    by rewrite list_elem_of_singleton.
Qed.

(** A test of [TMP2] against zero. *)
Lemma tested_branch f h d v w :
  computes f a TMP2 [] v \/ computes f a TMP2 [TMP2] v -> code_only f a -> testable c = true ->
  (forall l, h l a = ('(l, a1) ← (a1 ← f a; Macro.branch_zero c TMP2 l d a1); Ok (l, Macro.consumed a1))) ->
  (forall g, regs_wf g -> u64 (v g) = w g) ->
  branches h d a (Macro.consumed a) [TMP2] [] (fun g => test c (w g)).
Proof.
  intros Hf Ho Hc Hh Hv.
  apply (computed_branch f h d zero_branch TMP2 Register.ZR v); [done..| |].
  - intros l. rewrite Hh. destruct (f a) as [a1|]; [|done]. cbn [mbind result_bind].
    by rewrite (proj1 (branch_zero_method TMP2 l d _ Hc)).
  - intros g g' Hg [_ Hz] Et _. unfold Register.ZR.
    by rewrite Hz, (proj2 (branch_zero_method TMP2 Lbl.new d a Hc)), Et, Hv.
Qed.

(** The sign of a register that a bit was shifted into. *)
Lemma shifted_sign x n : is_u 64 x -> 0 <= n < 64 ->
  (s64 (u64 (x * 2 ^ (63 - n))) <? 0) = Z.testbit x n.
Proof.
  intros Hx Hn. rewrite sign_bit by (by apply uwrap_range). rewrite testbit_uwrap by lia.
  cbn [Z.ltb]. rewrite Z.mul_pow2_bits by lia. by replace (63 - (63 - n)) with n by lia.
Qed.

Lemma bit_branch h d imm left :
  testable c = true -> is_u 5 left -> IsPowerOfTwo (u64 imm) = true ->
  let n := ShiftForPowerOfTwo (u64 imm) in
  (forall l, h l a = ('(l, a1) ←
    (if n =? XLEN - 1 then Macro.branch_sign c left l d a
     else a1 ← Macro.slli TMP2 left (XLEN - 1 - n) a; Macro.branch_sign c TMP2 l d a1);
    Ok (l, Macro.consumed a1))) ->
  branches h d a (Macro.consumed a) [TMP2] [] (fun g => test c (g left .& u64 imm)).
Proof.
  intros Hc Hl EP n Hh. destruct (power_of_two _ (uwrap_range 64 imm ltac:(lia)) EP) as [Hn En].
  fold n in Hn, En. rewrite En. unfold XLEN in Hh. destruct (n =? 64 - 1) eqn:E63.
  - apply (plain_branch h d sign_branch left Register.ZR); [done..| |].
    + intros l. rewrite Hh. by rewrite (proj1 (branch_sign_method left l d _ Hc)).
    + intros g [Hg Hz]. unfold Register.ZR.
      rewrite Hz, (proj2 (branch_sign_method left Lbl.new d a Hc)), test_bit, sign_bit by (done || lia || by apply Hg).
      reflect_bool. by rewrite E63.
  - reflect_bool. apply (computed_branch (Macro.slli TMP2 left (64 - 1 - n)) h d sign_branch TMP2 Register.ZR
      (fun g => g left * 2 ^ (63 - n))).
    + left. apply (one_instruction_computes (Shift SLLI TMP2 left (64 - 1 - n))); try done.
      apply encodable_shift; try done. cbn [shop_limit]. lia.
    + intros b' Eb. by injection Eb as <-.
    + intros l. rewrite Hh. cbn [mbind result_bind Macro.slli Macro.ins].
      by rewrite (proj1 (branch_sign_method TMP2 l d _ Hc)).
    + intros g g' [Hg _] [_ Hz] Et _. unfold Register.ZR.
      rewrite Hz, (proj2 (branch_sign_method TMP2 Lbl.new d a Hc)), Et, test_bit, shifted_sign
        by (done || lia || by apply Hg). done.
Qed.

Lemma BranchIf_branches d :
  deferred_ok a c ->
  branches (fun l => Macro.BranchIf c l d) d a (Macro.consumed a) [TMP2] [] (deferred_holds a c).
Proof.
  intros [(Hl & Hl0) Hr Hi Hc]. unfold deferred_holds.
  set (left := deferred_left_ a) in *. set (imm := deferred_imm_ a) in *. set (reg := deferred_reg_ a) in *.
  assert (Ef : forall l, Macro.BranchIf c l d a = Macro.BranchIf c l d a) by reflexivity.
  unfold Macro.BranchIf in Ef at 2. fold left imm reg in Ef. cbv zeta in Ef.
  assert (Hm : comparable c = true -> forall right l b, _) by exact (fun Hc right l b =>
    branch_compare_method left right l d b Hc).
  destruct (deferred_compare_ a) eqn:Ec; [done| |destruct Hi as [Hl2 Hi]| |destruct Hi as [Hl2 Hi]]; try specialize (Hm Hc).
  - destruct (branch_of_regs left reg) as [B1 B2]; [done..|].
    eapply plain_branch; [exact B1|exact B2|intros l; rewrite Ef, (proj1 (Hm reg l a)); reflexivity|].
    intros g _. apply (Hm reg Lbl.new a).
  - destruct (imm =? 0) eqn:E0.
    + destruct (branch_of_regs left Register.ZR) as [B1 B2]; [done..|].
      eapply plain_branch; [exact B1|exact B2|intros l; rewrite Ef, (proj1 (Hm Register.ZR l a)); reflexivity|].
      intros g [_ Hg]. rewrite (proj2 (Hm Register.ZR Lbl.new a) g). unfold Register.ZR.
      reflect_bool. by rewrite Hg, E0.
    + destruct (LoadImmediate_body a TMP2 imm) as (body & He & Hk & _ & Hv); try done.
      eapply (computed_branch (Macro.LoadImmediate TMP2 imm) _ _ _ _ _ (fun _ => imm)).
      * left. by apply (emits_computes _ _ body).
      * intros b' Eb. rewrite (emits_code _ _ _ He) in Eb. by injection Eb as <-.
      * intros l. rewrite Ef, (emits_code _ _ _ He). cbn [mbind result_bind].
        rewrite (proj1 (Hm TMP2 l _)). reflexivity.
      * intros g g' Hg Hg' Et Hf. rewrite (proj2 (Hm TMP2 Lbl.new a) g'). by rewrite Et, Hf.
  - apply (tested_branch (Macro.and_ TMP2 left reg) _ _ (fun g => g left .& g reg)); try done.
    + left. apply (one_instruction_computes (Reg AND TMP2 left reg)); try done. by apply encodable_reg.
    + intros b' Eb. by injection Eb as <-.
    + intros g [Hg _]. apply uwrap_small, and_range. by apply Hg.
  - assert (Hw : forall g, regs_wf g -> u64 (g left .& imm) = g left .& u64 imm).
    { intros g [Hg _]. rewrite land_word by (by apply Hg). apply uwrap_small, and_range. by apply Hg. }
    destruct (IsITypeImm imm) eqn:EI; [|destruct (IsPowerOfTwo (u64 imm)) eqn:EP].
    + apply (tested_branch (Macro.andi TMP2 left imm) _ _ (fun g => g left .& imm)); try done.
      * left. apply (one_instruction_computes (Imm ANDI TMP2 left imm)); try done. by apply encodable_imm.
      * intros b' Eb. by injection Eb as <-.
    + by apply bit_branch.
    + apply (tested_branch (fun a => Macro.AndImmediate TMP2 left imm kWordBytes a) _ _ (fun g => g left .& imm));
        try done.
      * right. by apply AndImmediate_computes.
      * by apply AndImmediate_code_only.
Qed.
End BranchIf.
