(* ===== verification/RiscvMacroCorrect.v ===== *)
(** * The macro-assembler is correct

    The theorems on the macros: constants, arithmetic with immediates, comparisons,
    overflow and hashes. *)

From S2P Require Import Prelude Utils RiscvConstants RiscvEncoding RiscvAssembler RiscvLabels.
From S2P Require Import SimMemory RiscvSimulator RiscvIsa RiscvDecode RiscvInterpret RiscvTables.
From S2P Require Import RiscvBranches RiscvJumps RiscvCorrect RiscvEmit RiscvPrograms RiscvMacro.
From S2P Require Import RiscvMacroRuns RiscvMacroImmediates RiscvMacroOverflow RiscvMacroConditions.

(** ** Hashes in 32-bit arithmetic *)

Lemma u32_word x : u32 (u64 x) = u32 x.
Proof. by apply uwrap_le. Qed.

(** A hash in a register is sign extended. *)
Lemma u32_hash h : is_u 32 h -> u32 (u64 (s32 h)) = h.
Proof. intros Hh. rewrite u32_word, uwrap_swrap by lia. by apply uwrap_small. Qed.

(** [hash + other]. *)
Lemma hash_add x y : s32 (x + y) = s32 (u32 (u32 x + u32 y)).
Proof. by rewrite swrap_uwrap, swrap_add_l, swrap_add_r. Qed.

(** [hash += hash << n]. *)
Lemma hash_mix x n : 0 <= n ->
  s32 (x + u64 (s32 (x * 2 ^ n))) = s32 (u32 (u32 x + u32 (u32 x ≪ n))).
Proof.
  intros Hn. rewrite hash_add, u32_word, uwrap_swrap, Z.shiftl_mul_pow2 by lia.
  by rewrite uwrap_mul_l.
Qed.

(** [hash ^= hash >> n]. *)
Lemma hash_fold h n : is_u 32 h -> 0 < n < 32 ->
  u64 (u64 (s32 h) .^ u64 (s32 (u32 (u64 (s32 h)) / 2 ^ n))) = u64 (s32 (h .^ (h ≫ n))).
Proof.
  intros Hh Hn. rewrite u32_hash by done. rewrite <- Z.shiftr_div_pow2 by lia.
  apply uwrap_bit_ext; [lia|]. intros i Hi.
  rewrite Z.lxor_spec, !testbit_uwrap, !testbit_swrap, Z.lxor_spec by lia.
  by rewrite (proj2 (Z.ltb_lt i 64)) by lia.
Qed.

Lemma fold_range h n : is_u 32 h -> 0 < n -> is_u 32 (h .^ (h ≫ n)).
Proof.
  intros Hh Hn. apply is_u_bits; [lia| |].
  - apply Z.lxor_nonneg. rewrite Z.shiftr_nonneg. unfold is_u in Hh. lia.
  - intros i Hi. by rewrite Z.lxor_spec, Z.shiftr_spec, !(testbit_high 32 h) by (done || lia).
Qed.

Section Hashes.
Context {P : Type} `{ObjectPool P} (a : Assembler P) (hash other : Z).
Hypothesis (Hh : is_u 5 hash) (Hh0 : hash <> 0) (Ho : is_u 5 other) (Ho0 : other <> 0)
  (Hne : hash <> other).

Lemma CombineHashes_computes :
  computes (Macro.CombineHashes hash other) a hash [other]
    (fun g => s32 (Hash.CombineHashes (u32 (g hash)) (u32 (g other)))).
Proof.
  apply (emits_computes _ _ [Reg ADDW hash hash other; Shift SLLIW other hash 10;
    Reg ADDW hash hash other; Shift SRLIW other hash 6; Reg XOR hash hash other]); [split| |done|].
  - reflexivity.
  - cbn [forallb]. rewrite !encodable_reg, !encodable_shift by done. done.
  - solve_keeps.
  - intros g Hg. run_regs. unfold Hash.CombineHashes. rewrite (hash_add (g hash) (g other)).
    set (h1 := u32 (u32 (g hash) + u32 (g other))).
    assert (H1 : is_u 32 h1) by (by apply uwrap_range).
    rewrite hash_mix, u32_hash by (done || lia). set (h2 := u32 (h1 + u32 (h1 ≪ 10))).
    apply hash_fold; [by apply uwrap_range|lia].
Qed.

(** [FinalizeHashForSize] up to the mask. *)
Definition mixed (h : Z) : Z :=
  let h := u32 (h + u32 (h ≪ 3)) in
  let h := h .^ (h ≫ 11) in
  u32 (h + u32 (h ≪ 15)).

Lemma mix_computes :
  computes (fun a =>
      a ← Macro.slliw other hash 3 a; a ← Macro.addw hash hash other a;
      a ← Macro.srliw other hash 11 a; a ← Macro.xor_ hash hash other a;
      a ← Macro.slliw other hash 15 a; Macro.addw hash hash other a)
    a hash [other] (fun g => s32 (mixed (u32 (g hash)))).
Proof.
  apply (emits_computes _ _ [Shift SLLIW other hash 3; Reg ADDW hash hash other;
    Shift SRLIW other hash 11; Reg XOR hash hash other;
    Shift SLLIW other hash 15; Reg ADDW hash hash other]); [split| |done|].
  - reflexivity.
  - cbn [forallb]. rewrite !encodable_reg, !encodable_shift by done. done.
  - solve_keeps.
  - intros g Hg. run_regs. unfold mixed. rewrite (hash_mix (g hash) 3) by lia.
    set (h1 := u32 (u32 (g hash) + u32 (u32 (g hash) ≪ 3))).
    assert (H1 : is_u 32 h1) by (by apply uwrap_range).
    rewrite hash_fold by (done || lia). rewrite hash_mix, u32_hash by (lia || apply fold_range; done || lia).
    done.
Qed.

(** [(hash == 0) ? 1 : hash]. *)
Lemma avoid_zero_computes (b : Assembler P) :
  computes (fun a => a ← Macro.seqz other hash a; Macro.add hash hash other a) b hash [other]
    (fun g => if g hash =? 0 then 1 else g hash).
Proof.
  apply (emits_computes _ _ [Imm SLTIU other hash 1; Reg ADD hash hash other]); [split| |done|].
  - reflexivity.
  - cbn [forallb]. by rewrite encodable_imm, encodable_reg.
  - solve_keeps.
  - intros g [Hg _]. run_regs. rewrite is_zero_flag by (by apply Hg).
    destruct (g hash =? 0) eqn:E; reflect_bool; cbn [of_bool]; [by rewrite E|].
    change (u64 0) with 0. by rewrite Z.add_0_r.
Qed.

Definition mask (bit_size : Z) (b : Assembler P) : asm_result (Assembler P) :=
  if bit_size <? 32 then Macro.AndImmediate hash hash ((1 ≪ bit_size) - 1) kWordBytes b else Ok b.

Lemma mask_computes bit_size (b : Assembler P) :
  0 < bit_size <= 32 -> hash <> TMP2 -> constant_pool_allowed_ b = false ->
  computes (mask bit_size) b hash [TMP2]
    (fun g => if bit_size <? 32 then g hash .& (2 ^ bit_size - 1) else g hash).
Proof.
  intros Hb Ht Hc. destruct (bit_size <? 32) eqn:E; reflect_bool.
  - apply (computes_ext _ (fun b => Macro.AndImmediate hash hash ((1 ≪ bit_size) - 1) kWordBytes b)).
    { unfold mask. by rewrite (proj2 (Z.ltb_lt bit_size 32)). }
    rewrite Z.shiftl_1_l. apply AndImmediate_computes; try done. split; [|done].
    assert (2 ^ 0 < 2 ^ bit_size) by (apply Z.pow_lt_mono_r; lia).
    assert (2 ^ bit_size <= 2 ^ 32) by (apply Z.pow_le_mono_r; lia). lia.
  - apply (computes_ext _ Ok); [unfold mask; by rewrite (proj2 (Z.ltb_ge bit_size 32))|].
    by apply nothing_computes.
Qed.

(** Code leaves the permission to use the pool alone. *)
Lemma mix_pool (b : Assembler P) :
  (a ← Macro.slliw other hash 3 a; a ← Macro.addw hash hash other a;
   a ← Macro.srliw other hash 11 a; a ← Macro.xor_ hash hash other a;
   a ← Macro.slliw other hash 15 a; Macro.addw hash hash other a) = Ok b ->
  constant_pool_allowed_ b = constant_pool_allowed_ a.
Proof. intros E. by injection E as <-. Qed.

Lemma masked_value bit_size h :
  0 < bit_size <= 32 -> is_u 32 h ->
  u64 (let x := u64 (if bit_size <? 32 then u64 (s32 h) .& (2 ^ bit_size - 1) else u64 (s32 h)) in
       if x =? 0 then 1 else x)
  = u64 (s32 (let x := if bit_size <? 32 then h .& (u32 (1 ≪ bit_size) - 1) else h in
              if x =? 0 then 1 else x)).
Proof.
  intros Hb Hr. cbv zeta. destruct (bit_size <? 32) eqn:E; reflect_bool.
  - assert (Hp31 : 2 ^ bit_size <= 2 ^ 31) by (apply Z.pow_le_mono_r; lia).
    assert (Eo : 2 ^ bit_size - 1 = Z.ones bit_size) by (rewrite Z.ones_equiv; lia).
    rewrite Z.shiftl_1_l, (uwrap_small 32 (2 ^ bit_size)) by (unfold is_u; pose proof (pow2_pos bit_size); lia).
    rewrite Eo, !Z.land_ones by lia.
    change (u64 (s32 h) mod 2 ^ bit_size) with (uwrap bit_size (u64 (s32 h))).
    change (h mod 2 ^ bit_size) with (uwrap bit_size h).
    assert (Ey : uwrap bit_size (u64 (s32 h)) = uwrap bit_size h).
    { rewrite <- (u32_hash h) at 2 by done. symmetry. apply uwrap_le. lia. }
    rewrite Ey. pose proof (uwrap_range bit_size h ltac:(lia)) as Hy. set (y := uwrap bit_size h) in *.
    rewrite (uwrap_small 64 y) by (unfold is_u; lia).
    destruct (y =? 0); [done|]. rewrite swrap_small; [done|lia|].
    unfold is_s. change (2 ^ (32 - 1)) with (2 ^ 31). lia.
  - rewrite uwrap_uwrap. assert (Ez : (u64 (s32 h) =? 0) = (h =? 0)).
    { apply eq_true_iff_eq. rewrite !Z.eqb_eq. split; [|by intros ->].
      intros E0. by rewrite <- (u32_hash h), E0. }
    rewrite Ez. destruct (h =? 0); [done|]. by rewrite uwrap_uwrap.
Qed.

Lemma FinalizeHash_computes bit_size :
  0 < bit_size <= 32 -> hash <> TMP2 -> constant_pool_allowed_ a = false ->
  computes (Macro.FinalizeHashForSize bit_size hash other) a hash [other; TMP2]
    (fun g => s32 (Hash.FinalizeHash (u32 (g hash)) bit_size)).
Proof.
  intros Hb Ht Hc.
  eapply (computes_ext _ (fun a => b ← (fun a =>
      a ← Macro.slliw other hash 3 a; a ← Macro.addw hash hash other a;
      a ← Macro.srliw other hash 11 a; a ← Macro.xor_ hash hash other a;
      a ← Macro.slliw other hash 15 a; Macro.addw hash hash other a) a;
    (fun b => b1 ← mask bit_size b; (fun a => a ← Macro.seqz other hash a; Macro.add hash hash other a) b1) b));
    [reflexivity|].
  eapply (computes_mono _ _ _ (hash :: [other] ++ hash :: [TMP2] ++ [other]));
    [intros r; cbn [app]; rewrite !elem_of_cons; tauto|].
  eapply computes_seq_app; [apply mix_computes|done| |].
  - intros b Eb. apply mix_pool in Eb. rewrite Hc in Eb.
    apply (computes_seq_app (mask bit_size) _ b hash hash [TMP2] [other]
      (fun g => if bit_size <? 32 then g hash .& (2 ^ bit_size - 1) else g hash)
      (fun g => if g hash =? 0 then 1 else g hash)
      (fun g => let x := u64 (if bit_size <? 32 then g hash .& (2 ^ bit_size - 1) else g hash) in
                if x =? 0 then 1 else x)).
    + by apply mask_computes.
    + done.
    + intros b1 _. apply avoid_zero_computes.
    + intros g g' _ _ Eg _. cbv beta zeta. by rewrite Eg.
  - intros g g' _ _ Eg _. cbv beta in Eg |- *. rewrite Eg. apply masked_value; [done|].
    by apply uwrap_range.
Qed.
End Hashes.

(** ** The theorems *)

Section Claims.
Context {P : Type} `{ObjectPool P} (a : Assembler P).

(** C10: Comparisons. The remembered comparison is one of a register other than x0 with a
    register or a constant, under any of the ten conditions on integers, or a test of
    its bits for zero or not. A constant is below 2^63 - 2^11, the constant pool is then
    not allowed, and the register is then not TMP2, into which [BranchIf] and [SetIf]
    load the constant without an assertion. [SetIf] into a register other than x0 leaves
    the truth of the comparison in it, but for equality with -2048 and the unsigned
    comparisons with -1 of [set_compare_wrong], which it gets wrong; [BranchIf] emits a
    branch that is taken when the comparison holds; both change no other register but
    TMP2 and forget the comparison. *)
Theorem comparisons c :
  deferred_ok a c ->
  (forall rd, is_u 5 rd -> rd <> 0 ->
    (deferred_compare_ a = kCompareImm -> set_compare_wrong c (deferred_imm_ a) = false) ->
    computes (Macro.SetIf c rd) a rd [TMP2] (fun g => of_bool (deferred_holds a c g)) /\
    forall b, Macro.SetIf c rd a = Ok b -> deferred_compare_ b = kNone) /\
  forall d, branches (fun l => Macro.BranchIf c l d) d a (Macro.consumed a) [TMP2] []
    (deferred_holds a c).
Proof.
  intros Hok. split; [|intros d; by apply BranchIf_branches].
  intros rd Hd Hd0 Hw. split; [by apply SetIf_computes|].
  intros b Eb. unfold Macro.SetIf in Eb. apply bind_Ok_inv in Eb as (b1 & _ & Eb). by injection Eb as <-.
Qed.

Definition scratch_free (r : Z) : Prop := is_u 5 r /\ r <> 0 /\ r <> TMP /\ r <> TMP2.

(** C11: Overflow. For registers other than x0, TMP and TMP2, and constants below 2^63 - 2^11
    without the constant pool, the macros leave the wrapped result in the destination
    and branch exactly when the exact result is not a signed 64-bit number: addition and
    multiplication of registers however they coincide, multiplication by a constant,
    subtraction for three distinct registers only, and addition of a constant other than
    zero when the destination is not the operand or the constant has 12 bits. For other
    subtractions and additions the branch can be wrong: 5 - 3 in place, and -1 + 5000 in
    place. *)
Theorem overflow_branches rd rs1 rs2 imm :
  scratch_free rd -> scratch_free rs1 -> scratch_free rs2 -> constant_ok a imm ->
  branches (Macro.AddBranchOverflow rd rs1 rs2) kFarJump a a [rd; TMP; TMP2]
    [(rd, fun g => g rs1 + g rs2)] (fun g => overflows (s64 (g rs1) + s64 (g rs2))) /\
  branches (Macro.MultiplyBranchOverflow rd rs1 rs2) kFarJump a a [rd; TMP; TMP2]
    [(rd, fun g => g rs1 * g rs2)] (fun g => overflows (s64 (g rs1) * s64 (g rs2))) /\
  (rd <> rs1 -> rd <> rs2 -> rs1 <> rs2 ->
   branches (Macro.SubtractBranchOverflow rd rs1 rs2) kFarJump a a [rd; TMP; TMP2]
     [(rd, fun g => g rs1 - g rs2)] (fun g => overflows (s64 (g rs1) - s64 (g rs2)))) /\
  branches (Macro.MultiplyImmediateBranchOverflow rd rs1 imm) kFarJump a a [rd; TMP; TMP2]
    [(rd, fun g => g rs1 * imm)] (fun g => overflows (s64 (g rs1) * imm)) /\
  (imm <> 0 -> rd <> rs1 \/ IsITypeImm imm = true ->
   branches (Macro.AddImmediateBranchOverflow rd rs1 imm) kFarJump a a [rd; TMP; TMP2]
     [(rd, fun g => g rs1 + imm)] (fun g => overflows (s64 (g rs1) + imm))).
Proof.
  intros (? & ? & ? & ?) (? & ? & ? & ?) (? & ? & ? & ?) Hi. split_and!.
  - by apply AddBranchOverflow_branches.
  - by apply MultiplyBranchOverflow_branches.
  - intros. by apply SubtractBranchOverflow_branches.
  - by apply (MultiplyImmediateBranchOverflow_branches a rd rs1).
  - intros. by apply (AddImmediateBranchOverflow_branches a rd rs1 rs2).
Qed.

(** C31: Constants, arithmetic and hashes. The constants are 64-bit ones below 2^63 - 2^11
    and the constant pool is not allowed; above, the subtraction of the low part
    overflows. The code of [LoadImmediate] leaves the constant in a register other than
    x0, changes nothing else, and has at most eight instructions. For an operand other
    than x0 and the scratch registers and a destination other than x0, the macros with
    an immediate leave the sum, conjunction, disjunction, exclusive disjunction or (for
    a constant other than -2^63) product of the operand and the constant, on whole
    words, in the destination and lose one scratch register at most. [ExtendValue]
    extends the low bits when the destination is the operand or the extension with an
    instruction for the size is there; otherwise it keeps the wrong bits. For a hash of
    1 to 32 bits in a register other than x0 and TMP2 and another register that is not
    x0, the code of [CombineHashes] and [FinalizeHashForSize] computes what the
    functions of the runtime with which they are to be kept in sync compute, sign
    extended. *)
Theorem arithmetic_macros :
  (forall reg imm,
    is_u 5 reg -> reg <> 0 -> constant_ok a imm ->
    computes (Macro.LoadImmediate reg imm) a reg [] (fun _ => imm) /\
    exists body, Macro.LoadImmediate reg imm a = Ok (appended body a) /\ (length body <= 8)%nat) /\
  (forall rd rs1 imm,
    is_u 5 rd -> rd <> 0 -> is_u 5 rs1 -> rs1 <> 0 -> rs1 <> TMP -> rs1 <> TMP2 ->
    constant_ok a imm ->
    computes (Macro.AddImmediate rd rs1 imm) a rd [TMP2] (fun g => g rs1 + imm) /\
    computes (Macro.AndImmediate rd rs1 imm kWordBytes) a rd [TMP2] (fun g => g rs1 .& imm) /\
    computes (Macro.OrImmediate rd rs1 imm) a rd [TMP2] (fun g => g rs1 .| imm) /\
    computes (Macro.XorImmediate rd rs1 imm) a rd [TMP2] (fun g => g rs1 .^ imm) /\
    (imm <> - 2 ^ 63 ->
     computes (Macro.MulImmediate rd rs1 imm kWordBytes) a rd [TMP] (fun g => g rs1 * imm)) /\
    forall sz, extendable sz = true -> (needs_shifts a sz = true -> rd = rs1) ->
      computes (Macro.ExtendValue rd rs1 sz) a rd [] (fun g => extend sz (g rs1))) /\
  (forall hash other bit_size,
    is_u 5 hash -> hash <> 0 -> hash <> TMP2 -> is_u 5 other -> other <> 0 -> hash <> other ->
    0 < bit_size <= 32 -> constant_pool_allowed_ a = false ->
    computes (Macro.CombineHashes hash other) a hash [other]
      (fun g => s32 (Hash.CombineHashes (u32 (g hash)) (u32 (g other)))) /\
    computes (Macro.FinalizeHashForSize bit_size hash other) a hash [other; TMP2]
      (fun g => s32 (Hash.FinalizeHash (u32 (g hash)) bit_size))).
Proof.
  split; [|split].
  - intros reg imm Hu Hn Hi. destruct (LoadImmediate_body a reg imm Hu Hn Hi) as (body & He & Hk & Hl & Hv).
    split; [by apply (emits_computes _ _ body)|]. exists body. split; [apply He|done].
  - intros rd rs1 imm Hd Hd0 H1 H10 Ht Ht2 Hi. split_and!.
    + by apply AddImmediate_computes.
    + by apply AndImmediate_computes.
    + by apply OrImmediate_computes.
    + by apply XorImmediate_computes.
    + intros Hm. apply MulImmediate_computes; try done. destruct (constant_range _ _ Hi). lia.
    + intros sz He Hs. by apply ExtendValue_computes.
  - intros hash other bit_size. intros. split; [by apply CombineHashes_computes|by apply FinalizeHash_computes].
Qed.

(** The successor of -1 is zero, and no register is below it. *)
Lemma SetIf_none rd rn :
  is_u 5 rd -> rd <> 0 -> is_u 5 rn ->
  deferred_compare_ a = kCompareImm -> deferred_imm_ a = -1 -> deferred_left_ a = rn ->
  computes (Macro.SetIf LS rd) a rd [TMP2] (fun _ => 0).
Proof.
  intros Hd Hd0 Hn Ec Ei El.
  apply (computes_ext _ (fun a => b ← Macro.ins (assemble (Imm SLTIU rd rn 0)) a; Ok (Macro.consumed b))).
  { unfold Macro.SetIf. rewrite Ec, Ei, El. reflexivity. }
  apply (computes_around _ (fun b => b) Macro.consumed); [done..|].
  apply one_instruction_computes; [done..|by apply encodable_imm|].
  intros g [Hg _]. cbn [value iop_sem]. change (u64 0) with 0.
  specialize (Hg rn Hn). unfold is_u in Hg. by rewrite (proj2 (Z.ltb_ge (g rn) 0)) by lia.
Qed.

(** C40: Aliased registers.  Without the extension for it [ExtendValue] into another
    register shifts the source twice, so that it keeps the upper bits and not the
    lower ones; a subtraction into its first operand branches for 5 - 3, which does
    not overflow; a sum with a large constant into its operand compares with the
    constant and branches for -1 + 5000; and [SetIf] finds no register at most the
    largest unsigned number. *)
Theorem aliased_operands rd rn :
  scratch_free rd -> scratch_free rn -> rd <> rn ->
  (forall sz, needs_shifts a sz = true ->
    computes (Macro.ExtendValue rd rn sz) a rd [] (fun g => shifted sz (g rn))) /\
  (branches (Macro.SubtractBranchOverflow rd rd rn) kFarJump a a [rd; TMP; TMP2]
     [(rd, fun g => g rd - g rn)] (fun g => subtract_test (g rd) (g rn)) /\
   subtract_test 5 3 = true /\ overflows (5 - 3) = false) /\
  (constant_pool_allowed_ a = false ->
   branches (Macro.AddImmediateBranchOverflow rd rd 5000) kFarJump a a [rd; TMP; TMP2]
     [(rd, fun g => g rd + 5000)] (fun g => s64 (u64 (g rd + 5000)) <? 5000) /\
   (s64 (u64 (-1 + 5000)) <? 5000) = true /\ overflows (-1 + 5000) = false) /\
  (deferred_compare_ a = kCompareImm -> deferred_imm_ a = -1 -> deferred_left_ a = rn ->
   computes (Macro.SetIf LS rd) a rd [TMP2] (fun _ => 0) /\
   forall g, regs_wf g -> deferred_holds a LS g = true).
Proof.
  intros (Hd & Hd0 & HdT & HdT2) (Hn & Hn0 & HnT & HnT2) Hne. split_and!.
  - intros sz Hs. eapply computes_value; [|by apply ExtendValue_shifts].
    intros g _. cbv beta. by rewrite (proj2 (Z.eqb_neq rd rn)).
  - by apply SubtractBranchOverflow_aliased.
  - done.
  - done.
  - intros Hp. split_and!; [|done..].
    by apply (AddImmediateBranchOverflow_aliased a rd rd).
  - intros Ec Ei El. split; [by apply (SetIf_none rd rn)|]. intros g [Hg _].
    unfold deferred_holds. rewrite Ec, Ei, El. apply Z.leb_le.
    specialize (Hg rn Hn). unfold is_u in Hg. change (u64 (-1)) with (2 ^ 64 - 1). lia.
Qed.
End Claims.

(** ** The theorems at concrete operands *)

(** A pool that gives every constant the index zero. *)
#[local] Instance unit_pool : ObjectPool unit := {| FindImmediate _ p := Ok (0, p) |}.

(** An assembler before the first instruction, with a comparison it remembers. *)
Definition fresh_assembler (t : DeferredCompareType) (left imm : Z) : Assembler unit :=
  mkAssembler (mkAsm [] 0 0) tt false t left 0 imm.

Lemma fresh_constant t left i imm :
  - 2 ^ 63 <= imm < 2 ^ 63 - 2 ^ 11 -> constant_ok (fresh_assembler t left i) imm.
Proof. by split. Qed.

Lemma free_register r : 1 <= r < 13 -> scratch_free r.
Proof. unfold scratch_free, is_u. change TMP with 13. change TMP2 with 14. lia. Qed.

Example comparisons_witness :
  computes (Macro.SetIf LE 10) (fresh_assembler kCompareImm 11 7) 10 [TMP2]
    (fun g => of_bool (s64 (g 11) <=? 7)).
Proof.
  by apply (comparisons (fresh_assembler kCompareImm 11 7) LE).
Defined.

Example overflow_branches_witness :
  branches (Macro.AddImmediateBranchOverflow 10 10 7) kFarJump (fresh_assembler kNone 0 0)
    (fresh_assembler kNone 0 0) [10; TMP; TMP2]
    [(10, fun g => g 10 + 7)] (fun g => overflows (s64 (g 10) + 7)) /\
  branches (Macro.SubtractBranchOverflow 10 11 12) kFarJump (fresh_assembler kNone 0 0)
    (fresh_assembler kNone 0 0) [10; TMP; TMP2]
    [(10, fun g => g 11 - g 12)] (fun g => overflows (s64 (g 11) - s64 (g 12))).
Proof.
  split.
  - destruct (overflow_branches (fresh_assembler kNone 0 0) 10 10 12 7) as (_ & _ & _ & _ & Ha);
      [..|by apply fresh_constant|by apply Ha; [|right]]; by apply free_register.
  - destruct (overflow_branches (fresh_assembler kNone 0 0) 10 11 12 7) as (_ & _ & Hs & _);
      [..|by apply fresh_constant|by apply Hs]; by apply free_register.
Defined.

Example arithmetic_macros_witness :
  computes (Macro.LoadImmediate 10 0x123456789ABCDEF0) (fresh_assembler kNone 0 0) 10 []
    (fun _ => 0x123456789ABCDEF0) /\
  (computes (Macro.MulImmediate 10 11 100000 kWordBytes) (fresh_assembler kNone 0 0) 10 [TMP]
     (fun g => g 11 * 100000) /\
   computes (Macro.ExtendValue 11 11 kTwoBytes) (fresh_assembler kNone 0 0) 11 []
     (fun g => extend kTwoBytes (g 11))) /\
  computes (Macro.FinalizeHashForSize 30 10 11) (fresh_assembler kNone 0 0) 10 [11; TMP2]
    (fun g => s32 (Hash.FinalizeHash (u32 (g 10)) 30)).
Proof.
  destruct (arithmetic_macros (fresh_assembler kNone 0 0)) as (Hload & Harith & Hhash). split; [|split; [split|]].
  - apply Hload; [done..|]. by apply fresh_constant.
  - apply (Harith 10 11); done.
  - apply (Harith 11 11 0); done.
  - by apply Hhash.
Defined.

Example aliased_operands_witness :
  computes (Macro.ExtendValue 10 11 kTwoBytes) (fresh_assembler kCompareImm 11 (-1)) 10 []
    (fun g => shifted kTwoBytes (g 11)) /\
  computes (Macro.SetIf LS 10) (fresh_assembler kCompareImm 11 (-1)) 10 [TMP2] (fun _ => 0).
Proof.
  split.
  - by apply (aliased_operands (fresh_assembler kCompareImm 11 (-1)) 10 11); try by apply free_register.
  - by apply (aliased_operands (fresh_assembler kCompareImm 11 (-1)) 10 11); try by apply free_register.
Defined.
