(* ===== verification/RiscvMacroStack.v ===== *)
(** * The stack, the frames and accesses with large offsets

    The macros that load and store.  A sequence of register and memory instructions is
    a function on register files and memories; [triple] is the specification of a
    macro by what must hold before its code and what holds after it, for code that
    its own stores do not overwrite. *)

From S2P Require Import Prelude Utils RiscvConstants RiscvEncoding RiscvAssembler RiscvLabels.
From S2P Require Import SimMemory SimMemoryProofs SimMemoryCorrect RiscvSimulator RiscvIsa.
From S2P Require Import RiscvDecode RiscvInterpret RiscvTables RiscvBranches RiscvJumps.
From S2P Require Import RiscvCorrect RiscvEmit RiscvPrograms RiscvMacro RiscvMacroRuns.
From S2P Require Import RiscvMacroImmediates.

(** ** Sequences with loads and stores *)

(** One instruction, as a function on registers and memory; the bytes from [lo] to
    [hi] hold the code, which must not be overwritten. *)
Definition exec1 (lo hi : Z) (i : instruction) (g : regs) (h : host) : option (regs * host) :=
  match i with
  | Load op rd addr =>
      match host_load (lop_type op) (u64 (g (base addr) + offset addr)) h with
      | Ok v => Some (write rd v g, h)
      | Err _ => None
      end
  | Store op rs2 addr =>
      let p := u64 (g (base addr) + offset addr) in
      if (p + ct_sizeof (sop_type op) <=? lo) || (hi <=? p) then
        match host_store (sop_type op) p (uwrap (ct_bits (sop_type op)) (g rs2)) h with
        | Ok h' => Some (g, h')
        | Err _ => None
        end
      else None
  | _ => Some (run1 g i, h)
  end.

Fixpoint exec_list (lo hi : Z) (body : list instruction) (g : regs) (h : host)
    : option (regs * host) :=
  match body with
  | [] => Some (g, h)
  | i :: body => '(g, h) ← exec1 lo hi i g h; exec_list lo hi body g h
  end.

(** The instructions of these sequences. *)
Definition memory_ok (c : bool) (i : instruction) : bool :=
  match i with
  | Auipc _ _ | Jalr _ _ _ => false
  | Load _ _ _ | Store _ _ _ => encodable c i
  | _ => operand_ok c i
  end.

Lemma memory_ok_straight c i : memory_ok c i = true -> straight i = true /\ encodable c i = true.
Proof. unfold memory_ok, operand_ok. by destruct i; cbn [alu andb]. Qed.

Lemma exec1_agree c lo hi i g h g' h' f :
  memory_ok c i = true -> agree f g -> exec1 lo hi i g h = Some (g', h') ->
  exists f', exec1 lo hi i f h = Some (f', h') /\ agree f' g'.
Proof.
  intros Hi Hf E. destruct i; try discriminate; cbn [memory_ok] in Hi;
    try (cbn [exec1] in *; injection E as <- <-; eexists; split; [reflexivity|];
         by eapply run1_agree).
  - cbn [encodable exec1] in *. reflect_bool.
    repeat match goal with Hr : is_reg _ = true |- _ => apply is_reg_spec in Hr end.
    rewrite Hf by done. destruct (host_load _ _ _); [|done]. injection E as <- <-.
    eexists. split; [reflexivity|]. intros r Hr. unfold write. by rewrite (Hf r Hr).
  - cbn [encodable exec1] in *. reflect_bool.
    repeat match goal with Hr : is_reg _ = true |- _ => apply is_reg_spec in Hr end.
    cbv zeta in *. rewrite !Hf by done. destruct (_ || _); [|done].
    destruct (host_store _ _ _ _); [|done]. injection E as <- <-. eauto.
Qed.

Lemma exec_list_agree c lo hi body : forall g h g' h' f,
  forallb (memory_ok c) body = true -> agree f g -> exec_list lo hi body g h = Some (g', h') ->
  exists f', exec_list lo hi body f h = Some (f', h') /\ agree f' g'.
Proof.
  induction body as [|i body IH]; intros g h g' h' f Hb Hf E; cbn [exec_list forallb] in *.
  { injection E as <- <-. eauto. }
  apply andb_true_iff in Hb as [Hi Hb]. apply bind_Some in E as ([g1 h1] & E1 & E).
  destruct (exec1_agree _ _ _ _ _ _ _ _ f Hi Hf E1) as (f1 & -> & Hf1). cbn.
  by eapply IH.
Qed.

(** The abstract machine is the simulator's. *)
Lemma exec1_exec c lo hi i len (s : Simulator host) g' h' :
  memory_ok c i = true -> sim_wf s -> 0 <= len -> pc_ s + len < 2 ^ 64 ->
  exec1 lo hi i (regs_of s) (memory_ s) = Some (g', h') ->
  exists s', exec i len s = Ok s' /\ sim_wf s' /\ pc_ s' = pc_ s + len /\ memory_ s' = h' /\
    agree (regs_of s') g' /\
    match i with
    | Store op _ addr => address addr s + ct_sizeof (sop_type op) <= lo \/ hi <= address addr s
    | _ => True
    end.
Proof.
  intros Hi Hs Hl Hp E. destruct (memory_ok_straight c i Hi) as [Hst He].
  assert (Hframe : forall s', exec i len s = Ok s' -> sim_wf s' /\ pc_ s' = pc_ s + len).
  { intros s' Hx. destruct (exec_frame i len s s' Hst (ex_intro _ _ He) Hs Hx) as (Hs' & Hpc & _).
    split; [done|]. rewrite Hpc. apply uwrap_small. pose proof (wf_pc _ Hs). unfold is_u in *. lia. }
  destruct (alu i) eqn:Ea.
  - assert (Ho : operand_ok c i = true) by (unfold operand_ok; by rewrite Ea).
    destruct (exec_alu c i len s Ho Hs Hl Hp) as [Hx Ht].
    assert (exec1 lo hi i (regs_of s) (memory_ s) = Some (run1 (regs_of s) i, memory_ s)) as E1
      by (by destruct i).
    rewrite E1 in E. injection E as <- <-. eexists. split; [exact Hx|].
    destruct (Hframe _ Hx) as [Hs' Hpc]. split_and!; [done|done| | |by destruct i].
    + cbn. apply memory_set_xreg.
    + intros r Hr. by apply regs_of_step.
  - destruct i; try discriminate; cbn [exec1 exec encodable] in *; reflect_bool;
      repeat match goal with Hr : is_reg _ = true |- _ => apply is_reg_spec in Hr end.
    + change (u64 (regs_of s (base addr) + offset addr)) with (address addr s) in E.
      cbn [mem_load direct_ops] in *. unfold Direct.Load in *.
      destruct (host_load _ _ _) as [v|]; [|done]. injection E as <- <-.
      cbn [mbind result_bind] in *. eexists. split; [reflexivity|].
      destruct (Hframe _ eq_refl) as [Hs' Hpc]. split_and!; [done|done| | |done].
      * cbn. rewrite memory_set_xreg. by destruct s.
      * intros r Hr. unfold retire, add_pc.
        rewrite (regs_of_step _ rd v (set_memory (memory_ s) s) r) by (done || by apply set_memory_wf).
        by destruct s.
    + cbv zeta in E. change (u64 (regs_of s (base addr) + offset addr)) with (address addr s) in E.
      destruct (_ || _) eqn:Ed; [|done].
      change (regs_of s rs2) with (get_xreg rs2 s) in E. cbn [mem_store direct_ops] in *. unfold Direct.Store in *.
      destruct (host_store _ _ _ _) as [m|]; [|done]. injection E as <- <-.
      cbn [mbind result_bind] in *. eexists. split; [reflexivity|].
      destruct (Hframe _ eq_refl) as [Hs' Hpc]. split_and!; [done|done|done|done|].
      apply orb_true_iff in Ed. by rewrite !Z.leb_le in Ed.
Qed.

Lemma exec_list_steps lo hi body : forall m (s : Simulator host) g' h',
  sim_wf s -> forallb (memory_ok (Asm.Supports m Extension.RV_C)) body = true ->
  loaded (code body m) s ->
  let size := Z.of_nat (length (code body m)) in
  lo <= pc_ s -> pc_ s + size <= hi -> pc_ s + size < 2 ^ 64 ->
  exec_list lo hi body (regs_of s) (memory_ s) = Some (g', h') ->
  exists s', steps (length body) s = Ok s' /\ sim_wf s' /\ pc_ s' = pc_ s + size /\
    memory_ s' = h' /\ agree (regs_of s') g'.
Proof.
  induction body as [|i body IH]; intros m s g' h' Hs Hb Hl size Hlo Hhi Hp E.
  { exists s. unfold size in *. change (code [] m) with (drop (length (buffer_ m)) (buffer_ m)) in *.
    rewrite drop_all, Z.add_0_r in *. cbn in E. injection E as <- <-. by split_and!. }
  cbn [forallb exec_list] in *. apply andb_true_iff in Hb as [Hi Hb].
  apply bind_Some in E as ([g1 h1] & E1 & E).
  destruct (code_cons i body m) as [_ Ecode]. unfold size in *. rewrite Ecode in *. rewrite code_one in *.
  unfold loaded in Hl. apply code_at_app in Hl as [Hl1 Hl2].
  rewrite length_app, Nat2Z.inj_add in *. set (len := Z.of_nat (length (emitted _ _))) in *.
  destruct (exec1_exec _ lo hi i len s g1 h1 Hi Hs ltac:(lia) ltac:(lia) E1)
    as (s1 & Hx & Hs1 & Hpc & Hm & Ha & Hst).
  destruct (memory_ok_straight _ i Hi) as [Hstr He].
  assert (Est : step s = exec i len s).
  { apply instruction_implements; [done|done| |exact Hl1]. by destruct i. }
  destruct (exec_list_agree _ lo hi body _ _ _ _ (regs_of s1) Hb Ha E) as (f' & Ef & Hf).
  destruct (IH (assemble i m) s1 f' h') as (s' & Es & Hs' & Hpc' & Hm' & Ha'); [done| | | | | |by rewrite Hm|].
  - by rewrite supports_assemble.
  - unfold loaded. rewrite Hpc. eapply (exec_keeps_code i len s s1); [done|by eexists|done|done| |done].
    destruct i; try done. lia.
  - lia.
  - lia.
  - lia.
  - exists s'. split_and!; [|done|lia|done|].
    + cbn [length steps]. rewrite Est, Hx. done.
    + intros r Hr. rewrite Ha', Hf by done. done.
Qed.

(** ** Specifications by what holds before and after *)

(** Words of the memory. *)
Definition word_at (h : host) (p v : Z) : Prop := host_load uword p h = Ok v.

(** The bytes from [p] to [q] are mapped and hold no code. *)
Definition writable (lo hi : Z) (h : host) (p n : Z) : Prop :=
  0 <= p /\ p + n <= 2 ^ 64 /\ mapped h p n /\ (p + n <= lo \/ hi <= p).

(** Only the bytes from [p] on changed. *)
Definition outside (h h' : host) (p n : Z) : Prop :=
  (forall q, ~ p <= q < p + n -> h' !! q = h !! q) /\ forall q, is_Some (h !! q) -> is_Some (h' !! q).

(** Only the registers [rs] changed. *)
Definition only (rs : list Z) (g g' : regs) : Prop := forall r, is_u 5 r -> r ∉ rs -> g' r = g r.

Section Triples.
Context {P : Type} `{ObjectPool P}.
Implicit Types a : Assembler P.

(** The code of [f], run where [pre] holds of the place of the code, the registers and
    the memory, runs to its end and leaves registers and memory that [post] relates
    to those before. *)
Definition triple (f : Assembler P -> asm_result (Assembler P)) a
    (pre : Z -> Z -> regs -> host -> Prop) (post : regs -> host -> regs -> host -> Prop) : Prop :=
  exists a', f a = Ok a' /\ buffer_ (micro a') = buffer_ (micro a) ++ emitted (micro a) (micro a') /\
  forall (s : Simulator host),
    let size := Z.of_nat (length (emitted (micro a) (micro a'))) in
    sim_wf s -> loaded (emitted (micro a) (micro a')) s -> pc_ s + size < 2 ^ 64 ->
    pre (pc_ s) (pc_ s + size) (regs_of s) (memory_ s) ->
    exists n s', steps n s = Ok s' /\ sim_wf s' /\ pc_ s' = pc_ s + size /\
      post (regs_of s) (memory_ s) (regs_of s') (memory_ s').

(** A relation of registers that looks at the registers of the machine only. *)
Definition respects (post : regs -> host -> regs -> host -> Prop) : Prop :=
  forall g h g' h' f', agree f' g' -> post g h g' h' -> post g h f' h'.

Lemma body_triple f a body (pre : Z -> Z -> regs -> host -> Prop) post :
  f a = Ok (appended body a) -> forallb (memory_ok (supports_compressed a)) body = true ->
  respects post ->
  (forall lo hi g h, regs_wf g -> lo <= hi -> pre lo hi g h ->
    exists g' h', exec_list lo hi body g h = Some (g', h') /\ post g h g' h') ->
  triple f a pre post.
Proof.
  intros Ef Ho Hr Hv. exists (appended body a). split_and!; [done|apply appended_buffer|].
  intros s size Hs Hl Hp Hpre. assert (Hz : 0 <= size) by (unfold size; lia).
  destruct (Hv (pc_ s) (pc_ s + size) (regs_of s) (memory_ s)) as (g' & h' & E & Hpost);
    [by apply regs_of_wf|clearbody size; lia|done|].
  destruct (exec_list_steps (pc_ s) (pc_ s + size) body (micro a) s g' h') as (s' & Es & Hs' & Hpc & Hm & Ha);
    [done|done|done|lia|exact (Z.le_refl _)|done|done|].
  exists (length body), s'. split_and!; [done|done|done|]. rewrite Hm. by apply (Hr _ _ g').
Qed.

(** ** Single accesses *)

Lemma load_word h p v : word_at h p v -> exists w, host_load int64_t p h = Ok w /\ u64 w = v.
Proof.
  unfold word_at, host_load. change (ct_sizeof uword) with 8. change (ct_sizeof int64_t) with 8.
  destruct (read_bytes h p _) as [bs|]; cbn [mbind result_bind]; [|done].
  intros [= <-]. eexists. split; [reflexivity|]. by apply (uwrap_swrap 64).
Qed.

Lemma store_word lo hi h p v :
  writable lo hi h p 8 -> is_u 64 v ->
  exists h', host_store uint64_t p (u64 v) h = Ok h' /\ word_at h' p v /\ outside h h' p 8 /\
    ((p + 8 <=? lo) || (hi <=? p)) = true.
Proof.
  intros (H0 & H1 & Hm & Hd) Hv. rewrite (uwrap_small 64 v) by done.
  destruct (host_store_lookup uint64_t p v h) as (h' & E & Hl); [done|done|].
  exists h'. split_and!; [done| |split|].
  - unfold word_at. rewrite (host_load_store uword p v h h') by (done || by right; right; right).
    f_equal. by apply (uwrap_small 64).
  - intros q Hq. rewrite Hl. by rewrite decide_False.
  - intros q Hq. rewrite Hl. by destruct (decide _).
  - apply orb_true_iff. by rewrite !Z.leb_le.
Qed.

Lemma outside_word h h' p n q v : outside h h' p n -> word_at h q v -> q + 8 <= p \/ p + n <= q -> word_at h' q v.
Proof.
  intros [Ho _] Hw Hd. unfold word_at in *. rewrite <- Hw. apply host_load_ext.
  change (ct_sizeof uword) with 8. intros i Hi. apply Ho. lia.
Qed.
Lemma outside_writable lo hi h h' p n q m : outside h h' p n -> writable lo hi h q m -> writable lo hi h' q m.
Proof. intros [_ Ho] (? & ? & Hm & ?). unfold writable. split_and!; try done. intros i Hi. auto. Qed.
Lemma outside_trans h h1 h2 p n : outside h h1 p n -> outside h1 h2 p n -> outside h h2 p n.
Proof. intros [O1 M1] [O2 M2]. split; [|auto]. intros q Hq. by rewrite O2, O1. Qed.
Lemma outside_wider h h' p n q m : outside h h' p n -> q <= p -> p + n <= q + m -> outside h h' q m.
Proof. intros [Ho Hm] ? ?. split; [|done]. intros x Hx. apply Ho. lia. Qed.
Lemma writable_part lo hi h p n q m :
  writable lo hi h p n -> p <= q -> 0 <= m -> q + m <= p + n -> writable lo hi h q m.
Proof.
  intros (? & ? & Hm & ?) ? ? ?. unfold writable. split_and!; try lia. intros i Hi.
  replace (q + i) with (p + (q - p + i)) by lia. apply Hm. lia.
Qed.

(** Addresses that do not wrap. *)
Lemma stack_address x d : 0 <= x + d < 2 ^ 64 -> u64 (x + d) = x + d.
Proof. intros. apply uwrap_small. done. Qed.

Lemma exec_store_word lo hi rs2 b off g h body :
  writable lo hi h (g b + off) 8 -> is_u 64 (g rs2) ->
  exists h', word_at h' (g b + off) (g rs2) /\ outside h h' (g b + off) 8 /\
    exec_list lo hi (Store SD rs2 (mkAddress b off) :: body) g h = exec_list lo hi body g h'.
Proof.
  intros Hw Hv. assert (Ea : u64 (g b + off) = g b + off) by (destruct Hw as (? & ? & _); apply stack_address; lia).
  destruct (store_word lo hi h (g b + off) (g rs2) Hw Hv) as (h' & E & Hh & Ho & Ed). exists h'.
  split_and!; [done|done|]. cbn [exec_list exec1 base offset sop_type]. cbv zeta. rewrite Ea.
  change (ct_sizeof uint64_t) with 8. rewrite Ed.
  change (uwrap (ct_bits uint64_t) (g rs2)) with (u64 (g rs2)). by rewrite E.
Qed.

Lemma exec_load_word lo hi rd b off g h body v :
  word_at h (u64 (g b + off)) v ->
  exists w, u64 w = v /\
    exec_list lo hi (Load LD rd (mkAddress b off) :: body) g h = exec_list lo hi body (write rd w g) h.
Proof.
  intros Hw. destruct (load_word _ _ _ Hw) as (w & E & Ev). exists w. split; [done|].
  cbn [exec_list exec1 base offset lop_type]. by rewrite E.
Qed.

Lemma exec_imm lo hi op rd rs1 imm g h body :
  exec_list lo hi (Imm op rd rs1 imm :: body) g h
  = exec_list lo hi body (write rd (iop_sem op (g rs1) imm) g) h.
Proof. done. Qed.

Lemma exec_alu_prefix lo hi rest : forall body g h,
  forallb alu body = true -> exec_list lo hi (body ++ rest) g h = exec_list lo hi rest (run body g) h.
Proof.
  induction body as [|i body IH]; intros g h Hb; [done|]. cbn [forallb app exec_list] in *.
  apply andb_true_iff in Hb as [Hi Hb]. replace (exec1 lo hi i g h) with (Some (run1 g i, h)) by (by destruct i).
  cbn. by apply IH.
Qed.

Lemma itype_bounds z : -2048 <= z < 2048 -> IsITypeImm z = true /\ IsSTypeImm z = true.
Proof.
  intros Hz. unfold IsITypeImm, IsSTypeImm.
  rewrite IsInt_intptr by lia. unfold is_s. change (2 ^ (12 - 1)) with 2048. lia.
Qed.

Lemma memory_imm c op rd rs1 imm :
  is_u 5 rd -> is_u 5 rs1 -> -2048 <= imm < 2048 -> memory_ok c (Imm op rd rs1 imm) = true.
Proof. intros. by apply encodable_imm, itype_bounds. Qed.
Lemma memory_load c op rd b off :
  is_u 5 rd -> is_u 5 b -> -2048 <= off < 2048 -> memory_ok c (Load op rd (mkAddress b off)) = true.
Proof. intros. cbn. rewrite !is_reg_intro by done. by apply itype_bounds. Qed.
Lemma memory_store c op rs2 b off :
  is_u 5 rs2 -> is_u 5 b -> -2048 <= off < 2048 -> memory_ok c (Store op rs2 (mkAddress b off)) = true.
Proof. intros. cbn. rewrite !is_reg_intro by done. by apply itype_bounds. Qed.

Lemma only_write rs rd v g : rd ∈ rs -> only rs g (write rd v g).
Proof. intros Hr r _ Hn. apply write_ne. intros ->. done. Qed.
Lemma only_trans rs g g1 g2 : only rs g g1 -> only rs g1 g2 -> only rs g g2.
Proof. intros H1 H2 r Hr Hn. by rewrite H2, H1. Qed.
Lemma only_refl rs g : only rs g g.
Proof. done. Qed.

(** ** Pushes and pops *)

Definition SP : Z := Register.SP.
Definition FP : Z := Register.FP.
Definition RA : Z := Register.RA.

Fixpoint stores_in_order (rs : list Z) (off : Z) : list instruction :=
  match rs with
  | [] => []
  | r :: rs => Store SD r (mkAddress Register.SP (off - kWordSize)) :: stores_in_order rs (off - kWordSize)
  end.

Lemma store_in_order_emits rs : forall off a,
  Macro.store_in_order rs off a = Ok (appended (stores_in_order rs off) a).
Proof.
  induction rs as [|r rs IH]; intros off a; [by rewrite appended_nil|].
  cbn [Macro.store_in_order stores_in_order]. 
  change (Macro.sx r (mkAddress Register.SP (off - kWordSize)) a)
    with (Ok (E:=asm_error) (appended [Store SD r (mkAddress Register.SP (off - kWordSize))] a)).
  cbn [mbind result_bind]. by rewrite IH, <- appended_app.
Qed.

Lemma stores_in_order_ok c rs : forall off,
  Forall (is_u 5) rs -> 8 * Z.of_nat (length rs) <= off -> off <= 2048 ->
  forallb (memory_ok c) (stores_in_order rs off) = true.
Proof.
  induction rs as [|r rs IH]; intros off Hr Hl Ho; [done|].
  apply Forall_cons in Hr as [Hr Hrs]. cbn [length] in Hl. unfold kWordSize in *.
  cbn [stores_in_order forallb]. unfold kWordSize.
  rewrite memory_store, IH by (done || lia). done.
Qed.

Lemma exec_stores_in_order lo hi rs : forall off g h,
  regs_wf g -> Forall (is_u 5) rs -> off = 8 * Z.of_nat (length rs) ->
  writable lo hi h (g SP) off ->
  exists h', exec_list lo hi (stores_in_order rs off) g h = Some (g, h') /\
    outside h h' (g SP) off /\
    forall (i : nat) r, rs !! i = Some r -> word_at h' (g SP + off - 8 * (Z.of_nat i + 1)) (g r).
Proof.
  induction rs as [|r rs IH]; intros off g h Hg Hr Ho Hw.
  { exists h. split_and!; [done|by split|]. intros i r. by rewrite lookup_nil. }
  apply Forall_cons in Hr as [Hr Hrs]. cbn [length] in Ho. rewrite Nat2Z.inj_succ in Ho.
  cbn [stores_in_order]. unfold kWordSize. set (off1 := off - 8).
  destruct (exec_store_word lo hi r Register.SP off1 g h (stores_in_order rs off1)) as (h1 & Hw1 & Ho1 & ->).
  { eapply writable_part; [exact Hw|unfold SP, off1; lia..]. }
  { by apply Hg. }
  fold SP in *. destruct (IH off1 g h1) as (h' & E & Hout & Hwords); [done|done|unfold off1; lia| |].
  { eapply outside_writable; [exact Ho1|]. eapply writable_part; [exact Hw|unfold off1; lia..]. }
  exists h'. split_and!; [done| |].
  - eapply outside_trans; eapply outside_wider; try done; unfold off1; lia.
  - intros [|i] q; cbn [lookup list_lookup].
    + intros [= <-]. replace (g SP + off - _) with (g SP + off1) by (unfold off1; lia).
      eapply outside_word; [exact Hout|done|lia].
    + intros Hi. replace (g SP + off - _) with (g SP + off1 - 8 * (Z.of_nat i + 1)) by (unfold off1; lia).
      by apply Hwords.
Qed.

(** The words that were pushed: the first register is the last one to be popped. *)
Definition pushed (rs : list Z) (g : regs) (h : host) (g' : regs) (h' : host) : Prop :=
  g' SP = g SP - 8 * Z.of_nat (length rs) /\ only [SP] g g' /\
  outside h h' (g SP - 8 * Z.of_nat (length rs)) (8 * Z.of_nat (length rs)) /\
  forall (i : nat) r, rs !! i = Some r -> word_at h' (g SP - 8 * (Z.of_nat i + 1)) (g r).

(** The stack has room for [n] bytes. *)
Definition stack_room (n : Z) (lo hi : Z) (g : regs) (h : host) : Prop :=
  writable lo hi h (g SP - n) n.

Lemma respects_pushed rs : respects (pushed rs).
Proof.
  intros g h g' h' f' Hf (E & Ho & Hout & Hw). split_and!; [by rewrite Hf| |done|done].
  intros r Hr Hn. rewrite Hf by done. auto.
Qed.

Lemma PushRegistersInOrder_triple a rs :
  Forall (fun r => is_u 5 r /\ r <> SP) rs -> (length rs <= 255)%nat ->
  triple (Macro.PushRegistersInOrder rs) a (stack_room (8 * Z.of_nat (length rs))) (pushed rs).
Proof.
  intros Hr Hl. set (n := 8 * Z.of_nat (length rs)).
  assert (Hrs : Forall (is_u 5) rs) by (eapply Forall_impl; [exact Hr|by intros ? []]).
  apply (body_triple _ _ (Imm ADDI Register.SP Register.SP (- n) :: stores_in_order rs n)).
  - unfold Macro.PushRegistersInOrder. replace (Z.of_nat (length rs) * kWordSize) with n
      by (unfold n, kWordSize; lia).
    change (Macro.subi Register.SP Register.SP n a)
      with (Ok (E:=asm_error) (appended [Imm ADDI Register.SP Register.SP (- n)] a)).
    cbn [mbind result_bind]. rewrite store_in_order_emits. by rewrite <- appended_app.
  - cbn [forallb]. rewrite memory_imm, stores_in_order_ok by (done || unfold n; lia). done.
  - apply respects_pushed.
  - intros lo hi g h Hg _ Hw. unfold stack_room in Hw. fold n in Hw. rewrite exec_imm. cbn [iop_sem].
    set (g1 := write _ _ g).
    assert (E1 : g1 SP = g SP - n).
    { unfold g1, SP. rewrite write_eq by done. unfold stack_room, writable, SP in Hw.
      rewrite Z.add_opp_r. apply uwrap_small. unfold is_u. destruct Hg as [Hg _].
      specialize (Hg Register.SP ltac:(done)). unfold is_u in Hg. unfold n in *. lia. }
    destruct (exec_stores_in_order lo hi rs n g1 h) as (h' & E & Hout & Hwords);
      [by apply write_wf|done|done|by rewrite E1|].
    exists g1, h'. split; [done|]. unfold pushed. fold n. rewrite E1 in *. split_and!; [done| |done|].
    + apply only_write. by left.
    + intros i r Hi. replace (g SP - _) with (g SP - n + n - 8 * (Z.of_nat i + 1)) by lia.
      rewrite <- (write_ne Register.SP (g Register.SP + - n) g r); [by apply Hwords|].
      rewrite Forall_lookup in Hr. by apply (Hr i).
Qed.

Lemma PushRegister_one r : Macro.PushRegister (P:=P) r = Macro.PushRegistersInOrder [r].
Proof. reflexivity. Qed.
Lemma PushRegisterPair_two r0 r1 : Macro.PushRegisterPair (P:=P) r0 r1 = Macro.PushRegistersInOrder [r1; r0].
Proof. reflexivity. Qed.

(** The top word of the stack goes into a register. *)
Definition popped (rs : list Z) (vs : list Z) (g : regs) (h : host) (g' : regs) (h' : host) : Prop :=
  Forall2 (fun r v => g' r = v) rs vs /\ g' SP = u64 (g SP + 8 * Z.of_nat (length rs)) /\
  only (SP :: rs) g g' /\ h' = h.

Lemma respects_popped rs vs : Forall (is_u 5) rs -> respects (popped rs vs).
Proof.
  intros Hr g h g' h' f' Hf (Hv & E & Ho & Eh). split_and!; [|by rewrite Hf| |done].
  - clear - Hr Hf Hv. induction Hv as [|r v rs vs Hv _ IH]; constructor.
    + apply Forall_cons in Hr as [Hr _]. by rewrite Hf.
    + apply IH. by apply Forall_cons in Hr as [_ ?].
  - intros r Hu Hn. rewrite Hf by done. auto.
Qed.

Lemma PopRegister_triple a r v :
  is_u 5 r -> r <> SP -> r <> 0 ->
  triple (Macro.PopRegister r) a (fun _ _ g h => word_at h (g SP) v) (popped [r] [v]).
Proof.
  intros Hr Hs Hz.
  apply (body_triple _ _ [Load LD r (mkAddress Register.SP 0); Imm ADDI Register.SP Register.SP kWordSize]).
  - reflexivity.
  - cbn [forallb]. by rewrite memory_load, memory_imm.
  - apply respects_popped. by constructor.
  - intros lo hi g h [Hg _] _ Hw.
    assert (Ea : u64 (g Register.SP + 0) = g SP) by (rewrite Z.add_0_r; by apply uwrap_small, Hg).
    destruct (exec_load_word lo hi r Register.SP 0 g h [Imm ADDI Register.SP Register.SP kWordSize] v)
      as (w & Ew & ->); [by rewrite Ea|].
    rewrite exec_imm. cbn [exec_list iop_sem]. eexists _, _. split; [reflexivity|].
    unfold SP in *. split_and!; [|rewrite write_eq, write_ne by (done || congruence); done| |done].
    + constructor; [|constructor]. by rewrite write_ne, write_eq.
    + eapply only_trans; apply only_write; rewrite !elem_of_cons; auto.
Qed.

Lemma PopRegisterPair_triple a r0 r1 v0 v1 :
  is_u 5 r0 -> r0 <> SP -> r0 <> 0 -> is_u 5 r1 -> r1 <> SP -> r1 <> 0 -> r0 <> r1 ->
  triple (Macro.PopRegisterPair r0 r1) a
    (fun _ _ g h => word_at h (g SP) v0 /\ word_at h (u64 (g SP + 8)) v1) (popped [r0; r1] [v0; v1]).
Proof.
  intros H0 S0 Z0 H1 S1 Z1 Hne. unfold SP in *.
  apply (body_triple _ _ [Load LD r1 (mkAddress Register.SP kWordSize);
    Load LD r0 (mkAddress Register.SP 0); Imm ADDI Register.SP Register.SP (2 * kWordSize)]).
  - reflexivity.
  - cbn [forallb]. by rewrite !memory_load, memory_imm.
  - apply respects_popped. rewrite !Forall_cons. by split_and!.
  - intros lo hi g h [Hg _] _ [Hw0 Hw1].
    assert (Ea : u64 (g Register.SP + 0) = g Register.SP) by (rewrite Z.add_0_r; by apply uwrap_small, Hg).
    destruct (exec_load_word lo hi r1 Register.SP kWordSize g h [Load LD r0 (mkAddress Register.SP 0);
      Imm ADDI Register.SP Register.SP (2 * kWordSize)] v1 Hw1) as (w1 & Ew1 & ->).
    set (g1 := write r1 w1 g). assert (E1 : g1 Register.SP = g Register.SP) by (apply write_ne; congruence).
    destruct (exec_load_word lo hi r0 Register.SP 0 g1 h [Imm ADDI Register.SP Register.SP (2 * kWordSize)] v0)
      as (w0 & Ew0 & ->); [by rewrite E1, Ea|].
    rewrite exec_imm. cbn [exec_list iop_sem]. eexists _, _. split; [reflexivity|].
    unfold popped, SP. split_and!; [|rewrite write_eq, write_ne, E1 by (done || congruence); done| |done].
    + repeat constructor.
      * by rewrite write_ne, write_eq.
      * rewrite write_ne, write_ne by done. unfold g1. by rewrite write_eq.
    + eapply only_trans; [|eapply only_trans]; apply only_write; rewrite !elem_of_cons; auto.
Qed.

(** ** Frames *)

(** The frame of a function that was entered with the registers [g0]. *)
Definition frame_of (g0 g : regs) (h : host) : Prop :=
  g FP = g0 SP /\ word_at h (g0 SP - 8) (g0 RA) /\ word_at h (g0 SP - 16) (g0 FP).

Definition entered (n : Z) (g : regs) (h : host) (g' : regs) (h' : host) : Prop :=
  frame_of g g' h' /\ g' SP = g SP - (n + 16) /\ only [SP; FP] g g' /\ outside h h' (g SP - 16) 16.

Lemma EnterFrame_triple a n :
  0 <= n <= 2031 ->
  triple (Macro.EnterFrame n) a
    (fun lo hi g h => n + 16 <= g SP /\ stack_room 16 lo hi g h) (entered n).
Proof.
  intros Hn. unfold SP, FP, RA.
  apply (body_triple _ _ [Imm ADDI Register.SP Register.SP (- (n + 2 * kWordSize));
    Store SD Register.RA (mkAddress Register.SP (n + 1 * kWordSize));
    Store SD Register.FP (mkAddress Register.SP (n + 0 * kWordSize));
    Imm ADDI Register.FP Register.SP (n + 2 * kWordSize)]).
  - reflexivity.
  - unfold kWordSize. cbn [forallb]. rewrite !memory_imm, !memory_store by (done || lia). done.
  - intros g h g' h' f' Hf ((E & Hw) & Es & Ho & Hout). unfold entered, frame_of.
    rewrite !Hf by done. split_and!; try apply Hw; try done. intros r Hr Hx. rewrite Hf by done. auto.
  - intros lo hi g h Hg _ [Hb Hw]. unfold stack_room, SP, kWordSize in *. rewrite exec_imm. cbn [iop_sem].
    pose proof (proj1 Hg Register.SP ltac:(done)) as Hsp. unfold is_u in Hsp.
    set (g1 := write _ _ g).
    assert (E1 : g1 Register.SP = g Register.SP - (n + 16)).
    { unfold g1. rewrite write_eq by done. rewrite Z.add_opp_r. apply uwrap_small. unfold is_u. lia. }
    destruct (exec_store_word lo hi Register.RA Register.SP (n + 1 * 8) g1 h
      [Store SD Register.FP (mkAddress Register.SP (n + 0 * 8)); Imm ADDI Register.FP Register.SP (n + 2 * 8)])
      as (h1 & W1 & O1 & ->).
    { rewrite E1. eapply writable_part; [exact Hw|lia..]. }
    { by apply write_wf. }
    destruct (exec_store_word lo hi Register.FP Register.SP (n + 0 * 8) g1 h1
      [Imm ADDI Register.FP Register.SP (n + 2 * 8)]) as (h2 & W2 & O2 & ->).
    { rewrite E1. eapply outside_writable; [exact O1|]. eapply writable_part; [exact Hw|lia..]. }
    { by apply write_wf. }
    rewrite exec_imm. cbn [exec_list iop_sem]. eexists _, _. split; [reflexivity|].
    rewrite E1 in *. unfold entered, frame_of, SP, FP, RA.
    assert (Er : g1 Register.RA = g Register.RA /\ g1 Register.FP = g Register.FP) by (split; by apply write_ne).
    destruct Er as [Er Ef]. rewrite Er, Ef in *.
    replace (g Register.SP - (n + 16) + (n + 1 * 8)) with (g Register.SP - 8) in * by lia.
    replace (g Register.SP - (n + 16) + (n + 0 * 8)) with (g Register.SP - 16) in * by lia.
    split_and!.
    + rewrite write_eq by done. rewrite stack_address by lia. lia.
    + eapply outside_word; [exact O2|done|lia].
    + done.
    + by rewrite write_ne.
    + eapply only_trans; apply only_write; rewrite !elem_of_cons; auto.
    + eapply outside_trans; eapply outside_wider; try done; lia.
Qed.

Definition left_frame (g0 g : regs) (h : host) (g' : regs) (h' : host) : Prop :=
  g' SP = g0 SP /\ g' FP = g0 FP /\ g' RA = g0 RA /\ only [SP; FP; RA] g g' /\ h' = h.

Lemma LeaveFrame_triple a g0 :
  regs_wf g0 -> 16 <= g0 SP ->
  triple Macro.LeaveFrame a (fun _ _ g h => frame_of g0 g h) (left_frame g0).
Proof.
  intros Hg0 Hb. unfold SP in *. pose proof (proj1 Hg0 Register.SP ltac:(done)) as Hsp. unfold is_u in Hsp.
  apply (body_triple _ _ [Imm ADDI Register.SP Register.FP (- (2 * kWordSize));
    Load LD Register.FP (mkAddress Register.SP (0 * kWordSize));
    Load LD Register.RA (mkAddress Register.SP (1 * kWordSize));
    Imm ADDI Register.SP Register.SP (2 * kWordSize)]).
  - reflexivity.
  - cbn [forallb]. by rewrite !memory_imm, !memory_load.
  - intros g h g' h' f' Hf (E1 & E2 & E3 & Ho & Eh). unfold left_frame.
    rewrite !Hf by done. split_and!; try done. intros r Hr Hx. rewrite Hf by done. auto.
  - intros lo hi g h Hg _ (EF & W1 & W2). unfold SP, FP, RA, kWordSize in *. rewrite exec_imm. cbn [iop_sem].
    set (g1 := write _ _ g).
    assert (E1 : g1 Register.SP = g0 Register.SP - 16).
    { unfold g1. rewrite write_eq, EF by done. rewrite Z.add_opp_r. apply uwrap_small. unfold is_u. lia. }
    destruct (exec_load_word lo hi Register.FP Register.SP (0 * 8) g1 h
      [Load LD Register.RA (mkAddress Register.SP (1 * 8)); Imm ADDI Register.SP Register.SP (2 * 8)]
      (g0 Register.FP)) as (w & Ew & ->).
    { rewrite E1, stack_address by lia. by rewrite Z.add_0_r. }
    set (g2 := write _ _ g1). assert (E2 : g2 Register.SP = g0 Register.SP - 16) by (unfold g2; by rewrite write_ne).
    destruct (exec_load_word lo hi Register.RA Register.SP (1 * 8) g2 h
      [Imm ADDI Register.SP Register.SP (2 * 8)] (g0 Register.RA)) as (v & Ev & ->).
    { rewrite E2, stack_address by lia. by replace (g0 Register.SP - 16 + 1 * 8) with (g0 Register.SP - 8) by lia. }
    rewrite exec_imm. cbn [exec_list iop_sem]. eexists _, _. split; [reflexivity|].
    unfold left_frame, SP, FP, RA. split_and!; [| | | |done].
    + rewrite write_eq, write_ne, E2 by done. rewrite stack_address by lia. lia.
    + rewrite write_ne, write_ne by done. unfold g2. by rewrite write_eq.
    + by rewrite write_ne, write_eq.
    + do 3 (eapply only_trans; [|apply only_write; rewrite !elem_of_cons; auto]).
      apply only_write. rewrite !elem_of_cons. auto.
Qed.

(** ** Accesses with large offsets *)

Lemma large_offset imm :
  - 2 ^ 31 <= imm < 2 ^ 31 - 2 ^ 11 -> IsITypeImm imm = false ->
  ImmHi imm <> 0 /\ IsUTypeImm (ImmHi imm) = true /\ -2048 <= ImmLo imm < 2048 /\
  ImmHi imm + ImmLo imm = imm.
Proof.
  intros Hi Hn. pose proof (ImmHi_ImmLo imm Hi) as E. pose proof (ImmLo_IsITypeImm imm) as Hl.
  split_and!; try done; [|apply ImmHi_IsUTypeImm| |].
  - intros E0. rewrite E0, Z.add_0_l in E. congruence.
  - unfold IsITypeImm in Hl. rewrite IsInt_intptr in Hl by lia. unfold is_s in Hl.
    change (2 ^ (12 - 1)) with 2048 in Hl. lia.
  - unfold IsITypeImm in Hl. rewrite IsInt_intptr in Hl by lia. unfold is_s in Hl.
    change (2 ^ (12 - 1)) with 2048 in Hl. lia.
Qed.

(** [lui] of the high part and an addition leave an address with the low part. *)
Lemma far_address c tmp b imm :
  is_u 5 tmp -> tmp <> 0 -> is_u 5 b -> b <> 0 -> tmp <> b ->
  - 2 ^ 31 <= imm < 2 ^ 31 - 2 ^ 11 -> IsITypeImm imm = false ->
  let body := [Lui tmp (ImmHi imm); Reg ADD tmp tmp b] in
  forallb (memory_ok c) body = true /\
  forall g, u64 (run body g tmp + ImmLo imm) = u64 (g b + imm) /\ only [tmp] g (run body g).
Proof.
  intros Ht Ht0 Hb Hb0 Hne Hi Hn. destruct (large_offset imm Hi Hn) as (Hh & Hu & Hl & E). cbv zeta. split.
  - cbn [forallb]. unfold memory_ok. rewrite encodable_lui, encodable_reg by done. done.
  - intros g. split.
    + run_regs. rewrite uwrap_add_l, <- Z.add_assoc, uwrap_add_l. f_equal. lia.
    + eapply only_trans; apply only_write; by left.
Qed.

Definition lop_of (sz : OperandSize) : option lop :=
  match sz with
  | kEightBytes => Some LD | kUnsignedFourBytes => Some LWU | kFourBytes => Some LW
  | kUnsignedTwoBytes => Some LHU | kTwoBytes => Some LH
  | kUnsignedByte => Some LBU | kByte => Some LB
  | _ => None
  end.
Definition sop_of (sz : OperandSize) : option sop :=
  match sz with
  | kEightBytes => Some SD | kUnsignedFourBytes | kFourBytes => Some SW
  | kUnsignedTwoBytes | kTwoBytes => Some SH
  | kUnsignedByte | kByte => Some SB
  | _ => None
  end.

Lemma itype_cases imm : IsITypeImm imm = true -> -2048 <= imm < 2048.
Proof.
  unfold IsITypeImm. rewrite IsInt_intptr by lia. unfold is_s. change (2 ^ (12 - 1)) with 2048. lia.
Qed.

(** The address of an access, after the instructions that prepare it. *)
Lemma PrepareLargeOffset_spec a b imm :
  is_u 5 b -> b <> 0 -> b <> TMP2 -> - 2 ^ 31 <= imm < 2 ^ 31 - 2 ^ 11 ->
  exists body b' lo', Macro.PrepareLargeOffset b imm a = Ok (mkAddress b' lo', appended body a) /\
    is_u 5 b' /\ -2048 <= lo' < 2048 /\ forallb alu body = true /\
    forallb (memory_ok (supports_compressed a)) body = true /\
    forall g, regs_wf g -> u64 (run body g b' + lo') = u64 (g b + imm) /\ only [TMP2] g (run body g).
Proof.
  intros Hb Hb0 Hb2 Hi. unfold Macro.PrepareLargeOffset. destruct (IsITypeImm imm) eqn:E.
  - exists [], b, imm. rewrite appended_nil. split_and!; try done; by apply itype_cases.
  - destruct (far_address (supports_compressed a) TMP2 b imm) as [Ho Hr]; try done.
    destruct (large_offset imm Hi E) as (_ & _ & Hl & _).
    exists [Lui TMP2 (ImmHi imm); Reg ADD TMP2 TMP2 b], TMP2, (ImmLo imm). split_and!; [reflexivity|done|lia|lia|done|exact Ho|].
    intros g _. apply Hr.
Qed.

Lemma Load_triple a dest b imm sz op v :
  is_u 5 dest -> dest <> 0 -> is_u 5 b -> b <> 0 -> b <> TMP2 -> - 2 ^ 31 <= imm < 2 ^ 31 - 2 ^ 11 ->
  lop_of sz = Some op ->
  triple (Macro.Load dest (mkAddress b imm) sz) a
    (fun _ _ g h => host_load (lop_type op) (u64 (g b + imm)) h = Ok v)
    (fun g h g' h' => g' dest = u64 v /\ only [dest; TMP2] g g' /\ h' = h).
Proof.
  intros Hd Hd0 Hb Hb0 Hb2 Hi Hop.
  destruct (PrepareLargeOffset_spec a b imm) as (body & b' & lo' & Ep & Hb' & Hlo & Halu & Hok & Hr); try done.
  apply (body_triple _ _ (body ++ [Load op dest (mkAddress b' lo')])).
  - unfold Macro.Load. cbn [base offset]. rewrite Ep. cbn [mbind result_bind]. rewrite appended_app.
    destruct sz; try discriminate; injection Hop as <-; reflexivity.
  - rewrite forallb_app, Hok. cbn [forallb]. by rewrite memory_load.
  - intros g h g' h' f' Hf (E & Ho & Eh). rewrite Hf by done. split_and!; try done.
    intros r Hu Hx. rewrite Hf by done. auto.
  - intros lo hi g h Hg _ E. destruct (Hr g Hg) as [Ea Hon]. rewrite exec_alu_prefix by done.
    cbn [exec_list exec1 base offset]. rewrite Ea, E. eexists _, _. split; [reflexivity|].
    split_and!; [by rewrite write_eq| |done].
    intros r Hu Hx. rewrite !elem_of_cons in Hx. rewrite write_ne by tauto. apply Hon; [done|].
    rewrite list_elem_of_singleton. tauto.
Qed.

Lemma Store_triple a src b imm sz op :
  is_u 5 src -> src <> TMP2 -> is_u 5 b -> b <> 0 -> b <> TMP2 -> - 2 ^ 31 <= imm < 2 ^ 31 - 2 ^ 11 ->
  sop_of sz = Some op ->
  triple (Macro.Store src (mkAddress b imm) sz) a
    (fun lo hi g h => writable lo hi h (u64 (g b + imm)) (ct_sizeof (sop_type op)))
    (fun g h g' h' => host_store (sop_type op) (u64 (g b + imm))
       (uwrap (ct_bits (sop_type op)) (g src)) h = Ok h' /\ only [TMP2] g g').
Proof.
  intros Hs Hs2 Hb Hb0 Hb2 Hi Hop.
  destruct (PrepareLargeOffset_spec a b imm) as (body & b' & lo' & Ep & Hb' & Hlo & Halu & Hok & Hr); try done.
  apply (body_triple _ _ (body ++ [Store op src (mkAddress b' lo')])).
  - unfold Macro.Store. cbn [base offset]. rewrite Ep. cbn [mbind result_bind]. rewrite appended_app.
    destruct sz; try discriminate; injection Hop as <-; reflexivity.
  - rewrite forallb_app, Hok. cbn [forallb]. by rewrite memory_store.
  - intros g h g' h' f' Hf (E & Ho). split; [done|]. intros r Hu Hx. rewrite Hf by done. auto.
  - intros lo hi g h Hg _ (_ & _ & Hm & Hd). destruct (Hr g Hg) as [Ea Hon]. rewrite exec_alu_prefix by done.
    cbn [exec_list exec1 base offset]. cbv zeta. rewrite Ea.
    rewrite (Hon src) by (done || by rewrite list_elem_of_singleton).
    replace ((_ <=? _) || _) with true
      by (symmetry; apply orb_true_iff; by rewrite !Z.leb_le).
    destruct (host_store_lookup (sop_type op) (u64 (g b + imm)) (uwrap (ct_bits (sop_type op)) (g src)) h)
      as (h' & E & _); [by destruct op|done|].
    rewrite E. eexists _, _. split; [reflexivity|]. by split.
Qed.

(** ** Words of the object pool *)

Lemma LoadWordFromPoolIndex_triple a dst index pp v :
  is_u 5 dst -> dst <> 0 -> is_u 5 pp -> pp <> 0 -> dst <> pp ->
  0 <= index -> element_offset index < 2 ^ 31 - 2 ^ 11 ->
  triple (Macro.LoadWordFromPoolIndex dst index pp) a
    (fun _ _ g h => word_at h (u64 (g pp + element_offset index)) v)
    (fun g h g' h' => g' dst = v /\ only [dst] g g' /\ h' = h).
Proof.
  intros Hd Hd0 Hp Hp0 Hne Hx Hi. unfold element_offset in *. set (off := 0x10 + index * 0x8) in *.
  assert (Hoff : 0 <= off) by (unfold off; lia).
  assert (Eo : u32 (0x10 + index * 0x8) = off) by (fold off; apply uwrap_small; unfold is_u; lia).
  assert (Hresp : respects (fun g h g' h' => g' dst = v /\ only [dst] g g' /\ h' = h)).
  { intros g h g' h' f' Hf (E & Ho & Eh). rewrite Hf by done. split_and!; try done.
    intros r Hu Hn. rewrite Hf by done. auto. }
  destruct (IsITypeImm off) eqn:EI.
  - pose proof (itype_cases _ EI) as Hlo.
    assert (Hs : ImmLo off = off /\ ImmHi off = 0).
    { rewrite ImmHi_swrap, ImmLo_swrap, swrap_small by (lia || unfold is_s; change (2 ^ (12 - 1)) with 2048; lia).
      by rewrite Z.sub_diag. }
    destruct Hs as [El Eh]. apply (body_triple _ _ [Load LD dst (mkAddress pp off)]); [| |done|].
    + unfold Macro.LoadWordFromPoolIndex, element_offset. rewrite Eo, El, Eh. reflexivity.
    + cbn [forallb]. by rewrite memory_load.
    + intros lo hi g h Hg _ Hw. destruct (exec_load_word lo hi dst pp off g h [] v Hw) as (w & Ew & ->).
      cbn [exec_list]. eexists _, _. split; [reflexivity|].
      split_and!; [by rewrite write_eq|apply only_write; by left|done].
  - destruct (far_address (supports_compressed a) dst pp off) as [Ho Hr]; try (done || lia).
    destruct (large_offset off ltac:(lia) EI) as (Hh & _ & Hlo & _).
    apply (body_triple _ _ ([Lui dst (ImmHi off); Reg ADD dst dst pp] ++ [Load LD dst (mkAddress dst (ImmLo off))]));
      [| |done|].
    + unfold Macro.LoadWordFromPoolIndex, element_offset. rewrite Eo, (proj2 (Z.eqb_neq (ImmHi off) 0)) by done.
      reflexivity.
    + rewrite forallb_app, Ho. cbn [forallb]. by rewrite memory_load.
    + intros lo hi g h Hg _ Hw. destruct (Hr g) as [Ea Hon]. rewrite exec_alu_prefix by done.
      set (g1 := run _ g) in *.
      destruct (exec_load_word lo hi dst dst (ImmLo off) g1 h [] v) as (w & Ew & ->); [by rewrite Ea|].
      cbn [exec_list]. eexists _, _. split; [reflexivity|]. split_and!; [by rewrite write_eq| |done].
      eapply only_trans; [exact Hon|]. apply only_write. by left.
Qed.
End Triples.

(** ** The theorems *)

Section Claims.
Context {P : Type} `{ObjectPool P} (a : Assembler P).

(** C32: The stack and memory operands.  [EnterFrame] reserves its bytes below the frame,
    saves the return address and the frame pointer and writes nothing else; as long as the
    frame pointer and the two saved words are what they were, [LeaveFrame] restores stack
    pointer, frame pointer and return address.  [PushRegistersInOrder], of which
    [PushRegister] and [PushRegisterPair] are instances, stores each register in its word,
    and the pops read the words back and release them.  [Load] and [Store] of every size
    access the base register plus the offset, for every 32-bit offset but the last 2 kB,
    and lose [TMP2] at most; [LoadWordFromPoolIndex] loads the word of the pool with its
    index and loses nothing. *)
Theorem stack_and_memory :
  (forall n rs r0 r1 v0 v1,
    0 <= n <= 2031 -> Forall (fun r => is_u 5 r /\ r <> SP) rs -> (length rs <= 255)%nat ->
    is_u 5 r0 -> r0 <> SP -> r0 <> 0 -> is_u 5 r1 -> r1 <> SP -> r1 <> 0 -> r0 <> r1 ->
    triple (Macro.EnterFrame n) a
      (fun lo hi g h => n + 16 <= g SP /\ stack_room 16 lo hi g h) (entered n) /\
    (forall g0, regs_wf g0 -> 16 <= g0 SP ->
     triple Macro.LeaveFrame a (fun _ _ g h => frame_of g0 g h) (left_frame g0)) /\
    triple (Macro.PushRegistersInOrder rs) a (stack_room (8 * Z.of_nat (length rs))) (pushed rs) /\
    (Macro.PushRegister r0 a = Macro.PushRegistersInOrder [r0] a /\
     Macro.PushRegisterPair r0 r1 a = Macro.PushRegistersInOrder [r1; r0] a) /\
    triple (Macro.PopRegister r0) a (fun _ _ g h => word_at h (g SP) v0) (popped [r0] [v0]) /\
    triple (Macro.PopRegisterPair r0 r1) a
      (fun _ _ g h => word_at h (g SP) v0 /\ word_at h (u64 (g SP + 8)) v1) (popped [r0; r1] [v0; v1])) /\
  (forall reg b imm sz load_op store_op index v,
    is_u 5 reg -> reg <> 0 -> reg <> TMP2 -> is_u 5 b -> b <> 0 -> b <> TMP2 -> reg <> b ->
    - 2 ^ 31 <= imm < 2 ^ 31 - 2 ^ 11 -> lop_of sz = Some load_op -> sop_of sz = Some store_op ->
    0 <= index -> element_offset index < 2 ^ 31 - 2 ^ 11 ->
    triple (Macro.Load reg (mkAddress b imm) sz) a
      (fun _ _ g h => host_load (lop_type load_op) (u64 (g b + imm)) h = Ok v)
      (fun g h g' h' => g' reg = u64 v /\ only [reg; TMP2] g g' /\ h' = h) /\
    triple (Macro.Store reg (mkAddress b imm) sz) a
      (fun lo hi g h => writable lo hi h (u64 (g b + imm)) (ct_sizeof (sop_type store_op)))
      (fun g h g' h' => host_store (sop_type store_op) (u64 (g b + imm))
         (uwrap (ct_bits (sop_type store_op)) (g reg)) h = Ok h' /\ only [TMP2] g g') /\
    triple (Macro.LoadWordFromPoolIndex reg index b) a
      (fun _ _ g h => word_at h (u64 (g b + element_offset index)) v)
      (fun g h g' h' => g' reg = v /\ only [reg] g g' /\ h' = h)).
Proof.
  split.
  - intros n rs r0 r1 v0 v1 Hn Hrs Hl. intros. split_and!.
    + by apply EnterFrame_triple.
    + intros g0. apply LeaveFrame_triple.
    + by apply PushRegistersInOrder_triple.
    + by rewrite PushRegister_one.
    + by rewrite PushRegisterPair_two.
    + by apply PopRegister_triple.
    + by apply PopRegisterPair_triple.
  - intros reg b imm sz load_op store_op index v. intros. split_and!.
    + by apply (Load_triple a reg b imm sz load_op v).
    + by apply (Store_triple a reg b imm sz store_op).
    + by apply LoadWordFromPoolIndex_triple.
Qed.
End Claims.

(** ** The theorems at concrete operands *)

#[local] Instance empty_pool : ObjectPool unit := {| FindImmediate _ p := Ok (0, p) |}.

Definition example_assembler : Assembler unit := mkAssembler (mkAsm [] 0 0) tt false kNone 0 0 0.
Definition example_registers : regs := fun r => if r =? 0 then 0 else 0x1000.
Definition example_stack : host := image [(0xF00, repeat 0 256)].

Lemma example_room n : 0 <= n <= 256 -> stack_room n 0 0x100 example_registers example_stack.
Proof.
  intros Hn. unfold stack_room, writable. change (example_registers SP) with 0x1000.
  split_and!; [lia|lia| |right; lia]. intros i Hi.
  assert (Hm : Forall (fun q => is_Some (example_stack !! q)) (seqZ 0xF00 256)).
  { apply (bool_decide_eq_true_1 _). vm_compute. reflexivity. }
  rewrite Forall_forall in Hm. apply Hm, elem_of_seqZ. lia.
Qed.

Example stack_and_memory_witness :
  (triple (Macro.EnterFrame 32) example_assembler
      (fun lo hi g h => 32 + 16 <= g SP /\ stack_room 16 lo hi g h) (entered 32) /\
    stack_room 16 0 0x100 example_registers example_stack /\
    triple (Macro.PushRegistersInOrder [10; 11; 12]) example_assembler (stack_room 24) (pushed [10; 11; 12]) /\
    stack_room 24 0 0x100 example_registers example_stack) /\
  triple (Macro.Load 10 (mkAddress 11 0x12345678) kFourBytes) example_assembler
    (fun _ _ g h => host_load int32_t (u64 (g 11 + 0x12345678)) h = Ok 7)
    (fun g h g' h' => g' 10 = u64 7 /\ only [10; TMP2] g g' /\ h' = h) /\
  triple (Macro.LoadWordFromPoolIndex 10 1000 11) example_assembler
    (fun _ _ g h => word_at h (u64 (g 11 + element_offset 1000)) 7)
    (fun g h g' h' => g' 10 = 7 /\ only [10] g g' /\ h' = h).
Proof.
  destruct (stack_and_memory example_assembler) as [Hstack Hmem]. split.
  - destruct (Hstack 32 [10; 11; 12] 10 11 0 0) as (He & _ & Hp & _); try done.
    + by rewrite !Forall_cons.
    + cbn. lia.
    + split_and!; [exact He|by apply example_room|exact Hp|by apply example_room].
  - destruct (Hmem 10 11 0x12345678 kFourBytes LW SW 1000 7) as (Hl & _ & Hp); try done.
Defined.
