(* ===== verification/RiscvPoolConstants.v ===== *)
(** * Constants from the object pool

    The builder of the object pool is what the macro assembler asks of a pool:
    [LoadImmediate], when it may use the pool, puts the constants it cannot build in two
    instructions into the builder and emits code that loads them from the pool that the
    generated code finds at [PP].  The theorem joins the two: run on the simulator with
    the words of the pool in memory, the code leaves the constant in its register. *)

From S2P Require Import Prelude Utils BitField HashMap HashMapCorrect ObjectPool ObjectPoolCorrect.
From S2P Require Import RiscvConstants RiscvEncoding RiscvAssembler RiscvLabels SimMemory SimMemoryProofs RiscvSimulator RiscvInvariant.
From S2P Require Import RiscvIsa RiscvCorrect RiscvEmit RiscvPrograms RiscvMacro RiscvMacroRuns RiscvMacroImmediates RiscvMacroStack.

(** The way the map fails: [FATAL] at the limit on probes, and what does not happen. *)
Definition pool_error (e : map_error) : asm_error :=
  match e with
  | ProbesLimit => Fatal
  | ArrayBounds => OutsideBuffer 0
  | EndlessProbe | NestedResize => LoopFuel
  end.

Section Pool.
Context {Object : Type} `{PoolObjectLaws Object} (probes_limit : Z) (parent : option (ObjectPoolBuilder Object)).

(** [object_pool_builder().FindImmediate]. *)
#[local] Instance builder_pool : ObjectPool (ObjectPoolBuilder Object) := {|
  FindImmediate imm b :=
    match Pool.FindImmediate probes_limit parent imm b with
    | Ok (index, b) => Ok (index, b)
    | Err e => Err (pool_error e)
    end
|}.

(** The words of the pool, and of its parent, are in memory from [pp] on. *)
Definition pool_loaded (b : ObjectPoolBuilder Object) (pp : Z) (h : host) : Prop :=
  forall i e w, value_ e = imm_ w ->
    (PoolFacts.place b i = Some e \/ exists p, parent = Some p /\ PoolFacts.place p i = Some e) ->
    word_at h (u64 (pp + element_offset i)) w.

Definition index_limit : Z := 2 ^ 27.

(** The offsets of the pool and of its parent fit in the instructions. *)
Definition pool_short (b : ObjectPoolBuilder Object) : Prop :=
  base_index_ b + Z.of_nat (length (object_pool_ b)) < index_limit /\
  match parent with
  | Some p => base_index_ p + Z.of_nat (length (object_pool_ p)) < index_limit
  | None => True
  end.

Lemma found_word b i imm pp h :
  PoolFacts.found parent b i (word_entry imm kImmediate kNotPatchable kSnapshotable) ->
  pool_loaded b pp h -> word_at h (u64 (pp + element_offset i)) imm.
Proof.
  assert (Hv : forall q e', PoolFacts.place q i = Some e' ->
    EntryEqual (e', i) (word_entry imm kImmediate kNotPatchable kSnapshotable) = true -> value_ e' = imm_ imm).
  { intros q e' _. unfold EntryEqual. destruct (negb _); [done|]. cbn [fst word_entry value_].
    destruct (value_ e'); try done. by intros ->%Z.eqb_eq. }
  intros [(e' & E1 & E2)|(p & Ep & e' & E1 & E2)] Hl; apply (Hl i e' imm); eauto.
Qed.


Lemma inline_triple (f : Assembler (ObjectPoolBuilder Object) -> asm_result (Assembler (ObjectPoolBuilder Object)))
    a body reg v pre :
  emits f a body -> keeps body [reg] -> (forall g, regs_wf g -> run body g reg = v) -> is_u 5 reg ->
  triple f a pre (fun g h g' h' => g' reg = v /\ only [reg] g g' /\ h' = h).
Proof.
  intros [Ef Ho] Hk Hv Hu. apply (body_triple _ _ body); [done| | |].
  - rewrite forallb_forall in *. intros i Hi. specialize (Ho i Hi). by destruct i.
  - intros g h g' h' f' Hf (E & Hon & Eh). rewrite Hf by done. split_and!; try done.
    intros r Hr Hin. rewrite Hf by done. auto.
  - intros lo hi g h Hg _ _. exists (run body g), h. split_and!; [|by apply Hv| |done].
    + rewrite <- (app_nil_r body) at 1. rewrite exec_alu_prefix; [done|].
      rewrite forallb_forall in *. intros i Hi. specialize (Ho i Hi). by apply andb_true_iff in Ho as [Ho _].
    + intros r _ Hin. apply run_frame, Forall_forall. intros i Hi Er. apply Hin. rewrite <- Er. by apply Hk.
Qed.

Lemma pool_unchanged dst index pp (a a' : Assembler (ObjectPoolBuilder Object)) :
  Macro.LoadWordFromPoolIndex dst index pp a = Ok a' -> object_pool_builder a' = object_pool_builder a.
Proof. unfold Macro.LoadWordFromPoolIndex. cbv zeta. destruct (_ =? 0); by intros [= <-]. Qed.

(** C15: Constants from the object pool.  When [LoadImmediate] may use the pool, for every 64-bit
    constant it emits code that leaves the constant in its register and changes no other
    register, provided the words of the pool, as it is then or as it is at the end of
    the compilation, are in memory where [PP] points.  The pool keeps its invariant. *)
Theorem pool_constants (a : Assembler (ObjectPoolBuilder Object)) reg imm :
  is_u 5 reg -> reg <> 0 -> reg <> PP -> is_s 64 imm -> constant_pool_allowed_ a = true ->
  PoolFacts.parent_ok probes_limit parent -> PoolFacts.pool_ok probes_limit (object_pool_builder a) ->
  PoolFacts.fits probes_limit (object_pool_builder a) 2 -> pool_short (object_pool_builder a) ->
  exists a', Macro.LoadImmediate reg imm a = Ok a' /\
    PoolFacts.pool_ok probes_limit (object_pool_builder a') /\
    PoolFacts.extends (object_pool_builder a) (object_pool_builder a') /\
    forall final, PoolFacts.extends (object_pool_builder a') final ->
      triple (Macro.LoadImmediate reg imm) a
        (fun _ _ g h => pool_loaded final (g PP) h)
        (fun g h g' h' => g' reg = u64 imm /\ only [reg] g g' /\ h' = h).
Proof.
  intros Hu Hn Hpp Hs Hc Hp Hb Hf Hl. unfold Macro.LoadImmediate.
  destruct (LoadImmediate_cases 3 reg imm a Hu Hn Hs) as [(body & He & Hk & _ & Hv)|(_ & _ & Ew)].
  - exists (appended body a). split_and!; [apply He|done|apply PoolFacts.extends_refl|].
    intros final _. by apply (inline_triple _ a body).
  - unfold wide_branch in Ew. rewrite Hc in Ew. cbn [FindImmediate builder_pool] in Ew. unfold Pool.FindImmediate in Ew.
    destruct (PoolFacts.FindEntry_ok probes_limit parent (object_pool_builder a)
      (word_entry (u64 imm) kImmediate kNotPatchable kSnapshotable) Hp Hb Hf) as (i & b' & E & Hb' & Hx & Hfd & _ & Hi & _);
      [by left|].
    rewrite E in Ew. cbn [mbind result_bind] in Ew.
    assert (Hr : 0 <= i < index_limit).
    { destruct Hl as [L1 L2]. pose proof (PoolFacts.pool_base _ _ Hb).
      destruct Hi as [[Hh|(p & -> & Hh)]| ->]; [| |lia].
      - pose proof (PoolFacts.holds_index _ _ _ Hh). lia.
      - pose proof (PoolFacts.holds_index _ _ _ Hh). pose proof (PoolFacts.pool_base _ _ Hp). lia. }
    assert (Ht : triple (Macro.LoadWordFromPoolIndex reg i PP) (Macro.set_pool b' a)
      (fun _ _ g h => word_at h (u64 (g PP + element_offset i)) (u64 imm))
      (fun g h g' h' => g' reg = u64 imm /\ only [reg] g g' /\ h' = h)).
    { apply LoadWordFromPoolIndex_triple; try done; unfold element_offset, index_limit in *; lia. }
    destruct Ht as (a' & Ea & Ebuf & Hrun).
    assert (Epool : object_pool_builder a' = b') by (by apply (pool_unchanged reg i PP (Macro.set_pool b' a) a')).
    exists a'. split_and!; [by rewrite Ew|by rewrite Epool|by rewrite Epool|].
    intros final Hfin. rewrite Epool in Hfin. exists a'. split_and!; [by rewrite Ew|done|].
    intros s size Hs' Hload Hpc Hpre. apply Hrun; try done.
    apply (found_word final); [|done]. destruct Hfd as [Hh|Hh]; [left; by apply (PoolFacts.holds_extends b')|by right].
Qed.
End Pool.

(** ** A pool in memory *)

Definition example_constant : Z := 0x123456789ABCDEF1.
Definition pool_assembler : Assembler (ObjectPoolBuilder Z) := mkAssembler (mkAsm [] 0 0) example_parent true kNone 0 0 0.
Definition final_pool : ObjectPoolBuilder Z :=
  pool_or_empty ('(_, b) ← Pool.FindImmediate default_limit None example_constant example_parent; Ok b).
Definition little_endian (w : Z) : list Z := map (fun k => (w ≫ (8 * k)) .& 0xff) (seqZ 0 8).
Definition pool_memory : host :=
  image [(0x1010, little_endian (1 + 2 * 2 ^ 32) ++ little_endian (2 ^ 32 - 1 + 4 * 2 ^ 32) ++ little_endian example_constant)].

Lemma final_pool_loaded : pool_loaded None final_pool 0x1000 pool_memory.
Proof.
  assert (Ep : map value_ (object_pool_ final_pool)
    = [imm_ (1 + 2 * 2 ^ 32); imm_ (2 ^ 32 - 1 + 4 * 2 ^ 32); imm_ example_constant]) by (vm_compute; reflexivity).
  assert (Eb : base_index_ final_pool = 0) by (vm_compute; reflexivity).
  assert (Hw : Forall (fun '(k, w) => word_at pool_memory (u64 (0x1000 + element_offset k)) w)
    [(0, 1 + 2 * 2 ^ 32); (1, 2 ^ 32 - 1 + 4 * 2 ^ 32); (2, example_constant)])
    by (repeat constructor; vm_compute; reflexivity).
  rewrite !Forall_cons in Hw. destruct Hw as (H0 & H1 & H2 & _).
  intros i e w Hv [Hp|(p & E & _)]; [|done]. unfold PoolFacts.place in Hp. rewrite Eb, Z.sub_0_r in Hp.
  destruct (0 <=? i) eqn:Ei; [|done]. apply Z.leb_le in Ei.
  assert (El : map value_ (object_pool_ final_pool) !! Z.to_nat i = Some (imm_ w)) by (rewrite list_lookup_fmap, Hp; cbn; by f_equal).
  rewrite Ep in El. destruct (Z.to_nat i) as [|[|[|n]]] eqn:En; cbn in El; [injection El as <-..|discriminate].
  - replace i with 0 by lia. exact H0.
  - replace i with 1 by lia. exact H1.
  - replace i with 2 by lia. exact H2.
Qed.

Example pool_constants_witness :
  pool_loaded None final_pool 0x1000 pool_memory /\
  exists a', @Macro.LoadImmediate _ (builder_pool default_limit None) 10 example_constant pool_assembler = Ok a' /\
    object_pool_builder a' = final_pool /\
    triple (@Macro.LoadImmediate _ (builder_pool default_limit None) 10 example_constant) pool_assembler
      (fun _ _ g h => pool_loaded None final_pool (g PP) h)
      (fun g h g' h' => g' 10 = example_constant /\ only [10] g g' /\ h' = h).
Proof.
  split; [exact final_pool_loaded|].
  destruct (pool_constants default_limit None pool_assembler 10 example_constant) as (a' & E & _ & _ & Ht).
  - done.
  - done.
  - done.
  - done.
  - reflexivity.
  - done.
  - apply example_parent_ok.
  - split; vm_compute; congruence.
  - by vm_compute.
  - assert (Ep : object_pool_builder a' = final_pool).
    { vm_compute in E. injection E as <-. vm_compute. reflexivity. }
    exists a'. split_and!; [exact E|exact Ep|].
    apply Ht. rewrite Ep. apply PoolFacts.extends_refl.
Defined.
